(* ===== verification/_CoqProject ===== *)
-Q . S2P
Prelude.v
Ring.v
Mq.v
MqSpec.v
Handle.v
Timer.v
Netpack.v
Bytes.v
Seri.v
SeriSpec.v
Server.v
SlKey.v
Skiplist.v
SkiplistRep.v
SortedSet.v
Zset.v
Buffer.v
SprotoPack.v
SprotoUnpack.v
Interleave.v
Cluster.v
ClusterSpec.v
ClusterAgent.v
ClusterReply.v
ClusterSafe.v
Effect.v
CString.v
HarborQueue.v
Harbor.v
HarborExec.v
HarborStream.v
HarborLink.v
HarborSafe.v
HarborNames.v
Links.v
Hashid.v
Databuffer.v
Gate.v
GateText.v
GateSpec.v
GateTable.v
GateTrace.v
GateFrames.v
Stm.v
StmInv.v
StmStep.v
StmSafe.v
StmViews.v
SprotoType.v
SprotoSchema.v
SprotoEncode.v
SprotoDecode.v
SprotoSpec.v
SprotoWire.v
SprotoWrite.v
SprotoEncodes.v
SprotoRead.v
SprotoRound.v
SprotoFits.v
SprotoSafe.v
SprotoDefault.v
SocketBuffer.v
SocketTrace.v
Multicast.v
MulticastSafe.v
Commands.v
CommandsSpec.v
Word32.v
Codec.v
Des.v
Md5.v
Dh.v
Sha1.v
