(* ===== verification/Prelude.v ===== *)
(** * sncpp: verification of the C core of a skynet-based game server

    The program is a game server on the skynet actor framework
    (src/framework/skynet).  Services are Lua programs, each with a message queue;
    worker threads take a queue from a global run queue, deliver its messages to
    the service and push the queue back.  A registry maps 32-bit handles and names
    to services, a timer thread sends timeouts, a gate cuts the byte streams of
    sockets into packages, and C libraries for Lua serialize values and hash,
    encrypt and compress strings, and keep sorted sets.  This development models
    that C code and proves what the rest of the system relies on.

    ** Files and what they model

    - [Prelude], [Bytes], [Buffer], [Word32], [CString], [Effect]: machine integers,
      C arrays, byte order, buffers written by position, 32-bit words, C strings,
      actions on a state that emit effects; shared by the other files.
    - [Ring]: ring buffers as lists, for [Mq] and [Netpack].
    - [Mq] (skynet-src/skynet_mq.c): the queue of a service as a growing ring and
      the intrusive run queue.  [MqSpec] is the FIFO scheduler they refine.
    - [Handle] (skynet-src/skynet_handle.c): the open hash table of handles and the
      sorted table of names.
    - [Timer] (skynet-src/skynet_timer.c): the five wheels of the timer, over a
      32-bit clock that wraps.
    - [Netpack] (lualib-src/lua-netpack.c, and the packet loop of
      lualib/snax/gateserver.lua as its client, whose handler may close sockets):
      packages out of a byte stream cut anywhere.
    - [Seri] (lualib-src/lua-seri.c): the serialization of Lua values in blocks of
      128 bytes; [SeriSpec] is the format as a function to bytes.
    - [Server] (skynet-src/skynet_server.c): contexts with reference counts, launch,
      retirement and the dispatch loop, as atomic actions of any number of threads
      interleaved in any order, on the queues of [Mq].  A launch is several actions, and
      the reference that the harbor keeps by [skynet_context_reserve] is one of a thread
      of its own.
    - [Commands] (skynet_server.c, skynet_harbor.c, skynet_log.c): what services call,
      messages to handles, names and other nodes, and the text commands, as actions on
      the registry of [Handle] that emit effects; [CommandsSpec]: what they guarantee.
    - [SlKey], [Skiplist], [SkiplistRep] (framework/lib/lua-zset/skiplist.c): the skip
      list of the sorted sets, nodes in a heap with their links, spans and backward
      pointers; [SortedSet] (lua-skiplist.c) is the Lua object with its specification
      as a sorted list, [Zset] (zset.lua) the client in Lua.
    - [SprotoPack], [SprotoUnpack] (lualib-src/sproto/sproto.c and lsproto.c): zero
      packing, with the buffers of the Lua binding.
    - [SprotoType] (sproto.c): schemas out of a bundle, and the lookup of types, fields
      and protocols; [SprotoSchema]: the invariants of every schema that is loaded.
      [SprotoEncode], [SprotoDecode] (sproto.c, lsproto.c): [sproto_encode] and
      [sproto_decode] over a callback, and the callbacks that walk Lua tables.
      [SprotoSpec]: the message as a value, its format as a function to bytes, and when a
      Lua table holds it; [SprotoWire], [SprotoWrite], [SprotoEncodes], [SprotoRead],
      [SprotoRound]: both directions against that format; [SprotoFits], [SprotoSafe]:
      arbitrary values and arbitrary bytes; [SprotoDefault]: protocols, shared schemas and
      the tables of default values.
    - [Cluster], [ClusterSpec] (lualib-src/lua-cluster.c): the messages between the
      nodes of a cluster and their format; [Interleave]: streams that share a
      connection; [ClusterAgent] (service/clusteragent.lua), [ClusterReply]
      (lualib/skynet/socketchannel.lua, service/clustersender.lua): the two clients in
      Lua; [ClusterSafe]: packages from an unknown sender.
    - [HarborQueue], [Harbor] (service-src/service_harbor.c, skynet-src/skynet_harbor.c):
      the service that connects the nodes of one skynet network, as actions on its
      state that emit effects (bytes sent, messages to local services, frees);
      [HarborExec] and [HarborStream]: what each operation does, and the reassembly of
      packages from a stream cut anywhere; [HarborLink]: two nodes and their
      connection; [HarborSafe]: where the buffers go; [HarborNames]: global names.
    - [Links]: linked lists in memory, for [Hashid] and [Databuffer].
    - [Hashid] (service-src/hashid.h): the hash map of the gate as an injective map;
      [Databuffer] (databuffer.h): the buffers of its connections as strings, with
      their shared pool of nodes; [Gate] (service_gate.c): the service on top of them,
      as actions that emit effects.  [GateText]: commands as text; [GateSpec]: the
      specification, a table of connections with the bytes still to be delivered;
      [GateTable]: every event refines it; [GateTrace]: from [gate_init] to
      [gate_release]; [GateFrames]: what the clients of the gate see.
    - [Stm] (lualib-src/lua-stm.c, skynet-src/rwlock.h): objects shared between services
      under reader-writer locks, as steps of any number of threads; [StmInv], [StmStep],
      [StmSafe]: references and memory; [StmViews]: what readers see.
    - [SocketBuffer] (lualib-src/lua-socket.c): the buffers of the Lua socket library, with
      their nodes in chunks that all buffers of a service share; [SocketTrace]: calls on
      any number of buffers.
    - [Multicast] (lualib-src/lua-multicast.c, service/multicastd.lua,
      lualib/skynet/multicast.lua): packages that are counted once per subscriber, as
      events of all the services of a node; [MulticastSafe]: references and deliveries.
    - [Codec] (lualib-src/lua-crypt.c): hexadecimal, base64, xor.
    - [Des], [Md5], [Dh] (lualib-src/lua-crypt.c): DES with its padding modes, the
      hashes built on the MD5 compression function, Diffie-Hellman modulo 2^64-59.
    - [Sha1] (lualib-src/lsha1.c): SHA-1 and HMAC-SHA1.

    PROJECT.json maps each definition to its lines.

    ** Conventions

    A C function is a Rocq function.  State is passed explicitly; [None] is what the
    code must never do: a failed [assert], an access outside an array, a null or
    dangling pointer, an overflow of a signed [int], or a loop that runs out of
    fuel.  Theorems that give [Some] are therefore also theorems of memory safety
    and termination.  Errors that the code reports are values: [inl tt] for a Lua
    error, [inl] of a [pack_error] in [SprotoUnpack], [Err] in [Seri], -1 where the code
    returns it.  Unsigned integers wrap explicitly.  Strings and buffers are lists of
    bytes ([byte_ok]).  Memory that the code leaves uninitialised is given some value,
    which no theorem depends on.  A critical section under a lock is one step, and two
    critical sections of one function are two steps.  The heap and the stacks of C and
    Lua are assumed to be large enough: an allocation does not fail.

    ** What is proved

    - Scheduling ([Server]): a queue is in the run queue at most once and has at
      most one worker; no reachable step reads a freed context or fails an
      assertion, but for two races with a launch: after the launch has dropped its
      reference a kill may free the context before it is marked, logged or answered
      for ([launch_log_race_reachable]), and a message to a handle that is registered but not
      returned yet may find no queue ([early_send_reachable]).  Every context is freed exactly
      when its last reference goes, that of the harbor included.
    - Queues ([Mq], [MqSpec]): every trace of operations is one of a FIFO scheduler,
      through growth and wrapping; the overload report.
    - Registry ([Handle]): the invariant of the table under all operations,
      registration then lookup, retirement, names, the end of the system.
      Registration and the store of the handle in the context are two steps, as in the
      code; when the table is doubled between them the rehash may fail its assertion,
      which is exhibited ([register_race_aborts]) and excluded elsewhere.
    - Calls ([CommandsSpec]): a message is delivered once to the destination that it
      names or its sender is told (only a message without data to the handle 0 is
      neither), and its memory is handed over or freed once; a name leads to its service
      until that is killed.
    - Timer: a timeout fires at its time and not before, over the cascade of
      wheels; the clock catches up.
    - Framing ([Netpack]): every split of a stream gives the packages that were
      sent; closing a socket frees what it holds; a handler gets the messages of a
      socket until it closes it.
    - Serialization ([Seri], [SeriSpec]): unpacking what was packed gives it back;
      unpacking any bytes ends in a value or an error and reads nothing outside them (a
      read outside the buffer is a fault of the model), with a recursion that no limit
      bounds but the length of the input ([unpack_deep]); which values are accepted.
    - Sorted sets ([SortedSet], [Zset]): any sequence of calls gives the results of a
      list sorted by score and member, whatever levels the random generator gives;
      ranks (unsigned, so that a negative one does not count from the end) and ranges,
      and that every node is freed at the end.
    - Packing ([SprotoPack], [SprotoUnpack]): round trip, the size bound that the
      binding reserves, safety on any input; above 8 MB the binding may refuse a valid
      message as too large.
    - Messages ([SprotoSchema], [SprotoRound], [SprotoFits], [SprotoSafe]): a schema that
      loads is well formed; encoding a table of any nesting up to 64 levels gives the bytes
      of the format, and decoding them the same message; encoding any value stays inside
      the buffer, when the struct of each map field has two fields, which the loader does
      not check ([map_of_one_field]); decoding any bytes stays inside the message, unless
      a length wraps a 32-bit sum, which is exhibited.
    - Cluster: requests and responses of any size are delivered once and unchanged,
      however their parts mix on the connection; no package makes the unpacking read
      outside it.
    - Harbor: messages sent before, during and after the handshake arrive once, in
      order and unchanged; a buffer handed to the service is in one queue or freed, and
      what is freed was sent, or is logged as lost because its node is down, through any
      commands and any events but data; messages to a name follow its handle.
    - Gate: commands that are written out in full and any events of sockets give what
      the specification gives; a block of data is freed once, except that those held
      when the gate ends are not ([release_leaks]); packages arrive once, whole and in
      order, however they are cut.  A connection that is accepted after the listening
      socket was closed fails an assertion ([accept_after_close]).
    - Shared objects ([StmSafe], [StmViews]): no interleaving reads freed memory or frees
      it twice, apart from a race of two releases that is exhibited; a reader sees only
      states that the writer has published, in their order.
    - Socket buffers ([SocketTrace]): reads and lines are those of a string, however it
      was cut into blocks; every block is freed once, by a read or at the end.  Sizes are
      not negative ([pop_negative_size]).
    - Multicast ([MulticastSafe]): each subscriber takes what was published while it was
      subscribed, in order; a package is freed once, after its last subscriber.
    - [Codec], [Des]: round trips for all inputs within the buffers, safety of base64
      decoding on any input, rejected arguments; the size of the base64 encoding of more
      than 1610612733 bytes overflows ([base64_overflows]).
    - [Md5], [Sha1]: the functions are those of RFC 1321, FIPS 180 and RFC 2104.
    - [Dh]: the two parties agree; exponentiation does not overflow.
    - The theorems named in the findings of PROJECT.json show where the code does
      not do what it means to.

    ** Bounds and fuel

    Fuel bounds the loops whose recursion is not structural: the length of the input
    where every round reads a byte (plus one for the test that ends the loop), the
    number of bits of an exponent in [Dh], the number of slots in [Handle], the
    number of nodes in [Skiplist], the size of the waiting queue and the bytes
    received (plus two) in [Harbor] and [Gate].  The theorems show that the fuel given by the
    definitions is enough.  Some theorems bound sizes where the code has [int]s:
    queues below 2^29 messages, less than 2^31 messages handled by a service, packages
    in a [Netpack] queue below 2^29 - 1 and ids of sockets at most 2^30, less than 2^31
    centiseconds between two calls of [skynet_updatetime], 2^27 bytes for [lunpack],
    sorted sets below 2^31 members,
    2^30 waiting messages of 2^24 bytes in [Harbor], 2^30 connections with less than
    2^31 bytes waiting in [Gate], strings below 2^31 bytes ([Seri] and [Sha1] show
    what happens above; [Des] has casts to [int] that are the identity below).
    [SprotoRound] asks that the message needs at most half of the largest buffer of
    16 MB, the last size that the doubling of [lencode] is sure to reach; 32 doublings
    suffice.  It is about arrays without a main index and integers without decimals.
    [Multicast] has less than 2^23 events, so that [command.NEW] finds a free number, and
    a socket buffer holds less than 2^31 bytes in blocks that are not empty.
    [Server] assumes that a handle that was retired is not given out again, which
    takes 2^24 launches.

    ** Not modelled

    System calls and glue: the socket server, process start, the text of logs, TLS, the
    bindings that only move arguments of the Lua stack.  The calls of [Commands] are
    whole steps; the interleaving of threads inside them is in [Server].  The Lua VM is a parameter
    where it matters ([Seri]).  Locks are replaced by atomic steps and the weak
    memory model is ignored.  Third party libraries are not part of the program.
    Of the program's own C code, BSON (lua-bson.c) is left out: it writes Lua values of
    every type of the database through the Lua stack, and most of a model of it would be
    a model of that; sproto's tables with a main index and decimals are modelled, but the
    round trip is not about them.  Services do not exit while a multicast package waits
    for them, and the unpack function of a channel raises no error: the package would be
    lost. *)
(** Machine integers, C arrays, byte order, and the error convention shared by
    every component. *)
From stdpp Require Export base tactics numbers list option gmap.
From Stdlib Require Export ZArith Lia ZifyBool ZifyNat.

Declare Scope c_scope.
Delimit Scope c_scope with C.
Global Open Scope Z_scope.

(** ** The error convention

    A C operation is a function to [option]: [None] is an abort, that is a
    failed [assert], a read of an uninitialised or missing cell, a null
    dereference, or an overflow of a signed [int].  The theorems of the
    components show when an operation is [Some]. *)

Definition c_assert (b : bool) : option unit := if b then Some tt else None.

Notation "'assert!' b ; k" := (c_assert b ≫= λ _, k)
  (at level 20, b at level 100, k at level 200, right associativity) : stdpp_scope.

Lemma c_assert_true (b : bool) {A} (k : option A) :
  b = true → (c_assert b ≫= λ _, k) = k.
Proof. by intros ->. Qed.

(** ** Machine integers *)

Definition INT_MAX : Z := 2147483647.
Definition INT_MIN : Z := -2147483648.
Definition in_int (z : Z) : bool := (INT_MIN <=? z) && (z <=? INT_MAX).

(** The value of a signed [int] expression: overflow is undefined. *)
Definition c_int (z : Z) : option Z := if in_int z then Some z else None.

(** Conversion to an unsigned and to a two's complement type of [w] bits. *)
Definition wrap (w z : Z) : Z := z mod 2 ^ w.
Definition swrap (w z : Z) : Z := (z + 2 ^ (w - 1)) mod 2 ^ w - 2 ^ (w - 1).

Lemma c_int_Some z : INT_MIN ≤ z ≤ INT_MAX → c_int z = Some z.
Proof.
  intros [H1 H2]. unfold c_int, in_int.
  apply Z.leb_le in H1, H2. by rewrite H1, H2.
Qed.

Lemma c_int_inv z z' : c_int z = Some z' → z' = z ∧ INT_MIN ≤ z ≤ INT_MAX.
Proof.
  unfold c_int, in_int. destruct (INT_MIN <=? z) eqn:E1, (z <=? INT_MAX) eqn:E2;
    simpl; intros; simplify_eq; lia.
Qed.

Lemma wrap_range w z : 0 ≤ w → 0 ≤ wrap w z < 2 ^ w.
Proof. intros. apply Z.mod_pos_bound. lia. Qed.

Lemma wrap_small w z : 0 ≤ z < 2 ^ w → wrap w z = z.
Proof. apply Z.mod_small. Qed.

Lemma swrap_range w z : 1 ≤ w → - 2 ^ (w - 1) ≤ swrap w z < 2 ^ (w - 1).
Proof.
  intros Hw. unfold swrap.
  assert (2 ^ w = 2 * 2 ^ (w - 1)) as E.
  { rewrite <- Z.pow_succ_r by lia. f_equal. lia. }
  pose proof (Z.mod_pos_bound (z + 2 ^ (w - 1)) (2 ^ w)). lia.
Qed.

Lemma swrap_small w z : 1 ≤ w → - 2 ^ (w - 1) ≤ z < 2 ^ (w - 1) → swrap w z = z.
Proof.
  intros Hw Hz. unfold swrap.
  assert (2 ^ w = 2 * 2 ^ (w - 1)) as E.
  { rewrite <- Z.pow_succ_r by lia. f_equal. lia. }
  rewrite Z.mod_small; lia.
Qed.

Lemma swrap_wrap w z : 1 ≤ w → swrap w (wrap w z) = swrap w z.
Proof.
  intros Hw. unfold swrap, wrap. rewrite Zplus_mod_idemp_l. done.
Qed.

(** A sum of two values below the modulus wraps at most once. *)
Lemma mod_once x c : 0 ≤ x < 2 * c → x mod c = if x <? c then x else x - c.
Proof.
  intros. destruct (Z.ltb_spec x c).
  - apply Z.mod_small. lia.
  - replace x with (x - c + 1 * c) at 1 by lia.
    rewrite Z_mod_plus_full. apply Z.mod_small. lia.
Qed.

(** A mask of low bits is a remainder. *)
Lemma land_mask z n : 0 ≤ n → Z.land z (2 ^ n - 1) = z mod 2 ^ n.
Proof.
  intros. rewrite <- Z.land_ones by done. f_equal. rewrite Z.ones_equiv. lia.
Qed.

(** Disjoint bit fields add up. *)
Lemma land_disjoint a b n : 0 ≤ n → 0 ≤ a < 2 ^ n → Z.land a (b * 2 ^ n) = 0.
Proof.
  intros Hn Ha. apply Z.bits_inj'. intros i Hi.
  rewrite Z.land_spec, Z.bits_0. destruct (Z.lt_ge_cases i n).
  - rewrite Z.mul_pow2_bits_low by lia. apply andb_false_r.
  - rewrite <- (Z.mod_small a (2 ^ n)), Z.mod_pow2_bits_high by lia. done.
Qed.

Lemma lor_add a b n : 0 ≤ n → 0 ≤ a < 2 ^ n → Z.lor a (b * 2 ^ n) = a + b * 2 ^ n.
Proof.
  intros Hn Ha. rewrite Z.add_nocarry_lxor by (by apply land_disjoint).
  symmetry. apply Z.lxor_lor. by apply land_disjoint.
Qed.

(** A remainder by a small power of two ignores the high bits. *)
Lemma mod_pow2_add_mul z b m n : 0 ≤ m ≤ n → (z + b * 2 ^ n) mod 2 ^ m = z mod 2 ^ m.
Proof.
  intros ?. replace (b * 2 ^ n) with (b * 2 ^ (n - m) * 2 ^ m); [apply Z_mod_plus_full|].
  rewrite <- Z.mul_assoc, <- Z.pow_add_r by lia. do 2 f_equal. lia.
Qed.

(** ** C arrays: an access out of range aborts *)

Section arrays.
Context {A : Type}.
Implicit Types (a : list A) (i : Z).

Definition aget a i : option A :=
  if 0 <=? i then a !! Z.to_nat i else None.

Definition aset a i (x : A) : option (list A) :=
  if (0 <=? i) && (i <? Z.of_nat (length a)) then Some (<[Z.to_nat i := x]> a) else None.

Lemma aset_Some a i x :
  0 ≤ i < Z.of_nat (length a) → aset a i x = Some (<[Z.to_nat i := x]> a).
Proof.
  intros [H1 H2]. unfold aset. apply Z.leb_le in H1. apply Z.ltb_lt in H2.
  by rewrite H1, H2.
Qed.

Lemma aset_inv a i x a' :
  aset a i x = Some a' → 0 ≤ i < Z.of_nat (length a) ∧ a' = <[Z.to_nat i := x]> a.
Proof.
  unfold aset. destruct (Z.leb_spec 0 i), (Z.ltb_spec i (Z.of_nat (length a)));
    simpl; intros; simplify_eq; done.
Qed.

Lemma length_aset a i x a' : aset a i x = Some a' → length a' = length a.
Proof. intros [_ ->]%aset_inv. apply length_insert. Qed.

Lemma aget_aset_eq a i x a' : aset a i x = Some a' → aget a' i = Some x.
Proof.
  intros [[H1 H2] ->]%aset_inv. unfold aget.
  rewrite (proj2 (Z.leb_le _ _) H1).
  apply list_lookup_insert_eq. lia.
Qed.

Lemma aget_aset_ne a i j x a' : aset a i x = Some a' → i ≠ j → aget a' j = aget a j.
Proof.
  intros [[H1 H2] ->]%aset_inv Hne. unfold aget. destruct (Z.leb_spec 0 j); [|done].
  apply list_lookup_insert_ne. lia.
Qed.

Lemma aget_Some_range a i x : aget a i = Some x → 0 ≤ i < Z.of_nat (length a).
Proof.
  unfold aget. destruct (Z.leb_spec 0 i); [|done].
  intros ?%lookup_lt_Some. lia.
Qed.

Lemma aget_is_Some a i : 0 ≤ i < Z.of_nat (length a) → is_Some (aget a i).
Proof.
  intros [H1 H2]. unfold aget.
  rewrite (proj2 (Z.leb_le _ _) H1).
  apply lookup_lt_is_Some. lia.
Qed.

Lemma aget_nat a (n : nat) : aget a (Z.of_nat n) = a !! n.
Proof. unfold aget. destruct (Z.leb_spec 0 (Z.of_nat n)); [|lia]. by rewrite Nat2Z.id. Qed.
End arrays.

#[global] Arguments aget : simpl never.
#[global] Arguments aset : simpl never.
#[global] Arguments c_int : simpl never.
#[global] Arguments wrap : simpl never.
#[global] Arguments swrap : simpl never.
#[global] Arguments Z.leb : simpl never.
#[global] Arguments Z.ltb : simpl never.
#[global] Arguments Z.eqb : simpl never.
#[global] Arguments Z.modulo : simpl never.
#[global] Arguments Z.div : simpl never.
#[global] Arguments Z.pow : simpl never.
#[global] Arguments Z.mul : simpl never.
#[global] Arguments Z.add : simpl never.
#[global] Arguments Z.sub : simpl never.
#[global] Arguments Z.of_nat : simpl never.
#[global] Arguments Z.to_nat : simpl never.
#[global] Arguments Z.land : simpl never.
#[global] Arguments Z.lor : simpl never.
#[global] Arguments Z.shiftl : simpl never.
#[global] Arguments Z.shiftr : simpl never.

Create HintDb cdb discriminated.
#[export] Hint Resolve c_int_Some wrap_small aset_Some : cdb.

(** Inverts the binds of a hypothesis [H : m = Some x]. *)
Ltac bind_inv :=
  repeat match goal with
  | H : mbind _ _ = Some _ |- _ => apply bind_Some in H as (? & ? & ?)
  | H : c_assert ?b = Some _ |- _ => destruct b eqn:?; [clear H | discriminate H]
  | H : c_int _ = Some _ |- _ => apply c_int_inv in H as [-> ?]
  end; simplify_eq/=.
