(* ===== verification/Ring.v ===== *)
(** * Ring buffers

    The circular arrays of skynet_mq.c and lua-netpack.c share their index
    arithmetic: a cell array of [cap] entries, [head] the oldest entry, [tail]
    the first free one, and a full ring is unrolled into a larger array.  This
    file relates such a ring to the list of its entries. *)
From S2P Require Import Prelude.
Local Open Scope Z_scope.

Lemma mod_cap_inj h c i j :
  0 ≤ h < c → 0 ≤ i < c → 0 ≤ j < c → (h + i) mod c = (h + j) mod c → i = j.
Proof. intros ???. rewrite !mod_once by lia. repeat case_match; lia. Qed.

(** The index after [i], as the code steps it. *)
Definition ring_next (cap i : Z) : Z := if cap <=? i + 1 then 0 else i + 1.

Lemma ring_next_mod cap i : 0 ≤ i < cap → ring_next cap i = (i + 1) mod cap.
Proof. intros. unfold ring_next. rewrite mod_once by lia. repeat case_match; lia. Qed.

Section ring.
Context {A : Type}.
Implicit Types (a : list (option A)) (cap head tail : Z) (l : list A).

(** The cells from [head] hold [l]. *)
Definition ring_cells a cap head l : Prop :=
  ∀ i m, l !! i = Some m → aget a ((head + Z.of_nat i) mod cap) = Some (Some m).

(** A ring between operations is never full. *)
Record ring_ok a cap head tail l : Prop := {
  rk_len : Z.of_nat (length a) = cap;
  rk_head : 0 ≤ head < cap;
  rk_lt : Z.of_nat (length l) < cap;
  rk_tail : tail = (head + Z.of_nat (length l)) mod cap;
  rk_get : ring_cells a cap head l }.

(** After a push that caught up with [head], until it is unrolled. *)
Record ring_full a cap head l : Prop := {
  rf_len : Z.of_nat (length a) = cap;
  rf_head : 0 ≤ head < cap;
  rf_all : Z.of_nat (length l) = cap;
  rf_get : ring_cells a cap head l }.

(** The unrolling loop of the two [expand_queue]s. *)
Definition ring_unroll a cap head : option (list (option A)) :=
  mapM (λ i, aget a ((head + i) mod cap)) (seqZ 0 cap).

Lemma ring_ok_tail_range a cap head tail l : ring_ok a cap head tail l → 0 ≤ tail < cap.
Proof. intros []. subst tail. apply Z.mod_pos_bound. lia. Qed.

Lemma ring_ok_nil a cap : 0 < cap → Z.of_nat (length a) = cap → ring_ok a cap 0 0 [].
Proof. intros. split; simpl; try lia; [|done]. by rewrite Z.mod_small by lia. Qed.

Lemma ring_ok_length a cap head tail l :
  ring_ok a cap head tail l →
  (if head <=? tail then tail - head else tail + cap - head) = Z.of_nat (length l).
Proof. intros []. subst tail. rewrite mod_once by lia. repeat case_match; lia. Qed.

Lemma ring_ok_empty a cap head tail l : ring_ok a cap head tail l → (head = tail ↔ l = []).
Proof.
  intros []. subst tail. rewrite mod_once by lia. split.
  - case_match; intros; [|lia]. apply length_zero_iff_nil. lia.
  - intros ->. cbn [length] in *. case_match; lia.
Qed.

Lemma ring_cells_put a cap head tail l m a' :
  ring_ok a cap head tail l → aset a tail (Some m) = Some a' →
  ring_cells a' cap head (l ++ [m]).
Proof.
  intros [] Ha i m' [Hi|[Hge Hi]]%lookup_app_Some.
  - pose proof (lookup_lt_Some _ _ _ Hi).
    rewrite (aget_aset_ne _ _ _ _ _ Ha); [by apply rk_get0|].
    subst tail. intros ?%mod_cap_inj; lia.
  - apply list_lookup_singleton_Some in Hi as [Hi ->].
    replace i with (length l) by lia. rewrite <- rk_tail0. by eapply aget_aset_eq.
Qed.

(** Writing at [tail] appends; the ring is full when [tail] meets [head]. *)
Lemma ring_put a cap head tail l m :
  ring_ok a cap head tail l →
  ∃ a', aset a tail (Some m) = Some a' ∧
    ((head ≠ ring_next cap tail ∧ ring_ok a' cap head (ring_next cap tail) (l ++ [m])) ∨
     (head = ring_next cap tail ∧ ring_full a' cap head (l ++ [m]))).
Proof.
  intros R. pose proof (ring_ok_tail_range _ _ _ _ _ R). pose proof R as [].
  destruct (aset a tail (Some m)) as [a'|] eqn:Ha; [|rewrite aset_Some in Ha by lia; done].
  exists a'. split; [done|]. pose proof (length_aset _ _ _ _ Ha) as Hl.
  pose proof (ring_cells_put _ _ _ _ _ _ _ R Ha) as Hc.
  assert (ring_next cap tail = (head + Z.of_nat (length (l ++ [m]))) mod cap) as Hn.
  { rewrite ring_next_mod by done. rewrite rk_tail0, Zplus_mod_idemp_l, length_app. f_equal. simpl. lia. }
  rewrite Hn. rewrite length_app in *. cbn [length] in *.
  destruct (Z.eq_dec (Z.of_nat (length l) + 1) cap).
  - right. rewrite mod_once by lia. split; [case_match; lia|].
    split; rewrite ?length_app; cbn [length]; try done; lia.
  - left. split; [rewrite mod_once by lia; case_match; lia|].
    split; rewrite ?length_app; cbn [length]; try done; lia.
Qed.

Lemma ring_full_unroll a cap head l :
  ring_full a cap head l → ring_unroll a cap head = Some (map Some l).
Proof.
  intros []. unfold ring_unroll. apply mapM_Some, Forall2_same_length_lookup_2.
  { rewrite length_seqZ, length_map. lia. }
  intros i x y Hx Hy. apply lookup_seqZ in Hx as [-> Hi].
  apply list_lookup_fmap_Some in Hy as (m & -> & Hm). rewrite Z.add_0_l. by apply rf_get0.
Qed.

(** The unrolled entries at the front of a larger array. *)
Lemma ring_ok_unrolled l (extra : nat) :
  (0 < extra)%nat →
  ring_ok (map Some l ++ replicate extra None)
    (Z.of_nat (length l) + Z.of_nat extra) 0 (Z.of_nat (length l)) l.
Proof.
  intros. split; try lia.
  - rewrite length_app, length_map, length_replicate. lia.
  - rewrite Z.mod_small; lia.
  - intros i m Hi. pose proof (lookup_lt_Some _ _ _ Hi).
    rewrite Z.mod_small, Z.add_0_l, aget_nat by lia.
    rewrite lookup_app_l by (rewrite length_map; lia). by apply list_lookup_fmap_Some; eauto.
Qed.

(** Reading at [head] yields the oldest entry. *)
Lemma ring_take a cap head tail m l :
  ring_ok a cap head tail (m :: l) →
  aget a head = Some (Some m) ∧ ring_ok a cap (ring_next cap head) tail l.
Proof.
  intros []. cbn [length] in *. split.
  - rewrite <- (rk_get0 0%nat m eq_refl). f_equal. rewrite Z.mod_small; lia.
  - rewrite ring_next_mod by done. split; [lia|apply Z.mod_pos_bound; lia|lia| |].
    + subst tail. rewrite Zplus_mod_idemp_l. f_equal. lia.
    + intros i m' Hi. rewrite Zplus_mod_idemp_l, <- (rk_get0 (S i) m' Hi). do 2 f_equal. lia.
Qed.
End ring.
