(* ===== verification/Mq.v ===== *)
(** * Message queues: skynet-src/skynet_mq.c

    The per-service ring buffer, the global queue of runnable services (an
    intrusive linked list threaded through [next]) and the operations that
    couple the two through the [in_global] flag.

    A [struct message_queue *] is a [positive]; the heap of queues is a [gmap].
    The spin locks are not modelled: each operation runs under the queue's lock
    (and [skynet_globalmq_*] under the global lock), so it is one atomic step. *)
From S2P Require Import Prelude Ring.
Local Open Scope Z_scope.

(** [struct skynet_message] of skynet_mq.h; [msg_data] is an address. *)
Record skynet_message := mkMsg {
  msg_source : Z; msg_session : Z; msg_data : Z; msg_sz : Z }.

#[export] Instance skynet_message_eq_dec : EqDecision skynet_message.
Proof. solve_decision. Defined.

Definition DEFAULT_QUEUE_SIZE : Z := 64.
Definition MQ_IN_GLOBAL : Z := 1.
Definition MQ_OVERLOAD : Z := 1024.

(** [struct message_queue]; a cell of [mq_queue] that was never written is [None]. *)
Record message_queue := mkMq {
  mq_handle : Z; mq_cap : Z; mq_head : Z; mq_tail : Z; mq_release : Z;
  mq_in_global : Z; mq_overload : Z; mq_overload_threshold : Z;
  mq_queue : list (option skynet_message); mq_next : option positive }.

Definition set_ring (h t c : Z) a (q : message_queue) : message_queue :=
  mkMq (mq_handle q) c h t (mq_release q) (mq_in_global q) (mq_overload q)
    (mq_overload_threshold q) a (mq_next q).
Definition set_overload (o th : Z) (q : message_queue) : message_queue :=
  mkMq (mq_handle q) (mq_cap q) (mq_head q) (mq_tail q) (mq_release q)
    (mq_in_global q) o th (mq_queue q) (mq_next q).
Definition set_in_global (g : Z) (q : message_queue) : message_queue :=
  mkMq (mq_handle q) (mq_cap q) (mq_head q) (mq_tail q) (mq_release q)
    g (mq_overload q) (mq_overload_threshold q) (mq_queue q) (mq_next q).
Definition set_release (r : Z) (q : message_queue) : message_queue :=
  mkMq (mq_handle q) (mq_cap q) (mq_head q) (mq_tail q) r
    (mq_in_global q) (mq_overload q) (mq_overload_threshold q) (mq_queue q) (mq_next q).
Definition set_next (n : option positive) (q : message_queue) : message_queue :=
  mkMq (mq_handle q) (mq_cap q) (mq_head q) (mq_tail q) (mq_release q)
    (mq_in_global q) (mq_overload q) (mq_overload_threshold q) (mq_queue q) n.

(** ** The ring of one queue *)

(** The queue [skynet_mq_create] allocates: flagged [MQ_IN_GLOBAL] although it
    is not in the global queue, so that a push before the service is
    initialised does not schedule it. *)
Definition skynet_mq_new (handle : Z) : message_queue :=
  mkMq handle DEFAULT_QUEUE_SIZE 0 0 0 MQ_IN_GLOBAL 0 MQ_OVERLOAD
    (replicate (Z.to_nat DEFAULT_QUEUE_SIZE) None) None.

Definition skynet_mq_length (q : message_queue) : Z :=
  if mq_head q <=? mq_tail q then mq_tail q - mq_head q
  else mq_tail q + mq_cap q - mq_head q.

Definition skynet_mq_overload (q : message_queue) : Z * message_queue :=
  if bool_decide (mq_overload q ≠ 0)
  then (mq_overload q, set_overload 0 (mq_overload_threshold q) q)
  else (0, q).

(** [while (length > overload_threshold) { overload = length; threshold *= 2; }];
    the threshold doubles, so 32 rounds exceed any [int]. *)
Fixpoint overload_loop (fuel : nat) (length ov th : Z) : option (Z * Z) :=
  match fuel with
  | O => None
  | S fuel =>
      if th <? length then th' ← c_int (th * 2); overload_loop fuel length length th'
      else Some (ov, th)
  end.

(** [skynet_mq_pop]: the message, or [None] when the C function returns 1. *)
Definition skynet_mq_pop (q : message_queue) : option (option skynet_message * message_queue) :=
  if bool_decide (mq_head q ≠ mq_tail q) then
    cell ← aget (mq_queue q) (mq_head q);
    message ← cell;
    let head := mq_head q + 1 in
    let head := if mq_cap q <=? head then 0 else head in
    let length := mq_tail q - head in
    let length := if length <? 0 then length + mq_cap q else length in
    '(ov, th) ← overload_loop 32 length (mq_overload q) (mq_overload_threshold q);
    Some (Some message,
          set_overload ov th (set_ring head (mq_tail q) (mq_cap q) (mq_queue q) q))
  else
    Some (None, set_in_global 0 (set_overload (mq_overload q) MQ_OVERLOAD q)).

(** [expand_queue]: the ring, unrolled from [head], at the front of an
    allocation of twice the size. *)
Definition expand_queue (q : message_queue) : option message_queue :=
  new_queue ← ring_unroll (mq_queue q) (mq_cap q) (mq_head q);
  cap ← c_int (mq_cap q * 2);
  Some (set_ring 0 (mq_cap q) cap
          (new_queue ++ replicate (Z.to_nat (mq_cap q)) None) q).

(** The ring part of [skynet_mq_push]. *)
Definition ring_push (q : message_queue) (message : skynet_message) : option message_queue :=
  a ← aset (mq_queue q) (mq_tail q) (Some message);
  let tail := mq_tail q + 1 in
  let tail := if mq_cap q <=? tail then 0 else tail in
  let q := set_ring (mq_head q) tail (mq_cap q) a q in
  if bool_decide (mq_head q = mq_tail q) then expand_queue q else Some q.

(** ** The ring refines a FIFO list *)

Record ring_repr (q : message_queue) (l : list skynet_message) : Prop := {
  rr_ring : ring_ok (mq_queue q) (mq_cap q) (mq_head q) (mq_tail q) l;
  rr_th : MQ_OVERLOAD ≤ mq_overload_threshold q;
  rr_cap : mq_cap q ≤ 2 ^ 30 }.

Lemma ring_repr_new handle : ring_repr (skynet_mq_new handle) [].
Proof. split; [by apply ring_ok_nil|done..]. Qed.

(** Fields other than the ring do not matter to the contents. *)
Lemma ring_repr_ext q q' l :
  ring_repr q l → mq_queue q' = mq_queue q → mq_cap q' = mq_cap q →
  mq_head q' = mq_head q → mq_tail q' = mq_tail q →
  MQ_OVERLOAD ≤ mq_overload_threshold q' → ring_repr q' l.
Proof. intros [] E1 E2 E3 E4 ?. split; rewrite ?E1, ?E2, ?E3, ?E4; auto. Qed.

Lemma ring_length q l : ring_repr q l → skynet_mq_length q = Z.of_nat (length l).
Proof. intros []. by eapply ring_ok_length. Qed.

Lemma ring_empty_iff q l : ring_repr q l → (mq_head q = mq_tail q ↔ l = []).
Proof. intros []. by eapply ring_ok_empty. Qed.

Lemma overload_loop_S fuel len ov th :
  overload_loop (S fuel) len ov th =
    if th <? len then th' ← c_int (th * 2); overload_loop fuel len len th' else Some (ov, th).
Proof. done. Qed.

Lemma overload_loop_total fuel len ov th :
  0 ≤ len ≤ 2 ^ 30 → 1 ≤ th → 2 ^ 30 < th * 2 ^ Z.of_nat fuel →
  ∃ ov' th', overload_loop (S fuel) len ov th = Some (ov', th') ∧ th ≤ th' ∧ len ≤ th' ∧
    (ov' = ov ∧ th' = th ∨ ov' = len ∧ th < len).
Proof.
  intros Hl. revert ov th. induction fuel as [|fuel IH]; intros ov th Hth Hf.
  - rewrite overload_loop_S. change (2 ^ Z.of_nat 0) with 1 in Hf.
    destruct (Z.ltb_spec th len) as [Hlt|Hge]; [lia|exists ov, th; by auto with lia].
  - rewrite overload_loop_S. destruct (Z.ltb_spec th len) as [Hlt|Hge]; [|exists ov, th; by auto with lia].
    rewrite c_int_Some by (unfold INT_MIN, INT_MAX; lia). cbn [mbind option_bind].
    rewrite Nat2Z.inj_succ, Z.pow_succ_r in Hf by lia.
    destruct (IH len (th * 2)) as (ov' & th' & -> & ? & ? & ?); [lia|lia|].
    exists ov', th'. intuition lia.
Qed.

(** [ring_push] appends; it fails only when doubling the capacity would leave
    the range the model tracks ([2^30] cells, one doubling below [INT_MAX]). *)
Lemma ring_push_repr q l m :
  ring_repr q l → Z.of_nat (length l) + 1 < 2 ^ 29 →
  ∃ q', ring_push q m = Some q' ∧ ring_repr q' (l ++ [m]).
Proof.
  intros [R Hth Hcap] Hsmall. unfold ring_push.
  destruct (ring_put _ _ _ _ _ m R) as (a & -> & [[Hne R']|[Heq R']]); cbn [mbind option_bind].
  - rewrite bool_decide_eq_false_2 by done. eexists; split; [done|]. by split.
  - rewrite bool_decide_eq_true_2 by done. unfold expand_queue; simpl.
    rewrite (ring_full_unroll _ _ _ _ R'). cbn [mbind option_bind].
    pose proof R' as [Hl _ Hall _]. rewrite length_app in Hall. cbn [length] in Hall.
    rewrite c_int_Some by (unfold INT_MIN, INT_MAX; lia). eexists; split; [done|].
    split; simpl; try lia.
    pose proof (ring_ok_unrolled (l ++ [m]) (Z.to_nat (mq_cap q))) as Hu.
    rewrite length_app in Hu. cbn [length] in Hu.
    replace (Z.of_nat (length l + 1)) with (mq_cap q) in Hu by lia.
    replace (mq_cap q * 2) with (mq_cap q + Z.of_nat (Z.to_nat (mq_cap q))) by lia.
    apply Hu. lia.
Qed.

Lemma ring_pop_nil q :
  ring_repr q [] →
  skynet_mq_pop q = Some (None, set_in_global 0 (set_overload (mq_overload q) MQ_OVERLOAD q)).
Proof.
  intros R. unfold skynet_mq_pop. case_bool_decide as Hne; [|done].
  by rewrite (ring_empty_iff _ _ R) in Hne.
Qed.

Lemma ring_pop_cons q m l :
  ring_repr q (m :: l) →
  ∃ q', skynet_mq_pop q = Some (Some m, q') ∧ ring_repr q' l ∧
    mq_handle q' = mq_handle q ∧ mq_in_global q' = mq_in_global q ∧
    mq_release q' = mq_release q ∧ mq_next q' = mq_next q ∧
    (Z.of_nat (length l) ≤ mq_overload_threshold q' ∧
     (mq_overload q' = mq_overload q ∨
      mq_overload q' = Z.of_nat (length l) ∧ mq_overload_threshold q < Z.of_nat (length l))).
Proof.
  intros R. pose proof R as [Rk Hth Hcap]. unfold skynet_mq_pop.
  case_bool_decide as Hne; [|by apply (ring_empty_iff _ _ R) in Hne].
  destruct (ring_take _ _ _ _ _ _ Rk) as [-> Rk']. cbn [mbind option_bind].
  fold (ring_next (mq_cap q) (mq_head q)). set (h' := ring_next _ _) in *.
  assert ((if mq_tail q - h' <? 0 then mq_tail q - h' + mq_cap q else mq_tail q - h')
          = Z.of_nat (length l)) as ->.
  { rewrite <- (ring_ok_length _ _ _ _ _ Rk'). repeat case_match; lia. }
  pose proof (rk_lt _ _ _ _ _ Rk') as Hlt.
  destruct (overload_loop_total 31 (Z.of_nat (length l)) (mq_overload q)
              (mq_overload_threshold q)) as (ov & th & -> & Hth' & Hlen & Hov).
  { lia. } { unfold MQ_OVERLOAD in *. lia. } { unfold MQ_OVERLOAD in *. lia. }
  eexists; split; [done|]. split_and!; try done; [|simpl; intuition lia].
  split; simpl; [done|lia|done].
Qed.

(** ** The heap of queues and the global queue *)

(** The globals: [Q->head], [Q->tail] and the queues on the heap. *)
Record world := mkWorld {
  gq_head : option positive; gq_tail : option positive;
  gq_mqs : gmap positive message_queue }.

Definition set_mq (id : positive) (q : message_queue) (w : world) : world :=
  mkWorld (gq_head w) (gq_tail w) (<[id := q]> (gq_mqs w)).

Definition skynet_mq_init : world := mkWorld None None ∅.

(** [skynet_mq_create]: [id] is the address the allocator returns. *)
Definition skynet_mq_create (id : positive) (handle : Z) (w : world) : option world :=
  assert! bool_decide (gq_mqs w !! id = None);
  Some (set_mq id (skynet_mq_new handle) w).

Definition skynet_globalmq_push (id : positive) (w : world) : option world :=
  q ← gq_mqs w !! id;
  assert! bool_decide (mq_next q = None);
  match gq_tail w with
  | Some t =>
      tq ← gq_mqs w !! t;
      Some (mkWorld (gq_head w) (Some id) (<[t := set_next (Some id) tq]> (gq_mqs w)))
  | None => Some (mkWorld (Some id) (Some id) (gq_mqs w))
  end.

Definition skynet_globalmq_pop (w : world) : option (option positive * world) :=
  match gq_head w with
  | None => Some (None, w)
  | Some id =>
      mq ← gq_mqs w !! id;
      let mqs := <[id := set_next None mq]> (gq_mqs w) in
      match mq_next mq with
      | None =>
          assert! bool_decide (gq_tail w = Some id);
          Some (Some id, mkWorld None None mqs)
      | Some n => Some (Some id, mkWorld (Some n) (gq_tail w) mqs)
      end
  end.

(** [skynet_mq_push]: append to the ring; a queue that was idle becomes
    runnable.  The C function pushes [q] after setting its flag. *)
Definition skynet_mq_push (id : positive) (message : skynet_message) (w : world) : option world :=
  q ← gq_mqs w !! id;
  q ← ring_push q message;
  if bool_decide (mq_in_global q = 0)
  then skynet_globalmq_push id (set_mq id (set_in_global MQ_IN_GLOBAL q) w)
  else Some (set_mq id q w).

Definition mq_pop (id : positive) (w : world) : option (option skynet_message * world) :=
  q ← gq_mqs w !! id;
  '(m, q) ← skynet_mq_pop q;
  Some (m, set_mq id q w).

Definition skynet_mq_mark_release (id : positive) (w : world) : option world :=
  q ← gq_mqs w !! id;
  assert! bool_decide (mq_release q = 0);
  let q := set_release 1 q in
  let w := set_mq id q w in
  if bool_decide (mq_in_global q ≠ MQ_IN_GLOBAL) then skynet_globalmq_push id w else Some w.

(** [_release] frees the queue; it must be unlinked. *)
Definition mq_free (id : positive) (w : world) : option world :=
  q ← gq_mqs w !! id;
  assert! bool_decide (mq_next q = None);
  Some (mkWorld (gq_head w) (gq_tail w) (delete id (gq_mqs w))).

Section drop.
(** The callback [message_drop] acts on the same heap: it may push an error
    message to another queue. *)
Variable drop_func : skynet_message → world → option world.

Fixpoint drop_loop (fuel : nat) (id : positive) (w : world) : option world :=
  match fuel with
  | O => None
  | S fuel =>
      '(m, w) ← mq_pop id w;
      match m with
      | Some msg => w ← drop_func msg w; drop_loop fuel id w
      | None => Some w
      end
  end.

(** [_drop_queue]; one round per message and one for the empty pop. *)
Definition drop_queue (id : positive) (w : world) : option world :=
  q ← gq_mqs w !! id;
  w ← drop_loop (S (Z.to_nat (skynet_mq_length q))) id w;
  mq_free id w.

Definition skynet_mq_release (id : positive) (w : world) : option world :=
  q ← gq_mqs w !! id;
  if bool_decide (mq_release q ≠ 0) then drop_queue id w
  else skynet_globalmq_push id w.
End drop.

(** Doubling the threshold stops at the first power that covers the length. *)
Lemma overload_loop_spec fuel len ov th ov' th' :
  overload_loop fuel len ov th = Some (ov', th') →
  ∃ k : nat, th' = th * 2 ^ Z.of_nat k ∧ len ≤ th' ∧
    (k = 0%nat ∧ ov' = ov ∨ th * 2 ^ (Z.of_nat k - 1) < len ∧ ov' = len).
Proof.
  revert ov th. induction fuel as [|fuel IH]; intros ov th; [done|].
  rewrite overload_loop_S. destruct (Z.ltb_spec th len) as [Hlt|Hge]; intros H; bind_inv.
  - apply IH in H0 as (k & -> & Hle & Hk). exists (S k).
    rewrite Nat2Z.inj_succ, Z.pow_succ_r by lia. split; [lia|]. split; [lia|]. right.
    replace (Z.succ (Z.of_nat k) - 1) with (Z.of_nat k) by lia.
    destruct Hk as [[-> ->]|[Hk ->]]; [cbn; lia|]. split; [|done].
    destruct k as [|k]; [cbn; lia|].
    replace (Z.of_nat (S k) - 1) with (Z.of_nat k) in Hk by lia.
    rewrite Nat2Z.inj_succ, Z.pow_succ_r by lia. lia.
  - exists 0%nat. cbn. split; [lia|]. split; [lia|]. by left.
Qed.

Lemma pop_loop q m q' l :
  skynet_mq_pop q = Some (Some m, q') → ring_repr q' l →
  ∃ fuel, overload_loop fuel (Z.of_nat (length l)) (mq_overload q) (mq_overload_threshold q) =
    Some (mq_overload q', mq_overload_threshold q').
Proof.
  intros E R. apply ring_length in R. unfold skynet_mq_pop in E. case_bool_decide; [|done].
  apply bind_Some in E as (c & _ & E). apply bind_Some in E as (m' & _ & E).
  apply bind_Some in E as ([ov th] & E1 & E). simplify_eq. unfold skynet_mq_length in R.
  cbn [set_overload set_ring mq_head mq_tail mq_cap mq_overload mq_overload_threshold] in *.
  exists 32%nat. rewrite <- R, <- E1. f_equal. repeat case_match; lia.
Qed.

(** ** The overload report *)

(** A pop returns the oldest message; the overload threshold it
    leaves is the first doubling of the old one that covers the remaining
    length, and a report is pending exactly when it had to double. *)
Theorem pop_overload q m l :
  ring_repr q (m :: l) →
  ∃ q' (k : nat), skynet_mq_pop q = Some (Some m, q') ∧ ring_repr q' l ∧
    mq_overload_threshold q' = mq_overload_threshold q * 2 ^ Z.of_nat k ∧
    Z.of_nat (length l) ≤ mq_overload_threshold q' ∧
    (k = 0%nat ∧ skynet_mq_overload q' = (mq_overload q, set_overload 0 (mq_overload_threshold q') q') ∨
     mq_overload_threshold q * 2 ^ (Z.of_nat k - 1) < Z.of_nat (length l) ∧
     skynet_mq_overload q' = (Z.of_nat (length l), set_overload 0 (mq_overload_threshold q') q')).
Proof.
  intros R. destruct (ring_pop_cons _ _ _ R) as (q' & E & R' & _).
  exists q'. destruct (pop_loop _ _ _ _ E R') as (fuel & Hloop).
  apply overload_loop_spec in Hloop as (k & Hth & Hle & Hk). exists k. split_and!; try done.
  unfold skynet_mq_overload.
  destruct Hk as [[-> Hov]|[Hlt Hov]]; [left|right]; (split; [done|]); rewrite Hov;
    case_bool_decide as Hz; try done.
  - destruct q'. cbn in *. subst. by rewrite Hz.
  - destruct q'. cbn in *. subst. by rewrite !Hz.
Qed.

Lemma pop_overload_witness :
  let q := set_overload 0 1024 (mkMq 9 4 3 1 0 1 0 1024 [Some (mkMsg 1 1 1 1); None; None; Some (mkMsg 2 2 2 2)] None) in
  ring_repr q [mkMsg 2 2 2 2; mkMsg 1 1 1 1] ∧
  ∃ q' (k : nat), skynet_mq_pop q = Some (Some (mkMsg 2 2 2 2), q') ∧ ring_repr q' [mkMsg 1 1 1 1] ∧
    mq_overload_threshold q' = mq_overload_threshold q * 2 ^ Z.of_nat k ∧
    Z.of_nat 1 ≤ mq_overload_threshold q' ∧
    (k = 0%nat ∧ skynet_mq_overload q' = (mq_overload q, set_overload 0 (mq_overload_threshold q') q') ∨
     mq_overload_threshold q * 2 ^ (Z.of_nat k - 1) < Z.of_nat 1 ∧
     skynet_mq_overload q' = (Z.of_nat 1, set_overload 0 (mq_overload_threshold q') q')).
Proof.
  intros q. assert (ring_repr q [mkMsg 2 2 2 2; mkMsg 1 1 1 1]) as R.
  { split; [|vm_compute; done..]. split; try (vm_compute; done).
    intros [|[|i]] m Hi; cbn in Hi; simplify_eq; reflexivity. }
  split; [done|]. exact (pop_overload q _ _ R).
Defined.
