(* ===== verification/MqSpec.v ===== *)
(** * The message queues refine a FIFO scheduler

    The abstract state is a run queue (a list of queue identities) and, for each
    queue, a list of messages with two flags.  Every operation of skynet_mq.c is
    shown to implement its abstract counterpart on every state the
    representation relation admits, without aborting. *)
From S2P Require Import Prelude Mq.
Local Open Scope Z_scope.

Record aqueue := mkAq {
  aq_handle : Z; aq_msgs : list skynet_message; aq_sched : bool; aq_dead : bool }.

Record asys := mkAsys { as_run : list positive; as_qs : gmap positive aqueue }.

(** ** The representation relation *)

Record aq_repr (q : message_queue) (a : aqueue) : Prop := {
  ar_ring : ring_repr q (aq_msgs a);
  ar_handle : mq_handle q = aq_handle a;
  ar_in_global : mq_in_global q = if aq_sched a then MQ_IN_GLOBAL else 0;
  ar_release : mq_release q = if aq_dead a then 1 else 0 }.

(** The chain of [next] pointers from [h] visits exactly the queues of [l]. *)
Fixpoint gq_seg (mqs : gmap positive message_queue) (h : option positive) (l : list positive) : Prop :=
  match l with
  | [] => h = None
  | id :: l => h = Some id ∧ ∃ q, mqs !! id = Some q ∧ gq_seg mqs (mq_next q) l
  end.

Record gq_repr (w : world) (l : list positive) : Prop := {
  gr_seg : gq_seg (gq_mqs w) (gq_head w) l;
  gr_tail : gq_tail w = last l;
  gr_nodup : NoDup l;
  gr_unlinked : ∀ id q, gq_mqs w !! id = Some q → id ∉ l → mq_next q = None }.

Record sys_repr (w : world) (a : asys) : Prop := {
  sr_gq : gq_repr w (as_run a);
  sr_qs : ∀ id, option_Forall2 aq_repr (gq_mqs w !! id) (as_qs a !! id) }.

(** ** The abstract operations *)

Definition a_create (id : positive) (handle : Z) (a : asys) : asys :=
  mkAsys (as_run a) (<[id := mkAq handle [] true false]> (as_qs a)).

Definition a_globalpush (id : positive) (a : asys) : asys :=
  mkAsys (as_run a ++ [id]) (as_qs a).

Definition a_globalpop (a : asys) : option positive * asys :=
  match as_run a with
  | [] => (None, a)
  | id :: l => (Some id, mkAsys l (as_qs a))
  end.

Definition a_push (id : positive) (m : skynet_message) (a : asys) : asys :=
  match as_qs a !! id with
  | None => a
  | Some x =>
      mkAsys (if aq_sched x then as_run a else as_run a ++ [id])
        (<[id := mkAq (aq_handle x) (aq_msgs x ++ [m]) true (aq_dead x)]> (as_qs a))
  end.

Definition a_pop (id : positive) (a : asys) : option skynet_message * asys :=
  match as_qs a !! id with
  | None => (None, a)
  | Some x =>
      match aq_msgs x with
      | [] => (None, mkAsys (as_run a) (<[id := mkAq (aq_handle x) [] false (aq_dead x)]> (as_qs a)))
      | m :: l => (Some m, mkAsys (as_run a)
                     (<[id := mkAq (aq_handle x) l (aq_sched x) (aq_dead x)]> (as_qs a)))
      end
  end.

Definition a_mark_release (id : positive) (a : asys) : asys :=
  match as_qs a !! id with
  | None => a
  | Some x =>
      mkAsys (if aq_sched x then as_run a else as_run a ++ [id])
        (<[id := mkAq (aq_handle x) (aq_msgs x) (aq_sched x) true]> (as_qs a))
  end.

Definition a_free (id : positive) (a : asys) : asys :=
  mkAsys (as_run a) (delete id (as_qs a)).

(** ** The linked list *)

Lemma gq_seg_insert mqs h l id q :
  id ∉ l → gq_seg mqs h l → gq_seg (<[id := q]> mqs) h l.
Proof.
  revert h. induction l as [|x l IH]; intros h Hn; simpl; [done|].
  intros [-> (qx & Hx & Hs)]. split; [done|]. exists qx.
  rewrite lookup_insert_ne by set_solver. split; [done|]. apply IH; set_solver.
Qed.

Lemma gq_seg_delete mqs h l id :
  id ∉ l → gq_seg mqs h l → gq_seg (delete id mqs) h l.
Proof.
  revert h. induction l as [|x l IH]; intros h Hn; simpl; [done|].
  intros [-> (qx & Hx & Hs)]. split; [done|]. exists qx.
  rewrite lookup_delete_ne by set_solver. split; [done|]. apply IH; set_solver.
Qed.

(** Changing a queue but not its link keeps the chain. *)
Lemma gq_seg_update mqs h l id q q' :
  mqs !! id = Some q → mq_next q' = mq_next q →
  gq_seg mqs h l → gq_seg (<[id := q']> mqs) h l.
Proof.
  intros Hq Hn. revert h. induction l as [|x l IH]; intros h; simpl; [done|].
  intros [-> (qx & Hx & Hs)]. split; [done|]. destruct (decide (x = id)) as [->|].
  - exists q'. rewrite lookup_insert_eq. split; [done|]. simplify_eq.
    rewrite Hn. by apply IH.
  - exists qx. rewrite lookup_insert_ne by done. split; [done|]. by apply IH.
Qed.

Lemma gq_seg_snoc mqs h l t id tq q :
  NoDup (l ++ [t]) → id ∉ l ++ [t] →
  gq_seg mqs h (l ++ [t]) → mqs !! t = Some tq → mqs !! id = Some q → mq_next q = None →
  gq_seg (<[t := set_next (Some id) tq]> mqs) h ((l ++ [t]) ++ [id]).
Proof.
  revert h. induction l as [|x l IH]; intros h Hnd Hni; simpl.
  - intros [-> (qx & Hx & Hs)] Ht Hq Hn. split; [done|].
    eexists. rewrite lookup_insert_eq. split; [done|]. simpl. split; [done|].
    exists q. rewrite lookup_insert_ne by set_solver. done.
  - intros [-> (qx & Hx & Hs)] Ht Hq Hn. apply NoDup_cons in Hnd as [? ?].
    split; [done|]. exists qx. rewrite lookup_insert_ne by set_solver.
    split; [done|]. apply IH; auto. set_solver.
Qed.

Lemma gq_seg_elem mqs h l id : gq_seg mqs h l → id ∈ l → is_Some (mqs !! id).
Proof.
  revert h. induction l as [|x l IH]; intros h; simpl; [set_solver|].
  intros [-> (qx & Hx & Hs)] [->|?]%elem_of_cons; eauto.
Qed.

Lemma gq_repr_update w l id q q' :
  gq_repr w l → gq_mqs w !! id = Some q → mq_next q' = mq_next q →
  gq_repr (set_mq id q' w) l.
Proof.
  intros [] Hq Hn. split; simpl; try done.
  - by eapply gq_seg_update.
  - intros id' q''. destruct (decide (id' = id)) as [->|].
    + rewrite lookup_insert_eq. intros ? ?; simplify_eq. rewrite Hn. eauto.
    + rewrite lookup_insert_ne by done. eauto.
Qed.

(** Two worlds agree on everything but the links. *)
Definition same_queues (w w' : world) : Prop :=
  ∀ i, set_next None <$> gq_mqs w' !! i = set_next None <$> gq_mqs w !! i.

Lemma globalmq_push_repr w l id q :
  gq_repr w l → gq_mqs w !! id = Some q → id ∉ l →
  ∃ w', skynet_globalmq_push id w = Some w' ∧ gq_repr w' (l ++ [id]) ∧ same_queues w w'.
Proof.
  intros R Hq Hni. pose proof R as []. unfold skynet_globalmq_push.
  rewrite Hq. cbn [mbind option_bind].
  rewrite c_assert_true by (apply bool_decide_eq_true_2; eauto).
  rewrite gr_tail0. destruct l as [|t l _] using rev_ind.
  - eexists; split; [done|]. split; [|done]. split; simpl in *; try done.
    + split; [done|]. exists q. eauto.
    + apply NoDup_singleton.
    + intros i qi ? ?. eapply gr_unlinked0; [done|]. set_solver.
  - rewrite last_snoc. destruct (gq_seg_elem _ _ _ t gr_seg0) as [tq Ht]; [set_solver|].
    rewrite Ht. cbn [mbind option_bind]. eexists; split; [done|]. split; [split; simpl|].
    + eapply gq_seg_snoc; eauto.
    + by rewrite last_snoc.
    + apply NoDup_app. split_and!; [done|set_solver|apply NoDup_singleton].
    + intros i qi. destruct (decide (i = t)) as [->|]; [set_solver|].
      rewrite lookup_insert_ne by done. intros Hi ?. eapply gr_unlinked0; [done|set_solver].
    + intros i. simpl. destruct (decide (i = t)) as [->|].
      * by rewrite lookup_insert_eq, Ht.
      * by rewrite lookup_insert_ne.
Qed.

Lemma globalmq_pop_repr w l :
  gq_repr w l →
  ∃ w', skynet_globalmq_pop w = Some (head l, w') ∧ gq_repr w' (tail l) ∧ same_queues w w'.
Proof.
  intros R. pose proof R as []. unfold skynet_globalmq_pop.
  destruct l as [|id l]; simpl in gr_seg0.
  - rewrite gr_seg0. by exists w.
  - destruct gr_seg0 as [-> (q & Hq & Hs)]. rewrite Hq. cbn [mbind option_bind].
    apply NoDup_cons in gr_nodup0 as [Hni Hnd].
    assert (same_queues w (mkWorld (mq_next q) (last l) (<[id := set_next None q]> (gq_mqs w)))) as HS.
    { intros i. simpl. destruct (decide (i = id)) as [->|].
      - by rewrite lookup_insert_eq, Hq.
      - by rewrite lookup_insert_ne. }
    assert (∀ i qi, <[id := set_next None q]> (gq_mqs w) !! i = Some qi → i ∉ l →
              mq_next qi = None) as HU.
    { intros i qi. destruct (decide (i = id)) as [->|].
      - rewrite lookup_insert_eq. by intros; simplify_eq.
      - rewrite lookup_insert_ne by done. intros ??. eapply gr_unlinked0; [done|set_solver]. }
    destruct l as [|n l]; simpl in Hs.
    + rewrite Hs in *. rewrite c_assert_true by (by apply bool_decide_eq_true_2).
      eexists; split; [done|]. split; [|done]. split; simpl; auto using NoDup_nil_2.
    + destruct Hs as [Hn (qn & Hqn & Hs)]. rewrite Hn in *.
      eexists; split; [done|]. split; [|by rewrite gr_tail0].
      split; simpl; auto. split; [done|]. exists qn.
      rewrite lookup_insert_ne by set_solver. split; [done|].
      apply gq_seg_insert; set_solver.
Qed.

(** ** Refinement of the operations *)

Lemma aq_repr_next q q' x :
  aq_repr q x → set_next None q' = set_next None q → aq_repr q' x.
Proof.
  intros [Hr H1 H2 H3] E. unfold set_next in E. injection E as E1 E2 E3 E4 E5 E6 E7 E8 E9.
  split; try congruence.
  eapply ring_repr_ext; [exact Hr|done..|]. rewrite E8. apply Hr.
Qed.

Lemma qs_same w w' (qs : gmap positive aqueue) :
  same_queues w w' → (∀ id, option_Forall2 aq_repr (gq_mqs w !! id) (qs !! id)) →
  ∀ id, option_Forall2 aq_repr (gq_mqs w' !! id) (qs !! id).
Proof.
  intros HS HR id. specialize (HS id). specialize (HR id).
  destruct (gq_mqs w' !! id) as [q'|], (gq_mqs w !! id) as [q|]; try discriminate HS; auto.
  apply (inj Some) in HS. inversion HR as [? x Hx|]; subst. constructor. by eapply aq_repr_next.
Qed.

Lemma sys_repr_update w a id q q' x' :
  sys_repr w a → gq_mqs w !! id = Some q → mq_next q' = mq_next q → aq_repr q' x' →
  sys_repr (set_mq id q' w) (mkAsys (as_run a) (<[id := x']> (as_qs a))).
Proof.
  intros [] Hq Hn Hx. split; simpl.
  - by eapply gq_repr_update.
  - intros i. destruct (decide (i = id)) as [->|].
    + rewrite !lookup_insert_eq. by constructor.
    + by rewrite !lookup_insert_ne.
Qed.

Lemma sys_repr_lookup w a id x :
  sys_repr w a → as_qs a !! id = Some x → ∃ q, gq_mqs w !! id = Some q ∧ aq_repr q x.
Proof. intros [] Hx. specialize (sr_qs0 id). rewrite Hx in sr_qs0. inversion sr_qs0; eauto. Qed.

Lemma sys_repr_lookup_None w a id :
  sys_repr w a → as_qs a !! id = None → gq_mqs w !! id = None.
Proof. intros [] Hx. specialize (sr_qs0 id). rewrite Hx in sr_qs0. by inversion sr_qs0. Qed.

Lemma globalpush_refines w a id x :
  sys_repr w a → as_qs a !! id = Some x → id ∉ as_run a →
  ∃ w', skynet_globalmq_push id w = Some w' ∧ sys_repr w' (a_globalpush id a).
Proof.
  intros R Hx Hni. destruct (sys_repr_lookup _ _ _ _ R Hx) as (q & Hq & ?).
  destruct R. destruct (globalmq_push_repr _ _ id q sr_gq0 Hq Hni) as (w' & -> & ? & HS).
  exists w'. split; [done|]. split; [done|]. by eapply qs_same.
Qed.

Lemma globalpop_refines w a :
  sys_repr w a →
  ∃ w', skynet_globalmq_pop w = Some ((a_globalpop a).1, w') ∧ sys_repr w' (a_globalpop a).2.
Proof.
  intros []. destruct (globalmq_pop_repr _ _ sr_gq0) as (w' & -> & Hg & HS).
  exists w'. unfold a_globalpop. destruct (as_run a) as [|id l] eqn:E; simpl in *.
  - split; [done|]. split; [by rewrite E|]. by eapply qs_same.
  - split; [done|]. split; [done|]. by eapply qs_same.
Qed.

Lemma create_refines w a id handle :
  sys_repr w a → as_qs a !! id = None → id ∉ as_run a →
  ∃ w', skynet_mq_create id handle w = Some w' ∧ sys_repr w' (a_create id handle a).
Proof.
  intros R Hx Hni. pose proof (sys_repr_lookup_None _ _ _ R Hx) as Hw.
  destruct R as [[] HR]. unfold skynet_mq_create.
  rewrite c_assert_true by (by apply bool_decide_eq_true_2).
  eexists; split; [done|]. split; [split; simpl; auto using gq_seg_insert|].
  - intros i q. destruct (decide (i = id)) as [->|].
    + rewrite lookup_insert_eq. intros; by simplify_eq.
    + rewrite lookup_insert_ne by done. eauto.
  - intros i. simpl. destruct (decide (i = id)) as [->|].
    + rewrite !lookup_insert_eq. constructor. split; simpl; auto using ring_repr_new.
    + by rewrite !lookup_insert_ne.
Qed.

Lemma ring_push_frame q m q' :
  ring_push q m = Some q' →
  mq_handle q' = mq_handle q ∧ mq_in_global q' = mq_in_global q ∧
  mq_release q' = mq_release q ∧ mq_next q' = mq_next q.
Proof.
  unfold ring_push, expand_queue. intros H. apply bind_Some in H as (a & Ha & H).
  case_bool_decide; bind_inv; done.
Qed.

Lemma push_refines w a id x m :
  sys_repr w a → as_qs a !! id = Some x →
  Z.of_nat (length (aq_msgs x)) + 1 < 2 ^ 29 →
  (aq_sched x = false → id ∉ as_run a) →
  ∃ w', skynet_mq_push id m w = Some w' ∧ sys_repr w' (a_push id m a).
Proof.
  intros R Hx Hlen Hni. destruct (sys_repr_lookup _ _ _ _ R Hx) as (q & Hq & []).
  destruct (ring_push_repr _ _ m ar_ring0 Hlen) as (q' & Hp & Hr).
  destruct (ring_push_frame _ _ _ Hp) as (F1 & F2 & F3 & F4).
  unfold skynet_mq_push, a_push. rewrite Hq, Hx. cbn [mbind option_bind]. rewrite Hp.
  cbn [mbind option_bind]. rewrite F2, ar_in_global0. destruct (aq_sched x) eqn:Es.
  - rewrite bool_decide_eq_false_2 by done. eexists; split; [done|].
    eapply sys_repr_update; [done..|]. split; simpl; congruence.
  - rewrite bool_decide_eq_true_2 by done.
    assert (sys_repr (set_mq id (set_in_global MQ_IN_GLOBAL q') w)
      (mkAsys (as_run a) (<[id := mkAq (aq_handle x) (aq_msgs x ++ [m]) true (aq_dead x)]> (as_qs a)))) as R'.
    { eapply sys_repr_update; [done|done|done|]. split; simpl; try congruence.
      eapply ring_repr_ext; [exact Hr|done..|]. apply Hr. }
    destruct (globalpush_refines _ _ id (mkAq (aq_handle x) (aq_msgs x ++ [m]) true (aq_dead x)) R')
      as (w' & -> & Hw'); [apply lookup_insert_eq|by apply Hni|]. by exists w'.
Qed.

Lemma pop_refines w a id x :
  sys_repr w a → as_qs a !! id = Some x →
  ∃ w', mq_pop id w = Some ((a_pop id a).1, w') ∧ sys_repr w' (a_pop id a).2.
Proof.
  intros R Hx. destruct (sys_repr_lookup _ _ _ _ R Hx) as (q & Hq & []).
  unfold mq_pop, a_pop. rewrite Hq, Hx. cbn [mbind option_bind].
  destruct (aq_msgs x) as [|m l] eqn:El.
  - rewrite ring_pop_nil by done. cbn [mbind option_bind]. eexists; split; [done|].
    eapply sys_repr_update; [done..|]. split; simpl; try done.
    eapply ring_repr_ext; [exact ar_ring0|done..].
  - destruct (ring_pop_cons _ _ _ ar_ring0) as (q' & -> & Hr & F1 & F2 & F3 & F4 & _).
    cbn [mbind option_bind]. eexists; split; [done|].
    eapply sys_repr_update; [done..|]. split; simpl; congruence.
Qed.

Lemma mark_release_refines w a id x :
  sys_repr w a → as_qs a !! id = Some x → aq_dead x = false →
  (aq_sched x = false → id ∉ as_run a) →
  ∃ w', skynet_mq_mark_release id w = Some w' ∧ sys_repr w' (a_mark_release id a).
Proof.
  intros R Hx Hd Hni. destruct (sys_repr_lookup _ _ _ _ R Hx) as (q & Hq & []).
  unfold skynet_mq_mark_release, a_mark_release. rewrite Hq, Hx, Hd in *.
  cbn [mbind option_bind]. rewrite c_assert_true by (by apply bool_decide_eq_true_2).
  set (x' := mkAq (aq_handle x) (aq_msgs x) (aq_sched x) true).
  assert (sys_repr (set_mq id (set_release 1 q) w) (mkAsys (as_run a) (<[id := x']> (as_qs a)))) as R'.
  { eapply sys_repr_update; [done|done|done|]. split; simpl; try congruence.
    eapply ring_repr_ext; [exact ar_ring0|done..|]. apply ar_ring0. }
  change (mq_in_global (set_release 1 q)) with (mq_in_global q).
  rewrite ar_in_global0. destruct (aq_sched x) eqn:Es.
  - rewrite bool_decide_eq_false_2 by tauto. by eexists.
  - rewrite bool_decide_eq_true_2 by done.
    destruct (globalpush_refines _ _ id x' R') as (w' & -> & Hw');
      [apply lookup_insert_eq|by apply Hni|]. by exists w'.
Qed.

Lemma free_refines w a id x :
  sys_repr w a → as_qs a !! id = Some x → id ∉ as_run a →
  ∃ w', mq_free id w = Some w' ∧ sys_repr w' (a_free id a).
Proof.
  intros R Hx Hni. destruct (sys_repr_lookup _ _ _ _ R Hx) as (q & Hq & _).
  destruct R as [[] HR]. unfold mq_free. rewrite Hq. cbn [mbind option_bind].
  rewrite c_assert_true by (apply bool_decide_eq_true_2; eauto).
  eexists; split; [done|]. split; [split; simpl; auto using gq_seg_delete|].
  - intros i qi. destruct (decide (i = id)) as [->|]; [by rewrite lookup_delete_eq|].
    rewrite lookup_delete_ne by done. eauto.
  - intros i. simpl. destruct (decide (i = id)) as [->|].
    + rewrite !lookup_delete_eq. constructor.
    + by rewrite !lookup_delete_ne.
Qed.

(** ** Traces of operations *)

Inductive mq_op :=
  | OCreate (id : positive) (handle : Z)
  | OGlobalPush (id : positive)
  | OGlobalPop
  | OPush (id : positive) (m : skynet_message)
  | OPop (id : positive)
  | OLength (id : positive)
  | OMarkRelease (id : positive)
  | OFree (id : positive).

Inductive mq_answer :=
  | AUnit
  | AQueue (id : option positive)
  | AMsg (m : option skynet_message)
  | ALen (n : Z).

Definition mq_step (w : world) (o : mq_op) : option (mq_answer * world) :=
  match o with
  | OCreate id handle => w ← skynet_mq_create id handle w; Some (AUnit, w)
  | OGlobalPush id => w ← skynet_globalmq_push id w; Some (AUnit, w)
  | OGlobalPop => '(id, w) ← skynet_globalmq_pop w; Some (AQueue id, w)
  | OPush id m => w ← skynet_mq_push id m w; Some (AUnit, w)
  | OPop id => '(m, w) ← mq_pop id w; Some (AMsg m, w)
  | OLength id => q ← gq_mqs w !! id; Some (ALen (skynet_mq_length q), w)
  | OMarkRelease id => w ← skynet_mq_mark_release id w; Some (AUnit, w)
  | OFree id => w ← mq_free id w; Some (AUnit, w)
  end.

Fixpoint mq_run (w : world) (os : list mq_op) : option (list mq_answer * world) :=
  match os with
  | [] => Some ([], w)
  | o :: os => '(a, w) ← mq_step w o; '(l, w) ← mq_run w os; Some (a :: l, w)
  end.

(** The contract: [None] when the caller breaks it. *)
Definition a_step (a : asys) (o : mq_op) : option (mq_answer * asys) :=
  match o with
  | OCreate id handle =>
      assert! bool_decide (as_qs a !! id = None);
      assert! bool_decide (id ∉ as_run a);
      Some (AUnit, a_create id handle a)
  | OGlobalPush id =>
      _ ← as_qs a !! id;
      assert! bool_decide (id ∉ as_run a);
      Some (AUnit, a_globalpush id a)
  | OGlobalPop => Some (AQueue (a_globalpop a).1, (a_globalpop a).2)
  | OPush id m =>
      x ← as_qs a !! id;
      assert! Z.of_nat (length (aq_msgs x)) + 1 <? 2 ^ 29;
      assert! aq_sched x || bool_decide (id ∉ as_run a);
      Some (AUnit, a_push id m a)
  | OPop id => _ ← as_qs a !! id; Some (AMsg (a_pop id a).1, (a_pop id a).2)
  | OLength id => x ← as_qs a !! id; Some (ALen (Z.of_nat (length (aq_msgs x))), a)
  | OMarkRelease id =>
      x ← as_qs a !! id;
      assert! negb (aq_dead x);
      assert! aq_sched x || bool_decide (id ∉ as_run a);
      Some (AUnit, a_mark_release id a)
  | OFree id =>
      _ ← as_qs a !! id;
      assert! bool_decide (id ∉ as_run a);
      Some (AUnit, a_free id a)
  end.

Fixpoint a_run (a : asys) (os : list mq_op) : option (list mq_answer * asys) :=
  match os with
  | [] => Some ([], a)
  | o :: os => '(x, a) ← a_step a o; '(l, a) ← a_run a os; Some (x :: l, a)
  end.

Lemma sys_repr_init : sys_repr skynet_mq_init (mkAsys [] ∅).
Proof.
  split; [split; try done; constructor|]. intros id. unfold skynet_mq_init.
  cbn [gq_mqs as_qs]. rewrite !lookup_empty. constructor.
Qed.

Lemma mq_step_refines w a o x a' :
  sys_repr w a → a_step a o = Some (x, a') → ∃ w', mq_step w o = Some (x, w') ∧ sys_repr w' a'.
Proof.
  intros R H. destruct o; cbn [a_step mq_step] in *; bind_inv;
    repeat match goal with
    | E : bool_decide _ = true |- _ => apply bool_decide_eq_true in E
    | E : negb _ = true |- _ => apply negb_true_iff in E
    end.
  - destruct (create_refines _ _ id handle R) as (w' & -> & ?); [done..|]. by exists w'.
  - edestruct globalpush_refines as (w' & -> & ?); [done..|]. by exists w'.
  - destruct (globalpop_refines _ _ R) as (w' & -> & ?). by exists w'.
  - edestruct push_refines as (w' & -> & ?); [done|done|lia| |by exists w'].
    intros E. rewrite E in *. by eapply bool_decide_eq_true.
  - edestruct pop_refines as (w' & -> & ?); [done..|]. by exists w'.
  - edestruct sys_repr_lookup as (q & -> & []); [done..|]. exists w. cbn [mbind option_bind].
    by erewrite ring_length.
  - edestruct mark_release_refines as (w' & -> & ?); [done|done|done| |by exists w'].
    intros E. rewrite E in *. by eapply bool_decide_eq_true.
  - edestruct free_refines as (w' & -> & ?); [done..|]. by exists w'.
Qed.

Lemma mq_run_refines w a os l a' :
  sys_repr w a → a_run a os = Some (l, a') → ∃ w', mq_run w os = Some (l, w') ∧ sys_repr w' a'.
Proof.
  revert w a l. induction os as [|o os IH]; intros w a l R H; cbn [a_run mq_run] in *.
  { simplify_eq. by exists w. }
  apply bind_Some in H as ([x a1] & E1 & H). apply bind_Some in H as ([l1 a2] & E2 & H).
  simplify_eq. destruct (mq_step_refines _ _ _ _ _ R E1) as (w1 & -> & R1).
  cbn [mbind option_bind]. destruct (IH _ _ _ R1 E2) as (w2 & -> & R2). by exists w2.
Qed.

(** ** Properties *)

(** C4: every sequence of queue operations that respects the
    callers' contract (a queue exists, is linked into the global queue at most
    once, is marked for release once) runs without a failed assertion, an array
    access out of range or an overflow, and answers exactly as FIFO message
    lists with a FIFO run queue do, however often the rings wrap and grow. *)
Theorem mq_trace_refines os l a :
  a_run (mkAsys [] ∅) os = Some (l, a) →
  ∃ w, mq_run skynet_mq_init os = Some (l, w) ∧ sys_repr w a.
Proof. apply mq_run_refines, sys_repr_init. Qed.

Lemma mq_trace_refines_witness :
  let os := [OCreate 1 16; OGlobalPush 1; OCreate 2 17; OPush 1 (mkMsg 3 4 5 6);
             OPush 1 (mkMsg 7 8 9 10); OGlobalPop; OPop 1; OLength 1; OPop 1; OPop 1;
             OPush 1 (mkMsg 7 8 9 10); OMarkRelease 1; OGlobalPop; OFree 1; OGlobalPop] in
  ∃ l a w, a_run (mkAsys [] ∅) os = Some (l, a) ∧ mq_run skynet_mq_init os = Some (l, w) ∧ sys_repr w a.
Proof.
  intros os. destruct (a_run (mkAsys [] ∅) os) as [[l a]|] eqn:E; [|exfalso; vm_compute in E; discriminate].
  exists l, a. destruct (mq_trace_refines os l a E) as (w & Hw & R). exists w. by split_and!.
Defined.
