(* ===== verification/Handle.v ===== *)
(** * Handles: skynet-src/skynet_handle.c

    The registry of services: an open-addressed table from the low 24 bits of a
    handle to a context, and a sorted array of local names searched by bisection.

    A [struct skynet_context *] is a [positive].  The functions that read
    [ctx->handle] of a registered context take the reading function [hof], its
    value at the time of the call: [skynet_handle_register] returns the handle
    before the caller stores it in the context (skynet_context_new), so the
    registry does not own that field.  The read-write lock makes each function
    one atomic step. *)
From S2P Require Import Prelude.
Local Open Scope Z_scope.

Definition DEFAULT_SLOT_SIZE : Z := 4.
Definition MAX_SLOT_SIZE : Z := 1073741824.
Definition HANDLE_MASK : Z := 16777215.
Definition HANDLE_REMOTE_SHIFT : Z := 24.

(** A C string: its bytes without the terminator. *)
Abbreviation cstring := (list Z).

(** [strcmp] of the C library: bytes compared as [unsigned char]. *)
Fixpoint strcmp (a b : cstring) : comparison :=
  match a, b with
  | [], [] => Eq
  | [], _ :: _ => Lt
  | _ :: _, [] => Gt
  | x :: a, y :: b => match x ?= y with Eq => strcmp a b | c => c end
  end.

Record handle_name := mkName { hn_name : cstring; hn_handle : Z }.

Record handle_storage := mkHS {
  hs_harbor : Z; hs_handle_index : Z; hs_slot_size : Z; hs_slot : list (option positive);
  hs_name_cap : Z; hs_name_count : Z; hs_name : list (option handle_name) }.

Definition set_slots (idx size : Z) (slot : list (option positive)) (s : handle_storage) :=
  mkHS (hs_harbor s) idx size slot (hs_name_cap s) (hs_name_count s) (hs_name s).
Definition set_names (cap count : Z) (name : list (option handle_name)) (s : handle_storage) :=
  mkHS (hs_harbor s) (hs_handle_index s) (hs_slot_size s) (hs_slot s) cap count name.

Definition skynet_handle_init (harbor : Z) : handle_storage :=
  mkHS (wrap 32 (Z.shiftl (Z.land harbor 255) HANDLE_REMOTE_SHIFT)) 1 DEFAULT_SLOT_SIZE
    (replicate (Z.to_nat DEFAULT_SLOT_SIZE) None) 2 0 (replicate 2 None).

(** ** Registration *)

(** The inner loop of [skynet_handle_register]: [n] probes from [handle]; the
    result is the first free handle and its slot. *)
Fixpoint probe (n : nat) (s : handle_storage) (handle : Z) : option (option (Z * Z)) :=
  match n with
  | O => Some None
  | S n =>
      let handle := if HANDLE_MASK <? handle then 1 else handle in
      let hash := Z.land handle (hs_slot_size s - 1) in
      cell ← aget (hs_slot s) hash;
      match cell with
      | None => Some (Some (handle, hash))
      | Some _ => probe n s (wrap 32 (handle + 1))
      end
  end.

Section reader.
Variable hof : positive → Z.

Fixpoint rehash (cells : list (option positive)) (size : Z) (new_slot : list (option positive))
    : option (list (option positive)) :=
  match cells with
  | [] => Some new_slot
  | None :: cells => rehash cells size new_slot
  | Some ctx :: cells =>
      let hash := Z.land (hof ctx) (size * 2 - 1) in
      old ← aget new_slot hash;
      assert! bool_decide (old = None);
      new_slot ← aset new_slot hash (Some ctx);
      rehash cells size new_slot
  end.

Definition expand_slots (s : handle_storage) : option handle_storage :=
  assert! (hs_slot_size s * 2 - 1 <=? HANDLE_MASK);
  new_slot ← rehash (hs_slot s) (hs_slot_size s)
               (replicate (Z.to_nat (hs_slot_size s * 2)) None);
  Some (set_slots (hs_handle_index s) (hs_slot_size s * 2) new_slot s).

(** The outer [for (;;)]; two rounds are enough (see [register_spec]). *)
Fixpoint handle_register (fuel : nat) (ctx : positive) (s : handle_storage)
    : option (Z * handle_storage) :=
  match fuel with
  | O => None
  | S fuel =>
      r ← probe (Z.to_nat (hs_slot_size s)) s (hs_handle_index s);
      match r with
      | Some (handle, hash) =>
          slot ← aset (hs_slot s) hash (Some ctx);
          Some (Z.lor handle (hs_harbor s),
                set_slots (wrap 32 (handle + 1)) (hs_slot_size s) slot s)
      | None => s ← expand_slots s; handle_register fuel ctx s
      end
  end.

Definition skynet_handle_register := handle_register 2.

(** ** Retirement and lookup *)

(** The compaction loop of [skynet_handle_retire]: entries of the retired
    handle are dropped, the others move down. *)
Fixpoint compact (n : nat) (i j : Z) (handle : Z) (name : list (option handle_name))
    : option (Z * list (option handle_name)) :=
  match n with
  | O => Some (j, name)
  | S n =>
      cell ← aget name i;
      e ← cell;
      if hn_handle e =? handle then compact n (i + 1) j handle name
      else if i =? j then compact n (i + 1) (j + 1) handle name
      else name ← aset name j (Some e); compact n (i + 1) (j + 1) handle name
  end.

(** The result says which context the caller must release ([None]: [ret = 0]). *)
Definition skynet_handle_retire (handle : Z) (s : handle_storage)
    : option (option positive * handle_storage) :=
  let hash := Z.land handle (hs_slot_size s - 1) in
  cell ← aget (hs_slot s) hash;
  match cell with
  | Some ctx =>
      if hof ctx =? handle then
        slot ← aset (hs_slot s) hash None;
        '(j, name) ← compact (Z.to_nat (hs_name_count s)) 0 0 handle (hs_name s);
        Some (Some ctx, set_names (hs_name_cap s) j name
                          (set_slots (hs_handle_index s) (hs_slot_size s) slot s))
      else Some (None, s)
  | None => Some (None, s)
  end.

Definition skynet_handle_grab (handle : Z) (s : handle_storage) : option (option positive) :=
  let hash := Z.land handle (hs_slot_size s - 1) in
  cell ← aget (hs_slot s) hash;
  match cell with
  | Some ctx => Some (if hof ctx =? handle then Some ctx else None)
  | None => Some None
  end.

(** One pass of [skynet_handle_retireall]: the number of contexts seen and
    the contexts released, in order. *)
Fixpoint retireall_pass (n : nat) (i : Z) (s : handle_storage) (seen : Z) (acc : list positive)
    : option (Z * list positive * handle_storage) :=
  match n with
  | O => Some (seen, acc, s)
  | S n =>
      cell ← aget (hs_slot s) i;
      match cell with
      | None => retireall_pass n (i + 1) s seen acc
      | Some ctx =>
          if hof ctx =? 0 then retireall_pass n (i + 1) s (seen + 1) acc
          else
            '(r, s) ← skynet_handle_retire (hof ctx) s;
            retireall_pass n (i + 1) s (seen + 1) (acc ++ from_option (λ c, [c]) [] r)
      end
  end.

Fixpoint skynet_handle_retireall (fuel : nat) (s : handle_storage) (acc : list positive)
    : option (list positive * handle_storage) :=
  match fuel with
  | O => None
  | S fuel =>
      '(seen, acc, s) ← retireall_pass (Z.to_nat (hs_slot_size s)) 0 s 0 acc;
      if seen =? 0 then Some (acc, s) else skynet_handle_retireall fuel s acc
  end.
End reader.

(** ** Names *)

(** The bisection shared by [skynet_handle_findname] and [_insert_name]:
    [inl e] is a hit, [inr begin] the insertion point. *)
Fixpoint bisect (fuel : nat) (s : handle_storage) (name : cstring) (b e : Z)
    : option (handle_name + Z) :=
  match fuel with
  | O => None
  | S fuel =>
      if b <=? e then
        let mid := (b + e) ÷ 2 in
        cell ← aget (hs_name s) mid;
        n ← cell;
        match strcmp (hn_name n) name with
        | Eq => Some (inl n)
        | Lt => bisect fuel s name (mid + 1) e
        | Gt => bisect fuel s name b (mid - 1)
        end
      else Some (inr b)
  end.

Definition bisect_fuel (s : handle_storage) : nat := S (Z.to_nat (hs_name_count s)).

(** [0] when the name is unknown. *)
Definition skynet_handle_findname (name : cstring) (s : handle_storage) : option Z :=
  r ← bisect (bisect_fuel s) s name 0 (hs_name_count s - 1);
  Some (match r with inl n => hn_handle n | inr _ => 0 end).

(** The copy loop of the growing branch of [_insert_name_before]. *)
Definition grow_names (old : list (option handle_name)) (cap before count : Z)
    : option (list (option handle_name)) :=
  lo ← mapM (aget old) (seqZ 0 before);
  hi ← mapM (aget old) (seqZ before (count - before));
  Some (lo ++ [None] ++ hi ++ replicate (Z.to_nat (cap - count - 1)) None).

(** The shift loop [for (i=name_count;i>before;i--) name[i] = name[i-1];]. *)
Fixpoint shift_up (n : nat) (i : Z) (name : list (option handle_name))
    : option (list (option handle_name)) :=
  match n with
  | O => Some name
  | S n => e ← aget name (i - 1); name ← aset name i e; shift_up n (i - 1) name
  end.

Definition insert_name_before (s : handle_storage) (name : cstring) (handle before : Z)
    : option handle_storage :=
  '(cap, a) ←
    (if hs_name_cap s <=? hs_name_count s then
       cap ← c_int (hs_name_cap s * 2);
       assert! (cap <=? MAX_SLOT_SIZE);
       a ← grow_names (hs_name s) cap before (hs_name_count s);
       Some (cap, a)
     else
       a ← shift_up (Z.to_nat (hs_name_count s - before)) (hs_name_count s) (hs_name s);
       Some (hs_name_cap s, a));
  a ← aset a before (Some (mkName name handle));
  Some (set_names cap (hs_name_count s + 1) a s).

(** [_insert_name] under the lock of [skynet_handle_namehandle]; the result is
    [None] (C: NULL) when the name is taken. *)
Definition skynet_handle_namehandle (handle : Z) (name : cstring) (s : handle_storage)
    : option (option cstring * handle_storage) :=
  r ← bisect (bisect_fuel s) s name 0 (hs_name_count s - 1);
  match r with
  | inl _ => Some (None, s)
  | inr b => s ← insert_name_before s name handle b; Some (Some name, s)
  end.

(** ** The table of contexts: invariant *)

(** A handle is [low + harbor] with [1 <= low <= HANDLE_MASK]; a context lies
    in the slot of its handle. *)
Record hs_wf (hof : positive → Z) (s : handle_storage) : Prop := {
  hw_exp : ∃ k, 2 ≤ k ≤ 24 ∧ hs_slot_size s = 2 ^ k;
  hw_len : Z.of_nat (length (hs_slot s)) = hs_slot_size s;
  hw_harbor : ∃ b, 0 ≤ b < 256 ∧ hs_harbor s = b * 2 ^ 24;
  hw_index : 1 ≤ hs_handle_index s ≤ HANDLE_MASK + 1;
  hw_slot : ∀ i ctx, aget (hs_slot s) i = Some (Some ctx) →
    1 ≤ hof ctx - hs_harbor s ≤ HANDLE_MASK ∧ hof ctx mod hs_slot_size s = i }.

Definition registered (s : handle_storage) (ctx : positive) : Prop :=
  ∃ i, aget (hs_slot s) i = Some (Some ctx).

Lemma slot_mask hof s z : hs_wf hof s → Z.land z (hs_slot_size s - 1) = z mod hs_slot_size s.
Proof. intros [(k & ? & ->)]. apply land_mask. lia. Qed.

Lemma size_range hof s : hs_wf hof s → 4 ≤ hs_slot_size s ≤ 2 ^ 24.
Proof.
  intros [(k & ? & ->)]. split; [change 4 with (2 ^ 2)|]; apply Z.pow_le_mono_r; lia.
Qed.

(** The size divides the number of handles, [HANDLE_MASK + 1]. *)
Lemma size_divides hof s : hs_wf hof s → ∃ d, 2 ^ 24 = d * hs_slot_size s.
Proof.
  intros [(k & ? & ->)]. exists (2 ^ (24 - k)). rewrite <- Z.pow_add_r by lia. f_equal. lia.
Qed.

Lemma harbor_mod hof s z : hs_wf hof s → (z + hs_harbor s) mod hs_slot_size s = z mod hs_slot_size s.
Proof. intros [(k & ? & ->) _ (b & ? & ->) _ _]. apply mod_pow2_add_mul. lia. Qed.

(** Two contexts in the table have different handles. *)
Lemma registered_inj hof s c d :
  hs_wf hof s → registered s c → registered s d → hof c = hof d → c = d.
Proof.
  intros W [i Hi] [j Hj] E. pose proof W as [].
  destruct (hw_slot0 _ _ Hi) as [_ Ei], (hw_slot0 _ _ Hj) as [_ Ej].
  rewrite E in Ei. rewrite <- Ei, Ej in Hi. congruence.
Qed.

(** ** Probing *)

(** The [j]-th handle tried from index [h]: 0 is skipped on wrap-around. *)
Definition nth_handle (h j : Z) : Z := (h - 1 + j) mod HANDLE_MASK + 1.

Lemma nth_handle_0 h : 1 ≤ h ≤ HANDLE_MASK + 1 →
  (if HANDLE_MASK <? h then 1 else h) = nth_handle h 0.
Proof.
  intros. unfold nth_handle. rewrite mod_once by (unfold HANDLE_MASK in *; lia).
  repeat case_match; lia.
Qed.

Lemma nth_handle_range h j : 1 ≤ nth_handle h j ≤ HANDLE_MASK.
Proof. unfold nth_handle. pose proof (Z.mod_pos_bound (h - 1 + j) HANDLE_MASK). unfold HANDLE_MASK in *. lia. Qed.

Lemma nth_handle_succ h j : nth_handle (nth_handle h 0 + 1) j = nth_handle h (j + 1).
Proof.
  unfold nth_handle. f_equal.
  replace ((h - 1 + 0) mod HANDLE_MASK + 1 + 1 - 1 + j) with ((h - 1 + 0) mod HANDLE_MASK + (j + 1)) by lia.
  rewrite Zplus_mod_idemp_l. f_equal. lia.
Qed.

Lemma probe_spec hof s n h :
  hs_wf hof s → 1 ≤ h ≤ HANDLE_MASK + 1 →
  (∃ handle, probe n s h = Some (Some (handle, handle mod hs_slot_size s)) ∧
     1 ≤ handle ≤ HANDLE_MASK ∧ aget (hs_slot s) (handle mod hs_slot_size s) = Some None) ∨
  (probe n s h = Some None ∧
     ∀ j, 0 ≤ j < Z.of_nat n → ∃ ctx, aget (hs_slot s) (nth_handle h j mod hs_slot_size s) = Some (Some ctx)).
Proof.
  intros W. pose proof (size_range _ _ W). revert h. induction n as [|n IH]; intros h Hh; simpl.
  { right. split; [done|]. lia. }
  rewrite nth_handle_0, (slot_mask _ _ _ W) by done.
  destruct (aget_is_Some (hs_slot s) (nth_handle h 0 mod hs_slot_size s)) as [cell Hc].
  { rewrite (hw_len _ _ W). apply Z.mod_pos_bound. lia. }
  pose proof (nth_handle_range h 0). rewrite Hc. cbn [mbind option_bind].
  destruct cell as [ctx|]; [|left; eauto].
  rewrite wrap_small by (unfold HANDLE_MASK in *; lia).
  destruct (IH (nth_handle h 0 + 1)) as [(hd & -> & ? & ?)|[-> Hall]]; [lia|left; eauto|].
  right. split; [done|]. intros j Hj. destruct (Z.eq_dec j 0) as [->|]; [eauto|].
  destruct (Hall (j - 1)) as [c Hcj]; [lia|]. rewrite nth_handle_succ in Hcj.
  replace (j - 1 + 1) with j in Hcj by lia. eauto.
Qed.

(** [slot_size] probes meet every residue except, after a wrap-around, 0. *)
Lemma probe_covers hof s h r :
  hs_wf hof s → 1 ≤ r < hs_slot_size s →
  ∃ j, 0 ≤ j < hs_slot_size s ∧ nth_handle h j mod hs_slot_size s = r.
Proof.
  intros W Hr. pose proof (size_range _ _ W). destruct (size_divides _ _ W) as [d Hd].
  set (N := hs_slot_size s) in *. set (a := (h - 1) mod HANDLE_MASK + 1).
  assert (1 ≤ a ≤ HANDLE_MASK) as Ha.
  { subst a. pose proof (Z.mod_pos_bound (h - 1) HANDLE_MASK). unfold HANDLE_MASK in *. lia. }
  assert (∀ j, nth_handle h j = (a - 1 + j) mod HANDLE_MASK + 1) as E.
  { intros j. unfold nth_handle, a. f_equal.
    replace ((h - 1) mod HANDLE_MASK + 1 - 1 + j) with ((h - 1) mod HANDLE_MASK + j) by lia.
    by rewrite Zplus_mod_idemp_l. }
  set (j := (r - a) mod N). assert (0 ≤ j < N) as Hj by (apply Z.mod_pos_bound; lia).
  assert ((a + j) mod N = r) as Hmod.
  { unfold j. rewrite Zplus_mod_idemp_r. replace (a + (r - a)) with r by lia. apply Z.mod_small. lia. }
  change (2 ^ 24) with (HANDLE_MASK + 1) in *.
  destruct (Z.le_gt_cases (a + j) HANDLE_MASK) as [Hle|Hgt].
  - exists j. split; [done|]. rewrite E, (Z.mod_small (a - 1 + j)) by lia.
    by replace (a - 1 + j + 1) with (a + j) by lia.
  - assert (a + j = HANDLE_MASK + 1 + r) as Hsum.
    { assert (a + j = (a + j - (HANDLE_MASK + 1)) + d * N) as E2 by lia.
      rewrite E2, Z_mod_plus_full in Hmod. rewrite Z.mod_small in Hmod by lia. lia. }
    exists (j - 1). split; [lia|]. rewrite E.
    replace (a - 1 + (j - 1)) with (r - 1 + 1 * HANDLE_MASK) by lia.
    rewrite Z_mod_plus_full, (Z.mod_small (r - 1)) by lia.
    replace (r - 1 + 1) with r by lia. apply Z.mod_small. lia.
Qed.

(** ** Growing the table *)

Section rehash.
Context (hof : positive → Z) (size : Z).
Hypothesis Hsize : 0 < size.
Let H (c : positive) : Z := Z.land (hof c) (size * 2 - 1).
Hypothesis Hrange : ∀ c, 0 ≤ H c < size * 2.

Lemma rehash_spec cells new :
  Z.of_nat (length new) = size * 2 →
  (∀ c, Some c ∈ cells → aget new (H c) = Some None) →
  (∀ i j c d, cells !! i = Some (Some c) → cells !! j = Some (Some d) → H c = H d → i = j) →
  ∃ new', rehash hof cells size new = Some new' ∧ length new' = length new ∧
    ∀ i c, aget new' i = Some (Some c) ↔
      aget new i = Some (Some c) ∨ (Some c ∈ cells ∧ H c = i).
Proof.
  revert new. induction cells as [|[c|] cells IH]; intros new Hlen Hfree Hinj; simpl.
  - exists new. split; [done|]. split; [done|]. set_solver.
  - fold (H c). rewrite (Hfree c) by set_solver. cbn [mbind option_bind].
    rewrite c_assert_true by (by apply bool_decide_eq_true_2).
    destruct (aset new (H c) (Some c)) as [new1|] eqn:Ha;
      [|rewrite aset_Some in Ha by (specialize (Hrange c); lia); done].
    cbn [mbind option_bind].
    destruct (IH new1) as (new' & -> & Hl & Hiff).
    + by rewrite (length_aset _ _ _ _ Ha).
    + intros d Hd. rewrite (aget_aset_ne _ _ _ _ _ Ha); [apply Hfree; set_solver|].
      intros E. apply list_elem_of_lookup in Hd as [j Hj].
      specialize (Hinj 0%nat (S j) c d eq_refl Hj E). lia.
    + intros i j d e Hi Hj E. specialize (Hinj (S i) (S j) d e Hi Hj E). lia.
    + exists new'. split; [done|]. rewrite <- (length_aset _ _ _ _ Ha). split; [done|].
      intros i d. rewrite Hiff. destruct (Z.eq_dec (H c) i) as [<-|Hne].
      * rewrite (aget_aset_eq _ _ _ _ Ha), (Hfree c) by set_solver. split.
        -- intros [?|[??]]; [simplify_eq; right|right]; set_solver.
        -- intros [?|[[?|?]%elem_of_cons ?]]; [done|simplify_eq; by left|right; done].
      * rewrite (aget_aset_ne _ _ _ _ _ Ha) by done. split.
        -- intros [?|[??]]; [by left|right; set_solver].
        -- intros [?|[[?|?]%elem_of_cons ?]]; [by left|simplify_eq|by right].
  - destruct (IH new) as (new' & -> & Hl & Hiff); [done|set_solver| |].
    + intros i j d e Hi Hj E. specialize (Hinj (S i) (S j) d e Hi Hj E). lia.
    + exists new'. split; [done|]. split; [done|]. intros i d. rewrite Hiff. set_solver.
Qed.
End rehash.

Lemma mod_mod_double x n : 0 < n → (x mod (n * 2)) mod n = x mod n.
Proof.
  intros. rewrite (Z.mul_comm n 2).
  rewrite <- (Z_mod_plus_full (x mod (2 * n)) (2 * (x / (2 * n))) n).
  f_equal. pose proof (Z.div_mod x (2 * n)). lia.
Qed.

Lemma expand_spec hof s :
  hs_wf hof s → hs_slot_size s * 2 - 1 ≤ HANDLE_MASK →
  ∃ s', expand_slots hof s = Some s' ∧ hs_wf hof s' ∧
    hs_slot_size s' = hs_slot_size s * 2 ∧ hs_harbor s' = hs_harbor s ∧
    hs_handle_index s' = hs_handle_index s ∧
    hs_name s' = hs_name s ∧ hs_name_cap s' = hs_name_cap s ∧ hs_name_count s' = hs_name_count s ∧
    (∀ i c, aget (hs_slot s') i = Some (Some c) ↔
       registered s c ∧ hof c mod (hs_slot_size s * 2) = i).
Proof.
  intros W Hm. pose proof (size_range _ _ W). pose proof W as [(k & Hk & HN) Hlen Hb Hi Hs].
  assert (∀ c, Z.land (hof c) (hs_slot_size s * 2 - 1) = hof c mod (hs_slot_size s * 2)) as HL.
  { intros c. rewrite HN. replace (2 ^ k * 2) with (2 ^ (k + 1)) by (rewrite Z.pow_add_r; lia).
    apply land_mask. lia. }
  assert (∀ c, 0 ≤ Z.land (hof c) (hs_slot_size s * 2 - 1) < hs_slot_size s * 2) as HR.
  { intros c. rewrite HL. apply Z.mod_pos_bound. lia. }
  unfold expand_slots. rewrite c_assert_true by lia.
  edestruct (rehash_spec hof (hs_slot_size s) ltac:(lia) HR (hs_slot s)
    (replicate (Z.to_nat (hs_slot_size s * 2)) None)) as (new & -> & Hl & Hiff).
  { rewrite length_replicate. lia. }
  { intros c _. specialize (HR c). unfold aget. destruct (Z.leb_spec 0 (Z.land (hof c) (hs_slot_size s * 2 - 1))); [|lia].
    apply lookup_replicate. split; [done|]. lia. }
  { intros i j c d Hc Hd E. rewrite !HL in E. rewrite <- aget_nat in Hc, Hd.
    destruct (Hs _ _ Hc) as [_ Ec], (Hs _ _ Hd) as [_ Ed].
    rewrite <- mod_mod_double in Ec, Ed by lia. rewrite E in Ec. lia. }
  assert (∀ i c, aget new i = Some (Some c) ↔ registered s c ∧ hof c mod (hs_slot_size s * 2) = i) as Hnew.
  { intros i c. rewrite Hiff, HL. split.
    - intros [Hf|[Hc ?]].
      + exfalso. unfold aget in Hf. destruct (0 <=? i); [|done].
        apply lookup_replicate in Hf as [? _]. done.
      + split; [|done]. apply list_elem_of_lookup in Hc as [j Hj]. exists (Z.of_nat j). by rewrite aget_nat.
    - intros [[j Hj] ?]. right. split; [|done]. unfold aget in Hj. destruct (0 <=? j); [|done].
      apply list_elem_of_lookup. eauto. }
  cbn [mbind option_bind]. eexists; split; [done|]. split_and!; try done.
  split; simpl.
  - exists (k + 1). rewrite HN, Z.pow_add_r by lia. split; [|lia]. split; [lia|].
    destruct (Z.le_gt_cases (k + 1) 24); [done|]. exfalso.
    assert (2 ^ 24 ≤ 2 ^ k) by (apply Z.pow_le_mono_r; lia). unfold HANDLE_MASK in *. lia.
  - rewrite Hl, length_replicate. lia.
  - done.
  - done.
  - intros i c [[j Hj] Hc]%Hnew. split; [|done]. by destruct (Hs _ _ Hj).
Qed.

(** ** Registration is total and fresh *)

Definition fun_update (hof : positive → Z) (ctx : positive) (h : Z) (c : positive) : Z :=
  if decide (c = ctx) then h else hof c.

Lemma register_found hof s ctx handle slot :
  hs_wf hof s → ¬ registered s ctx → 1 ≤ handle ≤ HANDLE_MASK →
  aget (hs_slot s) (handle mod hs_slot_size s) = Some None →
  aset (hs_slot s) (handle mod hs_slot_size s) (Some ctx) = Some slot →
  let s' := set_slots (wrap 32 (handle + 1)) (hs_slot_size s) slot s in
  hs_wf (fun_update hof ctx (handle + hs_harbor s)) s' ∧
  (∀ c, registered s' c ↔ c = ctx ∨ registered s c) ∧
  (∀ c, registered s c → hof c ≠ handle + hs_harbor s).
Proof.
  intros W Hn Hh Hfree Ha s'. pose proof (size_range _ _ W). pose proof W as [].
  assert (∀ i c, aget slot i = Some (Some c) ↔
    (c = ctx ∧ i = handle mod hs_slot_size s) ∨ aget (hs_slot s) i = Some (Some c)) as Hslot.
  { intros i c. destruct (Z.eq_dec i (handle mod hs_slot_size s)) as [->|Hne].
    - rewrite (aget_aset_eq _ _ _ _ Ha), Hfree. naive_solver.
    - rewrite (aget_aset_ne _ _ _ _ _ Ha) by done. naive_solver. }
  split_and!.
  - split; simpl; try done.
    + by rewrite (length_aset _ _ _ _ Ha).
    + rewrite wrap_small; unfold HANDLE_MASK in *; lia.
    + intros i c [[-> ->]|Hc]%Hslot; unfold fun_update.
      * rewrite decide_True, (harbor_mod hof) by done. split; [lia|done].
      * rewrite decide_False; [by apply hw_slot0|]. intros ->. apply Hn. by exists i.
  - intros c. split.
    + intros [i [[-> _]|?]%Hslot]; [by left|right; by exists i].
    + intros [->|[i ?]]; [exists (handle mod hs_slot_size s)|exists i]; apply Hslot; auto.
  - intros c [i Hi] E. destruct (hw_slot0 _ _ Hi) as [_ Ei].
    rewrite E, (harbor_mod hof) in Ei by done. congruence.
Qed.

(** The doubled table always has a free slot the probe reaches: the two cells
    1 and [size + 1] come from one old cell. *)
Lemma expanded_probe hof s s' :
  hs_wf hof s → hs_wf hof s' → hs_slot_size s' = hs_slot_size s * 2 →
  (∀ i c, aget (hs_slot s') i = Some (Some c) ↔
       registered s c ∧ hof c mod (hs_slot_size s * 2) = i) →
  ∃ handle, probe (Z.to_nat (hs_slot_size s')) s' (hs_handle_index s')
      = Some (Some (handle, handle mod hs_slot_size s')) ∧
    1 ≤ handle ≤ HANDLE_MASK ∧ aget (hs_slot s') (handle mod hs_slot_size s') = Some None.
Proof.
  intros W W' Hsz Hiff. pose proof (size_range _ _ W).
  destruct (probe_spec _ _ (Z.to_nat (hs_slot_size s')) _ W' (hw_index _ _ W')) as [?|[_ Hall]]; [done|].
  exfalso. set (N := hs_slot_size s) in *.
  assert (∀ r, 1 ≤ r < 2 * N → ∃ c, registered s c ∧ hof c mod (N * 2) = r) as Hr.
  { intros r Hr. destruct (probe_covers _ _ (hs_handle_index s') r W') as (j & Hj & Hjr); [lia|].
    destruct (Hall j) as [c Hc]; [lia|]. rewrite Hjr in Hc. exists c. by apply Hiff. }
  destruct (Hr 1) as (c & [i Hi] & Ec); [lia|]. destruct (Hr (N + 1)) as (d & [j Hj] & Ed); [lia|].
  destruct (hw_slot _ _ W _ _ Hi) as [_ Ei], (hw_slot _ _ W _ _ Hj) as [_ Ej].
  fold N in Ei, Ej. rewrite <- mod_mod_double in Ei, Ej by lia. rewrite Ec in Ei. rewrite Ed in Ej.
  rewrite Z.mod_small in Ei by lia. replace (N + 1) with (1 + 1 * N) in Ej by lia.
  rewrite Z_mod_plus_full, Z.mod_small in Ej by lia. subst i j.
  assert (c = d) as -> by congruence. lia.
Qed.

Lemma handle_lor hof s handle :
  hs_wf hof s → 1 ≤ handle ≤ HANDLE_MASK → Z.lor handle (hs_harbor s) = handle + hs_harbor s.
Proof. intros [_ _ (b & ? & ->) _ _] ?. apply lor_add; unfold HANDLE_MASK in *; lia. Qed.

Lemma aset_slot hof s z ctx :
  hs_wf hof s → is_Some (aset (hs_slot s) (z mod hs_slot_size s) (Some ctx)).
Proof.
  intros W. pose proof (size_range _ _ W). pose proof (hw_len _ _ W).
  rewrite aset_Some; [eauto|]. rewrite (hw_len _ _ W). apply Z.mod_pos_bound. lia.
Qed.

(** What a registration promises, for the table before and after. *)
Record register_ok (hof : positive → Z) (s : handle_storage) (ctx : positive) (h : Z)
    (s' : handle_storage) : Prop := {
  ro_range : 1 ≤ h - hs_harbor s ≤ HANDLE_MASK;
  ro_fresh : ∀ c, registered s c → hof c ≠ h;
  ro_wf : hs_wf (fun_update hof ctx h) s';
  ro_registered : ∀ c, registered s' c ↔ c = ctx ∨ registered s c;
  ro_names : hs_name s' = hs_name s ∧ hs_name_cap s' = hs_name_cap s ∧ hs_name_count s' = hs_name_count s;
  ro_harbor : hs_harbor s' = hs_harbor s }.

Lemma register_round hof s ctx handle slot :
  hs_wf hof s → ¬ registered s ctx → 1 ≤ handle ≤ HANDLE_MASK →
  aget (hs_slot s) (handle mod hs_slot_size s) = Some None →
  aset (hs_slot s) (handle mod hs_slot_size s) (Some ctx) = Some slot →
  register_ok hof s ctx (Z.lor handle (hs_harbor s))
    (set_slots (wrap 32 (handle + 1)) (hs_slot_size s) slot s).
Proof.
  intros W Hn Hh Hf Ha. destruct (register_found _ _ _ _ _ W Hn Hh Hf Ha) as (? & ? & ?).
  rewrite (handle_lor _ _ _ W Hh). split; try done. lia.
Qed.

(** [skynet_handle_register] always returns, after at most one doubling of the
    table, a handle that no registered context has, and keeps the invariant
    once the caller has stored the handle in the context. *)
Lemma register_spec hof s ctx :
  hs_wf hof s → ¬ registered s ctx → hs_slot_size s ≤ 2 ^ 23 →
  ∃ h s', skynet_handle_register hof ctx s = Some (h, s') ∧ register_ok hof s ctx h s'.
Proof.
  intros W Hn Hsz. unfold skynet_handle_register. cbn [handle_register].
  destruct (probe_spec _ _ (Z.to_nat (hs_slot_size s)) _ W (hw_index _ _ W))
    as [(handle & -> & Hh & Hf)|[-> _]]; cbn [mbind option_bind].
  { destruct (aset_slot _ _ handle ctx W) as [slot Ha]. rewrite Ha.
    eexists _, _. split; [done|]. by eapply register_round. }
  destruct (expand_spec _ _ W) as (s1 & -> & W1 & Hs1 & Hb & Hi & N1 & N2 & N3 & Hiff);
    [unfold HANDLE_MASK; lia|].
  destruct (expanded_probe _ _ _ W W1 Hs1 Hiff) as (handle & Hp & Hh & Hf).
  cbn [mbind option_bind]. rewrite Hp. cbn [mbind option_bind].
  destruct (aset_slot _ _ handle ctx W1) as [slot Ha]. rewrite Ha.
  eexists _, _. split; [done|].
  assert (∀ c, registered s1 c ↔ registered s c) as Hreg.
  { intros c. split; [intros [i [? _]%Hiff]; done|]. intros Hc. eexists. by apply Hiff. }
  assert (¬ registered s1 ctx) as Hn1 by (by rewrite Hreg).
  destruct (register_round _ _ _ _ _ W1 Hn1 Hh Hf Ha) as [R1 R2 R3 R4 (R5 & R6 & R7) R8].
  split; simpl in *; rewrite <- ?Hb; try done; try (split_and!; congruence).
  - intros c Hc. apply R2. by apply Hreg.
  - intros c. rewrite R4, Hreg. done.
Qed.

(** ** Lookup and retirement *)

Lemma grab_spec hof s h ctx :
  hs_wf hof s →
  (skynet_handle_grab hof h s = Some (Some ctx) ↔ registered s ctx ∧ hof ctx = h) ∧
  is_Some (skynet_handle_grab hof h s).
Proof.
  intros W. pose proof (size_range _ _ W). pose proof W as []. unfold skynet_handle_grab.
  rewrite (slot_mask _ _ _ W).
  destruct (aget_is_Some (hs_slot s) (h mod hs_slot_size s)) as [cell Hc].
  { rewrite hw_len0. apply Z.mod_pos_bound. lia. }
  rewrite Hc. cbn [mbind option_bind]. split; [|destruct cell; eauto].
  assert (∀ c, registered s c → hof c = h → aget (hs_slot s) (h mod hs_slot_size s) = Some (Some c)) as HR.
  { intros c [i Hi] <-. destruct (hw_slot0 _ _ Hi) as [_ ->]. done. }
  destruct cell as [c|].
  - split.
    + intros E. destruct (Z.eqb_spec (hof c) h) as [<-|]; simplify_eq. split; [|done]. by eexists.
    + intros [Hreg Hh]. specialize (HR _ Hreg Hh). simplify_eq. by rewrite Z.eqb_refl.
  - split; [done|]. intros [Hreg Hh]. specialize (HR _ Hreg Hh). congruence.
Qed.

(** ** The name table *)

Lemma strcmp_refl a : strcmp a a = Eq.
Proof. induction a as [|x a IH]; simpl; [done|]. by rewrite Z.compare_refl. Qed.

Lemma strcmp_eq a b : strcmp a b = Eq ↔ a = b.
Proof.
  split; [|intros ->; apply strcmp_refl]. revert b.
  induction a as [|x a IH]; intros [|y b]; simpl; try done.
  destruct (Z.compare_spec x y); try done. intros ?. f_equal; auto.
Qed.

Lemma strcmp_antisym a b : strcmp b a = CompOpp (strcmp a b).
Proof.
  revert b. induction a as [|x a IH]; intros [|y b]; simpl; try done.
  rewrite (Z.compare_antisym x y). destruct (x ?= y); simpl; auto.
Qed.

Lemma strcmp_trans a b c : strcmp a b = Lt → strcmp b c = Lt → strcmp a c = Lt.
Proof.
  revert b c. induction a as [|x a IH]; intros [|y b] [|z c]; simpl; try done.
  destruct (Z.compare_spec x y), (Z.compare_spec y z); try done; subst.
  - rewrite Z.compare_refl. eauto.
  - intros _ _. by rewrite (proj2 (Z.compare_lt_iff _ _)).
  - intros _ _. by rewrite (proj2 (Z.compare_lt_iff _ _)).
  - intros _ _. by rewrite (proj2 (Z.compare_lt_iff x z)) by lia.
Qed.

(** The live prefix of the name array is a list sorted by [strcmp]. *)
Record names_repr (s : handle_storage) (l : list handle_name) : Prop := {
  nr_count : hs_name_count s = Z.of_nat (length l);
  nr_cap : Z.of_nat (length (hs_name s)) = hs_name_cap s;
  nr_fit : hs_name_count s ≤ hs_name_cap s;
  nr_pos : 2 ≤ hs_name_cap s;
  nr_get : ∀ i e, l !! i = Some e → hs_name s !! i = Some (Some e);
  nr_sorted : ∀ i j x y, l !! i = Some x → l !! j = Some y → (i < j)%nat →
    strcmp (hn_name x) (hn_name y) = Lt }.

Lemma names_repr_init harbor : names_repr (skynet_handle_init harbor) [].
Proof. split; simpl; try lia; try done; intros *; by rewrite ?lookup_nil. Qed.

(** The bisection keeps: entries before [b] are smaller, entries after [e]
    are larger. *)
Lemma bisect_spec s l name fuel b e :
  names_repr s l → 0 ≤ b → b ≤ e + 1 → e < hs_name_count s → e - b + 1 < Z.of_nat fuel →
  (∀ i x, l !! i = Some x → Z.of_nat i < b → strcmp (hn_name x) name = Lt) →
  (∀ i x, l !! i = Some x → e < Z.of_nat i → strcmp (hn_name x) name = Gt) →
  (∃ x, bisect fuel s name b e = Some (inl x) ∧ x ∈ l ∧ hn_name x = name) ∨
  (∃ p, bisect fuel s name b e = Some (inr (Z.of_nat p)) ∧ (p ≤ length l)%nat ∧
     (∀ i x, l !! i = Some x → (i < p)%nat → strcmp (hn_name x) name = Lt) ∧
     (∀ i x, l !! i = Some x → (p ≤ i)%nat → strcmp (hn_name x) name = Gt)).
Proof.
  intros []. revert b e. induction fuel as [|fuel IH]; intros b e Hb Hbe He Hf Hlo Hhi; [lia|].
  simpl. destruct (Z.leb_spec b e) as [Hle|Hgt].
  - set (mid := (b + e) ÷ 2).
    assert (b ≤ mid ≤ e) as Hm.
    { subst mid. rewrite Z.quot_div_nonneg by lia. split; [apply Z.div_le_lower_bound|apply Z.div_le_upper_bound]; lia. }
    destruct (lookup_lt_is_Some_2 l (Z.to_nat mid)) as [x Hx]; [lia|].
    assert (aget (hs_name s) mid = Some (Some x)) as ->.
    { replace mid with (Z.of_nat (Z.to_nat mid)) by lia. rewrite aget_nat. auto. }
    cbn [mbind option_bind]. destruct (strcmp (hn_name x) name) eqn:Ec.
    + left. exists x. split; [done|]. split; [|by apply strcmp_eq]. apply list_elem_of_lookup; eauto.
    + apply IH; try lia; [|done]. intros i y Hy Hi. destruct (decide (i = Z.to_nat mid)) as [->|]; [congruence|].
      eapply strcmp_trans; [|exact Ec]. eapply nr_sorted0; [exact Hy|exact Hx|]. lia.
    + apply IH; try lia; [done|]. intros i y Hy Hi. destruct (decide (i = Z.to_nat mid)) as [->|]; [congruence|].
      rewrite strcmp_antisym in Ec |- *. destruct (strcmp name (hn_name x)) eqn:E1; try done.
      rewrite (strcmp_trans name (hn_name x) (hn_name y)); [done..|].
      eapply nr_sorted0; [exact Hx|exact Hy|]. lia.
  - right. exists (Z.to_nat b). rewrite Z2Nat.id by lia. split_and!; [done|lia| |].
    + intros i x Hx Hi. eapply Hlo; [done|]. lia.
    + intros i x Hx Hi. eapply Hhi; [done|]. lia.
Qed.

Lemma bisect_full s l name :
  names_repr s l →
  (∃ x, bisect (bisect_fuel s) s name 0 (hs_name_count s - 1) = Some (inl x) ∧ x ∈ l ∧ hn_name x = name) ∨
  (∃ p, bisect (bisect_fuel s) s name 0 (hs_name_count s - 1) = Some (inr (Z.of_nat p)) ∧ (p ≤ length l)%nat ∧
     (∀ i x, l !! i = Some x → (i < p)%nat → strcmp (hn_name x) name = Lt) ∧
     (∀ i x, l !! i = Some x → (p ≤ i)%nat → strcmp (hn_name x) name = Gt)).
Proof.
  intros R. pose proof R as []. unfold bisect_fuel. apply bisect_spec; try done; try lia.
  intros i x Hx Hi. apply lookup_lt_Some in Hx. lia.
Qed.

Lemma bisect_absent (l : list handle_name) name p :
  (∀ i x, l !! i = Some x → (i < p)%nat → strcmp (hn_name x) name = Lt) →
  (∀ i x, l !! i = Some x → (p ≤ i)%nat → strcmp (hn_name x) name = Gt) →
  ∀ e, e ∈ l → hn_name e ≠ name.
Proof.
  intros Hlt Hgt e [i Hi]%list_elem_of_lookup <-. pose proof (strcmp_refl (hn_name e)).
  destruct (decide (i < p)%nat) as [Hp|Hp].
  - specialize (Hlt _ _ Hi Hp). congruence.
  - assert (strcmp (hn_name e) (hn_name e) = Gt) by (eapply Hgt; [done|lia]). congruence.
Qed.

Lemma sorted_name_inj s l x y :
  names_repr s l → x ∈ l → y ∈ l → hn_name x = hn_name y → x = y.
Proof.
  intros [] [i Hi]%list_elem_of_lookup [j Hj]%list_elem_of_lookup E.
  destruct (Nat.lt_total i j) as [Hl|[->|Hl]]; [|congruence|].
  - pose proof (nr_sorted0 _ _ _ _ Hi Hj Hl) as Hs. rewrite E, strcmp_refl in Hs. done.
  - pose proof (nr_sorted0 _ _ _ _ Hj Hi Hl) as Hs. rewrite E, strcmp_refl in Hs. done.
Qed.

(** [skynet_handle_findname]: the bisection finds the entry of a registered
    name and answers 0 otherwise. *)
Lemma findname_spec s l name :
  names_repr s l →
  ∃ r, skynet_handle_findname name s = Some r ∧
    (∀ e, e ∈ l → hn_name e = name → r = hn_handle e) ∧
    ((∀ e, e ∈ l → hn_name e ≠ name) → r = 0).
Proof.
  intros R. unfold skynet_handle_findname.
  destruct (bisect_full _ _ name R) as [(x & -> & Hx & Hn)|(p & -> & _ & Hlt & Hgt)];
    cbn [mbind option_bind]; eexists; (split; [done|]); split.
  - intros e He En. f_equal. eapply sorted_name_inj; [done..|]. congruence.
  - intros Hno. by destruct (Hno x).
  - intros e He En. by destruct (bisect_absent l name p Hlt Hgt e He).
  - done.
Qed.

(** The two array branches of [_insert_name_before] agree. *)
Definition opened (a a' : list (option handle_name)) (p n : nat) : Prop :=
  (∀ i, (i < p)%nat → a' !! i = a !! i) ∧
  (∀ i, (p ≤ i < n)%nat → a' !! S i = a !! i).

Lemma mapM_aget (a : list (option handle_name)) lo n :
  0 ≤ lo → 0 ≤ n → lo + n ≤ Z.of_nat (length a) →
  mapM (aget a) (seqZ lo n) = Some (take (Z.to_nat n) (drop (Z.to_nat lo) a)).
Proof.
  intros Hlo Hn Hlen. apply mapM_Some. apply Forall2_same_length_lookup_2.
  { rewrite length_seqZ, length_take, length_drop. lia. }
  intros i x y Hx Hy. apply lookup_seqZ in Hx as [-> Hi].
  rewrite lookup_take_lt, lookup_drop in Hy by lia. unfold aget.
  destruct (Z.leb_spec 0 (lo + Z.of_nat i)); [|lia]. rewrite <- Hy. f_equal. lia.
Qed.

Lemma grow_names_spec a cap p n :
  (p ≤ n)%nat → length a = n → Z.of_nat n < cap →
  ∃ a', grow_names a cap (Z.of_nat p) (Z.of_nat n) = Some a' ∧
    Z.of_nat (length a') = cap ∧ opened a a' p n.
Proof.
  intros Hp Hl Hc. unfold grow_names. rewrite !mapM_aget by lia. cbn [mbind option_bind].
  eexists; split; [done|]. rewrite Nat2Z.id. change (Z.to_nat 0) with 0%nat. rewrite drop_0.
  rewrite (take_ge (drop p a)) by (rewrite length_drop; lia).
  split; [|split].
  - rewrite !length_app, length_take, length_drop, length_replicate. cbn [length]. lia.
  - intros i Hi. rewrite lookup_app_l by (rewrite length_take; lia). by apply lookup_take_lt.
  - intros i Hi. rewrite lookup_app_r, length_take by (rewrite length_take; lia).
    replace (S i - p `min` length a)%nat with (S (i - p)) by lia. simpl.
    rewrite lookup_app_l by (rewrite length_drop; lia). rewrite lookup_drop. f_equal. lia.
Qed.

Lemma shift_up_spec k i a :
  (k ≤ i)%nat → (i < length a)%nat →
  ∃ a', shift_up k (Z.of_nat i) a = Some a' ∧ length a' = length a ∧
    (∀ j, (i - k < j ≤ i)%nat → a' !! j = a !! (j - 1)%nat) ∧
    (∀ j, ¬ (i - k < j ≤ i)%nat → a' !! j = a !! j).
Proof.
  revert i a. induction k as [|k IH]; intros i a Hk Hi; simpl.
  { exists a. split_and!; try done. lia. }
  replace (Z.of_nat i - 1) with (Z.of_nat (i - 1)) by lia. rewrite aget_nat.
  destruct (lookup_lt_is_Some_2 a (i - 1)) as [e He]; [lia|]. rewrite He. cbn [mbind option_bind].
  rewrite aset_Some, Nat2Z.id by lia. cbn [mbind option_bind].
  destruct (IH (i - 1)%nat (<[i:=e]> a)) as (a' & -> & Hl & H1 & H2); [lia|rewrite length_insert; lia|].
  exists a'. rewrite length_insert in Hl. split_and!; [done|done| |].
  - intros j Hj. destruct (decide (j = i)) as [->|].
    + rewrite H2, list_lookup_insert_eq by lia. done.
    + rewrite H1, list_lookup_insert_ne by lia. done.
  - intros j Hj. rewrite H2, list_lookup_insert_ne by lia. done.
Qed.

(** What remains of both branches: writing the new entry. *)
Lemma insert_entry l a a' p e :
  (p ≤ length l)%nat → opened a a' p (length l) → (p < length a')%nat →
  (∀ i x, l !! i = Some x → a !! i = Some (Some x)) →
  ∀ i x, (take p l ++ e :: drop p l) !! i = Some x → <[p := Some e]> a' !! i = Some (Some x).
Proof.
  intros Hp [Hlo Hhi] Hpa Hg i x Hx. destruct (decide (i = p)) as [->|Hne].
  - rewrite lookup_app_r, length_take in Hx by (rewrite length_take; lia).
    replace (p - p `min` length l)%nat with 0%nat in Hx by lia. simplify_eq/=.
    by rewrite list_lookup_insert_eq.
  - rewrite list_lookup_insert_ne by done. destruct (decide (i < p)%nat).
    + rewrite lookup_app_l, lookup_take_lt in Hx by (rewrite ?length_take; lia).
      rewrite Hlo by done. auto.
    + rewrite lookup_app_r, length_take in Hx by (rewrite length_take; lia).
      replace (i - p `min` length l)%nat with (S (i - 1 - p)) in Hx by lia. simpl in Hx.
      rewrite lookup_drop in Hx. replace (p + (i - 1 - p))%nat with (i - 1)%nat in Hx by lia.
      pose proof (lookup_lt_Some _ _ _ Hx). replace i with (S (i - 1)) by lia.
      rewrite Hhi by lia. auto.
Qed.

Lemma insert_sorted (l : list handle_name) e p :
  (∀ i j x y, l !! i = Some x → l !! j = Some y → (i < j)%nat → strcmp (hn_name x) (hn_name y) = Lt) →
  (∀ i x, l !! i = Some x → (i < p)%nat → strcmp (hn_name x) (hn_name e) = Lt) →
  (∀ i x, l !! i = Some x → (p ≤ i)%nat → strcmp (hn_name x) (hn_name e) = Gt) →
  (p ≤ length l)%nat →
  ∀ i j x y, (take p l ++ e :: drop p l) !! i = Some x → (take p l ++ e :: drop p l) !! j = Some y →
    (i < j)%nat → strcmp (hn_name x) (hn_name y) = Lt.
Proof.
  intros Hs Hlt Hgt Hp.
  assert (∀ i x, (take p l ++ e :: drop p l) !! i = Some x →
    (i < p)%nat ∧ l !! i = Some x ∨ i = p ∧ x = e ∨ (p < i)%nat ∧ l !! (i - 1)%nat = Some x) as Hcase.
  { intros i x Hx. destruct (decide (i < p)%nat).
    - left. rewrite lookup_app_l, lookup_take_lt in Hx by (rewrite ?length_take; lia). done.
    - right. rewrite lookup_app_r, length_take in Hx by (rewrite length_take; lia).
      destruct (decide (i = p)) as [->|].
      + left. replace (p - p `min` length l)%nat with 0%nat in Hx by lia. by simplify_eq/=.
      + right. split; [lia|]. replace (i - p `min` length l)%nat with (S (i - 1 - p)) in Hx by lia.
        simpl in Hx. rewrite lookup_drop in Hx. rewrite <- Hx. f_equal. lia. }
  intros i j x y Hx Hy Hij.
  assert (∀ z k, l !! k = Some z → (p ≤ k)%nat → strcmp (hn_name e) (hn_name z) = Lt) as Hgt'.
  { intros z k Hz Hk. rewrite strcmp_antisym, (Hgt _ _ Hz Hk). done. }
  destruct (Hcase _ _ Hx) as [[? Hx']|[[? ->]|[? Hx']]],
    (Hcase _ _ Hy) as [[? Hy']|[[? ->]|[? Hy']]]; subst; try lia;
    first [eapply Hs; [done..|lia] | by eapply Hlt | eapply Hgt'; [done|lia]].
Qed.

Lemma insert_name_before_spec s l name handle p :
  names_repr s l → hs_name_cap s ≤ 2 ^ 29 → (p ≤ length l)%nat →
  ∃ cap a, insert_name_before s name handle (Z.of_nat p)
      = Some (set_names cap (hs_name_count s + 1) a s) ∧
    Z.of_nat (length a) = cap ∧ hs_name_count s + 1 ≤ cap ∧ 2 ≤ cap ∧
    ∀ i x, (take p l ++ mkName name handle :: drop p l) !! i = Some x → a !! i = Some (Some x).
Proof.
  intros [] Hcap Hp. unfold insert_name_before.
  destruct (Z.leb_spec (hs_name_cap s) (hs_name_count s)) as [Hfull|Hroom].
  - rewrite c_int_Some by (unfold INT_MIN, INT_MAX; lia). cbn [mbind option_bind].
    rewrite c_assert_true by (unfold MAX_SLOT_SIZE; lia). rewrite nr_count0.
    destruct (grow_names_spec (hs_name s) (hs_name_cap s * 2) p (length l))
      as (a & -> & Hl & Ho); [lia|lia|lia|].
    cbn [mbind option_bind]. rewrite aset_Some, Nat2Z.id by lia. cbn [mbind option_bind].
    eexists _, _. split; [done|]. rewrite length_insert. split_and!; [lia..|].
    eapply insert_entry; eauto. lia.
  - destruct (shift_up_spec (Z.to_nat (hs_name_count s - Z.of_nat p)) (length l) (hs_name s))
      as (a & Ha & Hl & H1 & H2); [lia|lia|]. rewrite nr_count0 in *. rewrite Ha.
    cbn [mbind option_bind]. rewrite aset_Some, Nat2Z.id by lia. cbn [mbind option_bind].
    eexists _, _. split; [done|]. rewrite length_insert. split_and!; [lia..|].
    eapply insert_entry; eauto; [|lia]. split; intros i Hi.
    + apply H2. lia.
    + rewrite H1 by lia. f_equal. lia.
Qed.

(** [skynet_handle_namehandle] refuses a taken name and otherwise inserts the
    entry at its sorted position, growing the array when it is full. *)
Lemma namehandle_spec s l handle name :
  names_repr s l → hs_name_cap s ≤ 2 ^ 29 →
  ((∃ e, e ∈ l ∧ hn_name e = name) ∧ skynet_handle_namehandle handle name s = Some (None, s)) ∨
  ((∀ e, e ∈ l → hn_name e ≠ name) ∧
   ∃ p s', skynet_handle_namehandle handle name s = Some (Some name, s') ∧
     names_repr s' (take p l ++ mkName name handle :: drop p l) ∧
     hs_slot s' = hs_slot s ∧ hs_slot_size s' = hs_slot_size s).
Proof.
  intros R Hcap. unfold skynet_handle_namehandle.
  destruct (bisect_full _ _ name R) as [(x & -> & Hx & Hn)|(p & -> & Hp & Hlt & Hgt)];
    cbn [mbind option_bind]; [left; eauto|right].
  split; [by eapply bisect_absent|].
  destruct (insert_name_before_spec _ _ name handle p R Hcap Hp) as (cap & a & -> & Hl & Hc & H2 & Hg).
  cbn [mbind option_bind]. exists p. eexists. split; [done|]. pose proof R as [].
  split; [|done]. split; simpl; try done.
  - rewrite nr_count0, length_app, length_take. cbn [length]. rewrite length_drop. lia.
  - by apply insert_sorted.
Qed.

(** The in-place compaction keeps exactly the entries of other handles. *)
Lemma compact_spec handle l k name :
  let f := filter (λ e, hn_handle e ≠ handle) in
  ∀ i j done_ , l = take i l ++ drop i l → (i + k = length l)%nat → done_ = f (take i l) →
  j = length done_ → (j ≤ i)%nat →
  (∀ n e, done_ !! n = Some e → name !! n = Some (Some e)) →
  (∀ n e, l !! n = Some e → (i ≤ n)%nat → name !! n = Some (Some e)) →
  ∃ name', compact k (Z.of_nat i) (Z.of_nat j) handle name = Some (Z.of_nat (length (f l)), name') ∧
    length name' = length name ∧ ∀ n e, f l !! n = Some e → name' !! n = Some (Some e).
Proof.
  intros f. revert name. induction k as [|k IH]; intros name i j done_ Hl Hik Hd Hj Hji H1 H2; simpl.
  - exists name. rewrite take_ge in Hd by lia. subst. done.
  - destruct (lookup_lt_is_Some_2 l i) as [e He]; [lia|].
    rewrite aget_nat, (H2 _ _ He) by lia. cbn [mbind option_bind].
    pose proof (take_S_r _ _ _ He) as Htake.
    assert (f (take (S i) l) = done_ ++ f [e]) as Hf by (unfold f in *; rewrite Htake, filter_app, Hd; done).
    replace (Z.of_nat i + 1) with (Z.of_nat (S i)) by lia.
    destruct (Z.eqb_spec (hn_handle e) handle) as [Heq|Hne].
    + apply (IH name (S i) j done_); try done; try lia.
      * by rewrite take_drop.
      * rewrite Hf. unfold f. rewrite filter_cons_False by tauto. by rewrite app_nil_r.
      * intros n x Hx Hn. apply H2; [done|lia].
    + replace (Z.of_nat j + 1) with (Z.of_nat (S j)) by lia.
      assert (f (take (S i) l) = done_ ++ [e]) as Hf' by (rewrite Hf; unfold f; by rewrite filter_cons_True).
      assert (∀ name1 : list (option handle_name), length name1 = length name →
        (∀ n, n ≠ j → name1 !! n = name !! n) → name1 !! j = Some (Some e) →
        ∃ name', compact k (Z.of_nat (S i)) (Z.of_nat (S j)) handle name1 = Some (Z.of_nat (length (f l)), name') ∧
          length name' = length name ∧ ∀ n e, f l !! n = Some e → name' !! n = Some (Some e)) as Hgo.
      { intros name1 Hl1 Hne1 Hj1. rewrite <- Hl1. apply (IH name1 (S i) (S j) (done_ ++ [e])); try done; try lia.
        - by rewrite take_drop.
        - rewrite length_app. simpl. lia.
        - intros n x [Hx|[Hge Hx]]%lookup_app_Some.
          + rewrite Hne1; [auto|]. apply lookup_lt_Some in Hx. lia.
          + apply list_lookup_singleton_Some in Hx as [Hn ->]. by replace n with j by lia.
        - intros n x Hx Hn. rewrite Hne1 by lia. apply H2; [done|lia]. }
      destruct (Z.eqb_spec (Z.of_nat i) (Z.of_nat j)) as [Eij|Nij].
      * apply Hgo; [done|done|]. replace j with i by lia. apply H2; [done|lia].
      * assert (i < length name)%nat by (eapply lookup_lt_Some, H2; [exact He|lia]).
        rewrite aset_Some, Nat2Z.id by lia. cbn [mbind option_bind].
        apply Hgo; [apply length_insert|intros; by rewrite list_lookup_insert_ne by done|].
        apply list_lookup_insert_eq. lia.
Qed.

Lemma filter_sorted (P : handle_name → Prop) `{!∀ e, Decision (P e)} (l : list handle_name) :
  (∀ i j x y, l !! i = Some x → l !! j = Some y → (i < j)%nat → strcmp (hn_name x) (hn_name y) = Lt) →
  ∀ i j x y, filter P l !! i = Some x → filter P l !! j = Some y → (i < j)%nat →
    strcmp (hn_name x) (hn_name y) = Lt.
Proof.
  induction l as [|e l IH]; intros Hs i j x y Hx Hy Hij; [by rewrite filter_nil, lookup_nil in Hx|].
  assert (∀ i j x y, l !! i = Some x → l !! j = Some y → (i < j)%nat → strcmp (hn_name x) (hn_name y) = Lt) as Hs'.
  { intros a b u v Hu Hv Hab. apply (Hs (S a) (S b) u v Hu Hv). lia. }
  rewrite filter_cons in Hx, Hy. case_decide as Hp; [|by eapply (IH Hs')].
  destruct i as [|i], j as [|j]; try lia; simpl in Hx, Hy.
  - simplify_eq. apply list_elem_of_lookup_2, list_elem_of_filter in Hy as [_ [k Hk]%list_elem_of_lookup].
    apply (Hs 0%nat (S k) x y eq_refl Hk). lia.
  - eapply (IH Hs'); [done..|lia].
Qed.

(** [skynet_handle_retire]: a live handle loses its slot and all its names,
    nothing else changes; any other handle is reported with [ret = 0]. *)
Lemma retire_spec hof s l h :
  hs_wf hof s → names_repr s l →
  (∃ ctx s', registered s ctx ∧ hof ctx = h ∧
     skynet_handle_retire hof h s = Some (Some ctx, s') ∧ hs_wf hof s' ∧
     names_repr s' (filter (λ e, hn_handle e ≠ h) l) ∧
     hs_slot_size s' = hs_slot_size s ∧
     ∀ i, aget (hs_slot s') i = if i =? h mod hs_slot_size s then Some None else aget (hs_slot s) i) ∨
  ((∀ ctx, registered s ctx → hof ctx ≠ h) ∧ skynet_handle_retire hof h s = Some (None, s)).
Proof.
  intros W R. pose proof (grab_spec hof s h) as G. unfold skynet_handle_grab in G.
  pose proof (size_range _ _ W). pose proof W as []. pose proof R as [].
  unfold skynet_handle_retire. rewrite (slot_mask _ _ _ W) in *.
  destruct (aget_is_Some (hs_slot s) (h mod hs_slot_size s)) as [cell Hc].
  { rewrite hw_len0. apply Z.mod_pos_bound. lia. }
  rewrite Hc in *. cbn [mbind option_bind] in *.
  assert (∀ c, registered s c → hof c = h → cell = Some c) as Hu.
  { intros c Hr E. pose proof (proj2 (proj1 (G c W)) (conj Hr E)) as HE.
    destruct cell as [p|]; [|done]. destruct (hof p =? h); congruence. }
  destruct cell as [ctx|]; cycle 1.
  { right. split; [|done]. intros c Hr E. by specialize (Hu _ Hr E). }
  destruct (Z.eqb_spec (hof ctx) h) as [E|Hne]; cycle 1.
  { right. split; [|done]. intros c Hr E. specialize (Hu _ Hr E). congruence. }
  left. rewrite aset_Some by (rewrite hw_len0; apply Z.mod_pos_bound; lia).
  set (slot := <[_ := _]> _).
  assert (aset (hs_slot s) (h mod hs_slot_size s) None = Some slot) as Ha.
  { apply aset_Some. rewrite hw_len0; apply Z.mod_pos_bound; lia. }
  cbn [mbind option_bind]. rewrite nr_count0, Nat2Z.id.
  destruct (compact_spec h l (length l) (hs_name s) 0 0 []) as (name' & Hcomp & Hl' & Hg');
    try done; try (by intros *; rewrite lookup_nil); [intros; auto|].
  change (Z.of_nat 0) with 0 in Hcomp. rewrite Hcomp. cbn [mbind option_bind].
  assert (∀ i, aget slot i = if i =? h mod hs_slot_size s then Some None else aget (hs_slot s) i) as Hslot.
  { intros i. destruct (Z.eqb_spec i (h mod hs_slot_size s)) as [->|].
    - by eapply aget_aset_eq.
    - by eapply aget_aset_ne. }
  exists ctx. eexists. split; [by eexists|]. split; [done|]. split; [done|].
  split_and!; try done.
  - split; simpl; try done.
    + by rewrite (length_aset _ _ _ _ Ha).
    + intros i c. rewrite Hslot. destruct (_ =? _); [done|]. auto.
  - split; simpl; try done; try lia.
    + pose proof (length_filter (λ e, hn_handle e ≠ h) l). lia.
    + by apply filter_sorted.
Qed.

(** ** Retiring everything *)

Lemma retireall_pass_spec hof n i s l seen acc :
  hs_wf hof s → names_repr s l → 0 ≤ i → i + Z.of_nat n = hs_slot_size s → 0 ≤ seen →
  (∀ j, 0 ≤ j < i → aget (hs_slot s) j = Some None) →
  ∃ seen' acc' s', retireall_pass hof n i s seen acc = Some (seen', acc', s') ∧
    hs_wf hof s' ∧ (∃ l', names_repr s' l') ∧ hs_slot_size s' = hs_slot_size s ∧
    (∀ j, 0 ≤ j < hs_slot_size s → aget (hs_slot s') j = Some None) ∧
    (∀ c, c ∈ acc' ↔ c ∈ acc ∨ registered s c) ∧
    seen ≤ seen' ∧ (seen' = seen ↔ ∀ c, ¬ registered s c).
Proof.
  revert i s l seen acc. induction n as [|n IH]; intros i s l seen acc W R Hi Hn Hseen Hpre; simpl.
  { assert (∀ c, ¬ registered s c) as Hno.
    { intros c [j Hj]. pose proof (aget_Some_range _ _ _ Hj). rewrite (hw_len _ _ W) in *.
      rewrite Hpre in Hj by lia. done. }
    eexists _, _, _. split; [done|]. split; [done|]. split; [by exists l|]. split; [done|].
    split; [intros j Hj; apply Hpre; lia|]. split; [naive_solver|]. naive_solver lia. }
  destruct (aget_is_Some (hs_slot s) i) as [cell Hc]; [rewrite (hw_len _ _ W); lia|].
  rewrite Hc. cbn [mbind option_bind]. destruct cell as [ctx|]; cycle 1.
  { apply IH with (l := l); try done; try lia. intros j Hj. destruct (Z.eq_dec j i) as [->|]; [done|].
    apply Hpre. lia. }
  destruct (hw_slot _ _ W _ _ Hc) as [Hr Hmod].
  assert (hof ctx ≠ 0) as H0 by (destruct (hw_harbor _ _ W) as (b & ? & ?); lia).
  rewrite (proj2 (Z.eqb_neq _ _) H0).
  destruct (retire_spec _ _ _ (hof ctx) W R)
    as [(c & s1 & Hreg & Hh & -> & W1 & R1 & Hsz & Hslot)|[Hno _]];
    [|by destruct (Hno ctx); [by exists i|]].
  assert (c = ctx) as -> by (eapply registered_inj; [exact W|done|by exists i|done]).
  cbn [mbind option_bind from_option].
  destruct (IH (i + 1) s1 _ (seen + 1) (acc ++ [ctx]) W1 R1)
    as (seen' & acc' & s' & -> & W' & R' & Hsz' & Hall & Hacc & Hle & Heq); try lia.
  { intros j Hj. rewrite Hslot, Hmod. destruct (Z.eqb_spec j i); [done|]. apply Hpre. lia. }
  eexists _, _, _. split; [done|]. split; [done|]. split; [done|]. split; [congruence|].
  split; [intros j Hj; apply Hall; lia|]. split.
  - intros c. rewrite Hacc, elem_of_app, list_elem_of_singleton. split.
    + intros [[?| ->]|[j Hj]]; [by left|right; by exists i|].
      rewrite Hslot in Hj. destruct (_ =? _); [done|]. right; by exists j.
    + intros [?|[j Hj]]; [by left; left|]. destruct (decide (c = ctx)) as [->|]; [by left; right|].
      right. exists j. rewrite Hslot, Hmod. destruct (Z.eqb_spec j i) as [->|]; [congruence|done].
  - split; [lia|]. split; [lia|]. intros Hno. by destruct (Hno ctx); exists i.
Qed.

(** [skynet_handle_retireall] ends with an empty table: one pass retires every
    context whose handle is set, the next one sees none. *)
Lemma retireall_spec hof s l :
  hs_wf hof s → names_repr s l →
  ∃ acc s', skynet_handle_retireall hof 2 s [] = Some (acc, s') ∧
    (∀ c, c ∈ acc ↔ registered s c) ∧ (∀ c, ¬ registered s' c).
Proof.
  intros W R. pose proof (size_range _ _ W).
  destruct (retireall_pass_spec hof (Z.to_nat (hs_slot_size s)) 0 s l 0 [] W R)
    as (n1 & acc1 & s1 & E1 & W1 & [l1 R1] & Hsz1 & Hall1 & Hacc1 & _ & _); [lia..|].
  assert (∀ c, ¬ registered s1 c) as Hno.
  { intros c [j Hj]. pose proof (aget_Some_range _ _ _ Hj). rewrite (hw_len _ _ W1) in *.
    rewrite Hall1 in Hj by lia. done. }
  cbn [skynet_handle_retireall]. rewrite E1. cbn [mbind option_bind].
  destruct (Z.eqb_spec n1 0).
  - eexists _, _. split; [done|]. split; [|done]. set_solver.
  - pose proof (size_range _ _ W1).
    destruct (retireall_pass_spec hof (Z.to_nat (hs_slot_size s1)) 0 s1 l1 0 acc1 W1 R1)
      as (n2 & acc2 & s2 & E2 & W2 & _ & Hsz2 & Hall2 & Hacc2 & _ & Heq2); [lia..|].
    rewrite E2. cbn [mbind option_bind]. rewrite (proj2 Heq2) by done. simpl.
    eexists _, _. split; [done|]. split.
    + intros c. rewrite Hacc2, Hacc1. split; [|set_solver]. intros [[?|?]|Hr]; [set_solver|done|].
      by destruct (Hno c).
    + intros c [j Hj]. pose proof (aget_Some_range _ _ _ Hj). rewrite (hw_len _ _ W2) in *.
      rewrite Hall2 in Hj by lia. done.
Qed.

(** ** Reachable registries *)

Lemma hs_wf_init hof harbor : hs_wf hof (skynet_handle_init harbor).
Proof.
  split; simpl.
  - exists 2. split; [lia|done].
  - done.
  - exists (Z.land harbor 255). change 255 with (2 ^ 8 - 1). rewrite land_mask by lia.
    pose proof (Z.mod_pos_bound harbor (2 ^ 8)). split; [lia|].
    rewrite Z.shiftl_mul_pow2 by done. change HANDLE_REMOTE_SHIFT with 24. apply wrap_small. lia.
  - unfold HANDLE_MASK. lia.
  - intros i c. unfold aget. destruct (0 <=? i); [|done].
    intros H%list_elem_of_lookup_2. set_solver.
Qed.

(** A well-formed registry: the table and the names. *)
Definition handle_inv (hof : positive → Z) (s : handle_storage) : Prop :=
  hs_wf hof s ∧ ∃ l, names_repr s l.

(** The operations as steps on the registry, the contexts' handle fields and the handles
    that were returned and not yet stored: [skynet_context_new] clears the field,
    registers, and stores the handle after the lock of the registry is dropped.  A
    registration that doubles the table while another launch has not stored its handle
    is left out: see [register_race_aborts]. *)
Record hstate := HState {
  h_hof : positive → Z; h_pending : gmap positive Z; h_registry : handle_storage }.

Inductive hstep : hstate → hstate → Prop :=
  | step_register hof P s ctx h s' :
      ¬ registered s ctx → P !! ctx = None →
      skynet_handle_register (fun_update hof ctx 0) ctx s = Some (h, s') →
      P = ∅ ∨ hs_slot_size s' = hs_slot_size s →
      hstep (HState hof P s) (HState (fun_update hof ctx 0) (<[ctx := h]> P) s')
  | step_store hof P s ctx h :
      P !! ctx = Some h → hstep (HState hof P s) (HState (fun_update hof ctx h) (delete ctx P) s)
  | step_retire hof P s h r s' :
      h ≠ 0 → skynet_handle_retire hof h s = Some (r, s') → hstep (HState hof P s) (HState hof P s')
  | step_name hof P s h name r s' :
      skynet_handle_namehandle h name s = Some (r, s') → hstep (HState hof P s) (HState hof P s').

(** The handle of a context, stored or not. *)
Definition handle_of (hof : positive → Z) (P : gmap positive Z) (c : positive) : Z := default (hof c) (P !! c).

Definition hstate_inv (x : hstate) : Prop :=
  handle_inv (handle_of (h_hof x) (h_pending x)) (h_registry x) ∧
  ∀ c h, h_pending x !! c = Some h → h_hof x c = 0.

(** The sizes up to which the code's own assertions cannot fire. *)
Definition handle_small (s : handle_storage) : Prop :=
  hs_slot_size s ≤ 2 ^ 23 ∧ hs_name_cap s ≤ 2 ^ 29.

Lemma hs_wf_names hof s s' :
  hs_wf hof s → hs_slot s' = hs_slot s → hs_slot_size s' = hs_slot_size s →
  hs_harbor s' = hs_harbor s → hs_handle_index s' = hs_handle_index s → hs_wf hof s'.
Proof. intros [] E1 E2 E3 E4. split; rewrite ?E1, ?E2, ?E3, ?E4; done. Qed.

Lemma names_repr_slots s s' l :
  names_repr s l → hs_name s' = hs_name s → hs_name_cap s' = hs_name_cap s →
  hs_name_count s' = hs_name_count s → names_repr s' l.
Proof. intros [] E1 E2 E3. split; rewrite ?E1, ?E2, ?E3; done. Qed.

Lemma namehandle_inv s h name r s' :
  skynet_handle_namehandle h name s = Some (r, s') →
  hs_slot s' = hs_slot s ∧ hs_slot_size s' = hs_slot_size s ∧
  hs_harbor s' = hs_harbor s ∧ hs_handle_index s' = hs_handle_index s.
Proof.
  unfold skynet_handle_namehandle, insert_name_before. intros H.
  apply bind_Some in H as ([n|b] & _ & H); [by simplify_eq|].
  apply bind_Some in H as (s1 & H1 & H). apply bind_Some in H1 as ([cap a] & _ & H1).
  apply bind_Some in H1 as (a' & _ & H1). by simplify_eq.
Qed.

Lemma hs_wf_ext hof hof' s : hs_wf hof s → (∀ c, registered s c → hof' c = hof c) → hs_wf hof' s.
Proof.
  intros [] E. split; try done. intros i c Hi. rewrite E by (by exists i). auto.
Qed.

(** Without growth, a registration reads no handle. *)
Lemma register_same_size hof hof' vhof ctx s h s' :
  hs_wf vhof s → skynet_handle_register hof ctx s = Some (h, s') → hs_slot_size s' = hs_slot_size s →
  skynet_handle_register hof' ctx s = Some (h, s').
Proof.
  intros W E Hsz. pose proof (size_range _ _ W). unfold skynet_handle_register in *. cbn [handle_register] in *.
  destruct (probe _ s _) as [[[handle hash]|]|]; cbn [mbind option_bind] in *; [done| |done].
  exfalso. apply bind_Some in E as (s1 & Ex & E). apply bind_Some in E as (r & _ & E).
  assert (hs_slot_size s1 = hs_slot_size s * 2) as Hs1 by (clear E; unfold expand_slots in Ex; by bind_inv).
  destruct r as [[handle hash]|].
  - apply bind_Some in E as (slot & _ & E). simplify_eq. cbn in Hsz. lia.
  - by apply bind_Some in E as (s2 & _ & E).
Qed.

Lemma retire_pending hof P s h :
  (∀ c h', P !! c = Some h' → hof c = 0) → h ≠ 0 →
  skynet_handle_retire hof h s = Some (None, s) ∨
  skynet_handle_retire hof h s = skynet_handle_retire (handle_of hof P) h s ∨ skynet_handle_retire hof h s = None ∧
    skynet_handle_retire (handle_of hof P) h s = None.
Proof.
  intros HP Hh. unfold skynet_handle_retire. destruct (aget _ _) as [[ctx|]|]; cbn [mbind option_bind]; [|by left|by right; right].
  unfold handle_of. destruct (P !! ctx) as [h'|] eqn:E; cbn [default from_option]; [|by right; left].
  rewrite (HP _ _ E), (proj2 (Z.eqb_neq 0 h)) by done. by left.
Qed.

Lemma hstep_inv x y : hstate_inv x → handle_small (h_registry x) → hstep x y → hstate_inv y.
Proof.
  intros [[W [l R]] HP] [Hsz Hcap] Hst.
  destruct Hst as [hof P s ctx h s' Hn HPc Hr Hgrow|hof P s ctx h HPc|hof P s h r s' Hh Hr|hof P s h name r s' Hr];
    cbn [h_hof h_pending h_registry] in *.
  - set (hof' := fun_update hof ctx 0) in *.
    assert (∀ c, c ≠ ctx → hof' c = hof c) as Hhof by (intros c Hc; unfold hof', fun_update; by rewrite decide_False).
    assert (∀ c, registered s c → c ≠ ctx) as Hne by (intros c Hc ->; done).
    assert (hs_wf (handle_of hof' P) s) as W'.
    { eapply hs_wf_ext; [exact W|]. intros c Hc. unfold handle_of. by rewrite Hhof by auto. }
    assert (skynet_handle_register (handle_of hof' P) ctx s = Some (h, s') ∨ P = ∅ ∧ hs_wf hof' s) as Hreg.
    { destruct Hgrow as [->|Hg]; [right|left; by eapply register_same_size]. split; [done|].
      eapply hs_wf_ext; [exact W'|]. intros c _. unfold handle_of. by rewrite lookup_empty. }
    assert (∃ vh, (∀ c, handle_of hof' (<[ctx := h]> P) c = fun_update vh ctx h c) ∧ register_ok vh s ctx h s')
      as (vh & Hvh & [_ _ W2 _ (N1 & N2 & N3) _]).
    { assert (∀ vh, (∀ c, c ≠ ctx → vh c = handle_of hof' P c) → ∀ c, handle_of hof' (<[ctx := h]> P) c = fun_update vh ctx h c) as Hupd.
      { intros vh Hv c. unfold fun_update. destruct (decide (c = ctx)) as [->|Hc].
        - unfold handle_of. by rewrite lookup_insert_eq.
        - rewrite Hv by done. unfold handle_of. by rewrite lookup_insert_ne. }
      destruct Hreg as [Hreg|[-> W1]].
      - exists (handle_of hof' P). split; [by apply Hupd|].
        destruct (register_spec _ _ _ W' Hn Hsz) as (h2 & s2 & E2 & Hok). rewrite Hreg in E2. by simplify_eq.
      - exists hof'. split; [apply Hupd; intros c _; unfold handle_of; by rewrite lookup_empty|].
        destruct (register_spec _ _ _ W1 Hn Hsz) as (h2 & s2 & E2 & Hok). rewrite Hr in E2. by simplify_eq. }
    split; [split|].
    + eapply hs_wf_ext; [exact W2|]. intros c _. apply Hvh.
    + exists l. by eapply names_repr_slots.
    + intros c h'. destruct (decide (c = ctx)) as [->|Hc]; cbn [h_hof h_pending].
      * intros _. unfold hof', fun_update. by rewrite decide_True.
      * rewrite lookup_insert_ne by done. rewrite Hhof by done. apply HP.
  - split; [split; [|by exists l]|]; cbn [h_hof h_pending].
    + eapply hs_wf_ext; [exact W|]. intros c _. unfold handle_of, fun_update. destruct (decide (c = ctx)) as [->|Hc].
      * by rewrite lookup_delete_eq, HPc.
      * by rewrite lookup_delete_ne.
    + intros c h' [Hc E]%lookup_delete_Some. unfold fun_update. rewrite decide_False by done. by eapply HP.
  - split; [|done]. cbn [h_hof h_pending].
    destruct (retire_pending hof P s h HP Hh) as [E|[E|[E _]]]; rewrite E in Hr; simplify_eq; [by split; eauto|].
    destruct (retire_spec _ _ _ h W R) as [(c & s1 & _ & _ & E1 & W1 & R1 & _)|[_ E1]];
      rewrite E1 in Hr; simplify_eq; split; eauto.
  - split; [|done]. destruct (namehandle_inv _ _ _ _ _ Hr) as (E1 & E2 & E3 & E4). cbn [h_hof h_pending h_registry].
    split; [by eapply hs_wf_names|].
    destruct (namehandle_spec _ _ h name R Hcap) as [[_ E]|(_ & p & s1 & E & R1 & _)]; rewrite E in Hr; simplify_eq; eauto.
Qed.

(** C5: in every registry reached from [skynet_handle_init] by registering, storing the
    handle (a step of its own, so that the steps of other threads come in between),
    retiring and naming, while the table is below its maximal size and is not doubled
    between the two halves of a launch, the invariant holds and no operation aborts:
    retirement, lookup and naming return, and so does registration, when no other launch
    is between its halves or there is a free slot.  Otherwise the assertion on the new
    slot can fail, which [register_race_aborts] shows. *)
Theorem handle_reachable_safe harbor hof0 x :
  rtc (λ x y, handle_small (h_registry x) ∧ hstep x y) (HState hof0 ∅ (skynet_handle_init harbor)) x →
  handle_small (h_registry x) →
  hstate_inv x ∧
  let (hof, P, s) := x in
  (∀ ctx, ¬ registered s ctx → P = ∅ ∨ probe (Z.to_nat (hs_slot_size s)) s (hs_handle_index s) ≠ Some None →
     is_Some (skynet_handle_register hof ctx s)) ∧
  (∀ h, h ≠ 0 → is_Some (skynet_handle_retire hof h s)) ∧
  (∀ h, is_Some (skynet_handle_grab hof h s)) ∧
  (∀ h name, is_Some (skynet_handle_namehandle h name s)).
Proof.
  intros Hrtc Hsmall.
  assert (hstate_inv x) as Hinv.
  { assert (hstate_inv (HState hof0 ∅ (skynet_handle_init harbor))) as H0.
    { split; [split; [apply hs_wf_init|eexists; apply names_repr_init]|]. intros c h. cbn. by rewrite lookup_empty. }
    revert H0. induction Hrtc as [|x y z [Hs Hst] _ IH]; [done|]. intros H0. apply IH; [done|]. by eapply hstep_inv. }
  split; [done|]. destruct x as [hof P s]. destruct Hinv as [[W [l R]] HP], Hsmall as [Hsz Hcap].
  cbn [h_hof h_pending h_registry] in *. split_and!.
  - intros ctx Hn [->|Hp].
    + assert (hs_wf hof s) as W' by (eapply hs_wf_ext; [exact W|]; intros c _; unfold handle_of; by rewrite lookup_empty).
      destruct (register_spec _ _ _ W' Hn Hsz) as (h & s' & -> & _). eauto.
    + unfold skynet_handle_register. cbn [handle_register].
      destruct (probe_spec _ _ (Z.to_nat (hs_slot_size s)) _ W (hw_index _ _ W)) as [(handle & -> & Hh & Hf)|[E _]]; [|done].
      cbn [mbind option_bind]. destruct (aset_slot _ _ handle ctx W) as [slot Ha]. rewrite Ha. eauto.
  - intros h Hh. destruct (retire_pending hof P s h HP Hh) as [E|[E|[_ E]]]; [by eauto|rewrite E|exfalso];
      (destruct (retire_spec _ _ _ h W R) as [(c & s1 & _ & _ & E1 & _)|[_ E1]]; rewrite E1 in *; [by eauto|by eauto]) || idtac;
      destruct (retire_spec _ _ _ h W R) as [(c & s1 & _ & _ & E1 & _)|[_ E1]]; congruence.
  - intros h. destruct (grab_spec _ _ h xH W) as [_ [r Hg]]. unfold skynet_handle_grab in *.
    destruct (aget _ _) as [[c|]|]; [by eauto|by eauto|done].
  - intros h name. destruct (namehandle_spec _ _ h name R Hcap) as [[_ ->]|(_ & p & s1 & -> & _)]; eauto.
Qed.

(** C6: a registration returns a handle of this node's harbor
    that no live context has; once the caller has stored it, grabbing it gives
    the new context and every other live handle still gives its context. *)
Theorem register_then_grab hof s ctx :
  hs_wf hof s → ¬ registered s ctx → hs_slot_size s ≤ 2 ^ 23 →
  ∃ h s', skynet_handle_register hof ctx s = Some (h, s') ∧
    1 ≤ h - hs_harbor s ≤ HANDLE_MASK ∧ (∀ c, registered s c → hof c ≠ h) ∧
    skynet_handle_grab (fun_update hof ctx h) h s' = Some (Some ctx) ∧
    ∀ c, registered s c → skynet_handle_grab (fun_update hof ctx h) (hof c) s' = Some (Some c).
Proof.
  intros W Hn Hsz. destruct (register_spec _ _ _ W Hn Hsz) as (h & s' & E & [R1 R2 R3 R4 R5 R6]).
  exists h, s'. split_and!; try done; try lia.
  - apply (grab_spec _ _ h ctx R3). rewrite R4. unfold fun_update. by rewrite decide_True; auto.
  - intros c Hc. apply (grab_spec _ _ (hof c) c R3). rewrite R4. unfold fun_update.
    rewrite decide_False; auto. by intros ->.
Qed.

(** Retiring a live handle makes it unknown and forgets all
    its names, and leaves every other handle and every name of another handle
    as they were. *)
Theorem retire_forgets hof s l ctx :
  hs_wf hof s → names_repr s l → registered s ctx →
  ∃ s', skynet_handle_retire hof (hof ctx) s = Some (Some ctx, s') ∧
    skynet_handle_grab hof (hof ctx) s' = Some None ∧
    (∀ c, registered s c → c ≠ ctx → skynet_handle_grab hof (hof c) s' = Some (Some c)) ∧
    (∀ e, e ∈ l → skynet_handle_findname (hn_name e) s' =
       Some (if hn_handle e =? hof ctx then 0 else hn_handle e)).
Proof.
  intros W R Hreg.
  destruct (retire_spec _ _ _ (hof ctx) W R) as [(c & s' & Hc & Hh & E & W' & R' & Hsz & Hslot)|[Hno _]];
    [|by destruct (Hno ctx)].
  assert (c = ctx) as -> by exact (registered_inj hof s c ctx W Hc Hreg Hh).
  assert (∀ c, registered s' c ↔ registered s c ∧ c ≠ ctx) as Hr'.
  { intros c. split.
    - intros [i Hi]. rewrite Hslot in Hi. destruct (Z.eqb_spec i (hof ctx mod hs_slot_size s)); [done|].
      split; [by exists i|]. intros ->. destruct (hw_slot _ _ W _ _ Hi). congruence.
    - intros [[i Hi] Hne]. exists i. rewrite Hslot.
      destruct (Z.eqb_spec i (hof ctx mod hs_slot_size s)) as [->|]; [|done].
      destruct Hreg as [j Hj]. destruct (hw_slot _ _ W _ _ Hj) as [_ Ej]. congruence. }
  exists s'. split; [done|]. split_and!.
  - destruct (grab_spec _ _ (hof ctx) ctx W') as [_ [[c|] Hg]]; [|done].
    apply (grab_spec _ _ (hof ctx) c W') in Hg as [[Hc' Hne]%Hr' Heq].
    exfalso. apply Hne. exact (registered_inj hof s c ctx W Hc' Hreg Heq).
  - intros c Hrc Hne. apply (grab_spec _ _ (hof c) c W'). by rewrite Hr'.
  - intros e He. destruct (findname_spec _ _ (hn_name e) R') as (r & -> & H1 & H2). f_equal.
    destruct (Z.eqb_spec (hn_handle e) (hof ctx)) as [Eh|Nh].
    + apply H2. intros e' [? He']%list_elem_of_filter En.
      by rewrite (sorted_name_inj _ _ _ _ R He' He En) in *.
    + apply H1; [|done]. by apply list_elem_of_filter.
Qed.

(** Naming a handle with a fresh name makes the name resolve
    to it and leaves every other name; a taken name is refused and nothing
    changes.  The name array stays sorted, so bisection keeps working. *)
Lemma name_then_find s l handle name :
  names_repr s l → hs_name_cap s ≤ 2 ^ 29 →
  ∃ r s', skynet_handle_namehandle handle name s = Some (r, s') ∧
    (∃ l', names_repr s' l') ∧
    (∀ e, e ∈ l → skynet_handle_findname (hn_name e) s' = Some (hn_handle e)) ∧
    match r with
    | Some n => n = name ∧ skynet_handle_findname name s' = Some handle ∧
                ∀ e, e ∈ l → hn_name e ≠ name
    | None => s' = s ∧ ∃ e, e ∈ l ∧ hn_name e = name
    end.
Proof.
  intros R Hcap.
  destruct (namehandle_spec _ _ handle name R Hcap) as [[Hex E]|(Hno & p & s' & E & R' & _)].
  - exists None, s. split; [done|]. split; [eauto|]. split; [|done].
    intros e He. destruct (findname_spec _ _ (hn_name e) R) as (r & -> & H1 & _). f_equal. auto.
  - exists (Some name), s'. split; [done|]. split; [eauto|].
    assert (∀ e, e ∈ l ∨ e = mkName name handle →
      skynet_handle_findname (hn_name e) s' = Some (hn_handle e)) as Hf.
    { intros e He. destruct (findname_spec _ _ (hn_name e) R') as (r & -> & H1 & _). f_equal.
      apply H1; [|done]. rewrite elem_of_app, elem_of_cons.
      destruct He as [He| ->]; [|auto]. rewrite <- (take_drop p l), elem_of_app in He. tauto. }
    split; [auto|]. split_and!; [done| |done]. apply (Hf (mkName name handle)). by right.
Qed.

(** [skynet_handle_retireall] terminates in two passes with
    no context left, having released exactly the registered ones. *)
Theorem retireall_empties hof s l :
  hs_wf hof s → names_repr s l →
  ∃ acc s', skynet_handle_retireall hof 2 s [] = Some (acc, s') ∧
    (∀ c, c ∈ acc ↔ registered s c) ∧ (∀ c, ¬ registered s' c).
Proof. apply retireall_spec. Qed.

(** Context 4 is registered but its creator has not stored the handle yet. *)
Definition race_hof (c : positive) : Z := if bool_decide (c = 4%positive) then 0 else Zpos c.

Definition register_list (hof : positive → Z) (l : list positive) (s : handle_storage)
    : option handle_storage :=
  foldl (λ r c, s ← r; '(_, s) ← skynet_handle_register hof c s; Some s) (Some s) l.

(** skynet_context_new stores the returned handle
    after the registry lock is dropped.  If another thread's registration grows
    the table in between, the context is rehashed by its handle field 0 and its
    own handle no longer finds it, although it was never retired. *)
Theorem register_race_loses_context :
  ∃ s h s', register_list race_hof [1; 2; 3]%positive (skynet_handle_init 0) = Some s ∧
    skynet_handle_register race_hof 4%positive s = Some (h, s') ∧ h = 4 ∧
    skynet_handle_grab Zpos h s' = Some (Some 4%positive) ∧
    ∃ h5 s5, skynet_handle_register race_hof 5%positive s' = Some (h5, s5) ∧
      skynet_handle_grab Zpos h s5 = Some None.
Proof.
  eexists _, _, _. split; [vm_compute; reflexivity|]. split; [vm_compute; reflexivity|].
  split; [reflexivity|]. split; [vm_compute; reflexivity|].
  eexists _, _. split; vm_compute; reflexivity.
Qed.

(** With two launches between their halves, the doubling puts both contexts, whose
    fields still are 0, into slot 0, and the assertion fails. *)
Theorem register_race_aborts :
  ∃ s, register_list (λ c, if bool_decide (c = 3%positive ∨ c = 4%positive) then 0 else Zpos c) [1; 2; 3; 4]%positive
         (skynet_handle_init 0) = Some s ∧
    skynet_handle_register (λ c, if bool_decide (c = 3%positive ∨ c = 4%positive) then 0 else Zpos c) 5%positive s = None.
Proof. eexists. split; [vm_compute; reflexivity|]. vm_compute. reflexivity. Qed.

(** ** Witnesses: one context at harbor 5, named "a" and "b" *)

Definition demo_hof : positive → Z := fun_update (λ _, 0) 1 83886081.
Definition demo_names : list handle_name := [mkName [97] 83886081; mkName [98] 83886082].
Definition demo : handle_storage :=
  mkHS 83886080 2 4 [None; Some 1%positive; None; None] 2 2 (map Some demo_names).

Definition demo_state : hstate := HState (fun_update (fun_update (λ _, 0) 1 0) 1 83886081) ∅ demo.

Lemma demo_steps :
  rtc (λ x y, handle_small (h_registry x) ∧ hstep x y) (HState (λ _, 0) ∅ (skynet_handle_init 5)) demo_state.
Proof.
  eapply rtc_l; [split; [by vm_compute|]|].
  { eapply step_register with (ctx := 1%positive) (h := 83886081); [|done|by vm_compute|by left].
    intros [i Hi]. unfold aget in Hi. destruct (0 <=? i); [|done].
    apply list_elem_of_lookup_2 in Hi. vm_compute in Hi. set_solver. }
  eapply rtc_l; [split; [by vm_compute|]|].
  { eapply (step_name _ _ _ 83886081 [97]). by vm_compute. }
  eapply rtc_l; [split; [by vm_compute|]|].
  { eapply (step_store _ _ _ 1%positive). by vm_compute. }
  rewrite delete_insert_id by done.
  eapply rtc_l; [split; [by vm_compute|]|apply rtc_refl].
  eapply (step_name _ _ _ 83886082 [98]). by vm_compute.
Qed.

Lemma demo_ok : hs_wf demo_hof demo ∧ names_repr demo demo_names ∧ registered demo 1.
Proof.
  split; [|split].
  - split; cbn; [by exists 2|done|by exists 5|by vm_compute|].
    intros i ctx Hi. assert (i = 1 ∧ ctx = 1%positive) as [-> ->]; [|by vm_compute].
    unfold aget in Hi. destruct (Z.leb_spec 0 i); [|done].
    destruct (Z.to_nat i) as [|[|[|[|k]]]] eqn:Ek; cbn in Hi; simplify_eq. split; [lia|done].
  - split; cbn; try lia; try done.
    + intros [|[|i]] e He; cbn in He; by simplify_eq.
    + intros [|[|i]] [|[|j]] x y Hx Hy ?; cbn in Hx, Hy; simplify_eq; try lia; done.
  - by exists 1.
Qed.

Lemma handle_reachable_safe_witness :
  handle_small demo ∧ hstate_inv demo_state ∧
  (∀ ctx, ¬ registered demo ctx →
     (∅ : gmap positive Z) = ∅ ∨ probe (Z.to_nat (hs_slot_size demo)) demo (hs_handle_index demo) ≠ Some None →
     is_Some (skynet_handle_register (h_hof demo_state) ctx demo)) ∧
  (∀ h, h ≠ 0 → is_Some (skynet_handle_retire (h_hof demo_state) h demo)) ∧
  (∀ h, is_Some (skynet_handle_grab (h_hof demo_state) h demo)) ∧
  (∀ h name, is_Some (skynet_handle_namehandle h name demo)).
Proof.
  assert (handle_small demo) as Hs by by vm_compute.
  split; [done|]. exact (handle_reachable_safe 5 (λ _, 0) demo_state demo_steps Hs).
Defined.

Lemma register_then_grab_witness :
  ∃ h s', skynet_handle_register demo_hof 2 demo = Some (h, s') ∧
    1 ≤ h - 83886080 ≤ HANDLE_MASK ∧ (∀ c, registered demo c → demo_hof c ≠ h) ∧
    skynet_handle_grab (fun_update demo_hof 2 h) h s' = Some (Some 2%positive) ∧
    ∀ c, registered demo c → skynet_handle_grab (fun_update demo_hof 2 h) (demo_hof c) s' = Some (Some c).
Proof.
  apply (register_then_grab demo_hof demo 2); [apply demo_ok| |by vm_compute].
  intros [i Hi]. unfold aget in Hi. destruct (0 <=? i); [|done].
  apply list_elem_of_lookup_2 in Hi. vm_compute in Hi. set_solver.
Defined.

Lemma retire_forgets_witness :
  registered demo 1 ∧
  ∃ s', skynet_handle_retire demo_hof (demo_hof 1%positive) demo = Some (Some 1%positive, s') ∧
    skynet_handle_grab demo_hof (demo_hof 1%positive) s' = Some None ∧
    (∀ c, registered demo c → c ≠ 1%positive → skynet_handle_grab demo_hof (demo_hof c) s' = Some (Some c)) ∧
    (∀ e, e ∈ demo_names → skynet_handle_findname (hn_name e) s' =
       Some (if hn_handle e =? demo_hof 1%positive then 0 else hn_handle e)).
Proof.
  destruct demo_ok as (W & R & Hr). split; [done|]. exact (retire_forgets demo_hof demo demo_names 1 W R Hr).
Defined.

Lemma retireall_empties_witness :
  ∃ acc s', skynet_handle_retireall demo_hof 2 demo [] = Some (acc, s') ∧
    (∀ c, c ∈ acc ↔ registered demo c) ∧ (∀ c, ¬ registered s' c).
Proof.
  destruct demo_ok as (W & R & _). exact (retireall_empties demo_hof demo demo_names W R).
Defined.
