(* ===== verification/Timer.v ===== *)
(** * The timing wheel: skynet-src/skynet_timer.c

    256 near slots and four levels of 64 slots hold the pending timer nodes.
    An intrusive [struct link_list] is the list of its nodes from [head.next]:
    [link] appends at the tail and [link_clear] takes the whole list.  The
    clocks ([clock_gettime]) are arguments; [skynet_context_push] is seen
    through the messages handed to it.  The spin lock is not modelled; it is
    dropped around [dispatch_list], which does not touch the wheel. *)
From S2P Require Import Prelude Mq.
Local Open Scope Z_scope.

Definition TIME_NEAR_SHIFT : Z := 8.
Definition TIME_NEAR : Z := Z.shiftl 1 TIME_NEAR_SHIFT.
Definition TIME_LEVEL_SHIFT : Z := 6.
Definition TIME_LEVEL : Z := Z.shiftl 1 TIME_LEVEL_SHIFT.
Definition TIME_NEAR_MASK : Z := TIME_NEAR - 1.
Definition TIME_LEVEL_MASK : Z := TIME_LEVEL - 1.

(** [PTYPE_RESPONSE] (skynet.h) and [MESSAGE_TYPE_SHIFT] (skynet_mq.h). *)
Definition PTYPE_RESPONSE : Z := 1.
Definition MESSAGE_TYPE_SHIFT : Z := 56.

Record timer_event := mkEvent { te_handle : Z; te_session : Z }.
(** [struct timer_node] with the [timer_event] stored behind it. *)
Record timer_node := mkNode { tn_expire : Z; tn_event : timer_event }.

Record timer := mkTimer {
  tm_near : list (list timer_node); tm_t : list (list (list timer_node));
  tm_time : Z; tm_starttime : Z; tm_current : Z; tm_current_point : Z }.

Definition set_near (near : list (list timer_node)) (T : timer) : timer :=
  mkTimer near (tm_t T) (tm_time T) (tm_starttime T) (tm_current T) (tm_current_point T).
Definition set_t (t : list (list (list timer_node))) (T : timer) : timer :=
  mkTimer (tm_near T) t (tm_time T) (tm_starttime T) (tm_current T) (tm_current_point T).
Definition set_time (time : Z) (T : timer) : timer :=
  mkTimer (tm_near T) (tm_t T) time (tm_starttime T) (tm_current T) (tm_current_point T).
Definition set_clock (start cur point : Z) (T : timer) : timer :=
  mkTimer (tm_near T) (tm_t T) (tm_time T) start cur point.

(** [&T->near[k]] or [&T->t[i][k]]. *)
Inductive slot := Near (k : Z) | Level (i k : Z).

#[export] Instance slot_eq_dec : EqDecision slot.
Proof. solve_decision. Defined.

Definition get_slot (sl : slot) (T : timer) : option (list timer_node) :=
  match sl with
  | Near k => aget (tm_near T) k
  | Level i k => row ← aget (tm_t T) i; aget row k
  end.

Definition put_slot (sl : slot) (l : list timer_node) (T : timer) : option timer :=
  match sl with
  | Near k => a ← aset (tm_near T) k l; Some (set_near a T)
  | Level i k =>
      row ← aget (tm_t T) i; row ← aset row k l; t ← aset (tm_t T) i row; Some (set_t t T)
  end.

Definition link_clear (sl : slot) (T : timer) : option (list timer_node * timer) :=
  ret ← get_slot sl T; T ← put_slot sl [] T; Some (ret, T).

Definition link (sl : slot) (node : timer_node) (T : timer) : option timer :=
  l ← get_slot sl T; put_slot sl (l ++ [node]) T.

(** The loop of [add_node]: the first of levels 0, 1, 2 whose block holds both
    times, else level 3. *)
Fixpoint find_level (n : nat) (i mask time current_time : Z) : Z :=
  match n with
  | O => i
  | S n =>
      if Z.lor time (mask - 1) =? Z.lor current_time (mask - 1) then i
      else find_level n (i + 1) (wrap 32 (Z.shiftl mask TIME_LEVEL_SHIFT)) time current_time
  end.

Definition node_slot (current_time time : Z) : slot :=
  if Z.lor time TIME_NEAR_MASK =? Z.lor current_time TIME_NEAR_MASK
  then Near (Z.land time TIME_NEAR_MASK)
  else
    let i := find_level 3 0 (Z.shiftl TIME_NEAR TIME_LEVEL_SHIFT) time current_time in
    Level i (Z.land (Z.shiftr time (TIME_NEAR_SHIFT + i * TIME_LEVEL_SHIFT)) TIME_LEVEL_MASK).

Definition add_node (T : timer) (node : timer_node) : option timer :=
  link (node_slot (tm_time T) (tn_expire node)) node T.

(** [time] is an [int]; the sum with the [uint32_t] clock wraps. *)
Definition timer_add (T : timer) (arg : timer_event) (time : Z) : option timer :=
  add_node T (mkNode (wrap 32 (time + tm_time T)) arg).

Fixpoint add_nodes (T : timer) (nodes : list timer_node) : option timer :=
  match nodes with
  | [] => Some T
  | n :: nodes => T ← add_node T n; add_nodes T nodes
  end.

Definition move_list (T : timer) (level idx : Z) : option timer :=
  '(current, T) ← link_clear (Level level idx) T;
  add_nodes T current.

(** The [while] of [timer_shift]; [mask] is an [int], so a fifth round would
    overflow, and the model aborts there. *)
Fixpoint shift_loop (fuel : nat) (T : timer) (ct mask time i : Z) : option timer :=
  match fuel with
  | O => None
  | S fuel =>
      if Z.land ct (mask - 1) =? 0 then
        let idx := Z.land time TIME_LEVEL_MASK in
        if bool_decide (idx ≠ 0) then move_list T i idx
        else mask ← c_int (Z.shiftl mask TIME_LEVEL_SHIFT);
             shift_loop fuel T ct mask (Z.shiftr time TIME_LEVEL_SHIFT) (i + 1)
      else Some T
  end.

Definition timer_shift (T : timer) : option timer :=
  let ct := wrap 32 (tm_time T + 1) in
  let T := set_time ct T in
  if ct =? 0 then move_list T 3 0
  else shift_loop 4 T ct TIME_NEAR (Z.shiftr ct TIME_NEAR_SHIFT) 0.

(** What [dispatch_list] hands to [skynet_context_push]. *)
Definition response_message (session : Z) : skynet_message :=
  mkMsg 0 session 0 (Z.shiftl PTYPE_RESPONSE MESSAGE_TYPE_SHIFT).

Definition dispatch_list (current : list timer_node) : list (Z * skynet_message) :=
  map (λ n, (te_handle (tn_event n), response_message (te_session (tn_event n)))) current.

(** The [while] of [timer_execute]; without concurrent additions to the slot
    the second test ends it. *)
Fixpoint execute_loop (fuel : nat) (T : timer) (idx : Z) (out : list (Z * skynet_message))
    : option (list (Z * skynet_message) * timer) :=
  match fuel with
  | O => None
  | S fuel =>
      l ← get_slot (Near idx) T;
      match l with
      | [] => Some (out, T)
      | _ :: _ =>
          '(current, T) ← link_clear (Near idx) T;
          execute_loop fuel T idx (out ++ dispatch_list current)
      end
  end.

Definition timer_execute (T : timer) : option (list (Z * skynet_message) * timer) :=
  execute_loop 2 T (Z.land (tm_time T) TIME_NEAR_MASK) [].

Definition timer_update (T : timer) : option (list (Z * skynet_message) * timer) :=
  '(o1, T) ← timer_execute T;
  T ← timer_shift T;
  '(o2, T) ← timer_execute T;
  Some (o1 ++ o2, T).

Definition timer_create_timer : timer :=
  mkTimer (replicate (Z.to_nat TIME_NEAR) []) (replicate 4 (replicate (Z.to_nat TIME_LEVEL) []))
    0 0 0 0.

(** [skynet_timeout]: [push] is the result of [skynet_context_push]; the
    outcome lists what was pushed at once. *)
Definition skynet_timeout (push : Z → skynet_message → Z) (T : timer) (handle time session : Z)
    : option (Z * list (Z * skynet_message) * timer) :=
  if time <=? 0 then
    let message := response_message session in
    Some (if bool_decide (push handle message ≠ 0) then -1 else session, [(handle, message)], T)
  else
    T ← timer_add T (mkEvent handle session) time;
    Some (session, [], T).

Fixpoint timer_updates (n : nat) (T : timer) : option (list (list (Z * skynet_message)) * timer) :=
  match n with
  | O => Some ([], T)
  | S n =>
      '(o, T) ← timer_update T;
      '(os, T) ← timer_updates n T;
      Some (o :: os, T)
  end.

(** [skynet_updatetime]: [cp] is the monotonic clock in centiseconds; the counter of
    the loop is an [int] that reaches [diff]. *)
Definition skynet_updatetime (cp : Z) (T : timer)
    : option (list (list (Z * skynet_message)) * timer) :=
  if cp <? tm_current_point T then
    Some ([], set_clock (tm_starttime T) (tm_current T) cp T)
  else if bool_decide (cp ≠ tm_current_point T) then
    let diff := wrap 32 (cp - tm_current_point T) in
    _ ← c_int diff;
    timer_updates (Z.to_nat diff)
      (set_clock (tm_starttime T) (wrap 64 (tm_current T + diff)) cp T)
  else Some ([], T).

(** [skynet_timer_init]: [sec], [cs] from the wall clock, [cp] as above. *)
Definition skynet_timer_init (sec cs cp : Z) : timer := set_clock sec cs cp timer_create_timer.

(** ** Placement in terms of base-64 digits *)

Lemma lor_mask_eqb x y n :
  0 ≤ n → (Z.lor x (2 ^ n - 1) =? Z.lor y (2 ^ n - 1)) = (x / 2 ^ n =? y / 2 ^ n).
Proof.
  intros Hn. assert (2 ^ n - 1 = Z.ones n) as -> by (rewrite Z.ones_equiv; lia).
  rewrite <- !Z.shiftr_div_pow2 by done. apply eq_true_iff_eq. rewrite !Z.eqb_eq. split; intros E.
  - apply Z.bits_inj'. intros i Hi. rewrite !Z.shiftr_spec by done.
    apply (f_equal (λ z, Z.testbit z (i + n))) in E. rewrite !Z.lor_spec in E.
    by rewrite Z.ones_spec_high, !orb_false_r in E by lia.
  - apply Z.bits_inj'. intros i Hi. rewrite !Z.lor_spec. destruct (Z.lt_ge_cases i n).
    + rewrite Z.ones_spec_low by lia. by rewrite !orb_true_r.
    + apply (f_equal (λ z, Z.testbit z (i - n))) in E. rewrite !Z.shiftr_spec in E by lia.
      replace (i - n + n) with i in E by lia. by rewrite E.
Qed.

(** The slot of a node, by comparing quotients. *)
Definition place (t e : Z) : slot :=
  if e / 2 ^ 8 =? t / 2 ^ 8 then Near (e mod 2 ^ 8)
  else if e / 2 ^ 14 =? t / 2 ^ 14 then Level 0 (e / 2 ^ 8 mod 2 ^ 6)
  else if e / 2 ^ 20 =? t / 2 ^ 20 then Level 1 (e / 2 ^ 14 mod 2 ^ 6)
  else if e / 2 ^ 26 =? t / 2 ^ 26 then Level 2 (e / 2 ^ 20 mod 2 ^ 6)
  else Level 3 (e / 2 ^ 26 mod 2 ^ 6).

Lemma node_slot_place t e : node_slot t e = place t e.
Proof.
  unfold node_slot, place, TIME_NEAR_MASK, TIME_LEVEL_MASK.
  change (TIME_NEAR - 1) with (2 ^ 8 - 1). change (TIME_LEVEL - 1) with (2 ^ 6 - 1).
  rewrite lor_mask_eqb, !land_mask by lia. destruct (_ =? _); [done|].
  rewrite Z.shiftr_div_pow2 by (cbn [find_level]; repeat case_match; vm_compute; done).
  cbn [find_level].
  change (Z.shiftl TIME_NEAR TIME_LEVEL_SHIFT - 1) with (2 ^ 14 - 1).
  change (wrap 32 (Z.shiftl (Z.shiftl TIME_NEAR TIME_LEVEL_SHIFT) TIME_LEVEL_SHIFT) - 1) with (2 ^ 20 - 1).
  change (wrap 32 (Z.shiftl (wrap 32 (Z.shiftl (Z.shiftl TIME_NEAR TIME_LEVEL_SHIFT) TIME_LEVEL_SHIFT))
    TIME_LEVEL_SHIFT) - 1) with (2 ^ 26 - 1).
  rewrite !lor_mask_eqb by lia. repeat case_match; reflexivity.
Qed.

(** Ticks left before [e] comes up at time [t]. *)
Definition delta (t e : Z) : Z := (e - t) mod 2 ^ 32.

Definition u32 (z : Z) : Prop := 0 ≤ z < 2 ^ 32.

(** The slot that [timer_shift] moves when the clock becomes [t']: none, or
    the slot of the lowest level whose digit of [t'] is not zero. *)
Definition cascade (t' : Z) : option slot :=
  if t' =? 0 then Some (Level 3 0)
  else if negb (t' mod 2 ^ 8 =? 0) then None
  else if negb (t' / 2 ^ 8 mod 2 ^ 6 =? 0) then Some (Level 0 (t' / 2 ^ 8 mod 2 ^ 6))
  else if negb (t' / 2 ^ 14 mod 2 ^ 6 =? 0) then Some (Level 1 (t' / 2 ^ 14 mod 2 ^ 6))
  else if negb (t' / 2 ^ 20 mod 2 ^ 6 =? 0) then Some (Level 2 (t' / 2 ^ 20 mod 2 ^ 6))
  else Some (Level 3 (t' / 2 ^ 26 mod 2 ^ 6)).

(** Naming the digits turns a quotient condition into linear arithmetic. *)
Record digits (z d0 d1 d2 d3 d4 : Z) : Prop := {
  dg_sum : z = d0 + 2 ^ 8 * d1 + 2 ^ 14 * d2 + 2 ^ 20 * d3 + 2 ^ 26 * d4;
  dg_0 : 0 ≤ d0 < 256; dg_1 : 0 ≤ d1 < 64; dg_2 : 0 ≤ d2 < 64; dg_3 : 0 ≤ d3 < 64; dg_4 : 0 ≤ d4 < 64 }.

Lemma digits_exist z : u32 z → ∃ d0 d1 d2 d3 d4, digits z d0 d1 d2 d3 d4.
Proof.
  intros Hz. exists (z mod 2 ^ 8), (z / 2 ^ 8 mod 2 ^ 6), (z / 2 ^ 14 mod 2 ^ 6),
    (z / 2 ^ 20 mod 2 ^ 6), (z / 2 ^ 26).
  unfold u32 in Hz. change (2 ^ 32) with 4294967296 in Hz.
  split; change (2 ^ 8) with 256; change (2 ^ 6) with 64; change (2 ^ 14) with 16384;
    change (2 ^ 20) with 1048576; change (2 ^ 26) with 67108864; lia.
Qed.

Lemma digits_div z d0 d1 d2 d3 d4 :
  digits z d0 d1 d2 d3 d4 →
  z mod 2 ^ 8 = d0 ∧ z / 2 ^ 8 = d1 + 64 * d2 + 4096 * d3 + 262144 * d4 ∧
  z / 2 ^ 14 = d2 + 64 * d3 + 4096 * d4 ∧ z / 2 ^ 20 = d3 + 64 * d4 ∧ z / 2 ^ 26 = d4 ∧
  z / 2 ^ 8 mod 2 ^ 6 = d1 ∧ z / 2 ^ 14 mod 2 ^ 6 = d2 ∧ z / 2 ^ 20 mod 2 ^ 6 = d3 ∧
  z / 2 ^ 26 mod 2 ^ 6 = d4.
Proof.
  intros []. change (2 ^ 8) with 256 in *; change (2 ^ 6) with 64 in *; change (2 ^ 14) with 16384 in *;
    change (2 ^ 20) with 1048576 in *; change (2 ^ 26) with 67108864 in *.
  assert (z / 256 = d1 + 64 * d2 + 4096 * d3 + 262144 * d4) as E1 by lia.
  assert (z / 16384 = d2 + 64 * d3 + 4096 * d4) as E2 by lia.
  assert (z / 1048576 = d3 + 64 * d4) as E3 by lia.
  assert (z / 67108864 = d4) as E4 by lia.
  rewrite E1, E2, E3, E4. split_and!; try done; lia.
Qed.

Lemma eqb_iff (a b c d : Z) : (a = b ↔ c = d) → (a =? b) = (c =? d).
Proof. intros H. apply eq_true_iff_eq. by rewrite !Z.eqb_eq. Qed.

(** Comparing two-digit numbers compares the digits. *)
Lemma eqb_digit a b a' b' :
  0 ≤ a < 64 → 0 ≤ a' < 64 → (a + 64 * b =? a' + 64 * b') = (a =? a') && (b =? b').
Proof.
  intros. apply eq_true_iff_eq. rewrite andb_true_iff, !Z.eqb_eq. lia.
Qed.

Definition place_d (t1 t2 t3 t4 e0 e1 e2 e3 e4 : Z) : slot :=
  if e4 =? t4 then
    if e3 =? t3 then
      if e2 =? t2 then if e1 =? t1 then Near e0 else Level 0 e1 else Level 1 e2
    else Level 2 e3
  else Level 3 e4.

Lemma place_digits t e t0 t1 t2 t3 t4 e0 e1 e2 e3 e4 :
  digits t t0 t1 t2 t3 t4 → digits e e0 e1 e2 e3 e4 →
  place t e = place_d t1 t2 t3 t4 e0 e1 e2 e3 e4.
Proof.
  intros Ht He. pose proof (digits_div _ _ _ _ _ _ Ht) as (_ & T1 & T2 & T3 & T4 & _).
  pose proof (digits_div _ _ _ _ _ _ He) as (E0 & E1 & E2 & E3 & E4 & F1 & F2 & F3 & F4).
  destruct Ht, He. unfold place, place_d.
  rewrite F1, F2, F3, F4, E0. clear F1 F2 F3 F4 E0. rewrite T1, T2, T3, T4, E1, E2, E3, E4.
  replace (e1 + 64 * e2 + 4096 * e3 + 262144 * e4) with (e1 + 64 * (e2 + 64 * (e3 + 64 * e4))) by lia.
  replace (t1 + 64 * t2 + 4096 * t3 + 262144 * t4) with (t1 + 64 * (t2 + 64 * (t3 + 64 * t4))) by lia.
  replace (e2 + 64 * e3 + 4096 * e4) with (e2 + 64 * (e3 + 64 * e4)) by lia.
  replace (t2 + 64 * t3 + 4096 * t4) with (t2 + 64 * (t3 + 64 * t4)) by lia.
  rewrite !eqb_digit by done.
  by destruct (e4 =? t4), (e3 =? t3), (e2 =? t2), (e1 =? t1).
Qed.

Definition cascade_d (t0 t1 t2 t3 t4 : Z) : option slot :=
  if t0 =? 0 then
    if t1 =? 0 then
      if t2 =? 0 then
        if t3 =? 0 then Some (Level 3 t4) else Some (Level 2 t3)
      else Some (Level 1 t2)
    else Some (Level 0 t1)
  else None.

Lemma cascade_digits t t0 t1 t2 t3 t4 :
  digits t t0 t1 t2 t3 t4 → cascade t = cascade_d t0 t1 t2 t3 t4.
Proof.
  intros Ht. pose proof (digits_div _ _ _ _ _ _ Ht) as (E0 & _ & _ & _ & _ & E1 & E2 & E3 & E4).
  unfold cascade, cascade_d. rewrite E0, E1, E2, E3, E4. destruct Ht.
  destruct (Z.eqb_spec t 0).
  - assert (t0 = 0 ∧ t1 = 0 ∧ t2 = 0 ∧ t3 = 0 ∧ t4 = 0) as (-> & -> & -> & -> & ->) by lia. done.
  - destruct (t0 =? 0), (t1 =? 0), (t2 =? 0), (t3 =? 0); done.
Qed.

(** The digits of the next tick. *)
Lemma digits_succ t t0 t1 t2 t3 t4 :
  digits t t0 t1 t2 t3 t4 →
  (t0 < 255 ∧ digits (wrap 32 (t + 1)) (t0 + 1) t1 t2 t3 t4) ∨
  (t0 = 255 ∧ t1 < 63 ∧ digits (wrap 32 (t + 1)) 0 (t1 + 1) t2 t3 t4) ∨
  (t0 = 255 ∧ t1 = 63 ∧ t2 < 63 ∧ digits (wrap 32 (t + 1)) 0 0 (t2 + 1) t3 t4) ∨
  (t0 = 255 ∧ t1 = 63 ∧ t2 = 63 ∧ t3 < 63 ∧ digits (wrap 32 (t + 1)) 0 0 0 (t3 + 1) t4) ∨
  (t0 = 255 ∧ t1 = 63 ∧ t2 = 63 ∧ t3 = 63 ∧ t4 < 63 ∧ digits (wrap 32 (t + 1)) 0 0 0 0 (t4 + 1)) ∨
  (t0 = 255 ∧ t1 = 63 ∧ t2 = 63 ∧ t3 = 63 ∧ t4 = 63 ∧ digits (wrap 32 (t + 1)) 0 0 0 0 0).
Proof.
  intros []. assert (0 ≤ t < 2 ^ 32) by lia.
  destruct (Z.eq_dec t (2 ^ 32 - 1)) as [Heq|Hne].
  - assert (wrap 32 (t + 1) = 0) as -> by (rewrite Heq; done).
    do 5 right. split_and!; try lia. split; lia.
  - rewrite wrap_small by lia.
    destruct (Z.lt_ge_cases t0 255); [left; split; [done|]; split; lia|right].
    destruct (Z.lt_ge_cases t1 63); [left; split_and!; [lia..|]; split; lia|right].
    destruct (Z.lt_ge_cases t2 63); [left; split_and!; [lia..|]; split; lia|right].
    destruct (Z.lt_ge_cases t3 63); [left; split_and!; [lia..|]; split; lia|right].
    left. split_and!; [lia..|]. split; lia.
Qed.

Definition soon (t e : Z) : Prop := u32 e ∧ 1 ≤ delta t e < 2 ^ 31.

Lemma delta_cases t e : u32 t → u32 e → delta t e = if e <? t then e - t + 2 ^ 32 else e - t.
Proof.
  intros. unfold delta, u32 in *. destruct (Z.ltb_spec e t).
  - replace (e - t) with (e - t + 2 ^ 32 + (-1) * 2 ^ 32) by lia.
    rewrite Z_mod_plus_full, Z.mod_small; lia.
  - apply Z.mod_small. lia.
Qed.

Lemma place_d_inj t1 t2 t3 t4 e0 e1 e2 e3 e4 f0 f1 f2 f3 f4 :
  place_d t1 t2 t3 t4 e0 e1 e2 e3 e4 = place_d t1 t2 t3 t4 f0 f1 f2 f3 f4 →
  (e4 = t4 ↔ f4 = t4) ∧ (e4 = t4 → (e3 = t3 ↔ f3 = t3)).
Proof.
  unfold place_d.
  destruct (Z.eqb_spec e4 t4), (Z.eqb_spec e3 t3), (Z.eqb_spec e2 t2), (Z.eqb_spec e1 t1),
    (Z.eqb_spec f4 t4), (Z.eqb_spec f3 t3), (Z.eqb_spec f2 t2), (Z.eqb_spec f1 t1);
    intros; simplify_eq; try tauto.
Qed.

(** Pending times seen in digits: the first differing digit of a time that
    does not wrap past [2^32] is larger. *)
Lemma soon_digits t e t0 t1 t2 t3 t4 e0 e1 e2 e3 e4 :
  digits t t0 t1 t2 t3 t4 → digits e e0 e1 e2 e3 e4 → soon t e →
  (e4 = t4 → t3 < e3 ∨ e3 = t3 ∧ (t2 < e2 ∨ e2 = t2 ∧ (t1 < e1 ∨ e1 = t1 ∧ t0 < e0))).
Proof.
  intros [] [] [He Hd] E4. rewrite delta_cases in Hd by (unfold u32 in *; lia).
  subst e4. destruct (Z.ltb_spec e t); lia.
Qed.

(** A tick only moves the cascaded slot. *)
Lemma place_tick_same t e :
  u32 t → soon t e → cascade (wrap 32 (t + 1)) ≠ Some (place t e) →
  place (wrap 32 (t + 1)) e = place t e.
Proof.
  intros Ht Hs. destruct (digits_exist t Ht) as (t0 & t1 & t2 & t3 & t4 & Dt).
  destruct (digits_exist e (proj1 Hs)) as (e0 & e1 & e2 & e3 & e4 & De).
  pose proof (soon_digits _ _ _ _ _ _ _ _ _ _ _ _ Dt De Hs) as Ho.
  rewrite (place_digits t e _ _ _ _ _ _ _ _ _ _ Dt De).
  destruct (digits_succ _ _ _ _ _ _ Dt) as [[? D]|[(? & ? & D)|[(? & ? & ? & D)|
    [(? & ? & ? & ? & D)|[(? & ? & ? & ? & ? & D)|(? & ? & ? & ? & ? & D)]]]]];
    rewrite (cascade_digits _ _ _ _ _ _ D), (place_digits _ e _ _ _ _ _ _ _ _ _ _ D De);
    unfold cascade_d, place_d; destruct Dt, De, D; try done;
    destruct (Z.eqb_spec e4 t4), (Z.eqb_spec e3 t3), (Z.eqb_spec e2 t2), (Z.eqb_spec e1 t1);
    repeat case_match; intros Hc; try done; try (exfalso; lia);
    try (exfalso; apply Hc; do 2 f_equal; lia); try (f_equal; lia).
Qed.

Definition slot_level (sl : slot) : Z := match sl with Near _ => -1 | Level i _ => i end.

Lemma place_tick_level t e L :
  u32 t → soon t e → cascade (wrap 32 (t + 1)) = Some L →
  slot_level L ≤ slot_level (place t e) ∧
  (L = place t e → slot_level (place (wrap 32 (t + 1)) e) < slot_level L).
Proof.
  intros Ht Hs. destruct (digits_exist t Ht) as (t0 & t1 & t2 & t3 & t4 & Dt).
  destruct (digits_exist e (proj1 Hs)) as (e0 & e1 & e2 & e3 & e4 & De).
  pose proof (soon_digits _ _ _ _ _ _ _ _ _ _ _ _ Dt De Hs) as Ho.
  rewrite (place_digits t e _ _ _ _ _ _ _ _ _ _ Dt De).
  destruct (digits_succ _ _ _ _ _ _ Dt) as [[? D]|[(? & ? & D)|[(? & ? & ? & D)|
    [(? & ? & ? & ? & D)|[(? & ? & ? & ? & ? & D)|(? & ? & ? & ? & ? & D)]]]]];
    rewrite (cascade_digits _ _ _ _ _ _ D), (place_digits _ e _ _ _ _ _ _ _ _ _ _ D De);
    unfold cascade_d, place_d; destruct Dt, De, D;
    destruct (Z.eqb_spec e4 t4), (Z.eqb_spec e3 t3), (Z.eqb_spec e2 t2), (Z.eqb_spec e1 t1);
    repeat case_match; intros Hc; simplify_eq/=; try (exfalso; lia);
    (split; [lia|intros HL; simplify_eq/=; lia]).
Qed.

Lemma place_now t e : u32 t → u32 e → place t e = Near (t mod 2 ^ 8) ↔ e = t.
Proof.
  intros Ht He. destruct (digits_exist t Ht) as (t0 & t1 & t2 & t3 & t4 & Dt).
  destruct (digits_exist e He) as (e0 & e1 & e2 & e3 & e4 & De).
  pose proof (digits_div _ _ _ _ _ _ Dt) as (-> & _).
  rewrite (place_digits t e _ _ _ _ _ _ _ _ _ _ Dt De). destruct Dt, De. unfold place_d. split.
  - destruct (Z.eqb_spec e4 t4), (Z.eqb_spec e3 t3), (Z.eqb_spec e2 t2), (Z.eqb_spec e1 t1);
      intros; simplify_eq/=; lia.
  - intros ->. assert (e4 = t4 ∧ e3 = t3 ∧ e2 = t2 ∧ e1 = t1 ∧ e0 = t0) as (-> & -> & -> & -> & ->) by lia.
    by rewrite !Z.eqb_refl.
Qed.

Definition valid_slot (sl : slot) : Prop :=
  match sl with Near k => 0 ≤ k < 256 | Level i k => 0 ≤ i < 4 ∧ 0 ≤ k < 64 end.

Lemma place_valid t e : valid_slot (place t e).
Proof.
  unfold place. repeat case_match; simpl;
    try (split; [lia|]); apply Z.mod_pos_bound; lia.
Qed.

(** ** The wheel as a map from slots to lists *)

Record slots_repr (T : timer) (f : slot → list timer_node) : Prop := {
  sl_near : length (tm_near T) = 256%nat;
  sl_t : length (tm_t T) = 4%nat ∧ ∀ i row, aget (tm_t T) i = Some row → length row = 64%nat;
  sl_get : ∀ sl, valid_slot sl → get_slot sl T = Some (f sl) }.

Lemma slots_repr_ext T f g : slots_repr T f → (∀ sl, valid_slot sl → f sl = g sl) → slots_repr T g.
Proof. intros [] H. split; try done. intros sl Hv. rewrite <- H by done. auto. Qed.

Lemma slots_repr_time T f t : slots_repr T f → slots_repr (set_time t T) f.
Proof. intros []. by split. Qed.

Lemma put_slot_spec T f sl l :
  slots_repr T f → valid_slot sl →
  ∃ T', put_slot sl l T = Some T' ∧ slots_repr T' (λ s, if decide (s = sl) then l else f s) ∧
    tm_time T' = tm_time T ∧ tm_current T' = tm_current T ∧ tm_current_point T' = tm_current_point T ∧
    tm_starttime T' = tm_starttime T.
Proof.
  intros [Hn [Ht Hrow] Hg] Hv. destruct sl as [k|i k]; simpl in *.
  - destruct (aset (tm_near T) k l) as [a|] eqn:Ha; [|rewrite aset_Some in Ha by lia; done].
    eexists; split; [done|]. split; [|done]. split; simpl.
    + by rewrite (length_aset _ _ _ _ Ha).
    + done.
    + intros [k'|i' k'] Hv'; cbn [get_slot tm_near tm_t set_near set_t].
      * destruct (decide _) as [E|Hne]; simplify_eq; [by eapply aget_aset_eq|].
        rewrite (aget_aset_ne _ _ _ _ _ Ha) by congruence. by apply (Hg (Near k')).
      * rewrite decide_False by done. by apply (Hg (Level i' k')).
  - destruct Hv as [Hi Hk]. destruct (aget_is_Some (tm_t T) i) as [row Hr]; [lia|]. rewrite Hr.
    cbn [mbind option_bind]. pose proof (Hrow _ _ Hr) as Hlr.
    destruct (aset row k l) as [row'|] eqn:Ha; [|rewrite aset_Some in Ha by lia; done].
    cbn [mbind option_bind].
    destruct (aset (tm_t T) i row') as [t'|] eqn:Hb; [|rewrite aset_Some in Hb by lia; done].
    eexists; split; [done|]. split; [|done]. split; simpl.
    + done.
    + split; [by rewrite (length_aset _ _ _ _ Hb)|]. intros j r Hj.
      destruct (Z.eq_dec i j) as [->|Hne].
      * rewrite (aget_aset_eq _ _ _ _ Hb) in Hj. simplify_eq. by rewrite (length_aset _ _ _ _ Ha).
      * rewrite (aget_aset_ne _ _ _ _ _ Hb) in Hj by done. eauto.
    + intros [k'|i' k'] Hv'; cbn [get_slot tm_near tm_t set_near set_t].
      * rewrite decide_False by done. by apply (Hg (Near k')).
      * destruct (Z.eq_dec i i') as [<-|Hne].
        -- rewrite (aget_aset_eq _ _ _ _ Hb). cbn [mbind option_bind].
           destruct (decide _) as [E|Hne]; simplify_eq; [by eapply aget_aset_eq|].
           rewrite (aget_aset_ne _ _ _ _ _ Ha) by congruence.
           specialize (Hg (Level i k') Hv'). simpl in Hg. by rewrite Hr in Hg.
        -- rewrite decide_False by congruence. rewrite (aget_aset_ne _ _ _ _ _ Hb) by done.
           by apply (Hg (Level i' k')).
Qed.

(** Everything but the slots. *)
Definition same_clock (T T' : timer) : Prop :=
  tm_time T' = tm_time T ∧ tm_current T' = tm_current T ∧
  tm_current_point T' = tm_current_point T ∧ tm_starttime T' = tm_starttime T.

Lemma same_clock_trans T1 T2 T3 : same_clock T1 T2 → same_clock T2 T3 → same_clock T1 T3.
Proof. unfold same_clock. intuition congruence. Qed.

Lemma link_clear_spec T f sl :
  slots_repr T f → valid_slot sl →
  ∃ T', link_clear sl T = Some (f sl, T') ∧
    slots_repr T' (λ s, if decide (s = sl) then [] else f s) ∧ same_clock T T'.
Proof.
  intros R Hv. unfold link_clear. rewrite (sl_get _ _ R _ Hv). cbn [mbind option_bind].
  destruct (put_slot_spec _ _ _ [] R Hv) as (T' & -> & R' & ?). by exists T'.
Qed.

Definition in_slot (t : Z) (sl : slot) (n : timer_node) : Prop := place t (tn_expire n) = sl.
#[export] Instance in_slot_dec t sl n : Decision (in_slot t sl n) := slot_eq_dec _ _.

Lemma add_node_spec T f n :
  slots_repr T f →
  ∃ T', add_node T n = Some T' ∧ same_clock T T' ∧
    slots_repr T' (λ s, f s ++ filter (in_slot (tm_time T) s) [n]).
Proof.
  intros R. unfold add_node, link. rewrite node_slot_place.
  pose proof (place_valid (tm_time T) (tn_expire n)) as Hv. rewrite (sl_get _ _ R _ Hv).
  cbn [mbind option_bind].
  destruct (put_slot_spec _ _ _ (f (place (tm_time T) (tn_expire n)) ++ [n]) R Hv)
    as (T' & -> & R' & ?).
  exists T'. split; [done|]. split; [done|]. eapply slots_repr_ext; [exact R'|].
  intros sl _. simpl. destruct (decide (sl = _)) as [->|Hne].
  - by rewrite filter_cons_True.
  - rewrite filter_cons_False by (unfold in_slot; congruence). by rewrite app_nil_r.
Qed.

Lemma add_nodes_spec T f l :
  slots_repr T f →
  ∃ T', add_nodes T l = Some T' ∧ same_clock T T' ∧
    slots_repr T' (λ s, f s ++ filter (in_slot (tm_time T) s) l).
Proof.
  revert T f. induction l as [|n l IH]; intros T f R; simpl.
  - exists T. split; [done|]. split; [done|]. eapply slots_repr_ext; [exact R|].
    intros. by rewrite filter_nil, app_nil_r.
  - destruct (add_node_spec _ _ n R) as (T1 & -> & Hc1 & R1). cbn [mbind option_bind].
    destruct (IH _ _ R1) as (T' & -> & Hc & R'). exists T'. split; [done|].
    split; [by eapply same_clock_trans|]. eapply slots_repr_ext; [exact R'|].
    intros sl _. simpl. rewrite (proj1 Hc1), <- app_assoc, <- filter_app. done.
Qed.

Lemma move_list_spec T f i k :
  slots_repr T f → valid_slot (Level i k) →
  ∃ T', move_list T i k = Some T' ∧ same_clock T T' ∧
    slots_repr T' (λ s, (if decide (s = Level i k) then [] else f s) ++
                        filter (in_slot (tm_time T) s) (f (Level i k))).
Proof.
  intros R Hv. unfold move_list.
  destruct (link_clear_spec _ _ _ R Hv) as (T1 & -> & R1 & Hc1). cbn [mbind option_bind].
  destruct (add_nodes_spec _ _ (f (Level i k)) R1) as (T' & -> & Hc & R').
  exists T'. split; [done|]. split; [by eapply same_clock_trans|].
  by rewrite (proj1 Hc1) in R'.
Qed.

(** ** One tick *)

Lemma digits_mod z d0 d1 d2 d3 d4 :
  digits z d0 d1 d2 d3 d4 →
  z mod 2 ^ 14 = d0 + 256 * d1 ∧ z mod 2 ^ 20 = d0 + 256 * d1 + 16384 * d2 ∧
  z mod 2 ^ 26 = d0 + 256 * d1 + 16384 * d2 + 1048576 * d3.
Proof.
  intros []. change (2 ^ 8) with 256 in *; change (2 ^ 14) with 16384 in *;
    change (2 ^ 20) with 1048576 in *; change (2 ^ 26) with 67108864 in *. split_and!; lia.
Qed.

Lemma timer_shift_cascade T :
  u32 (tm_time T) →
  let t' := wrap 32 (tm_time T + 1) in
  timer_shift T = match cascade t' with
                  | Some (Level i k) => move_list (set_time t' T) i k
                  | _ => Some (set_time t' T)
                  end.
Proof.
  intros Ht t'. assert (u32 t') as Ht' by (apply wrap_range; lia).
  destruct (digits_exist t' Ht') as (d0 & d1 & d2 & d3 & d4 & D).
  pose proof (digits_div _ _ _ _ _ _ D) as (E0 & _ & _ & _ & _ & E1 & E2 & E3 & E4).
  pose proof (digits_mod _ _ _ _ _ _ D) as (M1 & M2 & M3).
  unfold timer_shift. fold t'. rewrite (cascade_digits _ _ _ _ _ _ D). unfold cascade_d.
  destruct (Z.eqb_spec t' 0) as [Hz|Hnz].
  { destruct D. assert (d0 = 0 ∧ d1 = 0 ∧ d2 = 0 ∧ d3 = 0 ∧ d4 = 0) as (-> & -> & -> & -> & ->) by lia. done. }
  cbn [shift_loop]. change TIME_NEAR with (2 ^ 8). change TIME_LEVEL_MASK with (2 ^ 6 - 1).
  change TIME_LEVEL_SHIFT with 6. change TIME_NEAR_SHIFT with 8.
  assert (c_int (Z.shiftl (2 ^ 8) 6) = Some (2 ^ 14)) as -> by done. cbn [mbind option_bind].
  assert (c_int (Z.shiftl (2 ^ 14) 6) = Some (2 ^ 20)) as -> by done. cbn [mbind option_bind].
  assert (c_int (Z.shiftl (2 ^ 20) 6) = Some (2 ^ 26)) as -> by done. cbn [mbind option_bind].
  rewrite !land_mask, !Z.shiftr_shiftr, !Z.shiftr_div_pow2 by lia.
  change (8 + 6) with 14. change (14 + 6) with 20. change (20 + 6) with 26.
  rewrite E0, E1, E2, E3, E4, M1, M2, M3. destruct D.
  destruct (Z.eqb_spec d0 0) as [->|]; [|done].
  destruct (Z.eqb_spec d1 0) as [->|]; [|by rewrite bool_decide_eq_true_2].
  rewrite bool_decide_eq_false_2 by auto.
  rewrite (proj2 (Z.eqb_eq (0 + 256 * 0) 0)) by lia.
  destruct (Z.eqb_spec d2 0) as [->|]; [|by rewrite bool_decide_eq_true_2].
  rewrite bool_decide_eq_false_2 by auto.
  rewrite (proj2 (Z.eqb_eq (0 + 256 * 0 + 16384 * 0) 0)) by lia.
  destruct (Z.eqb_spec d3 0) as [->|]; [|by rewrite bool_decide_eq_true_2].
  rewrite bool_decide_eq_false_2 by auto.
  rewrite (proj2 (Z.eqb_eq (0 + 256 * 0 + 16384 * 0 + 1048576 * 0) 0)) by lia.
  rewrite bool_decide_eq_true_2 by lia. done.
Qed.

(** The wheel represents the pending nodes, in the order they were added. *)
Record timer_repr (T : timer) (P : list timer_node) : Prop := {
  tr_time : u32 (tm_time T);
  tr_slots : slots_repr T (λ sl, filter (in_slot (tm_time T) sl) P);
  tr_soon : ∀ n, n ∈ P → soon (tm_time T) (tn_expire n) }.

Lemma filter_ext_in {A} (P Q : A → Prop) `{!∀ x, Decision (P x), !∀ x, Decision (Q x)} (l : list A) :
  (∀ x, x ∈ l → (P x ↔ Q x)) → filter P l = filter Q l.
Proof.
  induction l as [|x l IH]; intros Hx; [done|]. rewrite !filter_cons.
  pose proof (Hx x ltac:(set_solver)) as Hx1. rewrite IH by set_solver.
  repeat case_decide; tauto.
Qed.

Lemma filter_none {A} (P : A → Prop) `{!∀ x, Decision (P x)} (l : list A) :
  (∀ x, x ∈ l → ¬ P x) → filter P l = [].
Proof.
  induction l as [|x l IH]; intros Hx; [done|].
  rewrite filter_cons_False by set_solver. apply IH. set_solver.
Qed.

(** Moving the cascaded slot re-sorts the pending list for the new time. *)
Lemma cascade_filter t P L sl :
  u32 t → (∀ n, n ∈ P → soon t (tn_expire n)) →
  let t' := wrap 32 (t + 1) in
  cascade t' = Some L →
  (if decide (sl = L) then [] else filter (in_slot t sl) P) ++
    filter (in_slot t' sl) (filter (in_slot t L) P) = filter (in_slot t' sl) P.
Proof.
  intros Ht Hs t' HL. rewrite list_filter_filter.
  assert (∀ n, n ∈ P → ¬ in_slot t L n → place t' (tn_expire n) = place t (tn_expire n)) as Hsame.
  { intros n Hn Hp. apply place_tick_same; [done|auto|]. fold t'. rewrite HL. unfold in_slot in Hp. congruence. }
  destruct (filter (λ n, in_slot t' sl n ∧ in_slot t L n) P) as [|n0 l0] eqn:E0.
  - rewrite app_nil_r.
    assert (∀ n, n ∈ P → in_slot t L n → ¬ in_slot t' sl n) as Hno.
    { intros n Hn H1 H2. assert (n ∈ filter (λ n, in_slot t' sl n ∧ in_slot t L n) P) as Hx
        by (by apply list_elem_of_filter). rewrite E0 in Hx. set_solver. }
    destruct (decide (sl = L)) as [->|Hne].
    + symmetry. apply filter_none. intros n Hn Hp. destruct (decide (in_slot t L n)); [by eapply Hno|].
      unfold in_slot in *. rewrite Hsame in Hp; done.
    + apply filter_ext_in. intros n Hn. destruct (decide (in_slot t L n)) as [HLn|HLn].
      * split; [unfold in_slot in *; congruence|]. intros ?. by destruct (Hno n).
      * unfold in_slot in *. by rewrite Hsame.
  - rewrite <- E0. assert (n0 ∈ filter (λ n, in_slot t' sl n ∧ in_slot t L n) P) as Hn0
      by (rewrite E0; set_solver).
    apply list_elem_of_filter in Hn0 as [[Hp' HpL] Hn0]. unfold in_slot in Hp', HpL.
    destruct (place_tick_level t _ L Ht (Hs _ Hn0) HL) as [_ Hlt].
    fold t' in Hlt. rewrite Hp' in Hlt. specialize (Hlt (eq_sym HpL)).
    assert (∀ n, n ∈ P → ¬ in_slot t sl n) as Hempty.
    { intros n Hn Hp. destruct (place_tick_level t _ L Ht (Hs _ Hn) HL) as [Hge _].
      unfold in_slot in Hp. rewrite Hp in Hge. lia. }
    assert ((if decide (sl = L) then [] else filter (in_slot t sl) P) = []) as ->.
    { destruct (decide _); [done|]. by apply filter_none. }
    apply filter_ext_in. intros n Hn. destruct (decide (in_slot t L n)); [tauto|].
    split; [tauto|]. intros Hp. exfalso. apply (Hempty n Hn). unfold in_slot in *. by rewrite <- Hsame.
Qed.

Lemma timer_shift_spec T P :
  timer_repr T P →
  ∃ T', timer_shift T = Some T' ∧ tm_time T' = wrap 32 (tm_time T + 1) ∧
    slots_repr T' (λ sl, filter (in_slot (tm_time T') sl) P) ∧
    tm_current T' = tm_current T ∧ tm_current_point T' = tm_current_point T ∧
    tm_starttime T' = tm_starttime T.
Proof.
  intros [Ht Hsl Hs]. rewrite timer_shift_cascade by done.
  set (t' := wrap 32 (tm_time T + 1)).
  assert (cascade t' = None ∨ ∃ i k, cascade t' = Some (Level i k) ∧ valid_slot (Level i k))
    as [HN|(i & k & HL & Hv)].
  { unfold cascade. repeat case_match; auto; right; eexists _, _; (split; [done|]); simpl;
      (split; [lia|]); try lia; apply Z.mod_pos_bound; lia. }
  - rewrite HN. eexists; split; [done|]. split; [done|]. split; [|done].
    eapply slots_repr_ext; [by apply slots_repr_time|]. intros sl _. simpl.
    apply filter_ext_in. intros n Hn. unfold in_slot. unfold t'.
    rewrite place_tick_same; auto. fold t'. by rewrite HN.
  - rewrite HL. destruct (move_list_spec (set_time t' T) _ i k (slots_repr_time _ _ t' Hsl) Hv)
      as (T' & -> & (Hc1 & Hc2 & Hc3 & Hc4) & R').
    eexists; split; [done|]. split; [done|]. split; [|done].
    eapply slots_repr_ext; [exact R'|]. intros sl _. rewrite Hc1. simpl.
    by apply (cascade_filter (tm_time T) P (Level i k) sl).
Qed.

(** The events due at time [t], and what stays pending. *)
Definition due (t : Z) (P : list timer_node) : list timer_node := filter (λ n, tn_expire n = t) P.
Definition not_due (t : Z) (P : list timer_node) : list timer_node := filter (λ n, tn_expire n ≠ t) P.

Lemma timer_execute_spec T P :
  u32 (tm_time T) → slots_repr T (λ sl, filter (in_slot (tm_time T) sl) P) →
  (∀ n, n ∈ P → u32 (tn_expire n)) →
  ∃ T', timer_execute T = Some (dispatch_list (due (tm_time T) P), T') ∧ same_clock T T' ∧
    slots_repr T' (λ sl, filter (in_slot (tm_time T) sl) (not_due (tm_time T) P)).
Proof.
  intros Ht R Hu. unfold timer_execute.
  assert (Z.land (tm_time T) TIME_NEAR_MASK = tm_time T mod 2 ^ 8) as ->
    by (apply (land_mask (tm_time T) 8); lia).
  set (sl0 := Near (tm_time T mod 2 ^ 8)).
  assert (valid_slot sl0) as Hv by (apply Z.mod_pos_bound; lia).
  assert (∀ n, n ∈ P → (in_slot (tm_time T) sl0 n ↔ tn_expire n = tm_time T)) as Hnow.
  { intros n Hn. apply place_now; auto. }
  assert (filter (in_slot (tm_time T) sl0) P = due (tm_time T) P) as Hdue
    by (by apply filter_ext_in).
  assert (∀ sl, valid_slot sl →
    (if decide (sl = sl0) then [] else filter (in_slot (tm_time T) sl) P) =
    filter (in_slot (tm_time T) sl) (not_due (tm_time T) P)) as Hnot.
  { intros sl _. unfold not_due. rewrite list_filter_filter. destruct (decide (sl = sl0)) as [->|Hne].
    - symmetry. apply filter_none. intros n Hn [Hp Hx]. by apply Hnow in Hp.
    - apply filter_ext_in. intros n Hn. split; [|tauto]. intros Hp. split; [done|].
      intros Hx. apply Hnow in Hx; [|done]. unfold in_slot in *. congruence. }
  cbn [execute_loop]. fold sl0. rewrite (sl_get _ _ R _ Hv). cbn [mbind option_bind]. rewrite Hdue.
  destruct (due (tm_time T) P) as [|n0 l0] eqn:E0.
  - exists T. split; [done|]. split; [done|]. eapply slots_repr_ext; [exact R|].
    intros sl Hsl. rewrite <- Hnot by done. destruct (decide (sl = sl0)) as [->|]; [|done].
    by rewrite Hdue.
  - destruct (link_clear_spec _ _ _ R Hv) as (T' & -> & R' & Hc). cbn [mbind option_bind].
    rewrite (sl_get _ _ R' _ Hv), decide_True by done. cbn [mbind option_bind].
    rewrite Hdue. exists T'. split; [done|]. split; [done|].
    by eapply slots_repr_ext.
Qed.

Lemma delta_succ t e : u32 t → soon t e → e ≠ wrap 32 (t + 1) → soon (wrap 32 (t + 1)) e.
Proof.
  intros Ht [He Hd] Hne. split; [done|].
  assert (u32 (wrap 32 (t + 1))) as Ht' by (apply wrap_range; lia).
  assert (wrap 32 (t + 1) = if t =? 2 ^ 32 - 1 then 0 else t + 1) as E.
  { unfold u32 in Ht. destruct (Z.eqb_spec t (2 ^ 32 - 1)) as [->|]; [done|]. apply wrap_small. lia. }
  rewrite delta_cases in * by done. rewrite E in *. unfold u32 in *.
  destruct (Z.eqb_spec t (2 ^ 32 - 1)), (Z.ltb_spec e t); repeat case_match; lia.
Qed.

(** One [timer_update] fires the nodes whose time has come, in the order they
    were added, and keeps the others. *)
Lemma timer_update_spec T P :
  timer_repr T P →
  let t' := wrap 32 (tm_time T + 1) in
  ∃ T', timer_update T = Some (dispatch_list (due t' P), T') ∧ tm_time T' = t' ∧
    timer_repr T' (not_due t' P) ∧ tm_current T' = tm_current T ∧
    tm_current_point T' = tm_current_point T ∧ tm_starttime T' = tm_starttime T.
Proof.
  intros R t'. pose proof R as [Ht Hsl Hs]. unfold timer_update.
  destruct (timer_execute_spec T P Ht Hsl ltac:(intros n Hn; apply (Hs n Hn)))
    as (T1 & -> & (C1 & C2 & C3 & C4) & R1).
  assert (∀ n, n ∈ P → tn_expire n ≠ tm_time T) as Hnot.
  { intros n Hn E. destruct (Hs n Hn) as [? Hd]. rewrite E in Hd. unfold delta in Hd.
    rewrite Z.sub_diag in Hd. change (0 mod 2 ^ 32) with 0 in Hd. lia. }
  assert (due (tm_time T) P = []) as -> by (by apply filter_none).
  assert (not_due (tm_time T) P = P) as EP.
  { unfold not_due. clear -Hnot. induction P as [|n P IH]; [done|].
    rewrite filter_cons_True by (apply Hnot; set_solver). f_equal. apply IH. set_solver. }
  rewrite EP in R1. cbn [mbind option_bind].
  destruct (timer_shift_spec T1 P) as (T2 & -> & Ht2 & Hsl2 & D2 & D3 & D4).
  { split; rewrite ?C1; auto. }
  rewrite C1 in Ht2. cbn [mbind option_bind]. fold t' in Ht2.
  assert (u32 t') as Hu by (apply wrap_range; lia).
  destruct (timer_execute_spec T2 P) as (T3 & -> & (F1 & F2 & F3 & F4) & R3).
  { by rewrite Ht2. } { done. } { intros n Hn. apply (Hs n Hn). }
  cbn [mbind option_bind]. exists T3. rewrite Ht2. split; [done|]. split; [congruence|].
  split; [|split_and!; congruence]. split.
  - by rewrite F1, Ht2.
  - rewrite F1, Ht2 in *. done.
  - intros n Hn. rewrite F1, Ht2. apply list_elem_of_filter in Hn as [Hne Hn].
    apply delta_succ; auto.
Qed.

(** ** Runs of ticks *)

Definition after (t k : Z) (P : list timer_node) : list timer_node :=
  filter (λ n, delta t (tn_expire n) = k) P.

Lemma delta_1 t e : u32 t → u32 e → delta t e = 1 ↔ e = wrap 32 (t + 1).
Proof.
  intros Ht He. unfold delta, wrap. split.
  - intros H. rewrite <- (Z.mod_small e (2 ^ 32)) by done.
    replace e with (t + (e - t)) at 1 by lia. rewrite <- Zplus_mod_idemp_r, H. done.
  - intros ->. rewrite Zminus_mod_idemp_l. by replace (t + 1 - t) with 1 by lia.
Qed.

Lemma delta_next t e : u32 t → soon t e → e ≠ wrap 32 (t + 1) →
  delta (wrap 32 (t + 1)) e = delta t e - 1.
Proof.
  intros Ht Hs Hne. destruct (delta_succ _ _ Ht Hs Hne) as [_ Hd]. destruct Hs as [He Hd0].
  assert (delta (wrap 32 (t + 1)) e = (delta t e - 1) mod 2 ^ 32) as ->.
  { unfold delta, wrap. rewrite Zminus_mod_idemp_r, Zminus_mod_idemp_l. f_equal. lia. }
  apply Z.mod_small. lia.
Qed.

Lemma timer_updates_spec n T P :
  timer_repr T P →
  ∃ os T', timer_updates n T = Some (os, T') ∧ length os = n ∧
    (∀ j, (j < n)%nat → os !! j = Some (dispatch_list (after (tm_time T) (Z.of_nat j + 1) P))) ∧
    timer_repr T' (filter (λ x, Z.of_nat n < delta (tm_time T) (tn_expire x)) P) ∧
    tm_time T' = wrap 32 (tm_time T + Z.of_nat n) ∧
    tm_current T' = tm_current T ∧ tm_current_point T' = tm_current_point T ∧
    tm_starttime T' = tm_starttime T.
Proof.
  revert T P. induction n as [|n IH]; intros T P R; simpl.
  - exists [], T. split; [done|]. split; [done|]. split; [intros; lia|]. split.
    + assert (filter (λ x, Z.of_nat 0 < delta (tm_time T) (tn_expire x)) P = P) as ->; [|done].
      pose proof (tr_soon _ _ R) as Hs. clear R. induction P as [|x P IH]; [done|].
      rewrite filter_cons_True; [f_equal; apply IH; set_solver|].
      destruct (Hs x ltac:(set_solver)). lia.
    + rewrite Z.add_0_r, wrap_small by apply R. done.
  - destruct (timer_update_spec _ _ R) as (T1 & -> & Ht1 & R1 & C1 & C2 & C3).
    cbn [mbind option_bind]. destruct (IH _ _ R1) as (os & T' & -> & Hlen & Hos & R' & Ht' & D1 & D2 & D3).
    cbn [mbind option_bind]. pose proof R as [Ht _ Hs]. rewrite Ht1 in *.
    assert (∀ x, x ∈ P → tn_expire x ≠ wrap 32 (tm_time T + 1) →
      delta (wrap 32 (tm_time T + 1)) (tn_expire x) = delta (tm_time T) (tn_expire x) - 1) as Hnext.
    { intros x Hx Hne. apply delta_next; auto. }
    assert (∀ x, x ∈ P → (delta (tm_time T) (tn_expire x) = 1 ↔ tn_expire x = wrap 32 (tm_time T + 1))) as H1.
    { intros x Hx. apply delta_1; [done|]. apply (Hs x Hx). }
    eexists _, T'. split; [done|]. split; [simpl; lia|]. split; [|split; [|split; [|split_and!; congruence]]].
    + intros [|j] Hj; simpl.
      * do 2 f_equal. unfold after, due. apply filter_ext_in. intros x Hx.
        change (Z.of_nat 0 + 1) with 1. by rewrite H1.
      * rewrite Hos by lia. do 2 f_equal. unfold after, not_due. rewrite list_filter_filter.
        apply filter_ext_in. intros x Hx. specialize (Hnext x Hx). specialize (H1 x Hx).
        split; [intros [Ha Hb]; rewrite Hnext in Ha by done; lia|].
        intros Ha. assert (tn_expire x ≠ wrap 32 (tm_time T + 1)) by (rewrite <- H1; lia).
        rewrite Hnext by done. lia.
    + unfold not_due in R'. rewrite list_filter_filter in R'.
      rewrite (filter_ext_in (λ x, Z.of_nat (S n) < delta (tm_time T) (tn_expire x))
        (λ x, Z.of_nat n < delta (wrap 32 (tm_time T + 1)) (tn_expire x) ∧
              tn_expire x ≠ wrap 32 (tm_time T + 1)) P); [done|].
      intros x Hx. specialize (Hnext x Hx). specialize (H1 x Hx). split.
      * intros Ha. assert (tn_expire x ≠ wrap 32 (tm_time T + 1)) by (rewrite <- H1; lia).
        rewrite Hnext by done. lia.
      * intros [Ha Hb]. rewrite Hnext in Ha by done. lia.
    + rewrite Ht'. unfold wrap. rewrite Zplus_mod_idemp_l. f_equal. lia.
Qed.

Lemma timer_add_spec T P ev time :
  timer_repr T P → 1 ≤ time ≤ INT_MAX →
  ∃ T', timer_add T ev time = Some T' ∧ same_clock T T' ∧
    timer_repr T' (P ++ [mkNode (wrap 32 (time + tm_time T)) ev]).
Proof.
  intros [Ht Hsl Hs] Htime. unfold timer_add.
  destruct (add_node_spec _ _ (mkNode (wrap 32 (time + tm_time T)) ev) Hsl) as (T' & -> & Hc & R').
  exists T'. split; [done|]. split; [done|]. destruct Hc as (Hc & _). split; rewrite ?Hc; [done| |].
  - eapply slots_repr_ext; [exact R'|]. intros sl _. by rewrite filter_app.
  - intros n [Hn|Hn]%elem_of_app; [auto|]. apply list_elem_of_singleton in Hn as ->. simpl.
    split; [apply wrap_range; lia|]. unfold delta, wrap. rewrite Zminus_mod_idemp_l.
    replace (time + tm_time T - tm_time T) with time by lia.
    unfold INT_MAX in *. rewrite Z.mod_small; lia.
Qed.

Lemma timer_repr_clock T P a b c : timer_repr T P → timer_repr (set_clock a b c T) P.
Proof. intros [Ht [? ? ?] Hs]. split; [done| |done]. by split. Qed.

Lemma timer_repr_init sec cs cp : timer_repr (skynet_timer_init sec cs cp) [].
Proof.
  apply timer_repr_clock. split.
  - unfold u32. simpl. lia.
  - split; [done| |].
    + split; [done|]. intros i row. simpl. unfold aget. destruct (0 <=? i); [|done].
      intros H%list_elem_of_lookup_2. simpl in H. set_solver.
    + intros [k|i k] Hv; cbn [get_slot tm_near tm_t timer_create_timer].
      * rewrite filter_nil. unfold aget. simpl in Hv. destruct (Z.leb_spec 0 k); [|lia].
        apply lookup_replicate. split; [done|]. change (Z.to_nat TIME_NEAR) with 256%nat. lia.
      * rewrite filter_nil. destruct Hv as [Hi Hk]. unfold aget at 2. destruct (Z.leb_spec 0 i); [|lia].
        assert (replicate 4 (replicate (Z.to_nat TIME_LEVEL) []) !! Z.to_nat i =
          Some (replicate (Z.to_nat TIME_LEVEL) ([] : list timer_node))) as E
          by (apply lookup_replicate; split; [done|lia]).
        rewrite E. cbn [mbind option_bind]. unfold aget. destruct (Z.leb_spec 0 k); [|lia].
        apply lookup_replicate. split; [done|]. change (Z.to_nat TIME_LEVEL) with 64%nat. lia.
  - intros n Hn. set_solver.
Qed.

(** C7: a timeout of [time] ticks is delivered as a
    response message by exactly the [time]-th following tick and by no other,
    after the nodes already due at that tick and without disturbing them, for
    every delay an [int] can hold and across the wrap-around of the clock. *)
Theorem timeout_fires_exactly push T P handle time session :
  timer_repr T P → 1 ≤ time ≤ INT_MAX →
  ∃ T1, skynet_timeout push T handle time session = Some (session, [], T1) ∧
    ∀ n, ∃ os T', timer_updates n T1 = Some (os, T') ∧ length os = n ∧
      ∀ j, (j < n)%nat → os !! j = Some
        (dispatch_list (after (tm_time T) (Z.of_nat j + 1) P) ++
         if Z.of_nat j + 1 =? time then [(handle, response_message session)] else []).
Proof.
  intros R Htime. unfold skynet_timeout. destruct (Z.leb_spec time 0); [lia|].
  destruct (timer_add_spec _ _ (mkEvent handle session) _ R Htime) as (T1 & -> & Hc & R1).
  cbn [mbind option_bind]. exists T1. split; [done|]. intros n.
  destruct (timer_updates_spec n _ _ R1) as (os & T' & E & Hlen & Hos & _).
  exists os, T'. split; [done|]. split; [done|]. intros j Hj. rewrite Hos by done. f_equal.
  rewrite (proj1 Hc). unfold after. rewrite filter_app. unfold dispatch_list. rewrite map_app. f_equal.
  assert (delta (tm_time T) (wrap 32 (time + tm_time T)) = time) as Hd.
  { unfold delta, wrap. rewrite Zminus_mod_idemp_l.
    replace (time + tm_time T - tm_time T) with time by lia. unfold INT_MAX in *. apply Z.mod_small. lia. }
  destruct (Z.eqb_spec (Z.of_nat j + 1) time) as [E1|N1].
  - by rewrite filter_cons_True by (simpl; lia).
  - by rewrite filter_cons_False by (simpl; lia).
Qed.

(** C8: when the monotonic clock advanced by [diff]
    centiseconds since the last call, less than 2^31 (248 days), [skynet_updatetime] runs [diff] ticks, firing in order what
    was due in each of them, and advances the service clock by [diff]; a clock
    that went back fires nothing and only resets the reference point. *)
Theorem updatetime_catches_up T P cp :
  timer_repr T P → cp - tm_current_point T ≤ INT_MAX →
  ∃ os T', skynet_updatetime cp T = Some (os, T') ∧ tm_current_point T' = cp ∧
    let diff := Z.max 0 (cp - tm_current_point T) in
    timer_repr T' (filter (λ x, diff < delta (tm_time T) (tn_expire x)) P) ∧
    (0 < diff → tm_current T' = wrap 64 (tm_current T + diff)) ∧
    Z.of_nat (length os) = diff ∧
    ∀ j, Z.of_nat j < diff → os !! j = Some (dispatch_list (after (tm_time T) (Z.of_nat j + 1) P)).
Proof.
  intros R Hd. unfold skynet_updatetime.
  assert (filter (λ x, 0 < delta (tm_time T) (tn_expire x)) P = P) as HP.
  { pose proof (tr_soon _ _ R) as Hs. clear -Hs. induction P as [|x P IH]; [done|].
    rewrite filter_cons_True; [f_equal; apply IH; set_solver|].
    destruct (Hs x ltac:(set_solver)). lia. }
  destruct (Z.ltb_spec cp (tm_current_point T)).
  { eexists _, _. split; [done|]. rewrite Z.max_l by lia. split; [done|]. cbn zeta. rewrite HP.
    split; [by apply timer_repr_clock|]. split_and!; [lia|done|intros; lia]. }
  case_bool_decide as Hne; cycle 1.
  { eexists _, _. split; [done|]. rewrite Z.max_l by lia. split; [lia|]. cbn zeta. rewrite HP.
    split; [done|]. split_and!; [lia|done|intros; lia]. }
  unfold INT_MAX in Hd. rewrite Z.max_r by lia. rewrite wrap_small by lia.
  rewrite c_int_Some by (unfold INT_MIN, INT_MAX; lia). cbn [mbind option_bind].
  set (T0 := set_clock _ _ _ T).
  assert (timer_repr T0 P) as R0 by (by apply timer_repr_clock).
  destruct (timer_updates_spec (Z.to_nat (cp - tm_current_point T)) _ _ R0)
    as (os & T' & -> & Hlen & Hos & R' & Ht' & C1 & C2 & C3).
  rewrite Z2Nat.id in * by lia. exists os, T'. split; [done|]. split; [done|]. cbn zeta.
  split; [done|]. split; [intros _; by rewrite C1|]. split; [lia|]. intros j Hj. apply Hos. lia.
Qed.

(** ** Witnesses: a wheel with one pending timeout *)

Lemma timeout_fires_exactly_witness :
  ∃ T P, timer_repr T P ∧ P ≠ [] ∧
  ∃ T1, skynet_timeout (λ _ _, 0) T 9 300 6 = Some (6, [], T1) ∧
    ∀ n, ∃ os T', timer_updates n T1 = Some (os, T') ∧ length os = n ∧
      ∀ j, (j < n)%nat → os !! j = Some
        (dispatch_list (after (tm_time T) (Z.of_nat j + 1) P) ++
         if Z.of_nat j + 1 =? 300 then [(9, response_message 6)] else []).
Proof.
  destruct (timer_add_spec _ _ (mkEvent 8 5) 300 (timer_repr_init 1 2 3)) as (T & _ & _ & R); [by vm_compute|].
  eexists T, _. split; [exact R|]. split; [done|].
  apply (timeout_fires_exactly (λ _ _, 0) T _ 9 300 6 R). by vm_compute.
Defined.

Lemma updatetime_catches_up_witness :
  ∃ T P, timer_repr T P ∧ P ≠ [] ∧
  ∃ os T', skynet_updatetime 7 T = Some (os, T') ∧ tm_current_point T' = 7 ∧
    let diff := Z.max 0 (7 - tm_current_point T) in
    timer_repr T' (filter (λ x, diff < delta (tm_time T) (tn_expire x)) P) ∧
    (0 < diff → tm_current T' = wrap 64 (tm_current T + diff)) ∧
    Z.of_nat (length os) = diff ∧
    ∀ j, Z.of_nat j < diff → os !! j = Some (dispatch_list (after (tm_time T) (Z.of_nat j + 1) P)).
Proof.
  destruct (timer_add_spec _ _ (mkEvent 8 5) 3 (timer_repr_init 1 2 3)) as (T & _ & Hc & R); [by vm_compute|].
  eexists T, _. split; [exact R|]. split; [done|].
  apply (updatetime_catches_up T _ 7 R). destruct Hc as (_ & _ & -> & _). by vm_compute.
Defined.
