(* ===== verification/Netpack.v ===== *)
(** * Packet framing: lualib-src/lua-netpack.c

    A package on the wire is a big-endian [uint16] length and that many bytes.
    [filter] cuts the byte stream of each socket into packages: an unfinished
    package waits in a hash table by socket id, finished ones go to a ring that
    [pop] drains (or straight to the caller when there is just one).

    The Lua state is reduced to what these functions use of it: the userdata
    queue at stack index 1 ([None]: not yet created) and the values they
    return.  A heap buffer is the list of bytes written to it so far. *)
From S2P Require Import Prelude Ring.
Local Open Scope Z_scope.

Definition QUEUESIZE : Z := 1024.
Definition HASHSIZE : Z := 4096.

Record netpack := mkPack { np_id : Z; np_size : Z; np_buffer : list Z }.

(** [uc_read] is -1 when only the first byte of the length, [uc_header], came. *)
Record uncomplete := mkUc {
  uc_id : Z; uc_size : Z; uc_buffer : list Z; uc_read : Z; uc_header : Z }.

(** [struct queue]; a bucket is the chain of [uncomplete]s through [next]. *)
Record queue := mkNq {
  nq_cap : Z; nq_head : Z; nq_tail : Z;
  nq_hash : list (list uncomplete); nq_queue : list (option netpack) }.

Definition set_hash (hash : list (list uncomplete)) (q : queue) : queue :=
  mkNq (nq_cap q) (nq_head q) (nq_tail q) hash (nq_queue q).

Definition new_queue : queue :=
  mkNq QUEUESIZE 0 0 (replicate (Z.to_nat HASHSIZE) []) (replicate (Z.to_nat QUEUESIZE) None).

(** [get_queue]: creates the userdata on first use. *)
Definition get_queue (st : option queue) : queue :=
  match st with Some q => q | None => new_queue end.

(** The sum is computed in [int]. *)
Definition hash_fd (fd : Z) : option Z :=
  let a := Z.shiftr fd 24 in
  let b := Z.shiftr fd 12 in
  ab ← c_int (a + b);
  abc ← c_int (ab + fd);
  Some (wrap 32 abc mod HASHSIZE).

(** Unlinks the first entry of [fd] from a bucket. *)
Fixpoint chain_take (fd : Z) (l : list uncomplete) : option (uncomplete * list uncomplete) :=
  match l with
  | [] => None
  | uc :: l =>
      if uc_id uc =? fd then Some (uc, l)
      else '(found, l) ← chain_take fd l; Some (found, uc :: l)
  end.

Definition find_uncomplete (st : option queue) (fd : Z)
    : option (option uncomplete * option queue) :=
  match st with
  | None => Some (None, None)
  | Some q =>
      h ← hash_fd fd;
      bucket ← aget (nq_hash q) h;
      match chain_take fd bucket with
      | None => Some (None, Some q)
      | Some (uc, bucket) =>
          hash ← aset (nq_hash q) h bucket; Some (Some uc, Some (set_hash hash q))
      end
  end.

(** Puts [uc] at the front of its bucket: the end of [save_uncomplete], once
    its caller has filled the fields, and of the refill branch of [filter_data_]. *)
Definition put_uncomplete (q : queue) (fd : Z) (uc : uncomplete) : option queue :=
  h ← hash_fd fd;
  bucket ← aget (nq_hash q) h;
  hash ← aset (nq_hash q) h (uc :: bucket);
  Some (set_hash hash q).

Definition save_uncomplete (st : option queue) (uc : uncomplete) : option (option queue) :=
  q ← put_uncomplete (get_queue st) (uc_id uc) uc; Some (Some q).

(** [expand_queue]: a userdata with [QUEUESIZE] more cells replaces the queue. *)
Definition expand_queue (q : queue) : option queue :=
  a ← ring_unroll (nq_queue q) (nq_cap q) (nq_head q);
  cap ← c_int (nq_cap q + QUEUESIZE);
  Some (mkNq cap 0 (nq_cap q) (nq_hash q) (a ++ replicate (Z.to_nat QUEUESIZE) None)).

(** [push_data]; whether the bytes are cloned does not show in the model. *)
Definition push_data (st : option queue) (fd : Z) (buffer : list Z) (size : Z)
    : option (option queue) :=
  let q := get_queue st in
  a ← aset (nq_queue q) (nq_tail q) (Some (mkPack fd size buffer));
  let tail := nq_tail q + 1 in
  let tail := if nq_cap q <=? tail then tail - nq_cap q else tail in
  let q := mkNq (nq_cap q) (nq_head q) tail (nq_hash q) a in
  if bool_decide (nq_head q = nq_tail q) then q ← expand_queue q; Some (Some q)
  else Some (Some q).

Definition read_size (buffer : list Z) : option Z :=
  b0 ← aget buffer 0; b1 ← aget buffer 1; Some (Z.lor (Z.shiftl b0 8) b1).

(** [push_more]: every call but the last consumes a package, so the number of
    bytes bounds the recursion. *)
Fixpoint push_more (fuel : nat) (st : option queue) (fd : Z) (buffer : list Z)
    : option (option queue) :=
  match fuel with
  | O => None
  | S fuel =>
      let size := Z.of_nat (length buffer) in
      if size =? 1 then
        header ← aget buffer 0; save_uncomplete st (mkUc fd 0 [] (-1) header)
      else
        pack_size ← read_size buffer;
        let buffer := drop 2 buffer in
        let size := size - 2 in
        if size <? pack_size then save_uncomplete st (mkUc fd pack_size buffer size 0)
        else
          st ← push_data st fd (take (Z.to_nat pack_size) buffer) pack_size;
          let buffer := drop (Z.to_nat pack_size) buffer in
          let size := size - pack_size in
          if 0 <? size then push_more fuel st fd buffer else Some st
  end.

Definition close_uncomplete (st : option queue) (fd : Z) : option (option queue) :=
  '(_, st) ← find_uncomplete st fd; Some st.

(** What [lfilter] returns besides the queue. *)
Inductive filter_result :=
  | RNone
  | RData (fd : Z) (msg : list Z) (size : Z)
  | RMore
  | RError (fd : Z) (msg : list Z)
  | ROpen (fd : Z) (msg : list Z)
  | RClose (fd : Z)
  | RWarning (fd size : Z)
  | RInit (fd : Z) (msg : list Z) (ud : Z).

(** The branch of [filter_data_] that continues an unfinished package, once
    both bytes of the length are known. *)
Definition fill_body (st : option queue) (uc : uncomplete) (fd : Z) (buffer : list Z)
    : option (filter_result * option queue) :=
  let size := Z.of_nat (length buffer) in
  let need := uc_size uc - uc_read uc in
  if size <? need then
    q ← st;
    q ← put_uncomplete q fd
          (mkUc (uc_id uc) (uc_size uc) (uc_buffer uc ++ buffer) (uc_read uc + size) (uc_header uc));
    Some (RNone, Some q)
  else
    let msg := uc_buffer uc ++ take (Z.to_nat need) buffer in
    let buffer := drop (Z.to_nat need) buffer in
    let size := size - need in
    if size =? 0 then Some (RData fd msg (uc_size uc), st)
    else
      st ← push_data st fd msg (uc_size uc);
      st ← push_more (S (length buffer)) st fd buffer;
      Some (RMore, st).

(** The whole branch. *)
Definition fill_uncomplete (st : option queue) (uc : uncomplete) (fd : Z) (buffer : list Z)
    : option (filter_result * option queue) :=
  if uc_read uc <? 0 then
    assert! (uc_read uc =? -1);
    b ← aget buffer 0;
    fill_body st (mkUc (uc_id uc) (Z.lor b (Z.shiftl (uc_header uc) 8)) [] 0 (uc_header uc))
      fd (drop 1 buffer)
  else fill_body st uc fd buffer.

(** The branch of [filter_data_] that starts a package. *)
Definition fresh_data (st : option queue) (fd : Z) (buffer : list Z)
    : option (filter_result * option queue) :=
  let size := Z.of_nat (length buffer) in
  if size =? 1 then
    header ← aget buffer 0;
    st ← save_uncomplete st (mkUc fd 0 [] (-1) header);
    Some (RNone, st)
  else
    pack_size ← read_size buffer;
    let buffer := drop 2 buffer in
    let size := size - 2 in
    if size <? pack_size then
      st ← save_uncomplete st (mkUc fd pack_size buffer size 0); Some (RNone, st)
    else if size =? pack_size then Some (RData fd buffer size, st)
    else
      st ← push_data st fd (take (Z.to_nat pack_size) buffer) pack_size;
      let buffer := drop (Z.to_nat pack_size) buffer in
      st ← push_more (S (length buffer)) st fd buffer;
      Some (RMore, st).

Definition filter_data (st : option queue) (fd : Z) (buffer : list Z)
    : option (filter_result * option queue) :=
  '(uc, st) ← find_uncomplete st fd;
  match uc with
  | Some uc => fill_uncomplete st uc fd buffer
  | None => fresh_data st fd buffer
  end.

(** ** The Lua entry points *)

(** [struct skynet_socket_message]: [sm_buffer] is the heap buffer, [None] when
    the text follows the structure ([sm_padding]). *)
Record socket_message := mkSm {
  sm_type : Z; sm_id : Z; sm_ud : Z; sm_buffer : option (list Z); sm_padding : list Z }.

(** With a heap buffer the text length is -1, so only [DATA] may carry one. *)
Definition lfilter (st : option queue) (m : socket_message) : option (filter_result * option queue) :=
  let text := match sm_buffer m with None => Some (sm_padding m) | Some _ => None end in
  match sm_type m with
  | 1 (* DATA *) =>
      buffer ← sm_buffer m;
      assert! (Z.of_nat (length buffer) =? sm_ud m);
      filter_data st (sm_id m) buffer
  | 2 (* CONNECT *) => text ← text; Some (RInit (sm_id m) text (sm_ud m), st)
  | 3 (* CLOSE *) => st ← close_uncomplete st (sm_id m); Some (RClose (sm_id m), st)
  | 4 (* ACCEPT *) => text ← text; Some (ROpen (sm_ud m) text, st)
  | 5 (* ERROR *) =>
      st ← close_uncomplete st (sm_id m); text ← text; Some (RError (sm_id m) text, st)
  | 7 (* WARNING *) => Some (RWarning (sm_id m) (sm_ud m), st)
  | _ => Some (RNone, st)
  end.

Definition lpop (st : option queue) : option (option netpack * option queue) :=
  match st with
  | None => Some (None, None)
  | Some q =>
      if bool_decide (nq_head q = nq_tail q) then Some (None, st)
      else
        cell ← aget (nq_queue q) (nq_head q);
        np ← cell;
        let head := nq_head q + 1 in
        let head := if nq_cap q <=? head then 0 else head in
        Some (Some np, Some (mkNq (nq_cap q) head (nq_tail q) (nq_hash q) (nq_queue q)))
  end.

(** [lclear]: the buffers it frees, and the emptied queue. *)
Definition lclear (st : option queue) : option (list (list Z) * option queue) :=
  match st with
  | None => Some ([], None)
  | Some q =>
      let unfinished := map uc_buffer (concat (nq_hash q)) in
      let tail := if nq_tail q <? nq_head q then nq_tail q + nq_cap q else nq_tail q in
      ready ← mapM (λ i, np ← aget (nq_queue q) (i mod nq_cap q); np_buffer <$> np)
                (seqZ (nq_head q) (tail - nq_head q));
      Some (unfinished ++ ready,
            Some (mkNq (nq_cap q) 0 0 (replicate (Z.to_nat HASHSIZE) []) (nq_queue q)))
  end.

Definition write_size (len : Z) : list Z := [Z.land (Z.shiftr len 8) 255; Z.land len 255].

(** [lpack]: [inl len] is the Lua error for data that is too long. *)
Definition lpack (data : list Z) : Z + list Z :=
  let len := Z.of_nat (length data) in
  if 65536 <=? len then inl len else inr (write_size len ++ data).

(** [ltostring]: [None] is the null pointer. *)
Definition ltostring (ptr : option (list Z)) : list Z :=
  match ptr with None => [] | Some bytes => bytes end.

(** ** The byte stream of one socket *)

Definition is_byte (b : Z) : Prop := 0 ≤ b < 256.

(** A package on the wire. *)
Definition frame (p : list Z) : list Z := write_size (Z.of_nat (length p)) ++ p.

Definition frame_ok (p : list Z) : Prop := Z.of_nat (length p) < 65536.

(** A tail that is not a whole package yet. *)
Definition incomplete (r : list Z) : Prop :=
  match r with
  | b0 :: b1 :: body => is_byte b0 ∧ is_byte b1 ∧ Z.of_nat (length body) < b0 * 256 + b1
  | [b0] => is_byte b0
  | [] => True
  end.

(** [s] is the packages [fs] followed by the unfinished [r]. *)
Definition stream (s : list Z) (fs : list (list Z)) (r : list Z) : Prop :=
  s = concat (map frame fs) ++ r ∧ Forall frame_ok fs ∧ incomplete r.

Lemma size_bytes b0 b1 : is_byte b0 → is_byte b1 → Z.lor (Z.shiftl b0 8) b1 = b0 * 256 + b1.
Proof.
  intros H0 H1. rewrite Z.lor_comm, Z.shiftl_mul_pow2 by lia.
  rewrite lor_add by (unfold is_byte in *; lia). lia.
Qed.

Lemma write_size_bytes n : 0 ≤ n < 65536 →
  ∃ b0 b1, write_size n = [b0; b1] ∧ is_byte b0 ∧ is_byte b1 ∧ b0 * 256 + b1 = n.
Proof.
  intros Hn. unfold write_size. change 255 with (2 ^ 8 - 1).
  rewrite !land_mask, Z.shiftr_div_pow2 by lia. change (2 ^ 8) with 256.
  eexists _, _. split; [done|]. unfold is_byte. split_and!; lia.
Qed.

Lemma read_size_bytes b0 b1 l :
  is_byte b0 → is_byte b1 → read_size (b0 :: b1 :: l) = Some (b0 * 256 + b1).
Proof. intros. unfold read_size. simpl. by rewrite <- size_bytes. Qed.

Lemma frame_shape p : frame_ok p →
  ∃ b0 b1, frame p = b0 :: b1 :: p ∧ is_byte b0 ∧ is_byte b1 ∧ b0 * 256 + b1 = Z.of_nat (length p).
Proof.
  unfold frame_ok. intros Hp.
  destruct (write_size_bytes (Z.of_nat (length p))) as (b0 & b1 & E & ? & ? & ?); [lia|].
  exists b0, b1. split; [|done]. change (frame p) with (write_size (Z.of_nat (length p)) ++ p).
  by rewrite E.
Qed.

(** Every byte string is a stream in one way. *)
Lemma stream_exists s : Forall is_byte s → ∃ fs r, stream s fs r.
Proof.
  remember (length s) as n eqn:En. revert s En.
  induction n as [n IH] using lt_wf_ind. intros s -> Hb.
  destruct s as [|b0 [|b1 body]]; [by exists [], []| |].
  { exists [], [b0]. split; [done|]. split; [done|]. by inversion Hb. }
  apply Forall_cons in Hb as [H0 [H1 Hb]%Forall_cons].
  destruct (decide (Z.of_nat (length body) < b0 * 256 + b1)) as [Hlt|Hge].
  { exists [], (b0 :: b1 :: body). by split. }
  set (n := Z.to_nat (b0 * 256 + b1)).
  destruct (IH (length (drop n body))) with (s := drop n body) as (fs & r & Hs & Hf & Hr); [|done| |].
  { rewrite length_drop. simpl. lia. } { by apply Forall_drop. }
  assert (length (take n body) = n) as Hn by (rewrite length_take; lia).
  assert (frame_ok (take n body)) as Hok by (unfold frame_ok, is_byte in *; rewrite Hn; lia).
  exists (take n body :: fs), r. split; [|split; [by constructor|done]].
  destruct (frame_shape _ Hok) as (c0 & c1 & E & Hc0 & Hc1 & Ec). rewrite Hn in Ec.
  assert (c0 = b0 ∧ c1 = b1) as [-> ->] by (unfold is_byte in *; lia).
  cbn [map concat]. rewrite E, <- app_assoc, <- Hs. simpl. by rewrite take_drop.
Qed.

Lemma incomplete_no_frame p s r : frame_ok p → incomplete r → frame p ++ s = r → False.
Proof.
  intros Hp Hr E. destruct (frame_shape p Hp) as (b0 & b1 & Ef & ? & ? & Hn).
  rewrite Ef in E. subst r. simpl in Hr. rewrite length_app in Hr. lia.
Qed.

Lemma stream_unique s fs r fs' r' : stream s fs r → stream s fs' r' → fs = fs' ∧ r = r'.
Proof.
  revert s fs'. induction fs as [|p fs IH]; intros s fs' (Hs & Hf & Hr) (Hs' & Hf' & Hr').
  - destruct fs' as [|p' fs']; [simpl in *; by subst|].
    exfalso. apply Forall_cons in Hf' as [Hp _]. rewrite Hs in Hs'. simpl in Hs'.
    rewrite <- app_assoc in Hs'. exact (incomplete_no_frame p' _ r Hp Hr (eq_sym Hs')).
  - apply Forall_cons in Hf as [Hp Hf]. destruct fs' as [|p' fs'].
    + exfalso. rewrite Hs in Hs'. simpl in Hs'. rewrite <- app_assoc in Hs'.
      exact (incomplete_no_frame p _ r' Hp Hr' Hs').
    + apply Forall_cons in Hf' as [Hp' Hf']. rewrite Hs in Hs'. cbn [map concat] in Hs'. rewrite <- !app_assoc in Hs'.
      destruct (frame_shape p Hp) as (b0 & b1 & E & ? & ? & Hn).
      destruct (frame_shape p' Hp') as (c0 & c1 & E' & ? & ? & Hn').
      rewrite E, E' in Hs'. simpl in Hs'. injection Hs' as -> -> Hs'.
      apply app_inj_1 in Hs' as [-> Hs']; [|lia].
      destruct (IH (concat (map frame fs) ++ r) fs') as [-> ->]; [by split|by split|done].
Qed.

Lemma stream_bytes b0 b1 l fs r : stream (b0 :: b1 :: l) fs r → is_byte b0 ∧ is_byte b1.
Proof.
  intros (E & Hf & Hr). destruct fs as [|p fs].
  - cbn [map concat app] in E. subst r. by destruct Hr as (? & ? & _).
  - apply Forall_cons in Hf as [Hp _]. destruct (frame_shape p Hp) as (? & ? & Ef & ? & ? & _).
    cbn [map concat] in E. rewrite Ef in E. by simplify_eq/=.
Qed.

(** ** The representation relation *)

(** The state of an unfinished package [r] in its [uncomplete]. *)
Definition uc_repr (uc : uncomplete) (r : list Z) : Prop :=
  match r with
  | [] => False
  | [b0] => is_byte b0 ∧ uc_read uc = -1 ∧ uc_header uc = b0 ∧ uc_buffer uc = []
  | b0 :: b1 :: body => is_byte b0 ∧ is_byte b1 ∧ uc_size uc = b0 * 256 + b1 ∧
      uc_buffer uc = body ∧ uc_read uc = Z.of_nat (length body) ∧ uc_read uc < uc_size uc
  end.

(** Socket ids for which the hash does not overflow an [int]. *)
Definition fd_ok (fd : Z) : Prop := 0 ≤ fd ≤ 2 ^ 30.

Definition bucket_of (q : queue) (fd : Z) : list uncomplete :=
  default [] (h ← hash_fd fd; aget (nq_hash q) h).

Fixpoint assoc (fd : Z) (l : list uncomplete) : option uncomplete :=
  match l with
  | [] => None
  | uc :: l => if uc_id uc =? fd then Some uc else assoc fd l
  end.

(** The queue holds the unfinished packages [pend] and the ready ones [out]. *)
Record nq_repr (q : queue) (pend : gmap Z (list Z)) (out : list (Z * list Z)) : Prop := {
  qr_ring : ring_ok (nq_queue q) (nq_cap q) (nq_head q) (nq_tail q)
              (map (λ x, mkPack x.1 (Z.of_nat (length x.2)) x.2) out);
  qr_cap : nq_cap q ≤ 2 ^ 30;
  qr_hash : Z.of_nat (length (nq_hash q)) = HASHSIZE;
  qr_nodup : ∀ fd, fd_ok fd → NoDup (uc_id <$> bucket_of q fd);
  qr_pend : ∀ fd, fd_ok fd → option_Forall2 uc_repr (assoc fd (bucket_of q fd)) (pend !! fd) }.

Definition st_repr (st : option queue) (pend : gmap Z (list Z)) (out : list (Z * list Z)) : Prop :=
  nq_repr (get_queue st) pend out.

Lemma hash_fd_ok fd : fd_ok fd → ∃ h, hash_fd fd = Some h ∧ 0 ≤ h < HASHSIZE.
Proof.
  unfold fd_ok, hash_fd. intros Hfd. rewrite !Z.shiftr_div_pow2 by lia.
  assert (0 ≤ fd / 2 ^ 24 ≤ 2 ^ 6) by (split; [apply Z.div_pos|apply Z.div_le_upper_bound]; lia).
  assert (0 ≤ fd / 2 ^ 12 ≤ 2 ^ 18) by (split; [apply Z.div_pos|apply Z.div_le_upper_bound]; lia).
  rewrite c_int_Some by (unfold INT_MIN, INT_MAX; lia). cbn [mbind option_bind].
  rewrite c_int_Some by (unfold INT_MIN, INT_MAX; lia). cbn [mbind option_bind].
  eexists; split; [done|]. apply Z.mod_pos_bound. done.
Qed.

Lemma bucket_lookup q pend out fd h :
  nq_repr q pend out → fd_ok fd → hash_fd fd = Some h → aget (nq_hash q) h = Some (bucket_of q fd).
Proof.
  intros [] Hfd Hh. unfold bucket_of. rewrite Hh. cbn [mbind option_bind].
  destruct (hash_fd_ok fd Hfd) as (h' & Hh' & Hr). simplify_eq.
  destruct (aget_is_Some (nq_hash q) h) as [b ->]; [lia|done].
Qed.

Lemma bucket_cleared q fd : nq_hash q = replicate (Z.to_nat HASHSIZE) [] → bucket_of q fd = [].
Proof.
  intros Eq. unfold bucket_of. destruct (hash_fd fd) as [h|]; [|done]. cbn [mbind option_bind].
  rewrite Eq. unfold aget. destruct (0 <=? h); [|done].
  generalize (Z.to_nat HASHSIZE). intros n.
  destruct (_ !! _) eqn:E; [|done]. by apply lookup_replicate in E as [-> _].
Qed.

Lemma bucket_new fd : bucket_of new_queue fd = [].
Proof. by apply bucket_cleared. Qed.

Lemma concat_new : concat (nq_hash new_queue) = [].
Proof.
  unfold new_queue. cbn [nq_hash]. generalize (Z.to_nat HASHSIZE). intros n.
  by induction n as [|n IH].
Qed.

Lemma nq_repr_new : nq_repr new_queue ∅ [].
Proof.
  pose proof bucket_new as Hb. split; [|done| | |].
  - apply ring_ok_nil; [done|]. cbn [new_queue nq_queue nq_cap].
    rewrite length_replicate, Z2Nat.id; done.
  - cbn [new_queue nq_hash]. rewrite length_replicate, Z2Nat.id; done.
  - intros fd _. rewrite Hb. apply NoDup_nil_2.
  - intros fd _. rewrite Hb, lookup_empty. constructor.
Qed.

(** Writing one bucket changes the chains of that bucket only. *)
Lemma bucket_set q fd h b hash fd' :
  hash_fd fd = Some h → aset (nq_hash q) h b = Some hash →
  bucket_of (set_hash hash q) fd' =
    if decide (hash_fd fd' = Some h) then b else bucket_of q fd'.
Proof.
  intros Hh Ha. unfold bucket_of. cbn [set_hash nq_hash].
  destruct (decide _) as [->|Hne]; cbn [mbind option_bind].
  - by rewrite (aget_aset_eq _ _ _ _ Ha).
  - destruct (hash_fd fd') as [h'|]; [|done]. cbn [mbind option_bind].
    by rewrite (aget_aset_ne _ _ _ _ _ Ha) by congruence.
Qed.

Lemma bucket_same q fd fd' : hash_fd fd = hash_fd fd' → bucket_of q fd = bucket_of q fd'.
Proof. unfold bucket_of. by intros ->. Qed.

#[local] Opaque bucket_of hash_fd new_queue.

Lemma assoc_take fd l :
  match chain_take fd l with
  | Some (uc, l') => assoc fd l = Some uc ∧ l ≡ₚ uc :: l' ∧ uc_id uc = fd ∧
      ∀ fd', fd' ≠ fd → assoc fd' l' = assoc fd' l
  | None => assoc fd l = None
  end.
Proof.
  induction l as [|uc l IH]; simpl; [done|].
  destruct (Z.eqb_spec (uc_id uc) fd) as [E|N].
  - split_and!; try done. intros fd' Hne. destruct (Z.eqb_spec (uc_id uc) fd'); [congruence|done].
  - destruct (chain_take fd l) as [[u l']|]; cbn [mbind option_bind]; [|done].
    destruct IH as (H1 & H2 & H3 & H4). split_and!; try done.
    + rewrite H2. apply perm_swap.
    + intros fd' Hne. simpl. destruct (uc_id uc =? fd'); [done|]. auto.
Qed.

Lemma assoc_none fd l : fd ∉ (uc_id <$> l) → assoc fd l = None.
Proof.
  induction l as [|uc l IH]; simpl; [done|]. intros [? ?]%not_elem_of_cons.
  destruct (Z.eqb_spec (uc_id uc) fd); [congruence|auto].
Qed.

Lemma find_uncomplete_spec st pend out fd :
  st_repr st pend out → fd_ok fd →
  ∃ uc st', find_uncomplete st fd = Some (uc, st') ∧
    st_repr st' (delete fd pend) out ∧ option_Forall2 uc_repr uc (pend !! fd) ∧
    (∀ u, uc = Some u → uc_id u = fd ∧ is_Some st').
Proof.
  intros R Hfd. unfold st_repr in R. pose proof R as [R1 R2 R3 R4 R5].
  destruct st as [q|]; cbn [get_queue] in *; cycle 1.
  { exists None, None. split; [done|]. specialize (R5 fd Hfd) as H5.
    rewrite bucket_new in H5. cbn [assoc] in H5.
    inversion H5 as [|E1 E2]. split; [|split; [constructor|done]].
    unfold st_repr. cbn [get_queue]. by rewrite delete_id. }
  destruct (hash_fd_ok fd Hfd) as (h & Hh & Hr). unfold find_uncomplete. rewrite Hh.
  cbn [mbind option_bind]. rewrite (bucket_lookup _ _ _ _ _ R Hfd Hh). cbn [mbind option_bind].
  pose proof (assoc_take fd (bucket_of q fd)) as HT. pose proof (R5 fd Hfd) as H5.
  destruct (chain_take fd (bucket_of q fd)) as [[uc b]|]; cycle 1.
  { exists None, (Some q). split; [done|]. rewrite HT in H5. inversion H5 as [|E1 E2].
    split; [unfold st_repr; by rewrite delete_id|split; [constructor|done]]. }
  destruct HT as (H1 & H2 & H3 & H4).
  destruct (aset (nq_hash q) h b) as [hash|] eqn:Ha; [|rewrite aset_Some in Ha by lia; done].
  cbn [mbind option_bind]. exists (Some uc), (Some (set_hash hash q)). split; [done|].
  rewrite H1 in H5. split; [|split; [by rewrite <- H3 in *|intros ? [= <-]; eauto]].
  assert (∀ fd', bucket_of (set_hash hash q) fd' = if decide (hash_fd fd' = Some h) then b else bucket_of q fd') as HB.
  { intros fd'. by eapply bucket_set. }
  assert (∀ fd', hash_fd fd' = Some h → bucket_of q fd' = bucket_of q fd) as HE.
  { intros fd' E. apply bucket_same. congruence. }
  split; cbn [get_queue set_hash nq_queue nq_cap nq_head nq_tail nq_hash]; try done.
  - by rewrite (length_aset _ _ _ _ Ha).
  - intros fd' Hfd'. rewrite HB. destruct (decide _) as [E|]; [|auto].
    pose proof (R4 fd Hfd) as Hnd. rewrite H2 in Hnd. simpl in Hnd. by apply NoDup_cons in Hnd as [_ ?].
  - intros fd' Hfd'. rewrite HB. destruct (decide (fd' = fd)) as [->|Hne].
    + rewrite decide_True, lookup_delete_eq by done. rewrite assoc_none; [constructor|].
      pose proof (R4 fd Hfd) as Hnd. rewrite H2 in Hnd. simpl in Hnd. rewrite H3 in Hnd.
      by apply NoDup_cons in Hnd as [? _].
    + rewrite lookup_delete_ne by done. destruct (decide _) as [E|]; [|auto].
      rewrite H4, <- (HE fd' E) by done. auto.
Qed.

Lemma put_uncomplete_spec q pend out fd uc r :
  nq_repr q pend out → fd_ok fd → pend !! fd = None → uc_id uc = fd → uc_repr uc r →
  ∃ q', put_uncomplete q fd uc = Some q' ∧ nq_repr q' (<[fd := r]> pend) out.
Proof.
  intros R Hfd Hnone Hid Huc. pose proof R as [R1 R2 R3 R4 R5].
  destruct (hash_fd_ok fd Hfd) as (h & Hh & Hr). unfold put_uncomplete. rewrite Hh.
  cbn [mbind option_bind]. rewrite (bucket_lookup _ _ _ _ _ R Hfd Hh). cbn [mbind option_bind].
  destruct (aset (nq_hash q) h (uc :: bucket_of q fd)) as [hash|] eqn:Ha;
    [|rewrite aset_Some in Ha by lia; done].
  cbn [mbind option_bind]. eexists; split; [done|].
  assert (∀ fd', bucket_of (set_hash hash q) fd' =
    if decide (hash_fd fd' = Some h) then uc :: bucket_of q fd else bucket_of q fd') as HB.
  { intros fd'. by eapply bucket_set. }
  assert (∀ fd', hash_fd fd' = Some h → bucket_of q fd' = bucket_of q fd) as HE.
  { intros fd' E. apply bucket_same. congruence. }
  assert (assoc fd (bucket_of q fd) = None) as Habs.
  { pose proof (R5 fd Hfd) as H5. rewrite Hnone in H5. destruct (assoc fd (bucket_of q fd)); [inversion H5|reflexivity]. }
  split; cbn [get_queue set_hash nq_queue nq_cap nq_head nq_tail nq_hash]; try done.
  - by rewrite (length_aset _ _ _ _ Ha).
  - intros fd' Hfd'. rewrite HB. destruct (decide _) as [E|]; [|auto].
    simpl. apply NoDup_cons. split; [|auto]. rewrite Hid. intros Hin.
    clear -Hin Habs. induction (bucket_of q fd) as [|u l IH]; simpl in *; [set_solver|].
    destruct (Z.eqb_spec (uc_id u) fd); [done|]. apply elem_of_cons in Hin as [?|?]; [congruence|auto].
  - intros fd' Hfd'. rewrite HB. destruct (decide (fd' = fd)) as [->|Hne].
    + rewrite decide_True, lookup_insert_eq by done. simpl. rewrite Hid, Z.eqb_refl. by constructor.
    + rewrite lookup_insert_ne by done. destruct (decide _) as [E|]; [|auto].
      simpl. destruct (Z.eqb_spec (uc_id uc) fd'); [congruence|]. rewrite <- (HE fd' E). auto.
Qed.

Lemma save_uncomplete_spec st pend out uc r :
  st_repr st pend out → fd_ok (uc_id uc) → pend !! uc_id uc = None → uc_repr uc r →
  ∃ st', save_uncomplete st uc = Some st' ∧ st_repr st' (<[uc_id uc := r]> pend) out ∧ is_Some st'.
Proof.
  intros R Hfd Hnone Huc. unfold save_uncomplete.
  destruct (put_uncomplete_spec _ _ _ _ _ _ R Hfd Hnone eq_refl Huc) as (q' & -> & R').
  cbn [mbind option_bind]. eexists; split; [done|]. eauto.
Qed.

Lemma push_data_spec st pend out fd p :
  st_repr st pend out → Z.of_nat (length out) + 1 < 2 ^ 29 →
  ∃ st', push_data st fd p (Z.of_nat (length p)) = Some st' ∧ st_repr st' pend (out ++ [(fd, p)]) ∧ is_Some st'.
Proof.
  intros [R1 R2 R3 R4 R5] Hsmall. unfold push_data. set (q := get_queue st) in *.
  destruct (ring_put _ _ _ _ _ (mkPack fd (Z.of_nat (length p)) p) R1) as (a & -> & Hput).
  cbn [mbind option_bind].
  pose proof (ring_ok_tail_range _ _ _ _ _ R1) as Htail.
  assert ((if nq_cap q <=? nq_tail q + 1 then nq_tail q + 1 - nq_cap q else nq_tail q + 1) =
    ring_next (nq_cap q) (nq_tail q)) as -> by (unfold ring_next; repeat case_match; lia).
  cbn [nq_head nq_tail].
  assert (map (λ x, mkPack x.1 (Z.of_nat (length x.2)) x.2) out ++ [mkPack fd (Z.of_nat (length p)) p]
    = map (λ x, mkPack x.1 (Z.of_nat (length x.2)) x.2) (out ++ [(fd, p)])) as Em by (by rewrite map_app).
  rewrite Em in Hput. destruct Hput as [[Hne R']|[Heq R']].
  - rewrite bool_decide_eq_false_2 by done. eexists; split; [done|]. split; [|eauto]. by split.
  - rewrite bool_decide_eq_true_2 by done. unfold expand_queue. cbn [nq_queue nq_cap nq_head].
    rewrite (ring_full_unroll _ _ _ _ R'). cbn [mbind option_bind].
    pose proof (rf_all _ _ _ _ R') as Hall. rewrite length_map, length_app in Hall. cbn [length] in Hall.
    rewrite c_int_Some by (unfold INT_MIN, INT_MAX, QUEUESIZE; lia). cbn [mbind option_bind].
    eexists; split; [done|]. split; [|eauto]. split; try done.
    + cbn [get_queue nq_queue nq_cap nq_head nq_tail].
      pose proof (ring_ok_unrolled (map (λ x, mkPack x.1 (Z.of_nat (length x.2)) x.2) (out ++ [(fd, p)]))
        (Z.to_nat QUEUESIZE)) as Hu. rewrite (rf_all _ _ _ _ R') in Hu. apply Hu. vm_compute. lia.
    + cbn [get_queue nq_cap]. unfold QUEUESIZE. lia.
Qed.

(** ** Cutting the stream *)

(** The pending tail of a socket after reading up to [r]. *)
Definition set_pend (fd : Z) (r : list Z) (pend : gmap Z (list Z)) : gmap Z (list Z) :=
  if decide (r = []) then delete fd pend else <[fd := r]> pend.

Lemma take_app_exact {A} (p s : list A) n : n = Z.of_nat (length p) → take (Z.to_nat n) (p ++ s) = p.
Proof. intros ->. rewrite Nat2Z.id. by apply take_app_length. Qed.

Lemma drop_app_exact {A} (p s : list A) n : n = Z.of_nat (length p) → drop (Z.to_nat n) (p ++ s) = s.
Proof. intros ->. rewrite Nat2Z.id. by apply drop_app_length. Qed.

(** The [uncomplete] both functions save for a tail. *)
Definition tail_uc (fd : Z) (r : list Z) : uncomplete :=
  match r with
  | b0 :: b1 :: body => mkUc fd (b0 * 256 + b1) body (Z.of_nat (length body)) 0
  | _ => mkUc fd 0 [] (-1) (default 0 (head r))
  end.

Lemma save_tail_spec st pend out fd r :
  st_repr st pend out → fd_ok fd → pend !! fd = None → r ≠ [] → incomplete r →
  ∃ st', save_uncomplete st (tail_uc fd r) = Some st' ∧ st_repr st' (set_pend fd r pend) out.
Proof.
  intros R Hfd Hn Hne Hr. unfold set_pend. rewrite decide_False by done.
  assert (uc_id (tail_uc fd r) = fd) as Hid by (by destruct r as [|? [|? ?]]).
  destruct (save_uncomplete_spec st pend out (tail_uc fd r) r R) as (st' & E & R' & _);
    rewrite ?Hid in *; eauto.
  destruct r as [|b0 [|b1 body]]; [done|by split_and!|].
  destruct Hr as (? & ? & ?). by split_and!.
Qed.

Lemma push_more_tail fuel st fd r :
  r ≠ [] → incomplete r → push_more (S fuel) st fd r = save_uncomplete st (tail_uc fd r).
Proof.
  intros Hne Hr. destruct r as [|b0 [|b1 body]]; [done..|].
  destruct Hr as (H0 & H1 & Hlt). cbn [push_more length tail_uc].
  destruct (Z.eqb_spec (Z.of_nat (S (S (length body)))) 1); [lia|].
  rewrite read_size_bytes by done. cbn [mbind option_bind drop].
  replace (Z.of_nat (S (S (length body))) - 2) with (Z.of_nat (length body)) by lia.
  destruct (Z.ltb_spec (Z.of_nat (length body)) (b0 * 256 + b1)); [done|lia].
Qed.

Lemma push_more_spec fuel st pend out fd s fs r :
  st_repr st pend out → fd_ok fd → pend !! fd = None → s ≠ [] → stream s fs r →
  (length s < fuel)%nat → Z.of_nat (length out) + Z.of_nat (length fs) < 2 ^ 29 →
  ∃ st', push_more fuel st fd s = Some st' ∧
    st_repr st' (set_pend fd r pend) (out ++ map (λ p, (fd, p)) fs).
Proof.
  revert st out s fs. induction fuel as [|fuel IH]; intros st out s fs R Hfd Hn Hs (Es & Hf & Hr) Hfu Hsm; [lia|].
  destruct fs as [|p fs].
  - cbn [map concat app] in Es. subst s. cbn [map]. rewrite app_nil_r.
    destruct (save_tail_spec st pend out fd r R Hfd Hn Hs Hr) as (st' & Es & R').
    exists st'. split; [|done]. rewrite <- Es. by apply push_more_tail.
  - apply Forall_cons in Hf as [Hp Hf]. destruct (frame_shape p Hp) as (b0 & b1 & Ef & H0 & H1 & Hlen).
    cbn [map concat] in Es. rewrite Ef, <- app_assoc in Es. cbn [app] in Es.
    set (s' := concat (map frame fs) ++ r) in *. subst s. cbn [push_more length] in *.
    rewrite length_app in Hfu. cbn [length]. rewrite length_app.
    destruct (Z.eqb_spec (Z.of_nat (S (S (length p + length s')))) 1); [lia|].
    rewrite read_size_bytes by done. cbn [mbind option_bind drop]. rewrite Hlen.
    destruct (Z.ltb_spec (Z.of_nat (S (S (length p + length s'))) - 2) (Z.of_nat (length p))); [lia|].
    rewrite !drop_0, take_app_exact, drop_app_exact by done. cbn [length] in Hsm.
    destruct (push_data_spec st pend out fd p R) as (st1 & -> & R1 & _); [lia|].
    cbn [mbind option_bind].
    destruct (Z.ltb_spec 0 (Z.of_nat (S (S (length p + length s'))) - 2 - Z.of_nat (length p))) as [Hlt|Hge].
    + destruct (IH st1 (out ++ [(fd, p)]) s' fs R1 Hfd Hn) as (st' & -> & R');
        [by intros ->; simpl in *; lia|by split|lia|rewrite length_app; cbn [length]; lia|].
      exists st'. split; [done|]. by rewrite <- app_assoc in R'.
    + assert (s' = []) as E by (apply length_zero_iff_nil; lia). subst s'.
      apply app_eq_nil in E as [E ->]. destruct fs as [|p' fs].
      * exists st1. split; [done|]. unfold set_pend. rewrite decide_True by done. by rewrite delete_id.
      * exfalso. apply Forall_cons in Hf as [Hp' _]. destruct (frame_shape p' Hp') as (? & ? & E' & _).
        cbn [map concat] in E. by rewrite E' in E.
Qed.

(** The three outcomes of a chunk, given what it completes. *)
Definition outcome (fd : Z) (fs : list (list Z)) (r : list Z) (out : list (Z * list Z))
    : filter_result * list (Z * list Z) :=
  match fs, r with
  | [], _ => (RNone, out)
  | [p], [] => (RData fd p (Z.of_nat (length p)), out)
  | _, _ => (RMore, out ++ map (λ p, (fd, p)) fs)
  end.

Lemma fresh_data_spec st pend out fd s fs r :
  st_repr st pend out → fd_ok fd → pend !! fd = None → s ≠ [] → stream s fs r →
  Z.of_nat (length out) + Z.of_nat (length fs) < 2 ^ 29 →
  ∃ st', fresh_data st fd s = Some ((outcome fd fs r out).1, st') ∧
    st_repr st' (set_pend fd r pend) (outcome fd fs r out).2.
Proof.
  intros R Hfd Hn Hs (Es & Hf & Hr) Hsm. unfold fresh_data. destruct fs as [|p fs].
  - cbn [map concat app] in Es. subst s. cbn [outcome fst snd].
    destruct (save_tail_spec st pend out fd r R Hfd Hn Hs Hr) as (st' & Es & R').
    exists st'. split; [|done]. destruct r as [|b0 [|b1 body]]; [done| |].
    { change ((st ← save_uncomplete st (tail_uc fd [b0]); Some (RNone, st)) = Some (RNone, st')).
      by rewrite Es. }
    destruct Hr as (H0 & H1 & Hlt). cbn [length tail_uc] in *.
    destruct (Z.eqb_spec (Z.of_nat (S (S (length body)))) 1); [lia|].
    rewrite read_size_bytes by done. cbn [mbind option_bind drop].
    replace (Z.of_nat (S (S (length body))) - 2) with (Z.of_nat (length body)) by lia.
    destruct (Z.ltb_spec (Z.of_nat (length body)) (b0 * 256 + b1)); [|lia]. by rewrite drop_0, Es.
  - apply Forall_cons in Hf as [Hp Hf]. destruct (frame_shape p Hp) as (b0 & b1 & Ef & H0 & H1 & Hlen).
    cbn [map concat] in Es. rewrite Ef, <- app_assoc in Es. cbn [app] in Es.
    set (s' := concat (map frame fs) ++ r) in *. subst s. cbn [length].
    rewrite length_app.
    destruct (Z.eqb_spec (Z.of_nat (S (S (length p + length s')))) 1); [lia|].
    rewrite read_size_bytes by done. cbn [mbind option_bind drop]. rewrite Hlen.
    destruct (Z.ltb_spec (Z.of_nat (S (S (length p + length s'))) - 2) (Z.of_nat (length p))); [lia|].
    cbn [length] in Hsm.
    destruct (Z.eqb_spec (Z.of_nat (S (S (length p + length s'))) - 2) (Z.of_nat (length p))) as [Heq|Hne].
    + assert (s' = []) as E by (apply length_zero_iff_nil; lia). rewrite Heq.
      subst s'. apply app_eq_nil in E as [E ->]. destruct fs as [|p' fs].
      * exists st. cbn [outcome fst snd map concat app]. rewrite drop_0, app_nil_r.
        split; [done|].
        unfold set_pend. rewrite decide_True by done. by rewrite delete_id.
      * exfalso. apply Forall_cons in Hf as [Hp' _]. destruct (frame_shape p' Hp') as (? & ? & E' & _).
        cbn [map concat] in E. by rewrite E' in E.
    + rewrite !drop_0, take_app_exact, drop_app_exact by done.
      destruct (push_data_spec st pend out fd p R) as (st1 & -> & R1 & _); [lia|]. cbn [mbind option_bind].
      assert (s' ≠ []) as Hs' by (intros E; rewrite E in Hne; simpl in Hne; lia).
      assert (stream s' fs r) as Hstr by done.
      assert (Z.of_nat (length (out ++ [(fd, p)])) + Z.of_nat (length fs) < 2 ^ 29) as Hsm'
        by (rewrite length_app; cbn [length]; lia).
      destruct (push_more_spec (S (length s')) st1 pend (out ++ [(fd, p)]) fd s' fs r R1 Hfd Hn Hs' Hstr
        ltac:(lia) Hsm') as (st' & -> & R').
      cbn [mbind option_bind]. exists st'. rewrite <- app_assoc in R'.
      assert (outcome fd (p :: fs) r out = (RMore, out ++ map (λ p, (fd, p)) (p :: fs))) as ->; [|done].
      destruct fs; [|done]. destruct r; [done|done].
Qed.

Lemma outcome_more fd p fs r out :
  concat (map frame fs) ++ r ≠ [] → outcome fd (p :: fs) r out = (RMore, out ++ map (λ p, (fd, p)) (p :: fs)).
Proof. destruct fs; [|done]. by destruct r. Qed.

Lemma stream_tail_nil fs r : Forall frame_ok fs → concat (map frame fs) ++ r = [] → fs = [] ∧ r = [].
Proof.
  intros Hf [E ->]%app_eq_nil. split; [|done]. destruct fs as [|p fs]; [done|].
  apply Forall_cons in Hf as [Hp _]. destruct (frame_shape p Hp) as (? & ? & E' & _).
  cbn [map concat] in E. by rewrite E' in E.
Qed.

(** Once a package is complete, it goes to the ring with those behind it. *)
Lemma push_rest_spec st pend out fd p s fs r :
  st_repr st pend out → fd_ok fd → pend !! fd = None → s ≠ [] → stream s fs r →
  Z.of_nat (length out) + Z.of_nat (length (p :: fs)) < 2 ^ 29 →
  ∃ st', (st ← push_data st fd p (Z.of_nat (length p));
          st ← push_more (S (length s)) st fd s; Some (RMore, st)) =
      Some ((outcome fd (p :: fs) r out).1, st') ∧
    st_repr st' (set_pend fd r pend) (outcome fd (p :: fs) r out).2.
Proof.
  intros R Hfd Hn Hs Hstr Hsm. cbn [length] in Hsm.
  destruct (push_data_spec st pend out fd p R) as (st1 & -> & R1 & _); [lia|]. cbn [mbind option_bind].
  assert (Z.of_nat (length (out ++ [(fd, p)])) + Z.of_nat (length fs) < 2 ^ 29) as Hsm'
    by (rewrite length_app; cbn [length]; lia).
  destruct (push_more_spec (S (length s)) st1 pend (out ++ [(fd, p)]) fd s fs r R1 Hfd Hn Hs Hstr
    ltac:(lia) Hsm') as (st' & -> & R').
  cbn [mbind option_bind]. exists st'. rewrite <- app_assoc in R'.
  rewrite outcome_more; [done|]. by rewrite <- (proj1 Hstr).
Qed.

Lemma set_pend_delete fd r pend : set_pend fd r (delete fd pend) = set_pend fd r pend.
Proof. unfold set_pend. case_decide; [by rewrite delete_delete_eq|by rewrite insert_delete_eq]. Qed.

Lemma fill_body_spec q pend out fd uc b0 b1 buffer fs r :
  nq_repr q pend out → fd_ok fd → pend !! fd = None → uc_id uc = fd → is_byte b0 → is_byte b1 →
  uc_size uc = b0 * 256 + b1 → uc_read uc = Z.of_nat (length (uc_buffer uc)) →
  uc_read uc ≤ uc_size uc → stream (b0 :: b1 :: uc_buffer uc ++ buffer) fs r →
  Z.of_nat (length out) + Z.of_nat (length fs) < 2 ^ 29 →
  ∃ st', fill_body (Some q) uc fd buffer = Some ((outcome fd fs r out).1, st') ∧
    st_repr st' (set_pend fd r pend) (outcome fd fs r out).2.
Proof.
  intros R Hfd Hn Hid H0 H1 Hsz Hrd Hle (Es & Hf & Hr) Hsm. unfold fill_body.
  destruct fs as [|p fs].
  - cbn [map concat app] in Es. subst r. destruct Hr as (_ & _ & Hlt). rewrite length_app in Hlt.
    destruct (Z.ltb_spec (Z.of_nat (length buffer)) (uc_size uc - uc_read uc)); [|lia].
    cbn [mbind option_bind outcome fst snd].
    edestruct (put_uncomplete_spec q pend out fd (mkUc (uc_id uc) (uc_size uc) (uc_buffer uc ++ buffer)
      (uc_read uc + Z.of_nat (length buffer)) (uc_header uc)) (b0 :: b1 :: uc_buffer uc ++ buffer) R)
      as (q' & -> & R'); [done..| |].
    { cbn [uc_repr uc_size uc_buffer uc_read]. rewrite length_app. split_and!; try done; lia. }
    by eexists.
  - apply Forall_cons in Hf as [Hp Hf]. destruct (frame_shape p Hp) as (c0 & c1 & Ef & Hc0 & Hc1 & Hlen).
    cbn [map concat] in Es. rewrite Ef, <- app_assoc in Es. cbn [app] in Es.
    injection Es as -> -> Es. rewrite Hlen in Hsz.
    set (s' := concat (map frame fs) ++ r) in *.
    assert (∃ m, p = uc_buffer uc ++ m ∧ buffer = m ++ s') as (m & -> & ->).
    { apply app_eq_app in Es as (m & [[E1 E2]|[E1 E2]]); [|by exists m].
      assert (m = []) as -> by (apply length_zero_iff_nil; rewrite E1, length_app in *; lia).
      exists []. rewrite app_nil_r in *. by simplify_eq/=. }
    rewrite length_app in *.
    destruct (Z.ltb_spec (Z.of_nat (length m + length s')) (uc_size uc - uc_read uc)); [lia|].
    rewrite take_app_exact, drop_app_exact by lia. rewrite Hsz.
    destruct (Z.eqb_spec (Z.of_nat (length m + length s') - (Z.of_nat (length (uc_buffer uc) + length m) - uc_read uc)) 0)
      as [Heq|Hne].
    + destruct (stream_tail_nil fs r Hf) as [-> ->]; [apply length_zero_iff_nil; subst s'; lia|].
      cbn [outcome fst snd]. rewrite length_app. eexists; split; [done|]. unfold set_pend.
      rewrite decide_True, delete_id by done. done.
    + rewrite <- length_app. apply (push_rest_spec (Some q)); try done.
      intros E. rewrite E in Hne. cbn [length] in Hne. lia.
Qed.

Theorem filter_data_spec st pend out fd data fs r :
  st_repr st pend out → fd_ok fd → data ≠ [] → stream (default [] (pend !! fd) ++ data) fs r →
  Z.of_nat (length out) + Z.of_nat (length fs) < 2 ^ 29 →
  ∃ st', filter_data st fd data = Some ((outcome fd fs r out).1, st') ∧
    st_repr st' (set_pend fd r pend) (outcome fd fs r out).2.
Proof.
  intros R Hfd Hne Hstr Hsm. unfold filter_data.
  destruct (find_uncomplete_spec st pend out fd R Hfd) as (uc & st1 & -> & R1 & Huc & Hst).
  cbn [mbind option_bind]. rewrite <- set_pend_delete.
  assert (delete fd pend !! fd = None) as Hn by apply lookup_delete_eq.
  destruct (pend !! fd) as [t|]; inversion Huc as [u ? Hu|]; subst uc; [|by apply fresh_data_spec].
  subst. cbn [default from_option] in Hstr. unfold id in Hstr.
  destruct (Hst u eq_refl) as [Hid [q ->]]. unfold fill_uncomplete.
  destruct t as [|b0 [|b1 body]]; [done| |].
  - destruct Hu as (H0 & Hrd & Hh & Hb). rewrite Hrd. cbn [Z.ltb Z.compare]. rewrite c_assert_true by done.
    destruct data as [|b1 body]; [done|]. cbn [app] in Hstr.
    change (aget (b1 :: body) 0) with (Some b1). cbn [mbind option_bind]. rewrite Hh.
    assert (is_byte b1) as H1 by (by destruct (stream_bytes _ _ _ _ _ Hstr)).
    eapply (fill_body_spec q _ _ _ _ b0 b1); try done.
    + cbn [uc_size]. by rewrite Z.lor_comm, size_bytes.
    + cbn [uc_read uc_size]. rewrite Z.lor_comm, size_bytes by done. unfold is_byte in *. lia.
  - destruct Hu as (H0 & H1 & Hsz & Hb & Hrd & Hlt). destruct (Z.ltb_spec (uc_read u) 0); [lia|].
    rewrite <- Hb in *. by eapply (fill_body_spec q _ _ _ _ b0 b1); try done; lia.
Qed.

(** ** The other operations *)

Definition pack_of (x : Z * list Z) : netpack := mkPack x.1 (Z.of_nat (length x.2)) x.2.

Lemma lpop_nil st pend : st_repr st pend [] → lpop st = Some (None, st).
Proof.
  intros [R1 _ _ _ _]. destruct st as [q|]; [|done]. unfold lpop.
  rewrite bool_decide_eq_true_2; [done|]. by apply (ring_ok_empty _ _ _ _ _ R1).
Qed.

Lemma lpop_cons st pend x out :
  st_repr st pend (x :: out) →
  ∃ q, lpop st = Some (Some (pack_of x), Some q) ∧ st_repr (Some q) pend out ∧
    nq_cap q = nq_cap (get_queue st).
Proof.
  intros [R1 R2 R3 R4 R5]. destruct st as [q|]; cycle 1.
  { destruct (ring_ok_empty _ _ _ _ _ R1) as [E _]. specialize (E eq_refl). done. }
  unfold lpop. cbn [get_queue] in *. destruct (ring_take _ _ _ _ _ _ R1) as [Hget R1'].
  rewrite bool_decide_eq_false_2; cycle 1.
  { intros E%(ring_ok_empty _ _ _ _ _ R1). done. }
  rewrite Hget. cbn [mbind option_bind]. eexists. split; [done|]. split; [|done]. by split.
Qed.

Lemma close_spec st pend out fd :
  st_repr st pend out → fd_ok fd →
  ∃ st', close_uncomplete st fd = Some st' ∧ st_repr st' (delete fd pend) out.
Proof.
  intros R Hfd. unfold close_uncomplete.
  destruct (find_uncomplete_spec st pend out fd R Hfd) as (uc & st' & -> & R' & _). by exists st'.
Qed.

(** ** A gate: lualib/snax/gateserver.lua

    [handler] is the client's [handler.message]: the sockets that it closes with
    [gateserver.closeclient] when it gets a message after those that it has seen.  It
    does not block, so one coroutine drains the queue. *)
Record gateserver := Gateserver {
  connection : gmap Z bool;
  seen : list (Z * list Z) }.

Section gateserver.
Variable handler : list (Z * list Z) → Z → list Z → list Z.

Definition closeclient (g : gateserver) (fd : Z) : gateserver := Gateserver (delete fd (connection g)) (seen g).

(** A message of a socket that is not connected is dropped. *)
Definition dispatch_msg (g : gateserver) (x : Z * list Z) : gateserver :=
  let (fd, msg) := x in
  if bool_decide (connection g !! fd = Some true) then
    foldl closeclient (Gateserver (connection g) (seen g ++ [(fd, msg)])) (handler (seen g) fd msg)
  else g.

(** [dispatch_queue] *)
Fixpoint drain (fuel : nat) (g : gateserver) (st : option queue) : option (gateserver * option queue) :=
  match fuel with
  | O => None
  | S fuel =>
      '(np, st) ← lpop st;
      match np with
      | None => Some (g, st)
      | Some np => drain fuel (dispatch_msg g (np_id np, np_buffer np)) st
      end
  end.

(** [MSG.data] and [MSG.more] *)
Definition dispatch (g : gateserver) (st : option queue) (fd : Z) (chunk : list Z)
    : option (gateserver * option queue) :=
  '(res, st) ← lfilter st (mkSm 1 fd (Z.of_nat (length chunk)) (Some chunk) []);
  match res with
  | RData fd msg _ => Some (dispatch_msg g (fd, msg), st)
  | RMore => drain (S (Z.to_nat (nq_cap (get_queue st)))) g st
  | _ => Some (g, st)
  end.

Fixpoint gate (g : gateserver) (st : option queue) (chunks : list (Z * list Z))
    : option (gateserver * option queue) :=
  match chunks with
  | [] => Some (g, st)
  | (fd, chunk) :: chunks => '(g, st) ← dispatch g st fd chunk; gate g st chunks
  end.
End gateserver.

(** What belongs to one socket, in order. *)
Definition of_fd (fd : Z) (l : list (Z * list Z)) : list (list Z) :=
  snd <$> filter (λ x, x.1 = fd) l.

Lemma of_fd_app fd l l' : of_fd fd (l ++ l') = of_fd fd l ++ of_fd fd l'.
Proof. unfold of_fd. by rewrite filter_app, fmap_app. Qed.

Lemma of_fd_same fd ps : of_fd fd (map (λ p, (fd, p)) ps) = ps.
Proof.
  unfold of_fd. induction ps as [|p ps IH]; [done|]. cbn [map].
  rewrite filter_cons_True by done. cbn. by f_equal.
Qed.

Lemma of_fd_other fd fd' ps : fd ≠ fd' → of_fd fd (map (λ p, (fd', p)) ps) = [].
Proof.
  unfold of_fd. intros Hne. induction ps as [|p ps IH]; [done|]. cbn [map].
  rewrite filter_cons_False by (intros E; by apply Hne; symmetry). done.
Qed.

Lemma stream_app s fs r data fs' r' :
  stream s fs r → stream (r ++ data) fs' r' → stream (s ++ data) (fs ++ fs') r'.
Proof.
  intros (-> & Hf & Hr) (E & Hf' & Hr'). split; [|split; [by apply Forall_app|done]].
  by rewrite map_app, concat_app, <- !app_assoc, E.
Qed.

Lemma length_frames fs : Forall frame_ok fs → (length fs ≤ length (concat (map frame fs)))%nat.
Proof.
  induction 1 as [|p fs Hp Hf IH]; [done|]. cbn [map concat length]. rewrite length_app.
  destruct (frame_shape p Hp) as (? & ? & -> & _). cbn [length]. lia.
Qed.

Lemma length_incomplete r : incomplete r → Z.of_nat (length r) < 65538.
Proof.
  destruct r as [|b0 [|b1 body]]; cbn [length]; [lia..|].
  intros (? & ? & ?). unfold is_byte in *. lia.
Qed.

Lemma drain_spec handler n g st pend out :
  st_repr st pend out → (length out < n)%nat →
  ∃ st', drain handler n g st = Some (foldl (dispatch_msg handler) g out, st') ∧ st_repr st' pend [].
Proof.
  revert g st out. induction n as [|n IH]; intros g st out R Hn; [lia|]. cbn [drain].
  destruct out as [|[fd p] out].
  - rewrite (lpop_nil _ _ R). by exists st.
  - destruct (lpop_cons _ _ _ _ R) as (q & -> & R' & _). cbn [mbind option_bind].
    destruct (IH (dispatch_msg handler g (fd, p)) (Some q) out R') as (st' & E' & R''); [cbn [length] in Hn; lia|].
    by exists st'.
Qed.

Lemma dispatch_spec handler g st pend fd chunk fs r :
  st_repr st pend [] → fd_ok fd → chunk ≠ [] → Z.of_nat (length chunk) < 2 ^ 28 →
  stream (default [] (pend !! fd) ++ chunk) fs r → incomplete (default [] (pend !! fd)) →
  ∃ st', dispatch handler g st fd chunk = Some (foldl (dispatch_msg handler) g (map (λ p, (fd, p)) fs), st') ∧
    st_repr st' (set_pend fd r pend) [].
Proof.
  intros R Hfd Hne Hlen Hstr Hinc. unfold dispatch, lfilter. cbn [sm_buffer sm_type sm_ud sm_id].
  cbn [mbind option_bind]. rewrite c_assert_true by apply Z.eqb_refl.
  assert (Z.of_nat (length fs) < 2 ^ 29) as Hfs.
  { destruct Hstr as (E & Hf & _). apply length_frames in Hf. apply (f_equal length) in E.
    apply length_incomplete in Hinc. rewrite !length_app in E. lia. }
  destruct (filter_data_spec st pend [] fd chunk fs r R Hfd Hne Hstr) as (st1 & -> & R1); [done|].
  cbn [mbind option_bind].
  destruct fs as [|p [|p' fs]]; [by exists st1|destruct r as [|b r]; [by exists st1|]|];
    cbn [outcome fst snd app] in *;
    (eapply drain_spec; [done|]; pose proof (rk_lt _ _ _ _ _ (qr_ring _ _ _ R1)) as Hlt;
     rewrite length_map in Hlt; lia).
Qed.

Lemma lookup_set_pend fd r pend : default [] (set_pend fd r pend !! fd) = r.
Proof.
  unfold set_pend. case_decide as E.
  - by rewrite lookup_delete_eq, E.
  - by rewrite lookup_insert_eq.
Qed.

Lemma lookup_set_pend_ne fd fd' r pend : fd ≠ fd' → set_pend fd r pend !! fd' = pend !! fd'.
Proof. unfold set_pend. intros. case_decide; [by rewrite lookup_delete_ne|by rewrite lookup_insert_ne]. Qed.

Definition chunk_ok (x : Z * list Z) : Prop :=
  fd_ok x.1 ∧ x.2 ≠ [] ∧ Z.of_nat (length x.2) < 2 ^ 28 ∧ Forall is_byte x.2.

Definition pend_ok (pend : gmap Z (list Z)) : Prop :=
  ∀ fd, incomplete (default [] (pend !! fd)) ∧ Forall is_byte (default [] (pend !! fd)).

Lemma gate_spec handler g st pend chunks :
  st_repr st pend [] → pend_ok pend → Forall chunk_ok chunks →
  ∃ outs st' pend', gate handler g st chunks = Some (foldl (dispatch_msg handler) g outs, st') ∧ st_repr st' pend' [] ∧
    ∀ fd, stream (default [] (pend !! fd) ++ concat (of_fd fd chunks)) (of_fd fd outs)
            (default [] (pend' !! fd)).
Proof.
  intros R Hp Hc. revert g st pend R Hp. induction Hc as [|[fd chunk] chunks Hx Hc IH]; intros g st pend R Hp.
  { exists [], st, pend. split_and!; try done. intros fd. cbn. rewrite app_nil_r. split; [done|].
    split; [constructor|apply Hp]. }
  destruct Hx as (Hfd & Hne & Hlen & Hb). cbn [fst snd] in *. cbn [gate].
  destruct (stream_exists (default [] (pend !! fd) ++ chunk)) as (fs & r & Hstr).
  { apply Forall_app. split; [apply Hp|done]. }
  destruct (dispatch_spec handler g st pend fd chunk fs r) as (st1 & -> & R1); try done; [apply Hp|].
  cbn [mbind option_bind]. destruct (IH (foldl (dispatch_msg handler) g (map (λ p, (fd, p)) fs)) st1 (set_pend fd r pend) R1) as (outs & st' & pend' & -> & R' & Hs).
  { intros fd'. destruct (decide (fd = fd')) as [<-|Hn]; [|rewrite lookup_set_pend_ne by done; apply Hp].
    rewrite lookup_set_pend. destruct Hstr as (E & _ & Hr). split; [done|].
    assert (Forall is_byte (default [] (pend !! fd) ++ chunk)) as HB by (apply Forall_app; split; [apply Hp|done]).
    rewrite E in HB. by apply Forall_app in HB as [_ ?]. }
  cbn [mbind option_bind]. exists (map (λ p, (fd, p)) fs ++ outs), st', pend'. rewrite foldl_app. split_and!; [done..|].
  intros fd'. specialize (Hs fd'). rewrite of_fd_app. change ((fd, chunk) :: chunks) with (map (λ p, (fd, p)) [chunk] ++ chunks).
  rewrite of_fd_app, concat_app. destruct (decide (fd = fd')) as [<-|Hn].
  - rewrite lookup_set_pend in Hs. rewrite !of_fd_same. cbn [concat]. rewrite app_nil_r, app_assoc.
    by apply stream_app with r.
  - rewrite lookup_set_pend_ne in Hs by done. assert (fd' ≠ fd) by done. by rewrite !(of_fd_other fd' fd) by done.
Qed.

(** ** The contract: what an observer of the module sees *)

(** The packages a byte string holds, and its tail. *)
Fixpoint cut_fuel (fuel : nat) (s : list Z) : list (list Z) * list Z :=
  match fuel, s with
  | S fuel, b0 :: b1 :: body =>
      if Z.of_nat (length body) <? b0 * 256 + b1 then ([], s)
      else let n := Z.to_nat (b0 * 256 + b1) in
           let fr := cut_fuel fuel (drop n body) in (take n body :: fr.1, fr.2)
  | _, _ => ([], s)
  end.

Definition cut (s : list Z) : list (list Z) * list Z := cut_fuel (length s) s.

Lemma cut_frames fuel fs r :
  Forall frame_ok fs → incomplete r → (length (concat (map frame fs) ++ r) ≤ fuel)%nat →
  cut_fuel fuel (concat (map frame fs) ++ r) = (fs, r).
Proof.
  revert fs. induction fuel as [|fuel IH]; intros fs Hf Hr Hlen.
  { destruct (stream_tail_nil fs r Hf) as [-> ->]; [apply length_zero_iff_nil; lia|done]. }
  destruct fs as [|p fs].
  - cbn [map concat app] in *. destruct r as [|b0 [|b1 body]]; [done..|]. cbn [cut_fuel].
    destruct Hr as (_ & _ & Hlt). destruct (Z.ltb_spec (Z.of_nat (length body)) (b0 * 256 + b1)); [done|lia].
  - apply Forall_cons in Hf as [Hp Hf]. destruct (frame_shape p Hp) as (b0 & b1 & Ef & H0 & H1 & Hn).
    cbn [map concat] in *. rewrite Ef, <- app_assoc in *. cbn [app cut_fuel].
    rewrite Hn, length_app. destruct (Z.ltb_spec (Z.of_nat (length p + length (concat (map frame fs) ++ r))) (Z.of_nat (length p))); [lia|].
    rewrite take_app_exact, drop_app_exact by done. rewrite IH; [done..|].
    cbn [app length] in Hlen. rewrite length_app in Hlen. lia.
Qed.

Lemma cut_stream s fs r : stream s fs r → cut s = (fs, r).
Proof. intros (-> & Hf & Hr). by apply cut_frames. Qed.

(** What the users of the module do with it. *)
Inductive np_op := OFilter (fd : Z) (chunk : list Z) | OPop | OClose (fd : Z).

Inductive np_answer := AFilter (r : filter_result) | APop (np : option netpack) | AClose.

Definition np_step (st : option queue) (o : np_op) : option (np_answer * option queue) :=
  match o with
  | OFilter fd chunk =>
      '(r, st) ← lfilter st (mkSm 1 fd (Z.of_nat (length chunk)) (Some chunk) []); Some (AFilter r, st)
  | OPop => '(np, st) ← lpop st; Some (APop np, st)
  | OClose fd => '(_, st) ← lfilter st (mkSm 3 fd 0 None []); Some (AClose, st)
  end.

Fixpoint np_run (st : option queue) (os : list np_op) : option (list np_answer * option queue) :=
  match os with
  | [] => Some ([], st)
  | o :: os => '(a, st) ← np_step st o; '(l, st) ← np_run st os; Some (a :: l, st)
  end.

(** The specification keeps a byte string per socket and a list of packages. *)
Definition spec_state : Type := gmap Z (list Z) * list (Z * list Z).

Definition spec_step (s : spec_state) (o : np_op) : np_answer * spec_state :=
  match o with
  | OFilter fd chunk =>
      let fr := cut (default [] (s.1 !! fd) ++ chunk) in
      let res := outcome fd fr.1 fr.2 s.2 in
      (AFilter res.1, (set_pend fd fr.2 s.1, res.2))
  | OPop =>
      match s.2 with
      | [] => (APop None, s)
      | x :: out => (APop (Some (pack_of x)), (s.1, out))
      end
  | OClose fd => (AClose, (delete fd s.1, s.2))
  end.

Fixpoint spec_run (s : spec_state) (os : list np_op) : list np_answer :=
  match os with
  | [] => []
  | o :: os => (spec_step s o).1 :: spec_run (spec_step s o).2 os
  end.

Definition np_op_ok (o : np_op) : Prop :=
  match o with
  | OFilter fd chunk => chunk_ok (fd, chunk)
  | OPop => True
  | OClose fd => fd_ok fd
  end.

(** The packages that wait stay below [b] in the specification. *)
Fixpoint waiting_below (b : Z) (s : spec_state) (os : list np_op) : Prop :=
  match os with
  | [] => True
  | o :: os => Z.of_nat (length (spec_step s o).2.2) < b ∧ waiting_below b (spec_step s o).2 os
  end.

Lemma outcome_length fd fs r out : (length out + length fs ≤ length (outcome fd fs r out).2 + 1)%nat.
Proof.
  destruct fs as [|p [|p' fs]]; [cbn; lia|destruct r|]; cbn [outcome snd];
    rewrite ?length_app, ?length_map; cbn [length]; lia.
Qed.

Lemma np_step_spec st pend out o :
  st_repr st pend out → pend_ok pend → np_op_ok o →
  Z.of_nat (length (spec_step (pend, out) o).2.2) < 2 ^ 29 - 1 →
  ∃ st', np_step st o = Some ((spec_step (pend, out) o).1, st') ∧
    st_repr st' (spec_step (pend, out) o).2.1 (spec_step (pend, out) o).2.2 ∧
    pend_ok (spec_step (pend, out) o).2.1.
Proof.
  intros R Hp Ho Hload. destruct o as [fd chunk| |fd]; cbn [np_op_ok] in *.
  - destruct Ho as (Hfd & Hne & Hlen & Hb). cbn [fst snd] in *.
    assert (Forall is_byte (default [] (pend !! fd) ++ chunk)) as HB
      by (apply Forall_app; split; [apply Hp|done]).
    destruct (stream_exists _ HB) as (fs & r & Hstr). cbn [np_step spec_step fst snd] in *.
    rewrite (cut_stream _ _ _ Hstr) in *. cbn [fst snd] in *.
    pose proof Hstr as (E & Hf & Hr). pose proof (outcome_length fd fs r out).
    unfold lfilter. cbn [sm_buffer sm_type sm_ud sm_id]. cbn [mbind option_bind].
    rewrite c_assert_true by apply Z.eqb_refl.
    destruct (filter_data_spec st pend out fd chunk fs r) as (st' & -> & R'); try done; [lia|].
    exists st'. split_and!; try done.
    intros fd'. destruct (decide (fd = fd')) as [<-|]; [|rewrite lookup_set_pend_ne by done; apply Hp].
    rewrite lookup_set_pend. split; [done|]. rewrite E in HB. by apply Forall_app in HB as [_ ?].
  - destruct out as [|x out]; cbn [np_step spec_step fst snd].
    + rewrite (lpop_nil _ _ R). exists st. by split_and!.
    + destruct (lpop_cons _ _ _ _ R) as (q & -> & R' & _). exists (Some q). by split_and!.
  - destruct (close_spec st pend out fd R Ho) as (st' & E & R').
    cbn [np_step spec_step fst snd lfilter sm_type sm_id]. rewrite E. exists st'. split_and!; try done.
    intros fd'. destruct (decide (fd = fd')) as [<-|]; [by rewrite lookup_delete_eq|].
    rewrite lookup_delete_ne by done. apply Hp.
Qed.

Lemma np_run_spec st pend out os :
  st_repr st pend out → pend_ok pend → Forall np_op_ok os → waiting_below (2 ^ 29 - 1) (pend, out) os →
  ∃ st', np_run st os = Some (spec_run (pend, out) os, st').
Proof.
  intros R Hp Ho. revert st pend out R Hp. induction Ho as [|o os Ho Hos IH]; intros st pend out R Hp Hl.
  { by exists st. }
  destruct Hl as [Hl Hl']. destruct (np_step_spec st pend out o R Hp Ho Hl) as (st1 & E1 & R1 & Hp1).
  cbn [np_run spec_run]. rewrite E1. cbn [mbind option_bind].
  destruct (spec_step (pend, out) o) as [a [pend1 out1]]. cbn [fst snd] in *.
  destruct (IH st1 pend1 out1 R1 Hp1 Hl') as (st' & ->). by exists st'.
Qed.

Lemma lclear_spec st pend out :
  st_repr st pend out →
  ∃ st', lclear st = Some (map uc_buffer (concat (nq_hash (get_queue st))) ++ map snd out, st') ∧
    st_repr st' ∅ [].
Proof.
  intros [R1 R2 R3 R4 R5]. destruct st as [q|]; cycle 1.
  { destruct out as [|x out]; cycle 1.
    { destruct (ring_ok_empty _ _ _ _ _ R1) as [E _]. specialize (E eq_refl). done. }
    exists None. split; [|apply nq_repr_new]. unfold lclear. cbn [get_queue map].
    by rewrite app_nil_r, concat_new. }
  cbn [get_queue] in *. unfold lclear.
  assert ((if nq_tail q <? nq_head q then nq_tail q + nq_cap q else nq_tail q) - nq_head q =
    Z.of_nat (length out)) as Hn.
  { apply ring_ok_length in R1. rewrite length_map in R1. repeat case_match; lia. }
  assert (mapM (λ i, np ← aget (nq_queue q) (i mod nq_cap q); np_buffer <$> np)
    (seqZ (nq_head q) (Z.of_nat (length out))) = Some (map snd out)) as Hm.
  { apply mapM_Some, Forall2_same_length_lookup_2; [rewrite length_seqZ, length_map; lia|].
    intros i x y Hx Hy. apply lookup_seqZ in Hx as [-> Hi].
    apply list_lookup_fmap_Some in Hy as (m & -> & Hm).
    rewrite (rk_get _ _ _ _ _ R1 i (mkPack m.1 (Z.of_nat (length m.2)) m.2)); [done|].
    apply list_lookup_fmap_Some. by exists m. }
  cbn zeta. rewrite Hn, Hm. cbn [mbind option_bind]. eexists. split; [done|].
  assert (∀ fd, bucket_of (mkNq (nq_cap q) 0 0 (replicate (Z.to_nat HASHSIZE) []) (nq_queue q)) fd = []) as HB.
  { intros fd. by apply bucket_cleared. }
  split; cbn [get_queue nq_queue nq_cap nq_head nq_tail nq_hash].
  - apply ring_ok_nil; destruct R1; lia.
  - done.
  - rewrite length_replicate, Z2Nat.id; done.
  - intros fd _. rewrite HB. apply NoDup_nil_2.
  - intros fd _. rewrite HB, lookup_empty. constructor.
Qed.

(** ** Properties *)

(** C9: every sequence of [filter] calls on data and on
    closed sockets and of [pop] calls answers as the specification that keeps
    one byte string per socket and one list of packages: the hash table, the
    three ways to resume an unfinished package, the recursive cutting and the
    growing ring cannot be told apart from it, and nothing aborts.  The ids of sockets
    are at most 2^30, a piece of data has between 1 and 2^28 bytes, and fewer than
    2^29 - 1 packages wait at any time. *)
Theorem filter_trace_refines os :
  Forall np_op_ok os → waiting_below (2 ^ 29 - 1) (∅, []) os →
  ∃ st, np_run None os = Some (spec_run (∅, []) os, st).
Proof.
  intros Ho Hl. apply np_run_spec; [apply nq_repr_new| |done|done].
  intros fd. by rewrite lookup_empty.
Qed.

Lemma filter_trace_refines_witness :
  let os := [OFilter 5 [0]; OFilter 6 [0; 1; 7]; OFilter 5 [2; 8; 9; 0; 1; 4; 0]; OPop; OPop; OPop; OClose 5] in
  (Forall np_op_ok os ∧ waiting_below (2 ^ 29 - 1) (∅, []) os) ∧ ∃ st, np_run None os = Some (spec_run (∅, []) os, st).
Proof.
  intros os. assert (Forall np_op_ok os ∧ waiting_below (2 ^ 29 - 1) (∅, []) os) as [H1 H2].
  { split; [|by vm_compute]. unfold os, np_op_ok, chunk_ok, fd_ok, is_byte.
    repeat constructor; cbn; try lia; done. }
  split; [by split|]. exact (filter_trace_refines os H1 H2).
Defined.

(** after any sequence of operations, [clear] frees the buffer
    of every unfinished package in the hash table and of every package still in
    the ring, exactly those and in order, and leaves an empty queue. *)
Lemma clear_frees_all st pend out :
  st_repr st pend out →
  ∃ st', lclear st = Some (map uc_buffer (concat (nq_hash (get_queue st))) ++ map snd out, st') ∧
    ∀ os, Forall np_op_ok os → waiting_below (2 ^ 29 - 1) (∅, []) os →
      ∃ st'', np_run st' os = Some (spec_run (∅, []) os, st'').
Proof.
  intros R. destruct (lclear_spec _ _ _ R) as (st' & E & R'). exists st'. split; [done|].
  intros os Ho Hl. apply np_run_spec; [done| |done|done]. intros fd. by rewrite lookup_empty.
Qed.

(** What the handler sees of socket [fd] when the packages [outs] are dispatched: all of
    them, or those up to the message at which it closed the socket. *)
Lemma closeclients_spec l g :
  seen (foldl closeclient g l) = seen g ∧
  ∀ fd, connection (foldl closeclient g l) !! fd = if decide (fd ∈ l) then None else connection g !! fd.
Proof.
  revert g. induction l as [|fd' l IH]; intros g; cbn [foldl].
  { split; [done|]. intros fd. by rewrite decide_False by apply not_elem_of_nil. }
  destruct (IH (closeclient g fd')) as [-> H]. split; [done|]. intros fd. rewrite H. cbn.
  destruct (decide (fd ∈ l)); [by rewrite decide_True by (by right)|].
  destruct (decide (fd = fd')) as [->|Hne]; [by rewrite lookup_delete_eq, decide_True by left|].
  rewrite lookup_delete_ne by done. rewrite decide_False; [done|]. by intros [?|?]%elem_of_cons.
Qed.

Lemma dropped handler outs g fd : connection g !! fd ≠ Some true →
  connection (foldl (dispatch_msg handler) g outs) !! fd ≠ Some true ∧
  ∃ l, seen (foldl (dispatch_msg handler) g outs) = seen g ++ l ∧ of_fd fd l = [].
Proof.
  revert g. induction outs as [|[fd' msg] outs IH]; intros g Hc; cbn [foldl].
  { split; [done|]. exists []. by rewrite app_nil_r. }
  cbn [dispatch_msg]. case_bool_decide as Ec; [|by apply IH].
  set (g1 := Gateserver (connection g) (seen g ++ [(fd', msg)])).
  destruct (closeclients_spec (handler (seen g) fd' msg) g1) as [Es Hg]. set (g2 := foldl closeclient g1 _) in *.
  destruct (IH g2) as [H1 (l & El & Hl)].
  { rewrite Hg. by destruct (decide _). }
  split; [done|]. exists ((fd', msg) :: l). rewrite El, Es. cbn [seen g1]. rewrite <- app_assoc. split; [done|].
  unfold of_fd in *. rewrite filter_cons_False; [done|]. intros [= ->]. done.
Qed.

Lemma deliver_spec handler outs g fd : connection g !! fd = Some true →
  (∃ l, seen (foldl (dispatch_msg handler) g outs) = seen g ++ l ∧ of_fd fd l = of_fd fd outs) ∨
  ∃ k hist fd' msg rest, seen (foldl (dispatch_msg handler) g outs) = hist ++ (fd', msg) :: rest ∧
    fd ∈ handler hist fd' msg ∧ of_fd fd rest = [] ∧
    of_fd fd (hist ++ [(fd', msg)]) = of_fd fd (seen g) ++ take k (of_fd fd outs).
Proof.
  revert g. induction outs as [|[fd' msg] outs IH]; intros g Hc; cbn [foldl].
  { left. exists []. by rewrite app_nil_r. }
  change ((fd', msg) :: outs) with (map (λ p, (fd', p)) [msg] ++ outs). rewrite of_fd_app.
  cbn [dispatch_msg]. case_bool_decide as Ec.
  - set (g1 := Gateserver (connection g) (seen g ++ [(fd', msg)])).
    destruct (closeclients_spec (handler (seen g) fd' msg) g1) as [Es Hg]. set (g2 := foldl closeclient g1 _) in *.
    destruct (decide (fd ∈ handler (seen g) fd' msg)) as [Hin|Hin].
    + right. destruct (dropped handler outs g2 fd) as [_ (l & El & Hl)].
      { rewrite Hg. by destruct (decide _). }
      exists (length (of_fd fd (map (λ p, (fd', p)) [msg]))), (seen g), fd', msg, l.
      rewrite El, Es. cbn [seen g1]. rewrite <- app_assoc, take_app_length. split_and!; try done. by rewrite of_fd_app.
    + destruct (IH g2) as [(l & El & Hl)|(k & hist & fd2 & msg2 & rest & El & H1 & H2 & H3)].
      { rewrite Hg. by destruct (decide _). }
      * left. exists ((fd', msg) :: l). rewrite El, Es. cbn [seen g1]. rewrite <- app_assoc. split; [done|].
        change ((fd', msg) :: l) with (map (λ p, (fd', p)) [msg] ++ l). by rewrite of_fd_app, Hl.
      * right. exists (length (of_fd fd (map (λ p, (fd', p)) [msg])) + k)%nat, hist, fd2, msg2, rest. split_and!; try done.
        rewrite H3, Es. cbn [seen g1]. rewrite of_fd_app, <- app_assoc. f_equal.
        rewrite take_app_ge by lia. do 2 f_equal. lia.
  - assert (fd ≠ fd') as Hne by (by intros ->). rewrite (of_fd_other fd fd') by done. cbn [app]. by apply IH.
Qed.

(** C10: however the bytes of the packed messages of several
    sockets are cut into pieces and interleaved, a gate whose handler does not block
    gives the handler, for each connected socket, exactly its messages, in order, or
    those up to the message at which the handler closed the socket; and none of a socket
    that is not connected.  Meanwhile no socket opens, and none closes but by the handler;
    ids and pieces are bounded as in [filter_trace_refines]. *)
Theorem gate_reassembles handler conn chunks :
  Forall chunk_ok chunks →
  ∃ g st, gate handler (Gateserver conn []) None chunks = Some (g, st) ∧
    ∀ fd ms bs, Forall2 (λ m b, lpack m = inr b) ms bs → concat (of_fd fd chunks) = concat bs →
      if bool_decide (conn !! fd = Some true) then
        of_fd fd (seen g) = ms ∨
        ∃ k hist fd' msg rest, seen g = hist ++ (fd', msg) :: rest ∧ fd ∈ handler hist fd' msg ∧
          of_fd fd rest = [] ∧ of_fd fd (hist ++ [(fd', msg)]) = take k ms
      else of_fd fd (seen g) = [].
Proof.
  intros Hc. destruct (gate_spec handler (Gateserver conn []) None ∅ chunks) as (outs & st & pend & E & _ & Hs); try done.
  { apply nq_repr_new. }
  eexists _, st. split; [exact E|]. intros fd ms bs Hms Hbs. specialize (Hs fd).
  rewrite lookup_empty, Hbs in Hs. cbn [default from_option app] in Hs.
  assert (Forall frame_ok ms ∧ bs = map frame ms) as [Hf ->].
  { clear -Hms. induction Hms as [|m b ms bs Hm _ [Hf ->]]; [done|]. unfold lpack in Hm.
    destruct (Z.leb_spec 65536 (Z.of_nat (length m))); [done|]. split; [by constructor|].
    cbn [map]. f_equal. by injection Hm as <-. }
  assert (of_fd fd outs = ms) as <-.
  { destruct (stream_unique _ _ _ ms [] Hs) as [? _]; [|done]. split; [by rewrite app_nil_r|done]. }
  case_bool_decide as Hconn.
  - destruct (deliver_spec handler outs (Gateserver conn []) fd Hconn) as [(l & -> & Hl)|H]; [by left|by right].
  - destruct (dropped handler outs (Gateserver conn []) fd Hconn) as [_ (l & -> & Hl)]. done.
Qed.

(** The handler closes socket 6 at its first message. *)
Definition demo_handler (hist : list (Z * list Z)) (fd : Z) (msg : list Z) : list Z := if fd =? 6 then [6] else [].

Lemma gate_reassembles_witness :
  let chunks := [(5, [0]); (6, [0; 1; 7; 0]); (5, [2; 8; 9; 0; 1; 4]); (6, [2; 3; 3])] in
  let conn : gmap Z bool := {[5 := true; 6 := true]} in
  Forall chunk_ok chunks ∧
  ∃ g st, gate demo_handler (Gateserver conn []) None chunks = Some (g, st) ∧
    ∀ fd ms bs, Forall2 (λ m b, lpack m = inr b) ms bs → concat (of_fd fd chunks) = concat bs →
      if bool_decide (conn !! fd = Some true) then
        of_fd fd (seen g) = ms ∨
        ∃ k hist fd' msg rest, seen g = hist ++ (fd', msg) :: rest ∧ fd ∈ demo_handler hist fd' msg ∧
          of_fd fd rest = [] ∧ of_fd fd (hist ++ [(fd', msg)]) = take k ms
      else of_fd fd (seen g) = [].
Proof.
  intros chunks conn. assert (Forall chunk_ok chunks) as H.
  { unfold chunks, chunk_ok, fd_ok, is_byte. repeat constructor; cbn; try lia; done. }
  split; [done|]. exact (gate_reassembles demo_handler conn chunks H).
Defined.
