(* ===== verification/Bytes.v ===== *)
(** * Integers as byte strings

    Little and big endian encodings of fixed width, shared by the wire formats. *)
From S2P Require Import Prelude.
Local Open Scope Z_scope.

(** The [n] low bytes of [z], least significant first. *)
Fixpoint le_bytes (n : nat) (z : Z) : list Z :=
  match n with
  | O => []
  | S n => wrap 8 z :: le_bytes n (Z.shiftr z 8)
  end.

Fixpoint le_val (l : list Z) : Z :=
  match l with
  | [] => 0
  | b :: l => Z.lor b (Z.shiftl (le_val l) 8)
  end.

Definition be_bytes (n : nat) (z : Z) : list Z := rev (le_bytes n z).
Definition be_val (l : list Z) : Z := le_val (rev l).

Definition byte_ok (b : Z) : Prop := 0 ≤ b < 256.

Lemma length_le_bytes n z : length (le_bytes n z) = n.
Proof. revert z. induction n as [|n IH]; intros z; [done|]. cbn [le_bytes length]. by rewrite IH. Qed.

Lemma le_bytes_ok n z : Forall byte_ok (le_bytes n z).
Proof.
  revert z. induction n as [|n IH]; intros z; constructor; [|apply IH].
  apply (wrap_range 8). lia.
Qed.

Lemma le_val_cons b l : byte_ok b → le_val (b :: l) = b + le_val l * 256.
Proof.
  intros Hb. cbn [le_val]. rewrite Z.shiftl_mul_pow2 by lia. apply (lor_add b (le_val l) 8); [lia|exact Hb].
Qed.

Lemma le_val_range l : Forall byte_ok l → 0 ≤ le_val l < 2 ^ (8 * Z.of_nat (length l)).
Proof.
  induction 1 as [|b l Hb Hl IH]; [done|]. rewrite le_val_cons by done. cbn [length].
  replace (8 * Z.of_nat (S (length l))) with (8 + 8 * Z.of_nat (length l)) by lia.
  rewrite Z.pow_add_r by lia. change (2 ^ 8) with 256. unfold byte_ok in Hb. nia.
Qed.

Lemma le_val_bytes n z : le_val (le_bytes n z) = wrap (8 * Z.of_nat n) z.
Proof.
  revert z. induction n as [|n IH]; intros z.
  { unfold wrap. cbn. by rewrite Z.mod_1_r. }
  cbn [le_bytes]. rewrite le_val_cons by (apply (wrap_range 8); lia). rewrite IH.
  unfold wrap. rewrite Z.shiftr_div_pow2 by lia.
  replace (8 * Z.of_nat (S n)) with (8 + 8 * Z.of_nat n) by lia.
  rewrite Z.pow_add_r by lia. change (2 ^ 8) with 256.
  rewrite Z.rem_mul_r by lia. lia.
Qed.

Lemma le_bytes_val l : Forall byte_ok l → le_bytes (length l) (le_val l) = l.
Proof.
  induction 1 as [|b l Hb Hl IH]; [done|]. cbn [length le_bytes]. rewrite le_val_cons by done.
  unfold byte_ok in Hb. unfold wrap. rewrite Z.shiftr_div_pow2 by lia. change (2 ^ 8) with 256.
  rewrite Z_mod_plus_full, Z.mod_small, Z.div_add, Z.div_small by lia. by rewrite Z.add_0_l, IH.
Qed.

Lemma length_be_bytes n z : length (be_bytes n z) = n.
Proof. unfold be_bytes. by rewrite length_rev, length_le_bytes. Qed.

Lemma be_val_bytes n z : be_val (be_bytes n z) = wrap (8 * Z.of_nat n) z.
Proof. unfold be_val, be_bytes. rewrite rev_involutive. apply le_val_bytes. Qed.

#[export] Hint Resolve length_le_bytes le_bytes_ok length_be_bytes : cdb.

(** A property of all bytes, checked one by one. *)
Lemma byte_forall (P : Z → bool) :
  forallb P (map Z.of_nat (seq 0 256)) = true → ∀ b, byte_ok b → P b = true.
Proof.
  intros H b Hb. rewrite forallb_forall in H. apply H, in_map_iff. unfold byte_ok in Hb.
  exists (Z.to_nat b). split; [lia|]. apply in_seq. lia.
Qed.

Lemma lor_shiftl a b n : 0 ≤ n → 0 ≤ b < 2 ^ n → Z.lor (Z.shiftl a n) b = a * 2 ^ n + b.
Proof. intros. rewrite Z.lor_comm, Z.shiftl_mul_pow2, lor_add by done. lia. Qed.

Lemma land_low z n m : 0 ≤ n → m = 2 ^ n - 1 → Z.land z m = z mod 2 ^ n.
Proof. intros ? ->. by apply land_mask. Qed.

(** Shifted fields, the high ones first. *)
Lemma lor_fields a b n m : 0 ≤ m ≤ n → 0 ≤ b < 2 ^ (n - m) → Z.lor (Z.shiftl a n) (Z.shiftl b m) = Z.shiftl (a * 2 ^ (n - m) + b) m.
Proof.
  intros Hm Hb. rewrite <- lor_shiftl by lia. rewrite Z.shiftl_lor, Z.shiftl_shiftl by lia. do 2 f_equal. lia.
Qed.

Lemma le_bytes_lxor n x y : zip_with Z.lxor (le_bytes n x) (le_bytes n y) = le_bytes n (Z.lxor x y).
Proof.
  revert x y. induction n as [|n IH]; intros x y; [done|]. cbn [le_bytes zip_with]. rewrite IH, Z.shiftr_lxor. f_equal.
  unfold wrap. rewrite <- !Z.land_ones by lia. apply Z.bits_inj'. intros i Hi.
  rewrite !Z.lxor_spec, !Z.land_spec, Z.lxor_spec. by destruct (Z.testbit x i), (Z.testbit y i), (Z.testbit (Z.ones 8) i).
Qed.
