(* ===== verification/Seri.v ===== *)
(** * Lua value serialization: lualib-src/lua-seri.c

    [luaseri_pack] writes Lua values into a chain of blocks and copies the chain
    into one buffer; [luaseri_unpack] reads values back from an untrusted one.

    The Lua VM is vendored: of it the model uses tables as the list of their
    pairs in [lua_next] order, and what the sources leave to it stays a
    parameter (the border [lua_rawlen] returns, the keys a float stands for).
    A float and a pointer are their 64 bits.  Tables are fresh objects, so two
    of them are never the same key. *)
From S2P Require Import Prelude Bytes.
Local Open Scope Z_scope.

(** ** Outcomes: a Lua error is raised, or the process is in undefined behaviour *)

Inductive lua_error := EDepth | EType | EMeta | EStream | ETooBig | EKey | ENull.

Inductive res (A : Type) := Ok (a : A) | Err (e : lua_error) | Abort.
Arguments Ok {A} _.
Arguments Err {A} _.
Arguments Abort {A}.

#[export] Instance res_bind : MBind res := λ A B f m,
  match m with Ok a => f a | Err e => Err e | Abort => Abort end.

Definition of_option {A} (m : option A) : res A := match m with Some a => Ok a | None => Abort end.

(** ** Lua values *)

(** How the iteration of an object with a [__pairs] metamethod ends. *)
Inductive iter_end := IterDone | IterError.

(** [VMeta] has a [__pairs] that yields the pairs; [VOther] is a function, a
    full userdata or a thread. *)
Inductive lval :=
  | VNil
  | VBool (b : bool)
  | VInt (z : Z)
  | VReal (bits : Z)
  | VStr (s : list Z)
  | VPtr (p : Z)
  | VTab (pairs : list (lval * lval))
  | VMeta (pairs : list (lval * lval)) (e : iter_end)
  | VOther.

Definition TYPE_NIL : Z := 0.
Definition TYPE_BOOLEAN : Z := 1.
Definition TYPE_NUMBER : Z := 2.
Definition TYPE_NUMBER_ZERO : Z := 0.
Definition TYPE_NUMBER_BYTE : Z := 1.
Definition TYPE_NUMBER_WORD : Z := 2.
Definition TYPE_NUMBER_DWORD : Z := 4.
Definition TYPE_NUMBER_QWORD : Z := 6.
Definition TYPE_NUMBER_REAL : Z := 8.
Definition TYPE_USERDATA : Z := 3.
Definition TYPE_SHORT_STRING : Z := 4.
Definition TYPE_LONG_STRING : Z := 5.
Definition TYPE_TABLE : Z := 6.
Definition MAX_COOKIE : Z := 32.
Definition BLOCK_SIZE : Z := 128.
Definition MAX_DEPTH : nat := 32.

(** Stored in a [uint8_t]. *)
Definition COMBINE_TYPE (t v : Z) : Z := wrap 8 (Z.lor t (Z.shiftl v 3)).

(** ** Writing *)

(** [struct write_block]: the blocks before [current], the buffer of [current]
    (an unwritten cell is [None]), the total length and the position in it. *)
Record write_block := mkWb {
  wb_done : list (list (option Z)); wb_cur : list (option Z); wb_len : Z; wb_ptr : Z }.

Definition blk_alloc : list (option Z) := replicate (Z.to_nat BLOCK_SIZE) None.

Definition wb_init : write_block := mkWb [] blk_alloc 0 0.

(** [memcpy] into a block. *)
Definition blk_copy (blk : list (option Z)) (ptr : Z) (bytes : list Z) : res (list (option Z)) :=
  if (0 <=? ptr) && (ptr + Z.of_nat (length bytes) <=? Z.of_nat (length blk)) then
    Ok (take (Z.to_nat ptr) blk ++ map Some bytes ++
        drop (Z.to_nat ptr + length bytes) blk)
  else Abort.

(** [wb_push]: each round after the first fills a block of 128 bytes. *)
Fixpoint wb_push_loop (fuel : nat) (again : bool) (b : write_block) (buffer : list Z) : res write_block :=
  match fuel with
  | O => Abort
  | S fuel =>
      let b := if again || (wb_ptr b =? BLOCK_SIZE)
               then mkWb (wb_done b ++ [wb_cur b]) blk_alloc (wb_len b) 0 else b in
      let sz := Z.of_nat (length buffer) in
      if wb_ptr b <=? BLOCK_SIZE - sz then
        cur ← blk_copy (wb_cur b) (wb_ptr b) buffer;
        len ← of_option (c_int (wb_len b + sz));
        Ok (mkWb (wb_done b) cur len (wb_ptr b + sz))
      else
        let copy := BLOCK_SIZE - wb_ptr b in
        cur ← blk_copy (wb_cur b) (wb_ptr b) (take (Z.to_nat copy) buffer);
        len ← of_option (c_int (wb_len b + copy));
        wb_push_loop fuel true (mkWb (wb_done b) cur len (wb_ptr b)) (drop (Z.to_nat copy) buffer)
  end.

Definition wb_push (b : write_block) (buffer : list Z) : res write_block :=
  wb_push_loop (S (S (length buffer))) false b buffer.

(** [seri]: the first [len] bytes of the chain. *)
Fixpoint seri (blocks : list (list (option Z))) (len : Z) : res (list Z) :=
  if len <=? 0 then Ok []
  else match blocks with
  | [] => Abort
  | blk :: blocks =>
      if BLOCK_SIZE <=? len then
        l ← of_option (mapM id (take (Z.to_nat BLOCK_SIZE) blk));
        rest ← seri blocks (len - BLOCK_SIZE);
        Ok (l ++ rest)
      else of_option (mapM id (take (Z.to_nat len) blk))
  end.

Definition wb_nil (wb : write_block) : res write_block := wb_push wb [TYPE_NIL].

Definition wb_boolean (wb : write_block) (b : bool) : res write_block :=
  wb_push wb [COMBINE_TYPE TYPE_BOOLEAN (if b then 1 else 0)].

Definition wb_integer (wb : write_block) (v : Z) : res write_block :=
  let type := TYPE_NUMBER in
  if v =? 0 then wb_push wb [COMBINE_TYPE type TYPE_NUMBER_ZERO]
  else if negb (v =? swrap 32 v) then
    wb ← wb_push wb [COMBINE_TYPE type TYPE_NUMBER_QWORD]; wb_push wb (le_bytes 8 v)
  else if v <? 0 then
    wb ← wb_push wb [COMBINE_TYPE type TYPE_NUMBER_DWORD]; wb_push wb (le_bytes 4 v)
  else if v <? 0x100 then
    wb ← wb_push wb [COMBINE_TYPE type TYPE_NUMBER_BYTE]; wb_push wb (le_bytes 1 v)
  else if v <? 0x10000 then
    wb ← wb_push wb [COMBINE_TYPE type TYPE_NUMBER_WORD]; wb_push wb (le_bytes 2 v)
  else
    wb ← wb_push wb [COMBINE_TYPE type TYPE_NUMBER_DWORD]; wb_push wb (le_bytes 4 v).

Definition wb_real (wb : write_block) (bits : Z) : res write_block :=
  wb ← wb_push wb [COMBINE_TYPE TYPE_NUMBER TYPE_NUMBER_REAL]; wb_push wb (le_bytes 8 bits).

Definition wb_pointer (wb : write_block) (p : Z) : res write_block :=
  wb ← wb_push wb [TYPE_USERDATA]; wb_push wb (le_bytes 8 p).

(** [wb_string]; [pack_one] casts the length to [int].  With a negative one the
    short branch is taken and no bytes are written. *)
Definition wb_string (wb : write_block) (str : list Z) : res write_block :=
  let len := swrap 32 (Z.of_nat (length str)) in
  if len <? MAX_COOKIE then
    wb ← wb_push wb [COMBINE_TYPE TYPE_SHORT_STRING len];
    if 0 <? len then wb_push wb str else Ok wb
  else
    wb ← (if len <? 0x10000 then
            wb ← wb_push wb [COMBINE_TYPE TYPE_LONG_STRING 2]; wb_push wb (le_bytes 2 len)
          else
            wb ← wb_push wb [COMBINE_TYPE TYPE_LONG_STRING 4]; wb_push wb (le_bytes 4 len));
    wb_push wb str.

(** [lua_rawgeti] *)
Fixpoint rawgeti (pairs : list (lval * lval)) (i : Z) : lval :=
  match pairs with
  | [] => VNil
  | (VInt j, v) :: pairs => if i =? j then v else rawgeti pairs i
  | _ :: pairs => rawgeti pairs i
  end.

(** A key [wb_table_hash] skips. *)
Definition in_array (array_size : Z) (k : lval) : bool :=
  match k with VInt x => (0 <? x) && (x <=? array_size) | _ => false end.

Fixpoint pack_values (pack : lval → write_block → res write_block) (l : list lval)
    (wb : write_block) : res write_block :=
  match l with
  | [] => Ok wb
  | v :: l => wb ← pack v wb; pack_values pack l wb
  end.

Fixpoint pack_pairs (pack : lval → write_block → res write_block) (l : list (lval * lval))
    (wb : write_block) : res write_block :=
  match l with
  | [] => Ok wb
  | (k, v) :: l => wb ← pack k wb; wb ← pack v wb; pack_pairs pack l wb
  end.

Section lua.
(** [lua_rawlen] of a table; the integer a float key is converted to, and
    whether it is a NaN. *)
Context (border : list (lval * lval) → Z) (float_key : Z → option Z) (is_nan : Z → bool).

(** [wb_table_array]; [lua_rawlen] is cut to an [int]. *)
Definition wb_table_array (pack : lval → write_block → res write_block)
    (pairs : list (lval * lval)) (wb : write_block) : res (Z * write_block) :=
  let array_size := swrap 32 (border pairs) in
  wb ← (if MAX_COOKIE - 1 <=? array_size then
          wb ← wb_push wb [COMBINE_TYPE TYPE_TABLE (MAX_COOKIE - 1)]; wb_integer wb array_size
        else wb_push wb [COMBINE_TYPE TYPE_TABLE array_size]);
  wb ← pack_values pack (map (rawgeti pairs) (seqZ 1 array_size)) wb;
  Ok (array_size, wb).

Definition wb_table_hash (pack : lval → write_block → res write_block)
    (pairs : list (lval * lval)) (array_size : Z) (wb : write_block) : res write_block :=
  wb ← pack_pairs pack (filter (λ x, in_array array_size x.1 = false) pairs) wb;
  wb_nil wb.

Definition wb_table_metapairs (pack : lval → write_block → res write_block)
    (pairs : list (lval * lval)) (e : iter_end) (wb : write_block) : res write_block :=
  wb ← wb_push wb [COMBINE_TYPE TYPE_TABLE 0];
  wb ← pack_pairs pack pairs wb;
  match e with IterDone => wb_nil wb | IterError => Err EMeta end.

(** [pack_one] at depth [MAX_DEPTH + 1 - room]. *)
Fixpoint pack_one (room : nat) (v : lval) (wb : write_block) : res write_block :=
  match room with
  | O => Err EDepth
  | S room =>
      match v with
      | VNil => wb_nil wb
      | VInt z => wb_integer wb z
      | VReal bits => wb_real wb bits
      | VBool b => wb_boolean wb b
      | VStr s => wb_string wb s
      | VPtr p => wb_pointer wb p
      | VTab pairs =>
          '(array_size, wb) ← wb_table_array (pack_one room) pairs wb;
          wb_table_hash (pack_one room) pairs array_size wb
      | VMeta pairs e => wb_table_metapairs (pack_one room) pairs e wb
      | VOther => Err EType
      end
  end.

Definition luaseri_pack (args : list lval) : res (list Z) :=
  wb ← pack_values (pack_one (S MAX_DEPTH)) args wb_init;
  seri (wb_done wb ++ [wb_cur wb]) (wb_len wb).

(** ** Reading *)

Record read_block := mkRb { rb_buffer : list Z; rb_len : Z; rb_ptr : Z }.

(** The [n] bytes at a pointer into the buffer; to read any outside of it is a fault. *)
Definition bytes_at (buffer : list Z) (ptr n : Z) : res (list Z) :=
  if (0 <=? ptr) && (ptr + n <=? Z.of_nat (length buffer)) then
    Ok (take (Z.to_nat n) (drop (Z.to_nat ptr) buffer))
  else Abort.

(** [rb_read], and what its caller reads through the pointer; [None] is the null
    pointer.  Nothing is read when the size is negative. *)
Definition rb_read (rb : read_block) (sz : Z) : res (option (list Z * read_block)) :=
  if rb_len rb <? sz then Ok None
  else
    p ← bytes_at (rb_buffer rb) (rb_ptr rb) (Z.max 0 sz);
    Ok (Some (p, mkRb (rb_buffer rb) (rb_len rb - sz) (rb_ptr rb + sz))).

(** A read that is not enough raises "Invalid serialize stream". *)
Definition read (rb : read_block) (sz : Z) : res (list Z * read_block) :=
  r ← rb_read rb sz;
  match r with Some r => Ok r | None => Err EStream end.

Definition get_integer (rb : read_block) (cookie : Z) : res (Z * read_block) :=
  if cookie =? TYPE_NUMBER_ZERO then Ok (0, rb)
  else if cookie =? TYPE_NUMBER_BYTE then '(p, rb) ← read rb 1; Ok (le_val p, rb)
  else if cookie =? TYPE_NUMBER_WORD then '(p, rb) ← read rb 2; Ok (le_val p, rb)
  else if cookie =? TYPE_NUMBER_DWORD then '(p, rb) ← read rb 4; Ok (swrap 32 (le_val p), rb)
  else if cookie =? TYPE_NUMBER_QWORD then '(p, rb) ← read rb 8; Ok (swrap 64 (le_val p), rb)
  else Err EStream.

Definition get_real (rb : read_block) : res (Z * read_block) :=
  '(p, rb) ← read rb 8; Ok (le_val p, rb).

Definition get_pointer (rb : read_block) : res (Z * read_block) :=
  '(p, rb) ← read rb 8; Ok (le_val p, rb).

(** [get_buffer]: the length is an [int]; a negative one passes the check of
    [rb_read] and [lua_pushlstring] then rejects it as a size. *)
Definition get_buffer (rb : read_block) (len : Z) : res (list Z * read_block) :=
  '(p, rb) ← read rb len;
  if len <? 0 then Err ETooBig else Ok (p, rb).

(** ** Filling a table *)

(** [lua_rawequal] on keys. *)
Definition raw_eq (a b : lval) : bool :=
  match a, b with
  | VBool x, VBool y => eqb x y
  | VInt x, VInt y => x =? y
  | VReal x, VReal y => x =? y
  | VStr x, VStr y => bool_decide (x = y)
  | VPtr x, VPtr y => x =? y
  | _, _ => false
  end.

Definition is_nil (v : lval) : bool := match v with VNil => true | _ => false end.

(** Storing a value; nil clears the entry. *)
Fixpoint tab_set (pairs : list (lval * lval)) (k v : lval) : list (lval * lval) :=
  match pairs with
  | [] => if is_nil v then [] else [(k, v)]
  | (k', v') :: pairs =>
      if raw_eq k' k then if is_nil v then pairs else (k', v) :: pairs
      else (k', v') :: tab_set pairs k v
  end.

(** [lua_rawset]: nil and NaN are no keys, a float with an integer value is the
    integer. *)
Definition rawset (pairs : list (lval * lval)) (k v : lval) : res (list (lval * lval)) :=
  match k with
  | VNil => Err EKey
  | VReal bits =>
      if is_nan bits then Err EKey
      else Ok (tab_set pairs (match float_key bits with Some i => VInt i | None => k end) v)
  | _ => Ok (tab_set pairs k v)
  end.

(** The loops of [unpack_table], given [unpack_one]; every round reads a byte. *)
Fixpoint array_loop (fuel : nat) (un : read_block → res (lval * read_block)) (i array_size : Z)
    (pairs : list (lval * lval)) (rb : read_block) : res (list (lval * lval) * read_block) :=
  match fuel with
  | O => Abort
  | S fuel =>
      if i <=? array_size then
        '(v, rb) ← un rb;
        array_loop fuel un (i + 1) array_size (tab_set pairs (VInt i) v) rb
      else Ok (pairs, rb)
  end.

Fixpoint hash_loop (fuel : nat) (un : read_block → res (lval * read_block))
    (pairs : list (lval * lval)) (rb : read_block) : res (list (lval * lval) * read_block) :=
  match fuel with
  | O => Abort
  | S fuel =>
      '(k, rb) ← un rb;
      if is_nil k then Ok (pairs, rb)
      else
        '(v, rb) ← un rb;
        pairs ← rawset pairs k v;
        hash_loop fuel un pairs rb
  end.

(** The array size of [unpack_table]: the cookie, or a number that follows. *)
Definition table_size (cookie : Z) (rb : read_block) : res (Z * read_block) :=
  if cookie =? MAX_COOKIE - 1 then
    '(t, rb) ← read rb 1;
    let type := le_val t in
    let cookie := Z.shiftr type 3 in
    if negb (Z.land type 7 =? TYPE_NUMBER) || (cookie =? TYPE_NUMBER_REAL) then Err EStream
    else '(n, rb) ← get_integer rb cookie; Ok (swrap 32 n, rb)
  else Ok (cookie, rb).

Definition unpack_table (fuel : nat) (un : read_block → res (lval * read_block))
    (array_size : Z) (rb : read_block) : res (lval * read_block) :=
  '(array_size, rb) ← table_size array_size rb;
  '(pairs, rb) ← array_loop fuel un 1 array_size [] rb;
  '(pairs, rb) ← hash_loop fuel un pairs rb;
  Ok (VTab pairs, rb).

Definition push_value (fuel : nat) (un : read_block → res (lval * read_block))
    (type cookie : Z) (rb : read_block) : res (lval * read_block) :=
  if type =? TYPE_NIL then Ok (VNil, rb)
  else if type =? TYPE_BOOLEAN then Ok (VBool (negb (cookie =? 0)), rb)
  else if type =? TYPE_NUMBER then
    if cookie =? TYPE_NUMBER_REAL then '(x, rb) ← get_real rb; Ok (VReal x, rb)
    else '(x, rb) ← get_integer rb cookie; Ok (VInt x, rb)
  else if type =? TYPE_USERDATA then '(p, rb) ← get_pointer rb; Ok (VPtr p, rb)
  else if type =? TYPE_SHORT_STRING then '(s, rb) ← get_buffer rb cookie; Ok (VStr s, rb)
  else if type =? TYPE_LONG_STRING then
    if cookie =? 2 then
      '(p, rb) ← read rb 2; '(s, rb) ← get_buffer rb (le_val p); Ok (VStr s, rb)
    else if negb (cookie =? 4) then Err EStream
    else '(p, rb) ← read rb 4; '(s, rb) ← get_buffer rb (swrap 32 (le_val p)); Ok (VStr s, rb)
  else if type =? TYPE_TABLE then unpack_table fuel un cookie rb
  else Err EStream.

Fixpoint unpack_one (fuel : nat) (rb : read_block) : res (lval * read_block) :=
  match fuel with
  | O => Abort
  | S fuel =>
      '(t, rb) ← read rb 1;
      push_value fuel (unpack_one fuel) (Z.land (le_val t) 7) (Z.shiftr (le_val t) 3) rb
  end.

(** The loop of [luaseri_unpack]: values to the end of the buffer. *)
Fixpoint unpack_loop (fuel : nat) (rb : read_block) : res (list lval) :=
  match fuel with
  | O => Abort
  | S fuel =>
      r ← rb_read rb 1;
      match r with
      | None => Ok []
      | Some (t, rb) =>
          '(v, rb) ← push_value fuel (unpack_one fuel) (Z.land (le_val t) 7) (Z.shiftr (le_val t) 3) rb;
          l ← unpack_loop fuel rb;
          Ok (v :: l)
      end
  end.

(** [luaseri_unpack]: the buffer is a string, or a pointer ([None] when null)
    with a length. *)
Definition luaseri_unpack (buffer : option (list Z)) (len : Z) : res (list lval) :=
  if len =? 0 then Ok []
  else match buffer with
  | None => Err ENull
  | Some buffer => unpack_loop (S (Z.to_nat len)) (mkRb buffer len 0)
  end.
End lua.
