(* ===== verification/SeriSpec.v ===== *)
(** * Serialization round trip

    The block chain of [Seri] holds the concatenation of what was pushed, so
    packing is a function to byte strings; unpacking inverts it up to the order
    of table entries, and ends on every input. *)
From S2P Require Import Prelude Bytes Seri.
Local Open Scope Z_scope.

(** ** The block chain *)

Record wb_repr (wb : write_block) (bs : list Z) : Prop := {
  wr_done : Forall (λ b, length b = Z.to_nat BLOCK_SIZE) (wb_done wb);
  wr_cur : length (wb_cur wb) = Z.to_nat BLOCK_SIZE;
  wr_ptr : 0 ≤ wb_ptr wb ≤ BLOCK_SIZE;
  wr_bytes : concat (wb_done wb) ++ take (Z.to_nat (wb_ptr wb)) (wb_cur wb) = map Some bs;
  wr_len : wb_len wb = Z.of_nat (length bs);
  wr_max : wb_len wb ≤ INT_MAX }.

Lemma wb_repr_init : wb_repr wb_init [].
Proof. by split. Qed.

Lemma blk_copy_spec blk ptr bytes :
  length blk = Z.to_nat BLOCK_SIZE → 0 ≤ ptr → ptr + Z.of_nat (length bytes) ≤ BLOCK_SIZE →
  ∃ blk', blk_copy blk ptr bytes = Ok blk' ∧ length blk' = Z.to_nat BLOCK_SIZE ∧
    take (Z.to_nat (ptr + Z.of_nat (length bytes))) blk' = take (Z.to_nat ptr) blk ++ map Some bytes.
Proof.
  unfold BLOCK_SIZE. intros Hl Hp Hs. unfold blk_copy.
  assert ((0 <=? ptr) && (ptr + Z.of_nat (length bytes) <=? Z.of_nat (length blk)) = true) as -> by lia.
  eexists. split; [done|]. split.
  - rewrite !length_app, length_take, length_drop, length_map. lia.
  - rewrite app_assoc, take_app_le by (rewrite length_app, length_take, length_map; lia).
    apply take_ge. rewrite length_app, length_take, length_map. lia.
Qed.

(** A push appends, unless the total length overflows an [int]. *)
Definition appended (r : res write_block) (bs e : list Z) : Prop :=
  (∃ wb', r = Ok wb' ∧ wb_repr wb' (bs ++ e)) ∨
  (r = Abort ∧ INT_MAX < Z.of_nat (length bs) + Z.of_nat (length e)).

Lemma fresh_block wb bs :
  wb_repr (mkWb (wb_done wb) (wb_cur wb) (wb_len wb) BLOCK_SIZE) bs →
  wb_repr (mkWb (wb_done wb ++ [wb_cur wb]) blk_alloc (wb_len wb) 0) bs.
Proof.
  intros [H1 H2 H3 H4 H5 H6]. cbn [wb_done wb_cur wb_len wb_ptr] in *. split; try done.
  - apply Forall_app. by split; [|constructor].
  - cbn [wb_done wb_ptr wb_cur]. rewrite <- H4, concat_app. cbn [concat].
    replace (take (Z.to_nat 0) blk_alloc) with (@nil (option Z)) by done.
    rewrite !app_nil_r. f_equal. symmetry. apply take_ge. lia.
Qed.

Lemma push_round wb bs bytes :
  wb_repr wb bs → wb_ptr wb + Z.of_nat (length bytes) ≤ BLOCK_SIZE →
  ∃ cur, blk_copy (wb_cur wb) (wb_ptr wb) bytes = Ok cur ∧
    (c_int (wb_len wb + Z.of_nat (length bytes)) = None ∧
       INT_MAX < Z.of_nat (length bs) + Z.of_nat (length bytes) ∨
     c_int (wb_len wb + Z.of_nat (length bytes)) = Some (wb_len wb + Z.of_nat (length bytes)) ∧
     wb_repr (mkWb (wb_done wb) cur (wb_len wb + Z.of_nat (length bytes))
                (wb_ptr wb + Z.of_nat (length bytes))) (bs ++ bytes)).
Proof.
  intros [H1 H2 H3 H4 H5 H6] Hs.
  destruct (blk_copy_spec (wb_cur wb) (wb_ptr wb) bytes H2 ltac:(lia) Hs) as (cur & E & Hl & Ht).
  exists cur. split; [done|]. destruct (Z.leb_spec (wb_len wb + Z.of_nat (length bytes)) INT_MAX).
  - right. split; [apply c_int_Some; unfold INT_MIN in *; lia|]. split; cbn [wb_done wb_cur wb_len wb_ptr].
    + done.
    + done.
    + lia.
    + by rewrite Ht, app_assoc, H4, map_app.
    + rewrite length_app. lia.
    + lia.
  - left. split; [|lia]. unfold c_int, in_int. assert (wb_len wb + Z.of_nat (length bytes) <=? INT_MAX = false) as -> by lia.
    by rewrite andb_false_r.
Qed.

Lemma push_loop_spec fuel (again : bool) wb bs buffer :
  wb_repr (if again then mkWb (wb_done wb) (wb_cur wb) (wb_len wb) BLOCK_SIZE else wb) bs →
  (length buffer < fuel)%nat → appended (wb_push_loop fuel again wb buffer) bs buffer.
Proof.
  revert again wb bs buffer. induction fuel as [|fuel IH]; intros again wb bs buffer R Hf; [lia|].
  cbn [wb_push_loop].
  set (wb1 := if orb again (wb_ptr wb =? BLOCK_SIZE)
    then mkWb (wb_done wb ++ [wb_cur wb]) blk_alloc (wb_len wb) 0 else wb).
  assert (wb_repr wb1 bs ∧ wb_ptr wb1 < BLOCK_SIZE) as [R1 Hp].
  { subst wb1. destruct again; cbn [orb].
    - split; [by apply fresh_block|]. done.
    - destruct (Z.eqb_spec (wb_ptr wb) BLOCK_SIZE) as [E|E].
      + split; [|done]. apply fresh_block. rewrite <- E. by destruct wb.
      + split; [done|]. pose proof (wr_ptr _ _ R). lia. }
  clearbody wb1. pose proof (wr_ptr _ _ R1) as Hp0.
  destruct (Z.leb_spec (wb_ptr wb1) (BLOCK_SIZE - Z.of_nat (length buffer))) as [Hle|Hgt].
  - destruct (push_round wb1 bs buffer R1 ltac:(lia)) as (cur & -> & [[-> Hov]|[-> R2]]); cbn [mbind res_bind of_option].
    + by right.
    + left. by eexists.
  - set (copy := BLOCK_SIZE - wb_ptr wb1) in *.
    assert (Z.of_nat (length (take (Z.to_nat copy) buffer)) = copy) as Hc by (rewrite length_take; lia).
    destruct (push_round wb1 bs (take (Z.to_nat copy) buffer) R1 ltac:(lia)) as (cur & -> & H).
    rewrite Hc in H. destruct H as [[-> Hov]|[-> R2]]; cbn [mbind res_bind of_option].
    + right. split; [done|]. lia.
    + destruct (IH true (mkWb (wb_done wb1) cur (wb_len wb1 + copy) (wb_ptr wb1))
        (bs ++ take (Z.to_nat copy) buffer) (drop (Z.to_nat copy) buffer)) as [(wb' & E & R')|[E Hov]].
      * cbn [wb_done wb_cur wb_len]. by replace (wb_ptr wb1 + copy) with BLOCK_SIZE in R2 by lia.
      * rewrite length_drop. lia.
      * left. exists wb'. split; [done|]. by rewrite <- app_assoc, take_drop in R'.
      * right. split; [done|]. rewrite length_app, length_take, length_drop in Hov. lia.
Qed.

Lemma wb_push_spec wb bs buffer : wb_repr wb bs → appended (wb_push wb buffer) bs buffer.
Proof. intros R. apply push_loop_spec; [done|lia]. Qed.

Lemma mapM_id_Some {A} (l : list A) : mapM id (map Some l) = Some l.
Proof. induction l as [|x l IH]; [done|]. cbn. by rewrite IH. Qed.

Lemma seri_spec blocks bs :
  Forall (λ b, length b = Z.to_nat BLOCK_SIZE) blocks →
  (∃ tl, concat blocks = map Some bs ++ tl) → seri blocks (Z.of_nat (length bs)) = Ok bs.
Proof.
  intros Hb. revert bs. induction Hb as [|blk blocks Hl Hb IH]; intros bs [tl E]; cbn [seri].
  - destruct bs; [done|done].
  - destruct (Z.leb_spec (Z.of_nat (length bs)) 0) as [H0|H0].
    { by destruct bs; [|cbn [length] in H0; lia]. }
    cbn [concat] in E. destruct (Z.leb_spec BLOCK_SIZE (Z.of_nat (length bs))) as [H1|H1].
    + assert (take (Z.to_nat BLOCK_SIZE) blk = map Some (take (Z.to_nat BLOCK_SIZE) bs)) as E1.
      { apply (f_equal (take (Z.to_nat BLOCK_SIZE))) in E.
        rewrite take_app_le, take_app_le in E by (rewrite ?length_map; lia).
        by rewrite E, <- firstn_map. }
      rewrite E1, mapM_id_Some. cbn [of_option mbind res_bind].
      replace (Z.of_nat (length bs) - BLOCK_SIZE) with (Z.of_nat (length (drop (Z.to_nat BLOCK_SIZE) bs)))
        by (rewrite length_drop; unfold BLOCK_SIZE in *; lia).
      rewrite (IH (drop (Z.to_nat BLOCK_SIZE) bs)); [cbn [mbind res_bind]; by rewrite take_drop|].
      exists tl. apply (f_equal (drop (Z.to_nat BLOCK_SIZE))) in E.
      rewrite drop_app_ge, drop_app_le in E by (rewrite ?length_map; lia).
      rewrite Hl, Nat.sub_diag, drop_0 in E. by rewrite E, <- skipn_map.
    + assert (take (Z.to_nat (Z.of_nat (length bs))) blk = map Some bs) as ->.
      { rewrite Nat2Z.id. apply (f_equal (take (length bs))) in E.
        rewrite take_app_le, take_app_le in E by (rewrite ?length_map; unfold BLOCK_SIZE in *; lia).
        rewrite E. apply take_ge. by rewrite length_map. }
      by rewrite mapM_id_Some.
Qed.

Lemma seri_repr wb bs : wb_repr wb bs → seri (wb_done wb ++ [wb_cur wb]) (wb_len wb) = Ok bs.
Proof.
  intros [H1 H2 H3 H4 H5 H6]. rewrite H5. apply seri_spec.
  - apply Forall_app. by split; [|constructor].
  - exists (drop (Z.to_nat (wb_ptr wb)) (wb_cur wb)). rewrite concat_app. cbn [concat].
    by rewrite app_nil_r, <- H4, <- app_assoc, take_drop.
Qed.

(** ** Packing as a function to bytes *)

(** [m] appends the bytes of [r], or raises its error; only a total length
    beyond [INT_MAX] gets in the way. *)
Definition writes (m : write_block → res write_block) (r : res (list Z)) : Prop :=
  ∀ wb bs, wb_repr wb bs →
    match r with
    | Ok e => appended (m wb) bs e
    | Err err => m wb = Err err ∨ m wb = Abort
    | Abort => False
    end.

Lemma writes_push buffer : writes (λ wb, wb_push wb buffer) (Ok buffer).
Proof. intros wb bs R. by apply wb_push_spec. Qed.

Lemma writes_ret : writes Ok (Ok []).
Proof. intros wb bs R. left. exists wb. by rewrite app_nil_r. Qed.

Lemma writes_bind m1 m2 e1 r2 :
  writes m1 (Ok e1) → writes m2 r2 → writes (λ wb, wb ← m1 wb; m2 wb) (e2 ← r2; Ok (e1 ++ e2)).
Proof.
  intros H1 H2 wb bs R. specialize (H1 wb bs R).
  destruct H1 as [(wb1 & -> & R1)|[-> Hov]]; cbn [mbind res_bind].
  - specialize (H2 wb1 _ R1). destruct r2 as [e2|err|]; cbn [mbind res_bind]; [|done..].
    destruct H2 as [(wb2 & -> & R2)|[-> Hov]].
    + left. exists wb2. by rewrite app_assoc.
    + right. split; [done|]. rewrite length_app in *. lia.
  - destruct r2 as [e2|err|]; cbn [mbind res_bind].
    + right. split; [done|]. rewrite length_app. lia.
    + by right.
    + exact (H2 wb bs R).
Qed.

Lemma writes_bind_err m1 m2 err : writes m1 (Err err) → writes (λ wb, wb ← m1 wb; m2 wb) (Err err).
Proof. intros H1 wb bs R. destruct (H1 wb bs R) as [->| ->]; [by left|by right]. Qed.

Lemma writes_app m1 m2 e1 e2 :
  writes m1 (Ok e1) → writes m2 (Ok e2) → writes (λ wb, wb ← m1 wb; m2 wb) (Ok (e1 ++ e2)).
Proof. intros H1 H2. exact (writes_bind m1 m2 e1 (Ok e2) H1 H2). Qed.

Definition enc_integer (v : Z) : list Z :=
  if v =? 0 then [COMBINE_TYPE TYPE_NUMBER TYPE_NUMBER_ZERO]
  else if negb (v =? swrap 32 v) then [COMBINE_TYPE TYPE_NUMBER TYPE_NUMBER_QWORD] ++ le_bytes 8 v
  else if v <? 0 then [COMBINE_TYPE TYPE_NUMBER TYPE_NUMBER_DWORD] ++ le_bytes 4 v
  else if v <? 0x100 then [COMBINE_TYPE TYPE_NUMBER TYPE_NUMBER_BYTE] ++ le_bytes 1 v
  else if v <? 0x10000 then [COMBINE_TYPE TYPE_NUMBER TYPE_NUMBER_WORD] ++ le_bytes 2 v
  else [COMBINE_TYPE TYPE_NUMBER TYPE_NUMBER_DWORD] ++ le_bytes 4 v.

Lemma writes_integer v : writes (λ wb, wb_integer wb v) (Ok (enc_integer v)).
Proof.
  unfold wb_integer, enc_integer.
  repeat match goal with |- context [if ?b then _ else _] => destruct b end;
    try apply writes_push; apply writes_app; apply writes_push.
Qed.

Definition enc_string (str : list Z) : list Z :=
  let len := swrap 32 (Z.of_nat (length str)) in
  if len <? MAX_COOKIE then
    [COMBINE_TYPE TYPE_SHORT_STRING len] ++ if 0 <? len then str else []
  else if len <? 0x10000 then ([COMBINE_TYPE TYPE_LONG_STRING 2] ++ le_bytes 2 len) ++ str
  else ([COMBINE_TYPE TYPE_LONG_STRING 4] ++ le_bytes 4 len) ++ str.

Lemma writes_string str : writes (λ wb, wb_string wb str) (Ok (enc_string str)).
Proof.
  unfold wb_string, enc_string. destruct (_ <? MAX_COOKIE).
  - apply writes_app; [apply writes_push|]. destruct (0 <? _); [apply writes_push|apply writes_ret].
  - destruct (_ <? 0x10000); (apply writes_app; [|apply writes_push]);
      apply writes_app; apply writes_push.
Qed.

Fixpoint enc_values (enc : lval → res (list Z)) (l : list lval) : res (list Z) :=
  match l with
  | [] => Ok []
  | v :: l => e ← enc v; es ← enc_values enc l; Ok (e ++ es)
  end.

Fixpoint enc_pairs (enc : lval → res (list Z)) (l : list (lval * lval)) : res (list Z) :=
  match l with
  | [] => Ok []
  | (k, v) :: l => a ← enc k; b ← enc v; es ← enc_pairs enc l; Ok (a ++ b ++ es)
  end.

Lemma writes_ext m m' r : (∀ wb, m wb = m' wb) → writes m r → writes m' r.
Proof. intros E H wb bs R. rewrite <- E. by apply H. Qed.

Lemma writes_seq m1 m2 r1 r2 :
  writes m1 r1 → writes m2 r2 →
  writes (λ wb, wb ← m1 wb; m2 wb) (e1 ← r1; e2 ← r2; Ok (e1 ++ e2)).
Proof.
  intros H1 H2. destruct r1 as [e1|err|].
  - exact (writes_bind m1 m2 e1 r2 H1 H2).
  - by apply writes_bind_err.
  - intros wb bs R. exact (H1 wb bs R).
Qed.

Lemma writes_values pack enc l :
  (∀ v, writes (pack v) (enc v)) → writes (pack_values pack l) (enc_values enc l).
Proof.
  intros H. induction l as [|v l IH]; [apply writes_ret|]. cbn [pack_values enc_values].
  by apply writes_seq.
Qed.

Lemma writes_pairs pack enc l :
  (∀ v, writes (pack v) (enc v)) → writes (pack_pairs pack l) (enc_pairs enc l).
Proof.
  intros H. induction l as [|[k v] l IH]; [apply writes_ret|]. cbn [pack_pairs enc_pairs].
  pose proof (writes_seq (pack k) _ (enc k) _ (H k) (writes_seq (pack v) _ (enc v) _ (H v) IH)) as HW.
  intros wb bs R. specialize (HW wb bs R).
  destruct (enc k) as [a|err|], (enc v) as [b|err'|], (enc_pairs enc l) as [es|err''|];
    cbn [mbind res_bind] in *; done.
Qed.

Section lua.
Context (border : list (lval * lval) → Z) (float_key : Z → option Z) (is_nan : Z → bool).

Definition enc_header (n : Z) : list Z :=
  if MAX_COOKIE - 1 <=? n then [COMBINE_TYPE TYPE_TABLE (MAX_COOKIE - 1)] ++ enc_integer n
  else [COMBINE_TYPE TYPE_TABLE n].

Lemma writes_header n :
  writes (λ wb, if MAX_COOKIE - 1 <=? n then
      wb ← wb_push wb [COMBINE_TYPE TYPE_TABLE (MAX_COOKIE - 1)]; wb_integer wb n
    else wb_push wb [COMBINE_TYPE TYPE_TABLE n]) (Ok (enc_header n)).
Proof.
  unfold enc_header. destruct (_ <=? n); [|apply writes_push].
  apply writes_app; [apply writes_push|apply writes_integer].
Qed.

Definition array_part (pairs : list (lval * lval)) : list lval :=
  map (rawgeti pairs) (seqZ 1 (swrap 32 (border pairs))).

Definition hash_part (pairs : list (lval * lval)) : list (lval * lval) :=
  filter (λ x, in_array (swrap 32 (border pairs)) x.1 = false) pairs.

Fixpoint enc (room : nat) (v : lval) : res (list Z) :=
  match room with
  | O => Err EDepth
  | S room =>
      match v with
      | VNil => Ok [TYPE_NIL]
      | VInt z => Ok (enc_integer z)
      | VReal bits => Ok ([COMBINE_TYPE TYPE_NUMBER TYPE_NUMBER_REAL] ++ le_bytes 8 bits)
      | VBool b => Ok [COMBINE_TYPE TYPE_BOOLEAN (if b then 1 else 0)]
      | VStr s => Ok (enc_string s)
      | VPtr p => Ok ([TYPE_USERDATA] ++ le_bytes 8 p)
      | VTab pairs =>
          a ← enc_values (enc room) (array_part pairs);
          h ← enc_pairs (enc room) (hash_part pairs);
          Ok (enc_header (swrap 32 (border pairs)) ++ a ++ h ++ [TYPE_NIL])
      | VMeta pairs e =>
          h ← enc_pairs (enc room) pairs;
          match e with
          | IterDone => Ok ([COMBINE_TYPE TYPE_TABLE 0] ++ h ++ [TYPE_NIL])
          | IterError => Err EMeta
          end
      | VOther => Err EType
      end
  end.

Lemma writes_one room v : writes (pack_one border room v) (enc room v).
Proof.
  revert v. induction room as [|room IH]; intros v; [by left|]. cbn [pack_one enc].
  destruct v as [|b|z|bits|s|p|pairs|pairs e|].
  - apply writes_push.
  - apply writes_push.
  - apply writes_integer.
  - apply writes_app; apply writes_push.
  - apply writes_string.
  - apply writes_app; apply writes_push.
  - pose proof (writes_seq _ _ _ _ (writes_values _ _ (array_part pairs) IH)
      (writes_seq _ _ _ _ (writes_pairs _ _ (hash_part pairs) IH) (writes_push [TYPE_NIL]))) as H.
    pose proof (writes_bind _ _ _ _ (writes_header (swrap 32 (border pairs))) H) as HW. clear H.
    intros wb bs R. specialize (HW wb bs R). unfold wb_table_array, wb_table_hash.
    fold (array_part pairs). fold (hash_part pairs).
    set (m := if MAX_COOKIE - 1 <=? swrap 32 (border pairs) then _ else _) in *.
    assert (∀ X : Z * write_block → res write_block,
      ((wb0 ← m; wb1 ← pack_values (pack_one border room) (array_part pairs) wb0;
        Ok (swrap 32 (border pairs), wb1)) ≫= X) =
      (wb0 ← m; wb1 ← pack_values (pack_one border room) (array_part pairs) wb0;
        X (swrap 32 (border pairs), wb1))) as EX.
    { intros X. destruct m as [w|err|]; cbn [mbind res_bind]; [|done..].
      by destruct (pack_values _ _ w). }
    rewrite EX. unfold hash_part, array_part in HW |- *.
    destruct (enc_values _ _) as [a|err|], (enc_pairs _ _) as [h|err'|]; cbn [mbind res_bind] in *; try done.
  - destruct e.
    + pose proof (writes_bind _ _ _ _ (writes_push [COMBINE_TYPE TYPE_TABLE 0])
        (writes_seq _ _ _ _ (writes_pairs _ _ pairs IH) (writes_push [TYPE_NIL]))) as HW.
      intros wb bs R. specialize (HW wb bs R). unfold wb_table_metapairs, wb_nil.
      destruct (enc_pairs _ _) as [h|err'|]; cbn [mbind res_bind] in *; done.
    + assert (writes (λ _ : write_block, Err EMeta) (Err EMeta)) as HE by (intros wb bs R; by left).
      pose proof (writes_bind _ _ _ _ (writes_push [COMBINE_TYPE TYPE_TABLE 0])
        (writes_seq _ _ _ _ (writes_pairs _ _ pairs IH) HE)) as HW.
      intros wb bs R. specialize (HW wb bs R). unfold wb_table_metapairs.
      destruct (enc_pairs _ _) as [h|err'|]; cbn [mbind res_bind] in *; done.
  - by left.
Qed.

(** What [luaseri_pack] returns. *)
Lemma pack_spec args :
  match enc_values (enc (S MAX_DEPTH)) args with
  | Ok bytes => luaseri_pack border args = Ok bytes ∨
      (luaseri_pack border args = Abort ∧ INT_MAX < Z.of_nat (length bytes))
  | Err err => luaseri_pack border args = Err err ∨ luaseri_pack border args = Abort
  | Abort => False
  end.
Proof.
  pose proof (writes_values _ _ args (writes_one (S MAX_DEPTH)) wb_init [] wb_repr_init) as H.
  unfold luaseri_pack. destruct (enc_values _ args) as [bytes|err|]; [| |done].
  - destruct H as [(wb & -> & R)|[-> Hov]]; cbn [mbind res_bind].
    + left. by apply seri_repr.
    + by right.
  - destruct H as [-> | ->]; [by left|by right].
Qed.
End lua.

(** ** Reading back *)

(** [rb] is about to read [s]. *)
Record rb_repr (rb : read_block) (s : list Z) : Prop := {
  rr_rest : drop (Z.to_nat (rb_ptr rb)) (rb_buffer rb) = s;
  rr_len : rb_len rb = Z.of_nat (length s);
  rr_ptr : 0 ≤ rb_ptr rb ≤ Z.of_nat (length (rb_buffer rb)) }.

Lemma rb_repr_start bytes : rb_repr (mkRb bytes (Z.of_nat (length bytes)) 0) bytes.
Proof. split; cbn; [done|done|lia]. Qed.

Lemma read_spec rb e s n :
  rb_repr rb (e ++ s) → n = Z.of_nat (length e) →
  ∃ rb', read rb n = Ok (e, rb') ∧ rb_repr rb' s.
Proof.
  intros [H1 H2 H3] ->. unfold read, rb_read, bytes_at. rewrite H2, length_app.
  destruct (Z.ltb_spec (Z.of_nat (length e + length s)) (Z.of_nat (length e))); [lia|].
  pose proof (f_equal length H1) as Hl. rewrite length_drop, length_app in Hl.
  rewrite Z.max_r by lia.
  assert ((0 <=? rb_ptr rb) && (rb_ptr rb + Z.of_nat (length e) <=? Z.of_nat (length (rb_buffer rb))) = true) as -> by lia.
  rewrite H1, Nat2Z.id, take_app_length. eexists. split; [done|]. split; cbn [rb_ptr rb_buffer rb_len].
  - replace (Z.to_nat (rb_ptr rb + Z.of_nat (length e))) with (Z.to_nat (rb_ptr rb) + length e)%nat by lia.
    by rewrite <- drop_drop, H1, drop_app_length.
  - lia.
  - lia.
Qed.


Lemma rb_read_short rb s n : rb_repr rb s → Z.of_nat (length s) < n → rb_read rb n = Ok None.
Proof. intros [H1 H2 H3] Hn. unfold rb_read. by destruct (Z.ltb_spec (rb_len rb) n); [|lia]. Qed.


Lemma le_val_single b : le_val [b] = b.
Proof. cbn [le_val]. by rewrite Z.shiftl_0_l, Z.lor_0_r. Qed.

Lemma combine_type t v : 0 ≤ t < 8 → 0 ≤ v < 32 →
  Z.land (COMBINE_TYPE t v) 7 = t ∧ Z.shiftr (COMBINE_TYPE t v) 3 = v.
Proof.
  intros Ht Hv. unfold COMBINE_TYPE. rewrite Z.shiftl_mul_pow2, lor_add by lia. change (2 ^ 3) with 8.
  rewrite wrap_small by lia. change 7 with (2 ^ 3 - 1). rewrite land_mask, Z.shiftr_div_pow2 by lia.
  change (2 ^ 3) with 8. split; lia.
Qed.

Lemma get_integer_spec v rb s :
  - 2 ^ 63 ≤ v < 2 ^ 63 → rb_repr rb (enc_integer v ++ s) →
  ∃ c e rb1 rb2, enc_integer v = COMBINE_TYPE TYPE_NUMBER c :: e ∧ 0 ≤ c < 32 ∧ c ≠ TYPE_NUMBER_REAL ∧
    read rb 1 = Ok ([COMBINE_TYPE TYPE_NUMBER c], rb1) ∧ rb_repr rb1 (e ++ s) ∧
    get_integer rb1 c = Ok (v, rb2) ∧ rb_repr rb2 s.
Proof.
  intros Hv R.
  assert (∃ c e, enc_integer v = COMBINE_TYPE TYPE_NUMBER c :: e ∧ 0 ≤ c < 32 ∧ c ≠ TYPE_NUMBER_REAL ∧
    (c = 0 ∧ e = [] ∧ v = 0 ∨ c = 1 ∧ e = le_bytes 1 v ∧ 0 ≤ v < 2 ^ 8 ∨
     c = 2 ∧ e = le_bytes 2 v ∧ 0 ≤ v < 2 ^ 16 ∨ c = 4 ∧ e = le_bytes 4 v ∧ - 2 ^ 31 ≤ v < 2 ^ 31 ∨
     c = 6 ∧ e = le_bytes 8 v)) as (c & e & Ee & Hc & Hcr & Hcase).
  { unfold enc_integer. destruct (Z.eqb_spec v 0) as [->|Hv0].
    { exists 0, []. repeat split; try done; try lia. by left. }
    destruct (Z.eqb_spec v (swrap 32 v)) as [E32|N32]; cbn [negb].
    2: { exists 6, (le_bytes 8 v). repeat split; try done. do 4 right. done. }
    pose proof (swrap_range 32 v ltac:(lia)) as Hr. rewrite <- E32 in Hr. change (2 ^ (32 - 1)) with (2 ^ 31) in Hr.
    destruct (Z.ltb_spec v 0).
    { exists 4, (le_bytes 4 v). repeat split; try done. do 3 right. left. done. }
    destruct (Z.ltb_spec v 0x100).
    { exists 1, (le_bytes 1 v). repeat split; try done. right. left. done. }
    destruct (Z.ltb_spec v 0x10000).
    { exists 2, (le_bytes 2 v). repeat split; try done. do 2 right. left. done. }
    exists 4, (le_bytes 4 v). repeat split; try done. do 3 right. left. done. }
  rewrite Ee in R. change (COMBINE_TYPE TYPE_NUMBER c :: e) with ([COMBINE_TYPE TYPE_NUMBER c] ++ e) in R.
  rewrite <- app_assoc in R.
  destruct (read_spec rb _ _ 1 R eq_refl) as (rb1 & Er & R1).
  assert (∃ rb2, get_integer rb1 c = Ok (v, rb2) ∧ rb_repr rb2 s) as (rb2 & Eg & R2).
  { unfold get_integer.
    destruct Hcase as [(-> & -> & ->)|[(-> & -> & Hr)|[(-> & -> & Hr)|[(-> & -> & Hr)|(-> & ->)]]]].
    - by exists rb1.
    - destruct (read_spec _ _ _ 1 R1 eq_refl) as (rb2 & -> & R2). exists rb2. split; [|done].
      cbn -[le_bytes le_val]. rewrite le_val_bytes. by rewrite wrap_small by lia.
    - destruct (read_spec _ _ _ 2 R1 eq_refl) as (rb2 & -> & R2). exists rb2. split; [|done].
      cbn -[le_bytes le_val]. rewrite le_val_bytes. by rewrite wrap_small by lia.
    - destruct (read_spec _ _ _ 4 R1 eq_refl) as (rb2 & -> & R2). exists rb2. split; [|done].
      cbn -[le_bytes le_val]. rewrite le_val_bytes. change (8 * Z.of_nat 4) with 32.
      rewrite swrap_wrap by lia. by rewrite swrap_small by lia.
    - destruct (read_spec _ _ _ 8 R1 eq_refl) as (rb2 & -> & R2). exists rb2. split; [|done].
      cbn -[le_bytes le_val]. rewrite le_val_bytes. change (8 * Z.of_nat 8) with 64.
      rewrite swrap_wrap by lia. by rewrite swrap_small by lia. }
  by exists c, e, rb1, rb2.
Qed.

(** The same value up to the identity of tables and the order of their pairs. *)
Inductive sim : lval → lval → Prop :=
  | sim_nil : sim VNil VNil
  | sim_bool b : sim (VBool b) (VBool b)
  | sim_int z : sim (VInt z) (VInt z)
  | sim_real bits : sim (VReal bits) (VReal bits)
  | sim_str s : sim (VStr s) (VStr s)
  | sim_ptr p : sim (VPtr p) (VPtr p)
  | sim_tab ps qs ps' :
      ps ≡ₚ qs → Forall2 (λ x y, sim x.1 y.1 ∧ sim x.2 y.2) qs ps' → sim (VTab ps) (VTab ps')
  | sim_meta ps ps' :
      Forall2 (λ x y, sim x.1 y.1 ∧ sim x.2 y.2) ps ps' → sim (VMeta ps IterDone) (VTab ps').

Section decode.
Context (border : list (lval * lval) → Z) (float_key : Z → option Z) (is_nan : Z → bool).

(** A key of a table as Lua stores it. *)
Definition key_ok (k : lval) : Prop :=
  k ≠ VNil ∧ ∀ bits, k = VReal bits → is_nan bits = false ∧ float_key bits = None.

(** Distinct keys, no nil values. *)
Definition pairs_ok (ps : list (lval * lval)) : Prop :=
  Forall (λ x, key_ok x.1 ∧ x.2 ≠ VNil) ps ∧
  ForallOrdPairs (λ x y, raw_eq x.1 y.1 = false) ps.

(** Lua values: integers and floats of 64 bits, strings of less than 2 GB,
    tables with a border an [int] can hold. *)
Inductive wf : lval → Prop :=
  | wf_nil : wf VNil
  | wf_bool b : wf (VBool b)
  | wf_int z : - 2 ^ 63 ≤ z < 2 ^ 63 → wf (VInt z)
  | wf_real bits : 0 ≤ bits < 2 ^ 64 → wf (VReal bits)
  | wf_str s : Z.of_nat (length s) ≤ INT_MAX → wf (VStr s)
  | wf_ptr p : 0 ≤ p < 2 ^ 64 → wf (VPtr p)
  | wf_tab ps : pairs_ok ps → 0 ≤ border ps ≤ INT_MAX → (ps = [] → border ps = 0) →
      Forall (λ x, wf x.1 ∧ wf x.2) ps → wf (VTab ps)
  | wf_meta ps e : pairs_ok ps → Forall (λ x, wf x.1 ∧ wf x.2) ps → wf (VMeta ps e)
  | wf_other : wf VOther.

(** [un] reads [v] from the bytes [e]. *)
Definition decodes (un : read_block → res (lval * read_block)) (limit : nat) (e : list Z) (v : lval) : Prop :=
  ∀ rb s, rb_repr rb (e ++ s) → (length (e ++ s) < limit)%nat →
    ∃ rb', un rb = Ok (v, rb') ∧ rb_repr rb' s.

Lemma push_value_reads fuel un t c e rb s v :
  0 ≤ t < 8 → 0 ≤ c < 32 →
  rb_repr rb ((COMBINE_TYPE t c :: e) ++ s) →
  (∀ rb1, rb_repr rb1 (e ++ s) → ∃ rb', push_value float_key is_nan fuel un t c rb1 = Ok (v, rb') ∧ rb_repr rb' s) →
  ∃ rb', ('(t, rb) ← read rb 1;
    push_value float_key is_nan fuel un (Z.land (le_val t) 7) (Z.shiftr (le_val t) 3) rb) = Ok (v, rb') ∧
    rb_repr rb' s.
Proof.
  intros Ht Hc R H. change ((COMBINE_TYPE t c :: e) ++ s) with ([COMBINE_TYPE t c] ++ (e ++ s)) in R.
  destruct (read_spec _ _ _ 1 R eq_refl) as (rb1 & -> & R1). cbn [mbind res_bind].
  rewrite le_val_single. destruct (combine_type t c Ht Hc) as [-> ->]. by apply H.
Qed.

Lemma get_buffer_spec rb str s :
  rb_repr rb (str ++ s) → ∃ rb', get_buffer rb (Z.of_nat (length str)) = Ok (str, rb') ∧ rb_repr rb' s.
Proof.
  intros R. unfold get_buffer. destruct (read_spec _ _ _ _ R eq_refl) as (rb' & -> & R').
  cbn [mbind res_bind]. destruct (Z.ltb_spec (Z.of_nat (length str)) 0); [lia|]. by exists rb'.
Qed.

Lemma string_shape str :
  Z.of_nat (length str) ≤ INT_MAX →
  Z.of_nat (length str) < 32 ∧ enc_string str = COMBINE_TYPE TYPE_SHORT_STRING (Z.of_nat (length str)) :: str ∨
  32 ≤ Z.of_nat (length str) < 2 ^ 16 ∧
    enc_string str = COMBINE_TYPE TYPE_LONG_STRING 2 :: (le_bytes 2 (Z.of_nat (length str)) ++ str) ∨
  2 ^ 16 ≤ Z.of_nat (length str) ∧
    enc_string str = COMBINE_TYPE TYPE_LONG_STRING 4 :: (le_bytes 4 (Z.of_nat (length str)) ++ str).
Proof.
  intros Hl. unfold enc_string. change INT_MAX with (2 ^ 31 - 1) in Hl.
  rewrite swrap_small by (change (32 - 1) with 31; lia).
  destruct (Z.ltb_spec (Z.of_nat (length str)) MAX_COOKIE) as [H|H]; unfold MAX_COOKIE in H.
  - left. split; [done|]. destruct (Z.ltb_spec 0 (Z.of_nat (length str))); [done|].
    by destruct str; [|cbn [length] in *; lia].
  - right. destruct (Z.ltb_spec (Z.of_nat (length str)) 0x10000).
    + left. split; [lia|done].
    + right. split; [lia|done].
Qed.

Lemma decode_string fuel un str rb s :
  Z.of_nat (length str) ≤ INT_MAX → rb_repr rb (enc_string str ++ s) →
  ∃ rb', ('(t, rb) ← read rb 1;
    push_value float_key is_nan fuel un (Z.land (le_val t) 7) (Z.shiftr (le_val t) 3) rb) = Ok (VStr str, rb') ∧
    rb_repr rb' s.
Proof.
  intros Hl R. pose proof Hl as Hl'. change INT_MAX with (2 ^ 31 - 1) in Hl'.
  destruct (string_shape str Hl) as [[H ->]|[[H ->]|[H ->]]] in R |- *.
  - eapply (push_value_reads _ _ TYPE_SHORT_STRING (Z.of_nat (length str))); [done|lia|exact R|].
    intros rb1 R1. destruct (get_buffer_spec _ _ _ R1) as (rb' & E & R'). exists rb'. split; [|done].
    change (('(s, rb) ← get_buffer rb1 (Z.of_nat (length str)); Ok (VStr s, rb)) = Ok (VStr str, rb')).
    by rewrite E.
  - eapply (push_value_reads _ _ TYPE_LONG_STRING 2); [done|done|exact R|]. intros rb1 R1. rewrite <- app_assoc in R1.
    destruct (read_spec _ _ _ 2 R1 eq_refl) as (rb2 & E2 & R2).
    destruct (get_buffer_spec _ _ _ R2) as (rb' & E & R'). exists rb'. split; [|done].
    change (('(p, rb) ← read rb1 2; '(s, rb) ← get_buffer rb (le_val p); Ok (VStr s, rb)) = Ok (VStr str, rb')).
    rewrite E2. cbn [mbind res_bind]. rewrite le_val_bytes, wrap_small by lia. by rewrite E.
  - eapply (push_value_reads _ _ TYPE_LONG_STRING 4); [done|done|exact R|]. intros rb1 R1. rewrite <- app_assoc in R1.
    destruct (read_spec _ _ _ 4 R1 eq_refl) as (rb2 & E2 & R2).
    destruct (get_buffer_spec _ _ _ R2) as (rb' & E & R'). exists rb'. split; [|done].
    change (('(p, rb) ← read rb1 4; '(s, rb) ← get_buffer rb (swrap 32 (le_val p)); Ok (VStr s, rb)) = Ok (VStr str, rb')).
    rewrite E2. cbn [mbind res_bind]. rewrite le_val_bytes. change (8 * Z.of_nat 4) with 32. rewrite swrap_wrap by lia.
    rewrite swrap_small by (change (32 - 1) with 31; lia). by rewrite E.
Qed.

(** ** The two loops *)

Fixpoint entries (i : Z) (l : list lval) : list (lval * lval) :=
  match l with
  | [] => []
  | v :: l => (if is_nil v then [] else [(VInt i, v)]) ++ entries (i + 1) l
  end.

Lemma tab_set_new pairs k v :
  Forall (λ x, raw_eq x.1 k = false) pairs →
  tab_set pairs k v = pairs ++ if is_nil v then [] else [(k, v)].
Proof.
  induction 1 as [|[k' v'] pairs Hk Hp IH]; [done|]. cbn [tab_set fst] in *. rewrite Hk.
  by rewrite IH.
Qed.

Lemma array_loop_spec fuel un limit es l i n pairs rb s :
  Forall2 (decodes un limit) es l → Forall (λ e, e ≠ []) es → n = i - 1 + Z.of_nat (length l) →
  rb_repr rb (concat es ++ s) → (length (concat es ++ s) < limit)%nat → (length (concat es ++ s) < fuel)%nat →
  Forall (λ x, ∃ j, x.1 = VInt j ∧ j < i) pairs →
  ∃ rb', array_loop fuel un i n pairs rb = Ok (pairs ++ entries i l, rb') ∧ rb_repr rb' s.
Proof.
  intros H. revert fuel i pairs rb. induction H as [|e v es l He Hes IH]; intros fuel i pairs rb Hne Hn R Hlim Hf Hp;
    (destruct fuel as [|fuel]; [lia|]); cbn [array_loop].
  - cbn [length] in Hn. destruct (Z.leb_spec i n); [lia|]. exists rb. cbn [entries]. by rewrite app_nil_r.
  - apply Forall_cons in Hne as [Hne Hnes]. cbn [concat length] in *. rewrite <- app_assoc in *.
    destruct (Z.leb_spec i n); [|lia]. destruct (He rb (concat es ++ s) R Hlim) as (rb1 & -> & R1).
    cbn [mbind res_bind].
    assert (0 < length e)%nat by (destruct e; [done|cbn; lia]). rewrite (length_app e) in *.
    rewrite tab_set_new.
    2: { eapply Forall_impl; [exact Hp|]. intros x (j & Ej & Hj). rewrite Ej. cbn. lia. }
    destruct (IH fuel (i + 1) (pairs ++ (if is_nil v then [] else [(VInt i, v)])) rb1) as (rb' & -> & R'); try done; try lia.
    + apply Forall_app. split.
      * eapply Forall_impl; [exact Hp|]. intros x (j & Ej & Hj). exists j. split; [done|lia].
      * destruct (is_nil v); constructor; [|done]. exists i. split; [done|lia].
    + exists rb'. split; [|done]. cbn [entries]. by rewrite <- app_assoc.
Qed.

Lemma rawset_ok pairs k v : key_ok k → rawset float_key is_nan pairs k v = Ok (tab_set pairs k v).
Proof.
  intros [Hn Hr]. destruct k; cbn [rawset]; try done. destruct (Hr bits eq_refl) as [-> ->]. done.
Qed.

Lemma hash_loop_spec fuel un limit (es : list (list Z * list Z)) ps pairs rb s :
  Forall2 (λ e x, decodes un limit e.1 x.1 ∧ decodes un limit e.2 x.2) es ps →
  decodes un limit [TYPE_NIL] VNil →
  Forall (λ e, e.1 ≠ []) es → Forall (λ x, key_ok x.1 ∧ x.2 ≠ VNil) ps →
  ForallOrdPairs (λ x y, raw_eq x.1 y.1 = false) ps →
  Forall (λ y, Forall (λ x, raw_eq x.1 y.1 = false) pairs) ps →
  let bytes := concat (map (λ e, e.1 ++ e.2) es) ++ [TYPE_NIL] ++ s in
  rb_repr rb bytes → (length bytes < limit)%nat → (length bytes < fuel)%nat →
  ∃ rb', hash_loop float_key is_nan fuel un pairs rb = Ok (pairs ++ ps, rb') ∧ rb_repr rb' s.
Proof.
  intros H Hnil. revert fuel pairs rb.
  induction H as [|[e1 e2] [k v] es ps [He1 He2] Hes IH]; intros fuel pairs rb Hne Hok Hord Hnew bytes R Hlim Hf;
    subst bytes; (destruct fuel as [|fuel]; [lia|]); cbn [hash_loop].
  - cbn [map concat app] in *. destruct (Hnil rb s) as (rb' & -> & R'); [done|exact Hlim|].
    cbn [mbind res_bind is_nil]. exists rb'. by rewrite app_nil_r.
  - apply Forall_cons in Hne as [Hne Hnes]. apply Forall_cons in Hok as [[Hk Hv] Hok].
    apply Forall_cons in Hnew as [Hnk Hnew]. inversion Hord as [|? ? Ho1 Ho2]; subst.
    cbn [fst snd map concat] in *. rewrite <- !app_assoc in *.
    assert (0 < length e1)%nat by (destruct e1; [done|cbn; lia]).
    pose proof (length_app e1 (e2 ++ concat (map (λ e, e.1 ++ e.2) es) ++ [TYPE_NIL] ++ s)) as L1.
    pose proof (length_app e2 (concat (map (λ e, e.1 ++ e.2) es) ++ [TYPE_NIL] ++ s)) as L2.
    destruct (He1 rb _ R Hlim) as (rb1 & -> & R1). cbn [mbind res_bind].
    assert (is_nil k = false) as -> by (destruct Hk as [? _]; by destruct k).
    destruct (He2 rb1 _ R1 ltac:(lia)) as (rb2 & -> & R2). cbn [mbind res_bind].
    rewrite rawset_ok by done. cbn [mbind res_bind]. rewrite tab_set_new by done.
    assert (is_nil v = false) as -> by (by destruct v).
    destruct (IH fuel (pairs ++ [(k, v)]) rb2) as (rb' & -> & R'); try done; try lia.
    + apply Forall_forall. intros y Hy. apply Forall_app. split.
      * by eapply Forall_forall in Hnew.
      * constructor; [|done]. cbn [fst]. by eapply Forall_forall in Ho1.
    + exists rb'. split; [|done]. by rewrite <- app_assoc.
Qed.

Lemma sim_nil_iff v v' : sim v v' → is_nil v = is_nil v'.
Proof. by inversion 1. Qed.

Lemma sim_key_ok k k' : sim k k' → key_ok k → key_ok k'.
Proof. unfold key_ok. inversion 1; subst; auto; intros [? ?]; by split. Qed.

Lemma sim_in_array n k k' : sim k k' → in_array n k = false → in_array n k' = false.
Proof. by inversion 1. Qed.

Lemma sim_raw_eq a a' b b' : sim a a' → sim b b' → raw_eq a b = false → raw_eq a' b' = false.
Proof. inversion 1; inversion 1; subst; done. Qed.

Lemma sim_entries l l' i :
  Forall2 sim l l' → Forall2 (λ x y, sim x.1 y.1 ∧ sim x.2 y.2) (entries i l) (entries i l').
Proof.
  intros H. revert i. induction H as [|v v' l l' Hv Hl IH]; intros i; [constructor|]. cbn [entries].
  apply Forall2_app; [|done]. rewrite (sim_nil_iff _ _ Hv). destruct (is_nil v'); [constructor|].
  constructor; [|constructor]. split; [constructor|done].
Qed.

(** ** The pairs of a table are its array part and its hash part *)

Lemma rawgeti_in ps i v :
  ForallOrdPairs (λ x y, raw_eq x.1 y.1 = false) ps → (VInt i, v) ∈ ps → rawgeti ps i = v.
Proof.
  induction 1 as [|[k v'] ps Hk Hps IH]; [by intros ?%not_elem_of_nil|].
  intros [E|Hin]%elem_of_cons.
  - simplify_eq. cbn [rawgeti]. by rewrite Z.eqb_refl.
  - specialize (IH Hin). rewrite Forall_forall in Hk. specialize (Hk _ Hin). cbn [fst] in Hk.
    destruct k; cbn [rawgeti raw_eq] in *; try done. destruct (Z.eqb_spec i z); [|done]. subst. lia.
Qed.

Lemma rawgeti_elem ps i : rawgeti ps i ≠ VNil → (VInt i, rawgeti ps i) ∈ ps.
Proof.
  induction ps as [|[k v] ps IH]; [done|]. cbn [rawgeti].
  destruct k; try (intros; right; by apply IH).
  destruct (Z.eqb_spec i z); [intros; subst; left|intros; right; by apply IH].
Qed.

Lemma entries_elem i l x : x ∈ entries i l ↔ ∃ k v, l !! k = Some v ∧ x = (VInt (i + Z.of_nat k), v) ∧ v ≠ VNil.
Proof.
  revert i. induction l as [|v l IH]; intros i; cbn [entries].
  { split; [by intros ?%not_elem_of_nil|]. by intros (k & v & Hk & _). }
  rewrite elem_of_app, IH. split.
  - intros [Hx|(k & v' & Hk & -> & Hv)].
    + exists 0%nat, v. destruct v; cbn [is_nil] in Hx; try (by apply not_elem_of_nil in Hx);
        apply list_elem_of_singleton in Hx as ->; rewrite Z.add_0_r; done.
    + exists (S k), v'. split; [done|]. split; [|done]. do 2 f_equal. lia.
  - intros ([|k] & v' & Hk & -> & Hv).
    + left. injection Hk as ->. destruct v'; cbn [is_nil]; try done; rewrite Z.add_0_r; by apply list_elem_of_singleton.
    + right. exists k, v'. split; [done|]. split; [|done]. do 2 f_equal. lia.
Qed.

Lemma entries_nodup i l : NoDup (entries i l).
Proof.
  revert i. induction l as [|v l IH]; intros i; [constructor|]. cbn [entries].
  destruct (is_nil v); [by apply IH|]. cbn [app]. constructor; [|by apply IH].
  intros (k & v' & _ & E & _)%entries_elem. injection E. lia.
Qed.

Lemma ordpairs_filter {A} (R : A → A → Prop) (P : A → Prop) `{!∀ x, Decision (P x)} (l : list A) :
  ForallOrdPairs R l → ForallOrdPairs R (filter P l).
Proof.
  induction 1 as [|x l Hx Hl IH]; [constructor|]. rewrite filter_cons. case_decide; [|done].
  constructor; [|done]. apply Forall_forall. intros y [_ Hy]%list_elem_of_filter.
  by eapply Forall_forall in Hx.
Qed.

Lemma table_parts ps n :
  ForallOrdPairs (λ x y, raw_eq x.1 y.1 = false) ps → Forall (λ x, x.2 ≠ VNil) ps → 0 ≤ n →
  ps ≡ₚ entries 1 (map (rawgeti ps) (seqZ 1 n)) ++ filter (λ x, in_array n x.1 = false) ps.
Proof.
  intros Ho Hv Hn. trans (filter (λ x, in_array n x.1 = true) ps ++ filter (λ x, in_array n x.1 = false) ps).
  { clear. induction ps as [|x ps IH]; [done|]. rewrite !filter_cons.
    destruct (in_array n x.1).
    - rewrite decide_True, decide_False by done. by constructor.
    - rewrite decide_False, decide_True by done. rewrite <- Permutation_middle. by constructor. }
  apply Permutation_app_tail, NoDup_Permutation.
  - pose proof (ordpairs_filter _ (λ x, in_array n x.1 = true) _ Ho) as Hf.
    assert (Forall (λ x, in_array n x.1 = true) (filter (λ x, in_array n x.1 = true) ps)) as Hall
      by (apply Forall_forall; by intros x [? _]%list_elem_of_filter).
    induction Hf as [|x l Hx Hl IH]; [constructor|]. apply Forall_cons in Hall as [Hin Hall].
    constructor; [|by apply IH]. intros Hxl. rewrite Forall_forall in Hx. specialize (Hx _ Hxl).
    destruct x as [[] v]; cbn in *; try done. by rewrite Z.eqb_refl in Hx.
  - apply entries_nodup.
  - intros [k v]. rewrite list_elem_of_filter, entries_elem. cbn [fst]. split.
    + intros [Hin Hps]. destruct k as [| |z| | | | | |]; try done. cbn [in_array] in Hin.
      exists (Z.to_nat (z - 1)), v. rewrite list_lookup_fmap, (proj2 (lookup_seqZ _ _ _ z)) by lia.
      cbn. rewrite (rawgeti_in ps z v) by done. split; [done|]. split; [do 2 f_equal; lia|].
      rewrite Forall_forall in Hv. by apply Hv in Hps.
    + intros (j & v' & Hj & E & Hv'). apply list_lookup_fmap_Some in Hj as (z & -> & Hz).
      apply lookup_seqZ in Hz as [-> Hj]. injection E as -> ->. split; [cbn [in_array]; lia|].
      by apply rawgeti_elem.
Qed.

(** ** Unpacking inverts packing *)

Notation unpack := (unpack_one float_key is_nan).

(** [e] is read back as a value like [v], by [unpack_one] with any fuel above
    the number of bytes. *)
Definition reads_as (v : lval) (e : list Z) (v' : lval) : Prop :=
  sim v v' ∧ e ≠ [] ∧ ∀ fuel, decodes (unpack fuel) fuel e v'.

Lemma values_read enc l a :
  (∀ v e, wf v → enc v = Ok e → ∃ v', reads_as v e v') → Forall wf l → enc_values enc l = Ok a →
  ∃ es l', a = concat es ∧ Forall (λ e, e ≠ []) es ∧ Forall2 sim l l' ∧
    ∀ fuel, Forall2 (decodes (unpack fuel) fuel) es l'.
Proof.
  intros H Hw. revert a. induction Hw as [|v l Hv Hl IH]; intros a E; cbn [enc_values] in E.
  { injection E as <-. exists [], []. by split_and!; try done; intros; constructor. }
  destruct (enc v) as [e| |] eqn:Ev; cbn [mbind res_bind] in E; try done.
  destruct (enc_values enc l) as [es| |] eqn:El; cbn [mbind res_bind] in E; try done. injection E as <-.
  destruct (H v e Hv Ev) as (v' & Hs & Hne & Hd). destruct (IH es eq_refl) as (es' & l' & -> & ? & ? & ?).
  exists (e :: es'), (v' :: l'). split; [done|]. split; [by constructor|]. split; [by constructor|].
  intros fuel. by constructor.
Qed.

Lemma pairs_read enc ps a :
  (∀ v e, wf v → enc v = Ok e → ∃ v', reads_as v e v') → Forall (λ x, wf x.1 ∧ wf x.2) ps →
  enc_pairs enc ps = Ok a →
  ∃ es ps', a = concat (map (λ e, e.1 ++ e.2) es) ∧ Forall (λ e : list Z * list Z, e.1 ≠ []) es ∧
    Forall2 (λ x y, sim x.1 y.1 ∧ sim x.2 y.2) ps ps' ∧
    ∀ fuel, Forall2 (λ e x, decodes (unpack fuel) fuel e.1 x.1 ∧ decodes (unpack fuel) fuel e.2 x.2) es ps'.
Proof.
  intros H Hw. revert a. induction Hw as [|[k v] ps [Hk Hv] Hps IH]; intros a E; cbn [enc_pairs] in E.
  { injection E as <-. exists [], []. by split_and!; try done; intros; constructor. }
  destruct (enc k) as [e1| |] eqn:E1; cbn [mbind res_bind] in E; try done.
  destruct (enc v) as [e2| |] eqn:E2; cbn [mbind res_bind] in E; try done.
  destruct (enc_pairs enc ps) as [es| |] eqn:El; cbn [mbind res_bind] in E; try done. injection E as <-.
  destruct (H k e1 Hk E1) as (k' & Hs1 & Hne1 & Hd1). destruct (H v e2 Hv E2) as (v' & Hs2 & Hne2 & Hd2).
  destruct (IH es eq_refl) as (es' & ps' & -> & ? & ? & ?).
  exists ((e1, e2) :: es'), ((k', v') :: ps'). cbn [map concat fst snd]. rewrite <- app_assoc.
  split; [done|]. split; [by constructor|]. split; [by constructor|]. intros fuel. by constructor.
Qed.

(** The keys read back are as good as those written. *)
Lemma sim_pairs_ok ps ps' :
  Forall2 (λ x y, sim x.1 y.1 ∧ sim x.2 y.2) ps ps' → pairs_ok ps → pairs_ok ps'.
Proof.
  intros H [Hok Ho]. split.
  - clear Ho. induction H as [|x y ps ps' [H1 H2] Hps IH]; [constructor|].
    apply Forall_cons in Hok as [[Hk Hv] Hok]. constructor; [|by apply IH].
    split; [by eapply sim_key_ok|]. intros E. rewrite E in H2. by inversion H2; congruence.
  - clear Hok. induction H as [|x y ps ps' [H1 H2] Hps IH]; [constructor|].
    inversion Ho as [|? ? Ho1 Ho2]; subst. constructor; [|by apply IH].
    clear -H1 Ho1 Hps. induction Hps as [|x2 y2 ps ps' [H3 H4] Hps IH]; [constructor|].
    apply Forall_cons in Ho1 as [Ho Ho1]. constructor; [|by apply IH]. by eapply sim_raw_eq.
Qed.

Lemma nil_reads fuel limit : (0 < fuel)%nat → decodes (unpack fuel) limit [TYPE_NIL] VNil.
Proof.
  intros Hf rb s R _. destruct fuel as [|fuel]; [lia|].
  change [TYPE_NIL] with [COMBINE_TYPE TYPE_NIL 0] in R.
  eapply (push_value_reads _ _ TYPE_NIL 0 []); [done|done|exact R|]. intros rb1 R1. by exists rb1.
Qed.

(** The loop over the pairs, and its end mark. *)
Lemma hash_reads fuel es ps' pairs rb s :
  (∀ fuel, Forall2 (λ e x, decodes (unpack fuel) fuel e.1 x.1 ∧ decodes (unpack fuel) fuel e.2 x.2) es ps') →
  Forall (λ e, e.1 ≠ []) es → pairs_ok ps' → Forall (λ y, Forall (λ x, raw_eq x.1 y.1 = false) pairs) ps' →
  rb_repr rb (concat (map (λ e, e.1 ++ e.2) es) ++ [TYPE_NIL] ++ s) →
  (length (concat (map (λ e, e.1 ++ e.2) es) ++ [TYPE_NIL] ++ s) < fuel)%nat →
  ∃ rb', hash_loop float_key is_nan fuel (unpack fuel) pairs rb = Ok (pairs ++ ps', rb') ∧ rb_repr rb' s.
Proof.
  intros Hd Hne [Hok Ho] Hnew R Hf. eapply (hash_loop_spec fuel (unpack fuel) fuel es); try done.
  apply nil_reads. lia.
Qed.

Lemma entries_keys i l x : x ∈ entries i l → ∃ j, x.1 = VInt j ∧ i ≤ j < i + Z.of_nat (length l).
Proof.
  intros (k & v & Hk & -> & _)%entries_elem. apply lookup_lt_Some in Hk. eexists. split; [done|]. lia.
Qed.

(** The whole of [unpack_table] after its type byte. *)
Lemma table_reads fuel c e n es l ess ps rb s :
  0 ≤ n ≤ INT_MAX → n = Z.of_nat (length l) →
  enc_header n = COMBINE_TYPE TYPE_TABLE c :: e → 0 ≤ c < 32 →
  (∀ fuel, Forall2 (decodes (unpack fuel) fuel) es l) → Forall (λ e, e ≠ []) es →
  (∀ fuel, Forall2 (λ e x, decodes (unpack fuel) fuel e.1 x.1 ∧ decodes (unpack fuel) fuel e.2 x.2) ess ps) →
  Forall (λ e, e.1 ≠ []) ess → pairs_ok ps →
  Forall (λ y, in_array n y.1 = false) ps →
  let body := concat es ++ concat (map (λ e, e.1 ++ e.2) ess) ++ [TYPE_NIL] ++ s in
  rb_repr rb (e ++ body) → (length body < fuel)%nat →
  ∃ rb', unpack_table float_key is_nan fuel (unpack fuel) c rb = Ok (VTab (entries 1 l ++ ps), rb') ∧
    rb_repr rb' s.
Proof.
  intros Hn Hnl Ehd Hc Hes Hne Hess Hness Hok Hin body R Hf. unfold unpack_table.
  assert (∃ rb1, table_size c rb = Ok (n, rb1) ∧ rb_repr rb1 body) as (rb1 & -> & R1).
  { unfold table_size. unfold enc_header in Ehd. change (MAX_COOKIE - 1) with 31 in *. destruct (Z.leb_spec 31 n) as [H31|H31].
    - cbn [app] in Ehd. injection Ehd as Ec <-.
      pose proof (combine_type TYPE_TABLE c ltac:(done) Hc) as [_ C1]. rewrite <- Ec in C1.
      pose proof (combine_type TYPE_TABLE 31 ltac:(done) ltac:(done)) as [_ C2]. rewrite C2 in C1. subst c.
      change (31 =? 31) with true. cbn [andb].
      unfold INT_MAX in Hn. destruct (get_integer_spec n rb body ltac:(lia) R)
        as (c' & e' & rb2 & rb3 & Ee & Hc' & Hcr & -> & R2 & Eg & R3).
      cbn [mbind res_bind]. rewrite le_val_single.
      destruct (combine_type TYPE_NUMBER c' ltac:(done) Hc') as [-> ->].
      rewrite Z.eqb_refl. destruct (Z.eqb_spec c' TYPE_NUMBER_REAL); [done|]. cbn [negb orb].
      rewrite Eg. cbn [mbind res_bind]. rewrite swrap_small by (change (32 - 1) with 31; lia).
      by exists rb3.
    - injection Ehd as Ec <-.
      pose proof (combine_type TYPE_TABLE c ltac:(done) Hc) as [_ C1]. rewrite <- Ec in C1.
      pose proof (combine_type TYPE_TABLE n ltac:(done) ltac:(lia)) as [_ C2]. rewrite C2 in C1. subst c.
      destruct (Z.eqb_spec n 31); [lia|]. by exists rb. }
  cbn [mbind res_bind].
  destruct (array_loop_spec fuel (unpack fuel) fuel es l 1 n [] rb1 _ (Hes fuel) Hne ltac:(lia) R1 Hf Hf ltac:(constructor))
    as (rb2 & -> & R2). cbn [mbind res_bind app].
  destruct (hash_reads fuel ess ps (entries 1 l) rb2 s Hess Hness Hok) as (rb' & -> & R'); try done.
  - apply Forall_forall. intros y Hy. apply Forall_forall. intros x Hx.
    destruct (entries_keys _ _ _ Hx) as (j & -> & Hj). rewrite Forall_forall in Hin. specialize (Hin y Hy).
    destruct (y.1); cbn [raw_eq in_array] in *; try done. lia.
  - subst body. rewrite length_app in Hf. lia.
  - cbn [mbind res_bind]. by exists rb'.
Qed.

Lemma header_shape n : 0 ≤ n → ∃ c e, enc_header n = COMBINE_TYPE TYPE_TABLE c :: e ∧ 0 ≤ c < 32.
Proof.
  intros Hn. unfold enc_header. change (MAX_COOKIE - 1) with 31. destruct (Z.leb_spec 31 n).
  - by exists 31, (enc_integer n).
  - exists n, []. split; [done|lia].
Qed.

Lemma unpack_reads room v e : wf v → enc border room v = Ok e → ∃ v', reads_as v e v'.
Proof.
  revert v e. induction room as [|room IH]; intros v e Hw E; [done|]. cbn [enc] in E.
  destruct Hw as [|b|z Hz|bits Hb|str Hs|p Hp|ps Hps Hbd _ Hall|ps ie Hps Hall|].
  - injection E as <-. exists VNil. split; [constructor|]. split; [done|].
    intros [|fuel] rb s R Hf; [lia|]. by apply (nil_reads (S fuel) (S fuel)); [lia| |].
  - injection E as <-. exists (VBool b). split; [constructor|]. split; [done|].
    intros [|fuel] rb s R Hf; [lia|].
    eapply (push_value_reads _ _ TYPE_BOOLEAN (if b then 1 else 0) []); [done|by destruct b|exact R|].
    intros rb1 R1. exists rb1. split; [|done]. by destruct b.
  - injection E as <-. exists (VInt z). split; [constructor|]. split.
    { unfold enc_integer. repeat match goal with |- context [if ?c then _ else _] => destruct c end; done. }
    intros [|fuel] rb s R Hf; [lia|].
    destruct (get_integer_spec z rb s Hz R) as (c & e & rb1 & rb2 & Ee & Hc & Hcr & Er & R1 & Eg & R2).
    exists rb2. split; [|done]. cbn [unpack_one]. rewrite Er. cbn [mbind res_bind]. rewrite le_val_single.
    destruct (combine_type TYPE_NUMBER c ltac:(done) Hc) as [-> ->].
    change ((if c =? TYPE_NUMBER_REAL then '(x, rb) ← get_real rb1; Ok (VReal x, rb)
      else '(x, rb) ← get_integer rb1 c; Ok (VInt x, rb)) = Ok (VInt z, rb2)).
    destruct (Z.eqb_spec c TYPE_NUMBER_REAL); [done|]. by rewrite Eg.
  - injection E as <-. exists (VReal bits). split; [constructor|]. split; [done|].
    intros [|fuel] rb s R Hf; [lia|].
    eapply (push_value_reads _ _ TYPE_NUMBER TYPE_NUMBER_REAL (le_bytes 8 bits)); [done|done|exact R|].
    intros rb1 R1. destruct (read_spec _ _ _ 8 R1 eq_refl) as (rb2 & E2 & R2). exists rb2. split; [|done].
    change (('(x, rb) ← get_real rb1; Ok (VReal x, rb)) = Ok (VReal bits, rb2)). unfold get_real.
    rewrite E2. cbn [mbind res_bind]. rewrite le_val_bytes. by rewrite wrap_small by lia.
  - injection E as <-. exists (VStr str). split; [constructor|]. split.
    { by destruct (string_shape str Hs) as [[_ ->]|[[_ ->]|[_ ->]]]. }
    intros [|fuel] rb s R Hf; [lia|]. by apply decode_string.
  - injection E as <-. exists (VPtr p). split; [constructor|]. split; [done|].
    intros [|fuel] rb s R Hf; [lia|].
    change ([TYPE_USERDATA] ++ le_bytes 8 p) with (COMBINE_TYPE TYPE_USERDATA 0 :: le_bytes 8 p) in R.
    eapply (push_value_reads _ _ TYPE_USERDATA 0 (le_bytes 8 p)); [done|done|exact R|].
    intros rb1 R1. destruct (read_spec _ _ _ 8 R1 eq_refl) as (rb2 & E2 & R2). exists rb2. split; [|done].
    change (('(x, rb) ← get_pointer rb1; Ok (VPtr x, rb)) = Ok (VPtr p, rb2)). unfold get_pointer.
    rewrite E2. cbn [mbind res_bind]. rewrite le_val_bytes. by rewrite wrap_small by lia.
  - assert (swrap 32 (border ps) = border ps) as Hsw
      by (unfold INT_MAX in Hbd; apply swrap_small; [done|change (32 - 1) with 31; lia]).
    unfold array_part, hash_part in E. rewrite Hsw in E. set (n := border ps) in *.
    destruct (enc_values _ _) as [a| |] eqn:Ea; cbn [mbind res_bind] in E; try done.
    destruct (enc_pairs _ _) as [h| |] eqn:Eh; cbn [mbind res_bind] in E; try done. injection E as <-.
    destruct Hps as [Hok Hord].
    assert (Forall wf (map (rawgeti ps) (seqZ 1 n))) as Hwv.
    { apply Forall_map, Forall_forall. intros i _. destruct (decide (is_nil (rawgeti ps i) = true)) as [Hn|Hn].
      - destruct (rawgeti ps i); try done. constructor.
      - assert (rawgeti ps i ≠ VNil) as Hne by (by intros Heq; rewrite Heq in Hn).
        apply rawgeti_elem in Hne. rewrite Forall_forall in Hall. by apply Hall in Hne as [_ ?]. }
    destruct (values_read _ _ _ IH Hwv Ea) as (es & l' & -> & Hnes & Hsl & Hdl).
    assert (Forall (λ x, wf x.1 ∧ wf x.2) (filter (λ x, in_array n x.1 = false) ps)) as Hwp.
    { apply Forall_forall. intros x [_ Hx]%list_elem_of_filter. by eapply Forall_forall in Hall. }
    destruct (pairs_read _ _ _ IH Hwp Eh) as (ess & ps' & -> & Hness & Hsp & Hdp).
    exists (VTab (entries 1 l' ++ ps')). split.
    { eapply sim_tab; [apply (table_parts ps n Hord); [|lia]|].
      - eapply Forall_impl; [exact Hok|]. by intros x [_ ?].
      - apply Forall2_app; [by apply sim_entries|done]. }
    destruct (header_shape n ltac:(lia)) as (c & e & Ehd & Hc). split; [by rewrite Ehd|].
    intros [|fuel] rb s R Hf; [lia|]. rewrite Ehd in R, Hf. cbn [app] in R.
    eapply (push_value_reads _ _ TYPE_TABLE c (e ++ concat es ++ concat (map (λ e, e.1 ++ e.2) ess) ++ [TYPE_NIL]));
      [done|done|exact R|].
    intros rb1 R1. rewrite <- !app_assoc in R1.
    change (∃ rb', unpack_table float_key is_nan fuel (unpack fuel) c rb1 = Ok (VTab (entries 1 l' ++ ps'), rb') ∧ rb_repr rb' s).
    eapply (table_reads fuel c e n es l' ess ps'); try done; try lia.
    + apply Forall2_length in Hsl. rewrite length_map, length_seqZ in Hsl. lia.
    + eapply sim_pairs_ok; [done|]. split.
      * apply Forall_forall. intros x [_ Hx]%list_elem_of_filter. by eapply Forall_forall in Hok.
      * by apply ordpairs_filter.
    + assert (Forall (λ x, in_array n x.1 = false) (filter (λ x, in_array n x.1 = false) ps)) as Hin
        by (apply Forall_forall; by intros x [? _]%list_elem_of_filter).
      clear -Hsp Hin. induction Hsp as [|x y l l' [H1 _] Hl IH]; [constructor|].
      apply Forall_cons in Hin as [Hx Hin]. constructor; [|by apply IH]. by eapply sim_in_array.
    + cbn [app length] in Hf. repeat rewrite length_app in Hf. repeat rewrite length_app. cbn [length] in *. lia.
  - destruct (enc_pairs _ _) as [h| |] eqn:Eh; cbn [mbind res_bind] in E; try done.
    destruct ie; [|done]. injection E as <-.
    destruct (pairs_read _ _ _ IH Hall Eh) as (ess & ps' & -> & Hness & Hsp & Hdp).
    exists (VTab ps'). split; [by constructor|]. split; [done|].
    intros [|fuel] rb s R Hf; [lia|]. cbn [app] in R.
    eapply (push_value_reads _ _ TYPE_TABLE 0 (concat (map (λ e, e.1 ++ e.2) ess) ++ [TYPE_NIL]));
      [done|done|exact R|].
    intros rb1 R1. rewrite <- !app_assoc in R1.
    change (∃ rb', unpack_table float_key is_nan fuel (unpack fuel) 0 rb1 = Ok (VTab (entries 1 [] ++ ps'), rb') ∧ rb_repr rb' s).
    eapply (table_reads fuel 0 [] 0 [] [] ess ps'); try done.
    + by eapply sim_pairs_ok.
    + apply Forall_forall. intros y _. destruct (y.1); try done. cbn [in_array]. lia.
    + cbn [app length concat] in Hf |- *. repeat rewrite length_app in Hf. repeat rewrite length_app. cbn [length] in *. lia.
  - done.
Qed.

(** ** Whole argument lists *)

Lemma unpack_loop_reads fuel es l rb :
  (∀ fuel, Forall2 (decodes (unpack fuel) fuel) es l) → Forall (λ e, e ≠ []) es →
  rb_repr rb (concat es) → (length (concat es) < fuel)%nat →
  unpack_loop float_key is_nan fuel rb = Ok l.
Proof.
  intros H Hne R Hf. revert fuel rb R Hf. specialize (H 0%nat) as Hlen. apply Forall2_length in Hlen.
  revert l H Hlen. induction Hne as [|e es He Hes IH]; intros l H Hlen fuel rb R Hf;
    (destruct fuel as [|fuel]; [lia|]); cbn [unpack_loop].
  - destruct l; [|done]. cbn [concat] in R. by rewrite (rb_read_short rb [] 1 R ltac:(done)).
  - destruct l as [|v l]; [done|]. cbn [concat] in *. rewrite length_app in Hf.
    assert (0 < length e)%nat by (destruct e; [done|cbn; lia]).
    assert (∀ fuel, decodes (unpack fuel) fuel e v) as Hv by (intros f; by specialize (H f); inversion H).
    destruct (Hv (S fuel) rb (concat es) R) as (rb' & E & R'); [rewrite length_app; lia|].
    cbn [unpack_one] in E. unfold read in E. destruct (rb_read rb 1) as [[[t rb1]|]| |]; [|by cbn in E..].
    cbn [mbind res_bind] in E |- *. rewrite E. cbn [mbind res_bind].
    rewrite (IH l); [done| | |done|lia].
    + intros f. by specialize (H f); inversion H.
    + by injection Hlen.
Qed.

(** ** What can be packed *)

(** At most [n] levels of tables below, of the types the format has. *)
Inductive packable : nat → lval → Prop :=
  | pk_nil n : packable n VNil
  | pk_bool n b : packable n (VBool b)
  | pk_int n z : packable n (VInt z)
  | pk_real n bits : packable n (VReal bits)
  | pk_str n s : packable n (VStr s)
  | pk_ptr n p : packable n (VPtr p)
  | pk_empty n : packable n (VTab [])
  | pk_meta_empty n : packable n (VMeta [] IterDone)
  | pk_tab n ps : Forall (λ x, packable n x.1 ∧ packable n x.2) ps → packable (S n) (VTab ps)
  | pk_meta n ps : Forall (λ x, packable n x.1 ∧ packable n x.2) ps → packable (S n) (VMeta ps IterDone).

Definition is_ok {A} (r : res A) : Prop := match r with Ok _ => True | _ => False end.

Lemma enc_values_ok enc l : is_ok (enc_values enc l) ↔ Forall (λ v, is_ok (enc v)) l.
Proof.
  induction l as [|v l IH]; cbn [enc_values]; [by split|]. rewrite Forall_cons, <- IH.
  destruct (enc v), (enc_values enc l); cbn; tauto.
Qed.

Lemma enc_pairs_ok enc l : is_ok (enc_pairs enc l) ↔ Forall (λ x, is_ok (enc x.1) ∧ is_ok (enc x.2)) l.
Proof.
  induction l as [|[k v] l IH]; cbn [enc_pairs]; [by split|]. rewrite Forall_cons, <- IH. cbn [fst snd].
  destruct (enc k), (enc v), (enc_pairs enc l); cbn; tauto.
Qed.

Lemma is_ok_seq {A B C} (ra : res A) (rb : res B) (f : A → B → C) :
  is_ok (a ← ra; b ← rb; Ok (f a b)) ↔ is_ok ra ∧ is_ok rb.
Proof. destruct ra, rb; cbn; tauto. Qed.

Lemma enc_ok room v : wf v → is_ok (enc border (S room) v) ↔ packable room v.
Proof.
  revert v. induction room as [|room IH]; intros v Hw; cbn [enc].
  - destruct Hw as [|b|z Hz|bits Hb|str Hs|p Hp|ps Hps Hbd Hem Hall|ps ie Hps Hall|];
      try (split; [intros _; constructor|done]).
    + unfold array_part, hash_part. rewrite swrap_small by (change (32 - 1) with 31; unfold INT_MAX in Hbd; lia).
      rewrite is_ok_seq, enc_values_ok, enc_pairs_ok. split.
      * intros [H1 H2]. destruct ps as [|[k v] ps]; [constructor|exfalso].
        destruct (in_array (border ((k, v) :: ps)) k) eqn:Ein.
        -- destruct k; try done. cbn [in_array] in Ein. rewrite Forall_forall in H1.
           apply (H1 (rawgeti ((VInt z, v) :: ps) 1)), list_elem_of_fmap. exists 1. split; [done|].
           apply elem_of_seqZ. lia.
        -- rewrite filter_cons_True in H2 by done. apply Forall_cons in H2 as [[[] _] _].
      * intros Hp. inversion Hp; subst. rewrite Hem by done. done.
    + split.
      * destruct (enc_pairs _ _) as [h| |] eqn:Eh; cbn; try done. destruct ie; [|done]. intros _.
        destruct ps as [|[k v] ps]; [constructor|]. by cbn in Eh.
      * intros Hp. inversion Hp; subst. done.
    + split; [done|]. inversion 1.
  - destruct Hw as [|b|z Hz|bits Hb|str Hs|p Hp|ps Hps Hbd Hem Hall|ps ie Hps Hall|];
      try (split; [intros _; constructor|done]).
    + assert (Forall (λ x, wf x.1 ∧ wf x.2 ∧ x.2 ≠ VNil) ps) as Hall'.
      { apply Forall_forall. intros x Hx. destruct Hps as [Hok _]. rewrite Forall_forall in Hall, Hok.
        destruct (Hall x Hx), (Hok x Hx). by split_and!. }
      unfold array_part, hash_part. rewrite swrap_small by (change (32 - 1) with 31; unfold INT_MAX in Hbd; lia).
      set (n := border ps) in *. fold (enc border).
      rewrite is_ok_seq, enc_values_ok, enc_pairs_ok. split.
      * intros [H1 H2]. apply pk_tab, Forall_forall. intros [k v] Hx.
        rewrite Forall_forall in Hall'. destruct (Hall' _ Hx) as (Hwk & Hwv & Hnn). cbn [fst snd] in *.
        destruct (in_array n k) eqn:Ein.
        -- destruct k; try done. split; [constructor|]. apply IH; [done|]. cbn [in_array] in Ein.
           rewrite Forall_forall in H1. apply H1, list_elem_of_fmap. exists z.
           split; [symmetry; apply rawgeti_in; [apply Hps|done]|]. apply elem_of_seqZ. lia.
        -- rewrite Forall_forall in H2. destruct (H2 (k, v)) as [? ?]; [by apply list_elem_of_filter|].
           split; by apply IH.
      * intros Hp. inversion Hp as [| | | | | |n' E'| |n' ps' Hf E'|]; subst.
        -- rewrite (Hem eq_refl : n = 0). by split.
        -- rewrite Forall_forall in Hf, Hall'. split.
           ++ apply Forall_forall. intros v (i & -> & _)%list_elem_of_fmap.
              destruct (decide (is_nil (rawgeti ps i) = true)) as [Hn|Hn].
              { by destruct (rawgeti ps i). }
              assert (rawgeti ps i ≠ VNil) as Hne by (by intros Heq; rewrite Heq in Hn).
              apply rawgeti_elem in Hne. destruct (Hall' _ Hne) as (_ & ? & _), (Hf _ Hne). by apply IH.
           ++ apply Forall_forall. intros x [_ Hx]%list_elem_of_filter.
              destruct (Hall' _ Hx) as (? & ? & _), (Hf _ Hx). split; by apply IH.
    + assert (is_ok (h ← enc_pairs (enc border (S room)) ps;
        match ie with
        | IterDone => Ok ([COMBINE_TYPE TYPE_TABLE 0] ++ h ++ [TYPE_NIL])
        | IterError => Err EMeta
        end) ↔ is_ok (enc_pairs (enc border (S room)) ps) ∧ ie = IterDone) as Hiff.
      { destruct (enc_pairs _ _), ie; cbn; naive_solver. }
      rewrite Hiff, enc_pairs_ok. clear Hiff. split.
      * intros [H ->]. apply pk_meta, Forall_forall. intros x Hx. rewrite Forall_forall in H, Hall.
        destruct (Hall x Hx), (H x Hx). split; by apply IH.
      * intros Hp. rewrite Forall_forall in Hall. inversion Hp as [| | | | | | | | |n' ps' Hf E']; subst; (split; [|done]).
        -- constructor.
        -- rewrite Forall_forall in Hf. apply Forall_forall. intros x Hx.
           destruct (Hall x Hx), (Hf x Hx). split; by apply IH.
    + split; [done|]. inversion 1.
Qed.

(** ** Unpacking ends on every input *)











End decode.

(** ** Properties *)

#[local] Opaque enc MAX_DEPTH.

Section properties.
Context (border : list (lval * lval) → Z) (float_key : Z → option Z) (is_nan : Z → bool).


(** C11: what [luaseri_pack] makes of any list of Lua values whose strings have at most
    INT_MAX bytes (a longer one comes back wrong: [pack_2GB_string]),
    [luaseri_unpack] turns back into the same list, where a table comes back as
    a table with the same pairs in some order, at every level of nesting.  The keys of a
    table are neither nil nor NaN, as in Lua. *)
Theorem pack_unpack_roundtrip args bytes :
  Forall (wf border float_key is_nan) args → luaseri_pack border args = Ok bytes →
  ∃ args', luaseri_unpack float_key is_nan (Some bytes) (Z.of_nat (length bytes)) = Ok args' ∧
    Forall2 sim args args'.
Proof.
  intros Hw E. pose proof (pack_spec border args) as H.
  destruct (enc_values (enc border (S MAX_DEPTH)) args) as [bytes'|err|] eqn:Ee;
    [|destruct H as [H|H]; by rewrite E in H|done].
  destruct H as [H|[H _]]; rewrite E in H; [injection H as <-|done].
  destruct (values_read border float_key is_nan _ args bytes
    (unpack_reads border float_key is_nan (S MAX_DEPTH)) Hw Ee) as (es & l' & -> & Hne & Hs & Hd).
  exists l'. split; [|done]. unfold luaseri_unpack.
  destruct (Z.eqb_spec (Z.of_nat (length (concat es))) 0) as [H0|H0].
  - destruct Hne as [|e es He Hes]; cbn [concat] in H0.
    + specialize (Hd 0%nat). by inversion Hd.
    + rewrite length_app in H0. destruct e; [done|cbn [length] in H0; lia].
  - eapply unpack_loop_reads; [exact Hd|done|apply rb_repr_start|lia].
Qed.

(** C13: [luaseri_pack] accepts exactly the values of the supported
    types nested at most [MAX_DEPTH] tables deep; on any other it raises a Lua
    error.  Beyond that only a total size over [INT_MAX] stops it. *)
Theorem pack_accepts args :
  Forall (wf border float_key is_nan) args →
  (Forall (packable MAX_DEPTH) args ∧ (∃ bytes, luaseri_pack border args = Ok bytes) ∨
   ¬ Forall (packable MAX_DEPTH) args ∧ (∃ err, luaseri_pack border args = Err err) ∨
   luaseri_pack border args = Abort) ∧
  (Forall (packable MAX_DEPTH) args → luaseri_pack border args = Abort →
   ∃ bytes, enc_values (enc border (S MAX_DEPTH)) args = Ok bytes ∧ INT_MAX < Z.of_nat (length bytes)).
Proof.
  intros Hw. pose proof (pack_spec border args) as H.
  assert (Forall (packable MAX_DEPTH) args ↔ is_ok (enc_values (enc border (S MAX_DEPTH)) args)) as Hiff.
  { rewrite enc_values_ok. clear H. induction Hw as [|v args Hv Hw IH]; [by split|].
    rewrite !Forall_cons, IH. by rewrite (enc_ok border float_key is_nan MAX_DEPTH v Hv). }
  rewrite Hiff. destruct (enc_values _ args) as [bytes|err|]; cbn [is_ok]; [| |done].
  - destruct H as [->|[-> Hov]]; (split; [by eauto|]); [done|]. intros _ _. by exists bytes.
  - split; [|done]. destruct H as [-> | ->]; [|by auto]. right. left. split; [tauto|by eexists].
Qed.


(** Unpacking has no limit like [MAX_DEPTH]: a message of tables that each hold the next
    one drives the recursion of [unpack_one] through a level per byte, so no depth (the
    fuel) up to the length of the message is enough. *)
Lemma unpack_deep n fuel :
  (fuel ≤ n)%nat → unpack_loop float_key is_nan fuel (mkRb (replicate n 14) (Z.of_nat n) 0) = Abort.
Proof.
  assert (∀ n fuel rb, (fuel ≤ n)%nat → rb_repr rb (replicate n 14) → unpack_one float_key is_nan fuel rb = Abort) as H.
  { clear. induction n as [|n IH]; intros [|fuel] rb Hf R; [done|lia|done|]. cbn [unpack_one].
    destruct (read_spec rb [14] (replicate n 14) 1 R ltac:(done)) as (rb' & -> & R').
    cbn [mbind res_bind]. change (push_value _ _ _ _ _ _ rb') with (unpack_table float_key is_nan fuel (unpack_one float_key is_nan fuel) 1 rb').
    unfold unpack_table. change (table_size 1 rb') with (Ok (1, rb')). cbn [mbind res_bind].
    destruct fuel as [|fuel]; [done|]. cbn [array_loop].
    change (1 <=? 1) with true. cbv iota. by rewrite (IH (S fuel) rb') by (done || lia). }
  intros Hf. destruct fuel as [|fuel]; [done|]. destruct n as [|n]; [lia|].
  assert (rb_repr (mkRb (replicate (S n) 14) (Z.of_nat (S n)) 0) (replicate (S n) 14)) as R.
  { pose proof (rb_repr_start (replicate (S n) 14)) as R. by rewrite length_replicate in R. }
  pose proof (H (S n) (S fuel) _ Hf R) as E. cbn [unpack_one unpack_loop] in *. unfold read in E.
  destruct (read_spec _ [14] (replicate n 14) 1 R ltac:(done)) as (rb' & Er & _). unfold read in Er.
  destruct (rb_read _ 1) as [[[t rb1]|]| |]; [|by cbn in Er..]. cbn [mbind res_bind] in *. by rewrite E.
Qed.

(** [pack_one] casts the length of a string to [int], so a
    string of 2^31 bytes is packed, without an error, as the empty string. *)
Lemma pack_2GB_string s :
  Z.of_nat (length s) = 2 ^ 31 →
  luaseri_pack border [VStr s] = Ok [4] ∧
  luaseri_unpack float_key is_nan (Some [4]) 1 = Ok [VStr []].
Proof.
  intros Hs. split; [|done]. unfold luaseri_pack. cbn [pack_values pack_one MAX_DEPTH]. unfold wb_string.
  rewrite Hs. reflexivity.
Qed.
End properties.

(** ** Witnesses *)

Definition demo_border (ps : list (lval * lval)) : Z :=
  match rawgeti ps 1, rawgeti ps 2 with VNil, _ => 0 | _, VNil => 1 | _, _ => 2 end.

Definition demo_table : lval :=
  VTab [(VStr [97], VTab [(VBool true, VReal 4614253070214989087)]); (VInt 1, VStr [98]); (VInt 2, VInt 70000)].

Lemma demo_wf : Forall (wf demo_border (λ _, None) (λ _, false)) [VInt (-5); demo_table; VPtr 77].
Proof.
  assert (∀ k, k ≠ VNil → key_ok (λ _, None) (λ _, false) k) as Hk by (intros k H; split; [done|by intros]).
  repeat constructor; try lia; try (by apply Hk); try done; cbn; unfold INT_MAX; lia.
Qed.

Lemma pack_unpack_roundtrip_witness :
  ∃ bytes, luaseri_pack demo_border [VInt (-5); demo_table; VPtr 77] = Ok bytes ∧
  ∃ args', luaseri_unpack (λ _, None) (λ _, false) (Some bytes) (Z.of_nat (length bytes)) = Ok args' ∧
    Forall2 sim [VInt (-5); demo_table; VPtr 77] args'.
Proof.
  eexists. split; [vm_compute; reflexivity|].
  exact (pack_unpack_roundtrip demo_border (λ _, None) (λ _, false) _ _ demo_wf ltac:(vm_compute; reflexivity)).
Defined.

Lemma pack_accepts_witness :
  let args := [VInt (-5); demo_table; VPtr 77] in
  (Forall (packable MAX_DEPTH) args ∧ (∃ bytes, luaseri_pack demo_border args = Ok bytes) ∨
   ¬ Forall (packable MAX_DEPTH) args ∧ (∃ err, luaseri_pack demo_border args = Err err) ∨
   luaseri_pack demo_border args = Abort) ∧
  (Forall (packable MAX_DEPTH) args → luaseri_pack demo_border args = Abort →
   ∃ bytes, enc_values (enc demo_border (S MAX_DEPTH)) args = Ok bytes ∧ INT_MAX < Z.of_nat (length bytes)).
Proof. exact (pack_accepts demo_border (λ _, None) (λ _, false) _ demo_wf). Defined.
