(* ===== verification/Server.v ===== *)
(** * Services and worker threads: skynet-src/skynet_server.c

    Contexts with their reference counts, the delivery of messages and the
    scheduling loop, run by any number of threads whose atomic actions
    interleave.  A thread is a stack of frames; the top frame is the next atomic
    action.  The operations on message queues are those of skynet_mq.c (module
    [Mq]); of the handle registry a map from handles to contexts is kept, which
    is what [Handle] shows it to implement.  A [struct skynet_context *] is a
    [positive].

    A launch is five actions with those of its frames: it registers the context and stores
    the handle, creates the queue and counts the context, drops its reference after
    the init function, writes the [init] flag, and publishes the queue; it reads the
    context twice more for the log and the answer.  Registration and store are one
    action: until the handle is stored, nothing finds the context ([Handle] has the two
    apart).

    An action that fails is [None]: a failed assertion, an access to a freed
    context or queue or to a queue that is not there yet, or an overflow. *)
From S2P Require Import Prelude Mq MqSpec.
Local Open Scope Z_scope.

(** [struct skynet_context], without the fields of logging and profiling. *)
Record skynet_context := mkCtx {
  c_handle : Z; c_queue : positive; c_ref : nat; c_init : bool; c_cb : bool;
  c_message_count : Z }.

Definition set_ref (r : nat) (k : skynet_context) : skynet_context :=
  mkCtx (c_handle k) (c_queue k) r (c_init k) (c_cb k) (c_message_count k).
Definition set_init (k : skynet_context) : skynet_context :=
  mkCtx (c_handle k) (c_queue k) (c_ref k) true (c_cb k) (c_message_count k).
Definition set_cb (k : skynet_context) : skynet_context :=
  mkCtx (c_handle k) (c_queue k) (c_ref k) (c_init k) true (c_message_count k).
Definition count_message (k : skynet_context) : option skynet_context :=
  count ← c_int (c_message_count k + 1);
  Some (mkCtx (c_handle k) (c_queue k) (c_ref k) (c_init k) (c_cb k) count).

(** A context that is registered and has no queue yet: its address, the address that its
    queue will have, and whether it still is in the registry. *)
Record newborn := mkNew { nb_ctx : positive; nb_queue : positive; nb_reg : bool }.

(** The process: the queues, the contexts on the heap, the registry,
    [G_NODE.total], the contexts in creation by their handles, and how often
    [skynet_context_reserve] was called. *)
Record node := mkNode {
  n_world : world; n_ctxs : gmap positive skynet_context;
  n_reg : gmap Z positive; n_total : Z; n_new : gmap Z newborn; n_reserved : Z }.

Definition set_world (w : world) (n : node) : node :=
  mkNode w (n_ctxs n) (n_reg n) (n_total n) (n_new n) (n_reserved n).
Definition set_ctx (c : positive) (k : skynet_context) (n : node) : node :=
  mkNode (n_world n) (<[c := k]> (n_ctxs n)) (n_reg n) (n_total n) (n_new n) (n_reserved n).
Definition set_new (N : gmap Z newborn) (n : node) : node :=
  mkNode (n_world n) (n_ctxs n) (n_reg n) (n_total n) N (n_reserved n).

(** ** Frames *)

Inductive frame :=
  (** [skynet_context_message_dispatch] *)
  | FDispatch (q : option positive) (weight : Z)
  | FGrab (q : positive) (weight : Z)
  | FNextPop (weight : Z)
  | FLoop (q c : positive) (i num weight : Z)
  | FGot (q c : positive) (m : skynet_message) (i num weight : Z)
  | FMsg (c : positive) (m : skynet_message)
  (** [skynet_globalmq_push] *)
  | FGlobalPush (q : positive)
  (** [skynet_mq_release] and its loop *)
  | FMqRelease (q : positive)
  | FDropLoop (q : positive)
  (** [skynet_context_push]: grab, then push *)
  | FSend (dest : Z) (m : skynet_message)
  | FPush (c : positive) (m : skynet_message)
  (** [skynet_context_release], [delete_context] *)
  | FRelease (c : positive)
  | FDelete (c : positive)
  (** [skynet_handle_retire] *)
  | FRetire (h : Z)
  (** [skynet_context_new] after the registration *)
  | FQueue (h : Z) (ok : bool)
  | FInit (c q : positive) (ok : bool)
  | FSetInit (c q : positive)
  | FFailed (h : Z) (q : positive)
  (** its call of [skynet_error], and the handle that [cmd_launch] reads *)
  | FLaunched (c : positive)
  | FAnswer (c : positive)
  (** [REMOTE], until [skynet_harbor_exit] *)
  | FRemote (c : positive).

#[export] Instance frame_eq_dec : EqDecision frame.
Proof. solve_decision. Defined.

Definition PTYPE_ERROR : Z := 7.

(** [drop_message]: report an error to the source of a dropped message;
    [skynet_send] does nothing for destination 0 when there is no data. *)
Definition drop_message (handle : Z) (m : skynet_message) : option (list frame) :=
  assert! bool_decide (handle ≠ 0);
  Some (if bool_decide (msg_source m = 0) then []
        else [FSend (msg_source m) (mkMsg handle 0 0 (Z.shiftl PTYPE_ERROR 56))]).

(** [skynet_context_release]: [FDelete] when this was the last reference. *)
Definition context_release (c : positive) (n : node) : option (list frame * node) :=
  k ← n_ctxs n !! c;
  match c_ref k with
  | O => None
  | S O => Some ([FDelete c], set_ctx c (set_ref 0 k) n)
  | S r => Some ([], set_ctx c (set_ref r k) n)
  end.

(** [skynet_handle_grab]; whoever finds a context without a queue is about to use it. *)
Definition handle_grab (h : Z) (n : node) : option (option positive * node) :=
  match n_new n !! h with
  | Some (mkNew _ _ true) => None
  | _ =>
    match n_reg n !! h with
    | None => Some (None, n)
    | Some c => k ← n_ctxs n !! c; Some (Some c, set_ctx c (set_ref (S (c_ref k)) k) n)
    end
  end.

(** [skynet_handle_retire]; of a context in creation the reference of the registry is not
    the last. *)
Definition handle_retire (h : Z) (n : node) : list frame * node :=
  match n_new n !! h with
  | Some (mkNew c q true) => ([], set_new (<[h := mkNew c q false]> (n_new n)) n)
  | _ =>
    match n_reg n !! h with
    | None => ([], n)
    | Some c =>
      ([FRelease c], mkNode (n_world n) (n_ctxs n) (delete h (n_reg n)) (n_total n) (n_new n) (n_reserved n))
    end
  end.

(** [delete_context] *)
Definition delete_context (c : positive) (n : node) : option node :=
  k ← n_ctxs n !! c;
  w ← skynet_mq_mark_release (c_queue k) (n_world n);
  Some (mkNode w (delete c (n_ctxs n)) (n_reg n) (n_total n - 1) (n_new n) (n_reserved n)).

(** [skynet_mq_create] and [context_inc]. *)
Definition create_queue (h : Z) (ok : bool) (n : node) : option (list frame * node) :=
  b ← n_new n !! h;
  let (c, q, reg) := b : newborn in
  w ← skynet_mq_create q h (n_world n);
  Some ([FInit c q ok],
        mkNode w (<[c := mkCtx h q (if reg then 2 else 1) false false 0]> (n_ctxs n))
          (if reg then <[h := c]> (n_reg n) else n_reg n) (n_total n + 1) (delete h (n_new n)) (n_reserved n)).

(** The head of the loop of [skynet_context_message_dispatch], and its exit. *)
Definition dispatch_round (q c : positive) (i num weight : Z) (n : node)
    : option (list frame * node) :=
  if i <? num then
    '(m, w) ← mq_pop q (n_world n);
    Some (match m with
          | None => [FRelease c; FNextPop weight]
          | Some m => [FGot q c m i num weight]
          end, set_world w n)
  else
    k ← n_ctxs n !! c;
    assert! bool_decide (q = c_queue k);
    '(nq, w) ← skynet_globalmq_pop (n_world n);
    Some (match nq with
          | Some nq => [FGlobalPush q; FRelease c; FDispatch (Some nq) weight]
          | None => [FRelease c; FDispatch (Some q) weight]
          end, set_world w n).

(** Its body, once a message is popped. *)
Definition dispatch_message (q c : positive) (m : skynet_message) (i num weight : Z) (n : node)
    : option (list frame * node) :=
  mq ← gq_mqs (n_world n) !! q;
  let num := if (i =? 0) && (0 <=? weight) then Z.shiftr (skynet_mq_length mq) weight else num in
  let n := set_world (set_mq q (skynet_mq_overload mq).2 (n_world n)) n in
  k ← n_ctxs n !! c;
  let rest := FLoop q c (i + 1) num weight in
  if c_cb k then
    assert! c_init k;
    k ← count_message k;
    Some ([FMsg c m; rest], set_ctx c k n)
  else Some ([rest], n).

(** The next atomic action of a thread. *)
Definition exec (f : frame) (n : node) : option (list frame * node) :=
  match f with
  | FDispatch None weight =>
      '(q, w) ← skynet_globalmq_pop (n_world n);
      Some ([match q with Some q => FGrab q weight | None => FDispatch None weight end], set_world w n)
  | FDispatch (Some q) weight => Some ([FGrab q weight], n)
  | FGrab q weight =>
      mq ← gq_mqs (n_world n) !! q;
      '(c, n) ← handle_grab (mq_handle mq) n;
      match c with
      | Some c => Some ([FLoop q c 0 1 weight], n)
      | None => Some ([FMqRelease q; FNextPop weight], n)
      end
  | FNextPop weight =>
      '(q, w) ← skynet_globalmq_pop (n_world n); Some ([FDispatch q weight], set_world w n)
  | FLoop q c i num weight => dispatch_round q c i num weight n
  | FGot q c m i num weight => dispatch_message q c m i num weight n
  | FMsg c m => Some ([], n)
  | FGlobalPush q => w ← skynet_globalmq_push q (n_world n); Some ([], set_world w n)
  | FMqRelease q =>
      mq ← gq_mqs (n_world n) !! q;
      if bool_decide (mq_release mq ≠ 0) then Some ([FDropLoop q], n)
      else w ← skynet_globalmq_push q (n_world n); Some ([], set_world w n)
  | FDropLoop q =>
      mq ← gq_mqs (n_world n) !! q;
      '(m, w) ← mq_pop q (n_world n);
      match m with
      | Some m => fs ← drop_message (mq_handle mq) m; Some (fs ++ [FDropLoop q], set_world w n)
      | None => w ← mq_free q w; Some ([], set_world w n)
      end
  | FSend dest m =>
      '(c, n) ← handle_grab dest n;
      Some (match c with Some c => [FPush c m] | None => [] end, n)
  | FPush c m =>
      k ← n_ctxs n !! c;
      w ← skynet_mq_push (c_queue k) m (n_world n); Some ([FRelease c], set_world w n)
  | FRelease c => context_release c n
  | FDelete c => n ← delete_context c n; Some ([], n)
  | FRetire h => Some (handle_retire h n)
  | FQueue h ok => create_queue h ok n
  | FInit c q ok =>
      k ← n_ctxs n !! c;
      '(fs, n) ← context_release c n;
      if ok then
        match fs with
        | [] => Some ([FSetInit c q], n)
        | _ => Some (fs ++ [FGlobalPush q], n)
        end
      else Some (fs ++ [FFailed (c_handle k) q], n)
  | FSetInit c q =>
      k ← n_ctxs n !! c;
      Some ([FGlobalPush q; FLaunched c; FAnswer c], set_ctx c (set_init k) n)
  | FFailed h q => let '(fs, n) := handle_retire h n in Some (fs ++ [FMqRelease q], n)
  | FLaunched c | FAnswer c => _ ← n_ctxs n !! c; Some ([], n)
  | FRemote c => context_release c n
  end.

(** ** Threads *)

(** What code outside this file asks for: a thread that starts (a worker, the
    timer, the socket thread) or the callback or init function of a service. *)
Inductive request :=
  | RSend (dest : Z) (m : skynet_message)
  | RRetire (h : Z)
  | RCallback
  | RLaunch (c q : positive) (h : Z) (ok : bool).

(** [skynet_context_new] up to the store of the handle: [c] is the address that the
    allocator returns and [q] the one that it will return for the queue, [h] the handle
    the registry chooses; it is not 0 and, the handle counter having 24 bits, not that
    of a queue that still exists. *)
Definition context_new (c q : positive) (h : Z) (ok : bool) (n : node) : option (list frame * node) :=
  assert! bool_decide (h ≠ 0);
  assert! bool_decide (n_ctxs n !! c = None);
  assert! bool_decide (gq_mqs (n_world n) !! q = None);
  assert! bool_decide (n_reg n !! h = None);
  assert! bool_decide (n_new n !! h = None);
  assert! bool_decide (map_Forall (λ _ b, nb_ctx b ≠ c ∧ nb_queue b ≠ q) (n_new n));
  assert! negb (existsb (λ x, mq_handle x.2 =? h) (map_to_list (gq_mqs (n_world n))));
  Some ([FQueue h ok], set_new (<[h := mkNew c q true]> (n_new n)) n).

Definition serve (r : request) (self : option positive) (n : node) : option (list frame * node) :=
  match r with
  | RSend dest m => Some ([FSend dest m], n)
  | RRetire h => Some ([FRetire h], n)
  | RCallback =>
      c ← self; k ← n_ctxs n !! c; Some ([], set_ctx c (set_cb k) n)
  | RLaunch c q h ok => context_new c q h ok n
  end.

Record system := mkSys { s_node : node; s_threads : list (list frame) }.

(** The service whose code the thread runs.  Between two actions of its own
    any other thread may send too: [skynet_error] sends to the logger. *)
Definition running (st : list frame) : option positive :=
  match st with
  | FMsg c _ :: _ | FInit c _ _ :: _ => Some c
  | _ => None
  end.

(** [skynet_context_reserve] *)
Definition context_reserve (c : positive) (n : node) : option node :=
  k ← n_ctxs n !! c;
  Some (mkNode (n_world n) (<[c := set_ref (S (c_ref k)) k]> (n_ctxs n)) (n_reg n) (n_total n - 1) (n_new n) (n_reserved n + 1)).

(** [AHarbor]: the init function that runs in thread [t] calls [skynet_harbor_start], as
    [harbor_init] does; what [REMOTE] holds is a thread of its own. *)
Inductive action :=
  | ARun (t : nat)
  | ARequest (t : nat) (r : request)
  | ASpawn (worker : option Z)
  | AHarbor (t : nat).

Definition step (s : system) (a : action) : option system :=
  match a with
  | ARun t =>
      st ← s_threads s !! t;
      match st with
      | [] => None
      | f :: st => '(fs, n) ← exec f (s_node s); Some (mkSys n (<[t := fs ++ st]> (s_threads s)))
      end
  | ARequest t r =>
      st ← s_threads s !! t;
      '(fs, n) ← serve r (running st) (s_node s);
      Some (mkSys n (<[t := fs ++ st]> (s_threads s)))
  | ASpawn w =>
      Some (mkSys (s_node s)
        (s_threads s ++ [match w with Some weight => [FDispatch None weight] | None => [] end]))
  | AHarbor t =>
      st ← s_threads s !! t;
      match st with
      | FInit c _ _ :: _ =>
        n ← context_reserve c (s_node s);
        Some (mkSys n (s_threads s ++ [[FRemote c]]))
      | _ => None
      end
  end.

Definition init_system : system := mkSys (mkNode skynet_mq_init ∅ ∅ 0 ∅ 0) [].

(** ** What frames own and hold *)

(** [f] is the only place from which queue [q] can be dispatched or requeued. *)
Definition owns (q : positive) (f : frame) : nat :=
  match f with
  | FDispatch (Some q') _ | FGrab q' _ | FLoop q' _ _ _ _ | FGot q' _ _ _ _ _ | FGlobalPush q'
  | FMqRelease q' | FDropLoop q' | FInit _ q' _ | FSetInit _ q' | FFailed _ q' =>
      if decide (q = q') then 1 else 0
  | _ => 0
  end.

(** [f] accounts for one reference to context [c]. *)
Definition holds (c : positive) (f : frame) : nat :=
  match f with
  | FLoop _ c' _ _ _ | FGot _ c' _ _ _ _ | FPush c' _ | FRelease c' | FInit c' _ _ | FRemote c' =>
      if decide (c = c') then 1 else 0
  | _ => 0
  end.

(** [f] is about to free context [c]. *)
Definition deletes (c : positive) (f : frame) : nat :=
  match f with FDelete c' => if decide (c = c') then 1 else 0 | _ => 0 end.

(** [f] is a launch that has not published queue [q] yet. *)
Definition launches (q : positive) (f : frame) : nat :=
  match f with
  | FInit _ q' _ | FSetInit _ q' | FFailed _ q' => if decide (q = q') then 1 else 0
  | _ => 0
  end.

(** [f] creates the queue of the context with handle [h]. *)
Definition waits (h : Z) (f : frame) : nat :=
  match f with FQueue h' _ => if decide (h = h') then 1 else 0 | _ => 0 end.

Fixpoint total (P : frame → nat) (fs : list frame) : nat :=
  match fs with
  | [] => 0
  | f :: fs => P f + total P fs
  end.

Definition cnt (P : frame → nat) (ts : list (list frame)) : nat := total P (concat ts).

Lemma total_app P fs gs : total P (fs ++ gs) = (total P fs + total P gs)%nat.
Proof. induction fs as [|f fs IH]; cbn [app total]; lia. Qed.

Lemma cnt_replace P ts t st st' :
  ts !! t = Some st → (cnt P (<[t := st']> ts) + total P st = cnt P ts + total P st')%nat.
Proof.
  unfold cnt. revert t. induction ts as [|u ts IH]; intros [|t] H; [done..| |].
  - injection H as ->. change (<[0%nat := st']> (st :: ts)) with (st' :: ts).
    cbn [concat]. rewrite !total_app. lia.
  - change (<[S t := st']> (u :: ts)) with (u :: <[t := st']> ts). specialize (IH t H).
    cbn [concat]. rewrite !total_app. lia.
Qed.

Lemma cnt_ge P Q ts :
  (∀ f, (Q f ≤ P f)%nat) → (cnt Q ts ≤ cnt P ts)%nat.
Proof. intros H. unfold cnt. induction (concat ts) as [|f fs IH]; cbn [total]; [lia|]. specialize (H f). lia. Qed.

(** A frame that [P] counts and [Q] does not. *)
Lemma cnt_gap P Q ts t f st :
  (∀ f, (Q f ≤ P f)%nat) → ts !! t = Some (f :: st) → (cnt Q ts + P f ≤ cnt P ts + Q f)%nat.
Proof.
  intros H Ht. pose proof (cnt_replace P ts t (f :: st) st Ht) as E1.
  pose proof (cnt_replace Q ts t (f :: st) st Ht) as E2.
  pose proof (cnt_ge P Q (<[t := st]> ts) H). cbn [total] in E1, E2. lia.
Qed.

Lemma cnt_elem P ts st f : st ∈ ts → f ∈ st → (P f ≤ cnt P ts)%nat.
Proof.
  intros Hst Hf. unfold cnt.
  assert (f ∈ concat ts) as Hin by (apply list_elem_of_In, in_concat; exists st; by rewrite <- !list_elem_of_In).
  clear -Hin. induction (concat ts) as [|g fs IH]; [by apply not_elem_of_nil in Hin|].
  cbn [total]. apply elem_of_cons in Hin as [->|Hin]; [lia|]. specialize (IH Hin). lia.
Qed.

(** ** The invariant *)

(** Queue [q] must be at one place if it is scheduled or being released. *)
Definition need (x : option aqueue) : nat :=
  match x with Some x => if aq_sched x || aq_dead x then 1 else 0 | None => 0 end.

Definition tok (l : list positive) (q : positive) : nat := length (filter (λ q', q' = q) l).

Notation ctxs := (gmap positive skynet_context).

Definition refs (K : ctxs) (c : positive) : nat :=
  match K !! c with Some k => c_ref k | None => 0 end.

Definition isdel (K : ctxs) (c : positive) : nat :=
  match K !! c with Some k => if decide (c_ref k = 0%nat) then 1 else 0 | None => 0 end.

(** The reference of the registry. *)
Definition regd (K : ctxs) (G : gmap Z positive) (c : positive) : nat :=
  match K !! c with
  | Some k => if decide (G !! c_handle k = Some c) then 1 else 0
  | None => 0
  end.

Definition frame_ok (a : asys) (K : ctxs) (f : frame) : Prop :=
  match f with
  | FLoop q c _ _ _ | FGot q c _ _ _ _ => ∀ k, K !! c = Some k → c_queue k = q ∧ c_init k = true
  | FInit c q _ => ∀ k, K !! c = Some k → c_queue k = q
  | FSetInit c q => ∀ c' k, K !! c' = Some k → c_queue k = q → c' = c
  | FFailed h q => ∀ x, as_qs a !! q = Some x → aq_handle x = h
  | FDropLoop q => ∀ x, as_qs a !! q = Some x → aq_dead x = true
  | _ => True
  end.

Record inv (a : asys) (K : ctxs) (G : gmap Z positive) (ts : list (list frame)) : Prop := {
  i_tok : ∀ q, (tok (as_run a) q + cnt (owns q) ts = need (as_qs a !! q))%nat;
  i_idle : ∀ q x, as_qs a !! q = Some x → aq_sched x = false → aq_dead x = false → aq_msgs x = [];
  i_ref : ∀ c, (regd K G c + cnt (holds c) ts = refs K c)%nat;
  i_del : ∀ c, cnt (deletes c) ts = isdel K c;
  i_reg : ∀ h c, G !! h = Some c → ∃ k, K !! c = Some k ∧ c_handle k = h;
  i_ctx : ∀ c k, K !! c = Some k →
    ∃ x, as_qs a !! c_queue k = Some x ∧ aq_dead x = false ∧ aq_handle x = c_handle k;
  i_handle : ∀ q q' x x', as_qs a !! q = Some x → as_qs a !! q' = Some x' →
    aq_handle x = aq_handle x' → q = q';
  i_nonzero : ∀ q x, as_qs a !! q = Some x → aq_handle x ≠ 0;
  i_inj : ∀ c c' k k', K !! c = Some k → K !! c' = Some k' → c_handle k = c_handle k' → c = c';
  i_frame : ∀ st f, st ∈ ts → f ∈ st → frame_ok a K f;
  i_init : ∀ c k, K !! c = Some k → c_init k = false → G !! c_handle k = Some c →
    (1 ≤ cnt (launches (c_queue k)) ts)%nat }.

Lemma launches_owns q f : (launches q f ≤ owns q f)%nat.
Proof. destruct f as [[]| | | | | | | | | | | | | | | | | | | |]; cbn; repeat case_decide; lia. Qed.

(** Steps that keep the identity of queues and contexts. *)
Definition same_qs (a a' : asys) : Prop :=
  ∀ q, option_Forall2 (λ x x', aq_handle x = aq_handle x' ∧ aq_dead x = aq_dead x')
    (as_qs a !! q) (as_qs a' !! q).

Definition same_ctxs (K K' : ctxs) : Prop :=
  ∀ c, option_Forall2 (λ k k', c_handle k = c_handle k' ∧ c_queue k = c_queue k' ∧
    (c_init k = true → c_init k' = true)) (K !! c) (K' !! c).

Lemma same_qs_r a a' q x' : same_qs a a' → as_qs a' !! q = Some x' →
  ∃ x, as_qs a !! q = Some x ∧ aq_handle x = aq_handle x' ∧ aq_dead x = aq_dead x'.
Proof. intros H E. specialize (H q). rewrite E in H. inversion H as [x ? ?|]; subst. eauto. Qed.

Lemma same_qs_l a a' q x : same_qs a a' → as_qs a !! q = Some x →
  ∃ x', as_qs a' !! q = Some x' ∧ aq_handle x = aq_handle x' ∧ aq_dead x = aq_dead x'.
Proof. intros H E. specialize (H q). rewrite E in H. inversion H as [? y ?|]; subst. eauto. Qed.

Lemma same_ctxs_r K K' c k' : same_ctxs K K' → K' !! c = Some k' →
  ∃ k, K !! c = Some k ∧ c_handle k = c_handle k' ∧ c_queue k = c_queue k' ∧
    (c_init k = true → c_init k' = true).
Proof. intros H E. specialize (H c). rewrite E in H. inversion H as [x ? ?|]; subst. eauto. Qed.

Lemma same_ctxs_l K K' c k : same_ctxs K K' → K !! c = Some k →
  ∃ k', K' !! c = Some k' ∧ c_handle k = c_handle k' ∧ c_queue k = c_queue k' ∧
    (c_init k = true → c_init k' = true).
Proof. intros H E. specialize (H c). rewrite E in H. inversion H as [? y ?|]; subst. eauto. Qed.

Lemma same_qs_refl a : same_qs a a.
Proof. intros q. destruct (as_qs a !! q); constructor. by split. Qed.

Lemma same_ctxs_refl K : same_ctxs K K.
Proof. intros c. destruct (K !! c); constructor. by split_and!. Qed.

Lemma same_qs_eq a a' : as_qs a' = as_qs a → same_qs a a'.
Proof. intros E q. rewrite E. apply same_qs_refl. Qed.

Lemma same_qs_insert a l q x x' :
  as_qs a !! q = Some x → aq_handle x = aq_handle x' → aq_dead x = aq_dead x' →
  same_qs a (mkAsys l (<[q := x']> (as_qs a))).
Proof.
  intros Hx Hh Hd q'. cbn [as_qs]. destruct (decide (q = q')) as [<-|].
  - rewrite lookup_insert_eq, Hx. by constructor.
  - rewrite lookup_insert_ne by done. apply same_qs_refl.
Qed.

Lemma same_ctxs_insert K c k k' :
  K !! c = Some k → c_handle k = c_handle k' → c_queue k = c_queue k' →
  (c_init k = true → c_init k' = true) → same_ctxs K (<[c := k']> K).
Proof.
  intros Hk ? ? ? c'. destruct (decide (c = c')) as [<-|].
  - rewrite lookup_insert_eq, Hk. by constructor.
  - rewrite lookup_insert_ne by done. apply same_ctxs_refl.
Qed.

Lemma frame_ok_same a a' K K' f :
  same_qs a a' → same_ctxs K K' → frame_ok a K f → frame_ok a' K' f.
Proof.
  intros Hq Hk. destruct f; cbn; try done; intros H.
  - intros k' E. destruct (same_ctxs_r _ _ _ _ Hk E) as (k & E' & _ & <- & Hi). destruct (H k E'). auto.
  - intros k' E. destruct (same_ctxs_r _ _ _ _ Hk E) as (k & E' & _ & <- & Hi). destruct (H k E'). auto.
  - intros x' E. destruct (same_qs_r _ _ _ _ Hq E) as (x & E' & _ & <-). auto.
  - intros k' E. destruct (same_ctxs_r _ _ _ _ Hk E) as (k & E' & _ & <- & Hi). auto.
  - intros c' k' E. destruct (same_ctxs_r _ _ _ _ Hk E) as (k & E' & _ & <- & Hi). eauto.
  - intros x' E. destruct (same_qs_r _ _ _ _ Hq E) as (x & E' & <- & _). auto.
Qed.

Lemma in_replace {A} (ts : list (list A)) t f st fs u g :
  ts !! t = Some (f :: st) → u ∈ <[t := fs ++ st]> ts → g ∈ u → g ∈ fs ∨ ∃ u', u' ∈ ts ∧ g ∈ u'.
Proof.
  intros Ht Hu Hg. apply list_elem_of_lookup in Hu as [j Hj].
  destruct (decide (t = j)) as [<-|].
  - rewrite list_lookup_insert_eq in Hj by (by eapply lookup_lt_Some). simplify_eq.
    apply elem_of_app in Hg as [?|?]; [by left|]. right. exists (f :: st).
    split; [by eapply list_elem_of_lookup_2|]. by right.
  - rewrite list_lookup_insert_ne in Hj by done. right. exists u. split; [|done].
    by eapply list_elem_of_lookup_2.
Qed.

Lemma inv_same a K G ts t f st fs a' K' G' :
  inv a K G ts → ts !! t = Some (f :: st) → same_qs a a' → same_ctxs K K' → G' ⊆ G →
  (∀ q, (tok (as_run a') q + total (owns q) fs + need (as_qs a !! q) =
         tok (as_run a) q + owns q f + need (as_qs a' !! q))%nat) →
  (∀ q x, as_qs a' !! q = Some x → aq_sched x = false → aq_dead x = false → aq_msgs x = []) →
  (∀ c, (regd K' G' c + total (holds c) fs + refs K c = regd K G c + holds c f + refs K' c)%nat) →
  (∀ c, (total (deletes c) fs + isdel K c = deletes c f + isdel K' c)%nat) →
  Forall (frame_ok a' K') fs →
  (∀ c k, K' !! c = Some k → c_init k = false → G' !! c_handle k = Some c →
    (launches (c_queue k) f ≤ total (launches (c_queue k)) fs)%nat) →
  inv a' K' G' (<[t := fs ++ st]> ts).
Proof.
  intros I Ht Hq Hk HG Htok Hidle Href Hdel Hok Hinit. pose proof I as [].
  assert (∀ P, cnt P (<[t := fs ++ st]> ts) + P f = cnt P ts + total P fs)%nat as HC.
  { intros P. pose proof (cnt_replace P _ _ _ (fs ++ st) Ht) as E.
    rewrite total_app in E. cbn [total] in E. lia. }
  split; try done.
  - intros q. specialize (HC (owns q)). specialize (Htok q). specialize (i_tok0 q). lia.
  - intros c. specialize (HC (holds c)). specialize (Href c). specialize (i_ref0 c). lia.
  - intros c. specialize (HC (deletes c)). specialize (Hdel c). specialize (i_del0 c). lia.
  - intros h c E. destruct (i_reg0 h c) as (k & E' & <-); [by eapply lookup_weaken|].
    destruct (same_ctxs_l _ _ _ _ Hk E') as (k' & ? & ? & _). eauto.
  - intros c k' E. destruct (same_ctxs_r _ _ _ _ Hk E) as (k & E' & <- & <- & _).
    destruct (i_ctx0 c k E') as (x & Ex & Hd & Hh).
    destruct (same_qs_l _ _ _ _ Hq Ex) as (x' & ? & ? & ?). exists x'. split_and!; congruence.
  - intros q q' x x' E E' Hh. destruct (same_qs_r _ _ _ _ Hq E) as (y & Ey & Hy & _).
    destruct (same_qs_r _ _ _ _ Hq E') as (y' & Ey' & Hy' & _). eapply i_handle0; eauto. congruence.
  - intros q x E. destruct (same_qs_r _ _ _ _ Hq E) as (y & Ey & <- & _). eauto.
  - intros c c' k k' E E' Hh. destruct (same_ctxs_r _ _ _ _ Hk E) as (y & Ey & Hy & _).
    destruct (same_ctxs_r _ _ _ _ Hk E') as (y' & Ey' & Hy' & _). eapply i_inj0; eauto. congruence.
  - intros u g Hu Hg. destruct (in_replace _ _ _ _ _ _ _ Ht Hu Hg) as [Hg'|(u' & Hu' & Hg')].
    + by eapply Forall_forall in Hok.
    + eapply frame_ok_same; eauto.
  - intros c k' E Hi HGc. pose proof (Hinit c k' E Hi HGc).
    destruct (same_ctxs_r _ _ _ _ Hk E) as (k & E' & Hh & Hqq & Hm). rewrite <- Hqq in *.
    assert (c_init k = false) as Hi' by (destruct (c_init k); [by rewrite Hm in Hi|done]).
    pose proof (i_init0 c k E' Hi') as H1. rewrite Hh in H1. specialize (H1 (lookup_weaken _ _ _ _ HGc HG)).
    specialize (HC (launches (c_queue k))). lia.
Qed.

(** ** Reading the invariant *)

Lemma tok_cons q l q' : tok (q :: l) q' = ((if decide (q' = q) then 1 else 0) + tok l q')%nat.
Proof.
  unfold tok. rewrite filter_cons. destruct (decide (q = q')) as [->|];
    destruct (decide _); try done; cbn [length]; lia.
Qed.

Lemma tok_snoc q l q' : tok (l ++ [q]) q' = (tok l q' + (if decide (q' = q) then 1 else 0))%nat.
Proof.
  unfold tok. rewrite filter_app, length_app. f_equal. rewrite filter_cons, filter_nil.
  destruct (decide (q = q')) as [->|]; destruct (decide _); done.
Qed.

Lemma tok_notin l q : tok l q = 0%nat → q ∉ l.
Proof.
  intros H Hin. assert (q ∈ filter (λ q', q' = q) l) as Hf by (by apply list_elem_of_filter).
  unfold tok in H. destruct (filter (λ q', q' = q) l); [by apply not_elem_of_nil in Hf|done].
Qed.

Lemma tok_elem l q : q ∈ l → (1 ≤ tok l q)%nat.
Proof. intros H. destruct (tok l q) eqn:E; [|lia]. by apply tok_notin in E. Qed.

Lemma need_le x : (need x ≤ 1)%nat.
Proof. destruct x as [x|]; cbn; [|lia]. destruct (aq_sched x || aq_dead x); lia. Qed.

Lemma owner a K G ts t f st q :
  inv a K G ts → ts !! t = Some (f :: st) → owns q f = 1%nat →
  q ∉ as_run a ∧ ∃ x, as_qs a !! q = Some x ∧ need (Some x) = 1%nat.
Proof.
  intros I Ht Ho. pose proof (i_tok _ _ _ _ I q) as Hq.
  assert (1 ≤ cnt (owns q) ts)%nat.
  { rewrite <- Ho. eapply cnt_elem; [by eapply list_elem_of_lookup_2|left]. }
  pose proof (need_le (as_qs a !! q)).
  destruct (as_qs a !! q) as [x|] eqn:E; cbn [need] in *; [|lia].
  split; [apply tok_notin; lia|]. exists x. split; [done|]. cbn [need]. lia.
Qed.

Lemma holder a K G ts t f st c :
  inv a K G ts → ts !! t = Some (f :: st) → holds c f = 1%nat →
  ∃ k r, K !! c = Some k ∧ c_ref k = S r.
Proof.
  intros I Ht Ho. pose proof (i_ref _ _ _ _ I c) as Hc.
  assert (1 ≤ cnt (holds c) ts)%nat.
  { rewrite <- Ho. eapply cnt_elem; [by eapply list_elem_of_lookup_2|left]. }
  unfold refs in Hc. destruct (K !! c) as [k|]; [|lia].
  destruct (c_ref k) as [|r] eqn:E; [lia|]. eauto.
Qed.

Lemma top_frame a K G ts t f st : inv a K G ts → ts !! t = Some (f :: st) → frame_ok a K f.
Proof. intros I Ht. eapply (i_frame _ _ _ _ I); [by eapply list_elem_of_lookup_2|left]. Qed.

(** The context that a queue's owner finds under the queue's handle. *)
Lemma owner_grab a K G ts t f st q x c :
  inv a K G ts → ts !! t = Some (f :: st) → owns q f = 1%nat → launches q f = 0%nat →
  as_qs a !! q = Some x → G !! aq_handle x = Some c →
  ∃ k r, K !! c = Some k ∧ c_ref k = S r ∧ c_handle k = aq_handle x ∧ c_queue k = q ∧ c_init k = true.
Proof.
  intros I Ht Ho Hl Hx HG. pose proof I as [].
  destruct (i_reg0 _ _ HG) as (k & Hk & Hh). destruct (i_ctx0 _ _ Hk) as (y & Hy & _ & Hyh).
  assert (c_queue k = q) as Hq by (eapply i_handle0; eauto; congruence).
  assert (c_init k = true) as Hi.
  { destruct (c_init k) eqn:Ei; [done|exfalso]. rewrite <- Hh in HG.
    pose proof (i_init0 _ _ Hk Ei HG) as H1. rewrite Hq in H1.
    pose proof (cnt_gap (owns q) (launches q) ts t f st (launches_owns q) Ht).
    specialize (i_tok0 q). pose proof (need_le (as_qs a !! q)). lia. }
  pose proof (i_ref0 c) as Hc. unfold regd, refs in Hc. rewrite Hk in Hc. rewrite Hh in Hc.
  rewrite decide_True in Hc by done. destruct (c_ref k) as [|r] eqn:E; [lia|].
  exists k, r. by split_and!.
Qed.

(** ** Each action keeps the invariant *)

Lemma regd_insert K G c k k' c' :
  K !! c = Some k → c_handle k' = c_handle k → regd (<[c := k']> K) G c' = regd K G c'.
Proof.
  intros Hk Hh. unfold regd. destruct (decide (c = c')) as [<-|].
  - by rewrite lookup_insert_eq, Hk, Hh.
  - by rewrite lookup_insert_ne.
Qed.

Lemma refs_insert K c k' c' :
  refs (<[c := k']> K) c' = if decide (c' = c) then c_ref k' else refs K c'.
Proof.
  unfold refs. destruct (decide (c' = c)) as [->|]; [by rewrite lookup_insert_eq|].
  by rewrite lookup_insert_ne.
Qed.

Lemma isdel_insert K c k' c' :
  isdel (<[c := k']> K) c' =
    if decide (c' = c) then if decide (c_ref k' = 0%nat) then 1%nat else 0%nat else isdel K c'.
Proof.
  unfold isdel. destruct (decide (c' = c)) as [->|]; [by rewrite lookup_insert_eq|].
  by rewrite lookup_insert_ne.
Qed.

Lemma regd_retire K G h c k c' :
  G !! h = Some c → K !! c = Some k → c_handle k = h →
  (regd K (delete h G) c' + (if decide (c' = c) then 1 else 0) = regd K G c')%nat.
Proof.
  intros HG Hk Hh. unfold regd. destruct (decide (c' = c)) as [->|Hne].
  - by rewrite Hk, Hh, lookup_delete_eq, (decide_True _ _ HG).
  - destruct (K !! c') as [k'|]; [|lia]. destruct (decide (c_handle k' = h)) as [->|].
    + rewrite lookup_delete_eq, HG. rewrite !decide_False by congruence. lia.
    + rewrite lookup_delete_ne by done. lia.
Qed.

Lemma isdel_pos K c k : K !! c = Some k → c_ref k ≠ 0%nat → isdel K c = 0%nat.
Proof. intros Hk Hr. unfold isdel. rewrite Hk. by rewrite decide_False. Qed.

(** Steps that change queues only. *)
Lemma inv_queue a K G ts t f st fs a' :
  inv a K G ts → ts !! t = Some (f :: st) → same_qs a a' →
  (∀ q, (tok (as_run a') q + total (owns q) fs + need (as_qs a !! q) =
         tok (as_run a) q + owns q f + need (as_qs a' !! q))%nat) →
  (∀ q x, as_qs a' !! q = Some x → aq_sched x = false → aq_dead x = false → aq_msgs x = []) →
  (∀ c, total (holds c) fs = holds c f) →
  (∀ c, total (deletes c) fs = deletes c f) →
  (∀ q, (launches q f ≤ total (launches q) fs)%nat) →
  Forall (frame_ok a' K) fs →
  inv a' K G (<[t := fs ++ st]> ts).
Proof.
  intros I Ht Hq Htok Hidle Hh Hd Hl Hok.
  eapply inv_same; [exact I|exact Ht|exact Hq|apply same_ctxs_refl|done|done|done| | |done|].
  - intros c. rewrite Hh. lia.
  - intros c. rewrite Hd. lia.
  - intros c k _ _ _. apply Hl.
Qed.

(** Steps of the stack alone. *)
Lemma inv_stack a K G ts t f st fs :
  inv a K G ts → ts !! t = Some (f :: st) →
  (∀ q, total (owns q) fs = owns q f) → (∀ c, total (holds c) fs = holds c f) →
  (∀ c, total (deletes c) fs = deletes c f) →
  (∀ q, (launches q f ≤ total (launches q) fs)%nat) →
  Forall (frame_ok a K) fs →
  inv a K G (<[t := fs ++ st]> ts).
Proof.
  intros I Ht Ho ????. eapply inv_queue; try done; [apply same_qs_refl| |apply I].
  intros q. rewrite Ho. lia.
Qed.

Ltac counts :=
  intros; cbn [total owns holds deletes launches app]; rewrite ?tok_cons, ?tok_snoc;
  repeat case_decide; subst; lia.

Ltac frames := cbn [app]; repeat first [apply Forall_nil_2 | apply Forall_cons_2]; cbn [frame_ok]; try done.

Lemma inv_globalpop a K G ts t f st fs :
  inv a K G ts → ts !! t = Some (f :: st) →
  (∀ q, (total (owns q) fs = owns q f +
    match (a_globalpop a).1 with Some q' => if decide (q = q') then 1 else 0 | None => 0 end)%nat) →
  (∀ c, total (holds c) fs = holds c f) → (∀ c, total (deletes c) fs = deletes c f) →
  (∀ q, (launches q f ≤ total (launches q) fs)%nat) → Forall (frame_ok a K) fs →
  inv (a_globalpop a).2 K G (<[t := fs ++ st]> ts).
Proof.
  intros I Ht Ho Hh Hd Hl Hok.
  assert (as_qs (a_globalpop a).2 = as_qs a) as Eq by (unfold a_globalpop; by destruct (as_run a)).
  eapply inv_queue; try done.
  - by apply same_qs_eq.
  - intros q. rewrite Ho, Eq. unfold a_globalpop. destruct (as_run a) as [|q' l] eqn:E; cbn [fst snd as_run].
    + rewrite E. lia.
    + rewrite tok_cons. case_decide; lia.
  - rewrite Eq. apply I.
  - eapply Forall_impl; [exact Hok|]. intros g Hg. eapply frame_ok_same; [by apply same_qs_eq|apply same_ctxs_refl|done].
Qed.

(** The owner of an idle or released queue may requeue it. *)
Lemma inv_globalpush a K G ts t f st fs q :
  inv a K G ts → ts !! t = Some (f :: st) →
  (∀ q', (owns q' f = total (owns q') fs + if decide (q' = q) then 1 else 0)%nat) →
  (∀ c, total (holds c) fs = holds c f) → (∀ c, total (deletes c) fs = deletes c f) →
  (∀ q', (launches q' f ≤ total (launches q') fs)%nat) → Forall (frame_ok a K) fs →
  inv (a_globalpush q a) K G (<[t := fs ++ st]> ts).
Proof.
  intros I Ht Ho Hh Hd Hl Hok. eapply inv_queue; try done.
  - by apply same_qs_eq.
  - intros q'. cbn [a_globalpush as_run as_qs]. rewrite Ho, tok_snoc. lia.
  - apply I.
Qed.

(** Steps that change one context. *)
Lemma inv_ctx a K G ts t f st fs c k k' :
  inv a K G ts → ts !! t = Some (f :: st) → K !! c = Some k →
  c_handle k = c_handle k' → c_queue k = c_queue k' → (c_init k = true → c_init k' = true) →
  (∀ q, total (owns q) fs = owns q f) →
  (∀ c', (total (holds c') fs + (if decide (c' = c) then c_ref k else 0) =
          holds c' f + (if decide (c' = c) then c_ref k' else 0))%nat) →
  (∀ c', (total (deletes c') fs + (if decide (c' = c ∧ c_ref k = 0%nat) then 1 else 0) =
          deletes c' f + (if decide (c' = c ∧ c_ref k' = 0%nat) then 1 else 0))%nat) →
  Forall (frame_ok a (<[c := k']> K)) fs →
  (∀ c'' k'', <[c := k']> K !! c'' = Some k'' → c_init k'' = false → G !! c_handle k'' = Some c'' →
    (launches (c_queue k'') f ≤ total (launches (c_queue k'')) fs)%nat) →
  inv a (<[c := k']> K) G (<[t := fs ++ st]> ts).
Proof.
  intros I Ht Hk Hh Hq Hi Ho Hho Hde Hok Hl. eapply inv_same; try done.
  - apply same_qs_refl.
  - by eapply same_ctxs_insert.
  - intros q. rewrite Ho. lia.
  - apply I.
  - intros c'. erewrite regd_insert by done. rewrite refs_insert. specialize (Hho c').
    unfold refs. destruct (decide (c' = c)) as [->|]; rewrite ?Hk; lia.
  - intros c'. rewrite isdel_insert. specialize (Hde c'). unfold isdel.
    destruct (decide (c' = c)) as [->|]; rewrite ?Hk; repeat case_decide; lia.
Qed.

Lemma overload_repr w a q x mq :
  sys_repr w a → as_qs a !! q = Some x → gq_mqs w !! q = Some mq → aq_repr mq x →
  sys_repr (set_mq q (skynet_mq_overload mq).2 w) a.
Proof.
  intros R Hx Hq [A1 A2 A3 A4]. assert (a = mkAsys (as_run a) (<[q := x]> (as_qs a))) as ->.
  { rewrite insert_id by done. by destruct a. }
  assert (aq_repr (skynet_mq_overload mq).2 x ∧ mq_next (skynet_mq_overload mq).2 = mq_next mq) as [Ha Hn].
  { unfold skynet_mq_overload. case_bool_decide; (split; [|done]); split; try done.
    eapply ring_repr_ext; [exact A1|done..|apply A1]. }
  by eapply sys_repr_update.
Qed.

(** The owner of a released queue frees it. *)
Lemma inv_free a K G ts t st q x a' :
  inv a K G ts → ts !! t = Some (FDropLoop q :: st) → as_qs a !! q = Some x →
  as_run a' = as_run a → as_qs a' = delete q (as_qs a) →
  inv a' K G (<[t := st]> ts).
Proof.
  intros I Ht Hx Hrun Hqs. pose proof (top_frame _ _ _ _ _ _ _ I Ht) as Hd. cbn [frame_ok] in Hd.
  specialize (Hd x Hx).
  destruct (owner _ _ _ _ _ _ _ q I Ht) as (Hn & x' & Hx' & Hneed); [cbn; by rewrite decide_True|].
  rewrite Hx in Hx'. injection Hx' as <-. pose proof I as [].
  assert (∀ P, cnt P (<[t := st]> ts) + P (FDropLoop q) = cnt P ts)%nat as HC.
  { intros P. pose proof (cnt_replace P _ _ _ st Ht) as E. cbn [total] in E. lia. }
  assert (∀ q' y, as_qs a' !! q' = Some y → q' ≠ q ∧ as_qs a !! q' = Some y) as Hl.
  { intros q' y. rewrite Hqs. intros E%lookup_delete_Some. naive_solver. }
  split.
  - intros q'. rewrite Hrun, Hqs. specialize (HC (owns q')). specialize (i_tok0 q'). cbn [owns] in HC.
    destruct (decide (q' = q)) as [->|].
    + rewrite lookup_delete_eq. rewrite Hx in i_tok0. cbn [need] in *. lia.
    + rewrite lookup_delete_ne by done. lia.
  - intros q' y E. apply Hl in E as [_ E]. eauto.
  - intros c. specialize (HC (holds c)). cbn [holds] in HC. specialize (i_ref0 c). lia.
  - intros c. specialize (HC (deletes c)). cbn [deletes] in HC. specialize (i_del0 c). lia.
  - done.
  - intros c k E. destruct (i_ctx0 c k E) as (y & Ey & Hyd & Hyh). exists y. split; [|done].
    rewrite Hqs, lookup_delete_ne; [done|]. intros Eq. congruence.
  - intros q1 q2 y1 y2 E1 E2. apply Hl in E1 as [_ E1]. apply Hl in E2 as [_ E2]. eauto.
  - intros q' y E. apply Hl in E as [_ E]. eauto.
  - done.
  - intros u g Hu Hg.
    destruct (in_replace _ _ _ _ [] _ _ Ht Hu Hg) as [Hg'|(u' & Hu' & Hg')]; [by apply not_elem_of_nil in Hg'|].
    specialize (i_frame0 _ _ Hu' Hg'). destruct g; cbn [frame_ok] in *; try done;
      intros y E; apply Hl in E as [_ E]; auto.
  - intros c k E Hi HG. specialize (i_init0 c k E Hi HG). specialize (HC (launches (c_queue k))).
    cbn [launches] in HC. lia.
Qed.

(** The last holder of a context frees it and releases its queue. *)
Lemma inv_delete a K G ts t st c k :
  inv a K G ts → ts !! t = Some (FDelete c :: st) → K !! c = Some k →
  inv (a_mark_release (c_queue k) a) (delete c K) G (<[t := st]> ts).
Proof.
  intros I Ht Hk. pose proof I as []. set (q := c_queue k).
  destruct (i_ctx0 _ _ Hk) as (x & Hx & Hdead & Hh). fold q in Hx.
  assert (∀ P, cnt P (<[t := st]> ts) + P (FDelete c) = cnt P ts)%nat as HC.
  { intros P. pose proof (cnt_replace P _ _ _ st Ht) as E. cbn [total] in E. lia. }
  assert (c_ref k = 0%nat) as Hz.
  { pose proof (i_del0 c) as Hd. specialize (HC (deletes c)). cbn [deletes] in HC.
    rewrite decide_True in HC by done. unfold isdel in Hd. rewrite Hk in Hd. case_decide; [done|lia]. }
  assert (∀ c' k', delete c K !! c' = Some k' → c' ≠ c ∧ K !! c' = Some k' ∧ c_queue k' ≠ q) as HK.
  { intros c' k' E. apply lookup_delete_Some in E as [Hne E]. split; [done|]. split; [done|].
    intros Eq. destruct (i_ctx0 _ _ E) as (y & Hy & _ & Hyh). rewrite Eq, Hx in Hy. injection Hy as <-.
    apply Hne. eapply (i_inj0 c c' k k'); try done. congruence. }
  unfold a_mark_release. fold q. rewrite Hx. set (x' := mkAq _ _ _ true).
  assert (∀ q' y, <[q := x']> (as_qs a) !! q' = Some y →
    q' = q ∧ y = x' ∨ q' ≠ q ∧ as_qs a !! q' = Some y) as HQ.
  { intros q' y E. apply lookup_insert_Some in E. naive_solver. }
  assert (∀ q' y, <[q := x']> (as_qs a) !! q' = Some y →
    ∃ y', as_qs a !! q' = Some y' ∧ aq_handle y' = aq_handle y) as HQh.
  { intros q' y E. destruct (HQ q' y E) as [[-> ->]|[_ E']]; eauto. }
  split; cbn [as_qs].
  - intros q'. cbn [as_run]. specialize (HC (owns q')). cbn [owns] in HC. specialize (i_tok0 q').
    destruct (decide (q' = q)) as [->|].
    + rewrite lookup_insert_eq. rewrite Hx in i_tok0. cbn [need] in *. subst x'. cbn [aq_sched aq_dead].
      rewrite Hdead, orb_false_r in i_tok0. rewrite orb_true_r.
      destruct (aq_sched x); rewrite ?tok_snoc, ?decide_True by done; lia.
    + rewrite lookup_insert_ne by done.
      destruct (aq_sched x); rewrite ?tok_snoc, ?decide_False by done; lia.
  - intros q' y E. destruct (HQ q' y E) as [[-> ->]|[_ E']]; [done|eauto].
  - intros c'. specialize (HC (holds c')). cbn [holds] in HC. specialize (i_ref0 c').
    unfold regd, refs in *. destruct (decide (c' = c)) as [->|].
    + rewrite lookup_delete_eq. rewrite Hk in i_ref0. lia.
    + rewrite lookup_delete_ne by done. lia.
  - intros c'. specialize (HC (deletes c')). cbn [deletes] in HC. specialize (i_del0 c').
    unfold isdel in *. destruct (decide (c' = c)) as [->|].
    + rewrite lookup_delete_eq. rewrite Hk, decide_True in i_del0 by done. lia.
    + rewrite lookup_delete_ne by done. lia.
  - intros h c' E. destruct (i_reg0 h c' E) as (k' & Hk' & Hh'). exists k'. split; [|done].
    rewrite lookup_delete_ne; [done|]. intros <-.
    specialize (i_ref0 c). unfold regd, refs in i_ref0. rewrite Hk in *. simplify_eq.
    rewrite decide_True in i_ref0 by done. lia.
  - intros c' k' E. destruct (HK c' k' E) as (_ & E' & Hq). destruct (i_ctx0 _ _ E') as (y & ? & ? & ?).
    exists y. by rewrite lookup_insert_ne.
  - intros q1 q2 y1 y2 E1 E2 Hhh. destruct (HQh _ _ E1) as (z1 & Hz1 & Hz1').
    destruct (HQh _ _ E2) as (z2 & Hz2 & Hz2'). eapply i_handle0; eauto. congruence.
  - intros q' y E. destruct (HQh _ _ E) as (z & Hz' & <-). eauto.
  - intros c1 c2 k1 k2 E1 E2. apply HK in E1 as (_ & E1 & _). apply HK in E2 as (_ & E2 & _). eauto.
  - intros u g Hu Hg.
    destruct (in_replace _ _ _ _ [] _ _ Ht Hu Hg) as [Hg'|(u' & Hu' & Hg')]; [by apply not_elem_of_nil in Hg'|].
    specialize (i_frame0 _ _ Hu' Hg'). destruct g; cbn [frame_ok as_qs] in *; try done.
    + intros k' E. apply HK in E as (_ & E & _). auto.
    + intros k' E. apply HK in E as (_ & E & _). auto.
    + intros y E. destruct (HQ _ _ E) as [[-> ->]|[_ E']]; [done|auto].
    + intros k' E. apply HK in E as (_ & E & _). auto.
    + intros c' k' E. apply HK in E as (_ & E & _). eauto.
    + intros y E. destruct (HQh _ _ E) as (z & Hz' & <-). auto.
  - intros c' k' E Hi HG. apply HK in E as (_ & E & _). specialize (i_init0 c' k' E Hi HG).
    specialize (HC (launches (c_queue k'))). cbn [launches] in HC. lia.
Qed.

(** Contexts in creation are apart from everything else, and each has its frame. *)
Record new_ok (n : node) (ts : list (list frame)) : Prop := {
  nw_ctx : ∀ h b, n_new n !! h = Some b → n_ctxs n !! nb_ctx b = None;
  nw_reg : ∀ h b, n_new n !! h = Some b → n_reg n !! h = None;
  nw_queue : ∀ h b, n_new n !! h = Some b → gq_mqs (n_world n) !! nb_queue b = None;
  nw_handle : ∀ h b q mq, n_new n !! h = Some b → gq_mqs (n_world n) !! q = Some mq → mq_handle mq ≠ h;
  nw_nonzero : ∀ h b, n_new n !! h = Some b → h ≠ 0;
  nw_inj : ∀ h h' b b', n_new n !! h = Some b → n_new n !! h' = Some b' → h ≠ h' →
    nb_ctx b ≠ nb_ctx b' ∧ nb_queue b ≠ nb_queue b';
  nw_frame : ∀ h, cnt (waits h) ts = match n_new n !! h with Some _ => 1%nat | None => 0%nat end }.

(** What a step of thread [t] has to establish. *)
Definition step_ok (n : node) (ts : list (list frame)) (t : nat) (st : list frame)
    (r : option (list frame * node)) : Prop :=
  ∃ fs n' a', r = Some (fs, n') ∧ sys_repr (n_world n') a' ∧
    inv a' (n_ctxs n') (n_reg n') (<[t := fs ++ st]> ts) ∧
    n_total n' - Z.of_nat (size (n_ctxs n')) = n_total n - Z.of_nat (size (n_ctxs n)).

Section steps.
Context (a : asys) (n : node) (ts : list (list frame)) (t : nat) (st : list frame).
Context (R : sys_repr (n_world n) a) (W : new_ok n ts).

Lemma step_globalpop f (mk : option positive → list frame) :
  inv a (n_ctxs n) (n_reg n) ts → ts !! t = Some (f :: st) →
  (∀ r q, (total (owns q) (mk r) = owns q f +
    match r with Some q' => if decide (q = q') then 1 else 0 | None => 0 end)%nat) →
  (∀ r c, total (holds c) (mk r) = holds c f) → (∀ r c, total (deletes c) (mk r) = deletes c f) →
  (∀ r q, (launches q f ≤ total (launches q) (mk r))%nat) → (∀ r, Forall (frame_ok a (n_ctxs n)) (mk r)) →
  step_ok n ts t st ('(r, w) ← skynet_globalmq_pop (n_world n); Some (mk r, set_world w n)).
Proof.
  intros I Ht ?????. destruct (globalpop_refines _ _ R) as (w & -> & R'). cbn [mbind option_bind].
  eexists _, _, _. split; [done|]. split; [exact R'|]. split; [|done]. cbn [set_world n_ctxs n_reg].
  by eapply inv_globalpop.
Qed.

Lemma step_dispatch q weight :
  inv a (n_ctxs n) (n_reg n) ts → ts !! t = Some (FDispatch q weight :: st) →
  step_ok n ts t st (exec (FDispatch q weight) n).
Proof.
  intros I Ht. cbn [exec]. destruct q as [q|].
  - eexists _, _, _. split; [done|]. split; [exact R|]. split; [|done].
    eapply inv_stack; try done; try counts; frames.
  - eapply (step_globalpop _ (λ r, [match r with Some q => FGrab q weight | None => FDispatch None weight end]));
      [done..| | | | |]; intros [|]; try counts; frames.
Qed.

Lemma step_next_pop weight :
  inv a (n_ctxs n) (n_reg n) ts → ts !! t = Some (FNextPop weight :: st) →
  step_ok n ts t st (exec (FNextPop weight) n).
Proof.
  intros I Ht. eapply (step_globalpop _ (λ r, [FDispatch r weight]));
    [done..| | | | |]; intros [|]; try counts; frames.
Qed.

Lemma step_grab q weight :
  inv a (n_ctxs n) (n_reg n) ts → ts !! t = Some (FGrab q weight :: st) →
  step_ok n ts t st (exec (FGrab q weight) n).
Proof.
  intros I Ht. cbn [exec].
  destruct (owner _ _ _ _ _ _ _ q I Ht) as (_ & x & Hx & _); [cbn; by rewrite decide_True|].
  destruct (sys_repr_lookup _ _ _ _ R Hx) as (mq & Hmq & []). rewrite Hmq. cbn [mbind option_bind].
  unfold handle_grab. destruct (n_new n !! mq_handle mq) as [b|] eqn:Eb; [by destruct (nw_handle _ _ W _ _ _ _ Eb Hmq)|].
  rewrite ar_handle. destruct (n_reg n !! aq_handle x) as [c|] eqn:HG.
  - edestruct (owner_grab _ _ _ _ _ _ _ q x c I Ht) as (k & r & Hk & Hr & Hh & Hq & Hi);
      [cbn; by rewrite decide_True|done..|].
    rewrite Hk. cbn [mbind option_bind]. eexists _, _, _. split; [done|]. split; [exact R|].
    split; [|cbn [set_ctx n_ctxs n_total]; by rewrite map_size_insert_Some by eauto].
    cbn [set_ctx n_ctxs n_reg]. eapply inv_ctx; try done; cbn [set_ref c_ref]; try counts.
    frames. intros k' E. rewrite lookup_insert_eq in E. by simplify_eq.
  - eexists _, _, _. split; [done|]. split; [exact R|]. split; [|done].
    eapply inv_stack; try done; try counts; frames.
Qed.

Lemma step_loop q c i num weight :
  inv a (n_ctxs n) (n_reg n) ts → ts !! t = Some (FLoop q c i num weight :: st) →
  step_ok n ts t st (exec (FLoop q c i num weight) n).
Proof.
  intros I Ht. cbn [exec]. unfold dispatch_round.
  destruct (owner _ _ _ _ _ _ _ q I Ht) as (_ & x & Hx & Hneed); [cbn; by rewrite decide_True|].
  destruct (holder _ _ _ _ _ _ _ c I Ht) as (k & r & Hk & Hr); [cbn; by rewrite decide_True|].
  pose proof (top_frame _ _ _ _ _ _ _ I Ht) as Hok. cbn [frame_ok] in Hok.
  destruct (Hok k Hk) as [Hq Hi].
  destruct (i_ctx _ _ _ _ I c k Hk) as (x' & Hx' & Hdead & Hh). rewrite Hq, Hx in Hx'.
  injection Hx' as <-.
  destruct (i <? num).
  - destruct (pop_refines _ _ _ _ R Hx) as (w & -> & R'). cbn [mbind option_bind].
    eexists _, _, _. split; [done|]. split; [exact R'|]. split; [|done]. cbn [set_world n_ctxs n_reg].
    unfold need in Hneed. rewrite Hdead, orb_false_r in Hneed.
    destruct (aq_sched x) eqn:Hs; [|done].
    unfold a_pop in *. rewrite Hx in *. destruct (aq_msgs x) as [|m l] eqn:Em; cbn [fst snd] in *.
    + eapply inv_queue; try done; try counts; [by eapply same_qs_insert| | |frames].
      * intros q'. cbn [as_run as_qs total owns]. destruct (decide (q' = q)) as [->|].
        -- rewrite lookup_insert_eq, Hx. cbn [need aq_sched aq_dead]. rewrite Hs, Hdead. cbn. lia.
        -- rewrite lookup_insert_ne by done. lia.
      * intros q' y. cbn [as_qs]. destruct (decide (q' = q)) as [->|].
        -- rewrite lookup_insert_eq. intros [= <-]. done.
        -- rewrite lookup_insert_ne by done. apply I.
    + eapply inv_queue; try done; try counts; [by eapply same_qs_insert| | |].
      * intros q'. cbn [as_run as_qs total owns]. destruct (decide (q' = q)) as [->|].
        -- rewrite lookup_insert_eq, Hx. cbn [need aq_sched aq_dead]. rewrite Hs. lia.
        -- rewrite lookup_insert_ne by done. lia.
      * intros q' y. cbn [as_qs]. destruct (decide (q' = q)) as [->|].
        -- rewrite lookup_insert_eq. intros [= <-]. cbn. by rewrite Hs.
        -- rewrite lookup_insert_ne by done. apply I.
      * frames.
  - rewrite Hk. cbn [mbind option_bind]. rewrite c_assert_true by (by apply bool_decide_eq_true_2).
    eapply (step_globalpop (FLoop q c i num weight) (λ r, match r with
      | Some nq => [FGlobalPush q; FRelease c; FDispatch (Some nq) weight]
      | None => [FRelease c; FDispatch (Some q) weight] end));
      [done..| | | | |]; intros [|]; try counts; frames.
Qed.

Lemma step_got q c m i num weight :
  inv a (n_ctxs n) (n_reg n) ts → ts !! t = Some (FGot q c m i num weight :: st) →
  (∀ k, n_ctxs n !! c = Some k → 0 ≤ c_message_count k < INT_MAX) →
  step_ok n ts t st (exec (FGot q c m i num weight) n).
Proof.
  intros I Ht Hcount. cbn [exec]. unfold dispatch_message.
  destruct (owner _ _ _ _ _ _ _ q I Ht) as (_ & x & Hx & Hneed); [cbn; by rewrite decide_True|].
  destruct (holder _ _ _ _ _ _ _ c I Ht) as (k & r & Hk & Hr); [cbn; by rewrite decide_True|].
  pose proof (top_frame _ _ _ _ _ _ _ I Ht) as Hok. cbn [frame_ok] in Hok.
  destruct (sys_repr_lookup _ _ _ _ R Hx) as (mq & Hmq & Har). rewrite Hmq. cbn [mbind option_bind set_world n_ctxs].
  rewrite Hk. cbn [mbind option_bind].
  assert (sys_repr (set_mq q (skynet_mq_overload mq).2 (n_world n)) a) as R' by (by eapply overload_repr).
  destruct (Hok k Hk) as [Hq Hi]. destruct (c_cb k).
  - rewrite c_assert_true by done. specialize (Hcount k Hk).
    unfold count_message. rewrite c_int_Some by (unfold INT_MIN; lia). cbn [mbind option_bind].
    eexists _, _, _. split; [done|]. split; [exact R'|].
    cbn [set_ctx set_world n_ctxs n_reg n_total]. rewrite map_size_insert_Some by eauto. split; [|done].
    eapply inv_ctx; try done; cbn [c_ref]; try counts.
    + frames. intros k' E. rewrite lookup_insert_eq in E. by simplify_eq.
  - eexists _, _, _. split; [done|]. split; [exact R'|]. split; [|done]. cbn [set_world n_ctxs n_reg].
    eapply inv_stack; try done; try counts; frames.
Qed.

Lemma step_msg c m :
  inv a (n_ctxs n) (n_reg n) ts → ts !! t = Some (FMsg c m :: st) →
  step_ok n ts t st (exec (FMsg c m) n).
Proof.
  intros I Ht. eexists _, _, _. split; [done|]. split; [exact R|]. split; [|done].
  eapply inv_stack; try done; try counts; frames.
Qed.

Lemma step_globalpush f fs q :
  inv a (n_ctxs n) (n_reg n) ts → ts !! t = Some (f :: st) →
  (∀ q', (owns q' f = total (owns q') fs + if decide (q' = q) then 1 else 0)%nat) →
  (∀ c, total (holds c) fs = holds c f) → (∀ c, total (deletes c) fs = deletes c f) →
  (∀ q', (launches q' f ≤ total (launches q') fs)%nat) → Forall (frame_ok a (n_ctxs n)) fs →
  step_ok n ts t st (w ← skynet_globalmq_push q (n_world n); Some (fs, set_world w n)).
Proof.
  intros I Ht Ho ????.
  assert (owns q f = 1%nat) as Hof.
  { specialize (Ho q). rewrite decide_True in Ho by done.
    assert (owns q f ≤ 1)%nat; [|lia]. destruct f as [[]| | | | | | | | | | | | | | | | | | | |]; cbn; repeat case_decide; lia. }
  destruct (owner _ _ _ _ _ _ _ q I Ht Hof) as (Hn & x & Hx & _).
  destruct (globalpush_refines _ _ _ _ R Hx Hn) as (w & -> & R'). cbn [mbind option_bind].
  eexists _, _, _. split; [done|]. split; [exact R'|]. split; [|done]. by eapply inv_globalpush.
Qed.

Lemma step_global_push q :
  inv a (n_ctxs n) (n_reg n) ts → ts !! t = Some (FGlobalPush q :: st) →
  step_ok n ts t st (exec (FGlobalPush q) n).
Proof. intros I Ht. cbn [exec]. eapply step_globalpush; try done; try counts; frames. Qed.

Lemma step_mq_release q :
  inv a (n_ctxs n) (n_reg n) ts → ts !! t = Some (FMqRelease q :: st) →
  step_ok n ts t st (exec (FMqRelease q) n).
Proof.
  intros I Ht. cbn [exec].
  destruct (owner _ _ _ _ _ _ _ q I Ht) as (_ & x & Hx & Hneed); [cbn; by rewrite decide_True|].
  destruct (sys_repr_lookup _ _ _ _ R Hx) as (mq & -> & []). cbn [mbind option_bind]. rewrite ar_release.
  destruct (aq_dead x) eqn:Hd.
  - rewrite bool_decide_eq_true_2 by done. eexists _, _, _. split; [done|]. split; [exact R|]. split; [|done].
    eapply inv_stack; try done; try counts; frames. intros x' E. by simplify_eq.
  - rewrite bool_decide_eq_false_2 by tauto. eapply step_globalpush; try done; try counts; frames.
Qed.
Lemma step_drop_loop q :
  inv a (n_ctxs n) (n_reg n) ts → ts !! t = Some (FDropLoop q :: st) →
  step_ok n ts t st (exec (FDropLoop q) n).
Proof.
  intros I Ht. cbn [exec].
  destruct (owner _ _ _ _ _ _ _ q I Ht) as (Hn & x & Hx & Hneed); [cbn; by rewrite decide_True|].
  pose proof (top_frame _ _ _ _ _ _ _ I Ht x Hx) as Hdead. cbn in Hdead.
  destruct (sys_repr_lookup _ _ _ _ R Hx) as (mq & -> & []). cbn [mbind option_bind].
  destruct (pop_refines _ _ _ _ R Hx) as (w & -> & R'). cbn [mbind option_bind].
  unfold a_pop in *. rewrite Hx in *. destruct (aq_msgs x) as [|m l] eqn:Em; cbn [fst snd] in *.
  - destruct (free_refines w _ q (mkAq (aq_handle x) [] false (aq_dead x)) R') as (w' & -> & R'').
    { cbn [as_qs]. apply lookup_insert_eq. } { done. }
    cbn [mbind option_bind]. eexists _, _, _. split; [done|]. split; [exact R''|]. split; [|done].
    cbn [set_world n_ctxs n_reg app]. eapply inv_free; try done. cbn [a_free as_qs].
    apply delete_insert_eq.
  - unfold drop_message. rewrite ar_handle.
    rewrite c_assert_true by (by apply bool_decide_eq_true_2, (i_nonzero _ _ _ _ I q)).
    cbn [mbind option_bind]. eexists _, _, _. split; [done|]. split; [exact R'|]. split; [|done].
    cbn [set_world n_ctxs n_reg]. set (x' := mkAq (aq_handle x) l (aq_sched x) (aq_dead x)).
    assert (∀ q', need (<[q := x']> (as_qs a) !! q') = need (as_qs a !! q')) as Hsame.
    { intros q'. destruct (decide (q' = q)) as [->|]; [by rewrite lookup_insert_eq, Hx|by rewrite lookup_insert_ne]. }
    eapply inv_queue; try done.
    + by eapply same_qs_insert.
    + intros q'. cbn [as_run as_qs]. rewrite Hsame. case_bool_decide; counts.
    + intros q' y. cbn [as_qs]. destruct (decide (q' = q)) as [->|].
      * rewrite lookup_insert_eq. intros [= <-]. cbn. by rewrite Hdead.
      * rewrite lookup_insert_ne by done. apply I.
    + case_bool_decide; counts.
    + case_bool_decide; counts.
    + case_bool_decide; counts.
    + assert (frame_ok (mkAsys (as_run a) (<[q := x']> (as_qs a))) (n_ctxs n) (FDropLoop q)).
      { intros y. cbn [as_qs]. rewrite lookup_insert_eq. by intros [= <-]. }
      case_bool_decide; frames.
Qed.

Lemma step_send dest m :
  inv a (n_ctxs n) (n_reg n) ts → ts !! t = Some (FSend dest m :: st) →
  (∀ c q, n_new n !! dest ≠ Some (mkNew c q true)) →
  step_ok n ts t st (exec (FSend dest m) n).
Proof.
  intros I Ht Hearly. cbn [exec]. unfold handle_grab.
  assert (∀ A (x y : A), match n_new n !! dest with Some (mkNew _ _ true) => x | _ => y end = y) as ->.
  { intros A x y. destruct (n_new n !! dest) as [[c q []]|] eqn:E; [by destruct (Hearly c q)|done..]. } destruct (n_reg n !! dest) as [c|] eqn:HG; cbn [mbind option_bind].
  - destruct (i_reg _ _ _ _ I _ _ HG) as (k & Hk & Hh). rewrite Hk. cbn [mbind option_bind].
    assert (∃ r, c_ref k = S r) as (r & Hr).
    { pose proof (i_ref _ _ _ _ I c) as Hc. unfold regd, refs in Hc. rewrite Hk, Hh in Hc.
      rewrite decide_True in Hc by done. destruct (c_ref k) as [|r]; [lia|eauto]. }
    eexists _, _, _. split; [done|]. split; [exact R|].
    cbn [set_ctx n_ctxs n_total n_reg]. rewrite map_size_insert_Some by eauto. split; [|done].
    eapply inv_ctx; try done; cbn [set_ref c_ref]; try counts. frames.
  - eexists _, _, _. split; [done|]. split; [exact R|]. split; [|done].
    eapply inv_stack; try done; try counts; frames.
Qed.

Lemma step_push c m :
  inv a (n_ctxs n) (n_reg n) ts → ts !! t = Some (FPush c m :: st) →
  (∀ k q, n_ctxs n !! c = Some k → gq_mqs (n_world n) !! c_queue k = Some q → skynet_mq_length q + 1 < 2 ^ 29) →
  step_ok n ts t st (exec (FPush c m) n).
Proof.
  intros I Ht Hlen. cbn [exec].
  destruct (holder _ _ _ _ _ _ _ c I Ht) as (k & r & Hk & Hr); [cbn; by rewrite decide_True|].
  rewrite Hk. cbn [mbind option_bind]. set (q := c_queue k).
  destruct (i_ctx _ _ _ _ I _ _ Hk) as (x & Hx & Hdead & Hh). fold q in Hx.
  destruct (sys_repr_lookup _ _ _ _ R Hx) as (mq & Hmq & Har). specialize (Hlen k mq Hk Hmq).
  erewrite ring_length in Hlen by apply Har.
  pose proof (i_tok _ _ _ _ I q) as Htok. rewrite Hx in Htok. cbn [need] in Htok.
  rewrite Hdead, orb_false_r in Htok.
  destruct (push_refines _ _ q x m R Hx Hlen) as (w & -> & R').
  { intros E. rewrite E in Htok. apply tok_notin. lia. }
  cbn [mbind option_bind]. eexists _, _, _. split; [done|]. split; [exact R'|]. split; [|done].
  cbn [set_world n_ctxs n_reg]. unfold a_push in *. rewrite Hx in *.
  eapply inv_queue; try done; try counts; [by eapply same_qs_insert| | |frames].
  - intros q'. cbn [as_run as_qs total owns]. destruct (decide (q' = q)) as [->|].
    + rewrite lookup_insert_eq, Hx. cbn [need aq_sched aq_dead]. rewrite Hdead, orb_false_r. cbn [orb].
      destruct (aq_sched x); rewrite ?tok_snoc, ?decide_True by done; lia.
    + rewrite lookup_insert_ne by done. destruct (aq_sched x); rewrite ?tok_snoc, ?decide_False by done; lia.
  - intros q' y. cbn [as_qs]. destruct (decide (q' = q)) as [->|].
    + rewrite lookup_insert_eq. by intros [= <-].
    + rewrite lookup_insert_ne by done. apply I.
Qed.

(** Dropping one reference, in front of [rest]. *)
Lemma step_release f c rest :
  inv a (n_ctxs n) (n_reg n) ts → ts !! t = Some (f :: st) →
  (∀ q, total (owns q) rest = owns q f) → (∀ c', holds c' f = (if decide (c' = c) then 1 else 0) + total (holds c') rest)%nat →
  (∀ c', total (deletes c') rest = deletes c' f) →
  (∀ q, (launches q f ≤ total (launches q) rest)%nat) →
  (∀ k, n_ctxs n !! c = Some k → c_ref k ≠ 0%nat → ∀ r, Forall (frame_ok a (<[c := set_ref r k]> (n_ctxs n))) rest) →
  step_ok n ts t st ('(fs, n') ← context_release c n; Some (fs ++ rest, n')).
Proof.
  intros I Ht Ho Hh Hd Hl Hok.
  destruct (holder _ _ _ _ _ _ _ c I Ht) as (k & r & Hk & Hr).
  { pose proof (Hh c) as Hc. rewrite decide_True in Hc by done.
    assert (holds c f ≤ 1)%nat; [|lia]. destruct f; cbn; repeat case_decide; lia. }
  specialize (Hok k Hk ltac:(lia)).
  unfold context_release. rewrite Hk. cbn [mbind option_bind]. rewrite Hr.
  destruct r as [|r]; cbn [mbind option_bind]; eexists _, _, _; (split; [done|]); (split; [exact R|]);
    cbn [set_ctx n_ctxs n_reg n_total]; rewrite map_size_insert_Some by eauto; (split; [|done]);
    rewrite ?app_nil_l.
  - eapply inv_ctx; try done; cbn [set_ref c_ref app total owns holds deletes]; [| |frames; auto].
    + intros c'. specialize (Hh c'). destruct (decide (c' = c)) as [->|]; lia.
    + intros c'. rewrite Hd, Hr. destruct (decide (c' = c)) as [->|]; repeat case_decide; naive_solver lia.
  - eapply inv_ctx; try done; cbn [set_ref c_ref app].
    + intros c'. specialize (Hh c'). destruct (decide (c' = c)) as [->|]; lia.
    + intros c'. rewrite Hd, Hr. repeat case_decide; naive_solver lia.
Qed.

Lemma step_frelease c :
  inv a (n_ctxs n) (n_reg n) ts → ts !! t = Some (FRelease c :: st) →
  step_ok n ts t st (exec (FRelease c) n).
Proof.
  intros I Ht. destruct (step_release (FRelease c) c [] I Ht) as (fs & n' & a' & E & H); try counts; [frames|].
  exists fs, n', a'. split; [|done]. cbn [exec]. destruct (context_release c n) as [[fs' n'']|]; [|done].
  cbn [mbind option_bind] in E. by rewrite app_nil_r in E.
Qed.

Lemma step_delete c :
  inv a (n_ctxs n) (n_reg n) ts → ts !! t = Some (FDelete c :: st) →
  step_ok n ts t st (exec (FDelete c) n).
Proof.
  intros I Ht. cbn [exec]. unfold delete_context.
  assert (∃ k, n_ctxs n !! c = Some k) as (k & Hk).
  { pose proof (i_del _ _ _ _ I c) as Hd.
    assert (1 ≤ cnt (deletes c) ts)%nat.
    { change 1%nat with (if decide True then 1%nat else 0%nat). replace (if decide True then 1%nat else 0%nat) with (deletes c (FDelete c)).
      - eapply cnt_elem; [by eapply list_elem_of_lookup_2|left].
      - cbn. by rewrite !decide_True. }
    unfold isdel in Hd. destruct (n_ctxs n !! c) as [k|]; [eauto|lia]. }
  rewrite Hk. cbn [mbind option_bind].
  destruct (i_ctx _ _ _ _ I _ _ Hk) as (x & Hx & Hdead & Hh).
  pose proof (i_tok _ _ _ _ I (c_queue k)) as Htok. rewrite Hx in Htok. cbn [need] in Htok.
  rewrite Hdead, orb_false_r in Htok.
  destruct (mark_release_refines _ _ (c_queue k) x R Hx Hdead) as (w & -> & R').
  { intros E. rewrite E in Htok. apply tok_notin. lia. }
  cbn [mbind option_bind]. eexists _, _, _. split; [done|]. split; [exact R'|].
  cbn [n_ctxs n_reg n_total app]. split; [by eapply inv_delete|].
  rewrite map_size_delete_Some by eauto.
  assert (size (n_ctxs n) ≠ 0%nat); [|lia]. intros E%map_size_empty_inv. rewrite E in Hk. by rewrite lookup_empty in Hk.
Qed.
(** Leaving the registry, in front of [rest]. *)
Lemma step_retire_front f h rest :
  inv a (n_ctxs n) (n_reg n) ts → ts !! t = Some (f :: st) →
  (∀ q, total (owns q) rest = owns q f) → (∀ c, total (holds c) rest = holds c f) →
  (∀ c, total (deletes c) rest = deletes c f) →
  (∀ c k, n_ctxs n !! c = Some k → n_reg n !! c_handle k = Some c → c_handle k ≠ h →
    (launches (c_queue k) f ≤ total (launches (c_queue k)) rest)%nat) →
  Forall (frame_ok a (n_ctxs n)) rest →
  step_ok n ts t st (let '(fs, n') := handle_retire h n in Some (fs ++ rest, n')).
Proof.
  intros I Ht Ho Hh Hd Hl Hok. unfold handle_retire.
  assert (n_reg n !! h = None → inv a (n_ctxs n) (n_reg n) (<[t := rest ++ st]> ts)) as Hstay.
  { intros HG. eapply inv_same; try done.
    + apply same_qs_refl.
    + apply same_ctxs_refl.
    + intros q. rewrite Ho. lia.
    + apply I.
    + intros c'. rewrite Hh. lia.
    + intros c'. rewrite Hd. lia.
    + intros c k Hk _ HG'. apply (Hl c k Hk HG'). congruence. }
  assert (step_ok n ts t st (let '(fs, n') := match n_reg n !! h with
      | None => ([], n)
      | Some c => ([FRelease c], mkNode (n_world n) (n_ctxs n) (delete h (n_reg n)) (n_total n) (n_new n) (n_reserved n))
      end in Some (fs ++ rest, n'))) as Hretire.
  { destruct (n_reg n !! h) as [c|] eqn:HG;
      [|eexists _, _, _; split; [done|]; split; [exact R|]; split; [by apply Hstay|done]].
    destruct (i_reg _ _ _ _ I _ _ HG) as (k & Hk & Hkh).
    eexists _, _, _. split; [done|]. split; [exact R|]. split; [|done]. cbn [n_ctxs n_reg].
    eapply inv_same; try done.
    + apply same_qs_refl.
    + apply same_ctxs_refl.
    + apply delete_subseteq.
    + intros q. cbn [app total owns]. rewrite Ho. lia.
    + apply I.
    + intros c'. pose proof (regd_retire _ _ _ _ _ c' HG Hk Hkh). cbn [app total holds]. rewrite Hh. lia.
    + intros c'. cbn [app total deletes]. rewrite Hd. lia.
    + frames.
    + intros c' k' Hk' _ HG'. apply lookup_delete_Some in HG' as [Hne HG'].
      cbn [app total launches]. specialize (Hl c' k' Hk' HG' ltac:(done)). lia. }
  destruct (n_new n !! h) as [[c' q' []]|] eqn:EN; [|exact Hretire..].
  eexists _, _, _. split; [done|]. split; [exact R|]. split; [|done]. apply Hstay. by eapply nw_reg.
Qed.

Lemma step_retire h :
  inv a (n_ctxs n) (n_reg n) ts → ts !! t = Some (FRetire h :: st) →
  step_ok n ts t st (exec (FRetire h) n).
Proof.
  intros I Ht. destruct (step_retire_front (FRetire h) h [] I Ht) as (fs & n' & a' & E & H); try counts; [frames|].
  exists fs, n', a'. split; [|done]. cbn [exec]. destruct (handle_retire h n) as [fs' n''].
  by rewrite app_nil_r in E.
Qed.

Lemma step_failed h q :
  inv a (n_ctxs n) (n_reg n) ts → ts !! t = Some (FFailed h q :: st) →
  step_ok n ts t st (exec (FFailed h q) n).
Proof.
  intros I Ht. cbn [exec]. eapply (step_retire_front (FFailed h q) h [FMqRelease q]); try done; try counts; [|frames].
  intros c k Hk _ Hne. cbn [total launches]. case_decide as E; [exfalso|lia].
  destruct (i_ctx _ _ _ _ I _ _ Hk) as (x & Hx & _ & Hh). rewrite E in Hx.
  pose proof (top_frame _ _ _ _ _ _ _ I Ht x Hx). congruence.
Qed.

Lemma step_set_init c q :
  inv a (n_ctxs n) (n_reg n) ts → ts !! t = Some (FSetInit c q :: st) → is_Some (n_ctxs n !! c) →
  step_ok n ts t st (exec (FSetInit c q) n).
Proof.
  intros I Ht [k Hk]. cbn [exec]. rewrite Hk. cbn [mbind option_bind].
  pose proof (top_frame _ _ _ _ _ _ _ I Ht) as Hok. cbn [frame_ok] in Hok.
  eexists _, _, _. split; [done|]. split; [exact R|].
  cbn [set_ctx n_ctxs n_reg n_total]. rewrite map_size_insert_Some by eauto. split; [|done].
  eapply inv_ctx; try done; cbn [set_init c_ref]; try counts; [frames|].
  intros c' k' E Hi _. cbn [total launches]. case_decide as Eq; [exfalso|lia].
  apply lookup_insert_Some in E as [[<- <-]|[Hne E]]; [done|]. by apply Hne; symmetry; eapply Hok.
Qed.

Lemma step_read c f :
  f = FLaunched c ∨ f = FAnswer c →
  inv a (n_ctxs n) (n_reg n) ts → ts !! t = Some (f :: st) → is_Some (n_ctxs n !! c) →
  step_ok n ts t st (exec f n).
Proof.
  intros Hf I Ht [k Hk].
  assert (exec f n = Some ([], n)) as -> by (destruct Hf as [->| ->]; cbn [exec]; by rewrite Hk).
  eexists _, _, _. split; [done|]. split; [exact R|]. split; [|done].
  destruct Hf as [->| ->]; eapply inv_stack; try done; try counts; frames.
Qed.

Lemma step_remote c :
  inv a (n_ctxs n) (n_reg n) ts → ts !! t = Some (FRemote c :: st) →
  step_ok n ts t st (exec (FRemote c) n).
Proof.
  intros I Ht. destruct (step_release (FRemote c) c [] I Ht) as (fs & n' & a' & E & H); try counts; [frames|].
  exists fs, n', a'. split; [|done]. cbn [exec]. destruct (context_release c n) as [[fs' n'']|]; [|done].
  cbn [mbind option_bind] in E. by rewrite app_nil_r in E.
Qed.

Lemma step_init c q ok :
  inv a (n_ctxs n) (n_reg n) ts → ts !! t = Some (FInit c q ok :: st) →
  step_ok n ts t st (exec (FInit c q ok) n).
Proof.
  intros I Ht. cbn [exec].
  destruct (holder _ _ _ _ _ _ _ c I Ht) as (k & r & Hk & Hr); [cbn; by rewrite decide_True|].
  pose proof (top_frame _ _ _ _ _ _ _ I Ht k Hk) as Hq. cbn in Hq.
  destruct (i_ctx _ _ _ _ I _ _ Hk) as (x & Hx & _ & Hh).
  rewrite Hk. cbn [mbind option_bind]. destruct ok.
  - destruct r as [|r].
    + assert (∃ n', context_release c n = Some ([FDelete c], n')) as [n' E].
      { unfold context_release. rewrite Hk. cbn [mbind option_bind]. rewrite Hr. eauto. }
      rewrite E. cbn [mbind option_bind].
      unfold context_release in E. rewrite Hk in E. cbn [mbind option_bind] in E. rewrite Hr in E.
      injection E as <-. eexists _, _, _. split; [done|]. split; [exact R|].
      cbn [set_ctx n_ctxs n_reg n_total]. rewrite map_size_insert_Some by eauto. split; [|done].
      eapply inv_ctx; try done; cbn [set_ref c_ref]; try counts.
      * frames.
      * intros c' k' E Hi HG. cbn [app total launches]. case_decide as Eq; [exfalso|lia].
        pose proof (i_ref _ _ _ _ I c) as Hc. unfold regd, refs in Hc. rewrite Hk in Hc.
        assert (1 ≤ cnt (holds c) ts)%nat.
        { replace 1%nat with (holds c (FInit c q true)) by (cbn; by rewrite decide_True).
          eapply cnt_elem; [by eapply list_elem_of_lookup_2|left]. }
        apply lookup_insert_Some in E as [[<- <-]|[Hne E]].
        -- cbn [set_ref c_handle] in HG. rewrite decide_True in Hc by done. lia.
        -- apply Hne. eapply (i_inj _ _ _ _ I c c' k k'); try done.
           destruct (i_ctx _ _ _ _ I _ _ E) as (y & Hy & _ & Hyh). rewrite Eq, <- Hq, Hx in Hy.
           injection Hy as <-. congruence.
    + assert (∃ n', context_release c n = Some ([], n')) as [n' E].
      { unfold context_release. rewrite Hk. cbn [mbind option_bind]. rewrite Hr. eauto. }
      rewrite E. cbn [mbind option_bind].
      unfold context_release in E. rewrite Hk in E. cbn [mbind option_bind] in E. rewrite Hr in E.
      injection E as <-. eexists _, _, _. split; [done|]. split; [exact R|].
      cbn [set_ctx n_ctxs n_reg n_total]. rewrite map_size_insert_Some by eauto. split; [|done].
      eapply inv_ctx; try done; cbn [set_ref c_ref]; try counts.
      * frames. intros c' k' E Eq. apply lookup_insert_Some in E as [[<- <-]|[Hne E]]; [done|].
        eapply (i_inj _ _ _ _ I c' c k' k); try done.
        destruct (i_ctx _ _ _ _ I _ _ E) as (y & Hy & _ & Hyh). rewrite Eq, <- Hq, Hx in Hy.
        injection Hy as <-. congruence.
  - eapply (step_release (FInit c q false) c [FFailed (c_handle k) q] I Ht); try counts.
    intros k' Hk' _ r'. frames. intros y Hy. rewrite Hq in Hx. congruence.
Qed.
End steps.

(** ** Requests *)

(** A thread that runs nothing counts for nothing. *)
Lemma inv_neutral a K G ts t st c m :
  inv a K G ts → ts !! t = Some st → inv a K G (<[t := FMsg c m :: st]> ts).
Proof.
  intros I Ht. pose proof I as [].
  assert (∀ P, P (FMsg c m) = 0%nat → cnt P (<[t := FMsg c m :: st]> ts) = cnt P ts) as HC.
  { intros P E. pose proof (cnt_replace P _ _ _ (FMsg c m :: st) Ht) as H. cbn [total] in H. lia. }
  split; try done; intros *; rewrite ?HC by done; try done.
  - intros Hu Hg. destruct (decide (f = FMsg c m)) as [->|Hne]; [done|].
    apply list_elem_of_lookup in Hu as [j Hj]. destruct (decide (t = j)) as [<-|].
    + rewrite list_lookup_insert_eq in Hj by (by eapply lookup_lt_Some). simplify_eq.
      apply elem_of_cons in Hg as [?|Hg]; [done|]. eapply i_frame0; [by eapply list_elem_of_lookup_2|done].
    + rewrite list_lookup_insert_ne in Hj by done. eapply i_frame0; [by eapply list_elem_of_lookup_2|done].
  - eauto.
Qed.

Lemma inv_push_frames a K G ts t st fs :
  inv a K G ts → ts !! t = Some st →
  (∀ q, total (owns q) fs = 0%nat) → (∀ c, total (holds c) fs = 0%nat) →
  (∀ c, total (deletes c) fs = 0%nat) → Forall (frame_ok a K) fs →
  inv a K G (<[t := fs ++ st]> ts).
Proof.
  intros I Ht Ho Hh Hd Hok. set (m := mkMsg 0 0 0 0).
  pose proof (inv_neutral _ _ _ _ _ _ 1%positive m I Ht) as I'.
  assert (<[t := FMsg 1 m :: st]> ts !! t = Some (FMsg 1 m :: st)) as Ht'
    by (apply list_lookup_insert_eq; by eapply lookup_lt_Some).
  pose proof (inv_stack _ _ _ _ _ _ _ fs I' Ht') as H. rewrite list_insert_insert_eq in H.
  apply H; try done. intros q. cbn. lia.
Qed.

Lemma inv_launch a K G ts t st c q h ok (reg : bool) :
  inv a K G ts → ts !! t = Some (FQueue h ok :: st) → K !! c = None → G !! h = None → as_qs a !! q = None → h ≠ 0 →
  (∀ q' x, as_qs a !! q' = Some x → aq_handle x ≠ h) →
  inv (a_create q h a) (<[c := mkCtx h q (if reg then 2 else 1) false false 0]> K) (if reg then <[h := c]> G else G)
    (<[t := FInit c q ok :: st]> ts).
Proof.
  intros I Ht Hc Hh Hq H0 Hfresh. pose proof I as []. set (k := mkCtx h q (if reg then 2 else 1) false false 0).
  assert (∀ P, P (FQueue h ok) = 0%nat → cnt P (<[t := FInit c q ok :: st]> ts) = cnt P ts + P (FInit c q ok))%nat as HC.
  { intros P HP. pose proof (cnt_replace P _ _ _ (FInit c q ok :: st) Ht) as H. cbn [total] in H. lia. }
  assert (∀ h' c', (if reg then <[h := c]> G else G) !! h' = Some c' → h' = h ∧ c' = c ∧ reg = true ∨ h' ≠ h ∧ G !! h' = Some c') as HG.
  { intros h' c' E. destruct reg; [apply lookup_insert_Some in E; naive_solver|]. right. split; [congruence|done]. }
  assert (∀ c' k', K !! c' = Some k' → c_handle k' ≠ h ∧ c_queue k' ≠ q) as HK.
  { intros c' k' E. destruct (i_ctx0 _ _ E) as (x & Hx & _ & <-). split; [eauto|]. intros Eq. congruence. }
  assert (∀ q', cnt (owns q') ts + tok (as_run a) q' = need (as_qs a !! q'))%nat as Htok.
  { intros q'. specialize (i_tok0 q'). lia. }
  assert (∀ u g, u ∈ ts → g ∈ u → owns q g = 0%nat ∧ holds c g = 0%nat) as Hnone.
  { intros u g Hu Hg. pose proof (cnt_elem (owns q) _ _ _ Hu Hg). pose proof (cnt_elem (holds c) _ _ _ Hu Hg).
    specialize (Htok q). rewrite Hq in Htok. cbn [need] in Htok. specialize (i_ref0 c).
    unfold refs in i_ref0. rewrite Hc in i_ref0. lia. }
  split; cbn [a_create as_qs as_run].
  - intros q'. rewrite HC by done. specialize (Htok q'). cbn [owns]. case_decide as E; [subst q'|].
    + rewrite lookup_insert_eq. rewrite Hq in Htok. cbn [need] in *. cbn. lia.
    + rewrite lookup_insert_ne by done. lia.
  - intros q' x E. apply lookup_insert_Some in E as [[<- <-]|[Hne E]]; [done|eauto].
  - intros c'. rewrite HC by done. cbn [holds]. specialize (i_ref0 c'). unfold regd, refs in *.
    case_decide as E; [subst c'|].
    + rewrite !lookup_insert_eq. rewrite Hc in i_ref0. cbn [c_handle c_ref k].
      destruct reg; [rewrite lookup_insert_eq, decide_True by done; lia|]. rewrite Hh, decide_False by done. lia.
    + rewrite !lookup_insert_ne by done. destruct (K !! c') as [k'|] eqn:Ek; [|lia]. destruct reg; [|lia].
      rewrite lookup_insert_ne; [lia|]. intros Eq. by destruct (HK _ _ Ek).
  - intros c'. rewrite HC by done. cbn [deletes]. specialize (i_del0 c'). unfold isdel in *.
    destruct (decide (c = c')) as [<-|].
    + rewrite lookup_insert_eq, decide_False by (by destruct reg). rewrite Hc in i_del0. lia.
    + rewrite lookup_insert_ne by done. lia.
  - intros h' c' E. apply HG in E as [(-> & -> & _)|[Hne E]].
    + exists k. by rewrite lookup_insert_eq.
    + destruct (i_reg0 _ _ E) as (k' & Hk' & <-). exists k'. rewrite lookup_insert_ne; [done|congruence].
  - intros c' k' E. apply lookup_insert_Some in E as [[<- <-]|[Hne E]].
    + eexists. cbn. rewrite lookup_insert_eq. by split.
    + destruct (HK _ _ E). rewrite lookup_insert_ne by done. eauto.
  - intros q1 q2 x1 x2 E1 E2 E. apply lookup_insert_Some in E1 as [[<- <-]|[Hne1 E1]];
      apply lookup_insert_Some in E2 as [[<- <-]|[Hne2 E2]]; try done; cbn in E; eauto.
    + exfalso. by eapply Hfresh.
    + exfalso. by eapply Hfresh.
  - intros q' x E. apply lookup_insert_Some in E as [[<- <-]|[Hne E]]; [done|eauto].
  - intros c1 c2 k1 k2 E1 E2 E. apply lookup_insert_Some in E1 as [[<- <-]|[Hne1 E1]];
      apply lookup_insert_Some in E2 as [[<- <-]|[Hne2 E2]]; try done; cbn in E; eauto.
    + exfalso. by destruct (HK _ _ E2).
    + exfalso. by destruct (HK _ _ E1).
  - intros u g Hu Hg. destruct (decide (g = FInit c q ok)) as [->|Hne].
    { intros k'. rewrite lookup_insert_eq. by intros [= <-]. }
    assert (∃ u', u' ∈ ts ∧ g ∈ u') as (u' & Hu' & Hg').
    { apply list_elem_of_lookup in Hu as [j Hj]. destruct (decide (t = j)) as [<-|].
      - rewrite list_lookup_insert_eq in Hj by (by eapply lookup_lt_Some). simplify_eq.
        apply elem_of_cons in Hg as [?|Hg]; [done|]. exists (FQueue h ok :: st). split; [by eapply list_elem_of_lookup_2|by right].
      - rewrite list_lookup_insert_ne in Hj by done. exists u. split; [by eapply list_elem_of_lookup_2|done]. }
    destruct (Hnone _ _ Hu' Hg') as [Hn1 Hn2]. specialize (i_frame0 _ _ Hu' Hg').
    destruct g; cbn [frame_ok owns holds as_qs a_create] in *; try done;
      repeat (case_decide; [done|]).
    all: try (intros k' E; apply lookup_insert_Some in E as [[<- _]|[_ E]]; [done|by auto]).
    intros c' k' E Eq. apply lookup_insert_Some in E as [[<- <-]|[_ E]]; [by cbn in Eq|eauto].
  - intros c' k' E Hi E'. rewrite HC by done. apply lookup_insert_Some in E as [[<- <-]|[Hne E]].
    + cbn [k c_queue launches]. rewrite decide_True by done. lia.
    + destruct (HK _ _ E). apply HG in E' as [(? & ? & _)|[_ E']]; [done|]. specialize (i_init0 _ _ E Hi E'). lia.
Qed.

(** ** Nothing but a launch adds contexts, handles or queues *)

(** Inverts the binds of an action, the pairs too. *)
#[local] Ltac act_inv :=
  repeat (bind_inv; match goal with
  | H : (let '(_, _) := ?x in _) = Some _ |- _ => destruct x
  end); bind_inv.

Definition keep (w w' : world) : Prop :=
  ∀ q mq', gq_mqs w' !! q = Some mq' → ∃ mq, gq_mqs w !! q = Some mq ∧ mq_handle mq = mq_handle mq'.

#[local] Instance keep_preorder : PreOrder keep.
Proof.
  split; [intros w q mq E; by exists mq|]. intros w1 w2 w3 H1 H2 q mq3 E.
  destruct (H2 _ _ E) as (mq2 & E2 & H). destruct (H1 _ _ E2) as (mq1 & E1 & H'). exists mq1. split; [done|congruence].
Qed.

Lemma keep_insert w q mq mq' h t :
  gq_mqs w !! q = Some mq → mq_handle mq' = mq_handle mq → keep w (mkWorld h t (<[q := mq']> (gq_mqs w))).
Proof.
  intros E Hh q' m Em. cbn in Em. apply lookup_insert_Some in Em as [[<- <-]|[_ Em]]; [by exists mq|by exists m].
Qed.

Lemma keep_globalpush q w w' : skynet_globalmq_push q w = Some w' → keep w w'.
Proof.
  unfold skynet_globalmq_push. intros E. act_inv. destruct (gq_tail w); act_inv; [by eapply keep_insert|].
  intros q' m Em. by exists m.
Qed.

Lemma keep_globalpop w r w' : skynet_globalmq_pop w = Some (r, w') → keep w w'.
Proof.
  unfold skynet_globalmq_pop. intros E. destruct (gq_head w); [|by act_inv].
  act_inv. destruct (mq_next _); act_inv; by eapply keep_insert.
Qed.

Lemma keep_pop q w m w' : mq_pop q w = Some (m, w') → keep w w'.
Proof.
  unfold mq_pop, skynet_mq_pop. intros E. act_inv. eapply keep_insert; [done|].
  case_bool_decide; act_inv; done.
Qed.

Lemma keep_push q m w w' : skynet_mq_push q m w = Some w' → keep w w'.
Proof.
  unfold skynet_mq_push, ring_push, expand_queue. intros E.
  apply bind_Some in E as (mq & Hq & E). apply bind_Some in E as (mq' & Hr & E).
  assert (mq_handle mq' = mq_handle mq) by (clear E; act_inv; case_bool_decide; by act_inv).
  case_bool_decide; [|act_inv; by eapply keep_insert].
  etrans; [|by eapply keep_globalpush]. by eapply keep_insert.
Qed.

Lemma keep_mark q w w' : skynet_mq_mark_release q w = Some w' → keep w w'.
Proof.
  unfold skynet_mq_mark_release. intros E. act_inv. case_bool_decide; [|act_inv; by eapply keep_insert].
  etrans; [|by eapply keep_globalpush]. by eapply keep_insert.
Qed.

Lemma keep_free q w w' : mq_free q w = Some w' → keep w w'.
Proof. unfold mq_free. intros E. act_inv. intros q' m Em. cbn in Em. apply lookup_delete_Some in Em as [_ Em]. by exists m. Qed.

(** What the other actions do to the parts that [new_ok] is about. *)
Record mono (n n' : node) : Prop := {
  mo_world : keep (n_world n) (n_world n');
  mo_ctxs : ∀ c, n_ctxs n !! c = None → n_ctxs n' !! c = None;
  mo_reg : ∀ h, n_reg n !! h = None → n_reg n' !! h = None;
  mo_new : ∀ h, option_Forall2 (λ b b', nb_ctx b = nb_ctx b' ∧ nb_queue b = nb_queue b') (n_new n !! h) (n_new n' !! h);
  mo_reserved : n_reserved n' = n_reserved n }.

Lemma new_same (N : gmap Z newborn) : ∀ h : Z, option_Forall2 (λ b b', nb_ctx b = nb_ctx b' ∧ nb_queue b = nb_queue b') (N !! h) (N !! h).
Proof. intros h. destruct (N !! h); by constructor. Qed.

#[local] Instance mono_preorder : PreOrder mono.
Proof.
  split.
  - intros n. split; try done. apply new_same.
  - intros n1 n2 n3 [W1 C1 G1 N1 E1] [W2 C2 G2 N2 E2]. split; [by etrans|auto|auto| |congruence].
    intros h. specialize (N1 h). specialize (N2 h). destruct N1 as [b1 b2 [E1' E2']|]; inversion N2 as [? b3 [] |]; subst; constructor.
    split; congruence.
Qed.

Lemma mono_world n w : keep (n_world n) w → mono n (set_world w n).
Proof. intros H. split; try done. apply new_same. Qed.

Lemma mono_ctx n c k k' : n_ctxs n !! c = Some k → mono n (set_ctx c k' n).
Proof.
  intros Hk. split; try done; [|apply new_same]. intros c' E. cbn. rewrite lookup_insert_ne; [done|congruence].
Qed.

Lemma mono_release c n fs n' : context_release c n = Some (fs, n') → mono n n' ∧ ∀ h, total (waits h) fs = 0%nat.
Proof.
  unfold context_release. intros E. apply bind_Some in E as (k & Hk & E). destruct (c_ref k) as [|[|r]]; simplify_eq;
    (split; [by eapply mono_ctx|done]).
Qed.

Lemma mono_grab h n c n' : handle_grab h n = Some (c, n') → mono n n'.
Proof.
  unfold handle_grab. intros E.
  assert (match n_reg n !! h with
          | None => Some (None, n)
          | Some c => k ← n_ctxs n !! c; Some (Some c, set_ctx c (set_ref (S (c_ref k)) k) n)
          end = Some (c, n')) as E' by (by destruct (n_new n !! h) as [[? ? []]|]).
  destruct (n_reg n !! h); act_inv; [by eapply mono_ctx|done].
Qed.

Lemma mono_retire h n : mono n (handle_retire h n).2 ∧ ∀ h', total (waits h') (handle_retire h n).1 = 0%nat.
Proof.
  assert (mono n (match n_reg n !! h with
    | None => ([], n)
    | Some c => ([FRelease c], mkNode (n_world n) (n_ctxs n) (delete h (n_reg n)) (n_total n) (n_new n) (n_reserved n))
    end).2) as H1.
  { destruct (n_reg n !! h); [|done]. split; try done; [|apply new_same]. intros h' E. cbn. by rewrite lookup_delete_None; right. }
  unfold handle_retire. destruct (n_new n !! h) as [[c q []]|] eqn:E;
    (split; [|intros h'; by repeat case_match]); try done.
  split; try done. intros h'. cbn. destruct (decide (h = h')) as [<-|Hne];
    [rewrite lookup_insert_eq, E; by constructor|rewrite lookup_insert_ne by done; apply new_same].
Qed.

Lemma exec_mono f n fs n' : exec f n = Some (fs, n') → (∀ h ok, f ≠ FQueue h ok) →
  mono n n' ∧ ∀ h, total (waits h) fs = 0%nat.
Proof.
  intros E Hf. destruct f; cbn [exec] in E.
  - destruct q as [q|]; act_inv; (split; [|done || (intros; by repeat case_match)]); [done|].
    apply mono_world. by eapply keep_globalpop.
  - apply bind_Some in E as (mq & _ & E). apply bind_Some in E as ([c n1] & Eg & E). apply mono_grab in Eg.
    destruct c; simplify_eq; by split.
  - act_inv. split; [|done]. apply mono_world. by eapply keep_globalpop.
  - unfold dispatch_round in E. destruct (i <? num).
    + act_inv. split; [|intros; by repeat case_match]. apply mono_world. by eapply keep_pop.
    + act_inv. split; [|intros; by repeat case_match]. apply mono_world. by eapply keep_globalpop.
  - unfold dispatch_message in E. apply bind_Some in E as (mq & Hmq & E). apply bind_Some in E as (k & Hk & E).
    assert (mono n (set_world (set_mq q (skynet_mq_overload mq).2 (n_world n)) n)) as H1.
    { apply mono_world. eapply keep_insert; [done|]. unfold skynet_mq_overload. by case_bool_decide. }
    destruct (c_cb k); act_inv; (split; [|done]); [|done]. etrans; [exact H1|]. by eapply mono_ctx.
  - by simplify_eq.
  - act_inv. split; [|done]. apply mono_world. by eapply keep_globalpush.
  - apply bind_Some in E as (mq & _ & E). case_bool_decide; act_inv; (split; [|done]); [done|].
    apply mono_world. by eapply keep_globalpush.
  - apply bind_Some in E as (mq & _ & E). apply bind_Some in E as ([m w] & Ep & E). apply keep_pop in Ep.
    destruct m as [m|].
    + unfold drop_message in E. act_inv. split; [by apply mono_world|]. intros h. rewrite total_app. by destruct (bool_decide (msg_source m = 0)).
    + act_inv. split; [|done]. apply mono_world. etrans; [exact Ep|]. by eapply keep_free.
  - apply bind_Some in E as ([c n1] & Eg & E). apply mono_grab in Eg. simplify_eq. split; [done|]. by destruct c.
  - act_inv. split; [|done]. apply mono_world. by eapply keep_push.
  - by eapply mono_release.
  - unfold delete_context in E. act_inv. split; [|done]. split; try done; [by eapply keep_mark| |apply new_same].
    intros c' Ec. cbn. by rewrite lookup_delete_None; right.
  - simplify_eq. destruct (handle_retire h n) as [fs' n1] eqn:Er. pose proof (mono_retire h n) as H. rewrite Er in H. by simplify_eq.
  - by destruct (Hf h ok).
  - apply bind_Some in E as (k & Hk & E). apply bind_Some in E as ([fs1 n1] & Er & E). apply mono_release in Er as [H1 H2].
    destruct ok; [destruct fs1|]; simplify_eq; (split; [done|]); intros h; try done; rewrite total_app, H2; done.
  - act_inv. split; [by eapply mono_ctx|done].
  - pose proof (mono_retire h n) as H. destruct (handle_retire h n) as [fs' n1]. simplify_eq. destruct H as [H1 H2].
    split; [done|]. intros h'. by rewrite total_app, H2.
  - by act_inv.
  - by act_inv.
  - by eapply mono_release.
Qed.

Lemma new_ok_mono n n' ts ts' : new_ok n ts → mono n n' → (∀ h, cnt (waits h) ts' = cnt (waits h) ts) → new_ok n' ts'.
Proof.
  intros [] [Hw Hc Hg Hn _] Hts.
  assert (∀ h b', n_new n' !! h = Some b' → ∃ b, n_new n !! h = Some b ∧ nb_ctx b = nb_ctx b' ∧ nb_queue b = nb_queue b') as HN.
  { intros h b' E. specialize (Hn h). rewrite E in Hn. inversion Hn; subst. eauto. }
  split.
  - intros h b' (b & Eb & <- & _)%HN. by eapply Hc, nw_ctx0.
  - intros h b' (b & Eb & _)%HN. by eapply Hg, nw_reg0.
  - intros h b' (b & Eb & _ & <-)%HN. destruct (gq_mqs (n_world n') !! nb_queue b) eqn:E; [|done].
    apply Hw in E as (mq & E & _). by rewrite (nw_queue0 _ _ Eb) in E.
  - intros h b' q mq' (b & Eb & _)%HN E. apply Hw in E as (mq & E & <-). by eapply nw_handle0.
  - intros h b' (b & Eb & _)%HN. by eapply nw_nonzero0.
  - intros h h' b1 b2 (b1' & E1 & <- & <-)%HN (b2' & E2 & <- & <-)%HN. by eapply nw_inj0.
  - intros h. rewrite Hts, nw_frame0. specialize (Hn h). by inversion Hn.
Qed.

(** ** The system *)

Definition sys_inv (s : system) : Prop :=
  ∃ a, sys_repr (n_world (s_node s)) a ∧
    inv a (n_ctxs (s_node s)) (n_reg (s_node s)) (s_threads s) ∧
    n_total (s_node s) + n_reserved (s_node s) = Z.of_nat (size (n_ctxs (s_node s))) ∧
    new_ok (s_node s) (s_threads s).

(** The actions that touch a context without holding it: a launch, after it has dropped
    its reference. *)
Definition launch_race (f : frame) (n : node) : Prop :=
  ∃ c, n_ctxs n !! c = None ∧ ((∃ q, f = FSetInit c q) ∨ f = FLaunched c ∨ f = FAnswer c).

(** A message to a handle whose service has no queue yet. *)
Definition early_send (f : frame) (n : node) : Prop :=
  ∃ h m c q, f = FSend h m ∧ n_new n !! h = Some (mkNew c q true).

(** The queues are below the size where doubling one would overflow, and no service has
    counted [INT_MAX] messages. *)
Definition small (s : system) : Prop :=
  (∀ q mq, gq_mqs (n_world (s_node s)) !! q = Some mq → skynet_mq_length mq + 1 < 2 ^ 29) ∧
  (∀ c k, n_ctxs (s_node s) !! c = Some k → 0 ≤ c_message_count k < INT_MAX).

Lemma exec_ok s a t f st :
  sys_repr (n_world (s_node s)) a → inv a (n_ctxs (s_node s)) (n_reg (s_node s)) (s_threads s) →
  new_ok (s_node s) (s_threads s) →
  s_threads s !! t = Some (f :: st) → small s → ¬ launch_race f (s_node s) → ¬ early_send f (s_node s) →
  (∀ h ok, f ≠ FQueue h ok) → step_ok (s_node s) (s_threads s) t st (exec f (s_node s)).
Proof.
  intros R I W Ht [Hs Hcount] Hf He Hn.
  assert (∀ c, f = FLaunched c ∨ f = FAnswer c ∨ (∃ q, f = FSetInit c q) → is_Some (n_ctxs (s_node s) !! c)) as Hlive.
  { intros c Hc. destruct (n_ctxs (s_node s) !! c) eqn:E; [eauto|]. exfalso. apply Hf. exists c. split; [done|]. naive_solver. }
  destruct f.
  - by eapply step_dispatch.
  - by eapply step_grab.
  - by eapply step_next_pop.
  - by eapply step_loop.
  - eapply step_got; try done. intros k. apply Hcount.
  - by eapply step_msg.
  - by eapply step_global_push.
  - by eapply step_mq_release.
  - by eapply step_drop_loop.
  - eapply step_send; try done. intros c q E. apply He. by exists dest, m, c, q.
  - eapply step_push; try done. intros k q _. apply Hs.
  - by eapply step_frelease.
  - by eapply step_delete.
  - by eapply step_retire.
  - by destruct (Hn h ok).
  - by eapply step_init.
  - eapply step_set_init; try done. eauto.
  - by eapply step_failed.
  - eapply step_read; eauto.
  - eapply step_read; eauto.
  - by eapply step_remote.
Qed.

(** A launch creates the queue: the context leaves [n_new]. *)
Lemma create_ok s a t h ok st :
  sys_repr (n_world (s_node s)) a → inv a (n_ctxs (s_node s)) (n_reg (s_node s)) (s_threads s) →
  new_ok (s_node s) (s_threads s) → s_threads s !! t = Some (FQueue h ok :: st) →
  ∃ fs n' a', exec (FQueue h ok) (s_node s) = Some (fs, n') ∧ sys_repr (n_world n') a' ∧
    inv a' (n_ctxs n') (n_reg n') (<[t := fs ++ st]> (s_threads s)) ∧
    n_total n' + n_reserved n' - Z.of_nat (size (n_ctxs n')) =
      n_total (s_node s) + n_reserved (s_node s) - Z.of_nat (size (n_ctxs (s_node s))) ∧
    new_ok n' (<[t := fs ++ st]> (s_threads s)).
Proof.
  intros R I W Ht. cbn [exec]. unfold create_queue. set (n := s_node s) in *.
  destruct (n_new n !! h) as [[c q reg]|] eqn:EN.
  2:{ pose proof (nw_frame _ _ W h) as H. rewrite EN in H.
      pose proof (cnt_elem (waits h) _ _ (FQueue h ok) (list_elem_of_lookup_2 _ _ _ Ht) ltac:(left)) as H1.
      cbn in H1. rewrite decide_True in H1 by done. lia. }
  cbn [mbind option_bind].
  pose proof (nw_queue _ _ W _ _ EN) as Hqn. pose proof (nw_ctx _ _ W _ _ EN) as Hc. pose proof (nw_reg _ _ W _ _ EN) as Hh.
  cbn [nb_ctx nb_queue] in Hqn, Hc.
  assert (as_qs a !! q = None) as Hq.
  { pose proof (sr_qs _ _ R q) as Hr. rewrite Hqn in Hr. by inversion Hr. }
  assert (q ∉ as_run a) as Hrun.
  { pose proof (i_tok _ _ _ _ I q) as Htok. rewrite Hq in Htok. cbn [need] in Htok. apply tok_notin. lia. }
  destruct (create_refines _ _ q h R Hq Hrun) as (w & Ew & R'). rewrite Ew. cbn [mbind option_bind].
  assert (gq_mqs w = <[q := skynet_mq_new h]> (gq_mqs (n_world n))) as Emq.
  { unfold skynet_mq_create in Ew. by bind_inv. }
  eexists _, _, _. split; [done|]. cbn [n_world n_ctxs n_reg n_total n_reserved]. split; [exact R'|].
  rewrite map_size_insert_None by done. split; [|split; [lia|]].
  - apply inv_launch; try done; [by eapply nw_nonzero|].
    intros q' x Hx. destruct (sys_repr_lookup _ _ _ _ R Hx) as (mq & Hmq & Har).
    rewrite <- (ar_handle _ _ Har). by eapply nw_handle.
  - assert (∀ h' b, delete h (n_new n) !! h' = Some b →
      h' ≠ h ∧ n_new n !! h' = Some b ∧ nb_ctx b ≠ c ∧ nb_queue b ≠ q) as HN.
    { intros h' b E. apply lookup_delete_Some in E as [Hne E]. destruct (nw_inj _ _ W h' h b _ E EN); done. }
    split; cbn [n_new n_ctxs n_reg n_world]; rewrite ?Emq.
    + intros h' b (_ & E & Hb & _)%HN. rewrite lookup_insert_ne by done. by eapply nw_ctx.
    + intros h' b (Hne & E & _)%HN. destruct reg; [rewrite lookup_insert_ne by done|]; by eapply nw_reg.
    + intros h' b (_ & E & _ & Hb)%HN. rewrite lookup_insert_ne by done. by eapply nw_queue.
    + intros h' b q' mq (Hne & E & _)%HN Hmq. apply lookup_insert_Some in Hmq as [[_ <-]|[_ Hmq]]; [by cbn|by eapply nw_handle].
    + intros h' b (_ & E & _)%HN. by eapply nw_nonzero.
    + intros h1 h2 b1 b2 (_ & E1 & _)%HN (_ & E2 & _)%HN. by eapply nw_inj.
    + intros h'. pose proof (cnt_replace (waits h') _ _ _ (FInit c q ok :: st) Ht) as H. cbn [total waits app] in *.
      pose proof (nw_frame _ _ W h') as H1. destruct (decide (h' = h)) as [->|Hne].
      * rewrite lookup_delete_eq. rewrite EN in H1. lia.
      * rewrite lookup_delete_ne by done. lia.
Qed.

Lemma serve_inv s a t st r self fs n :
  sys_repr (n_world (s_node s)) a → inv a (n_ctxs (s_node s)) (n_reg (s_node s)) (s_threads s) →
  n_total (s_node s) + n_reserved (s_node s) = Z.of_nat (size (n_ctxs (s_node s))) →
  new_ok (s_node s) (s_threads s) →
  s_threads s !! t = Some st → serve r self (s_node s) = Some (fs, n) →
  sys_inv (mkSys n (<[t := fs ++ st]> (s_threads s))).
Proof.
  intros R I Htot W Ht E.
  assert (∀ fs', (∀ h, total (waits h) fs' = 0%nat) → ∀ h, cnt (waits h) (<[t := fs' ++ st]> (s_threads s)) = cnt (waits h) (s_threads s)) as Hw.
  { intros fs' H h. pose proof (cnt_replace (waits h) _ _ _ (fs' ++ st) Ht) as H1. rewrite total_app, H in H1. lia. }
  destruct r as [dest m|h| |c q h ok]; cbn [serve] in E.
  - simplify_eq. exists a. split; [done|]. split; [|split; [done|]].
    + eapply inv_push_frames; try done; frames.
    + eapply new_ok_mono; [done|done|]. by apply Hw.
  - simplify_eq. exists a. split; [done|]. split; [|split; [done|]].
    + eapply inv_push_frames; try done; frames.
    + eapply new_ok_mono; [done|done|]. by apply Hw.
  - apply bind_Some in E as (c & -> & E). apply bind_Some in E as (k & Hk & E). simplify_eq.
    exists a. split; [done|]. cbn [s_node s_threads set_ctx n_ctxs n_reg n_total n_reserved].
    rewrite map_size_insert_Some by eauto. split; [|split; [done|]].
    + set (m := mkMsg 0 0 0 0). pose proof (inv_neutral _ _ _ _ _ _ 1%positive m I Ht) as I'.
      assert (<[t := FMsg 1 m :: st]> (s_threads s) !! t = Some (FMsg 1 m :: st)) as Ht'
        by (apply list_lookup_insert_eq; by eapply lookup_lt_Some).
      pose proof (inv_ctx _ _ _ _ _ _ _ [] c k (set_cb k) I' Ht' Hk) as H. rewrite list_insert_insert_eq in H.
      apply H; try done; counts.
    + eapply new_ok_mono; [done|by eapply (mono_ctx (s_node s))|]. by apply Hw.
  - unfold context_new in E. bind_inv.
    repeat match goal with E : bool_decide _ = true |- _ => apply bool_decide_eq_true in E end.
    exists a. split; [done|]. split; [|split; [done|]].
    { cbn [s_node s_threads set_new n_ctxs n_reg]. eapply (inv_push_frames _ _ _ _ _ _ [FQueue h ok]); try done; frames. }
    cbn [s_node s_threads]. set (n := s_node s) in *.
    assert (∀ h' b, <[h := mkNew c q true]> (n_new n) !! h' = Some b →
      h' = h ∧ b = mkNew c q true ∨ h' ≠ h ∧ n_new n !! h' = Some b) as HN.
    { intros h' b E. apply lookup_insert_Some in E. naive_solver. }
    assert (∀ q' mq, gq_mqs (n_world n) !! q' = Some mq → mq_handle mq ≠ h) as Hfresh.
    { intros q' mq Hmq Hh.
      assert (existsb (λ x : positive * message_queue, mq_handle x.2 =? h) (map_to_list (gq_mqs (n_world n))) = true) as Hex.
      { apply existsb_exists. exists (q', mq). split; [by apply list_elem_of_In, elem_of_map_to_list|]. by apply Z.eqb_eq. }
      by rewrite Hex in *. }
    split; cbn [n_new n_ctxs n_reg n_world set_new].
    + intros h' b [[-> ->]|[_ E]]%HN; [done|by eapply nw_ctx].
    + intros h' b [[-> ->]|[_ E]]%HN; [done|by eapply nw_reg].
    + intros h' b [[-> ->]|[_ E]]%HN; [done|by eapply nw_queue].
    + intros h' b q' mq [[-> ->]|[_ E]]%HN Hmq; [by eapply Hfresh|by eapply nw_handle].
    + intros h' b [[-> ->]|[_ E]]%HN; [done|by eapply nw_nonzero].
    + assert (∀ h' b, n_new n !! h' = Some b → nb_ctx b ≠ c ∧ nb_queue b ≠ q) as Hfr.
      { intros h' b Eb. match goal with H : map_Forall _ _ |- _ => exact (map_Forall_lookup_1 _ _ _ _ H Eb) end. }
      intros h1 h2 b1 b2 [[-> ->]|[_ E1]]%HN [[-> ->]|[_ E2]]%HN Hne; cbn; [done| | |by eapply nw_inj];
        destruct (Hfr _ _ ltac:(eassumption)); split; congruence.
    + intros h'. pose proof (cnt_replace (waits h') _ _ _ (FQueue h ok :: st) Ht) as H1. cbn [total waits] in *.
      pose proof (nw_frame _ _ W h') as H2. fold n in H2. destruct (decide (h' = h)) as [->|Hne].
      * rewrite lookup_insert_eq. match goal with E : n_new n !! h = None |- _ => rewrite E in H2 end. lia.
      * rewrite lookup_insert_ne by done. lia.
Qed.

Lemma inv_spawn a K G ts fs :
  inv a K G ts → (∀ f, f ∈ fs → ∃ w, f = FDispatch None w) → inv a K G (ts ++ [fs]).
Proof.
  intros I Hfs. pose proof I as [].
  assert (∀ P, (∀ w, P (FDispatch None w) = 0%nat) → cnt P (ts ++ [fs]) = cnt P ts) as HC.
  { intros P HP. unfold cnt. rewrite concat_app, total_app. cbn [concat]. rewrite app_nil_r.
    assert (total P fs = 0%nat); [|lia]. induction fs as [|f fs IH]; [done|]. cbn [total].
    destruct (Hfs f) as [w ->]; [left|]. rewrite HP, IH; [done|]. intros g Hg. apply Hfs. by right. }
  split; try done; intros *; rewrite ?HC by done; try done; [|by eauto].
  intros [Hu|Hu]%elem_of_app Hg; [by eauto|]. apply list_elem_of_singleton in Hu as ->.
  destruct (Hfs _ Hg) as [w ->]. done.
Qed.

(** [skynet_context_reserve]: one more reference, and [REMOTE] holds it. *)
Lemma inv_reserve a K G ts c k :
  inv a K G ts → K !! c = Some k → c_ref k ≠ 0%nat →
  inv a (<[c := set_ref (S (c_ref k)) k]> K) G (ts ++ [[FRemote c]]).
Proof.
  intros I Hk Hr. pose proof I as [].
  assert (∀ P, cnt P (ts ++ [[FRemote c]]) = cnt P ts + P (FRemote c))%nat as HC.
  { intros P. unfold cnt. rewrite concat_app, total_app. cbn [concat total app]. lia. }
  assert (same_ctxs K (<[c := set_ref (S (c_ref k)) k]> K)) as Hsame by (by eapply same_ctxs_insert).
  assert (∀ c' k', <[c := set_ref (S (c_ref k)) k]> K !! c' = Some k' →
    ∃ k0, K !! c' = Some k0 ∧ c_handle k0 = c_handle k' ∧ c_queue k0 = c_queue k' ∧ c_init k0 = c_init k') as HK.
  { intros c' k' E. apply lookup_insert_Some in E as [[<- <-]|[_ E]]; eauto. }
  split; try done; intros *; rewrite ?HC.
  - specialize (i_tok0 q). change (owns q (FRemote c)) with 0%nat. lia.
  - change (holds c0 (FRemote c)) with (if decide (c0 = c) then 1%nat else 0%nat). erewrite regd_insert by done. rewrite refs_insert. specialize (i_ref0 c0). unfold refs in i_ref0.
    destruct (decide (c0 = c)) as [->|]; rewrite ?Hk in i_ref0; unfold refs; cbn; lia.
  - change (deletes c0 (FRemote c)) with 0%nat. rewrite isdel_insert, i_del0, Nat.add_0_r.
    destruct (decide (c0 = c)) as [->|]; [|done]. by rewrite (isdel_pos _ _ _ Hk Hr).
  - intros (k' & Hk' & Hh)%i_reg0. destruct (same_ctxs_l _ _ _ _ Hsame Hk') as (k2 & ? & ? & _). exists k2. split; [done|congruence].
  - intros (k' & Hk' & <- & <- & _)%HK. eauto.
  - intros (k1 & E1 & H1 & _)%HK (k2 & E2 & H2 & _)%HK Hh. eapply i_inj0; eauto. congruence.
  - intros [Hu|Hu]%elem_of_app Hg; [|by apply list_elem_of_singleton in Hu as ->; apply list_elem_of_singleton in Hg as ->].
    eapply frame_ok_same; [apply same_qs_refl|exact Hsame|eauto].
  - intros (k' & Hk' & <- & <- & <-)%HK Hi HG. specialize (i_init0 _ _ Hk' Hi HG). lia.
Qed.

Lemma step_inv s x s' : sys_inv s → small s → step s x = Some s' → sys_inv s'.
Proof.
  intros (a & R & I & Htot & W) Hs E. destruct x as [t|t r|w|t]; cbn [step] in E.
  - apply bind_Some in E as (st & Ht & E). destruct st as [|f st]; [done|].
    apply bind_Some in E as ([fs n] & Ef & E). simplify_eq.
    assert ((∃ h ok, f = FQueue h ok) ∨ ∀ h ok, f ≠ FQueue h ok) as [(h & ok & ->)|Hq].
    { destruct f; try (right; by intros). left. eauto. }
    { destruct (create_ok s a t h ok st R I W Ht) as (fs' & n' & a' & Ef' & R' & I' & Htot' & W').
      rewrite Ef in Ef'. simplify_eq. exists a'. split; [done|]. split; [done|]. cbn [s_node]. split; [lia|done]. }
    destruct (exec_ok s a t f st R I W Ht Hs) as (fs' & n' & a' & Ef' & R' & I' & Htot'); [| |done|].
    { intros (c & Hc & Hf). assert (exec f (s_node s) = None); [|congruence].
      destruct Hf as [[q ->]|[-> | ->]]; cbn [exec]; by rewrite Hc. }
    { intros (h & m & c & q & -> & HN). cbn [exec] in Ef. unfold handle_grab in Ef. by rewrite HN in Ef. }
    rewrite Ef in Ef'. simplify_eq. destruct (exec_mono _ _ _ _ Ef Hq) as [Hm Hw].
    exists a'. split; [done|]. split; [done|]. cbn [s_node]. split; [rewrite (mo_reserved _ _ Hm); lia|].
    eapply new_ok_mono; [done|done|]. intros h. pose proof (cnt_replace (waits h) _ _ _ (fs' ++ st) Ht) as H1.
    rewrite total_app, Hw in H1. cbn [total] in H1. cbn [s_threads].
    assert (waits h f = 0%nat); [|lia]. destruct f; try done. by destruct (Hq h0 ok).
  - apply bind_Some in E as (st & Ht & E).
    apply bind_Some in E as ([fs n] & Ef & E). simplify_eq. by eapply serve_inv.
  - simplify_eq. exists a. split; [done|]. split; [|split; [done|]].
    + apply inv_spawn; [done|]. intros f. destruct w as [w|]; [|by intros ?%not_elem_of_nil].
      intros ->%list_elem_of_singleton. eauto.
    + eapply new_ok_mono; [done|done|]. intros h. cbn [s_threads]. unfold cnt. rewrite concat_app, total_app.
      destruct w; cbn; lia.
  - apply bind_Some in E as (st & Ht & E). destruct st as [|[] st]; try done.
    apply bind_Some in E as (n & Er & E). simplify_eq. unfold context_reserve in Er.
    destruct (holder _ _ _ _ _ _ _ c I Ht) as (k & r & Hk & Hr); [cbn; by rewrite decide_True|].
    rewrite Hk in Er. cbn [mbind option_bind] in Er. simplify_eq.
    exists a. cbn [s_node s_threads n_world n_ctxs n_reg n_total n_reserved]. split; [done|].
    rewrite map_size_insert_Some by eauto. split; [|split; [lia|]].
    + apply inv_reserve; [done|done|lia].
    + assert (new_ok (set_ctx c (set_ref (S (c_ref k)) k) (s_node s)) (s_threads s ++ [[FRemote c]])) as []; [|by split].
      eapply new_ok_mono; [done|by eapply mono_ctx|]. intros h. unfold cnt. rewrite concat_app, total_app. cbn. lia.
Qed.

Lemma sys_inv_init : sys_inv init_system.
Proof.
  exists (mkAsys [] ∅). split; [apply sys_repr_init|]. split; [|done].
  split; cbn; intros *; rewrite ?lookup_empty; try done; unfold regd, refs, isdel; rewrite ?lookup_empty; try done.
  by intros ?%not_elem_of_nil.
Qed.

(** The reachable systems, as long as no queue outgrows [small]. *)
Definition reachable (s : system) : Prop :=
  rtc (λ x y, small x ∧ ∃ a, step x a = Some y) init_system s.

Lemma reachable_inv s : reachable s → sys_inv s.
Proof.
  unfold reachable. generalize sys_inv_init. generalize init_system. intros s0 H0 H.
  induction H as [|x y z [Hs [a Ha]] H IH]; [done|]. apply IH. by eapply step_inv.
Qed.

Definition is_small (s : system) : bool :=
  bool_decide (map_Forall (λ _ mq, skynet_mq_length mq + 1 < 2 ^ 29) (gq_mqs (n_world (s_node s)))) &&
  bool_decide (map_Forall (λ _ k, 0 ≤ c_message_count k < INT_MAX) (n_ctxs (s_node s))).

Lemma is_small_ok s : is_small s = true → small s.
Proof.
  intros [H1 H2]%andb_true_iff. apply bool_decide_eq_true in H1, H2. split; intros *; [apply (H1 q mq)|apply (H2 c k)].
Qed.

(** Runs of concrete actions. *)
Fixpoint runs (s : system) (acts : list action) : option system :=
  match acts with
  | [] => Some s
  | x :: acts =>
      assert! is_small s;
      s ← step s x; runs s acts
  end.

Lemma runs_reachable acts s : runs init_system acts = Some s → reachable s.
Proof.
  unfold reachable. generalize init_system. induction acts as [|x acts IH]; intros s0 E; cbn [runs] in E.
  { simplify_eq. apply rtc_refl. }
  bind_inv. eapply rtc_l; [|by apply IH]. split; [by apply is_small_ok|by eexists].
Qed.

(** ** Properties *)

(** C2: whatever threads run and however their actions
    interleave, no assertion fails, no freed context or queue is accessed and no
    queue operation breaks its contract, with two exceptions: a launch, after it has
    dropped its reference, may find its context freed when it sets the [init] flag,
    logs the launch or reads the handle for the answer; and a message to a handle that
    was registered but not yet returned may find no queue.  Queues are below 2^29
    messages and a service handles less than [INT_MAX]; a handle is not registered
    again while a queue with it exists; registration and the store of the handle are one
    action. *)
Theorem server_never_faults s t f st :
  reachable s → small s → s_threads s !! t = Some (f :: st) →
  is_Some (exec f (s_node s)) ∨ launch_race f (s_node s) ∨ early_send f (s_node s).
Proof.
  intros (a & R & I & _ & W)%reachable_inv Hs Ht.
  destruct (exec f (s_node s)) as [r|] eqn:E; [by left; eauto|right].
  assert (launch_race f (s_node s) ∨ ¬ launch_race f (s_node s)) as [|Hn]; [|by left|].
  { unfold launch_race. destruct f; try (right; by intros (? & ? & [[? ?]|[?|?]]));
      (destruct (n_ctxs (s_node s) !! c) eqn:Ec; [right|left; exists c; eauto]);
      intros (? & ? & [[? ?]|[?|?]]); simplify_eq. }
  assert (early_send f (s_node s) ∨ ¬ early_send f (s_node s)) as [|He]; [|by right|].
  { unfold early_send. destruct f; try (right; by intros (? & ? & ? & ? & ? & ?)).
    destruct (n_new (s_node s) !! dest) as [[c q []]|] eqn:Ec; [left; by exists dest, m, c, q|right..];
      intros (? & ? & ? & ? & ? & ?); simplify_eq. }
  exfalso. assert ((∃ h ok, f = FQueue h ok) ∨ ∀ h ok, f ≠ FQueue h ok) as [(h & ok & ->)|Hq].
  { destruct f; try (right; by intros). left. eauto. }
  - destruct (create_ok s a t h ok st R I W Ht) as (? & ? & ? & ? & _). congruence.
  - destruct (exec_ok s a t f st R I W Ht Hs Hn He Hq) as (? & ? & ? & ? & _). congruence.
Qed.

(** C1: in every reachable system the message queue of a
    service is at no more than one place, in the global queue or with one
    thread, so no two workers run the same service; and a queue that holds
    messages is at one place, so no message is left without a worker to come. *)
Theorem one_worker_per_service s :
  reachable s →
  ∃ run, gq_repr (n_world (s_node s)) run ∧
    ∀ q mq, gq_mqs (n_world (s_node s)) !! q = Some mq →
      (tok run q + cnt (owns q) (s_threads s) ≤ 1)%nat ∧
      (skynet_mq_length mq ≠ 0 → (tok run q + cnt (owns q) (s_threads s) = 1)%nat).
Proof.
  intros (a & R & I & _)%reachable_inv. exists (as_run a). split; [apply R|].
  intros q mq Hq. pose proof (i_tok _ _ _ _ I q) as Ht. pose proof (sr_qs _ _ R q) as Hr. rewrite Hq in Hr.
  inversion Hr as [? x Har Ex Ex'|]; subst. rewrite <- Ex' in Ht. pose proof (need_le (Some x)).
  split; [lia|]. intros Hlen. erewrite ring_length in Hlen by apply Har.
  rewrite Ht. cbn [need]. destruct (aq_sched x) eqn:E1; [done|]. destruct (aq_dead x) eqn:E2; [done|].
  rewrite (i_idle _ _ _ _ I q x) in Hlen by done. done.
Qed.

(** C3: in every reachable system the reference count of a
    context whose queue exists is the number of frames that hold it (the pointer [REMOTE]
    of the harbor is one), plus one while it is registered; so a context in use is never
    freed, one that is not is about to be, and [G_NODE.total] is the number of these
    contexts less the calls of [skynet_context_reserve], which also stay subtracted after
    a reserved context is freed.  The bounds are those of C2. *)
Theorem references_counted s :
  reachable s →
  n_total (s_node s) + n_reserved (s_node s) = Z.of_nat (size (n_ctxs (s_node s))) ∧
  (∀ h c, n_reg (s_node s) !! h = Some c → is_Some (n_ctxs (s_node s) !! c)) ∧
  (∀ c st f, st ∈ s_threads s → f ∈ st → holds c f = 1%nat → is_Some (n_ctxs (s_node s) !! c)) ∧
  (∀ c k, n_ctxs (s_node s) !! c = Some k →
     c_ref k = ((if decide (n_reg (s_node s) !! c_handle k = Some c) then 1 else 0) +
                cnt (holds c) (s_threads s))%nat ∧
     (c_ref k = 0%nat ↔ cnt (deletes c) (s_threads s) = 1%nat)).
Proof.
  intros (a & R & I & Htot & _)%reachable_inv. split; [done|]. split.
  { intros h c HG. destruct (i_reg _ _ _ _ I h c HG) as (k & -> & _). eauto. }
  split.
  { intros c st f Hst Hf Hh. pose proof (cnt_elem (holds c) _ _ _ Hst Hf).
    pose proof (i_ref _ _ _ _ I c) as Hc. unfold refs in Hc.
    destruct (n_ctxs (s_node s) !! c); [eauto|lia]. }
  intros c k Hk. pose proof (i_ref _ _ _ _ I c) as Hc. pose proof (i_del _ _ _ _ I c) as Hd.
  unfold regd, refs, isdel in *. rewrite Hk in *. split; [done|]. case_decide; naive_solver lia.
Qed.

(** The launch of service 1 by thread 0 against a [kill] by thread 1. *)
Definition race_actions : list action :=
  [ASpawn None; ASpawn None; ARequest 0 (RLaunch 1 1 16 true); ARun 0; ARun 0;
   ARequest 1 (RRetire 16); ARun 1; ARun 1; ARun 1].

(** skynet_context_new drops its reference before it
    writes [ctx->init]; if the service is killed in between, the context is
    freed and the launching thread writes to freed memory. *)
Theorem launch_race_reachable :
  ∃ s, reachable s ∧ s_threads s !! 0%nat = Some [FSetInit 1 1] ∧
    n_ctxs (s_node s) !! 1%positive = None ∧ exec (FSetInit 1 1) (s_node s) = None.
Proof.
  destruct (runs init_system race_actions) as [s|] eqn:E; [|by vm_compute in E].
  exists s. split; [by eapply runs_reachable|]. vm_compute in E. injection E as <-. by vm_compute.
Qed.

(** The kill after the flag: the log of the launch, or its answer, reads freed memory. *)
Definition log_actions : list action :=
  [ASpawn None; ASpawn None; ARequest 0 (RLaunch 1 1 16 true); ARun 0; ARun 0; ARun 0; ARun 0;
   ARequest 1 (RRetire 16); ARun 1; ARun 1; ARun 1].

Theorem launch_log_race_reachable :
  ∃ s, reachable s ∧ s_threads s !! 0%nat = Some [FLaunched 1; FAnswer 1] ∧
    n_ctxs (s_node s) !! 1%positive = None ∧ exec (FLaunched 1) (s_node s) = None.
Proof.
  destruct (runs init_system log_actions) as [s|] eqn:E; [|by vm_compute in E].
  exists s. split; [by eapply runs_reachable|]. vm_compute in E. injection E as <-. by vm_compute.
Qed.

(** A message to the handle before the queue is created. *)
Theorem early_send_reachable :
  ∃ s m, reachable s ∧ s_threads s !! 1%nat = Some [FSend 16 m] ∧ exec (FSend 16 m) (s_node s) = None.
Proof.
  destruct (runs init_system [ASpawn None; ASpawn None; ARequest 0 (RLaunch 1 1 16 true);
    ARequest 1 (RSend 16 (mkMsg 0 0 0 0))]) as [s|] eqn:E; [|by vm_compute in E].
  exists s, (mkMsg 0 0 0 0). split; [by eapply runs_reachable|]. vm_compute in E. injection E as <-. by vm_compute.
Qed.

(** ** Witnesses: a service with a worker in its callback *)

Definition busy_actions : list action :=
  [ASpawn None; ASpawn (Some 0); ARequest 0 (RLaunch 1 1 16 true); ARun 0; ARequest 0 RCallback; AHarbor 0;
   ARun 0; ARun 0; ARun 0; ARun 0; ARun 0;
   ARequest 0 (RSend 16 (mkMsg 0 7 0 0)); ARun 0; ARun 0; ARun 0; ARun 1; ARun 1; ARun 1; ARun 1].

Definition busy : system := default init_system (runs init_system busy_actions).

Lemma busy_reachable : reachable busy ∧ small busy ∧
  s_threads busy !! 1%nat = Some [FMsg 1 (mkMsg 0 7 0 0); FLoop 1 1 1 0 0].
Proof.
  assert (runs init_system busy_actions = Some busy) as E.
  { unfold busy. destruct (runs init_system busy_actions) eqn:E; [done|]. by vm_compute in E. }
  split; [by eapply runs_reachable|]. split; [|by vm_compute].
  apply is_small_ok. by vm_compute.
Qed.

Lemma server_never_faults_witness :
  s_threads busy !! 1%nat = Some (FMsg 1 (mkMsg 0 7 0 0) :: [FLoop 1 1 1 0 0]) ∧
  (is_Some (exec (FMsg 1 (mkMsg 0 7 0 0)) (s_node busy)) ∨ launch_race (FMsg 1 (mkMsg 0 7 0 0)) (s_node busy) ∨
   early_send (FMsg 1 (mkMsg 0 7 0 0)) (s_node busy)).
Proof.
  destruct busy_reachable as (H1 & H2 & H3). split; [done|].
  exact (server_never_faults busy 1 (FMsg 1 (mkMsg 0 7 0 0)) [FLoop 1 1 1 0 0] H1 H2 H3).
Defined.

Lemma one_worker_per_service_witness :
  ∃ run, gq_repr (n_world (s_node busy)) run ∧
    ∀ q mq, gq_mqs (n_world (s_node busy)) !! q = Some mq →
      (tok run q + cnt (owns q) (s_threads busy) ≤ 1)%nat ∧
      (skynet_mq_length mq ≠ 0 → (tok run q + cnt (owns q) (s_threads busy) = 1)%nat).
Proof. destruct busy_reachable as (H1 & H2 & H3). exact (one_worker_per_service busy H1). Defined.

Lemma references_counted_witness :
  n_total (s_node busy) + n_reserved (s_node busy) = Z.of_nat (size (n_ctxs (s_node busy))) ∧
  (∀ h c, n_reg (s_node busy) !! h = Some c → is_Some (n_ctxs (s_node busy) !! c)) ∧
  (∀ c st f, st ∈ s_threads busy → f ∈ st → holds c f = 1%nat → is_Some (n_ctxs (s_node busy) !! c)) ∧
  (∀ c k, n_ctxs (s_node busy) !! c = Some k →
     c_ref k = ((if decide (n_reg (s_node busy) !! c_handle k = Some c) then 1 else 0) +
                cnt (holds c) (s_threads busy))%nat ∧
     (c_ref k = 0%nat ↔ cnt (deletes c) (s_threads busy) = 1%nat)).
Proof. destruct busy_reachable as (H1 & H2 & H3). exact (references_counted busy H1). Defined.
