(* ===== verification/SlKey.v ===== *)
(** The keys of the sorted set (src/framework/lib/lua-zset/skiplist.c): scores,
    which are IEEE doubles compared with [<], [>], [==], and members, which are
    byte strings compared with [compareslObj].  The order of the skip list is by
    score, then by member. *)
From Stdlib Require Import Floats.SpecFloat.
From S2P Require Import Prelude Bytes.

(** ** Scores

    A C [double] is a value of the Standard Library's IEEE 754 model; the
    comparisons of C are false when an operand is a NaN. *)
Definition double := spec_float.

Definition dltb (a b : double) : bool := SFltb a b.
Definition dleb (a b : double) : bool := SFleb a b.
Definition deqb (a b : double) : bool := SFeqb a b.

Definition is_nan (a : double) : bool :=
  match a with S754_nan => true | _ => false end.

(** An order-preserving code of a double: sign and magnitude as three integers
    in lexicographic order. *)
Definition dkey (a : double) : Z * Z * Z :=
  match a with
  | S754_zero _ | S754_nan => (0, 0, 0)
  | S754_infinity s => (if s then -2 else 2, 0, 0)
  | S754_finite s m e => if s then (-1, - e, Z.neg m) else (1, e, Z.pos m)
  end.

Definition lex3 (a b : Z * Z * Z) : Prop :=
  let '(a1, a2, a3) := a in
  let '(b1, b2, b3) := b in
  a1 < b1 ∨ a1 = b1 ∧ (a2 < b2 ∨ a2 = b2 ∧ a3 < b3).

Lemma SFcompare_key a b :
  is_nan a = false → is_nan b = false →
  match SFcompare a b with
  | Some Lt => lex3 (dkey a) (dkey b)
  | Some Eq => dkey a = dkey b
  | Some Gt => lex3 (dkey b) (dkey a)
  | None => False
  end.
Proof.
  destruct a as [sa|sa| |sa ma ea], b as [sb|sb| |sb mb eb]; try done; intros _ _;
    try (destruct sa); try (destruct sb); simpl; try done; try lia.
  - destruct (Z.compare_spec ea eb); try lia. subst.
    fold (Pos.compare ma mb). destruct (Pos.compare_spec ma mb); simpl; subst; try lia. done.
  - destruct (Z.compare_spec ea eb); try lia. subst.
    fold (Pos.compare ma mb). destruct (Pos.compare_spec ma mb); simpl; subst; try lia. done.
Qed.

Lemma lex3_irrefl a : ¬ lex3 a a.
Proof. destruct a as [[??]?]. simpl. lia. Qed.
Lemma lex3_trans a b c : lex3 a b → lex3 b c → lex3 a c.
Proof. destruct a as [[??]?], b as [[??]?], c as [[??]?]. simpl. lia. Qed.

Lemma dltb_key a b :
  is_nan a = false → is_nan b = false → dltb a b = true ↔ lex3 (dkey a) (dkey b).
Proof.
  intros Ha Hb. pose proof (SFcompare_key a b Ha Hb) as H. unfold dltb, SFltb.
  destruct (SFcompare a b) as [[]|]; try done; split; intros H'; try done.
  - rewrite H in H'. by destruct (lex3_irrefl _ H').
  - by destruct (lex3_irrefl (dkey a)); eapply lex3_trans.
Qed.

Lemma deqb_key a b :
  is_nan a = false → is_nan b = false → deqb a b = true ↔ dkey a = dkey b.
Proof.
  intros Ha Hb. pose proof (SFcompare_key a b Ha Hb) as H. unfold deqb, SFeqb.
  destruct (SFcompare a b) as [[]|]; try done; split; intros H'; try done;
    rewrite H' in H; by destruct (lex3_irrefl _ H).
Qed.

Lemma dleb_negb a b :
  is_nan a = false → is_nan b = false → dleb a b = negb (dltb b a).
Proof.
  intros Ha Hb. pose proof (SFcompare_key a b Ha Hb) as H.
  destruct (dltb b a) eqn:E; [apply (dltb_key b a) in E; try done|];
    unfold dleb, SFleb; destruct (SFcompare a b) as [[]|] eqn:Ec; try done; simpl.
  - rewrite H in E. by destruct (lex3_irrefl _ E).
  - by destruct (lex3_irrefl (dkey a)); eapply lex3_trans.
  - apply (dltb_key b a) in H; [congruence|done..].
Qed.

(** ** Members *)

(** The bytes of a string object; [slCreateObj] copies them. *)
Definition slobj := list Z.

Definition slCreateObj (ptr : list Z) (length : nat) : slobj := take length ptr.

(** [memcmp] of the C library on [n] bytes: the sign of its result. *)
Fixpoint memcmp (a b : list Z) (n : nat) : Z :=
  match n with
  | 0%nat => 0
  | S n =>
    match a, b with
    | x :: a, y :: b => if x <? y then -1 else if y <? x then 1 else memcmp a b n
    | _, _ => 0
    end
  end.

(** The lengths are [size_t], their difference is converted to [int]. *)
Definition compareslObj (a b : slobj) : Z :=
  let cmp := memcmp a b (if (length a <=? length b)%nat then length a else length b) in
  if cmp =? 0 then swrap 32 (wrap 64 (Z.of_nat (length a) - Z.of_nat (length b))) else cmp.

Definition equalslObj (a b : slobj) : bool := compareslObj a b =? 0.

(** The lexicographic order of byte strings. *)
Fixpoint lexcmp (a b : list Z) : comparison :=
  match a, b with
  | [], [] => Eq
  | [], _ :: _ => Lt
  | _ :: _, [] => Gt
  | x :: a, y :: b =>
    match x ?= y with Lt => Lt | Gt => Gt | Eq => lexcmp a b end
  end.

Definition obj_ok (o : slobj) : Prop := Z.of_nat (length o) < 2 ^ 31.

Lemma memcmp_lexcmp a b :
  (if memcmp a b (Nat.min (length a) (length b)) =? 0
   then Z.of_nat (length a) - Z.of_nat (length b)
   else memcmp a b (Nat.min (length a) (length b)))
  = match lexcmp a b with
    | Lt => Z.min (-1) (if memcmp a b (Nat.min (length a) (length b)) =? 0 then
        Z.of_nat (length a) - Z.of_nat (length b) else -1)
    | Eq => 0
    | Gt => Z.max 1 (if memcmp a b (Nat.min (length a) (length b)) =? 0 then
        Z.of_nat (length a) - Z.of_nat (length b) else 1)
    end.
Proof.
  revert b. induction a as [|x a IH]; intros [|y b]; cbn [length Nat.min memcmp lexcmp];
    rewrite ?Z.eqb_refl; try lia.
  destruct (Z.compare_spec x y) as [Hxy|Hxy|Hxy]; [subst y|..].
  - rewrite Z.ltb_irrefl. rewrite !Nat2Z.inj_succ.
    specialize (IH b). destruct (memcmp a b _ =? 0), (lexcmp a b); lia.
  - rewrite (proj2 (Z.ltb_lt x y)) by done. cbv match. change (-1 =? 0) with false. cbv match. lia.
  - rewrite (proj2 (Z.ltb_ge x y)), (proj2 (Z.ltb_lt y x)) by lia. cbv match. change (1 =? 0) with false. cbv match. lia.
Qed.

Lemma swrap_wrap_le w v z : 1 ≤ w ≤ v → swrap w (wrap v z) = swrap w z.
Proof.
  intros Hw. unfold swrap, wrap. f_equal. rewrite (Z.mod_eq z) by lia.
  replace (z - 2 ^ v * (z / 2 ^ v) + 2 ^ (w - 1))
    with (z + 2 ^ (w - 1) + - (z / 2 ^ v) * 2 ^ v) by ring.
  apply mod_pow2_add_mul. lia.
Qed.

Lemma compareslObj_lexcmp a b :
  obj_ok a → obj_ok b →
  match lexcmp a b with
  | Lt => compareslObj a b < 0 | Eq => compareslObj a b = 0 | Gt => compareslObj a b > 0
  end.
Proof.
  unfold obj_ok, compareslObj. intros Ha Hb.
  replace (if (length a <=? length b)%nat then length a else length b)
    with (Nat.min (length a) (length b)).
  2: { destruct (Nat.leb_spec (length a) (length b)); lia. }
  cbn zeta. rewrite (swrap_wrap_le 32 64) by lia.
  pose proof (memcmp_lexcmp a b) as H.
  destruct (memcmp a b _ =? 0); [rewrite swrap_small by lia|]; destruct (lexcmp a b); lia.
Qed.

Lemma lexcmp_refl a : lexcmp a a = Eq.
Proof. induction a as [|x a IH]; [done|]. cbn. by rewrite Z.compare_refl. Qed.

Lemma lexcmp_eq a b : lexcmp a b = Eq ↔ a = b.
Proof.
  split; [|intros ->; apply lexcmp_refl].
  revert b. induction a as [|x a IH]; intros [|y b]; try done. cbn.
  destruct (Z.compare_spec x y); try done. intros. f_equal; [done|]. by apply IH.
Qed.

Lemma lexcmp_antisym a b : lexcmp b a = CompOpp (lexcmp a b).
Proof.
  revert b. induction a as [|x a IH]; intros [|y b]; try done. cbn.
  rewrite (Z.compare_antisym x y). destruct (x ?= y); cbn; [apply IH|done..].
Qed.

Lemma lexcmp_trans a b c : lexcmp a b = Lt → lexcmp b c = Lt → lexcmp a c = Lt.
Proof.
  revert b c. induction a as [|x a IH]; intros [|y b] [|z c]; try done. cbn.
  destruct (Z.compare_spec x y), (Z.compare_spec y z), (Z.compare_spec x z);
    try done; try lia. apply IH.
Qed.

(** ** The order of the entries *)

Notation key := (double * slobj)%type (only parsing).

Definition key_ok (k : key) : Prop := is_nan k.1 = false ∧ obj_ok k.2.

(** The condition under which the search of [slInsert] and [slDelete] goes past
    an entry, and the one of [slGetRank]. *)
Definition klt (a b : key) : bool :=
  dltb a.1 b.1 || deqb a.1 b.1 && (compareslObj a.2 b.2 <? 0).
Definition kle (a b : key) : bool :=
  dltb a.1 b.1 || deqb a.1 b.1 && (compareslObj a.2 b.2 <=? 0).
Definition keq (a b : key) : bool := deqb b.1 a.1 && equalslObj a.2 b.2.

(** The order as a relation on codes. *)
Definition kless (a b : key) : Prop :=
  lex3 (dkey a.1) (dkey b.1) ∨ dkey a.1 = dkey b.1 ∧ lexcmp a.2 b.2 = Lt.

Lemma klt_iff a b : key_ok a → key_ok b → klt a b = true ↔ kless a b.
Proof.
  intros [Ha Ha'] [Hb Hb']. unfold klt, kless.
  rewrite orb_true_iff, andb_true_iff, dltb_key, deqb_key by done.
  pose proof (compareslObj_lexcmp a.2 b.2 Ha' Hb') as H.
  rewrite Z.ltb_lt. destruct (lexcmp a.2 b.2); naive_solver lia.
Qed.

Lemma keq_iff a b :
  key_ok a → key_ok b → keq a b = true ↔ dkey a.1 = dkey b.1 ∧ a.2 = b.2.
Proof.
  intros [Ha Ha'] [Hb Hb']. unfold keq, equalslObj.
  rewrite andb_true_iff, deqb_key, <- lexcmp_eq by done.
  pose proof (compareslObj_lexcmp a.2 b.2 Ha' Hb') as H.
  rewrite Z.eqb_eq. destruct (lexcmp a.2 b.2); naive_solver lia.
Qed.

Lemma equalslObj_iff a b : obj_ok a → obj_ok b → equalslObj a b = true ↔ a = b.
Proof.
  intros Ha Hb. unfold equalslObj. rewrite Z.eqb_eq, <- lexcmp_eq.
  pose proof (compareslObj_lexcmp a b Ha Hb). destruct (lexcmp a b); naive_solver lia.
Qed.

Lemma lex3_total a b : lex3 a b ∨ a = b ∨ lex3 b a.
Proof.
  destruct a as [[a1 a2] a3], b as [[b1 b2] b3]. simpl.
  destruct (decide (a1 = b1)), (decide (a2 = b2)), (decide (a3 = b3)); subst;
    (try by right; left); lia.
Qed.

Lemma kless_irrefl a : ¬ kless a a.
Proof.
  intros [H|[_ H]]; [by apply lex3_irrefl in H|]. by rewrite lexcmp_refl in H.
Qed.

Lemma kless_trans a b c : kless a b → kless b c → kless a c.
Proof.
  intros [H1|[H1 H1']] [H2|[H2 H2']]; unfold kless.
  - left. by eapply lex3_trans.
  - left. by rewrite <- H2.
  - left. by rewrite H1.
  - right. split; [congruence|]. by eapply lexcmp_trans.
Qed.

Lemma kless_total a b : kless a b ∨ (dkey a.1 = dkey b.1 ∧ a.2 = b.2) ∨ kless b a.
Proof.
  unfold kless. destruct (lex3_total (dkey a.1) (dkey b.1)) as [|[H|]]; auto.
  rewrite (lexcmp_antisym a.2 b.2). destruct (lexcmp a.2 b.2) eqn:E; auto.
  apply lexcmp_eq in E. auto.
Qed.

Lemma kle_iff a b : key_ok a → key_ok b → kle a b = true ↔ ¬ kless b a.
Proof.
  intros [Ha Ha'] [Hb Hb']. unfold kle.
  rewrite orb_true_iff, andb_true_iff, dltb_key, deqb_key by done.
  pose proof (compareslObj_lexcmp a.2 b.2 Ha' Hb') as H. rewrite Z.leb_le.
  assert (compareslObj a.2 b.2 ≤ 0 ↔ lexcmp b.2 a.2 ≠ Lt) as ->.
  { rewrite lexcmp_antisym. destruct (lexcmp a.2 b.2); cbn; naive_solver lia. }
  unfold kless. destruct (lex3_total (dkey a.1) (dkey b.1)) as [H'|[H'|H']].
  - split; [|by left]. intros _ [H1|[H1 _]];
      [by destruct (lex3_irrefl (dkey a.1)); eapply lex3_trans|].
    rewrite H1 in H'. by apply lex3_irrefl in H'.
  - rewrite H'. pose proof (lex3_irrefl (dkey b.1)) as Hi. split.
    + intros [H1|[_ H1]] [H2|[_ H2]]; done.
    + intros Hn. right. split; [done|]. intros E. apply Hn. by right.
  - split.
    + intros [H1|[H1 _]]; [by destruct (lex3_irrefl (dkey a.1)); eapply lex3_trans|].
      rewrite H1 in H'. by apply lex3_irrefl in H'.
    + naive_solver.
Qed.
