(* ===== verification/Skiplist.v ===== *)
(** The skip list of the sorted set (src/framework/lib/lua-zset/skiplist.c): nodes
    in a heap, linked at up to 32 levels, each link with the number of nodes it
    goes over (its span), and a backward pointer at the lowest level.

    This file has the operations, SkiplistRep.v their effect on the list that the
    memory represents. *)
From S2P Require Import Prelude Bytes SlKey.

Definition SKIPLIST_MAXLEVEL : nat := 32.

(** ** The data *)

Definition loc := positive.

Record skiplistLevel := Level { forward : option loc; span : Z }.

Record skiplistNode := Node {
  obj : option slobj;          (* NULL in the header *)
  score : double;
  backward : option loc;
  level : list skiplistLevel;  (* the flexible array member *)
}.

Notation heap := (gmap loc skiplistNode).

Record skiplist := Skiplist {
  sl_heap : heap;
  sl_header : loc;
  sl_tail : option loc;
  sl_length : Z;               (* unsigned long *)
  sl_level : nat;
}.

(** Access to [x->level[i]]. *)
Definition get_level (h : heap) (x : loc) (i : nat) : option skiplistLevel :=
  nd ← h !! x; level nd !! i.
Definition set_level (h : heap) (x : loc) (i : nat) (v : skiplistLevel) : option heap :=
  nd ← h !! x;
  _ ← level nd !! i;
  Some (<[x := Node (obj nd) (score nd) (backward nd) (<[i := v]> (level nd))]> h).
Definition set_backward (h : heap) (x : loc) (b : option loc) : option heap :=
  nd ← h !! x;
  Some (<[x := Node (obj nd) (score nd) b (level nd)]> h).

(** ** Creation and destruction *)

(** [malloc] gives an unused address; the levels are not initialised. *)
Definition slCreateNode (h : heap) (lv : nat) (s : double) (o : option slobj) : loc * heap :=
  let p := fresh (dom h) in
  (p, <[p := Node o s None (replicate lv (Level None 0))]> h).

Definition dzero : double := SpecFloat.S754_zero false.

Definition slCreate : skiplist :=
  let '(p, h) := slCreateNode ∅ SKIPLIST_MAXLEVEL dzero None in
  Skiplist h p None 0 1.

Definition slFreeNode (h : heap) (x : loc) : heap := delete x h.

Fixpoint slFree_loop (fuel : nat) (h : heap) (node : option loc) : option heap :=
  match node, fuel with
  | None, _ => Some h
  | Some x, O => None
  | Some x, S fuel =>
    lv ← get_level h x 0;
    slFree_loop fuel (slFreeNode h x) (forward lv)
  end.

Definition slFree (sl : skiplist) : option heap :=
  lv ← get_level (sl_heap sl) (sl_header sl) 0;
  let h := delete (sl_header sl) (sl_heap sl) in
  slFree_loop (size h) h (forward lv).

(** ** The level of a new node

    The argument holds the results of the successive calls of [random()]; [None]
    when it is too short.  [SKIPLIST_P * 0xffff] is 16383.75. *)
Fixpoint random_loop (rs : list Z) (lv : nat) : option nat :=
  match rs with
  | [] => None
  | r :: rs => if 4 * Z.land r 65535 <? 65535 then random_loop rs (S lv) else Some lv
  end.

Definition slRandomLevel (rs : list Z) : option nat :=
  lv ← random_loop rs 1;
  Some (if (lv <? SKIPLIST_MAXLEVEL)%nat then lv else SKIPLIST_MAXLEVEL).

(** ** The search

    All the searches of the code have the same inner loop
    [while (x->level[i].forward && ...) { rank += x->level[i].span; x = x->level[i].forward; }]
    and differ in the condition [go], of the rank after the step and the node
    ahead; [w] is the width of the unsigned rank. *)
Section search.
Context (fuel : nat) (w : Z) (h : heap) (go : Z → skiplistNode → option bool).

Fixpoint walk (fuel : nat) (i : nat) (x : loc) (rank : Z) : option (loc * Z) :=
  match fuel with
  | O => None
  | S fuel =>
    lv ← get_level h x i;
    match forward lv with
    | None => Some (x, rank)
    | Some y =>
      nd ← h !! y;
      let rank' := wrap w (rank + span lv) in
      b ← go rank' nd;
      if (b : bool) then walk fuel i y rank' else Some (x, rank)
    end
  end.

(** The outer loop from level [n - 1] down to 0: [update[i]] and [rank[i]] for
    each level. *)
Fixpoint descend (n : nat) (x : loc) (rank : Z) (acc : list (loc * Z)) :
    option (list (loc * Z)) :=
  match n with
  | O => Some acc
  | S i =>
    '(x, rank) ← walk fuel i x rank;
    descend i x rank ((x, rank) :: acc)
  end.

(** The same with a test after each level, which may return. *)
Fixpoint descend_until {A} (stop : loc → Z → option (option A)) (n : nat) (x : loc)
    (rank : Z) : option (option A) :=
  match n with
  | O => Some None
  | S i =>
    '(x, rank) ← walk fuel i x rank;
    r ← stop x rank;
    match r with
    | Some a => Some (Some a)
    | None => descend_until stop i x rank
    end
  end.
End search.

Definition walk_fuel (sl : skiplist) : nat := S (Z.to_nat (sl_length sl)).

(** The conditions of the loops. *)
Definition go_lt (s : double) (o : slobj) (_ : Z) (nd : skiplistNode) : option bool :=
  if dltb (score nd) s then Some true
  else if deqb (score nd) s then o' ← obj nd; Some (compareslObj o' o <? 0)
  else Some false.
Definition go_le (s : double) (o : slobj) (_ : Z) (nd : skiplistNode) : option bool :=
  if dltb (score nd) s then Some true
  else if deqb (score nd) s then o' ← obj nd; Some (compareslObj o' o <=? 0)
  else Some false.

(** A loop [for (i = a; i < a + n; i++)] over the heap. *)
Fixpoint for_levels (n a : nat) (f : nat → heap → option heap) (h : heap) : option heap :=
  match n with
  | O => Some h
  | S n => h ← f a h; for_levels n (S a) f h
  end.

(** ** Insertion *)

(** New levels start at the header and span the whole list. *)
Definition grow_level (header : loc) (length : Z) (i : nat) (h : heap) : option heap :=
  lv ← get_level h header i;
  set_level h header i (Level (forward lv) (wrap 32 length)).

(** Link the new node [x] after [update[i]]. *)
Definition link_level (update : list (loc * Z)) (x : loc) (i : nat) (h : heap) : option heap :=
  '(u, r) ← update !! i;
  '(_, r0) ← update !! 0%nat;
  lu ← get_level h u i;
  h ← set_level h x i (Level (forward lu) (wrap 32 (span lu - wrap 32 (r0 - r))));
  set_level h u i (Level (Some x) (wrap 32 (wrap 32 (r0 - r) + 1))).

(** Levels above the new node: one more node is spanned. *)
Definition bump_level (update : list (loc * Z)) (i : nat) (h : heap) : option heap :=
  '(u, _) ← update !! i;
  lu ← get_level h u i;
  set_level h u i (Level (forward lu) (wrap 32 (span lu + 1))).

Definition slInsert (sl : skiplist) (s : double) (o : slobj) (rs : list Z) : option skiplist :=
  update ← descend (walk_fuel sl) 32 (sl_heap sl) (go_lt s o) (sl_level sl) (sl_header sl) 0 [];
  lv ← slRandomLevel rs;
  h ← for_levels (lv - sl_level sl) (sl_level sl)
        (grow_level (sl_header sl) (sl_length sl)) (sl_heap sl);
  let update := update ++ replicate (lv - sl_level sl) (sl_header sl, 0) in
  let top := Nat.max lv (sl_level sl) in
  let '(x, h) := slCreateNode h lv s (Some o) in
  h ← for_levels lv 0 (link_level update x) h;
  h ← for_levels (top - lv) lv (bump_level update) h;
  '(u0, _) ← update !! 0%nat;
  h ← set_backward h x (if decide (u0 = sl_header sl) then None else Some u0);
  lx ← get_level h x 0;
  match forward lx with
  | Some y =>
    h ← set_backward h y (Some x);
    Some (Skiplist h (sl_header sl) (sl_tail sl) (wrap 64 (sl_length sl + 1)) top)
  | None => Some (Skiplist h (sl_header sl) (Some x) (wrap 64 (sl_length sl + 1)) top)
  end.

(** ** Deletion *)

Definition unlink_level (update : list (loc * Z)) (x : loc) (i : nat) (h : heap) : option heap :=
  '(u, _) ← update !! i;
  lu ← get_level h u i;
  if decide (forward lu = Some x) then
    lx ← get_level h x i;
    set_level h u i (Level (forward lx) (wrap 32 (span lu + (span lx - 1))))
  else set_level h u i (Level (forward lu) (wrap 32 (span lu - 1))).

(** [while (sl->level > 1 && sl->header->level[sl->level-1].forward == NULL) sl->level--] *)
Fixpoint lower_level (h : heap) (header : loc) (n : nat) : option nat :=
  match n with
  | S (S _ as n') =>
    lv ← get_level h header n';
    match forward lv with
    | None => lower_level h header n'
    | Some _ => Some n
    end
  | _ => Some n
  end.

Definition slDeleteNode (sl : skiplist) (x : loc) (update : list (loc * Z)) : option skiplist :=
  h ← for_levels (sl_level sl) 0 (unlink_level update x) (sl_heap sl);
  nx ← h !! x;
  lx ← get_level h x 0;
  match forward lx with
  | Some y =>
    h ← set_backward h y (backward nx);
    n ← lower_level h (sl_header sl) (sl_level sl);
    Some (Skiplist h (sl_header sl) (sl_tail sl) (wrap 64 (sl_length sl - 1)) n)
  | None =>
    n ← lower_level h (sl_header sl) (sl_level sl);
    Some (Skiplist h (sl_header sl) (backward nx) (wrap 64 (sl_length sl - 1)) n)
  end.

Definition free_in (sl : skiplist) (x : loc) : skiplist :=
  Skiplist (slFreeNode (sl_heap sl) x) (sl_header sl) (sl_tail sl) (sl_length sl) (sl_level sl).

Definition slDelete (sl : skiplist) (s : double) (o : slobj) : option (bool * skiplist) :=
  update ← descend (walk_fuel sl) 32 (sl_heap sl) (go_lt s o) (sl_level sl) (sl_header sl) 0 [];
  '(u0, _) ← update !! 0%nat;
  lv ← get_level (sl_heap sl) u0 0;
  match forward lv with
  | None => Some (false, sl)
  | Some x =>
    nx ← sl_heap sl !! x;
    found ← (if deqb s (score nx) then o' ← obj nx; Some (equalslObj o' o) else Some false);
    if (found : bool) then
      sl ← slDeleteNode sl x update;
      Some (true, free_in sl x)
    else Some (false, sl)
  end.

Definition go_before (start : Z) (rank : Z) (_ : skiplistNode) : option bool :=
  Some (rank <? start).

(** The second loop of [slDeleteByRank]; the result is the number of removed nodes
    and the members given to the callback, in order. *)
Fixpoint delete_loop (fuel : nat) (sl : skiplist) (update : list (loc * Z)) (x : option loc)
    (traversed stop removed : Z) (out : list slobj) : option (Z * list slobj * skiplist) :=
  match x with
  | None => Some (removed, out, sl)
  | Some x =>
    if traversed <=? stop then
      match fuel with
      | O => None
      | S fuel =>
        lx ← get_level (sl_heap sl) x 0;
        sl ← slDeleteNode sl x update;
        nx ← sl_heap sl !! x;
        o ← obj nx;
        delete_loop fuel (free_in sl x) update (forward lx) (wrap 64 (traversed + 1)) stop
          (wrap 64 (removed + 1)) (out ++ [o])
      end
    else Some (removed, out, sl)
  end.

Definition slDeleteByRank (sl : skiplist) (start stop : Z) :
    option (Z * list slobj * skiplist) :=
  update ← descend (walk_fuel sl) 64 (sl_heap sl) (go_before start) (sl_level sl)
             (sl_header sl) 0 [];
  '(x, traversed) ← update !! 0%nat;
  lv ← get_level (sl_heap sl) x 0;
  delete_loop (walk_fuel sl) sl update (forward lv) (wrap 64 (traversed + 1)) stop 0 [].

(** ** Queries *)

Definition slGetRank (sl : skiplist) (s : double) (o : slobj) : option Z :=
  r ← descend_until (walk_fuel sl) 64 (sl_heap sl) (go_le s o)
        (λ x rank, nd ← sl_heap sl !! x;
                   match obj nd with
                   | Some o' => Some (if equalslObj o' o then Some rank else None)
                   | None => Some None
                   end)
        (sl_level sl) (sl_header sl) 0;
  Some (default 0 r).

Definition go_upto (rank : Z) (r : Z) (_ : skiplistNode) : option bool := Some (r <=? rank).

(** The result is [NULL] or a node. *)
Definition slGetNodeByRank (sl : skiplist) (rank : Z) : option (option loc) :=
  if (rank =? 0) || (sl_length sl <? rank) then Some None
  else
    descend_until (walk_fuel sl) 64 (sl_heap sl) (go_upto rank)
      (λ x traversed, Some (if traversed =? rank then Some x else None))
      (sl_level sl) (sl_header sl) 0.

Definition slIsInRange (sl : skiplist) (min max : double) : option bool :=
  if dltb max min then Some false
  else
    match sl_tail sl with
    | None => Some false
    | Some x =>
      nx ← sl_heap sl !! x;
      if dltb (score nx) min then Some false
      else
        lv ← get_level (sl_heap sl) (sl_header sl) 0;
        match forward lv with
        | None => Some false
        | Some x =>
          nx ← sl_heap sl !! x;
          Some (negb (dltb max (score nx)))
        end
    end.

Definition slFirstInRange (sl : skiplist) (min max : double) : option (option loc) :=
  b ← slIsInRange sl min max;
  if (b : bool) then
    update ← descend (walk_fuel sl) 64 (sl_heap sl) (λ _ nd, Some (dltb (score nd) min))
               (sl_level sl) (sl_header sl) 0 [];
    '(x, _) ← update !! 0%nat;
    lv ← get_level (sl_heap sl) x 0;
    Some (forward lv)
  else Some None.

Definition slLastInRange (sl : skiplist) (min max : double) : option (option loc) :=
  b ← slIsInRange sl min max;
  if (b : bool) then
    update ← descend (walk_fuel sl) 64 (sl_heap sl) (λ _ nd, Some (dleb (score nd) max))
               (sl_level sl) (sl_header sl) 0 [];
    '(x, _) ← update !! 0%nat;
    Some (Some x)
  else Some None.
