(* ===== verification/SkiplistRep.v ===== *)
(** The memory of a skip list (Skiplist.v) represents a list of entries with their
    heights ([rep]), from which every link and every span is determined ([cell]).
    The searches stop at the place where their condition stops holding
    ([descend_spec]); insertion and deletion change the list at that place, with
    all the links, spans and backward pointers. *)
From S2P Require Import Prelude Bytes SlKey Skiplist.

(** ** The meaning of the memory *)

(** An entry of the list: its node, its key and the height of its node. *)
Record entry := Entry { eloc : loc; ekey : key; ehgt : nat }.

(** The link at level [i] in front of the entries [es]: the first that is higher
    than [i], and the number of entries up to it, or of all. *)
Fixpoint fwd (i : nat) (es : list entry) : option loc :=
  match es with
  | [] => None
  | e :: es => if (i <? ehgt e)%nat then Some (eloc e) else fwd i es
  end.
Fixpoint spn (i : nat) (es : list entry) : nat :=
  match es with
  | [] => 0
  | e :: es => if (i <? ehgt e)%nat then 1 else S (spn i es)
  end.
Definition cell (i : nat) (es : list entry) : skiplistLevel :=
  Level (fwd i es) (Z.of_nat (spn i es)).

(** The node at a position: the header at 0, then the entries from 1. *)
Definition at_pos (hdr : loc) (L : list entry) (k : nat) : loc :=
  match k with O => hdr | S k => default hdr (eloc <$> L !! k) end.

(** The node at position [k] has a link at level [i]. *)
Definition tall (L : list entry) (i k : nat) : bool :=
  match k with
  | O => true
  | S k => match L !! k with Some e => (i <? ehgt e)%nat | None => false end
  end.

(** The links of level [i], as a function of the node. *)
Definition row_ok (hdr : loc) (L : list entry) (i : nat) (r : loc → option skiplistLevel) : Prop :=
  ∀ k, (k ≤ length L)%nat → tall L i k = true → r (at_pos hdr L k) = Some (cell i (drop k L)).

Definition row (h : heap) (i : nat) (x : loc) : option skiplistLevel := get_level h x i.

(** The parts of a node that are not links. *)
Definition info (h : heap) (x : loc) : option (option slobj * double * option loc) :=
  nd ← h !! x; Some (obj nd, score nd, backward nd).

(** The keys of the entries and the backward pointers, from the pointer [b] on,
    and the last node or [b]. *)
Fixpoint chain (h : heap) (b : option loc) (es : list entry) : Prop :=
  match es with
  | [] => True
  | e :: es =>
    info h (eloc e) = Some (Some (ekey e).2, (ekey e).1, b) ∧ chain h (Some (eloc e)) es
  end.
Fixpoint lastb (b : option loc) (es : list entry) : option loc :=
  match es with [] => b | e :: es => lastb (Some (eloc e)) es end.

Definition locs (hdr : loc) (L : list entry) : list loc := hdr :: (eloc <$> L).

Record rep (sl : skiplist) (L : list entry) : Prop := {
  rep_nodup : NoDup (locs (sl_header sl) L);
  rep_dom x : is_Some (sl_heap sl !! x) ↔ x ∈ locs (sl_header sl) L;
  rep_top : (1 ≤ sl_level sl ≤ SKIPLIST_MAXLEVEL)%nat;
  rep_hgt : Forall (λ e, (1 ≤ ehgt e ≤ sl_level sl)%nat) L;
  rep_row i : (i < sl_level sl)%nat → row_ok (sl_header sl) L i (row (sl_heap sl) i);
  rep_above i : (sl_level sl ≤ i < SKIPLIST_MAXLEVEL)%nat →
    ∃ s, get_level (sl_heap sl) (sl_header sl) i = Some (Level None s);
  rep_hdr : ∃ s b, info (sl_heap sl) (sl_header sl) = Some (None, s, b);
  rep_chain : chain (sl_heap sl) None L;
  rep_tail : sl_tail sl = lastb None L;
  rep_length : sl_length sl = Z.of_nat (length L);
  rep_small : Z.of_nat (length L) < 2 ^ 31;
}.

(** Position [k] is the last one up to [c] with a link at level [i]. *)
Definition last_tall (L : list entry) (i c k : nat) : Prop :=
  (k ≤ c)%nat ∧ tall L i k = true ∧ ∀ j, (k < j ≤ c)%nat → tall L i j = false.

(** *** Links *)

Lemma fwd_None i es : fwd i es = None ↔ ∀ k, (k < length es)%nat → tall es i (S k) = false.
Proof.
  induction es as [|e es IH]; cbn [fwd length].
  - split; [|done]. intros _ k. lia.
  - destruct (i <? ehgt e)%nat eqn:E.
    + split; [done|]. intros H. specialize (H 0%nat ltac:(lia)).
      change ((i <? ehgt e)%nat = false) in H. congruence.
    + rewrite IH. split.
      * intros H [|k] Hk; [done|]. apply (H k). lia.
      * intros H k Hk. apply (H (S k)). lia.
Qed.

Lemma spn_None i es : fwd i es = None → spn i es = length es.
Proof.
  induction es as [|e es IH]; cbn [fwd spn length]; [done|].
  destruct (i <? ehgt e)%nat; [done|]. intros H. by rewrite IH.
Qed.

Lemma fwd_Some i es y :
  fwd i es = Some y →
  ∃ k e, es !! k = Some e ∧ eloc e = y ∧ (i < ehgt e)%nat ∧ spn i es = S k ∧
    ∀ j, (j < k)%nat → tall es i (S j) = false.
Proof.
  induction es as [|e es IH]; cbn [fwd spn]; [done|].
  destruct (i <? ehgt e)%nat eqn:E.
  - intros [= <-]. exists 0%nat, e. apply Nat.ltb_lt in E. repeat split; [done|]. lia.
  - intros (k & e' & H1 & H2 & H3 & H4 & H5)%IH.
    exists (S k), e'. rewrite H4. repeat split; try done.
    intros [|j] Hj; [done|]. apply (H5 j). lia.
Qed.

Lemma tall_drop L i k j : (k + j ≤ length L)%nat → (0 < j)%nat →
  tall (drop k L) i j = tall L i (k + j).
Proof.
  intros Hk Hj. destruct j as [|j]; [lia|]. rewrite Nat.add_succ_r. cbn.
  by rewrite lookup_drop.
Qed.

Lemma fwd_app i es es' :
  fwd i (es ++ es') = match fwd i es with Some y => Some y | None => fwd i es' end.
Proof. induction es as [|e es IH]; cbn [fwd app]; [done|]. by destruct (i <? ehgt e)%nat. Qed.

Lemma spn_app i es es' :
  spn i (es ++ es')
  = match fwd i es with Some _ => spn i es | None => (length es + spn i es')%nat end.
Proof.
  induction es as [|e es IH]; cbn [fwd spn app length]; [done|].
  destruct (i <? ehgt e)%nat; [done|]. rewrite IH. by destruct (fwd i es).
Qed.

Lemma at_pos_lookup hdr L k e : L !! k = Some e → at_pos hdr L (S k) = eloc e.
Proof. cbn. by intros ->. Qed.

Lemma at_pos_locs hdr L k : (k ≤ length L)%nat → locs hdr L !! k = Some (at_pos hdr L k).
Proof.
  intros Hk. destruct k as [|k]; [done|]. unfold at_pos.
  change (locs hdr L !! S k) with ((eloc <$> L) !! k).
  destruct (lookup_lt_is_Some_2 L k) as [e He]; [lia|].
  by rewrite list_lookup_fmap, He.
Qed.

Lemma at_pos_inj hdr L j k :
  NoDup (locs hdr L) → (j ≤ length L)%nat → (k ≤ length L)%nat →
  at_pos hdr L j = at_pos hdr L k → j = k.
Proof.
  intros Hn Hj Hk H. eapply NoDup_lookup; [done|by apply at_pos_locs|].
  rewrite H. by apply at_pos_locs.
Qed.

Lemma last_tall_unique L i c k k' : last_tall L i c k → last_tall L i c k' → k = k'.
Proof.
  intros (H1 & H2 & H3) (H1' & H2' & H3'). destruct (Nat.lt_trichotomy k k') as [|[|]]; [|done|].
  - by rewrite H3 in H2' by lia.
  - by rewrite H3' in H2 by lia.
Qed.

Fixpoint lastp (L : list entry) (i c : nat) : nat :=
  match c with
  | O => 0
  | S c' => if tall L i c then c else lastp L i c'
  end.

Lemma lastp_spec L i c : last_tall L i c (lastp L i c).
Proof.
  induction c as [|c IH]; cbn [lastp].
  - repeat split; [lia|]. intros; lia.
  - destruct (tall L i (S c)) eqn:E.
    + repeat split; [lia|done|]. intros; lia.
    + destruct IH as (H1 & H2 & H3). repeat split; [lia|done|].
      intros j Hj. destruct (decide (j = S c)) as [->|]; [done|]. apply H3. lia.
Qed.

Lemma lastp_eq L i c k : last_tall L i c k → lastp L i c = k.
Proof. intros. eapply last_tall_unique; [apply lastp_spec|done]. Qed.

Lemma tall_le L i j k : (i ≤ j)%nat → tall L j k = true → tall L i k = true.
Proof.
  intros Hij. destruct k as [|k]; [done|]. cbn.
  destruct (L !! k); [|done]. intros H%Nat.ltb_lt. apply Nat.ltb_lt. lia.
Qed.

Lemma tall_range L i k : tall L i k = true → (k ≤ length L)%nat.
Proof.
  destruct k as [|k]; [lia|]. cbn. destruct (L !! k) eqn:E; [|done].
  apply lookup_lt_Some in E. lia.
Qed.

Lemma rep_cell sl L i k :
  rep sl L → (i < sl_level sl)%nat → tall L i k = true →
  get_level (sl_heap sl) (at_pos (sl_header sl) L k) i = Some (cell i (drop k L)).
Proof.
  intros Hrep Hi Ht. apply (rep_row _ _ Hrep i Hi); [|done]. by eapply tall_range.
Qed.

(** *** Searches *)

Definition go_cut (L : list entry) (h : heap) (go : Z → skiplistNode → option bool) (c : nat) : Prop :=
  (c ≤ length L)%nat ∧
  ∀ k e nd, L !! k = Some e → h !! eloc e = Some nd →
    go (Z.of_nat (S k)) nd = Some (S k <=? c)%nat.

Section search_spec.
Context (sl : skiplist) (L : list entry) (Hrep : rep sl L).
Context (w : Z) (Hw : 32 ≤ w) (go : Z → skiplistNode → option bool) (c : nat).
Context (Hgo : go_cut L (sl_heap sl) go c).

Local Notation pos := (at_pos (sl_header sl) L).
Local Notation h := (sl_heap sl).

Lemma rank_wrap k : (k ≤ length L)%nat → wrap w (Z.of_nat k) = Z.of_nat k.
Proof.
  intros Hk. apply wrap_small. pose proof (rep_small _ _ Hrep).
  assert (2 ^ 31 ≤ 2 ^ w) by (apply Z.pow_le_mono_r; lia). lia.
Qed.

Lemma walk_spec fuel i k :
  (i < sl_level sl)%nat → (k ≤ c)%nat → tall L i k = true → (length L - k < fuel)%nat →
  walk w h go fuel i (pos k) (Z.of_nat k)
  = Some (pos (lastp L i c), Z.of_nat (lastp L i c)).
Proof.
  intros Hi. destruct Hgo as [Hc Hcut].
  revert k. induction fuel as [|fuel IH]; intros k Hk Ht Hf; [lia|]. cbn [walk].
  rewrite (rep_cell _ _ i k Hrep) by done. cbn [mbind option_bind cell forward span].
  destruct (fwd i (drop k L)) as [y|] eqn:Ey.
  - apply fwd_Some in Ey as (m & e & He & <- & Hh & -> & Hm).
    rewrite lookup_drop in He. pose proof (lookup_lt_Some _ _ _ He) as Hlt.
    destruct (proj2 (rep_dom _ _ Hrep (eloc e))) as [nd Hnd].
    { right. apply list_elem_of_fmap. exists e. split; [done|]. by eapply list_elem_of_lookup_2. }
    rewrite Hnd. cbn [mbind option_bind].
    replace (Z.of_nat k + Z.of_nat (S m)) with (Z.of_nat (S (k + m))) by lia.
    rewrite rank_wrap by lia. rewrite (Hcut _ _ _ He Hnd). cbn [mbind option_bind].
    destruct (S (k + m) <=? c)%nat eqn:Ec.
    + apply Nat.leb_le in Ec. rewrite <- (at_pos_lookup (sl_header sl) L _ _ He).
      apply IH; [lia| |lia]. cbn. rewrite He. by apply Nat.ltb_lt.
    + apply Nat.leb_gt in Ec. rewrite (lastp_eq L i c k); [done|].
      repeat split; [lia|done|]. intros j Hj.
      replace j with (k + (j - k))%nat by lia. rewrite <- tall_drop by lia.
      replace (j - k)%nat with (S (j - k - 1)) by lia. apply Hm. lia.
  - rewrite (lastp_eq L i c k); [done|]. repeat split; [lia|done|]. intros j Hj.
    replace j with (k + (j - k))%nat by lia. rewrite <- tall_drop by lia.
    replace (j - k)%nat with (S (j - k - 1)) by lia.
    rewrite fwd_None in Ey. apply Ey. rewrite length_drop. lia.
Qed.

Lemma walk_down i k :
  (i < sl_level sl)%nat → (k ≤ c)%nat → tall L i k = true →
  walk w h go (walk_fuel sl) i (pos k) (Z.of_nat k)
  = Some (pos (lastp L i c), Z.of_nat (lastp L i c)).
Proof.
  intros. apply walk_spec; [done..|]. unfold walk_fuel. rewrite (rep_length _ _ Hrep). lia.
Qed.

Definition found_at (i : nat) : loc * Z := (pos (lastp L i c), Z.of_nat (lastp L i c)).

Lemma descend_from n k acc :
  (n ≤ sl_level sl)%nat → (k ≤ c)%nat → tall L (n - 1) k = true →
  descend (walk_fuel sl) w h go n (pos k) (Z.of_nat k) acc
  = Some (map found_at (seq 0 n) ++ acc).
Proof.
  revert k acc. induction n as [|n IH]; intros k acc Hn Hk Ht; [done|]. cbn [descend].
  replace (S n - 1)%nat with n in Ht by lia.
  rewrite walk_down by (done || lia). cbn [mbind option_bind].
  destruct (lastp_spec L n c) as (H1 & H2 & _).
  rewrite IH; [|lia|lia|eapply tall_le; [|done]; lia].
  rewrite seq_S, map_app, <- app_assoc. done.
Qed.

Lemma descend_spec n :
  (n ≤ sl_level sl)%nat →
  descend (walk_fuel sl) w h go n (sl_header sl) 0 [] = Some (map found_at (seq 0 n)).
Proof.
  intros Hn. rewrite <- (app_nil_r (map _ _)). apply (descend_from n 0 []); [done|lia|done].
Qed.

(** The first result from the top. *)
Fixpoint topmost {A} (f : nat → option A) (n : nat) : option A :=
  match n with
  | O => None
  | S i => match f i with Some a => Some a | None => topmost f i end
  end.

Lemma descend_until_spec {A} (stop : loc → Z → option (option A)) f n k :
  (n ≤ sl_level sl)%nat → (k ≤ c)%nat → tall L (n - 1) k = true →
  (∀ i, (i < n)%nat → stop (pos (lastp L i c)) (Z.of_nat (lastp L i c)) = Some (f i)) →
  descend_until (walk_fuel sl) w h go stop n (pos k) (Z.of_nat k) = Some (topmost f n).
Proof.
  revert k. induction n as [|n IH]; intros k Hn Hk Ht Hs; [done|]. cbn [descend_until topmost].
  replace (S n - 1)%nat with n in Ht by lia.
  rewrite walk_down by (done || lia). cbn [mbind option_bind].
  rewrite Hs by lia. cbn [mbind option_bind]. destruct (f n); [done|].
  destruct (lastp_spec L n c) as (H1 & H2 & _).
  apply IH; [lia|lia|eapply tall_le; [|done]; lia|]. intros. apply Hs. lia.
Qed.

Lemma lookup_found i n : (i < n)%nat → map found_at (seq 0 n) !! i = Some (found_at i).
Proof.
  intros. change (map found_at (seq 0 n)) with (found_at <$> seq 0 n).
  rewrite list_lookup_fmap, lookup_seq_lt by done. done.
Qed.

(** At the lowest level the search reaches the cut. *)
Lemma lastp_0 : lastp L 0 c = c.
Proof.
  apply lastp_eq. destruct Hgo as [Hc _]. repeat split; [lia| |intros; lia].
  destruct c as [|c']; [done|]. cbn [tall]. destruct (L !! c') as [e|] eqn:E.
  - pose proof (rep_hgt _ _ Hrep) as Hh. rewrite Forall_lookup in Hh.
    specialize (Hh _ _ E). apply Nat.ltb_lt. lia.
  - apply lookup_ge_None in E. lia.
Qed.
End search_spec.

(** *** Memory *)

Definition same_info (h h' : heap) : Prop := ∀ x, info h' x = info h x.

Lemma set_level_spec h x i v c0 :
  get_level h x i = Some c0 →
  ∃ h', set_level h x i v = Some h' ∧ same_info h h' ∧
    ∀ y j, get_level h' y j = if decide (y = x ∧ j = i) then Some v else get_level h y j.
Proof.
  unfold set_level, same_info, get_level, info. destruct (h !! x) as [nd|] eqn:E; [|done].
  cbn [mbind option_bind]. intros Hi. rewrite Hi. cbn [mbind option_bind].
  eexists. split; [done|]. split.
  - intros y. destruct (decide (y = x)) as [->|].
    + by rewrite lookup_insert_eq, E.
    + by rewrite lookup_insert_ne.
  - intros y j. destruct (decide (y = x)) as [->|].
    + rewrite lookup_insert_eq, E. cbn [mbind option_bind level].
      apply lookup_lt_Some in Hi. destruct (decide (j = i)) as [->|].
      * rewrite decide_True by done. by rewrite list_lookup_insert_eq.
      * rewrite decide_False by naive_solver. by rewrite list_lookup_insert_ne.
    + rewrite lookup_insert_ne, decide_False by naive_solver. done.
Qed.

Lemma info_lookup h x o s b :
  info h x = Some (o, s, b) → ∃ nd, h !! x = Some nd ∧ obj nd = o ∧ score nd = s ∧ backward nd = b.
Proof. unfold info. destruct (h !! x); naive_solver. Qed.

Lemma info_is_Some h x : is_Some (info h x) ↔ is_Some (h !! x).
Proof. unfold info. destruct (h !! x); cbn; split; intros [? ?]; naive_solver. Qed.

Lemma set_backward_spec h x b o s b0 :
  info h x = Some (o, s, b0) →
  ∃ h', set_backward h x b = Some h' ∧
    (∀ y i, get_level h' y i = get_level h y i) ∧
    ∀ y, info h' y = if decide (y = x) then Some (o, s, b) else info h y.
Proof.
  intros (nd & Hnd & <- & <- & <-)%info_lookup.
  unfold set_backward, get_level, info. rewrite Hnd. cbn [mbind option_bind].
  eexists. split; [done|]. split; intros y; destruct (decide (y = x)) as [->|]; intros;
    by rewrite ?lookup_insert_eq, ?lookup_insert_ne, ?Hnd.
Qed.

(** The iterations of a loop over the levels touch different rows. *)
Lemma for_levels_spec f (Q : nat → (loc → option skiplistLevel) → Prop) n a h0 :
  (∀ i r r', (∀ y, r y = r' y) → Q i r → Q i r') →
  (∀ i h, (a ≤ i < a + n)%nat → same_info h0 h → (∀ y, row h i y = row h0 i y) →
    ∃ h', f i h = Some h' ∧ same_info h h' ∧
      (∀ y j, j ≠ i → row h' j y = row h j y) ∧ Q i (row h' i)) →
  ∃ h', for_levels n a f h0 = Some h' ∧ same_info h0 h' ∧
    (∀ i y, ¬ (a ≤ i < a + n)%nat → row h' i y = row h0 i y) ∧
    ∀ i, (a ≤ i < a + n)%nat → Q i (row h' i).
Proof.
  intros HQ. revert a h0. induction n as [|n IH]; intros a h0 Hf; cbn [for_levels].
  - exists h0. split; [done|]. split; [by intros x|]. split; [done|]. intros; lia.
  - destruct (Hf a h0) as (h1 & -> & Hi1 & Hr1 & HQ1); [lia|by intros x|done|].
    cbn [mbind option_bind].
    destruct (IH (S a) h1) as (h2 & -> & Hi2 & Hr2 & HQ2).
    { intros i h Hi Hinfo Hrow. apply Hf; [lia| |].
      - intros x. by rewrite (Hinfo x).
      - intros y. rewrite Hrow. apply Hr1. lia. }
    exists h2. split; [done|]. split; [intros x; by rewrite (Hi2 x)|]. split.
    + intros i y Hi. rewrite Hr2, Hr1 by lia. done.
    + intros i Hi. destruct (decide (i = a)) as [->|]; [|apply HQ2; lia].
      eapply HQ; [|exact HQ1]. intros y. symmetry. apply Hr2. lia.
Qed.

Lemma row_ok_ext hdr L i r r' : (∀ y, r y = r' y) → row_ok hdr L i r → row_ok hdr L i r'.
Proof. intros Hr H k Hk Ht. rewrite <- Hr. by apply H. Qed.

(** *** Inserting and removing an entry, on one row *)

Lemma at_pos_app hdr pre es k : (k ≤ length pre)%nat → at_pos hdr (pre ++ es) k = at_pos hdr pre k.
Proof. intros Hk. destruct k as [|k]; [done|]. cbn. by rewrite lookup_app_l by lia. Qed.

Lemma tall_app pre es i k : (k ≤ length pre)%nat → tall (pre ++ es) i k = tall pre i k.
Proof. intros Hk. destruct k as [|k]; [done|]. cbn. by rewrite lookup_app_l by lia. Qed.

Lemma lastp_app pre es i c : (c ≤ length pre)%nat → lastp (pre ++ es) i c = lastp pre i c.
Proof.
  induction c as [|c IH]; intros Hc; [done|]. cbn [lastp].
  rewrite tall_app, IH by lia. done.
Qed.

Lemma row_ok_app hdr pre es i r :
  row_ok hdr (pre ++ es) i r ↔
  (∀ k, (k ≤ length pre)%nat → tall pre i k = true →
    r (at_pos hdr pre k) = Some (cell i (drop k pre ++ es))) ∧
  (∀ m e, es !! m = Some e → (i < ehgt e)%nat → r (eloc e) = Some (cell i (drop (S m) es))).
Proof.
  split.
  - intros H. split.
    + intros k Hk Ht. rewrite <- (at_pos_app hdr pre es), <- drop_app_le by done.
      apply H; [rewrite length_app; lia|]. by rewrite tall_app.
    + intros m e He Hh. specialize (H (length pre + S m)%nat).
      rewrite Nat.add_succ_r in H. cbn [at_pos tall] in H.
      rewrite lookup_app_r in H by lia.
      replace (length pre + m - length pre)%nat with m in H by lia.
      rewrite He in H. cbn [fmap option_fmap option_map default] in H.
      rewrite drop_app_ge in H by lia.
      replace (S (length pre + m) - length pre)%nat with (S m) in H by lia.
      apply H; [rewrite length_app; apply lookup_lt_Some in He; lia|by apply Nat.ltb_lt].
  - intros [H1 H2] k Hk Ht. rewrite length_app in Hk.
    destruct (decide (k ≤ length pre)%nat) as [Hle|Hgt].
    + rewrite at_pos_app, drop_app_le by done. apply H1; [done|]. by rewrite tall_app in Ht.
    + destruct k as [|k]; [lia|]. cbn [at_pos tall] in *. rewrite lookup_app_r in * by lia.
      destruct (es !! (k - length pre)%nat) as [e|] eqn:E; [|done].
      apply Nat.ltb_lt in Ht. rewrite drop_app_ge by lia.
      replace (S k - length pre)%nat with (S (k - length pre)) by lia. by apply H2.
Qed.

Lemma row_ok_cons hdr pre e es i r :
  row_ok hdr (pre ++ e :: es) i r ↔
  (∀ k, (k ≤ length pre)%nat → tall pre i k = true →
    r (at_pos hdr pre k) = Some (cell i (drop k pre ++ e :: es))) ∧
  ((i < ehgt e)%nat → r (eloc e) = Some (cell i es)) ∧
  (∀ m e', es !! m = Some e' → (i < ehgt e')%nat → r (eloc e') = Some (cell i (drop (S m) es))).
Proof.
  rewrite row_ok_app. split.
  - intros [H1 H2]. split; [done|]. split; [apply (H2 0%nat); done|].
    intros m e' He. by apply (H2 (S m)).
  - intros (H1 & H2 & H3). split; [done|]. intros [|m] e'; [by intros [= <-]|]. apply H3.
Qed.

Section insert_row.
Context (hdr : loc) (pre es : list entry) (e : entry) (i : nat).
Context (Hnd : NoDup (locs hdr (pre ++ e :: es))).
Local Notation c := (length pre).
Local Notation ku := (lastp pre i (length pre)).
Local Notation u := (at_pos hdr pre ku).

(** Before the last link over the place, the links do not see the entry. *)
Lemma cell_before a b k : (k < ku)%nat → cell i (drop k pre ++ a) = cell i (drop k pre ++ b).
Proof.
  intros Hk. destruct (lastp_spec pre i c) as (H1 & H2 & _).
  unfold cell. rewrite !fwd_app, !spn_app. destruct (fwd i (drop k pre)) eqn:E; [done|].
  rewrite fwd_None in E. specialize (E (ku - S k)%nat).
  rewrite length_drop in E. replace (S (ku - S k)) with (ku - k)%nat in E by lia.
  rewrite tall_drop in E by lia. replace (k + (ku - k))%nat with ku in E by lia.
  rewrite E in H2 by lia. done.
Qed.

Lemma cell_last a :
  cell i (drop ku pre ++ a) = Level (fwd i a) (Z.of_nat (c - ku) + Z.of_nat (spn i a)).
Proof.
  destruct (lastp_spec pre i c) as (H1 & H2 & H3).
  assert (fwd i (drop ku pre) = None) as E.
  { apply fwd_None. intros k Hk. rewrite length_drop in Hk.
    rewrite tall_drop by lia. apply H3. lia. }
  unfold cell. rewrite fwd_app, spn_app, E, length_drop. f_equal. lia.
Qed.

Lemma at_pre k : (k ≤ c)%nat → at_pos hdr pre k = at_pos hdr (pre ++ e :: es) k.
Proof. intros. by rewrite at_pos_app. Qed.
Lemma at_e : eloc e = at_pos hdr (pre ++ e :: es) (S c).
Proof. cbn. by rewrite lookup_app_r, Nat.sub_diag by lia. Qed.
Lemma at_es m e' : es !! m = Some e' → eloc e' = at_pos hdr (pre ++ e :: es) (S c + S m).
Proof.
  intros He. rewrite Nat.add_succ_r. cbn [at_pos]. rewrite lookup_app_r by lia.
  replace (S c + m - c)%nat with (S m) by lia. change ((e :: es) !! S m) with (es !! m).
  by rewrite He.
Qed.

Lemma places_differ j k :
  (j ≤ length (pre ++ e :: es))%nat → (k ≤ length (pre ++ e :: es))%nat → j ≠ k →
  at_pos hdr (pre ++ e :: es) j ≠ at_pos hdr (pre ++ e :: es) k.
Proof. intros Hj Hk Hjk H. by apply at_pos_inj in H. Qed.

Lemma u_le : (ku ≤ c)%nat.
Proof. apply lastp_spec. Qed.

Lemma new_not_u : eloc e ≠ u.
Proof.
  pose proof u_le. rewrite at_e, at_pre by done.
  apply places_differ; rewrite ?length_app; cbn [length]; lia.
Qed.

(** The links that do not reach the place are kept. *)
Lemma row_keep a b r r' :
  (∀ k, (k ≤ c)%nat → tall pre i k = true →
    r (at_pos hdr pre k) = Some (cell i (drop k pre ++ a))) →
  r' u = Some (cell i (drop ku pre ++ b)) →
  (∀ y, y ≠ u → y ≠ eloc e → r' y = r y) →
  ∀ k, (k ≤ c)%nat → tall pre i k = true →
    r' (at_pos hdr pre k) = Some (cell i (drop k pre ++ b)).
Proof.
  intros H1 Hu Hr k Hk Ht. pose proof u_le as Hle.
  destruct (decide (k = ku)) as [->|Hne]; [done|].
  assert (k < ku)%nat as Hlt.
  { destruct (lastp_spec pre i c) as (_ & _ & H3).
    destruct (decide (k < ku)%nat); [done|]. rewrite H3 in Ht by lia. done. }
  rewrite Hr, H1 by first [done | rewrite ?at_e, !at_pre by lia;
    apply places_differ; rewrite ?length_app; cbn [length]; lia].
  f_equal. by apply cell_before.
Qed.

Lemma row_after (r r' : loc → option skiplistLevel) :
  (∀ y, y ≠ u → y ≠ eloc e → r' y = r y) →
  ∀ m e', es !! m = Some e' → r' (eloc e') = r (eloc e').
Proof.
  intros Hr m e' He'. pose proof (lookup_lt_Some _ _ _ He') as Hlt. pose proof u_le as Hle.
  apply Hr; rewrite (at_es m e'), ?at_e, ?at_pre by done;
    apply places_differ; rewrite ?length_app; cbn [length]; lia.
Qed.

Lemma row_insert r r' :
  row_ok hdr (pre ++ es) i r →
  r' u = Some (cell i (drop ku pre ++ e :: es)) →
  ((i < ehgt e)%nat → r' (eloc e) = Some (cell i es)) →
  (∀ y, y ≠ u → y ≠ eloc e → r' y = r y) →
  row_ok hdr (pre ++ e :: es) i r'.
Proof.
  intros [H1 H2]%row_ok_app Hu He Hr. apply row_ok_cons.
  split; [by eapply row_keep|]. split; [done|].
  intros m e' He' Hh. rewrite (row_after r r' Hr m e' He'). by apply H2.
Qed.

Lemma row_remove r r' :
  row_ok hdr (pre ++ e :: es) i r →
  r' u = Some (cell i (drop ku pre ++ es)) →
  (∀ y, y ≠ u → y ≠ eloc e → r' y = r y) →
  row_ok hdr (pre ++ es) i r'.
Proof.
  intros (H1 & _ & H2)%row_ok_cons Hu Hr. apply row_ok_app.
  split; [by eapply row_keep|].
  intros m e' He' Hh. rewrite (row_after r r' Hr m e' He'). by apply H2.
Qed.
End insert_row.

(** *** The loops of insertion and deletion *)

(** A result of a loop body: the row [i] becomes the one of [L], nothing else
    changes. *)
Definition row_step (hdr : loc) (L : list entry) (i : nat) (h h' : heap) : Prop :=
  same_info h h' ∧ (∀ y j, j ≠ i → row h' j y = row h j y) ∧ row_ok hdr L i (row h' i).

Lemma same_info_trans h1 h2 h3 : same_info h1 h2 → same_info h2 h3 → same_info h1 h3.
Proof. intros H1 H2 x. by rewrite H2. Qed.

Section level_steps.
Context (hdr : loc) (pre es : list entry) (e : entry) (i : nat).
Context (Hnd : NoDup (locs hdr (pre ++ e :: es))).
Context (Hsmall : Z.of_nat (length (pre ++ e :: es)) < 2 ^ 31).
Context (update : list (loc * Z)).
Local Notation c := (length pre).
Local Notation ku := (lastp pre i (length pre)).
Local Notation u := (at_pos hdr pre ku).
Context (Hi : update !! i = Some (u, Z.of_nat ku)).

Lemma small_place : Z.of_nat c + Z.of_nat (length es) + 1 < 2 ^ 31.
Proof. rewrite length_app in Hsmall. cbn [length] in Hsmall. lia. Qed.

Lemma spn_le es' : (spn i es' ≤ length es')%nat.
Proof. induction es' as [|e' es' IH]; cbn [spn length]; [lia|]. destruct (i <? ehgt e')%nat; lia. Qed.

Lemma last_row a r :
  row_ok hdr (pre ++ a) i r →
  r u = Some (Level (fwd i a) (Z.of_nat (c - ku) + Z.of_nat (spn i a))).
Proof.
  intros [H _]%row_ok_app. destruct (lastp_spec pre i c) as (H1 & H2 & _).
  rewrite H by done. f_equal. by apply cell_last.
Qed.

Lemma link_step h c0 u0 :
  update !! 0%nat = Some (u0, Z.of_nat c) → (i < ehgt e)%nat →
  get_level h (eloc e) i = Some c0 → row_ok hdr (pre ++ es) i (row h i) →
  ∃ h', link_level update (eloc e) i h = Some h' ∧ row_step hdr (pre ++ e :: es) i h h'.
Proof.
  intros H0 Hh Hc Hrow. pose proof small_place as Hs.
  pose proof (new_not_u hdr pre es e i Hnd) as Hne.
  pose proof (spn_le es). pose proof (u_le pre i).
  pose proof (last_row _ _ Hrow) as Hu. unfold row in Hu.
  unfold link_level. rewrite Hi. cbn [mbind option_bind]. rewrite H0. cbn [mbind option_bind].
  rewrite Hu. cbn [mbind option_bind forward span].
  rewrite (wrap_small 32 (Z.of_nat c - Z.of_nat ku)) by lia.
  destruct (set_level_spec _ _ _ (Level (fwd i es)
    (wrap 32 (Z.of_nat (c - ku) + Z.of_nat (spn i es) - (Z.of_nat c - Z.of_nat ku)))) _ Hc)
    as (h1 & -> & Hi1 & Hg1). cbn [mbind option_bind].
  edestruct (set_level_spec h1 u i) as (h2 & -> & Hi2 & Hg2).
  { rewrite Hg1, decide_False by naive_solver. exact Hu. }
  exists h2. split; [done|]. split; [by eapply same_info_trans|]. unfold row. split.
  - intros y j Hj. rewrite Hg2, Hg1, !decide_False by naive_solver. done.
  - apply (row_insert hdr pre es e i Hnd (row h i)); [done| | |].
    + rewrite Hg2, decide_True, cell_last by done. cbn [fwd spn].
      rewrite (proj2 (Nat.ltb_lt _ _) Hh), wrap_small by lia. do 2 f_equal. lia.
    + intros _. rewrite Hg2, decide_False, Hg1, decide_True by naive_solver.
      rewrite wrap_small by lia. unfold cell. do 2 f_equal. lia.
    + intros y Hy1 Hy2. unfold row. rewrite Hg2, decide_False, Hg1, decide_False by naive_solver. done.
Qed.

Lemma bump_step h :
  (ehgt e ≤ i)%nat → row_ok hdr (pre ++ es) i (row h i) →
  ∃ h', bump_level update i h = Some h' ∧ row_step hdr (pre ++ e :: es) i h h'.
Proof.
  intros Hh Hrow. pose proof small_place as Hs.
  pose proof (spn_le es). pose proof (u_le pre i).
  pose proof (last_row _ _ Hrow) as Hu. unfold row in Hu.
  unfold bump_level. rewrite Hi. cbn [mbind option_bind]. rewrite Hu. cbn [mbind option_bind forward span].
  edestruct (set_level_spec h u i) as (h1 & -> & Hi1 & Hg1); [exact Hu|].
  exists h1. split; [done|]. split; [done|]. unfold row. split.
  - intros y j Hj. rewrite Hg1, decide_False by naive_solver. done.
  - apply (row_insert hdr pre es e i Hnd (row h i)); [done| | |].
    + rewrite Hg1, decide_True, cell_last by done. cbn [fwd spn].
      rewrite (proj2 (Nat.ltb_ge _ _) Hh), wrap_small by lia. do 2 f_equal. lia.
    + intros. lia.
    + intros y Hy1 Hy2. unfold row. rewrite Hg1, decide_False by naive_solver. done.
Qed.

Lemma fwd_elem y es' : fwd i es' = Some y → y ∈ eloc <$> es'.
Proof.
  intros (k & e' & He & <- & _)%fwd_Some. apply list_elem_of_fmap.
  exists e'. split; [done|]. by eapply list_elem_of_lookup_2.
Qed.

Lemma new_not_after : eloc e ∉ eloc <$> es.
Proof.
  unfold locs in Hnd. apply NoDup_cons in Hnd as [_ Hn].
  rewrite fmap_app in Hn. apply NoDup_app in Hn as (_ & _ & Hn). cbn in Hn.
  by apply NoDup_cons in Hn as [? _].
Qed.

Lemma remove_row_set h v :
  row_ok hdr (pre ++ e :: es) i (row h i) →
  v = Level (fwd i es) (Z.of_nat (c - ku) + Z.of_nat (spn i es)) →
  ∃ h', set_level h u i v = Some h' ∧ row_step hdr (pre ++ es) i h h' ∧
    get_level h' (eloc e) i = get_level h (eloc e) i.
Proof.
  intros Hrow ->. pose proof (new_not_u hdr pre es e i Hnd) as Hne.
  pose proof (last_row _ _ Hrow) as Hu. unfold row in Hu.
  edestruct (set_level_spec h u i) as (h1 & -> & Hi1 & Hg1); [exact Hu|].
  exists h1. split; [done|]. split; [split; [done|]; split|].
  - intros y j Hj. unfold row. rewrite Hg1, decide_False by naive_solver. done.
  - apply (row_remove hdr pre es e i Hnd (row h i)); [done| |].
    + unfold row. by rewrite Hg1, decide_True, cell_last by done.
    + intros y Hy1 Hy2. unfold row. rewrite Hg1, decide_False by naive_solver. done.
  - rewrite Hg1, decide_False by naive_solver. done.
Qed.

Lemma unlink_step h :
  row_ok hdr (pre ++ e :: es) i (row h i) →
  ∃ h', unlink_level update (eloc e) i h = Some h' ∧ row_step hdr (pre ++ es) i h h' ∧
    get_level h' (eloc e) i = get_level h (eloc e) i.
Proof.
  intros Hrow. pose proof small_place as Hs.
  pose proof (new_not_u hdr pre es e i Hnd) as Hne.
  pose proof (spn_le es). pose proof (u_le pre i).
  pose proof (last_row _ _ Hrow) as Hu. unfold row in Hu. cbn [fwd spn] in Hu.
  unfold unlink_level. rewrite Hi. cbn [mbind option_bind]. rewrite Hu. cbn [mbind option_bind forward span].
  destruct (i <? ehgt e)%nat eqn:Ee.
  - rewrite decide_True by done. apply Nat.ltb_lt in Ee.
    apply row_ok_cons in Hrow as Hrow'. destruct Hrow' as (_ & He & _).
    specialize (He Ee). unfold row in He. rewrite He. cbn [mbind option_bind forward span cell].
    rewrite <- He. apply remove_row_set; [done|]. rewrite wrap_small by lia. f_equal. lia.
  - rewrite decide_False by (intros Hf; apply fwd_elem in Hf; by apply new_not_after).
    apply remove_row_set; [done|]. rewrite wrap_small by lia. f_equal. lia.
Qed.
End level_steps.

(** *** Backward pointers *)

Lemma chain_app h b es es' :
  chain h b (es ++ es') ↔ chain h b es ∧ chain h (lastb b es) es'.
Proof.
  revert b. induction es as [|e es IH]; intros b; cbn [app chain lastb]; [naive_solver|].
  rewrite IH. naive_solver.
Qed.

Lemma lastb_app b es es' : lastb b (es ++ es') = lastb (lastb b es) es'.
Proof. revert b. induction es as [|e es IH]; intros b; cbn; [done|]. apply IH. Qed.

Lemma chain_frame h h' b es :
  (∀ x, x ∈ eloc <$> es → info h' x = info h x) → chain h b es → chain h' b es.
Proof.
  revert b. induction es as [|e es IH]; intros b Hi; [done|]. cbn [chain].
  intros [H1 H2]. split; [rewrite Hi; [done|left]|]. apply IH; [|done].
  intros x Hx. apply Hi. by right.
Qed.

Lemma chain_lookup h b es k e :
  chain h b es → es !! k = Some e →
  info h (eloc e) = Some (Some (ekey e).2, (ekey e).1, lastb b (take k es)).
Proof.
  revert b k. induction es as [|e' es IH]; intros b k; [done|].
  intros [H1 H2]. destruct k as [|k]; [by intros [= <-]|]. intros He. cbn [take lastb].
  by apply IH.
Qed.

Lemma lastb_pos hdr L k :
  (k ≤ length L)%nat → NoDup (locs hdr L) →
  (if decide (at_pos hdr L k = hdr) then None else Some (at_pos hdr L k)) = lastb None (take k L).
Proof.
  intros Hk Hn. destruct k as [|k]; [by rewrite decide_True|].
  rewrite decide_False.
  - destruct (lookup_lt_is_Some_2 L k) as [e He]; [lia|].
    rewrite (take_S_r _ _ _ He), lastb_app. cbn. by rewrite He.
  - intros H. assert (S k = 0%nat); [|done].
    eapply at_pos_inj; [done|done|lia|]. by rewrite H.
Qed.

(** ** Insertion *)

Lemma random_loop_le rs n lv : random_loop rs n = Some lv → (n ≤ lv)%nat.
Proof.
  revert n. induction rs as [|r rs IH]; intros n; cbn [random_loop]; [done|].
  destruct (_ <? _); [intros H%IH; lia|]. intros [= <-]. lia.
Qed.

Lemma slRandomLevel_range rs lv :
  slRandomLevel rs = Some lv → (1 ≤ lv ≤ SKIPLIST_MAXLEVEL)%nat.
Proof.
  unfold slRandomLevel. destruct (random_loop rs 1) as [n|] eqn:E; [|done].
  apply random_loop_le in E. cbn [mbind option_bind].
  unfold SKIPLIST_MAXLEVEL. intros [= <-]. destruct (n <? 32)%nat eqn:En; lia.
Qed.

Lemma tall_high L n i k :
  Forall (λ e, (ehgt e ≤ n)%nat) L → (n ≤ i)%nat → tall L i (S k) = false.
Proof.
  intros HL Hi. cbn [tall]. destruct (L !! k) as [e|] eqn:E; [|done].
  rewrite Forall_lookup in HL. specialize (HL _ _ E). cbn in HL. apply Nat.ltb_ge. lia.
Qed.

Lemma lastp_high L n i c : Forall (λ e, (ehgt e ≤ n)%nat) L → (n ≤ i)%nat → lastp L i c = 0%nat.
Proof.
  intros HL Hi. induction c as [|c IH]; [done|]. cbn [lastp].
  by rewrite (tall_high L n).
Qed.

Lemma row_ok_high hdr L n i r :
  Forall (λ e, (ehgt e ≤ n)%nat) L → (n ≤ i)%nat →
  r hdr = Some (Level None (Z.of_nat (length L))) → row_ok hdr L i r.
Proof.
  intros HL Hi Hr [|k] Hk Ht; [|by rewrite (tall_high L n) in Ht].
  assert (fwd i L = None) as E.
  { apply fwd_None. intros. by apply (tall_high L n). }
  unfold cell. cbn [at_pos]. rewrite drop_0, E, (spn_None _ _ E). done.
Qed.

Lemma rep_heights sl L : rep sl L → Forall (λ e, (ehgt e ≤ sl_level sl)%nat) L.
Proof. intros Hrep. eapply Forall_impl; [apply (rep_hgt _ _ Hrep)|]. cbn. lia. Qed.

Lemma grow_levels_spec sl L n :
  rep sl L → (sl_level sl + n ≤ SKIPLIST_MAXLEVEL)%nat →
  ∃ h', for_levels n (sl_level sl) (grow_level (sl_header sl) (sl_length sl)) (sl_heap sl)
    = Some h' ∧ same_info (sl_heap sl) h' ∧
    (∀ i, (i < sl_level sl + n)%nat → row_ok (sl_header sl) L i (row h' i)) ∧
    (∀ i, (sl_level sl + n ≤ i < SKIPLIST_MAXLEVEL)%nat →
      ∃ s, get_level h' (sl_header sl) i = Some (Level None s)).
Proof.
  intros Hrep Hn. pose proof (rep_heights _ _ Hrep) as Hh.
  pose proof (rep_small _ _ Hrep) as Hs.
  destruct (for_levels_spec (grow_level (sl_header sl) (sl_length sl))
    (row_ok (sl_header sl) L) n (sl_level sl) (sl_heap sl)) as (h' & -> & H1 & H2 & H3).
  - intros i r r'. apply row_ok_ext.
  - intros i h Hi Hinfo Hrow.
    destruct (rep_above _ _ Hrep i) as [s Hab]; [lia|].
    unfold grow_level. rewrite (Hrow (sl_header sl) : get_level h _ i = _).
    unfold row. rewrite Hab. cbn [mbind option_bind forward].
    edestruct (set_level_spec h (sl_header sl) i) as (h1 & -> & Hi1 & Hg1).
    { rewrite (Hrow (sl_header sl) : get_level h _ i = _). exact Hab. }
    exists h1. split; [done|]. split; [done|]. unfold row. split.
    + intros y j Hj. rewrite Hg1, decide_False by naive_solver. done.
    + apply (row_ok_high _ _ (sl_level sl)); [done|lia|].
      rewrite Hg1, decide_True, (rep_length _ _ Hrep), wrap_small by (done || lia). done.
  - exists h'. split; [done|]. split; [done|]. split.
    + intros i Hi. destruct (decide (i < sl_level sl)%nat).
      * eapply row_ok_ext; [|by apply (rep_row _ _ Hrep)]. intros y. symmetry. apply H2. lia.
      * apply H3. lia.
    + intros i Hi. destruct (rep_above _ _ Hrep i) as [s Hab]; [lia|].
      exists s. change (row h' i (sl_header sl) = Some (Level None s)).
      rewrite H2 by lia. exact Hab.
Qed.

(** The arrays [update] and [rank] after the search, with the new levels. *)
Definition places (hdr : loc) (pre : list entry) (n : nat) : list (loc * Z) :=
  (λ i, (at_pos hdr pre (lastp pre i (length pre)), Z.of_nat (lastp pre i (length pre))))
    <$> seq 0 n.

Lemma places_lookup hdr pre n i :
  (i < n)%nat → places hdr pre n !! i = Some
    (at_pos hdr pre (lastp pre i (length pre)), Z.of_nat (lastp pre i (length pre))).
Proof. intros. unfold places. by rewrite list_lookup_fmap, lookup_seq_lt. Qed.

Lemma found_places sl pre post n :
  map (found_at sl (pre ++ post) (length pre)) (seq 0 n) = places (sl_header sl) pre n.
Proof.
  apply list_fmap_ext. intros _ i _. unfold found_at.
  rewrite lastp_app by done. rewrite at_pos_app; [done|]. apply lastp_spec.
Qed.

Lemma places_grow hdr pre n m :
  Forall (λ e, (ehgt e ≤ n)%nat) pre →
  places hdr pre n ++ replicate m (hdr, 0) = places hdr pre (n + m).
Proof.
  intros Hh. unfold places. rewrite seq_app, fmap_app. f_equal. cbn [Nat.add].
  assert (∀ a, (n ≤ a)%nat → replicate m (hdr, 0) =
    (λ i, (at_pos hdr pre (lastp pre i (length pre)), Z.of_nat (lastp pre i (length pre))))
      <$> seq a m) as H; [|by apply H].
  induction m as [|m IH]; intros a Ha; [done|]. cbn [replicate seq fmap list_fmap].
  rewrite (lastp_high pre n) by done. cbn [at_pos]. f_equal. apply (IH (S a)). lia.
Qed.

Lemma fresh_not_loc sl L h1 :
  rep sl L → same_info (sl_heap sl) h1 → fresh (dom h1) ∉ locs (sl_header sl) L.
Proof.
  intros Hrep Hi Hin. apply (rep_dom _ _ Hrep) in Hin.
  rewrite <- info_is_Some, <- (Hi (fresh (dom h1))), info_is_Some in Hin.
  apply elem_of_dom in Hin. by apply is_fresh in Hin.
Qed.

Lemma locs_insert hdr pre e post :
  locs hdr (pre ++ e :: post) ≡ₚ eloc e :: locs hdr (pre ++ post).
Proof.
  unfold locs. rewrite !fmap_app. cbn [fmap list_fmap].
  rewrite <- Permutation_middle. apply perm_swap.
Qed.

Lemma row_ok_frame hdr L i r r' :
  (∀ y, y ∈ locs hdr L → r' y = r y) → row_ok hdr L i r → row_ok hdr L i r'.
Proof.
  intros Hr H k Hk Ht. rewrite Hr; [by apply H|].
  eapply list_elem_of_lookup_2. by apply at_pos_locs.
Qed.

Lemma create_spec h lv s o p h' :
  slCreateNode h lv s o = (p, h') →
  p = fresh (dom h) ∧
  (∀ y i, y ≠ p → get_level h' y i = get_level h y i) ∧
  (∀ i, (i < lv)%nat → get_level h' p i = Some (Level None 0)) ∧
  (∀ y, info h' y = if decide (y = p) then Some (o, s, None) else info h y).
Proof.
  unfold slCreateNode. intros [= <- <-]. split; [done|].
  unfold get_level, info. split; [|split].
  - intros y i Hy. by rewrite lookup_insert_ne.
  - intros i Hi. rewrite lookup_insert_eq. cbn [mbind option_bind level].
    by apply lookup_replicate_2.
  - intros y. destruct (decide (y = _)) as [->|].
    + by rewrite lookup_insert_eq.
    + by rewrite lookup_insert_ne.
Qed.

(** After the loops of [slInsert]: the links of all the levels are those of the
    list with the new entry. *)
Lemma link_all_spec hdr pre post e n h :
  NoDup (locs hdr (pre ++ e :: post)) →
  Z.of_nat (length (pre ++ e :: post)) < 2 ^ 31 →
  Forall (λ e', (1 ≤ ehgt e')%nat) pre → (1 ≤ ehgt e ≤ n)%nat →
  (∀ i, (i < n)%nat → row_ok hdr (pre ++ post) i (row h i)) →
  (∀ i, (i < ehgt e)%nat → is_Some (get_level h (eloc e) i)) →
  ∃ h' h'', for_levels (ehgt e) 0 (link_level (places hdr pre n) (eloc e)) h = Some h' ∧
    for_levels (n - ehgt e) (ehgt e) (bump_level (places hdr pre n)) h' = Some h'' ∧
    same_info h h'' ∧
    (∀ i, (i < n)%nat → row_ok hdr (pre ++ e :: post) i (row h'' i)) ∧
    (∀ i y, (n ≤ i)%nat → get_level h'' y i = get_level h y i).
Proof.
  intros Hnd Hsmall Hpre He Hrow Hnew.
  assert (lastp pre 0 (length pre) = length pre) as H0.
  { apply lastp_eq. repeat split; [lia| |intros; lia].
    destruct (length pre) as [|k] eqn:E; [done|]. cbn [tall].
    destruct (lookup_lt_is_Some_2 pre k) as [e' He']; [lia|]. rewrite He'.
    rewrite Forall_lookup in Hpre. specialize (Hpre _ _ He'). by apply Nat.ltb_lt. }
  destruct (for_levels_spec (link_level (places hdr pre n) (eloc e))
    (row_ok hdr (pre ++ e :: post)) (ehgt e) 0 h) as (h1 & -> & Hi1 & Hr1 & HQ1).
  - intros i r r'. apply row_ok_ext.
  - intros i h1 Hi Hinfo Hr. destruct (Hnew i) as [c0 Hc0]; [lia|].
    eapply link_step; [done|done|apply places_lookup; lia| |lia| |].
    + rewrite places_lookup by lia. by rewrite H0.
    + rewrite <- Hc0. apply Hr.
    + eapply row_ok_ext; [|apply (Hrow i); lia]. done.
  - destruct (for_levels_spec (bump_level (places hdr pre n))
      (row_ok hdr (pre ++ e :: post)) (n - ehgt e) (ehgt e) h1) as (h2 & E2 & Hi2 & Hr2 & HQ2).
    + intros i r r'. apply row_ok_ext.
    + intros i h2 Hi Hinfo Hr.
      eapply bump_step; [done|done|apply places_lookup; lia|lia|].
      eapply row_ok_ext; [|apply (Hrow i); lia].
      intros y. rewrite Hr. symmetry. apply Hr1. lia.
    + exists h1, h2. split; [done|]. split; [done|].
      split; [by eapply same_info_trans|]. split.
      * intros i Hi. destruct (decide (i < ehgt e)%nat); [|apply HQ2; lia].
        eapply row_ok_ext; [|apply (HQ1 i); lia]. intros y. symmetry. apply Hr2. lia.
      * intros i y Hi. change (row h2 i y = row h i y). rewrite Hr2, Hr1 by lia. done.
Qed.

(** Only backward pointers of the nodes of [es] are changed; they are right for [L]. *)
Definition relinked (es L : list entry) (h h' : heap) : Prop :=
  chain h' None L ∧ (∀ y i, get_level h' y i = get_level h y i) ∧
  (∀ y, y ∉ eloc <$> es → info h' y = info h y) ∧
  (∀ y, is_Some (info h' y) ↔ is_Some (info h y)).

(** The backward pointers around the new node, and the tail. *)
Lemma backward_spec hdr pre post e h :
  NoDup (locs hdr (pre ++ e :: post)) → (1 ≤ ehgt e)%nat →
  chain h None (pre ++ post) →
  info h (eloc e) = Some (Some (ekey e).2, (ekey e).1, None) →
  Forall (λ e', (1 ≤ ehgt e')%nat) post →
  row_ok hdr (pre ++ e :: post) 0 (row h 0) →
  ∃ h1 lx, set_backward h (eloc e) (lastb None pre) = Some h1 ∧
    get_level h1 (eloc e) 0 = Some lx ∧
    match forward lx with
    | Some y => ∃ h2, set_backward h1 y (Some (eloc e)) = Some h2 ∧ post ≠ [] ∧
        relinked (e :: post) (pre ++ e :: post) h h2
    | None => post = [] ∧ relinked (e :: post) (pre ++ e :: post) h h1
    end.
Proof.
  intros Hnd Hhe Hch He Hpost Hrow.
  apply row_ok_cons in Hrow as (_ & Hrow & _). specialize (Hrow ltac:(lia)).
  destruct (set_backward_spec h (eloc e) (lastb None pre) _ _ _ He) as (h1 & -> & Hl1 & Hi1).
  exists h1. eexists. split; [done|]. split; [rewrite Hl1; exact Hrow|]. cbn [forward cell].
  assert (eloc e ∉ eloc <$> (pre ++ post)) as Hne.
  { unfold locs in Hnd. rewrite fmap_app, fmap_cons in Hnd.
    apply NoDup_cons in Hnd as [_ Hnd]. rewrite fmap_app.
    apply NoDup_app in Hnd as (_ & Hd & Hn). apply NoDup_cons in Hn as [Hn _].
    rewrite elem_of_app. intros [Hin|Hin]; [|done]. apply (Hd _ Hin). by left. }
  assert (chain h1 None (pre ++ post)) as Hch1.
  { eapply chain_frame; [|done]. intros x Hx. rewrite Hi1, decide_False; [done|].
    by intros ->. }
  apply chain_app in Hch1 as [Hc1 Hc2].
  destruct post as [|e' post]; cbn [fwd].
  - split; [done|]. split; [|split; [done|]].
    + apply chain_app. split; [done|]. cbn [chain]. split; [|done].
      by rewrite Hi1, decide_True.
    + split; intros y; rewrite Hi1; destruct (decide _) as [->|]; try done.
      intros Hn. destruct Hn. by left.
  - apply Forall_cons in Hpost as [Hh' _].
    rewrite (proj2 (Nat.ltb_lt 0 (ehgt e'))) by lia.
    destruct Hc2 as [Hc2 Hc3].
    assert (eloc e' ≠ eloc e) as Hne'.
    { intros Heq. apply Hne. rewrite fmap_app, fmap_cons, elem_of_app, Heq. right. left. }
    assert (NoDup (eloc <$> (pre ++ e' :: post))) as Hnd'.
    { pose proof (locs_insert hdr pre e (e' :: post)) as Hp. rewrite Hp in Hnd.
      apply NoDup_cons in Hnd as [_ Hnd]. by apply NoDup_cons in Hnd as [_ Hnd]. }
    destruct (set_backward_spec h1 (eloc e') (Some (eloc e)) _ _ _ Hc2) as (h2 & -> & Hl2 & Hi2).
    exists h2. split; [done|]. split; [done|]. split; [|split; [|split]].
    + rewrite fmap_app, fmap_cons in Hnd'. apply NoDup_app in Hnd' as (_ & Hd & Hn).
      apply NoDup_cons in Hn as [Hn _].
      apply chain_app. split; [|cbn [chain]; split; [|split]].
      * eapply chain_frame; [|exact Hc1]. intros x Hx. rewrite Hi2, decide_False; [done|].
        intros ->. apply (Hd _ Hx). by left.
      * rewrite Hi2, decide_False, Hi1, decide_True by done. done.
      * by rewrite Hi2, decide_True.
      * eapply chain_frame; [|exact Hc3]. intros x Hx. rewrite Hi2, decide_False; [done|].
        by intros ->.
    + intros. by rewrite Hl2, Hl1.
    + intros y Hy. rewrite !fmap_cons, !not_elem_of_cons in Hy.
      rewrite Hi2, decide_False, Hi1, decide_False by naive_solver. done.
    + intros y. rewrite Hi2. destruct (decide _) as [->|].
      * rewrite Hi1, decide_False in Hc2 by done.
        rewrite Hc2. split; eauto.
      * rewrite Hi1. destruct (decide _) as [->|]; [|done]. rewrite He. split; eauto.
Qed.

Lemma Forall_locs (P : entry → Prop) pre e post :
  Forall P (pre ++ e :: post) ↔ Forall P (pre ++ post) ∧ P e.
Proof. rewrite !Forall_app, Forall_cons. naive_solver. Qed.

Lemma info_dom h h' :
  (∀ y, is_Some (info h' y) ↔ is_Some (info h y)) → ∀ y, is_Some (h' !! y) ↔ is_Some (h !! y).
Proof. intros H y. rewrite <- !info_is_Some. apply H. Qed.

(** The state after the new node is linked. *)
Lemma rep_add sl pre post e h h' tl top :
  rep sl (pre ++ post) → eloc e ∉ locs (sl_header sl) (pre ++ post) →
  tl = lastb None (pre ++ e :: post) →
  (∀ y, info h y = if decide (y = eloc e) then Some (Some (ekey e).2, (ekey e).1, None)
                   else info (sl_heap sl) y) →
  (sl_level sl ≤ top ≤ SKIPLIST_MAXLEVEL)%nat → (1 ≤ ehgt e ≤ top)%nat →
  (∀ i, (i < top)%nat → row_ok (sl_header sl) (pre ++ e :: post) i (row h i)) →
  (∀ i, (top ≤ i < SKIPLIST_MAXLEVEL)%nat →
    ∃ s, get_level h (sl_header sl) i = Some (Level None s)) →
  Z.of_nat (length (pre ++ e :: post)) < 2 ^ 31 →
  relinked (e :: post) (pre ++ e :: post) h h' →
  rep (Skiplist h' (sl_header sl) tl (wrap 64 (sl_length sl + 1)) top) (pre ++ e :: post).
Proof.
  intros Hrep Hfr Htl Hi Htop He Hrow Hab Hs (Hch & Hl & Hi' & Hd).
  pose proof (rep_top _ _ Hrep).
  assert (NoDup (locs (sl_header sl) (pre ++ e :: post))) as Hnd.
  { rewrite locs_insert. apply NoDup_cons. split; [done|apply (rep_nodup _ _ Hrep)]. }
  split; cbn [sl_heap sl_header sl_tail sl_length sl_level]; try done.
  - intros x. rewrite <- info_is_Some, Hd, Hi, locs_insert, elem_of_cons.
    rewrite <- (rep_dom _ _ Hrep x), <- info_is_Some.
    destruct (decide (x = eloc e)); [|naive_solver]. split; eauto.
  - lia.
  - apply Forall_locs. split; [|done].
    eapply Forall_impl; [apply (rep_hgt _ _ Hrep)|]. cbn. lia.
  - intros i Hlt. eapply row_ok_ext; [|by apply Hrow]. intros x. symmetry. apply Hl.
  - intros i Hlt. rewrite Hl. by apply Hab.
  - destruct (rep_hdr _ _ Hrep) as (s0 & b0 & Hh0). exists s0, b0.
    rewrite Hi', Hi, decide_False; [done|intros Heq; apply Hfr; rewrite <- Heq; left|].
    unfold locs in Hnd. apply NoDup_cons in Hnd as [Hn _].
    rewrite fmap_app, not_elem_of_app in Hn. naive_solver.
  - rewrite (rep_length _ _ Hrep). rewrite !length_app in *. cbn [length] in *.
    rewrite wrap_small by lia. lia.
Qed.

(** The new list of nodes: the entry is put at the place where the search stopped. *)
Lemma slInsert_rep sl pre post s o rs lv :
  rep sl (pre ++ post) →
  go_cut (pre ++ post) (sl_heap sl) (go_lt s o) (length pre) →
  slRandomLevel rs = Some lv →
  Z.of_nat (S (length (pre ++ post))) < 2 ^ 31 →
  ∃ sl' p, slInsert sl s o rs = Some sl' ∧ rep sl' (pre ++ Entry p (s, o) lv :: post).
Proof.
  intros Hrep Hcut Hlv Hsmall. pose proof (slRandomLevel_range _ _ Hlv) as Hr.
  pose proof (rep_top _ _ Hrep) as Htop. pose proof (rep_heights _ _ Hrep) as Hh.
  set (hdr := sl_header sl). set (top := Nat.max lv (sl_level sl)).
  unfold slInsert. rewrite (descend_spec sl _ Hrep 32 ltac:(lia) _ _ Hcut) by done.
  cbn [mbind option_bind]. rewrite Hlv. cbn [mbind option_bind]. rewrite found_places.
  destruct (grow_levels_spec sl _ (lv - sl_level sl) Hrep) as (h1 & -> & Hi1 & Hr1 & Ha1); [lia|].
  cbn [mbind option_bind]. rewrite places_grow by (by apply Forall_app in Hh as [? _]).
  replace (sl_level sl + (lv - sl_level sl))%nat with top in * by lia.
  destruct (slCreateNode h1 lv s (Some o)) as [p h2] eqn:Ep.
  apply create_spec in Ep as (Hp & Hl2 & Hn2 & Hi2).
  set (e := Entry p (s, o) lv).
  assert (p ∉ locs hdr (pre ++ post)) as Hfr by (rewrite Hp; by apply fresh_not_loc).
  assert (NoDup (locs hdr (pre ++ e :: post))) as Hnd.
  { rewrite locs_insert. apply NoDup_cons. split; [done|apply (rep_nodup _ _ Hrep)]. }
  assert (Z.of_nat (length (pre ++ e :: post)) < 2 ^ 31) as Hs'.
  { rewrite length_app in Hsmall |- *. cbn [length]. lia. }
  pose proof (rep_hgt _ _ Hrep) as Hhgt. apply Forall_app in Hhgt as [Hpre Hpost].
  destruct (link_all_spec hdr pre post e top h2) as (h3 & h4 & E3 & E4 & Hi4 & Hr4 & Ha4);
    [done|done|eapply Forall_impl; [done|]; cbn; lia|cbn; lia| | |].
  { intros i Hi. eapply row_ok_frame; [|apply (Hr1 i); lia].
    intros y Hy. apply Hl2. by intros ->. }
  { intros i Hi. rewrite Hn2 by done. eauto. }
  fold hdr top. cbn [eloc ehgt e] in E3, E4. rewrite E3. cbn [mbind option_bind]. rewrite E4.
  cbn [mbind option_bind]. rewrite places_lookup by lia. cbn [mbind option_bind].
  assert (∀ y, info h4 y = if decide (y = p) then Some (Some o, s, None) else info (sl_heap sl) y)
    as Hi4'.
  { intros y. rewrite (Hi4 y), Hi2. by rewrite (Hi1 y). }
  assert (lastp pre 0 (length pre) = length pre) as H0.
  { erewrite <- lastp_app by done. by eapply lastp_0. }
  rewrite H0, <- (at_pos_app hdr pre post) by done.
  rewrite lastb_pos by (rewrite ?length_app; first [lia | apply (rep_nodup _ _ Hrep)]).
  rewrite take_app_length.
  assert (chain h4 None (pre ++ post)) as Hch4.
  { eapply chain_frame; [|apply (rep_chain _ _ Hrep)]. intros x Hx.
    rewrite Hi4', decide_False; [done|]. intros ->. apply Hfr. by right. }
  destruct (backward_spec hdr pre post e h4) as (h5 & lx & E5 & Hlx & Hback);
    [done|cbn; lia|done| |eapply Forall_impl; [done|]; cbn; lia|apply Hr4; lia|].
  { cbn [eloc e]. by rewrite Hi4', decide_True. }
  cbn [eloc e] in E5, Hlx. rewrite E5. cbn [mbind option_bind]. rewrite Hlx. cbn [mbind option_bind].
  assert (∀ h6 tl, tl = lastb None (pre ++ e :: post) →
    relinked (e :: post) (pre ++ e :: post) h4 h6 →
    rep (Skiplist h6 hdr tl (wrap 64 (sl_length sl + 1)) top) (pre ++ e :: post)) as Hfin.
  { intros h6 tl Htl Hre. apply (rep_add _ _ _ e h4); try done; [unfold top; lia|cbn; lia|].
    intros i Hi. fold hdr. rewrite Ha4, Hl2 by (first [lia | intros ->; apply Hfr; left]).
    apply Ha1. lia. }
  destruct (forward lx) as [y|].
  - destruct Hback as (h6 & E6 & Hne & Hre). cbn [eloc e] in E6.
    rewrite E6. cbn [mbind option_bind]. eexists _, p. split; [done|]. apply Hfin; [|done].
    rewrite (rep_tail _ _ Hrep), !lastb_app. by destruct post.
  - destruct Hback as (Hne & Hre). eexists _, p. split; [done|].
    apply Hfin; [|done]. by rewrite Hne, lastb_app.
Qed.

(** ** Deletion *)

Lemma lower_level_S h hdr n :
  lower_level h hdr (S (S n)) =
  (lv ← get_level h hdr (S n);
   match forward lv with None => lower_level h hdr (S n) | Some _ => Some (S (S n)) end).
Proof. done. Qed.

Lemma lower_level_ext h h' hdr n :
  (∀ y i, get_level h' y i = get_level h y i) → lower_level h' hdr n = lower_level h hdr n.
Proof.
  intros H. induction n as [|[|n] IH]; [done..|]. by rewrite !lower_level_S, H, IH.
Qed.

Lemma lower_level_spec h hdr L n :
  (1 ≤ n)%nat → (∀ i, (i < n)%nat → row_ok hdr L i (row h i)) →
  Forall (λ e, (ehgt e ≤ n)%nat) L →
  ∃ n', lower_level h hdr n = Some n' ∧ (1 ≤ n' ≤ n)%nat ∧ Forall (λ e, (ehgt e ≤ n')%nat) L ∧
    ∀ i, (n' ≤ i < n)%nat → ∃ s, get_level h hdr i = Some (Level None s).
Proof.
  induction n as [|[|n] IH]; intros Hn Hrow Hh; [lia| |].
  - exists 1%nat. repeat split; [lia|lia|done|]. intros; lia.
  - rewrite lower_level_S.
    assert (get_level h hdr (S n) = Some (cell (S n) L)) as Hc.
    { exact (Hrow (S n) ltac:(lia) 0%nat ltac:(lia) eq_refl). }
    rewrite Hc. cbn [mbind option_bind forward cell]. destruct (fwd (S n) L) eqn:E.
    + exists (S (S n)). repeat split; [lia|lia|done|]. intros; lia.
    + destruct IH as (n' & -> & Hn' & Hh' & Ha); [lia|intros; apply Hrow; lia| |].
      { apply Forall_lookup. intros k e He. rewrite fwd_None in E.
        specialize (E k (lookup_lt_Some _ _ _ He)). cbn [tall] in E. rewrite He in E.
        apply Nat.ltb_ge in E. done. }
      exists n'. repeat split; [lia|lia|done|]. intros i Hi.
      destruct (decide (i = S n)) as [->|]; [|apply Ha; lia].
      rewrite Hc. unfold cell. rewrite E. eauto.
Qed.

Lemma unlink_all_spec hdr pre post e n m h :
  NoDup (locs hdr (pre ++ e :: post)) →
  Z.of_nat (length (pre ++ e :: post)) < 2 ^ 31 → (n ≤ m)%nat →
  (∀ i, (i < n)%nat → row_ok hdr (pre ++ e :: post) i (row h i)) →
  ∃ h', for_levels n 0 (unlink_level (places hdr pre m) (eloc e)) h = Some h' ∧
    same_info h h' ∧
    (∀ i, (i < n)%nat → row_ok hdr (pre ++ post) i (row h' i)) ∧
    (∀ i, get_level h' (eloc e) i = get_level h (eloc e) i) ∧
    (∀ i y, (n ≤ i)%nat → get_level h' y i = get_level h y i).
Proof.
  intros Hnd Hsmall Hm Hrow.
  destruct (for_levels_spec (unlink_level (places hdr pre m) (eloc e))
    (λ i r, row_ok hdr (pre ++ post) i r ∧ r (eloc e) = row h i (eloc e)) n 0 h)
    as (h1 & -> & Hi1 & Hr1 & HQ1).
  - intros i r r' Hrr [H1 H2]. split; [by eapply row_ok_ext|]. by rewrite <- Hrr.
  - intros i h1 Hi Hinfo Hr.
    destruct (unlink_step hdr pre post e i Hnd Hsmall (places hdr pre m)) with h1
      as (h2 & -> & (H1 & H2 & H3) & H4).
    + apply places_lookup. lia.
    + eapply row_ok_ext; [|apply (Hrow i); lia]. done.
    + exists h2. split; [done|]. split; [done|]. split; [done|]. split; [done|].
      change (row h2 i (eloc e)) with (get_level h2 (eloc e) i). rewrite H4. apply Hr.
  - exists h1. split; [done|]. split; [done|]. split; [|split].
    + intros i Hi. apply HQ1. lia.
    + intros i. destruct (decide (i < n)%nat); [apply HQ1; lia|].
      change (row h1 i (eloc e) = row h i (eloc e)). apply Hr1. lia.
    + intros i y Hi. change (row h1 i y = row h i y). apply Hr1. lia.
Qed.

(** The backward pointer after the removed node, and the tail. *)
Lemma unback_spec pre post e h b :
  NoDup (eloc <$> (pre ++ e :: post)) →
  chain h None (pre ++ e :: post) → fwd 0 post = b →
  Forall (λ e', (1 ≤ ehgt e')%nat) post →
  match b with
  | Some y => ∃ h', set_backward h y (lastb None pre) = Some h' ∧ post ≠ [] ∧
      relinked post (pre ++ post) h h'
  | None => post = [] ∧ relinked post (pre ++ post) h h
  end.
Proof.
  intros Hnd [Hc1 [Hce Hc2]]%chain_app <- Hpost.
  destruct post as [|e' post]; cbn [fwd].
  - split; [done|]. split; [by rewrite app_nil_r|done].
  - apply Forall_cons in Hpost as [Hh' _].
    rewrite (proj2 (Nat.ltb_lt 0 (ehgt e'))) by lia. destruct Hc2 as [Hc2 Hc3].
    destruct (set_backward_spec h (eloc e') (lastb None pre) _ _ _ Hc2) as (h1 & -> & Hl1 & Hi1).
    rewrite fmap_app, !fmap_cons in Hnd. apply NoDup_app in Hnd as (_ & Hd & Hn).
    apply NoDup_cons in Hn as [_ [Hn _]%NoDup_cons].
    exists h1. split; [done|]. split; [done|]. split; [|split; [done|split]].
    + apply chain_app. split; [|cbn [chain]; split].
      * eapply chain_frame; [|exact Hc1]. intros x Hx. rewrite Hi1, decide_False; [done|].
        intros ->. apply (Hd _ Hx). right. left.
      * by rewrite Hi1, decide_True.
      * eapply chain_frame; [|exact Hc3]. intros x Hx. rewrite Hi1, decide_False; [done|].
        by intros ->.
    + intros y Hy. rewrite fmap_cons, not_elem_of_cons in Hy.
      rewrite Hi1, decide_False by naive_solver. done.
    + intros y. rewrite Hi1. destruct (decide _) as [->|]; [|done]. rewrite Hc2. split; eauto.
Qed.

Lemma free_level h x y i : y ≠ x → get_level (slFreeNode h x) y i = get_level h y i.
Proof. intros. unfold get_level, slFreeNode. by rewrite lookup_delete_ne. Qed.
Lemma free_info h x y : y ≠ x → info (slFreeNode h x) y = info h y.
Proof. intros. unfold info, slFreeNode. by rewrite lookup_delete_ne. Qed.

(** The state after the pointers are changed and the node is freed. *)
Lemma rep_remove sl pre post e h h' tl n :
  rep sl (pre ++ e :: post) → tl = lastb None (pre ++ post) →
  same_info (sl_heap sl) h → relinked post (pre ++ post) h h' →
  (1 ≤ n ≤ sl_level sl)%nat → Forall (λ e, (ehgt e ≤ n)%nat) (pre ++ post) →
  (∀ i, (i < sl_level sl)%nat → row_ok (sl_header sl) (pre ++ post) i (row h i)) →
  (∀ i, (n ≤ i < SKIPLIST_MAXLEVEL)%nat → ∃ s, get_level h (sl_header sl) i = Some (Level None s)) →
  rep (free_in (Skiplist h' (sl_header sl) tl (wrap 64 (sl_length sl - 1)) n) (eloc e)) (pre ++ post).
Proof.
  intros Hrep Htl Hi (Hch & Hl & Hi' & Hd) Hn Hh Hrow Hab.
  pose proof (rep_nodup _ _ Hrep) as Hnd. rewrite locs_insert in Hnd.
  apply NoDup_cons in Hnd as [Hne Hnd]. apply NoDup_cons in Hnd as Hnd'.
  destruct Hnd' as [Hhdr _].
  assert (∀ x, x ∈ locs (sl_header sl) (pre ++ post) → x ≠ eloc e) as Hother by (by intros x Hx ->).
  assert (sl_header sl ≠ eloc e) as Hhe by (apply Hother; left).
  pose proof (rep_small _ _ Hrep) as Hs. pose proof (rep_top _ _ Hrep).
  rewrite length_app in Hs. cbn [length] in Hs.
  split; cbn [free_in sl_heap sl_header sl_tail sl_length sl_level]; try done.
  - intros x. unfold slFreeNode. rewrite lookup_delete_is_Some, <- info_is_Some, Hd, (Hi x).
    rewrite info_is_Some, (rep_dom _ _ Hrep x), locs_insert, elem_of_cons.
    split; [naive_solver|]. intros Hx. split; [by apply not_eq_sym, Hother|]. by right.
  - lia.
  - pose proof (rep_hgt _ _ Hrep) as Hh1. apply Forall_locs in Hh1 as [Hh1 _].
    rewrite Forall_lookup in Hh, Hh1 |- *. intros k e' He.
    specialize (Hh _ _ He). specialize (Hh1 _ _ He). cbn in *. lia.
  - intros i Hlt. eapply row_ok_frame; [|apply (Hrow i); lia].
    intros y Hy. unfold row. rewrite free_level by (by apply Hother). apply Hl.
  - intros i Hlt. rewrite free_level, Hl by done. apply Hab. lia.
  - destruct (rep_hdr _ _ Hrep) as (s & b & Hh'). exists s, b.
    rewrite free_info, Hi', (Hi (sl_header sl)) by
      (try done; intros Hin; apply Hhdr; rewrite fmap_app; apply elem_of_app; by right). done.
  - eapply chain_frame; [|done]. intros x Hx. apply free_info, Hother. by right.
  - rewrite (rep_length _ _ Hrep), !length_app. cbn [length].
    rewrite wrap_small by lia. lia.
  - rewrite length_app. lia.
Qed.

Lemma slDeleteNode_rep sl pre e post m :
  rep sl (pre ++ e :: post) → (sl_level sl ≤ m)%nat →
  ∃ sl' nd, slDeleteNode sl (eloc e) (places (sl_header sl) pre m) = Some sl' ∧
    sl_header sl' = sl_header sl ∧ (sl_level sl' ≤ sl_level sl)%nat ∧
    sl_heap sl' !! eloc e = Some nd ∧ obj nd = Some (ekey e).2 ∧
    rep (free_in sl' (eloc e)) (pre ++ post).
Proof.
  intros Hrep Hm. pose proof (rep_top _ _ Hrep) as Htop.
  pose proof (rep_nodup _ _ Hrep) as Hnd. apply NoDup_cons in Hnd as Hnd'.
  destruct Hnd' as [Hhdr Hnd'].
  pose proof (rep_hgt _ _ Hrep) as Hhgt. apply Forall_locs in Hhgt as Hhgt'.
  destruct Hhgt' as [Hpp He]. apply Forall_app in Hpp as [Hpre Hpost].
  unfold slDeleteNode.
  destruct (unlink_all_spec (sl_header sl) pre post e (sl_level sl) m (sl_heap sl) Hnd
    (rep_small _ _ Hrep) Hm) as (h1 & -> & Hi1 & Hr1 & He1 & Ha1); [apply (rep_row _ _ Hrep)|].
  cbn [mbind option_bind].
  assert (chain h1 None (pre ++ e :: post)) as Hch1.
  { eapply chain_frame; [|apply (rep_chain _ _ Hrep)]. intros. apply Hi1. }
  apply chain_app in Hch1 as Hce. destruct Hce as [_ [Hce _]].
  destruct (info_lookup _ _ _ _ _ Hce) as (nx & Hnx & Hnobj & _ & Hnb).
  rewrite Hnx. cbn [mbind option_bind]. rewrite He1.
  pose proof (rep_row _ _ Hrep 0%nat ltac:(lia)) as Hrow0.
  apply row_ok_cons in Hrow0 as (_ & Hrow0 & _). specialize (Hrow0 ltac:(lia)).
  unfold row in Hrow0. rewrite Hrow0. cbn [mbind option_bind forward cell]. rewrite Hnb.
  destruct (lower_level_spec h1 (sl_header sl) (pre ++ post) (sl_level sl))
    as (n & Hlow & Hn & Hh & Hab); [lia|done| |].
  { pose proof (rep_heights _ _ Hrep) as Hhh. by apply Forall_locs in Hhh as [? _]. }
  assert (∀ i, (n ≤ i < SKIPLIST_MAXLEVEL)%nat →
    ∃ s, get_level h1 (sl_header sl) i = Some (Level None s)) as Hab1.
  { intros i Hi. destruct (decide (i < sl_level sl)%nat); [apply Hab; lia|].
    rewrite Ha1 by lia. apply (rep_above _ _ Hrep). lia. }
  pose proof (unback_spec pre post e h1 _ Hnd' Hch1 eq_refl
    ltac:(eapply Forall_impl; [exact Hpost|]; cbn; lia)) as Hb.
  destruct (fwd 0 post) as [y|] eqn:Ey.
  - destruct Hb as (h2 & -> & Hne & Hre). cbn [mbind option_bind].
    rewrite (lower_level_ext h1 h2) by apply Hre. rewrite Hlow. cbn [mbind option_bind].
    assert (info h2 (eloc e) = info h1 (eloc e)) as Hie.
    { apply Hre. rewrite fmap_app, fmap_cons in Hnd'. apply NoDup_app in Hnd' as (_ & _ & Hn').
      by apply NoDup_cons in Hn' as [? _]. }
    rewrite Hce in Hie. apply info_lookup in Hie as (nd & Hnd2 & Ho & _).
    eexists _, nd. split; [done|]. split; [done|]. split; [cbn; lia|].
    split; [exact Hnd2|]. split; [done|]. apply (rep_remove _ _ _ _ h1); try done.
    rewrite (rep_tail _ _ Hrep), !lastb_app. by destruct post.
  - destruct Hb as [Hpe Hre]. rewrite Hlow. cbn [mbind option_bind].
    eexists _, _. split; [done|]. split; [done|]. split; [cbn; lia|].
    split; [exact Hnx|]. split; [done|]. apply (rep_remove _ _ _ _ h1); try done.
    by rewrite Hpe, app_nil_r.
Qed.

Lemma header_cell sl L : rep sl L → get_level (sl_heap sl) (sl_header sl) 0 = Some (cell 0 L).
Proof.
  intros Hrep. pose proof (rep_top _ _ Hrep).
  apply (rep_cell _ _ 0 0 Hrep); [lia|done].
Qed.

(** The node after a position at the lowest level. *)
Lemma fwd_0 sl L k :
  rep sl L → fwd 0 (drop k L) = eloc <$> L !! k.
Proof.
  intros Hrep. pose proof (rep_hgt _ _ Hrep) as Hh. destruct (L !! k) as [e|] eqn:E.
  - rewrite (drop_S _ _ _ E). cbn [fwd]. rewrite Forall_lookup in Hh. specialize (Hh _ _ E).
    by rewrite (proj2 (Nat.ltb_lt 0 (ehgt e))) by lia.
  - apply lookup_ge_None in E. by rewrite drop_ge.
Qed.

Lemma next_cell sl L k :
  rep sl L → (k ≤ length L)%nat →
  ∃ s, get_level (sl_heap sl) (at_pos (sl_header sl) L k) 0 = Some (Level (eloc <$> L !! k) s).
Proof.
  intros Hrep Hk. pose proof (rep_top _ _ Hrep). pose proof (rep_hgt _ _ Hrep) as Hh.
  eexists. rewrite (rep_cell _ _ 0 k Hrep); [|lia|].
  - unfold cell. by rewrite (fwd_0 _ _ _ Hrep).
  - destruct k as [|k]; [done|]. cbn [tall].
    destruct (lookup_lt_is_Some_2 L k) as [e E]; [lia|]. rewrite E.
    rewrite Forall_lookup in Hh. specialize (Hh _ _ E). apply Nat.ltb_lt. lia.
Qed.

(** The key of the node of an entry. *)
Lemma entry_node sl L k e :
  rep sl L → L !! k = Some e →
  ∃ nd, sl_heap sl !! eloc e = Some nd ∧ obj nd = Some (ekey e).2 ∧ score nd = (ekey e).1 ∧
    backward nd = lastb None (take k L).
Proof.
  intros Hrep He. apply info_lookup. apply chain_lookup; [apply (rep_chain _ _ Hrep)|done].
Qed.

(** The node is removed exactly when the entry at the place has the key. *)
Lemma slDelete_rep sl pre post s o :
  rep sl (pre ++ post) →
  go_cut (pre ++ post) (sl_heap sl) (go_lt s o) (length pre) →
  match post with
  | e :: post' =>
    if deqb s (ekey e).1 && equalslObj (ekey e).2 o then
      ∃ sl', slDelete sl s o = Some (true, sl') ∧ rep sl' (pre ++ post')
    else slDelete sl s o = Some (false, sl)
  | [] => slDelete sl s o = Some (false, sl)
  end.
Proof.
  intros Hrep Hcut. pose proof (rep_top _ _ Hrep) as Htop. unfold slDelete.
  rewrite (descend_spec sl _ Hrep 32 ltac:(lia) _ _ Hcut) by done.
  cbn [mbind option_bind]. rewrite found_places, places_lookup by lia. cbn [mbind option_bind].
  assert (lastp pre 0 (length pre) = length pre) as H0.
  { erewrite <- lastp_app by done. by eapply lastp_0. }
  rewrite H0, <- (at_pos_app _ pre post) by done.
  destruct (next_cell _ _ (length pre) Hrep) as [sp ->]; [rewrite length_app; lia|].
  cbn [mbind option_bind forward]. rewrite lookup_app_r, Nat.sub_diag by lia.
  destruct post as [|e post]; [done|]. cbn [lookup list_lookup fmap option_fmap option_map].
  destruct (entry_node _ _ (length pre) e Hrep) as (nd & -> & Ho & Hs & _).
  { by rewrite lookup_app_r, Nat.sub_diag. }
  cbn [mbind option_bind]. rewrite Hs, Ho. destruct (deqb s (ekey e).1); [|done].
  cbn [mbind option_bind andb]. destruct (equalslObj _ o); [|done].
  destruct (slDeleteNode_rep _ _ _ _ (sl_level sl) Hrep) as (sl' & nd' & -> & _ & _ & _ & _ & Hr);
    [done|].
  cbn [mbind option_bind]. by eexists.
Qed.

Definition eobj (e : entry) : slobj := (ekey e).2.

Lemma delete_loop_rep fuel sl pre post m t stop removed out :
  rep sl (pre ++ post) → (sl_level sl ≤ m)%nat → (length post ≤ fuel)%nat →
  0 ≤ t → t + Z.of_nat (length post) < 2 ^ 32 →
  0 ≤ removed → removed + Z.of_nat (length post) < 2 ^ 32 →
  ∃ sl', delete_loop fuel sl (places (sl_header sl) pre m) (eloc <$> head post) t stop removed out
    = Some (removed + Z.of_nat (Nat.min (length post) (Z.to_nat (stop - t + 1))),
            out ++ (eobj <$> take (Z.to_nat (stop - t + 1)) post), sl') ∧
    rep sl' (pre ++ drop (Z.to_nat (stop - t + 1)) post).
Proof.
  revert sl post t removed out. induction fuel as [|fuel IH];
    intros sl post t removed out Hrep Hm Hf Ht Ht' Hrm Hrm'.
  { destruct post as [|e post]; [|cbn [length] in Hf; lia].
    exists sl. cbn [delete_loop head fmap option_fmap option_map length Nat.min].
    by rewrite take_nil, drop_nil, Z.add_0_r, app_nil_r. }
  destruct post as [|e post].
  { exists sl. cbn [delete_loop head fmap option_fmap option_map length Nat.min].
    by rewrite take_nil, drop_nil, Z.add_0_r, app_nil_r. }
  cbn [delete_loop head fmap option_fmap option_map]. cbn [length] in Hf, Ht', Hrm'.
  destruct (Z.leb_spec t stop) as [Hle|Hgt].
  2: { replace (Z.to_nat (stop - t + 1)) with 0%nat by lia. exists sl.
    rewrite Nat.min_0_r, Z.add_0_r, take_0, drop_0. by rewrite app_nil_r. }
  destruct (next_cell _ _ (S (length pre)) Hrep) as [sp Hsp].
  { rewrite length_app. cbn [length]. lia. }
  rewrite at_pos_lookup with (e := e) in Hsp by (by rewrite lookup_app_r, Nat.sub_diag by lia).
  rewrite Hsp. cbn [mbind option_bind forward].
  destruct (slDeleteNode_rep _ _ _ _ m Hrep Hm) as (sl' & nd & -> & Hh & Hl & Hnd & Ho & Hr).
  cbn [mbind option_bind]. rewrite Hnd. cbn [mbind option_bind]. rewrite Ho. cbn [mbind option_bind].
  rewrite lookup_app_r by lia. replace (S (length pre) - length pre)%nat with 1%nat by lia.
  change ((e :: post) !! 1%nat) with (post !! 0%nat).
  replace (post !! 0%nat) with (head post) by (by destruct post).
  rewrite !wrap_small by lia.
  destruct (IH (free_in sl' (eloc e)) post (t + 1) (removed + 1) (out ++ [(ekey e).2]))
    as (sl'' & E & Hr''); [done|cbn [free_in sl_level]; lia|lia..|].
  cbn [free_in sl_header] in E. rewrite Hh in E. exists sl''. rewrite E.
  replace (Z.to_nat (stop - t + 1)) with (S (Z.to_nat (stop - (t + 1) + 1))) by lia.
  cbn [length Nat.min take drop fmap list_fmap]. split; [|done].
  rewrite <- app_assoc. do 3 f_equal. lia.
Qed.

Lemma slDeleteByRank_rep sl L start stop :
  rep sl L → 0 ≤ start → 
  let c := Nat.min (Z.to_nat (start - 1)) (length L) in
  let n := Z.to_nat (stop - Z.of_nat c) in
  ∃ sl', slDeleteByRank sl start stop
    = Some (Z.of_nat (Nat.min (length L - c) n), eobj <$> take n (drop c L), sl') ∧
    rep sl' (take c L ++ drop n (drop c L)).
Proof.
  intros Hrep Hst c n. pose proof (rep_top _ _ Hrep) as Htop.
  pose proof (rep_small _ _ Hrep) as Hs. unfold slDeleteByRank.
  assert (go_cut L (sl_heap sl) (go_before start) c) as Hcut.
  { split; [lia|]. intros k e nd He _. apply lookup_lt_Some in He.
    unfold go_before. f_equal. apply eq_bool_prop_intro. rewrite !Is_true_true.
    rewrite Z.ltb_lt, Nat.leb_le. lia. }
  rewrite (descend_spec sl _ Hrep 64 ltac:(lia) _ _ Hcut) by done. cbn [mbind option_bind].
  assert (length (take c L) = c) as Hc by (rewrite length_take; lia).
  pose proof (found_places sl (take c L) (drop c L) (sl_level sl)) as Hf.
  rewrite take_drop, Hc in Hf. rewrite Hf, places_lookup by lia. cbn [mbind option_bind].
  assert (lastp (take c L) 0 c = c) as H0.
  { rewrite <- (lastp_app (take c L) (drop c L)), take_drop by lia. by eapply lastp_0. }
  rewrite Hc, H0, <- (at_pos_app _ _ (drop c L)), take_drop by lia.
  destruct (next_cell _ _ c Hrep) as [sp ->]; [lia|]. cbn [mbind option_bind forward].
  rewrite <- (take_drop c L) in Hrep.
  destruct (delete_loop_rep (walk_fuel sl) sl (take c L) (drop c L) (sl_level sl)
    (wrap 64 (Z.of_nat c + 1)) stop 0 []) as (sl' & E & Hr'); [done|done|..].
  - unfold walk_fuel. rewrite (rep_length _ _ Hrep), length_app, !length_drop. lia.
  - apply wrap_range. lia.
  - rewrite wrap_small, length_drop by lia. lia.
  - done.
  - rewrite length_drop. lia.
  - exists sl'. rewrite wrap_small in * by lia.
    replace (stop - (Z.of_nat c + 1) + 1) with (stop - Z.of_nat c) in * by lia.
    replace (head (drop c L)) with (L !! c) in E.
    2: { rewrite <- (Nat.add_0_r c) at 1. rewrite <- lookup_drop. by destruct (drop c L). }
    rewrite E, length_drop. done.
Qed.
