(* ===== verification/SortedSet.v ===== *)
(** The skip list as a Lua object (src/framework/lib/lua-zset/lua-skiplist.c), and
    its specification: a list of keys in order.

    The functions take the arguments that remain after the checks of the Lua
    stack; a [double] argument is the result of [luaL_checknumber], an integer the
    one of [luaL_checkinteger].  A table is the list of its values at 1, 2, ...;
    no result and [nil] are [None]. *)
From Stdlib Require Import Sorting.Sorted.
From S2P Require Import Prelude Bytes SlKey Skiplist SkiplistRep.

(** ** The functions *)

Definition _insert (sl : skiplist) (s : double) (ptr : list Z) (rs : list Z) : option skiplist :=
  slInsert sl s (slCreateObj ptr (length ptr)) rs.

Definition _delete (sl : skiplist) (s : double) (ptr : list Z) : option (bool * skiplist) :=
  slDelete sl s ptr.

(** The callback receives the members in the order of the list; it may not change
    the skip list. *)
Definition _delete_by_rank (sl : skiplist) (a b : Z) : option (Z * list slobj * skiplist) :=
  let start := wrap 32 a in
  let stop := wrap 32 b in
  if stop <? start then slDeleteByRank sl stop start else slDeleteByRank sl start stop.

Definition _get_count (sl : skiplist) : Z := swrap 64 (sl_length sl).

Definition _get_rank (sl : skiplist) (s : double) (ptr : list Z) : option (option Z) :=
  rank ← slGetRank sl s ptr;
  Some (if rank =? 0 then None else Some rank).

(** [reverse ? node->backward : node->level[0].forward] *)
Definition next_node (reverse : bool) (nd : skiplistNode) : option (option loc) :=
  if reverse then Some (backward nd) else lv ← level nd !! 0%nat; Some (forward lv).

Fixpoint rank_loop (fuel : nat) (h : heap) (reverse : bool) (node : option loc)
    (n rangelen : Z) (out : list slobj) : option (list slobj) :=
  match node with
  | None => Some out
  | Some x =>
    if n <? rangelen then
      match fuel with
      | O => None
      | S fuel =>
        n ← c_int (n + 1);
        nd ← h !! x;
        o ← obj nd;
        next ← next_node reverse nd;
        rank_loop fuel h reverse next n rangelen (out ++ [o])
      end
    else Some out
  end.

Definition _get_rank_range (sl : skiplist) (a b : Z) : option (list slobj) :=
  let r1 := wrap 64 a in
  let r2 := wrap 64 b in
  let reverse := negb (r1 <=? r2) in
  let rangelen := swrap 32 (wrap 64 (if reverse then r1 - r2 + 1 else r2 - r1 + 1)) in
  node ← slGetNodeByRank sl r1;
  rank_loop (walk_fuel sl) (sl_heap sl) reverse node 0 rangelen [].

Fixpoint score_loop (fuel : nat) (h : heap) (reverse : bool) (node : option loc)
    (s2 : double) (n : Z) (out : list slobj) : option (list slobj) :=
  match node with
  | None => Some out
  | Some x =>
    match fuel with
    | O => None
    | S fuel =>
      nd ← h !! x;
      if (if reverse then dltb (score nd) s2 else dltb s2 (score nd)) then Some out
      else
        n ← c_int (n + 1);
        o ← obj nd;
        next ← next_node reverse nd;
        score_loop fuel h reverse next s2 n (out ++ [o])
    end
  end.

Definition _get_score_range (sl : skiplist) (s1 s2 : double) : option (list slobj) :=
  if dleb s1 s2 then
    node ← slFirstInRange sl s1 s2;
    score_loop (walk_fuel sl) (sl_heap sl) false node s2 0 []
  else
    node ← slLastInRange sl s2 s1;
    score_loop (walk_fuel sl) (sl_heap sl) true node s2 0 [].

(** The member of a node, or no result for [NULL]. *)
Definition push_member (sl : skiplist) (node : option loc) : option (option slobj) :=
  match node with
  | None => Some None
  | Some x => nd ← sl_heap sl !! x; o ← obj nd; Some (Some o)
  end.

Definition _get_member_by_rank (sl : skiplist) (r : Z) : option (option slobj) :=
  node ← slGetNodeByRank sl (wrap 64 r);
  push_member sl node.

Definition _get_backward_member_by_score (sl : skiplist) (s1 : double) :
    option (option slobj) :=
  match sl_tail sl with
  | None => Some None
  | Some t =>
    nt ← sl_heap sl !! t;
    node ← slFirstInRange sl s1 (score nt);
    push_member sl node
  end.

Definition _get_forward_member_by_score (sl : skiplist) (s1 : double) :
    option (option slobj) :=
  lv ← get_level (sl_heap sl) (sl_header sl) 0;
  match forward lv with
  | None => Some None
  | Some x =>
    nx ← sl_heap sl !! x;
    node ← slLastInRange sl (score nx) s1;
    push_member sl node
  end.

Definition _new : skiplist := slCreate.

Definition _release (sl : skiplist) : option heap := slFree sl.

(** ** The specification: keys in order *)

Definition ksorted (zs : list key) : Prop := StronglySorted (λ a b, ¬ kless b a) zs.

Fixpoint zinsert (k : key) (zs : list key) : list key :=
  match zs with
  | [] => [k]
  | y :: ys => if klt y k then y :: zinsert k ys else k :: y :: ys
  end.

(** The first key that is equal is removed. *)
Fixpoint zdelete (k : key) (zs : list key) : bool * list key :=
  match zs with
  | [] => (false, [])
  | y :: ys =>
    if keq y k then (true, ys) else let '(b, ys) := zdelete k ys in (b, y :: ys)
  end.

(** The members with the ranks from [a] to [b], backwards when [b < a]; none when
    there is no rank [a]. *)
Definition rank_range (a b : Z) (zs : list key) : list slobj :=
  if (a <? 1) || (Z.of_nat (length zs) <? a) then []
  else if a <=? b then take (Z.to_nat (b - a + 1)) (drop (Z.to_nat (a - 1)) zs.*2)
  else take (Z.to_nat (a - b + 1)) (reverse (take (Z.to_nat a) zs.*2)).

(** The same for any two ranks: they are unsigned numbers of 64 bits, and the size of the
    range is the lower 32 bits of their distance, with a sign. *)
Definition rank_window (a b : Z) (zs : list key) : list slobj :=
  let a := wrap 64 a in
  let b := wrap 64 b in
  let n := Z.to_nat (swrap 32 (wrap 64 (Z.abs (b - a) + 1))) in
  if (a <? 1) || (Z.of_nat (length zs) <? a) then []
  else if a <=? b then take n (drop (Z.to_nat (a - 1)) zs.*2)
  else take n (reverse (take (Z.to_nat a) zs.*2)).

Definition in_scores (lo hi : double) (k : key) : bool := dleb lo k.1 && dleb k.1 hi.

Definition score_range (s1 s2 : double) (zs : list key) : list slobj :=
  if dleb s1 s2 then (filter (λ k, in_scores s1 s2 k = true) zs).*2
  else reverse (filter (λ k, in_scores s2 s1 k = true) zs).*2.

(** The keys of the list, and their order. *)
Record zrep (sl : skiplist) (zs : list key) : Prop := {
  zrep_list : ∃ L, rep sl L ∧ ekey <$> L = zs;
  zrep_sorted : ksorted zs;
  zrep_ok : Forall key_ok zs;
}.

(** *** The place of a key *)

(** The number of keys in front for which the condition of a search holds. *)
Fixpoint prefix_len (P : key → bool) (zs : list key) : nat :=
  match zs with
  | [] => 0
  | y :: ys => if P y then S (prefix_len P ys) else 0
  end.

Lemma prefix_len_le P zs : (prefix_len P zs ≤ length zs)%nat.
Proof. induction zs as [|y ys IH]; cbn [prefix_len length]; [lia|]. destruct (P y); lia. Qed.

(** A condition that holds for the keys up to a place. *)
Definition downward (P : key → bool) (zs : list key) : Prop :=
  ∀ a b, a ∈ zs → b ∈ zs → ¬ kless b a → P b = true → P a = true.

Lemma prefix_len_spec P zs k z :
  ksorted zs → downward P zs → zs !! k = Some z → P z = (S k <=? prefix_len P zs)%nat.
Proof.
  intros Hs. revert k. induction Hs as [|y ys Hs IH Hy]; intros k Hd Hk; [done|].
  cbn [prefix_len]. destruct k as [|k].
  - injection Hk as ->. destruct (P z); [|done]. symmetry. apply Nat.leb_le. lia.
  - cbn in Hk. assert (downward P ys) as Hd'.
    { intros a b Ha Hb. apply Hd; by right. }
    destruct (P y) eqn:Ey.
    + rewrite (IH k Hd' Hk). done.
    + destruct (P z) eqn:Ez; [|done]. rewrite Forall_lookup in Hy. specialize (Hy _ _ Hk).
      rewrite (Hd y z) in Ey; [done|left|right; by eapply list_elem_of_lookup_2|done|done].
Qed.

Lemma kless_le_trans a b c : ¬ kless b a → kless b c → kless a c.
Proof.
  intros H1 H2. destruct (kless_total a b) as [H|[[Hd Ho]|H]]; [|idtac|done].
  - by eapply kless_trans.
  - destruct a, b. unfold kless in *. cbn in *. by rewrite Hd, Ho.
Qed.

Lemma kless_trans_le a b c : kless a b → ¬ kless c b → kless a c.
Proof.
  intros H1 H2. destruct (kless_total b c) as [H|[[Hd Ho]|H]]; [|idtac|done].
  - by eapply kless_trans.
  - destruct b, c. unfold kless in *. cbn in *. by rewrite <- Hd, <- Ho.
Qed.

Lemma downward_klt k zs : key_ok k → Forall key_ok zs → downward (λ y, klt y k) zs.
Proof.
  intros Hk Hz a b Ha Hb Hab. rewrite Forall_forall in Hz.
  rewrite !klt_iff by auto. by apply kless_le_trans.
Qed.

Lemma downward_kle k zs : key_ok k → Forall key_ok zs → downward (λ y, kle y k) zs.
Proof.
  intros Hk Hz a b Ha Hb Hab. rewrite Forall_forall in Hz.
  rewrite !kle_iff by auto. intros H1 H2. apply H1. by eapply kless_trans_le.
Qed.

Lemma scores_ordered a b : ¬ kless b a → ¬ lex3 (dkey b.1) (dkey a.1).
Proof. intros H1 H2. apply H1. by left. Qed.

Lemma downward_dltb m zs :
  is_nan m = false → Forall key_ok zs → downward (λ y, dltb y.1 m) zs.
Proof.
  intros Hm Hz a b Ha Hb Hab. rewrite Forall_forall in Hz.
  destruct (Hz a Ha) as [Ha' _], (Hz b Hb) as [Hb' _].
  rewrite !dltb_key by done. apply scores_ordered in Hab. intros H.
  destruct (lex3_total (dkey a.1) (dkey b.1)) as [H'|[H'|H']]; [|idtac|done].
  - by eapply lex3_trans.
  - by rewrite H'.
Qed.

Lemma downward_dleb m zs :
  is_nan m = false → Forall key_ok zs → downward (λ y, dleb y.1 m) zs.
Proof.
  intros Hm Hz a b Ha Hb Hab. rewrite Forall_forall in Hz.
  destruct (Hz a Ha) as [Ha' _], (Hz b Hb) as [Hb' _].
  rewrite !dleb_negb, !negb_true_iff, <- !not_true_iff_false, !dltb_key by done.
  apply scores_ordered in Hab. intros H1 H2. apply H1.
  destruct (lex3_total (dkey a.1) (dkey b.1)) as [H'|[H'|H']]; [|idtac|done].
  - by eapply lex3_trans.
  - by rewrite <- H'.
Qed.

Lemma zrep_cut sl L zs P go :
  rep sl L → ekey <$> L = zs → ksorted zs → downward P zs →
  (∀ r nd k, obj nd = Some k.2 → score nd = k.1 → go r nd = Some (P k)) →
  go_cut L (sl_heap sl) go (prefix_len P zs).
Proof.
  intros Hrep Hzs Hs Hd Hgo. split.
  - rewrite <- (length_fmap ekey L), Hzs. apply prefix_len_le.
  - intros k e nd He Hnd. destruct (entry_node _ _ _ _ Hrep He) as (nd' & Hnd' & Ho & Hsc & _).
    simplify_eq. rewrite (Hgo _ nd (ekey e)) by done. f_equal.
    apply prefix_len_spec; [done|done|]. by rewrite list_lookup_fmap, He.
Qed.

Lemma go_lt_klt s o r nd k :
  obj nd = Some k.2 → score nd = k.1 → go_lt s o r nd = Some (klt k (s, o)).
Proof.
  intros Ho Hs. unfold go_lt, klt. rewrite Ho, Hs. cbn [fst snd].
  destruct (dltb _ _); [done|]. by destruct (deqb _ _).
Qed.

Lemma go_le_kle s o r nd k :
  obj nd = Some k.2 → score nd = k.1 → go_le s o r nd = Some (kle k (s, o)).
Proof.
  intros Ho Hs. unfold go_le, kle. rewrite Ho, Hs. cbn [fst snd].
  destruct (dltb _ _); [done|]. by destruct (deqb _ _).
Qed.

(** *** Insertion and deletion in the specification *)

Lemma zinsert_cut k zs :
  let c := prefix_len (λ y, klt y k) zs in
  zinsert k zs = take c zs ++ k :: drop c zs.
Proof.
  induction zs as [|y ys IH]; cbn [zinsert prefix_len]; [done|].
  destruct (klt y k); [|done]. cbn [take drop app]. by rewrite IH.
Qed.

Lemma elem_of_zinsert z k zs : z ∈ zinsert k zs ↔ z = k ∨ z ∈ zs.
Proof.
  rewrite zinsert_cut, elem_of_app, elem_of_cons.
  set (c := prefix_len _ _).
  assert (z ∈ zs ↔ z ∈ take c zs ∨ z ∈ drop c zs) as ->; [|naive_solver].
  by rewrite <- elem_of_app, take_drop.
Qed.

Lemma zinsert_ok k zs : key_ok k → Forall key_ok zs → Forall key_ok (zinsert k zs).
Proof.
  rewrite !Forall_forall. intros Hk Hz z [->|Hin]%elem_of_zinsert; [done|auto].
Qed.

Lemma kless_le a b : kless a b → ¬ kless b a.
Proof. intros H1 H2. apply (kless_irrefl a). by eapply kless_trans. Qed.

Lemma kle_trans a b c : ¬ kless b a → ¬ kless c b → ¬ kless c a.
Proof. intros H1 H2 H3. apply H2. by eapply kless_trans_le. Qed.

Lemma zinsert_sorted k zs :
  key_ok k → Forall key_ok zs → ksorted zs → ksorted (zinsert k zs).
Proof.
  intros Hk Hz Hs. induction Hs as [|y ys Hs IH Hy]; cbn [zinsert].
  { repeat constructor. }
  apply Forall_cons in Hz as [Hyk Hz]. destruct (klt y k) eqn:E.
  - apply klt_iff in E; [|done..]. constructor; [by apply IH|].
    rewrite Forall_forall in Hy |- *. intros z [->|Hin]%elem_of_zinsert.
    + by apply kless_le.
    + by apply Hy.
  - apply not_true_iff_false in E. rewrite klt_iff in E by done.
    constructor; [by constructor|]. constructor; [done|].
    eapply Forall_impl; [exact Hy|]. intros z Hyz. by eapply kle_trans.
Qed.

Lemma keq_not_less a b : key_ok a → key_ok b → keq a b = true → ¬ kless a b ∧ ¬ kless b a.
Proof.
  intros Ha Hb. rewrite keq_iff by done. intros [H1 H2].
  assert (∀ x y, dkey x.1 = dkey y.1 → x.2 = y.2 → ¬ kless x y) as H.
  { intros x y E1 E2. unfold kless. rewrite E1, E2, lexcmp_refl.
    pose proof (lex3_irrefl (dkey y.1)). naive_solver. }
  split; by apply H.
Qed.

Lemma zdelete_absent k zs :
  Forall (λ z, keq z k = false) zs → zdelete k zs = (false, zs).
Proof. induction 1 as [|z zs Hz _ IH]; cbn [zdelete]; [done|]. by rewrite Hz, IH. Qed.

(** The place where the search stops is where the key is, if it is in the list. *)
Lemma zdelete_cut k zs :
  key_ok k → Forall key_ok zs → ksorted zs →
  let c := prefix_len (λ y, klt y k) zs in
  zdelete k zs =
    match drop c zs with
    | y :: ys => if keq y k then (true, take c zs ++ ys) else (false, zs)
    | [] => (false, zs)
    end.
Proof.
  intros Hk Hz Hs. cbn zeta. induction Hs as [|y ys Hs IH Hy]; [done|].
  apply Forall_cons in Hz as [Hyk Hz]. cbn [zdelete prefix_len].
  destruct (klt y k) eqn:E.
  - apply klt_iff in E; [|done..]. destruct (keq y k) eqn:Eq.
    { by apply keq_not_less in Eq as [? ?]. }
    cbn [take drop]. rewrite (IH Hz). destruct (drop _ ys) as [|y' ys']; [done|].
    by destruct (keq y' k).
  - cbn [take drop app]. destruct (keq y k) eqn:Eq; [done|]. rewrite zdelete_absent; [done|].
    apply not_true_iff_false in E, Eq. rewrite klt_iff in E by done.
    rewrite keq_iff in Eq by done.
    destruct (kless_total y k) as [?|[?|Hky]]; [done..|].
    rewrite Forall_forall in Hy, Hz |- *. intros z Hin.
    apply not_true_iff_false. intros Hzk. apply keq_not_less in Hzk as [_ Hkz]; [|auto..].
    apply Hkz. eapply kless_trans_le; [done|]. by apply Hy.
Qed.

Lemma ksorted_app xs ys :
  ksorted (xs ++ ys) → ksorted xs ∧ ksorted ys ∧
  ∀ x y, x ∈ xs → y ∈ ys → ¬ kless y x.
Proof.
  induction xs as [|x xs IH]; cbn [app]; intros H.
  - split; [constructor|]. split; [done|]. intros ?? Hin. by destruct (not_elem_of_nil _ Hin).
  - apply StronglySorted_inv in H as [H Hx]. apply IH in H as (H1 & H2 & H3).
    apply Forall_app in Hx as [Hx1 Hx2]. split; [by constructor|]. split; [done|].
    intros a b [->|Ha]%elem_of_cons Hb; [|auto].
    rewrite Forall_forall in Hx2. auto.
Qed.

Lemma ksorted_remove xs zs ys : ksorted (xs ++ zs ++ ys) → ksorted (xs ++ ys).
Proof.
  induction xs as [|x xs IH]; cbn [app]; intros H.
  - by apply ksorted_app in H as (_ & H & _).
  - apply StronglySorted_inv in H as [H Hx]. constructor; [by apply IH|].
    apply Forall_app in Hx as [? [? ?]%Forall_app]. by apply Forall_app.
Qed.

(** ** Updates *)

Section one_list.
Context (sl : skiplist) (zs : list key) (Hz : zrep sl zs).

Lemma zrep_length : sl_length sl = Z.of_nat (length zs) ∧ Z.of_nat (length zs) < 2 ^ 31.
Proof.
  destruct (zrep_list _ _ Hz) as (L & Hrep & <-). rewrite length_fmap.
  split; [apply (rep_length _ _ Hrep)|apply (rep_small _ _ Hrep)].
Qed.

(** A list cut at the place where a search stops. *)
Lemma zrep_split P go :
  downward P zs →
  (∀ r nd k, obj nd = Some k.2 → score nd = k.1 → go r nd = Some (P k)) →
  let c := prefix_len P zs in
  ∃ pre post, rep sl (pre ++ post) ∧ ekey <$> pre = take c zs ∧ ekey <$> post = drop c zs ∧
    go_cut (pre ++ post) (sl_heap sl) go (length pre).
Proof.
  intros Hd Hgo c. destruct (zrep_list _ _ Hz) as (L & Hrep & Hzs).
  pose proof (zrep_cut _ _ _ _ _ Hrep Hzs (zrep_sorted _ _ Hz) Hd Hgo) as Hcut.
  exists (take c L), (drop c L). rewrite take_drop, fmap_take, fmap_drop, Hzs.
  split; [done|]. split; [done|]. split; [done|].
  destruct Hcut as [Hc Hcut]. fold c in Hc, Hcut.
  assert (length (take c L) = c) as Hl by (rewrite length_take; lia).
  split; rewrite Hl; done.
Qed.

Lemma insert_spec s o rs lv :
  key_ok (s, o) → slRandomLevel rs = Some lv → Z.of_nat (length zs) < 2 ^ 31 - 1 →
  ∃ sl', _insert sl s o rs = Some sl' ∧ zrep sl' (zinsert (s, o) zs).
Proof.
  intros Hk Hlv Hlen. unfold _insert, slCreateObj. rewrite take_ge by done.
  destruct (zrep_split (λ y, klt y (s, o)) (go_lt s o)) as (pre & post & Hrep & Hpre & Hpost & Hcut);
    [apply downward_klt; [done|apply Hz]|intros; by apply go_lt_klt|].
  destruct (slInsert_rep sl pre post s o rs lv) as (sl' & p & -> & Hr'); [done..| |].
  { rewrite <- (length_fmap ekey), fmap_app, Hpre, Hpost, take_drop. lia. }
  exists sl'. split; [done|]. split.
  - eexists. split; [done|]. rewrite zinsert_cut, fmap_app, fmap_cons, Hpre, Hpost. done.
  - apply zinsert_sorted; [done|apply Hz|apply Hz].
  - apply zinsert_ok; [done|apply Hz].
Qed.

Lemma delete_spec s o :
  key_ok (s, o) →
  ∃ sl', _delete sl s o = Some ((zdelete (s, o) zs).1, sl') ∧ zrep sl' (zdelete (s, o) zs).2.
Proof.
  intros Hk. unfold _delete.
  destruct (zrep_split (λ y, klt y (s, o)) (go_lt s o)) as (pre & post & Hrep & Hpre & Hpost & Hcut);
    [apply downward_klt; [done|apply Hz]|intros; by apply go_lt_klt|].
  pose proof (slDelete_rep _ _ _ _ _ Hrep Hcut) as Hd.
  rewrite zdelete_cut by (done || apply Hz). rewrite <- Hpost.
  destruct post as [|e post]; cbn [fmap list_fmap]; [by exists sl|].
  unfold keq. cbn [fst snd].
  destruct (_ && _) eqn:E; [|by exists sl].
  destruct Hd as (sl' & -> & Hr'). exists sl'. split; [done|]. rewrite <- Hpre.
  pose proof (zrep_sorted _ _ Hz) as Hs. pose proof (zrep_ok _ _ Hz) as Ho.
  rewrite <- (take_drop (prefix_len (λ y, klt y (s, o)) zs) zs), <- Hpre, <- Hpost in Hs, Ho.
  split; cbn [snd].
  - eexists. split; [done|]. by rewrite fmap_app.
  - apply (ksorted_remove _ [ekey e]). done.
  - apply Forall_app in Ho as [? Ho]. apply Forall_cons in Ho as [? ?]. by apply Forall_app.
Qed.

(** Ranks from [a] to [b], in any order, are removed and given to the callback. *)
Lemma delete_by_rank_spec a b :
  let lo := Z.min (wrap 32 a) (wrap 32 b) in
  let hi := Z.max (wrap 32 a) (wrap 32 b) in
  let c := Z.to_nat (lo - 1) in
  let n := Z.to_nat (hi - Z.of_nat (Nat.min c (length zs))) in
  ∃ sl', _delete_by_rank sl a b
    = Some (Z.of_nat (length (take n (drop c zs))), (take n (drop c zs)).*2, sl') ∧
    zrep sl' (take c zs ++ drop n (drop c zs)).
Proof.
  intros lo hi c n. destruct (zrep_list _ _ Hz) as (L & Hrep & Hzs).
  pose proof (wrap_range 32 a ltac:(lia)). pose proof (wrap_range 32 b ltac:(lia)).
  assert (_delete_by_rank sl a b = slDeleteByRank sl lo hi) as ->.
  { unfold _delete_by_rank, lo, hi.
    destruct (Z.ltb_spec (wrap 32 b) (wrap 32 a)).
    - by rewrite Z.min_r, Z.max_l by lia.
    - by rewrite Z.min_l, Z.max_r by lia. }
  destruct (slDeleteByRank_rep sl L lo hi Hrep) as (sl' & -> & Hr'); [lia|].
  fold c in Hr' |- *. assert (length L = length zs) as Hlen by (by rewrite <- Hzs, length_fmap).
  rewrite Hlen in *. fold n in Hr' |- *.
  assert (∀ (l : list entry), length l = length zs →
    drop (Nat.min c (length zs)) l = drop c l ∧ take (Nat.min c (length zs)) l = take c l) as Hmin.
  { intros l Hl. destruct (decide (c ≤ length zs)%nat).
    - by rewrite Nat.min_l by lia.
    - rewrite Nat.min_r by lia. by rewrite !drop_ge, !take_ge by lia. }
  destruct (Hmin L Hlen) as [Hd Ht]. rewrite Hd, Ht in *.
  exists sl'. split.
  - do 3 f_equal.
    + rewrite length_take, length_drop. lia.
    + rewrite <- Hzs, <- fmap_drop, <- fmap_take, <- list_fmap_compose. done.
  - assert (take c zs ++ drop n (drop c zs) = ekey <$> (take c L ++ drop n (drop c L))) as Heq.
    { rewrite fmap_app, fmap_take, !fmap_drop. by rewrite Hzs. }
    split.
    + eexists. split; [done|]. by rewrite Heq.
    + apply (ksorted_remove _ (take n (drop c zs))). rewrite take_drop, take_drop. apply Hz.
    + pose proof (zrep_ok _ _ Hz) as Ho. rewrite <- (take_drop c zs) in Ho.
      apply Forall_app in Ho as [Ho1 Ho2]. apply Forall_app. split; [done|].
      by apply Forall_drop.
Qed.

Lemma count_spec : _get_count sl = Z.of_nat (length zs).
Proof. destruct zrep_length as [H1 H2]. unfold _get_count. rewrite H1, swrap_small; lia. Qed.
End one_list.

(** ** Queries *)

Lemma topmost_Some {A} (f : nat → option A) n a :
  topmost f n = Some a → ∃ i, (i < n)%nat ∧ f i = Some a.
Proof.
  induction n as [|n IH]; cbn [topmost]; [done|]. destruct (f n) eqn:E.
  - intros [= ->]. exists n. split; [lia|done].
  - intros (i & Hi & Hf)%IH. exists i. split; [lia|done].
Qed.

Lemma topmost_unique {A} (f : nat → option A) n a :
  (0 < n)%nat → f 0%nat = Some a → (∀ i b, f i = Some b → b = a) → topmost f n = Some a.
Proof.
  intros Hn H0 Hu. destruct (topmost f n) as [b|] eqn:E.
  - apply topmost_Some in E as (i & _ & Hi). f_equal. by eapply Hu.
  - exfalso. clear Hu. induction n as [|n IH]; [lia|]. cbn [topmost] in E.
    destruct (f n) eqn:En; [done|]. destruct n; [congruence|]. apply IH; [lia|done].
Qed.

(** The node at a rank, [NULL] at 0 and after the last. *)
Definition node_pos (L : list entry) (r : nat) : option loc :=
  match r with O => None | S k => eloc <$> L !! k end.

Lemma slGetNodeByRank_spec sl L r :
  rep sl L → 0 ≤ r → slGetNodeByRank sl r = Some (node_pos L (Z.to_nat r)).
Proof.
  intros Hrep Hr. unfold slGetNodeByRank. rewrite (rep_length _ _ Hrep).
  pose proof (rep_top _ _ Hrep) as Htop.
  destruct (Z.eqb_spec r 0) as [->|Hr0]; [done|]. cbn [orb].
  destruct (Z.ltb_spec (Z.of_nat (length L)) r) as [Hlt|Hle].
  { f_equal. destruct (Z.to_nat r) as [|k] eqn:E; [done|]. cbn [node_pos].
    by rewrite lookup_ge_None_2 by lia. }
  set (c := Z.to_nat r).
  assert (go_cut L (sl_heap sl) (go_upto r) c) as Hcut.
  { split; [lia|]. intros k e nd _ _. unfold go_upto. f_equal.
    apply eq_bool_prop_intro. rewrite !Is_true_true, Z.leb_le, Nat.leb_le. lia. }
  rewrite (descend_until_spec sl L Hrep 64 ltac:(lia) _ _ Hcut _
    (λ i, if Z.of_nat (lastp L i c) =? r then Some (at_pos (sl_header sl) L (lastp L i c)) else None)
    (sl_level sl) 0) by (done || lia).
  f_equal. replace (node_pos L c) with (Some (at_pos (sl_header sl) L c)).
  - apply topmost_unique; [lia| |].
    + rewrite (lastp_0 sl L Hrep _ _ Hcut). by rewrite (proj2 (Z.eqb_eq _ _)) by lia.
    + intros i b. destruct (Z.eqb_spec (Z.of_nat (lastp L i c)) r); [|done].
      intros [= <-]. by replace (lastp L i c) with c by lia.
  - destruct c as [|k] eqn:E; [lia|]. cbn [at_pos node_pos].
    destruct (lookup_lt_is_Some_2 L k) as [e He]; [lia|]. by rewrite He.
Qed.

(** What [slGetRank] tests at each level. *)
Lemma slGetRank_topmost sl L s o :
  rep sl L → ksorted (ekey <$> L) → Forall key_ok (ekey <$> L) → key_ok (s, o) →
  let c := prefix_len (λ y, kle y (s, o)) (ekey <$> L) in
  let f i :=
    match lastp L i c with
    | O => None
    | S k => e ← L !! k; if equalslObj (eobj e) o then Some (Z.of_nat (S k)) else None
    end in
  slGetRank sl s o = Some (default 0 (topmost f (sl_level sl))) ∧ lastp L 0 c = c.
Proof.
  intros Hrep Hs Ho Hk c f. pose proof (rep_top _ _ Hrep) as Htop.
  assert (go_cut L (sl_heap sl) (go_le s o) c) as Hcut.
  { eapply zrep_cut; [done|done|done|by apply downward_kle|]. intros. by apply go_le_kle. }
  split; [|by eapply lastp_0]. unfold slGetRank.
  rewrite (descend_until_spec sl L Hrep 64 ltac:(lia) _ _ Hcut _ f (sl_level sl) 0);
    [done|done|lia|done|].
  intros i Hi. unfold f. destruct (lastp_spec L i c) as (_ & Ht & _).
  destruct (lastp L i c) as [|k].
  - destruct (rep_hdr _ _ Hrep) as (s0 & b0 & Hh).
    apply info_lookup in Hh as (nd & Hnd & Hobj & _). cbn [at_pos]. rewrite Hnd.
    cbn [mbind option_bind]. by rewrite Hobj.
  - cbn [at_pos tall] in *. destruct (L !! k) as [e|] eqn:He; [|done].
    destruct (entry_node _ _ _ _ Hrep He) as (nd & Hnd & Hobj & _ & _).
    change (default (sl_header sl) (eloc <$> Some e)) with (eloc e).
    rewrite Hnd. cbn [mbind option_bind].
    by rewrite Hobj.
Qed.

(** A key of the list has its place as its rank, if no member is there twice. *)
Lemma kle_prefix zs k i z :
  ksorted zs → Forall key_ok zs → key_ok k → NoDup zs.*2 →
  zs !! i = Some z → keq z k = true → prefix_len (λ y, kle y k) zs = S i.
Proof.
  intros Hs Hok Hk Hnd Hi Hz. set (P := λ y, kle y k).
  pose proof (downward_kle k zs Hk Hok) as Hd. fold P in Hd.
  pose proof Hok as Hok'. rewrite Forall_lookup in Hok'. pose proof (Hok' _ _ Hi) as Hzk.
  apply keq_iff in Hz as [Hz1 Hz2]; [|done..].
  assert (P z = true) as HPz.
  { unfold P. rewrite kle_iff by done. unfold kless. rewrite Hz1, Hz2, lexcmp_refl.
    pose proof (lex3_irrefl (dkey k.1)). naive_solver. }
  rewrite (prefix_len_spec P zs i z) in HPz by done. apply Nat.leb_le in HPz.
  destruct (decide (prefix_len P zs = S i)); [done|]. exfalso.
  pose proof (prefix_len_le P zs). destruct (lookup_lt_is_Some_2 zs (S i)) as [z' Hz']; [lia|].
  assert (P z' = true) as HPz'.
  { rewrite (prefix_len_spec P zs (S i) z') by done. apply Nat.leb_le. lia. }
  unfold P in HPz'. rewrite kle_iff in HPz' by eauto.
  assert (¬ kless z' z) as Hle.
  { rewrite <- (take_drop (S i) zs) in Hs. apply ksorted_app in Hs as (_ & _ & Hs).
    apply Hs.
    - apply (list_elem_of_lookup_2 _ i). by rewrite lookup_take_lt by lia.
    - apply (list_elem_of_lookup_2 _ 0). by rewrite lookup_drop, Nat.add_0_r. }
  destruct (kless_total z z') as [H'|[[H1 H2]|H']]; [|idtac|done].
  - apply HPz'. unfold kless in *. by rewrite <- Hz1, <- Hz2.
  - assert (i = S i); [|lia]. apply (NoDup_lookup zs.*2 _ _ z.2); [done| |];
      rewrite list_lookup_fmap; [by rewrite Hi|by rewrite Hz', H2].
Qed.

Lemma get_rank_spec sl zs s o :
  zrep sl zs → key_ok (s, o) → NoDup zs.*2 →
  (∀ i z, zs !! i = Some z → keq z (s, o) = true →
    _get_rank sl s o = Some (Some (Z.of_nat (S i)))) ∧
  (o ∉ zs.*2 → _get_rank sl s o = Some None).
Proof.
  intros Hz Hk Hnd. destruct (zrep_list _ _ Hz) as (L & Hrep & Hzs).
  pose proof (zrep_sorted _ _ Hz) as Hs. pose proof (zrep_ok _ _ Hz) as Hok.
  pose proof (rep_top _ _ Hrep) as Htop.
  destruct (slGetRank_topmost sl L s o Hrep) as [Hr H0]; [by rewrite Hzs..|done|].
  rewrite Hzs in *. unfold _get_rank. rewrite Hr. cbn [mbind option_bind].
  set (c := prefix_len _ _) in *. set (f := λ i, match lastp L i c with O => _ | S k => _ end) in *.
  assert (∀ j b, f j = Some b → ∃ k e, L !! k = Some e ∧ b = Z.of_nat (S k) ∧ (ekey e).2 = o) as Hf.
  { intros j b. unfold f. destruct (lastp L j c) as [|k]; [done|].
    destruct (L !! k) as [e|] eqn:He; [|done]. cbn [mbind option_bind].
    destruct (equalslObj (eobj e) o) eqn:E; [|done]. intros [= <-]. exists k, e.
    apply equalslObj_iff in E; [done| |apply Hk].
    rewrite Forall_lookup in Hok. apply (Hok k (ekey e)).
    by rewrite <- Hzs, list_lookup_fmap, He. }
  assert (∀ k e, L !! k = Some e → zs.*2 !! k = Some (ekey e).2) as HL.
  { intros k e He. by rewrite <- Hzs, !list_lookup_fmap, He. }
  split.
  - intros i z Hi Heq. assert (c = S i) as Hc by (by apply kle_prefix with z).
    destruct (lookup_lt_is_Some_2 L i) as [e He].
    { rewrite <- (length_fmap ekey L), Hzs. by eapply lookup_lt_Some. }
    assert ((ekey e).2 = o) as Heo.
    { rewrite <- Hzs, list_lookup_fmap, He in Hi. injection Hi as <-.
      apply keq_iff in Heq as [_ ?]; [done| |done].
      rewrite Forall_lookup in Hok. apply (Hok i). by rewrite <- Hzs, list_lookup_fmap, He. }
    rewrite (topmost_unique f (sl_level sl) (Z.of_nat (S i))); [done|lia| |].
    + unfold f. rewrite H0, Hc, He. cbn [mbind option_bind]. unfold eobj. rewrite Heo.
      by rewrite (proj2 (equalslObj_iff o o ltac:(apply Hk) ltac:(apply Hk)) eq_refl).
    + intros j b (k & e' & He' & -> & Ho')%Hf. do 2 f_equal.
      eapply (NoDup_lookup zs.*2); [done|by apply HL|]. rewrite Ho', <- Heo. by apply HL.
  - intros Hno. destruct (topmost f (sl_level sl)) as [b|] eqn:E; [|done]. exfalso.
    apply topmost_Some in E as (j & _ & (k & e & He & -> & Ho')%Hf).
    apply Hno. rewrite <- Ho'. apply (list_elem_of_lookup_2 _ k). by apply HL.
Qed.

(** *** Following the links *)

(** The keys met by following the links of level 0, or the backward pointers. *)
Fixpoint path (h : heap) (reverse : bool) (node : option loc) (ks : list key) : Prop :=
  match ks with
  | [] => node = None
  | k :: ks => ∃ x nd next, node = Some x ∧ h !! x = Some nd ∧ obj nd = Some k.2 ∧
      score nd = k.1 ∧ next_node reverse nd = Some next ∧ path h reverse next ks
  end.

Lemma path_forward sl L k :
  rep sl L → (k ≤ length L)%nat →
  path (sl_heap sl) false (node_pos L (S k)) (drop k (ekey <$> L)).
Proof.
  intros Hrep Hk. remember (length L - k)%nat as n eqn:Hn. revert k Hk Hn.
  induction n as [|n IH]; intros k Hk Hn.
  - rewrite drop_ge by (rewrite length_fmap; lia). cbn [path node_pos].
    by rewrite lookup_ge_None_2 by lia.
  - destruct (lookup_lt_is_Some_2 L k) as [e He]; [lia|].
    rewrite (drop_S _ (ekey e) k) by (by rewrite list_lookup_fmap, He).
    destruct (entry_node _ _ _ _ Hrep He) as (nd & Hnd & Ho & Hs & _).
    destruct (next_cell _ _ (S k) Hrep) as [sp Hsp]; [lia|].
    rewrite (at_pos_lookup _ _ _ _ He) in Hsp.
    exists (eloc e), nd, (node_pos L (S (S k))). cbn [node_pos]. rewrite He.
    split; [done|]. split; [done|]. split; [done|]. split; [done|]. split; [|apply IH; lia].
    unfold next_node, get_level in *. rewrite Hnd in Hsp. cbn [mbind option_bind] in Hsp.
    by rewrite Hsp.
Qed.

Lemma lastb_node_pos L k : (k ≤ length L)%nat → lastb None (take k L) = node_pos L k.
Proof.
  intros Hk. destruct k as [|k]; [done|]. destruct (lookup_lt_is_Some_2 L k) as [e He]; [lia|].
  rewrite (take_S_r _ _ _ He), lastb_app. cbn [lastb node_pos]. by rewrite He.
Qed.

Lemma path_backward sl L k :
  rep sl L → (k ≤ length L)%nat →
  path (sl_heap sl) true (node_pos L k) (reverse (take k (ekey <$> L))).
Proof.
  intros Hrep. induction k as [|k IH]; intros Hk; [done|].
  destruct (lookup_lt_is_Some_2 L k) as [e He]; [lia|].
  rewrite (take_S_r _ _ (ekey e)) by (by rewrite list_lookup_fmap, He).
  rewrite reverse_snoc. destruct (entry_node _ _ _ _ Hrep He) as (nd & Hnd & Ho & Hs & Hb).
  exists (eloc e), nd, (node_pos L k). cbn [node_pos]. rewrite He.
  split; [done|]. split; [done|]. split; [done|]. split; [done|]. split; [|apply IH; lia].
  unfold next_node. rewrite Hb, lastb_node_pos by lia. done.
Qed.

Lemma rank_loop_spec fuel h reverse node ks n R out :
  path h reverse node ks → (length ks ≤ fuel)%nat →
  0 ≤ n → n + Z.of_nat (length ks) < 2 ^ 31 →
  rank_loop fuel h reverse node n R out = Some (out ++ take (Z.to_nat (R - n)) ks.*2).
Proof.
  revert node ks n out. induction fuel as [|fuel IH]; intros node ks n out Hp Hf Hn Hb;
    (destruct ks as [|k ks]; [cbn in Hp; subst; cbn [rank_loop fmap list_fmap];
      by rewrite take_nil, app_nil_r|]); cbn [length] in *; [lia|].
  destruct Hp as (x & nd & next & -> & Hnd & Ho & Hs & Hnext & Hp). cbn [rank_loop].
  destruct (Z.ltb_spec n R).
  - rewrite c_int_Some by (unfold INT_MIN, INT_MAX; lia). cbn [mbind option_bind].
    rewrite Hnd. cbn [mbind option_bind]. rewrite Ho. cbn [mbind option_bind].
    rewrite Hnext. cbn [mbind option_bind]. rewrite (IH next ks) by (done || lia).
    replace (Z.to_nat (R - n)) with (S (Z.to_nat (R - (n + 1)))) by lia.
    rewrite <- app_assoc. done.
  - replace (Z.to_nat (R - n)) with 0%nat by lia. by rewrite take_0, app_nil_r.
Qed.

(** The scores at which the loop over a range of scores goes on. *)
Definition in_bound (reverse : bool) (s2 : double) (k : key) : bool :=
  negb (if reverse then dltb k.1 s2 else dltb s2 k.1).

Lemma score_loop_spec fuel h reverse node ks s2 n out :
  path h reverse node ks → (length ks ≤ fuel)%nat →
  0 ≤ n → n + Z.of_nat (length ks) < 2 ^ 31 →
  score_loop fuel h reverse node s2 n out
  = Some (out ++ (take (prefix_len (in_bound reverse s2) ks) ks).*2).
Proof.
  revert node ks n out. induction fuel as [|fuel IH]; intros node ks n out Hp Hf Hn Hb;
    (destruct ks as [|k ks]; [cbn in Hp; subst; by rewrite take_nil, app_nil_r|]);
    cbn [length] in *; [lia|].
  destruct Hp as (x & nd & next & -> & Hnd & Ho & Hs & Hnext & Hp). cbn [score_loop prefix_len].
  rewrite Hnd. cbn [mbind option_bind]. rewrite Hs.
  unfold in_bound at 1. destruct (if reverse then _ else _); cbn [negb].
  - by rewrite take_0, app_nil_r.
  - rewrite c_int_Some by (unfold INT_MIN, INT_MAX; lia). cbn [mbind option_bind].
    rewrite Ho. cbn [mbind option_bind]. rewrite Hnext. cbn [mbind option_bind].
    rewrite (IH next ks) by (done || lia). rewrite <- app_assoc. done.
Qed.

(** ** Ranges *)

Lemma get_rank_window_spec sl zs a b :
  zrep sl zs → _get_rank_range sl a b = Some (rank_window a b zs).
Proof.
  intros Hz. destruct (zrep_list _ _ Hz) as (L & Hrep & Hzs).
  destruct (zrep_length _ _ Hz) as [Hlen Hsmall].
  assert (length L = length zs) as HL by (by rewrite <- Hzs, length_fmap).
  unfold _get_rank_range, rank_window. pose proof (wrap_range 64 a ltac:(lia)) as Ha.
  pose proof (wrap_range 64 b ltac:(lia)) as Hb. set (u := wrap 64 a) in *. set (v := wrap 64 b) in *. clearbody u v.
  rewrite (slGetNodeByRank_spec sl L u) by (done || lia). cbn [mbind option_bind].
  destruct (Z.ltb_spec u 1) as [H0|H1]; cbn [orb].
  { replace u with 0 by lia. unfold walk_fuel. cbn [Z.to_nat node_pos rank_loop]. done. }
  destruct (Z.ltb_spec (Z.of_nat (length zs)) u).
  { destruct (Z.to_nat u) as [|k] eqn:Ek; [lia|]. cbn [node_pos]. rewrite lookup_ge_None_2 by lia. done. }
  destruct (Z.to_nat u) as [|k] eqn:Ek; [lia|].
  replace (Z.abs (v - u) + 1) with (if negb (u <=? v) then u - v + 1 else v - u + 1)
    by (destruct (Z.leb_spec u v); cbn [negb]; lia).
  destruct (Z.leb_spec u v) as [Hle|Hgt]; cbn [negb]; set (R := swrap 32 _).
  - rewrite (rank_loop_spec _ _ _ _ (drop k zs)).
    + replace (Z.to_nat (u - 1)) with k by lia. rewrite Z.sub_0_r, fmap_drop. done.
    + rewrite <- Hzs. apply path_forward; [done|lia].
    + unfold walk_fuel. rewrite length_drop. lia.
    + done.
    + rewrite length_drop. lia.
  - rewrite (rank_loop_spec _ _ _ _ (reverse (take (S k) zs))).
    + rewrite Z.sub_0_r, fmap_reverse, fmap_take. done.
    + rewrite <- Hzs. apply path_backward; [done|lia].
    + unfold walk_fuel. rewrite length_reverse, length_take. lia.
    + done.
    + rewrite length_reverse, length_take. lia.
Qed.

Lemma rank_window_small a b zs :
  0 ≤ a < 2 ^ 31 → 0 ≤ b < 2 ^ 31 → a - b < 2 ^ 31 - 1 → b - a < 2 ^ 31 - 1 →
  rank_window a b zs = rank_range a b zs.
Proof.
  intros Ha Hb Hab Hba. unfold rank_window, rank_range. rewrite (wrap_small 64 a), (wrap_small 64 b) by lia.
  rewrite wrap_small, swrap_small by lia. destruct (_ || _); [done|].
  destruct (Z.leb_spec a b); do 3 f_equal; lia.
Qed.

(** Between ranks of an [int] these are the members one expects. *)
Lemma get_rank_range_spec sl zs a b :
  zrep sl zs → 0 ≤ a < 2 ^ 31 → 0 ≤ b < 2 ^ 31 → a - b < 2 ^ 31 - 1 →
  _get_rank_range sl a b = Some (rank_range a b zs).
Proof.
  intros Hz Ha Hb Hab. rewrite (get_rank_window_spec sl zs) by done.
  destruct (Z.eqb_spec a 0) as [->|].
  { done. }
  by rewrite rank_window_small by lia.
Qed.

Lemma prefix_len_unique P l m :
  (m ≤ length l)%nat → (∀ i z, l !! i = Some z → P z = (i <? m)%nat) → prefix_len P l = m.
Proof.
  revert m. induction l as [|x l IH]; intros m Hm HP; cbn [prefix_len length] in *; [lia|].
  rewrite (HP 0%nat x) by done. destruct m as [|m]; [done|]. cbn [Nat.ltb Nat.leb].
  f_equal. apply IH; [lia|]. intros i z Hz. by rewrite (HP (S i) z).
Qed.

Lemma filter_interval (F : key → Prop) `{∀ k, Decision (F k)} zs a b :
  (∀ i z, zs !! i = Some z → F z ↔ (a ≤ i < b)%nat) →
  filter F zs = take (b - a) (drop a zs).
Proof.
  revert a b. induction zs as [|z zs IH]; intros a b HF; [by rewrite drop_nil, take_nil|].
  pose proof (HF 0%nat z eq_refl) as H0. rewrite filter_cons.
  destruct a as [|a], b as [|b].
  - rewrite decide_False by (rewrite H0; lia). rewrite (IH 0%nat 0%nat); [done|].
    intros i z' Hz'. rewrite (HF (S i) z') by done. lia.
  - rewrite decide_True by (apply H0; lia). rewrite (IH 0%nat b).
    + rewrite Nat.sub_0_r, !drop_0. done.
    + intros i z' Hz'. rewrite (HF (S i) z') by done. lia.
  - rewrite decide_False by (rewrite H0; lia). rewrite (IH a 0%nat); [done|].
    intros i z' Hz'. rewrite (HF (S i) z') by done. lia.
  - rewrite decide_False by (rewrite H0; lia). rewrite (IH a b); [done|].
    intros i z' Hz'. rewrite (HF (S i) z') by done. lia.
Qed.

(** The places of two scores in the list. *)
Definition below (m : double) (zs : list key) : nat := prefix_len (λ k, dltb k.1 m) zs.
Definition upto (m : double) (zs : list key) : nat := prefix_len (λ k, dleb k.1 m) zs.

Section ranges.
Context (sl : skiplist) (L : list entry) (zs : list key) (Hz : zrep sl zs).
Context (Hrep : rep sl L) (Hzs : ekey <$> L = zs).

Lemma below_spec m i z :
  is_nan m = false → zs !! i = Some z → dltb z.1 m = (i <? below m zs)%nat.
Proof.
  intros Hm Hi. apply (prefix_len_spec (λ k, dltb k.1 m)); [apply Hz| |done].
  apply downward_dltb; [done|apply Hz].
Qed.

Lemma upto_spec m i z :
  is_nan m = false → zs !! i = Some z → dleb z.1 m = (i <? upto m zs)%nat.
Proof.
  intros Hm Hi. apply (prefix_len_spec (λ k, dleb k.1 m)); [apply Hz| |done].
  apply downward_dleb; [done|apply Hz].
Qed.

Lemma score_ok i z : zs !! i = Some z → is_nan z.1 = false.
Proof. intros Hi. pose proof (zrep_ok _ _ Hz) as Ho. rewrite Forall_lookup in Ho. by apply (Ho i). Qed.

Lemma in_scores_interval lo hi i z :
  is_nan lo = false → is_nan hi = false → zs !! i = Some z →
  in_scores lo hi z = true ↔ (below lo zs ≤ i < upto hi zs)%nat.
Proof.
  intros Hlo Hhi Hi. unfold in_scores. pose proof (score_ok _ _ Hi).
  rewrite (upto_spec hi i), (dleb_negb lo) by done. rewrite (below_spec lo i) by done.
  rewrite andb_true_iff, negb_true_iff, Nat.ltb_ge, Nat.ltb_lt. done.
Qed.

Lemma entry_key k e : L !! k = Some e → zs !! k = Some (ekey e).
Proof. intros He. by rewrite <- Hzs, list_lookup_fmap, He. Qed.

Lemma slIsInRange_spec lo hi :
  is_nan lo = false → is_nan hi = false →
  ∃ r, slIsInRange sl lo hi = Some r ∧
    if r then (below lo zs < length zs)%nat ∧ (1 ≤ upto hi zs)%nat
    else (upto hi zs ≤ below lo zs)%nat.
Proof.
  intros Hlo Hhi. pose proof (prefix_len_le (λ k, dleb k.1 hi) zs) as Hu. fold (upto hi zs) in Hu.
  assert (length L = length zs) as HL by (by rewrite <- Hzs, length_fmap).
  unfold slIsInRange. destruct (dltb hi lo) eqn:E.
  { exists false. split; [done|]. destruct (upto hi zs) as [|u] eqn:Eu; [lia|].
    destruct (lookup_lt_is_Some_2 zs u) as [z Hi]; [lia|].
    pose proof (upto_spec hi u z Hhi Hi) as H1. rewrite Eu in H1.
    pose proof (below_spec lo u z Hlo Hi) as H2. pose proof (score_ok _ _ Hi).
    rewrite (proj2 (Nat.ltb_lt u (S u))) in H1 by lia.
    assert (dltb z.1 lo = true) as H3.
    { rewrite dleb_negb, negb_true_iff, <- not_true_iff_false in H1 by done.
      rewrite dltb_key in * by done.
      destruct (lex3_total (dkey z.1) (dkey hi)) as [?|[->|?]]; [|done|done].
      by eapply lex3_trans. }
    rewrite H3 in H2. symmetry in H2. apply Nat.ltb_lt in H2. lia. }
  assert (lastb None L = node_pos L (length L)) as Hlast.
  { rewrite <- lastb_node_pos by lia. by rewrite take_ge. }
  rewrite (rep_tail _ _ Hrep), Hlast. destruct (length L) as [|n] eqn:En.
  { exists false. split; [done|]. lia. }
  cbn [node_pos]. destruct (lookup_lt_is_Some_2 L n) as [e He]; [lia|].
  destruct (entry_node _ _ _ _ Hrep He) as (nd & Hnd & _ & Hs & _).
  rewrite He. cbn [fmap option_fmap option_map]. rewrite Hnd. cbn [mbind option_bind]. rewrite Hs.
  rewrite (below_spec lo n (ekey e)) by (done || by apply entry_key).
  destruct (Nat.ltb_spec n (below lo zs)); [exists false; split; [done|lia]|].
  rewrite (header_cell _ _ Hrep). cbn [mbind option_bind forward cell].
  rewrite <- (drop_0 L), (fwd_0 _ _ 0 Hrep).
  destruct (lookup_lt_is_Some_2 L 0) as [e0 He0]; [lia|].
  destruct (entry_node _ _ _ _ Hrep He0) as (nd0 & Hnd0 & _ & Hs0 & _).
  rewrite He0. cbn [fmap option_fmap option_map]. rewrite Hnd0. cbn [mbind option_bind].
  rewrite Hs0, <- dleb_negb by (done || by eapply score_ok, entry_key).
  rewrite (upto_spec hi 0 (ekey e0)) by (done || by apply entry_key).
  eexists. split; [done|]. destruct (Nat.ltb_spec 0 (upto hi zs)); lia.
Qed.

Lemma slFirstInRange_spec lo hi :
  is_nan lo = false → is_nan hi = false →
  ∃ r, slIsInRange sl lo hi = Some r ∧
    slFirstInRange sl lo hi = Some (if r then node_pos L (S (below lo zs)) else None) ∧
    if r then (below lo zs < length zs)%nat ∧ (1 ≤ upto hi zs)%nat
    else (upto hi zs ≤ below lo zs)%nat.
Proof.
  intros Hlo Hhi. pose proof (rep_top _ _ Hrep) as Htop.
  destruct (slIsInRange_spec lo hi Hlo Hhi) as (r & Hr & Hcase). exists r.
  split; [done|]. split; [|done]. unfold slFirstInRange. rewrite Hr. cbn [mbind option_bind].
  destruct r; [|done].
  assert (go_cut L (sl_heap sl) (λ _ nd, Some (dltb (score nd) lo)) (below lo zs)) as Hcut.
  { eapply zrep_cut; [done|done|apply Hz|apply downward_dltb; [done|apply Hz]|].
    by intros r0 nd k _ ->. }
  rewrite (descend_spec sl L Hrep 64 ltac:(lia) _ _ Hcut) by done. cbn [mbind option_bind].
  rewrite lookup_found by lia. cbn [mbind option_bind found_at].
  rewrite (lastp_0 sl L Hrep _ _ Hcut).
  destruct (next_cell _ _ (below lo zs) Hrep) as [sp ->]; [|done].
  rewrite <- (length_fmap ekey), Hzs. lia.
Qed.

Lemma slLastInRange_spec lo hi :
  is_nan lo = false → is_nan hi = false →
  ∃ r : bool, slLastInRange sl lo hi = Some (if r then node_pos L (upto hi zs) else None) ∧
    if (r : bool) then (below lo zs < length zs)%nat ∧ (1 ≤ upto hi zs)%nat
    else (upto hi zs ≤ below lo zs)%nat.
Proof.
  intros Hlo Hhi. pose proof (rep_top _ _ Hrep) as Htop.
  destruct (slIsInRange_spec lo hi Hlo Hhi) as (r & Hr & Hcase). exists r.
  split; [|done]. unfold slLastInRange. rewrite Hr. cbn [mbind option_bind].
  destruct r; [|done].
  assert (go_cut L (sl_heap sl) (λ _ nd, Some (dleb (score nd) hi)) (upto hi zs)) as Hcut.
  { eapply zrep_cut; [done|done|apply Hz|apply downward_dleb; [done|apply Hz]|].
    by intros r0 nd k _ ->. }
  rewrite (descend_spec sl L Hrep 64 ltac:(lia) _ _ Hcut) by done. cbn [mbind option_bind].
  rewrite lookup_found by lia. cbn [mbind option_bind found_at].
  rewrite (lastp_0 sl L Hrep _ _ Hcut). destruct Hcase as [_ H1]. destruct Hcut as [H2 _].
  destruct (upto hi zs) as [|u]; [lia|]. cbn [at_pos node_pos].
  destruct (lookup_lt_is_Some_2 L u) as [e He]; [lia|]. by rewrite He.
Qed.

Lemma push_member_spec r :
  push_member sl (node_pos L r) = Some (match r with O => None | S k => snd <$> zs !! k end).
Proof.
  destruct r as [|k]; [done|]. cbn [node_pos]. destruct (L !! k) as [e|] eqn:He.
  - destruct (entry_node _ _ _ _ Hrep He) as (nd & Hnd & Ho & _).
    rewrite (entry_key _ _ He). cbn [fmap option_fmap option_map push_member].
    rewrite Hnd. cbn [mbind option_bind]. by rewrite Ho.
  - apply lookup_ge_None in He. rewrite lookup_ge_None_2; [done|].
    rewrite <- Hzs, length_fmap. done.
Qed.

Lemma upto_le m : (upto m zs ≤ length zs)%nat.
Proof. apply prefix_len_le. Qed.
Lemma below_le m : (below m zs ≤ length zs)%nat.
Proof. apply prefix_len_le. Qed.

(** The loop over the scores stops at the end of the range. *)
Lemma scores_forward lo hi :
  is_nan hi = false →
  take (prefix_len (in_bound false hi) (drop (below lo zs) zs)) (drop (below lo zs) zs)
  = take (upto hi zs - below lo zs) (drop (below lo zs) zs).
Proof.
  intros Hhi. f_equal. pose proof (upto_le hi).
  apply prefix_len_unique; [rewrite length_drop; lia|]. intros i z Hi. rewrite lookup_drop in Hi.
  unfold in_bound. rewrite <- dleb_negb by (done || by eapply score_ok).
  rewrite (upto_spec hi (below lo zs + i)) by done.
  apply eq_bool_prop_intro. rewrite !Is_true_true, !Nat.ltb_lt. lia.
Qed.

Lemma scores_backward lo hi :
  is_nan lo = false →
  take (prefix_len (in_bound true lo) (reverse (take (upto hi zs) zs)))
    (reverse (take (upto hi zs) zs))
  = reverse (take (upto hi zs - below lo zs) (drop (below lo zs) zs)).
Proof.
  intros Hlo. pose proof (upto_le hi) as Hu.
  assert (length (take (upto hi zs) zs) = upto hi zs) as Hl by (rewrite length_take; lia).
  rewrite (prefix_len_unique _ _ (upto hi zs - below lo zs)%nat).
  - rewrite take_reverse, Hl. f_equal.
    rewrite take_drop_commute. destruct (decide (below lo zs ≤ upto hi zs)%nat).
    + f_equal; [lia|]. f_equal. lia.
    + rewrite !drop_ge; [done|rewrite length_take; lia|lia].
  - rewrite length_reverse, Hl. lia.
  - intros i z Hi. pose proof (lookup_lt_Some _ _ _ Hi) as Hlt. rewrite length_reverse, Hl in Hlt.
    rewrite reverse_lookup, Hl in Hi by lia. rewrite lookup_take_lt in Hi by lia.
    unfold in_bound. rewrite (below_spec lo (upto hi zs - S i)) by done.
    apply eq_bool_prop_intro. rewrite !Is_true_true, negb_true_iff, Nat.ltb_ge, Nat.ltb_lt. lia.
Qed.
End ranges.

Lemma get_score_range_spec sl zs s1 s2 :
  zrep sl zs → is_nan s1 = false → is_nan s2 = false →
  _get_score_range sl s1 s2 = Some (score_range s1 s2 zs).
Proof.
  intros Hz H1 H2. destruct (zrep_list _ _ Hz) as (L & Hrep & Hzs).
  destruct (zrep_length _ _ Hz) as [Hlen Hsmall].
  assert (length L = length zs) as HL by (by rewrite <- Hzs, length_fmap).
  unfold _get_score_range, score_range. destruct (dleb s1 s2).
  - rewrite (filter_interval _ _ (below s1 zs) (upto s2 zs)).
    2: { intros i z Hi. by eapply in_scores_interval. }
    destruct (slFirstInRange_spec sl L zs Hz Hrep Hzs s1 s2 H1 H2) as (r & _ & -> & Hr).
    cbn [mbind option_bind]. destruct r.
    + rewrite (score_loop_spec _ _ _ _ (drop (below s1 zs) zs)).
      * by rewrite (scores_forward sl zs Hz).
      * pose proof (path_forward sl L (below s1 zs) Hrep ltac:(lia)) as Hp. by rewrite Hzs in Hp.
      * unfold walk_fuel. rewrite length_drop. lia.
      * done.
      * rewrite length_drop. lia.
    + by replace (upto s2 zs - below s1 zs)%nat with 0%nat by lia.
  - rewrite (filter_interval _ _ (below s2 zs) (upto s1 zs)).
    2: { intros i z Hi. by eapply in_scores_interval. }
    pose proof (upto_le zs s1) as Hu.
    destruct (slLastInRange_spec sl L zs Hz Hrep Hzs s2 s1 H2 H1) as (r & -> & Hr).
    cbn [mbind option_bind]. destruct r.
    + rewrite (score_loop_spec _ _ _ _ (reverse (take (upto s1 zs) zs))).
      * by rewrite (scores_backward sl zs Hz), fmap_reverse by done.
      * pose proof (path_backward sl L (upto s1 zs) Hrep ltac:(lia)) as Hp. by rewrite Hzs in Hp.
      * unfold walk_fuel. rewrite length_reverse, length_take. lia.
      * done.
      * rewrite length_reverse, length_take. lia.
    + by replace (upto s1 zs - below s2 zs)%nat with 0%nat by lia.
Qed.

Lemma get_member_by_rank_spec sl zs r :
  zrep sl zs →
  _get_member_by_rank sl r
  = Some (let u := wrap 64 r in
      if (1 <=? u) && (u <=? Z.of_nat (length zs)) then snd <$> zs !! Z.to_nat (u - 1) else None).
Proof.
  intros Hz. destruct (zrep_list _ _ Hz) as (L & Hrep & Hzs).
  pose proof (wrap_range 64 r ltac:(lia)) as Hr. unfold _get_member_by_rank. cbn zeta.
  set (u := wrap 64 r) in *. clearbody u.
  rewrite (slGetNodeByRank_spec sl L) by (done || lia). cbn [mbind option_bind].
  erewrite push_member_spec by done. f_equal.
  destruct (Z.leb_spec 1 u), (Z.leb_spec u (Z.of_nat (length zs))); cbn [andb].
  - destruct (Z.to_nat u) eqn:E; [lia|]. by replace (Z.to_nat (u - 1)) with n by lia.
  - destruct (Z.to_nat u) eqn:E; [done|]. by rewrite lookup_ge_None_2 by lia.
  - by replace (Z.to_nat u) with 0%nat by lia.
  - by replace (Z.to_nat u) with 0%nat by lia.
Qed.

Lemma head_drop {A} (l : list A) n : head (drop n l) = l !! n.
Proof. revert n. induction l as [|x l IH]; intros [|n]; [done..|]. apply IH. Qed.

(** The first member whose score is at least [s1]. *)
Lemma get_backward_member_spec sl zs s1 :
  zrep sl zs → is_nan s1 = false →
  _get_backward_member_by_score sl s1
  = Some (head (filter (λ k, dleb s1 k.1 = true) zs).*2).
Proof.
  intros Hz H1. destruct (zrep_list _ _ Hz) as (L & Hrep & Hzs).
  assert (length L = length zs) as HL by (by rewrite <- Hzs, length_fmap).
  rewrite (filter_interval _ _ (below s1 zs) (length zs)).
  2: { intros i z Hi. pose proof (lookup_lt_Some _ _ _ Hi).
    rewrite dleb_negb, (below_spec sl zs Hz s1 i) by (done || by eapply score_ok).
    rewrite negb_true_iff, Nat.ltb_ge. lia. }
  rewrite take_ge by (rewrite length_drop; lia). rewrite fmap_drop, head_drop, list_lookup_fmap.
  assert (lastb None L = node_pos L (length L)) as Hlast.
  { rewrite <- lastb_node_pos by lia. by rewrite take_ge. }
  unfold _get_backward_member_by_score. rewrite (rep_tail _ _ Hrep), Hlast.
  destruct (length L) as [|n] eqn:En.
  { cbn [node_pos]. by rewrite lookup_ge_None_2 by lia. }
  cbn [node_pos]. destruct (lookup_lt_is_Some_2 L n) as [e He]; [lia|].
  destruct (entry_node _ _ _ _ Hrep He) as (nd & Hnd & _ & Hs & _).
  rewrite He. cbn [fmap option_fmap option_map]. rewrite Hnd. cbn [mbind option_bind]. rewrite Hs.
  pose proof (entry_key L zs Hzs _ _ He) as Hk.
  pose proof (score_ok sl zs Hz _ _ Hk) as Hkn.
  destruct (slFirstInRange_spec sl L zs Hz Hrep Hzs s1 (ekey e).1 H1 Hkn) as (r & _ & -> & Hr).
  cbn [mbind option_bind]. destruct r; [by rewrite (push_member_spec sl L zs)|].
  assert (upto (ekey e).1 zs = length zs) as Hu.
  { pose proof (upto_spec sl zs Hz _ _ _ Hkn Hk) as Hup.
    rewrite dleb_negb in Hup by done. destruct (dltb (ekey e).1 (ekey e).1) eqn:Ed.
    - apply dltb_key in Ed; [|done..]. by apply lex3_irrefl in Ed.
    - symmetry in Hup. apply Nat.ltb_lt in Hup. pose proof (upto_le zs (ekey e).1). lia. }
  cbn [push_member]. by rewrite lookup_ge_None_2 by lia.
Qed.

(** The last member whose score is at most [s1]. *)
Lemma get_forward_member_spec sl zs s1 :
  zrep sl zs → is_nan s1 = false →
  _get_forward_member_by_score sl s1
  = Some (last (filter (λ k, dleb k.1 s1 = true) zs).*2).
Proof.
  intros Hz H1. destruct (zrep_list _ _ Hz) as (L & Hrep & Hzs).
  pose proof (upto_le zs s1) as Hu.
  rewrite (filter_interval _ _ 0 (upto s1 zs)).
  2: { intros i z Hi. rewrite (upto_spec sl zs Hz s1 i), Nat.ltb_lt by done. lia. }
  rewrite Nat.sub_0_r, drop_0, fmap_take.
  unfold _get_forward_member_by_score.
  rewrite (header_cell _ _ Hrep). cbn [mbind option_bind forward cell].
  rewrite <- (drop_0 L), (fwd_0 _ _ 0 Hrep).
  destruct (L !! 0%nat) as [e|] eqn:He; cbn [fmap option_fmap option_map].
  - destruct (entry_node _ _ _ _ Hrep He) as (nd & Hnd & _ & Hs & _).
    rewrite Hnd. cbn [mbind option_bind]. rewrite Hs.
    pose proof (entry_key L zs Hzs _ _ He) as Hk.
    pose proof (score_ok sl zs Hz _ _ Hk) as Hkn.
    destruct (slLastInRange_spec sl L zs Hz Hrep Hzs (ekey e).1 s1 Hkn H1) as (r & -> & Hr).
    cbn [mbind option_bind].
    assert (below (ekey e).1 zs = 0%nat) as Hb.
    { pose proof (below_spec sl zs Hz _ _ _ Hkn Hk) as Hbl.
      destruct (dltb (ekey e).1 (ekey e).1) eqn:Ed.
      - apply dltb_key in Ed; [|done..]. by apply lex3_irrefl in Ed.
      - symmetry in Hbl. apply Nat.ltb_ge in Hbl. lia. }
    destruct r.
    + rewrite (push_member_spec sl L zs) by done.
      destruct (upto s1 zs) as [|u]; [done|].
      destruct (lookup_lt_is_Some_2 zs u) as [z Hzu]; [lia|].
      rewrite (take_S_r _ _ z.2) by (by rewrite list_lookup_fmap, Hzu).
      by rewrite last_snoc, Hzu.
    + by replace (upto s1 zs) with 0%nat by lia.
  - apply lookup_ge_None in He. assert (zs = []) as ->; [|done].
    rewrite <- Hzs. by destruct L; [|cbn in He; lia].
Qed.

(** ** Creation and destruction *)

Lemma new_spec : zrep _new [].
Proof.
  split; [|constructor|constructor]. exists []. split; [|done].
  unfold _new, slCreate, slCreateNode. generalize (fresh (dom (∅ : heap))) as p. intros p.
  split; cbn [sl_heap sl_header sl_tail sl_length sl_level]; try done.
  - apply NoDup_singleton.
  - intros x. unfold locs. cbn [fmap list_fmap]. rewrite elem_of_cons, lookup_insert_is_Some, lookup_empty.
    split; [by intros [->|[_ []]]; [left|]|].
    intros [->|Hin]; [by left|by destruct (not_elem_of_nil _ Hin)].
  - unfold SKIPLIST_MAXLEVEL. lia.
  - intros i Hi k Hk _. replace i with 0%nat by lia. replace k with 0%nat by (cbn in Hk; lia).
    unfold row, get_level. cbn [at_pos]. by rewrite lookup_insert_eq.
  - intros i Hi. exists 0. unfold get_level. rewrite lookup_insert_eq.
    cbn [mbind option_bind level]. apply lookup_replicate_2. lia.
  - exists dzero, None. unfold info. by rewrite lookup_insert_eq.
Qed.

Lemma free_loop_spec fuel h es :
  (length es ≤ fuel)%nat → NoDup (eloc <$> es) →
  (∀ x, is_Some (h !! x) ↔ x ∈ eloc <$> es) →
  (∀ k e, es !! k = Some e →
    ∃ s, get_level h (eloc e) 0 = Some (Level (eloc <$> es !! S k) s)) →
  slFree_loop fuel h (eloc <$> head es) = Some ∅.
Proof.
  revert h es. induction fuel as [|fuel IH]; intros h es Hf Hnd Hd Hl;
    (destruct es as [|e es]; [cbn; f_equal; apply map_eq; intros x; rewrite lookup_empty;
      apply eq_None_not_Some; rewrite Hd; apply not_elem_of_nil|]); cbn [length] in Hf; [lia|].
  cbn [head fmap option_fmap option_map slFree_loop].
  destruct (Hl 0%nat e eq_refl) as [s ->]. cbn [mbind option_bind forward].
  rewrite fmap_cons in Hnd. apply NoDup_cons in Hnd as [Hne Hnd].
  change ((e :: es) !! 1%nat) with (es !! 0%nat).
  replace (es !! 0%nat) with (head es) by (by destruct es).
  apply IH; [lia|done| |].
  - intros x. unfold slFreeNode. rewrite lookup_delete_is_Some, Hd, fmap_cons, elem_of_cons.
    split; [naive_solver|]. intros Hx. split; [intros Heq; by subst x|auto].
  - intros k e' He'. rewrite free_level.
    + apply (Hl (S k) e' He').
    + intros Heq. apply Hne. rewrite <- Heq. apply list_elem_of_fmap. exists e'.
      split; [done|]. by eapply list_elem_of_lookup_2.
Qed.

Lemma release_spec sl zs : zrep sl zs → _release sl = Some ∅.
Proof.
  intros Hz. destruct (zrep_list _ _ Hz) as (L & Hrep & Hzs). unfold _release, slFree.
  rewrite (header_cell _ _ Hrep). cbn [mbind option_bind forward cell].
  rewrite <- (drop_0 L), (fwd_0 _ _ 0 Hrep).
  pose proof (rep_nodup _ _ Hrep) as Hnd. apply NoDup_cons in Hnd as [Hne Hnd].
  replace (L !! 0%nat) with (head L) by (by destruct L).
  set (h := delete _ _). assert (∀ x, is_Some (h !! x) ↔ x ∈ eloc <$> L) as Hd.
  { intros x. unfold h. rewrite lookup_delete_is_Some, (rep_dom _ _ Hrep). unfold locs.
    rewrite elem_of_cons. split; [naive_solver|]. intros Hx. split; [intros Heq; by subst x|auto]. }
  apply free_loop_spec; [|done|done|].
  - rewrite <- (length_fmap eloc L), <- size_dom.
    assert (dom h ≡ list_to_set (C := gset loc) (eloc <$> L)) as ->.
    { intros x. by rewrite elem_of_dom, Hd, elem_of_list_to_set. }
    by rewrite size_list_to_set.
  - intros k e He. destruct (next_cell _ _ (S k) Hrep) as [s Hs].
    { apply lookup_lt_Some in He. lia. }
    exists s. rewrite <- (at_pos_lookup (sl_header sl) _ _ _ He). unfold h.
    change (delete (sl_header sl) (sl_heap sl)) with (slFreeNode (sl_heap sl) (sl_header sl)).
    rewrite free_level; [done|]. rewrite (at_pos_lookup _ _ _ _ He). intros Heq. apply Hne.
    rewrite <- Heq. apply list_elem_of_fmap. exists e. split; [done|].
    by eapply list_elem_of_lookup_2.
Qed.

(** ** Traces

    Every sequence of calls gives the results of the list of keys. *)

Fixpoint zrank (k : key) (zs : list key) : option Z :=
  match zs with
  | [] => None
  | y :: ys => if keq y k then Some 1 else (λ r, r + 1) <$> zrank k ys
  end.

Inductive zop :=
  | OInsert (s : double) (o : slobj) (rs : list Z)   (* with the values of random() *)
  | ODelete (s : double) (o : slobj)
  | ODeleteByRank (a b : Z)
  | OGetCount
  | OGetRank (s : double) (o : slobj)
  | OGetRankRange (a b : Z)
  | OGetScoreRange (s1 s2 : double)
  | OGetMemberByRank (r : Z)
  | OGetBackwardMember (s : double)
  | OGetForwardMember (s : double).

Inductive zres :=
  | RNone
  | RBool (b : bool)
  | RRemoved (n : Z) (os : list slobj)
  | RInt (r : option Z)
  | RMembers (os : list slobj)
  | RMember (o : option slobj).

Definition zstep (sl : skiplist) (op : zop) : option (zres * skiplist) :=
  match op with
  | OInsert s o rs => sl ← _insert sl s o rs; Some (RNone, sl)
  | ODelete s o => '(b, sl) ← _delete sl s o; Some (RBool b, sl)
  | ODeleteByRank a b => '(n, os, sl) ← _delete_by_rank sl a b; Some (RRemoved n os, sl)
  | OGetCount => Some (RInt (Some (_get_count sl)), sl)
  | OGetRank s o => r ← _get_rank sl s o; Some (RInt r, sl)
  | OGetRankRange a b => os ← _get_rank_range sl a b; Some (RMembers os, sl)
  | OGetScoreRange s1 s2 => os ← _get_score_range sl s1 s2; Some (RMembers os, sl)
  | OGetMemberByRank r => o ← _get_member_by_rank sl r; Some (RMember o, sl)
  | OGetBackwardMember s => o ← _get_backward_member_by_score sl s; Some (RMember o, sl)
  | OGetForwardMember s => o ← _get_forward_member_by_score sl s; Some (RMember o, sl)
  end.

(** The keys with ranks from the smaller to the larger of two ranks. *)
Definition ranks_between (a b : Z) (zs : list key) : list key * list key * list key :=
  let lo := Z.min (wrap 32 a) (wrap 32 b) in
  let hi := Z.max (wrap 32 a) (wrap 32 b) in
  let c := Z.to_nat (lo - 1) in
  let n := Z.to_nat (hi - Z.of_nat (Nat.min c (length zs))) in
  (take c zs, take n (drop c zs), drop n (drop c zs)).

Definition zspec (zs : list key) (op : zop) : zres * list key :=
  match op with
  | OInsert s o _ => (RNone, zinsert (s, o) zs)
  | ODelete s o => let '(b, zs) := zdelete (s, o) zs in (RBool b, zs)
  | ODeleteByRank a b =>
    let '(before, removed, after) := ranks_between a b zs in
    (RRemoved (Z.of_nat (length removed)) removed.*2, before ++ after)
  | OGetCount => (RInt (Some (Z.of_nat (length zs))), zs)
  | OGetRank s o => (RInt (zrank (s, o) zs), zs)
  | OGetRankRange a b => (RMembers (rank_window a b zs), zs)
  | OGetScoreRange s1 s2 => (RMembers (score_range s1 s2 zs), zs)
  | OGetMemberByRank r =>
    let r := wrap 64 r in
    (RMember (if (1 <=? r) && (r <=? Z.of_nat (length zs)) then snd <$> zs !! Z.to_nat (r - 1) else None), zs)
  | OGetBackwardMember s => (RMember (head (filter (λ k, dleb s k.1 = true) zs).*2), zs)
  | OGetForwardMember s => (RMember (last (filter (λ k, dleb k.1 s = true) zs).*2), zs)
  end.

(** What a caller must respect: no NaN, sizes of an [int], enough random values,
    and for [get_rank] that the members are unique and that the score is the one of the
    member. *)
Definition zop_ok (zs : list key) (op : zop) : Prop :=
  match op with
  | OInsert s o rs => key_ok (s, o) ∧ is_Some (slRandomLevel rs) ∧
      Z.of_nat (length zs) < 2 ^ 31 - 1
  | ODelete s o => key_ok (s, o)
  | OGetRank s o => key_ok (s, o) ∧ NoDup zs.*2 ∧
      (o ∈ zs.*2 → Exists (λ z, keq z (s, o) = true) zs)
  | OGetScoreRange s1 s2 => is_nan s1 = false ∧ is_nan s2 = false
  | OGetBackwardMember s | OGetForwardMember s => is_nan s = false
  | ODeleteByRank _ _ | OGetCount | OGetRankRange _ _ | OGetMemberByRank _ => True
  end.

Fixpoint zrun (sl : skiplist) (ops : list zop) : option (list zres * skiplist) :=
  match ops with
  | [] => Some ([], sl)
  | op :: ops =>
    '(r, sl) ← zstep sl op;
    '(rs, sl) ← zrun sl ops;
    Some (r :: rs, sl)
  end.

Fixpoint zspec_run (zs : list key) (ops : list zop) : list zres * list key :=
  match ops with
  | [] => ([], zs)
  | op :: ops =>
    let '(r, zs) := zspec zs op in
    let '(rs, zs) := zspec_run zs ops in
    (r :: rs, zs)
  end.

Fixpoint zops_ok (zs : list key) (ops : list zop) : Prop :=
  match ops with
  | [] => True
  | op :: ops => zop_ok zs op ∧ zops_ok (zspec zs op).2 ops
  end.

Lemma zrank_lookup k zs :
  match zrank k zs with
  | Some r => ∃ i z, zs !! i = Some z ∧ keq z k = true ∧ r = Z.of_nat (S i)
  | None => Forall (λ z, keq z k = false) zs
  end.
Proof.
  induction zs as [|y ys IH]; cbn [zrank]; [constructor|]. destruct (keq y k) eqn:E.
  - by exists 0%nat, y.
  - destruct (zrank k ys) as [r|]; cbn [fmap option_fmap option_map].
    + destruct IH as (i & z & Hi & Hz & ->). exists (S i), z.
      split; [done|]. split; [done|]. lia.
    + by constructor.
Qed.

Lemma zrank_spec sl zs s o :
  zrep sl zs → zop_ok zs (OGetRank s o) → _get_rank sl s o = Some (zrank (s, o) zs).
Proof.
  intros Hz (Hk & Hnd & Hin). destruct (get_rank_spec sl zs s o Hz Hk Hnd) as [H1 H2].
  pose proof (zrank_lookup (s, o) zs) as Hr. destruct (zrank (s, o) zs) as [r|].
  - destruct Hr as (i & z & Hi & Hzk & ->). by eapply H1.
  - apply H2. intros Ho. specialize (Hin Ho).
    apply Exists_exists in Hin as (z & Hz' & Hzk). rewrite Forall_forall in Hr.
    specialize (Hr _ Hz'). cbn in *. congruence.
Qed.

Lemma zstep_spec sl zs op :
  zrep sl zs → zop_ok zs op →
  ∃ sl', zstep sl op = Some ((zspec zs op).1, sl') ∧ zrep sl' (zspec zs op).2.
Proof.
  intros Hz Hok.
  destruct op as [s o rs|s o|a b| |s o|a b|s1 s2|r|s|s]; cbn [zop_ok zstep zspec] in *.
  - destruct Hok as (Hk & [lv Hlv] & Hlen).
    destruct (insert_spec sl zs Hz s o rs lv Hk Hlv Hlen) as (sl' & -> & Hz'). by exists sl'.
  - destruct (delete_spec sl zs Hz s o Hok) as (sl' & -> & Hz'). exists sl'.
    by destruct (zdelete (s, o) zs).
  - destruct (delete_by_rank_spec sl zs Hz a b) as (sl' & -> & Hz'). by exists sl'.
  - exists sl. by rewrite (count_spec sl zs Hz).
  - exists sl. by rewrite (zrank_spec sl zs) by done.
  - exists sl. by rewrite (get_rank_window_spec sl zs) by done.
  - exists sl. destruct Hok. by rewrite (get_score_range_spec sl zs) by done.
  - exists sl. by rewrite (get_member_by_rank_spec sl zs) by done.
  - exists sl. by rewrite (get_backward_member_spec sl zs) by done.
  - exists sl. by rewrite (get_forward_member_spec sl zs) by done.
Qed.

Lemma zrun_spec sl zs ops :
  zrep sl zs → zops_ok zs ops →
  ∃ sl', zrun sl ops = Some ((zspec_run zs ops).1, sl') ∧ zrep sl' (zspec_run zs ops).2.
Proof.
  revert sl zs. induction ops as [|op ops IH]; intros sl zs Hz Hok; [by exists sl|].
  destruct Hok as [Hop Hok]. cbn [zrun zspec_run].
  destruct (zstep_spec sl zs op Hz Hop) as (sl1 & -> & Hz1). cbn [mbind option_bind].
  destruct (zspec zs op) as [r zs1]. cbn [fst snd] in *.
  destruct (IH sl1 zs1 Hz1 Hok) as (sl2 & -> & Hz2). cbn [mbind option_bind].
  exists sl2. by destruct (zspec_run zs1 ops).
Qed.

(** C14: the skip list refines an ordered list of pairs of score
    and member. Whatever levels the random generator gives, any sequence of calls of
    the functions of lua-skiplist.c (insert, delete, delete_by_rank, get_count,
    get_rank, get_rank_range, get_score_range and the three searches of a member)
    that starts with a new skip list runs without a memory fault, an endless loop or
    a failed read of a link, gives the results that the list of the pairs sorted by
    score and member gives, and leaves a skip list that is sorted; releasing it
    frees every node. Scores are not NaN, members are below 2^31 bytes and there are
    fewer than 2^31 of them; get_rank is asked while no member is there twice, and with
    the score of the member. Ranks are unsigned 64-bit numbers and the size of a range
    is an int, in the list as in the code: a negative end does not count from the last
    member (rank_range_negative). Memory is assumed to be enough. *)
Theorem sorted_set_refines (ops : list zop) (Hok : zops_ok [] ops) :
  ∃ sl, zrun _new ops = Some ((zspec_run [] ops).1, sl) ∧
    zrep sl (zspec_run [] ops).2 ∧ _release sl = Some ∅.
Proof.
  destruct (zrun_spec _new [] ops new_spec Hok) as (sl & Hrun & Hz).
  exists sl. split; [done|]. split; [done|]. by eapply release_spec.
Qed.

(** A double with the value of a small natural number. *)
Definition dnat (n : positive) : double :=
  let e := Z.log2 (Z.pos n) in
  SpecFloat.S754_finite false (Z.to_pos (Z.pos n * 2 ^ (52 - e))) (e - 52).

Definition demo_ops : list zop :=
  [OInsert (dnat 3) [97] [0; 65535]; OInsert (dnat 1) [98] [65535];
   OInsert (dnat 3) [98; 99] [1; 16383; 16384]; OInsert (dnat 2) [100] [0; 0; 0; 40000];
   OGetCount; OGetRank (dnat 3) [97]; OGetRankRange 1 3; OGetRankRange 3 2;
   OGetScoreRange (dnat 2) (dnat 3); OGetScoreRange (dnat 3) (dnat 2);
   ODelete (dnat 3) [97]; ODelete (dnat 3) [97]; OGetMemberByRank 3;
   OGetBackwardMember (dnat 2); OGetForwardMember (dnat 1); ODeleteByRank 3 2].

Definition demo_results : list zres :=
  [RNone; RNone; RNone; RNone; RInt (Some 4); RInt (Some 3);
   RMembers [[98]; [100]; [97]]; RMembers [[97]; [100]];
   RMembers [[100]; [97]; [98; 99]]; RMembers [[98; 99]; [97]; [100]];
   RBool true; RBool false; RMember (Some [98; 99]);
   RMember (Some [100]); RMember (Some [98]); RRemoved 2 [[100]; [98; 99]]].

(** Checks the conditions of a concrete trace, operation by operation. *)
Ltac zops_steps :=
  repeat lazymatch goal with
  | |- zops_ok ?zs (?op :: ?ops) =>
    split; [|let zs' := eval vm_compute in (zspec zs op).2 in change (zops_ok zs' ops)]
  | |- zops_ok _ [] => exact I
  end.

Ltac zop_solve :=
  cbn [zop_ok];
  repeat lazymatch goal with
  | |- _ ∧ _ => split
  | |- key_ok _ => split
  | |- is_Some _ => eexists; vm_compute; reflexivity
  | |- NoDup _ => apply (bool_decide_unpack _); vm_compute; exact I
  | |- _ ∈ _ → Exists _ _ => intros _
  | |- Exists _ _ => first [apply Exists_cons_hd; vm_compute; reflexivity | apply Exists_cons_tl]
  | |- True => exact I
  | |- _ => vm_compute; first [reflexivity | congruence]
  end.

Lemma sorted_set_refines_witness :
  zops_ok [] demo_ops ∧
  ∃ sl, zrun _new demo_ops = Some (demo_results, sl) ∧
    zrep sl [(dnat 1, [98])] ∧ _release sl = Some ∅.
Proof.
  assert (zops_ok [] demo_ops) as H.
  { unfold demo_ops. zops_steps; zop_solve. }
  split; [exact H|]. apply (sorted_set_refines demo_ops H).
Defined.

(** ** What the comments promise and the code does not do *)

(** The rank is found by the member alone when the search ends on its node: the score
    that is asked for need not be the one of the member. *)
Lemma get_rank_other_score :
  (sl ← _insert _new (dnat 1) [97] [65535]; _get_rank sl (dnat 5) [97]) = Some (Some 1).
Proof. by vm_compute. Qed.

(** A negative rank is a huge one, and the size of the range is then negative: from the
    second member to -1 there is nothing. *)
Lemma rank_range_negative :
  (sl ← _insert _new (dnat 1) [97] [65535];
   sl ← _insert sl (dnat 5) [98] [65535]; _get_rank_range sl 2 (-1)) = Some [].
Proof. by vm_compute. Qed.

(** The score of the node that a search of a range gives. *)
Definition node_score (sl : skiplist) (node : option loc) : option double :=
  x ← node; nd ← sl_heap sl !! x; Some (score nd).

(** Between two scores of the list there is a range without an element, for which the
    searches give nodes that are not in the range. *)
Lemma first_in_range_outside :
  (sl ← _insert _new (dnat 1) [97] [65535];
   sl ← _insert sl (dnat 5) [98] [65535];
   a ← slFirstInRange sl (dnat 2) (dnat 3);
   b ← slLastInRange sl (dnat 2) (dnat 3);
   Some (node_score sl a, node_score sl b)) = Some (Some (dnat 5), Some (dnat 1)).
Proof. by vm_compute. Qed.
