(* ===== verification/Zset.v ===== *)
(** The sorted set of the game servers (src/framework/lib/lua-zset/zset.lua), the
    client of the skip list: a Lua table from members to scores next to a skip
    list.  The specification is one ordered list in which every member occurs once. *)
From Stdlib Require Import Sorting.Sorted.
From S2P Require Import Prelude Bytes SlKey Skiplist SkiplistRep SortedSet.

(** ** The methods *)















(** ** The specification *)













(** ** The calls *)













(** ** Queries *)




(** ** Traces *)







