(* ===== verification/Buffer.v ===== *)
(** * Buffers written by position

    A C buffer is the list of its bytes; a write outside it is [None]. *)
From S2P Require Import Prelude.
Local Open Scope Z_scope.

(** [memcpy], or consecutive stores, to position [pos] of a buffer. *)
Definition write_at (buf : list Z) (pos : Z) (bytes : list Z) : option (list Z) :=
  if (0 <=? pos) && (pos + Z.of_nat (length bytes) <=? Z.of_nat (length buf))
  then Some (take (Z.to_nat pos) buf ++ bytes ++ drop (Z.to_nat pos + length bytes) buf)
  else None.

Lemma write_at_spec buf pos bytes :
  0 ≤ pos → pos + Z.of_nat (length bytes) ≤ Z.of_nat (length buf) →
  ∃ buf', write_at buf pos bytes = Some buf' ∧ length buf' = length buf ∧
    buf' = take (Z.to_nat pos) buf ++ bytes ++ drop (Z.to_nat pos + length bytes) buf.
Proof.
  intros H0 H1. unfold write_at.
  assert ((0 <=? pos) && (pos + Z.of_nat (length bytes) <=? Z.of_nat (length buf)) = true) as -> by lia.
  eexists. split; [done|]. split; [|done]. rewrite !length_app, length_take, length_drop. lia.
Qed.

(** How a write of [bytes] at [pos] leaves the buffer, when there may be no room. *)
Definition written (buf : list Z) (pos : Z) (bytes buf' : list Z) : Prop :=
  length buf' = length buf ∧
  (pos + Z.of_nat (length bytes) ≤ Z.of_nat (length buf) →
   take (Z.to_nat pos + length bytes) buf' = take (Z.to_nat pos) buf ++ bytes).

Lemma written_nil buf pos : written buf pos [] buf.
Proof. split; [done|]. intros _. by rewrite Nat.add_0_r, app_nil_r. Qed.

Lemma written_app buf pos b1 buf1 b2 buf2 :
  0 ≤ pos → written buf pos b1 buf1 → written buf1 (pos + Z.of_nat (length b1)) b2 buf2 →
  written buf pos (b1 ++ b2) buf2.
Proof.
  intros Hp [Hl1 H1] [Hl2 H2]. split; [lia|]. rewrite length_app. intros Hl.
  replace (Z.to_nat pos + (length b1 + length b2))%nat with (Z.to_nat (pos + Z.of_nat (length b1)) + length b2)%nat by lia.
  rewrite H2 by lia. replace (Z.to_nat (pos + Z.of_nat (length b1))) with (Z.to_nat pos + length b1)%nat by lia.
  rewrite H1 by lia. by rewrite app_assoc.
Qed.

Lemma written_one buf pos b :
  0 ≤ pos → (pos < Z.of_nat (length buf)) → written buf pos [b] (<[Z.to_nat pos := b]> buf).
Proof.
  intros Hp Hl. split; [by rewrite length_insert|]. intros _. cbn [length].
  replace (Z.to_nat pos + 1)%nat with (S (Z.to_nat pos)) by lia.
  rewrite (take_S_r _ _ b) by (apply list_lookup_insert_eq; lia). by rewrite take_insert_ge by lia.
Qed.

Lemma written_full buf pos b bytes : Z.of_nat (length buf) ≤ pos → 0 ≤ pos → written buf pos (b :: bytes) buf.
Proof. intros. split; [done|]. cbn [length]. lia. Qed.


(** Writing at the end of what has been written. *)
Lemma write_append buf out bytes :
  take (length out) buf = out → (length out + length bytes ≤ length buf)%nat →
  ∃ buf', write_at buf (Z.of_nat (length out)) bytes = Some buf' ∧ length buf' = length buf ∧
    take (length (out ++ bytes)) buf' = out ++ bytes.
Proof.
  intros Ht Hl. destruct (write_at_spec buf (Z.of_nat (length out)) bytes) as (buf' & E & Hl' & Eb); [lia|lia|].
  exists buf'. split; [done|]. split; [done|]. rewrite Eb, Nat2Z.id, Ht, app_assoc. apply take_app_length.
Qed.

Lemma aset_append (buf out : list Z) (b : Z) :
  take (length out) buf = out → (length out < length buf)%nat →
  ∃ buf', aset buf (Z.of_nat (length out)) b = Some buf' ∧ length buf' = length buf ∧
    take (length (out ++ [b])) buf' = out ++ [b].
Proof.
  intros Ht Hl. exists (<[length out := b]> buf). rewrite aset_Some, Nat2Z.id by lia. split; [done|].
  rewrite length_insert. split; [done|]. rewrite length_app. cbn [length]. rewrite Nat.add_1_r.
  rewrite (take_S_r _ _ b) by (apply list_lookup_insert_eq; lia). by rewrite take_insert_ge, Ht by lia.
Qed.
