(* ===== verification/SprotoPack.v ===== *)
(** * Zero packing: lualib-src/sproto/sproto.c, [sproto_pack] and [sproto_unpack]

    Messages are compressed in segments of 8 bytes: a header byte with a bit for
    each non-zero byte, then these bytes; runs of segments with few zeros are
    stored as they are behind [0xff] and their count less one.  A C buffer is a
    list with a position; writing outside it is [None]. *)
From S2P Require Import Prelude Buffer.
Local Open Scope Z_scope.

(** ** sproto_pack *)

(** The loop of [pack_seg]: bit [i] onwards, writing at [pos] while [sz] lasts. *)
Fixpoint pack_seg_loop (seg : list Z) (i : Z) (buf : list Z) (pos sz header notzero : Z)
    : option (Z * Z * list Z) :=
  match seg with
  | [] => Some (header, notzero, buf)
  | b :: seg =>
      if bool_decide (b ≠ 0) then
        let header := Z.lor header (Z.shiftl 1 i) in
        if 0 <? sz then
          buf ← aset buf pos b; pack_seg_loop seg (i + 1) buf (pos + 1) (sz - 1) header (notzero + 1)
        else pack_seg_loop seg (i + 1) buf pos sz header (notzero + 1)
      else pack_seg_loop seg (i + 1) buf pos sz header notzero
  end.

Definition pack_seg (seg : list Z) (buf : list Z) (pos sz n : Z) : option (Z * list Z) :=
  let sz := sz - 1 in
  '(header, notzero, buf) ← pack_seg_loop seg 0 buf (pos + 1) sz 0 0;
  let notzero := if ((notzero =? 7) || (notzero =? 6)) && (0 <? n) then 8 else notzero in
  if notzero =? 8 then Some (if 0 <? n then 8 else 10, buf)
  else
    buf ← (if 0 <=? sz then aset buf pos header else Some buf);
    Some (notzero + 1, buf).

(** [write_ff]; [s] is the offset of the run in the source. *)
Definition write_ff (src : list Z) (s : Z) (buf : list Z) (des n : Z) : option (list Z) :=
  buf ← write_at buf des [255; wrap 8 (n - 1)];
  if s + n * 8 <=? Z.of_nat (length src) then
    write_at buf (des + 2) (take (Z.to_nat (n * 8)) (drop (Z.to_nat s) src))
  else
    let sz := Z.of_nat (length src) - s in
    write_at buf (des + 2) (drop (Z.to_nat s) src ++ replicate (Z.to_nat (n * 8 - sz)) 0).

(** The variables of [sproto_pack].  [ps_ff_src] is [None] when [ff_srcstart]
    points to the padded copy of the last segment. *)
Record pack_state := mkPs {
  ps_buf : list Z; ps_pos : Z; ps_bufsz : Z; ps_size : Z;
  ps_ff_src : option Z; ps_ff_des : Z; ps_ff_n : Z }.

Definition flush (src : list Z) (st : pack_state) (bufsz n : Z) (buf : list Z) : option (list Z) :=
  if 0 <=? bufsz then s ← ps_ff_src st; write_ff src s buf (ps_ff_des st) n else Some buf.

(** The segment at [i], padded with zeros at the end of the source. *)
Definition segment (src : list Z) (i : Z) : list Z :=
  let padding := i + 8 - Z.of_nat (length src) in
  if 0 <? padding then take (Z.to_nat (8 - padding)) (drop (Z.to_nat i) src) ++ replicate (Z.to_nat padding) 0
  else take 8 (drop (Z.to_nat i) src).

Definition pack_iter (src : list Z) (i : Z) (st : pack_state) : option pack_state :=
  let padding := i + 8 - Z.of_nat (length src) in
  '(n, buf) ← pack_seg (segment src i) (ps_buf st) (ps_pos st) (ps_bufsz st) (ps_ff_n st);
  let bufsz := ps_bufsz st - n in
  let next := λ buf ff_src ff_des ff_n, mkPs buf (ps_pos st + n) bufsz (ps_size st + n) ff_src ff_des ff_n in
  if n =? 10 then Some (next buf (if 0 <? padding then None else Some i) (ps_pos st) 1)
  else if (n =? 8) && (0 <? ps_ff_n st) then
    if ps_ff_n st + 1 =? 256 then
      buf ← flush src st bufsz 256 buf; Some (next buf (ps_ff_src st) (ps_ff_des st) 0)
    else Some (next buf (ps_ff_src st) (ps_ff_des st) (ps_ff_n st + 1))
  else if 0 <? ps_ff_n st then
    buf ← flush src st bufsz (ps_ff_n st) buf; Some (next buf (ps_ff_src st) (ps_ff_des st) 0)
  else Some (next buf (ps_ff_src st) (ps_ff_des st) 0).

Fixpoint pack_loop (fuel : nat) (src : list Z) (i : Z) (st : pack_state) : option pack_state :=
  match fuel with
  | O => None
  | S fuel =>
      if i <? Z.of_nat (length src) then st ← pack_iter src i st; pack_loop fuel src (i + 8) st
      else Some st
  end.

(** The size the packed message has, and the buffer; it is complete when the
    size is at most [bufsz]. *)
Definition sproto_pack (src buffer : list Z) : option (Z * list Z) :=
  st ← pack_loop (S (length src)) src 0 (mkPs buffer 0 (Z.of_nat (length buffer)) 0 None 0 0);
  buf ← (if (0 <=? ps_bufsz st) && (0 <? ps_ff_n st)
         then flush src st (ps_bufsz st) (ps_ff_n st) (ps_buf st) else Some (ps_buf st));
  Some (ps_size st, buf).

(** ** sproto_unpack *)

(** Bits [i] to 7 of a header: [inl] when the source ends early. *)
Fixpoint unpack_seg (k : nat) (i header : Z) (src buf : list Z) (pos bufsz size : Z)
    : option (list Z + (list Z * list Z * Z * Z * Z)) :=
  match k with
  | O => Some (inr (src, buf, pos, bufsz, size))
  | S k =>
      if Z.land (Z.shiftr header i) 1 =? 1 then
        match src with
        | [] => Some (inl buf)
        | b :: src =>
            if 0 <? bufsz then
              buf ← aset buf pos b; unpack_seg k (i + 1) header src buf (pos + 1) (bufsz - 1) (size + 1)
            else unpack_seg k (i + 1) header src buf pos bufsz (size + 1)
        end
      else if 0 <? bufsz then
        buf ← aset buf pos 0; unpack_seg k (i + 1) header src buf (pos + 1) (bufsz - 1) (size + 1)
      else unpack_seg k (i + 1) header src buf pos bufsz (size + 1)
  end.

(** The loop of [sproto_unpack]; every round reads a byte.  -1 is an error. *)
Fixpoint unpack_loop (fuel : nat) (src buf : list Z) (pos bufsz size : Z) : option (Z * list Z) :=
  match fuel with
  | O => None
  | S fuel =>
      match src with
      | [] => Some (size, buf)
      | header :: src =>
          if header =? 255 then
            match src with
            | [] => Some (-1, buf)
            | c :: src' =>
                let n := (c + 1) * 8 in
                if Z.of_nat (length src) <? n + 1 then Some (-1, buf)
                else
                  buf ← (if n <=? bufsz then write_at buf pos (take (Z.to_nat n) src') else Some buf);
                  unpack_loop fuel (drop (Z.to_nat n) src') buf (pos + n) (bufsz - n) (size + n)
            end
          else
            r ← unpack_seg 8 0 header src buf pos bufsz size;
            match r with
            | inl buf => Some (-1, buf)
            | inr (src, buf, pos, bufsz, size) => unpack_loop fuel src buf pos bufsz size
            end
      end
  end.

Definition sproto_unpack (src buffer : list Z) : option (Z * list Z) :=
  unpack_loop (S (length src)) src buffer 0 (Z.of_nat (length buffer)) 0.

(** ** What packing means *)

Definition nonzero (seg : list Z) : list Z := filter (λ b, b ≠ 0) seg.

Fixpoint seg_header (seg : list Z) : Z :=
  match seg with
  | [] => 0
  | b :: seg => (if bool_decide (b ≠ 0) then 1 else 0) + 2 * seg_header seg
  end.

(** A run of segments stored as they are. *)
Definition emit (run : list (list Z)) : list Z :=
  match run with [] => [] | _ => 255 :: (Z.of_nat (length run) - 1) :: concat run end.

(** [run] is the run being collected. *)
Fixpoint pack_spec (run segs : list (list Z)) : list Z :=
  match segs with
  | [] => emit run
  | seg :: segs =>
      let nz := length (nonzero seg) in
      if decide (nz = 8 ∨ run ≠ [] ∧ 6 ≤ nz)%nat then
        if decide (length run = 255%nat) then emit (run ++ [seg]) ++ pack_spec [] segs
        else pack_spec (run ++ [seg]) segs
      else emit run ++ (seg_header seg :: nonzero seg) ++ pack_spec [] segs
  end.

Definition segments (src : list Z) : list (list Z) :=
  map (λ k : nat, segment src (8 * Z.of_nat k)) (seq 0 ((length src + 7) / 8)).

Lemma seg_header_range seg : 0 ≤ seg_header seg < 2 ^ Z.of_nat (length seg).
Proof.
  induction seg as [|b seg IH]; [done|]. cbn [seg_header length].
  rewrite Nat2Z.inj_succ, Z.pow_succ_r by lia. case_bool_decide; lia.
Qed.

Lemma pack_seg_loop_spec seg i buf pos sz header nz :
  0 ≤ i → 0 ≤ header < 2 ^ i → 0 ≤ pos → (0 < sz → pos + sz = Z.of_nat (length buf)) →
  ∃ buf', pack_seg_loop seg i buf pos sz header nz =
      Some (header + seg_header seg * 2 ^ i, nz + Z.of_nat (length (nonzero seg)), buf') ∧
    length buf' = length buf ∧ take (Z.to_nat pos) buf' = take (Z.to_nat pos) buf ∧
    (Z.of_nat (length (nonzero seg)) ≤ sz →
     take (Z.to_nat pos + length (nonzero seg)) buf' = take (Z.to_nat pos) buf ++ nonzero seg).
Proof.
  revert i buf pos sz header nz. induction seg as [|b seg IH]; intros i buf pos sz header nz Hi Hh Hp Hsz.
  { exists buf. cbn [pack_seg_loop seg_header]. change (nonzero []) with (@nil Z). cbn [length].
    split; [do 3 f_equal; lia|]. split; [done|]. split; [done|]. intros _.
    by rewrite Nat.add_0_r, app_nil_r. }
  cbn [pack_seg_loop seg_header]. unfold nonzero. rewrite filter_cons. fold (nonzero seg).
  assert (2 ^ (i + 1) = 2 * 2 ^ i) as E2 by (rewrite Z.pow_add_r by lia; lia).
  case_bool_decide as Hb.
  - rewrite decide_True by done. cbn [length].
    assert (Z.lor header (Z.shiftl 1 i) = header + 2 ^ i) as ->.
    { rewrite Z.shiftl_mul_pow2 by lia. rewrite lor_add by lia. lia. }
    destruct (Z.ltb_spec 0 sz) as [Hlt|Hge].
    + rewrite aset_Some by lia. cbn [mbind option_bind].
      destruct (IH (i + 1) (<[Z.to_nat pos := b]> buf) (pos + 1) (sz - 1) (header + 2 ^ i) (nz + 1))
        as (buf' & -> & Hl & Ht & Hw); try lia; [rewrite length_insert; lia|].
      rewrite length_insert in Hl. exists buf'. rewrite E2. split; [do 3 f_equal; lia|]. split; [done|].
      replace (Z.to_nat (pos + 1)) with (S (Z.to_nat pos)) in * by lia.
      assert (take (S (Z.to_nat pos)) (<[Z.to_nat pos := b]> buf) = take (Z.to_nat pos) buf ++ [b]) as Hins.
      { rewrite (take_S_r _ _ b) by (apply list_lookup_insert_eq; lia). by rewrite take_insert_ge by lia. }
      split.
      * apply (f_equal (take (Z.to_nat pos))) in Ht. rewrite !take_take, Nat.min_l in Ht by lia.
        rewrite Ht. by rewrite take_insert_ge by lia.
      * intros Hn. replace (Z.to_nat pos + S (length (nonzero seg)))%nat with (S (Z.to_nat pos) + length (nonzero seg))%nat by lia.
        rewrite Hw by lia. rewrite Hins, <- app_assoc. done.
    + destruct (IH (i + 1) buf pos sz (header + 2 ^ i) (nz + 1)) as (buf' & -> & Hl & Ht & _); try lia.
      exists buf'. rewrite E2. split; [do 3 f_equal; lia|]. split; [done|]. split; [done|]. lia.
  - rewrite decide_False by tauto.
    destruct (IH (i + 1) buf pos sz header nz) as (buf' & -> & Hl & Ht & Hw); try lia.
    exists buf'. rewrite E2. split; [do 3 f_equal; lia|]. done.
Qed.

Definition full (seg : list Z) (n : Z) : Prop :=
  length (nonzero seg) = 8%nat ∨ 0 < n ∧ (6 ≤ length (nonzero seg))%nat.

#[export] Instance full_dec seg n : Decision (full seg n).
Proof. unfold full. apply _. Defined.

Lemma length_nonzero seg : (length (nonzero seg) ≤ length seg)%nat.
Proof. apply length_filter. Qed.

Lemma pack_seg_spec seg buf pos sz n :
  length seg = 8%nat → 0 ≤ n → 0 ≤ pos → pos + sz = Z.of_nat (length buf) →
  ∃ buf', pack_seg seg buf pos sz n =
      Some (if decide (full seg n) then if 0 <? n then 8 else 10 else Z.of_nat (length (nonzero seg)) + 1, buf') ∧
    length buf' = length buf ∧ take (Z.to_nat pos) buf' = take (Z.to_nat pos) buf ∧
    (¬ full seg n → Z.of_nat (length (nonzero seg)) + 1 ≤ sz →
     take (Z.to_nat pos + S (length (nonzero seg))) buf' = take (Z.to_nat pos) buf ++ seg_header seg :: nonzero seg).
Proof.
  intros Hseg Hn Hp Hsz. unfold pack_seg. pose proof (length_nonzero seg) as Hle. rewrite Hseg in Hle.
  destruct (pack_seg_loop_spec seg 0 buf (pos + 1) (sz - 1) 0 0) as (buf1 & -> & Hl & Ht & Hw); try lia.
  cbn [mbind option_bind]. rewrite !Z.add_0_l, Z.mul_1_r.
  set (nz := length (nonzero seg)) in *.
  replace (Z.to_nat (pos + 1)) with (S (Z.to_nat pos)) in * by lia.
  assert (take (Z.to_nat pos) buf1 = take (Z.to_nat pos) buf) as Ht'.
  { apply (f_equal (take (Z.to_nat pos))) in Ht. by rewrite !take_take, Nat.min_l in Ht by lia. }
  set (nz' := if ((Z.of_nat nz =? 7) || (Z.of_nat nz =? 6)) && (0 <? n) then 8 else Z.of_nat nz).
  destruct (decide (full seg n)) as [Hf|Hf].
  - assert (nz' = 8) as ->.
    { subst nz'. unfold full in Hf. fold nz in Hf. destruct (_ && _) eqn:E; lia. }
    rewrite Z.eqb_refl. exists buf1. done.
  - assert (nz' = Z.of_nat nz ∧ nz ≠ 8%nat) as [-> H8].
    { subst nz'. unfold full in Hf. fold nz in Hf. destruct (_ && _) eqn:E; lia. }
    destruct (Z.eqb_spec (Z.of_nat nz) 8); [lia|]. destruct (Z.leb_spec 0 (sz - 1)) as [H1|H1].
    + rewrite aset_Some by lia. cbn [mbind option_bind]. eexists. split; [done|].
      rewrite length_insert. split; [done|]. rewrite take_insert_ge by lia. split; [done|]. intros _ Hs.
      replace (Z.to_nat pos + S nz)%nat with (S (Z.to_nat pos) + nz)%nat by lia.
      rewrite take_insert_lt by lia. rewrite Hw by lia.
      destruct (lookup_lt_is_Some_2 buf (Z.to_nat pos)) as [x Hx]; [lia|].
      rewrite (take_S_r _ _ x Hx), <- app_assoc. rewrite insert_app_r_alt by (rewrite length_take; lia).
      rewrite length_take, Nat.min_l, Nat.sub_diag by lia. done.
    + exists buf1. cbn [mbind option_bind]. split; [done|]. split; [done|]. split; [done|]. lia.
Qed.

(** ** Segments of the source *)

Definition nsegs (src : list Z) : nat := (length src + 7) / 8.

(** The source, padded to whole segments. *)
Definition padded (src : list Z) : list Z := src ++ replicate (8 * nsegs src - length src) 0.

Lemma nsegs_range src : (length src ≤ 8 * nsegs src < length src + 8)%nat.
Proof.
  unfold nsegs. pose proof (Nat.div_mod (length src + 7) 8 ltac:(lia)).
  pose proof (Nat.mod_upper_bound (length src + 7) 8 ltac:(lia)). lia.
Qed.

Lemma length_padded src : length (padded src) = (8 * nsegs src)%nat.
Proof. unfold padded. rewrite length_app, length_replicate. pose proof (nsegs_range src). lia. Qed.

Lemma segment_padded src k :
  (k < nsegs src)%nat → segment src (8 * Z.of_nat k) = take 8 (drop (8 * k) (padded src)).
Proof.
  intros Hk. pose proof (nsegs_range src). unfold segment, padded.
  replace (Z.to_nat (8 * Z.of_nat k)) with (8 * k)%nat by lia.
  rewrite drop_app_le by lia.
  destruct (Z.ltb_spec 0 (8 * Z.of_nat k + 8 - Z.of_nat (length src))).
  - rewrite take_app_ge by (rewrite length_drop; lia). rewrite length_drop.
    rewrite (take_ge (drop (8 * k) src)) by (rewrite length_drop; lia). f_equal.
    rewrite take_replicate. f_equal. lia.
  - rewrite take_app_le by (rewrite length_drop; lia). done.
Qed.

Lemma length_segment src k : (k < nsegs src)%nat → length (segment src (8 * Z.of_nat k)) = 8%nat.
Proof.
  intros Hk. rewrite segment_padded by done. rewrite length_take, length_drop, length_padded. lia.
Qed.

(** [n] segments from the [k]-th. *)
Definition run_at (src : list Z) (k n : nat) : list (list Z) :=
  map (λ k : nat, segment src (8 * Z.of_nat k)) (seq k n).

Lemma concat_run src k n : (k + n ≤ nsegs src)%nat → concat (run_at src k n) = take (8 * n) (drop (8 * k) (padded src)).
Proof.
  revert k. induction n as [|n IH]; intros k Hk; [done|]. unfold run_at. cbn [seq map concat].
  fold (run_at src (S k) n). rewrite IH by lia. rewrite segment_padded by lia.
  replace (8 * S n)%nat with (8 + 8 * n)%nat by lia.
  rewrite <- (take_drop 8 (take (8 + 8 * n) _)) at 1. rewrite take_take, Nat.min_l by lia. f_equal.
  rewrite <- take_drop_commute, drop_drop. do 2 f_equal. lia.
Qed.

Lemma run_snoc src k n : run_at src k (S n) = run_at src k n ++ [segment src (8 * Z.of_nat (k + n))].
Proof. unfold run_at. by rewrite seq_S, map_app. Qed.

Lemma write_ff_spec src k n buf des :
  (k + n ≤ nsegs src)%nat → (0 < n ≤ 256)%nat → 0 ≤ des →
  des + 2 + 8 * Z.of_nat n ≤ Z.of_nat (length buf) →
  ∃ buf', write_ff src (8 * Z.of_nat k) buf des (Z.of_nat n) = Some buf' ∧ length buf' = length buf ∧
    buf' = take (Z.to_nat des) buf ++ emit (run_at src k n) ++ drop (Z.to_nat des + (2 + 8 * n)) buf.
Proof.
  intros Hk Hn Hd Hl. pose proof (nsegs_range src). unfold write_ff.
  destruct (write_at_spec buf des [255; wrap 8 (Z.of_nat n - 1)]) as (b1 & -> & Hl1 & E1); [lia|cbn; lia|].
  cbn [mbind option_bind].
  set (data := if 8 * Z.of_nat k + Z.of_nat n * 8 <=? Z.of_nat (length src) then _ else _).
  assert (length (concat (run_at src k n)) = (8 * n)%nat) as Hlen
    by (rewrite concat_run, length_take, length_drop, length_padded by done; lia).
  assert (data = write_at b1 (des + 2) (concat (run_at src k n))) as ->.
  { subst data. rewrite concat_run by done. unfold padded. rewrite drop_app_le by lia.
    replace (Z.to_nat (8 * Z.of_nat k)) with (8 * k)%nat by lia.
    destruct (Z.leb_spec (8 * Z.of_nat k + Z.of_nat n * 8) (Z.of_nat (length src))).
    - rewrite take_app_le by (rewrite length_drop; lia). do 2 f_equal. lia.
    - rewrite take_app_ge by (rewrite length_drop; lia). rewrite length_drop, take_replicate.
      f_equal. do 2 f_equal. lia. }
  destruct (write_at_spec b1 (des + 2) (concat (run_at src k n))) as (b2 & -> & Hl2 & E2); [lia|lia|].
  exists b2. split; [done|]. split; [lia|]. rewrite E2.
  assert (emit (run_at src k n) = 255 :: (Z.of_nat n - 1) :: concat (run_at src k n)) as ->.
  { unfold emit. unfold run_at at 1. destruct n as [|n]; [lia|]. cbn [seq map].
    do 3 f_equal. unfold run_at. rewrite length_map, length_seq. done. }
  rewrite E1. rewrite wrap_small by (change (2 ^ 8) with 256; lia). rewrite Hlen. cbn [length].
  replace (Z.to_nat (des + 2)) with (Z.to_nat des + 2)%nat by lia.
  rewrite take_app_ge by (rewrite length_take; lia). rewrite length_take, Nat.min_l by lia.
  replace (Z.to_nat des + 2 - Z.to_nat des)%nat with 2%nat by lia.
  rewrite take_app_le by (cbn; lia). cbn [take]. rewrite <- app_assoc. cbn [app]. do 4 f_equal.
  rewrite drop_app_ge by (rewrite length_take; lia). rewrite length_take, Nat.min_l by lia.
  replace (Z.to_nat des + 2 + 8 * n - Z.to_nat des)%nat with (S (S (8 * n))) by lia.
  cbn [drop]. rewrite drop_drop. f_equal. lia.
Qed.

(** ** The loop of sproto_pack *)

Lemma length_run_at src k n : length (run_at src k n) = n.
Proof. unfold run_at. by rewrite length_map, length_seq. Qed.

Lemma length_emit src k n :
  (k + n ≤ nsegs src)%nat → (0 < n)%nat → length (emit (run_at src k n)) = (2 + 8 * n)%nat.
Proof.
  intros Hk Hn. unfold emit. destruct (run_at src k n) as [|x l] eqn:E.
  - apply (f_equal length) in E. rewrite length_run_at in E. cbn in E. lia.
  - rewrite <- E. cbn [length]. rewrite concat_run, length_take, length_drop, length_padded by done. lia.
Qed.

Lemma filter_zeros m : filter (λ b : Z, b ≠ 0) (replicate m 0) = [].
Proof. induction m as [|m IH]; [done|]. cbn [replicate]. rewrite filter_cons, decide_False; [done|]. tauto. Qed.

Lemma run_at_ne src k n : run_at src k n ≠ [] ↔ n ≠ 0%nat.
Proof.
  pose proof (length_run_at src k n) as E. destruct (run_at src k n); cbn in E; split; intros; congruence || lia.
Qed.

(** The padded segment has a zero, so a run never starts at it. *)
Lemma nonzero_padding src k :
  (k < nsegs src)%nat → length (nonzero (segment src (8 * Z.of_nat k))) = 8%nat →
  8 * Z.of_nat k + 8 ≤ Z.of_nat (length src).
Proof.
  intros Hk. pose proof (nsegs_range src). unfold segment, nonzero.
  destruct (Z.ltb_spec 0 (8 * Z.of_nat k + 8 - Z.of_nat (length src))) as [Hp|Hp]; [|lia].
  rewrite filter_app, length_app. intros E.
  rewrite filter_zeros in E. cbn [length] in E.
  pose proof (length_filter (λ b : Z, b ≠ 0)
    (take (Z.to_nat (8 - (8 * Z.of_nat k + 8 - Z.of_nat (length src)))) (drop (Z.to_nat (8 * Z.of_nat k)) src))) as Hf.
  rewrite length_take, length_drop in Hf. lia.
Qed.

Record inv (src : list Z) (k : nat) (out : list Z) (n : nat) (st : pack_state) : Prop := {
  inv_n : (n ≤ k ∧ n ≤ 255)%nat;
  inv_bufsz : ps_pos st + ps_bufsz st = Z.of_nat (length (ps_buf st));
  inv_size : ps_size st = ps_pos st;
  inv_pos : ps_pos st = Z.of_nat (length out + if decide (n = 0%nat) then 0 else 2 + 8 * n);
  inv_ffn : ps_ff_n st = Z.of_nat n;
  inv_ff : n ≠ 0%nat → ps_ff_src st = Some (8 * Z.of_nat (k - n)) ∧ ps_ff_des st = Z.of_nat (length out);
  inv_out : (length out ≤ length (ps_buf st))%nat → take (length out) (ps_buf st) = out }.

(** [flush] of a run of [n] segments ending before segment [k]. *)
Lemma flush_spec src k n out st bufsz buf (m : nat) :
  (k + n ≤ nsegs src)%nat → (0 < n ≤ 256)%nat →
  ps_ff_src st = Some (8 * Z.of_nat k) → ps_ff_des st = Z.of_nat (length out) →
  bufsz = Z.of_nat (length buf) - Z.of_nat (length out + (2 + 8 * n) + m) →
  (length out ≤ length buf → take (length out) buf = out)%nat →
  ∃ buf', flush src st bufsz (Z.of_nat n) buf = Some buf' ∧ length buf' = length buf ∧
    (0 ≤ bufsz → take (length out + (2 + 8 * n) + m) buf' =
       out ++ emit (run_at src k n) ++ take m (drop (length out + (2 + 8 * n)) buf)).
Proof.
  intros Hk Hn Hs Hd Hb Ho. unfold flush. rewrite Hs, Hd.
  destruct (Z.leb_spec 0 bufsz) as [H0|H0]; [|exists buf; split; [done|]; split; [done|lia]].
  cbn [mbind option_bind].
  destruct (write_ff_spec src k n buf (Z.of_nat (length out))) as (buf' & -> & Hl & E); try lia.
  exists buf'. split; [done|]. split; [done|]. intros _. rewrite E, Nat2Z.id, Ho by lia.
  rewrite <- Nat.add_assoc, take_app_add. f_equal.
  rewrite <- (length_emit src k n) by lia. rewrite take_app_add. done.
Qed.

(** One segment: what is appended to the output, and the length of the run. *)
Lemma pack_iter_spec src k out n st :
  (k < nsegs src)%nat → inv src k out n st →
  ∃ st' out' n', pack_iter src (8 * Z.of_nat k) st = Some st' ∧
    length (ps_buf st') = length (ps_buf st) ∧ inv src (S k) out' n' st' ∧
    ∀ segs, out' ++ pack_spec (run_at src (S k - n') n') segs =
            out ++ pack_spec (run_at src (k - n) n) (segment src (8 * Z.of_nat k) :: segs).
Proof.
  intros Hk [[Hnk Hn] Hb Hs Hp Hf Hff Ho]. set (seg := segment src (8 * Z.of_nat k)).
  assert (length seg = 8%nat) as Hseg by (by apply length_segment).
  destruct (pack_seg_spec seg (ps_buf st) (ps_pos st) (ps_bufsz st) (ps_ff_n st))
    as (buf1 & E1 & Hl1 & Ht1 & Hw1); [done|lia|lia|done|].
  unfold pack_iter. fold seg. rewrite E1. cbn [mbind option_bind]. clear E1.
  assert (run_at src (k - n) n ++ [seg] = run_at src (k - n) (S n)) as Hsnoc.
  { rewrite run_snoc. replace (k - n + n)%nat with k by lia. done. }
  assert (length out ≤ length buf1 → take (length out) buf1 = out)%nat as Ho1.
  { intros Hlo. transitivity (take (length out) (ps_buf st)); [|apply Ho; lia].
    apply (f_equal (take (length out))) in Ht1. by rewrite !take_take, Nat.min_l in Ht1 by lia. }
  pose proof (length_nonzero seg) as Hnz. rewrite Hseg in Hnz.
  pose proof (run_at_ne src (k - n) n) as Hne. rewrite Hf in *.
  assert (Hsp : ∀ segs, pack_spec (run_at src (k - n) n) (seg :: segs) =
    if decide (full seg (Z.of_nat n)) then
      if decide (n = 255%nat) then emit (run_at src (k - n) (S n)) ++ pack_spec [] segs
      else pack_spec (run_at src (k - n) (S n)) segs
    else emit (run_at src (k - n) n) ++ (seg_header seg :: nonzero seg) ++ pack_spec [] segs).
  { intros segs. cbn [pack_spec]. rewrite length_run_at, Hsnoc. unfold full.
    destruct (decide (_ ∨ _)), (decide (_ ∨ _)); try done; exfalso; rewrite Hne in *; lia. }
  destruct (decide (full seg (Z.of_nat n))) as [F|F].
  - destruct (Z.ltb_spec 0 (Z.of_nat n)) as [Hn0|Hn0]; cbn [Z.eqb Pos.eqb andb].
    + (* the run grows *)
      destruct (Z.eqb_spec (Z.of_nat n + 1) 256) as [H256|H256].
      * destruct (Hff ltac:(lia)) as [Hs1 Hd1]. rewrite decide_False in Hp by lia.
        destruct (flush_spec src (k - n) (S n) out st (ps_bufsz st - 8) buf1 0) as (buf2 & Ef & Hl2 & Ht2); try done; try lia.
        rewrite (ltac:(lia) : 256 = Z.of_nat (S n)), Ef. cbn [mbind option_bind].
        eexists _, (out ++ emit (run_at src (k - n) (S n))), 0%nat. split; [done|].
        pose proof (length_emit src (k - n) (S n) ltac:(lia) ltac:(lia)) as Hle.
        split; [cbn; lia|]. split.
        { constructor; cbn [ps_buf ps_pos ps_bufsz ps_size ps_ff_src ps_ff_des ps_ff_n]; try lia.
          - rewrite length_app, Hle, decide_True by done. lia.
          - rewrite length_app. intros Hlo. rewrite Hle. rewrite Nat.add_0_r in Ht2.
            rewrite Ht2 by lia. by rewrite take_0, app_nil_r. }
        intros segs. rewrite Hsp, decide_True by lia. by rewrite <- app_assoc.
      * destruct (Hff ltac:(lia)) as [Hs1 Hd1]. rewrite decide_False in Hp by lia.
        eexists _, out, (S n). split; [done|]. split; [done|]. split.
        { constructor; cbn [ps_buf ps_pos ps_bufsz ps_size ps_ff_src ps_ff_des ps_ff_n]; try lia.
          - rewrite decide_False by lia. lia.
          - intros _. by replace (S k - S n)%nat with (k - n)%nat by lia.
          - done. }
        intros segs. rewrite Hsp, decide_False by lia. by replace (S k - S n)%nat with (k - n)%nat by lia.
    + (* a run starts *)
      assert (n = 0%nat) as -> by lia. destruct F as [F|F]; [|lia].
      rewrite decide_True in Hp by done.
      assert (0 <? 8 * Z.of_nat k + 8 - Z.of_nat (length src) = false) as ->.
      { pose proof (nonzero_padding src k Hk F). lia. }
      eexists _, out, 1%nat. split; [done|]. split; [done|]. split.
      { constructor; cbn [ps_buf ps_pos ps_bufsz ps_size ps_ff_src ps_ff_des ps_ff_n]; try lia.
        - rewrite decide_False by lia. lia.
        - intros _. split; [do 2 f_equal; lia|lia].
        - done. }
      intros segs. rewrite Hsp, decide_False by lia. rewrite Nat.sub_0_r.
      by replace (S k - 1)%nat with k by lia.
  - (* the run ends *)
    assert (length (nonzero seg) ≤ 7 ∧ (0 < n → length (nonzero seg) ≤ 5))%nat as [Hz1 Hz2].
    { unfold full in F. lia. }
    destruct (Z.eqb_spec (Z.of_nat (length (nonzero seg)) + 1) 10); [lia|].
    set (m := S (length (nonzero seg))) in *.
    assert ((Z.of_nat (length (nonzero seg)) + 1 =? 8) && (0 <? Z.of_nat n) = false) as -> by lia.
    destruct (Z.ltb_spec 0 (Z.of_nat n)) as [Hn0|Hn0].
    + destruct (Hff ltac:(lia)) as [Hs1 Hd1]. rewrite decide_False in Hp by lia.
      destruct (flush_spec src (k - n) n out st (ps_bufsz st - (Z.of_nat (length (nonzero seg)) + 1)) buf1 m)
        as (buf2 & -> & Hl2 & Ht2); try done; try lia.
      cbn [mbind option_bind].
      eexists _, (out ++ emit (run_at src (k - n) n) ++ seg_header seg :: nonzero seg), 0%nat. split; [done|].
      pose proof (length_emit src (k - n) n ltac:(lia) ltac:(lia)) as Hle.
      split; [cbn; lia|]. split.
      { constructor; cbn [ps_buf ps_pos ps_bufsz ps_size ps_ff_src ps_ff_des ps_ff_n]; try lia.
        - rewrite !length_app, Hle, decide_True by done. cbn [length]. lia.
        - rewrite !length_app, Hle. cbn [length]. fold m. intros Hlo. rewrite Nat.add_assoc, Ht2 by lia.
          do 2 f_equal. specialize (Hw1 F ltac:(lia)).
          apply (f_equal (drop (Z.to_nat (ps_pos st)))) in Hw1.
          rewrite drop_app_length' in Hw1 by (rewrite length_take; lia).
          rewrite <- Hw1. fold m. rewrite <- take_drop_commute. f_equal. f_equal. lia. }
      intros segs. rewrite Hsp. by rewrite <- !app_assoc.
    + assert (n = 0%nat) as -> by lia. rewrite decide_True in Hp by done.
      eexists _, (out ++ seg_header seg :: nonzero seg), 0%nat. split; [done|].
      split; [done|]. split.
      { constructor; cbn [ps_buf ps_pos ps_bufsz ps_size ps_ff_src ps_ff_des ps_ff_n]; try lia.
        - rewrite length_app, decide_True by done. cbn [length]. lia.
        - rewrite !length_app. cbn [length]. fold m. intros Hlo.
          specialize (Hw1 F ltac:(lia)). fold m in Hw1.
          replace (Z.to_nat (ps_pos st)) with (length out) in Hw1 by lia.
          rewrite Hw1. f_equal. apply Ho. lia. }
      intros segs. rewrite Hsp. by rewrite <- !app_assoc.
Qed.

(** The packed form of a message. *)
Definition packed (src : list Z) : list Z := pack_spec [] (segments src).

Lemma pack_loop_spec src k fuel out n st :
  (k ≤ nsegs src)%nat → (nsegs src - k < fuel)%nat → inv src k out n st →
  ∃ st' out' n', pack_loop fuel src (8 * Z.of_nat k) st = Some st' ∧
    length (ps_buf st') = length (ps_buf st) ∧ inv src (nsegs src) out' n' st' ∧
    out' ++ pack_spec (run_at src (nsegs src - n') n') [] =
    out ++ pack_spec (run_at src (k - n) n) (run_at src k (nsegs src - k)).
Proof.
  pose proof (nsegs_range src) as Hr. revert k out n st.
  induction fuel as [|fuel IH]; intros k out n st Hk Hf Hinv; [lia|]. cbn [pack_loop].
  destruct (Z.ltb_spec (8 * Z.of_nat k) (Z.of_nat (length src))) as [Hlt|Hge].
  - assert (k < nsegs src)%nat as Hk' by lia.
    destruct (pack_iter_spec src k out n st Hk' Hinv) as (st1 & out1 & n1 & -> & Hl1 & Hinv1 & E1).
    cbn [mbind option_bind]. replace (8 * Z.of_nat k + 8) with (8 * Z.of_nat (S k)) by lia.
    destruct (IH (S k) out1 n1 st1) as (st2 & out2 & n2 & -> & Hl2 & Hinv2 & E2); [lia|lia|done|].
    exists st2, out2, n2. split; [done|]. split; [lia|]. split; [done|]. rewrite E2, E1.
    replace (nsegs src - k)%nat with (S (nsegs src - S k)) by lia. done.
  - assert (k = nsegs src) as -> by lia. exists st, out, n. rewrite Nat.sub_diag. done.
Qed.

Lemma segments_run src : segments src = run_at src 0 (nsegs src).
Proof. done. Qed.

(** Whatever the size of the buffer, packing stays in it; it returns the size of
    the packed form, which is there when it fits. *)
Lemma sproto_pack_spec src buffer :
  ∃ buf, sproto_pack src buffer = Some (Z.of_nat (length (packed src)), buf) ∧
    length buf = length buffer ∧
    ((length (packed src) ≤ length buffer)%nat → take (length (packed src)) buf = packed src).
Proof.
  pose proof (nsegs_range src) as Hr. unfold sproto_pack, packed. rewrite segments_run.
  destruct (pack_loop_spec src 0 (S (length src)) [] 0 (mkPs buffer 0 (Z.of_nat (length buffer)) 0 None 0 0))
    as (st & out & n & E & Hl & [[Hnk Hn] Hb Hs Hp Hf Hff Ho] & Hout); [lia|lia|constructor; cbn; done || lia|].
  rewrite !Nat.sub_0_r in Hout. change (run_at src 0 0) with (@nil (list Z)) in Hout. rewrite app_nil_l in Hout.
  rewrite <- Hout. cbn [pack_spec]. rewrite Z.mul_0_r in E. rewrite E. cbn [mbind option_bind]. cbn [ps_buf] in Hl. clear E Hout.
  rewrite Hf. destruct (Z.ltb_spec 0 (Z.of_nat n)) as [Hn0|Hn0].
  - destruct (Hff ltac:(lia)) as [Hs1 Hd1]. rewrite decide_False in Hp by lia.
    pose proof (length_emit src (nsegs src - n) n ltac:(lia) ltac:(lia)) as Hle.
    destruct (flush_spec src (nsegs src - n) n out st (ps_bufsz st) (ps_buf st) 0) as (buf & Ef & Hl' & Ht'); try done; try lia.
    rewrite length_app, Hle. destruct (Z.leb_spec 0 (ps_bufsz st)) as [H0|H0]; cbn [andb].
    + rewrite Ef. cbn [mbind option_bind]. exists buf. split; [do 2 f_equal; lia|]. split; [lia|]. intros _.
      rewrite Nat.add_0_r in Ht'. rewrite Ht' by done. by rewrite take_0, app_nil_r.
    + cbn [mbind option_bind]. exists (ps_buf st). split; [do 2 f_equal; lia|]. split; [done|lia].
  - assert (n = 0%nat) as -> by lia. rewrite decide_True in Hp by done. rewrite andb_false_r. cbn [mbind option_bind].
    change (run_at src (nsegs src - 0) 0) with (@nil (list Z)). cbn [emit]. rewrite app_nil_r.
    exists (ps_buf st). split; [do 2 f_equal; lia|]. split; [done|]. rewrite <- Hl. done.
Qed.
