(* ===== verification/SprotoUnpack.v ===== *)
(** * Zero packing as lsproto.c uses it: lualib-src/sproto/lsproto.c, [lpack] and [lunpack]

    The decoder as a function on bytes, that [sproto_unpack] implements; that it
    inverts [packed]; the size of the packed form; and the two Lua functions,
    which grow the buffer they keep in an upvalue. *)
From S2P Require Import Prelude Bytes Buffer SprotoPack.
Local Open Scope Z_scope.

(** ** lpack and lunpack *)

Definition ENCODE_MAXSIZE : Z := 16777216.

(** The errors that the functions raise. *)
Inductive pack_error := Object_too_large | Packing_error | Invalid_unpack_stream.

(** The loop of [expand_buffer]; [osz] is positive.  The size is an [int]. *)
Fixpoint grow (fuel : nat) (osz nsz : Z) : option Z :=
  match fuel with
  | O => None
  | S fuel => osz ← c_int (osz * 2); if osz <? nsz then grow fuel osz nsz else Some osz
  end.

(** The new buffer, which holds arbitrary bytes (0 here); [inl] is a Lua error. *)
Definition expand_buffer (osz nsz : Z) : option (pack_error + list Z) :=
  osz ← grow 32 osz nsz;
  Some (if ENCODE_MAXSIZE <? osz then inl Object_too_large else inr (replicate (Z.to_nat osz) 0)).

(** [output] is the buffer of the upvalue; the result is the Lua string and the
    buffer kept.  [sproto_pack] is told that the buffer has [maxsz] bytes. *)
Definition lpack (src output : list Z) : option (pack_error + list Z * list Z) :=
  let sz := Z.of_nat (length src) in
  let maxsz := (sz + 2047) / 2048 * 2 + sz + 2 in
  r ← (if Z.of_nat (length output) <? maxsz then expand_buffer (Z.of_nat (length output)) (swrap 32 maxsz)
       else Some (inr output));
  match r with
  | inl e => Some (inl e)
  | inr output =>
      '(bytes, buf) ← sproto_pack src (take (Z.to_nat maxsz) output);
      let output := buf ++ drop (Z.to_nat maxsz) output in
      if maxsz <? bytes then Some (inl Packing_error)
      else Some (inr (take (Z.to_nat bytes) output, output))
  end.

Definition lunpack (src output : list Z) : option (pack_error + list Z * list Z) :=
  let osz := Z.of_nat (length output) in
  '(r, output) ← sproto_unpack src output;
  if r <? 0 then Some (inl Invalid_unpack_stream)
  else if osz <? r then
    e ← expand_buffer osz r;
    match e with
    | inl e => Some (inl e)
    | inr output =>
        '(r', buf) ← sproto_unpack src (take (Z.to_nat r) output);
        let output := buf ++ drop (Z.to_nat r) output in
        if r' <? 0 then Some (inl Invalid_unpack_stream) else Some (inr (take (Z.to_nat r') output, output))
    end
  else Some (inr (take (Z.to_nat r) output, output)).

(** ** The decoder *)

(** The [k] bytes that bits [i] onwards of [header] describe, and the bytes left. *)
Fixpoint decode_seg (k : nat) (i header : Z) (src : list Z) : option (list Z * list Z) :=
  match k with
  | O => Some ([], src)
  | S k =>
      if Z.testbit header i then
        match src with
        | [] => None
        | b :: src => '(out, src) ← decode_seg k (i + 1) header src; Some (b :: out, src)
        end
      else '(out, src) ← decode_seg k (i + 1) header src; Some (0 :: out, src)
  end.

Fixpoint decode (fuel : nat) (src : list Z) : option (list Z) :=
  match fuel, src with
  | O, _ => None
  | _, [] => Some []
  | S fuel, header :: src =>
      if header =? 255 then
        match src with
        | [] => None
        | c :: src =>
            let n := Z.to_nat ((c + 1) * 8) in
            if (length src <? n)%nat then None
            else out ← decode fuel (drop n src); Some (take n src ++ out)
        end
      else
        '(seg, src) ← decode_seg 8 0 header src;
        out ← decode fuel src; Some (seg ++ out)
  end.

Definition unpacked (src : list Z) : option (list Z) := decode (S (length src)) src.

(** ** sproto_unpack decodes *)

Lemma bit_test header i : 0 ≤ i → (Z.land (Z.shiftr header i) 1 =? 1) = Z.testbit header i.
Proof.
  intros Hi. change 1 with (Z.ones 1) at 1. rewrite Z.land_ones, Z.shiftr_div_pow2 by lia. change (2 ^ 1) with 2.
  rewrite Z.testbit_odd, Z.shiftr_div_pow2, Zmod_odd by lia. by destruct (Z.odd _).
Qed.

(** The position and the room left when [size] bytes have been decoded. *)
Definition cohere (L size pos bufsz : Z) : Prop :=
  0 ≤ size ∧ (size ≤ L → pos = size ∧ bufsz = L - size) ∧ (L < size → bufsz ≤ 0).

(** A byte in the loop over the bits of a header. *)
Lemma put_byte buf size pos bufsz b :
  cohere (Z.of_nat (length buf)) size pos bufsz →
  if 0 <? bufsz then
    ∃ buf', aset buf pos b = Some buf' ∧ written buf size [b] buf' ∧
      cohere (Z.of_nat (length buf)) (size + 1) (pos + 1) (bufsz - 1)
  else written buf size [b] buf ∧ cohere (Z.of_nat (length buf)) (size + 1) pos bufsz.
Proof.
  intros (H0 & H1 & H2). destruct (Z.ltb_spec 0 bufsz).
  - assert (pos = size ∧ size < Z.of_nat (length buf)) as [-> Hlt] by lia.
    exists (<[Z.to_nat size := b]> buf). rewrite aset_Some by lia. split; [done|].
    split; [by apply written_one|]. unfold cohere. lia.
  - split; [apply written_full; lia|]. unfold cohere. lia.
Qed.

Lemma unpack_seg_spec k i header src buf pos bufsz size :
  0 ≤ i → cohere (Z.of_nat (length buf)) size pos bufsz →
  match decode_seg k i header src with
  | None => ∃ buf', unpack_seg k i header src buf pos bufsz size = Some (inl buf')
  | Some (seg, rest) =>
      length seg = k ∧ (length rest ≤ length src)%nat ∧ ∃ buf' pos' bufsz',
        unpack_seg k i header src buf pos bufsz size = Some (inr (rest, buf', pos', bufsz', size + Z.of_nat k)) ∧
        written buf size seg buf' ∧ cohere (Z.of_nat (length buf)) (size + Z.of_nat k) pos' bufsz'
  end.
Proof.
  revert i src buf pos bufsz size. induction k as [|k IH]; intros i src buf pos bufsz size Hi Hc.
  { cbn [decode_seg unpack_seg]. split; [done|]. split; [done|]. exists buf, pos, bufsz. rewrite Z.add_0_r.
    split; [done|]. split; [apply written_nil|done]. }
  assert (Hstep : ∀ b src',
    match decode_seg k (i + 1) header src' with
    | None => ∃ buf', (if 0 <? bufsz then buf ← aset buf pos b; unpack_seg k (i + 1) header src' buf (pos + 1) (bufsz - 1) (size + 1)
       else unpack_seg k (i + 1) header src' buf pos bufsz (size + 1)) = Some (inl buf')
    | Some (seg, rest) =>
        length (b :: seg) = S k ∧ (length rest ≤ length src')%nat ∧ ∃ buf' pos' bufsz',
       (if 0 <? bufsz then buf ← aset buf pos b; unpack_seg k (i + 1) header src' buf (pos + 1) (bufsz - 1) (size + 1)
       else unpack_seg k (i + 1) header src' buf pos bufsz (size + 1)) =
          Some (inr (rest, buf', pos', bufsz', size + Z.of_nat (S k))) ∧
        written buf size (b :: seg) buf' ∧ cohere (Z.of_nat (length buf)) (size + Z.of_nat (S k)) pos' bufsz'
    end).
  { intros b src'. pose proof (put_byte buf size pos bufsz b Hc) as Hput.
    replace (size + Z.of_nat (S k)) with (size + 1 + Z.of_nat k) by lia.
    destruct (0 <? bufsz).
    - destruct Hput as (buf1 & -> & Hw & Hc1). cbn [mbind option_bind].
      pose proof Hw as [Hl1 _]. rewrite <- Hl1 in Hc1 |- *.
      specialize (IH (i + 1) src' buf1 (pos + 1) (bufsz - 1) (size + 1) ltac:(lia) Hc1).
      destruct (decode_seg k (i + 1) header src') as [[seg rest]|]; [|done].
      destruct IH as (Hls & Hlr & buf' & pos' & bufsz' & -> & Hw' & Hc'). cbn [length].
      split; [lia|]. split; [done|]. exists buf', pos', bufsz'. split; [done|]. split; [|done].
      apply (written_app buf size [b] buf1 seg buf'); [apply Hc|done|done].
    - destruct Hput as (Hw & Hc1).
      specialize (IH (i + 1) src' buf pos bufsz (size + 1) ltac:(lia) Hc1).
      destruct (decode_seg k (i + 1) header src') as [[seg rest]|]; [|done].
      destruct IH as (Hls & Hlr & buf' & pos' & bufsz' & -> & Hw' & Hc'). cbn [length].
      split; [lia|]. split; [done|]. exists buf', pos', bufsz'. split; [done|]. split; [|done].
      apply (written_app buf size [b] buf seg buf'); [apply Hc|done|done]. }
  cbn [decode_seg unpack_seg]. rewrite bit_test by done. destruct (Z.testbit header i).
  - destruct src as [|b src]; [by eexists|]. specialize (Hstep b src).
    destruct (decode_seg k (i + 1) header src) as [[seg rest]|]; cbn [mbind option_bind]; [|done].
    destruct Hstep as (? & ? & ?). split; [done|]. split; [cbn; lia|done].
  - specialize (Hstep 0 src).
    destruct (decode_seg k (i + 1) header src) as [[seg rest]|]; cbn [mbind option_bind]; done.
Qed.

(** The bytes a segment leaves are the end of the source. *)
Lemma decode_seg_rest k i header src seg rest :
  decode_seg k i header src = Some (seg, rest) → ∃ n, rest = drop n src.
Proof.
  revert i src seg. induction k as [|k IH]; intros i src seg; cbn [decode_seg].
  { intros. simplify_eq. by exists 0%nat. }
  destruct (Z.testbit header i).
  - destruct src as [|b src]; [done|]. destruct (decode_seg k (i + 1) header src) as [[out r]|] eqn:E; [|done].
    cbn. intros. simplify_eq. apply IH in E as [n ->]. by exists (S n).
  - destruct (decode_seg k (i + 1) header src) as [[out r]|] eqn:E; [|done].
    cbn. intros. simplify_eq. by apply IH in E.
Qed.

(** The copy of a run. *)
Lemma put_run buf size pos bufsz run :
  cohere (Z.of_nat (length buf)) size pos bufsz → run ≠ [] →
  let n := Z.of_nat (length run) in
  ∃ buf', (if n <=? bufsz then write_at buf pos run else Some buf) = Some buf' ∧
    written buf size run buf' ∧ cohere (Z.of_nat (length buf)) (size + n) (pos + n) (bufsz - n).
Proof.
  intros (H0 & H1 & H2) Hr n. assert (0 < n) by (destruct run; [done|cbn in *; lia]).
  destruct (Z.leb_spec n bufsz) as [Hn|Hn].
  - destruct (decide (size ≤ Z.of_nat (length buf))) as [Hs|Hs].
    + destruct (H1 Hs) as [-> ->].
      destruct (write_at_spec buf size run) as (buf' & -> & Hl & E); [done|lia|].
      exists buf'. split; [done|]. split; [|unfold cohere; lia]. split; [done|]. intros _. rewrite E, app_assoc.
      rewrite take_app_length'; [done|]. rewrite length_app, length_take. lia.
    + lia.
  - exists buf. split; [done|]. split; [split; [done|]; lia|]. unfold cohere. lia.
Qed.

Lemma unpack_loop_spec fuel src buf pos bufsz size :
  Forall byte_ok src → (length src < fuel)%nat → cohere (Z.of_nat (length buf)) size pos bufsz →
  match decode fuel src with
  | None => ∃ buf', unpack_loop fuel src buf pos bufsz size = Some (-1, buf')
  | Some out => ∃ buf', unpack_loop fuel src buf pos bufsz size = Some (size + Z.of_nat (length out), buf') ∧
      written buf size out buf'
  end.
Proof.
  revert src buf pos bufsz size. induction fuel as [|fuel IH]; intros src buf pos bufsz size Hb Hf Hc; [lia|].
  cbn [decode unpack_loop]. destruct src as [|header src].
  { exists buf. rewrite Z.add_0_r. split; [done|]. apply written_nil. }
  apply Forall_cons in Hb as [Hh Hb]. cbn [length] in Hf.
  destruct (Z.eqb_spec header 255) as [_|_].
  - destruct src as [|c src]; [by eexists|]. apply Forall_cons in Hb as [Hc0 Hb]. unfold byte_ok in Hc0. cbn [length] in Hf.
    destruct (Z.ltb_spec (Z.of_nat (length (c :: src))) ((c + 1) * 8 + 1)) as [Hlt|Hge]; cbn [length] in *.
    { destruct (Nat.ltb_spec (length src) (Z.to_nat ((c + 1) * 8))); [by eexists|lia]. }
    destruct (Nat.ltb_spec (length src) (Z.to_nat ((c + 1) * 8))) as [|Hn]; [lia|].
    set (run := take (Z.to_nat ((c + 1) * 8)) src).
    assert (length run = Z.to_nat ((c + 1) * 8)) as Hlr by (unfold run; rewrite length_take; lia).
    destruct (put_run buf size pos bufsz run) as (buf1 & E1 & Hw1 & Hc1); [done|by intros ?%(f_equal length); cbn in *; lia|].
    rewrite Hlr in E1, Hc1. rewrite Z2Nat.id in E1, Hc1 by lia. rewrite E1. cbn [mbind option_bind].
    pose proof Hw1 as [Hl1 _]. rewrite <- Hl1 in Hc1.
    specialize (IH (drop (Z.to_nat ((c + 1) * 8)) src) buf1 _ _ _ ltac:(by apply Forall_drop) ltac:(rewrite length_drop; lia) Hc1).
    destruct (decode fuel _) as [out|]; [|done]. destruct IH as (buf2 & -> & Hw2).
    exists buf2. rewrite length_app, Hlr. split; [do 2 f_equal; lia|].
    apply (written_app buf size run buf1 out buf2); [apply Hc|done|]. rewrite Hlr, Z2Nat.id by lia. done.
  - pose proof (unpack_seg_spec 8 0 header src buf pos bufsz size ltac:(lia) Hc) as Hseg.
    destruct (decode_seg 8 0 header src) as [[seg rest]|] eqn:Ed.
    + destruct Hseg as (Hls & Hlr & buf1 & pos1 & bufsz1 & -> & Hw1 & Hc1). cbn [mbind option_bind].
      pose proof Hw1 as [Hl1 _]. rewrite <- Hl1 in Hc1.
      assert (Forall byte_ok rest) as Hbr.
      { clear -Hb Ed. apply decode_seg_rest in Ed as [n ->]. by apply Forall_drop. }
      specialize (IH rest buf1 _ _ _ Hbr ltac:(lia) Hc1).
      destruct (decode fuel rest) as [out|]; cbn [mbind option_bind]; [|done]. destruct IH as (buf2 & -> & Hw2).
      exists buf2. rewrite length_app, Hls. split; [do 2 f_equal; lia|].
      apply (written_app buf size seg buf1 out buf2); [apply Hc|done|]. by rewrite Hls.
    + destruct Hseg as [buf1 ->]. cbn [mbind option_bind]. by eexists.
Qed.

(** The number of bytes is the result; they are in the buffer when there is room. *)
Lemma sproto_unpack_spec src buffer :
  Forall byte_ok src →
  match unpacked src with
  | None => ∃ buf, sproto_unpack src buffer = Some (-1, buf)
  | Some out => ∃ buf, sproto_unpack src buffer = Some (Z.of_nat (length out), buf) ∧
      length buf = length buffer ∧ ((length out ≤ length buffer)%nat → take (length out) buf = out)
  end.
Proof.
  intros Hb. pose proof (unpack_loop_spec (S (length src)) src buffer 0 (Z.of_nat (length buffer)) 0 Hb) as H.
  unfold unpacked, sproto_unpack. specialize (H ltac:(lia) ltac:(unfold cohere; lia)).
  destruct (decode _ _) as [out|]; [|done]. destruct H as (buf & -> & Hl & Hw). exists buf.
  split; [done|]. split; [done|]. intros Ho. apply Hw. lia.
Qed.

(** ** Decoding the packed form *)

Lemma decode_seg_header seg i header rest :
  0 ≤ i → Z.shiftr header i = seg_header seg →
  decode_seg (length seg) i header (nonzero seg ++ rest) = Some (seg, rest).
Proof.
  revert i. induction seg as [|b seg IH]; intros i Hi Hh; [done|]. cbn [length decode_seg].
  assert (Z.shiftr header (i + 1) = seg_header seg ∧ Z.testbit header i = bool_decide (b ≠ 0)) as [Hn Ht].
  { cbn [seg_header] in Hh. rewrite <- Z.shiftr_shiftr, Hh by lia.
    rewrite <- (Z.add_0_l i), <- Z.shiftr_spec, Hh by lia. rewrite Z.shiftr_div_pow2 by lia. change (2 ^ 1) with 2.
    rewrite Z.bit0_odd, Z.odd_add_mul_2. rewrite (Z.mul_comm 2), Z.div_add by lia. by case_bool_decide. }
  rewrite Ht. unfold nonzero. rewrite filter_cons. fold (nonzero seg). case_bool_decide as Hb.
  - rewrite decide_True by done. cbn [app]. by rewrite IH by (done || lia).
  - rewrite decide_False by tauto. rewrite IH by (done || lia). cbn. do 3 f_equal. lia.
Qed.

Lemma seg_header_max seg : length seg = 8%nat → seg_header seg = 255 → length (nonzero seg) = 8%nat.
Proof.
  do 9 (destruct seg as [|? seg]; try done). intros _. cbn [seg_header]. unfold nonzero.
  repeat case_bool_decide; intros; try lia. by repeat (rewrite filter_cons, decide_True by done).
Qed.

Lemma decode_emit run fuel rest out :
  Forall (λ seg, length seg = 8%nat) run → (length run ≤ 256)%nat →
  (length (emit run ++ rest) < fuel)%nat →
  (∀ fuel, length rest < fuel → decode fuel rest = Some out)%nat →
  decode fuel (emit run ++ rest) = Some (concat run ++ out).
Proof.
  intros Hs Hl Hf Hr. unfold emit in *. destruct run as [|seg run]; [by apply Hr|].
  assert (length (concat (seg :: run)) = (8 * length (seg :: run))%nat) as Hc.
  { clear -Hs. induction Hs as [|x l Hx Hs IH]; [done|]. cbn [concat]. rewrite length_app, IH, Hx. cbn [length]. lia. }
  set (data := concat (seg :: run)) in *. set (n := length (seg :: run)) in *. cbn [app length] in *.
  assert (0 < n)%nat by (subst n; cbn; lia). rewrite length_app in Hf.
  destruct fuel as [|fuel]; [lia|]. cbn [decode]. change (255 =? 255) with true. cbn match.
  replace (Z.to_nat ((Z.of_nat n - 1 + 1) * 8)) with (length data) by lia.
  destruct (Nat.ltb_spec (length (data ++ rest)) (length data)); [rewrite length_app in *; lia|].
  rewrite drop_app_length, take_app_length. rewrite Hr by lia. done.
Qed.

Lemma decode_pack_spec segs run fuel :
  Forall (λ seg, length seg = 8%nat) (run ++ segs) → (length run ≤ 255)%nat →
  (length (pack_spec run segs) < fuel)%nat →
  decode fuel (pack_spec run segs) = Some (concat (run ++ segs)).
Proof.
  revert run fuel. induction segs as [|seg segs IH]; intros run fuel Hs Hl Hf; cbn [pack_spec] in *.
  - rewrite app_nil_r in *. rewrite <- (app_nil_r (emit run)) in *. rewrite <- (app_nil_r (concat run)).
    apply decode_emit; [done|lia|done|]. intros [|f] ?; [cbn in *; lia|done].
  - assert (Forall (λ seg, length seg = 8%nat) (run ++ [seg]) ∧ Forall (λ seg, length seg = 8%nat) segs ∧ length seg = 8%nat) as (Hs1 & Hs2 & Hs3).
    { apply Forall_app in Hs as [H1 H2]. apply Forall_cons in H2 as [H2 H3]. split; [|done].
      apply Forall_app. split; [done|]. by constructor. }
    rewrite concat_app. cbn [concat].
    destruct (decide (_ ∨ _)) as [Hfull|Hfull].
    + destruct (decide (length run = 255%nat)) as [H255|H255].
      * replace (concat run ++ seg ++ concat segs) with (concat (run ++ [seg]) ++ concat segs)
          by (rewrite concat_app; cbn; by rewrite app_nil_r, <- app_assoc).
        apply decode_emit; [done|rewrite length_app; cbn; lia|done|]. intros f Hf'. by apply (IH []); cbn; try lia.
      * rewrite IH; [by rewrite <- app_assoc, concat_app|by rewrite <- app_assoc|rewrite length_app; cbn; lia|done].
    + apply decode_emit; [by apply Forall_app in Hs1 as [??]|lia|done|]. intros f Hf'. cbn [app length] in *.
      destruct f as [|f]; [lia|]. cbn [decode].
      destruct (Z.eqb_spec (seg_header seg) 255) as [E|_].
      { apply seg_header_max in E; [|done]. tauto. }
      pose proof (decode_seg_header seg 0 (seg_header seg) (pack_spec [] segs) ltac:(lia) (Z.shiftr_0_r _)) as Hd.
      rewrite Hs3 in Hd. rewrite Hd. cbn [mbind option_bind].
      rewrite (IH [] f); [done|done|cbn; lia|]. rewrite length_app in Hf'. lia.
Qed.

Lemma concat_segments src : concat (segments src) = padded src.
Proof.
  rewrite segments_run, concat_run by lia. rewrite drop_0, take_ge; [done|]. by rewrite length_padded.
Qed.

Lemma segments_length src : Forall (λ seg, length seg = 8%nat) (segments src).
Proof.
  apply Forall_forall. intros seg Hin. rewrite segments_run in Hin. unfold run_at in Hin.
  apply list_elem_of_In, in_map_iff in Hin as (k & <- & Hk). apply in_seq in Hk. apply length_segment. lia.
Qed.

Lemma unpacked_packed src : unpacked (packed src) = Some (padded src).
Proof.
  unfold unpacked, packed. rewrite decode_pack_spec; [|apply segments_length|cbn; lia|lia].
  by rewrite app_nil_l, concat_segments.
Qed.

(** ** The size of the packed form *)

Lemma length_emit_run run :
  Forall (λ seg, length seg = 8%nat) run → Z.of_nat (length (emit run)) = if decide (run = []) then 0 else 2 + 8 * Z.of_nat (length run).
Proof.
  intros Hs. unfold emit. destruct run as [|seg run]; [done|]. rewrite decide_False by done.
  assert (length (concat (seg :: run)) = (8 * length (seg :: run))%nat) as Hc.
  { clear -Hs. induction Hs as [|x l Hx Hs IH]; [done|]. cbn [concat]. rewrite length_app, IH, Hx. cbn [length]. lia. }
  cbn [length] in *. lia.
Qed.

(** The last segment [z] has [p] bytes of padding. *)
Lemma pack_spec_bound segs z p run :
  Forall (λ seg, length seg = 8%nat) (run ++ segs ++ [z]) → (length run ≤ 255)%nat →
  0 ≤ p ≤ 7 → Z.of_nat (length (nonzero z)) ≤ 8 - p →
  Z.of_nat (length (pack_spec run (segs ++ [z]))) ≤
  8 * (Z.of_nat (length run + length segs) + 1) - p + 2 * (Z.of_nat (length run + length segs) / 256) + 4.
Proof.
  intros Hs Hl Hp Hz. revert run Hs Hl.
  induction segs as [|seg segs IH]; intros run Hs Hl; cbn [app pack_spec].
  - rewrite app_nil_l in Hs. apply Forall_app in Hs as [Hs1 Hs2].
    assert (Forall (λ seg, length seg = 8%nat) (run ++ [z])) as Hs3 by (by apply Forall_app).
    pose proof (length_emit_run run Hs1) as E1. pose proof (length_emit_run (run ++ [z]) Hs3) as E2.
    rewrite decide_False in E2 by (by destruct run). rewrite length_app in E2. cbn [length] in *.
    rewrite Nat.add_0_r. pose proof (Z.div_pos (Z.of_nat (length run)) 256 ltac:(lia) ltac:(lia)).
    destruct (decide (_ ∨ _)) as [Hfull|Hfull].
    + assert (p ≤ 2) by lia. destruct (decide (length run = 255%nat)); [rewrite app_nil_r|]; lia.
    + rewrite app_nil_r, length_app. cbn [length]. destruct (decide (run = [])) as [->|Hne]; cbn [length] in *; lia.
  - assert (Hs' := Hs). apply Forall_app in Hs as [Hs1 Hs2]. apply Forall_cons in Hs2 as [Hseg Hs2].
    pose proof (length_emit_run run Hs1) as E1.
    assert (Forall (λ seg, length seg = 8%nat) (run ++ [seg])) as Hs3 by (apply Forall_app; split; [done|by constructor]).
    pose proof (length_emit_run (run ++ [seg]) Hs3) as E2.
    rewrite decide_False in E2 by (by destruct run). rewrite length_app in E2. cbn [length] in *.
    pose proof (length_nonzero seg) as Hnz. rewrite Hseg in Hnz.
    replace (length run + S (length segs))%nat with (length run + 1 + length segs)%nat by lia.
    destruct (decide (_ ∨ _)) as [Hfull|Hfull]; [destruct (decide (length run = 255%nat)) as [H255|H255]|].
    + specialize (IH [] ltac:(done) ltac:(cbn; lia)). cbn [length] in IH. rewrite length_app.
      rewrite H255 in *. replace (Z.of_nat (255 + 1 + length segs)) with (Z.of_nat (0 + length segs) + 1 * 256) by lia.
      rewrite Z.div_add by lia. lia.
    + specialize (IH (run ++ [seg])). rewrite length_app in IH. cbn [length] in IH.
      apply IH; [by rewrite <- app_assoc|lia].
    + specialize (IH [] ltac:(done) ltac:(cbn; lia)). cbn [length] in IH. rewrite length_app. cbn [app length]. rewrite length_app.
      assert (Z.of_nat (0 + length segs) / 256 ≤ Z.of_nat (length run + 1 + length segs) / 256) by (apply Z.div_le_mono; lia).
      destruct (decide (run = [])) as [->|Hne]; cbn [length] in *; [lia|].
      assert (¬ (6 ≤ length (nonzero seg))%nat) by tauto. lia.
Qed.

Lemma filter_nonzero_padding src :
  (0 < nsegs src)%nat →
  Z.of_nat (length (nonzero (segment src (8 * Z.of_nat (nsegs src - 1))))) ≤ 8 - (8 * Z.of_nat (nsegs src) - Z.of_nat (length src)).
Proof.
  intros Hn. pose proof (nsegs_range src) as Hr. unfold segment.
  set (i := 8 * Z.of_nat (nsegs src - 1)). replace (8 * Z.of_nat (nsegs src)) with (i + 8) by lia.
  destruct (Z.ltb_spec 0 (i + 8 - Z.of_nat (length src))).
  - unfold nonzero. rewrite filter_app, filter_zeros, app_nil_r.
    pose proof (length_filter (λ b : Z, b ≠ 0) (take (Z.to_nat (8 - (i + 8 - Z.of_nat (length src)))) (drop (Z.to_nat i) src))) as Hf.
    rewrite length_take in Hf. lia.
  - pose proof (length_nonzero (take 8 (drop (Z.to_nat i) src))) as Hf. rewrite length_take, length_drop in Hf. lia.
Qed.

Lemma packed_bound src :
  Z.of_nat (length (packed src)) ≤ (Z.of_nat (length src) + 2047) / 2048 * 2 + Z.of_nat (length src) + 2.
Proof.
  pose proof (nsegs_range src) as Hr. pose proof (segments_length src) as Hs.
  unfold packed. rewrite segments_run in *. destruct (nsegs src) as [|m] eqn:Em.
  { assert (length src = 0%nat) as -> by lia. done. }
  rewrite run_snoc, Nat.add_0_l in *. pose proof (filter_nonzero_padding src ltac:(lia)) as Hz. rewrite Em in Hz.
  replace (S m - 1)%nat with m in Hz by lia.
  pose proof (pack_spec_bound (run_at src 0 m) (segment src (8 * Z.of_nat m))
    (8 * Z.of_nat (S m) - Z.of_nat (length src)) [] Hs ltac:(cbn; lia) ltac:(lia) Hz) as H.
  rewrite length_run_at in H. cbn [length] in H. rewrite Nat.add_0_l in H.
  assert (Z.of_nat m / 256 + 1 ≤ (Z.of_nat (length src) + 2047) / 2048); [|lia].
  rewrite <- (Z.div_mul_cancel_l (Z.of_nat m) 256 8) by lia. rewrite <- Z.div_add by lia.
  apply Z.div_le_mono; lia.
Qed.

(** ** The Lua functions *)

Lemma packed_bytes src : Forall byte_ok src → Forall byte_ok (packed src).
Proof.
  intros Hb.
  assert (Forall (λ seg, Forall byte_ok seg ∧ length seg = 8%nat) (segments src)) as Hs.
  { apply Forall_and. split; [|apply segments_length]. apply Forall_forall. intros seg Hin.
    rewrite segments_run in Hin. unfold run_at in Hin.
    apply list_elem_of_In, in_map_iff in Hin as (k & <- & Hk). apply in_seq in Hk.
    rewrite segment_padded by lia. apply Forall_take, Forall_drop. unfold padded. apply Forall_app. split; [done|].
    apply Forall_replicate. done. }
  unfold packed. assert (H0 : Forall (λ seg, Forall byte_ok seg ∧ length seg = 8%nat) []) by constructor.
  assert (Hl0 : (@length (list Z) [] ≤ 255)%nat) by (cbn; lia).
  revert Hs H0 Hl0. generalize (segments src) as segs. generalize (@nil (list Z)) as run.
  assert (Hemit : ∀ run, Forall (λ seg, Forall byte_ok seg ∧ length seg = 8%nat) run → (length run ≤ 256)%nat →
    Forall byte_ok (emit run)).
  { intros run Hr Hl. unfold emit. destruct run as [|x run]; [constructor|]. cbn [length] in Hl.
    constructor; [done|]. constructor; [unfold byte_ok; cbn [length]; lia|]. apply Forall_concat.
    eapply Forall_impl; [done|]. by intros ? [??]. }
  intros run segs Hs. revert run. induction Hs as [|seg segs [Hseg Hlen] Hs IH]; intros run Hr Hl; cbn [pack_spec].
  { apply Hemit; [done|lia]. }
  assert (Forall (λ seg, Forall byte_ok seg ∧ length seg = 8%nat) (run ++ [seg])).
  { apply Forall_app. split; [done|]. by constructor. }
  destruct (decide _) as [|Hfull]; [destruct (decide _)|].
  - apply Forall_app. split; [apply Hemit; [done|rewrite length_app; cbn; lia]|]. apply IH; [constructor|cbn; lia].
  - apply IH; [done|]. rewrite length_app. cbn. lia.
  - apply Forall_app. split; [apply Hemit; [done|lia]|]. cbn [app]. constructor.
    { pose proof (seg_header_range seg) as Hh. rewrite Hlen in Hh. exact Hh. }
    apply Forall_app. split; [|apply IH; [constructor|cbn; lia]]. unfold nonzero.
    apply Forall_forall. intros x [_ Hx]%list_elem_of_filter. by apply (proj1 (Forall_forall _ _) Hseg).
Qed.

Lemma grow_spec fuel osz nsz :
  0 < osz < nsz → nsz ≤ 2 ^ 30 → nsz ≤ osz * 2 ^ Z.of_nat fuel → (0 < fuel)%nat →
  ∃ sz, grow fuel osz nsz = Some sz ∧ nsz ≤ sz ∧ (osz * 2 ≤ nsz → sz < 2 * nsz) ∧ (nsz ≤ osz * 2 → sz = osz * 2).
Proof.
  revert osz. induction fuel as [|fuel IH]; intros osz H0 Hm Hn Hf; [lia|]. cbn [grow].
  rewrite c_int_Some by (unfold INT_MIN, INT_MAX; lia). cbn [mbind option_bind].
  rewrite Nat2Z.inj_succ, Z.pow_succ_r in Hn by lia.
  destruct (Z.ltb_spec (osz * 2) nsz) as [Hlt|Hge].
  - destruct fuel as [|fuel]; [cbn in Hn; lia|].
    destruct (IH (osz * 2)) as (sz & -> & H1 & H2 & H3); [lia|lia|lia|lia|].
    exists sz. split; [done|]. split; [done|]. split; [|lia]. intros _.
    destruct (Z.le_gt_cases (osz * 2 * 2) nsz); [by apply H2|]. rewrite H3; lia.
  - exists (osz * 2). split; [done|]. lia.
Qed.

Lemma expand_buffer_spec osz nsz :
  0 < osz < nsz → nsz ≤ 2 ^ 30 →
  (∃ output, expand_buffer osz nsz = Some (inr output) ∧ nsz ≤ Z.of_nat (length output)) ∨
  (8388608 < nsz ∧ expand_buffer osz nsz = Some (inl Object_too_large)).
Proof.
  intros H0 Hn. unfold expand_buffer.
  destruct (grow_spec 32 osz nsz) as (sz & -> & H1 & H2 & H3);
    [lia|lia|change (2 ^ Z.of_nat 32) with 4294967296; lia|lia|].
  cbn [mbind option_bind]. destruct (Z.ltb_spec ENCODE_MAXSIZE sz) as [Hlt|Hge]; unfold ENCODE_MAXSIZE in *.
  - right. split; [lia|done].
  - left. eexists. split; [done|]. rewrite length_replicate. lia.
Qed.

Lemma lpack_spec src output :
  (0 < length output)%nat → Z.of_nat (length src) ≤ 8000000 →
  ∃ output', lpack src output = Some (inr (packed src, output')).
Proof.
  intros Ho Hs. unfold lpack. pose proof (packed_bound src) as Hb.
  set (maxsz := _ / 2048 * 2 + _ + 2) in *.
  assert (0 < maxsz ≤ 8388608).
  { pose proof (Z.div_mod (Z.of_nat (length src) + 2047) 2048 ltac:(lia)).
    pose proof (Z.mod_pos_bound (Z.of_nat (length src) + 2047) 2048 ltac:(lia)). lia. }
  assert (∃ o, (if Z.of_nat (length output) <? maxsz then expand_buffer (Z.of_nat (length output)) (swrap 32 maxsz)
    else Some (inr output)) = Some (inr o) ∧ maxsz ≤ Z.of_nat (length o)) as (o & -> & Hlo).
  { destruct (Z.ltb_spec (Z.of_nat (length output)) maxsz); [|by exists output].
    rewrite swrap_small by lia. destruct (expand_buffer_spec (Z.of_nat (length output)) maxsz) as [|[]]; [lia..|done|lia]. }
  cbn [mbind option_bind].
  destruct (sproto_pack_spec src (take (Z.to_nat maxsz) o)) as (buf & -> & Hl & Hp). rewrite length_take in Hl, Hp.
  cbn [mbind option_bind]. destruct (Z.ltb_spec maxsz (Z.of_nat (length (packed src)))); [lia|].
  eexists. rewrite Nat2Z.id, take_app_le by lia. by rewrite Hp by lia.
Qed.

Lemma lunpack_spec src output out :
  Forall byte_ok src → (0 < length output)%nat → unpacked src = Some out → Z.of_nat (length out) ≤ 2 ^ 30 →
  (∃ output', lunpack src output = Some (inr (out, output'))) ∨
  (8388608 < Z.of_nat (length out) ∧ (length output < length out)%nat ∧
   lunpack src output = Some (inl Object_too_large)).
Proof.
  intros Hb Ho E Hs. unfold lunpack.
  pose proof (sproto_unpack_spec src output Hb) as H1. rewrite E in H1. destruct H1 as (b1 & -> & Hl1 & Hw1).
  cbn [mbind option_bind]. destruct (Z.ltb_spec (Z.of_nat (length out)) 0); [lia|].
  destruct (Z.ltb_spec (Z.of_nat (length output)) (Z.of_nat (length out))) as [Hlt|Hge].
  - destruct (expand_buffer_spec (Z.of_nat (length output)) (Z.of_nat (length out))) as [(o & -> & Hlo)|[Hbig ->]];
      [lia|lia| |right; split_and!; [lia|lia|done]]. cbn [mbind option_bind]. left.
    pose proof (sproto_unpack_spec src (take (Z.to_nat (Z.of_nat (length out))) o) Hb) as H2. rewrite E in H2.
    destruct H2 as (b2 & -> & Hl2 & Hw2). rewrite length_take in Hl2, Hw2. cbn [mbind option_bind].
    destruct (Z.ltb_spec (Z.of_nat (length out)) 0); [lia|]. eexists. rewrite Nat2Z.id, take_app_le by lia.
    by rewrite Hw2 by lia.
  - left. eexists. rewrite Nat2Z.id. by rewrite Hw1 by lia.
Qed.

(** C16: packing a message of at most 8,000,000 bytes succeeds
    and unpacking the result gives the message padded with zeros to a multiple of 8
    bytes, whatever buffers the two functions start with: the buffers grow, and no
    access is outside them. *)
Theorem lpack_lunpack_roundtrip src o1 o2 :
  Forall byte_ok src → Z.of_nat (length src) ≤ 8000000 → (0 < length o1)%nat → (0 < length o2)%nat →
  ∃ s o1' o2', lpack src o1 = Some (inr (s, o1')) ∧
    lunpack s o2 = Some (inr (src ++ replicate (8 * nsegs src - length src) 0, o2')).
Proof.
  intros Hb Hs H1 H2. destruct (lpack_spec src o1 H1 Hs) as [o1' E1].
  destruct (lunpack_spec (packed src) o2 (padded src)) as [[o2' E2]|[Hbig _]];
    [by apply packed_bytes|done|apply unpacked_packed|rewrite length_padded; pose proof (nsegs_range src); lia| |
     rewrite length_padded in Hbig; pose proof (nsegs_range src); lia].
  by exists (packed src), o1', o2'.
Qed.

Lemma lpack_lunpack_roundtrip_witness :
  Forall byte_ok [1; 0; 2] ∧ ∃ s o1' o2', lpack [1; 0; 2] [7] = Some (inr (s, o1')) ∧
    lunpack s [7] = Some (inr ([1; 0; 2] ++ replicate 5 0, o2')).
Proof.
  assert (Forall byte_ok [1; 0; 2]) as H by (repeat constructor; unfold byte_ok; lia).
  split; [exact H|]. apply (lpack_lunpack_roundtrip [1; 0; 2] [7] [7] H); cbn; lia.
Defined.

(** C17: the buffer [lpack] reserves is enough for every message: the size
    that [sproto_pack] reports for a buffer of [maxsz] bytes is at most [maxsz], so
    the packing error of [lpack] is never raised; the worst case costs 2 bytes for
    every 2048 started and 2 more. *)
Theorem lpack_no_overflow src buffer :
  let maxsz := (Z.of_nat (length src) + 2047) / 2048 * 2 + Z.of_nat (length src) + 2 in
  Z.of_nat (length buffer) = maxsz →
  ∃ bytes buf, sproto_pack src buffer = Some (bytes, buf) ∧ bytes ≤ maxsz ∧
    length buf = length buffer ∧ take (Z.to_nat bytes) buf = packed src ∧ ∀ e, lpack src buffer ≠ Some (inl e).
Proof.
  intros maxsz Hl. pose proof (packed_bound src) as Hb. fold maxsz in Hb.
  destruct (sproto_pack_spec src buffer) as (buf & E & Hlb & Hp). exists (Z.of_nat (length (packed src))), buf.
  rewrite Nat2Z.id. split; [done|]. split; [done|]. split; [done|]. split; [apply Hp; lia|].
  unfold lpack. fold maxsz. rewrite Hl, Z.ltb_irrefl. cbn [mbind option_bind].
  rewrite take_ge by lia. rewrite E. cbn [mbind option_bind].
  destruct (Z.ltb_spec maxsz (Z.of_nat (length (packed src)))); [lia|done].
Qed.

Lemma lpack_no_overflow_witness :
  ∃ bytes buf, sproto_pack (replicate 9 1) (replicate 13 0) = Some (bytes, buf) ∧ bytes ≤ 13 ∧
    length buf = 13%nat ∧ take (Z.to_nat bytes) buf = packed (replicate 9 1) ∧
    ∀ e, lpack (replicate 9 1) (replicate 13 0) ≠ Some (inl e).
Proof. apply (lpack_no_overflow (replicate 9 1) (replicate 13 0)). reflexivity. Defined.

(** What a byte unpacks to has at most 8 bytes. *)
Lemma decode_seg_length k i header src out rest :
  decode_seg k i header src = Some (out, rest) → length out = k ∧ (length rest ≤ length src)%nat.
Proof.
  revert i src out. induction k as [|k IH]; intros i src out E; cbn [decode_seg] in E; [by simplify_eq|].
  destruct (Z.testbit header i); [destruct src as [|b src]; [done|]|];
    destruct (decode_seg k (i + 1) header src) as [[o r]|] eqn:Ed; try done;
    cbn in E; simplify_eq; apply IH in Ed; cbn [length]; lia.
Qed.

Lemma unpacked_length src out : unpacked src = Some out → (length out ≤ 8 * length src)%nat.
Proof.
  unfold unpacked. generalize (S (length src)). intros fuel. revert src out.
  induction fuel as [|fuel IH]; intros src out E; [done|]. cbn [decode] in E.
  destruct src as [|header src]; [by simplify_eq|]. destruct (header =? 255).
  - destruct src as [|c src]; [done|]. destruct (Nat.ltb_spec (length src) (Z.to_nat ((c + 1) * 8))); [done|].
    destruct (decode fuel _) as [o|] eqn:Ed; [|done]. cbn in E. simplify_eq. apply IH in Ed.
    rewrite length_app, length_take. rewrite length_drop in Ed. cbn [length]. lia.
  - destruct (decode_seg 8 0 header src) as [[seg rest]|] eqn:Es; [|done]. cbn in E.
    destruct (decode fuel rest) as [o|] eqn:Ed; [|done]. cbn in E. simplify_eq. apply IH in Ed.
    apply decode_seg_length in Es. rewrite length_app. cbn [length]. lia.
Qed.

(** C18: on every byte string of at most 2^27 bytes [lunpack] stays in its buffers: it
    raises the error "Invalid unpack stream" when the string is not a packed message (it
    ends in the middle of a segment or of a run), and otherwise returns the message
    in full, also when it has to grow the buffer and unpack again; only for a message
    of more than 8388608 bytes, half of ENCODE_MAXSIZE, that is also larger than the
    buffer it has, it can raise "object is too large". *)
Theorem lunpack_decodes src output :
  Forall byte_ok src → (0 < length output)%nat → Z.of_nat (length src) ≤ 2 ^ 27 →
  match unpacked src with
  | None => lunpack src output = Some (inl Invalid_unpack_stream)
  | Some out =>
      (∃ output', lunpack src output = Some (inr (out, output'))) ∨
      (8388608 < Z.of_nat (length out) ∧ (length output < length out)%nat ∧
       lunpack src output = Some (inl Object_too_large))
  end.
Proof.
  intros Hb Ho Hs. destruct (unpacked src) as [out|] eqn:E.
  { apply lunpack_spec; [done..|]. apply unpacked_length in E. lia. }
  pose proof (sproto_unpack_spec src output Hb) as H1. rewrite E in H1. destruct H1 as (b1 & E1).
  unfold lunpack. by rewrite E1.
Qed.

Lemma lunpack_decodes_witness :
  lunpack [3; 9] [0] = Some (inl Invalid_unpack_stream) ∧
  (∃ o, lunpack [3; 9; 8] [0] = Some (inr ([9; 8; 0; 0; 0; 0; 0; 0], o))).
Proof.
  split.
  - apply (lunpack_decodes [3; 9] [0]); [repeat constructor; unfold byte_ok; lia|cbn; lia|cbn; lia].
  - destruct (lunpack_decodes [3; 9; 8] [0]) as [H|[H _]];
      [repeat constructor; unfold byte_ok; lia|cbn; lia|cbn; lia|exact H|].
    exfalso. revert H. vm_compute. discriminate.
Defined.

(** The size that is doubled is an [int]: when more than 2^30 bytes are asked for, the
    doubling of a buffer of 2050 bytes overflows before they are reached. *)
Lemma grow_overflows : grow 32 2050 1074790401 = None.
Proof. by vm_compute. Qed.
