(* ===== verification/Interleave.v ===== *)
(** Streams that share a connection.

    Several parties send the pieces of their message over one connection, where the
    pieces of different messages mix.  The receiver keeps a table from keys to what
    it has of each message.  If a piece only touches the entry of its message, every
    interleaving gives the results of the messages, each once. *)
From S2P Require Import Prelude.

(** The pieces of several streams in any order that keeps the order of each. *)
Inductive interleave {A} : list (list A) → list A → Prop :=
  | interleave_nil ls : Forall (λ l, l = []) ls → interleave ls []
  | interleave_cons ls k x xs l :
      ls !! k = Some (x :: xs) → interleave (<[k := xs]> ls) l → interleave ls (x :: l).

Section receiver.
Context {Q B S E T : Type} `{!EqDecision B}.
Implicit Types (q : Q) (t : T).

(** The receiver: a step on its state, with the results that it gives. *)
Context (step : T → B → option (T * list E)).

Fixpoint run_steps (t : T) (l : list B) : option (T * list E) :=
  match l with
  | [] => Some (t, [])
  | x :: l =>
    '(t, es) ← step t x;
    '(t, es') ← run_steps t l;
    Some (t, es ++ es')
  end.

(** The table in its state, and what holds of the rest between messages. *)
Context (table : T → gmap Z S) (good : T → Prop).

(** The messages: their key and result, and [stage q rest st]: the entry [st] of the
    table when the pieces [rest] of [q] are still to come. *)
Context (ok : Q → Prop) (key : Q → Z) (result : Q → E).
Context (stage : Q → list B → option S → Prop).

Context (Hend : ∀ q st, stage q [] st → st = None).
Definition step_ok q t rest (r : option (T * list E)) : Prop :=
  ∃ t', r = Some (t', if decide (rest = []) then [result q] else []) ∧ good t' ∧
    stage q rest (table t' !! key q) ∧ ∀ s, s ≠ key q → table t' !! s = table t !! s.

Context (Hstep : ∀ q t x rest, ok q → good t → stage q (x :: rest) (table t !! key q) →
  step_ok q t rest (step t x)).

(** Some keys may be shared, by messages that need no entry. *)
Context (shared : Z → Prop).
Context (Hshared : ∀ q rest st, ok q → shared (key q) → stage q rest st → st = None).

Definition keys_distinct (qs : list Q) : Prop :=
  ∀ i j q q', i ≠ j → qs !! i = Some q → qs !! j = Some q' → key q = key q' → shared (key q).

Definition pending (qs : list Q) (ls : list (list B)) : list E :=
  concat (zip_with (λ q rest, if decide (rest = []) then [] else [result q]) qs ls).

Record table_inv (qs : list Q) (ls : list (list B)) t : Prop := {
  ti_length : length qs = length ls;
  ti_good : good t;
  ti_stage j q rest : qs !! j = Some q → ls !! j = Some rest → stage q rest (table t !! key q);
  ti_other s : (∀ q, q ∈ qs → key q ≠ s) → table t !! s = None;
}.

Lemma table_inv_init qs (bodies : Q → list B) t :
  good t → table t = ∅ → (∀ q, stage q (bodies q) None) → table_inv qs (bodies <$> qs) t.
Proof.
  intros Hg Ht Hs. split; [by rewrite length_fmap|done| |by rewrite Ht].
  intros j q rest Hj Hr. rewrite list_lookup_fmap, Hj in Hr. injection Hr as <-.
  rewrite Ht, lookup_empty. apply Hs.
Qed.

Lemma table_inv_step qs ls t k q x rest :
  Forall ok qs → keys_distinct qs → table_inv qs ls t →
  qs !! k = Some q → ls !! k = Some (x :: rest) →
  ∃ t', step t x = Some (t', if decide (rest = []) then [result q] else []) ∧
    table_inv qs (<[k := rest]> ls) t'.
Proof.
  intros Hok Hd Hinv Hq Hls. rewrite Forall_lookup in Hok.
  destruct (Hstep q t x rest (Hok _ _ Hq) (ti_good _ _ _ Hinv) (ti_stage _ _ _ Hinv _ _ _ Hq Hls))
    as (t' & -> & Hg & Hst & Hsame).
  eexists. split; [done|]. split; [|done| |].
  - by rewrite length_insert, (ti_length _ _ _ Hinv).
  - intros j q' rest' Hj Hr. destruct (decide (j = k)) as [->|Hjk].
    + rewrite list_lookup_insert_eq in Hr by (by eapply lookup_lt_Some). by simplify_eq.
    + rewrite list_lookup_insert_ne in Hr by done.
      pose proof (ti_stage _ _ _ Hinv _ _ _ Hj Hr) as Hsj.
      destruct (decide (key q' = key q)) as [Hk|Hk]; [|by rewrite Hsame].
      assert (shared (key q')) as Hs by (by apply (Hd j k q' q)).
      assert (shared (key q)) as Hs' by (by rewrite <- Hk).
      rewrite Hk, (Hshared _ _ _ (Hok _ _ Hq) Hs' Hst).
      by rewrite (Hshared _ _ _ (Hok _ _ Hj) Hs Hsj) in Hsj.
  - intros s Hn. rewrite Hsame; [by apply (ti_other _ _ _ Hinv)|].
    intros ->. apply (Hn q); [|done]. by eapply list_elem_of_lookup_2.
Qed.

Lemma pending_step qs ls k q x rest :
  length qs = length ls → qs !! k = Some q → ls !! k = Some (x :: rest) →
  pending qs ls
  ≡ₚ (if decide (rest = []) then [result q] else []) ++ pending qs (<[k := rest]> ls).
Proof.
  intros Hl Hq Hls. unfold pending.
  rewrite insert_take_drop by (by eapply lookup_lt_Some).
  rewrite <- (take_drop_middle qs k q Hq). rewrite <- (take_drop_middle ls k _ Hls) at 1.
  rewrite !zip_with_app by (rewrite !length_take; lia). cbn [zip_with].
  rewrite !concat_app. cbn [concat]. rewrite decide_False by done.
  cbn [app]. rewrite <- Permutation_middle. destruct (decide (rest = [])); [done|].
  cbn [app]. by rewrite <- Permutation_middle.
Qed.

Lemma pending_nil qs ls : Forall (λ l, l = []) ls → pending qs ls = [].
Proof.
  unfold pending. intros Hn. revert qs. induction Hn as [|l ls -> _ IH]; intros [|q qs]; [done..|].
  cbn [zip_with concat]. rewrite decide_True by done. apply IH.
Qed.

Lemma pending_all (qs : list Q) (bodies : Q → list B) :
  (∀ q, bodies q ≠ []) → pending qs (bodies <$> qs) = result <$> qs.
Proof.
  intros Hb. unfold pending. induction qs as [|q qs IH]; [done|].
  cbn [fmap list_fmap zip_with concat]. rewrite decide_False by done. cbn [app]. by rewrite IH.
Qed.

(** Every interleaving gives each result once, and leaves an empty table. *)
Lemma run_interleaved qs ls l t :
  Forall ok qs → keys_distinct qs → interleave ls l → table_inv qs ls t →
  ∃ t' es, run_steps t l = Some (t', es) ∧ table t' = ∅ ∧ good t' ∧ es ≡ₚ pending qs ls.
Proof.
  intros Hok Hd Hil. revert t. induction Hil as [ls Hnil|ls k x xs l Hk Hil IH]; intros t Hinv.
  - exists t, []. rewrite pending_nil by done. split; [done|].
    split; [|by split; [apply Hinv|]]. apply map_eq. intros s. rewrite lookup_empty.
    rewrite Forall_lookup in Hnil.
    destruct (decide (Exists (λ q, key q = s) qs)) as [He|Hne].
    + apply Exists_exists in He as (q & [j Hj]%list_elem_of_lookup_1 & <-).
      destruct (lookup_lt_is_Some_2 ls j) as [rest Hr].
      { rewrite <- (ti_length _ _ _ Hinv). by eapply lookup_lt_Some. }
      pose proof (ti_stage _ _ _ Hinv _ _ _ Hj Hr) as Hst.
      rewrite (Hnil _ _ Hr) in Hst. by apply Hend in Hst.
    + apply (ti_other _ _ _ Hinv). intros q Hq Hs. apply Hne. apply Exists_exists. by exists q.
  - destruct (lookup_lt_is_Some_2 qs k) as [q Hq].
    { rewrite (ti_length _ _ _ Hinv). by eapply lookup_lt_Some. }
    destruct (table_inv_step _ _ _ _ _ _ _ Hok Hd Hinv Hq Hk) as (t1 & Hs & Hinv1).
    destruct (IH t1 Hinv1) as (t2 & es & Hrun & Ht & Hg & Hes). exists t2.
    cbn [run_steps]. rewrite Hs. cbn [mbind option_bind]. rewrite Hrun. cbn [mbind option_bind].
    eexists. split; [done|]. split; [done|]. split; [done|]. rewrite Hes. symmetry.
    apply (pending_step _ _ _ _ x); [apply Hinv|done|done].
Qed.

(** All the messages, from a state with an empty table. *)
Lemma deliver_interleaved qs (bodies : Q → list B) l t :
  Forall ok qs → keys_distinct qs → (∀ q, bodies q ≠ []) → (∀ q, stage q (bodies q) None) →
  good t → table t = ∅ → interleave (bodies <$> qs) l →
  ∃ t' es, run_steps t l = Some (t', es) ∧ table t' = ∅ ∧ good t' ∧ es ≡ₚ result <$> qs.
Proof.
  intros Hok Hd Hb Hs Hg Ht Hil. rewrite <- (pending_all qs bodies Hb).
  apply run_interleaved; [done..|by apply table_inv_init].
Qed.
End receiver.
