(* ===== verification/Cluster.v ===== *)
(** The messages between the nodes of a cluster
    (src/framework/skynet/lualib-src/lua-cluster.c): requests and pushes to a
    service, which are cut into parts when they are long, and the responses.

    The functions take their arguments from the Lua stack after the checks of their
    types.  A message is a block of memory, the list of its bytes, with its size as
    the caller gives it; reading outside a block is [None].  The client in Lua is in
    ClusterAgent.v. *)
From S2P Require Import Prelude Bytes Buffer.
Local Open Scope Z_scope.

Definition TEMP_LENGTH : Z := 33280.   (* 0x8200 *)
Definition MULTI_PART : Z := 32768.    (* 0x8000 *)

(** Values pushed on the Lua stack; a light userdata is a pointer to a block that
    [skynet_malloc] gave. *)
Inductive lval :=
  | LNil
  | LBool (b : bool)
  | LInt (z : Z)
  | LStr (s : list Z)
  | LPtr (block : list Z).

(** Conditions of Lua, and the values that a function returns: a missing one is
    nil. *)
Definition truthy (v : lval) : bool :=
  match v with LNil | LBool false => false | _ => true end.

Definition arg (vals : list lval) (i : nat) : lval := default LNil (vals !! i).

(** [inl tt] is [luaL_error]. *)
Definition lua_result := option (unit + list lval).
Definition lua_error : lua_result := Some (inl tt).
Definition lua_return (l : list lval) : lua_result := Some (inr l).

(** [memcpy] from a block. *)
Definition read_mem (block : list Z) (off n : Z) : option (list Z) :=
  if (0 <=? off) && (0 <=? n) && (off + n <=? Z.of_nat (length block))
  then Some (take (Z.to_nat n) (drop (Z.to_nat off) block)) else None.

(** A local [uint8_t buf[TEMP_LENGTH]], not initialised. *)
Definition temp_buffer : list Z := replicate (Z.to_nat TEMP_LENGTH) 0.

(** [lua_pushlstring(L, buf, n)] *)
Definition pushlstring (buf : list Z) (n : Z) : option (list Z) := read_mem buf 0 n.

Definition fill_uint32 (buf : list Z) (pos n : Z) : option (list Z) :=
  buf ← aset buf pos (Z.land n 255);
  buf ← aset buf (pos + 1) (Z.land (Z.shiftr n 8) 255);
  buf ← aset buf (pos + 2) (Z.land (Z.shiftr n 16) 255);
  aset buf (pos + 3) (Z.land (Z.shiftr n 24) 255).

Definition fill_header (buf : list Z) (sz : Z) : option (list Z) :=
  assert! sz <? 65536;
  buf ← aset buf 0 (Z.land (Z.shiftr sz 8) 255);
  aset buf 1 (Z.land sz 255).

(** ** Requests *)

(** The address argument: a number, a string, or another value for which
    [lua_tolstring] gives [NULL]. *)
Inductive address := AddrNumber (n : Z) | AddrName (name : list Z) | AddrOther.

(** The result is the packed string and the number of parts that follow it. *)
Definition packreq_number (a session : Z) (msg : list Z) (sz : Z) (is_push : bool) :
    option (list Z * Z) :=
  let addr := wrap 32 a in
  if sz <? MULTI_PART then
    buf ← fill_header temp_buffer (sz + 9);
    buf ← aset buf 2 0;
    buf ← fill_uint32 buf 3 addr;
    buf ← fill_uint32 buf 7 (if is_push then 0 else wrap 32 session);
    data ← read_mem msg 0 sz;
    buf ← write_at buf 11 data;
    s ← pushlstring buf (sz + 11);
    Some (s, 0)
  else
    let part := (sz - 1) / MULTI_PART + 1 in
    buf ← fill_header temp_buffer 13;
    buf ← aset buf 2 (if is_push then 65 else 1);
    buf ← fill_uint32 buf 3 addr;
    buf ← fill_uint32 buf 7 (wrap 32 session);
    buf ← fill_uint32 buf 11 sz;
    s ← pushlstring buf 15;
    Some (s, part).

(** The error frees the message; [inl tt]. *)
Definition packreq_string (a : address) (session : Z) (msg : list Z) (sz : Z) (is_push : bool) :
    option (unit + list Z * Z) :=
  match a with
  | AddrName name =>
    let namelen := Z.of_nat (length name) in
    if (namelen <? 1) || (255 <? namelen) then Some (inl tt)
    else if sz <? MULTI_PART then
      buf ← fill_header temp_buffer (sz + 6 + namelen);
      buf ← aset buf 2 128;
      buf ← aset buf 3 (wrap 8 namelen);
      buf ← write_at buf 4 name;
      buf ← fill_uint32 buf (4 + namelen) (if is_push then 0 else wrap 32 session);
      data ← read_mem msg 0 sz;
      buf ← write_at buf (8 + namelen) data;
      s ← pushlstring buf (sz + 8 + namelen);
      Some (inr (s, 0))
    else
      let part := (sz - 1) / MULTI_PART + 1 in
      buf ← fill_header temp_buffer (10 + namelen);
      buf ← aset buf 2 (if is_push then 193 else 129);
      buf ← aset buf 3 (wrap 8 namelen);
      buf ← write_at buf 4 name;
      buf ← fill_uint32 buf (4 + namelen) (wrap 32 session);
      buf ← fill_uint32 buf (8 + namelen) sz;
      s ← pushlstring buf (12 + namelen);
      Some (inr (s, part))
  | _ => Some (inl tt)
  end.

(** The loop of [packreq_multi] from part [i] on; [buf] keeps its contents from one
    part to the next, [off] is the pointer into the message. *)
Fixpoint packreq_multi_loop (n : nat) (buf : list Z) (session : Z) (msg : list Z) (off sz : Z) :
    option (list (list Z)) :=
  match n with
  | O => Some []
  | S n =>
    let s := if MULTI_PART <? sz then MULTI_PART else sz in
    buf ← aset buf 2 (if MULTI_PART <? sz then 2 else 3);
    buf ← fill_header buf (s + 5);
    buf ← fill_uint32 buf 3 (wrap 32 session);
    data ← read_mem msg off s;
    buf ← write_at buf 7 data;
    str ← pushlstring buf (s + 7);
    rest ← packreq_multi_loop n buf session msg (off + s) (wrap 32 (sz - s));
    Some (str :: rest)
  end.

Definition packreq_multi (session : Z) (msg : list Z) (sz : Z) : option (list (list Z)) :=
  let part := (sz - 1) / MULTI_PART + 1 in
  packreq_multi_loop (Z.to_nat part) temp_buffer session msg 0 sz.

(** The packed request, the next session, and the parts if there are any.  The
    pointer is [NULL] for [None]. *)
Definition packrequest (a : address) (session_arg : Z) (msg : option (list Z)) (sz_arg : Z)
    (is_push : bool) : option (unit + list Z * Z * option (list (list Z))) :=
  match msg with
  | None => Some (inl tt)
  | Some msg =>
    let sz := wrap 32 sz_arg in
    let session := swrap 32 session_arg in
    if session <=? 0 then Some (inl tt)
    else
      r ← match a with
          | AddrNumber n => x ← packreq_number n session msg sz is_push; Some (inr x)
          | _ => packreq_string a session msg sz is_push
          end;
      match r with
      | inl _ => Some (inl tt)
      | inr (s, multipak) =>
        let new_session := wrap 32 (wrap 32 session + 1) in
        let new_session := if INT_MAX <? new_session then 1 else new_session in
        if multipak =? 0 then Some (inr (s, new_session, None))
        else
          parts ← packreq_multi session msg sz;
          Some (inr (s, new_session, Some parts))
      end
  end.

Definition lpackrequest a session msg sz := packrequest a session msg sz false.
Definition lpackpush a session msg sz := packrequest a session msg sz true.

Definition lpacktrace (tag : list Z) : lua_result :=
  let sz := Z.of_nat (length tag) in
  if 32768 <? sz then lua_error
  else
    buf ← aset temp_buffer 2 4;
    buf ← fill_header buf (sz + 1);
    buf ← write_at buf 3 tag;
    s ← pushlstring buf (sz + 3);
    lua_return [LStr s].

(** The shift of the last byte into the sign bit of an [int] gives its two's
    complement value, as with the compilers of the project. *)
Definition unpack_uint32 (buf : list Z) (pos : Z) : option Z :=
  b0 ← aget buf pos;
  b1 ← aget buf (pos + 1);
  b2 ← aget buf (pos + 2);
  b3 ← aget buf (pos + 3);
  Some (wrap 32 (Z.lor (Z.lor (Z.lor b0 (Z.shiftl b1 8)) (Z.shiftl b2 16)) (Z.shiftl b3 24))).

(** A negative size is a huge [size_t], for which [skynet_malloc] aborts. *)
Definition return_buffer (buf : list Z) (off sz : Z) : option (list lval) :=
  data ← read_mem buf off sz;
  Some [LPtr data; LInt sz].

Definition unpackreq_number (buf : list Z) (sz : Z) : lua_result :=
  if sz <? 9 then lua_error
  else
    addr ← unpack_uint32 buf 1;
    session ← unpack_uint32 buf 5;
    b ← return_buffer buf 9 (sz - 9);
    lua_return (LInt addr :: LInt session :: b ++
      (if session =? 0 then [LNil; LBool true] else [])).

Definition unpackmreq_number (buf : list Z) (sz : Z) (is_push : bool) : lua_result :=
  if negb (sz =? 13) then lua_error
  else
    addr ← unpack_uint32 buf 1;
    session ← unpack_uint32 buf 5;
    size ← unpack_uint32 buf 9;
    lua_return [LInt addr; LInt session; LNil; LInt size; LBool true; LBool is_push].

Definition unpackmreq_part (buf : list Z) (sz : Z) : lua_result :=
  if sz <? 5 then lua_error
  else
    b0 ← aget buf 0;
    session ← unpack_uint32 buf 1;
    b ← return_buffer buf 5 (sz - 5);
    lua_return (LBool false :: LInt session :: b ++ [LBool (b0 =? 2)]).

Definition unpacktrace (buf : list Z) (sz : Z) : lua_result :=
  s ← read_mem buf 1 (sz - 1);
  lua_return [LStr s].

Definition unpackreq_string (buf : list Z) (sz : Z) : lua_result :=
  if sz <? 2 then lua_error
  else
    namesz ← aget buf 1;
    if sz <? namesz + 6 then lua_error
    else
      name ← read_mem buf 2 namesz;
      session ← unpack_uint32 buf (namesz + 2);
      b ← return_buffer buf (2 + namesz + 4) (sz - namesz - 6);
      lua_return (LStr name :: LInt session :: b ++
        (if session =? 0 then [LNil; LBool true] else [])).

Definition unpackmreq_string (buf : list Z) (sz : Z) (is_push : bool) : lua_result :=
  if sz <? 2 then lua_error
  else
    namesz ← aget buf 1;
    if sz <? namesz + 10 then lua_error
    else
      name ← read_mem buf 2 namesz;
      session ← unpack_uint32 buf (namesz + 2);
      size ← unpack_uint32 buf (namesz + 6);
      lua_return [LStr name; LInt session; LNil; LInt size; LBool true; LBool is_push].

Definition lunpackrequest (msg : list Z) (sz_arg : Z) : lua_result :=
  let sz := swrap 32 sz_arg in
  if sz =? 0 then lua_error
  else
    t ← aget msg 0;
    if t =? 0 then unpackreq_number msg sz
    else if t =? 1 then unpackmreq_number msg sz false
    else if t =? 65 then unpackmreq_number msg sz true
    else if (t =? 2) || (t =? 3) then unpackmreq_part msg sz
    else if t =? 4 then unpacktrace msg sz
    else if t =? 128 then unpackreq_string msg sz
    else if t =? 129 then unpackmreq_string msg sz false
    else if t =? 193 then unpackmreq_string msg sz true
    else lua_error.

(** ** Responses *)

Fixpoint packresponse_loop (n : nat) (buf : list Z) (session : Z) (msg : list Z) (off sz : Z) :
    option (list (list Z)) :=
  match n with
  | O => Some []
  | S n =>
    let s := if MULTI_PART <? sz then MULTI_PART else sz in
    buf ← aset buf 6 (if MULTI_PART <? sz then 3 else 4);
    buf ← fill_header buf (s + 5);
    buf ← fill_uint32 buf 2 session;
    data ← read_mem msg off s;
    buf ← write_at buf 7 data;
    str ← pushlstring buf (s + 7);
    rest ← packresponse_loop n buf session msg (off + s) (wrap 64 (sz - s));
    Some (str :: rest)
  end.

(** A single package, or the table of the packages of a long response. *)
Definition lpackresponse (session_arg : Z) (ok : bool) (msg : list Z) (sz_arg : Z) :
    option (list Z + list (list Z)) :=
  let session := wrap 32 session_arg in
  let sz := wrap 64 sz_arg in
  if ok && (MULTI_PART <? sz) then
    let part := swrap 32 ((sz - 1) / MULTI_PART + 1) in
    buf ← fill_header temp_buffer 9;
    buf ← fill_uint32 buf 2 session;
    buf ← aset buf 6 2;
    buf ← fill_uint32 buf 7 (wrap 32 sz);
    s ← pushlstring buf 11;
    parts ← packresponse_loop (Z.to_nat part) buf session msg 0 sz;
    Some (inr (s :: parts))
  else
    let sz := if negb ok && (MULTI_PART <? sz) then MULTI_PART else sz in
    buf ← fill_header temp_buffer (sz + 5);
    buf ← fill_uint32 buf 2 session;
    buf ← aset buf 6 (if ok then 1 else 0);
    data ← read_mem msg 0 sz;
    buf ← write_at buf 7 data;
    s ← pushlstring buf (sz + 7);
    Some (inl s).

(** The values returned, none for a package that is not a response. *)
Definition lunpackresponse (buf : list Z) : option (list lval) :=
  let sz := Z.of_nat (length buf) in
  if sz <? 5 then Some []
  else
    session ← unpack_uint32 buf 0;
    t ← aget buf 4;
    if t =? 0 then
      s ← read_mem buf 5 (sz - 5); Some [LInt session; LBool false; LStr s]
    else if (t =? 1) || (t =? 4) then
      s ← read_mem buf 5 (sz - 5); Some [LInt session; LBool true; LStr s]
    else if t =? 2 then
      if negb (sz =? 9) then Some []
      else
        size ← unpack_uint32 buf 5;
        Some [LInt session; LBool true; LInt size; LBool true]
    else if t =? 3 then
      s ← read_mem buf 5 (sz - 5); Some [LInt session; LBool true; LStr s; LBool true]
    else Some [].

(** ** Collecting the parts *)

(** The table gets one more value; a block is freed after its bytes are copied. *)
Definition lappend (t : list lval) (msg : lval) (sz : lval) : option (unit + list lval) :=
  match msg with
  | LNil => Some (inr (t ++ [sz]))
  | LPtr block =>
    match sz with
    | LInt n =>
      s ← read_mem block 0 (swrap 32 n);
      Some (inr (t ++ [LStr s]))
    | _ => Some (inl tt)
    end
  | _ => Some (inl tt)
  end.

Fixpoint concat_loop (t : list lval) (buff : list Z) (offset sz : Z) : option (option (list Z)) :=
  match t with
  | LStr str :: t =>
    if sz <? Z.of_nat (length str) + offset then Some None
    else
      buff ← write_at buff offset str;
      concat_loop t buff (offset + Z.of_nat (length str)) sz
  | _ => Some (if offset =? sz then Some buff else None)
  end.

(** The block and its size, or nothing.  [skynet_malloc] aborts when it gets a
    negative size. *)
Definition lconcat (t : list lval) : option (option (list Z * Z)) :=
  match t with
  | LInt n :: t =>
    let sz := swrap 32 n in
    if sz <? 0 then None
    else
      r ← concat_loop t (replicate (Z.to_nat sz) 0) 0 sz;
      Some (match r with Some buff => Some (buff, sz) | None => None end)
  | _ => Some None
  end.

(** [cluster.isname] of a string. *)
Definition lisname (name : list Z) : bool :=
  match name with c :: _ => c =? 64 | [] => false end.
