(* ===== verification/ClusterSpec.v ===== *)
(** The format of the cluster messages (Cluster.v): every packed string is a frame
    of the gate (Netpack.v) around a body, the parts of a long message are its
    consecutive pieces, and the unpacking functions read the bodies back. *)
From S2P Require Import Prelude Bytes Buffer Ring Netpack Cluster.
Local Open Scope Z_scope.

(** ** Filling the local buffer *)

(** The buffer starts with the bytes [out]. *)
Definition has (buf out : list Z) : Prop :=
  Z.of_nat (length buf) = TEMP_LENGTH ∧ take (length out) buf = out.

Lemma has_temp : has temp_buffer [].
Proof. split; [|done]. unfold temp_buffer. rewrite length_replicate. by rewrite Z2Nat.id. Qed.

Lemma has_length buf out : has buf out → Z.of_nat (length out) ≤ TEMP_LENGTH.
Proof.
  intros [Hl Ht]. rewrite <- Hl, <- Ht, length_take. lia.
Qed.

Lemma has_set buf out pos b :
  has buf out → pos = Z.of_nat (length out) → pos < TEMP_LENGTH →
  ∃ buf', aset buf pos b = Some buf' ∧ has buf' (out ++ [b]).
Proof.
  intros [Hl Ht] -> Hp. destruct (aset_append buf out b Ht) as (buf' & E & Hl' & Ht'); [lia|].
  exists buf'. split; [done|]. split; [by rewrite Hl'|done].
Qed.

Lemma has_write buf out pos bytes :
  has buf out → pos = Z.of_nat (length out) →
  pos + Z.of_nat (length bytes) ≤ TEMP_LENGTH →
  ∃ buf', write_at buf pos bytes = Some buf' ∧ has buf' (out ++ bytes).
Proof.
  intros [Hl Ht] -> Hp. destruct (write_append buf out bytes Ht) as (buf' & E & Hl' & Ht'); [lia|].
  exists buf'. split; [done|]. split; [by rewrite Hl'|done].
Qed.

Lemma land_byte z : Z.land z 255 = wrap 8 z.
Proof. by apply (land_low z 8). Qed.

Lemma has_fill buf out pos n :
  has buf out → pos = Z.of_nat (length out) → pos + 4 ≤ TEMP_LENGTH →
  ∃ buf', fill_uint32 buf pos n = Some buf' ∧ has buf' (out ++ le_bytes 4 n).
Proof.
  intros H Hp Hl. unfold fill_uint32. rewrite !land_byte.
  destruct (has_set buf out pos (wrap 8 n) H Hp) as (b1 & -> & H1); [lia|].
  cbn [mbind option_bind].
  destruct (has_set b1 _ (pos + 1) (wrap 8 (Z.shiftr n 8)) H1) as (b2 & -> & H2);
    [rewrite length_app; cbn [length]; lia|lia|]. cbn [mbind option_bind].
  destruct (has_set b2 _ (pos + 2) (wrap 8 (Z.shiftr n 16)) H2) as (b3 & -> & H3);
    [rewrite !length_app; cbn [length]; lia|lia|]. cbn [mbind option_bind].
  destruct (has_set b3 _ (pos + 3) (wrap 8 (Z.shiftr n 24)) H3) as (b4 & -> & H4);
    [rewrite !length_app; cbn [length]; lia|lia|].
  exists b4. split; [done|]. cbn [le_bytes]. rewrite !Z.shiftr_shiftr by lia.
  rewrite <- !app_assoc in H4. exact H4.
Qed.

Lemma has_header buf sz :
  Z.of_nat (length buf) = TEMP_LENGTH → sz < 65536 →
  ∃ buf', fill_header buf sz = Some buf' ∧ has buf' (write_size sz).
Proof.
  intros Hl Hs. unfold fill_header. rewrite c_assert_true by lia.
  destruct (has_set buf [] 0 (Z.land (Z.shiftr sz 8) 255)) as (b1 & -> & H1); [done..|].
  cbn [mbind option_bind].
  destruct (has_set b1 _ 1 (Z.land sz 255) H1) as (b2 & -> & H2); [done..|].
  by exists b2.
Qed.

Lemma has_push buf out n : has buf out → n = Z.of_nat (length out) → pushlstring buf n = Some out.
Proof.
  intros H ->. pose proof (has_length _ _ H) as Hl. destruct H as [Hl' Ht].
  unfold pushlstring, read_mem.
  rewrite (proj2 (Z.leb_le _ _) (Z.le_refl 0)), (proj2 (Z.leb_le 0 _)), (proj2 (Z.leb_le _ _)) by lia.
  cbn [andb]. change (Z.to_nat 0) with 0%nat. by rewrite drop_0, Nat2Z.id, Ht.
Qed.

(** The first seven cells. *)
Lemma cells7 (buf : list Z) :
  Z.of_nat (length buf) = TEMP_LENGTH →
  ∃ b0 b1 b2 b3 b4 b5 b6 rest, buf = b0 :: b1 :: b2 :: b3 :: b4 :: b5 :: b6 :: rest.
Proof.
  unfold TEMP_LENGTH. intros H.
  do 7 (destruct buf as [|? buf]; [exfalso; cbn [length] in H; lia|]). by repeat eexists.
Qed.

(** The type of a part is written before the header. *)
Lemma has_tag_header (buf : list Z) t sz :
  Z.of_nat (length buf) = TEMP_LENGTH → sz < 65536 →
  ∃ b1 b2, aset buf 2 t = Some b1 ∧ fill_header b1 sz = Some b2 ∧ has b2 (write_size sz ++ [t]).
Proof.
  intros Hl Hs. destruct (cells7 buf Hl) as (c0 & c1 & c2 & c3 & c4 & c5 & c6 & rest & ->).
  exists (c0 :: c1 :: t :: c3 :: c4 :: c5 :: c6 :: rest).
  exists (write_size sz ++ t :: c3 :: c4 :: c5 :: c6 :: rest).
  rewrite aset_Some by (unfold TEMP_LENGTH in *; lia). split; [done|].
  unfold fill_header. rewrite c_assert_true by lia. cbn [length] in Hl.
  rewrite aset_Some by (unfold TEMP_LENGTH in *; cbn [length]; lia). cbn [mbind option_bind].
  change (Z.to_nat 0) with 0%nat. cbn [insert list_insert].
  rewrite aset_Some by (unfold TEMP_LENGTH in *; cbn [length]; lia).
  change (Z.to_nat 1) with 1%nat. cbn [insert list_insert]. split; [done|].
  split; [rewrite length_app; cbn [length write_size]; lia|done].
Qed.

Lemma has_type_header (buf : list Z) t session sz :
  Z.of_nat (length buf) = TEMP_LENGTH → sz < 65536 →
  ∃ b1 b2 b3, aset buf 6 t = Some b1 ∧ fill_header b1 sz = Some b2 ∧
    fill_uint32 b2 2 session = Some b3 ∧ has b3 (write_size sz ++ le_bytes 4 session ++ [t]).
Proof.
  intros Hl Hs. destruct (cells7 buf Hl) as (c0 & c1 & c2 & c3 & c4 & c5 & c6 & rest & ->).
  exists (c0 :: c1 :: c2 :: c3 :: c4 :: c5 :: t :: rest).
  exists (write_size sz ++ c2 :: c3 :: c4 :: c5 :: t :: rest).
  exists (write_size sz ++ le_bytes 4 session ++ t :: rest).
  unfold TEMP_LENGTH in *. cbn [length] in Hl. rewrite aset_Some by (cbn [length]; lia).
  split; [done|].
  unfold fill_header. rewrite c_assert_true by lia.
  rewrite aset_Some by (cbn [length]; lia). cbn [mbind option_bind].
  change (Z.to_nat 0) with 0%nat. cbn [insert list_insert].
  rewrite aset_Some by (cbn [length]; lia). change (Z.to_nat 1) with 1%nat.
  cbn [insert list_insert]. split; [done|].
  unfold fill_uint32, write_size. cbn [app]. rewrite !land_byte.
  rewrite aset_Some by (cbn [length]; lia). cbn [mbind option_bind].
  change (Z.to_nat 2) with 2%nat. cbn [insert list_insert].
  rewrite aset_Some by (cbn [length]; lia). cbn [mbind option_bind].
  change (Z.to_nat (2 + 1)) with 3%nat. cbn [insert list_insert].
  rewrite aset_Some by (cbn [length]; lia). cbn [mbind option_bind].
  change (Z.to_nat (2 + 2)) with 4%nat. cbn [insert list_insert].
  rewrite aset_Some by (cbn [length]; lia).
  change (Z.to_nat (2 + 3)) with 5%nat. cbn [insert list_insert].
  split; [cbn [le_bytes app]; by rewrite !Z.shiftr_shiftr by lia|].
  split; [unfold TEMP_LENGTH; cbn [le_bytes app length]; lia|done].
Qed.

Lemma read_mem_all (msg : list Z) : read_mem msg 0 (Z.of_nat (length msg)) = Some msg.
Proof.
  unfold read_mem. rewrite (proj2 (Z.leb_le _ _) (Z.le_refl 0)), (proj2 (Z.leb_le 0 _)),
    (proj2 (Z.leb_le _ _)) by lia.
  cbn [andb]. change (Z.to_nat 0) with 0%nat. by rewrite drop_0, Nat2Z.id, firstn_all.
Qed.

Lemma read_mem_at pre data post off n :
  off = Z.of_nat (length pre) → n = Z.of_nat (length data) →
  read_mem (pre ++ data ++ post) off n = Some data.
Proof.
  intros -> ->. unfold read_mem. rewrite !length_app.
  rewrite !(proj2 (Z.leb_le 0 _)), (proj2 (Z.leb_le _ _)) by lia.
  cbn [andb]. by rewrite !Nat2Z.id, drop_app_length, take_app_length.
Qed.

Lemma read_mem_end pre data off n :
  off = Z.of_nat (length pre) → n = Z.of_nat (length data) →
  read_mem (pre ++ data) off n = Some data.
Proof. intros. rewrite <- (app_nil_r data) at 1. by apply read_mem_at. Qed.

(** ** The bodies of the packages *)

Definition addr_ok (a : address) : Prop :=
  match a with
  | AddrNumber _ => True
  | AddrName name => 1 ≤ Z.of_nat (length name) ≤ 255
  | AddrOther => False
  end.

(** The type of a request to a name has the high bit. *)
Definition addr_type (a : address) (t : Z) : Z :=
  match a with AddrName _ => t + 128 | _ => t end.

Definition addr_bytes (a : address) : list Z :=
  match a with
  | AddrNumber n => le_bytes 4 (wrap 32 n)
  | AddrName name => wrap 8 (Z.of_nat (length name)) :: name
  | AddrOther => []
  end.

Definition single_body (a : address) (session : Z) (msg : list Z) (is_push : bool) : list Z :=
  addr_type a 0 :: addr_bytes a ++ le_bytes 4 (if is_push then 0 else wrap 32 session) ++ msg.

Definition multi_body (a : address) (session size : Z) (is_push : bool) : list Z :=
  addr_type a (if is_push then 65 else 1) :: addr_bytes a ++ le_bytes 4 (wrap 32 session) ++
  le_bytes 4 size.

(** [MULTI_PART] as a natural number that is not computed. *)
Lemma part_size_sig : { n : nat | 32768 ≤ Z.of_nat n ≤ 32768 }.
Proof. exists (Z.to_nat MULTI_PART). unfold MULTI_PART. lia. Qed.

Definition part_size : nat := proj1_sig part_size_sig.

Fixpoint pieces (n : nat) (msg : list Z) : list (list Z) :=
  match n with
  | O => []
  | S n => take part_size msg :: pieces n (drop part_size msg)
  end.

(** The number of parts of a message. *)
Definition parts (msg : list Z) : nat := Z.to_nat ((Z.of_nat (length msg) - 1) / MULTI_PART + 1).

Definition part_body (session : Z) (last : bool) (data : list Z) : list Z :=
  (if last then 3 else 2) :: le_bytes 4 (wrap 32 session) ++ data.

(** All the pieces, with a mark on the last. *)
Fixpoint mark_last {A B} (f : bool → A → B) (l : list A) : list B :=
  match l with
  | [] => []
  | [x] => [f true x]
  | x :: l => f false x :: mark_last f l
  end.

Definition part_bodies (session : Z) (msg : list Z) : list (list Z) :=
  mark_last (part_body session) (pieces (parts msg) msg).

Lemma part_size_Z : 32768 ≤ Z.of_nat part_size ≤ 32768.
Proof. exact (proj2_sig part_size_sig). Qed.

Lemma parts_pos msg : msg ≠ [] → (0 < parts msg)%nat.
Proof.
  intros Hm. unfold parts, MULTI_PART. destruct msg; [done|]. cbn [length].
  pose proof (Z.div_pos (Z.of_nat (S (length msg)) - 1) 32768). lia.
Qed.

Lemma parts_nil : parts [] = 0%nat.
Proof. done. Qed.

Lemma parts_drop msg : msg ≠ [] → parts msg = S (parts (drop part_size msg)).
Proof.
  intros Hm. pose proof part_size_Z. unfold parts. rewrite length_drop.
  destruct msg as [|b msg]; [done|]. unfold MULTI_PART.
  set (n := length (b :: msg)) in *. assert (0 < n)%nat by (unfold n; cbn [length]; lia).
  destruct (decide (n ≤ part_size)%nat).
  - replace (n - part_size)%nat with 0%nat by lia. change (Z.of_nat 0) with 0.
    rewrite (Z.div_small (Z.of_nat n - 1)) by lia. done.
  - rewrite Nat2Z.inj_sub by lia. replace (Z.of_nat part_size) with 32768 by lia.
    replace (Z.of_nat n - 32768 - 1) with (Z.of_nat n - 1 + (-1) * 32768) by lia.
    rewrite Z.div_add by lia. pose proof (Z.div_pos (Z.of_nat n - 1) 32768).
    assert (1 ≤ (Z.of_nat n - 1) / 32768) by (apply Z.div_le_lower_bound; lia). lia.
Qed.

Lemma parts_short msg : msg ≠ [] → (parts msg = 1)%nat ↔ Z.of_nat (length msg) ≤ MULTI_PART.
Proof.
  intros Hm. pose proof part_size_Z. rewrite parts_drop by done. unfold MULTI_PART. split.
  - intros H1. destruct (decide (drop part_size msg = [])) as [E|E].
    + apply (f_equal length) in E. rewrite length_drop in E. cbn [length] in E. lia.
    + apply parts_pos in E. lia.
  - intros H1. rewrite drop_ge by lia. done.
Qed.

Lemma pieces_short n msg : Forall (λ p, Z.of_nat (length p) ≤ 32768) (pieces n msg).
Proof.
  revert msg. induction n as [|n IH]; intros msg; cbn [pieces]; constructor; [|apply IH].
  pose proof part_size_Z. rewrite length_take. lia.
Qed.

Lemma mark_last_nil {A B} (f : bool → A → B) l : mark_last f l = [] ↔ l = [].
Proof. destruct l as [|x [|y l]]; cbn [mark_last]; done. Qed.

Lemma mark_last_forall {A B} (P : B → Prop) (f : bool → A → B) l :
  (∀ b x, x ∈ l → P (f b x)) → Forall P (mark_last f l).
Proof.
  induction l as [|x [|y l] IH]; intros H; cbn [mark_last]; [constructor| |].
  - constructor; [apply H; left|constructor].
  - constructor; [apply H; left|]. apply IH. intros b z Hz. apply H. by right.
Qed.

(** The packages of the parts: the loop of the code and the pieces. *)
Lemma pieces_step (f : bool → list Z → list Z) msg :
  msg ≠ [] →
  mark_last f (pieces (parts msg) msg)
  = f (negb (MULTI_PART <? Z.of_nat (length msg))) (take part_size msg)
    :: mark_last f (pieces (parts (drop part_size msg)) (drop part_size msg)).
Proof.
  intros Hm. rewrite parts_drop by done. cbn [pieces]. pose proof part_size_Z.
  destruct (decide (drop part_size msg = [])) as [E|E].
  - rewrite E. apply (f_equal length) in E. rewrite length_drop in E. cbn [length] in E.
    unfold MULTI_PART. rewrite (proj2 (Z.ltb_ge _ _)) by lia. done.
  - rewrite (parts_drop (drop part_size msg)) by done. cbn [pieces mark_last].
    assert (length (drop part_size msg) ≠ 0%nat) as Hd by (by intros ?%nil_length_inv).
    rewrite length_drop in Hd. unfold MULTI_PART.
    rewrite (proj2 (Z.ltb_lt _ _)) by lia. done.
Qed.

Lemma bool_size (b : bool) {A} (x y : A) : (if negb b then x else y) = if b then y else x.
Proof. by destruct b. Qed.

Lemma packreq_multi_loop_spec n buf session pre msg off sz :
  Z.of_nat (length buf) = TEMP_LENGTH → n = parts msg →
  off = Z.of_nat (length pre) → sz = Z.of_nat (length msg) → sz < 2 ^ 32 →
  packreq_multi_loop n buf session (pre ++ msg) off sz
  = Some (map frame (mark_last (part_body session) (pieces n msg))).
Proof.
  revert buf pre msg off sz. induction n as [|n IH]; intros buf pre msg off sz Hb Hn -> -> Hs; [done|].
  assert (msg ≠ []) as Hm by (by intros ->).
  pose proof part_size_Z as Hp. pose proof (parts_drop msg Hm) as Hpd. rewrite <- Hn in Hpd.
  rewrite Hn at 2. rewrite pieces_step by done. cbn [packreq_multi_loop]. cbn zeta.
  set (sz := Z.of_nat (length msg)) in *.
  assert ((if MULTI_PART <? sz then MULTI_PART else sz) = Z.of_nat (length (take part_size msg))) as Es.
  { rewrite length_take. unfold MULTI_PART. destruct (Z.ltb_spec 32768 sz); lia. }
  rewrite Es. set (s := Z.of_nat (length (take part_size msg))) in *.
  assert (s ≤ 32768) as Hs1 by (unfold s; rewrite length_take; lia).
  destruct (has_tag_header buf (if MULTI_PART <? sz then 2 else 3) (s + 5) Hb)
    as (b1 & b2 & -> & E2 & H2); [lia|].
  cbn [mbind option_bind]. rewrite E2. cbn [mbind option_bind].
  destruct (has_fill b2 _ 3 (wrap 32 session) H2) as (b3 & -> & H3);
    [done|unfold TEMP_LENGTH; lia|]. cbn [mbind option_bind].
  rewrite <- (take_drop part_size msg) at 1. rewrite read_mem_at by done. cbn [mbind option_bind].
  destruct (has_write b3 _ 7 (take part_size msg) H3) as (b4 & -> & H4);
    [done|unfold TEMP_LENGTH; lia|]. cbn [mbind option_bind].
  rewrite (has_push _ _ _ H4) by (rewrite !length_app, length_le_bytes; cbn [length write_size]; lia).
  cbn [mbind option_bind]. rewrite (wrap_small 32 (sz - s)) by (unfold s, sz; rewrite length_take; lia).
  rewrite <- (take_drop part_size msg) at 1. rewrite app_assoc.
  rewrite IH.
  - injection Hpd as <-. cbn [map mbind option_bind]. f_equal. f_equal.
    unfold frame, part_body. rewrite bool_size. cbn [length]. rewrite length_app, length_le_bytes.
    replace (Z.of_nat (S (4 + length (take part_size msg)))) with (s + 5) by lia.
    by rewrite <- !app_assoc.
  - by destruct H4.
  - by injection Hpd.
  - rewrite length_app. lia.
  - unfold s, sz. rewrite length_take, length_drop. lia.
  - unfold s, sz. rewrite length_take. lia.
Qed.

Lemma packreq_multi_spec session msg :
  Z.of_nat (length msg) < 2 ^ 32 →
  packreq_multi session msg (Z.of_nat (length msg)) = Some (map frame (part_bodies session msg)).
Proof.
  intros Hs. unfold packreq_multi, part_bodies.
  apply (packreq_multi_loop_spec _ temp_buffer session [] msg); try done.
Qed.

(** One step that fills the buffer; the side conditions are the position and the
    room. *)
Ltac buf_side :=
  rewrite ?length_app, ?length_le_bytes; unfold TEMP_LENGTH;
  cbn [length write_size le_bytes]; rewrite ?length_app, ?length_le_bytes; lia.

Tactic Notation "buf_step" hyp(H) open_constr(lem) :=
  let b := fresh "b" in
  let H' := fresh "H" in
  let E := fresh "E" in
  edestruct lem as (b & E & H'); [exact H|buf_side|buf_side|];
  rewrite E; cbn [mbind option_bind]; clear H E; rename H' into H.

Lemma packreq_number_spec n session msg is_push :
  Z.of_nat (length msg) < 2 ^ 32 →
  packreq_number n session msg (Z.of_nat (length msg)) is_push
  = Some (if Z.of_nat (length msg) <? MULTI_PART
          then (frame (single_body (AddrNumber n) session msg is_push), 0)
          else (frame (multi_body (AddrNumber n) session (Z.of_nat (length msg)) is_push),
                Z.of_nat (parts msg))).
Proof.
  intros Hs. unfold packreq_number. set (sz := Z.of_nat (length msg)) in *.
  destruct (Z.ltb_spec sz MULTI_PART) as [Hlt|Hge]; unfold MULTI_PART in *.
  - destruct (has_header temp_buffer (sz + 9)) as (b0 & -> & H); [apply has_temp|lia|].
    cbn [mbind option_bind].
    buf_step H (has_set b0 (write_size (sz + 9)) 2 0).
    buf_step H (has_fill b _ 3 (wrap 32 n)).
    buf_step H (has_fill b1 _ 7 (if is_push then 0 else wrap 32 session)).
    unfold sz at 1. rewrite read_mem_all. cbn [mbind option_bind].
    buf_step H (has_write b2 _ 11 msg).
    rewrite (has_push _ _ _ H) by buf_side. cbn [mbind option_bind].
    do 2 f_equal. unfold frame, single_body.
    cbn [addr_type addr_bytes length]. rewrite !length_app, !length_le_bytes.
    replace (Z.of_nat (S (4 + (4 + length msg)))) with (sz + 9) by lia.
    by rewrite <- !app_assoc.
  - destruct (has_header temp_buffer 13) as (b0 & -> & H); [apply has_temp|lia|].
    cbn [mbind option_bind].
    buf_step H (has_set b0 (write_size 13) 2 (if is_push then 65 else 1)).
    buf_step H (has_fill b _ 3 (wrap 32 n)).
    buf_step H (has_fill b1 _ 7 (wrap 32 session)).
    buf_step H (has_fill b2 _ 11 sz).
    rewrite (has_push _ _ _ H) by buf_side.
    cbn [mbind option_bind]. unfold parts, MULTI_PART. fold sz.
    pose proof (Z.div_pos (sz - 1) 32768). rewrite Z2Nat.id by lia. done.
Qed.

Lemma packreq_string_spec name session msg is_push :
  Z.of_nat (length msg) < 2 ^ 32 → addr_ok (AddrName name) →
  packreq_string (AddrName name) session msg (Z.of_nat (length msg)) is_push
  = Some (inr (if Z.of_nat (length msg) <? MULTI_PART
          then (frame (single_body (AddrName name) session msg is_push), 0)
          else (frame (multi_body (AddrName name) session (Z.of_nat (length msg)) is_push),
                Z.of_nat (parts msg)))).
Proof.
  intros Hs Hn. cbn [addr_ok] in Hn. unfold packreq_string.
  set (sz := Z.of_nat (length msg)) in *. set (nl := Z.of_nat (length name)) in *.
  rewrite (proj2 (Z.ltb_ge nl 1)), (proj2 (Z.ltb_ge 255 nl)) by lia. cbn [orb].
  destruct (Z.ltb_spec sz MULTI_PART) as [Hlt|Hge]; unfold MULTI_PART in *.
  - destruct (has_header temp_buffer (sz + 6 + nl)) as (b0 & -> & H); [apply has_temp|lia|].
    cbn [mbind option_bind].
    buf_step H (has_set b0 (write_size (sz + 6 + nl)) 2 128).
    buf_step H (has_set b _ 3 (wrap 8 nl)).
    buf_step H (has_write b1 _ 4 name).
    buf_step H (has_fill b2 _ (4 + nl) (if is_push then 0 else wrap 32 session)).
    unfold sz at 1. rewrite read_mem_all. cbn [mbind option_bind].
    buf_step H (has_write b3 _ (8 + nl) msg).
    rewrite (has_push _ _ _ H) by buf_side. cbn [mbind option_bind].
    do 3 f_equal. unfold frame, single_body.
    cbn [addr_type addr_bytes length app]. rewrite !length_app, !length_le_bytes.
    replace (Z.of_nat (S (S (length name + (4 + length msg))))) with (sz + 6 + nl) by lia.
    by rewrite <- !app_assoc.
  - destruct (has_header temp_buffer (10 + nl)) as (b0 & -> & H); [apply has_temp|lia|].
    cbn [mbind option_bind].
    buf_step H (has_set b0 (write_size (10 + nl)) 2 (if is_push then 193 else 129)).
    buf_step H (has_set b _ 3 (wrap 8 nl)).
    buf_step H (has_write b1 _ 4 name).
    buf_step H (has_fill b2 _ (4 + nl) (wrap 32 session)).
    buf_step H (has_fill b3 _ (8 + nl) sz).
    rewrite (has_push _ _ _ H) by buf_side. cbn [mbind option_bind].
    unfold parts, MULTI_PART. fold sz.
    pose proof (Z.div_pos (sz - 1) 32768). rewrite Z2Nat.id by lia. do 3 f_equal.
    unfold frame, multi_body.
    cbn [addr_type addr_bytes length app]. rewrite !length_app, !length_le_bytes.
    replace (Z.of_nat (S (S (length name + (4 + 4))))) with (10 + nl) by lia.
    rewrite <- !app_assoc. by destruct is_push.
Qed.

Definition next_session (session : Z) : Z := if session =? INT_MAX then 1 else session + 1.

Lemma packrequest_spec a session msg is_push :
  addr_ok a → 1 ≤ session ≤ INT_MAX → Z.of_nat (length msg) < 2 ^ 32 →
  packrequest a session (Some msg) (Z.of_nat (length msg)) is_push
  = Some (inr (if Z.of_nat (length msg) <? MULTI_PART
      then (frame (single_body a session msg is_push), next_session session, None)
      else (frame (multi_body a session (Z.of_nat (length msg)) is_push), next_session session,
            Some (map frame (part_bodies session msg))))).
Proof.
  intros Ha Hse Hs. unfold packrequest, INT_MAX in *.
  rewrite (wrap_small 32 (Z.of_nat _)), swrap_small by lia.
  rewrite (proj2 (Z.leb_gt _ _)) by lia. cbn zeta.
  assert ((if 2147483647 <? wrap 32 (wrap 32 session + 1) then 1
    else wrap 32 (wrap 32 session + 1)) = next_session session) as ->.
  { rewrite !(wrap_small 32) by (rewrite ?(wrap_small 32 session); lia).
    unfold next_session, INT_MAX. destruct (Z.eqb_spec session 2147483647), (Z.ltb_spec 2147483647 (session + 1)); lia. }
  assert (0 < Z.of_nat (length msg) → Z.of_nat (parts msg) ≠ 0) as Hp.
  { intros Hl. assert (msg ≠ []) as Hm by (intros ->; cbn in Hl; lia). apply parts_pos in Hm. lia. }
  destruct a as [n|name|]; [|idtac|done].
  - rewrite packreq_number_spec by done. cbn [mbind option_bind].
    destruct (Z.ltb_spec (Z.of_nat (length msg)) MULTI_PART) as [Hlt|Hge]; [done|].
    unfold MULTI_PART in Hge. rewrite (proj2 (Z.eqb_neq _ _)) by (apply Hp; lia).
    by rewrite packreq_multi_spec.
  - rewrite packreq_string_spec by done. cbn [mbind option_bind].
    destruct (Z.ltb_spec (Z.of_nat (length msg)) MULTI_PART) as [Hlt|Hge]; [done|].
    unfold MULTI_PART in Hge. rewrite (proj2 (Z.eqb_neq _ _)) by (apply Hp; lia).
    by rewrite packreq_multi_spec.
Qed.

(** ** Unpacking *)

Lemma le_val4 b0 b1 b2 b3 :
  Z.lor (Z.lor (Z.lor b0 (Z.shiftl b1 8)) (Z.shiftl b2 16)) (Z.shiftl b3 24)
  = le_val [b0; b1; b2; b3].
Proof.
  cbn [le_val]. rewrite Z.shiftl_0_l, Z.lor_0_r, !Z.shiftl_lor, !Z.shiftl_shiftl by lia.
  by rewrite !Z.lor_assoc.
Qed.

Lemma unpack_at pre n post pos :
  pos = Z.of_nat (length pre) →
  unpack_uint32 (pre ++ le_bytes 4 n ++ post) pos = Some (wrap 32 n).
Proof.
  intros ->. unfold unpack_uint32.
  assert (∀ k : nat, (k < 4)%nat →
    aget (pre ++ le_bytes 4 n ++ post) (Z.of_nat (length pre) + Z.of_nat k) = le_bytes 4 n !! k) as Hg.
  { intros k Hk. rewrite <- Nat2Z.inj_add, aget_nat, lookup_app_r by lia.
    rewrite lookup_app_l by (rewrite length_le_bytes; lia). f_equal. lia. }
  pose proof (Hg 0%nat) as H0. rewrite Z.add_0_r in H0.
  pose proof (Hg 1%nat) as H1. pose proof (Hg 2%nat) as H2. pose proof (Hg 3%nat) as H3.
  change (Z.of_nat 1) with 1 in H1. change (Z.of_nat 2) with 2 in H2.
  change (Z.of_nat 3) with 3 in H3. rewrite H0, H1, H2, H3 by lia.
  pose proof (le_val_bytes 4 n) as Hv. pose proof (le_bytes_ok 4 n) as Hok.
  change (8 * Z.of_nat 4) with 32 in Hv. cbn [le_bytes] in *. cbn [lookup list_lookup mbind option_bind].
  rewrite le_val4, Hv. rewrite wrap_small; [done|]. apply (wrap_range 32). lia.
Qed.

Definition addr_val (a : address) : lval :=
  match a with
  | AddrNumber n => LInt (wrap 32 n)
  | AddrName name => LStr name
  | AddrOther => LNil
  end.

(** The session on the wire is 0 for a push in one package. *)
Definition wire_session (session : Z) (is_push : bool) : Z :=
  if is_push then 0 else wrap 32 session.

Lemma wrap_wrap32 z : wrap 32 (wrap 32 z) = wrap 32 z.
Proof. apply wrap_small. apply (wrap_range 32). lia. Qed.

Lemma addr_bytes_length a : addr_ok a →
  Z.of_nat (length (addr_bytes a)) = match a with AddrName name => Z.of_nat (length name) + 1 | _ => 4 end.
Proof. destruct a; cbn [addr_ok addr_bytes length]; [by rewrite length_le_bytes|lia|done]. Qed.

Lemma unpack_single a session msg is_push :
  addr_ok a → Z.of_nat (length msg) < 2 ^ 30 →
  let s := wire_session session is_push in
  lunpackrequest (single_body a session msg is_push)
    (Z.of_nat (length (single_body a session msg is_push)))
  = lua_return (addr_val a :: LInt s :: LPtr msg :: LInt (Z.of_nat (length msg)) ::
      (if s =? 0 then [LNil; LBool true] else [])).
Proof.
  intros Ha Hm s. set (body := single_body a session msg is_push).
  assert (0 ≤ s < 2 ^ 32) as Hs.
  { unfold s, wire_session. destruct is_push; [lia|]. apply (wrap_range 32). lia. }
  assert (wrap 32 s = s) as Hws by (by apply wrap_small).
  pose proof (addr_bytes_length a Ha) as Hal.
  assert (Z.of_nat (length body) = Z.of_nat (length (addr_bytes a)) + 5 + Z.of_nat (length msg)) as Hl.
  { unfold body, single_body. cbn [length]. rewrite !length_app, length_le_bytes. lia. }
  unfold lunpackrequest. destruct a as [n|name|]; [| |done]; cbn [addr_ok] in Ha.
  - rewrite swrap_small by lia. rewrite (proj2 (Z.eqb_neq _ _)) by lia.
    change (aget body 0) with (Some 0). cbn [mbind option_bind].
    rewrite (proj2 (Z.eqb_eq 0 0)) by done.
    unfold unpackreq_number. rewrite (proj2 (Z.ltb_ge _ _)) by lia.
    assert (unpack_uint32 body 1 = Some (wrap 32 (wrap 32 n))) as ->.
    { exact (unpack_at [0] (wrap 32 n) (le_bytes 4 s ++ msg) 1 eq_refl). }
    assert (unpack_uint32 body 5 = Some s) as ->.
    { rewrite <- Hws. exact (unpack_at ([0] ++ le_bytes 4 (wrap 32 n)) s msg 5 eq_refl). }
    unfold return_buffer.
    assert (read_mem body 9 (Z.of_nat (length body) - 9) = Some msg) as ->.
    { apply (read_mem_end ([0] ++ le_bytes 4 (wrap 32 n) ++ le_bytes 4 s) msg); [done|lia]. }
    rewrite Hl.
    cbn [mbind option_bind app]. rewrite wrap_wrap32.
    replace (Z.of_nat (length (addr_bytes (AddrNumber n))) + 5 + Z.of_nat (length msg) - 9)
      with (Z.of_nat (length msg)) by lia.
    done.
  - rewrite swrap_small by lia. rewrite (proj2 (Z.eqb_neq _ _)) by lia.
    change (aget body 0) with (Some 128). cbn [mbind option_bind].
    change (lua_result) with (option (unit + list lval)).
    repeat (rewrite (proj2 (Z.eqb_neq 128 _)) by lia). cbn [orb].
    rewrite (proj2 (Z.eqb_eq 128 128)) by done.
    unfold unpackreq_string. rewrite (proj2 (Z.ltb_ge _ _)) by lia.
    set (nl := Z.of_nat (length name)) in *.
    change (aget body 1) with (Some (wrap 8 nl)). cbn [mbind option_bind].
    rewrite (wrap_small 8 nl) by lia. rewrite (proj2 (Z.ltb_ge _ _)) by lia.
    assert (read_mem body 2 nl = Some name) as ->.
    { apply (read_mem_at [128; wrap 8 nl] name (le_bytes 4 s ++ msg)); done. }
    assert (unpack_uint32 body (nl + 2) = Some s) as ->.
    { rewrite <- Hws. replace body with (([128; wrap 8 nl] ++ name) ++ le_bytes 4 s ++ msg)
        by (by rewrite <- app_assoc).
      apply unpack_at. rewrite length_app. cbn [length]. lia. }
    unfold return_buffer.
    assert (read_mem body (2 + nl + 4) (Z.of_nat (length body) - nl - 6) = Some msg) as ->.
    { replace body with (([128; wrap 8 nl] ++ name ++ le_bytes 4 s) ++ msg)
        by (by rewrite <- !app_assoc).
      apply read_mem_end; rewrite ?length_app, ?length_le_bytes in *; cbn [length]; lia. }
    rewrite Hl.
    cbn [mbind option_bind app].
    replace (Z.of_nat (length (addr_bytes (AddrName name))) + 5 + Z.of_nat (length msg) - nl - 6)
      with (Z.of_nat (length msg)) by lia.
    done.
Qed.

Lemma unpack_multi a session size is_push :
  addr_ok a → 
  lunpackrequest (multi_body a session size is_push)
    (Z.of_nat (length (multi_body a session size is_push)))
  = lua_return [addr_val a; LInt (wrap 32 session); LNil; LInt (wrap 32 size);
      LBool true; LBool is_push].
Proof.
  intros Ha. set (body := multi_body a session size is_push).
  pose proof (addr_bytes_length a Ha) as Hal.
  assert (Z.of_nat (length body) = Z.of_nat (length (addr_bytes a)) + 9) as Hl.
  { unfold body, multi_body. cbn [length]. rewrite !length_app, !length_le_bytes. lia. }
  unfold lunpackrequest. destruct a as [n|name|]; [| |done]; cbn [addr_ok] in Ha.
  - rewrite swrap_small by lia. rewrite (proj2 (Z.eqb_neq _ _)) by lia.
    assert (unpackmreq_number body (Z.of_nat (length body)) is_push =
      lua_return [LInt (wrap 32 n); LInt (wrap 32 session); LNil; LInt (wrap 32 size);
        LBool true; LBool is_push]) as Hu.
    { unfold unpackmreq_number. rewrite (proj2 (Z.eqb_eq _ _)) by lia. cbn [negb].
      assert (unpack_uint32 body 1 = Some (wrap 32 (wrap 32 n))) as ->.
      { exact (unpack_at [addr_type (AddrNumber n) (if is_push then 65 else 1)] (wrap 32 n)
          (le_bytes 4 (wrap 32 session) ++ le_bytes 4 size) 1 eq_refl). }
      assert (unpack_uint32 body 5 = Some (wrap 32 (wrap 32 session))) as ->.
      { exact (unpack_at ([addr_type (AddrNumber n) (if is_push then 65 else 1)] ++
          le_bytes 4 (wrap 32 n)) (wrap 32 session) (le_bytes 4 size) 5 eq_refl). }
      assert (unpack_uint32 body 9 = Some (wrap 32 size)) as ->.
      { exact (unpack_at ([addr_type (AddrNumber n) (if is_push then 65 else 1)] ++
          le_bytes 4 (wrap 32 n) ++ le_bytes 4 (wrap 32 session)) size [] 9 eq_refl). }
      cbn [mbind option_bind]. by rewrite !wrap_wrap32. }
    destruct is_push.
    + change (aget body 0) with (Some 65). exact Hu.
    + change (aget body 0) with (Some 1). exact Hu.
  - rewrite swrap_small by lia. rewrite (proj2 (Z.eqb_neq _ _)) by lia.
    set (nl := Z.of_nat (length name)) in *.
    set (t := addr_type (AddrName name) (if is_push then 65 else 1)) in *.
    assert (unpackmreq_string body (Z.of_nat (length body)) is_push =
      lua_return [LStr name; LInt (wrap 32 session); LNil; LInt (wrap 32 size);
        LBool true; LBool is_push]) as Hu.
    { unfold unpackmreq_string. rewrite (proj2 (Z.ltb_ge _ _)) by lia.
      change (aget body 1) with (Some (wrap 8 nl)). cbn [mbind option_bind].
      rewrite (wrap_small 8 nl) by lia. rewrite (proj2 (Z.ltb_ge _ _)) by lia.
      assert (read_mem body 2 nl = Some name) as ->.
      { apply (read_mem_at [t; wrap 8 nl] name
          (le_bytes 4 (wrap 32 session) ++ le_bytes 4 size)); done. }
      assert (unpack_uint32 body (nl + 2) = Some (wrap 32 (wrap 32 session))) as ->.
      { replace body with (([t; wrap 8 nl] ++ name) ++ le_bytes 4 (wrap 32 session) ++ le_bytes 4 size)
          by (by rewrite <- app_assoc).
        apply unpack_at. rewrite length_app. cbn [length]. lia. }
      assert (unpack_uint32 body (nl + 6) = Some (wrap 32 size)) as ->.
      { replace body with (([t; wrap 8 nl] ++ name ++ le_bytes 4 (wrap 32 session)) ++ le_bytes 4 size ++ [])
          by (by rewrite app_nil_r, <- !app_assoc).
        apply unpack_at. rewrite !length_app, length_le_bytes. cbn [length]. lia. }
      cbn [mbind option_bind]. by rewrite wrap_wrap32. }
    destruct is_push.
    + change (aget body 0) with (Some 193). exact Hu.
    + change (aget body 0) with (Some 129). exact Hu.
Qed.

Lemma unpack_part session last data :
  Z.of_nat (length data) < 2 ^ 30 →
  lunpackrequest (part_body session last data) (Z.of_nat (length (part_body session last data)))
  = lua_return [LBool false; LInt (wrap 32 session); LPtr data; LInt (Z.of_nat (length data));
      LBool (negb last)].
Proof.
  intros Hd. set (body := part_body session last data).
  assert (Z.of_nat (length body) = 5 + Z.of_nat (length data)) as Hl.
  { unfold body, part_body. cbn [length]. rewrite length_app, length_le_bytes. lia. }
  unfold lunpackrequest. rewrite swrap_small by lia. rewrite (proj2 (Z.eqb_neq _ _)) by lia.
  assert (unpackmreq_part body (Z.of_nat (length body)) =
    lua_return [LBool false; LInt (wrap 32 session); LPtr data; LInt (Z.of_nat (length data));
      LBool (negb last)]) as Hu.
  { unfold unpackmreq_part. rewrite (proj2 (Z.ltb_ge _ _)) by lia.
    change (aget body 0) with (Some (if last then 3 else 2)). cbn [mbind option_bind].
    assert (unpack_uint32 body 1 = Some (wrap 32 (wrap 32 session))) as ->.
    { exact (unpack_at [if last then 3 else 2] (wrap 32 session) data 1 eq_refl). }
    unfold return_buffer.
    assert (read_mem body 5 (Z.of_nat (length body) - 5) = Some data) as ->.
    { apply (read_mem_end ([if last then 3 else 2] ++ le_bytes 4 (wrap 32 session)) data);
        [done|lia]. }
    cbn [mbind option_bind app]. rewrite wrap_wrap32, Hl.
    replace (5 + Z.of_nat (length data) - 5) with (Z.of_nat (length data)) by lia.
    by destruct last. }
  destruct last.
  - change (aget body 0) with (Some 3). exact Hu.
  - change (aget body 0) with (Some 2). exact Hu.
Qed.

(** ** Collecting *)

Lemma length_pieces_concat n msg : n = parts msg → concat (pieces n msg) = msg.
Proof.
  revert msg. induction n as [|n IH]; intros msg Hn; cbn [pieces concat].
  - destruct (decide (msg = [])) as [->|Hm]; [done|]. apply parts_pos in Hm. lia.
  - destruct (decide (msg = [])) as [->|Hm]; [by rewrite parts_nil in Hn|].
    rewrite parts_drop in Hn by done. injection Hn as Hn. rewrite IH by done. apply take_drop.
Qed.

Lemma concat_loop_spec strs buff out sz :
  Z.of_nat (length buff) = sz → take (length out) buff = out →
  (length out ≤ length buff)%nat →
  length (out ++ concat strs) = length buff →
  concat_loop (LStr <$> strs) buff (Z.of_nat (length out)) sz = Some (Some (out ++ concat strs)).
Proof.
  revert buff out. induction strs as [|str strs IH]; intros buff out Hb Ht Hle Hl;
    cbn [concat fmap list_fmap concat_loop].
  - rewrite app_nil_r in *. rewrite (proj2 (Z.eqb_eq _ _)) by lia.
    do 2 f_equal. rewrite <- Ht. by rewrite take_ge by lia.
  - cbn [concat] in Hl. rewrite !length_app in Hl. rewrite (proj2 (Z.ltb_ge _ _)) by lia.
    destruct (write_append buff out str Ht) as (b' & -> & Hl' & Ht'); [lia|].
    cbn [mbind option_bind]. rewrite <- Nat2Z.inj_add, <- length_app.
    rewrite IH; [by rewrite app_assoc|by rewrite Hl'|done|rewrite length_app; lia|].
    rewrite !length_app. lia.
Qed.

Lemma lconcat_spec strs :
  Z.of_nat (length (concat strs)) < 2 ^ 31 →
  lconcat (LInt (Z.of_nat (length (concat strs))) :: (LStr <$> strs))
  = Some (Some (concat strs, Z.of_nat (length (concat strs)))).
Proof.
  intros Hs. unfold lconcat. rewrite swrap_small by lia. rewrite (proj2 (Z.ltb_ge _ _)) by lia.
  rewrite (concat_loop_spec strs _ [] _); [done| |done|cbn [length]; lia|].
  - rewrite length_replicate. lia.
  - rewrite length_replicate. cbn [app]. lia.
Qed.
