(* ===== verification/ClusterAgent.v ===== *)
(** The client of the cluster messages in Lua
    (src/framework/skynet/service/clusteragent.lua): the requests of a connection,
    whose parts may come in between those of other requests, are put together and
    delivered. *)
From S2P Require Import Prelude Bytes Buffer Ring Netpack Interleave Cluster ClusterSpec.
Local Open Scope Z_scope.

(** ** The agent *)

(** An entry of [large_request]: the array part is what [cluster.append] adds. *)
Record req := Req { r_addr : lval; r_push : lval; r_tag : option lval; r_parts : list lval }.

Record agent := Agent { large : gmap Z req; tracetag : option lval }.

(** What the agent does with a message. *)
Inductive event :=
  | Deliver (addr : lval) (session : Z) (msg : list Z) (sz : Z) (is_push : bool) (tag : option lval)
  | InvalidLarge (session : Z)      (* the response "Invalid large req" *)
  | LuaError.

Section agent.
(** The table of the registered names, by which [@name] is found. *)
Context (register_name : list Z → bool).

(** The trace tag after a delivery: it is kept by a push, the query of a name
    (address 0) and a name that is not found. *)
Definition tag_after (addr : lval) (is_push : bool) (tag : option lval) : option lval :=
  match addr with
  | LInt 0 => tag
  | LStr name =>
    if lisname name && negb (register_name name) then tag else if is_push then tag else None
  | _ => if is_push then tag else None
  end.

Definition deliver (l : gmap Z req) (addr : lval) (s : Z) (block : list Z) (sz : Z) (push : lval)
    (tag : option lval) : agent * list event :=
  (Agent l (tag_after addr (truthy push) tag), [Deliver addr s block sz (truthy push) tag]).

Definition dispatch_request (a : agent) (vals : list lval) : option (agent * list event) :=
  let addr := arg vals 0 in
  let msg := arg vals 2 in
  let sz := arg vals 3 in
  let padding := arg vals 4 in
  let is_push := arg vals 5 in
  match arg vals 1 with
  | LInt s =>
    if truthy padding then
      let req := default (Req addr is_push (tracetag a) []) (large a !! s) in
      r ← lappend (r_parts req) msg sz;
      match r with
      | inl _ => Some (Agent (<[s := req]> (large a)) None, [LuaError])
      | inr t =>
        Some (Agent (<[s := Req (r_addr req) (r_push req) (r_tag req) t]> (large a)) None, [])
      end
    else
      match large a !! s with
      | Some req =>
        r ← lappend (r_parts req) msg sz;
        match r with
        | inl _ => Some (Agent (delete s (large a)) (r_tag req), [LuaError])
        | inr t =>
          c ← lconcat t;
          match c with
          | Some (block, n) =>
            Some (deliver (delete s (large a)) (r_addr req) s block n (r_push req) (r_tag req))
          | None => Some (Agent (delete s (large a)) None, [InvalidLarge s])
          end
        end
      | None =>
        match msg, sz with
        | LPtr block, LInt n =>
          Some (deliver (large a) addr s block n is_push (tracetag a))
        | _, _ => Some (Agent (large a) None, [InvalidLarge s])
        end
      end
  | _ => Some (Agent (large a) (Some addr), [])
  end.

(** A package of the gate: the message is dropped when [unpackrequest] raises an
    error. *)
Definition agent_step (a : agent) (body : list Z) : option (agent * list event) :=
  r ← lunpackrequest body (Z.of_nat (length body));
  match r with
  | inl _ => Some (a, [LuaError])
  | inr vals => dispatch_request a vals
  end.

(** The packages of a connection, and what is done with them. *)
Definition agent_run : agent → list (list Z) → option (agent * list event) := run_steps agent_step.

(** ** The requests of the other node *)

Record request := Request {
  q_addr : address; q_session : Z; q_msg : list Z; q_push : bool;
}.

Definition q_size (q : request) : Z := Z.of_nat (length (q_msg q)).
Definition q_single (q : request) : bool := q_size q <? MULTI_PART.

Definition request_ok (q : request) : Prop :=
  addr_ok (q_addr q) ∧ 1 ≤ q_session q ≤ INT_MAX ∧ q_size q < 2 ^ 31.

(** The bodies of its packages. *)
Definition q_bodies (q : request) : list (list Z) :=
  if q_single q then [single_body (q_addr q) (q_session q) (q_msg q) (q_push q)]
  else multi_body (q_addr q) (q_session q) (q_size q) (q_push q)
       :: part_bodies (q_session q) (q_msg q).

(** The session under which the agent knows it. *)
Definition q_key (q : request) : Z :=
  if q_single q && q_push q then 0 else q_session q.

Definition q_event (q : request) : event :=
  Deliver (addr_val (q_addr q)) (q_key q) (q_msg q) (q_size q) (q_push q) None.

Lemma q_session_wrap q : request_ok q → wrap 32 (q_session q) = q_session q.
Proof. intros (_ & H & _). unfold INT_MAX in H. apply wrap_small. lia. Qed.

(** What the agent keeps for a request of which the packages [rest] are still to
    come. *)
Inductive stage (q : request) : list (list Z) → option req → Prop :=
  | stage_new : stage q (q_bodies q) None
  | stage_parts done todo : q_single q = false → todo ≠ [] →
      done ++ todo = pieces (parts (q_msg q)) (q_msg q) →
      stage q (mark_last (part_body (q_session q)) todo)
        (Some (Req (addr_val (q_addr q)) (LBool (q_push q)) None
                 (LInt (q_size q) :: (LStr <$> done))))
  | stage_end : stage q [] None.

(** One package of a request. *)
Definition untagged (a : agent) : Prop := tracetag a = None.

Notation request_step_ok := (step_ok large untagged q_key q_event stage).

Lemma tag_after_None addr is_push : tag_after addr is_push None = None.
Proof. unfold tag_after. repeat case_match; done. Qed.

Lemma single_step q a :
  request_ok q → q_single q = true → tracetag a = None → large a !! q_key q = None →
  request_step_ok q a [] (agent_step a (single_body (q_addr q) (q_session q) (q_msg q) (q_push q))).
Proof.
  intros Hq Hs Ht Hl. pose proof (q_session_wrap q Hq) as Hw. destruct Hq as (Ha & Hse & Hsz).
  unfold q_single, MULTI_PART in Hs. pose proof Hs as Hs'. apply Z.ltb_lt in Hs'.
  unfold agent_step. rewrite unpack_single by (done || (unfold q_size in Hs'; lia)).
  cbn [mbind option_bind lua_return].
  assert (wire_session (q_session q) (q_push q) = q_key q) as ->.
  { unfold wire_session, q_key, q_single, MULTI_PART. rewrite Hs, Hw. by destruct (q_push q). }
  assert ((if q_key q =? 0 then [LNil; LBool true] else []) =
    if q_push q then [LNil; LBool true] else []) as ->.
  { unfold q_key, q_single, MULTI_PART. rewrite Hs. destruct (q_push q); [done|].
    cbn [andb]. by rewrite (proj2 (Z.eqb_neq _ _)) by lia. }
  exists (Agent (large a) None). unfold dispatch_request.
  split; [|split; [done|split; [cbn [large]; rewrite Hl; constructor|done]]]. unfold q_event.
  destruct (q_push q); cbn [arg lookup list_lookup default truthy from_option id]; rewrite Hl, Ht;
    unfold deliver; rewrite tag_after_None; done.
Qed.

Lemma multi_key q : q_single q = false → q_key q = q_session q.
Proof. intros H. unfold q_key. by rewrite H. Qed.

Lemma multi_msg q : q_single q = false → q_msg q ≠ [].
Proof.
  unfold q_single, MULTI_PART, q_size. intros H%Z.ltb_ge Hm. rewrite Hm in H. cbn in H. lia.
Qed.

Lemma pieces_nonempty q : q_single q = false → pieces (parts (q_msg q)) (q_msg q) ≠ [].
Proof.
  intros H. pose proof (parts_pos _ (multi_msg q H)). by destruct (parts (q_msg q)); [lia|].
Qed.

Lemma header_step q a :
  request_ok q → q_single q = false → tracetag a = None → large a !! q_key q = None →
  request_step_ok q a (part_bodies (q_session q) (q_msg q))
    (agent_step a (multi_body (q_addr q) (q_session q) (q_size q) (q_push q))).
Proof.
  intros Hq Hs Ht Hl. pose proof (q_session_wrap q Hq) as Hw. destruct Hq as (Ha & Hse & Hsz).
  pose proof (pieces_nonempty q Hs) as Hp.
  unfold agent_step. rewrite unpack_multi by done. cbn [mbind option_bind lua_return].
  rewrite Hw, (wrap_small 32 (q_size q)) by (unfold q_size in *; lia).
  rewrite (multi_key q Hs) in Hl. unfold dispatch_request.
  cbn [arg lookup list_lookup default truthy from_option id].
  rewrite Hl, Ht. cbn [default from_option id r_addr r_push r_tag r_parts lappend app mbind option_bind].
  eexists. split.
  - rewrite decide_False; [done|]. unfold part_bodies. by rewrite mark_last_nil.
  - cbn [large]. rewrite (multi_key q Hs), lookup_insert_eq. split; [done|]. split.
    + by apply (stage_parts q []).
    + intros s Hsn. by rewrite lookup_insert_ne.
Qed.

Lemma part_step q a done x todo :
  request_ok q → q_single q = false → tracetag a = None →
  done ++ x :: todo = pieces (parts (q_msg q)) (q_msg q) →
  large a !! q_key q = Some (Req (addr_val (q_addr q)) (LBool (q_push q)) None
                 (LInt (q_size q) :: (LStr <$> done))) →
  request_step_ok q a (mark_last (part_body (q_session q)) todo)
    (agent_step a (part_body (q_session q) (bool_decide (todo = [])) x)).
Proof.
  intros Hq Hs Ht Hp Hl. pose proof (q_session_wrap q Hq) as Hw. destruct Hq as (Ha & Hse & Hsz).
  assert (Z.of_nat (length x) ≤ 32768) as Hx.
  { pose proof (pieces_short (parts (q_msg q)) (q_msg q)) as Hf. rewrite <- Hp in Hf.
    apply Forall_app in Hf as [_ Hf]. by apply Forall_cons in Hf as [? _]. }
  unfold agent_step. rewrite unpack_part by lia. cbn [mbind option_bind lua_return].
  rewrite (multi_key q Hs) in Hl. rewrite Hw. unfold dispatch_request.
  cbn [arg lookup list_lookup default from_option id].
  assert (lappend (LInt (q_size q) :: (LStr <$> done)) (LPtr x) (LInt (Z.of_nat (length x)))
    = Some (inr (LInt (q_size q) :: (LStr <$> (done ++ [x]))))) as Happ.
  { cbn [lappend]. rewrite swrap_small, read_mem_all by lia. cbn [mbind option_bind app].
    by rewrite fmap_app. }
  rewrite Hl. cbn [default from_option id r_addr r_push r_tag r_parts]. rewrite Happ.
  cbn [mbind option_bind]. destruct todo as [|y todo].
  - rewrite bool_decide_true by reflexivity. cbn [negb truthy mark_last].
    assert (concat (done ++ [x]) = q_msg q) as Hc by (by rewrite Hp; apply length_pieces_concat).
    pose proof (lconcat_spec (done ++ [x])) as Hlc. rewrite Hc in Hlc.
    unfold q_size in *. rewrite Hlc by done. cbn [mbind option_bind].
    exists (Agent (delete (q_session q) (large a)) None). rewrite decide_True by reflexivity. split.
    + unfold deliver, q_event, q_size. rewrite tag_after_None, (multi_key q Hs). destruct (q_push q); reflexivity.
    + cbn [large]. rewrite (multi_key q Hs), lookup_delete_eq. split; [reflexivity|].
      split; [constructor|]. intros s Hsn. by rewrite lookup_delete_ne.
  - rewrite bool_decide_false by done. cbn [negb truthy].
    eexists. split.
    + rewrite decide_False; [reflexivity|]. by rewrite mark_last_nil.
    + cbn [large]. rewrite (multi_key q Hs), lookup_insert_eq. split; [reflexivity|]. split.
      * apply (stage_parts q (done ++ [x])); [done|done|]. by rewrite <- app_assoc.
      * intros s Hsn. by rewrite lookup_insert_ne.
Qed.

(** Any package of a request. *)
Lemma request_step q a x rest :
  request_ok q → untagged a → stage q (x :: rest) (large a !! q_key q) →
  request_step_ok q a rest (agent_step a x).
Proof.
  intros Hq Ht Hst. remember (large a !! q_key q) as st eqn:Hl. symmetry in Hl.
  remember (x :: rest) as bodies eqn:Eb.
  destruct Hst as [|got todo Hs Hn Hp|]; [| |done].
  - unfold q_bodies in Eb. destruct (q_single q) eqn:Hs.
    + injection Eb as <- <-. by apply single_step.
    + injection Eb as <- <-. by apply header_step.
  - destruct todo as [|y todo]; [done|].
    assert (x = part_body (q_session q) (bool_decide (todo = [])) y ∧
      rest = mark_last (part_body (q_session q)) todo) as [-> ->].
    { destruct todo as [|z todo]; cbn [mark_last] in Eb; by injection Eb as <- <-. }
    by eapply part_step.
Qed.

(** ** Interleaving *)

(** Only pushes in one package, which the agent sees with session 0, may share a
    session with another request. *)
Definition sessions_distinct : list request → Prop := keys_distinct q_key (λ s, s = 0).

Lemma key_zero q : request_ok q → q_key q = 0 → q_single q = true.
Proof.
  intros (_ & H & _). unfold q_key. destruct (q_single q); [done|]. cbn [andb]. lia.
Qed.

Lemma stage_single q rest st : q_single q = true → stage q rest st → st = None.
Proof. intros Hs Hst. destruct Hst as [| ??? |]; congruence. Qed.

Lemma stage_empty q st : stage q [] st → st = None.
Proof.
  intros Hst. remember [] as rest eqn:E. destruct Hst as [|got todo _ Hn _|]; [done| |done].
  by apply mark_last_nil in E.
Qed.

Lemma stage_shared q rest st : request_ok q → q_key q = 0 → stage q rest st → st = None.
Proof. intros Hq H0. by apply stage_single, key_zero. Qed.

Lemma q_bodies_nil q : q_bodies q ≠ [].
Proof. unfold q_bodies. by destruct (q_single q). Qed.

(** What the sending node packs. *)
Definition q_packets (q : request) : option (list (list Z)) :=
  r ← packrequest (q_addr q) (q_session q) (Some (q_msg q)) (q_size q) (q_push q);
  match r with
  | inl _ => None
  | inr (s, _, None) => Some [s]
  | inr (s, _, Some parts) => Some (s :: parts)
  end.

Lemma q_packets_spec q : request_ok q → q_packets q = Some (map frame (q_bodies q)).
Proof.
  intros (Ha & Hs & Hl). unfold q_packets, q_bodies, q_single, q_size in *.
  rewrite packrequest_spec by (done || lia). cbn [mbind option_bind].
  by destruct (_ <? MULTI_PART).
Qed.

Lemma q_bodies_frame q : request_ok q → Forall frame_ok (q_bodies q).
Proof.
  intros (Ha & Hs & Hl). pose proof (addr_bytes_length _ Ha) as Hal.
  assert (Z.of_nat (length (addr_bytes (q_addr q))) ≤ 256) as Hab.
  { rewrite Hal. destruct (q_addr q); cbn [addr_ok] in Ha; lia. }
  unfold q_bodies, frame_ok. destruct (q_single q) eqn:E.
  - unfold q_single, q_size, MULTI_PART in E. constructor; [|constructor].
    unfold single_body. cbn [length]. rewrite !length_app, length_le_bytes. lia.
  - constructor.
    + unfold multi_body. cbn [length]. rewrite !length_app, !length_le_bytes. lia.
    + unfold part_bodies. apply mark_last_forall. intros b p Hp.
      pose proof (pieces_short (parts (q_msg q)) (q_msg q)) as Hf. rewrite Forall_forall in Hf.
      specialize (Hf _ Hp). unfold part_body. cbn [length]. rewrite length_app, length_le_bytes. lia.
Qed.

(** C19: requests and pushes go from node to node unchanged, also
    when they are cut into parts that mix on the connection. The sender packs each
    message (packrequest, packpush) into frames of the gate of less than 64 KiB;
    whatever the order in which the frames of different requests come, as long as
    each request keeps its own order, the agent of the other node delivers every
    request exactly once, with its address, session (0 for a push in one package),
    bytes and kind, and keeps nothing. Names have 1 to 255 bytes, messages are below
    2 GiB, and requests that are under way at the same time have different
    sessions. *)
Theorem cluster_delivers (qs : list request) (l : list (list Z)) :
  Forall request_ok qs → sessions_distinct qs → interleave (q_bodies <$> qs) l →
  Forall (λ q, q_packets q = Some (map frame (q_bodies q)) ∧ Forall frame_ok (q_bodies q)) qs ∧
  ∃ es, agent_run (Agent ∅ None) l = Some (Agent ∅ None, es) ∧ es ≡ₚ q_event <$> qs.
Proof.
  intros Hok Hd Hil. split.
  { eapply Forall_impl; [exact Hok|]. intros q Hq. split; [by apply q_packets_spec|by apply q_bodies_frame]. }
  destruct (deliver_interleaved agent_step large untagged request_ok q_key q_event stage stage_empty
    request_step (λ s, s = 0) stage_shared qs q_bodies l (Agent ∅ None))
    as (a' & es & Hrun & Hl & Ht & Hes); try done; [apply q_bodies_nil|constructor|].
  exists es. split; [|done]. unfold agent_run. rewrite Hrun. destruct a' as [la ta].
  cbn in Hl. unfold untagged in Ht. cbn in Ht. by subst.
Qed.

End agent.

(** A request that is cut, with another request and a push between its packages. *)
Definition sample_msg : list Z := replicate part_size 0.

Definition sample_requests : list request :=
  [Request (AddrNumber 7) 5 sample_msg false;
   Request (AddrName [97; 98]) 6 [1; 2] false;
   Request (AddrNumber 8) 6 [3] true].

Definition sample_packages : list (list Z) :=
  [multi_body (AddrNumber 7) 5 (Z.of_nat part_size) false;
   single_body (AddrNumber 8) 6 [3] true;
   single_body (AddrName [97; 98]) 6 [1; 2] false;
   part_body 5 true sample_msg].

Lemma sample_size : Z.of_nat (length sample_msg) = Z.of_nat part_size.
Proof. unfold sample_msg. by rewrite length_replicate. Qed.

Lemma sample_parts : part_bodies 5 sample_msg = [part_body 5 true sample_msg].
Proof.
  pose proof part_size_Z. pose proof sample_size as Hl.
  assert (sample_msg ≠ []) as Hn by (intros E; rewrite E in Hl; cbn [length] in Hl; lia).
  unfold part_bodies. rewrite pieces_step by done.
  rewrite drop_ge, take_ge by lia. rewrite parts_nil. unfold MULTI_PART.
  by rewrite (proj2 (Z.ltb_ge _ _)) by lia.
Qed.

Lemma sample_bodies : q_bodies <$> sample_requests =
  [[multi_body (AddrNumber 7) 5 (Z.of_nat part_size) false; part_body 5 true sample_msg];
   [single_body (AddrName [97; 98]) 6 [1; 2] false];
   [single_body (AddrNumber 8) 6 [3] true]].
Proof.
  pose proof part_size_Z. pose proof sample_size as Hl.
  cbn [fmap list_fmap sample_requests]. f_equal.
  unfold q_bodies, q_single, q_size. cbn [q_addr q_session q_msg q_push].
  rewrite Hl. unfold MULTI_PART. rewrite (proj2 (Z.ltb_ge _ _)) by lia. by rewrite sample_parts.
Qed.

Lemma sample_single : q_single <$> sample_requests = [false; true; true].
Proof.
  pose proof part_size_Z. pose proof sample_size as Hl.
  cbn [fmap list_fmap sample_requests]. f_equal. unfold q_single, q_size. cbn [q_msg].
  rewrite Hl. unfold MULTI_PART. by rewrite (proj2 (Z.ltb_ge _ _)) by lia.
Qed.

Lemma sample_keys : q_key <$> sample_requests = [5; 6; 0].
Proof.
  pose proof sample_single as Hs. cbn [fmap list_fmap sample_requests] in *.
  injection Hs as Hs. f_equal. unfold q_key. by rewrite Hs.
Qed.

Lemma cluster_delivers_witness :
  (Forall request_ok sample_requests ∧ sessions_distinct sample_requests ∧
   interleave (q_bodies <$> sample_requests) sample_packages) ∧
  ∃ es, agent_run (λ _, true) (Agent ∅ None) sample_packages = Some (Agent ∅ None, es) ∧
    es ≡ₚ q_event <$> sample_requests.
Proof.
  pose proof part_size_Z as Hp. pose proof sample_size as Hl.
  assert (Forall request_ok sample_requests) as Hok.
  { unfold sample_requests, request_ok, q_size, INT_MAX. repeat constructor; cbn; lia. }
  assert (sessions_distinct sample_requests) as Hd.
  { intros i j q q' Hij Hi Hj Hk. apply (list_lookup_fmap_Some_2 q_key) in Hi, Hj.
    rewrite sample_keys in Hi, Hj. rewrite <- Hk in Hj. revert Hi Hj. generalize (q_key q).
    intros z Hi Hj. destruct i as [|[|[|i]]], j as [|[|[|j]]]; try congruence; naive_solver. }
  assert (interleave (q_bodies <$> sample_requests) sample_packages) as Hil.
  { rewrite sample_bodies. unfold sample_packages.
    eapply (interleave_cons _ 0); [reflexivity|]. cbn [insert list_insert].
    eapply (interleave_cons _ 2); [reflexivity|]. cbn [insert list_insert].
    eapply (interleave_cons _ 1); [reflexivity|]. cbn [insert list_insert].
    eapply (interleave_cons _ 0); [reflexivity|]. cbn [insert list_insert].
    apply interleave_nil. by repeat constructor. }
  split; [done|]. exact (proj2 (cluster_delivers (λ _, true) sample_requests sample_packages Hok Hd Hil)).
Defined.
