(* ===== verification/ClusterReply.v ===== *)
(** The responses of the cluster messages: their format, and the client in Lua
    (dispatch_by_session of src/framework/skynet/lualib/skynet/socketchannel.lua
    with the response function of clustersender.lua), which puts the parts of a
    long response together. *)
From S2P Require Import Prelude Bytes Buffer Ring Netpack Interleave Cluster ClusterSpec.
Local Open Scope Z_scope.

(** ** The format *)

Definition resp_body (session t : Z) (data : list Z) : list Z :=
  le_bytes 4 (wrap 32 session) ++ t :: data.

Definition resp_part (session : Z) (last : bool) (data : list Z) : list Z :=
  resp_body session (if last then 4 else 3) data.

Definition resp_parts (session : Z) (msg : list Z) : list (list Z) :=
  resp_body session 2 (le_bytes 4 (Z.of_nat (length msg)))
  :: mark_last (resp_part session) (pieces (parts msg) msg).

Lemma length_resp_body session t data :
  Z.of_nat (length (resp_body session t data)) = Z.of_nat (length data) + 5.
Proof. unfold resp_body. rewrite length_app, length_le_bytes. cbn [length]. lia. Qed.

Lemma packresponse_loop_spec n buf session pre msg off sz :
  Z.of_nat (length buf) = TEMP_LENGTH → n = parts msg →
  off = Z.of_nat (length pre) → sz = Z.of_nat (length msg) → sz < 2 ^ 32 →
  packresponse_loop n buf (wrap 32 session) (pre ++ msg) off sz
  = Some (map frame (mark_last (resp_part session) (pieces n msg))).
Proof.
  revert buf pre msg off sz. induction n as [|n IH]; intros buf pre msg off sz Hb Hn -> -> Hs; [done|].
  assert (msg ≠ []) as Hm by (by intros ->).
  pose proof part_size_Z as Hp. pose proof (parts_drop msg Hm) as Hpd. rewrite <- Hn in Hpd.
  rewrite Hn at 2. rewrite pieces_step by done. cbn [packresponse_loop]. cbn zeta.
  set (sz := Z.of_nat (length msg)) in *.
  assert ((if MULTI_PART <? sz then MULTI_PART else sz) = Z.of_nat (length (take part_size msg))) as Es.
  { rewrite length_take. unfold MULTI_PART. destruct (Z.ltb_spec 32768 sz); lia. }
  rewrite Es. set (s := Z.of_nat (length (take part_size msg))) in *.
  assert (s ≤ 32768) as Hs1 by (unfold s; rewrite length_take; lia).
  destruct (has_type_header buf (if MULTI_PART <? sz then 3 else 4) (wrap 32 session) (s + 5) Hb)
    as (b1 & b2 & b3 & -> & E2 & E3 & H3); [lia|].
  cbn [mbind option_bind]. rewrite E2. cbn [mbind option_bind]. rewrite E3. cbn [mbind option_bind].
  assert (pre ++ msg = (pre ++ take part_size msg) ++ drop part_size msg) as Epm
    by (by rewrite <- app_assoc, take_drop).
  rewrite Epm. rewrite <- app_assoc at 1. rewrite read_mem_at by done. cbn [mbind option_bind].
  buf_step H3 (has_write b3 _ 7 (take part_size msg)).
  rewrite (has_push _ _ _ H3) by buf_side.
  cbn [mbind option_bind]. rewrite (wrap_small 64 (sz - s)) by (unfold s, sz; rewrite length_take; lia).
  rewrite IH.
  - injection Hpd as <-. cbn [map mbind option_bind]. f_equal. f_equal.
    unfold frame. replace (Z.of_nat (length _)) with (s + 5) by (by unfold resp_part; rewrite length_resp_body).
    unfold resp_part, resp_body. rewrite bool_size. by rewrite <- !app_assoc.
  - by destruct H3.
  - by injection Hpd.
  - rewrite length_app. lia.
  - unfold s, sz. rewrite length_take, length_drop. lia.
  - unfold s, sz. rewrite length_take. lia.
Qed.

(** The bytes that a response carries: a long error message is cut. *)
Definition resp_data (ok : bool) (msg : list Z) : list Z :=
  if ok then msg else take part_size msg.

Definition resp_multi (ok : bool) (msg : list Z) : bool :=
  ok && (MULTI_PART <? Z.of_nat (length msg)).

Lemma lpackresponse_spec session ok msg :
  Z.of_nat (length msg) < 2 ^ 32 →
  lpackresponse session ok msg (Z.of_nat (length msg))
  = Some (if resp_multi ok msg then inr (map frame (resp_parts session msg))
          else inl (frame (resp_body session (if ok then 1 else 0) (resp_data ok msg)))).
Proof.
  intros Hs. pose proof part_size_Z as Hp. unfold lpackresponse, resp_multi.
  rewrite (wrap_small 64 (Z.of_nat (length msg))) by lia. cbn zeta.
  destruct (ok && (MULTI_PART <? Z.of_nat (length msg))) eqn:Em.
  - apply andb_true_iff in Em as [-> Hl%Z.ltb_lt]. unfold MULTI_PART in Hl.
    destruct (has_header temp_buffer 9) as (b0 & -> & H); [apply has_temp|lia|].
    cbn [mbind option_bind].
    buf_step H (has_fill b0 _ 2 (wrap 32 session)).
    buf_step H (has_set b _ 6 2).
    buf_step H (has_fill b1 _ 7 (wrap 32 (Z.of_nat (length msg)))).
    rewrite (has_push _ _ _ H) by buf_side. cbn [mbind option_bind].
    assert (0 ≤ (Z.of_nat (length msg) - 1) / MULTI_PART ≤ 2 ^ 17).
    { unfold MULTI_PART. split; [apply Z.div_pos; lia|]. apply Z.div_le_upper_bound; lia. }
    rewrite swrap_small by lia.
    fold (parts msg).
    rewrite (packresponse_loop_spec _ _ session [] msg) by (done || by destruct H).
    cbn [mbind option_bind resp_parts map]. rewrite (wrap_small 32 (Z.of_nat (length msg))) by lia.
    reflexivity.
  - set (sz := if negb ok && (MULTI_PART <? Z.of_nat (length msg)) then MULTI_PART
               else Z.of_nat (length msg)).
    assert (sz = Z.of_nat (length (resp_data ok msg)) ∧ sz ≤ 32768) as [Hsz Hle].
    { unfold sz, resp_data, MULTI_PART in *.
      destruct ok; cbn [andb negb] in *; rewrite ?length_take;
        destruct (Z.ltb_spec 32768 (Z.of_nat (length msg))); (done || lia). }
    destruct (has_header temp_buffer (sz + 5)) as (b0 & -> & H); [apply has_temp|lia|].
    cbn [mbind option_bind].
    buf_step H (has_fill b0 _ 2 (wrap 32 session)).
    buf_step H (has_set b _ 6 (if ok then 1 else 0)).
    assert (read_mem msg 0 sz = Some (resp_data ok msg)) as ->.
    { rewrite Hsz. unfold resp_data. destruct ok; [apply read_mem_all|].
      rewrite <- (take_drop part_size msg) at 1. by apply (read_mem_at []). }
    cbn [mbind option_bind].
    buf_step H (has_write b1 _ 7 (resp_data ok msg)).
    rewrite (has_push _ _ _ H) by buf_side. cbn [mbind option_bind].
    do 2 f_equal. unfold frame. rewrite length_resp_body, <- Hsz.
    unfold resp_body. by rewrite <- !app_assoc.
Qed.

Lemma unpackresponse_body session t data :
  lunpackresponse (resp_body session t data)
  = Some (if t =? 0 then [LInt (wrap 32 session); LBool false; LStr data]
      else if (t =? 1) || (t =? 4) then [LInt (wrap 32 session); LBool true; LStr data]
      else if t =? 2 then
        match data with
        | [b0; b1; b2; b3] =>
          [LInt (wrap 32 session); LBool true; LInt (wrap 32 (le_val [b0; b1; b2; b3])); LBool true]
        | _ => []
        end
      else if t =? 3 then [LInt (wrap 32 session); LBool true; LStr data; LBool true]
      else []).
Proof.
  unfold lunpackresponse. rewrite length_resp_body. rewrite (proj2 (Z.ltb_ge _ _)) by lia.
  assert (unpack_uint32 (resp_body session t data) 0 = Some (wrap 32 session)) as ->.
  { rewrite <- wrap_wrap32. by apply (unpack_at [] (wrap 32 session) (t :: data)). }
  change (aget (resp_body session t data) 4) with (Some t). cbn [mbind option_bind].
  assert (read_mem (resp_body session t data) 5 (Z.of_nat (length data) + 5 - 5) = Some data) as ->.
  { unfold resp_body. change (t :: data) with ([t] ++ data). rewrite app_assoc.
    apply read_mem_end; [done|lia]. }
  cbn [mbind option_bind].
  destruct (t =? 0); [done|]. destruct ((t =? 1) || (t =? 4)); [done|].
  destruct (t =? 2); [|by destruct (t =? 3)].
  destruct data as [|b0 [|b1 [|b2 [|b3 [|b4 data]]]]]; try done.
  - cbn [length]. change (Z.of_nat 4 + 5 =? 9) with true. cbn [negb].
    unfold unpack_uint32.
    change (aget (resp_body session t [b0; b1; b2; b3]) 5) with (Some b0).
    change (aget (resp_body session t [b0; b1; b2; b3]) (5 + 1)) with (Some b1).
    change (aget (resp_body session t [b0; b1; b2; b3]) (5 + 2)) with (Some b2).
    change (aget (resp_body session t [b0; b1; b2; b3]) (5 + 3)) with (Some b3).
    cbn [mbind option_bind]. by rewrite le_val4.
  - cbn [length]. rewrite (proj2 (Z.eqb_neq _ _)) by lia. done.
Qed.

Lemma unpack_begin session n :
  0 ≤ n < 2 ^ 32 →
  lunpackresponse (resp_body session 2 (le_bytes 4 n))
  = Some [LInt (wrap 32 session); LBool true; LInt n; LBool true].
Proof.
  intros Hn. rewrite unpackresponse_body. cbn [le_bytes].
  pose proof (le_val_bytes 4 n) as Hv. cbn [le_bytes] in Hv. rewrite Hv.
  change (8 * Z.of_nat 4) with 32. by rewrite !(wrap_small 32 n) by (rewrite ?(wrap_small 32 n); done).
Qed.

Lemma unpack_more session data :
  lunpackresponse (resp_body session 3 data)
  = Some [LInt (wrap 32 session); LBool true; LStr data; LBool true].
Proof. by rewrite unpackresponse_body. Qed.

Lemma unpack_done session t data :
  t = 0 ∨ t = 1 ∨ t = 4 →
  lunpackresponse (resp_body session t data)
  = Some [LInt (wrap 32 session); LBool (negb (t =? 0)); LStr data].
Proof. intros [-> | [-> | ->]]; by rewrite unpackresponse_body. Qed.

(** ** The channel *)

(** The waiting sessions, each with what is collected for it: [self.__thread] and
    the tables of [self.__result_data], which are never empty.  A coroutine waits for
    one session, by which it is known here. *)
Notation channel := (gmap Z (list lval)).

(** What a coroutine finds in [self.__result] and [self.__result_data]. *)
Inductive outcome :=
  | OkData (data : lval)
  | OkTable (t : list lval)
  | Fail (data : lval)
  | SocketError.

Inductive chan_event :=
  | Wakeup (session : Z) (o : outcome)
  | UnknownSession (session : Z)
  | CloseSocket.

(** The body of the loop, with the package that [read_response] reads. *)
Definition dispatch_by_session (c : channel) (body : list Z) :
    option (channel * list chan_event) :=
  vals ← lunpackresponse body;
  match arg vals 0 with
  | LInt session =>
    let result_ok := arg vals 1 in
    let result_data := arg vals 2 in
    let padding := arg vals 3 in
    match c !! session with
    | Some result =>
      if truthy padding && truthy result_ok then
        Some (<[session := result ++ [result_data]]> c, [])
      else
        Some (delete session c, [Wakeup session
          (if truthy result_ok
           then match result with
                | [] => OkData result_data
                | _ => OkTable (result ++ [result_data])
                end
           else Fail result_data)])
    | None => Some (c, [UnknownSession session])
    end
  | _ => Some (∅, CloseSocket :: ((λ e, Wakeup e.1 SocketError) <$> map_to_list c))
  end.

(** The answer of [command.req] of clustersender.lua. *)
Inductive answer :=
  | Ret (msg : lval)
  | RetBlock (block : list Z) (sz : Z)
  | RetNothing                       (* [cluster.concat] fails *)
  | RetError (err : lval).           (* [skynet.response()(false)] *)

Definition command_req (o : outcome) : option answer :=
  match o with
  | OkData data => Some (Ret data)
  | OkTable t =>
    r ← lconcat t;
    Some (match r with Some (block, sz) => RetBlock block sz | None => RetNothing end)
  | Fail data => Some (RetError data)
  | SocketError => Some (RetError LNil)
  end.

(** A package, with the answers of the coroutines that it wakes. *)
Inductive received :=
  | Answered (session : Z) (a : answer)
  | Other (e : chan_event).

Definition finish (e : chan_event) : option received :=
  match e with
  | Wakeup session o => a ← command_req o; Some (Answered session a)
  | _ => Some (Other e)
  end.

Definition channel_step (c : channel) (body : list Z) : option (channel * list received) :=
  '(c, es) ← dispatch_by_session c body;
  rs ← mapM finish es;
  Some (c, rs).

Definition channel_run : channel → list (list Z) → option (channel * list received) :=
  run_steps channel_step.

(** ** The responses of the other node *)

Record response := Response { p_session : Z; p_ok : bool; p_msg : list Z }.

Definition response_ok (p : response) : Prop :=
  0 ≤ p_session p ≤ INT_MAX ∧ Z.of_nat (length (p_msg p)) < 2 ^ 31.

Definition p_multi (p : response) : bool := resp_multi (p_ok p) (p_msg p).

Definition p_bodies (p : response) : list (list Z) :=
  if p_multi p then resp_parts (p_session p) (p_msg p)
  else [resp_body (p_session p) (if p_ok p then 1 else 0) (resp_data (p_ok p) (p_msg p))].

(** What the caller gets: a long message in a block, a short one as a string, and
    the first 32 KiB of an error. *)
Definition p_answer (p : response) : received :=
  Answered (p_session p)
    (if p_ok p
     then if p_multi p then RetBlock (p_msg p) (Z.of_nat (length (p_msg p))) else Ret (LStr (p_msg p))
     else RetError (LStr (take part_size (p_msg p)))).

Definition p_packets (p : response) : option (list (list Z)) :=
  r ← lpackresponse (p_session p) (p_ok p) (p_msg p) (Z.of_nat (length (p_msg p)));
  match r with inl s => Some [s] | inr l => Some l end.

Lemma p_packets_spec p : response_ok p → p_packets p = Some (map frame (p_bodies p)).
Proof.
  intros [_ Hl]. unfold p_packets. rewrite lpackresponse_spec by lia. cbn [mbind option_bind].
  unfold p_bodies, p_multi. by destruct (resp_multi _ _).
Qed.

Inductive stage (p : response) : list (list Z) → option (list lval) → Prop :=
  | stage_new : stage p (p_bodies p) (Some [])
  | stage_parts got todo : p_multi p = true → todo ≠ [] →
      got ++ todo = pieces (parts (p_msg p)) (p_msg p) →
      stage p (mark_last (resp_part (p_session p)) todo)
        (Some (LInt (Z.of_nat (length (p_msg p))) :: (LStr <$> got)))
  | stage_end : stage p [] None.

Notation response_step_ok :=
  (step_ok (id : channel → channel) (λ _, True) p_session p_answer stage).

Lemma p_session_wrap p : response_ok p → wrap 32 (p_session p) = p_session p.
Proof. intros [H _]. unfold INT_MAX in H. apply wrap_small. lia. Qed.

Lemma multi_ok p : p_multi p = true → p_ok p = true ∧ 32768 < Z.of_nat (length (p_msg p)).
Proof. unfold p_multi, resp_multi, MULTI_PART. intros [-> H%Z.ltb_lt]%andb_true_iff. done. Qed.

Lemma p_pieces_nonempty p : p_multi p = true → pieces (parts (p_msg p)) (p_msg p) ≠ [].
Proof.
  intros [_ H]%multi_ok. assert (p_msg p ≠ []) as Hn by (intros E; rewrite E in H; cbn in H; lia).
  apply parts_pos in Hn. by destruct (parts (p_msg p)); [lia|].
Qed.

(** The last package of a response. *)
Lemma last_step p (c : channel) rest body a :
  rest = [] → channel_step c body = Some (delete (p_session p) c, [Answered (p_session p) a]) →
  p_answer p = Answered (p_session p) a → response_step_ok p c rest (channel_step c body).
Proof.
  intros -> E Ha. exists (delete (p_session p) c). rewrite E, Ha. split; [done|]. split; [done|].
  cbn. split; [rewrite lookup_delete_eq; constructor|]. intros s Hs. by rewrite lookup_delete_ne.
Qed.

(** Another package. *)
Lemma more_step p (c : channel) rest body t :
  rest ≠ [] → channel_step c body = Some (<[p_session p := t]> c, []) →
  stage p rest (Some t) → response_step_ok p c rest (channel_step c body).
Proof.
  intros Hr E Ht. eexists. rewrite E, decide_False by done. split; [done|]. split; [done|].
  cbn. split; [by rewrite lookup_insert_eq|]. intros s Hs. by rewrite lookup_insert_ne.
Qed.

Lemma response_step p (c : channel) x rest :
  response_ok p → True → stage p (x :: rest) (id c !! p_session p) →
  response_step_ok p c rest (channel_step c x).
Proof.
  intros Hp _ Hst. cbn in Hst. pose proof (p_session_wrap p Hp) as Hw.
  remember (c !! p_session p) as st eqn:Hc. symmetry in Hc.
  remember (x :: rest) as bodies eqn:Eb.
  destruct Hst as [|got todo Hm Hn Hps|]; [| |done].
  - unfold p_bodies in Eb. destruct (p_multi p) eqn:Hm.
    + assert (x = resp_body (p_session p) 2 (le_bytes 4 (Z.of_nat (length (p_msg p)))) ∧
        rest = mark_last (resp_part (p_session p)) (pieces (parts (p_msg p)) (p_msg p)))
        as [-> ->] by (unfold resp_parts in Eb; split; congruence).
      apply (more_step _ _ _ _ [LInt (Z.of_nat (length (p_msg p)))]).
      * rewrite mark_last_nil. by apply p_pieces_nonempty.
      * unfold channel_step, dispatch_by_session. rewrite unpack_begin, Hw by (destruct Hp; lia).
        cbn [mbind option_bind arg lookup list_lookup default from_option id]. by rewrite Hc.
      * apply (stage_parts p []); [done| |done]. by apply p_pieces_nonempty.
    + injection Eb as <- <-. unfold p_multi in Hm.
      apply (last_step _ _ _ _ (if p_ok p then Ret (LStr (p_msg p))
        else RetError (LStr (take part_size (p_msg p))))); [done| |].
      * unfold channel_step, dispatch_by_session. rewrite unpack_done, Hw by (destruct (p_ok p); auto).
        cbn [mbind option_bind arg lookup list_lookup default from_option id]. rewrite Hc.
        by destruct (p_ok p).
      * unfold p_answer, p_multi. by rewrite Hm.
  - destruct todo as [|y todo]; [done|].
    assert (x = resp_part (p_session p) (bool_decide (todo = [])) y ∧
      rest = mark_last (resp_part (p_session p)) todo) as [-> ->].
    { destruct todo as [|z todo]; cbn [mark_last] in Eb; by injection Eb as <- <-. }
    destruct (multi_ok p Hm) as [Hok Hlen].
    unfold resp_part at 2. destruct todo as [|z todo].
    + rewrite bool_decide_true by done.
      eapply last_step; [done| |unfold p_answer; by rewrite Hok, Hm].
      unfold channel_step, dispatch_by_session. rewrite unpack_done, Hw by auto.
      cbn [mbind option_bind arg lookup list_lookup default from_option id].
      rewrite Hc. change (negb (4 =? 0)) with true. cbn [truthy andb].
      cbn [mapM finish command_req mbind option_bind app].
      assert (concat (got ++ [y]) = p_msg p) as Hcc by (by rewrite Hps; apply length_pieces_concat).
      pose proof (lconcat_spec (got ++ [y])) as Hlc. rewrite Hcc, fmap_app in Hlc.
      change (LStr <$> [y]) with [LStr y] in Hlc. destruct Hp as [_ Hl]. by rewrite Hlc.
    + rewrite bool_decide_false by done.
      eapply more_step; [by rewrite mark_last_nil| |].
      * unfold channel_step, dispatch_by_session. rewrite unpack_more, Hw.
        cbn [mbind option_bind arg lookup list_lookup default from_option id].
        by rewrite Hc.
      * change [LStr y] with (LStr <$> [y]). cbn [app]. rewrite <- fmap_app.
        apply (stage_parts p (got ++ [y])); [done|done|]. by rewrite <- app_assoc.
Qed.

Lemma p_bodies_frame p : response_ok p → Forall frame_ok (p_bodies p).
Proof.
  intros Hp. pose proof part_size_Z. unfold p_bodies, frame_ok. destruct (p_multi p) eqn:Hm.
  - constructor; [rewrite length_resp_body, length_le_bytes; lia|].
    apply mark_last_forall. intros b d Hd.
    pose proof (pieces_short (parts (p_msg p)) (p_msg p)) as Hf. rewrite Forall_forall in Hf.
    specialize (Hf _ Hd). unfold resp_part. rewrite length_resp_body. lia.
  - constructor; [|constructor]. rewrite length_resp_body. unfold resp_data.
    unfold p_multi, resp_multi, MULTI_PART in Hm.
    destruct (p_ok p); [apply Z.ltb_ge in Hm; lia|]. rewrite length_take. lia.
Qed.

Lemma p_bodies_nil p : p_bodies p ≠ [].
Proof. unfold p_bodies. by destruct (p_multi p). Qed.

Lemma reply_stage_end p st : stage p [] st → st = None.
Proof.
  intros Hst. remember [] as rest eqn:E. destruct Hst as [|got todo _ Hn _|]; [| |done].
  - by apply p_bodies_nil in E.
  - by apply mark_last_nil in E.
Qed.

(** The channel when the requests are sent. *)
Definition waiting (ps : list response) : channel :=
  list_to_map ((λ p, (p_session p, [])) <$> ps).

Lemma waiting_keys ps : ((λ p, (p_session p, [] : list lval)) <$> ps).*1 = p_session <$> ps.
Proof. induction ps as [|p ps IH]; [done|]. cbn. by rewrite IH. Qed.

Lemma waiting_in ps p : NoDup (p_session <$> ps) → p ∈ ps → waiting ps !! p_session p = Some [].
Proof.
  intros Hn Hp. unfold waiting. apply elem_of_list_to_map_1; [by rewrite waiting_keys|].
  apply list_elem_of_fmap. by exists p.
Qed.

Lemma waiting_inv ps :
  NoDup (p_session <$> ps) →
  table_inv (id : channel → channel) (λ _, True) p_session stage ps (p_bodies <$> ps) (waiting ps).
Proof.
  intros Hn. split; [by rewrite length_fmap|done| |].
  - intros j p rest Hj Hr. rewrite list_lookup_fmap, Hj in Hr. injection Hr as <-.
    cbn. rewrite waiting_in; [constructor|done|]. by eapply list_elem_of_lookup_2.
  - intros s Hs. cbn. unfold waiting. apply not_elem_of_list_to_map_1. rewrite waiting_keys.
    intros (p & -> & Hp)%list_elem_of_fmap. by apply (Hs p).
Qed.

Lemma nodup_distinct ps :
  NoDup (p_session <$> ps) → keys_distinct p_session (λ _, False) ps.
Proof.
  intros Hn i j p p' Hij Hi Hj Hk. apply Hij.
  eapply (NoDup_lookup (p_session <$> ps)); [done| |].
  - by rewrite list_lookup_fmap, Hi.
  - by rewrite list_lookup_fmap, Hj, Hk.
Qed.

(** C20: every caller gets its answer. The node that serves the
    requests packs each response (lpackresponse) into one frame, or, when it is
    successful and longer than 32 KiB, into a frame with its size and frames with its
    parts, all below 64 KiB. Whatever the order in which the frames of different
    responses come, as long as each response keeps its own order, every waiting
    session is woken exactly once: with the message unchanged when the request
    succeeded, and with an error whose message is the first 32 KiB of the given one
    when it failed. Nothing is left in the tables of the channel. Messages are below
    2 GiB and the sessions differ. *)
Theorem cluster_answers (ps : list response) (l : list (list Z)) :
  Forall response_ok ps → NoDup (p_session <$> ps) → interleave (p_bodies <$> ps) l →
  Forall (λ p, p_packets p = Some (map frame (p_bodies p)) ∧ Forall frame_ok (p_bodies p)) ps ∧
  ∃ es, channel_run (waiting ps) l = Some (∅, es) ∧ es ≡ₚ p_answer <$> ps.
Proof.
  intros Hok Hn Hil. split.
  { eapply Forall_impl; [exact Hok|]. intros p Hp. split; [by apply p_packets_spec|by apply p_bodies_frame]. }
  destruct (run_interleaved channel_step (id : channel → channel) (λ _, True) response_ok p_session
    p_answer stage reply_stage_end response_step (λ _, False) (λ p rest st _ H, match H with end)
    ps _ l (waiting ps) Hok (nodup_distinct ps Hn) Hil (waiting_inv ps Hn))
    as (c & es & Hrun & Hc & _ & Hes).
  exists es. cbn in Hc. subst c. split; [done|]. rewrite Hes.
  by rewrite (pending_all p_answer ps p_bodies p_bodies_nil).
Qed.

(** A short response, an error and a long response whose packages mix. *)
Definition sample_responses : list response :=
  [Response 1 true (replicate (S part_size) 0); Response 2 true [1; 2]; Response 3 false [3]].

Definition sample_replies : list (list Z) :=
  [resp_body 1 2 (le_bytes 4 (Z.of_nat (S part_size)));
   resp_body 3 0 [3];
   resp_part 1 false (replicate part_size 0);
   resp_body 2 1 [1; 2];
   resp_part 1 true [0]].

Lemma sample_reply_bodies : p_bodies <$> sample_responses =
  [[resp_body 1 2 (le_bytes 4 (Z.of_nat (S part_size))); resp_part 1 false (replicate part_size 0);
    resp_part 1 true [0]]; [resp_body 2 1 [1; 2]]; [resp_body 3 0 [3]]].
Proof.
  pose proof part_size_Z as Hp. set (big := replicate (S part_size) 0).
  assert (length big = S part_size) as Hl by (by unfold big; rewrite length_replicate).
  assert (take part_size big = replicate part_size 0) as Ht.
  { unfold big. rewrite take_replicate. f_equal. lia. }
  assert (drop part_size big = [0]) as Hd.
  { unfold big. rewrite drop_replicate. by replace (S part_size - part_size)%nat with 1%nat by lia. }
  assert (mark_last (resp_part 1) (pieces (parts big) big)
    = [resp_part 1 false (replicate part_size 0); resp_part 1 true [0]]) as Hparts.
  { rewrite pieces_step by (by intros E; rewrite E in Hl).
    unfold MULTI_PART. rewrite Hl, (proj2 (Z.ltb_lt _ _)), Ht, Hd by lia.
    rewrite pieces_step by done. cbn [length]. rewrite take_ge, drop_ge by (cbn [length]; lia). done. }
  cbn [fmap list_fmap sample_responses]. f_equal.
  - unfold p_bodies, p_multi, resp_multi, resp_parts. cbn [p_session p_ok p_msg andb]. fold big.
    unfold MULTI_PART at 1. rewrite Hl, (proj2 (Z.ltb_lt _ _)) by lia. by rewrite Hparts.
  - f_equal. f_equal. unfold p_bodies, p_multi, resp_multi, resp_data.
    cbn [p_session p_ok p_msg andb]. rewrite take_ge by (cbn [length]; lia). done.
Qed.

Lemma cluster_answers_witness :
  (Forall response_ok sample_responses ∧ NoDup (p_session <$> sample_responses) ∧
   interleave (p_bodies <$> sample_responses) sample_replies) ∧
  ∃ es, channel_run (waiting sample_responses) sample_replies = Some (∅, es) ∧
    es ≡ₚ p_answer <$> sample_responses.
Proof.
  pose proof part_size_Z as Hp.
  assert (Forall response_ok sample_responses) as Hok.
  { unfold sample_responses, response_ok, INT_MAX. repeat constructor; cbn [p_session p_msg length];
      rewrite ?length_replicate; lia. }
  assert (NoDup (p_session <$> sample_responses)) as Hn by (by apply (bool_decide_unpack _)).
  assert (interleave (p_bodies <$> sample_responses) sample_replies) as Hil.
  { rewrite sample_reply_bodies. unfold sample_replies.
    eapply (interleave_cons _ 0); [reflexivity|]. cbn [insert list_insert].
    eapply (interleave_cons _ 2); [reflexivity|]. cbn [insert list_insert].
    eapply (interleave_cons _ 0); [reflexivity|]. cbn [insert list_insert].
    eapply (interleave_cons _ 1); [reflexivity|]. cbn [insert list_insert].
    eapply (interleave_cons _ 0); [reflexivity|]. cbn [insert list_insert].
    apply interleave_nil. by repeat constructor. }
  split; [done|]. exact (proj2 (cluster_answers sample_responses sample_replies Hok Hn Hil)).
Defined.
