(* ===== verification/ClusterSafe.v ===== *)
(** The cluster messages from an unknown sender: unpacking never reads outside the
    package, whatever its bytes are; the sizes in it are not checked. *)
From S2P Require Import Prelude Bytes Buffer Ring Netpack Interleave Cluster ClusterSpec ClusterAgent ClusterReply.
Local Open Scope Z_scope.

(** What the client in Lua relies on: a trace tag alone; or a session of 32 bits
    with either a block of the size that comes with it, or no block, a size of 32
    bits and the mark that parts follow. *)
Definition request_vals_ok (vals : list lval) : Prop :=
  (∃ tag, vals = [LStr tag]) ∨
  ∃ s n, arg vals 1 = LInt s ∧ 0 ≤ s < 2 ^ 32 ∧ arg vals 3 = LInt n ∧
    ((∃ block, arg vals 2 = LPtr block ∧ n = Z.of_nat (length block)) ∨
     (arg vals 2 = LNil ∧ arg vals 4 = LBool true ∧ 0 ≤ n < 2 ^ 32)).

(** A result without access outside the block; an error is one. *)
Definition returns (P : list lval → Prop) (r : lua_result) : Prop :=
  match r with Some (inr vals) => P vals | Some (inl _) => True | None => False end.

Definition session_ok (vals : list lval) : Prop :=
  vals = [] ∨ ∃ s, arg vals 0 = LInt s ∧ 0 ≤ s < 2 ^ 32.

Lemma read_mem_Some block off n :
  0 ≤ off → 0 ≤ n → off + n ≤ Z.of_nat (length block) →
  ∃ s, read_mem block off n = Some s ∧ Z.of_nat (length s) = n.
Proof.
  intros Ho Hn Hl. unfold read_mem. rewrite !(proj2 (Z.leb_le _ _)) by lia. cbn [andb].
  eexists. split; [done|]. rewrite length_take, length_drop. lia.
Qed.

Lemma unpack_Some buf pos :
  0 ≤ pos → pos + 4 ≤ Z.of_nat (length buf) →
  ∃ v, unpack_uint32 buf pos = Some v ∧ 0 ≤ v < 2 ^ 32.
Proof.
  intros Hp Hl. unfold unpack_uint32.
  destruct (aget_is_Some buf pos) as [b0 ->]; [lia|].
  destruct (aget_is_Some buf (pos + 1)) as [b1 ->]; [lia|].
  destruct (aget_is_Some buf (pos + 2)) as [b2 ->]; [lia|].
  destruct (aget_is_Some buf (pos + 3)) as [b3 ->]; [lia|].
  eexists. split; [done|]. apply (wrap_range 32). lia.
Qed.

(** One read, with its position inside the package. *)
Ltac unpack_word E :=
  match goal with |- context [unpack_uint32 ?b ?p] =>
    let v := fresh "v" in
    destruct (unpack_Some b p) as (v & -> & E); [lia|lia|]; cbn [mbind option_bind]
  end.

Ltac read_block E :=
  match goal with |- context [read_mem ?b ?p ?n] =>
    let s := fresh "s" in
    destruct (read_mem_Some b p n) as (s & -> & E); [lia|lia|lia|]; cbn [mbind option_bind]
  end.

Ltac session_and_size :=
  do 2 eexists; split; [reflexivity|]; split; [eassumption|]; split; [reflexivity|].

Section package.
Context (msg : list Z) (Hmsg : Forall byte_ok msg).
Context (sz : Z) (Hsz : sz = Z.of_nat (length msg)).

Lemma name_size : 2 ≤ sz → ∃ n, aget msg 1 = Some n ∧ 0 ≤ n < 256.
Proof.
  intros H. destruct (aget_is_Some msg 1) as [n Hn]; [lia|]. exists n. split; [done|].
  change 1 with (Z.of_nat 1) in Hn. rewrite aget_nat in Hn.
  by apply (Forall_lookup_1 _ _ _ _ Hmsg Hn).
Qed.

Lemma unpackreq_number_safe : returns request_vals_ok (unpackreq_number msg sz).
Proof.
  unfold unpackreq_number, return_buffer. destruct (Z.ltb_spec sz 9); [done|].
  unpack_word Hv. unpack_word Hv0. read_block Hs. right.
  session_and_size. left. eexists. by split.
Qed.

Lemma unpackmreq_number_safe is_push : returns request_vals_ok (unpackmreq_number msg sz is_push).
Proof.
  unfold unpackmreq_number. destruct (Z.eqb_spec sz 13); [|done]. cbn [negb].
  unpack_word Hv. unpack_word Hv0. unpack_word Hv1. right.
  session_and_size. right. eauto.
Qed.

Lemma unpackmreq_part_safe : returns request_vals_ok (unpackmreq_part msg sz).
Proof.
  unfold unpackmreq_part, return_buffer. destruct (Z.ltb_spec sz 5); [done|].
  destruct (aget_is_Some msg 0) as [b ->]; [lia|]. cbn [mbind option_bind].
  unpack_word Hv. read_block Hs. right.
  session_and_size. left. eexists. by split.
Qed.

Lemma unpacktrace_safe : 1 ≤ sz → returns request_vals_ok (unpacktrace msg sz).
Proof. intros H. unfold unpacktrace. read_block Hs. left. by eexists. Qed.

Lemma unpackreq_string_safe : returns request_vals_ok (unpackreq_string msg sz).
Proof.
  unfold unpackreq_string, return_buffer. destruct (Z.ltb_spec sz 2); [done|].
  destruct name_size as (n & -> & Hn); [done|]. cbn [mbind option_bind].
  destruct (Z.ltb_spec sz (n + 6)); [done|].
  read_block Hs. unpack_word Hv. read_block Hs0. right.
  session_and_size. left. eexists. by split.
Qed.

Lemma unpackmreq_string_safe is_push : returns request_vals_ok (unpackmreq_string msg sz is_push).
Proof.
  unfold unpackmreq_string. destruct (Z.ltb_spec sz 2); [done|].
  destruct name_size as (n & -> & Hn); [done|]. cbn [mbind option_bind].
  destruct (Z.ltb_spec sz (n + 10)); [done|].
  read_block Hs. unpack_word Hv. unpack_word Hv0. right.
  session_and_size. right. eauto.
Qed.

Lemma lunpackrequest_safe : sz < 2 ^ 31 → returns request_vals_ok (lunpackrequest msg sz).
Proof.
  intros Hl. unfold lunpackrequest. rewrite swrap_small by lia.
  destruct (Z.eqb_spec sz 0); [done|].
  destruct (aget_is_Some msg 0) as [t ->]; [lia|]. cbn [mbind option_bind].
  repeat case_match; auto using unpackreq_number_safe, unpackmreq_number_safe, unpackmreq_part_safe,
    unpackreq_string_safe, unpackmreq_string_safe.
  - apply unpacktrace_safe. lia.
  - exact I.
Qed.

Lemma lunpackresponse_safe : ∃ vals, lunpackresponse msg = Some vals ∧ session_ok vals.
Proof.
  unfold lunpackresponse. rewrite <- Hsz. destruct (Z.ltb_spec sz 5); [by eexists; split; [|left]|].
  unpack_word Hv. destruct (aget_is_Some msg 4) as [t ->]; [lia|]. cbn [mbind option_bind].
  assert (∀ vals, session_ok (LInt v :: vals)) as Hok by (intros vals; right; by exists v).
  read_block Hs. destruct (t =? 0); [by eexists|]. destruct ((t =? 1) || (t =? 4)); [by eexists|].
  destruct (t =? 2).
  - destruct (Z.eqb_spec sz 9); cbn [negb]; [|by eexists; split; [|left]].
    unpack_word Hv0. by eexists.
  - destruct (t =? 3); [by eexists|]. by eexists; split; [|left].
Qed.
End package.

(** C21: whatever bytes come over the connection between two
    nodes, unpacking them as a request or as a response reads nothing outside the
    package: it raises an error, gives no values, or gives values of the kinds that
    the clients in Lua expect, with the size of a block equal to its length. The
    package has less than 2 GiB (the gate passes at most 64 KiB). *)
Theorem cluster_unpack_safe (msg : list Z) :
  Forall byte_ok msg → Z.of_nat (length msg) < 2 ^ 31 →
  returns request_vals_ok (lunpackrequest msg (Z.of_nat (length msg))) ∧
  ∃ vals, lunpackresponse msg = Some vals ∧ session_ok vals.
Proof.
  intros Hm Hl. split; [by apply lunpackrequest_safe|by eapply lunpackresponse_safe].
Qed.

Lemma cluster_unpack_safe_witness :
  (Forall byte_ok [128; 255; 1; 2; 3; 4; 5; 6; 7]) ∧
  returns request_vals_ok (lunpackrequest [128; 255; 1; 2; 3; 4; 5; 6; 7] 9).
Proof.
  assert (Forall byte_ok [128; 255; 1; 2; 3; 4; 5; 6; 7]) as H by (repeat constructor; lia).
  split; [exact H|].
  exact (proj1 (cluster_unpack_safe [128; 255; 1; 2; 3; 4; 5; 6; 7] H ltac:(cbn [length]; lia))).
Defined.

(** ** Trace tags *)

Lemma trace_roundtrip rn a tag :
  Z.of_nat (length tag) ≤ 32768 →
  lpacktrace tag = lua_return [LStr (frame (4 :: tag))] ∧
  agent_step rn a (4 :: tag) = Some (Agent (large a) (Some (LStr tag)), []).
Proof.
  intros Hl. split.
  - unfold lpacktrace. rewrite (proj2 (Z.ltb_ge _ _)) by lia.
    destruct (has_tag_header temp_buffer 4 (Z.of_nat (length tag) + 1)) as (b1 & b2 & -> & E & H);
      [apply has_temp|lia|].
    cbn [mbind option_bind]. rewrite E. cbn [mbind option_bind].
    buf_step H (has_write b2 _ 3 tag). rewrite (has_push _ _ _ H) by buf_side.
    cbn [mbind option_bind]. unfold frame. cbn [length].
    replace (Z.of_nat (S (length tag))) with (Z.of_nat (length tag) + 1) by lia. done.
  - unfold agent_step, lunpackrequest. rewrite swrap_small by (cbn [length]; lia).
    rewrite (proj2 (Z.eqb_neq _ _)) by (cbn [length]; lia).
    change (aget (4 :: tag) 0) with (Some 4). cbn [mbind option_bind].
    change (4 =? 0) with false. change (4 =? 1) with false. change (4 =? 65) with false.
    change ((4 =? 2) || (4 =? 3)) with false. change (4 =? 4) with true.
    unfold unpacktrace.
    rewrite (read_mem_end [4] tag 1) by (cbn [length]; lia). done.
Qed.

(** ** What the code does not check *)

(** The size of a long message comes from the network.  From 2^31 on it is negative
    as an [int], for which [skynet_malloc] cannot give a block: it prints "xmalloc:
    Out of memory" and aborts the process.  Two packages are enough. *)
Lemma concat_aborts :
  agent_run (λ _, true) (Agent ∅ None)
    [multi_body (AddrNumber 7) 5 (2 ^ 31) false; part_body 5 true [1]] = None.
Proof. vm_compute. reflexivity. Qed.

(** The format says that a message of exactly 32 KiB goes in one package; it is
    sent in parts. *)
Lemma packreq_32K msg :
  32768 ≤ Z.of_nat (length msg) ≤ 32768 →
  packrequest (AddrNumber 7) 5 (Some msg) (Z.of_nat (length msg)) false
  = Some (inr (frame (multi_body (AddrNumber 7) 5 (Z.of_nat (length msg)) false), 6,
      Some (map frame (part_bodies 5 msg)))).
Proof.
  intros Hl. rewrite packrequest_spec by (done || unfold INT_MAX; lia).
  unfold MULTI_PART. by rewrite (proj2 (Z.ltb_ge _ _)) by lia.
Qed.
