(* ===== verification/Effect.v ===== *)
(** Actions on the state of a component, which emit effects.

    The C services change their state and call the rest of the system: a function
    of theirs is an [eff S E], a partial function on states [S] that gives a result
    and the list of the effects in [E].  [exec] is an action after the effects of
    the code before it; its equations run a function statement by statement. *)
From S2P Require Import Prelude.
Local Open Scope Z_scope.

Definition eff (S E A : Type) : Type := S → option (A * S * list E).

#[export] Instance eff_ret S E : MRet (eff S E) := λ A x h, Some (x, h, []).
#[export] Instance eff_bind S E : MBind (eff S E) := λ A B f m h,
  match m h with
  | Some (x, h, es) =>
    match f x h with
    | Some (y, h, es') => Some (y, h, es ++ es')
    | None => None
    end
  | None => None
  end.

Section actions.
Context {S E : Type}.

Definition lift {A} (r : option A) : eff S E A := λ h,
  match r with Some x => Some (x, h, []) | None => None end.
Definition emits (es : list E) : eff S E () := λ h, Some (tt, h, es).
Definition emit (e : E) : eff S E () := emits [e].
Definition state : eff S E S := λ h, Some (h, h, []).
Definition put (h : S) : eff S E () := λ _, Some (tt, h, []).

Fixpoint for_each {A} (f : A → eff S E ()) (l : list A) : eff S E () :=
  match l with
  | [] => mret tt
  | x :: l => f x ;; for_each f l
  end.

(** An action after the effects [pre]. *)
Definition exec {A} (pre : list E) (m : eff S E A) (h : S) : option (A * S * list E) :=
  match m h with
  | Some (x, h, es) => Some (x, h, pre ++ es)
  | None => None
  end.

Lemma exec_nil {A} (m : eff S E A) h : m h = exec [] m h.
Proof. unfold exec. destruct (m h) as [[[x h'] es]|]; done. Qed.
End actions.

Section exec.
Context {S E A B : Type}.
Implicit Types (m : eff S E A) (f : A → eff S E B) (pre : list E) (h : S).

Lemma exec_bind pre m f h x h' es :
  m h = Some (x, h', es) → exec pre (m ≫= f) h = exec (pre ++ es) (f x) h'.
Proof.
  intros Em. unfold exec, mbind, eff_bind. rewrite Em.
  destruct (f x h') as [[[y h2] es2]|]; [|done]. by rewrite app_assoc.
Qed.

Lemma exec_split pre m f h x h' pre' :
  exec pre m h = Some (x, h', pre') → exec pre (m ≫= f) h = exec pre' (f x) h'.
Proof.
  unfold exec at 1. destruct (m h) as [[[y h1] es]|] eqn:Em; [|done]. intros [= -> -> <-].
  by apply exec_bind.
Qed.

Lemma exec_bind_pure pre m f h x :
  m h = Some (x, h, []) → exec pre (m ≫= f) h = exec pre (f x) h.
Proof. intros Em. rewrite (exec_bind _ _ _ _ _ _ _ Em). by rewrite app_nil_r. Qed.

Lemma exec_mret pre (x : A) h : exec pre (mret x : eff S E A) h = Some (x, h, pre).
Proof. unfold exec. cbn. by rewrite app_nil_r. Qed.

Lemma exec_ret_bind pre (x : A) f h : exec pre (mret x ≫= f) h = exec pre (f x) h.
Proof. by apply exec_bind_pure. Qed.

Lemma exec_lift pre (x : A) f h : exec pre (lift (Some x) ≫= f) h = exec pre (f x) h.
Proof. by apply exec_bind_pure. Qed.

Lemma exec_assoc {C} pre (m : eff S E C) (g : C → eff S E A) f h :
  exec pre ((m ≫= g) ≫= f) h = exec pre (m ≫= λ x, g x ≫= f) h.
Proof.
  unfold exec, mbind, eff_bind. destruct (m h) as [[[x h1] es1]|]; [|done].
  destruct (g x h1) as [[[y h2] es2]|]; [|done]. destruct (f y h2) as [[[z h3] es3]|]; [|done].
  by rewrite <- !app_assoc.
Qed.

End exec.

Section state.
Context {S E B : Type}.
Implicit Types (pre : list E) (h : S).

Lemma exec_state pre (f : S → eff S E B) h : exec pre (state ≫= f) h = exec pre (f h) h.
Proof. by apply exec_bind_pure. Qed.

Lemma exec_emits pre es (f : () → eff S E B) h :
  exec pre (emits es ≫= f) h = exec (pre ++ es) (f tt) h.
Proof. by apply exec_bind. Qed.

Lemma exec_emit pre e (f : () → eff S E B) h :
  exec pre (emit e ≫= f) h = exec (pre ++ [e]) (f tt) h.
Proof. by apply exec_bind. Qed.

Lemma exec_put pre h' (f : () → eff S E B) h : exec pre (put h' ≫= f) h = exec pre (f tt) h'.
Proof. unfold exec, mbind, eff_bind, put. by destruct (f tt h') as [[[y h2] es2]|]. Qed.
End state.

Lemma for_each_pure {S E A} (f : A → eff S E ()) (g : A → list E) l h :
  (∀ x, x ∈ l → f x h = Some (tt, h, g x)) → for_each f l h = Some (tt, h, concat (map g l)).
Proof.
  induction l as [|x l IH]; intros H; [done|]. cbn [for_each map concat].
  rewrite (exec_nil (_ ≫= _)), (exec_bind _ _ _ _ _ _ _ (H x ltac:(left))). cbn [app].
  unfold exec. rewrite IH; [done|]. intros y Hy. apply H. by right.
Qed.
