(* ===== verification/CString.v ===== *)
(** C strings: the functions of the standard library that the services call, on
    lists of bytes. *)
From Stdlib Require Import String Ascii.
From S2P Require Import Prelude.
Local Open Scope Z_scope.

(** The string at the start of an array ends at its first zero. *)
Fixpoint c_str (s : list Z) : list Z :=
  match s with
  | [] => []
  | c :: s => if c =? 0 then [] else c :: c_str s
  end.

(** [strncmp(a, b, n) == 0] of arrays of [n] bytes. *)
Fixpoint strncmp_eq (a b : list Z) : bool :=
  match a, b with
  | x :: a, y :: b => (x =? y) && ((x =? 0) || strncmp_eq a b)
  | _, _ => true
  end.

(** Decimal digits, as [%d] prints a number that is not negative. *)
Fixpoint decimal (fuel : nat) (n : Z) : list Z :=
  match fuel with
  | O => []
  | S fuel => (if n <? 10 then [] else decimal fuel (n / 10)) ++ [48 + n mod 10]
  end.

Definition is_space (c : Z) : bool := (c =? 32) || ((9 <=? c) && (c <=? 13)).
Definition is_digit (c : Z) : bool := (48 <=? c) && (c <=? 57).

Fixpoint scan_digits (s : list Z) (acc : Z) : Z * list Z :=
  match s with
  | c :: s' => if is_digit c then scan_digits s' (acc * 10 + (c - 48)) else (acc, s)
  | [] => (acc, s)
  end.

Fixpoint skip_space (s : list Z) : list Z :=
  match s with
  | c :: s' => if is_space c then skip_space s' else s
  | [] => s
  end.

(** A [%d] of [sscanf]: [None] when there is no number.  A number outside the
    [int]s, for which the standard defines nothing, is kept as it is. *)
Definition scan_int (s : list Z) : option (Z * list Z) :=
  let s := skip_space s in
  let (neg, s) := match s with
                  | c :: s' => if c =? 45 then (true, s') else if c =? 43 then (false, s') else (false, s)
                  | [] => (false, s)
                  end in
  match s with
  | c :: _ =>
    if is_digit c then let (n, s) := scan_digits s 0 in Some (if neg : bool then - n else n, s) else None
  | [] => None
  end.


(** A string literal, without its terminating zero. *)
Definition str (s : string) : list Z := map (λ c, Z.of_N (N_of_ascii c)) (list_ascii_of_string s).

(** [%d] *)
Definition decimal_int (n : Z) : list Z := if n <? 0 then 45 :: decimal 10 (- n) else decimal 10 n.

(** The value of a digit, as [strtol] reads them. *)
Definition digit_value (base c : Z) : option Z :=
  let v := if is_digit c then c - 48
           else if (97 <=? c) && (c <=? 122) then c - 87
           else if (65 <=? c) && (c <=? 90) then c - 55 else base in
  if v <? base then Some v else None.

(** The number at the start of a string; [None] when the array ends before the
    string does. *)
Fixpoint to_number (base : Z) (s : list Z) (acc : Z) : option Z :=
  match s with
  | [] => None
  | c :: s =>
    match digit_value base c with
    | Some v => to_number base s (acc * base + v)
    | None => Some acc
    end
  end.

(** The sign and the absolute value of the number that [strtol] reads. *)
Definition strto (base : Z) (s : list Z) : option (bool * Z) :=
  let s := skip_space s in
  let (neg, s) := match s with
                  | c :: s' => if c =? 45 then (true, s') else if c =? 43 then (false, s') else (false, s)
                  | [] => (false, s)
                  end in
  let s := match s with
           | z :: x :: s' => if (base =? 16) && (z =? 48) && ((x =? 120) || (x =? 88)) then s' else s
           | _ => s
           end in
  n ← to_number base s 0;
  Some (neg, n).

(** [strtol] and [strtoul] with 64-bit [long]s, stored in an [int] and in an
    [unsigned int]. *)
Definition strtol (s : list Z) : option Z :=
  '(neg, n) ← strto 10 s;
  Some (swrap 32 (if neg : bool then Z.max (- 2 ^ 63) (- n) else Z.min (2 ^ 63 - 1) n)).

Definition strtoul (s : list Z) : option Z :=
  '(neg, n) ← strto 16 s;
  let n := Z.min (2 ^ 64 - 1) n in
  Some (wrap 32 (if neg : bool then - n else n)).

(** [memcmp(a, b, n) == 0]; it stops at the first difference. *)
Fixpoint memcmp_eq (n : nat) (a b : list Z) : option bool :=
  match n with
  | O => Some true
  | S n =>
    match a, b with
    | x :: a, y :: b => if x =? y then memcmp_eq n a b else Some false
    | _, _ => None
    end
  end.

(** How many bytes come before the first [c]; all of them when there is none. *)
Fixpoint find_char (c : Z) (s : list Z) : nat :=
  match s with
  | [] => O
  | x :: s => if x =? c then O else S (find_char c s)
  end.

(** [strsep(&p, " ")] of a string in an array: the array with the end of the token
    set, and the string after it unless this was the last token. *)
Definition strsep (buf : list Z) (p : Z) : option (list Z * option Z) :=
  let s := c_str (drop (Z.to_nat p) buf) in
  let n := find_char 32 s in
  if decide (n = length s) then Some (buf, None)
  else
    let q := p + Z.of_nat n in
    buf ← aset buf q 0;
    Some (buf, Some (q + 1)).

(** ** Numbers are read as they were printed *)

Fixpoint numeral (digit : Z → Z) (base : Z) (fuel : nat) (n : Z) : list Z :=
  match fuel with
  | O => []
  | S fuel => (if n <? base then [] else numeral digit base fuel (n / base)) ++ [digit (n mod base)]
  end.

Definition hex_digit (d : Z) : Z := if d <? 10 then 48 + d else 87 + d.
Definition hexadecimal (n : Z) : list Z := numeral hex_digit 16 8 n.

Lemma decimal_numeral fuel n : decimal fuel n = numeral (λ d, 48 + d) 10 fuel n.
Proof. revert n. induction fuel as [|fuel IH]; intros n; [done|]. cbn. by rewrite IH. Qed.

Lemma numeral_forall (P : Z → Prop) digit base fuel n :
  0 < base → (∀ d, 0 ≤ d < base → P (digit d)) → Forall P (numeral digit base fuel n).
Proof.
  intros Hb Hd. revert n. induction fuel as [|fuel IH]; intros n; [done|]. cbn [numeral].
  apply Forall_app. split; [|constructor; [|done]].
  - destruct (n <? base); [done|apply IH].
  - apply Hd. by apply Z.mod_pos_bound.
Qed.

Lemma numeral_nonempty digit base fuel n : numeral digit base (S fuel) n ≠ [].
Proof. cbn. by destruct (if n <? base then _ else _). Qed.

Lemma to_number_numeral digit base fuel n s :
  0 < base → (∀ d, 0 ≤ d < base → digit_value base (digit d) = Some d) →
  0 ≤ n < base ^ Z.of_nat fuel → (0 < fuel)%nat →
  to_number base (numeral digit base fuel n ++ s) 0 = to_number base s n.
Proof.
  intros Hb Hd. revert n s. induction fuel as [|fuel IH]; intros n s Hn Hf; [lia|]. cbn [numeral].
  pose proof (Z.mod_pos_bound n base Hb) as Hm. pose proof (Z.div_mod n base ltac:(lia)) as Hdm.
  destruct (Z.ltb_spec n base) as [Hl|Hl].
  - cbn [app to_number]. rewrite Hd by done. f_equal. rewrite Z.mod_small; lia.
  - rewrite <- app_assoc, IH.
    + cbn [app to_number]. rewrite Hd by done. f_equal. lia.
    + split; [apply Z.div_pos; lia|]. apply Z.div_lt_upper_bound; [lia|].
      rewrite Nat2Z.inj_succ, Z.pow_succ_r in Hn by lia. lia.
    + destruct fuel; [|lia]. change (Z.of_nat 1) with 1 in Hn. lia.
Qed.

Lemma decimal_value d : 0 ≤ d < 10 → digit_value 10 (48 + d) = Some d.
Proof.
  intros Hd. unfold digit_value, is_digit.
  assert ((48 <=? 48 + d) && (48 + d <=? 57) = true) as -> by lia.
  rewrite (proj2 (Z.ltb_lt _ _)) by lia. f_equal. lia.
Qed.

Lemma hex_value d : 0 ≤ d < 16 → digit_value 16 (hex_digit d) = Some d.
Proof.
  intros Hd. unfold digit_value, is_digit, hex_digit. destruct (Z.ltb_spec d 10).
  - assert ((48 <=? 48 + d) && (48 + d <=? 57) = true) as -> by lia.
    rewrite (proj2 (Z.ltb_lt _ _)) by lia. f_equal. lia.
  - assert ((48 <=? 87 + d) && (87 + d <=? 57) = false) as -> by lia.
    assert ((97 <=? 87 + d) && (87 + d <=? 122) = true) as -> by lia.
    rewrite (proj2 (Z.ltb_lt _ _)) by lia. f_equal. lia.
Qed.

(** The bytes that a number is printed with. *)
Definition number_char (c : Z) : Prop := 48 ≤ c ≤ 57 ∨ 97 ≤ c ≤ 102.

Lemma decimal_chars fuel n : Forall number_char (decimal fuel n).
Proof. rewrite decimal_numeral. apply numeral_forall; [lia|]. intros. left. lia. Qed.

Lemma hex_chars n : Forall number_char (hexadecimal n).
Proof.
  apply numeral_forall; [lia|]. intros d Hd. unfold hex_digit, number_char.
  destruct (Z.ltb_spec d 10); lia.
Qed.

Lemma strto_number base l s :
  l ≠ [] → Forall number_char l → strto base (l ++ 0 :: s) = (n ← to_number base (l ++ 0 :: s) 0; Some (false, n)).
Proof.
  intros Hl Hc. destruct l as [|a l]; [done|]. apply Forall_cons in Hc as [Ha Hc]. unfold number_char in Ha.
  unfold strto. cbn [app skip_space]. unfold is_space.
  assert ((a =? 32) || ((9 <=? a) && (a <=? 13)) = false) as -> by lia.
  assert (a =? 45 = false) as -> by lia. assert (a =? 43 = false) as -> by lia.
  destruct l as [|b l]; cbn [app].
  - by rewrite andb_false_r.
  - apply Forall_cons in Hc as [Hb _]. unfold number_char in Hb.
    assert ((b =? 120) || (b =? 88) = false) as -> by lia. by rewrite andb_false_r.
Qed.

Lemma strtol_decimal n s : 0 ≤ n ≤ INT_MAX → strtol (decimal 10 n ++ 0 :: s) = Some n.
Proof.
  intros Hn. unfold strtol. rewrite strto_number by (apply decimal_chars || (rewrite decimal_numeral; apply numeral_nonempty)).
  rewrite decimal_numeral, to_number_numeral by (apply decimal_value || lia || (unfold INT_MAX in Hn; cbn; lia)).
  cbn [to_number]. change (digit_value 10 0) with (@None Z). cbn [mbind option_bind].
  f_equal. unfold INT_MAX in Hn. rewrite Z.min_r by lia. apply swrap_small; lia.
Qed.

Lemma strtoul_hex n s : 0 ≤ n < 2 ^ 32 → strtoul (hexadecimal n ++ 0 :: s) = Some n.
Proof.
  intros Hn. unfold strtoul. rewrite strto_number by (apply hex_chars || apply numeral_nonempty).
  unfold hexadecimal. rewrite to_number_numeral by (apply hex_value || lia || (cbn; lia)).
  cbn [to_number]. change (digit_value 16 0) with (@None Z). cbn [mbind option_bind].
  f_equal. rewrite Z.min_r by lia. by apply wrap_small.
Qed.

(** ** Tokens *)

Lemma find_char_app c l s : c ∉ l → find_char c (l ++ c :: s) = length l.
Proof.
  induction l as [|x l IH]; intros H; cbn [app find_char length].
  - by rewrite Z.eqb_refl.
  - apply not_elem_of_cons in H as [Hx H]. rewrite (proj2 (Z.eqb_neq x c)) by done. by rewrite IH.
Qed.

Lemma c_str_zero l s : 0 ∉ l → c_str (l ++ 0 :: s) = l.
Proof.
  induction l as [|x l IH]; intros H; cbn [app c_str].
  - by rewrite Z.eqb_refl.
  - apply not_elem_of_cons in H as [Hx H]. rewrite (proj2 (Z.eqb_neq x 0)) by done. by rewrite IH.
Qed.

Lemma strsep_token pre w rest junk p :
  32 ∉ w → 0 ∉ w → 0 ∉ rest → p = Z.of_nat (length pre) →
  strsep (pre ++ w ++ 32 :: rest ++ 0 :: junk) p =
  Some (pre ++ w ++ 0 :: rest ++ 0 :: junk, Some (p + Z.of_nat (length w) + 1)).
Proof.
  intros Hw Hw0 Hr ->. unfold strsep. rewrite Nat2Z.id, drop_app_length.
  replace (w ++ 32 :: rest ++ 0 :: junk) with ((w ++ 32 :: rest) ++ 0 :: junk) by (by rewrite <- app_assoc).
  rewrite c_str_zero.
  2:{ rewrite elem_of_app, elem_of_cons. intros [?|[?|?]]; done. }
  rewrite find_char_app, decide_False by (done || rewrite length_app; cbn; lia).
  rewrite aset_Some by (rewrite !length_app; cbn; lia). cbn [mbind option_bind]. do 2 f_equal.
  replace (Z.to_nat (Z.of_nat (length pre) + Z.of_nat (length w))) with (length pre + length w)%nat by lia.
  rewrite insert_app_r, <- app_assoc. f_equal.
  replace (length w) with (length w + 0)%nat by lia. by rewrite insert_app_r.
Qed.
