(* ===== verification/HarborQueue.v ===== *)
(** The message queues of the harbor service
    (src/framework/skynet/service-src/service_harbor.c): messages wait in a ring that
    keeps one slot free, so that it is full before [tail] meets [head]. *)
From S2P Require Import Prelude Ring.
Local Open Scope Z_scope.

Definition DEFAULT_QUEUE_SIZE : Z := 1024.

Record remote_message_header := Header { source : Z; destination : Z; session : Z }.

(** The buffer is a block of [size] bytes that the message owns. *)
Record harbor_msg := HMsg { header : remote_message_header; buffer : list Z; size : Z }.

Record harbor_msg_queue := HQueue {
  q_size : Z; q_head : Z; q_tail : Z; q_data : list (option harbor_msg);
}.

(** The slots that [skynet_malloc] gives are empty. *)
Definition new_queue : harbor_msg_queue :=
  HQueue DEFAULT_QUEUE_SIZE 0 0 (replicate (Z.to_nat DEFAULT_QUEUE_SIZE) None).

(** The loop that copies the messages to the front of the larger array. *)
Definition copy_slots (queue : harbor_msg_queue) : option (list (option harbor_msg)) :=
  mapM (λ i, aget (q_data queue) ((i + q_head queue) mod q_size queue)) (seqZ 0 (q_size queue - 1)).

Definition grow_queue (queue : harbor_msg_queue) : option harbor_msg_queue :=
  size ← c_int (q_size queue * 2);
  slots ← copy_slots queue;
  Some (HQueue size 0 (q_size queue - 1)
          (slots ++ replicate (Z.to_nat (q_size queue + 1)) None)).

Definition push_queue_msg (queue : harbor_msg_queue) (m : harbor_msg) : option harbor_msg_queue :=
  queue ← (if (q_tail queue + 1) mod q_size queue =? q_head queue
           then grow_queue queue else Some queue);
  data ← aset (q_data queue) (q_tail queue) (Some m);
  Some (HQueue (q_size queue) (q_head queue) ((q_tail queue + 1) mod q_size queue) data).

Definition push_queue (queue : harbor_msg_queue) (buffer : list Z) (sz : Z)
    (header : remote_message_header) : option harbor_msg_queue :=
  push_queue_msg queue (HMsg header buffer sz).

(** [inl] is [NULL]; reading a slot that was never written is an abort. *)
Definition pop_queue (queue : harbor_msg_queue) : option (unit + harbor_msg * harbor_msg_queue) :=
  if q_head queue =? q_tail queue then Some (inl tt)
  else
    slot ← aget (q_data queue) (q_head queue);
    m ← slot;
    Some (inr (m, HQueue (q_size queue) ((q_head queue + 1) mod q_size queue) (q_tail queue)
                    (q_data queue))).

(** [while ((m = pop_queue(queue)) != NULL)]: the messages that the loops of the
    code take, whose bodies leave the queue alone, and the queue after the loop. *)
Fixpoint drain_loop (fuel : nat) (queue : harbor_msg_queue) :
    option (list harbor_msg * harbor_msg_queue) :=
  match fuel with
  | O => None
  | S fuel =>
    r ← pop_queue queue;
    match r with
    | inl _ => Some ([], queue)
    | inr (m, queue) => '(l, queue) ← drain_loop fuel queue; Some (m :: l, queue)
    end
  end.

Definition drain (queue : harbor_msg_queue) : option (list harbor_msg * harbor_msg_queue) :=
  drain_loop (Z.to_nat (q_size queue)) queue.

(** The loop of [dispatch_name_queue] that appends a queue to another. *)
Fixpoint push_all (queue : harbor_msg_queue) (ms : list harbor_msg) : option harbor_msg_queue :=
  match ms with
  | [] => Some queue
  | m :: ms => queue ← push_queue_msg queue m; push_all queue ms
  end.

(** ** The queue is a list *)

Record queue_rep (queue : harbor_msg_queue) (l : list harbor_msg) : Prop := {
  qr_ring : ring_ok (q_data queue) (q_size queue) (q_head queue) (q_tail queue) l;
  qr_size : 2 ≤ q_size queue;
}.

(** How many messages a queue may hold before the size of its array overflows. *)
Definition QUEUE_MAX : Z := 2 ^ 30.

Lemma new_queue_rep : queue_rep new_queue [].
Proof. split; [by apply ring_ok_nil|done]. Qed.

Lemma copy_slots_spec queue l :
  queue_rep queue l → Z.of_nat (length l) = q_size queue - 1 →
  copy_slots queue = Some (map Some l).
Proof.
  intros [R H2] Hl. destruct R. unfold copy_slots. apply mapM_Some, Forall2_same_length_lookup_2.
  { rewrite length_seqZ, length_map. lia. }
  intros i x y Hx Hy. apply lookup_seqZ in Hx as [-> Hi].
  apply list_lookup_fmap_Some in Hy as (m & -> & Hm). rewrite Z.add_0_l, Z.add_comm. by apply rk_get.
Qed.

Lemma grow_queue_spec queue l :
  queue_rep queue l → Z.of_nat (length l) = q_size queue - 1 → q_size queue < QUEUE_MAX →
  ∃ queue', grow_queue queue = Some queue' ∧ queue_rep queue' l ∧
    q_size queue' = 2 * q_size queue.
Proof.
  intros H Hl Hm. pose proof (qr_size _ _ H) as H2. unfold QUEUE_MAX in Hm. unfold grow_queue.
  rewrite c_int_Some by (unfold INT_MIN, INT_MAX; lia). cbn [mbind option_bind].
  rewrite (copy_slots_spec _ _ H Hl). cbn [mbind option_bind].
  eexists. split; [done|]. split; [|cbn; lia]. split; cbn [q_data q_size q_head q_tail]; [|lia].
  pose proof (ring_ok_unrolled l (Z.to_nat (q_size queue + 1))) as Hu.
  replace (q_size queue - 1) with (Z.of_nat (length l)) by lia.
  replace (q_size queue * 2) with (Z.of_nat (length l) + Z.of_nat (Z.to_nat (q_size queue + 1))) by lia.
  apply Hu. lia.
Qed.

Lemma queue_full_iff queue l :
  queue_rep queue l →
  ((q_tail queue + 1) mod q_size queue =? q_head queue) = (Z.of_nat (length l) =? q_size queue - 1).
Proof.
  intros [[] H2]. rewrite rk_tail, Zplus_mod_idemp_l.
  rewrite (Z.add_assoc _ _ 1) || rewrite <- Z.add_assoc. rewrite mod_once by lia.
  repeat case_match; lia.
Qed.

Lemma push_spec queue l m :
  queue_rep queue l → Z.of_nat (length l) < QUEUE_MAX - 1 →
  ∃ queue', push_queue_msg queue m = Some queue' ∧ queue_rep queue' (l ++ [m]).
Proof.
  intros H Hm. unfold push_queue_msg. rewrite (queue_full_iff _ _ H).
  assert (∃ q1, (if Z.of_nat (length l) =? q_size queue - 1 then grow_queue queue else Some queue)
    = Some q1 ∧ queue_rep q1 l ∧ Z.of_nat (length l) < q_size q1 - 1) as (q1 & -> & H1 & Hlt).
  { pose proof (qr_size _ _ H) as Hz. pose proof (rk_lt _ _ _ _ _ (qr_ring _ _ H)) as Hrk.
    destruct (Z.eqb_spec (Z.of_nat (length l)) (q_size queue - 1)) as [E|E].
    - destruct (grow_queue_spec queue l H E) as (q1 & E1 & H1 & Hs); [lia|].
      exists q1. split; [done|]. split; [done|]. lia.
    - exists queue. split; [done|]. split; [done|]. lia. }
  cbn [mbind option_bind]. clear H. destruct H1 as [R Hs2].
  destruct (ring_put _ _ _ _ _ m R) as (a' & -> & Hput). cbn [mbind option_bind].
  eexists. split; [done|]. pose proof (ring_ok_tail_range _ _ _ _ _ R) as Ht.
  rewrite (ring_next_mod _ _ Ht) in Hput. split; cbn [q_data q_size q_head q_tail]; [|done].
  destruct Hput as [[_ Hok]|[_ [_ _ Hall _]]]; [exact Hok|].
  rewrite length_app in Hall. cbn [length] in Hall. lia.
Qed.

Lemma pop_empty queue : queue_rep queue [] → pop_queue queue = Some (inl tt).
Proof.
  intros [R _]. unfold pop_queue.
  by rewrite (proj2 (Z.eqb_eq _ _) (proj2 (ring_ok_empty _ _ _ _ _ R) eq_refl)).
Qed.

Lemma pop_spec queue m l :
  queue_rep queue (m :: l) →
  ∃ queue', pop_queue queue = Some (inr (m, queue')) ∧ queue_rep queue' l ∧
    q_size queue' = q_size queue.
Proof.
  intros [R H2]. unfold pop_queue.
  rewrite (proj2 (Z.eqb_neq _ _)) by (intros E; by apply (ring_ok_empty _ _ _ _ _ R) in E).
  destruct (ring_take _ _ _ _ _ _ R) as [-> R']. cbn [mbind option_bind].
  eexists. split; [done|]. split; [|done]. split; cbn [q_data q_size q_head q_tail]; [|done].
  rewrite <- ring_next_mod by apply R. exact R'.
Qed.

Lemma drain_loop_spec fuel queue l :
  queue_rep queue l → (length l < fuel)%nat →
  ∃ queue', drain_loop fuel queue = Some (l, queue') ∧ queue_rep queue' [].
Proof.
  revert queue l. induction fuel as [|fuel IH]; intros queue l H Hf; [lia|]. cbn [drain_loop].
  destruct l as [|m l].
  - rewrite pop_empty by done. cbn [mbind option_bind]. by exists queue.
  - destruct (pop_spec _ _ _ H) as (q1 & -> & H1 & _). cbn [mbind option_bind].
    cbn [length] in Hf. destruct (IH q1 l H1) as (q2 & -> & H2); [lia|]. cbn [mbind option_bind].
    by exists q2.
Qed.

Lemma drain_all_spec queue l :
  queue_rep queue l → ∃ queue', drain queue = Some (l, queue') ∧ queue_rep queue' [].
Proof.
  intros H. apply drain_loop_spec; [done|]. pose proof (rk_lt _ _ _ _ _ (qr_ring _ _ H)). lia.
Qed.

Lemma push_all_spec queue l ms :
  queue_rep queue l → Z.of_nat (length l + length ms) < QUEUE_MAX →
  ∃ queue', push_all queue ms = Some queue' ∧ queue_rep queue' (l ++ ms).
Proof.
  revert queue l. induction ms as [|m ms IH]; intros queue l H Hl; cbn [push_all length] in *.
  - exists queue. by rewrite app_nil_r.
  - destruct (push_spec queue l m H) as (q1 & -> & H1); [lia|]. cbn [mbind option_bind].
    destruct (IH q1 (l ++ [m]) H1) as (q2 & -> & H2); [rewrite length_app; cbn [length]; lia|].
    exists q2. by rewrite <- app_assoc in H2.
Qed.
