(* ===== verification/Harbor.v ===== *)
(** The harbor service (src/framework/skynet/service-src/service_harbor.c), through
    which the nodes of a master/slave network exchange messages.

    The service keeps a connection ([slave]) for each of the other nodes, a hash map
    from global names to handles, and queues of the messages that cannot be sent
    yet.  Its functions are actions on this state ([M]) that emit effects: messages
    to services, bytes to sockets, and the release of message buffers.  The text of
    log messages is not modelled. *)
From S2P Require Import Prelude Bytes Buffer Ring Effect CString HarborQueue.
Local Open Scope Z_scope.

Definition GLOBALNAME_LENGTH : Z := 16.
Definition REMOTE_MAX : Z := 256.
Definition HASH_SIZE : Z := 4096.
Definition HEADER_COOKIE_LENGTH : Z := 12.
Definition HANDLE_MASK : Z := 16777215.
Definition HANDLE_REMOTE_SHIFT : Z := 24.

Definition PTYPE_TEXT : Z := 0.
Definition PTYPE_SYSTEM : Z := 4.
Definition PTYPE_HARBOR : Z := 5.
Definition PTYPE_SOCKET : Z := 6.
Definition PTYPE_ERROR : Z := 7.
Definition PTYPE_TAG_DONTCOPY : Z := 65536.

Definition SKYNET_SOCKET_TYPE_DATA : Z := 1.
Definition SKYNET_SOCKET_TYPE_CONNECT : Z := 2.
Definition SKYNET_SOCKET_TYPE_CLOSE : Z := 3.
Definition SKYNET_SOCKET_TYPE_ERROR : Z := 5.
Definition SKYNET_SOCKET_TYPE_WARNING : Z := 7.

(** ** State *)

(** [key] is a [char[GLOBALNAME_LENGTH]]. *)
Record keyvalue := KeyValue {
  kv_key : list Z; kv_hash : Z; kv_value : Z; kv_queue : option harbor_msg_queue;
}.

(** The chains of the nodes; a slot that is absent is [NULL]. *)
Notation hashmap := (gmap Z (list keyvalue)).

Inductive slave_status := STATUS_WAIT | STATUS_HANDSHAKE | STATUS_HEADER | STATUS_CONTENT | STATUS_DOWN.

#[export] Instance slave_status_eq : EqDecision slave_status.
Proof. solve_decision. Defined.

Record slave := Slave {
  s_fd : Z; s_queue : option harbor_msg_queue; s_status : slave_status;
  s_length : Z; s_read : Z; s_size : list Z; s_recv_buffer : option (list Z);
}.

Record harbor := Harbor {
  h_id : Z; h_slave : Z; h_map : hashmap; h_s : list slave;
}.

(** What the service does to the rest of the system.  A buffer sent with
    [PTYPE_TAG_DONTCOPY] goes to the receiver; [skynet_send] without a message has
    the empty one. *)
Inductive effect :=
  | Send (src dst type session : Z) (msg : list Z)
  | SocketSend (fd : Z) (bytes : list Z)
  | SocketStart (fd : Z)
  | SocketClose (fd : Z)
  | LogError
  | Free (buffer : list Z).

(** ** Actions *)

Notation M := (eff harbor effect).

Definition get_slave (id : Z) : M slave := h ← state; lift (aget (h_s h) id).
Definition put_slave (id : Z) (s : slave) : M () := λ h,
  match aset (h_s h) id s with
  | Some l => Some (tt, Harbor (h_id h) (h_slave h) (h_map h) l, [])
  | None => None
  end.
Definition get_map : M hashmap := h ← state; mret (h_map h).
Definition put_map (map : hashmap) : M () := λ h,
  Some (tt, Harbor (h_id h) (h_slave h) map (h_s h), []).

Definition release_queue (queue : option harbor_msg_queue) : M () :=
  match queue with
  | None => mret tt
  | Some queue => '(ms, _) ← lift (drain queue); emits (map (λ m, Free (buffer m)) ms)
  end.

(** ** The hash map *)

(** [ptr[0] ^ ptr[1] ^ ptr[2] ^ ptr[3]] of the name as four words. *)
Definition name_hash (name : list Z) : Z :=
  Z.lxor (Z.lxor (Z.lxor (le_val (take 4 name)) (le_val (take 4 (drop 4 name))))
    (le_val (take 4 (drop 8 name)))) (le_val (take 4 (drop 12 name))).

Fixpoint chain_search (l : list keyvalue) (h : Z) (name : list Z) : option keyvalue :=
  match l with
  | [] => None
  | node :: next =>
    if (kv_hash node =? h) && strncmp_eq (kv_key node) name then Some node
    else chain_search next h name
  end.

Definition chain (map : hashmap) (h : Z) : list keyvalue := default [] (map !! (h mod HASH_SIZE)).

Definition hash_search (map : hashmap) (name : list Z) : option keyvalue :=
  let h := name_hash name in chain_search (chain map h) h name.

Definition hash_insert (map : hashmap) (name : list Z) : keyvalue * hashmap :=
  let h := name_hash name in
  let node := KeyValue name h 0 None in
  (node, <[h mod HASH_SIZE := node :: chain map h]> map).

(** Stores through the pointer that [hash_search] or [hash_insert] gave for [name]. *)
Fixpoint chain_store (l : list keyvalue) (h : Z) (name : list Z) (node : keyvalue) : list keyvalue :=
  match l with
  | [] => []
  | n :: next =>
    if (kv_hash n =? h) && strncmp_eq (kv_key n) name then node :: next
    else n :: chain_store next h name node
  end.

Definition hash_store (map : hashmap) (name : list Z) (node : keyvalue) : hashmap :=
  let h := name_hash name in
  <[h mod HASH_SIZE := chain_store (chain map h) h name node]> map.

(** The queues of all the nodes are released. *)
Definition hash_delete : M () :=
  map ← get_map;
  for_each (λ i, for_each (λ node, release_queue (kv_queue node)) (default [] (map !! i)))
    (seqZ 0 HASH_SIZE).

(** ** Connections *)

Definition set_queue (q : option harbor_msg_queue) (s : slave) : slave :=
  Slave (s_fd s) q (s_status s) (s_length s) (s_read s) (s_size s) (s_recv_buffer s).
Definition set_status (st : slave_status) (s : slave) : slave :=
  Slave (s_fd s) (s_queue s) st (s_length s) (s_read s) (s_size s) (s_recv_buffer s).
Definition set_fd (fd : Z) (s : slave) : slave :=
  Slave fd (s_queue s) (s_status s) (s_length s) (s_read s) (s_size s) (s_recv_buffer s).
Definition set_read (read : Z) (s : slave) : slave :=
  Slave (s_fd s) (s_queue s) (s_status s) (s_length s) read (s_size s) (s_recv_buffer s).

Definition close_harbor (id : Z) : M () :=
  s ← get_slave id;
  let s := set_status STATUS_DOWN s in
  s ← (if s_fd s =? 0 then mret s else emit (SocketClose (s_fd s)) ;; mret (set_fd 0 s));
  release_queue (s_queue s) ;;
  put_slave id (set_queue None s).

Definition report_harbor_down (id : Z) : M () :=
  h ← state;
  emit (Send 0 (h_slave h) PTYPE_TEXT 0 ([68; 32] ++ decimal 10 id)).

Definition harbor_create : harbor :=
  Harbor 0 0 ∅ (replicate (Z.to_nat REMOTE_MAX) (Slave 0 None STATUS_WAIT 0 0 [0; 0; 0; 0] None)).

Definition close_all_remotes : M () := for_each close_harbor (seqZ 1 (REMOTE_MAX - 1)).

Definition harbor_release : M () := close_all_remotes ;; hash_delete.

(** ** Packages *)

Definition to_bigendian (n : Z) : list Z := be_bytes 4 n.
Definition from_bigendian (bytes : list Z) : Z := wrap 32 (be_val bytes).

Definition header_to_message (header : remote_message_header) : list Z :=
  to_bigendian (source header) ++ to_bigendian (destination header) ++ to_bigendian (session header).

Definition message_to_header (message : list Z) : remote_message_header :=
  Header (from_bigendian (take 4 message)) (from_bigendian (take 4 (drop 4 message)))
    (from_bigendian (take 4 (drop 8 message))).

(** The first [n] bytes of a block. *)
Definition read_block (block : list Z) (n : Z) : option (list Z) :=
  if (0 <=? n) && (n <=? Z.of_nat (length block)) then Some (take (Z.to_nat n) block) else None.

(** [skynet_send] gives a negative result when there is no service [dst]. *)
Definition forward_local_messsage (dead : Z → bool) (msg : list Z) (sz : Z) : M () :=
  h ← state;
  cookie ← lift (if sz <? HEADER_COOKIE_LENGTH then None else Some (sz - HEADER_COOKIE_LENGTH));
  block ← lift (read_block msg sz);
  let header := message_to_header (drop (Z.to_nat cookie) block) in
  let type := Z.shiftr (destination header) HANDLE_REMOTE_SHIFT in
  let dst := Z.lor (Z.land (destination header) HANDLE_MASK) (wrap 32 (Z.shiftl (h_id h) HANDLE_REMOTE_SHIFT)) in
  emit (Send (source header) dst (Z.lor type PTYPE_TAG_DONTCOPY) (swrap 32 (session header))
    (take (Z.to_nat cookie) block)) ;;
  if dead dst then
    (if type =? PTYPE_ERROR then mret tt
     else emit (Send dst (source header) PTYPE_ERROR (swrap 32 (session header)) [])) ;;
    emit LogError
  else mret tt.

Definition send_remote (fd : Z) (buffer : list Z) (sz : Z) (cookie : remote_message_header) : M () :=
  let sz_header := wrap 64 (sz + 12) in
  if 2 ^ 32 - 1 <? sz_header then emit LogError
  else
    data ← lift (read_block buffer sz);
    emit (SocketSend fd (to_bigendian sz_header ++ data ++ header_to_message cookie)).

(** The loops that send a queue. *)
Definition send_and_free (fd : Z) (m : harbor_msg) : M () :=
  send_remote fd (buffer m) (size m) (header m) ;; emit (Free (buffer m)).

Definition set_kv_queue (q : option harbor_msg_queue) (node : keyvalue) : keyvalue :=
  KeyValue (kv_key node) (kv_hash node) (kv_value node) q.

(** [m->header.destination |= (handle & HANDLE_MASK)] *)
Definition add_handle (handle : Z) (m : harbor_msg) : harbor_msg :=
  HMsg (Header (source (header m)) (Z.lor (destination (header m)) (Z.land handle HANDLE_MASK))
          (session (header m))) (buffer m) (size m).

(** The result is the node with its changed queue. *)
Definition dispatch_name_queue (node : keyvalue) : M keyvalue :=
  queue ← lift (kv_queue node);
  let handle := kv_value node in
  let harbor_id := Z.shiftr handle HANDLE_REMOTE_SHIFT in
  h ← state;
  s ← get_slave harbor_id;
  if s_fd s =? 0 then
    if decide (s_status s = STATUS_DOWN) then emit LogError ;; mret node
    else
      '(squeue, node) ← match s_queue s with
                        | None => mret (queue, set_kv_queue None node)
                        | Some squeue =>
                          '(ms, queue) ← lift (drain queue);
                          squeue ← lift (push_all squeue ms);
                          mret (squeue, set_kv_queue (Some queue) node)
                        end;
      put_slave harbor_id (set_queue (Some squeue) s) ;;
      if harbor_id =? Z.shiftr (h_slave h) HANDLE_REMOTE_SHIFT then
        '(ms, squeue) ← lift (drain squeue);
        emits (map (λ m, Send (source (header m)) handle
          (Z.lor (Z.shiftr (destination (header m)) HANDLE_REMOTE_SHIFT) PTYPE_TAG_DONTCOPY)
          (swrap 32 (session (header m))) (buffer m)) ms) ;;
        release_queue (Some squeue) ;;
        put_slave harbor_id (set_queue None s) ;;
        mret node
      else mret node
  else
    '(ms, queue) ← lift (drain queue);
    for_each (send_and_free (s_fd s)) (map (add_handle handle) ms) ;;
    mret (set_kv_queue (Some queue) node).

Definition dispatch_queue (id : Z) : M () :=
  s ← get_slave id;
  lift (c_assert (negb (s_fd s =? 0))) ;;
  match s_queue s with
  | None => mret tt
  | Some queue =>
    '(ms, queue) ← lift (drain queue);
    for_each (send_and_free (s_fd s)) ms ;;
    release_queue (Some queue) ;;
    put_slave id (set_queue None s)
  end.

(** ** Data from a socket *)

(** How a case of the [switch] ends. *)
Inductive next := Return | Break | Through.

Definition case_handshake (id : Z) (buf : list Z) : M (list Z * next) :=
  remote_id ← lift (aget buf 0);
  if negb (remote_id =? id) then emit LogError ;; close_harbor id ;; mret (buf, Return)
  else
    s ← get_slave id;
    put_slave id (set_status STATUS_HEADER s) ;;
    dispatch_queue id ;;
    let buf := drop 1 buf in
    mret (buf, if Z.of_nat (length buf) =? 0 then Break else Through).

Definition case_header (id : Z) (buf : list Z) : M (list Z * next) :=
  s ← get_slave id;
  let size := Z.of_nat (length buf) in
  let need := 4 - s_read s in
  if size <? need then
    bytes ← lift (write_at (s_size s) (s_read s) buf);
    put_slave id (Slave (s_fd s) (s_queue s) (s_status s) (s_length s) (s_read s + size) bytes
      (s_recv_buffer s)) ;;
    mret (buf, Return)
  else
    data ← lift (read_block buf need);
    bytes ← lift (write_at (s_size s) (s_read s) data);
    let buf := drop (Z.to_nat need) buf in
    b0 ← lift (aget bytes 0);
    b1 ← lift (aget bytes 1);
    b2 ← lift (aget bytes 2);
    b3 ← lift (aget bytes 3);
    if negb (b0 =? 0) then
      put_slave id (Slave (s_fd s) (s_queue s) (s_status s) (s_length s) (s_read s) bytes
        (s_recv_buffer s)) ;;
      emit LogError ;; close_harbor id ;; mret (buf, Return)
    else
      let len := Z.lor (Z.lor (Z.shiftl b1 16) (Z.shiftl b2 8)) b3 in
      put_slave id (Slave (s_fd s) (s_queue s) STATUS_CONTENT len 0 bytes
        (Some (replicate (Z.to_nat len) 0))) ;;
      mret (buf, if Z.of_nat (length buf) =? 0 then Return else Through).

Definition case_content (dead : Z → bool) (id : Z) (buf : list Z) : M (list Z * next) :=
  s ← get_slave id;
  let size := Z.of_nat (length buf) in
  let need := s_length s - s_read s in
  recv ← lift (s_recv_buffer s);
  if size <? need then
    recv ← lift (write_at recv (s_read s) buf);
    put_slave id (Slave (s_fd s) (s_queue s) (s_status s) (s_length s) (s_read s + size) (s_size s)
      (Some recv)) ;;
    mret (buf, Return)
  else
    data ← lift (read_block buf need);
    recv ← lift (write_at recv (s_read s) data);
    forward_local_messsage dead recv (s_length s) ;;
    let buf := drop (Z.to_nat need) buf in
    put_slave id (Slave (s_fd s) (s_queue s) STATUS_HEADER 0 0 (s_size s) None) ;;
    mret (buf, if Z.of_nat (length buf) =? 0 then Return else Break).

Definition fall_through (r : list Z * next) (f : list Z → M (list Z * next)) : M (list Z * next) :=
  match r with
  | (buf, Through) => f buf
  | _ => mret r
  end.

(** The [for (;;)]; every round but the last takes a byte. *)
Fixpoint push_loop (dead : Z → bool) (fuel : nat) (id : Z) (buf : list Z) : M () :=
  match fuel with
  | O => lift None
  | S fuel =>
    s ← get_slave id;
    r ← match s_status s with
        | STATUS_HANDSHAKE =>
          r ← case_handshake id buf;
          r ← fall_through r (case_header id);
          fall_through r (case_content dead id)
        | STATUS_HEADER =>
          r ← case_header id buf;
          fall_through r (case_content dead id)
        | STATUS_CONTENT => case_content dead id buf
        | _ => mret (buf, Return)
        end;
    match r with
    | (buf, Break) => push_loop dead fuel id buf
    | _ => mret tt
    end
  end.

(** The number of the slave with [fd], 0 when there is none. *)
Definition harbor_id (fd : Z) : M Z :=
  h ← state;
  mret (default 0 (list_find (λ i, from_option s_fd (-1) (aget (h_s h) i) = fd) (seqZ 1 (REMOTE_MAX - 1))
                    ≫= λ p, Some (snd p))).

Definition push_socket_data (dead : Z → bool) (fd : Z) (buffer : list Z) (ud : Z) : M () :=
  id ← harbor_id fd;
  if id =? 0 then emit LogError
  else
    buf ← lift (read_block buffer ud);
    push_loop dead (S (S (length buf))) id buf.

(** ** Names and messages *)

Definition update_name (name : list Z) (handle : Z) : M () :=
  map ← get_map;
  let (node, map) := match hash_search map name with
                     | Some node => (node, map)
                     | None => hash_insert map name
                     end in
  let node := KeyValue (kv_key node) (kv_hash node) handle (kv_queue node) in
  put_map (hash_store map name node) ;;
  match kv_queue node with
  | None => mret tt
  | Some _ =>
    node ← dispatch_name_queue node;
    release_queue (kv_queue node) ;;
    map ← get_map;
    put_map (hash_store map name (set_kv_queue None node))
  end.

(** [true] when the function keeps the message. *)
Definition remote_send_handle (src dst type session : Z) (msg : list Z) (sz : Z) : M bool :=
  h ← state;
  let harbor_id := Z.shiftr dst HANDLE_REMOTE_SHIFT in
  if harbor_id =? h_id h then
    emit (Send src dst (Z.lor type PTYPE_TAG_DONTCOPY) session msg) ;; mret true
  else
    s ← get_slave harbor_id;
    if (s_fd s =? 0) || bool_decide (s_status s = STATUS_HANDSHAKE) then
      if decide (s_status s = STATUS_DOWN) then
        emit (Send dst src PTYPE_ERROR session []) ;; emit LogError ;; mret false
      else
        let queue := default new_queue (s_queue s) in
        let header := Header src
          (Z.lor (wrap 32 (Z.shiftl type HANDLE_REMOTE_SHIFT)) (Z.land dst HANDLE_MASK))
          (wrap 32 session) in
        queue ← lift (push_queue queue msg sz header);
        put_slave harbor_id (set_queue (Some queue) s) ;;
        mret true
    else
      let cookie := Header src
        (Z.lor (Z.land dst HANDLE_MASK) (wrap 32 (Z.shiftl type HANDLE_REMOTE_SHIFT)))
        (wrap 32 session) in
      send_remote (s_fd s) msg sz cookie ;; mret false.

Definition remote_send_name (src : Z) (name : list Z) (type session : Z) (msg : list Z) (sz : Z) :
    M bool :=
  map ← get_map;
  let (node, map) := match hash_search map name with
                     | Some node => (node, map)
                     | None => hash_insert map name
                     end in
  put_map map ;;
  if kv_value node =? 0 then
    let queue := default new_queue (kv_queue node) in
    let header := Header src (wrap 32 (Z.shiftl type HANDLE_REMOTE_SHIFT)) (wrap 32 session) in
    queue ← lift (push_queue queue msg sz header);
    put_map (hash_store map name (set_kv_queue (Some queue) node)) ;;
    h ← state;
    emit (Send 0 (h_slave h) PTYPE_TEXT 0 ([81; 32] ++ c_str name)) ;;
    mret true
  else remote_send_handle src (kv_value node) type session msg sz.

Definition handshake (id : Z) : M () :=
  h ← state;
  s ← get_slave id;
  emit (SocketSend (s_fd s) [wrap 8 (h_id h)]).

(** ** Commands *)

(** [sscanf(s, "%d %d", &a, &b)] with both variables 0 before. *)
Definition scan2 (s : list Z) : Z * Z :=
  match scan_int s with
  | Some (a, s) => (a, match scan_int s with Some (b, _) => b | None => 0 end)
  | None => (0, 0)
  end.

Definition connect (accept : bool) (text : list Z) : M () :=
  let (fd, id) := scan2 text in
  if (fd =? 0) || (id <=? 0) || (REMOTE_MAX <=? id) then emit LogError
  else
    s ← get_slave id;
    if negb (s_fd s =? 0) then emit LogError
    else
      put_slave id (set_fd fd s) ;;
      emit (SocketStart fd) ;;
      handshake id ;;
      put_slave id (set_status (if accept then STATUS_HEADER else STATUS_HANDSHAKE) (set_fd fd s)) ;;
      if accept then dispatch_queue id else mret tt.

Definition harbor_command (msg : list Z) (source : Z) : M () :=
  let s := Z.of_nat (length msg) - 2 in
  let name := drop 2 msg in
  c ← lift (aget msg 0);
  if c =? 78 then                                   (* 'N' *)
    if (s <=? 0) || (GLOBALNAME_LENGTH <=? s) then emit LogError
    else update_name (name ++ replicate (Z.to_nat (GLOBALNAME_LENGTH - s)) 0) source
  else if (c =? 83) || (c =? 65) then               (* 'S', 'A' *)
    if s <? 0 then lift None else connect (c =? 65) name
  else emit LogError.

(** ** The network of the node (skynet_harbor.c) *)

(** The static variable [HARBOR], which is [~0] before the initialisation. *)
Definition skynet_harbor_init (harbor : Z) : Z := wrap 32 (Z.shiftl harbor HANDLE_REMOTE_SHIFT).

(** Whether a handle is one of another node. *)
Definition skynet_harbor_message_isremote (HARBOR handle : Z) : option bool :=
  assert! negb (HARBOR =? 2 ^ 32 - 1);
  let h := Z.land handle (wrap 32 (Z.lnot HANDLE_MASK)) in
  Some (negb (h =? HARBOR) && negb (h =? 0)).

(** ** The callback of the service *)

(** [struct remote_message] with its [struct remote_name]. *)
Record remote_message := RMsg {
  r_name : list Z; r_handle : Z; r_message : list Z; r_sz : Z; r_type : Z;
}.

Inductive harbor_input :=
  | InSocket (type id ud : Z) (buffer : list Z)
  | InHarbor (msg : list Z)
  | InSystem (rmsg : remote_message)
  | InOther (type : Z).

Definition mainloop (dead : Z → bool) (session source : Z) (msg : harbor_input) : M () :=
  match msg with
  | InSocket type fd ud buffer =>
    if type =? SKYNET_SOCKET_TYPE_DATA then
      push_socket_data dead fd buffer ud ;; emit (Free buffer)
    else if (type =? SKYNET_SOCKET_TYPE_ERROR) || (type =? SKYNET_SOCKET_TYPE_CLOSE) then
      id ← harbor_id fd;
      if id =? 0 then emit LogError else report_harbor_down id
    else if type =? SKYNET_SOCKET_TYPE_CONNECT then mret tt
    else if type =? SKYNET_SOCKET_TYPE_WARNING then
      id ← harbor_id fd;
      if id =? 0 then mret tt else emit LogError
    else emit LogError
  | InHarbor msg => harbor_command msg source
  | InSystem rmsg =>
    kept ← (if r_handle rmsg =? 0
            then remote_send_name source (r_name rmsg) (r_type rmsg) session (r_message rmsg) (r_sz rmsg)
            else remote_send_handle source (r_handle rmsg) (r_type rmsg) session (r_message rmsg) (r_sz rmsg));
    if kept : bool then mret tt else emit (Free (r_message rmsg))
  | InOther type =>
    emit LogError ;;
    if negb (session =? 0) && negb (type =? PTYPE_ERROR)
    then emit (Send 0 source PTYPE_ERROR session []) else mret tt
  end.

(** The result is the one of the code: 1 when the arguments name no slave. *)
Definition harbor_init (args : list Z) : M Z :=
  let (harbor_id, slave) := scan2 args in
  if wrap 32 slave =? 0 then mret 1
  else
    h ← state;
    put (Harbor harbor_id (wrap 32 slave) (h_map h) (h_s h)) ;;
    (if harbor_id =? 0 then close_all_remotes else mret tt) ;;
    mret 0.
