(* ===== verification/HarborExec.v ===== *)
(** How the actions of the harbor service (Harbor.v) run: one equation per
    operation of the monad, and the slots of the connections. *)
From S2P Require Import Prelude Bytes Buffer Ring Effect CString HarborQueue Harbor.
Local Open Scope Z_scope.

Section state.
Context {B : Type}.
Implicit Types (pre : list effect) (h : harbor).

(** The connections as an array that the number of a harbor indexes. *)
Definition upd (id : Z) (s : slave) h : harbor :=
  Harbor (h_id h) (h_slave h) (h_map h) (<[Z.to_nat id := s]> (h_s h)).

Lemma exec_get pre id s (f : slave → M B) h :
  aget (h_s h) id = Some s → exec pre (get_slave id ≫= f) h = exec pre (f s) h.
Proof.
  intros E. apply exec_bind_pure. unfold get_slave, mbind, eff_bind, state, lift. by rewrite E.
Qed.

Lemma exec_put_slave pre id s0 s (f : () → M B) h :
  aget (h_s h) id = Some s0 → exec pre (put_slave id s ≫= f) h = exec pre (f tt) (upd id s h).
Proof.
  intros E. rewrite (exec_bind _ _ _ _ tt (upd id s h) []); [by rewrite app_nil_r|].
  unfold put_slave. by rewrite aset_Some by (by eapply aget_Some_range).
Qed.
End state.

Lemma put_slave_eq id s0 s h :
  aget (h_s h) id = Some s0 → put_slave id s h = Some (tt, upd id s h, []).
Proof. intros E. unfold put_slave. by rewrite aset_Some by (by eapply aget_Some_range). Qed.

Lemma aget_upd id s0 s h : aget (h_s h) id = Some s0 → aget (h_s (upd id s h)) id = Some s.
Proof.
  intros E. pose proof (aget_Some_range _ _ _ E) as R. unfold aget, upd. cbn [h_s].
  rewrite (proj2 (Z.leb_le _ _)) by lia. apply list_lookup_insert_eq. lia.
Qed.

Lemma aget_upd_ne id j s h : id ≠ j → 0 ≤ id → aget (h_s (upd id s h)) j = aget (h_s h) j.
Proof.
  intros Hn H0. unfold aget, upd. cbn [h_s]. destruct (Z.leb_spec 0 j); [|done].
  apply list_lookup_insert_ne. lia.
Qed.

Lemma upd_upd id s s' h : upd id s (upd id s' h) = upd id s h.
Proof. unfold upd. cbn. by rewrite list_insert_insert_eq. Qed.

Lemma upd_same id s h : aget (h_s h) id = Some s → upd id s h = h.
Proof.
  intros E. pose proof (aget_Some_range _ _ _ E) as R. unfold aget in E.
  rewrite (proj2 (Z.leb_le _ _)) in E by lia. unfold upd. rewrite list_insert_id by done. by destruct h.
Qed.

(** ** Queues *)

Definition oqueue_rep (q : option harbor_msg_queue) (l : list harbor_msg) : Prop :=
  match q with Some q => queue_rep q l | None => l = [] end.

Lemma release_queue_spec q l h :
  oqueue_rep q l → release_queue q h = Some (tt, h, map (λ m, Free (buffer m)) l).
Proof.
  destruct q as [q|]; cbn [oqueue_rep]; [|by intros ->]. intros H.
  destruct (drain_all_spec q l H) as (q' & E & _).
  unfold release_queue, mbind, eff_bind, lift. by rewrite E.
Qed.

(** ** Packages *)

Definition word_ok (z : Z) : Prop := 0 ≤ z < 2 ^ 32.

Definition header_ok (c : remote_message_header) : Prop :=
  word_ok (source c) ∧ word_ok (destination c) ∧ word_ok (session c).

(** The bytes that [send_remote] writes. *)
Definition wire (m : harbor_msg) : list Z :=
  to_bigendian (Z.of_nat (length (buffer m)) + 12) ++ buffer m ++ header_to_message (header m).

Definition msg_ok (m : harbor_msg) : Prop :=
  size m = Z.of_nat (length (buffer m)) ∧ size m < 2 ^ 31.

Lemma read_block_all l : read_block l (Z.of_nat (length l)) = Some l.
Proof.
  unfold read_block. rewrite (proj2 (Z.leb_le _ _)), (proj2 (Z.leb_le _ _)) by lia.
  cbn [andb]. by rewrite Nat2Z.id, firstn_all.
Qed.

Lemma read_block_app l l' n : n = Z.of_nat (length l) → read_block (l ++ l') n = Some l.
Proof.
  intros ->. unfold read_block. rewrite length_app.
  rewrite (proj2 (Z.leb_le _ _)), (proj2 (Z.leb_le _ _)) by lia.
  cbn [andb]. by rewrite Nat2Z.id, take_app_length.
Qed.

Lemma send_remote_spec fd m h :
  msg_ok m → send_remote fd (buffer m) (size m) (header m) h = Some (tt, h, [SocketSend fd (wire m)]).
Proof.
  intros [Hs Hl]. unfold send_remote. rewrite wrap_small by lia.
  rewrite (proj2 (Z.ltb_ge _ _)) by lia. rewrite Hs, read_block_all. done.
Qed.

Lemma send_and_free_spec fd m h :
  msg_ok m → send_and_free fd m h = Some (tt, h, [SocketSend fd (wire m); Free (buffer m)]).
Proof.
  intros Hm. unfold send_and_free. rewrite (exec_nil (_ ≫= _)).
  by rewrite (exec_bind _ _ _ _ _ _ _ (send_remote_spec fd m h Hm)).
Qed.

(** The messages of a queue go to the socket in their order. *)
Definition sends (fd : Z) (ms : list harbor_msg) : list effect :=
  concat (map (λ m, [SocketSend fd (wire m); Free (buffer m)]) ms).

Lemma send_all_spec fd ms h :
  Forall msg_ok ms → for_each (send_and_free fd) ms h = Some (tt, h, sends fd ms).
Proof.
  intros Hm. apply for_each_pure. intros m Hin. apply send_and_free_spec.
  rewrite Forall_forall in Hm. by apply Hm.
Qed.

Lemma dispatch_queue_spec id s l h :
  aget (h_s h) id = Some s → s_fd s ≠ 0 → oqueue_rep (s_queue s) l → Forall msg_ok l →
  dispatch_queue id h = Some (tt, upd id (set_queue None s) h, sends (s_fd s) l).
Proof.
  intros Hs Hfd Hq Hm. unfold dispatch_queue. rewrite (exec_nil (_ ≫= _)).
  rewrite (exec_get _ _ _ _ _ Hs). rewrite (proj2 (Z.eqb_neq _ _) Hfd).
  change (c_assert (negb false)) with (Some tt). rewrite exec_lift.
  destruct (s_queue s) as [q|] eqn:Eq; cbn [oqueue_rep] in Hq.
  - destruct (drain_all_spec q l Hq) as (q' & Ed & Hq'). rewrite Ed, exec_lift.
    rewrite (exec_bind _ _ _ _ _ _ _ (send_all_spec (s_fd s) l h Hm)).
    rewrite (exec_bind _ _ _ _ _ _ _ (release_queue_spec (Some q') [] h Hq')).
    unfold exec. rewrite (put_slave_eq _ _ _ _ Hs). cbn [map app]. by rewrite !app_nil_r.
  - subst l. rewrite exec_mret. unfold sends. cbn [map concat].
    replace (set_queue None s) with s by (destruct s; cbn in *; by subst). by rewrite upd_same.
Qed.
