(* ===== verification/HarborStream.v ===== *)
(** Receiving messages from another node (push_socket_data of service_harbor.c):
    however the stream of packages is cut into chunks, every message goes to its
    service. *)
From S2P Require Import Prelude Bytes Buffer Ring Effect CString HarborQueue Harbor HarborExec.
Local Open Scope Z_scope.

(** ** The bytes of a package *)

Definition body (m : harbor_msg) : list Z := buffer m ++ header_to_message (header m).

(** What may go over the connection: the sender has no more than 2^24 - 13 bytes,
    which the receiver checks. *)
Definition deliver_ok (m : harbor_msg) : Prop :=
  header_ok (header m) ∧ Z.of_nat (length (buffer m)) + 12 < 2 ^ 24.

Lemma length_header c : length (header_to_message c) = 12%nat.
Proof. unfold header_to_message, to_bigendian. by rewrite !length_app, !length_be_bytes. Qed.

Lemma length_body m : Z.of_nat (length (body m)) = Z.of_nat (length (buffer m)) + 12.
Proof. unfold body. rewrite length_app, length_header. lia. Qed.

Lemma wire_body m : wire m = to_bigendian (Z.of_nat (length (body m))) ++ body m.
Proof. unfold wire. by rewrite length_body. Qed.

Lemma from_to_bigendian z rest : word_ok z → from_bigendian (take 4 (to_bigendian z ++ rest)) = z.
Proof.
  intros Hz. unfold from_bigendian, to_bigendian. rewrite <- (length_be_bytes 4 z) at 1.
  rewrite take_app_length, be_val_bytes. change (8 * Z.of_nat 4) with 32.
  unfold word_ok in Hz. by rewrite !(wrap_small 32) by (rewrite ?(wrap_small 32); done).
Qed.

Lemma to_bigendian_inj a b : word_ok a → word_ok b → to_bigendian a = to_bigendian b → a = b.
Proof.
  intros Ha Hb E. rewrite <- (from_to_bigendian a [] Ha), <- (from_to_bigendian b [] Hb). by rewrite E.
Qed.

Lemma message_to_header_spec c : header_ok c → message_to_header (header_to_message c) = c.
Proof.
  intros (H1 & H2 & H3). unfold message_to_header, header_to_message.
  rewrite from_to_bigendian by done.
  assert (∀ z l, drop 4 (to_bigendian z ++ l) = l) as Hd by done.
  rewrite Hd, from_to_bigendian by done.
  replace (drop 8 _) with (drop 4 (drop 4 (to_bigendian (source c) ++ to_bigendian (destination c) ++
    to_bigendian (session c)))) by (by rewrite drop_drop).
  rewrite !Hd, <- (app_nil_r (to_bigendian (session c))), from_to_bigendian by done. by destruct c.
Qed.

(** The length as the receiver reads it. *)
Lemma length_bytes n :
  0 ≤ n < 2 ^ 24 →
  ∃ b1 b2 b3, to_bigendian n = [0; b1; b2; b3] ∧
    Z.lor (Z.lor (Z.shiftl b1 16) (Z.shiftl b2 8)) b3 = n.
Proof.
  intros Hn. unfold to_bigendian, be_bytes. cbn [le_bytes rev app].
  assert (wrap 8 (Z.shiftr (Z.shiftr (Z.shiftr n 8) 8) 8) = 0) as ->.
  { rewrite !Z.shiftr_shiftr by lia. rewrite Z.shiftr_div_pow2 by lia.
    by rewrite Z.div_small by lia. }
  do 3 eexists. split; [done|].
  pose proof (le_val_bytes 3 n) as Hv. change (8 * Z.of_nat 3) with 24 in Hv.
  rewrite wrap_small in Hv by done. etransitivity; [|exact Hv]. cbn [le_bytes le_val].
  rewrite Z.shiftl_0_l, Z.lor_0_r, !Z.shiftl_lor, Z.shiftl_shiftl by lia. change (8 + 8) with 16.
  rewrite (Z.lor_comm (wrap 8 n)). f_equal. apply Z.lor_comm.
Qed.

(** ** Handing a message to its service *)

(** The effects of forward_local_messsage on the node [id]. *)
Definition forwards (dead : Z → bool) (id : Z) (m : harbor_msg) : list effect :=
  let type := Z.shiftr (destination (header m)) HANDLE_REMOTE_SHIFT in
  let dst := Z.lor (Z.land (destination (header m)) HANDLE_MASK) (wrap 32 (Z.shiftl id HANDLE_REMOTE_SHIFT)) in
  Send (source (header m)) dst (Z.lor type PTYPE_TAG_DONTCOPY) (swrap 32 (session (header m))) (buffer m)
  :: if dead dst
     then (if type =? PTYPE_ERROR then []
           else [Send dst (source (header m)) PTYPE_ERROR (swrap 32 (session (header m))) []]) ++ [LogError]
     else [].

Lemma forward_spec dead m h :
  header_ok (header m) →
  forward_local_messsage dead (body m) (Z.of_nat (length (body m))) h
  = Some (tt, h, forwards dead (h_id h) m).
Proof.
  intros Hm. pose proof (length_body m) as Hl. rewrite (exec_nil (forward_local_messsage _ _ _)).
  unfold forward_local_messsage. rewrite exec_state.
  rewrite (proj2 (Z.ltb_ge _ _)) by (unfold HEADER_COOKIE_LENGTH; lia). rewrite exec_lift.
  rewrite read_block_all, exec_lift.
  replace (Z.to_nat (Z.of_nat (length (body m)) - HEADER_COOKIE_LENGTH)) with (length (buffer m))
    by (unfold HEADER_COOKIE_LENGTH; lia).
  assert (drop (length (buffer m)) (body m) = header_to_message (header m)) as ->
    by apply drop_app_length.
  assert (take (length (buffer m)) (body m) = buffer m) as -> by apply take_app_length.
  rewrite message_to_header_spec by done.
  rewrite exec_emit. cbn [app]. unfold forwards.
  set (dst := Z.lor _ _). destruct (dead dst); [|by rewrite exec_mret].
  destruct (Z.shiftr (destination (header m)) HANDLE_REMOTE_SHIFT =? PTYPE_ERROR).
  - by rewrite exec_ret_bind.
  - by rewrite exec_emit.
Qed.

(** ** The parser of the stream *)

(** What a connection has received of the next package. *)
Inductive recv_state (s : slave) : list Z → Prop :=
  | at_header p : s_status s = STATUS_HEADER → s_read s = Z.of_nat (length p) → (length p < 4)%nat →
      length (s_size s) = 4%nat → take (length p) (s_size s) = p → recv_state s p
  | at_content len q r : s_status s = STATUS_CONTENT → s_length s = len →
      s_read s = Z.of_nat (length q) → Z.of_nat (length q) < len → 0 < len < 2 ^ 24 →
      s_recv_buffer s = Some r →
      Z.of_nat (length r) = len → take (length q) r = q → length (s_size s) = 4%nat →
      recv_state s (to_bigendian len ++ q).

Lemma recv_content s len q :
  recv_state s (to_bigendian len ++ q) → s_status s = STATUS_CONTENT → 0 ≤ len < 2 ^ 24 →
  ∃ r, s_length s = len ∧ s_read s = Z.of_nat (length q) ∧ Z.of_nat (length q) < len ∧
    s_recv_buffer s = Some r ∧ Z.of_nat (length r) = len ∧ take (length q) r = q ∧
    length (s_size s) = 4%nat.
Proof.
  intros Hr Hst Hlen. remember (to_bigendian len ++ q) as p eqn:Hp.
  destruct Hr as [|len' q' r _ Hl Hrd Hq Hrange Hrecv Hlr Htk Hsz]; [congruence|].
  apply app_inj_1 in Hp as [Hp ->]; [|unfold to_bigendian; by rewrite !length_be_bytes].
  apply to_bigendian_inj in Hp; [|unfold word_ok; lia..]. subst len'. by exists r.
Qed.

(** The other fields of the connection. *)
Definition same_link (s s' : slave) : Prop := s_fd s' = s_fd s ∧ s_queue s' = s_queue s.

Section connection.
Context (dead : Z → bool) (id : Z).

Implicit Types (h : harbor) (s : slave).

(** A full header. *)
Lemma header_full pre h s p buf len rest :
  aget (h_s h) id = Some s → s_status s = STATUS_HEADER → recv_state s p → (length p < 4)%nat →
  p ++ buf = to_bigendian len ++ rest → 0 < len < 2 ^ 24 →
  ∃ s', exec pre (case_header id buf) h
    = Some ((rest, if Z.of_nat (length rest) =? 0 then Return else Through), upd id s' h, pre) ∧
    recv_state s' (to_bigendian len) ∧ s_status s' = STATUS_CONTENT ∧ same_link s s'.
Proof.
  intros Hs Hst Hr Hp4 Hb Hlen. destruct Hr as [p _ Hrd _ Hsz Htk|]; [|congruence].
  assert (length (to_bigendian len) = 4%nat) as H4 by apply length_be_bytes.
  assert (buf = take (4 - length p) buf ++ rest ∧ p ++ take (4 - length p) buf = to_bigendian len
    ∧ length (take (4 - length p) buf) = (4 - length p)%nat) as (Hbuf & Hhd & Hlt).
  { apply (f_equal length) in Hb as Hlb. rewrite !length_app, H4 in Hlb.
    assert (length (take (4 - length p) buf) = (4 - length p)%nat) as Hlt by (rewrite length_take; lia).
    rewrite <- (take_drop (4 - length p) buf), app_assoc in Hb.
    apply app_inj_1 in Hb as [Hb1 Hb2]; [|rewrite length_app; lia].
    split; [|done]. by rewrite <- Hb2, take_drop. }
  set (d := take (4 - length p) buf) in *. clearbody d. subst buf.
  unfold case_header. rewrite (exec_get _ _ _ _ _ Hs). rewrite Hrd.
  rewrite (proj2 (Z.ltb_ge _ _)) by (rewrite length_app; lia).
  rewrite read_block_app by lia. rewrite exec_lift.
  destruct (write_append (s_size s) p d Htk) as (bytes & -> & Hlb & Htb); [lia|].
  rewrite exec_lift. rewrite Hhd, H4, firstn_all2 in Htb by lia. subst bytes.
  destruct (length_bytes len) as (b1 & b2 & b3 & Eb & Ev); [lia|]. rewrite Eb.
  change (aget [0; b1; b2; b3] 0) with (Some 0). change (aget [0; b1; b2; b3] 1) with (Some b1).
  change (aget [0; b1; b2; b3] 2) with (Some b2). change (aget [0; b1; b2; b3] 3) with (Some b3).
  rewrite !exec_lift, Z.eqb_refl. cbn [negb]. rewrite Ev.
  replace (drop (Z.to_nat (4 - Z.of_nat (length p))) (d ++ rest)) with rest.
  2:{ replace (Z.to_nat (4 - Z.of_nat (length p))) with (length d) by lia.
      by rewrite drop_app_length. }
  rewrite (exec_put_slave _ _ _ _ _ _ Hs), exec_mret. eexists. split; [done|].
  split; [|by split].
  rewrite <- Eb, <- (app_nil_r (to_bigendian len)). eapply at_content; cbn; try done; try lia.
  by rewrite length_replicate, Z2Nat.id by lia.
Qed.

(** Part of a header. *)
Lemma header_part pre h s p buf :
  aget (h_s h) id = Some s → s_status s = STATUS_HEADER → recv_state s p →
  (length (p ++ buf) < 4)%nat →
  ∃ s', exec pre (case_header id buf) h = Some ((buf, Return), upd id s' h, pre) ∧
    recv_state s' (p ++ buf) ∧ same_link s s'.
Proof.
  intros Hs Hst Hr Hl. destruct Hr as [p _ Hrd _ Hsz Htk|]; [|congruence].
  pose proof Hl as Hl'. rewrite length_app in Hl'.
  unfold case_header. rewrite (exec_get _ _ _ _ _ Hs). rewrite Hrd.
  rewrite (proj2 (Z.ltb_lt _ _)) by lia.
  destruct (write_append (s_size s) p buf Htk) as (bytes & -> & Hlb & Htb); [lia|].
  rewrite exec_lift, (exec_put_slave _ _ _ _ _ _ Hs), exec_mret. eexists. split; [done|].
  split; [|by split]. apply at_header; cbn; try done; try lia. rewrite length_app. lia.
Qed.

(** The rest of a message. *)
Lemma content_full pre h s m q buf rest :
  aget (h_s h) id = Some s → s_status s = STATUS_CONTENT →
  recv_state s (to_bigendian (Z.of_nat (length (body m))) ++ q) → deliver_ok m →
  q ++ buf = body m ++ rest →
  ∃ s', exec pre (case_content dead id buf) h
    = Some ((rest, if Z.of_nat (length rest) =? 0 then Return else Break), upd id s' h,
        pre ++ forwards dead (h_id h) m) ∧
    recv_state s' [] ∧ s_status s' = STATUS_HEADER ∧ same_link s s' ∧
    (length rest < length buf)%nat.
Proof.
  intros Hs Hst Hr [Hh Hl] Hb. pose proof (length_body m) as Hlb.
  destruct (recv_content _ _ _ Hr Hst) as (r & Hlen & Hrd & Hq & Hrecv & Hlr & Htk & Hsz); [lia|].
  set (n := (length (body m) - length q)%nat).
  assert (buf = take n buf ++ rest ∧ q ++ take n buf = body m ∧ length (take n buf) = n) as (Hbuf & Hqd & Hln).
  { apply (f_equal length) in Hb as Hlq. rewrite !length_app in Hlq.
    assert (length (take n buf) = n) as Hln by (rewrite length_take; lia).
    rewrite <- (take_drop n buf), app_assoc in Hb.
    apply app_inj_1 in Hb as [Hb1 Hb2]; [|rewrite length_app; lia].
    split; [|done]. by rewrite <- Hb2, take_drop. }
  set (d := take n buf) in *. clearbody d. subst buf.
  unfold case_content. rewrite (exec_get _ _ _ _ _ Hs). rewrite Hrecv, exec_lift, Hrd, Hlen.
  rewrite (proj2 (Z.ltb_ge _ _)) by (rewrite length_app; lia).
  rewrite read_block_app by lia. rewrite exec_lift.
  destruct (write_append r q d Htk) as (r' & -> & Hlr' & Htr); [lia|]. rewrite exec_lift.
  rewrite Hqd, firstn_all2 in Htr by lia. subst r'.
  rewrite (exec_bind _ _ _ _ _ _ _ (forward_spec dead m h Hh)).
  replace (drop (Z.to_nat (Z.of_nat (length (body m)) - Z.of_nat (length q))) (d ++ rest)) with rest.
  2:{ replace (Z.to_nat _) with (length d) by lia. by rewrite drop_app_length. }
  rewrite (exec_put_slave _ _ _ _ _ _ Hs), exec_mret. eexists. split; [done|].
  split; [apply at_header; cbn; done || lia|]. split; [done|]. split; [by split|].
  rewrite length_app. lia.
Qed.

(** Part of a message. *)
Lemma content_part pre h s len q buf :
  aget (h_s h) id = Some s → s_status s = STATUS_CONTENT → recv_state s (to_bigendian len ++ q) →
  0 < len < 2 ^ 24 → Z.of_nat (length (q ++ buf)) < len →
  ∃ s', exec pre (case_content dead id buf) h = Some ((buf, Return), upd id s' h, pre) ∧
    recv_state s' (to_bigendian len ++ q ++ buf) ∧ same_link s s'.
Proof.
  intros Hs Hst Hr Hlen Hl.
  destruct (recv_content _ _ _ Hr Hst) as (r & Hlen' & Hrd & Hq & Hrecv & Hlr & Htk & Hsz); [lia|].
  rewrite length_app in Hl.
  unfold case_content. rewrite (exec_get _ _ _ _ _ Hs). rewrite Hrecv, exec_lift, Hrd, Hlen'.
  rewrite (proj2 (Z.ltb_lt _ _)) by lia.
  destruct (write_append r q buf Htk) as (r' & -> & Hlr' & Htr); [lia|].
  rewrite exec_lift, (exec_put_slave _ _ _ _ _ _ Hs), exec_mret. eexists. split; [done|].
  split; [|by split]. eapply at_content; cbn; try done; rewrite ?length_app; lia.
Qed.

(** ** The loop *)

Definition stream (ms : list harbor_msg) : list Z := concat (map wire ms).

Definition forward_all h (ms : list harbor_msg) : list effect :=
  concat (map (forwards dead (h_id h)) ms).

(** What the loop does with [buf] when the connection has the bytes [p] of the
    messages [ms]: some messages are complete, and [p'] is left. *)
Definition delivers pre h s p buf ms (r : option (() * harbor * list effect)) : Prop :=
  ∃ ms1 ms2 s' p', ms = ms1 ++ ms2 ∧ r = Some (tt, upd id s' h, pre ++ forward_all h ms1) ∧
    recv_state s' p' ∧ same_link s s' ∧ p ++ buf = stream ms1 ++ p'.

Lemma same_link_trans s1 s2 s3 : same_link s1 s2 → same_link s2 s3 → same_link s1 s3.
Proof. unfold same_link. intros [] []. split; congruence. Qed.

(** The end of a round. *)
Definition finish_round (fuel : nat) (r : list Z * next) : M () :=
  match r with (buf, Break) => push_loop dead fuel id buf | _ => mret tt end.

Definition round_ok (fuel : nat) : Prop := ∀ pre h s p buf future ms,
  aget (h_s h) id = Some s → recv_state s p → Forall deliver_ok ms →
  p ++ buf ++ future = stream ms → (length buf < fuel)%nat →
  delivers pre h s p buf ms (exec pre (push_loop dead fuel id buf) h).

Lemma content_round fuel pre h s q buf future m ms :
  round_ok fuel → aget (h_s h) id = Some s → s_status s = STATUS_CONTENT →
  recv_state s (to_bigendian (Z.of_nat (length (body m))) ++ q) → Forall deliver_ok (m :: ms) →
  q ++ buf ++ future = body m ++ stream ms → (length buf < S fuel)%nat →
  delivers pre h s (to_bigendian (Z.of_nat (length (body m))) ++ q) buf (m :: ms)
    (exec pre (case_content dead id buf ≫= finish_round fuel) h).
Proof.
  intros IH Hs Hst Hr Hm Hb Hf. apply Forall_cons in Hm as [Hm Hms].
  pose proof (length_body m) as Hl. destruct Hm as [Hh Hlm] eqn:E. clear E.
  destruct (decide (Z.of_nat (length (q ++ buf)) < Z.of_nat (length (body m)))) as [Hlt|Hge].
  - destruct (content_part pre h s _ q buf Hs Hst Hr) as (s' & Ee & Hr' & Hl'); [lia|done|].
    exists [], (m :: ms), s', (to_bigendian (Z.of_nat (length (body m))) ++ q ++ buf).
    split; [done|]. split; [|by rewrite <- app_assoc].
    rewrite (exec_split _ _ _ _ _ _ _ Ee). cbn [finish_round]. rewrite exec_mret.
    unfold forward_all. cbn [map concat]. by rewrite app_nil_r.
  - assert (∃ rest, q ++ buf = body m ++ rest) as [rest Hq].
    { exists (drop (length (body m)) (q ++ buf)). rewrite app_assoc in Hb.
      apply (f_equal (take (length (body m)))) in Hb as Ht.
      rewrite take_app_length, take_app_le in Ht by lia. by rewrite <- Ht at 1; rewrite take_drop. }
    destruct (content_full pre h s m q buf rest Hs Hst Hr) as (s1 & Ee & Hr1 & Hst1 & Hl1 & Hlr);
      [by split|done|].
    rewrite (exec_split _ _ _ _ _ _ _ Ee).
    destruct (decide (rest = [])) as [->|Hn].
    + exists [m], ms, s1, []. split; [done|]. change (Z.of_nat (length (@nil Z)) =? 0) with true. cbn [finish_round].
      rewrite exec_mret. split; [unfold forward_all; cbn [map concat]; by rewrite app_nil_r|].
      split; [done|]. split; [done|]. unfold stream. cbn [map concat].
      by rewrite wire_body, !app_nil_r, <- app_assoc, Hq, app_nil_r.
    + rewrite (proj2 (Z.eqb_neq _ _)) by (destruct rest; [done|cbn; lia]). cbn [finish_round].
      destruct (IH (pre ++ forwards dead (h_id h) m) (upd id s1 h) s1 [] rest future ms)
        as (ms1 & ms2 & s' & p' & -> & Er & Hr' & Hl' & Hp').
      * by eapply aget_upd.
      * done.
      * done.
      * cbn [app]. rewrite app_assoc, Hq, <- app_assoc in Hb. by apply app_inv_head in Hb.
      * lia.
      * exists (m :: ms1), ms2, s', p'. split; [done|]. rewrite Er, upd_upd.
        split; [unfold forward_all; cbn [map concat]; by rewrite <- app_assoc|].
        split; [done|]. split; [by eapply same_link_trans|].
        unfold stream in *. cbn [map concat app] in *. rewrite wire_body, <- !app_assoc, Hq, Hp'.
        done.
Qed.

Lemma wire_prefix p m ms rest :
  p ++ rest = stream (m :: ms) → (4 ≤ length p)%nat →
  ∃ q, p = to_bigendian (Z.of_nat (length (body m))) ++ q ∧ q ++ rest = body m ++ stream ms.
Proof.
  intros Hp Hl. unfold stream in Hp. cbn [map concat] in Hp. rewrite wire_body, <- app_assoc in Hp.
  set (hd := to_bigendian _) in *. assert (length hd = 4%nat) as H4 by apply length_be_bytes.
  exists (drop 4 p). rewrite <- (take_drop 4 p), <- app_assoc in Hp.
  apply app_inj_1 in Hp as [Hp1 Hp2]; [|rewrite length_take; lia].
  split; [|done]. by rewrite <- Hp1, take_drop.
Qed.

Lemma stream_nil rest : rest = stream [] → rest = [].
Proof. done. Qed.

Lemma header_round fuel pre h s p buf future ms :
  round_ok fuel → aget (h_s h) id = Some s → s_status s = STATUS_HEADER → recv_state s p →
  Forall deliver_ok ms → p ++ buf ++ future = stream ms → (length buf < S fuel)%nat →
  delivers pre h s p buf ms
    (exec pre (case_header id buf ≫= λ r, fall_through r (case_content dead id) ≫= finish_round fuel) h).
Proof.
  intros IH Hs Hst Hr Hm Hb Hf.
  destruct (decide (length (p ++ buf) < 4)%nat) as [Hlt|Hge].
  - destruct (header_part pre h s p buf Hs Hst Hr Hlt) as (s' & Ee & Hr' & Hl').
    exists [], ms, s', (p ++ buf). split; [done|]. split; [|done].
    rewrite (exec_split _ _ _ _ _ _ _ Ee). cbn [fall_through].
    rewrite exec_ret_bind. cbn [finish_round]. rewrite exec_mret.
    unfold forward_all. cbn [map concat]. by rewrite app_nil_r.
  - destruct ms as [|m ms].
    { rewrite app_assoc in Hb. apply (f_equal length) in Hb. rewrite length_app in Hb. cbn in Hb. lia. }
    apply Forall_cons in Hm as Hm'. destruct Hm' as [[Hh Hlm] Hms]. pose proof (length_body m) as Hlb.
    rewrite app_assoc in Hb. destruct (wire_prefix _ _ _ _ Hb) as (q & Hq & Hqb); [lia|].
    assert (length p < 4)%nat as Hp4 by (destruct Hr; [done|congruence]).
    destruct (header_full pre h s p buf (Z.of_nat (length (body m))) q Hs Hst Hr Hp4 Hq)
      as (s1 & Ee & Hr1 & Hst1 & Hl1); [lia|].
    rewrite (exec_split _ _ _ _ _ _ _ Ee).
    destruct (decide (q = [])) as [->|Hn].
    + change (Z.of_nat (length (@nil Z)) =? 0) with true. cbn [fall_through].
      rewrite exec_ret_bind. cbn [finish_round]. rewrite exec_mret.
      exists [], (m :: ms), s1, (p ++ buf). split; [done|].
      split; [unfold forward_all; cbn [map concat]; by rewrite app_nil_r|].
      rewrite Hq, app_nil_r. done.
    + rewrite (proj2 (Z.eqb_neq _ _)) by (destruct q; [done|cbn; lia]). cbn [fall_through].
      assert (length q ≤ length buf)%nat as Hql.
      { apply (f_equal length) in Hq. rewrite !length_app in Hq.
        unfold to_bigendian in Hq. rewrite length_be_bytes in Hq. lia. }
      destruct (content_round fuel pre (upd id s1 h) s1 [] q future m ms IH)
        as (ms1 & ms2 & s' & p' & E & Er & Hr' & Hl' & Hp').
      * by eapply aget_upd.
      * done.
      * by rewrite app_nil_r.
      * done.
      * done.
      * lia.
      * exists ms1, ms2, s', p'. split; [done|]. rewrite Er, upd_upd. split; [done|].
        split; [done|]. split; [by eapply same_link_trans|].
        rewrite app_nil_r in Hp'. by rewrite Hq.
Qed.

(** Any chunk of the stream. *)
Lemma push_loop_ok fuel : round_ok fuel.
Proof.
  induction fuel as [|fuel IH]; intros pre h s p buf future ms Hs Hr Hm Hb Hf; [lia|].
  cbn [push_loop]. rewrite (exec_get _ _ _ _ _ Hs).
  change (λ r, match r with (buf, Break) => push_loop dead fuel id buf | _ => mret () end)
    with (finish_round fuel).
  destruct (s_status s) eqn:Hst; try (destruct Hr; congruence).
  - rewrite exec_assoc. by eapply header_round.
  - assert (∃ len q, p = to_bigendian len ++ q ∧ 0 < len < 2 ^ 24) as (len & q & -> & Hlen).
    { destruct Hr; [congruence|]. by do 2 eexists. }
    destruct ms as [|m ms]; [by destruct q|].
    apply Forall_cons in Hm as Hm'. destruct Hm' as [[Hh Hlm] _]. pose proof (length_body m) as Hlb.
    pose proof Hb as Hb'. unfold stream in Hb'. cbn [map concat] in Hb'.
    rewrite wire_body, <- !app_assoc in Hb'.
    apply app_inj_1 in Hb' as [Hb1 Hb2]; [|unfold to_bigendian; by rewrite !length_be_bytes].
    apply to_bigendian_inj in Hb1; [|unfold word_ok; lia..]. subst len.
    by eapply content_round.
Qed.
End connection.
