(* ===== verification/HarborLink.v ===== *)
(** A connection between two nodes through their harbor services
    (service_harbor.c): messages that are sent before, during and after the
    handshake arrive, each once and in order. *)
From S2P Require Import Prelude Bytes Buffer Ring Effect CString HarborQueue Harbor HarborExec HarborStream.
Local Open Scope Z_scope.
Local Arguments wire : simpl never.

(** ** Messages to the other node *)

(** A message to the service [o_dst], whose high byte is the other node. *)
Record out_msg := OutMsg { o_src : Z; o_dst : Z; o_type : Z; o_session : Z; o_msg : list Z }.

Definition out_ok (b : Z) (m : out_msg) : Prop :=
  word_ok (o_src m) ∧ word_ok (o_dst m) ∧ Z.shiftr (o_dst m) HANDLE_REMOTE_SHIFT = b ∧
  0 ≤ o_type m < 256 ∧ INT_MIN ≤ o_session m ≤ INT_MAX ∧ Z.of_nat (length (o_msg m)) + 12 < 2 ^ 24.

(** The message as it waits in a queue and goes over the connection. *)
Definition packed (m : out_msg) : harbor_msg :=
  HMsg (Header (o_src m)
         (Z.lor (wrap 32 (Z.shiftl (o_type m) HANDLE_REMOTE_SHIFT)) (Z.land (o_dst m) HANDLE_MASK))
         (wrap 32 (o_session m)))
    (o_msg m) (Z.of_nat (length (o_msg m))).

(** The callback of the service for it. *)
Definition send_out (dead : Z → bool) (m : out_msg) : M () :=
  mainloop dead (o_session m) (o_src m)
    (InSystem (RMsg [] (o_dst m) (o_msg m) (Z.of_nat (length (o_msg m))) (o_type m))).

Definition receive (dead : Z → bool) (fd : Z) (chunk : list Z) : M () :=
  mainloop dead 0 0 (InSocket SKYNET_SOCKET_TYPE_DATA fd (Z.of_nat (length chunk)) chunk).

Lemma packed_deliver b m : out_ok b m → deliver_ok (packed m).
Proof.
  intros (Hs & Hd & _ & Ht & _ & Hl). split; [|done]. split; [done|]. split; [|apply (wrap_range 32); lia].
  cbn. unfold HANDLE_REMOTE_SHIFT, HANDLE_MASK, word_ok in *.
  change 16777215 with (2 ^ 24 - 1). rewrite land_mask by lia.
  rewrite Z.shiftl_mul_pow2 by lia. rewrite Z.lor_comm.
  rewrite (wrap_small 32) by lia. pose proof (Z.mod_pos_bound (o_dst m) (2 ^ 24)).
  rewrite lor_add by lia. lia.
Qed.

Lemma packed_ok b m : out_ok b m → msg_ok (packed m).
Proof. intros (_ & _ & _ & _ & _ & Hl). split; [done|]. cbn. lia. Qed.

(** Such a message is one for the harbor service. *)
Lemma out_is_remote id b m :
  1 ≤ b < 256 → 1 ≤ id < 256 → id ≠ b → out_ok b m →
  skynet_harbor_message_isremote (skynet_harbor_init id) (o_dst m) = Some true.
Proof.
  intros Hb Hid Hn (_ & Hd & Hdb & _). unfold word_ok, HANDLE_REMOTE_SHIFT in *.
  unfold skynet_harbor_message_isremote, skynet_harbor_init, HANDLE_REMOTE_SHIFT, HANDLE_MASK.
  rewrite Z.shiftl_mul_pow2 by lia. rewrite (wrap_small 32 (id * 2 ^ 24)) by lia. rewrite c_assert_true by lia.
  assert (Z.land (o_dst m) (wrap 32 (Z.lnot 16777215)) = b * 2 ^ 24) as ->; [|do 2 f_equal; lia].
  change (wrap 32 (Z.lnot 16777215)) with (Z.shiftl 255 24).
  rewrite <- Hdb, <- Z.shiftl_mul_pow2 by lia. apply Z.bits_inj'. intros i Hi.
  rewrite Z.land_spec, !Z.shiftl_spec by lia.
  destruct (Z.lt_ge_cases i 24).
  - by rewrite !(Z.testbit_neg_r _ (i - 24)), andb_false_r by lia.
  - rewrite Z.shiftr_spec by lia. replace (i - 24 + 24) with i by lia.
    change 255 with (Z.ones 8). destruct (Z.lt_ge_cases i 32).
    + by rewrite Z.ones_spec_low, andb_true_r by lia.
    + rewrite Z.ones_spec_high, andb_false_r by lia. symmetry.
      rewrite <- (Z.mod_small (o_dst m) (2 ^ 32)) by lia. by apply Z.mod_pow2_bits_high.
Qed.

Section node.
Context (dead : Z → bool) (b : Z) (Hb : 1 ≤ b < 256).

Lemma out_dst_pos m : out_ok b m → (o_dst m =? 0) = false.
Proof. intros (_ & _ & Hd & _). apply Z.eqb_neq. intros E. rewrite E in Hd. rewrite Z.shiftr_0_l in Hd. lia. Qed.

(** The message waits. *)
Lemma send_queued pre m h s l :
  aget (h_s h) b = Some s → h_id h ≠ b → out_ok b m → Z.of_nat (length l) < QUEUE_MAX - 1 →
  (s_fd s = 0 ∧ s_status s = STATUS_WAIT) ∨ s_status s = STATUS_HANDSHAKE →
  oqueue_rep (s_queue s) l →
  ∃ q, exec pre (send_out dead m) h = Some (tt, upd b (set_queue (Some q) s) h, pre) ∧
    queue_rep q (l ++ [packed m]).
Proof.
  intros Hs Hid Hm Hl Hst Hq. unfold send_out. cbn [mainloop r_handle r_message r_type r_sz r_name].
  rewrite (out_dst_pos m Hm). unfold remote_send_handle. rewrite exec_assoc, exec_state.
  destruct Hm as (Hsrc & Hdst & Hdb & Htype & Hse & Hlen). rewrite Hdb.
  rewrite (proj2 (Z.eqb_neq _ _)) by congruence. rewrite exec_assoc, (exec_get _ _ _ _ _ Hs).
  assert ((s_fd s =? 0) || bool_decide (s_status s = STATUS_HANDSHAKE) = true) as ->.
  { destruct Hst as [[-> _]| ->]; [done|]. by rewrite orb_true_r. }
  rewrite decide_False by (destruct Hst as [[_ ->]| ->]; done).
  assert (queue_rep (default new_queue (s_queue s)) l) as Hq'.
  { destruct (s_queue s); cbn [oqueue_rep] in Hq; [done|]. subst l. apply new_queue_rep. }
  destruct (push_spec _ l (packed m) Hq' Hl) as (q & Eq & Hrep).
  unfold push_queue. unfold packed in Eq. rewrite exec_assoc, Eq, exec_lift.
  rewrite exec_assoc, (exec_put_slave _ _ _ _ _ _ Hs), exec_ret_bind, exec_mret. by exists q.
Qed.

(** The message goes to the socket. *)
Lemma send_direct pre m h s :
  aget (h_s h) b = Some s → h_id h ≠ b → out_ok b m →
  s_fd s ≠ 0 → s_status s = STATUS_HEADER ∨ s_status s = STATUS_CONTENT →
  exec pre (send_out dead m) h
  = Some (tt, h, pre ++ [SocketSend (s_fd s) (wire (packed m)); Free (o_msg m)]).
Proof.
  intros Hs Hid Hm Hfd Hst. pose proof (packed_ok b m Hm) as Hp.
  unfold send_out. cbn [mainloop r_handle r_message r_type r_sz r_name].
  rewrite (out_dst_pos m Hm). unfold remote_send_handle. rewrite exec_assoc, exec_state.
  destruct Hm as (Hsrc & Hdst & Hdb & Htype & Hse & Hlen). rewrite Hdb.
  rewrite (proj2 (Z.eqb_neq _ _)) by congruence. rewrite exec_assoc, (exec_get _ _ _ _ _ Hs).
  rewrite (proj2 (Z.eqb_neq _ _) Hfd), bool_decide_false by (by destruct Hst as [-> | ->]).
  cbn [orb]. rewrite exec_assoc. rewrite Z.lor_comm.
  rewrite (exec_bind _ _ _ _ _ _ _ (send_remote_spec (s_fd s) (packed m) h Hp)).
  rewrite exec_ret_bind. unfold exec, emit, emits. by rewrite <- app_assoc.
Qed.

(** ** The handshake *)

Definition connect_text (fd : Z) (text : list Z) : Prop := scan2 text = (fd, b) ∧ fd ≠ 0.

(** A connection that has not received anything. *)
Definition fresh (s : slave) : Prop := s_read s = 0 ∧ length (s_size s) = 4%nat.

Lemma connect_spec pre accept fd text h s l :
  aget (h_s h) b = Some s → connect_text fd text → s_fd s = 0 → oqueue_rep (s_queue s) l →
  Forall msg_ok l →
  exec pre (connect accept text) h
  = Some (tt, upd b (set_queue (if accept then None else s_queue s)
                      (set_status (if accept then STATUS_HEADER else STATUS_HANDSHAKE) (set_fd fd s))) h,
      pre ++ SocketStart fd :: SocketSend fd [wrap 8 (h_id h)] :: (if accept then sends fd l else [])).
Proof.
  intros Hs [Ht Hfd] H0 Hq Hm. unfold connect. rewrite Ht.
  rewrite (proj2 (Z.eqb_neq _ _) Hfd), (proj2 (Z.leb_gt _ _)), (proj2 (Z.leb_gt _ _))
    by (unfold REMOTE_MAX; lia).
  cbn [orb]. rewrite (exec_get _ _ _ _ _ Hs), H0, Z.eqb_refl. cbn [negb].
  rewrite (exec_put_slave _ _ _ _ _ _ Hs), exec_emit.
  pose proof (aget_upd _ _ (set_fd fd s) _ Hs) as Hs1.
  assert (handshake b (upd b (set_fd fd s) h)
    = Some (tt, upd b (set_fd fd s) h, [SocketSend fd [wrap 8 (h_id h)]])) as Eh.
  { rewrite (exec_nil (handshake _)). unfold handshake. by rewrite exec_state, (exec_get _ _ _ _ _ Hs1). }
  rewrite (exec_bind _ _ _ _ _ _ _ Eh), (exec_put_slave _ _ _ _ _ _ Hs1), upd_upd. rewrite <- app_assoc. cbn [app].
  destruct accept.
  - pose proof (aget_upd _ _ (set_status STATUS_HEADER (set_fd fd s)) _ Hs) as Hs2.
    unfold exec. rewrite (dispatch_queue_spec _ _ l _ Hs2); cbn; [|done..].
    rewrite upd_upd. by rewrite <- app_assoc.
  - rewrite exec_mret. by destruct s.
Qed.

(** ** Data *)

(** [fd] is the socket of the connection to [b] only. *)
Definition socket_of (fd : Z) (l : list slave) : Prop :=
  ∀ j s, 1 ≤ j < 256 → aget l j = Some s → s_fd s = fd ↔ j = b.

Lemma harbor_id_spec fd h :
  length (h_s h) = 256%nat → socket_of fd (h_s h) → harbor_id fd h = Some (b, h, []).
Proof.
  intros Hlen Hfd. unfold harbor_id, mbind, eff_bind, state.
  destruct (list_find _ _) as [[i j]|] eqn:E.
  - apply list_find_Some in E as (Hj & Hfdj & _). apply lookup_seqZ in Hj as [-> Hi].
    unfold REMOTE_MAX in Hi. destruct (aget_is_Some (h_s h) (1 + Z.of_nat i)) as [s Hs]; [lia|].
    rewrite Hs in Hfdj. cbn in Hfdj.
    pose proof (proj1 (Hfd (1 + Z.of_nat i) s ltac:(lia) Hs) Hfdj) as Ej.
    rewrite <- Ej at 1. done.
  - apply list_find_None in E. rewrite Forall_forall in E. exfalso.
    destruct (aget_is_Some (h_s h) b) as [s Hs]; [lia|].
    apply (E b); [apply elem_of_seqZ; unfold REMOTE_MAX; lia|].
    rewrite Hs. cbn. by apply (Hfd b s).
Qed.

Lemma receive_exec pre fd chunk h :
  length (h_s h) = 256%nat → socket_of fd (h_s h) →
  exec pre (receive dead fd chunk) h
  = exec pre (push_loop dead (S (S (length chunk))) b chunk ≫= λ _, emit (Free chunk)) h.
Proof.
  intros Hlen Hfd. unfold receive, mainloop. rewrite Z.eqb_refl. unfold push_socket_data.
  rewrite exec_assoc, (exec_bind_pure _ _ _ _ _ (harbor_id_spec fd h Hlen Hfd)).
  rewrite (proj2 (Z.eqb_neq _ _)) by lia. rewrite exec_assoc, read_block_all, exec_lift. done.
Qed.

(** A chunk after the handshake. *)
Lemma receive_up pre fd chunk h s p future ms :
  length (h_s h) = 256%nat → socket_of fd (h_s h) → aget (h_s h) b = Some s →
  recv_state s p → Forall deliver_ok ms → p ++ chunk ++ future = stream ms →
  ∃ ms1 ms2 s' p', ms = ms1 ++ ms2 ∧
    exec pre (receive dead fd chunk) h
    = Some (tt, upd b s' h, pre ++ forward_all dead h ms1 ++ [Free chunk]) ∧
    recv_state s' p' ∧ same_link s s' ∧ p ++ chunk = stream ms1 ++ p'.
Proof.
  intros Hlen Hfd Hs Hr Hm Hp. rewrite receive_exec by done.
  destruct (push_loop_ok dead b (S (S (length chunk))) pre h s p chunk future ms Hs Hr Hm Hp)
    as (ms1 & ms2 & s' & p' & -> & E & Hr' & Hl & Hp'); [lia|].
  exists ms1, ms2, s', p'. split; [done|]. rewrite (exec_split _ _ _ _ _ _ _ E).
  unfold exec, emit, emits. by rewrite <- app_assoc.
Qed.

(** The first chunk of the node that connected: the number of the other node, and
    then the messages that wait are sent. *)
Lemma receive_handshake pre fd chunk h s l future ms :
  length (h_s h) = 256%nat → socket_of fd (h_s h) → aget (h_s h) b = Some s →
  s_status s = STATUS_HANDSHAKE → s_fd s = fd → fd ≠ 0 → fresh s → oqueue_rep (s_queue s) l →
  Forall msg_ok l → Forall deliver_ok ms → chunk ≠ [] → chunk ++ future = b :: stream ms →
  ∃ ms1 ms2 s' p', ms = ms1 ++ ms2 ∧
    exec pre (receive dead fd chunk) h
    = Some (tt, upd b s' h, pre ++ sends fd l ++ forward_all dead h ms1 ++ [Free chunk]) ∧
    recv_state s' p' ∧ s_fd s' = fd ∧ s_queue s' = None ∧ chunk = b :: stream ms1 ++ p'.
Proof.
  intros Hlen Hfd Hs Hst Hsfd Hfd0 [Hrd Hsz] Hq Hl Hm Hc Hp. rewrite receive_exec by done.
  destruct chunk as [|c rest]; [done|]. cbn [app] in Hp. injection Hp as -> Hp.
  set (s1 := set_status STATUS_HEADER s).
  pose proof (aget_upd _ _ s1 _ Hs) as Hs1.
  set (s2 := set_queue None s1). pose proof (aget_upd _ _ s2 _ Hs) as Hs2.
  assert (exec pre (case_handshake b (b :: rest)) h
    = Some ((rest, if Z.of_nat (length rest) =? 0 then Break else Through), upd b s2 h, pre ++ sends fd l))
    as Eh.
  { unfold case_handshake. change (aget (b :: rest) 0) with (Some b). rewrite exec_lift, Z.eqb_refl.
    cbn [negb]. rewrite (exec_get _ _ _ _ _ Hs), (exec_put_slave _ _ _ _ _ _ Hs).
    rewrite (exec_bind _ _ _ _ _ _ _ (dispatch_queue_spec b s1 l _ Hs1 ltac:(cbn; congruence) Hq Hl)).
    rewrite upd_upd, exec_mret. cbn [s1 set_status s_fd]. by rewrite Hsfd. }
  assert (recv_state s2 []) as Hr2 by (apply at_header; cbn; (done || lia)).
  assert (delivers dead b (pre ++ sends fd l) (upd b s2 h) s2 [] rest ms
    (exec pre (push_loop dead (S (S (length (b :: rest)))) b (b :: rest)) h)) as Hd.
  { remember (S (length (b :: rest))) as fuel eqn:Ef. cbn [push_loop].
    rewrite (exec_get _ _ _ _ _ Hs), Hst, exec_assoc, (exec_split _ _ _ _ _ _ _ Eh).
    destruct (decide (rest = [])) as [->|Hn].
    - change (Z.of_nat (length (@nil Z)) =? 0) with true. cbn [fall_through].
      rewrite exec_assoc, exec_ret_bind. cbn [fall_through]. rewrite exec_ret_bind.
      apply (push_loop_ok dead b fuel _ _ _ _ _ future); [done..|subst fuel; cbn; lia].
    - rewrite (proj2 (Z.eqb_neq _ _)) by (destruct rest; [done|cbn; lia]). cbn [fall_through].
      rewrite exec_assoc.
      apply (header_round dead b fuel _ _ _ [] rest future); try done; [apply push_loop_ok|subst fuel; cbn; lia]. }
  destruct Hd as (ms1 & ms2 & s' & p' & -> & E & Hr' & [Hl1 Hl2] & Hp').
  exists ms1, ms2, s', p'. split; [done|]. rewrite (exec_split _ _ _ _ _ _ _ E), upd_upd.
  split; [unfold exec, emit, emits; by rewrite <- !app_assoc|].
  split; [done|]. split; [by rewrite Hl1|]. split; [by rewrite Hl2|]. by rewrite <- Hp'.
Qed.

(** ** A node *)

Inductive link_op := LSend (m : out_msg) | LData (chunk : list Z).

Definition link_step (fd : Z) (op : link_op) : M () :=
  match op with
  | LSend m => send_out dead m
  | LData chunk => receive dead fd chunk
  end.

Definition link_sent (ops : list link_op) : list out_msg :=
  omap (λ op, match op with LSend m => Some m | LData _ => None end) ops.

Definition link_inbound (ops : list link_op) : list Z :=
  concat (omap (λ op, match op with LSend _ => None | LData chunk => Some chunk end) ops).

Definition link_op_ok (op : link_op) : Prop :=
  match op with LSend m => out_ok b m | LData chunk => chunk ≠ [] end.

(** The command of the master/slave service, [S] or [A]. *)
Definition connect_command (accept : bool) (text : list Z) : M () :=
  mainloop dead 0 0 (InHarbor ((if accept then 65 else 83) :: 32 :: text)).

(** The messages [before] come before the connection. *)
Definition node_run (accept : bool) (fd : Z) (text : list Z) (before : list out_msg)
    (ops : list link_op) : M () :=
  for_each (send_out dead) before ;;
  connect_command accept text ;;
  for_each (link_step fd) ops.

(** What the effects do to the connection and to the services of the node. *)
Definition socket_bytes (fd : Z) (es : list effect) : list Z :=
  concat (omap (λ e, match e with
                     | SocketSend fd' bytes => if fd' =? fd then Some bytes else None
                     | _ => None
                     end) es).

Definition handed (es : list effect) : list effect :=
  List.filter (λ e, match e with Send _ _ _ _ _ | LogError => true | _ => false end) es.

Lemma socket_bytes_app fd es es' : socket_bytes fd (es ++ es') = socket_bytes fd es ++ socket_bytes fd es'.
Proof. unfold socket_bytes. by rewrite omap_app, concat_app. Qed.

Lemma handed_app es es' : handed (es ++ es') = handed es ++ handed es'.
Proof. apply List.filter_app. Qed.

Lemma link_stream_app ms ms' : stream (ms ++ ms') = stream ms ++ stream ms'.
Proof. unfold stream. by rewrite map_app, concat_app. Qed.

Lemma socket_bytes_sends fd ms : socket_bytes fd (sends fd ms) = stream ms.
Proof.
  unfold sends, stream. induction ms as [|m ms IH]; [done|]. cbn [map concat].
  rewrite socket_bytes_app, IH. f_equal. unfold socket_bytes. cbn.
  rewrite Z.eqb_refl. cbn. apply app_nil_r.
Qed.

Lemma handed_sends fd ms : handed (sends fd ms) = [].
Proof.
  unfold sends. induction ms as [|m ms IH]; [done|]. cbn [map concat]. by rewrite handed_app, IH.
Qed.

Lemma forwards_effects fd id m :
  socket_bytes fd (forwards dead id m) = [] ∧ handed (forwards dead id m) = forwards dead id m.
Proof. unfold forwards. repeat case_match; done. Qed.

Lemma forward_all_effects fd h ms :
  socket_bytes fd (forward_all dead h ms) = [] ∧
  handed (forward_all dead h ms) = forward_all dead h ms.
Proof.
  unfold forward_all. induction ms as [|m ms [IH1 IH2]]; [done|]. cbn [map concat].
  rewrite socket_bytes_app, handed_app, IH1, IH2.
  by destruct (forwards_effects fd (h_id h) m) as [-> ->].
Qed.

(** The state of the connection after the messages [sent] of this node and the bytes
    [inp] from the other, of which the messages [got] are complete; [out] is what
    this node wrote. *)
Inductive link_inv (accept : bool) (fd : Z) (h : harbor) (sent : list out_msg) (inp out : list Z)
    (got : list harbor_msg) : slave → Prop :=
  | link_shaking s : accept = false → s_status s = STATUS_HANDSHAKE → s_fd s = fd → fresh s →
      oqueue_rep (s_queue s) (map packed sent) → inp = [] → out = [wrap 8 (h_id h)] → got = [] →
      link_inv accept fd h sent inp out got s
  | link_up s p : recv_state s p → s_fd s = fd → s_queue s = None →
      inp = (if accept then [] else [b]) ++ stream got ++ p →
      out = wrap 8 (h_id h) :: stream (map packed sent) →
      link_inv accept fd h sent inp out got s.

(** No other connection has the socket. *)
Definition others (fd : Z) (h : harbor) : Prop :=
  ∀ j s, 1 ≤ j < 256 → j ≠ b → aget (h_s h) j = Some s → s_fd s ≠ fd.

Lemma others_upd fd h s : others fd h → others fd (upd b s h).
Proof.
  intros H j s' Hj Hn Hs. rewrite aget_upd_ne in Hs by (congruence || lia). by eapply H.
Qed.

Lemma others_socket fd h s :
  others fd h → aget (h_s h) b = Some s → s_fd s = fd → socket_of fd (h_s h).
Proof.
  intros H Hs Hfd j s' Hj Hs'. destruct (decide (j = b)) as [->|Hn].
  - rewrite Hs in Hs'. by injection Hs' as <-.
  - split; [|done]. intros E. by exfalso; eapply H.
Qed.

Lemma link_inv_fd accept fd h sent inp out got s :
  link_inv accept fd h sent inp out got s → s_fd s = fd.
Proof. by destruct 1. Qed.

Lemma recv_status s p : recv_state s p → s_status s = STATUS_HEADER ∨ s_status s = STATUS_CONTENT.
Proof. destruct 1; auto. Qed.

Lemma packed_all (l : list out_msg) :
  Forall (out_ok b) l → Forall msg_ok (map packed l).
Proof. intros H. apply Forall_map. eapply Forall_impl; [exact H|]. intros m. apply packed_ok. Qed.

Lemma link_step_ok (accept : bool) fd op pre h s sent inp out got msR future :
  length (h_s h) = 256%nat → others fd h → aget (h_s h) b = Some s → h_id h ≠ b → fd ≠ 0 →
  link_op_ok op → Forall (out_ok b) sent → Forall deliver_ok msR →
  Z.of_nat (length sent) < QUEUE_MAX - 1 →
  inp ++ link_inbound [op] ++ future = (if accept then [] else [b]) ++ stream (got ++ msR) →
  link_inv accept fd h sent inp out got s →
  ∃ s' es got' rest, exec pre (link_step fd op) h = Some (tt, upd b s' h, pre ++ es) ∧
    link_inv accept fd h (sent ++ link_sent [op]) (inp ++ link_inbound [op])
      (out ++ socket_bytes fd es) (got ++ got') s' ∧
    handed es = forward_all dead h got' ∧ msR = got' ++ rest.
Proof.
  intros Hlen Hoth Hs Hid Hfd0 Hop Hsent Hms Hmax Hin Hinv.
  pose proof (others_socket _ _ _ Hoth Hs (link_inv_fd _ _ _ _ _ _ _ _ Hinv)) as Hsock.
  destruct op as [m|chunk]; cbn [link_step link_op_ok] in *.
  - change (link_inbound [LSend m]) with (@nil Z) in *. change (link_sent [LSend m]) with [m].
    rewrite app_nil_r. cbn [app] in Hin.
    destruct Hinv as [s Ha Hst Hsfd Hfr Hq -> -> ->|s p Hr Hsfd Hq -> ->].
    + destruct (send_queued pre m h s (map packed sent) Hs Hid Hop) as (q & E & Hq');
        [by rewrite length_map|by right|done|].
      exists (set_queue (Some q) s), [], [], msR. rewrite E, app_nil_r. split; [done|].
      split; [|done]. change (socket_bytes fd []) with (@nil Z). rewrite app_nil_r.
      apply link_shaking; try done. by rewrite map_app.
    + exists s, [SocketSend (s_fd s) (wire (packed m)); Free (o_msg m)], [], msR.
      rewrite (send_direct pre m h s Hs Hid Hop) by (congruence || by eapply recv_status).
      rewrite upd_same by done. split; [done|]. split; [|done]. rewrite app_nil_r.
      eapply link_up; try done. rewrite map_app, link_stream_app. unfold socket_bytes.
      cbn [omap list_omap]. rewrite Hsfd, Z.eqb_refl. done.
  - assert (link_inbound [LData chunk] = chunk) as Hc1 by (unfold link_inbound; cbn; apply app_nil_r).
    rewrite Hc1 in *. change (link_sent [LData chunk]) with (@nil out_msg). rewrite (app_nil_r sent).
    destruct Hinv as [s -> Hst Hsfd Hfr Hq -> -> ->|s p Hr Hsfd Hq -> ->].
    + cbn [app] in *.
      destruct (receive_handshake pre fd chunk h s _ future msR Hlen Hsock Hs Hst Hsfd Hfd0 Hfr Hq
        (packed_all _ Hsent) Hms Hop Hin) as (ms1 & ms2 & s' & p' & -> & E & Hr' & Hfd' & Hq' & Hc).
      exists s', (sends fd (map packed sent) ++ forward_all dead h ms1 ++ [Free chunk]), ms1, ms2.
      rewrite E. split; [done|]. rewrite !socket_bytes_app, !handed_app, socket_bytes_sends, handed_sends.
      destruct (forward_all_effects fd h ms1) as [-> ->]. cbn [app handed List.filter]. rewrite !app_nil_r.
      split; [|done]. eapply link_up; done.
    + rewrite <- !app_assoc in Hin. apply app_inv_head in Hin. rewrite link_stream_app in Hin.
      apply app_inv_head in Hin.
      destruct (receive_up pre fd chunk h s p future msR Hlen Hsock Hs Hr Hms Hin)
        as (ms1 & ms2 & s' & p' & -> & E & Hr' & [Hfd' Hq'] & Hc).
      exists s', (forward_all dead h ms1 ++ [Free chunk]), ms1, ms2.
      rewrite E. split; [done|]. rewrite !socket_bytes_app, !handed_app.
      destruct (forward_all_effects fd h ms1) as [-> ->]. cbn [app handed List.filter]. rewrite !app_nil_r.
      split; [|done]. apply (link_up _ _ _ _ _ _ _ s' p'); [done|congruence|congruence| |done].
      rewrite <- !app_assoc, Hc, link_stream_app. by rewrite <- !app_assoc.
Qed.

(** A connection that nobody has opened yet; [fd] is the socket it will have. *)
Record node_ready (fd : Z) (h : harbor) : Prop := {
  nr_length : length (h_s h) = 256%nat;
  nr_id : 1 ≤ h_id h < 256;
  nr_other : h_id h ≠ b;
  nr_slave : ∃ s, aget (h_s h) b = Some s ∧ s_fd s = 0 ∧ s_status s = STATUS_WAIT ∧
    s_queue s = None ∧ fresh s;
  nr_fd : others fd h;
}.

Lemma link_inv_ext accept fd h h' sent inp out got s :
  h_id h' = h_id h → link_inv accept fd h sent inp out got s → link_inv accept fd h' sent inp out got s.
Proof.
  intros E []; [apply link_shaking|eapply link_up]; try done; by rewrite E.
Qed.

Lemma link_run_ok (accept : bool) fd ops : ∀ pre h s sent inp out got msR future,
  length (h_s h) = 256%nat → others fd h → aget (h_s h) b = Some s → h_id h ≠ b → fd ≠ 0 →
  Forall link_op_ok ops → Forall (out_ok b) sent → Forall deliver_ok msR →
  Z.of_nat (length sent + length (link_sent ops)) < QUEUE_MAX - 1 →
  inp ++ link_inbound ops ++ future = (if accept then [] else [b]) ++ stream (got ++ msR) →
  link_inv accept fd h sent inp out got s →
  ∃ s' es got' rest, exec pre (for_each (link_step fd) ops) h = Some (tt, upd b s' h, pre ++ es) ∧
    link_inv accept fd h (sent ++ link_sent ops) (inp ++ link_inbound ops)
      (out ++ socket_bytes fd es) (got ++ got') s' ∧
    handed es = forward_all dead h got' ∧ msR = got' ++ rest.
Proof.
  induction ops as [|op ops IH];
    intros pre h s sent inp out got msR future Hlen Hoth Hs Hid Hfd Hops Hsent Hms Hmax Hin Hinv.
  - exists s, [], [], msR. cbn [for_each]. rewrite exec_mret, upd_same, !app_nil_r by done.
    split; [done|]. by split.
  - apply Forall_cons in Hops as [Hop Hops].
    assert (link_inbound (op :: ops) = link_inbound [op] ++ link_inbound ops) as Ei.
    { unfold link_inbound. rewrite <- concat_app, <- omap_app. done. }
    assert (link_sent (op :: ops) = link_sent [op] ++ link_sent ops) as Es.
    { unfold link_sent. by rewrite <- omap_app. }
    rewrite Ei, Es in *. rewrite length_app in Hmax. rewrite <- app_assoc in Hin.
    destruct (link_step_ok accept fd op pre h s sent inp out got msR (link_inbound ops ++ future)
      Hlen Hoth Hs Hid Hfd Hop Hsent Hms ltac:(lia) Hin Hinv) as (s1 & es1 & got1 & rest & E1 & Hinv1 & Hh1 & ->).
    apply Forall_app in Hms as [_ Hms].
    destruct (IH (pre ++ es1) (upd b s1 h) s1 (sent ++ link_sent [op]) (inp ++ link_inbound [op])
      (out ++ socket_bytes fd es1) (got ++ got1) rest future) as (s2 & es2 & got2 & rest2 & E2 & Hinv2 & Hh2 & ->).
    + by rewrite <- Hlen; apply length_insert.
    + by apply others_upd.
    + by eapply aget_upd.
    + done.
    + done.
    + done.
    + apply Forall_app. split; [done|]. destruct op; [|by apply Forall_nil].
      apply Forall_cons. split; [exact Hop|by apply Forall_nil].
    + done.
    + rewrite length_app. lia.
    + by rewrite <- !app_assoc.
    + by eapply link_inv_ext, Hinv1.
    + exists s2, (es1 ++ es2), (got1 ++ got2), rest2. cbn [for_each].
      rewrite (exec_split _ _ _ _ _ _ _ E1), E2, upd_upd, <- app_assoc. split; [done|].
      rewrite socket_bytes_app, handed_app, Hh1, Hh2, !app_assoc. split; [by eapply link_inv_ext, Hinv2|].
      split; [|done]. unfold forward_all. by rewrite map_app, concat_app.
Qed.

(** The messages before the connection. *)
Lemma before_ok before : ∀ pre h s sent,
  aget (h_s h) b = Some s → h_id h ≠ b → Forall (out_ok b) before →
  Z.of_nat (length sent + length before) < QUEUE_MAX - 1 →
  s_fd s = 0 → s_status s = STATUS_WAIT → oqueue_rep (s_queue s) (map packed sent) →
  ∃ q, exec pre (for_each (send_out dead) before) h = Some (tt, upd b (set_queue q s) h, pre) ∧
    oqueue_rep q (map packed (sent ++ before)).
Proof.
  induction before as [|m before IH]; intros pre h s sent Hs Hid Hm Hl Hfd Hst Hq.
  - exists (s_queue s). cbn [for_each]. rewrite exec_mret, app_nil_r.
    replace (set_queue (s_queue s) s) with s by (by destruct s). by rewrite upd_same.
  - apply Forall_cons in Hm as [Hm Hms]. cbn [length] in Hl.
    destruct (send_queued pre m h s (map packed sent) Hs Hid Hm) as (q & E & Hq1);
      [rewrite length_map; lia|by left|done|].
    destruct (IH pre (upd b (set_queue (Some q) s) h) (set_queue (Some q) s) (sent ++ [m])) as (q2 & E2 & Hq2).
    + by eapply aget_upd.
    + done.
    + done.
    + rewrite length_app. cbn [length]. lia.
    + done.
    + done.
    + cbn [set_queue s_queue oqueue_rep]. by rewrite map_app.
    + exists q2. cbn [for_each]. rewrite (exec_split _ _ _ _ _ _ _ E), E2, upd_upd.
      split; [done|]. by rewrite <- app_assoc in Hq2.
Qed.

(** A whole run of a node. *)
Lemma node_run_ok (accept : bool) fd text before ops h msB future :
  node_ready fd h → connect_text fd text → Forall (out_ok b) before → Forall link_op_ok ops →
  Forall deliver_ok msB → Z.of_nat (length before + length (link_sent ops)) < QUEUE_MAX - 1 →
  link_inbound ops ++ future = (if accept then [] else [b]) ++ stream msB →
  ∃ s' es got rest, node_run accept fd text before ops h = Some (tt, upd b s' h, es) ∧
    link_inv accept fd h (before ++ link_sent ops) (link_inbound ops) (socket_bytes fd es) got s' ∧
    handed es = forward_all dead h got ∧ msB = got ++ rest.
Proof.
  intros [Hlen Hr Hid (s & Hs & Hfd0 & Hst & Hq & Hfr) Hoth] Ht Hbef Hops Hms Hmax Hin.
  destruct (before_ok before [] h s [] Hs Hid Hbef ltac:(cbn [length]; lia) Hfd0 Hst) as (q & E1 & Hq1);
    [by rewrite Hq|].
  set (h1 := upd b (set_queue q s) h) in *.
  pose proof (aget_upd _ _ (set_queue q s) _ Hs) as Hs1.
  pose proof (connect_spec [] accept fd text h1 (set_queue q s) (map packed before) Hs1 Ht Hfd0 Hq1
    (packed_all _ Hbef)) as E2.
  set (s2 := set_queue _ (set_status _ _)) in E2. set (es2 := _ :: _) in E2.
  assert (exec [] (connect_command accept text) h1 = Some (tt, upd b s2 h1, es2)) as E2'.
  { etransitivity; [|exact E2]. unfold connect_command. cbn [mainloop]. unfold harbor_command.
    change (aget ((if accept then 65 else 83) :: 32 :: text) 0) with (Some (if accept then 65 else 83)).
    rewrite exec_lift. cbn [length]. rewrite (proj2 (Z.ltb_ge _ _)) by lia. by destruct accept. }
  unfold h1 in E2'. rewrite upd_upd in E2'. fold h1 in E2'.
  assert (link_inv accept fd (upd b s2 h) before [] (socket_bytes fd es2) [] s2) as Hinv.
  { assert (socket_bytes fd es2 = wrap 8 (h_id h) :: (if accept then stream (map packed before) else [])) as ->.
    { unfold es2. change (socket_bytes fd (SocketStart fd :: ?e)) with (socket_bytes fd e).
      unfold socket_bytes. cbn [omap list_omap]. rewrite Z.eqb_refl. cbn [concat app].
      destruct accept; [|done]. f_equal. apply socket_bytes_sends. }
    destruct accept.
    - apply (link_up _ _ _ _ _ _ _ s2 []); try done. destruct Hfr as [Hrd Hsz].
      apply at_header; cbn; (done || lia).
    - by apply link_shaking. }
  destruct (link_run_ok accept fd ops es2 (upd b s2 h) s2 before [] (socket_bytes fd es2) [] msB future)
    as (s' & es & got & rest & E3 & Hinv3 & Hh & ->).
  - by rewrite <- Hlen; apply length_insert.
  - by apply others_upd.
  - by eapply aget_upd.
  - done.
  - by destruct Ht.
  - done.
  - done.
  - done.
  - lia.
  - done.
  - done.
  - exists s', (es2 ++ es), got, rest. unfold node_run. rewrite (exec_nil (_ ≫= _)).
    rewrite (exec_split _ _ _ _ _ _ _ E1), (exec_split _ _ _ _ _ _ _ E2'), E3, upd_upd.
    split; [done|]. rewrite socket_bytes_app, handed_app, Hh.
    split; [by eapply link_inv_ext, Hinv3|]. split; [|done].
    assert (handed es2 = []) as ->; [|done]. unfold es2. cbn [handed List.filter].
    destruct accept; [|done]. apply handed_sends.
Qed.
End node.

(** ** Both ends *)

(** A message as the other node hands it to the service, or reports that there is
    none. *)
Definition arrival (dead : Z → bool) (m : out_msg) : list effect :=
  Send (o_src m) (o_dst m) (Z.lor (o_type m) PTYPE_TAG_DONTCOPY) (o_session m) (o_msg m)
  :: if dead (o_dst m)
     then (if o_type m =? PTYPE_ERROR then []
           else [Send (o_dst m) (o_src m) PTYPE_ERROR (o_session m) []]) ++ [LogError]
     else [].

Lemma packed_forwards dead b m :
  1 ≤ b < 256 → out_ok b m → forwards dead b (packed m) = arrival dead m.
Proof.
  intros Hb (Hs & Hd & Hdb & Ht & Hse & Hl). unfold word_ok in *.
  unfold HANDLE_REMOTE_SHIFT in Hdb. rewrite Z.shiftr_div_pow2 in Hdb by lia.
  pose proof (Z.div_mod (o_dst m) (2 ^ 24)) as Hdm. pose proof (Z.mod_pos_bound (o_dst m) (2 ^ 24)) as Hmb.
  unfold forwards, arrival, packed. cbn [destination source session header buffer].
  unfold HANDLE_REMOTE_SHIFT, HANDLE_MASK. change 16777215 with (2 ^ 24 - 1).
  rewrite !land_mask by lia. rewrite !Z.shiftl_mul_pow2 by lia.
  rewrite !(wrap_small 32 (_ * _)) by lia. rewrite (Z.lor_comm (o_type m * 2 ^ 24)).
  rewrite !lor_add by lia.
  rewrite Z.shiftr_div_pow2 by lia. rewrite Z.div_add, (Z.div_small (o_dst m mod 2 ^ 24)) by lia.
  rewrite Z.add_0_l, Z.mod_add, Z.mod_mod by lia. rewrite ?lor_add by lia.
  replace (o_dst m mod 2 ^ 24 + b * 2 ^ 24) with (o_dst m) by lia.
  unfold INT_MIN, INT_MAX in *. rewrite !swrap_wrap, !swrap_small by lia. done.
Qed.

Lemma forward_all_packed dead h l :
  1 ≤ h_id h < 256 → Forall (out_ok (h_id h)) l →
  forward_all dead h (map packed l) = concat (map (arrival dead) l).
Proof.
  intros Hb Hl. unfold forward_all. induction Hl as [|m l Hm Hl IH]; [done|].
  cbn [map concat]. by rewrite packed_forwards, IH.
Qed.

(** What is left of a stream that has ended is no message. *)
Lemma recv_stream_nil s p ms : recv_state s p → Forall deliver_ok ms → p = stream ms → ms = [].
Proof.
  intros Hr Hm Hp. destruct ms as [|m ms]; [done|]. exfalso.
  apply Forall_cons in Hm as [[Hh Hl] _]. pose proof (length_body m) as Hlb.
  pose proof Hp as Hp'. unfold stream in Hp. cbn [map concat] in Hp. rewrite wire_body, <- app_assoc in Hp.
  destruct Hr as [p _ _ Hp4 _ _|len q r _ _ _ Hq Hlen _ _ _ _].
  - apply (f_equal length) in Hp. rewrite !length_app in Hp.
    unfold to_bigendian in Hp. rewrite length_be_bytes in Hp. lia.
  - apply app_inj_1 in Hp as [Hp1 Hp2]; [|unfold to_bigendian; by rewrite !length_be_bytes].
    apply to_bigendian_inj in Hp1; [|unfold word_ok; lia..]. subst len.
    apply (f_equal length) in Hp2. rewrite length_app in Hp2. lia.
Qed.

(** C22: two nodes that a master/slave network connects exchange
    their messages, each once and in order. Each node may send before the
    connection is opened, while it waits for the handshake and afterwards; one of
    them connects, the other accepts, and the bytes come in chunks of any size, at
    any time between its own messages. Whatever they do, no action faults; a
    node that has been answered has written its number and all its messages, in
    the order in which they were sent; and once the stream has come to its end, the
    other node has handed every message, with its source, type, session and
    bytes, to the service it was sent to, or reported to the source that there is
    none. Messages are shorter than 2^24 - 12 bytes, and less than 2^30 of them. *)
Theorem harbor_delivers dead_a dead_b ha hb fda fdb texta textb before_a ops_a before_b ops_b fut_a fut_b :
  let sent_a := before_a ++ link_sent ops_a in
  let sent_b := before_b ++ link_sent ops_b in
  node_ready (h_id hb) fda ha → node_ready (h_id ha) fdb hb →
  connect_text (h_id hb) fda texta → connect_text (h_id ha) fdb textb →
  Forall (out_ok (h_id hb)) sent_a → Forall (out_ok (h_id ha)) sent_b →
  [] ∉ omap (λ op, match op with LData chunk => Some chunk | _ => None end) (ops_a ++ ops_b) →
  Z.of_nat (length sent_a + length sent_b) < QUEUE_MAX - 1 →
  link_inbound ops_a ++ fut_a = h_id hb :: stream (map packed sent_b) →
  link_inbound ops_b ++ fut_b = stream (map packed sent_a) →
  ∃ ha' es_a hb' es_b,
    node_run dead_a false fda texta before_a ops_a ha = Some (tt, ha', es_a) ∧
    node_run dead_b true fdb textb before_b ops_b hb = Some (tt, hb', es_b) ∧
    (link_inbound ops_a ≠ [] → socket_bytes fda es_a = h_id ha :: stream (map packed sent_a)) ∧
    socket_bytes fdb es_b = h_id hb :: stream (map packed sent_b) ∧
    (fut_a = [] → handed es_a = concat (map (arrival dead_a) sent_b)) ∧
    (fut_b = [] → handed es_b = concat (map (arrival dead_b) sent_a)).
Proof.
  intros sent_a sent_b Hra Hrb Hta Htb Hsa Hsb Hch Hmax Hia Hib.
  pose proof (nr_id _ _ _ Hra) as Hida. pose proof (nr_id _ _ _ Hrb) as Hidb.
  assert (∀ b ops, (∀ op, op ∈ ops → op ∈ ops_a ++ ops_b) → Forall (out_ok b) (link_sent ops) →
    Forall (link_op_ok b) ops) as Hops.
  { intros b ops Hsub Hs. apply Forall_forall. intros op Hop. destruct op as [m|chunk]; cbn.
    - rewrite Forall_forall in Hs. apply Hs. apply list_elem_of_omap. by exists (LSend m).
    - intros ->. apply Hch. apply list_elem_of_omap. exists (LData []). split; [by apply Hsub|done]. }
  assert (∀ b l, Forall (out_ok b) l → Forall deliver_ok (map packed l)) as Hdel.
  { intros b l H. apply Forall_map. eapply Forall_impl; [exact H|]. intros m. apply packed_deliver. }
  unfold sent_a, sent_b in *. rewrite !length_app in Hmax.
  apply Forall_app in Hsa as Hsa'. destruct Hsa' as [Hsa1 Hsa2].
  apply Forall_app in Hsb as Hsb'. destruct Hsb' as [Hsb1 Hsb2].
  destruct (node_run_ok dead_a (h_id hb) Hidb false fda texta before_a ops_a ha _ fut_a Hra Hta Hsa1
    (Hops (h_id hb) ops_a ltac:(set_solver) Hsa2) (Hdel _ _ Hsb) ltac:(lia) Hia)
    as (sa & es_a & got_a & rest_a & Ea & Hinv_a & Hh_a & Hg_a).
  destruct (node_run_ok dead_b (h_id ha) Hida true fdb textb before_b ops_b hb _ fut_b Hrb Htb Hsb1
    (Hops (h_id ha) ops_b ltac:(set_solver) Hsb2) (Hdel _ _ Hsa) ltac:(lia) Hib)
    as (sb & es_b & got_b & rest_b & Eb & Hinv_b & Hh_b & Hg_b).
  do 4 eexists. split; [exact Ea|]. split; [exact Eb|].
  pose proof (Hdel _ _ Hsa) as Hdsa. pose proof (Hdel _ _ Hsb) as Hdsb.
  split; [|split; [|split]].
  - intros Hne. destruct Hinv_a as [s _ _ _ _ _ Hin|s p _ _ _ _ Hout]; [congruence|].
    by rewrite Hout, wrap_small by lia.
  - destruct Hinv_b as [s E|s p _ _ _ _ Hout]; [done|]. by rewrite Hout, wrap_small by lia.
  - intros ->. rewrite Hh_a, <- (forward_all_packed dead_a ha) by done.
    rewrite Hg_a in *. destruct Hinv_a as [s _ _ _ _ _ Hin|s p Hr _ _ Hin _].
    + rewrite Hin in Hia. done.
    + rewrite app_nil_r, Hin in Hia. cbn [app] in Hia. injection Hia as Hia.
      rewrite link_stream_app in Hia. apply app_inv_head in Hia. apply Forall_app in Hdsb as [_ Hd].
      rewrite (recv_stream_nil _ _ _ Hr Hd Hia). by rewrite app_nil_r.
  - intros ->. rewrite Hh_b, <- (forward_all_packed dead_b hb) by done.
    rewrite Hg_b in *. destruct Hinv_b as [s E|s p Hr _ _ Hin _]; [done|].
    rewrite app_nil_r, Hin in Hib. cbn [app] in Hib.
    rewrite link_stream_app in Hib. apply app_inv_head in Hib. apply Forall_app in Hdsa as [_ Hd].
    rewrite (recv_stream_nil _ _ _ Hr Hd Hib). by rewrite app_nil_r.
Qed.

(** The harbor service after [harbor_init]. *)
Definition harbor_node (id slave : Z) : harbor := Harbor id slave ∅ (h_s harbor_create).

Lemma harbor_node_ready id slave b fd :
  1 ≤ id < 256 → 1 ≤ b < 256 → id ≠ b → fd ≠ 0 → node_ready b fd (harbor_node id slave).
Proof.
  intros Hid Hb Hn Hfd.
  assert (∀ j, 0 ≤ j < 256 → aget (h_s (harbor_node id slave)) j
    = Some (Slave 0 None STATUS_WAIT 0 0 [0; 0; 0; 0] None)) as Hs.
  { intros j Hj. unfold aget, harbor_node, harbor_create. cbn [h_s].
    rewrite (proj2 (Z.leb_le _ _)) by lia. apply lookup_replicate. split; [done|].
    unfold REMOTE_MAX. lia. }
  split; [done|done|done| |].
  - eexists. split; [apply Hs; lia|]. done.
  - intros j s Hj _ E. rewrite Hs in E by lia. injection E as <-. cbn. done.
Qed.

(** Node 1 connects to node 2 with a message that waits; the answer comes in two
    chunks, the first of which ends inside a package. *)
Definition sample_a : out_msg := OutMsg 16777221 33554439 10 3 [104; 105].
Definition sample_a2 : out_msg := OutMsg 16777221 33554440 10 0 [].
Definition sample_b : out_msg := OutMsg 33554439 16777221 1 3 [111; 107].

Lemma harbor_delivers_witness :
  let inbound := 2 :: stream [packed sample_b] in
  let ops_a := [LData (take 9 inbound); LSend sample_a2; LData (drop 9 inbound)] in
  let ops_b := [LData (stream [packed sample_a]); LSend sample_b; LData (stream [packed sample_a2])] in
  ∃ ha' es_a hb' es_b,
    node_run (λ _, false) false 5 [53; 32; 50] [sample_a] ops_a (harbor_node 1 16777217) = Some (tt, ha', es_a) ∧
    node_run (λ d, d =? 33554440) true 6 [54; 32; 49] [] ops_b (harbor_node 2 33554433) = Some (tt, hb', es_b) ∧
    handed es_b = concat (map (arrival (λ d, d =? 33554440)) [sample_a; sample_a2]).
Proof.
  intros inbound ops_a ops_b.
  destruct (harbor_delivers (λ _, false) (λ d, d =? 33554440) (harbor_node 1 16777217)
    (harbor_node 2 33554433) 5 6 [53; 32; 50] [54; 32; 49] [sample_a] ops_a [] ops_b [] [])
    as (ha' & es_a & hb' & es_b & Ea & Eb & _ & _ & _ & Hb).
  - apply harbor_node_ready; cbn; lia.
  - apply harbor_node_ready; cbn; lia.
  - by split.
  - by split.
  - repeat (apply Forall_cons; split); [..|by apply Forall_nil];
      unfold out_ok, word_ok, INT_MIN, INT_MAX; cbn; repeat split; try lia; done.
  - repeat (apply Forall_cons; split); [..|by apply Forall_nil];
      unfold out_ok, word_ok, INT_MIN, INT_MAX; cbn; repeat split; try lia; done.
  - apply (bool_decide_unpack _). vm_compute. reflexivity.
  - done.
  - vm_compute. reflexivity.
  - vm_compute. reflexivity.
  - exists ha', es_a, hb', es_b. split; [exact Ea|]. split; [exact Eb|]. by apply Hb.
Defined.
