(* ===== verification/HarborSafe.v ===== *)
(** The messages that the harbor service holds (service_harbor.c): whatever messages
    and commands it gets, no action faults, and every message buffer is kept in one
    queue, handed on, or freed. *)
From S2P Require Import Prelude Bytes Buffer Ring Effect CString HarborQueue Harbor HarborExec.
From Stdlib Require Import Permutation.
Local Open Scope Z_scope.
Local Arguments wire : simpl never.

(** ** What is held *)

Definition oqueue_list (q : option harbor_msg_queue) : list harbor_msg :=
  match q with
  | Some q => match drain q with Some (l, _) => l | None => [] end
  | None => []
  end.

Lemma oqueue_list_rep q l : oqueue_rep q l → oqueue_list q = l.
Proof.
  destruct q as [q|]; cbn; [|done]. intros H. destruct (drain_all_spec q l H) as (q' & -> & _). done.
Qed.

Definition oqueue_ok (q : option harbor_msg_queue) : Prop :=
  oqueue_rep q (oqueue_list q) ∧ Forall msg_ok (oqueue_list q).

Lemma oqueue_ok_rep q l : oqueue_rep q l → Forall msg_ok l → oqueue_ok q.
Proof. intros H Hm. unfold oqueue_ok. by rewrite (oqueue_list_rep q l H). Qed.

Definition slave_bufs (s : slave) : list (list Z) := map buffer (oqueue_list (s_queue s)).
Definition node_bufs (n : keyvalue) : list (list Z) := map buffer (oqueue_list (kv_queue n)).
Definition chain_bufs (l : list keyvalue) : list (list Z) := concat (map node_bufs l).
Definition names_bufs (map : hashmap) : list (list Z) :=
  concat (List.map (λ p, chain_bufs p.2) (map_to_list map)).

(** The buffers of the messages in all the queues. *)
Definition held (h : harbor) : list (list Z) :=
  concat (map slave_bufs (h_s h)) ++ names_bufs (h_map h).

(** The buffers that the effects free or give to a service. *)
Definition gone (es : list effect) : list (list Z) :=
  omap (λ e, match e with
             | Free b => Some b
             | Send _ _ type _ msg => if Z.testbit type 16 then Some msg else None
             | _ => None
             end) es.

(** The buffers that the effects free. *)
Definition freed (es : list effect) : list (list Z) :=
  omap (λ e, match e with Free b => Some b | _ => None end) es.

(** The buffers that they send to another node: the bytes of a package between its
    length and its header. *)
Definition sent (es : list effect) : list (list Z) :=
  omap (λ e, match e with
             | SocketSend _ bytes =>
                 if (length bytes <? 16)%nat then None else Some (take (length bytes - 16) (drop 4 bytes))
             | _ => None
             end) es.

(** Exactly the buffers that were sent are freed. *)
Definition paid (es : list effect) : Prop := freed es ≡ₚ sent es.

Lemma paid_app es es' : paid es → paid es' → paid (es ++ es').
Proof. unfold paid, freed, sent. rewrite !omap_app. by intros -> ->. Qed.

Lemma paid_quiet es : freed es = [] → sent es = [] → paid es.
Proof. unfold paid. by intros -> ->. Qed.

Lemma sent_wire fd m : msg_ok m → sent [SocketSend fd (wire m)] = [buffer m].
Proof.
  intros [Hs _]. unfold sent. cbn [omap list_omap]. unfold wire.
  assert (∀ n, length (to_bigendian n) = 4%nat) as H4 by (intros n; apply length_be_bytes).
  assert (length (header_to_message (header m)) = 12%nat) as H12
    by (unfold header_to_message; by rewrite !length_app, !H4).
  rewrite !length_app, H4, H12.
  destruct (Nat.ltb_spec (4 + (length (buffer m) + 12)) 16); [lia|].
  f_equal. rewrite drop_app_ge, H4, Nat.sub_diag, drop_0 by (rewrite H4; lia).
  rewrite take_app_le by lia. apply take_ge. lia.
Qed.

Lemma paid_sends fd l : Forall msg_ok l → paid (sends fd l).
Proof.
  induction 1 as [|m l Hm Hl IH]; [by apply paid_quiet|]. unfold sends in *. cbn [map concat].
  apply (paid_app [SocketSend fd (wire m); Free (buffer m)]); [|exact IH].
  unfold paid. assert (sent [SocketSend fd (wire m); Free (buffer m)] = [buffer m]) as -> by exact (sent_wire fd m Hm).
  reflexivity.
Qed.

Lemma gone_app es es' : gone (es ++ es') = gone es ++ gone es'.
Proof. apply omap_app. Qed.

Record harbor_ok (h : harbor) : Prop := {
  ho_length : length (h_s h) = 256%nat;
  ho_slaves id s : aget (h_s h) id = Some s → oqueue_ok (s_queue s);
  ho_names i l : h_map h !! i = Some l → Forall (λ n, oqueue_ok (kv_queue n) ∧ word_ok (kv_value n)) l;
}.

(** ** Counting buffers *)

Definition cnt (b : list Z) (l : list (list Z)) : nat := count_occ (List.list_eq_dec Z.eq_dec) l b.

Lemma cnt_app b l l' : cnt b (l ++ l') = (cnt b l + cnt b l')%nat.
Proof. apply count_occ_app. Qed.

Lemma cnt_cons b x l : cnt b (x :: l) = (cnt b [x] + cnt b l)%nat.
Proof. apply (cnt_app b [x] l). Qed.

Lemma cnt_nil b : cnt b [] = 0%nat.
Proof. done. Qed.

Lemma cnt_perm l l' : (∀ b, cnt b l = cnt b l') → l ≡ₚ l'.
Proof. intros H. apply (Permutation_count_occ (List.list_eq_dec Z.eq_dec)). exact H. Qed.

Lemma perm_cnt l l' b : l ≡ₚ l' → cnt b l = cnt b l'.
Proof. intros H. unfold cnt. by rewrite (Permutation_count_occ (List.list_eq_dec Z.eq_dec)) in H. Qed.

(** A changed connection. *)
Lemma held_upd b id s0 s h :
  aget (h_s h) id = Some s0 →
  (cnt b (held (upd id s h)) + cnt b (slave_bufs s0) = cnt b (held h) + cnt b (slave_bufs s))%nat.
Proof.
  intros Hs. pose proof (aget_Some_range _ _ _ Hs) as R. unfold aget in Hs.
  rewrite (proj2 (Z.leb_le _ _)) in Hs by lia.
  unfold held, upd. cbn [h_s h_map]. rewrite !cnt_app.
  rewrite insert_take_drop by lia. rewrite <- (take_drop_middle _ _ _ Hs) at 3.
  rewrite !map_app, !concat_app, !cnt_app. cbn [map concat]. rewrite !cnt_app. lia.
Qed.

Lemma harbor_ok_upd id s h :
  harbor_ok h → 0 ≤ id < 256 → oqueue_ok (s_queue s) → harbor_ok (upd id s h).
Proof.
  intros [Hl Hs Hn] Hid Hq. split; [by unfold upd; cbn; rewrite length_insert| |done].
  intros j s' Hj. destruct (decide (j = id)) as [->|Hne].
  - destruct (aget_is_Some (h_s h) id) as [s0 Hs0]; [lia|].
    rewrite (aget_upd _ _ s _ Hs0) in Hj. by injection Hj as <-.
  - rewrite aget_upd_ne in Hj by (done || lia). by eapply Hs.
Qed.

(** A changed chain of the hash map. *)
Lemma concat_perm (l l' : list (list (list Z))) : l ≡ₚ l' → concat l ≡ₚ concat l'.
Proof.
  induction 1; cbn; [done|by f_equiv| |by etrans].
  by rewrite !app_assoc, (Permutation_app_comm y).
Qed.

Lemma names_insert_new b i l (map : hashmap) :
  map !! i = None →
  cnt b (names_bufs (<[i := l]> map)) = (cnt b (chain_bufs l) + cnt b (names_bufs map))%nat.
Proof.
  intros Hm. unfold names_bufs. pose proof (map_to_list_insert map i l Hm) as Hp.
  apply (Permutation_map (λ p, chain_bufs p.2)), concat_perm in Hp.
  rewrite (perm_cnt _ _ b Hp). cbn [List.map concat snd]. apply cnt_app.
Qed.

Lemma names_insert b i l (map : hashmap) :
  (cnt b (names_bufs (<[i := l]> map)) + cnt b (chain_bufs (default [] (map !! i)))
   = cnt b (names_bufs map) + cnt b (chain_bufs l))%nat.
Proof.
  destruct (map !! i) as [l0|] eqn:E; cbn [default from_option id].
  - rewrite <- (insert_delete_id map i l0 E) at 2. rewrite <- (insert_delete_eq map i l).
    rewrite !names_insert_new by apply lookup_delete_eq. lia.
  - rewrite names_insert_new by done. cbn. lia.
Qed.

(** ** The hash map *)

Lemma strncmp_refl name : strncmp_eq name name = true.
Proof. induction name as [|c name IH]; [done|]. cbn. by rewrite Z.eqb_refl, IH, orb_true_r. Qed.

(** A node and the chain around it. *)
Definition node_at (map : hashmap) (name : list Z) (node : keyvalue) : Prop :=
  hash_search map name = Some node.

Lemma chain_store_split l h name node :
  chain_search l h name = Some node →
  ∃ l1 l2, l = l1 ++ node :: l2 ∧ (kv_hash node =? h) && strncmp_eq (kv_key node) name = true ∧
    ∀ n', chain_store l h name n' = l1 ++ n' :: l2.
Proof.
  induction l as [|n l IH]; [done|]. cbn [chain_search].
  destruct ((kv_hash n =? h) && strncmp_eq (kv_key n) name) eqn:E.
  - intros [= ->]. exists [], l. split; [done|]. split; [done|]. intros n'. cbn [chain_store]. by rewrite E.
  - intros H. destruct (IH H) as (l1 & l2 & -> & E' & Hst). exists (n :: l1), l2. split; [done|].
    split; [done|]. intros n'. cbn [chain_store app]. by rewrite E, Hst.
Qed.

Lemma chain_search_store l h name node n' :
  chain_search l h name = Some node → kv_hash n' = kv_hash node → kv_key n' = kv_key node →
  chain_search (chain_store l h name n') h name = Some n'.
Proof.
  intros H Hh Hk. induction l as [|n l IH]; [done|]. cbn [chain_search chain_store] in *.
  destruct ((kv_hash n =? h) && strncmp_eq (kv_key n) name) eqn:E.
  - injection H as ->. cbn [chain_search]. by rewrite Hh, Hk, E.
  - cbn [chain_search]. rewrite E. by apply IH.
Qed.

Lemma chain_insert (map : hashmap) h l : chain (<[h mod HASH_SIZE := l]> map) h = l.
Proof. unfold chain. by rewrite lookup_insert_eq. Qed.

Lemma search_insert map name :
  node_at (hash_insert map name).2 name (hash_insert map name).1.
Proof.
  unfold node_at, hash_search, hash_insert. cbn [fst snd]. rewrite chain_insert. cbn [chain_search kv_hash kv_key].
  by rewrite Z.eqb_refl, strncmp_refl.
Qed.

Lemma search_store map name node n' :
  node_at map name node → kv_hash n' = kv_hash node → kv_key n' = kv_key node →
  node_at (hash_store map name n') name n'.
Proof.
  unfold node_at, hash_search, hash_store. intros. rewrite chain_insert. by eapply chain_search_store.
Qed.

Lemma names_store b map name node n' :
  node_at map name node →
  (cnt b (names_bufs (hash_store map name n')) + cnt b (node_bufs node)
   = cnt b (names_bufs map) + cnt b (node_bufs n'))%nat.
Proof.
  unfold node_at, hash_search, hash_store. intros H.
  destruct (chain_store_split _ _ _ _ H) as (l1 & l2 & E & _ & Hst).
  pose proof (names_insert b (name_hash name mod HASH_SIZE) (l1 ++ n' :: l2) map) as Hn.
  rewrite Hst. change (default [] (map !! (name_hash name mod HASH_SIZE))) with (chain map (name_hash name)) in Hn.
  rewrite E in Hn. unfold chain_bufs in Hn. rewrite !map_app, !concat_app, !cnt_app in Hn.
  cbn [List.map concat] in Hn. rewrite !cnt_app in Hn. lia.
Qed.

Lemma names_new b map name : cnt b (names_bufs (hash_insert map name).2) = cnt b (names_bufs map).
Proof.
  unfold hash_insert. cbn [snd].
  pose proof (names_insert b (name_hash name mod HASH_SIZE)
    (KeyValue name (name_hash name) 0 None :: chain map (name_hash name)) map) as Hn.
  change (default [] (map !! (name_hash name mod HASH_SIZE))) with (chain map (name_hash name)) in Hn.
  unfold chain_bufs in Hn. cbn [List.map concat] in Hn.
  change (node_bufs (KeyValue name (name_hash name) 0 None)) with (@nil (list Z)) in Hn. cbn [app] in Hn. lia.
Qed.

Definition node_ok (n : keyvalue) : Prop := oqueue_ok (kv_queue n) ∧ word_ok (kv_value n).

Definition names_ok (map : hashmap) : Prop := ∀ i l, map !! i = Some l → Forall node_ok l.

Lemma names_ok_at map name node : names_ok map → node_at map name node → node_ok node.
Proof.
  intros Hm Hn. destruct (chain_store_split _ _ _ _ Hn) as (l1 & l2 & E & _ & _).
  unfold chain in E. destruct (map !! (name_hash name mod HASH_SIZE)) as [l|] eqn:El; cbn in E.
  - apply Hm in El. subst l. apply Forall_app in El as [_ El]. by apply Forall_cons in El as [].
  - by destruct l1.
Qed.

Lemma names_ok_insert map h l : names_ok map → Forall node_ok l → names_ok (<[h := l]> map).
Proof.
  intros Hm Hl i l'. destruct (decide (i = h)) as [->|Hn].
  - rewrite lookup_insert_eq. by intros [= <-].
  - rewrite lookup_insert_ne by done. apply Hm.
Qed.

Lemma names_ok_chain map h : names_ok map → Forall node_ok (chain map h).
Proof.
  intros Hm. unfold chain. destruct (map !! _) eqn:E; cbn; [by eapply Hm|constructor].
Qed.

Lemma names_ok_store map name node n' :
  names_ok map → node_at map name node → node_ok n' → names_ok (hash_store map name n').
Proof.
  intros Hm Hn Hn'. unfold hash_store. apply names_ok_insert; [done|].
  destruct (chain_store_split _ _ _ _ Hn) as (l1 & l2 & E & _ & ->).
  pose proof (names_ok_chain map (name_hash name) Hm) as Hc. rewrite E in Hc.
  apply Forall_app in Hc as [H1 H2]. apply Forall_cons in H2 as [_ H2].
  apply Forall_app. split; [done|]. by apply Forall_cons.
Qed.

Lemma node_ok_new name : node_ok (KeyValue name (name_hash name) 0 None).
Proof. split; [by apply (oqueue_ok_rep None [])|]. unfold word_ok. cbn. lia. Qed.

Lemma names_ok_new map name : names_ok map → names_ok (hash_insert map name).2.
Proof.
  intros Hm. cbn. apply names_ok_insert; [done|]. apply Forall_cons. split; [apply node_ok_new|].
  by apply names_ok_chain.
Qed.

(** The node of a name, which [hash_insert] makes when there is none. *)
Definition find_node (map : hashmap) (name : list Z) : keyvalue * hashmap :=
  match hash_search map name with
  | Some node => (node, map)
  | None => hash_insert map name
  end.

Lemma find_node_ok map name :
  names_ok map → node_at (find_node map name).2 name (find_node map name).1 ∧
    names_ok (find_node map name).2 ∧
    ∀ b, cnt b (names_bufs (find_node map name).2) = cnt b (names_bufs map).
Proof.
  intros Hm. unfold find_node. destruct (hash_search map name) as [node|] eqn:E.
  - by split.
  - split; [apply search_insert|]. split; [by apply names_ok_new|]. intros b. apply names_new.
Qed.

(** ** Room in the queues *)

Lemma slave_none s : slave_bufs (set_queue None s) = [].
Proof. done. Qed.

Lemma held_slave id s h :
  aget (h_s h) id = Some s → held h ≡ₚ slave_bufs s ++ held (upd id (set_queue None s) h).
Proof.
  intros Hs. apply cnt_perm. intros b. pose proof (held_upd b id s (set_queue None s) h Hs) as H.
  rewrite slave_none, cnt_nil in H. rewrite cnt_app. lia.
Qed.

Lemma names_node map name node :
  node_at map name node →
  names_bufs map ≡ₚ node_bufs node ++ names_bufs (hash_store map name (set_kv_queue None node)).
Proof.
  intros Hn. apply cnt_perm. intros b. pose proof (names_store b map name node (set_kv_queue None node) Hn) as H.
  change (node_bufs (set_kv_queue None node)) with (@nil (list Z)) in H. rewrite cnt_nil in H.
  rewrite cnt_app. lia.
Qed.

Lemma held_slave_node id s name node h :
  aget (h_s h) id = Some s → node_at (h_map h) name node →
  (length (slave_bufs s) + length (node_bufs node) ≤ length (held h))%nat.
Proof.
  intros Hs Hn. rewrite (held_slave id s h Hs), length_app. unfold held, upd. cbn [h_map h_s].
  rewrite length_app, (names_node _ _ _ Hn), length_app. lia.
Qed.

(** ** Operations *)

(** The node of a handle is down. *)
Definition to_down (handle : Z) (h : harbor) : Prop :=
  ∃ s, aget (h_s h) (Z.shiftr handle HANDLE_REMOTE_SHIFT) = Some s ∧ s_status s = STATUS_DOWN.

(** What is freed was sent, or is refused and logged because [handle]'s node is down. *)
Definition settled (handle : Z) (h : harbor) (es : list effect) : Prop :=
  paid es ∨ (LogError ∈ es ∧ to_down handle h).

Lemma settled_app handle h es es' : paid es → settled handle h es' → settled handle h (es ++ es').
Proof.
  intros H [H'|[H' ?]]; [left; by apply paid_app|right]. split; [|done]. apply elem_of_app. by right.
Qed.

(** The effects account for the buffers: those of the state before and the ones that
    the operation gets. *)
Definition balanced (h : harbor) (es : list effect) (h' : harbor) (add : list (list Z)) : Prop :=
  harbor_ok h' ∧ ∀ b, (cnt b (held h') + cnt b (gone es) = cnt b (held h) + cnt b add)%nat.

Lemma dontcopy_bit type : Z.testbit (Z.lor type PTYPE_TAG_DONTCOPY) 16 = true.
Proof. rewrite Z.lor_spec. apply orb_true_r. Qed.

Lemma remote_send_handle_ok src dst type session msg h :
  harbor_ok h → word_ok dst → Z.of_nat (length msg) < 2 ^ 31 →
  Z.of_nat (length (held h)) < QUEUE_MAX - 2 →
  ∃ kept h' es, remote_send_handle src dst type session msg (Z.of_nat (length msg)) h = Some (kept, h', es) ∧
    balanced h es h' (if kept : bool then [msg] else []) ∧
    settled dst h (es ++ if kept then [] else [Free msg]).
Proof.
  intros Hok Hdst Hl Hmax. rewrite (exec_nil (remote_send_handle _ _ _ _ _ _)).
  unfold remote_send_handle. rewrite exec_state.
  set (id := Z.shiftr dst HANDLE_REMOTE_SHIFT).
  assert (0 ≤ id < 256) as Hid.
  { unfold id, HANDLE_REMOTE_SHIFT, word_ok in *. rewrite Z.shiftr_div_pow2 by lia.
    split; [apply Z.div_pos; lia|apply Z.div_lt_upper_bound; lia]. }
  destruct (id =? h_id h).
  { rewrite exec_emit, exec_mret. do 3 eexists. split; [done|]. split; [|left; by apply paid_quiet]. split; [done|]. intros b.
    unfold gone. cbn [omap list_omap app]. rewrite dontcopy_bit. lia. }
  destruct (aget_is_Some (h_s h) id) as [s Hs]; [rewrite (ho_length _ Hok); lia|].
  rewrite (exec_get _ _ _ _ _ Hs). pose proof (ho_slaves _ Hok _ _ Hs) as [Hq Hqm].
  destruct ((s_fd s =? 0) || bool_decide (s_status s = STATUS_HANDSHAKE)).
  - destruct (decide (s_status s = STATUS_DOWN)).
    + rewrite !exec_emit, exec_mret. do 3 eexists. split; [done|]. split; [by split|].
      right. split; [by right; left|by exists s].
    + match goal with |- context [push_queue _ _ _ ?hd] => set (m := HMsg hd msg (Z.of_nat (length msg))) end.
      assert (queue_rep (default new_queue (s_queue s)) (oqueue_list (s_queue s))) as Hq'.
      { destruct (s_queue s); [exact Hq|]. apply new_queue_rep. }
      pose proof (held_slave _ _ _ Hs) as Hp. apply Permutation_length in Hp.
      rewrite length_app in Hp. unfold slave_bufs in Hp. rewrite length_map in Hp.
      destruct (push_spec _ _ m Hq') as (q & Eq & Hrep); [lia|].
      unfold push_queue. fold m. rewrite Eq, exec_lift, (exec_put_slave _ _ _ _ _ _ Hs), exec_mret.
      do 3 eexists. split; [done|]. split; [|left; by apply paid_quiet]. split.
      * apply harbor_ok_upd; [done|done|]. apply (oqueue_ok_rep (Some q) _ Hrep). apply Forall_app. split; [done|].
        apply Forall_singleton. by split.
      * intros b. pose proof (held_upd b id s (set_queue (Some q) s) h Hs) as H.
        unfold slave_bufs in H. cbn [set_queue s_queue] in H.
        rewrite (oqueue_list_rep (Some q) _ Hrep), map_app, cnt_app in H. cbn [List.map buffer m] in H.
        rewrite cnt_nil. lia.
  - match goal with |- context [send_remote _ _ _ ?cookie] => set (c := cookie) end.
    pose proof (send_remote_spec (s_fd s) (HMsg c msg (Z.of_nat (length msg))) h ltac:(by split)) as E.
    rewrite (exec_bind _ _ _ _ _ _ _ E), exec_mret. do 3 eexists. split; [done|]. split; [by split|].
    left. apply (paid_sends (s_fd s) [HMsg c msg (Z.of_nat (length msg))]). by repeat constructor.
Qed.

Lemma gone_frees l : gone (map (λ m, Free (buffer m)) l) = map buffer l.
Proof.
  induction l as [|m l IH]; [done|]. cbn [map].
  change (buffer m :: gone (map (λ m, Free (buffer m)) l) = buffer m :: map buffer l). by rewrite IH.
Qed.

Lemma gone_sends fd l : gone (sends fd l) = map buffer l.
Proof.
  unfold sends. induction l as [|m l IH]; [done|]. cbn [map concat]. by rewrite gone_app, IH.
Qed.

Lemma connect_ok accept text h :
  harbor_ok h → ∃ h' es, connect accept text h = Some (tt, h', es) ∧ balanced h es h' [] ∧ paid es.
Proof.
  intros Hok. rewrite (exec_nil (connect _ _)). unfold connect. destruct (scan2 text) as [fd id].
  assert (∃ h' es, exec [] (emit LogError) h = Some (tt, h', es) ∧ balanced h es h' [] ∧ paid es) as Hemit
    by (do 2 eexists; split; [done|split; [by split|by apply paid_quiet]]).
  destruct ((fd =? 0) || (id <=? 0) || (REMOTE_MAX <=? id)) eqn:E; [done|].
  apply orb_false_iff in E as [[E1 E2]%orb_false_iff E3]. unfold REMOTE_MAX in E3.
  destruct (aget_is_Some (h_s h) id) as [s Hs]; [rewrite (ho_length _ Hok); lia|].
  rewrite (exec_get _ _ _ _ _ Hs). destruct (s_fd s =? 0); cbn [negb]; [|done].
  pose proof (ho_slaves _ Hok _ _ Hs) as [Hq Hqm].
  rewrite (exec_put_slave _ _ _ _ _ _ Hs), exec_emit.
  pose proof (aget_upd _ _ (set_fd fd s) _ Hs) as Hs1.
  assert (handshake id (upd id (set_fd fd s) h)
    = Some (tt, upd id (set_fd fd s) h, [SocketSend fd [wrap 8 (h_id h)]])) as Eh.
  { rewrite (exec_nil (handshake _)). unfold handshake. by rewrite exec_state, (exec_get _ _ _ _ _ Hs1). }
  rewrite (exec_bind _ _ _ _ _ _ _ Eh), (exec_put_slave _ _ _ _ _ _ Hs1), upd_upd.
  set (s2 := set_status _ _). pose proof (aget_upd _ _ s2 _ Hs) as Hs2.
  assert (∀ q, oqueue_ok q → harbor_ok (upd id (set_queue q s2) h)) as Hupd
    by (intros q H; apply harbor_ok_upd; [done|lia|done]).
  destruct accept.
  - unfold exec. rewrite (dispatch_queue_spec id s2 (oqueue_list (s_queue s)) _ Hs2); [|cbn; lia|exact Hq|done].
    rewrite upd_upd. do 2 eexists. split; [done|]. split.
    2: { apply (paid_app [SocketStart fd; SocketSend fd [wrap 8 (h_id h)]]); [by apply paid_quiet|]. by apply paid_sends. }
    split; [apply Hupd; by apply (oqueue_ok_rep None [])|]. intros b.
    pose proof (held_upd b id s (set_queue None s2) h Hs) as H. rewrite slave_none, cnt_nil in H.
    rewrite gone_app, gone_sends. cbn [gone omap list_omap app]. unfold slave_bufs in H.
    change (s_queue s2) with (s_queue s). rewrite cnt_nil. lia.
  - rewrite exec_mret. do 2 eexists. split; [done|]. split; [|by apply paid_quiet].
    change s2 with (set_queue (s_queue s) s2) at 1. split; [by apply Hupd|]. intros b.
    pose proof (held_upd b id s s2 h Hs) as H. change (slave_bufs s2) with (slave_bufs s) in H.
    change (set_queue (s_queue s) s2) with s2. cbn [gone omap list_omap app]. rewrite !cnt_nil. lia.
Qed.

(** ** Names *)

Definition set_map (map : hashmap) (h : harbor) : harbor := Harbor (h_id h) (h_slave h) map (h_s h).

Lemma exec_get_map {B} pre (f : hashmap → M B) h : exec pre (get_map ≫= f) h = exec pre (f (h_map h)) h.
Proof. by apply exec_bind_pure. Qed.

Lemma exec_put_map {B} pre map (f : () → M B) h :
  exec pre (put_map map ≫= f) h = exec pre (f tt) (set_map map h).
Proof. rewrite (exec_bind _ _ _ _ tt (set_map map h) []); [by rewrite app_nil_r|done]. Qed.

Lemma held_set_map b map h :
  (cnt b (held (set_map map h)) + cnt b (names_bufs (h_map h)) = cnt b (held h) + cnt b (names_bufs map))%nat.
Proof. unfold held, set_map. cbn [h_s h_map]. rewrite !cnt_app. lia. Qed.

Lemma harbor_ok_names h : harbor_ok h → names_ok (h_map h).
Proof. intros H i l. apply (ho_names _ H). Qed.

Lemma harbor_ok_set_map map h : harbor_ok h → names_ok map → harbor_ok (set_map map h).
Proof. intros [H1 H2 _] Hm. split; [exact H1|exact H2|exact Hm]. Qed.

Lemma gone_give_all handle l :
  gone (map (λ m, Send (source (header m)) handle
     (Z.lor (Z.shiftr (destination (header m)) HANDLE_REMOTE_SHIFT) PTYPE_TAG_DONTCOPY)
     (swrap 32 (session (header m))) (buffer m)) l) = map buffer l.
Proof.
  induction l as [|m l IH]; [done|]. cbn [map]. rewrite <- IH.
  match goal with |- gone (?e :: ?es) = _ => change (e :: es) with ([e] ++ es) end. rewrite gone_app.
  unfold gone at 1. cbn [omap list_omap]. by rewrite dontcopy_bit.
Qed.

Lemma paid_give_all handle l :
  paid (map (λ m, Send (source (header m)) handle
     (Z.lor (Z.shiftr (destination (header m)) HANDLE_REMOTE_SHIFT) PTYPE_TAG_DONTCOPY)
     (swrap 32 (session (header m))) (buffer m)) l).
Proof. apply paid_quiet; by induction l as [|m l IH]. Qed.

(** What the dispatch of a queue does: the messages of the node go somewhere else,
    or stay with it. *)
Lemma dispatch_name_queue_ok name node h :
  harbor_ok h → node_at (h_map h) name node → kv_queue node ≠ None →
  Z.of_nat (length (held h)) < QUEUE_MAX - 2 →
  ∃ node' h' es, dispatch_name_queue node h = Some (node', h', es) ∧
    kv_key node' = kv_key node ∧ kv_hash node' = kv_hash node ∧ node_ok node' ∧
    h_map h' = h_map h ∧ harbor_ok h' ∧
    (∀ b, (cnt b (held h') + cnt b (gone es) + cnt b (node_bufs node')
          = cnt b (held h) + cnt b (node_bufs node))%nat) ∧
    (paid es ∧ node_bufs node' = [] ∨ LogError ∈ es ∧ to_down (kv_value node) h).
Proof.
  intros Hok Hn Hq Hmax. destruct (names_ok_at _ _ _ (harbor_ok_names _ Hok) Hn) as [[Hr Hrm] Hv].
  rewrite (exec_nil (dispatch_name_queue _)). unfold dispatch_name_queue.
  destruct (kv_queue node) as [queue|] eqn:Eq; [|done]. rewrite exec_lift, exec_state. clear Hq.
  cbn [oqueue_rep] in Hr.
  set (id := Z.shiftr (kv_value node) HANDLE_REMOTE_SHIFT).
  assert (0 ≤ id < 256) as Hid.
  { unfold id, HANDLE_REMOTE_SHIFT, word_ok in *. rewrite Z.shiftr_div_pow2 by lia.
    split; [apply Z.div_pos; lia|apply Z.div_lt_upper_bound; lia]. }
  destruct (aget_is_Some (h_s h) id) as [s Hs]; [rewrite (ho_length _ Hok); lia|].
  rewrite (exec_get _ _ _ _ _ Hs). pose proof (ho_slaves _ Hok _ _ Hs) as [Hsq Hsqm].
  pose proof (held_slave_node id s name node h Hs Hn) as Hroom.
  unfold slave_bufs, node_bufs in Hroom. rewrite Eq, !length_map in Hroom.
  destruct (drain_all_spec _ _ Hr) as (queue' & Ed & Hr').
  destruct (s_fd s =? 0).
  - destruct (decide (s_status s = STATUS_DOWN)).
    { rewrite exec_emit, exec_mret. do 3 eexists. split; [done|]. split; [done|]. split; [done|].
      split; [split; [rewrite Eq; by split|done]|]. split; [done|]. split; [done|].
      split; [|right; split; [by left|by exists s]]. intros b. change (gone _) with (@nil (list Z)). rewrite cnt_nil. lia. }
    assert (∃ squeue node', (match s_queue s with
        | None => mret (queue, set_kv_queue None node)
        | Some squeue =>
          '(ms, queue) ← lift (drain queue);
          squeue ← lift (push_all squeue ms);
          mret (squeue, set_kv_queue (Some queue) node)
        end : M (harbor_msg_queue * keyvalue)) h = Some ((squeue, node'), h, []) ∧
      queue_rep squeue (oqueue_list (s_queue s) ++ oqueue_list (Some queue)) ∧
      node_bufs node' = [] ∧ node_ok node' ∧ kv_key node' = kv_key node ∧ kv_hash node' = kv_hash node)
      as (squeue & node' & Em & Hsr & Hnb & Hnok & Hk & Hh).
    { destruct (s_queue s) as [sq|] eqn:Esq.
      - destruct (push_all_spec sq _ (oqueue_list (Some queue)) Hsq) as (sq' & Ep & Hp'); [lia|].
        exists sq', (set_kv_queue (Some queue') node). rewrite (exec_nil (_ ≫= _)), Ed, exec_lift, Ep, exec_lift, exec_mret.
        split; [done|]. split; [done|].
        assert (oqueue_list (Some queue') = []) as Hnil by exact (oqueue_list_rep (Some queue') [] Hr').
        unfold node_bufs. cbn [set_kv_queue kv_queue]. rewrite Hnil. split; [done|].
        split; [|done]. split; [|done]. by apply (oqueue_ok_rep (Some queue') []).
      - exists queue, (set_kv_queue None node). split; [done|]. split; [done|]. split; [done|].
        split; [|done]. split; [|done]. by apply (oqueue_ok_rep None []). }
    rewrite (exec_bind_pure _ _ _ _ _ Em), (exec_put_slave _ _ _ _ _ _ Hs).
    assert (Forall msg_ok (oqueue_list (s_queue s) ++ oqueue_list (Some queue))) as Hall
      by (by apply Forall_app).
    destruct (id =? Z.shiftr (h_slave h) HANDLE_REMOTE_SHIFT).
    + destruct (drain_all_spec _ _ Hsr) as (sq2 & Ed2 & Hr2). rewrite Ed2, exec_lift, exec_emits.
      rewrite (exec_bind _ _ _ _ _ _ _ (release_queue_spec (Some sq2) [] _ Hr2)).
      rewrite (exec_put_slave _ _ _ _ _ _ (aget_upd _ _ _ _ Hs)), exec_mret, upd_upd.
      do 3 eexists. split; [done|]. split; [done|]. split; [done|]. split; [done|]. split; [done|].
      split; [apply harbor_ok_upd; [done|done|by apply (oqueue_ok_rep None [])]|].
      split; [|left; split; [cbn [app map]; rewrite app_nil_r; apply paid_give_all|done]].
      intros b. pose proof (held_upd b id s (set_queue None s) h Hs) as H. rewrite slave_none, cnt_nil in H.
      cbn [app map]. rewrite app_nil_r, gone_give_all, Hnb, map_app, cnt_app, cnt_nil.
      unfold slave_bufs in H. unfold node_bufs. rewrite Eq. lia.
    + rewrite exec_mret. do 3 eexists. split; [done|]. split; [done|]. split; [done|]. split; [done|]. split; [done|].
      split; [apply harbor_ok_upd; [done|done|by apply (oqueue_ok_rep (Some squeue) _ Hsr)]|].
      split; [|left; split; [by apply paid_quiet|done]].
      intros b. pose proof (held_upd b id s (set_queue (Some squeue) s) h Hs) as H.
      unfold slave_bufs in H. cbn [set_queue s_queue] in H.
      rewrite (oqueue_list_rep (Some squeue) _ Hsr), map_app, cnt_app in H.
      rewrite Hnb. unfold node_bufs. rewrite Eq, !cnt_nil. lia.
  - rewrite Ed, exec_lift.
    rewrite (exec_bind _ _ _ _ _ _ _ (send_all_spec (s_fd s) (map (add_handle (kv_value node)) (oqueue_list (Some queue))) h
      ltac:(apply Forall_map; eapply Forall_impl; [exact Hrm|done]))).
    rewrite exec_mret. do 3 eexists. split; [done|]. split; [done|]. split; [done|].
    split; [split; [by apply (oqueue_ok_rep (Some queue') [])|done]|]. split; [done|]. split; [done|].
    assert (node_bufs (set_kv_queue (Some queue') node) = []) as Hnone.
    { unfold node_bufs. cbn [set_kv_queue kv_queue].
      by rewrite (oqueue_list_rep (Some queue') [] Hr' : oqueue_list (Some queue') = []). }
    split; [|left; split; [apply paid_sends; apply Forall_map; by eapply Forall_impl; [exact Hrm|]|exact Hnone]].
    intros b. cbn [app]. rewrite gone_sends, List.map_map.
    change (map (λ x, buffer (add_handle (kv_value node) x)) (oqueue_list (Some queue)))
      with (map buffer (oqueue_list (Some queue))).
    rewrite Hnone. unfold node_bufs. rewrite Eq, cnt_nil. lia.
Qed.

Lemma held_names b h : cnt b (held h) = (cnt b (concat (map slave_bufs (h_s h))) + cnt b (names_bufs (h_map h)))%nat.
Proof. apply cnt_app. Qed.

Lemma held_set_length map h :
  (∀ b, cnt b (names_bufs map) = cnt b (names_bufs (h_map h))) → length (held (set_map map h)) = length (held h).
Proof.
  intros H. apply Permutation_length, cnt_perm. intros b. pose proof (held_set_map b map h). specialize (H b). lia.
Qed.

Lemma update_name_ok name handle h :
  harbor_ok h → word_ok handle → Z.of_nat (length (held h)) < QUEUE_MAX - 2 →
  ∃ h' es, update_name name handle h = Some (tt, h', es) ∧ balanced h es h' [] ∧
    settled handle h es.
Proof.
  intros Hok Hv Hmax. rewrite (exec_nil (update_name _ _)). unfold update_name. rewrite exec_get_map.
  change (match hash_search (h_map h) name with Some node => (node, h_map h) | None => hash_insert (h_map h) name end)
    with (find_node (h_map h) name).
  destruct (find_node_ok (h_map h) name (harbor_ok_names _ Hok)) as (Hat & Hm & Hcnt).
  destruct (find_node (h_map h) name) as [node map0]. cbn [fst snd] in *.
  set (node1 := KeyValue (kv_key node) (kv_hash node) handle (kv_queue node)).
  pose proof (names_ok_at _ _ _ Hm Hat) as [Hnq Hnv].
  assert (node_ok node1) as Hn1 by (by split).
  set (map1 := hash_store map0 name node1).
  assert (node_at map1 name node1) as Hat1 by (by eapply search_store).
  assert (∀ b, cnt b (names_bufs map1) = cnt b (names_bufs (h_map h))) as Hcnt1.
  { intros b. pose proof (names_store b map0 name node node1 Hat) as H. fold map1 in H.
    change (node_bufs node1) with (node_bufs node) in H. rewrite <- (Hcnt b). lia. }
  assert (harbor_ok (set_map map1 h)) as Hok1.
  { apply harbor_ok_set_map; [done|]. by eapply names_ok_store. }
  rewrite exec_put_map. change (kv_queue node1) with (kv_queue node).
  destruct (kv_queue node) as [queue|] eqn:Eq.
  - destruct (dispatch_name_queue_ok name node1 (set_map map1 h) Hok1 Hat1) as
      (node2 & h2 & es & E & Hk & Hh & Hn2 & Hmap & Hok2 & Hbal & Hpay); [done| |].
    { by rewrite held_set_length. }
    rewrite (exec_bind _ _ _ _ _ _ _ E). cbn [app].
    pose proof Hn2 as [[Hr2 _] _].
    rewrite (exec_bind _ _ _ _ _ _ _ (release_queue_spec _ _ h2 Hr2)), exec_get_map.
    set (node3 := set_kv_queue None node2).
    assert (node_ok node3) as Hn3.
    { split; [by apply (oqueue_ok_rep None [])|apply Hn2]. }
    unfold exec, put_map. do 2 eexists. split; [done|].
    rewrite Hmap. cbn [h_map set_map]. split; [split|].
    + apply (harbor_ok_set_map _ h2 Hok2). eapply names_ok_store; [|exact Hat1|done].
      apply (harbor_ok_names _ Hok1).
    + intros b. change (Harbor (h_id h2) (h_slave h2) ?m (h_s h2)) with (set_map m h2).
      pose proof (held_set_map b (hash_store map1 name node3) h2) as H2.
      pose proof (names_store b map1 name node1 node3 Hat1) as H3.
      change (node_bufs node3) with (@nil (list Z)) in H3.
      pose proof (held_set_map b map1 h) as H1. specialize (Hbal b). specialize (Hcnt1 b).
      rewrite Hmap in H2. cbn [h_map set_map] in H2. rewrite app_nil_r, gone_app, cnt_app, gone_frees.
      fold (node_bufs node2). rewrite cnt_nil in *. lia.
    + rewrite app_nil_r. destruct Hpay as [[Hpay Hnil]|[Hlog Hdown]].
      * left. apply paid_app; [done|].
        assert (oqueue_list (kv_queue node2) = []) as ->; [|by apply paid_quiet].
        unfold node_bufs in Hnil. by destruct (oqueue_list (kv_queue node2)).
      * right. split; [by apply elem_of_app; left|done].
  - rewrite exec_mret. do 2 eexists. split; [done|]. split; [|left; by apply paid_quiet]. split; [done|]. intros b.
    pose proof (held_set_map b map1 h) as H1. specialize (Hcnt1 b). change (gone []) with (@nil (list Z)).
    rewrite !cnt_nil. lia.
Qed.

(** The handle that a name stands for, 0 when there is none. *)
Definition value_of (name : list Z) (h : harbor) : Z :=
  from_option kv_value 0 (hash_search (h_map h) name).

Lemma value_of_find name h : kv_value (find_node (h_map h) name).1 = value_of name h.
Proof. unfold find_node, value_of. by destruct (hash_search _ _). Qed.

Lemma remote_send_name_ok src name type session msg h :
  harbor_ok h → Z.of_nat (length msg) < 2 ^ 31 → Z.of_nat (length (held h)) < QUEUE_MAX - 2 →
  ∃ kept h' es, remote_send_name src name type session msg (Z.of_nat (length msg)) h = Some (kept, h', es) ∧
    balanced h es h' (if kept : bool then [msg] else []) ∧
    settled (value_of name h) h (es ++ if kept then [] else [Free msg]).
Proof.
  intros Hok Hl Hmax. rewrite (exec_nil (remote_send_name _ _ _ _ _ _)). unfold remote_send_name.
  rewrite exec_get_map.
  change (match hash_search (h_map h) name with Some node => (node, h_map h) | None => hash_insert (h_map h) name end)
    with (find_node (h_map h) name).
  destruct (find_node_ok (h_map h) name (harbor_ok_names _ Hok)) as (Hat & Hm & Hcnt).
  rewrite <- value_of_find.
  destruct (find_node (h_map h) name) as [node map0]. cbn [fst snd] in *.
  rewrite exec_put_map. pose proof (names_ok_at _ _ _ Hm Hat) as [[Hnq Hnqm] Hnv].
  pose proof (harbor_ok_set_map map0 h Hok Hm) as Hok0.
  pose proof (held_set_length map0 h Hcnt) as Hlen.
  destruct (kv_value node =? 0).
  - match goal with |- context [push_queue _ _ _ ?hd] => set (m := HMsg hd msg (Z.of_nat (length msg))) end.
    assert (queue_rep (default new_queue (kv_queue node)) (oqueue_list (kv_queue node))) as Hq'.
    { destruct (kv_queue node); [exact Hnq|]. apply new_queue_rep. }
    assert (length (oqueue_list (kv_queue node)) ≤ length (held h))%nat as Hroom.
    { rewrite <- Hlen. unfold held. rewrite length_app. cbn [h_map set_map].
      rewrite (names_node _ _ _ Hat), length_app. unfold node_bufs. rewrite length_map. lia. }
    destruct (push_spec _ _ m Hq') as (q & Eq & Hrep); [lia|].
    unfold push_queue. fold m. rewrite Eq, exec_lift, exec_put_map, exec_state, exec_emit, exec_mret.
    do 3 eexists. split; [done|].
    set (node' := set_kv_queue (Some q) node).
    split; [|left; by apply paid_quiet]. split.
    + apply (harbor_ok_set_map (hash_store map0 name node') h); [done|].
      eapply names_ok_store; [done..|]. split; [|done]. apply (oqueue_ok_rep (Some q) _ Hrep).
      apply Forall_app. split; [done|]. apply Forall_singleton. by split.
    + intros b. change (set_map (hash_store map0 name node') (set_map map0 h))
        with (set_map (hash_store map0 name node') h).
      pose proof (held_set_map b (hash_store map0 name node') h) as H1.
      pose proof (names_store b map0 name node node' Hat) as H2. specialize (Hcnt b).
      unfold node_bufs in H2. cbn [node' set_kv_queue kv_queue] in H2.
      rewrite (oqueue_list_rep (Some q) _ Hrep), map_app, cnt_app in H2. change (List.map buffer [m]) with [msg] in H2.
      change (node_bufs node) with (map buffer (oqueue_list (kv_queue node))) in H2.
      match goal with |- context [gone ?e] => change (gone e) with (@nil (list Z)) end.
      rewrite cnt_nil. lia.
  - destruct (remote_send_handle_ok src (kv_value node) type session msg (set_map map0 h) Hok0 Hnv Hl)
      as (kept & h' & es & E & [Hok' Hbal] & Hset); [lia|].
    unfold exec. rewrite E. do 3 eexists. split; [done|]. split; [|exact Hset]. split; [done|]. intros b.
    pose proof (held_set_map b map0 h) as H1. specialize (Hcnt b). specialize (Hbal b). cbn [app]. lia.
Qed.

(** ** The callback *)

(** The commands have at least the two bytes before the argument; data from a
    connection is for HarborLink.v. *)
Definition input_ok (source : Z) (msg : harbor_input) : Prop :=
  match msg with
  | InSocket type _ _ _ => type ≠ SKYNET_SOCKET_TYPE_DATA
  | InHarbor msg => (2 ≤ length msg)%nat ∧ word_ok source
  | InSystem r => r_sz r = Z.of_nat (length (r_message r)) ∧ r_sz r < 2 ^ 31 ∧ word_ok (r_handle r)
  | InOther _ => True
  end.

Definition arrives (msg : harbor_input) : list (list Z) :=
  match msg with InSystem r => [r_message r] | _ => [] end.

Lemma balanced_quiet h es add :
  harbor_ok h → gone es = add → balanced h es h add.
Proof. intros H <-. split; [done|]. intros b. lia. Qed.

Lemma harbor_command_ok msg source h :
  harbor_ok h → (2 ≤ length msg)%nat → word_ok source → Z.of_nat (length (held h)) < QUEUE_MAX - 2 →
  ∃ h' es, harbor_command msg source h = Some (tt, h', es) ∧ balanced h es h' [] ∧
    settled source h es.
Proof.
  intros Hok Hl Hs Hmax. rewrite (exec_nil (harbor_command _ _)). unfold harbor_command.
  destruct (aget_is_Some msg 0) as [c ->]; [lia|]. rewrite exec_lift.
  destruct (c =? 78).
  - destruct (_ || _).
    + do 2 eexists. split; [done|]. split; [by apply balanced_quiet|left; by apply paid_quiet].
    + rewrite <- exec_nil. by apply update_name_ok.
  - destruct ((c =? 83) || (c =? 65)).
    + rewrite (proj2 (Z.ltb_ge _ _)) by lia. rewrite <- exec_nil.
      destruct (connect_ok (c =? 65) (drop 2 msg) h Hok) as (h' & es & E & Hb & Hp). exists h', es. split; [done|]. split; [done|by left].
    + do 2 eexists. split; [done|]. split; [by apply balanced_quiet|left; by apply paid_quiet].
Qed.

(** The handle that a message or a registration is about. *)
Definition addressee (source : Z) (msg : harbor_input) (h : harbor) : Z :=
  match msg with
  | InSystem r => if r_handle r =? 0 then value_of (r_name r) h else r_handle r
  | _ => source
  end.

(** C23: the harbor service loses and duplicates no message. Whatever
    messages for handles and names it gets, whatever commands of at least two bytes and
    whatever socket events other than data (harbor_delivers is about data; a package
    too short for its header is read out of bounds: short_package_reads_before), and
    whatever the state of its connections, no action faults, its queues, connections and
    name table stay well formed, and the buffers of messages are accounted for: those in
    the queues afterwards together with those freed or given to a service are those in
    the queues before and the one that came with the message. What is freed is exactly
    what was written to a socket, except when it is refused, with a log message, because
    the node it is for is down. A message has less than 2^31 bytes, at most 2^30 wait. *)
Theorem harbor_conserves dead session source msg h :
  harbor_ok h → input_ok source msg → Z.of_nat (length (held h)) < QUEUE_MAX - 2 →
  ∃ h' es, mainloop dead session source msg h = Some (tt, h', es) ∧ harbor_ok h' ∧
    held h' ++ gone es ≡ₚ held h ++ arrives msg ∧ settled (addressee source msg h) h es.
Proof.
  intros Hok Hin Hmax.
  assert (∃ h' es, mainloop dead session source msg h = Some (tt, h', es) ∧ balanced h es h' (arrives msg) ∧
    settled (addressee source msg h) h es) as (h' & es & E & [Hok' Hbal] & Hset).
  { assert (∀ es, gone es = [] → freed es = [] → sent es = [] →
      balanced h es h [] ∧ settled (addressee source msg h) h es) as Hquiet.
    { intros es H1 H2 H3. split; [by apply balanced_quiet|left; by apply paid_quiet]. }
    assert (∀ fd, ∃ id, harbor_id fd h = Some (id, h, [])) as Hid by (intros fd; by eexists).
    destruct msg as [type fd ud buf|text|r|type]; cbn [mainloop input_ok arrives] in *.
    - rewrite (proj2 (Z.eqb_neq _ _) Hin). destruct (Hid fd) as [id Eid].
      destruct ((type =? SKYNET_SOCKET_TYPE_ERROR) || (type =? SKYNET_SOCKET_TYPE_CLOSE)).
      { rewrite (exec_nil (_ ≫= _)), (exec_bind_pure _ _ _ _ _ Eid).
        destruct (id =? 0); do 2 eexists; (split; [done|]); by apply Hquiet. }
      destruct (type =? SKYNET_SOCKET_TYPE_CONNECT); [do 2 eexists; split; [done|]; by apply Hquiet|].
      destruct (type =? SKYNET_SOCKET_TYPE_WARNING); [|do 2 eexists; split; [done|]; by apply Hquiet].
      rewrite (exec_nil (_ ≫= _)), (exec_bind_pure _ _ _ _ _ Eid).
      destruct (id =? 0); do 2 eexists; (split; [done|]); by apply Hquiet.
    - destruct Hin as [Hl Hs]. by apply harbor_command_ok.
    - destruct Hin as (Hsz & Hl & Hw). rewrite Hsz in *.
      assert (∃ kept h' es, (if r_handle r =? 0
          then remote_send_name source (r_name r) (r_type r) session (r_message r) (Z.of_nat (length (r_message r)))
          else remote_send_handle source (r_handle r) (r_type r) session (r_message r) (Z.of_nat (length (r_message r)))) h
        = Some (kept, h', es) ∧ balanced h es h' (if kept : bool then [r_message r] else []) ∧
        settled (addressee source (InSystem r) h) h (es ++ if kept then [] else [Free (r_message r)]))
        as (kept & h' & es & E & [Hok' Hbal] & Hset).
      { cbn [addressee]. destruct (r_handle r =? 0); [by apply remote_send_name_ok|by apply remote_send_handle_ok]. }
      rewrite (exec_nil (_ ≫= _)), (exec_bind _ _ _ _ _ _ _ E). destruct kept.
      + rewrite exec_mret. rewrite app_nil_r in Hset. do 2 eexists. split; [done|]. by split.
      + unfold exec, emit, emits. do 2 eexists. split; [done|]. split; [|exact Hset]. split; [done|]. intros b.
        cbn [app]. rewrite gone_app, cnt_app. specialize (Hbal b). rewrite cnt_nil in Hbal.
        change (gone [Free (r_message r)]) with [r_message r]. lia.
    - rewrite (exec_nil (_ ;; _)), exec_emit.
      destruct (negb (session =? 0) && negb (type =? PTYPE_ERROR)); do 2 eexists; (split; [done|]);
        by apply Hquiet. }
  exists h', es. split; [done|]. split; [done|]. split; [|exact Hset]. apply cnt_perm. intros b. rewrite !cnt_app. apply Hbal.
Qed.

(** A message for a name that nobody has registered: it waits, and the master is
    asked. *)
Definition sample_input : harbor_input :=
  InSystem (RMsg (97 :: replicate 15 0) 0 [1; 2; 3] 3 10).

Lemma new_harbor_ok id slave : harbor_ok (Harbor id slave ∅ (h_s harbor_create)).
Proof.
  split; [by vm_compute| |by intros i l; cbn [h_map]; rewrite lookup_empty].
  intros j s Hs. unfold aget in Hs. destruct (0 <=? j); [|done]. cbn [h_s harbor_create] in Hs.
  apply lookup_replicate in Hs as [-> _]. by apply (oqueue_ok_rep None []).
Qed.

Lemma harbor_conserves_witness :
  ∃ h' es, mainloop (λ _, false) 7 16777221 sample_input (Harbor 1 16777217 ∅ (h_s harbor_create))
    = Some (tt, h', es) ∧ harbor_ok h' ∧ held h' ++ gone es ≡ₚ [] ++ [[1; 2; 3]] ∧
    settled 0 (Harbor 1 16777217 ∅ (h_s harbor_create)) es.
Proof.
  destruct (harbor_conserves (λ _, false) 7 16777221 sample_input (Harbor 1 16777217 ∅ (h_s harbor_create))
    (new_harbor_ok _ _)) as (h' & es & E & Hok & Hp).
  - by repeat split.
  - vm_compute. reflexivity.
  - exists h', es. split; [exact E|]. split; [exact Hok|]. exact Hp.
Defined.

(** ** What the code does not check *)

(** The length of a package is only compared with 2^24: with less than the 12 bytes
    of the header, [forward_local_messsage] reads before the buffer. *)
Lemma short_package_reads_before :
  (mainloop (λ _, false) 0 0 (InHarbor [65; 32; 53; 32; 50]) ;;
   mainloop (λ _, false) 0 0 (InSocket SKYNET_SOCKET_TYPE_DATA 5 8 [0; 0; 0; 4; 1; 2; 3; 4]))
    (Harbor 1 16777217 ∅ (h_s harbor_create)) = None.
Proof. vm_compute. reflexivity. Qed.

(** A name that is registered before its node is connected: the queue of the name
    becomes the queue of the connection, and the handle is not put into its
    messages. They are sent to handle 0 of the node. *)
Lemma name_queue_loses_handle :
  ∃ h es,
    (mainloop (λ _, false) 7 16777221 sample_input ;;
     mainloop (λ _, false) 0 33554439 (InHarbor [78; 32; 97]) ;;
     mainloop (λ _, false) 0 0 (InHarbor [65; 32; 53; 32; 50]))
      (Harbor 1 16777217 ∅ (h_s harbor_create)) = Some (tt, h, es) ∧
    SocketSend 5 (wire (HMsg (Header 16777221 (Z.shiftl 10 24) 7) [1; 2; 3] 3)) ∈ es.
Proof.
  eexists _, _. split; [vm_compute; reflexivity|]. vm_compute.
  repeat (left || right).
Qed.
