(* ===== verification/HarborNames.v ===== *)
(** Global names (service_harbor.c): messages to a name that is not known yet wait
    in their order until it is registered. *)
From S2P Require Import Prelude Bytes Buffer Ring Effect CString HarborQueue Harbor HarborExec HarborStream HarborLink HarborSafe.
Local Open Scope Z_scope.
Local Arguments wire : simpl never.

(** A message to a name; [o_dst] is the handle that the name gets. *)
Definition send_name (dead : Z → bool) (name : list Z) (m : out_msg) : M () :=
  mainloop dead (o_session m) (o_src m)
    (InSystem (RMsg name 0 (o_msg m) (Z.of_nat (length (o_msg m))) (o_type m))).

(** The command [N] from the service [handle]. *)
Definition register_name (dead : Z → bool) (name : list Z) (handle : Z) : M () :=
  mainloop dead 0 handle (InHarbor (78 :: 32 :: name)).

(** The name as the array of a message has it. *)
Definition padded (name : list Z) : list Z :=
  name ++ replicate (Z.to_nat (GLOBALNAME_LENGTH - Z.of_nat (length name))) 0.

Definition name_ok (name : list Z) : Prop := 0 < Z.of_nat (length name) < GLOBALNAME_LENGTH.

(** The question to the master for each message. *)
Definition query (h : harbor) (name : list Z) : effect :=
  Send 0 (h_slave h) PTYPE_TEXT 0 ([81; 32] ++ c_str name).

Definition unnamed (m : out_msg) : harbor_msg :=
  HMsg (Header (o_src m) (wrap 32 (Z.shiftl (o_type m) HANDLE_REMOTE_SHIFT)) (wrap 32 (o_session m)))
    (o_msg m) (Z.of_nat (length (o_msg m))).

Lemma add_handle_unnamed m : add_handle (o_dst m) (unnamed m) = packed m.
Proof. done. Qed.

(** The name is not registered, and the messages [l] wait for it. *)
Definition waiting (map : hashmap) (name : list Z) (l : list out_msg) : Prop :=
  match hash_search map name with
  | Some node => kv_value node = 0 ∧ oqueue_rep (kv_queue node) (List.map unnamed l)
  | None => l = []
  end.

Lemma waiting_find map name l :
  waiting map name l →
  node_at (find_node map name).2 name (find_node map name).1 ∧
  kv_value (find_node map name).1 = 0 ∧ oqueue_rep (kv_queue (find_node map name).1) (List.map unnamed l).
Proof.
  unfold waiting, find_node. destruct (hash_search map name) as [node|] eqn:E.
  - intros [H1 H2]. by split.
  - intros ->. split; [apply search_insert|]. done.
Qed.

Section names.
Context (dead : Z → bool).

Lemma send_name_waits pre name m h l :
  waiting (h_map h) name l → Z.of_nat (length l) < QUEUE_MAX - 1 →
  ∃ map, exec pre (send_name dead name m) h = Some (tt, set_map map h, pre ++ [query h name]) ∧
    waiting map name (l ++ [m]).
Proof.
  intros Hw Hl. destruct (waiting_find _ _ _ Hw) as (Hat & Hv & Hq).
  unfold send_name. cbn [mainloop r_handle r_name r_type r_message r_sz]. rewrite Z.eqb_refl.
  unfold remote_send_name. rewrite exec_assoc, exec_get_map.
  change (match hash_search (h_map h) name with Some node => (node, h_map h) | None => hash_insert (h_map h) name end)
    with (find_node (h_map h) name).
  destruct (find_node (h_map h) name) as [node map0]. cbn [fst snd] in *.
  rewrite exec_assoc, exec_put_map, Hv, Z.eqb_refl.
  assert (queue_rep (default new_queue (kv_queue node)) (List.map unnamed l)) as Hq'.
  { destruct (kv_queue node); cbn [oqueue_rep] in Hq; [done|]. rewrite Hq. apply new_queue_rep. }
  destruct (push_spec _ _ (unnamed m) Hq') as (q & Eq & Hrep); [by rewrite length_map|].
  unfold push_queue. unfold unnamed in Eq. rewrite exec_assoc, Eq, exec_lift.
  rewrite exec_assoc, exec_put_map, exec_assoc, exec_state, exec_assoc, exec_emit, exec_ret_bind, exec_mret.
  exists (hash_store map0 name (set_kv_queue (Some q) node)). split; [done|].
  unfold waiting. rewrite (search_store map0 name node (set_kv_queue (Some q) node) Hat eq_refl eq_refl).
  split; [done|]. cbn [set_kv_queue kv_queue oqueue_rep]. rewrite List.map_app. exact Hrep.
Qed.

Lemma send_names_wait name ms : ∀ pre h l,
  waiting (h_map h) name l → Z.of_nat (length l + length ms) < QUEUE_MAX →
  ∃ map, exec pre (for_each (send_name dead name) ms) h
    = Some (tt, set_map map h, pre ++ replicate (length ms) (query h name)) ∧
    waiting map name (l ++ ms).
Proof.
  induction ms as [|m ms IH]; intros pre h l Hw Hl; cbn [for_each length replicate] in *.
  - exists (h_map h). rewrite exec_mret, !app_nil_r. by destruct h.
  - destruct (send_name_waits pre name m h l Hw) as (map1 & E & Hw1); [lia|].
    rewrite (exec_split _ _ _ _ _ _ _ E).
    destruct (IH (pre ++ [query h name]) (set_map map1 h) (l ++ [m]) Hw1) as (map2 & E2 & Hw2);
      [rewrite length_app; cbn [length]; lia|].
    exists map2. rewrite <- (app_assoc pre) in E2. rewrite <- (app_assoc l) in Hw2. by split.
Qed.

(** The connection to the node of [handle] is up. *)
Definition link_is_up (h : harbor) (handle fd : Z) : Prop :=
  ∃ s, aget (h_s h) (Z.shiftr handle HANDLE_REMOTE_SHIFT) = Some s ∧ s_fd s = fd ∧ fd ≠ 0 ∧
    (s_status s = STATUS_HEADER ∨ s_status s = STATUS_CONTENT).

Lemma register_sends pre name handle fd h l :
  name_ok name → waiting (h_map h) (padded name) l → link_is_up h handle fd →
  Forall (λ m, out_ok (Z.shiftr handle HANDLE_REMOTE_SHIFT) m ∧ o_dst m = handle) l →
  ∃ map node, exec pre (register_name dead name handle) h
    = Some (tt, set_map map h, pre ++ sends fd (List.map packed l)) ∧
    hash_search map (padded name) = Some node ∧ kv_value node = handle.
Proof.
  intros [Hn0 Hn16] Hw (s & Hs & Hfd & Hfd0 & _) Hm. destruct (waiting_find _ _ _ Hw) as (Hat & Hv & Hq).
  unfold register_name. cbn [mainloop]. unfold harbor_command.
  change (aget (78 :: 32 :: name) 0) with (Some 78). rewrite exec_lift, Z.eqb_refl.
  change (drop 2 (78 :: 32 :: name)) with name. cbn [length].
  replace (Z.of_nat (S (S (length name))) - 2) with (Z.of_nat (length name)) by lia.
  rewrite (proj2 (Z.leb_gt _ _)), (proj2 (Z.leb_gt _ _)) by lia. cbn [orb].
  change (name ++ replicate (Z.to_nat (GLOBALNAME_LENGTH - Z.of_nat (length name))) 0) with (padded name).
  unfold update_name. rewrite exec_get_map.
  change (match hash_search (h_map h) (padded name) with Some node => (node, h_map h)
          | None => hash_insert (h_map h) (padded name) end) with (find_node (h_map h) (padded name)).
  destruct (find_node (h_map h) (padded name)) as [node map0]. cbn [fst snd] in *.
  set (node1 := KeyValue (kv_key node) (kv_hash node) handle (kv_queue node)).
  set (map1 := hash_store map0 (padded name) node1).
  pose proof (search_store map0 (padded name) node node1 Hat eq_refl eq_refl) as Hat1. fold map1 in Hat1.
  rewrite exec_put_map. change (kv_queue node1) with (kv_queue node).
  destruct (kv_queue node) as [queue|] eqn:Eq; cbn [oqueue_rep] in Hq.
  - destruct (drain_all_spec _ _ Hq) as (queue' & Ed & Hq').
    assert (exec pre (dispatch_name_queue node1) (set_map map1 h)
      = Some (set_kv_queue (Some queue') node1, set_map map1 h, pre ++ sends fd (List.map packed l))) as E.
    { unfold dispatch_name_queue. change (kv_queue node1) with (Some queue). rewrite exec_lift, exec_state.
      change (kv_value node1) with handle. rewrite (exec_get _ _ _ _ (set_map map1 h) Hs).
      rewrite Hfd, (proj2 (Z.eqb_neq _ _) Hfd0), Ed, exec_lift.
      assert (List.map (add_handle handle) (List.map unnamed l) = List.map packed l) as ->.
      { rewrite List.map_map. apply List.map_ext_in. intros m Hin%list_elem_of_In.
        rewrite Forall_forall in Hm. destruct (Hm m Hin) as [_ <-]. apply add_handle_unnamed. }
      rewrite (exec_bind _ _ _ _ _ _ _ (send_all_spec fd (List.map packed l) (set_map map1 h)
        ltac:(apply Forall_map; eapply Forall_impl; [exact Hm|]; intros m [H _]; by eapply packed_ok))).
      by rewrite exec_mret. }
    rewrite (exec_split _ _ _ _ _ _ _ E).
    rewrite (exec_bind _ _ _ _ _ _ _ (release_queue_spec (Some queue') [] _ Hq')), exec_get_map.
    unfold exec, put_map. do 2 eexists. split; [cbn [List.map]; by rewrite !app_nil_r|].
    split; [by eapply search_store|]. done.
  - apply List.map_eq_nil in Hq. subst l. rewrite exec_mret. exists map1, node1.
    split; [cbn; by rewrite app_nil_r|]. done.
Qed.

Lemma send_name_direct pre name m h node fd :
  hash_search (h_map h) name = Some node → kv_value node = o_dst m →
  h_id h ≠ Z.shiftr (o_dst m) HANDLE_REMOTE_SHIFT → 1 ≤ Z.shiftr (o_dst m) HANDLE_REMOTE_SHIFT < 256 →
  out_ok (Z.shiftr (o_dst m) HANDLE_REMOTE_SHIFT) m → link_is_up h (o_dst m) fd →
  exec pre (send_name dead name m) h
  = Some (tt, h, pre ++ [SocketSend fd (wire (packed m)); Free (o_msg m)]).
Proof.
  intros Hn Hv Hid Hb Hm (s & Hs & Hfd & Hfd0 & Hst). subst fd.
  rewrite <- (send_direct dead _ Hb pre m h s Hs Hid Hm Hfd0 Hst).
  unfold send_name, send_out. cbn [mainloop r_handle r_name r_type r_message r_sz].
  rewrite (out_dst_pos dead _ Hb m Hm), Z.eqb_refl. unfold remote_send_name.
  rewrite !exec_assoc, exec_get_map, Hn. rewrite !exec_assoc, exec_put_map, Hv, (out_dst_pos dead _ Hb m Hm).
  by destruct h.
Qed.
End names.

(** C24: a service can be addressed by its global name before the name is
    known. Messages to a name that nobody has registered wait, and the master is
    asked for it each time; when the name is registered for a service on a node
    that is connected, they are all sent to that service, in their order, and the
    messages after that go to it directly. *)
Theorem harbor_names dead name handle fd h ms m :
  name_ok name → hash_search (h_map h) (padded name) = None → link_is_up h handle fd →
  let b := Z.shiftr handle HANDLE_REMOTE_SHIFT in
  1 ≤ b < 256 → h_id h ≠ b → Z.of_nat (length ms) < QUEUE_MAX →
  Forall (λ m, out_ok b m ∧ o_dst m = handle) (m :: ms) →
  ∃ map, (for_each (send_name dead (padded name)) ms ;;
          register_name dead name handle ;;
          send_name dead (padded name) m) h
    = Some (tt, set_map map h,
        replicate (length ms) (query h (padded name)) ++ sends fd (List.map packed ms) ++
        [SocketSend fd (wire (packed m)); Free (o_msg m)]).
Proof.
  intros Hname Hnew Hup b Hb Hid Hl Hms. apply Forall_cons in Hms as [[Hm Hmd] Hms].
  assert (waiting (h_map h) (padded name) []) as Hw by (unfold waiting; by rewrite Hnew).
  destruct (send_names_wait dead (padded name) ms [] h [] Hw) as (map1 & E1 & Hw1); [by cbn|].
  destruct (register_sends dead (replicate (length ms) (query h (padded name))) name handle fd (set_map map1 h)
    ms Hname Hw1 Hup Hms) as (map2 & node & E2 & Hn & Hv).
  exists map2. rewrite (exec_nil (_ ≫= _)), (exec_split _ _ _ _ _ _ _ E1), (exec_split _ _ _ _ _ _ _ E2).
  subst handle. rewrite (send_name_direct dead _ (padded name) m (set_map map2 (set_map map1 h)) node fd Hn Hv Hid Hb Hm Hup).
  by rewrite <- app_assoc.
Qed.

(** Two messages for a name that is registered on node 2. *)
Definition sample_node : harbor :=
  upd 2 (Slave 5 None STATUS_HEADER 0 0 [0; 0; 0; 0] None) (harbor_node 1 16777217).

Lemma harbor_names_witness :
  ∃ map, (for_each (send_name (λ _, false) (padded [97; 98])) [sample_a; sample_a] ;;
          register_name (λ _, false) [97; 98] 33554439 ;;
          send_name (λ _, false) (padded [97; 98]) sample_a) sample_node
    = Some (tt, set_map map sample_node,
        replicate 2 (query sample_node (padded [97; 98])) ++ sends 5 (List.map packed [sample_a; sample_a]) ++
        [SocketSend 5 (wire (packed sample_a)); Free (o_msg sample_a)]).
Proof.
  apply (harbor_names (λ _, false) [97; 98] 33554439 5 sample_node [sample_a; sample_a] sample_a).
  - done.
  - reflexivity.
  - exists (Slave 5 None STATUS_HEADER 0 0 [0; 0; 0; 0] None). split; [reflexivity|]. split; [done|].
    split; [done|]. by left.
  - split; [vm_compute; discriminate|vm_compute; reflexivity].
  - done.
  - done.
  - repeat (apply Forall_cons; split); [..|by apply Forall_nil]; (split; [|done]);
      unfold out_ok, word_ok, INT_MIN, INT_MAX; cbn; repeat split; try lia; done.
Defined.
