(* ===== verification/Links.v ===== *)
(** Linked lists in memory.

    A pointer is an optional address; [next x] is the link field at the address
    [x], when there is a cell.  [path next p l e]: following the links from [p]
    visits the addresses [l] and ends at the pointer [e]. *)
From S2P Require Import Prelude.
Local Open Scope Z_scope.

Section path.
Implicit Types (next : Z → option (option Z)) (p e : option Z) (l : list Z) (x : Z).

Fixpoint path next p l e : Prop :=
  match l with
  | [] => p = e
  | x :: l => p = Some x ∧ ∃ q, next x = Some q ∧ path next q l e
  end.

Lemma path_cons next x q l e : next x = Some q → path next q l e → path next (Some x) (x :: l) e.
Proof. intros. split; [done|]. by exists q. Qed.

Lemma path_none next l : path next None l None → l = [].
Proof. destruct l; [done|]. by intros [? _]. Qed.

Lemma path_some next x l : path next (Some x) l None → ∃ l' q,
  l = x :: l' ∧ next x = Some q ∧ path next q l' None.
Proof. destruct l as [|y l]; [done|]. intros ([= ->] & q & Hq & Hp). by exists l, q. Qed.

(** Only the cells of the path matter. *)
Lemma path_ext next next' p l e :
  (∀ x, x ∈ l → next' x = next x) → path next p l e → path next' p l e.
Proof.
  revert p. induction l as [|x l IH]; intros p Hx; [done|]. intros (-> & q & Hq & Hp).
  split; [done|]. exists q. rewrite Hx by left. split; [done|]. apply IH; [|done]. intros y Hy. apply Hx. by right.
Qed.

Lemma path_app next p l1 l2 e :
  path next p (l1 ++ l2) e ↔ ∃ q, path next p l1 q ∧ path next q l2 e.
Proof.
  revert p. induction l1 as [|x l1 IH]; intros p; cbn [app path].
  - split; [by exists p|]. by intros (q & -> & ?).
  - split.
    + intros (-> & q & Hq & (r & H1 & H2)%IH). exists r. split; [|done]. split; [done|]. by exists q.
    + intros (r & (-> & q & Hq & H1) & H2). split; [done|]. exists q. split; [done|].
      apply IH. by exists r.
Qed.

Lemma path_snoc next p l x q : path next p l (Some x) → next x = Some q → path next p (l ++ [x]) q.
Proof. intros H1 Hq. apply path_app. exists (Some x). split; [done|]. split; [done|]. by exists q. Qed.

Lemma path_next next p l e x : path next p l e → x ∈ l → is_Some (next x).
Proof.
  revert p. induction l as [|y l IH]; intros p; [by intros _ ?%not_elem_of_nil|].
  intros (-> & q & Hq & Hp) [->|Hx]%elem_of_cons; [by exists q|]. by eapply IH.
Qed.

(** Taking the address [y] out of a path, behind [x]. *)
Lemma path_unlink next next' p l1 x y l2 e :
  path next p (l1 ++ x :: y :: l2) e →
  next' x = next y → (∀ z, z ∈ l1 ++ l2 → next' z = next z) →
  path next' p (l1 ++ x :: l2) e.
Proof.
  rewrite !path_app. intros (q & H1 & -> & q2 & Hx & -> & q3 & Hy & H2) Hn Hz.
  exists (Some x). split.
  - eapply path_ext; [|done]. intros z Hin. apply Hz, elem_of_app. by left.
  - apply (path_cons _ _ q3); [by rewrite Hn|]. eapply path_ext; [|done].
    intros z Hin. apply Hz, elem_of_app. by right.
Qed.
End path.

#[export] Hint Resolve path_cons path_snoc : cdb.

(** As many distinct addresses as there are cells, at most. *)
Lemma length_cells (l : list Z) (n : nat) :
  NoDup l → (∀ x, x ∈ l → 0 ≤ x < Z.of_nat n) → (length l ≤ n)%nat.
Proof.
  intros Hd Hr.
  pose proof (NoDup_submseteq l (seqZ 0 (Z.of_nat n)) Hd) as Hs.
  eapply submseteq_length in Hs; [|intros x Hx%Hr; apply elem_of_seqZ; lia].
  rewrite length_seqZ in Hs. lia.
Qed.

(** The concatenation of all lists but one. *)
Section others.
Context {A : Type}.
Implicit Types (ls : list (list A)) (l : list A).

Lemma concat_focus ls i l :
  ls !! i = Some l → concat ls ≡ₚ l ++ concat (delete i ls).
Proof.
  revert i. induction ls as [|l0 ls IH]; intros [|i] E; cbn in E; simplify_eq; [done|].
  cbn [concat delete list_delete]. rewrite (IH i E). rewrite !app_assoc.
  apply Permutation_app; [apply Permutation_app_comm|done].
Qed.

Lemma concat_nils (n : nat) : concat (replicate n ([] : list A)) = [].
Proof. by induction n. Qed.

Lemma concat_update ls i l l' :
  ls !! i = Some l → concat (<[i:=l']> ls) ≡ₚ l' ++ concat (delete i ls).
Proof.
  intros E. pose proof (lookup_lt_Some _ _ _ E) as Hl.
  rewrite (concat_focus (<[i:=l']> ls) i l') by (by apply list_lookup_insert_eq).
  f_equiv. clear. revert i. induction ls as [|l0 ls IH]; intros [|i]; [done..|]. cbn. by rewrite IH.
Qed.

Lemma concat_other ls i j l x :
  ls !! i = Some l → i ≠ j → x ∈ l → x ∈ concat (delete j ls).
Proof.
  revert i j. induction ls as [|l0 ls IH]; intros [|i] [|j] E Hne Hx; cbn in E; simplify_eq/=; try done.
  - apply elem_of_app. by left.
  - apply list_elem_of_In, in_concat. exists l. split; [|by apply list_elem_of_In].
    by eapply list_elem_of_In, list_elem_of_lookup_2.
  - apply elem_of_app. right. apply (IH i j); [done|lia|done].
Qed.
End others.
