(* ===== verification/Hashid.v ===== *)
(** The map from socket ids to slots (src/framework/skynet/service-src/hashid.h).

    [max] slots hold an id each, or -1, and the slots with the same id modulo the
    size of the table are linked.  A pointer to a slot is its index.  The map is a
    finite injective function from ids to slots ([id_rep]): every operation is the
    one on functions, and a map with less than [max] ids has a free slot. *)
From stdpp Require Import functions.
From S2P Require Import Prelude Links.
Local Open Scope Z_scope.

Record hashid_node := HNode { hn_id : Z; hn_next : option Z }.

Record hashid := HashId {
  hashmod : Z; cap : Z; count : Z; id_nodes : list hashid_node; id_hash : list (option Z);
}.

(** [while (hashcap < max) hashcap *= 2;] *)
Fixpoint hash_capacity (fuel : nat) (hashcap max : Z) : option Z :=
  match fuel with
  | O => None
  | S fuel =>
    if hashcap <? max then hashcap ← c_int (hashcap * 2); hash_capacity fuel hashcap max
    else Some hashcap
  end.

Definition hashid_init (max : Z) : option hashid :=
  hashcap ← hash_capacity 32 16 max;
  Some (HashId (hashcap - 1) max 0 (replicate (Z.to_nat max) (HNode (-1) None))
          (replicate (Z.to_nat hashcap) None)).

Definition hashid_clear (hi : hashid) : hashid := HashId 1 0 0 [] [].

Fixpoint chain_find (fuel : nat) (nodes : list hashid_node) (c : option Z) (i : Z) : option Z :=
  match c with
  | None => Some (-1)
  | Some p =>
    match fuel with
    | O => None
    | S fuel =>
      n ← aget nodes p;
      if hn_id n =? i then Some p else chain_find fuel nodes (hn_next n) i
    end
  end.

Definition hashid_lookup (hi : hashid) (i : Z) : option Z :=
  let h := Z.land i (hashmod hi) in
  c ← aget (id_hash hi) h;
  chain_find (length (id_nodes hi)) (id_nodes hi) c i.

(** [while (c->next)]: unlinks the node with the id behind [p]; [inl] is the end of
    the chain. *)
Fixpoint chain_unlink (fuel : nat) (nodes : list hashid_node) (p i : Z) :
    option (unit + Z * list hashid_node) :=
  match fuel with
  | O => None
  | S fuel =>
    c ← aget nodes p;
    match hn_next c with
    | None => Some (inl tt)
    | Some q =>
      temp ← aget nodes q;
      if hn_id temp =? i then
        nodes ← aset nodes p (HNode (hn_id c) (hn_next temp));
        Some (inr (q, nodes))
      else chain_unlink fuel nodes q i
    end
  end.

(** The code at the label [_clear]. *)
Definition clear_node (hi : hashid) (nodes : list hashid_node) (hash : list (option Z)) (c : Z) :
    option (Z * hashid) :=
  nodes ← aset nodes c (HNode (-1) None);
  Some (c, HashId (hashmod hi) (cap hi) (count hi - 1) nodes hash).

Definition hashid_remove (hi : hashid) (i : Z) : option (Z * hashid) :=
  let h := Z.land i (hashmod hi) in
  c ← aget (id_hash hi) h;
  match c with
  | None => Some (-1, hi)
  | Some p =>
    n ← aget (id_nodes hi) p;
    if hn_id n =? i then
      hash ← aset (id_hash hi) h (hn_next n);
      clear_node hi (id_nodes hi) hash p
    else
      r ← chain_unlink (length (id_nodes hi)) (id_nodes hi) p i;
      match r with
      | inl _ => Some (-1, hi)
      | inr (c, nodes) => clear_node hi nodes (id_hash hi) c
      end
  end.

(** The index of a free slot, from [i] on; the loop has [n] rounds left. *)
Fixpoint find_free (n : nat) (i : Z) (hi : hashid) (fd : Z) : option Z :=
  match n with
  | O => None
  | S n =>
    sum ← c_int (i + fd);
    let index := Z.rem sum (cap hi) in
    c ← aget (id_nodes hi) index;
    if hn_id c =? -1 then Some index else find_free n (i + 1) hi fd
  end.

Definition hashid_insert (hi : hashid) (i : Z) : option (Z * hashid) :=
  c ← find_free (Z.to_nat (cap hi)) 0 hi i;
  n ← aget (id_nodes hi) c;
  assert! bool_decide (hn_next n = None);
  let h := Z.land i (hashmod hi) in
  first ← aget (id_hash hi) h;
  nodes ← aset (id_nodes hi) c (HNode i first);
  hash ← aset (id_hash hi) h (Some c);
  Some (c, HashId (hashmod hi) (cap hi) (count hi + 1) nodes hash).

Definition hashid_full (hi : hashid) : bool := count hi =? cap hi.

(** ** The map is a function *)

Definition link (nodes : list hashid_node) (p : Z) : option (option Z) := hn_next <$> aget nodes p.
Definition slot_id (nodes : list hashid_node) (p : Z) : option Z := hn_id <$> aget nodes p.

(** [m] gives the slot of an id, [ch] the chain of each hash value. *)
Record id_rep (hi : hashid) (m : gmap Z Z) (ch : Z → list Z) : Prop := {
  ir_mod : ∃ k, 0 ≤ k ∧ hashmod hi = 2 ^ k - 1;
  ir_hash : Z.of_nat (length (id_hash hi)) = hashmod hi + 1;
  ir_cap : Z.of_nat (length (id_nodes hi)) = cap hi;
  ir_bucket : ∀ h, 0 ≤ h ≤ hashmod hi → ∃ c, aget (id_hash hi) h = Some c ∧
    path (link (id_nodes hi)) c (ch h) None ∧ NoDup (ch h);
  ir_in : ∀ h s, 0 ≤ h ≤ hashmod hi → s ∈ ch h → ∃ i,
    slot_id (id_nodes hi) s = Some i ∧ i ≠ -1 ∧ Z.land i (hashmod hi) = h;
  ir_map : ∀ i s, m !! i = Some s ↔ i ≠ -1 ∧ slot_id (id_nodes hi) s = Some i;
  ir_used : ∀ i s, i ≠ -1 → slot_id (id_nodes hi) s = Some i → s ∈ ch (Z.land i (hashmod hi));
  ir_free : ∀ s, slot_id (id_nodes hi) s = Some (-1) → link (id_nodes hi) s = Some None;
  ir_count : count hi = Z.of_nat (size m);
}.

(** What a client may rely on. *)
Definition id_map (hi : hashid) (m : gmap Z Z) : Prop := ∃ ch, id_rep hi m ch.

Section rep.
Context (hi : hashid) (m : gmap Z Z) (ch : Z → list Z) (R : id_rep hi m ch).
Implicit Types (i s h : Z).

Lemma bucket_range i : 0 ≤ Z.land i (hashmod hi) ≤ hashmod hi.
Proof.
  destruct (ir_mod _ _ _ R) as (k & Hk & ->). rewrite land_mask by done.
  pose proof (Z.mod_pos_bound i (2 ^ k)). lia.
Qed.

Lemma slot_range i s : m !! i = Some s → 0 ≤ s < cap hi.
Proof.
  intros (_ & Hs)%(ir_map _ _ _ R). unfold slot_id in Hs.
  destruct (aget (id_nodes hi) s) as [n|] eqn:E; [|done].
  apply aget_Some_range in E. by rewrite <- (ir_cap _ _ _ R).
Qed.

Lemma slot_inj i j s : m !! i = Some s → m !! j = Some s → i = j.
Proof. intros [_ Hi]%(ir_map _ _ _ R) [_ Hj]%(ir_map _ _ _ R). congruence. Qed.

Lemma no_minus_one : m !! (-1) = None.
Proof. destruct (m !! (-1)) as [s|] eqn:E; [|done]. by apply (ir_map _ _ _ R) in E as [? _]. Qed.

(** There are no more ids than slots. *)
Lemma id_count : Z.of_nat (size m) ≤ cap hi.
Proof.
  assert (length (map_to_list m).*2 ≤ length (id_nodes hi))%nat as Hl.
  { apply length_cells.
    - apply NoDup_fmap_2_strong; [|apply NoDup_map_to_list].
      intros [i s] [j s'] Hi%elem_of_map_to_list Hj%elem_of_map_to_list. cbn. intros <-.
      by rewrite (slot_inj i j s).
    - intros s ([i s'] & -> & Hi%elem_of_map_to_list)%list_elem_of_fmap. cbn.
      rewrite (ir_cap _ _ _ R). by eapply slot_range. }
  rewrite length_fmap, length_map_to_list in Hl. rewrite <- (ir_cap _ _ _ R). lia.
Qed.

Lemma chain_short h : 0 ≤ h ≤ hashmod hi → (length (ch h) ≤ length (id_nodes hi))%nat.
Proof.
  intros Hh. destruct (ir_bucket _ _ _ R h Hh) as (c & _ & _ & Hd).
  apply length_cells; [done|]. intros s Hs. destruct (ir_in _ _ _ R h s Hh Hs) as (i & Hi & Hn & _).
  rewrite (ir_cap _ _ _ R). apply (slot_range i). by apply (ir_map _ _ _ R).
Qed.
End rep.

Lemma chain_find_spec fuel nodes c l i :
  path (link nodes) c l None → (length l ≤ fuel)%nat → ∃ r, chain_find fuel nodes c i = Some r ∧
  ((r = -1 ∧ ∀ s, s ∈ l → slot_id nodes s ≠ Some i) ∨ (r ∈ l ∧ slot_id nodes r = Some i)).
Proof.
  revert c l. induction fuel as [|fuel IH]; intros c l Hp Hf.
  - destruct l; [|cbn in Hf; lia]. cbn in Hp. subst c. exists (-1). split; [done|]. left.
    split; [done|]. intros s []%not_elem_of_nil.
  - destruct c as [p|].
    2:{ apply path_none in Hp as ->. exists (-1). split; [done|]. left. split; [done|]. intros s []%not_elem_of_nil. }
    apply path_some in Hp as (l' & q & -> & Hq & Hp). unfold link in Hq. cbn [chain_find].
    destruct (aget nodes p) as [n|] eqn:En; [|done]. cbn in Hq. injection Hq as Hq. cbn [mbind option_bind].
    assert (slot_id nodes p = Some (hn_id n)) as Hs by (unfold slot_id; by rewrite En).
    destruct (Z.eqb_spec (hn_id n) i) as [Hi|Hi].
    + exists p. split; [done|]. right. split; [by left|]. by rewrite Hs, Hi.
    + rewrite Hq. destruct (IH q l' Hp) as (r & -> & Hr); [cbn in Hf; lia|].
      exists r. split; [done|]. destruct Hr as [[-> Hr]|[Hr Hr']].
      * left. split; [done|]. intros s [->|Hs']%elem_of_cons; [|by apply Hr]. rewrite Hs. congruence.
      * right. split; [by right|done].
Qed.

Lemma hashid_lookup_spec hi m i : id_map hi m → hashid_lookup hi i = Some (default (-1) (m !! i)).
Proof.
  intros [ch R]. unfold hashid_lookup. pose proof (bucket_range _ _ _ R i) as Hh.
  destruct (ir_bucket _ _ _ R _ Hh) as (c & -> & Hp & _). cbn [mbind option_bind].
  destruct (chain_find_spec (length (id_nodes hi)) (id_nodes hi) c _ i Hp (chain_short _ _ _ R _ Hh))
    as (r & -> & [[-> Hr]|[Hr Hr']]); f_equal.
  - destruct (m !! i) as [s|] eqn:E; [|done]. apply (ir_map _ _ _ R) in E as [Hi Hs].
    destruct (Hr s); [|done]. by apply (ir_used _ _ _ R).
  - destruct (ir_in _ _ _ R _ _ Hh Hr) as (j & Hj & Hn & _). rewrite Hr' in Hj. injection Hj as <-.
    by rewrite (proj2 (ir_map _ _ _ R i r)).
Qed.

(** ** The empty map *)

Lemma hash_capacity_spec fuel e max :
  max ≤ 2 ^ 30 → 0 ≤ e ≤ 30 → (30 - e < Z.of_nat fuel) → ∃ k, 0 ≤ k ∧
  hash_capacity fuel (2 ^ e) max = Some (2 ^ k).
Proof.
  revert e. induction fuel as [|fuel IH]; intros e Hm He Hf; [lia|]. cbn [hash_capacity].
  destruct (Z.ltb_spec (2 ^ e) max) as [Hl|Hl]; [|exists e; split; [lia|done]].
  assert (e < 30) by (destruct (Z.eq_dec e 30) as [->|]; lia).
  assert (2 ^ e * 2 = 2 ^ (e + 1)) as E by (rewrite Z.pow_add_r by lia; lia).
  assert (2 ^ (e + 1) ≤ 2 ^ 30) by (apply Z.pow_le_mono_r; lia).
  assert (0 < 2 ^ e) by (apply Z.pow_pos_nonneg; lia).
  rewrite c_int_Some by (unfold INT_MIN, INT_MAX; lia). cbn [mbind option_bind]. rewrite E.
  apply IH; lia.
Qed.

Lemma slot_id_replicate n s : slot_id (replicate n (HNode (-1) None)) s = Some (-1) ∨
  slot_id (replicate n (HNode (-1) None)) s = None.
Proof.
  unfold slot_id, aget. destruct (0 <=? s); [|by right].
  destruct (_ !! _) as [x|] eqn:E; [|by right]. apply lookup_replicate in E as [-> _]. by left.
Qed.

Lemma hashid_init_spec max :
  0 ≤ max ≤ 2 ^ 30 → ∃ hi, hashid_init max = Some hi ∧ cap hi = max ∧ id_map hi ∅.
Proof.
  intros Hm. unfold hashid_init. change 16 with (2 ^ 4).
  destruct (hash_capacity_spec 32 4 max) as (k & Hk & ->); [lia..|]. cbn [mbind option_bind].
  eexists. split; [done|]. split; [done|]. exists (λ _, []).
  assert (0 < 2 ^ k) as Hp by (apply Z.pow_pos_nonneg; lia).
  split; cbn [hashmod cap count id_nodes id_hash]; rewrite ?length_replicate; try lia.
  - by exists k.
  - intros h Hh. exists None. split; [|split; [done|constructor]].
    unfold aget. rewrite (proj2 (Z.leb_le _ _)) by lia. apply lookup_replicate. split; [done|lia].
  - intros h s _ []%not_elem_of_nil.
  - intros i s. rewrite lookup_empty. split; [done|]. intros [Hi Hs].
    destruct (slot_id_replicate (Z.to_nat max) s); congruence.
  - intros i s Hi Hs. destruct (slot_id_replicate (Z.to_nat max) s); congruence.
  - intros s Hs. unfold slot_id, link in *. destruct (aget _ s) as [n|] eqn:E; [|done].
    unfold aget in E. destruct (0 <=? s); [|done]. by apply lookup_replicate in E as [-> _].
  - by rewrite map_size_empty.
Qed.

(** ** Insertion *)

Lemma slot_id_aset nodes c n nodes' s :
  aset nodes c n = Some nodes' →
  slot_id nodes' s = if decide (s = c) then Some (hn_id n) else slot_id nodes s.
Proof.
  intros E. unfold slot_id. case_decide as Hs; [subst; by rewrite (aget_aset_eq _ _ _ _ E)|].
  by rewrite (aget_aset_ne _ _ _ _ _ E).
Qed.

Lemma link_aset nodes c n nodes' s :
  aset nodes c n = Some nodes' →
  link nodes' s = if decide (s = c) then Some (hn_next n) else link nodes s.
Proof.
  intros E. unfold link. case_decide as Hs; [subst; by rewrite (aget_aset_eq _ _ _ _ E)|].
  by rewrite (aget_aset_ne _ _ _ _ _ E).
Qed.

(** A map that is not full has a free slot. *)
Lemma free_slot hi m ch :
  id_rep hi m ch → Z.of_nat (size m) < cap hi → ∃ s, slot_id (id_nodes hi) s = Some (-1).
Proof.
  intros R Hsz. set (ids := hn_id <$> id_nodes hi).
  destruct (decide (-1 ∈ ids)) as [Hin|Hin].
  { apply list_elem_of_lookup in Hin as (k & Hk). exists (Z.of_nat k). unfold slot_id.
    by rewrite aget_nat, <- list_lookup_fmap. }
  exfalso.
  assert (∀ k i, ids !! k = Some i → m !! i = Some (Z.of_nat k)) as Hm.
  { intros k i Hk. apply (ir_map _ _ _ R). split.
    - intros ->. by apply Hin, list_elem_of_lookup_2 with k.
    - unfold slot_id. by rewrite aget_nat, <- list_lookup_fmap. }
  assert (NoDup ids) as Hd.
  { apply NoDup_alt. intros k1 k2 i E1%Hm E2%Hm. rewrite E1 in E2. injection E2. lia. }
  assert (size (list_to_set ids : gset Z) ≤ size (dom m))%nat as Hle.
  { apply subseteq_size. intros i (k & Hk%Hm)%elem_of_list_to_set%list_elem_of_lookup.
    apply elem_of_dom. by eexists. }
  rewrite size_list_to_set, size_dom in Hle by done. subst ids. rewrite length_fmap in Hle.
  pose proof (ir_cap _ _ _ R). lia.
Qed.

Lemma find_free_spec n i hi fd :
  0 < cap hi → Z.of_nat (length (id_nodes hi)) = cap hi →
  0 ≤ i → 0 ≤ fd → i + Z.of_nat n + fd ≤ INT_MAX →
  (∃ k, i ≤ k < i + Z.of_nat n ∧ slot_id (id_nodes hi) ((k + fd) mod cap hi) = Some (-1)) →
  ∃ s, find_free n i hi fd = Some s ∧ slot_id (id_nodes hi) s = Some (-1).
Proof.
  intros Hc Hl. revert i. induction n as [|n IH]; intros i Hi Hfd Hmax (k & Hk & Hs); [lia|].
  cbn [find_free]. rewrite c_int_Some by (unfold INT_MIN, INT_MAX in *; lia). cbn [mbind option_bind].
  rewrite Z.rem_mod_nonneg by lia. pose proof (Z.mod_pos_bound (i + fd) (cap hi) Hc).
  destruct (aget_is_Some (id_nodes hi) ((i + fd) mod cap hi)) as [c Ec]; [lia|].
  rewrite Ec. cbn [mbind option_bind]. destruct (Z.eqb_spec (hn_id c) (-1)) as [E|E].
  - eexists. split; [done|]. unfold slot_id. by rewrite Ec, <- E.
  - apply IH; [lia..|]. exists k. split; [|done]. destruct (Z.eq_dec k i) as [->|]; [|lia].
    unfold slot_id in Hs. rewrite Ec in Hs. cbn in Hs. congruence.
Qed.

(** The rounds of the search visit every slot. *)
Lemma visits c fd s : 0 < c → 0 ≤ s < c → ∃ k, 0 ≤ k < c ∧ (k + fd) mod c = s.
Proof.
  intros Hc Hs. exists ((s - fd) mod c). split; [by apply Z.mod_pos_bound|].
  rewrite Zplus_mod_idemp_l. replace (s - fd + fd) with s by lia. by apply Z.mod_small.
Qed.

Lemma insert_rep hi m ch i s first nodes hash :
  id_rep hi m ch → i ≠ -1 → m !! i = None → slot_id (id_nodes hi) s = Some (-1) →
  aget (id_hash hi) (Z.land i (hashmod hi)) = Some first →
  aset (id_nodes hi) s (HNode i first) = Some nodes →
  aset (id_hash hi) (Z.land i (hashmod hi)) (Some s) = Some hash →
  id_rep (HashId (hashmod hi) (cap hi) (count hi + 1) nodes hash) (<[i := s]> m)
    (<[Z.land i (hashmod hi) := s :: ch (Z.land i (hashmod hi))]> ch).
Proof.
  intros R Hi Hm Hs Hf En Eh. set (h := Z.land i (hashmod hi)) in *.
  assert (∀ h', 0 ≤ h' ≤ hashmod hi → s ∉ ch h') as Hfresh.
  { intros h' Hh' Hin. destruct (ir_in _ _ _ R h' s Hh' Hin) as (j & Hj & Hn & _). congruence. }
  split; cbn [hashmod cap count id_nodes id_hash].
  - apply R.
  - rewrite (length_aset _ _ _ _ Eh). apply R.
  - rewrite (length_aset _ _ _ _ En). apply R.
  - intros h' Hh'. destruct (ir_bucket _ _ _ R h' Hh') as (c & Hc & Hp & Hd).
    assert (path (link nodes) c (ch h') None) as Hp'.
    { eapply path_ext; [|done]. intros x Hx. rewrite (link_aset _ _ _ _ _ En), decide_False; [done|].
      intros ->. by eapply Hfresh. }
    destruct (decide (h' = h)) as [->|Hne].
    + rewrite fn_lookup_insert. exists (Some s). rewrite (aget_aset_eq _ _ _ _ Eh). split; [done|].
      rewrite Hf in Hc. injection Hc as <-. split; [|constructor; [by apply Hfresh|done]].
      eapply path_cons; [|done]. rewrite (link_aset _ _ _ _ _ En), decide_True; done.
    + rewrite fn_lookup_insert_ne by done. exists c. by rewrite (aget_aset_ne _ _ _ _ _ Eh).
  - intros h' x Hh' Hx. rewrite (slot_id_aset _ _ _ _ _ En). destruct (decide (x = s)) as [->|Hne].
    + exists i. split; [done|]. split; [done|]. destruct (decide (h' = h)) as [->|Hh]; [done|].
      rewrite fn_lookup_insert_ne in Hx by done. by destruct (Hfresh h').
    + apply (ir_in _ _ _ R); [done|]. destruct (decide (h' = h)) as [->|Hh].
      * rewrite fn_lookup_insert in Hx. by apply elem_of_cons in Hx as [?|?].
      * by rewrite fn_lookup_insert_ne in Hx.
  - intros j x. rewrite (slot_id_aset _ _ _ _ _ En). destruct (decide (j = i)) as [->|Hj].
    + rewrite lookup_insert_eq. destruct (decide (x = s)) as [->|Hx]; [done|]. split; [congruence|].
      intros Hx'%(ir_map _ _ _ R). congruence.
    + rewrite lookup_insert_ne by done. destruct (decide (x = s)) as [->|Hx]; [|apply R].
      cbn. split; [intros [? E]%(ir_map _ _ _ R); congruence|intros [_ [= ->]]; done].
  - intros j x Hj. rewrite (slot_id_aset _ _ _ _ _ En). destruct (decide (x = s)) as [->|Hx].
    + intros [= <-]. cbn. fold h. rewrite fn_lookup_insert. by left.
    + intros Hin%(ir_used _ _ _ R); [|done]. destruct (decide (Z.land j (hashmod hi) = h)) as [E|E].
      * rewrite E, fn_lookup_insert. right. by rewrite <- E.
      * by rewrite fn_lookup_insert_ne.
  - intros x. rewrite (slot_id_aset _ _ _ _ _ En), (link_aset _ _ _ _ _ En).
    destruct (decide (x = s)) as [->|Hx]; [cbn; congruence|apply R].
  - rewrite map_size_insert_None by done. rewrite (ir_count _ _ _ R). lia.
Qed.

Lemma hashid_insert_spec hi m i :
  id_map hi m → 0 ≤ i → i + cap hi ≤ INT_MAX → m !! i = None → Z.of_nat (size m) < cap hi →
  ∃ s hi', hashid_insert hi i = Some (s, hi') ∧ id_map hi' (<[i := s]> m) ∧ cap hi' = cap hi ∧
    (∀ j, m !! j ≠ Some s).
Proof.
  intros [ch R] Hi Hmax Hm Hsz. pose proof (ir_cap _ _ _ R) as Hcap.
  destruct (free_slot _ _ _ R Hsz) as (f & Hf).
  assert (0 ≤ f < cap hi) as Hfr.
  { unfold slot_id in Hf. destruct (aget _ f) eqn:E; [|done]. apply aget_Some_range in E. lia. }
  destruct (visits (cap hi) i f) as (k & Hk & Ek); [lia..|].
  destruct (find_free_spec (Z.to_nat (cap hi)) 0 hi i) as (s & Es & Hs); [lia..| |].
  { exists k. split; [lia|]. by rewrite Ek. }
  unfold hashid_insert. rewrite Es. cbn [mbind option_bind].
  pose proof (ir_free _ _ _ R s Hs) as Hl. unfold slot_id in Hs. unfold link in Hl.
  destruct (aget (id_nodes hi) s) as [n|] eqn:En; [|done]. cbn in Hl. injection Hl as Hl.
  cbn [mbind option_bind]. rewrite bool_decide_eq_true_2 by done.
  change (c_assert true ≫= ?f) with (f tt). cbn beta.
  pose proof (bucket_range _ _ _ R i) as Hh. destruct (ir_bucket _ _ _ R _ Hh) as (c & Ec & _).
  rewrite Ec. cbn [mbind option_bind].
  pose proof (aget_Some_range _ _ _ En). pose proof (aget_Some_range _ _ _ Ec).
  rewrite !aset_Some by done. cbn [mbind option_bind]. eexists s, _. split; [done|]. split; [|split; [done|]].
  - eexists. eapply insert_rep; eauto with cdb; [lia|]. unfold slot_id. by rewrite En.
  - intros j Hj. apply (ir_map _ _ _ R) in Hj as [Hj1 Hj2]. unfold slot_id in Hj2. rewrite En in Hj2.
    cbn in *. congruence.
Qed.

(** ** Removal *)

(** The nodes without the slot [q] of a chain that becomes [l']. *)
Lemma remove_rep hi m ch i q nodes hash c l' cnt :
  id_rep hi m ch → m !! i = Some q →
  length nodes = length (id_nodes hi) → length hash = length (id_hash hi) →
  cnt = count hi - 1 →
  slot_id nodes q = Some (-1) → link nodes q = Some None →
  (∀ s, s ≠ q → slot_id nodes s = slot_id (id_nodes hi) s) →
  (∀ s, s ∉ ch (Z.land i (hashmod hi)) → link nodes s = link (id_nodes hi) s) →
  (∀ h, h ≠ Z.land i (hashmod hi) → aget hash h = aget (id_hash hi) h) →
  aget hash (Z.land i (hashmod hi)) = Some c → path (link nodes) c l' None →
  ch (Z.land i (hashmod hi)) ≡ₚ q :: l' →
  id_rep (HashId (hashmod hi) (cap hi) cnt nodes hash) (delete i m)
    (<[Z.land i (hashmod hi) := l']> ch).
Proof.
  intros R Hm Hln Hlh -> Hq Hlq Hid Hlk Hhash Hc Hp HP. set (h := Z.land i (hashmod hi)) in *.
  pose proof (bucket_range _ _ _ R i) as Hh. change (Z.land i (hashmod hi)) with h in Hh.
  pose proof (proj1 (ir_map _ _ _ R i q) Hm) as [Hi Hqi].
  destruct (ir_bucket _ _ _ R h Hh) as (_ & _ & _ & Hd). rewrite HP in Hd.
  apply NoDup_cons in Hd as [Hql' Hd].
  assert (∀ x, x ∈ ch h ↔ x = q ∨ x ∈ l') as Hin by (intros x; by rewrite HP, elem_of_cons).
  split; cbn [hashmod cap count id_nodes id_hash].
  - apply R.
  - rewrite Hlh. apply R.
  - rewrite Hln. apply R.
  - intros h' Hh'. destruct (decide (h' = h)) as [->|Hne].
    + rewrite fn_lookup_insert. by exists c.
    + rewrite fn_lookup_insert_ne, Hhash by done.
      destruct (ir_bucket _ _ _ R h' Hh') as (c' & Hc' & Hp' & Hd'). exists c'. split; [done|]. split; [|done].
      eapply path_ext; [|done]. intros x Hx. apply Hlk. intros Hx'.
      destruct (ir_in _ _ _ R h' x Hh' Hx) as (j & Hj & _ & Ej), (ir_in _ _ _ R h x Hh Hx') as (j' & Hj' & _ & Ej').
      congruence.
  - intros h' x Hh' Hx. assert (x ∈ ch h' ∧ x ≠ q) as [Hx' Hxq].
    { destruct (decide (h' = h)) as [->|Hne].
      - rewrite fn_lookup_insert in Hx. split; [apply Hin; by right|by intros ->].
      - rewrite fn_lookup_insert_ne in Hx by done. split; [done|]. intros ->.
        destruct (ir_in _ _ _ R h' q Hh' Hx) as (j & Hj & _ & Ej). apply Hne. rewrite <- Ej. unfold h. congruence. }
    rewrite Hid by done. by apply (ir_in _ _ _ R).
  - intros j x. destruct (decide (x = q)) as [->|Hx].
    + rewrite Hq, lookup_delete_Some. split; [|intros [? [= <-]]; done].
      intros [Hne Hj]. by destruct (Hne (slot_inj _ _ _ R _ _ _ Hm Hj)).
    + rewrite Hid, lookup_delete_Some, (ir_map _ _ _ R) by done. split; [by intros [_ ?]|].
      intros [Hj Hs]. split; [|done]. intros <-.
      pose proof (proj2 (ir_map _ _ _ R i x) (conj Hj Hs)). congruence.
  - intros j x Hj. destruct (decide (x = q)) as [->|Hx]; [rewrite Hq; congruence|].
    rewrite Hid by done. intros Hs. pose proof (ir_used _ _ _ R j x Hj Hs) as Hu.
    destruct (decide (Z.land j (hashmod hi) = h)) as [E|E]; [|by rewrite fn_lookup_insert_ne].
    rewrite E in Hu |- *. rewrite fn_lookup_insert. by apply Hin in Hu as [?|?].
  - intros x Hx. destruct (decide (x = q)) as [->|Hne]; [done|].
    rewrite Hid in Hx by done. rewrite Hlk; [by apply R|]. intros Hx'.
    destruct (ir_in _ _ _ R h x Hh Hx') as (j & Hj & Hn & _). congruence.
  - rewrite (ir_count _ _ _ R), map_size_delete_Some by (by eexists).
    assert (0 < Z.of_nat (size m)); [|lia].
    destruct (decide (size m = 0%nat)) as [E|E]; [|lia].
    apply map_size_empty_iff in E. by rewrite E, lookup_empty in Hm.
Qed.

(** The search for the node before the one with the id [i]. *)
Lemma chain_unlink_spec fuel nodes p l i :
  path (link nodes) (Some p) (p :: l) None → (length l < fuel)%nat →
  slot_id nodes p ≠ Some i →
  (chain_unlink fuel nodes p i = Some (inl tt) ∧ ∀ s, s ∈ p :: l → slot_id nodes s ≠ Some i) ∨
  ∃ l1 x q l2 nodes' n e, p :: l = l1 ++ x :: q :: l2 ∧ slot_id nodes q = Some i ∧
    slot_id nodes x = Some n ∧ link nodes q = Some e ∧
    aset nodes x (HNode n e) = Some nodes' ∧ chain_unlink fuel nodes p i = Some (inr (q, nodes')).
Proof.
  revert p l. induction fuel as [|fuel IH]; intros p l (_ & c & Hc & Hp) Hf Hpi; [lia|].
  cbn [chain_unlink]. unfold link, slot_id in Hc, Hpi. destruct (aget nodes p) as [n|] eqn:En; [|done].
  cbn in Hc, Hpi. injection Hc as Hc. cbn [mbind option_bind].
  assert (slot_id nodes p = Some (hn_id n)) as Hsp by (unfold slot_id; by rewrite En).
  destruct c as [q|].
  2:{ apply path_none in Hp as ->. left. rewrite Hc. split; [done|].
      intros s [->|[]%not_elem_of_nil]%elem_of_cons. rewrite Hsp. congruence. }
  rewrite Hc. pose proof Hp as Hpq. apply path_some in Hp as (l' & e & -> & He & Hp). unfold link in He.
  destruct (aget nodes q) as [t|] eqn:Et; [|done]. cbn in He. injection He as He. cbn [mbind option_bind].
  destruct (Z.eqb_spec (hn_id t) i) as [Hi|Hi].
  - right. pose proof (aget_Some_range _ _ _ En). exists [], p, q, l'.
    eexists (<[Z.to_nat p := HNode (hn_id n) e]> nodes), (hn_id n), e.
    unfold slot_id, link. rewrite Et, En, He. cbn. rewrite aset_Some, Hi, He by done. done.
  - destruct (IH q l') as [[E Hs]|(l1 & x & r & l2 & nodes' & n' & e' & El & Hrest)]; [done| | | |].
    + cbn in Hf. lia.
    + unfold slot_id. rewrite Et. cbn. congruence.
    + left. split; [done|]. intros s [->|Hin]%elem_of_cons; [|by apply Hs]. rewrite Hsp. congruence.
    + right. exists (p :: l1), x, r, l2, nodes', n', e'. rewrite El. done.
Qed.

Lemma clear_node_spec hi m ch i q nodes hash c l' :
  id_rep hi m ch → m !! i = Some q →
  length nodes = length (id_nodes hi) → length hash = length (id_hash hi) →
  (∀ s, slot_id nodes s = slot_id (id_nodes hi) s) →
  (∀ s, s ∉ ch (Z.land i (hashmod hi)) → link nodes s = link (id_nodes hi) s) →
  (∀ h, h ≠ Z.land i (hashmod hi) → aget hash h = aget (id_hash hi) h) →
  aget hash (Z.land i (hashmod hi)) = Some c → path (link nodes) c l' None →
  ch (Z.land i (hashmod hi)) ≡ₚ q :: l' →
  ∃ hi', clear_node hi nodes hash q = Some (q, hi') ∧ id_map hi' (delete i m) ∧ cap hi' = cap hi.
Proof.
  intros R Hm Hln Hlh Hid Hlk Hhash Hc Hp HP. unfold clear_node.
  pose proof (slot_range _ _ _ R _ _ Hm) as Hr. rewrite <- (ir_cap _ _ _ R), <- Hln in Hr.
  destruct (aset nodes q (HNode (-1) None)) as [nodes'|] eqn:E; [|by rewrite aset_Some in E].
  cbn [mbind option_bind]. eexists. split; [done|]. split; [|done].
  assert (q ∉ l') as Hql.
  { destruct (ir_bucket _ _ _ R _ (bucket_range _ _ _ R i)) as (_ & _ & _ & Hd). rewrite HP in Hd.
    by apply NoDup_cons in Hd as [? _]. }
  eexists. eapply (remove_rep hi m ch i q nodes' hash c l'); try done.
  - by rewrite (length_aset _ _ _ _ E).
  - by rewrite (slot_id_aset _ _ _ _ _ E), decide_True.
  - by rewrite (link_aset _ _ _ _ _ E), decide_True.
  - intros s Hs. rewrite (slot_id_aset _ _ _ _ _ E), decide_False; done.
  - intros s Hs. rewrite (link_aset _ _ _ _ _ E), decide_False; [by apply Hlk|].
    intros ->. apply Hs. rewrite HP. by left.
  - eapply path_ext; [|done]. intros x Hx. rewrite (link_aset _ _ _ _ _ E), decide_False; [done|].
    by intros ->.
Qed.

Lemma hashid_remove_spec hi m i :
  id_map hi m →
  match m !! i with
  | None => hashid_remove hi i = Some (-1, hi)
  | Some s => ∃ hi', hashid_remove hi i = Some (s, hi') ∧ id_map hi' (delete i m) ∧ cap hi' = cap hi
  end.
Proof.
  intros [ch R]. unfold hashid_remove. pose proof (bucket_range _ _ _ R i) as Hh.
  destruct (ir_bucket _ _ _ R _ Hh) as (c & Ec & Hp & Hd). rewrite Ec. cbn [mbind option_bind].
  pose proof (chain_short _ _ _ R _ Hh) as Hsh.
  assert (∀ s, m !! i = Some s → s ∈ ch (Z.land i (hashmod hi))) as Hin.
  { intros s [? ?]%(ir_map _ _ _ R). by apply (ir_used _ _ _ R). }
  destruct c as [p|].
  2:{ apply path_none in Hp. destruct (m !! i) as [s|] eqn:Em; [|done].
      specialize (Hin s eq_refl). rewrite Hp in Hin. by apply elem_of_nil in Hin. }
  pose proof Hp as Hp0. apply path_some in Hp as (l & e & El & He & Hp). rewrite El in Hp0, Hsh, Hd.
  destruct (ir_in _ _ _ R (Z.land i (hashmod hi)) p Hh) as (j & Hj & Hj1 & Hjh); [rewrite El; by left|].
  pose proof Hj as Hj'. unfold slot_id in Hj'. pose proof He as He'. unfold link in He'.
  destruct (aget (id_nodes hi) p) as [n|] eqn:En; [|done]. cbn in Hj', He'.
  injection Hj' as Hj'. injection He' as He'. cbn [mbind option_bind]. rewrite Hj', He'.
  destruct (Z.eqb_spec j i) as [->|Hne].
  - assert (m !! i = Some p) as Hm by (by apply (ir_map _ _ _ R)). rewrite Hm.
    pose proof (aget_Some_range _ _ _ Ec) as Hrc.
    destruct (aset (id_hash hi) (Z.land i (hashmod hi)) e) as [hash|] eqn:Eh; [|by rewrite aset_Some in Eh].
    cbn [mbind option_bind].
    eapply (clear_node_spec hi m ch i p (id_nodes hi) hash e l); try done.
    + by rewrite (length_aset _ _ _ _ Eh).
    + intros h Hn. by rewrite (aget_aset_ne _ _ _ _ _ Eh).
    + by rewrite (aget_aset_eq _ _ _ _ Eh).
    + by rewrite El.
  - destruct (chain_unlink_spec (length (id_nodes hi)) (id_nodes hi) p l i Hp0)
      as [[E Hs]|(l1 & x & q & l2 & nodes' & n' & e' & El' & Hq & Hx & Hqe & Ea & E)].
    + cbn in Hsh. lia.
    + rewrite Hj. congruence.
    + rewrite E. cbn [mbind option_bind]. destruct (m !! i) as [s|] eqn:Em; [|done].
      exfalso. apply (Hs s); [rewrite <- El; by apply Hin|]. by apply (ir_map _ _ _ R).
    + rewrite E. cbn [mbind option_bind].
      assert (i ≠ -1) as Hi.
      { intros ->. destruct (ir_in _ _ _ R (Z.land (-1) (hashmod hi)) q Hh) as (k & Hk & Hn & _).
        - rewrite El, El'. apply elem_of_app. right. right. by left.
        - congruence. }
      assert (m !! i = Some q) as Hm by (by apply (ir_map _ _ _ R)). rewrite Hm.
      eapply (clear_node_spec hi m ch i q nodes' (id_hash hi) (Some p) (l1 ++ x :: l2)); try done.
      * by rewrite (length_aset _ _ _ _ Ea).
      * intros s. rewrite (slot_id_aset _ _ _ _ _ Ea). case_decide; [subst; by rewrite Hx|done].
      * intros s Hs. rewrite (link_aset _ _ _ _ _ Ea), decide_False; [done|].
        intros ->. apply Hs. rewrite El, El'. apply elem_of_app. right. by left.
      * eapply (path_unlink (link (id_nodes hi))); [by rewrite <- El'| |].
        -- by rewrite (link_aset _ _ _ _ _ Ea), decide_True.
        -- intros z Hz. rewrite (link_aset _ _ _ _ _ Ea), decide_False; [done|]. intros ->.
           rewrite El' in Hd. apply NoDup_app in Hd as (_ & Hd1 & Hd2).
           apply elem_of_app in Hz as [Hz|Hz]; [apply (Hd1 x Hz); by left|].
           apply NoDup_cons in Hd2 as [Hd2 _]. apply Hd2. by right.
      * rewrite El, El'. symmetry. rewrite <- !Permutation_middle. constructor.
Qed.
