(* ===== verification/Databuffer.v ===== *)
(** The buffers of the gate (src/framework/skynet/service-src/databuffer.h).

    A buffer is a linked list of the blocks that the socket gave, of which the
    first has been read up to [db_offset].  The nodes of all the buffers of a gate
    come from one pool: [mp_mem] is its memory, a pointer to a node is an index, and
    a pool of [MESSAGEPOOL] more nodes is allocated when the free list is empty.
    The operations are actions on a buffer and the pool; what they emit are the
    blocks that [skynet_free] gets. *)
From S2P Require Import Prelude Bytes Effect Links.
Local Open Scope Z_scope.

Definition MESSAGEPOOL : Z := 1023.

Record message := Message { m_buffer : option (list Z); m_size : Z; m_next : option Z }.

Record databuffer := DataBuffer {
  db_header : Z; db_offset : Z; db_size : Z; db_head : option Z; db_tail : option Z;
}.

(** [mp_pool]: the first node of each pool. *)
Record messagepool := MessagePool {
  mp_pool : list Z; mp_freelist : option Z; mp_mem : list message;
}.

Notation D := (eff (databuffer * messagepool) (list Z)).

(** The memory filled with zeros. *)
Definition databuffer_zero : databuffer := DataBuffer 0 0 0 None None.
Definition messagepool_zero : messagepool := MessagePool [] None [].

Definition messagepool_free (pool : messagepool) : messagepool := messagepool_zero.

Definition set_db (db : databuffer) : D () := '(_, mp) ← state; put (db, mp).

Definition _return_message : D () :=
  '(db, mp) ← state;
  p ← lift (db_head db);
  m ← lift (aget (mp_mem mp) p);
  db ← match m_next m with
       | None =>
         lift (c_assert (bool_decide (db_tail db = Some p))) ;;
         mret (DataBuffer (db_header db) (db_offset db) (db_size db) None None)
       | Some q => mret (DataBuffer (db_header db) (db_offset db) (db_size db) (Some q) (db_tail db))
       end;
  emits (option_list (m_buffer m)) ;;
  mem ← lift (aset (mp_mem mp) p (Message None 0 (mp_freelist mp)));
  put (db, MessagePool (mp_pool mp) (Some p) mem).

(** [memcpy] of [n] bytes from [offset] of a block. *)
Definition block_read (block : list Z) (offset n : Z) : option (list Z) :=
  if (0 <=? offset) && (0 <=? n) && (offset + n <=? Z.of_nat (length block))
  then Some (take (Z.to_nat n) (drop (Z.to_nat offset) block)) else None.

Definition set_offset (offset : Z) (db : databuffer) : databuffer :=
  DataBuffer (db_header db) offset (db_size db) (db_head db) (db_tail db).
Definition set_size (size : Z) (db : databuffer) : databuffer :=
  DataBuffer (db_header db) (db_offset db) size (db_head db) (db_tail db).
Definition set_header (header : Z) (db : databuffer) : databuffer :=
  DataBuffer header (db_offset db) (db_size db) (db_head db) (db_tail db).

Fixpoint read_loop (fuel : nat) (sz : Z) : D (list Z) :=
  match fuel with
  | O => lift None
  | S fuel =>
    '(db, mp) ← state;
    p ← lift (db_head db);
    current ← lift (aget (mp_mem mp) p);
    buffer ← lift (m_buffer current);
    bsz ← lift (c_int (m_size current - db_offset db));
    if sz <? bsz then
      data ← lift (block_read buffer (db_offset db) sz);
      set_db (set_offset (db_offset db + sz) db) ;;
      mret data
    else if bsz =? sz then
      data ← lift (block_read buffer (db_offset db) sz);
      set_db (set_offset 0 db) ;;
      _return_message ;;
      mret data
    else
      data ← lift (block_read buffer (db_offset db) bsz);
      _return_message ;;
      '(db, _) ← state;
      set_db (set_offset 0 db) ;;
      rest ← read_loop fuel (sz - bsz);
      mret (data ++ rest)
  end.

(** The bytes that are copied to the caller's buffer. *)
Definition databuffer_read (sz : Z) : D (list Z) :=
  '(db, mp) ← state;
  lift (c_assert (sz <=? db_size db)) ;;
  set_db (set_size (db_size db - sz) db) ;;
  read_loop (S (length (mp_mem mp))) sz.

(** The nodes of a new pool at [base]; the first is not put on the free list. *)
Definition new_pool (base : Z) : list message :=
  Message None 0 None ::
  map (λ i, Message None 0 (if i =? MESSAGEPOOL - 1 then None else Some (base + i + 1)))
    (seqZ 1 (MESSAGEPOOL - 1)).

Definition take_message (mp : messagepool) : option (Z * messagepool) :=
  match mp_freelist mp with
  | Some p =>
    m ← aget (mp_mem mp) p;
    Some (p, MessagePool (mp_pool mp) (m_next m) (mp_mem mp))
  | None =>
    let base := Z.of_nat (length (mp_mem mp)) in
    Some (base, MessagePool (base :: mp_pool mp) (Some (base + 1)) (mp_mem mp ++ new_pool base))
  end.

Definition databuffer_push (data : list Z) (sz : Z) : D () :=
  '(db, mp) ← state;
  '(p, mp) ← lift (take_message mp);
  mem ← lift (aset (mp_mem mp) p (Message (Some data) sz None));
  size ← lift (c_int (db_size db + sz));
  '(db, mem) ← match db_head db with
               | None =>
                 lift (c_assert (bool_decide (db_tail db = None))) ;;
                 mret (DataBuffer (db_header db) (db_offset db) size (Some p) (Some p), mem)
               | Some _ =>
                 t ← lift (db_tail db);
                 m ← lift (aget mem t);
                 mem ← lift (aset mem t (Message (m_buffer m) (m_size m) (Some p)));
                 mret (DataBuffer (db_header db) (db_offset db) size (db_head db) (Some p), mem)
               end;
  put (db, MessagePool (mp_pool mp) (mp_freelist mp) mem).

(** [plen[0] << 24] of a byte above 127 sets the sign bit. *)
Definition plen_value (header_size : Z) (plen : list Z) : option Z :=
  p0 ← aget plen 0; p1 ← aget plen 1;
  if header_size =? 2 then Some (Z.lor (Z.shiftl p0 8) p1)
  else
    p2 ← aget plen 2; p3 ← aget plen 3;
    Some (swrap 32 (Z.lor (Z.lor (Z.lor (Z.shiftl p0 24) (Z.shiftl p1 16)) (Z.shiftl p2 8)) p3)).

Definition databuffer_readheader (header_size : Z) : D Z :=
  '(db, _) ← state;
  let complete : D Z :=
    '(db, _) ← state;
    mret (if db_size db <? db_header db then -1 else db_header db) in
  if db_header db =? 0 then
    if db_size db <? header_size then mret (-1)
    else
      plen ← databuffer_read header_size;
      header ← lift (plen_value header_size plen);
      '(db, _) ← state;
      set_db (set_header header db) ;;
      complete
  else complete.

Definition databuffer_reset : D () := '(db, _) ← state; set_db (set_header 0 db).

Fixpoint clear_loop (fuel : nat) : D () :=
  '(db, _) ← state;
  match db_head db with
  | None => mret tt
  | Some _ =>
    match fuel with
    | O => lift None
    | S fuel => _return_message ;; clear_loop fuel
    end
  end.

Definition databuffer_clear : D () :=
  '(_, mp) ← state;
  clear_loop (length (mp_mem mp)) ;;
  set_db databuffer_zero.

(** ** The buffer is a list of blocks, and a string *)

Definition mlink (mem : list message) (p : Z) : option (option Z) := m_next <$> aget mem p.

(** The node [p] holds the block [d]. *)
Definition holds (mem : list message) (p : Z) (d : list Z) : Prop :=
  ∃ m, aget mem p = Some m ∧ m_buffer m = Some d ∧ m_size m = Z.of_nat (length d) ∧ m_size m ≤ INT_MAX.

Record chain_ok (mem : list message) (head tail : option Z) (L : list Z) (Ds : list (list Z)) : Prop := {
  co_path : path (mlink mem) head L None;
  co_tail : tail = last L;
  co_cells : Forall2 (holds mem) L Ds;
}.

(** The nodes [U] are in use, all the others are free. *)
Definition pool_ok (mp : messagepool) (U : list Z) : Prop :=
  ∃ F, path (mlink (mp_mem mp)) (mp_freelist mp) F None ∧
    F ++ U ≡ₚ seqZ 0 (Z.of_nat (length (mp_mem mp))).

(** The bytes of the buffer; the blocks [Ds] are the ones to be freed. *)
Record buf_rep (db : databuffer) (mp : messagepool) (L : list Z) (Ds : list (list Z)) (bytes : list Z) : Prop := {
  br_chain : chain_ok (mp_mem mp) (db_head db) (db_tail db) L Ds;
  br_offset : 0 ≤ db_offset db ≤ Z.of_nat (length (default [] (head Ds)));
  br_bytes : bytes = drop (Z.to_nat (db_offset db)) (concat Ds);
  br_size : db_size db = Z.of_nat (length bytes);
}.

(** The nodes of [R] are as before. *)
Definition same_nodes (mp mp' : messagepool) (R : list Z) : Prop :=
  ∀ p, p ∈ R → aget (mp_mem mp') p = aget (mp_mem mp) p.

Lemma same_nodes_trans mp1 mp2 mp3 R : same_nodes mp1 mp2 R → same_nodes mp2 mp3 R → same_nodes mp1 mp3 R.
Proof. intros H1 H2 p Hp. by rewrite H2, H1. Qed.

Lemma chain_ok_ext mem mem' head tail L Ds :
  (∀ p, p ∈ L → aget mem' p = aget mem p) → chain_ok mem head tail L Ds → chain_ok mem' head tail L Ds.
Proof.
  intros Hm [Hp Ht Hc]. split; [|done|].
  - eapply path_ext; [|done]. intros p Hin. unfold mlink. by rewrite Hm.
  - clear Hp Ht. induction Hc as [|p d L Ds (m & E & Hd) _ IH]; constructor.
    + exists m. by rewrite Hm by left.
    + apply IH. intros q Hq. apply Hm. by right.
Qed.

Lemma buf_rep_same db mp mp' L Ds bytes :
  same_nodes mp mp' L → buf_rep db mp L Ds bytes → buf_rep db mp' L Ds bytes.
Proof. intros Hs []. split; try done. by eapply chain_ok_ext. Qed.

Lemma buf_rep_zero mp : buf_rep databuffer_zero mp [] [] [].
Proof. repeat split; cbn; try lia. constructor. Qed.

Lemma pool_ok_zero : pool_ok messagepool_zero [].
Proof. by exists []. Qed.

Lemma pool_nodup mp U : pool_ok mp U → NoDup U ∧ ∀ p, p ∈ U → 0 ≤ p < Z.of_nat (length (mp_mem mp)).
Proof.
  intros (F & _ & HP). pose proof (NoDup_seqZ 0 (Z.of_nat (length (mp_mem mp)))) as Hd.
  rewrite <- HP in Hd. apply NoDup_app in Hd as (_ & _ & Hd). split; [done|].
  intros p Hp. assert (p ∈ seqZ 0 (Z.of_nat (length (mp_mem mp)))) as Hin; [|apply elem_of_seqZ in Hin; lia].
  rewrite <- HP. apply elem_of_app. by right.
Qed.

Lemma pool_ok_perm mp U U' : U ≡ₚ U' → pool_ok mp U → pool_ok mp U'.
Proof. intros HU (F & Hp & HP). exists F. split; [done|]. by rewrite <- HU. Qed.

Lemma pool_short mp L R : pool_ok mp (L ++ R) → (length L ≤ length (mp_mem mp))%nat.
Proof.
  intros [Hd Hr]%pool_nodup. apply NoDup_app in Hd as (Hd & _ & _). apply length_cells; [done|].
  intros p Hp. apply Hr, elem_of_app. by left.
Qed.

(** ** Returning the first node *)

Lemma aset_other (mem : list message) p m mem' q : aset mem p m = Some mem' → q ≠ p → aget mem' q = aget mem q.
Proof. intros E Hq. by rewrite (aget_aset_ne _ _ _ _ _ E). Qed.

Lemma return_message_spec db mp p L d Ds R :
  chain_ok (mp_mem mp) (db_head db) (db_tail db) (p :: L) (d :: Ds) → pool_ok mp ((p :: L) ++ R) →
  ∃ head tail mp', _return_message (db, mp) =
      Some (tt, (DataBuffer (db_header db) (db_offset db) (db_size db) head tail, mp'), [d]) ∧
    chain_ok (mp_mem mp') head tail L Ds ∧ pool_ok mp' (L ++ R) ∧ same_nodes mp mp' R.
Proof.
  intros [(Eh & q & Hq & Hp) Ht Hc] Hpool. inversion Hc as [|? ? ? ? (m & Em & Hm & _) Hc']; subst.
  pose proof (pool_nodup _ _ Hpool) as [Hd _]. cbn [app] in Hd.
  apply NoDup_cons in Hd as [Hpn Hd].
  unfold mlink in Hq. rewrite Em in Hq. cbn in Hq. injection Hq as Hq.
  destruct (aset (mp_mem mp) p (Message None 0 (mp_freelist mp))) as [mem|] eqn:Ea.
  2:{ rewrite aset_Some in Ea; [done|]. by eapply aget_Some_range. }
  assert (∀ x, x ∈ L ++ R → aget mem x = aget (mp_mem mp) x) as Hsame.
  { intros x Hx. eapply aset_other; [done|]. by intros ->. }
  set (tail := match L with [] => None | _ => db_tail db end).
  exists q, tail, (MessagePool (mp_pool mp) (Some p) mem). split; [|split; [|split]].
  - unfold _return_message. rewrite (exec_nil (_ ≫= _)), exec_state, Eh, exec_lift, Em, exec_lift, Hq.
    destruct q as [q|].
    + apply path_some in Hp as (L' & e & -> & _). cbn beta iota.
      rewrite exec_ret_bind, Hm. cbn [option_list]. rewrite exec_emits, Ea, exec_lift. done.
    + apply path_none in Hp as ->. rewrite Ht. cbn [last]. rewrite bool_decide_eq_true_2 by done.
      change (c_assert true) with (Some tt). rewrite exec_assoc, exec_lift, exec_ret_bind, Hm.
      cbn [option_list]. rewrite exec_emits, Ea, exec_lift. done.
  - eapply chain_ok_ext; [intros x Hx; apply Hsame, elem_of_app; by left|].
    split; [done| |done]. unfold tail. rewrite Ht. by destruct L.
  - destruct Hpool as (F & HF & HP). exists (p :: F). cbn [mp_mem mp_freelist].
    rewrite (length_aset _ _ _ _ Ea). split.
    + apply (path_cons _ _ (mp_freelist mp)); [unfold mlink; by rewrite (aget_aset_eq _ _ _ _ Ea)|].
      eapply path_ext; [|done]. intros x Hx. unfold mlink. rewrite (aset_other _ _ _ _ _ Ea); [done|].
      intros ->. pose proof (NoDup_seqZ 0 (Z.of_nat (length (mp_mem mp)))) as HN. rewrite <- HP in HN.
      apply NoDup_app in HN as (_ & HN & _). apply (HN p Hx). by left.
    + rewrite <- HP. cbn [app]. by rewrite Permutation_middle.
  - intros x Hx. apply Hsame, elem_of_app. by right.
Qed.

(** ** Reading *)

Lemma block_read_spec d off n :
  0 ≤ off → 0 ≤ n → off + n ≤ Z.of_nat (length d) →
  block_read d off n = Some (take (Z.to_nat n) (drop (Z.to_nat off) d)).
Proof.
  intros. unfold block_read.
  by rewrite !(proj2 (Z.leb_le _ _)) by lia.
Qed.

(** The buffer before its size and its header are looked at. *)
Record chain_rep (db : databuffer) (mp : messagepool) (L : list Z) (Ds : list (list Z)) (bytes : list Z) : Prop := {
  cr_chain : chain_ok (mp_mem mp) (db_head db) (db_tail db) L Ds;
  cr_offset : 0 ≤ db_offset db ≤ Z.of_nat (length (default [] (head Ds)));
  cr_bytes : bytes = drop (Z.to_nat (db_offset db)) (concat Ds);
}.

(** What an operation on a buffer does with the blocks and the nodes. *)
Definition kept (R : list Z) (s : databuffer * messagepool) (Ds : list (list Z))
    (s' : databuffer * messagepool) (freed : list (list Z)) (bytes' : list Z) : Prop :=
  ∃ L' Ds', chain_rep s'.1 s'.2 L' Ds' bytes' ∧ freed ++ Ds' = Ds ∧
    pool_ok s'.2 (L' ++ R) ∧ same_nodes s.2 s'.2 R.

Lemma drop_take_app (d rest : list Z) (off n : nat) :
  (off + n ≤ length d)%nat → take n (drop off (d ++ rest)) = take n (drop off d).
Proof. intros. rewrite drop_app_le by lia. apply take_app_le. rewrite length_drop. lia. Qed.

Lemma read_loop_spec fuel n db mp L Ds bytes R :
  chain_rep db mp L Ds bytes → pool_ok mp (L ++ R) → (length L < fuel)%nat →
  0 < n ≤ Z.of_nat (length bytes) →
  ∃ db' mp' freed, read_loop fuel n (db, mp) = Some (take (Z.to_nat n) bytes, (db', mp'), freed) ∧
    kept R (db, mp) Ds (db', mp') freed (drop (Z.to_nat n) bytes) ∧
    db_header db' = db_header db ∧ db_size db' = db_size db.
Proof.
  revert n db mp L Ds bytes. induction fuel as [|fuel IH]; intros n db mp L Ds bytes [Hc Ho ->] Hpool Hf Hn; [lia|].
  destruct Ds as [|d Ds].
  { cbn in Hn. rewrite drop_nil in Hn. cbn in Hn. lia. }
  destruct Hc as [Hp Ht Hcells]. inversion Hcells as [|p ? L' ? (m & Em & Hm & Hs & Hmax) Hc']; subst.
  change (0 ≤ db_offset db ≤ Z.of_nat (length d)) in Ho. cbn [concat] in *.
  rewrite length_drop, length_app in Hn.
  pose proof Hp as (Eh & _). cbn [read_loop]. rewrite (exec_nil (_ ≫= _)), exec_state.
  rewrite Eh, exec_lift, Em, exec_lift, Hm, exec_lift, Hs.
  rewrite c_int_Some by (unfold INT_MIN, INT_MAX in *; lia). rewrite exec_lift.
  set (off := db_offset db) in *. set (bsz := Z.of_nat (length d) - off).
  destruct (Z.ltb_spec n bsz) as [Hlt|Hge]; [|destruct (Z.eqb_spec bsz n) as [He|Hne]].
  - rewrite block_read_spec by lia. rewrite exec_lift. unfold set_db at 1.
    rewrite exec_assoc, exec_state, exec_put. eexists _, _, []. split; [|split].
    + rewrite exec_mret, drop_take_app by lia. done.
    + exists (p :: L'), (d :: Ds). cbn [fst snd]. split; [|done]. split; [by split|cbn; lia|].
      cbn [set_offset db_offset concat]. rewrite drop_drop. f_equal. lia.
    + done.
  - rewrite block_read_spec by lia. rewrite exec_lift. unfold set_db at 1.
    rewrite exec_assoc, exec_state, exec_put.
    destruct (return_message_spec (set_offset 0 db) mp p L' d Ds R) as (hd & tl & mp' & E & Hco & Hpo & Hsn);
      [by split|done|].
    rewrite (exec_bind _ _ _ _ _ _ _ E), exec_mret. eexists _, _, _. split; [|split].
    + by rewrite drop_take_app by lia.
    + exists L', Ds. cbn [fst snd]. split; [|done]. split; [done|cbn; lia|].
      cbn [db_offset set_offset]. rewrite drop_drop, drop_app_ge by lia.
      replace (Z.to_nat off + Z.to_nat n - length d)%nat with 0%nat by lia. done.
    + done.
  - rewrite block_read_spec by lia. rewrite exec_lift.
    destruct (return_message_spec db mp p L' d Ds R) as (hd & tl & mp' & E & Hco & Hpo & Hsn); [by split|done|].
    rewrite (exec_bind _ _ _ _ _ _ _ E), exec_state. unfold set_db at 1.
    rewrite exec_assoc, exec_state, exec_put.
    destruct (IH (n - bsz) (set_offset 0 (DataBuffer (db_header db) off (db_size db) hd tl)) mp' L' Ds (concat Ds))
      as (db' & mp2 & freed & E2 & (L2 & Ds2 & Hch & Hfr & Hpo2 & Hsn2) & Hh & Hz).
    + split; [done|cbn; lia|done].
    + done.
    + cbn in Hf. lia.
    + lia.
    + rewrite (exec_bind _ _ _ _ _ _ _ E2), exec_mret. eexists _, _, _. split; [|split].
      * rewrite drop_app_le, take_app_ge by (rewrite ?length_drop; lia).
        rewrite length_drop, (take_ge (drop _ d)) by (rewrite length_drop; lia).
        by replace (Z.to_nat n - (length d - Z.to_nat off))%nat with (Z.to_nat (n - bsz)) by lia.
      * exists L2, Ds2. cbn [fst snd] in *. split; [|split; [|split; [done|by eapply same_nodes_trans]]].
        -- rewrite drop_drop, drop_app_ge by lia.
           replace (Z.to_nat off + Z.to_nat n - length d)%nat with (Z.to_nat (n - bsz)) by lia. done.
        -- cbn [app]. by rewrite Hfr.
      * done.
Qed.

Lemma buf_chain db mp L Ds bytes : buf_rep db mp L Ds bytes → chain_rep db mp L Ds bytes.
Proof. by intros []. Qed.

Lemma databuffer_read_spec n db mp L Ds bytes R :
  buf_rep db mp L Ds bytes → pool_ok mp (L ++ R) → 0 < n ≤ Z.of_nat (length bytes) →
  ∃ db' mp' freed L' Ds', databuffer_read n (db, mp) = Some (take (Z.to_nat n) bytes, (db', mp'), freed) ∧
    buf_rep db' mp' L' Ds' (drop (Z.to_nat n) bytes) ∧ freed ++ Ds' = Ds ∧
    pool_ok mp' (L' ++ R) ∧ same_nodes mp mp' R ∧ db_header db' = db_header db.
Proof.
  intros Hb Hpool Hn. unfold databuffer_read. rewrite (exec_nil (_ ≫= _)), exec_state.
  rewrite (br_size _ _ _ _ _ Hb), (proj2 (Z.leb_le _ _)) by lia. change (c_assert true) with (Some tt).
  rewrite exec_lift. unfold set_db. rewrite exec_assoc, exec_state, exec_put.
  destruct (read_loop_spec (S (length (mp_mem mp))) n
    (set_size (Z.of_nat (length bytes) - n) db) mp L Ds bytes R)
    as (db' & mp' & freed & E & (L' & Ds' & [H1 H2 H3] & Hfr & Hpo & Hsn) & Hh & Hz).
  - apply buf_chain in Hb. destruct Hb. by split.
  - done.
  - pose proof (pool_short _ _ _ Hpool). lia.
  - done.
  - unfold exec. rewrite E. exists db', mp', freed, L', Ds'. split; [done|]. split; [|done].
    split; [done..|]. rewrite Hz, length_drop. cbn [set_size db_size]. lia.
Qed.

(** ** A free node *)

Lemma new_pool_cell (mem : list message) i :
  1 ≤ i < MESSAGEPOOL →
  mlink (mem ++ new_pool (Z.of_nat (length mem))) (Z.of_nat (length mem) + i) =
  Some (if i =? MESSAGEPOOL - 1 then None else Some (Z.of_nat (length mem) + i + 1)).
Proof.
  intros Hi. unfold mlink, new_pool.
  replace (Z.of_nat (length mem) + i) with (Z.of_nat (length mem + S (Z.to_nat (i - 1)))) by lia.
  rewrite aget_nat, lookup_app_r by lia.
  replace (length mem + S (Z.to_nat (i - 1)) - length mem)%nat with (S (Z.to_nat (i - 1))) by lia.
  match goal with |- context [map ?f ?l] => change (map f l) with (f <$> l) end.
  rewrite lookup_cons_ne_0 by done. cbn [pred]. rewrite list_lookup_fmap, lookup_seqZ_lt by lia.
  cbn [fmap option_fmap option_map m_next]. replace (1 + Z.of_nat (Z.to_nat (i - 1))) with i by lia.
  destruct (i =? MESSAGEPOOL - 1); [done|]. do 2 f_equal. lia.
Qed.

Lemma new_pool_path (mem : list message) (n : nat) :
  Z.of_nat n < MESSAGEPOOL - 1 →
  path (mlink (mem ++ new_pool (Z.of_nat (length mem))))
    (Some (Z.of_nat (length mem) + MESSAGEPOOL - 1 - Z.of_nat n))
    (seqZ (Z.of_nat (length mem) + MESSAGEPOOL - 1 - Z.of_nat n) (Z.of_nat (S n))) None.
Proof.
  induction n as [|n IH]; intros Hn; rewrite seqZ_cons by lia.
  - apply (path_cons _ _ None).
    + replace (Z.of_nat (length mem) + MESSAGEPOOL - 1 - Z.of_nat 0) with (Z.of_nat (length mem) + (MESSAGEPOOL - 1)) by lia.
      rewrite new_pool_cell by (unfold MESSAGEPOOL; lia). by rewrite Z.eqb_refl.
    + done.
  - specialize (IH ltac:(lia)).
    apply (path_cons _ _ (Some (Z.of_nat (length mem) + MESSAGEPOOL - 1 - Z.of_nat n))).
    + replace (Z.of_nat (length mem) + MESSAGEPOOL - 1 - Z.of_nat (S n)) with
        (Z.of_nat (length mem) + (MESSAGEPOOL - 1 - Z.of_nat (S n))) by lia.
      rewrite new_pool_cell by lia. rewrite (proj2 (Z.eqb_neq _ _)) by lia. do 2 f_equal. lia.
    + replace (Z.succ (Z.of_nat (length mem) + MESSAGEPOOL - 1 - Z.of_nat (S n))) with
        (Z.of_nat (length mem) + MESSAGEPOOL - 1 - Z.of_nat n) by lia.
      by replace (Z.pred (Z.of_nat (S (S n)))) with (Z.of_nat (S n)) by lia.
Qed.

Lemma length_new_pool base : Z.of_nat (length (new_pool base)) = MESSAGEPOOL.
Proof.
  unfold new_pool. cbn [length]. rewrite length_map, length_seqZ.
  unfold MESSAGEPOOL. lia.
Qed.

Lemma aget_app_l {A} (a b : list A) i x : aget a i = Some x → aget (a ++ b) i = Some x.
Proof.
  intros E. pose proof (aget_Some_range _ _ _ E). unfold aget in *. destruct (0 <=? i); [|done].
  rewrite lookup_app_l by lia. done.
Qed.

Lemma take_message_spec mp U :
  pool_ok mp U → ∃ p mp', take_message mp = Some (p, mp') ∧
    pool_ok mp' (p :: U) ∧ same_nodes mp mp' U.
Proof.
  intros (F & HF & HP). unfold take_message. destruct (mp_freelist mp) as [p|].
  - apply path_some in HF as (F' & q & -> & Hq & HF). unfold mlink in Hq.
    destruct (aget (mp_mem mp) p) as [m|]; [|done]. cbn in Hq. injection Hq as Hq. cbn [mbind option_bind].
    eexists _, _. split; [done|]. split; [|done]. exists F'. rewrite Hq. split; [done|].
    cbn [mp_mem]. rewrite <- HP. cbn [app]. by rewrite <- Permutation_middle.
  - apply path_none in HF as ->. cbn [app] in HP. eexists _, _. split; [done|].
    set (base := Z.of_nat (length (mp_mem mp))) in *. split.
    + exists (seqZ (base + 1) (MESSAGEPOOL - 1)). cbn [mp_mem mp_freelist]. split.
      * pose proof (new_pool_path (mp_mem mp) 1021) as Hp. fold base in Hp.
        replace (base + MESSAGEPOOL - 1 - Z.of_nat 1021) with (base + 1) in Hp by (unfold MESSAGEPOOL; lia).
        apply Hp. unfold MESSAGEPOOL. lia.
      * rewrite length_app, Nat2Z.inj_add, length_new_pool. fold base.
        rewrite (seqZ_app 0 base MESSAGEPOOL) by (unfold base, MESSAGEPOOL; lia).
        rewrite (seqZ_cons (0 + base)) by (unfold MESSAGEPOOL; lia). rewrite HP.
        rewrite Z.add_0_l, <- Permutation_middle, <- Permutation_middle. constructor.
        rewrite Permutation_app_comm. done.
    + intros x Hx. assert (is_Some (aget (mp_mem mp) x)) as [m Em].
      { apply aget_is_Some. rewrite HP in Hx. apply elem_of_seqZ in Hx. unfold base in Hx. lia. }
      rewrite Em. by apply aget_app_l.
Qed.

(** ** Pushing *)

Lemma pool_ok_aset mp U p m mem :
  pool_ok mp U → p ∈ U → aset (mp_mem mp) p m = Some mem →
  pool_ok (MessagePool (mp_pool mp) (mp_freelist mp) mem) U.
Proof.
  intros (F & HF & HP) Hp E. exists F. cbn [mp_mem mp_freelist]. rewrite (length_aset _ _ _ _ E).
  split; [|done]. eapply path_ext; [|done]. intros x Hx. unfold mlink. rewrite (aset_other _ _ _ _ _ E); [done|].
  intros ->. pose proof (NoDup_seqZ 0 (Z.of_nat (length (mp_mem mp)))) as HN. rewrite <- HP in HN.
  apply NoDup_app in HN as (_ & HN & _). by apply (HN p Hx).
Qed.

Lemma used_cell mp U p : pool_ok mp U → p ∈ U → ∃ m, aget (mp_mem mp) p = Some m.
Proof. intros H Hp. apply aget_is_Some. by apply (pool_nodup _ _ H). Qed.

Lemma chain_nil_inv mem hd tl Ds : chain_ok mem hd tl [] Ds → hd = None ∧ tl = None ∧ Ds = [].
Proof. intros [Hp Ht Hc]. by inversion Hc. Qed.

(** The last node gets a successor. *)
Lemma chain_append mem0 mem hd tl L t Ds data p m :
  chain_ok mem0 hd tl (L ++ [t]) Ds → p ∉ L ++ [t] → NoDup (L ++ [t]) →
  Z.of_nat (length data) ≤ INT_MAX →
  aget mem0 t = Some m →
  aget mem t = Some (Message (m_buffer m) (m_size m) (Some p)) →
  aget mem p = Some (Message (Some data) (Z.of_nat (length data)) None) →
  (∀ x, x ∈ L → aget mem x = aget mem0 x) →
  chain_ok mem hd (Some p) ((L ++ [t]) ++ [p]) (Ds ++ [data]).
Proof.
  intros [Hp Ht Hc] Hpn Hd Hl Em0 Emt Emp Hsame. split.
  - apply path_app in Hp as (q & Hp & -> & e & He & He'). cbn in He'. subst e.
    eapply path_snoc; [|unfold mlink; by rewrite Emp].
    eapply path_snoc; [|unfold mlink; by rewrite Emt].
    eapply path_ext; [|done]. intros x Hx. unfold mlink. by rewrite Hsame.
  - by rewrite last_snoc.
  - apply Forall2_app.
    + apply Forall2_app_inv_l in Hc as (D1 & D2 & H1 & H2 & ->). apply Forall2_app.
      * clear -H1 Hsame. induction H1 as [|x d L D (m & E & Hm) _ IH]; constructor.
        -- exists m. by rewrite Hsame by left.
        -- apply IH. intros y Hy. apply Hsame. by right.
      * inversion H2 as [|? d ? ? (m' & E & Hm & Hs & Hmax) Hn]; subst. inversion Hn; subst.
        constructor; [|constructor]. rewrite Em0 in E. injection E as <-. eexists. split; [done|]. done.
    + constructor; [|constructor]. eexists. split; [done|]. done.
Qed.

Lemma databuffer_push_spec data db mp L Ds bytes R :
  buf_rep db mp L Ds bytes → pool_ok mp (L ++ R) →
  Z.of_nat (length bytes) + Z.of_nat (length data) ≤ INT_MAX →
  ∃ db' mp' p, databuffer_push data (Z.of_nat (length data)) (db, mp) = Some (tt, (db', mp'), []) ∧
    buf_rep db' mp' (L ++ [p]) (Ds ++ [data]) (bytes ++ data) ∧
    pool_ok mp' ((L ++ [p]) ++ R) ∧ same_nodes mp mp' R ∧ db_header db' = db_header db.
Proof.
  intros [Hc Ho Hb Hs] Hpool Hmax. destruct (take_message_spec mp _ Hpool) as (p & mp1 & Et & Hp1 & Hsn1).
  pose proof (pool_nodup _ _ Hp1) as [Hd _]. apply NoDup_cons in Hd as [Hpn Hd].
  destruct (used_cell mp1 _ p Hp1) as [m0 Em0]; [by left|].
  destruct (aset (mp_mem mp1) p (Message (Some data) (Z.of_nat (length data)) None)) as [mem|] eqn:Ea.
  2:{ rewrite aset_Some in Ea; [done|]. by eapply aget_Some_range. }
  pose proof (pool_ok_aset _ _ _ _ _ Hp1 ltac:(by left) Ea) as Hp2.
  assert (∀ x, x ∈ L ++ R → aget mem x = aget (mp_mem mp) x) as Hsame.
  { intros x Hx. rewrite <- Hsn1 by done. eapply aset_other; [done|]. by intros ->. }
  assert (pool_ok mp1 ((L ++ [p]) ++ R) ↔ pool_ok mp1 (p :: L ++ R)) as HU.
  { split; apply pool_ok_perm; rewrite <- app_assoc; cbn [app]; by rewrite <- Permutation_middle. }
  unfold databuffer_push. rewrite (exec_nil (_ ≫= _)), exec_state, Et, exec_lift, Ea, exec_lift, Hs.
  rewrite c_int_Some by (unfold INT_MIN; lia). rewrite exec_lift.
  destruct (decide (L = [])) as [->|HL].
  - apply chain_nil_inv in Hc as (Eh & Etl & ->). rewrite Eh, Etl. rewrite bool_decide_eq_true_2 by done.
    change (c_assert true) with (Some tt). rewrite exec_assoc, exec_lift, exec_ret_bind.
    eexists _, _, p. split; [done|]. cbn [app mp_mem mp_freelist] in *. split; [|split; [|split; [|done]]].
    + assert (db_offset db = 0) as Ho' by (cbn in Ho; lia). split; cbn [db_head db_tail db_offset db_size mp_mem].
      * split; [|done|].
        -- apply (path_cons _ _ None); [|done]. unfold mlink. by rewrite (aget_aset_eq _ _ _ _ Ea).
        -- constructor; [|constructor]. eexists. rewrite (aget_aset_eq _ _ _ _ Ea).
           split; [done|]. split; [done|]. split; [done|]. cbn [m_size]. lia.
      * rewrite Ho'. lia.
      * rewrite Ho', Hb. cbn. by rewrite drop_nil, app_nil_r.
      * rewrite length_app. lia.
    + done.
    + intros x Hx. by apply Hsame.
  - destruct (exists_last HL) as (L0 & t & ->). destruct Hc as [Hpath Htl Hcells].
    rewrite last_snoc in Htl. destruct (db_head db) as [hd|] eqn:Eh.
    2:{ apply path_none in Hpath. by destruct L0. }
    assert (t ∈ (L0 ++ [t]) ++ R) as Htin by (apply elem_of_app; left; apply elem_of_app; right; by left).
    rewrite Htl. destruct (used_cell mp _ t Hpool Htin) as [m Em]. pose proof Em as Em'.
    rewrite <- Hsame in Em' by done. rewrite exec_assoc, exec_lift, exec_assoc, Em', exec_lift.
    destruct (aset mem t (Message (m_buffer m) (m_size m) (Some p))) as [mem2|] eqn:Ea2.
    2:{ rewrite aset_Some in Ea2; [done|]. by eapply aget_Some_range. }
    rewrite exec_assoc, exec_lift, exec_ret_bind. eexists _, _, p. split; [done|].
    assert (t ≠ p) as Htp by (intros ->; done).
    pose proof Hd as Hd'. apply NoDup_app in Hd' as (HdL & HdR & _).
    split; [|split; [|split; [|done]]].
    + split; cbn [db_head db_tail db_offset db_size mp_mem].
      * eapply (chain_append (mp_mem mp) mem2 _ (db_tail db)); try done.
        -- rewrite <- Eh, Htl. split; [by rewrite Eh|by rewrite last_snoc|done].
        -- intros Hin. apply Hpn, elem_of_app. by left.
        -- lia.
        -- by apply (aget_aset_eq _ _ _ _ Ea2).
        -- rewrite (aset_other _ _ _ _ _ Ea2) by done. by apply (aget_aset_eq _ _ _ _ Ea).
        -- intros x Hx. rewrite (aset_other _ _ _ _ _ Ea2).
           ++ apply Hsame, elem_of_app. left. apply elem_of_app. by left.
           ++ intros ->. apply NoDup_app in HdL as (_ & HdL & _). apply (HdL t Hx). by left.
      * destruct Ds; [|done]. apply Forall2_length in Hcells. rewrite length_app in Hcells. cbn in Hcells. lia.
      * rewrite Hb, concat_app. cbn [concat]. rewrite app_nil_r, drop_app_le; [done|].
        destruct Ds; cbn in Ho |- *; [lia|]. rewrite length_app. lia.
      * rewrite length_app. lia.
    + eapply pool_ok_perm; [|eapply (pool_ok_aset _ _ t _ mem2 Hp2)]; [|by right|done].
      rewrite <- (app_assoc (L0 ++ [t]) [p] R). apply Permutation_middle.
    + intros x Hx. cbn [mp_mem]. rewrite (aset_other _ _ _ _ _ Ea2).
      * apply Hsame, elem_of_app. by right.
      * intros ->. apply (HdR t); [apply elem_of_app; right; by left|done].
Qed.

(** ** Clearing *)

Lemma clear_loop_spec fuel db mp L Ds R :
  chain_ok (mp_mem mp) (db_head db) (db_tail db) L Ds → pool_ok mp (L ++ R) → (length L ≤ fuel)%nat →
  ∃ db' mp', clear_loop fuel (db, mp) = Some (tt, (db', mp'), Ds) ∧ pool_ok mp' R ∧ same_nodes mp mp' R.
Proof.
  revert db mp L Ds. induction fuel as [|fuel IH]; intros db mp L Ds Hc Hpool Hf.
  - destruct L; [|cbn in Hf; lia]. apply chain_nil_inv in Hc as (Eh & _ & ->).
    unfold clear_loop. rewrite (exec_nil (_ ≫= _)), exec_state, Eh, exec_mret. by eexists _, _.
  - cbn [clear_loop]. rewrite (exec_nil (_ ≫= _)), exec_state. destruct L as [|p L].
    + apply chain_nil_inv in Hc as (Eh & _ & ->). rewrite Eh, exec_mret. by eexists _, _.
    + pose proof Hc as [(Eh & _) _ Hcells]. rewrite Eh.
      inversion Hcells as [|? d ? Ds' _ _]; subst.
      destruct (return_message_spec db mp p L d Ds' R Hc Hpool) as (hd & tl & mp1 & E & Hc1 & Hp1 & Hs1).
      rewrite (exec_bind _ _ _ _ _ _ _ E).
      destruct (IH (DataBuffer (db_header db) (db_offset db) (db_size db) hd tl) mp1 L Ds') as (db' & mp' & E' & Hp' & Hs');
        [done|done|cbn in Hf; lia|].
      unfold exec. rewrite E'. exists db', mp'. split; [done|]. split; [done|]. by eapply same_nodes_trans.
Qed.

Lemma databuffer_clear_spec db mp L Ds bytes R :
  buf_rep db mp L Ds bytes → pool_ok mp (L ++ R) →
  ∃ mp', databuffer_clear (db, mp) = Some (tt, (databuffer_zero, mp'), Ds) ∧
    pool_ok mp' R ∧ same_nodes mp mp' R.
Proof.
  intros [Hc _ _ _] Hpool. unfold databuffer_clear. rewrite (exec_nil (_ ≫= _)), exec_state.
  destruct (clear_loop_spec (length (mp_mem mp)) db mp L Ds R Hc Hpool) as (db' & mp' & E & Hp & Hs).
  { by eapply pool_short. }
  rewrite (exec_bind _ _ _ _ _ _ _ E). unfold set_db. exists mp'. split; [|done].
  rewrite exec_state. unfold exec, put. by rewrite app_nil_r.
Qed.

(** ** The header *)

(** The value of the bytes that come before a package. *)
Definition header_value (header_size : Z) (plen : list Z) : Z :=
  if header_size =? 2 then be_val plen else swrap 32 (be_val plen).

Lemma plen_value_spec hs plen :
  hs = 2 ∨ hs = 4 → Z.of_nat (length plen) = hs → Forall byte_ok plen →
  plen_value hs plen = Some (header_value hs plen).
Proof.
  intros [->| ->] Hl Hb; unfold plen_value, header_value.
  - destruct plen as [|b0 [|b1 [|]]]; cbn in Hl; try lia.
    change (aget [b0; b1] 0) with (Some b0). change (aget [b0; b1] 1) with (Some b1). cbn [mbind option_bind].
    rewrite Z.eqb_refl. rewrite !Forall_cons in Hb. destruct Hb as (H0 & H1 & _).
    unfold be_val. cbn [rev app]. rewrite !le_val_cons by done. unfold byte_ok in *.
    rewrite lor_shiftl by lia. cbn [le_val]. f_equal. lia.
  - destruct plen as [|b0 [|b1 [|b2 [|b3 [|]]]]]; cbn in Hl; try lia.
    change (aget [b0; b1; b2; b3] 0) with (Some b0). change (aget [b0; b1; b2; b3] 1) with (Some b1).
    change (aget [b0; b1; b2; b3] 2) with (Some b2). change (aget [b0; b1; b2; b3] 3) with (Some b3).
    cbn [mbind option_bind]. rewrite !(proj2 (Z.eqb_neq 4 2)) by lia. do 2 f_equal.
    rewrite !Forall_cons in Hb. destruct Hb as (H0 & H1 & H2 & H3 & _).
    unfold be_val. cbn [rev app]. rewrite !le_val_cons by done. unfold byte_ok in *.
    rewrite (lor_fields b0 b1 24 16), (lor_fields _ b2 16 8), lor_shiftl by (cbn; lia).
    cbn [le_val]. lia.
Qed.
