(* ===== verification/Gate.v ===== *)
(** The gate in C (src/framework/skynet/service-src/service_gate.c).

    The gate accepts connections, cuts what they send into packages that start with
    their size in 2 or 4 bytes, and forwards these to a broker, to the agent of the
    connection or to the watchdog.  Its functions are actions on its state that emit
    effects.  A [struct connection] is a slot of the array [g_conn]; [hashid] gives
    the slot of a socket.  The text of log messages is not modelled. *)
From Stdlib Require Import String.
From S2P Require Import Prelude Bytes Buffer Effect CString Links Hashid Databuffer.
Local Open Scope Z_scope.

Definition BACKLOG : Z := 128.

Definition PTYPE_TEXT : Z := 0.
Definition PTYPE_CLIENT : Z := 3.
Definition PTYPE_TAG_DONTCOPY : Z := 65536.

Definition SKYNET_SOCKET_TYPE_DATA : Z := 1.
Definition SKYNET_SOCKET_TYPE_CONNECT : Z := 2.
Definition SKYNET_SOCKET_TYPE_CLOSE : Z := 3.
Definition SKYNET_SOCKET_TYPE_ACCEPT : Z := 4.
Definition SKYNET_SOCKET_TYPE_ERROR : Z := 5.
Definition SKYNET_SOCKET_TYPE_WARNING : Z := 7.

Record connection := Connection {
  c_id : Z; c_agent : Z; c_client : Z; c_remote_name : list Z; c_buffer : databuffer;
}.

Record gate := Gate {
  g_listen_id : Z; g_watchdog : Z; g_broker : Z; g_client_tag : Z; g_header_size : Z;
  g_max_connection : Z; g_hash : hashid; g_conn : list connection; g_mp : messagepool;
}.

(** [skynet_socket_message] and the bytes after it. *)
Record socket_message := SocketMessage {
  sm_type : Z; sm_id : Z; sm_ud : Z; sm_buffer : list Z; sm_text : list Z;
}.

Inductive effect :=
  | Send (src dst type session : Z) (msg : list Z)
  | SocketSend (id : Z) (bytes : list Z)
  | SocketStart (id : Z)
  | SocketClose (id : Z)
  | SocketListen (host : list Z) (port backlog : Z)
  | LogError
  | Free (block : list Z).

Notation G := (eff gate effect).

(** ** State *)

Definition get_conn (slot : Z) : G connection := g ← state; lift (aget (g_conn g) slot).

Definition put_conn (slot : Z) (c : connection) : G () :=
  g ← state;
  conn ← lift (aset (g_conn g) slot c);
  put (Gate (g_listen_id g) (g_watchdog g) (g_broker g) (g_client_tag g) (g_header_size g)
         (g_max_connection g) (g_hash g) conn (g_mp g)).

Definition put_hash (hash : hashid) : G () :=
  g ← state;
  put (Gate (g_listen_id g) (g_watchdog g) (g_broker g) (g_client_tag g) (g_header_size g)
         (g_max_connection g) hash (g_conn g) (g_mp g)).

Definition put_mp (mp : messagepool) : G () :=
  g ← state;
  put (Gate (g_listen_id g) (g_watchdog g) (g_broker g) (g_client_tag g) (g_header_size g)
         (g_max_connection g) (g_hash g) (g_conn g) mp).

Definition set_listen (id : Z) : G () :=
  g ← state;
  put (Gate id (g_watchdog g) (g_broker g) (g_client_tag g) (g_header_size g)
         (g_max_connection g) (g_hash g) (g_conn g) (g_mp g)).

Definition set_broker (broker : Z) : G () :=
  g ← state;
  put (Gate (g_listen_id g) (g_watchdog g) broker (g_client_tag g) (g_header_size g)
         (g_max_connection g) (g_hash g) (g_conn g) (g_mp g)).

(** An operation on [&c->buffer] and [&g->mp]. *)
Definition on_buffer {A} (slot : Z) (op : D A) : G A :=
  g ← state;
  c ← get_conn slot;
  '(x, (db, mp), freed) ← lift (op (c_buffer c, g_mp g));
  emits (map Free freed) ;;
  put_conn slot (Connection (c_id c) (c_agent c) (c_client c) (c_remote_name c) db) ;;
  put_mp mp ;;
  mret x.

Definition lookup_id (id : Z) : G Z := g ← state; lift (hashid_lookup (g_hash g) id).

(** ** Commands *)

(** Moves the text after the first [command_sz] bytes and the spaces to the front.
    The bytes behind it stay as they are. *)
Definition _parm (msg : list Z) (sz command_sz : nat) : list Z :=
  let fix skip (n i : nat) : nat :=
    match n with
    | O => i
    | S n => if decide (msg !! i = Some 32) then skip n (S i) else i
    end in
  let command_sz := skip (sz - command_sz)%nat command_sz in
  drop command_sz (take sz msg) ++ [0] ++ drop (sz - command_sz + 1) msg.

Definition _forward_agent (fd agentaddr clientaddr : Z) : G () :=
  id ← lookup_id fd;
  if 0 <=? id then
    c ← get_conn id;
    put_conn id (Connection (c_id c) agentaddr clientaddr (c_remote_name c) (c_buffer c))
  else mret tt.

(** [queryname] is [skynet_queryname] of the service. *)
Definition _ctrl (queryname : list Z → Z) (msg : list Z) : G () :=
  let sz := length msg in
  let tmp := msg ++ [0] in
  if decide (sz = 0%nat) then mret tt
  else
    let i := find_char 32 msg in
    let word (name : string) := lift (memcmp_eq i tmp (str name ++ [0])) in
    kick ← word "kick"%string;
    if kick : bool then
      let tmp := _parm tmp sz i in
      uid ← lift (strtol tmp);
      id ← lookup_id uid;
      if 0 <=? id then emit (SocketClose uid) else mret tt
    else
    forward ← word "forward"%string;
    if forward : bool then
      let tmp := _parm tmp sz i in
      '(tmp, client) ← lift (strsep tmp 0);
      match client with
      | None => mret tt
      | Some agent =>
        id ← lift (strtol tmp);
        '(tmp, client) ← lift (strsep tmp agent);
        match client with
        | None => mret tt
        | Some client =>
          agent_handle ← lift (strtoul (drop (Z.to_nat (agent + 1)) tmp));
          client_handle ← lift (strtoul (drop (Z.to_nat (client + 1)) tmp));
          _forward_agent id agent_handle client_handle
        end
      end
    else
    broker ← word "broker"%string;
    if broker : bool then
      set_broker (queryname (c_str (_parm tmp sz i)))
    else
    start ← word "start"%string;
    if start : bool then
      let tmp := _parm tmp sz i in
      uid ← lift (strtol tmp);
      id ← lookup_id uid;
      if 0 <=? id then emit (SocketStart uid) else mret tt
    else
    close ← word "close"%string;
    if close : bool then
      g ← state;
      if 0 <=? g_listen_id g then emit (SocketClose (g_listen_id g)) ;; set_listen (-1) else mret tt
    else emit LogError.

(** ** Packages *)

(** [data] is the formatted text; it is shorter than the 1024 bytes of the buffer. *)
Definition _report (data : list Z) : G () :=
  g ← state;
  if g_watchdog g =? 0 then mret tt
  else emit (Send 0 (g_watchdog g) PTYPE_TEXT 0 data).

Definition _forward (slot size : Z) : G () :=
  g ← state;
  c ← get_conn slot;
  let fd := c_id c in
  if fd <=? 0 then mret tt
  else if negb (g_broker g =? 0) then
    temp ← on_buffer slot (databuffer_read size);
    emit (Send 0 (g_broker g) (Z.lor (g_client_tag g) PTYPE_TAG_DONTCOPY) fd temp)
  else if negb (c_agent c =? 0) then
    temp ← on_buffer slot (databuffer_read size);
    emit (Send (c_client c) (c_agent c) (Z.lor (g_client_tag g) PTYPE_TAG_DONTCOPY) fd temp)
  else if negb (g_watchdog g =? 0) then
    let tmp := decimal_int fd ++ str " data "%string in
    data ← on_buffer slot (databuffer_read size);
    emit (Send 0 (g_watchdog g) (Z.lor PTYPE_TEXT PTYPE_TAG_DONTCOPY) fd (tmp ++ data))
  else mret tt.

Fixpoint dispatch_loop (fuel : nat) (slot id : Z) : G () :=
  match fuel with
  | O => lift None
  | S fuel =>
    g ← state;
    size ← on_buffer slot (databuffer_readheader (g_header_size g));
    if size <? 0 then mret tt
    else if 0 <? size then
      if 16777216 <=? size then
        on_buffer slot databuffer_clear ;;
        emit (SocketClose id) ;;
        emit LogError
      else
        _forward slot size ;;
        on_buffer slot databuffer_reset ;;
        dispatch_loop fuel slot id
    else dispatch_loop fuel slot id
  end.

(** Every round of the loop takes a header, but for one that was taken before. *)
Definition dispatch_message (slot id : Z) (data : list Z) (sz : Z) : G () :=
  on_buffer slot (databuffer_push data sz) ;;
  c ← get_conn slot;
  dispatch_loop (Z.to_nat (db_size (c_buffer c)) + 2) slot id.

(** A connection that was filled with zeros, and its id set. *)
Definition connection_zero (id : Z) : connection :=
  Connection id 0 0 (replicate 32 0) databuffer_zero.

Definition dispatch_socket_message (m : socket_message) : G () :=
  let type := sm_type m in
  if type =? SKYNET_SOCKET_TYPE_DATA then
    id ← lookup_id (sm_id m);
    if 0 <=? id then dispatch_message id (sm_id m) (sm_buffer m) (sm_ud m)
    else
      emit LogError ;;
      emit (SocketClose (sm_id m)) ;;
      emit (Free (sm_buffer m))
  else if type =? SKYNET_SOCKET_TYPE_CONNECT then
    g ← state;
    if sm_id m =? g_listen_id g then mret tt
    else
      id ← lookup_id (sm_id m);
      if id <? 0 then emit LogError ;; emit (SocketClose (sm_id m)) else mret tt
  else if (type =? SKYNET_SOCKET_TYPE_CLOSE) || (type =? SKYNET_SOCKET_TYPE_ERROR) then
    g ← state;
    '(id, hash) ← lift (hashid_remove (g_hash g) (sm_id m));
    put_hash hash ;;
    if 0 <=? id then
      on_buffer id databuffer_clear ;;
      put_conn id (connection_zero (-1)) ;;
      _report (decimal_int (sm_id m) ++ str " close"%string)
    else mret tt
  else if type =? SKYNET_SOCKET_TYPE_ACCEPT then
    g ← state;
    lift (c_assert (g_listen_id g =? sm_id m)) ;;
    if hashid_full (g_hash g) then emit (SocketClose (sm_ud m))
    else
      '(slot, hash) ← lift (hashid_insert (g_hash g) (sm_ud m));
      put_hash hash ;;
      c ← get_conn slot;
      let sz := Z.min (Z.of_nat (length (sm_text m))) 31 in
      name ← lift (write_at (c_remote_name c) 0 (take (Z.to_nat sz) (sm_text m) ++ [0]));
      put_conn slot (Connection (sm_ud m) (c_agent c) (c_client c) name (c_buffer c)) ;;
      _report (decimal_int (sm_ud m) ++ str " open "%string ++ decimal_int (sm_ud m) ++ [32]
        ++ c_str name ++ str ":0"%string) ;;
      emit LogError
  else if type =? SKYNET_SOCKET_TYPE_WARNING then emit LogError
  else mret tt.

Inductive gate_input :=
  | InText (msg : list Z)
  | InClient (msg : list Z)
  | InSocket (m : socket_message)
  | InOther.

(** The result 1 tells the caller that the message is not to be freed. *)
Definition _cb (queryname : list Z → Z) (msg : gate_input) : G Z :=
  match msg with
  | InText msg => _ctrl queryname msg ;; mret 0
  | InClient msg =>
    let sz := Z.of_nat (length msg) in
    if sz <=? 4 then emit LogError ;; mret 0
    else
      let idbuf := drop (Z.to_nat (sz - 4)) msg in
      b0 ← lift (aget idbuf 0); b1 ← lift (aget idbuf 1);
      b2 ← lift (aget idbuf 2); b3 ← lift (aget idbuf 3);
      let uid := swrap 32 (Z.lor (Z.lor (Z.lor b0 (Z.shiftl b1 8)) (Z.shiftl b2 16)) (Z.shiftl b3 24)) in
      id ← lookup_id uid;
      if 0 <=? id then
        emit (SocketSend uid (take (Z.to_nat (sz - 4)) msg)) ;; mret 1
      else emit LogError ;; mret 0
  | InSocket m => dispatch_socket_message m ;; mret 0
  | InOther => mret 0
  end.

(** ** The start and the end of the service *)

Definition gate_create : gate :=
  Gate (-1) 0 0 0 0 0 (HashId 0 0 0 [] []) [] messagepool_zero.

Definition gate_release : G () :=
  g ← state;
  for_each (λ i,
    c ← get_conn i;
    if 0 <=? c_id c then emit (SocketClose (c_id c)) else mret tt)
    (seqZ 0 (g_max_connection g)) ;;
  (if 0 <=? g_listen_id g then emit (SocketClose (g_listen_id g)) else mret tt) ;;
  put (Gate (g_listen_id g) (g_watchdog g) (g_broker g) (g_client_tag g) (g_header_size g)
         (g_max_connection g) (hashid_clear (g_hash g)) [] (messagepool_free (g_mp g))).

(** [strrchr(s, c)] *)
Fixpoint strrchr (c : Z) (s : list Z) : option nat :=
  match s with
  | [] => None
  | x :: s =>
    match strrchr c s with
    | Some n => Some (S n)
    | None => if x =? c then Some O else None
    end
  end.

(** [listen_result] is what [skynet_socket_listen] gives. *)
Definition start_listen (listen_result : list Z → Z → Z) (listen_addr : list Z) : G Z :=
  let '(host, digits) :=
    match strrchr 58 listen_addr with
    | None => ([], listen_addr)
    | Some n => (take n listen_addr, drop (S n) listen_addr)
    end in
  port ← lift (strtol (digits ++ [0]));
  if port <=? 0 then emit LogError ;; mret 1
  else
    emit (SocketListen host port BACKLOG) ;;
    set_listen (listen_result host port) ;;
    if listen_result host port <? 0 then mret 1
    else emit (SocketStart (listen_result host port)) ;; mret 0.

(** A [%s] of [sscanf]: the bytes up to the next space. *)
Fixpoint take_word (s : list Z) : list Z * list Z :=
  match s with
  | c :: s' => if is_space c then ([], s) else let (w, r) := take_word s' in (c :: w, r)
  | [] => ([], [])
  end.

Definition scan_word (s : list Z) : option (list Z * list Z) :=
  match take_word (skip_space s) with
  | ([], _) => None
  | r => Some r
  end.

(** [sscanf(parm, "%c %s %s %d %d", ...)] gives at least four values; the last is 0
    when it is not there. *)
Definition scan_parm (parm : list Z) : option (Z * list Z * list Z * Z * Z) :=
  match parm with
  | [] => None
  | header :: s =>
    '(watchdog, s) ← scan_word s;
    '(binding, s) ← scan_word s;
    '(client_tag, s) ← scan_int s;
    Some (header, watchdog, binding, client_tag, match scan_int s with Some (max, _) => max | None => 0 end)
  end.

Definition gate_init (queryname : list Z → Z) (listen_result : list Z → Z → Z)
    (parm : list Z) : G Z :=
  match scan_parm parm with
  | None => emit LogError ;; mret 1
  | Some (header, watchdog, binding, client_tag, max) =>
    if max <=? 0 then emit LogError ;; mret 1
    else if negb (header =? 83) && negb (header =? 76) then emit LogError ;; mret 1
    else
      let client_tag := if client_tag =? 0 then PTYPE_CLIENT else client_tag in
      let no_watchdog := bool_decide (watchdog !! 0%nat = Some 33) in
      let address := if no_watchdog then 0 else queryname watchdog in
      g ← state;
      if negb no_watchdog && (address =? 0) then emit LogError ;; mret 1
      else
        hash ← lift (hashid_init max);
        put (Gate (g_listen_id g) address (g_broker g) client_tag (if header =? 83 then 2 else 4)
               max hash (replicate (Z.to_nat max) (connection_zero (-1))) (g_mp g)) ;;
        start_listen listen_result binding
  end.
