(* ===== verification/GateText.v ===== *)
(** The commands that other services send to the gate as text: what [_ctrl] makes
    of each ([service_gate.c]). *)
From Stdlib Require Import String.
From S2P Require Import Prelude Bytes Buffer Effect CString Links Hashid Databuffer Gate.
Local Open Scope Z_scope.

Inductive command :=
  | Kick (fd : Z)
  | Forward (fd agent client : Z)
  | Broker (name : list Z)
  | Start (fd : Z)
  | Close.

(** Handles are written in hexadecimal, after a colon. *)
Definition command_text (c : command) : list Z :=
  match c with
  | Kick fd => str "kick" ++ 32 :: decimal 10 fd
  | Forward fd agent client =>
    str "forward" ++ 32 :: decimal 10 fd ++ 32 :: (58 :: hexadecimal agent) ++ 32 :: (58 :: hexadecimal client)
  | Broker name => str "broker" ++ 32 :: name
  | Start fd => str "start" ++ 32 :: decimal 10 fd
  | Close => str "close"
  end.

(** Equations between concatenations. *)
Ltac app_norm := repeat progress (cbn [app]; rewrite <- ?app_assoc); done.

Lemma parm_word word arg :
  (∀ c, head arg = Some c → c ≠ 32) →
  ∃ junk, _parm ((word ++ 32 :: arg) ++ [0]) (length (word ++ 32 :: arg)) (length word) = arg ++ 0 :: junk.
Proof.
  intros Ha. unfold _parm. set (msg := (word ++ 32 :: arg) ++ [0]). set (sz := length (word ++ 32 :: arg)).
  assert (sz = length word + S (length arg))%nat as Esz by (unfold sz; rewrite length_app; done).
  set (skip := fix skip (n i : nat) : nat := _).
  assert (skip (sz - length word)%nat (length word) = S (length word)) as ->.
  { replace (sz - length word)%nat with (S (length arg)) by lia. cbn.
    assert (msg !! length word = Some 32) as E.
    { unfold msg. rewrite <- app_assoc, lookup_app_r by done. by rewrite Nat.sub_diag. }
    rewrite decide_True by done. destruct arg as [|c arg]; [done|]. cbn. rewrite decide_False; [done|].
    unfold msg. rewrite <- app_assoc, lookup_app_r by lia.
    replace (S (length word) - length word)%nat with 1%nat by lia. cbn. intros [= E']. by apply (Ha c). }
  eexists. f_equal. unfold msg, sz. rewrite take_app_length.
  replace (S (length word)) with (length (word ++ [32])) by (rewrite length_app; cbn; lia).
  replace (word ++ 32 :: arg) with ((word ++ [32]) ++ arg) by (by rewrite <- app_assoc).
  apply drop_app_length.
Qed.

Lemma number_head (l s : list Z) : l ≠ [] → Forall number_char l → ∀ c, head (l ++ s) = Some c → c ≠ 32.
Proof.
  intros Hl Hc c. destruct l as [|x l]; [done|]. apply Forall_cons in Hc as [Hx _].
  intros [= <-]. unfold number_char in Hx. lia.
Qed.

Lemma decimal_nonempty n : decimal 10 n ≠ [].
Proof. rewrite decimal_numeral. apply numeral_nonempty. Qed.

Lemma number_not c l : Forall number_char l → ¬ number_char c → c ∉ l.
Proof. intros Hl Hc Hin. rewrite Forall_forall in Hl. by apply Hc, Hl. Qed.

Section ctrl.
Context (queryname : list Z → Z) (g : gate).
Implicit Types (fd r : Z).

(** The part of [_ctrl] before the command is known. *)
Lemma ctrl_word word arg :
  32 ∉ word → word ≠ [] →
  find_char 32 (word ++ 32 :: arg) = length word ∧
  length (word ++ 32 :: arg) ≠ 0%nat ∧
  ∀ name, memcmp_eq (length word) ((word ++ 32 :: arg) ++ [0]) (str name ++ [0]) =
    memcmp_eq (length word) word (str name ++ [0]).
Proof.
  intros Hw Hn. split; [by apply find_char_app|]. split; [rewrite length_app; cbn; lia|].
  intros name. rewrite <- app_assoc. clear. generalize ((32 :: arg) ++ [0]) as s, (str name ++ [0]) as b.
  induction word as [|x w IH]; intros s b; [done|]. cbn [length memcmp_eq app].
  destruct b as [|y b]; [done|]. destruct (x =? y); [apply IH|done].
Qed.

Lemma ctrl_kick fd r :
  0 ≤ fd ≤ INT_MAX → hashid_lookup (g_hash g) fd = Some r →
  _ctrl queryname (command_text (Kick fd)) g = Some (tt, g, if 0 <=? r then [SocketClose fd] else []).
Proof.
  intros Hfd Hr. cbn [command_text]. unfold _ctrl. cbv zeta.
  destruct (ctrl_word (str "kick") (decimal 10 fd)) as (-> & Hs & Hm); [by vm_compute; set_solver|done|].
  rewrite decide_False by done. rewrite (exec_nil (_ ≫= _)), !Hm.
  change (memcmp_eq _ (str "kick") (str "kick" ++ [0])) with (Some true). rewrite exec_lift.
  destruct (parm_word (str "kick") (decimal 10 fd)) as (junk & ->).
  { rewrite <- (app_nil_r (decimal 10 fd)). apply number_head; [apply decimal_nonempty|apply decimal_chars]. }
  rewrite strtol_decimal, exec_lift by done. unfold lookup_id. rewrite exec_assoc, exec_state, Hr, exec_lift.
  by destruct (0 <=? r).
Qed.

Lemma ctrl_start fd r :
  0 ≤ fd ≤ INT_MAX → hashid_lookup (g_hash g) fd = Some r →
  _ctrl queryname (command_text (Start fd)) g = Some (tt, g, if 0 <=? r then [SocketStart fd] else []).
Proof.
  intros Hfd Hr. cbn [command_text]. unfold _ctrl. cbv zeta.
  destruct (ctrl_word (str "start") (decimal 10 fd)) as (-> & Hs & Hm); [by vm_compute; set_solver|done|].
  rewrite decide_False by done. rewrite (exec_nil (_ ≫= _)), !Hm.
  change (memcmp_eq _ (str "start") (str "kick" ++ [0])) with (Some false). rewrite exec_lift.
  change (memcmp_eq _ (str "start") (str "forward" ++ [0])) with (Some false). rewrite exec_lift.
  change (memcmp_eq _ (str "start") (str "broker" ++ [0])) with (Some false). rewrite exec_lift.
  change (memcmp_eq _ (str "start") (str "start" ++ [0])) with (Some true). rewrite exec_lift.
  destruct (parm_word (str "start") (decimal 10 fd)) as (junk & ->).
  { rewrite <- (app_nil_r (decimal 10 fd)). apply number_head; [apply decimal_nonempty|apply decimal_chars]. }
  rewrite strtol_decimal, exec_lift by done. unfold lookup_id. rewrite exec_assoc, exec_state, Hr, exec_lift.
  by destruct (0 <=? r).
Qed.

Lemma ctrl_broker name :
  0 ∉ name → (∀ c, head name = Some c → c ≠ 32) →
  _ctrl queryname (command_text (Broker name)) g = set_broker (queryname name) g.
Proof.
  intros H0 Hh. cbn [command_text]. unfold _ctrl. cbv zeta.
  destruct (ctrl_word (str "broker") name) as (-> & Hs & Hm); [by vm_compute; set_solver|done|].
  rewrite decide_False by done. rewrite (exec_nil (_ ≫= _)), !Hm.
  change (memcmp_eq _ (str "broker") (str "kick" ++ [0])) with (Some false). rewrite exec_lift.
  change (memcmp_eq _ (str "broker") (str "forward" ++ [0])) with (Some false). rewrite exec_lift.
  change (memcmp_eq _ (str "broker") (str "broker" ++ [0])) with (Some true). rewrite exec_lift.
  destruct (parm_word (str "broker") name Hh) as (junk & ->).
  rewrite c_str_zero by done. by rewrite <- exec_nil.
Qed.

Lemma ctrl_close :
  _ctrl queryname (command_text Close) g =
  (if 0 <=? g_listen_id g then emit (SocketClose (g_listen_id g)) ;; set_listen (-1) else mret tt) g.
Proof.
  cbn [command_text]. unfold _ctrl. cbv zeta. rewrite decide_False by done. rewrite (exec_nil (_ ≫= _)).
  change (find_char 32 (str "close")) with 5%nat.
  change (memcmp_eq 5 (str "close" ++ [0]) (str "kick" ++ [0])) with (Some false). rewrite exec_lift.
  change (memcmp_eq 5 (str "close" ++ [0]) (str "forward" ++ [0])) with (Some false). rewrite exec_lift.
  change (memcmp_eq 5 (str "close" ++ [0]) (str "broker" ++ [0])) with (Some false). rewrite exec_lift.
  change (memcmp_eq 5 (str "close" ++ [0]) (str "start" ++ [0])) with (Some false). rewrite exec_lift.
  change (memcmp_eq 5 (str "close" ++ [0]) (str "close" ++ [0])) with (Some true). rewrite exec_lift.
  by rewrite exec_state, <- exec_nil.
Qed.

Lemma ctrl_forward fd agent client :
  0 ≤ fd ≤ INT_MAX → 0 ≤ agent < 2 ^ 32 → 0 ≤ client < 2 ^ 32 →
  _ctrl queryname (command_text (Forward fd agent client)) g = _forward_agent fd agent client g.
Proof.
  intros Hfd Ha Hc. cbn [command_text]. unfold _ctrl. cbv zeta.
  set (arg := decimal 10 fd ++ 32 :: (58 :: hexadecimal agent) ++ 32 :: (58 :: hexadecimal client)).
  destruct (ctrl_word (str "forward") arg) as (-> & Hs & Hm); [by vm_compute; set_solver|done|].
  rewrite decide_False by done. rewrite (exec_nil (_ ≫= _)), !Hm.
  change (memcmp_eq _ (str "forward") (str "kick" ++ [0])) with (Some false). rewrite exec_lift.
  change (memcmp_eq _ (str "forward") (str "forward" ++ [0])) with (Some true). rewrite exec_lift.
  destruct (parm_word (str "forward") arg) as (junk & ->).
  { apply number_head; [apply decimal_nonempty|apply decimal_chars]. }
  assert (∀ n, 32 ∉ 58 :: hexadecimal n ∧ 0 ∉ 58 :: hexadecimal n) as Hhex.
  { intros n. split; apply not_elem_of_cons; (split; [done|]);
      (eapply number_not; [apply hex_chars|unfold number_char; lia]). }
  assert (32 ∉ decimal 10 fd ∧ 0 ∉ decimal 10 fd) as [Hd1 Hd2].
  { split; (eapply number_not; [apply decimal_chars|unfold number_char; lia]). }
  assert (0 ∉ (58 :: hexadecimal agent) ++ 32 :: 58 :: hexadecimal client) as Hr.
  { intros [?|[?|?]%elem_of_cons]%elem_of_app; [by destruct (Hhex agent)|done|by destruct (Hhex client)]. }
  unfold arg.
  replace ((decimal 10 fd ++ 32 :: (58 :: hexadecimal agent) ++ 32 :: 58 :: hexadecimal client) ++ 0 :: junk)
    with ([] ++ decimal 10 fd ++ 32 :: ((58 :: hexadecimal agent) ++ 32 :: 58 :: hexadecimal client) ++ 0 :: junk)
    by app_norm.
  rewrite strsep_token, exec_lift by done. cbn [app]. rewrite strtol_decimal, exec_lift by done.
  cbn [app]. set (p1 := 0 + Z.of_nat (length (decimal 10 fd)) + 1).
  replace (decimal 10 fd ++ 0 :: 58 :: (hexadecimal agent ++ 32 :: 58 :: hexadecimal client) ++ 0 :: junk)
    with ((decimal 10 fd ++ [0]) ++ (58 :: hexadecimal agent) ++ 32 :: (58 :: hexadecimal client) ++ 0 :: junk)
    by app_norm.
  rewrite strsep_token, exec_lift by (try apply Hhex; unfold p1; rewrite length_app; cbn; lia).
  set (p2 := p1 + Z.of_nat (length (58 :: hexadecimal agent)) + 1).
  replace (drop (Z.to_nat (p1 + 1)) _) with (hexadecimal agent ++ 0 :: (58 :: hexadecimal client) ++ 0 :: junk).
  2:{ symmetry. replace (Z.to_nat (p1 + 1)) with (length (decimal 10 fd ++ [0; 58])) by (unfold p1; rewrite length_app; cbn; lia).
      replace ((decimal 10 fd ++ [0]) ++ (58 :: hexadecimal agent) ++ 0 :: (58 :: hexadecimal client) ++ 0 :: junk)
        with ((decimal 10 fd ++ [0; 58]) ++ hexadecimal agent ++ 0 :: (58 :: hexadecimal client) ++ 0 :: junk)
        by app_norm.
      apply drop_app_length. }
  rewrite strtoul_hex, exec_lift by done.
  replace (drop (Z.to_nat (p2 + 1)) _) with (hexadecimal client ++ 0 :: junk).
  2:{ symmetry.
      replace (Z.to_nat (p2 + 1)) with (length (decimal 10 fd ++ [0; 58] ++ hexadecimal agent ++ [0; 58]))
        by (unfold p2, p1; rewrite !length_app; cbn [length app]; rewrite ?length_app; cbn [length]; lia).
      replace ((decimal 10 fd ++ [0]) ++ (58 :: hexadecimal agent) ++ 0 :: (58 :: hexadecimal client) ++ 0 :: junk)
        with ((decimal 10 fd ++ [0; 58] ++ hexadecimal agent ++ [0; 58]) ++ hexadecimal client ++ 0 :: junk)
        by app_norm.
      apply drop_app_length. }
  by rewrite strtoul_hex, exec_lift, <- exec_nil by done.
Qed.
End ctrl.
