(* ===== verification/GateSpec.v ===== *)
(** What the gate promises: a table of connections, each with the bytes that have
    not been delivered yet; and the loop of [dispatch_message] against it. *)
From Stdlib Require Import String.
From S2P Require Import Prelude Bytes Buffer Effect CString Links Hashid Databuffer Gate GateText.
Local Open Scope Z_scope.

(** ** The specification *)

(** What the arguments of [gate_init] fix. *)
Record config := Config { cf_watchdog : Z; cf_tag : Z; cf_hs : Z; cf_max : Z }.

Record sconn := SConn { sc_agent : Z; sc_client : Z; sc_raw : list Z }.

Record sgate := SGate { sg_listen : Z; sg_broker : Z; sg_conns : gmap Z sconn }.

(** To whom the packages of a connection go, if to anyone. *)
Definition dest (cf : config) (broker agent client fd : Z) : option (list Z → effect) :=
  if fd <=? 0 then None
  else if negb (broker =? 0) then Some (Send 0 broker (Z.lor (cf_tag cf) PTYPE_TAG_DONTCOPY) fd)
  else if negb (agent =? 0) then Some (Send client agent (Z.lor (cf_tag cf) PTYPE_TAG_DONTCOPY) fd)
  else if negb (cf_watchdog cf =? 0) then
    Some (λ p, Send 0 (cf_watchdog cf) (Z.lor PTYPE_TEXT PTYPE_TAG_DONTCOPY) fd
                 (decimal_int fd ++ str " data "%string ++ p))
  else None.

(** The packages at the start of [raw], and what is left of it.  A package for
    nobody stays, without its header. *)
Fixpoint deliver (n : nat) (hs fd : Z) (dst : option (list Z → effect)) (raw : list Z) :
    list effect * list Z :=
  match n with
  | O => ([], raw)
  | S n =>
    let body := drop (Z.to_nat hs) raw in
    let size := header_value hs (take (Z.to_nat hs) raw) in
    if Z.of_nat (length raw) <? hs then ([], raw)
    else if (size <? 0) || (Z.of_nat (length body) <? size) then ([], raw)
    else if size =? 0 then deliver n hs fd dst body
    else if 16777216 <=? size then ([SocketClose fd; LogError], [])
    else
      match dst with
      | Some send =>
        let (es, rest) := deliver n hs fd dst (drop (Z.to_nat size) body) in
        (send (take (Z.to_nat size) body) :: es, rest)
      | None => deliver n hs fd dst body
      end
  end.

Definition packages (hs fd : Z) (dst : option (list Z → effect)) (raw : list Z) : list effect * list Z :=
  deliver (S (length raw)) hs fd dst raw.

Lemma deliver_enough n m hs fd dst raw :
  1 ≤ hs → Z.of_nat (length raw) < hs * Z.of_nat n → Z.of_nat (length raw) < hs * Z.of_nat m →
  deliver n hs fd dst raw = deliver m hs fd dst raw.
Proof.
  intros Hh. revert m raw. induction n as [|n IH]; intros m raw Hn Hm; [lia|]. destruct m as [|m]; [lia|].
  cbn [deliver]. destruct (Z.ltb_spec (Z.of_nat (length raw)) hs) as [|Hl]; [done|].
  set (body := drop (Z.to_nat hs) raw). set (size := header_value _ _).
  assert (Z.of_nat (length body) = Z.of_nat (length raw) - hs) as Hb by (unfold body; rewrite length_drop; lia).
  destruct ((size <? 0) || (Z.of_nat (length body) <? size)) eqn:E; [done|].
  apply orb_false_iff in E as [E1 E2]. apply Z.ltb_ge in E1, E2.
  destruct (size =? 0); [apply IH; lia|]. destruct (16777216 <=? size); [done|].
  destruct dst as [send|]; [|apply IH; lia].
  rewrite (IH m); [done|rewrite length_drop; lia..].
Qed.

(** ** Effects *)

Definition is_free (e : effect) : bool := match e with Free _ => true | _ => false end.
Definition visible (es : list effect) : list effect := List.filter (λ e, negb (is_free e)) es.
Definition frees (es : list effect) : list (list Z) :=
  omap (λ e, match e with Free b => Some b | _ => None end) es.

Lemma visible_app es es' : visible (es ++ es') = visible es ++ visible es'.
Proof. apply List.filter_app. Qed.

Lemma frees_app es es' : frees (es ++ es') = frees es ++ frees es'.
Proof. apply omap_app. Qed.

Lemma visible_frees bs : visible (map Free bs) = [].
Proof. by induction bs. Qed.

Lemma frees_frees bs : frees (map Free bs) = bs.
Proof. induction bs as [|b bs IH]; [done|]. cbn. f_equal. apply IH. Qed.

(** ** The header of the next package *)

(** The bytes of a buffer and the header that was read already. *)
Definition stream_rep (hs : Z) (db : databuffer) (bytes raw : list Z) : Prop :=
  (db_header db = 0 ∧ raw = bytes) ∨
  (db_header db ≠ 0 ∧ ∃ plen, Z.of_nat (length plen) = hs ∧ db_header db = header_value hs plen ∧
    raw = plen ++ bytes).

Definition hs_ok (hs : Z) : Prop := hs = 2 ∨ hs = 4.

Section readheader.
Context (hs : Z) (Hhs : hs_ok hs).

Lemma readheader_short db mp bytes raw L Ds R :
  buf_rep db mp L Ds bytes → pool_ok mp (L ++ R) → stream_rep hs db bytes raw →
  Z.of_nat (length raw) < hs →
  databuffer_readheader hs (db, mp) = Some (-1, (db, mp), []).
Proof.
  intros Hb Hp Hs Hl. destruct Hs as [[Hz ->]|(_ & plen & Hlen & _ & ->)].
  2:{ rewrite length_app in Hl. lia. }
  unfold databuffer_readheader. rewrite (exec_nil (_ ≫= _)), exec_state. cbv zeta.
  rewrite Hz, Z.eqb_refl, (br_size _ _ _ _ _ Hb), (proj2 (Z.ltb_lt _ _)) by done. by rewrite exec_mret.
Qed.

Lemma readheader_full db mp bytes raw L Ds R :
  buf_rep db mp L Ds bytes → pool_ok mp (L ++ R) → stream_rep hs db bytes raw →
  Forall byte_ok raw → hs ≤ Z.of_nat (length raw) →
  let size := header_value hs (take (Z.to_nat hs) raw) in
  let body := drop (Z.to_nat hs) raw in
  ∃ db' mp' freed L' Ds',
    databuffer_readheader hs (db, mp) =
      Some (if Z.of_nat (length body) <? size then -1 else size, (db', mp'), freed) ∧
    buf_rep db' mp' L' Ds' body ∧ db_header db' = size ∧ freed ++ Ds' = Ds ∧
    pool_ok mp' (L' ++ R) ∧ same_nodes mp mp' R.
Proof.
  intros Hb Hp Hs Hok Hl size body.
  unfold databuffer_readheader. rewrite (exec_nil (_ ≫= _)), exec_state. cbv zeta.
  destruct Hs as [[Hz ->]|(Hnz & plen & Hlen & Hv & ->)].
  - rewrite Hz, Z.eqb_refl, (br_size _ _ _ _ _ Hb), (proj2 (Z.ltb_ge _ _)) by done.
    destruct (databuffer_read_spec hs db mp L Ds bytes R Hb Hp) as (db1 & mp1 & fr & L1 & Ds1 & E & Hb1 & Hf & Hp1 & Hs1 & _).
    { destruct Hhs; lia. }
    rewrite (exec_bind _ _ _ _ _ _ _ E), plen_value_spec, exec_lift, exec_state.
    + unfold set_db. rewrite exec_assoc, exec_state, exec_put, exec_state, exec_mret.
      eexists _, _, _, L1, Ds1. cbn [set_header db_header db_size]. rewrite (br_size _ _ _ _ _ Hb1).
      split; [done|]. split; [|by repeat split]. destruct Hb1. by split.
    + done.
    + rewrite length_take. destruct Hhs; lia.
    + by apply Forall_take.
  - assert (take (Z.to_nat hs) (plen ++ bytes) = plen) as Et by (rewrite <- Hlen, Nat2Z.id; apply take_app_length).
    assert (body = bytes) as Eb by (unfold body; rewrite <- Hlen, Nat2Z.id; apply drop_app_length).
    unfold size. rewrite Et, Eb, <- Hv, (proj2 (Z.eqb_neq _ _)) by done.
    rewrite exec_state, exec_mret. exists db, mp, [], L, Ds. rewrite (br_size _ _ _ _ _ Hb). done.
Qed.
End readheader.

(** ** The loop *)

Definition with_buffer (slot : Z) (c : connection) (db : databuffer) (mp : messagepool) (g : gate) : gate :=
  Gate (g_listen_id g) (g_watchdog g) (g_broker g) (g_client_tag g) (g_header_size g)
    (g_max_connection g) (g_hash g)
    (<[Z.to_nat slot := Connection (c_id c) (c_agent c) (c_client c) (c_remote_name c) db]> (g_conn g)) mp.

Section buffers.
Context (slot : Z) (c : connection).
Implicit Types (g : gate).

Lemma with_buffer_conn db mp g :
  aget (g_conn g) slot = Some c →
  aget (g_conn (with_buffer slot c db mp g)) slot =
    Some (Connection (c_id c) (c_agent c) (c_client c) (c_remote_name c) db).
Proof.
  intros E. pose proof (aget_Some_range _ _ _ E). cbn [with_buffer g_conn]. unfold aget.
  rewrite (proj2 (Z.leb_le _ _)) by lia. apply list_lookup_insert_eq. lia.
Qed.

Lemma with_buffer_twice db mp db' mp' db0 g :
  with_buffer slot (Connection (c_id c) (c_agent c) (c_client c) (c_remote_name c) db0) db' mp'
    (with_buffer slot c db mp g) = with_buffer slot c db' mp' g.
Proof. unfold with_buffer. cbn. by rewrite list_insert_insert_eq. Qed.

Lemma with_buffer_same g :
  aget (g_conn g) slot = Some c → with_buffer slot c (c_buffer c) (g_mp g) g = g.
Proof.
  intros E. pose proof (aget_Some_range _ _ _ E). unfold aget in E.
  rewrite (proj2 (Z.leb_le _ _)) in E by lia. unfold with_buffer.
  rewrite list_insert_id; [by destruct g|]. rewrite E. by destruct c.
Qed.

Lemma get_conn_exec {B} pre (f : connection → G B) g :
  aget (g_conn g) slot = Some c → exec pre (get_conn slot ≫= f) g = exec pre (f c) g.
Proof. intros E. unfold get_conn. by rewrite exec_assoc, exec_state, E, exec_lift. Qed.

Lemma put_conn_exec {B} pre (c' : connection) (f : () → G B) g :
  aget (g_conn g) slot = Some c →
  exec pre (put_conn slot c' ≫= f) g = exec pre (f tt)
    (Gate (g_listen_id g) (g_watchdog g) (g_broker g) (g_client_tag g) (g_header_size g)
       (g_max_connection g) (g_hash g) (<[Z.to_nat slot := c']> (g_conn g)) (g_mp g)).
Proof.
  intros E. unfold put_conn. rewrite exec_assoc, exec_state, exec_assoc.
  rewrite aset_Some by (by eapply aget_Some_range). by rewrite exec_lift, exec_put.
Qed.

Lemma on_buffer_exec {A B} pre (op : D A) x db mp freed (f : A → G B) g :
  aget (g_conn g) slot = Some c → op (c_buffer c, g_mp g) = Some (x, (db, mp), freed) →
  exec pre (on_buffer slot op ≫= f) g = exec (pre ++ map Free freed) (f x) (with_buffer slot c db mp g).
Proof.
  intros E Eop. unfold on_buffer. rewrite exec_assoc, exec_state, exec_assoc, (get_conn_exec _ _ _ E), Eop.
  rewrite exec_assoc, exec_lift, exec_assoc, exec_emits, exec_assoc, (put_conn_exec _ _ _ _ E), exec_assoc.
  unfold put_mp. by rewrite exec_assoc, exec_state, exec_put, exec_ret_bind.
Qed.
End buffers.

(** What a run on the buffer of a connection gives. *)
Record buffer_run (hs : Z) (R : list Z) (mp : messagepool) (Ds : list (list Z)) (raw : list Z)
    (db' : databuffer) (mp' : messagepool) (es : list effect) (L' : list Z) (Ds' : list (list Z)) : Prop := {
  bu_rep : ∃ bytes', buf_rep db' mp' L' Ds' bytes' ∧ stream_rep hs db' bytes' raw;
  bu_freed : frees es ++ Ds' = Ds;
  bu_pool : pool_ok mp' (L' ++ R);
  bu_same : same_nodes mp mp' R;
}.

Section loop.
Context (cf : config) (slot : Z) (R : list Z).
Context (Hhs : hs_ok (cf_hs cf)).

Definition config_of (g : gate) : Prop :=
  g_watchdog g = cf_watchdog cf ∧ g_client_tag g = cf_tag cf ∧ g_header_size g = cf_hs cf.

(** [_forward] takes a package out of the buffer when there is someone to send it to. *)
Lemma forward_exec {B} pre (k : () → G B) g c size body L Ds :
  config_of g → aget (g_conn g) slot = Some c → buf_rep (c_buffer c) (g_mp g) L Ds body →
  pool_ok (g_mp g) (L ++ R) → 0 < size ≤ Z.of_nat (length body) →
  match dest cf (g_broker g) (c_agent c) (c_client c) (c_id c) with
  | None => exec pre (_forward slot size ≫= k) g = exec pre (k tt) g
  | Some send => ∃ db' mp' freed L' Ds',
      exec pre (_forward slot size ≫= k) g =
        exec (pre ++ map Free freed ++ [send (take (Z.to_nat size) body)]) (k tt) (with_buffer slot c db' mp' g) ∧
      buf_rep db' mp' L' Ds' (drop (Z.to_nat size) body) ∧ freed ++ Ds' = Ds ∧
      pool_ok mp' (L' ++ R) ∧ same_nodes (g_mp g) mp' R
  end.
Proof.
  intros (Hw & Ht & Hz) Hc Hb Hp Hs. unfold _forward, dest.
  rewrite exec_assoc, exec_state, exec_assoc, (get_conn_exec _ _ _ _ _ Hc). cbv zeta. rewrite Hw, Ht.
  destruct (c_id c <=? 0); [by rewrite exec_ret_bind|].
  destruct (databuffer_read_spec size (c_buffer c) (g_mp g) L Ds body R Hb Hp Hs)
    as (db1 & mp1 & fr & L1 & Ds1 & E & Hb1 & Hf & Hp1 & Hs1 & _).
  destruct (negb (g_broker g =? 0)); [|destruct (negb (c_agent c =? 0)); [|destruct (negb (cf_watchdog cf =? 0))]].
  1-3: exists db1, mp1, fr, L1, Ds1; split; [|done];
    rewrite exec_assoc, (on_buffer_exec _ _ _ _ _ _ _ _ _ _ Hc E), exec_emit; by rewrite <- ?app_assoc.
  by rewrite exec_ret_bind.
Qed.

(** A run after a step that freed [fr] and sent [sent]. *)
Lemma buffer_run_after mp mp1 fr sent Ds Ds1 raw db' mp' es L' Ds' :
  buffer_run (cf_hs cf) R mp1 Ds1 raw db' mp' es L' Ds' →
  fr ++ Ds1 = Ds → same_nodes mp mp1 R → frees sent = [] →
  buffer_run (cf_hs cf) R mp Ds raw db' mp' (map Free fr ++ sent ++ es) L' Ds'.
Proof.
  intros [Hr Hf Hp Hs] <- Hs1 Hsent. split; [done| |done|by eapply same_nodes_trans].
  rewrite !frees_app, frees_frees, Hsent. cbn [app]. by rewrite <- app_assoc, Hf.
Qed.

Lemma reset_spec db mp : databuffer_reset (db, mp) = Some (tt, (set_header 0 db, mp), []).
Proof. done. Qed.

Lemma dest_free broker agent client fd send p :
  dest cf broker agent client fd = Some send → frees [send p] = [] ∧ visible [send p] = [send p].
Proof. unfold dest. intros H. repeat case_match; simplify_eq; done. Qed.

(** The loop does what [deliver] says, with as many rounds. *)
Definition loop_ok (f : nat) : Prop := ∀ g c L Ds bytes raw,
  config_of g → aget (g_conn g) slot = Some c → buf_rep (c_buffer c) (g_mp g) L Ds bytes →
  stream_rep (cf_hs cf) (c_buffer c) bytes raw → pool_ok (g_mp g) (L ++ R) → Forall byte_ok raw →
  Z.of_nat (length raw) < cf_hs cf * Z.of_nat f →
  ∃ db' mp' es L' Ds',
    dispatch_loop f slot (c_id c) g = Some (tt, with_buffer slot c db' mp' g, es) ∧
    let '(sent, rest) := deliver f (cf_hs cf) (c_id c)
      (dest cf (g_broker g) (c_agent c) (c_client c) (c_id c)) raw in
    visible es = sent ∧ buffer_run (cf_hs cf) R (g_mp g) Ds rest db' mp' es L' Ds'.

(** The rest of the loop, after a round that left [raw] to be read. *)
Lemma rest_of_loop f g c pre fr sent L Ds0 Ds raw db mp :
  loop_ok f → config_of g → aget (g_conn g) slot = Some c →
  buf_rep db mp L Ds raw → db_header db = 0 → pool_ok mp (L ++ R) → Forall byte_ok raw →
  Z.of_nat (length raw) < cf_hs cf * Z.of_nat f →
  pre = map Free fr ++ sent → fr ++ Ds = Ds0 → same_nodes (g_mp g) mp R → frees sent = [] → visible sent = sent →
  ∃ db' mp' es L' Ds',
    exec pre (dispatch_loop f slot (c_id c)) (with_buffer slot c db mp g) =
      Some (tt, with_buffer slot c db' mp' g, es) ∧
    let '(sent', rest) := deliver f (cf_hs cf) (c_id c)
      (dest cf (g_broker g) (c_agent c) (c_client c) (c_id c)) raw in
    visible es = sent ++ sent' ∧ buffer_run (cf_hs cf) R (g_mp g) Ds0 rest db' mp' es L' Ds'.
Proof.
  intros IH Hcf Hc Hb Hh Hp Hok Hf -> Hfr Hs Hsf Hsv.
  destruct (IH (with_buffer slot c db mp g) _ L Ds raw raw Hcf (with_buffer_conn slot c db mp g Hc) Hb)
    as (db' & mp' & es & L' & Ds' & Er & Hr); [by left|done..|].
  cbn [c_id c_agent c_client] in Er, Hr. unfold exec. rewrite Er, with_buffer_twice.
  change (g_broker (with_buffer _ _ _ _ g)) with (g_broker g) in Hr.
  destruct (deliver _ _ _ _ _) as [sent' rest]. destruct Hr as [Hv Hr].
  exists db', mp', ((map Free fr ++ sent) ++ es), L', Ds'. split; [done|].
  rewrite !visible_app, visible_frees, Hsv, Hv. split; [done|].
  rewrite <- app_assoc. by apply (buffer_run_after _ mp _ _ _ Ds).
Qed.

(** The round after the header has been read: [size] and [body]. *)
Lemma round_package f g c fr L Ds0 Ds body size db mp :
  loop_ok f → config_of g → aget (g_conn g) slot = Some c →
  buf_rep db mp L Ds body → pool_ok mp (L ++ R) → Forall byte_ok body →
  Z.of_nat (length body) < cf_hs cf * Z.of_nat f → 0 < size ≤ Z.of_nat (length body) →
  fr ++ Ds = Ds0 → same_nodes (g_mp g) mp R →
  let dst := dest cf (g_broker g) (c_agent c) (c_client c) (c_id c) in
  ∃ db' mp' es L' Ds',
    exec (map Free fr) (_forward slot size ;; on_buffer slot databuffer_reset ;; dispatch_loop f slot (c_id c))
      (with_buffer slot c db mp g) = Some (tt, with_buffer slot c db' mp' g, es) ∧
    let '(sent, rest) :=
      match dst with
      | Some send =>
        let (es, rest) := deliver f (cf_hs cf) (c_id c) dst (drop (Z.to_nat size) body) in
        (send (take (Z.to_nat size) body) :: es, rest)
      | None => deliver f (cf_hs cf) (c_id c) dst body
      end in
    visible es = sent ∧ buffer_run (cf_hs cf) R (g_mp g) Ds0 rest db' mp' es L' Ds'.
Proof.
  intros IH Hcf Hc Hb Hp Hok Hf Hsz Hfr Hs dst. unfold dst.
  pose proof (with_buffer_conn slot c db mp g Hc) as Hc1. set (g1 := with_buffer slot c db mp g) in *.
  pose proof (forward_exec (map Free fr) (λ _, on_buffer slot databuffer_reset ;; dispatch_loop f slot (c_id c))
    g1 _ size body L Ds Hcf Hc1 Hb Hp Hsz) as Hfw.
  cbn [c_id c_agent c_client] in Hfw. change (g_broker g1) with (g_broker g) in Hfw.
  destruct (dest cf (g_broker g) (c_agent c) (c_client c) (c_id c)) as [send|] eqn:Ed.
  - destruct Hfw as (db2 & mp2 & fr2 & L2 & Ds2 & -> & Hb2 & Hf2 & Hp2 & Hs2).
    unfold g1. rewrite with_buffer_twice.
    rewrite (on_buffer_exec _ _ _ _ _ _ _ _ _ _ (with_buffer_conn slot c db2 mp2 g Hc) (reset_spec _ _)), with_buffer_twice.
    destruct (dest_free _ _ _ _ _ (take (Z.to_nat size) body) Ed) as [Hsf Hsv].
    destruct (rest_of_loop f g c ((map Free fr ++ map Free fr2 ++ [send (take (Z.to_nat size) body)]) ++ map Free [])
      (fr ++ fr2) [send (take (Z.to_nat size) body)] L2 Ds0 Ds2 (drop (Z.to_nat size) body) (set_header 0 db2) mp2 IH Hcf Hc) as (db' & mp' & es & L' & Ds' & Er & Hr);
      try done.
    + destruct Hb2. by split.
    + by apply Forall_drop.
    + rewrite length_drop. lia.
    + by rewrite map_app, app_nil_r, <- app_assoc.
    + by rewrite <- app_assoc, Hf2.
    + by eapply same_nodes_trans.
    + exists db', mp', es, L', Ds'. split; [exact Er|]. rewrite Ed in Hr. by destruct (deliver _ _ _ _ _).
  - rewrite Hfw. unfold g1.
    rewrite (on_buffer_exec _ _ _ _ _ _ _ _ _ _ Hc1 (reset_spec _ _)). unfold g1. rewrite with_buffer_twice.
    destruct (rest_of_loop f g c (map Free fr ++ map Free [])
      fr [] L Ds0 Ds body (set_header 0 db) mp IH Hcf Hc) as (db' & mp' & es & L' & Ds' & Er & Hr); try done.
    + destruct Hb. by split.
    + exists db', mp', es, L', Ds'. split; [exact Er|]. by rewrite Ed in Hr.
Qed.

Lemma dispatch_loop_spec f : loop_ok f.
Proof.
  induction f as [|f IH]; intros g c L Ds bytes raw Hcf Hc Hb Hs Hp Hok Hf; [lia|].
  cbn [dispatch_loop deliver]. rewrite (exec_nil (_ ≫= _)), exec_state.
  pose proof Hcf as (_ & _ & Hz). rewrite Hz.
  assert (1 ≤ cf_hs cf) as Hh1 by (destruct Hhs; lia).
  destruct (Z.ltb_spec (Z.of_nat (length raw)) (cf_hs cf)) as [Hl|Hl].
  { rewrite (on_buffer_exec _ _ _ _ _ _ _ _ _ _ Hc (readheader_short _ _ _ _ _ _ _ _ Hb Hp Hs Hl)).
    rewrite (proj2 (Z.ltb_lt _ _)) by lia. rewrite exec_mret. eexists _, _, _, L, Ds. split; [done|].
    split; [done|]. split; [by eexists|done..]. }
  destruct (readheader_full _ Hhs _ _ _ _ _ _ _ Hb Hp Hs Hok Hl) as (db1 & mp1 & fr & L1 & Ds1 & E & Hb1 & Hh & Hfr & Hp1 & Hs1).
  rewrite (on_buffer_exec _ _ _ _ _ _ _ _ _ _ Hc E). clear E.
  set (size := header_value (cf_hs cf) (take (Z.to_nat (cf_hs cf)) raw)) in *.
  set (body := drop (Z.to_nat (cf_hs cf)) raw) in *.
  assert (Forall byte_ok body) as Hokb by (by apply Forall_drop).
  assert (Z.of_nat (length body) = Z.of_nat (length raw) - cf_hs cf) as Hlb by (unfold body; rewrite length_drop; lia).
  destruct ((size <? 0) || (Z.of_nat (length body) <? size)) eqn:Est.
  { assert ((if Z.of_nat (length body) <? size then -1 else size) <? 0 = true) as ->.
    { destruct (Z.of_nat (length body) <? size); [done|]. by rewrite orb_false_r in Est. }
    rewrite exec_mret. eexists _, _, _, L1, Ds1. split; [done|]. cbn [app]. split; [apply visible_frees|].
    split; [|by rewrite frees_frees|done..]. exists body. split; [done|]. right. rewrite Hh. split.
    { apply orb_true_iff in Est as [Est|Est]; lia. }
    exists (take (Z.to_nat (cf_hs cf)) raw). split; [rewrite length_take; lia|]. split; [done|].
    symmetry. apply take_drop. }
  apply orb_false_iff in Est as [E1 E2]. rewrite E2, E1. apply Z.ltb_ge in E1, E2. cbn [app].
  destruct (Z.eqb_spec size 0) as [Ez|Ez].
  { rewrite (proj2 (Z.ltb_ge 0 size)) by lia.
    apply (rest_of_loop f g c _ fr [] L1 Ds Ds1 body db1 mp1 IH); try done; [by rewrite Hh|lia|by rewrite app_nil_r]. }
  rewrite (proj2 (Z.ltb_lt 0 size)) by lia. destruct (16777216 <=? size).
  2:{ apply (round_package f g c fr L1 Ds Ds1 body size db1 mp1 IH); try done; lia. }
  destruct (databuffer_clear_spec _ _ _ _ _ _ Hb1 Hp1) as (mp2 & Ec & Hp2 & Hs2).
  rewrite (on_buffer_exec _ _ _ _ _ _ _ _ _ _ (with_buffer_conn slot c db1 mp1 g Hc) Ec), with_buffer_twice, exec_emit.
  unfold exec, emit, emits. eexists databuffer_zero, mp2, _, [], [].
  split; [done|]. rewrite !visible_app, !visible_frees. split; [done|]. split.
  - exists []. split; [apply buf_rep_zero|by left].
  - rewrite !frees_app, !frees_frees. cbn. by rewrite !app_nil_r.
  - done.
  - by eapply same_nodes_trans.
Qed.
End loop.
