(* ===== verification/GateTable.v ===== *)
(** The gate as a table of connections: every event of [_cb] ([service_gate.c])
    does to the state what it does to the specification of [GateSpec]. *)
From Stdlib Require Import String.
From S2P Require Import Prelude Bytes Buffer Effect CString Links Hashid Databuffer Gate GateText GateSpec.
Local Open Scope Z_scope.

(** ** Events *)

Inductive event :=
  | EvCommand (c : command)
  | EvWrite (fd : Z) (data : list Z)
  | EvData (fd : Z) (data : list Z)
  | EvConnect (fd : Z)
  | EvClose (fd : Z)
  | EvError (fd : Z)
  | EvAccept (listen fd : Z) (text : list Z)
  | EvWarning (fd kilobytes : Z)
  | EvOther.

(** The message of an event: text from a service, data that an agent writes with the
    id of the socket behind it, and what the socket server sends. *)
Definition event_input (ev : event) : gate_input :=
  match ev with
  | EvCommand c => InText (command_text c)
  | EvWrite fd data => InClient (data ++ le_bytes 4 fd)
  | EvData fd data => InSocket (SocketMessage SKYNET_SOCKET_TYPE_DATA fd (Z.of_nat (length data)) data [])
  | EvConnect fd => InSocket (SocketMessage SKYNET_SOCKET_TYPE_CONNECT fd 0 [] [])
  | EvClose fd => InSocket (SocketMessage SKYNET_SOCKET_TYPE_CLOSE fd 0 [] [])
  | EvError fd => InSocket (SocketMessage SKYNET_SOCKET_TYPE_ERROR fd 0 [] [])
  | EvAccept listen fd text => InSocket (SocketMessage SKYNET_SOCKET_TYPE_ACCEPT listen fd [] text)
  | EvWarning fd k => InSocket (SocketMessage SKYNET_SOCKET_TYPE_WARNING fd k [] [])
  | EvOther => InOther
  end.

Definition set_conns (sg : sgate) (conns : gmap Z sconn) : sgate :=
  SGate (sg_listen sg) (sg_broker sg) conns.

Definition report (cf : config) (msg : list Z) : list effect :=
  if cf_watchdog cf =? 0 then [] else [Send 0 (cf_watchdog cf) PTYPE_TEXT 0 msg].

Definition known (sg : sgate) (fd : Z) : bool := bool_decide (is_Some (sg_conns sg !! fd)).

(** The name of a peer is cut to 31 bytes. *)
Definition open_text (fd : Z) (text : list Z) : list Z :=
  decimal_int fd ++ str " open "%string ++ decimal_int fd ++ [32] ++ c_str (take 31 text ++ [0]) ++ str ":0"%string.

Definition sstep (cf : config) (queryname : list Z → Z) (sg : sgate) (ev : event) : sgate * list effect :=
  match ev with
  | EvCommand (Kick fd) => (sg, if known sg fd then [SocketClose fd] else [])
  | EvCommand (Start fd) => (sg, if known sg fd then [SocketStart fd] else [])
  | EvCommand (Forward fd agent client) =>
    (match sg_conns sg !! fd with
     | Some sc => set_conns sg (<[fd := SConn agent client (sc_raw sc)]> (sg_conns sg))
     | None => sg
     end, [])
  | EvCommand (Broker name) => (SGate (sg_listen sg) (queryname name) (sg_conns sg), [])
  | EvCommand Close =>
    if 0 <=? sg_listen sg then (SGate (-1) (sg_broker sg) (sg_conns sg), [SocketClose (sg_listen sg)]) else (sg, [])
  | EvWrite fd data => (sg, if known sg fd then [SocketSend fd data] else [LogError])
  | EvData fd data =>
    match sg_conns sg !! fd with
    | Some sc =>
      let (es, raw) := packages (cf_hs cf) fd (dest cf (sg_broker sg) (sc_agent sc) (sc_client sc) fd) (sc_raw sc ++ data) in
      (set_conns sg (<[fd := SConn (sc_agent sc) (sc_client sc) raw]> (sg_conns sg)), es)
    | None => (sg, [LogError; SocketClose fd])
    end
  | EvConnect fd => (sg, if (fd =? sg_listen sg) || known sg fd then [] else [LogError; SocketClose fd])
  | EvClose fd | EvError fd =>
    if known sg fd
    then (set_conns sg (delete fd (sg_conns sg)), report cf (decimal_int fd ++ str " close"%string))
    else (sg, [])
  | EvAccept _ fd text =>
    if Z.of_nat (size (sg_conns sg)) =? cf_max cf then (sg, [SocketClose fd])
    else (set_conns sg (<[fd := SConn 0 0 []]> (sg_conns sg)), report cf (open_text fd text) ++ [LogError])
  | EvWarning _ _ => (sg, [LogError])
  | EvOther => (sg, [])
  end.

(** The data of an agent is sent without a copy, so it is not to be freed. *)
Definition answer (sg : sgate) (ev : event) : Z :=
  match ev with EvWrite fd _ => if known sg fd then 1 else 0 | _ => 0 end.

(** The blocks that an event hands to the gate. *)
Definition received (ev : event) : list (list Z) := match ev with EvData _ data => [data] | _ => [] end.

Definition id_ok (fd : Z) : Prop := 0 ≤ fd ≤ INT_MAX.
Definition handle_ok (h : Z) : Prop := 0 ≤ h < 2 ^ 32.

(** What the rest of the system keeps to.  An id that is accepted is not in use, and
    [hashid_insert] adds the number of slots to it. *)
Definition legal (cf : config) (sg : sgate) (ev : event) : Prop :=
  match ev with
  | EvCommand (Kick fd) | EvCommand (Start fd) => id_ok fd
  | EvCommand (Forward fd agent client) => id_ok fd ∧ handle_ok agent ∧ handle_ok client
  | EvCommand (Broker name) => 0 ∉ name ∧ ∀ c, head name = Some c → c ≠ 32
  | EvCommand Close => True
  | EvWrite fd data => id_ok fd ∧ data ≠ []
  | EvData fd data =>
    Forall byte_ok data ∧ ∀ sc, sg_conns sg !! fd = Some sc →
      Z.of_nat (length (sc_raw sc)) + Z.of_nat (length data) ≤ INT_MAX
  | EvAccept listen fd text =>
    listen = sg_listen sg ∧ 0 ≤ fd ∧ fd + cf_max cf ≤ INT_MAX ∧ sg_conns sg !! fd = None
  | EvConnect _ | EvClose _ | EvError _ | EvWarning _ _ | EvOther => True
  end.

(** ** The representation *)

Record conn_rep (cf : config) (mp : messagepool) (fd : Z) (c : connection) (sc : sconn)
    (L : list Z) (Ds : list (list Z)) : Prop := {
  cn_id : c_id c = fd;
  cn_agent : c_agent c = sc_agent sc;
  cn_client : c_client c = sc_client sc;
  cn_ok : Forall byte_ok (sc_raw sc);
  cn_buffer : ∃ bytes, buf_rep (c_buffer c) mp L Ds bytes ∧ stream_rep (cf_hs cf) (c_buffer c) bytes (sc_raw sc);
}.

(** [m] gives the slot of an id, [Ls] and [Dss] the nodes and blocks of each slot. *)
Record gate_rep (cf : config) (g : gate) (sg : sgate) (m : gmap Z Z) (Ls : list (list Z))
    (Dss : list (list (list Z))) : Prop := {
  gr_config : config_of cf g;
  gr_hs : hs_ok (cf_hs cf);
  gr_max : g_max_connection g = cf_max cf;
  gr_listen : g_listen_id g = sg_listen sg;
  gr_broker : g_broker g = sg_broker sg;
  gr_map : id_map (g_hash g) m;
  gr_cap : cap (g_hash g) = cf_max cf;
  gr_conn : Z.of_nat (length (g_conn g)) = cf_max cf;
  gr_Ls : length Ls = length (g_conn g);
  gr_Dss : length Dss = length (g_conn g);
  gr_pool : pool_ok (g_mp g) (concat Ls);
  gr_dom : dom m = dom (sg_conns sg);
  gr_id : ∀ fd slot, m !! fd = Some slot → 0 ≤ fd;
  gr_live : ∀ fd slot sc, m !! fd = Some slot → sg_conns sg !! fd = Some sc →
    ∃ c L Ds, aget (g_conn g) slot = Some c ∧ aget Ls slot = Some L ∧ aget Dss slot = Some Ds ∧
      conn_rep cf (g_mp g) fd c sc L Ds;
  gr_free : ∀ slot, 0 ≤ slot < cf_max cf → (∀ fd, m !! fd ≠ Some slot) →
    aget (g_conn g) slot = Some (connection_zero (-1)) ∧ aget Ls slot = Some [] ∧ aget Dss slot = Some [];
}.

Lemma conn_rep_same cf mp mp' fd c sc L Ds :
  same_nodes mp mp' L → conn_rep cf mp fd c sc L Ds → conn_rep cf mp' fd c sc L Ds.
Proof.
  intros Hs [H1 H2 H3 H4 (bytes & Hb & Hst)]. split; try done. exists bytes. split; [|done].
  by eapply buf_rep_same.
Qed.

Lemma aget_insert {A} (l : list A) i j x y :
  aget l i = Some y → aget (<[Z.to_nat i := x]> l) j = if decide (j = i) then Some x else aget l j.
Proof.
  intros E. pose proof (aget_Some_range _ _ _ E) as R.
  pose proof (aset_Some l i x R) as Ea. case_decide as Hj; [subst; by apply (aget_aset_eq _ _ _ _ Ea)|].
  by apply (aget_aset_ne _ _ _ _ _ Ea).
Qed.

Lemma aget_lookup {A} (l : list A) i x : aget l i = Some x → l !! Z.to_nat i = Some x.
Proof. unfold aget. by destruct (0 <=? i). Qed.

Section rep.
Context (cf : config) (g : gate) (sg : sgate) (m : gmap Z Z) (Ls : list (list Z)) (Dss : list (list (list Z))).
Context (Rep : gate_rep cf g sg m Ls Dss).
Implicit Types (fd slot : Z).

Lemma lookup_slot fd : hashid_lookup (g_hash g) fd = Some (default (-1) (m !! fd)).
Proof. apply hashid_lookup_spec. apply Rep. Qed.

Lemma slot_ok fd slot : m !! fd = Some slot → 0 ≤ slot < cf_max cf.
Proof.
  intros H. destruct (gr_map _ _ _ _ _ _ Rep) as [ch Hr].
  pose proof (slot_range _ _ _ Hr _ _ H) as Hs. by rewrite (gr_cap _ _ _ _ _ _ Rep) in Hs.
Qed.

Lemma slot_unique fd fd' slot : m !! fd = Some slot → m !! fd' = Some slot → fd = fd'.
Proof. destruct (gr_map _ _ _ _ _ _ Rep) as [ch Hr]. apply (slot_inj _ _ _ Hr). Qed.

Lemma known_slot fd : known sg fd = (0 <=? default (-1) (m !! fd)).
Proof.
  unfold known. destruct (m !! fd) as [slot|] eqn:E; cbn [default from_option id].
  - pose proof (slot_ok _ _ E). rewrite (proj2 (Z.leb_le _ _)) by (cbn; lia).
    apply bool_decide_eq_true_2. apply elem_of_dom. rewrite <- (gr_dom _ _ _ _ _ _ Rep). apply elem_of_dom. by eexists.
  - rewrite (proj2 (Z.leb_gt _ _)) by (cbn; lia). apply bool_decide_eq_false_2.
    intros H. apply elem_of_dom in H. rewrite <- (gr_dom _ _ _ _ _ _ Rep) in H. apply elem_of_dom in H as [? ?]. congruence.
Qed.

Lemma conn_slot fd sc : sg_conns sg !! fd = Some sc → ∃ slot, m !! fd = Some slot.
Proof.
  intros H. assert (fd ∈ dom m) as Hd; [|by apply elem_of_dom in Hd].
  rewrite (gr_dom _ _ _ _ _ _ Rep). by eapply elem_of_dom_2.
Qed.

Lemma slot_conn fd slot : m !! fd = Some slot → ∃ sc, sg_conns sg !! fd = Some sc.
Proof.
  intros H. assert (fd ∈ dom (sg_conns sg)) as Hd; [|by apply elem_of_dom in Hd].
  rewrite <- (gr_dom _ _ _ _ _ _ Rep). by eapply elem_of_dom_2.
Qed.

Lemma no_conn fd : m !! fd = None ↔ sg_conns sg !! fd = None.
Proof. rewrite <- !not_elem_of_dom. by rewrite (gr_dom _ _ _ _ _ _ Rep). Qed.

Lemma map_size : size m = size (sg_conns sg).
Proof. rewrite <- !size_dom. by rewrite (gr_dom _ _ _ _ _ _ Rep). Qed.

(** Another connection is not affected by what happens to the nodes of one. *)
Lemma rep_same fd fd' slot slot' mp' :
  m !! fd = Some slot → m !! fd' = Some slot' → fd' ≠ fd →
  same_nodes (g_mp g) mp' (concat (delete (Z.to_nat slot) Ls)) →
  ∀ L', aget Ls slot' = Some L' → same_nodes (g_mp g) mp' L'.
Proof.
  intros H1 H2 Hne Hs L' HL p Hp. apply Hs.
  pose proof (slot_ok _ _ H1). pose proof (slot_ok _ _ H2).
  eapply concat_other; [by apply aget_lookup| |done]. intros E.
  apply Hne. eapply slot_unique; [done|]. rewrite H1. f_equal. lia.
Qed.

(** The state with another connection in a slot. *)
Lemma gate_rep_update fd slot sc c L Ds c' sc' mp' L' Ds' :
  m !! fd = Some slot → sg_conns sg !! fd = Some sc →
  aget (g_conn g) slot = Some c → aget Ls slot = Some L → aget Dss slot = Some Ds →
  conn_rep cf mp' fd c' sc' L' Ds' →
  pool_ok mp' (L' ++ concat (delete (Z.to_nat slot) Ls)) →
  same_nodes (g_mp g) mp' (concat (delete (Z.to_nat slot) Ls)) →
  gate_rep cf
    (Gate (g_listen_id g) (g_watchdog g) (g_broker g) (g_client_tag g) (g_header_size g)
       (g_max_connection g) (g_hash g) (<[Z.to_nat slot := c']> (g_conn g)) mp')
    (set_conns sg (<[fd := sc']> (sg_conns sg))) m
    (<[Z.to_nat slot := L']> Ls) (<[Z.to_nat slot := Ds']> Dss).
Proof.
  intros Hm Hsc Hc HL HD Hrep Hpool Hsame. destruct Rep.
  split; cbn [g_listen_id g_broker g_max_connection g_hash g_conn g_mp set_conns sg_listen sg_broker sg_conns];
    rewrite ?length_insert; try done.
  - eapply pool_ok_perm; [|done]. symmetry. apply concat_update with L. by apply aget_lookup.
  - rewrite dom_insert_lookup_L by (by eexists). done.
  - intros fd' slot' sc2 Hm' Hsc'. destruct (decide (fd' = fd)) as [->|Hne].
    + rewrite lookup_insert_eq in Hsc'. injection Hsc' as <-. rewrite Hm in Hm'. injection Hm' as <-.
      exists c', L', Ds'. rewrite (aget_insert _ _ _ _ _ Hc), (aget_insert _ _ _ _ _ HL), (aget_insert _ _ _ _ _ HD).
      by rewrite !decide_True.
    + rewrite lookup_insert_ne in Hsc' by done.
      destruct (gr_live0 _ _ _ Hm' Hsc') as (c2 & L2 & Ds2 & Hc2 & HL2 & HD2 & Hr2).
      exists c2, L2, Ds2. rewrite (aget_insert _ _ _ _ _ Hc), (aget_insert _ _ _ _ _ HL), (aget_insert _ _ _ _ _ HD).
      rewrite !decide_False by (intros ->; by destruct Hne; eapply slot_unique).
      split; [done|]. split; [done|]. split; [done|]. eapply conn_rep_same; [|done]. by eapply (rep_same fd fd').
  - intros slot' Hr Hfree. rewrite (aget_insert _ _ _ _ _ Hc), (aget_insert _ _ _ _ _ HL), (aget_insert _ _ _ _ _ HD).
    rewrite !decide_False by (intros ->; by apply (Hfree fd)). by apply gr_free0.
Qed.
End rep.

(** ** One event *)

(** [ev] takes the gate to the next state of the specification; [held] are the blocks
    that are not freed yet. *)
Definition step_ok (cf : config) (queryname : list Z → Z) (g : gate) (sg : sgate)
    (Dss : list (list (list Z))) (ev : event) : Prop :=
  ∃ g' es m' Ls' Dss', _cb queryname (event_input ev) g = Some (answer sg ev, g', es) ∧
    visible es = (sstep cf queryname sg ev).2 ∧
    gate_rep cf g' (sstep cf queryname sg ev).1 m' Ls' Dss' ∧
    frees es ++ concat Dss' ≡ₚ received ev ++ concat Dss.

(** The handler of the type of a message. *)
Ltac socket_type :=
  unfold dispatch_socket_message; cbn [sm_type sm_id sm_ud sm_buffer sm_text]; cbv zeta;
  repeat match goal with
  | |- context [?a =? ?b] =>
    let r := eval vm_compute in (a =? b) in
    match r with true => change (a =? b) with true | false => change (a =? b) with false end
  end; cbn [orb]; cbv iota.

Section step.
Context (cf : config) (queryname : list Z → Z).
Context (g : gate) (sg : sgate) (m : gmap Z Z) (Ls : list (list Z)) (Dss : list (list (list Z))).
Context (Rep : gate_rep cf g sg m Ls Dss).
Implicit Types (fd slot : Z).

(** An event that leaves the state and the blocks alone. *)
Lemma step_quiet ev es :
  _cb queryname (event_input ev) g = Some (answer sg ev, g, es) → frees es = [] → visible es = es →
  received ev = [] → sstep cf queryname sg ev = (sg, es) → step_ok cf queryname g sg Dss ev.
Proof.
  intros E Hf Hv Hr Hs. exists g, es, m, Ls, Dss. rewrite E, Hs, Hf, Hr. split; [done|]. by split.
Qed.

(** The callback after a handler. *)
Lemma cb_after (act : G ()) (r : Z) g' es :
  act g = Some (tt, g', es) → (act ;; mret r : G Z) g = Some (r, g', es).
Proof.
  intros E. rewrite (exec_nil (_ ≫= _)), (exec_bind _ _ _ _ _ _ _ E). by rewrite exec_mret.
Qed.

Lemma exec_lookup {B} pre fd (f : Z → G B) :
  exec pre (lookup_id fd ≫= f) g = exec pre (f (default (-1) (m !! fd))) g.
Proof. unfold lookup_id. by rewrite exec_assoc, exec_state, (lookup_slot _ _ _ _ _ _ Rep), exec_lift. Qed.

Lemma step_kick fd : id_ok fd → step_ok cf queryname g sg Dss (EvCommand (Kick fd)).
Proof.
  intros Hfd. apply (step_quiet _ (if known sg fd then [SocketClose fd] else [])).
  - cbn [_cb event_input answer]. apply cb_after.
    rewrite (ctrl_kick _ _ fd _ Hfd (lookup_slot _ _ _ _ _ _ Rep fd)), (known_slot _ _ _ _ _ _ Rep). done.
  - by destruct (known sg fd).
  - by destruct (known sg fd).
  - done.
  - done.
Qed.

Lemma step_start fd : id_ok fd → step_ok cf queryname g sg Dss (EvCommand (Start fd)).
Proof.
  intros Hfd. apply (step_quiet _ (if known sg fd then [SocketStart fd] else [])).
  - cbn [_cb event_input answer]. apply cb_after.
    rewrite (ctrl_start _ _ fd _ Hfd (lookup_slot _ _ _ _ _ _ Rep fd)), (known_slot _ _ _ _ _ _ Rep). done.
  - by destruct (known sg fd).
  - by destruct (known sg fd).
  - done.
  - done.
Qed.

Lemma step_broker name :
  0 ∉ name → (∀ c, head name = Some c → c ≠ 32) → step_ok cf queryname g sg Dss (EvCommand (Broker name)).
Proof.
  intros H0 Hh. eexists _, [], m, Ls, Dss. split; [|split; [done|split; [|done]]].
  - cbn [_cb event_input answer]. apply cb_after. rewrite ctrl_broker by done. unfold set_broker.
    by rewrite (exec_nil (_ ≫= _)), exec_state.
  - destruct Rep. by split.
Qed.

Lemma step_close_listen : step_ok cf queryname g sg Dss (EvCommand Close).
Proof.
  unfold step_ok. cbn [sstep event_input _cb answer received]. rewrite <- (gr_listen _ _ _ _ _ _ Rep).
  destruct (Z.leb_spec 0 (g_listen_id g)) as [Hl|Hl].
  - eexists _, [SocketClose (g_listen_id g)], m, Ls, Dss. split; [|split; [done|split; [|done]]].
    + apply cb_after. rewrite ctrl_close, (proj2 (Z.leb_le _ _)) by done. unfold set_listen.
      by rewrite (exec_nil (_ ≫= _)), exec_emit, exec_state.
    + destruct Rep. by split.
  - exists g, [], m, Ls, Dss. split; [|done]. apply cb_after. rewrite ctrl_close.
    by rewrite (proj2 (Z.leb_gt _ _)) by done.
Qed.

Lemma step_forward fd agent client :
  id_ok fd → handle_ok agent → handle_ok client →
  step_ok cf queryname g sg Dss (EvCommand (Forward fd agent client)).
Proof.
  intros Hfd Ha Hc. unfold step_ok. cbn [sstep event_input _cb answer received].
  destruct (m !! fd) as [slot|] eqn:Em.
  - destruct (slot_conn _ _ _ _ _ _ Rep _ _ Em) as [sc Hsc]. rewrite Hsc.
    destruct (gr_live _ _ _ _ _ _ Rep _ _ _ Em Hsc) as (c & L & Ds & Hcn & HL & HD & Hr).
    eexists _, [], m, _, _. split; [|split; [done|split]].
    + apply cb_after. rewrite ctrl_forward by done. unfold _forward_agent.
      rewrite (exec_nil (_ ≫= _)), exec_lookup, Em. cbn [default from_option id].
      pose proof (slot_ok _ _ _ _ _ _ Rep _ _ Em). rewrite (proj2 (Z.leb_le _ _)) by (cbn; lia).
      rewrite (get_conn_exec _ _ _ _ _ Hcn). unfold put_conn. rewrite exec_state.
      rewrite aset_Some by (by eapply aget_Some_range). by rewrite exec_lift.
    + eapply (gate_rep_update _ _ _ _ _ _ Rep fd slot sc c L Ds _ (SConn agent client (sc_raw sc)) (g_mp g) L Ds);
        [done..| | |done].
      * destruct Hr. by split.
      * eapply pool_ok_perm; [|apply Rep]. apply concat_focus. by apply aget_lookup.
    + cbn [frees app omap]. rewrite list_insert_id; [done|by apply aget_lookup].
  - rewrite (proj1 (no_conn _ _ _ _ _ _ Rep fd) Em). exists g, [], m, Ls, Dss. split; [|done].
    apply cb_after. rewrite ctrl_forward by done. unfold _forward_agent.
    by rewrite (exec_nil (_ ≫= _)), exec_lookup, Em.
Qed.

(** The last four bytes of a message of a client are its id. *)
Lemma step_write fd data : id_ok fd → data ≠ [] → step_ok cf queryname g sg Dss (EvWrite fd data).
Proof.
  intros Hfd Hd. apply (step_quiet _ (if known sg fd then [SocketSend fd data] else [LogError])).
  - cbn [_cb event_input answer].
    assert (0 < Z.of_nat (length data)) by (destruct data; [done|cbn; lia]).
    assert (Z.of_nat (length (data ++ le_bytes 4 fd)) = Z.of_nat (length data) + 4) as ->
      by (rewrite length_app, length_le_bytes; lia).
    rewrite (proj2 (Z.leb_gt _ _)) by lia.
    replace (Z.to_nat (Z.of_nat (length data) + 4 - 4)) with (length data) by lia.
    rewrite drop_app_length, take_app_length.
    destruct (le_bytes 4 fd) as [|b0 [|b1 [|b2 [|b3 [|]]]]] eqn:El;
      try (apply (f_equal length) in El; rewrite length_le_bytes in El; discriminate).
    change (aget [b0; b1; b2; b3] 0) with (Some b0). change (aget [b0; b1; b2; b3] 1) with (Some b1).
    change (aget [b0; b1; b2; b3] 2) with (Some b2). change (aget [b0; b1; b2; b3] 3) with (Some b3).
    rewrite (exec_nil (_ ≫= _)), !exec_lift.
    pose proof (le_bytes_ok 4 fd) as Hok. rewrite El, !Forall_cons in Hok. destruct Hok as (K0 & K1 & K2 & K3 & _).
    assert (swrap 32 (Z.lor (Z.lor (Z.lor b0 (Z.shiftl b1 8)) (Z.shiftl b2 16)) (Z.shiftl b3 24)) = fd) as ->.
    { pose proof (le_val_bytes 4 fd) as Hv. rewrite El, !le_val_cons in Hv by done. cbn [le_val] in Hv.
      unfold id_ok, INT_MAX, byte_ok in *.
      rewrite wrap_small in Hv by (cbn; lia). rewrite !Z.shiftl_mul_pow2 by lia.
      rewrite (lor_add b0 b1 8), (lor_add _ b2 16), (lor_add _ b3 24) by (cbn; lia).
      rewrite swrap_small by (cbn; lia). cbn. lia. }
    rewrite exec_lookup, (known_slot _ _ _ _ _ _ Rep). by destruct (0 <=? default (-1) (m !! fd)).
  - by destruct (known sg fd).
  - by destruct (known sg fd).
  - done.
  - done.
Qed.

Lemma step_connect fd : step_ok cf queryname g sg Dss (EvConnect fd).
Proof.
  apply (step_quiet _ (if (fd =? sg_listen sg) || known sg fd then [] else [LogError; SocketClose fd])).
  - cbn [_cb event_input answer]. apply cb_after. socket_type.
    rewrite (exec_nil (_ ≫= _)), exec_state, <- (gr_listen _ _ _ _ _ _ Rep).
    destruct (fd =? g_listen_id g); [done|]. cbn [orb]. rewrite exec_lookup, (known_slot _ _ _ _ _ _ Rep).
    rewrite Z.leb_antisym. by destruct (default (-1) (m !! fd) <? 0).
  - by destruct (_ || _).
  - by destruct (_ || _).
  - done.
  - done.
Qed.

(** *** Data *)

Lemma deliver_bytes n hs fd dst raw : Forall byte_ok raw → Forall byte_ok (deliver n hs fd dst raw).2.
Proof.
  revert raw. induction n as [|n IH]; intros raw Hok; [done|]. cbn [deliver].
  repeat case_match; try done; try (by apply IH, Forall_drop).
  match goal with E : deliver _ _ _ _ _ = (_, ?rest) |- Forall _ ?rest => 
    change rest with ((rest, rest).2) end.
  cbn [snd]. match goal with E : deliver _ _ _ _ ?r = (?a, ?b) |- _ => 
    change b with ((a, b).2); rewrite <- E end. by apply IH, Forall_drop, Forall_drop.
Qed.

Lemma rep_pool fd slot L : m !! fd = Some slot → aget Ls slot = Some L →
  pool_ok (g_mp g) (L ++ concat (delete (Z.to_nat slot) Ls)).
Proof. intros _ HL. eapply pool_ok_perm; [|apply Rep]. apply concat_focus. by apply aget_lookup. Qed.

Lemma step_data fd data :
  Forall byte_ok data →
  (∀ sc, sg_conns sg !! fd = Some sc → Z.of_nat (length (sc_raw sc)) + Z.of_nat (length data) ≤ INT_MAX) →
  step_ok cf queryname g sg Dss (EvData fd data).
Proof.
  intros Hok Hmax. unfold step_ok. cbn [sstep event_input _cb answer received].
  destruct (m !! fd) as [slot|] eqn:Em.
  2:{ rewrite (proj1 (no_conn _ _ _ _ _ _ Rep fd) Em). exists g, [LogError; SocketClose fd; Free data], m, Ls, Dss.
      split; [|done]. apply cb_after. socket_type. by rewrite (exec_nil (_ ≫= _)), exec_lookup, Em. }
  destruct (slot_conn _ _ _ _ _ _ Rep _ _ Em) as [sc Hsc]. rewrite Hsc.
  destruct (gr_live _ _ _ _ _ _ Rep _ _ _ Em Hsc) as (c & L & Ds & Hcn & HL & HD & [Hid Hag Hcl Hraw (bytes & Hb & Hst)]).
  specialize (Hmax _ Hsc). pose proof (gr_hs _ _ _ _ _ _ Rep) as Hhs.
  assert (Z.of_nat (length bytes) ≤ Z.of_nat (length (sc_raw sc)) ≤ Z.of_nat (length bytes) + cf_hs cf) as Hlen.
  { destruct Hst as [[_ ->]|(_ & plen & Hl & _ & ->)]; [destruct Hhs; lia|]. rewrite length_app. lia. }
  destruct (databuffer_push_spec data _ _ _ _ _ _ Hb (rep_pool _ _ _ Em HL)) as (db1 & mp1 & p & E & Hb1 & Hp1 & Hs1 & Hh1).
  { lia. }
  set (g1 := with_buffer slot c db1 mp1 g).
  pose proof (with_buffer_conn slot c db1 mp1 g Hcn) as Hc1. fold g1 in Hc1.
  destruct (dispatch_loop_spec cf slot (concat (delete (Z.to_nat slot) Ls)) Hhs (Z.to_nat (db_size db1) + 2)
    g1 _ _ _ (bytes ++ data) (sc_raw sc ++ data) (gr_config _ _ _ _ _ _ Rep) Hc1 Hb1)
    as (db' & mp' & es & L' & Ds' & Er & Hr).
  { cbn [c_buffer]. destruct Hst as [[Hz ->]|(Hz & plen & Hl & Hv & ->)]; [by left; rewrite Hh1|].
    right. rewrite Hh1. split; [done|]. exists plen. by rewrite app_assoc. }
  { done. }
  { by apply Forall_app. }
  { rewrite (br_size _ _ _ _ _ Hb1), !length_app. destruct Hhs; nia. }
  cbn [c_id c_agent c_client] in Er, Hr. change (g_broker g1) with (g_broker g) in Hr.
  rewrite Hid in Er. rewrite Hid, Hag, Hcl, (gr_broker _ _ _ _ _ _ Rep) in Hr.
  unfold packages. erewrite (deliver_enough _ (Z.to_nat (db_size db1) + 2));
    [|destruct Hhs; lia|destruct Hhs; nia|rewrite (br_size _ _ _ _ _ Hb1), !length_app; destruct Hhs; nia].
  pose proof (deliver_bytes (Z.to_nat (db_size db1) + 2) (cf_hs cf) fd
    (dest cf (sg_broker sg) (sc_agent sc) (sc_client sc) fd) (sc_raw sc ++ data) ltac:(by apply Forall_app)) as Hrest.
  destruct (deliver _ _ _ _ _) as [sent rest]. destruct Hr as [Hv [Hbr Hfr Hpo Hsa]].
  exists (with_buffer slot c db' mp' g), es, m, (<[Z.to_nat slot := L']> Ls), (<[Z.to_nat slot := Ds']> Dss).
  split; [|split; [done|split]].
  - apply cb_after. socket_type. rewrite (exec_nil (_ ≫= _)), exec_lookup, Em. cbn [default from_option id].
    pose proof (slot_ok _ _ _ _ _ _ Rep _ _ Em). rewrite (proj2 (Z.leb_le _ _)) by (cbn; lia).
    unfold dispatch_message. rewrite (on_buffer_exec _ _ _ _ _ _ _ _ _ _ Hcn E). fold g1.
    rewrite (get_conn_exec _ _ _ _ _ Hc1). cbn [c_buffer map app]. 
    unfold exec. rewrite Er.
    unfold g1, with_buffer. cbn. by rewrite list_insert_insert_eq, Hid.
  - eapply (gate_rep_update _ _ _ _ _ _ Rep fd slot sc c L Ds _
      (SConn (sc_agent sc) (sc_client sc) rest) mp' L' Ds'); [done..| |done|by eapply same_nodes_trans].
    destruct Hbr as (bytes' & Hb' & Hst'). by split; [..|eexists].
  - rewrite (concat_update _ _ _ Ds' (aget_lookup _ _ _ HD)), (concat_focus _ _ _ (aget_lookup _ _ _ HD)).
    rewrite app_assoc, Hfr. cbn [app]. rewrite <- app_assoc. cbn [app]. by rewrite <- Permutation_middle.
Qed.

(** *** A connection ends *)

Definition gate_with (hash : hashid) (slot : Z) (c : connection) (mp : messagepool) : gate :=
  Gate (g_listen_id g) (g_watchdog g) (g_broker g) (g_client_tag g) (g_header_size g)
    (g_max_connection g) hash (<[Z.to_nat slot := c]> (g_conn g)) mp.

Lemma gate_rep_close fd slot hash mp c L Ds :
  m !! fd = Some slot → aget (g_conn g) slot = Some c → aget Ls slot = Some L → aget Dss slot = Some Ds →
  id_map hash (delete fd m) → cap hash = cap (g_hash g) →
  pool_ok mp (concat (delete (Z.to_nat slot) Ls)) →
  same_nodes (g_mp g) mp (concat (delete (Z.to_nat slot) Ls)) →
  gate_rep cf (gate_with hash slot (connection_zero (-1)) mp) (set_conns sg (delete fd (sg_conns sg)))
    (delete fd m) (<[Z.to_nat slot := []]> Ls) (<[Z.to_nat slot := []]> Dss).
Proof.
  intros Hm Hc HL HD Hmap Hcap Hpool Hsame. pose proof Rep as Rep0. destruct Rep0.
  split; unfold gate_with;
    cbn [g_listen_id g_broker g_max_connection g_hash g_conn g_mp set_conns sg_listen sg_broker sg_conns];
    rewrite ?length_insert; try done.
  - by rewrite Hcap.
  - eapply pool_ok_perm; [|done]. symmetry. by rewrite (concat_update _ _ _ [] (aget_lookup _ _ _ HL)).
  - by rewrite !dom_delete_L, gr_dom0.
  - intros fd' slot' [_ Hm']%lookup_delete_Some. by eapply gr_id0.
  - intros fd' slot' sc [Hne Hm']%lookup_delete_Some [_ Hsc]%lookup_delete_Some.
    destruct (gr_live0 _ _ _ Hm' Hsc) as (c2 & L2 & Ds2 & Hc2 & HL2 & HD2 & Hr2).
    exists c2, L2, Ds2. rewrite (aget_insert _ _ _ _ _ Hc), (aget_insert _ _ _ _ _ HL), (aget_insert _ _ _ _ _ HD).
    rewrite !decide_False by (intros ->; by destruct Hne; eapply (slot_unique _ _ _ _ _ _ Rep)).
    split; [done|]. split; [done|]. split; [done|]. eapply conn_rep_same; [|done].
    by eapply (rep_same _ _ _ _ _ _ Rep fd fd').
  - intros slot' Hr Hfree. rewrite (aget_insert _ _ _ _ _ Hc), (aget_insert _ _ _ _ _ HL), (aget_insert _ _ _ _ _ HD).
    destruct (decide (slot' = slot)) as [->|Hne]; [done|]. apply gr_free0; [done|].
    intros fd' Hm'. apply (Hfree fd'). apply lookup_delete_Some. split; [|done]. intros <-. congruence.
Qed.

Lemma report_spec msg g' :
  g_watchdog g' = cf_watchdog cf → _report msg g' = Some (tt, g', report cf msg).
Proof.
  intros Hw. unfold _report, report. rewrite (exec_nil (_ ≫= _)), exec_state, Hw.
  by destruct (cf_watchdog cf =? 0).
Qed.

Lemma report_free msg : frees (report cf msg) = [] ∧ visible (report cf msg) = report cf msg.
Proof. unfold report. by destruct (cf_watchdog cf =? 0). Qed.

(** The body of the two cases. *)
Lemma close_ok fd :
  let act :=
    (g ← state;
     '(id, hash) ← lift (hashid_remove (g_hash g) fd);
     put_hash hash ;;
     if 0 <=? id then
       on_buffer id databuffer_clear ;;
       put_conn id (connection_zero (-1)) ;;
       _report (decimal_int fd ++ str " close"%string)
     else mret tt) : G () in
  ∃ g' es m' Ls' Dss', act g = Some (tt, g', es) ∧
    visible es = (sstep cf queryname sg (EvClose fd)).2 ∧
    gate_rep cf g' (sstep cf queryname sg (EvClose fd)).1 m' Ls' Dss' ∧
    frees es ++ concat Dss' ≡ₚ concat Dss.
Proof.
  cbn [sstep]. rewrite (known_slot _ _ _ _ _ _ Rep).
  pose proof (hashid_remove_spec _ _ fd (gr_map _ _ _ _ _ _ Rep)) as Hrm.
  rewrite (exec_nil (_ ≫= _)), exec_state. destruct (m !! fd) as [slot|] eqn:Em.
  2:{ rewrite Hrm, exec_lift. unfold put_hash. rewrite exec_assoc, exec_state, exec_put. cbn [default from_option].
      exists g, [], m, Ls, Dss. rewrite !(proj2 (Z.leb_gt _ _)) by lia. by destruct g. }
  destruct Hrm as (hash & -> & Hmap & Hcap). rewrite exec_lift. cbn [default from_option id].
  pose proof (slot_ok _ _ _ _ _ _ Rep _ _ Em). rewrite (proj2 (Z.leb_le 0 slot)) by lia.
  destruct (slot_conn _ _ _ _ _ _ Rep _ _ Em) as [sc Hsc].
  destruct (gr_live _ _ _ _ _ _ Rep _ _ _ Em Hsc) as (c & L & Ds & Hcn & HL & HD & [_ _ _ _ (bytes & Hb & _)]).
  destruct (databuffer_clear_spec _ _ _ _ _ _ Hb (rep_pool _ _ _ Em HL)) as (mp & E & Hp & Hs).
  unfold put_hash at 1. rewrite exec_assoc, exec_state, exec_put.
  set (g1 := Gate _ _ _ _ _ _ hash _ _).
  rewrite (on_buffer_exec slot c [] databuffer_clear tt databuffer_zero mp Ds _ g1 Hcn E).
  rewrite (put_conn_exec _ _ _ _ _ _ (with_buffer_conn slot c databuffer_zero mp g1 Hcn)).
  unfold exec. rewrite report_spec by apply Rep.
  eexists (gate_with hash slot (connection_zero (-1)) mp), _, _, _, _.
  split; [|split; [|split]].
  - unfold gate_with, with_buffer. cbn. by rewrite list_insert_insert_eq.
  - rewrite !visible_app, visible_frees. cbn. apply report_free.
  - by eapply gate_rep_close.
  - rewrite !frees_app, frees_frees, (proj1 (report_free _)), app_nil_r. cbn [app].
    rewrite (concat_update _ _ _ [] (aget_lookup _ _ _ HD)), (concat_focus _ _ _ (aget_lookup _ _ _ HD)). done.
Qed.

Lemma step_close fd : step_ok cf queryname g sg Dss (EvClose fd).
Proof.
  destruct (close_ok fd) as (g' & es & m' & Ls' & Dss' & E & Hv & Hr & Hp).
  exists g', es, m', Ls', Dss'. split; [|done]. cbn [_cb event_input answer]. apply cb_after. socket_type. exact E.
Qed.

Lemma step_error fd : step_ok cf queryname g sg Dss (EvError fd).
Proof.
  destruct (close_ok fd) as (g' & es & m' & Ls' & Dss' & E & Hv & Hr & Hp).
  exists g', es, m', Ls', Dss'. split; [|done]. cbn [_cb event_input answer]. apply cb_after. socket_type. exact E.
Qed.

(** *** A connection begins *)

Lemma gate_rep_accept fd slot hash name :
  sg_conns sg !! fd = None → 0 ≤ fd → (∀ j, m !! j ≠ Some slot) →
  id_map hash (<[fd := slot]> m) → cap hash = cap (g_hash g) → 0 ≤ slot < cf_max cf →
  gate_rep cf (gate_with hash slot (Connection fd 0 0 name databuffer_zero) (g_mp g))
    (set_conns sg (<[fd := SConn 0 0 []]> (sg_conns sg))) (<[fd := slot]> m) Ls Dss.
Proof.
  intros Hno Hfd Hfresh Hmap Hcap Hslot. pose proof Rep as Rep0. destruct Rep0.
  destruct (gr_free0 slot Hslot Hfresh) as (Hc & HL & HD).
  split; unfold gate_with;
    cbn [g_listen_id g_broker g_max_connection g_hash g_conn g_mp set_conns sg_listen sg_broker sg_conns];
    rewrite ?length_insert; try done.
  - by rewrite Hcap.
  - by rewrite !dom_insert_L, gr_dom0.
  - intros fd' slot' [[<- _]|[_ Hm']]%lookup_insert_Some; [done|]. by eapply gr_id0.
  - intros fd' slot' sc Hm' Hsc. rewrite (aget_insert _ _ _ _ _ Hc).
    destruct (decide (fd' = fd)) as [->|Hne].
    + rewrite lookup_insert_eq in Hm'. rewrite lookup_insert_eq in Hsc. injection Hm' as <-. injection Hsc as <-.
      eexists _, [], []. rewrite decide_True by done. split; [done|]. split; [done|]. split; [done|].
      split; try done. exists []. split; [apply buf_rep_zero|by left].
    + rewrite lookup_insert_ne in Hm' by done. rewrite lookup_insert_ne in Hsc by done.
      rewrite decide_False by (intros ->; by apply (Hfresh fd')).
      by apply gr_live0.
  - intros slot' Hr Hfree. rewrite (aget_insert _ _ _ _ _ Hc).
    rewrite decide_False by (intros ->; apply (Hfree fd); apply lookup_insert_eq).
    apply gr_free0; [done|]. intros fd' Hm'. apply (Hfree fd'). rewrite lookup_insert_ne; [done|].
    intros ->. apply (no_conn _ _ _ _ _ _ Rep) in Hno. congruence.
Qed.

Lemma c_str_app l s : c_str ((l ++ [0]) ++ s) = c_str (l ++ [0]).
Proof. induction l as [|x l IH]; [done|]. cbn. destruct (x =? 0); [done|]. f_equal. apply IH. Qed.

(** The name is copied to an array of 32 bytes. *)
Lemma name_written text :
  ∃ name, write_at (replicate 32 0) 0
      (take (Z.to_nat (Z.min (Z.of_nat (length text)) 31)) text ++ [0]) = Some name ∧
    c_str name = c_str (take 31 text ++ [0]).
Proof.
  assert (take (Z.to_nat (Z.min (Z.of_nat (length text)) 31)) text = take 31 text) as ->.
  { destruct (Z.min_spec (Z.of_nat (length text)) 31) as [[Hl ->]|[Hl ->]]; [|done].
    rewrite Nat2Z.id, !take_ge by lia. done. }
  destruct (write_at_spec (replicate 32 0) 0 (take 31 text ++ [0])) as (name & E & _ & En); [lia| |].
  { rewrite length_app, length_take, length_replicate. cbn [length]. lia. }
  exists name. split; [done|]. rewrite En. cbn [take Z.to_nat app]. apply c_str_app.
Qed.

Lemma step_accept listen fd text :
  listen = sg_listen sg → 0 ≤ fd → fd + cf_max cf ≤ INT_MAX → sg_conns sg !! fd = None →
  step_ok cf queryname g sg Dss (EvAccept listen fd text).
Proof.
  intros -> Hfd Hmax Hno. unfold step_ok. cbn [sstep event_input _cb answer received].
  destruct (gr_map _ _ _ _ _ _ Rep) as [ch Hch].
  assert (hashid_full (g_hash g) = (Z.of_nat (size (sg_conns sg)) =? cf_max cf)) as Hfull.
  { unfold hashid_full. by rewrite (ir_count _ _ _ Hch), (gr_cap _ _ _ _ _ _ Rep), (map_size _ _ _ _ _ _ Rep). }
  destruct (Z.eqb_spec (Z.of_nat (size (sg_conns sg))) (cf_max cf)) as [Hsz|Hsz].
  { exists g, [SocketClose fd], m, Ls, Dss. split; [|done]. apply cb_after. socket_type.
    rewrite (exec_nil (_ ≫= _)), exec_state, (gr_listen _ _ _ _ _ _ Rep), Z.eqb_refl.
    change (c_assert true) with (Some tt). by rewrite exec_lift, Hfull. }
  pose proof (proj2 (no_conn _ _ _ _ _ _ Rep fd) Hno) as Hm.
  destruct (hashid_insert_spec (g_hash g) m fd) as (slot & hash & Ei & Hmap & Hcap & Hfresh);
    [by eexists|done|by rewrite (gr_cap _ _ _ _ _ _ Rep)|done| |].
  { rewrite (gr_cap _ _ _ _ _ _ Rep), (map_size _ _ _ _ _ _ Rep).
    pose proof (id_count _ _ _ Hch) as Hle. rewrite (gr_cap _ _ _ _ _ _ Rep), (map_size _ _ _ _ _ _ Rep) in Hle. lia. }
  assert (0 ≤ slot < cf_max cf) as Hslot.
  { destruct Hmap as [ch' Hch']. rewrite <- (gr_cap _ _ _ _ _ _ Rep), <- Hcap.
    eapply (slot_range _ _ _ Hch' fd). apply lookup_insert_eq. }
  destruct (gr_free _ _ _ _ _ _ Rep slot Hslot Hfresh) as (Hc & _).
  destruct (name_written text) as (name & Ew & En).
  eexists (gate_with hash slot (Connection fd 0 0 name databuffer_zero) (g_mp g)), _, _, Ls, Dss.
  split; [|split; [|split; [by apply gate_rep_accept|]]].
  - apply cb_after. socket_type.
    rewrite (exec_nil (_ ≫= _)), exec_state, (gr_listen _ _ _ _ _ _ Rep), Z.eqb_refl.
    change (c_assert true) with (Some tt). rewrite exec_lift, Hfull, Ei, exec_lift.
    unfold put_hash. rewrite exec_assoc, exec_state, exec_put.
    set (g1 := Gate _ _ _ _ _ _ hash _ _).
    rewrite (get_conn_exec slot (connection_zero (-1)) _ _ g1 Hc). cbn [c_remote_name connection_zero].
    rewrite Ew, exec_lift, (put_conn_exec slot (connection_zero (-1)) _ _ _ g1 Hc), En.
    match goal with |- exec _ _ ?g2 = _ =>
      rewrite (exec_bind _ _ _ _ _ _ _ (report_spec _ g2 (proj1 (gr_config _ _ _ _ _ _ Rep)))) end.
    done.
  - cbn [app]. rewrite visible_app, (proj2 (report_free _)). done.
  - cbn [app]. rewrite frees_app, (proj1 (report_free _)). done.
Qed.

Lemma step_legal ev : legal cf sg ev → step_ok cf queryname g sg Dss ev.
Proof.
  destruct ev as [[fd|fd agent client|name|fd|]|fd data|fd data|fd|fd|fd|listen fd text|fd k|]; cbn [legal].
  - apply step_kick.
  - intros (? & ? & ?). by apply step_forward.
  - intros [? ?]. by apply step_broker.
  - apply step_start.
  - intros _. apply step_close_listen.
  - intros [? ?]. by apply step_write.
  - intros [? ?]. by apply step_data.
  - intros _. apply step_connect.
  - intros _. apply step_close.
  - intros _. apply step_error.
  - intros (? & ? & ? & ?). by apply step_accept.
  - intros _. apply (step_quiet _ [LogError]); done.
  - intros _. by apply (step_quiet _ []).
Qed.
End step.
