(* ===== verification/GateTrace.v ===== *)
(** The life of a gate ([service_gate.c]): from [gate_init] over any sequence of
    events to [gate_release], against the specification of [GateSpec]. *)
From Stdlib Require Import String.
From stdpp Require Import sorting.
From S2P Require Import Prelude Bytes Buffer Effect CString Links Hashid Databuffer Gate GateText GateSpec GateTable.
Local Open Scope Z_scope.

(** ** Sequences of events *)

Fixpoint grun (queryname : list Z → Z) (evs : list event) : G (list Z) :=
  match evs with
  | [] => mret []
  | ev :: evs =>
    r ← _cb queryname (event_input ev);
    rs ← grun queryname evs;
    mret (r :: rs)
  end.

Fixpoint srun (cf : config) (queryname : list Z → Z) (sg : sgate) (evs : list event) :
    sgate * list effect * list Z :=
  match evs with
  | [] => (sg, [], [])
  | ev :: evs =>
    let (sg', es) := sstep cf queryname sg ev in
    let '(sg'', es', rs) := srun cf queryname sg' evs in
    (sg'', es ++ es', answer sg ev :: rs)
  end.

Fixpoint legal_run (cf : config) (queryname : list Z → Z) (sg : sgate) (evs : list event) : Prop :=
  match evs with
  | [] => True
  | ev :: evs => legal cf sg ev ∧ legal_run cf queryname (sstep cf queryname sg ev).1 evs
  end.

Section run.
Context (cf : config) (queryname : list Z → Z).
Implicit Types (sg : sgate) (evs : list event).

Lemma srun_app sg evs1 evs2 :
  srun cf queryname sg (evs1 ++ evs2) =
  let '(sg1, es1, rs1) := srun cf queryname sg evs1 in
  let '(sg2, es2, rs2) := srun cf queryname sg1 evs2 in (sg2, es1 ++ es2, rs1 ++ rs2).
Proof.
  revert sg. induction evs1 as [|ev evs1 IH]; intros sg; cbn [app srun].
  - by destruct (srun cf queryname sg evs2) as [[? ?] ?].
  - destruct (sstep cf queryname sg ev) as [sg' es]. rewrite IH.
    destruct (srun cf queryname sg' evs1) as [[sg1 es1] rs1].
    destruct (srun cf queryname sg1 evs2) as [[sg2 es2] rs2]. by rewrite app_assoc.
Qed.

Lemma legal_run_app sg evs1 evs2 :
  legal_run cf queryname sg (evs1 ++ evs2) ↔
  legal_run cf queryname sg evs1 ∧ legal_run cf queryname (srun cf queryname sg evs1).1.1 evs2.
Proof.
  revert sg. induction evs1 as [|ev evs1 IH]; intros sg; cbn [app srun legal_run fst]; [tauto|].
  rewrite IH. destruct (sstep cf queryname sg ev) as [sg' es]. cbn [fst].
  destruct (srun cf queryname sg' evs1) as [[sg1 es1] rs1]. cbn. tauto.
Qed.

Lemma grun_spec evs g sg m Ls Dss :
  gate_rep cf g sg m Ls Dss → legal_run cf queryname sg evs →
  ∃ g' es m' Ls' Dss', grun queryname evs g = Some ((srun cf queryname sg evs).2, g', es) ∧
    visible es = (srun cf queryname sg evs).1.2 ∧
    gate_rep cf g' (srun cf queryname sg evs).1.1 m' Ls' Dss' ∧
    frees es ++ concat Dss' ≡ₚ concat (map received evs) ++ concat Dss.
Proof.
  revert g sg m Ls Dss. induction evs as [|ev evs IH]; intros g sg m Ls Dss Rep Hl.
  { by exists g, [], m, Ls, Dss. }
  destruct Hl as [Hev Hl].
  destruct (step_legal cf queryname g sg m Ls Dss Rep ev Hev) as (g1 & es1 & m1 & Ls1 & Dss1 & E1 & Hv1 & Rep1 & Hf1).
  cbn [srun]. destruct (sstep cf queryname sg ev) as [sg1 sent1]. cbn [fst snd] in *.
  destruct (IH _ _ _ _ _ Rep1 Hl) as (g2 & es2 & m2 & Ls2 & Dss2 & E2 & Hv2 & Rep2 & Hf2).
  destruct (srun cf queryname sg1 evs) as [[sg2 sent2] rs]. cbn [fst snd] in *.
  exists g2, (es1 ++ es2), m2, Ls2, Dss2. split; [|split; [|split; [done|]]].
  - cbn [grun]. rewrite (exec_nil (_ ≫= _)), (exec_bind _ _ _ _ _ _ _ E1), (exec_bind _ _ _ _ _ _ _ E2).
    by rewrite exec_mret.
  - by rewrite visible_app, Hv1, Hv2.
  - rewrite frees_app, <- app_assoc, Hf2. cbn [map concat].
    rewrite Permutation_app_swap_app, Hf1, Permutation_app_swap_app. by rewrite app_assoc.
Qed.
End run.

(** ** The beginning *)

Definition sgate_init (g : gate) : sgate := SGate (g_listen_id g) (g_broker g) ∅.
Definition gate_config (g : gate) : config :=
  Config (g_watchdog g) (g_client_tag g) (g_header_size g) (g_max_connection g).

Lemma start_listen_state lr addr g r g' es :
  start_listen lr addr g = Some (r, g', es) → r = 0 →
  ∃ id, g' = Gate id (g_watchdog g) (g_broker g) (g_client_tag g) (g_header_size g)
    (g_max_connection g) (g_hash g) (g_conn g) (g_mp g).
Proof.
  unfold start_listen. rewrite (exec_nil _).
  generalize (match strrchr 58 addr with Some n => (take n addr, drop (S n) addr) | None => ([], addr) end).
  intros [host digits]. destruct (strtol (digits ++ [0])) as [port|]; [|done]. rewrite exec_lift.
  destruct (port <=? 0); [rewrite exec_emit, exec_mret; intros; simplify_eq|].
  rewrite exec_emit. unfold set_listen. rewrite exec_assoc, exec_state, exec_put.
  destruct (lr host port <? 0); [rewrite exec_mret; intros; simplify_eq|].
  rewrite exec_emit, exec_mret. intros [= <- <- <-] _. by eexists.
Qed.

Lemma gate_init_rep queryname lr parm g es :
  gate_init queryname lr parm gate_create = Some (0, g, es) → g_max_connection g ≤ 2 ^ 30 →
  gate_rep (gate_config g) g (sgate_init g) ∅
    (replicate (Z.to_nat (g_max_connection g)) []) (replicate (Z.to_nat (g_max_connection g)) []).
Proof.
  unfold gate_init. rewrite (exec_nil _). destruct (scan_parm parm) as [[[[[header watchdog] binding] tag] max]|].
  2:{ rewrite exec_emit, exec_mret. intros; simplify_eq. }
  destruct (Z.leb_spec max 0) as [Hmax|Hmax]; [rewrite exec_emit, exec_mret; intros; simplify_eq|].
  destruct (negb (header =? 83) && negb (header =? 76)); [rewrite exec_emit, exec_mret; intros; simplify_eq|].
  rewrite exec_state. destruct (negb _ && _); [rewrite exec_emit, exec_mret; intros; simplify_eq|].
  destruct (hashid_init max) as [hash|] eqn:Eh; [|done]. rewrite exec_lift, exec_put.
  unfold exec. destruct (start_listen _ _ _) as [[[r g1] es1]|] eqn:Es; [|done].
  intros [= -> -> <-] Hm. destruct (start_listen_state _ _ _ _ _ _ Es eq_refl) as [id ->].
  cbn [g_max_connection g_watchdog g_broker g_client_tag g_header_size g_hash g_conn g_mp] in *.
  destruct (hashid_init_spec max) as (hash' & E & Hcap & Hmap); [lia|]. rewrite Eh in E. injection E as <-.
  split; unfold gate_config, sgate_init;
    cbn [g_listen_id g_watchdog g_broker g_client_tag g_header_size g_max_connection g_hash g_conn g_mp cf_hs cf_max sg_conns];
    rewrite ?length_replicate; try done.
  - unfold hs_ok. destruct (header =? 83); [by left|by right].
  - lia.
  - rewrite concat_nils. apply pool_ok_zero.
  - intros slot Hr _. unfold aget. rewrite (proj2 (Z.leb_le _ _)) by lia. rewrite !lookup_replicate.
    repeat split; lia.
Qed.

(** ** The end *)

Lemma for_each_emits {A} (f : A → G ()) (h : A → list effect) l g :
  (∀ x, x ∈ l → f x g = Some (tt, g, h x)) → for_each f l g = Some (tt, g, concat (map h l)).
Proof. apply for_each_pure. Qed.

(** The ids that [gate_release] closes, in the order of the slots. *)
Definition open_ids (g : gate) : list Z := filter (λ id, 0 ≤ id) (map c_id (g_conn g)).

Lemma gate_release_spec g :
  Z.of_nat (length (g_conn g)) = g_max_connection g →
  ∃ g', gate_release g = Some (tt, g', map SocketClose (open_ids g) ++
    (if 0 <=? g_listen_id g then [SocketClose (g_listen_id g)] else [])).
Proof.
  intros Hlen. unfold gate_release. rewrite (exec_nil (_ ≫= _)), exec_state.
  set (h := λ i, match aget (g_conn g) i with
                 | Some c => if 0 <=? c_id c then [SocketClose (c_id c)] else []
                 | None => []
                 end).
  rewrite (exec_bind _ _ _ _ tt g (concat (map h (seqZ 0 (g_max_connection g))))).
  2:{ apply for_each_pure. intros i Hi%elem_of_seqZ. unfold h.
      destruct (aget_is_Some (g_conn g) i) as [c Ec]; [lia|]. rewrite Ec, (exec_nil (_ ≫= _)), (get_conn_exec _ _ _ _ _ Ec).
      by destruct (0 <=? c_id c). }
  assert (concat (map h (seqZ 0 (g_max_connection g))) = map SocketClose (open_ids g)) as ->.
  { rewrite <- Hlen. unfold h, open_ids. clear. induction (g_conn g) as [|c l IH] using rev_ind; [done|].
    rewrite length_app. cbn [length]. rewrite Nat2Z.inj_add, seqZ_app, map_app, concat_app, !map_app, filter_app, map_app by lia.
    f_equal.
    - rewrite <- IH. f_equal. apply map_ext_in. intros i Hi%list_elem_of_In%elem_of_seqZ.
      unfold aget. rewrite (proj2 (Z.leb_le _ _)) by lia. by rewrite lookup_app_l by lia.
    - rewrite Z.add_0_l. change (seqZ (Z.of_nat (length l)) (Z.of_nat 1)) with [Z.of_nat 0 + Z.of_nat (length l)].
      rewrite Z.add_0_l. cbn [map concat]. rewrite aget_nat, lookup_app_r, Nat.sub_diag by lia. cbn.
      rewrite app_nil_r. destruct (Z.leb_spec 0 (c_id c)).
      + by rewrite decide_True.
      + by rewrite decide_False by lia. }
  destruct (0 <=? g_listen_id g).
  - eexists. rewrite exec_emit. unfold exec, put. by rewrite app_nil_r.
  - eexists. rewrite exec_ret_bind. unfold exec, put. by rewrite !app_nil_r.
Qed.

Lemma NoDup_filter_inj {A} (P : A → Prop) `{!∀ x, Decision (P x)} (l : list A) :
  (∀ i j x, l !! i = Some x → l !! j = Some x → P x → i = j) → NoDup (filter P l).
Proof.
  induction l as [|x l IH]; intros Hinj; [constructor|]. rewrite filter_cons.
  assert (NoDup (filter P l)) as Hl.
  { apply IH. intros i j y Hi Hj Hy. by injection (Hinj (S i) (S j) y Hi Hj Hy). }
  case_decide as Hx; [|done]. constructor; [|done].
  intros [_ (i & Hi)%list_elem_of_lookup]%list_elem_of_filter. by specialize (Hinj 0%nat (S i) x eq_refl Hi Hx).
Qed.

Lemma slot_owner cf g sg m Ls Dss slot c :
  gate_rep cf g sg m Ls Dss → aget (g_conn g) slot = Some c →
  (m !! c_id c = Some slot ∧ 0 ≤ c_id c) ∨ (∀ fd, m !! fd ≠ Some slot) ∧ c_id c = -1.
Proof.
  intros Rep Hc. pose proof (aget_Some_range _ _ _ Hc) as Hr. rewrite (gr_conn _ _ _ _ _ _ Rep) in Hr.
  destruct (decide (map_Exists (λ _ s, s = slot) m)) as [(fd & ? & Hm & ->)|Hn].
  - left. destruct (slot_conn _ _ _ _ _ _ Rep _ _ Hm) as [sc Hsc].
    destruct (gr_live _ _ _ _ _ _ Rep _ _ _ Hm Hsc) as (c' & L & Ds & Hc' & _ & _ & Hrep).
    rewrite Hc in Hc'. injection Hc' as <-. rewrite (cn_id _ _ _ _ _ _ _ Hrep). split; [done|].
    by eapply (gr_id _ _ _ _ _ _ Rep).
  - right. assert (∀ fd, m !! fd ≠ Some slot) as Hfree.
    { intros fd Hm. apply Hn. by exists fd, slot. }
    split; [done|]. destruct (gr_free _ _ _ _ _ _ Rep slot Hr Hfree) as (Hc' & _).
    rewrite Hc in Hc'. by injection Hc' as ->.
Qed.

Lemma open_ids_spec cf g sg m Ls Dss :
  gate_rep cf g sg m Ls Dss → open_ids g ≡ₚ elements (dom (sg_conns sg)).
Proof.
  intros Rep. apply NoDup_Permutation; [|apply NoDup_elements|].
  - apply NoDup_filter_inj. intros i j fd Hi Hj Hfd.
    apply list_lookup_fmap_Some in Hi as (c1 & -> & Hi). apply list_lookup_fmap_Some in Hj as (c2 & E & Hj).
    rewrite <- aget_nat in Hi, Hj.
    destruct (slot_owner _ _ _ _ _ _ _ _ Rep Hi) as [[Hm1 _]|[_ ?]]; [|lia].
    destruct (slot_owner _ _ _ _ _ _ _ _ Rep Hj) as [[Hm2 _]|[_ ?]]; [|lia].
    rewrite E, Hm2 in Hm1. injection Hm1. lia.
  - intros fd. unfold open_ids. rewrite elem_of_elements, <- (gr_dom _ _ _ _ _ _ Rep), list_elem_of_filter, elem_of_dom. split.
    + intros [Hfd (i & Hi)%list_elem_of_lookup]. apply list_lookup_fmap_Some in Hi as (c & -> & Hi).
      rewrite <- aget_nat in Hi. destruct (slot_owner _ _ _ _ _ _ _ _ Rep Hi) as [[Hm _]|[_ ?]]; [by eexists|lia].
    + intros [slot Hm]. split; [by eapply (gr_id _ _ _ _ _ _ Rep)|].
      destruct (slot_conn _ _ _ _ _ _ Rep _ _ Hm) as [sc Hsc].
      destruct (gr_live _ _ _ _ _ _ Rep _ _ _ Hm Hsc) as (c & L & Ds & Hc & _ & _ & Hr).
      apply list_elem_of_lookup. exists (Z.to_nat slot). apply list_lookup_fmap_Some. exists c.
      split; [by rewrite (cn_id _ _ _ _ _ _ _ Hr)|]. by apply aget_lookup.
Qed.

(** No block is left when no connection is. *)
Lemma no_blocks cf g sg m Ls Dss :
  gate_rep cf g sg m Ls Dss → sg_conns sg = ∅ → concat Dss = [].
Proof.
  intros Rep Hc. pose proof (gr_dom _ _ _ _ _ _ Rep) as Hd. rewrite Hc, dom_empty_L in Hd. apply dom_empty_inv_L in Hd.
  enough (Dss = replicate (length Dss) []) as -> by apply concat_nils.
  apply list_eq. intros i. destruct (decide (i < length Dss)%nat) as [Hi|Hi].
  - destruct (gr_free _ _ _ _ _ _ Rep (Z.of_nat i)) as (_ & _ & HD).
    + rewrite <- (gr_conn _ _ _ _ _ _ Rep), <- (gr_Dss _ _ _ _ _ _ Rep). lia.
    + intros fd. by rewrite Hd, lookup_empty.
    + rewrite aget_nat in HD. rewrite HD. symmetry. by apply lookup_replicate.
  - rewrite !lookup_ge_None_2; [done|rewrite length_replicate; lia|lia].
Qed.

(** C25: Any gate that [gate_init] has started behaves as the table
    of connections of the specification: over any sequence of the commands kick, start,
    forward, broker and close written out in full, of sockets that come and go, and of
    data in pieces of any size, it sends what the specification sends, in that order;
    every block of data is freed once or still held, and none is held when no connection
    is open; at its end it closes the sockets that are open, but frees no block that
    they hold (release_leaks). The socket server is taken to accept only for the socket
    that the gate listens on at that time (accept_after_close), with an id that no
    connection has and that stays below 2^31 with the number of slots added
    (insert_overflows); at most INT_MAX bytes wait in a connection, there are at most
    2^30 slots, and an agent does not write an empty message. *)
Theorem gate_refines queryname lr parm g es evs :
  gate_init queryname lr parm gate_create = Some (0, g, es) → g_max_connection g ≤ 2 ^ 30 →
  legal_run (gate_config g) queryname (sgate_init g) evs →
  let r := srun (gate_config g) queryname (sgate_init g) evs in
  ∃ g' es' held g'' closed,
    grun queryname evs g = Some (r.2, g', es') ∧ visible es' = r.1.2 ∧
    frees es' ++ held ≡ₚ concat (map received evs) ∧ (sg_conns r.1.1 = ∅ → held = []) ∧
    gate_release g' = Some (tt, g'', map SocketClose closed ++
      (if 0 <=? sg_listen r.1.1 then [SocketClose (sg_listen r.1.1)] else [])) ∧
    closed ≡ₚ elements (dom (sg_conns r.1.1)).
Proof.
  intros Hi Hmax Hl r. pose proof (gate_init_rep _ _ _ _ _ Hi Hmax) as Rep.
  destruct (grun_spec _ _ evs _ _ _ _ _ Rep Hl) as (g' & es' & m' & Ls' & Dss' & E & Hv & Rep' & Hf).
  fold r in E, Hv, Rep'. destruct (gate_release_spec g') as [g'' Er].
  { by rewrite (gr_conn _ _ _ _ _ _ Rep'), (gr_max _ _ _ _ _ _ Rep'). }
  rewrite (gr_listen _ _ _ _ _ _ Rep') in Er.
  exists g', es', (concat Dss'), g'', (open_ids g'). split; [done|]. split; [done|]. split; [|split; [|split; [done|]]].
  - by rewrite Hf, concat_nils, app_nil_r.
  - by apply (no_blocks _ _ _ _ _ _ Rep').
  - by eapply open_ids_spec.
Qed.
