(* ===== verification/GateFrames.v ===== *)
(** What a client of the gate sees ([service_gate.c]): packages sent over a
    connection in pieces of any size arrive once, whole and in order, whatever the
    other connections do; and where the gate does not do what it means to. *)
From Stdlib Require Import String.
From S2P Require Import Prelude Bytes Buffer Effect CString Links Hashid Databuffer Gate GateText GateSpec GateTable GateTrace.
Local Open Scope Z_scope.

(** A package on the wire. *)
Definition gate_frame (hs : Z) (p : list Z) : list Z := be_bytes (Z.to_nat hs) (Z.of_nat (length p)) ++ p.
Definition gate_stream (hs : Z) (ps : list (list Z)) : list Z := concat (map (gate_frame hs) ps).

Definition package_ok (hs : Z) (p : list Z) : Prop :=
  Z.of_nat (length p) < if hs =? 2 then 2 ^ 16 else 2 ^ 24.

(** Empty packages are not forwarded. *)
Definition nonempty (ps : list (list Z)) : list (list Z) := List.filter (λ p, negb (Z.of_nat (length p) =? 0)) ps.

(** What is left of a stream is less than its next package. *)
Definition stalled (hs : Z) (raw : list Z) (ps : list (list Z)) : Prop :=
  match ps with
  | [] => raw = []
  | p :: _ => Z.of_nat (length raw) < hs + Z.of_nat (length p)
  end.

Lemma length_frame hs p : 0 ≤ hs → Z.of_nat (length (gate_frame hs p)) = hs + Z.of_nat (length p).
Proof. intros. unfold gate_frame. rewrite length_app, length_be_bytes. lia. Qed.

Lemma frame_header hs p :
  hs_ok hs → package_ok hs p → header_value hs (be_bytes (Z.to_nat hs) (Z.of_nat (length p))) = Z.of_nat (length p).
Proof.
  intros Hhs Hp. unfold header_value, package_ok in *. rewrite be_val_bytes.
  destruct Hhs as [->| ->].
  - change (8 * Z.of_nat (Z.to_nat 2)) with 16. change (Z.of_nat (length p) < 2 ^ 16) in Hp.
    apply wrap_small. lia.
  - change (8 * Z.of_nat (Z.to_nat 4)) with 32. change (Z.of_nat (length p) < 2 ^ 24) in Hp.
    rewrite swrap_wrap by lia. apply swrap_small; lia.
Qed.

Lemma app_prefix {A} (a b l r : list A) :
  a ++ r = b ++ l → (length b ≤ length a)%nat → take (length b) a = b ∧ drop (length b) a ++ r = l.
Proof.
  intros E Hl. assert (take (length b) (a ++ r) = take (length b) (b ++ l)) as E1 by (by rewrite E).
  assert (drop (length b) (a ++ r) = drop (length b) (b ++ l)) as E2 by (by rewrite E).
  rewrite take_app_le, take_app_length in E1 by done. rewrite drop_app_le, drop_app_length in E2 by done. done.
Qed.

(** [deliver] takes the packages that are complete. *)
Lemma deliver_frames n hs fd send raw rest ps :
  hs_ok hs → Forall (package_ok hs) ps → raw ++ rest = gate_stream hs ps →
  Z.of_nat (length raw) < hs * Z.of_nat n →
  ∃ ps1 ps2 raw', ps = ps1 ++ ps2 ∧ deliver n hs fd (Some send) raw = (map send (nonempty ps1), raw') ∧
    raw' ++ rest = gate_stream hs ps2 ∧ stalled hs raw' ps2.
Proof.
  intros Hhs. revert raw ps. assert (2 ≤ hs) as Hh by (destruct Hhs; lia).
  induction n as [|n IH]; intros raw ps Hok Hs Hn; [lia|]. cbn [deliver].
  destruct ps as [|p ps].
  { apply app_eq_nil in Hs as [-> ->]. rewrite (proj2 (Z.ltb_lt _ _)) by (cbn; lia). by exists [], [], []. }
  apply Forall_cons in Hok as [Hp Hok]. cbn [gate_stream map concat] in Hs. fold (gate_stream hs ps) in Hs.
  unfold gate_frame in Hs. rewrite <- app_assoc in Hs.
  destruct (Z.ltb_spec (Z.of_nat (length raw)) hs) as [Hl|Hl].
  { exists [], (p :: ps), raw. split; [done|]. split; [done|]. split; [|cbn; lia].
    rewrite Hs. unfold gate_stream, gate_frame. cbn. by rewrite <- app_assoc. }
  destruct (app_prefix _ _ _ _ Hs) as [Et Ed]; [rewrite length_be_bytes; lia|].
  rewrite length_be_bytes in Et, Ed. rewrite Et, frame_header by done.
  set (body := drop (Z.to_nat hs) raw) in *.
  assert (Z.of_nat (length body) = Z.of_nat (length raw) - hs) as Hlb by (unfold body; rewrite length_drop; lia).
  rewrite (proj2 (Z.ltb_ge (Z.of_nat (length p)) 0)) by lia. cbn [orb].
  destruct (Z.ltb_spec (Z.of_nat (length body)) (Z.of_nat (length p))) as [Hlp|Hlp].
  { exists [], (p :: ps), raw. split; [done|]. split; [done|]. split; [|cbn; lia].
    rewrite Hs. unfold gate_stream, gate_frame. cbn. by rewrite <- app_assoc. }
  destruct (app_prefix _ _ _ _ Ed) as [Et2 Ed2]; [lia|].
  destruct (Z.eqb_spec (Z.of_nat (length p)) 0) as [Hz|Hz].
  { destruct p; [|cbn in Hz; lia]. destruct (IH body ps Hok) as (ps1 & ps2 & raw' & -> & E & Hr); [done|lia|].
    exists ([] :: ps1), ps2, raw'. rewrite E. done. }
  assert (Z.of_nat (length p) < 16777216) as Hp16.
  { unfold package_ok in Hp. destruct (hs =? 2); cbn in Hp; lia. }
  rewrite (proj2 (Z.leb_gt _ _)) by lia. rewrite Nat2Z.id, Et2.
  destruct (IH (drop (length p) body) ps Hok Ed2) as (ps1 & ps2 & raw' & -> & E & Hr).
  { rewrite length_drop. lia. }
  exists (p :: ps1), ps2, raw'. rewrite E. split; [done|]. split; [|done]. unfold nonempty. cbn [List.filter].
  rewrite (proj2 (Z.eqb_neq _ _)) by done. done.
Qed.

(** ** A connection among others *)

Definition data_of (fd : Z) (evs : list event) : list Z :=
  concat (map (λ ev, match ev with EvData fd' data => if fd' =? fd then data else [] | _ => [] end) evs).

(** Events that leave the connection and the receiver of its packages. *)
Definition keeps (fd : Z) (ev : event) : Prop :=
  match ev with
  | EvCommand (Forward fd' _ _) | EvClose fd' | EvError fd' => fd' ≠ fd
  | EvCommand (Broker _) => False
  | _ => True
  end.

(** Messages about the data of a connection have its id as their session. *)
Definition about (fd : Z) (e : effect) : bool :=
  match e with Send _ _ _ session _ => session =? fd | _ => false end.

Lemma about_report cf fd msg : 0 < fd → List.filter (about fd) (report cf msg) = [].
Proof.
  intros Hfd. unfold report. destruct (cf_watchdog cf =? 0); [done|]. cbn.
  by rewrite (proj2 (Z.eqb_neq 0 fd)) by lia.
Qed.

Lemma about_dest cf broker agent client fd fd' send p :
  dest cf broker agent client fd' = Some send → about fd (send p) = (fd' =? fd).
Proof. unfold dest. intros E. repeat case_match; simplify_eq; done. Qed.

Lemma about_other n cf broker agent client fd fd' raw :
  fd' ≠ fd → List.filter (about fd) (deliver n (cf_hs cf) fd' (dest cf broker agent client fd') raw).1 = [].
Proof.
  intros Hne. revert raw. induction n as [|n IH]; intros raw; [done|]. cbn [deliver].
  repeat match goal with |- context [if ?b then _ else _] => destruct b; try done; try apply IH end.
  destruct (dest cf broker agent client fd') as [send|] eqn:Ed; [|apply IH].
  specialize (IH (drop (Z.to_nat (header_value (cf_hs cf) (take (Z.to_nat (cf_hs cf)) raw))) (drop (Z.to_nat (cf_hs cf)) raw))).
  destruct (deliver _ _ _ _ _) as [es rest]. cbn [fst List.filter] in *.
  by rewrite (about_dest _ _ _ _ _ _ _ _ Ed), (proj2 (Z.eqb_neq _ _)).
Qed.

Lemma dest_pos cf broker agent client fd send : dest cf broker agent client fd = Some send → 0 < fd.
Proof. unfold dest. destruct (Z.leb_spec fd 0); [done|lia]. Qed.

(** An event that is not data of the connection. *)
Lemma other_event cf queryname sg ev fd agent client raw :
  0 < fd → sg_conns sg !! fd = Some (SConn agent client raw) → legal cf sg ev → keeps fd ev →
  (∀ data, ev ≠ EvData fd data) →
  sg_conns (sstep cf queryname sg ev).1 !! fd = Some (SConn agent client raw) ∧
  sg_broker (sstep cf queryname sg ev).1 = sg_broker sg ∧
  List.filter (about fd) (sstep cf queryname sg ev).2 = [].
Proof.
  intros Hfd Hc Hl Hk Hd.
  destruct ev as [[fd'|fd' a c|name|fd'|]|fd' data|fd' data|fd'|fd'|fd'|listen fd' text|fd' k|]; cbn [sstep keeps legal] in *.
  - by destruct (known sg fd').
  - destruct (sg_conns sg !! fd'); cbn; [by rewrite lookup_insert_ne|done].
  - done.
  - by destruct (known sg fd').
  - by destruct (0 <=? sg_listen sg).
  - by destruct (known sg fd').
  - assert (fd' ≠ fd) as Hne by (intros ->; by apply (Hd data)).
    destruct (sg_conns sg !! fd') as [sc|]; [|done]. unfold packages.
    pose proof (about_other (S (length (sc_raw sc ++ data))) cf (sg_broker sg) (sc_agent sc) (sc_client sc) fd fd' (sc_raw sc ++ data) Hne) as Ho.
    destruct (deliver _ _ _ _ _) as [es raw']. cbn in *. by rewrite lookup_insert_ne.
  - by destruct (_ || _).
  - destruct (known sg fd'); [|done]. cbn. rewrite lookup_delete_ne by done. by rewrite about_report.
  - destruct (known sg fd'); [|done]. cbn. rewrite lookup_delete_ne by done. by rewrite about_report.
  - destruct Hl as (_ & _ & _ & Hno). assert (fd' ≠ fd) as Hne by (intros ->; congruence).
    destruct (_ =? _); [done|]. cbn. rewrite lookup_insert_ne by done. split; [done|]. split; [done|].
    by rewrite List.filter_app, about_report.
  - done.
  - done.
Qed.

Lemma data_event fd ev : (∃ data, ev = EvData fd data) ∨ ∀ data, ev ≠ EvData fd data.
Proof.
  destruct ev as [| |fd' data| | | | | |]; try (by right). destruct (decide (fd' = fd)) as [->|Hne].
  - left. by exists data.
  - right. congruence.
Qed.

Lemma srun_frames cf queryname fd send agent client evs sg raw ps :
  hs_ok (cf_hs cf) → sg_conns sg !! fd = Some (SConn agent client raw) →
  dest cf (sg_broker sg) agent client fd = Some send →
  legal_run cf queryname sg evs → Forall (keeps fd) evs → Forall (package_ok (cf_hs cf)) ps →
  raw ++ data_of fd evs = gate_stream (cf_hs cf) ps → stalled (cf_hs cf) raw ps →
  List.filter (about fd) (srun cf queryname sg evs).1.2 = map send (nonempty ps).
Proof.
  intros Hhs. assert (2 ≤ cf_hs cf) as Hh by (destruct Hhs; lia).
  revert sg raw ps. induction evs as [|ev evs IH]; intros sg raw ps Hc Hdst Hl Hk Hok Hs Hst.
  { change (data_of fd []) with (@nil Z) in Hs. rewrite app_nil_r in Hs. subst raw.
    destruct ps as [|p ps]; [done|]. cbn [stalled] in Hst. unfold gate_stream in Hst. cbn [map concat] in Hst.
    rewrite length_app in Hst. pose proof (length_frame (cf_hs cf) p). lia. }
  apply Forall_cons in Hk as [Hkev Hk]. destruct Hl as [Hlev Hl]. cbn [srun].
  pose proof (dest_pos _ _ _ _ _ _ Hdst) as Hfd.
  destruct (data_event fd ev) as [[data ->]|Hn].
  - cbn [sstep] in *. rewrite Hc in *. unfold packages in *. cbn [sc_agent sc_client sc_raw] in *. rewrite Hdst in *.
    unfold data_of in Hs. cbn [map concat] in Hs. rewrite Z.eqb_refl, app_assoc in Hs.
    destruct (deliver_frames (S (length (raw ++ data))) (cf_hs cf) fd send (raw ++ data) _ ps Hhs Hok Hs)
      as (ps1 & ps2 & raw' & -> & E & Hs' & Hst'); [nia|].
    rewrite E in *. apply Forall_app in Hok as [_ Hok2].
    specialize (IH (set_conns sg (<[fd := SConn agent client raw']> (sg_conns sg))) raw' ps2 (lookup_insert_eq _ _ _) Hdst Hl Hk Hok2 Hs' Hst').
    destruct (srun _ _ _ evs) as [[sg2 es2] rs]. cbn [fst snd] in *.
    rewrite List.filter_app, IH. unfold nonempty. rewrite List.filter_app, map_app. f_equal.
    induction (List.filter _ ps1) as [|p l IHl]; [done|]. cbn. rewrite (about_dest _ _ _ _ _ _ _ _ Hdst), Z.eqb_refl.
    by f_equal.
  - destruct (other_event cf queryname sg ev fd agent client raw Hfd Hc Hlev Hkev Hn)
      as (Hc' & Hb' & He').
    destruct (sstep cf queryname sg ev) as [sg1 es1]. cbn [fst snd] in *.
    assert (data_of fd (ev :: evs) = data_of fd evs) as Ed.
    { unfold data_of. cbn [map concat]. destruct ev as [| |fd' data| | | | | |]; try done.
      destruct (Z.eqb_spec fd' fd) as [->|]; [|done]. by destruct (Hn data). }
    rewrite Ed in Hs. rewrite <- Hb' in Hdst.
    specialize (IH sg1 raw ps Hc' Hdst Hl Hk Hok Hs Hst).
    destruct (srun _ _ _ evs) as [[sg2 es2] rs]. cbn [fst snd] in *.
    by rewrite List.filter_app, He'.
Qed.

(** C26: After the events [evs1], a connection with an empty stream
    has a receiver.  Whatever other sockets do during [evs2], whatever services do but
    to change the broker or to forward this connection elsewhere, while it stays
    open and however the packages [ps] are cut into the pieces that arrive for it, the
    receiver gets a message for every package, in order; only empty packages give none.
    A package has less than 2^24 bytes, or 2^16 with a header of 2 bytes, and the events
    are as gate_refines needs them. *)
Theorem gate_forwards queryname lr parm g es evs1 evs2 fd agent client send ps :
  gate_init queryname lr parm gate_create = Some (0, g, es) → g_max_connection g ≤ 2 ^ 30 →
  let cf := gate_config g in
  let sg := (srun cf queryname (sgate_init g) evs1).1.1 in
  legal_run cf queryname (sgate_init g) (evs1 ++ evs2) →
  sg_conns sg !! fd = Some (SConn agent client []) →
  dest cf (sg_broker sg) agent client fd = Some send →
  Forall (keeps fd) evs2 → Forall (package_ok (cf_hs cf)) ps →
  data_of fd evs2 = gate_stream (cf_hs cf) ps →
  ∃ g1 rs1 es1 g2 rs2 es2,
    grun queryname evs1 g = Some (rs1, g1, es1) ∧ grun queryname evs2 g1 = Some (rs2, g2, es2) ∧
    List.filter (about fd) es2 = map send (nonempty ps).
Proof.
  intros Hi Hmax cf sg [Hl1 Hl2]%legal_run_app Hc Hd Hk Hok Hs.
  pose proof (gate_init_rep _ _ _ _ _ Hi Hmax) as Rep.
  destruct (grun_spec _ _ evs1 _ _ _ _ _ Rep Hl1) as (g1 & es1 & m1 & Ls1 & Dss1 & E1 & _ & Rep1 & _).
  destruct (grun_spec _ _ evs2 _ _ _ _ _ Rep1 Hl2) as (g2 & es2 & m2 & Ls2 & Dss2 & E2 & Hv2 & _).
  eexists g1, _, es1, g2, _, es2. split; [exact E1|]. split; [exact E2|].
  rewrite <- (srun_frames cf queryname fd send agent client evs2 sg [] ps (gr_hs _ _ _ _ _ _ Rep) Hc Hd Hl2 Hk Hok Hs).
  - fold cf sg in Hv2. rewrite <- Hv2. clear. unfold visible. induction es2 as [|e es IH]; [done|]. cbn.
    destruct e; cbn; rewrite ?IH; done.
  - pose proof (gr_hs _ _ _ _ _ _ Rep) as Hhs. fold cf in Hhs. destruct ps; [done|]. cbn [stalled length]. destruct Hhs; lia.
Qed.

(** ** A gate with two connections *)

Lemma option_forall_dec {A} (P : A → Prop) `{!∀ x, Decision (P x)} (o : option A) :
  Decision (∀ x, o = Some x → P x).
Proof.
  refine (match o with Some x => cast_if (decide (P x)) | None => left _ end).
  - by intros y [= <-].
  - intros Hn. by apply n, Hn.
  - done.
Defined.

#[local] Instance legal_dec cf sg ev : Decision (legal cf sg ev).
Proof.
  destruct ev as [[fd|fd a c|name|fd|]|fd data|fd data|fd|fd|fd|l fd text|fd k|]; cbn [legal];
    unfold id_ok, handle_ok, byte_ok; try apply _.
  - apply and_dec; [apply _|]. apply (option_forall_dec (λ c, c ≠ 32)).
  - apply and_dec; [apply _|]. by apply (option_forall_dec (λ sc, Z.of_nat (length (sc_raw sc)) + Z.of_nat (length data) ≤ INT_MAX)).
Defined.

#[local] Instance legal_run_dec cf queryname sg evs : Decision (legal_run cf queryname sg evs).
Proof.
  revert sg. induction evs as [|ev evs IH]; intros sg; cbn [legal_run]; [by left|].
  apply and_dec; [apply legal_dec|apply IH].
Defined.

Definition demo_name (name : list Z) : Z := 99.
Definition demo_listen (host : list Z) (port : Z) : Z := 5.
Definition demo_parm : list Z := str "S .watchdog 127.0.0.1:8888 0 4".

Definition demo_gate : gate :=
  match gate_init demo_name demo_listen demo_parm gate_create with
  | Some (_, g, _) => g
  | None => gate_create
  end.

Definition demo_before : list event :=
  [EvAccept 5 7 (str "10.0.0.1"); EvCommand (Start 7); EvConnect 7; EvAccept 5 23 (str "10.0.0.2");
   EvCommand (Forward 7 16 171)].

(** Three packages for 7, one of them empty, in three pieces, while 23 sends and goes. *)
Definition demo_events : list event :=
  [EvData 7 [0; 3; 1]; EvData 23 [0; 1]; EvData 7 [2; 3; 0; 0; 0]; EvWrite 7 [42]; EvData 23 [5; 0]; EvClose 23;
   EvData 7 [2; 8; 9]; EvCommand Close].

Definition demo_end : list event := [EvCommand (Kick 7); EvClose 7].

Lemma demo_init : gate_init demo_name demo_listen demo_parm gate_create =
  Some (0, demo_gate, [SocketListen (str "127.0.0.1") 8888 128; SocketStart 5]).
Proof. vm_compute. done. Qed.

Definition demo_run : sgate * list effect * list Z :=
  srun (gate_config demo_gate) demo_name (sgate_init demo_gate) (demo_before ++ demo_events ++ demo_end).

Lemma demo_run_end : sg_conns demo_run.1.1 = ∅ ∧ sg_listen demo_run.1.1 = -1.
Proof. vm_compute. done. Qed.

Lemma gate_refines_witness :
  ∃ g' es' held g'' closed,
    grun demo_name (demo_before ++ demo_events ++ demo_end) demo_gate = Some (demo_run.2, g', es') ∧
    visible es' = demo_run.1.2 ∧
    frees es' ++ held ≡ₚ [[0; 3; 1]; [0; 1]; [2; 3; 0; 0; 0]; [5; 0]; [2; 8; 9]] ∧ held = [] ∧
    gate_release g' = Some (tt, g'', map SocketClose closed ++ []) ∧ closed ≡ₚ [].
Proof.
  destruct demo_run_end as [Hc Hl].
  destruct (gate_refines demo_name demo_listen demo_parm demo_gate _ (demo_before ++ demo_events ++ demo_end)
    demo_init) as (g' & es' & held & g'' & closed & E & Hv & Hf & Hh & Er & Hcl).
  - vm_compute. discriminate.
  - apply (bool_decide_unpack (legal_run _ _ _ _)). vm_compute. done.
  - fold demo_run in E, Hv, Hh, Er, Hcl. rewrite Hc in Hcl, Hh. rewrite Hl in Er.
    rewrite dom_empty_L, elements_empty in Hcl. change (0 <=? -1) with false in Er.
    exists g', es', held, g'', closed. split; [exact E|]. split; [exact Hv|]. split; [exact Hf|].
    split; [exact (Hh eq_refl)|]. split; [exact Er|exact Hcl].
Defined.

Lemma gate_forwards_witness :
  ∃ g1 rs1 es1 g2 rs2 es2,
    grun demo_name demo_before demo_gate = Some (rs1, g1, es1) ∧
    grun demo_name demo_events g1 = Some (rs2, g2, es2) ∧
    List.filter (about 7) es2 = [Send 171 16 65539 7 [1; 2; 3]; Send 171 16 65539 7 [8; 9]].
Proof.
  apply (gate_forwards demo_name demo_listen demo_parm demo_gate _ demo_before demo_events 7 16 171
    (Send 171 16 65539 7) [[1; 2; 3]; []; [8; 9]] demo_init).
  - vm_compute. discriminate.
  - apply (bool_decide_unpack (legal_run _ _ _ _)). vm_compute. done.
  - vm_compute. done.
  - vm_compute. done.
  - repeat constructor; done.
  - repeat constructor.
  - vm_compute. done.
Defined.

(** ** Where the code does not do what it means to *)

(** Sends the data of events to a gate and gives what can be seen. *)
Definition seen (queryname : list Z → Z) (evs : list event) (g : gate) : option (list effect) :=
  match grun queryname evs g with Some (_, _, es) => Some (visible es) | None => None end.

Definition lone_gate : gate :=
  match gate_init demo_name demo_listen (str "S ! :8888 0 4") gate_create with
  | Some (_, g, _) => g
  | None => gate_create
  end.

(** [_forward] leaves a package in the buffer when there is no one to send it to
    yet, but [dispatch_message] forgets its header: the next headers are taken from
    inside of the package. *)
Lemma unforwarded_package_stays :
  seen demo_name [EvAccept 5 7 []; EvData 7 [0; 5; 0; 1; 0; 2; 44]; EvCommand (Forward 7 16 0);
                  EvData 7 [45; 0; 1; 9]] lone_gate =
  Some [LogError; Send 0 16 65539 7 [44; 45]; Send 0 16 65539 7 [9]].
Proof. vm_compute. done. Qed.

(** [_ctrl] compares only the letters that are there: an empty word is [kick], and
    one letter closes the gate. *)
Lemma ctrl_takes_prefix :
  _ctrl demo_name (str " 7") demo_gate = _ctrl demo_name (command_text (Kick 7)) demo_gate ∧
  _ctrl demo_name (str "c") demo_gate = _ctrl demo_name (command_text Close) demo_gate.
Proof. vm_compute. done. Qed.

(** A size with its first bit set is a negative [int]: the loop stops for good, the
    connection is not closed, and all its data is kept. *)
Lemma negative_size_stuck n fd dst b raw :
  128 ≤ b < 256 → (0 < n)%nat → Forall byte_ok raw → (3 ≤ length raw)%nat →
  deliver n 4 fd dst (b :: raw) = ([], b :: raw).
Proof.
  intros Hb Hn Hok Hl. destruct n as [|n]; [lia|]. cbn [deliver].
  rewrite (proj2 (Z.ltb_ge _ _)) by (cbn [length]; lia).
  destruct raw as [|b1 [|b2 [|b3 raw]]]; cbn in Hl; try lia.
  change (take (Z.to_nat 4) (b :: b1 :: b2 :: b3 :: raw)) with [b; b1; b2; b3].
  rewrite !Forall_cons in Hok. destruct Hok as (H1 & H2 & H3 & _).
  assert (header_value 4 [b; b1; b2; b3] <? 0 = true) as ->; [|done].
  apply Z.ltb_lt. unfold header_value, be_val. rewrite (proj2 (Z.eqb_neq 4 2)) by lia. cbn [rev app].
  rewrite !le_val_cons by (done || unfold byte_ok; lia). cbn [le_val]. unfold byte_ok in *.
  set (v := b3 + _). assert (2 ^ 31 ≤ v < 2 ^ 32) as Hv by (unfold v; lia). clearbody v.
  unfold swrap. change (2 ^ (32 - 1)) with (2 ^ 31). replace (v + 2 ^ 31) with (v - 2 ^ 31 + 1 * 2 ^ 32) by lia.
  rewrite Z_mod_plus_full, Z.mod_small by lia. lia.
Qed.

(** The sum of the id and the round of the search overflows at the largest ids. *)
Lemma insert_overflows :
  (h ← hashid_init 2; '(_, h) ← hashid_insert h 1; hashid_insert h INT_MAX) = None.
Proof. vm_compute. done. Qed.

(** [gate_release] frees the nodes but not the blocks of data they hold. *)
Lemma release_leaks :
  match (grun demo_name [EvAccept 5 7 []; EvData 7 [0]] demo_gate) with
  | Some (_, g, es) => frees es = [] ∧
    match gate_release g with Some (_, _, es) => frees es = [] | None => False end
  | None => False
  end.
Proof. vm_compute. done. Qed.

(** An [accept] that is still in the queue when a command closes the gate fails the
    assertion that it is for the socket that the gate listens on. *)
Lemma accept_after_close :
  grun demo_name [EvCommand Close; EvAccept 5 7 []] demo_gate = None ∧
  grun demo_name [EvAccept 5 7 []; EvCommand Close] demo_gate ≠ None.
Proof. vm_compute. done. Qed.
