(* ===== verification/Stm.v ===== *)
(** Shared memory between services (src/framework/skynet/lualib-src/lua-stm.c, with
    the locks of skynet-src/rwlock.h).

    An [stm_object] holds the current copy of a message.  One service writes it, the
    services that were given a reference read it, and all run in different threads.
    Every thread is a stack of atomic actions ([frame]): a read or write of a shared
    word, a lock word among them, or the release of memory.  The words that only one
    thread uses, such as the box of a reader, are changed along with these. *)
From S2P Require Import Prelude.
Local Open Scope Z_scope.

(** ** Memory *)

Record rwlock := RwLock { write : Z; read : Z }.

Record stm_copy := StmCopy { cp_reference : Z; cp_msg : list Z }.

Record stm_object := StmObject { ob_lock : rwlock; ob_reference : Z; ob_copy : option Z }.

(** [None] is an object that was freed.  [m_tokens]: the references that [stm.copy]
    gave and no reader was made of. *)
Record memory := Memory {
  m_obj : option stm_object; m_copies : gmap Z stm_copy; m_tokens : Z;
}.

(** [boxstm] and [boxreader]; a deleted box is not [alive]. *)
Inductive box :=
  | Writer (alive : bool)
  | Reader (lastcopy : option Z) (alive : bool).

(** What the lock was taken for. *)
Inductive rsection := SGrab | SCopy | SDrop.
Inductive wsection := KUpdate (c : Z) | KRelease.

Inductive frame :=
  (** [rwlock_rlock]: the loop that waits, the two atomic actions, and the way back *)
  | FRlockWait (k : rsection) | FRlockInc (k : rsection) | FRlockCheck (k : rsection) | FRlockBack (k : rsection)
  | FRunlock
  (** [rwlock_wlock] *)
  | FWlockCas (k : wsection) | FWlockWait (k : wsection)
  | FWunlock
  (** [stm_grab] *)
  | FGrab | FGranted (ref : Z)
  (** [stm_copy] *)
  | FLoadCopy | FIncCopy (c : Z)
  (** [lread] after [stm_copy] *)
  | FCompare (ret : option Z) | FUse (c : Z)
  (** [stm_update] *)
  | FSwap (c : Z)
  (** [stm_release] *)
  | FAssertCopy | FReleaseObj | FClearCopy | FDropWriter
  (** [stm_releasereader], and [ldeletereader] after it *)
  | FDropReader | FAssertNone | FReleaseLast
  (** [skynet_free] of the object, by a reader or the writer *)
  | FFreeObj (reader : bool)
  (** [stm_releasecopy] *)
  | FReleaseCopy (copy : option Z) | FFreeCopy (c : Z).

Record thread := Thread { t_box : box; t_todo : list frame }.

(** What happens to the readers' view of the object: [ENew] and [ESame] tell whether
    [lread] finds a copy that it has not seen, [EUse] is the call with the message.
    [lread] answers true after [ENew t true] and false after [ESame] and, when the object
    is dead, after [ENew t false]. *)
Inductive event :=
  | EPublish (msg : list Z)
  | EClear
  | ELoad (t : nat)
  | ESame (t : nat)
  | ENew (t : nat) (answer : bool)
  | EUse (t : nat) (msg : list Z).

(** ** Actions *)

Definition set_obj (o : stm_object) (m : memory) : memory := Memory (Some o) (m_copies m) (m_tokens m).
Definition set_copies (cs : gmap Z stm_copy) (m : memory) : memory := Memory (m_obj m) cs (m_tokens m).
Definition set_read (r : Z) (o : stm_object) : stm_object :=
  StmObject (RwLock (write (ob_lock o)) r) (ob_reference o) (ob_copy o).
Definition set_write (w : Z) (o : stm_object) : stm_object :=
  StmObject (RwLock w (read (ob_lock o))) (ob_reference o) (ob_copy o).
Definition set_reference (r : Z) (o : stm_object) : stm_object := StmObject (ob_lock o) r (ob_copy o).
Definition set_copy (c : option Z) (o : stm_object) : stm_object := StmObject (ob_lock o) (ob_reference o) c.

(** The new frames on top, the box, the memory, and the event of an action; [None]
    is an access to freed memory or a failed assertion. *)
Definition result : Type := option (list frame * box * memory * list event).

Definition copy_of (b : box) : option Z := match b with Reader c _ => c | Writer _ => None end.
Definition set_lastcopy (c : option Z) (b : box) : box := match b with Reader _ a => Reader c a | Writer a => Writer a end.

Definition exec_read (t : nat) (f : frame) (b : box) (m : memory) (o : stm_object) : result :=
  let lock := ob_lock o in
  match f with
  | FRlockWait k => Some ([if write lock =? 0 then FRlockInc k else FRlockWait k], b, m, [])
  | FRlockInc k => Some ([FRlockCheck k], b, set_obj (set_read (read lock + 1) o) m, [])
  | FRlockCheck k =>
    Some ([if negb (write lock =? 0) then FRlockBack k
           else match k with SGrab => FGrab | SCopy => FLoadCopy | SDrop => FDropReader end], b, m, [])
  | FRlockBack k => Some ([FRlockWait k], b, set_obj (set_read (read lock - 1) o) m, [])
  | FRunlock => Some ([], b, set_obj (set_read (read lock - 1) o) m, [])
  | FGrab => Some ([FRunlock; FGranted (ob_reference o)], b, set_obj (set_reference (ob_reference o + 1) o) m, [])
  | FLoadCopy =>
    Some (match ob_copy o with Some c => [FIncCopy c] | None => [FRunlock; FCompare None] end, b, m, [ELoad t])
  | FDropReader =>
    Some ([if ob_reference o =? 1 then FAssertNone else FRunlock], b,
          set_obj (set_reference (ob_reference o - 1) o) m, [])
  | FAssertNone => assert! bool_decide (ob_copy o = None); Some ([FFreeObj true], b, m, [])
  | FFreeObj _ => Some ([], b, Memory None (m_copies m) (m_tokens m), [])
  | _ => None
  end.

Definition exec_write (f : frame) (b : box) (m : memory) (o : stm_object) : result :=
  let lock := ob_lock o in
  match f with
  | FWlockCas k =>
    if write lock =? 0 then Some ([FWlockWait k], b, set_obj (set_write 1 o) m, []) else Some ([FWlockCas k], b, m, [])
  | FWlockWait k =>
    Some ([if read lock =? 0 then match k with KUpdate c => FSwap c | KRelease => FReleaseObj end
           else FWlockWait k], b, m, [])
  | FWunlock => Some ([], b, set_obj (set_write 0 o) m, [])
  | FSwap c =>
    cp ← m_copies m !! c;
    Some ([FWunlock; FReleaseCopy (ob_copy o)], b, set_obj (set_copy (Some c) o) m, [EPublish (cp_msg cp)])
  | FAssertCopy => assert! bool_decide (ob_copy o ≠ None); Some ([FWlockCas KRelease], b, m, [])
  | FReleaseObj => Some ([FReleaseCopy (ob_copy o); FClearCopy], b, m, [])
  | FClearCopy => Some ([FDropWriter], b, set_obj (set_copy None o) m, [EClear])
  | FDropWriter =>
    Some ([if 1 <? ob_reference o then FWunlock else FFreeObj false], b,
          set_obj (set_reference (ob_reference o - 1) o) m, [])
  | _ => None
  end.

(** The actions that do not touch the object. *)
Definition exec_copy (t : nat) (f : frame) (b : box) (m : memory) : result :=
  match f with
  | FGranted ref =>
    assert! (0 <? ref); Some ([], b, Memory (m_obj m) (m_copies m) (m_tokens m + 1), [])
  | FIncCopy c =>
    cp ← m_copies m !! c;
    assert! (0 <? cp_reference cp);
    Some ([FRunlock; FCompare (Some c)], b, set_copies (<[c := StmCopy (cp_reference cp + 1) (cp_msg cp)]> (m_copies m)) m, [])
  | FCompare ret =>
    if decide (ret = copy_of b) then Some ([FReleaseCopy ret], b, m, [ESame t])
    else Some (FReleaseCopy (copy_of b) :: match ret with Some c => [FUse c] | None => [] end,
               set_lastcopy ret b, m, [ENew t (bool_decide (is_Some ret))])
  | FUse c => cp ← m_copies m !! c; Some ([], b, m, [EUse t (cp_msg cp)])
  | FReleaseLast => Some ([FReleaseCopy (copy_of b)], set_lastcopy None b, m, [])
  | FReleaseCopy None => Some ([], b, m, [])
  | FReleaseCopy (Some c) =>
    cp ← m_copies m !! c;
    Some (if cp_reference cp <=? 1 then [FFreeCopy c] else [], b,
          set_copies (<[c := StmCopy (cp_reference cp - 1) (cp_msg cp)]> (m_copies m)) m, [])
  | FFreeCopy c => _ ← m_copies m !! c; Some ([], b, set_copies (delete c (m_copies m)) m, [])
  | _ => None
  end.

(** Which memory an action is about. *)
Inductive target := TRead | TWrite | TCopy.
Definition target_of (f : frame) : target :=
  match f with
  | FRlockWait _ | FRlockInc _ | FRlockCheck _ | FRlockBack _ | FRunlock | FGrab | FLoadCopy | FDropReader
  | FAssertNone | FFreeObj _ => TRead
  | FWlockCas _ | FWlockWait _ | FWunlock | FSwap _ | FAssertCopy | FReleaseObj | FClearCopy | FDropWriter => TWrite
  | FGranted _ | FIncCopy _ | FCompare _ | FUse _ | FReleaseLast | FReleaseCopy _ | FFreeCopy _ => TCopy
  end.

Definition exec (t : nat) (f : frame) (b : box) (m : memory) : result :=
  match target_of f with
  | TRead => o ← m_obj m; exec_read t f b m o
  | TWrite => o ← m_obj m; exec_write f b m o
  | TCopy => exec_copy t f b m
  end.

(** ** The functions of the Lua library *)

(** [c] is the address that the allocator gives to a new copy. *)
Inductive call :=
  | CUpdate (c : Z) (msg : list Z)
  | CCopy
  | CDelete
  | CRead
  | CDeleteReader.

Definition serve (r : call) (b : box) (m : memory) : option (list frame * box * memory) :=
  match r, b with
  | CUpdate c msg, Writer true =>
    assert! bool_decide (m_copies m !! c = None);
    Some ([FWlockCas (KUpdate c)], b, set_copies (<[c := StmCopy 1 msg]> (m_copies m)) m)
  | CCopy, Writer true => Some ([FRlockWait SGrab], b, m)
  | CDelete, Writer true => Some ([FAssertCopy], Writer false, m)
  | CRead, Reader _ true => Some ([FRlockWait SCopy], b, m)
  | CDeleteReader, Reader c true => Some ([FRlockWait SDrop; FReleaseLast], Reader c false, m)
  | _, _ => None
  end.

Record system := System { s_mem : memory; s_threads : list thread }.

(** [stm.new]: the object and its first copy. *)
Definition stm_new (c : Z) (msg : list Z) : system :=
  System (Memory (Some (StmObject (RwLock 0 0) 1 (Some c))) {[ c := StmCopy 1 msg ]} 0) [Thread (Writer true) []].

Inductive action :=
  | ARun (t : nat)
  | ACall (t : nat) (r : call)
  | ANewReader.

(** A box serves one call at a time: its service runs in one thread. *)
Definition step (s : system) (a : action) : option (system * list event) :=
  match a with
  | ARun t =>
    th ← s_threads s !! t;
    match t_todo th with
    | [] => None
    | f :: rest =>
      '(fs, b, m, es) ← exec t f (t_box th) (s_mem s);
      Some (System m (<[t := Thread b (fs ++ rest)]> (s_threads s)), es)
    end
  | ACall t r =>
    th ← s_threads s !! t;
    match t_todo th with
    | [] => '(fs, b, m) ← serve r (t_box th) (s_mem s); Some (System m (<[t := Thread b fs]> (s_threads s)), [])
    | _ => None
    end
  | ANewReader =>
    let m := s_mem s in
    assert! (0 <? m_tokens m);
    Some (System (Memory (m_obj m) (m_copies m) (m_tokens m - 1)) (s_threads s ++ [Thread (Reader None true) []]), [])
  end.

Inductive runs : system → list event → system → Prop :=
  | runs_nil s : runs s [] s
  | runs_step s es s' a es' s'' : runs s es s' → step s' a = Some (s'', es') → runs s (es ++ es') s''.

Fixpoint run_actions (s : system) (l : list action) : option (system * list event) :=
  match l with
  | [] => Some (s, [])
  | a :: l => '(s', es) ← step s a; '(s'', es') ← run_actions s' l; Some (s'', es ++ es')
  end.
