(* ===== verification/StmInv.v ===== *)
(** The invariant of the shared objects of [Stm]: the counters are the numbers of
    the references that the threads hold, and the lock separates readers and the
    writer. *)
From S2P Require Import Prelude Stm.
Local Open Scope Z_scope.

(** ** Sums over the threads *)

Fixpoint tsum (w : thread → Z) (ts : list thread) : Z :=
  match ts with
  | [] => 0
  | th :: ts => w th + tsum w ts
  end.

Lemma tsum_insert w ts t th th' :
  ts !! t = Some th → tsum w (<[t := th']> ts) = tsum w ts + w th' - w th.
Proof.
  revert t. induction ts as [|u ts IH]; intros [|t] E; [done|done| |].
  - injection E as ->. cbn. lia.
  - change (<[S t := th']> (u :: ts)) with (u :: <[t := th']> ts). cbn [tsum]. rewrite (IH t E). lia.
Qed.

Lemma tsum_app w ts ts' : tsum w (ts ++ ts') = tsum w ts + tsum w ts'.
Proof. induction ts as [|u ts IH]; cbn; lia. Qed.

Lemma tsum_nonneg w ts : (∀ th, 0 ≤ w th) → 0 ≤ tsum w ts.
Proof. intros H. induction ts as [|u ts IH]; cbn; [lia|]. specialize (H u). lia. Qed.

Lemma tsum_elem w ts t th : (∀ th, 0 ≤ w th) → ts !! t = Some th → w th ≤ tsum w ts.
Proof.
  intros H. revert t. induction ts as [|u ts IH]; intros [|t] E; [done|done| |]; cbn.
  - injection E as ->. pose proof (tsum_nonneg w ts H). lia.
  - specialize (IH t E). specialize (H u). lia.
Qed.

Lemma tsum_le w w' ts : Forall (λ th, w th ≤ w' th) ts → tsum w ts ≤ tsum w' ts.
Proof. induction 1; cbn; lia. Qed.

(** The frames of a thread that [p] selects, and 1 for the box when [b]. *)
Fixpoint fsum (p : frame → bool) (fs : list frame) : Z :=
  match fs with
  | [] => 0
  | f :: fs => (if p f then 1 else 0) + fsum p fs
  end.

Definition weight (b : box → bool) (p : frame → bool) (th : thread) : Z :=
  (if b (t_box th) then 1 else 0) + fsum p (t_todo th).

Lemma fsum_nonneg p fs : 0 ≤ fsum p fs.
Proof. induction fs as [|f fs IH]; cbn; [lia|]. destruct (p f); lia. Qed.

Lemma weight_nonneg b p th : 0 ≤ weight b p th.
Proof. unfold weight. pose proof (fsum_nonneg p (t_todo th)). destruct (b (t_box th)); lia. Qed.

Lemma fsum_app p fs gs : fsum p (fs ++ gs) = fsum p fs + fsum p gs.
Proof. induction fs as [|f fs IH]; cbn; lia. Qed.

(** ** What the threads hold *)

Definition alive (b : box) : bool := match b with Writer a | Reader _ a => a end.
Definition no_box (b : box) : bool := false.

(** References to the object that will be dropped. *)
Definition is_ref (f : frame) : bool :=
  match f with
  | FAssertCopy | FWlockCas KRelease | FWlockWait KRelease | FReleaseObj | FClearCopy | FDropWriter
  | FRlockWait SDrop | FRlockInc SDrop | FRlockCheck SDrop | FRlockBack SDrop | FDropReader | FGranted _ => true
  | _ => false
  end.

(** About to free the object. *)
Definition is_free (f : frame) : bool := match f with FAssertNone | FFreeObj _ => true | _ => false end.

(** Inside of the lock for readers. *)
Definition in_section (f : frame) : bool :=
  match f with
  | FGrab | FLoadCopy | FIncCopy _ | FDropReader | FRunlock | FAssertNone | FFreeObj true => true
  | _ => false
  end.

(** Counted by the lock. *)
Definition is_read (f : frame) : bool :=
  match f with FRlockCheck _ | FRlockBack _ => true | _ => in_section f end.

(** Inside of the lock for the writer. *)
Definition is_crit (f : frame) : bool :=
  match f with FSwap _ | FReleaseObj | FClearCopy | FDropWriter | FWunlock | FFreeObj false => true | _ => false end.

Definition is_write (f : frame) : bool := match f with FWlockWait _ => true | _ => is_crit f end.

(** The object has a copy until the writer has cleared it. *)
Definition live_box (b : box) : bool := match b with Writer a => a | _ => false end.
Definition is_live (f : frame) : bool :=
  match f with FAssertCopy | FWlockCas KRelease | FWlockWait KRelease | FReleaseObj | FClearCopy => true | _ => false end.

Definition is_clear (f : frame) : bool := match f with FClearCopy => true | _ => false end.

(** References to the copy [c], and its release. *)
Definition copy_box (c : Z) (b : box) : bool := bool_decide (copy_of b = Some c).
Definition is_copy (c : Z) (f : frame) : bool :=
  match f with
  | FCompare o | FReleaseCopy o => bool_decide (o = Some c)
  | FSwap c' | FWlockCas (KUpdate c') | FWlockWait (KUpdate c') => bool_decide (c' = c)
  | _ => false
  end.
Definition is_freec (c : Z) (f : frame) : bool := match f with FFreeCopy c' => bool_decide (c' = c) | _ => false end.

Definition refs := weight alive is_ref.
Definition frees := weight no_box is_free.
Definition sections := weight no_box in_section.
Definition reads := weight no_box is_read.
Definition crits := weight no_box is_crit.
Definition writes := weight no_box is_write.
Definition lives := weight live_box is_live.
Definition clears := weight no_box is_clear.
Definition copies (c : Z) := weight (copy_box c) (is_copy c).
Definition freecs (c : Z) := weight no_box (is_freec c).

(** ** The stacks that occur *)

Definition rest_of_read (b : box) (fs : list frame) : Prop :=
  fs = [] ∨ ∃ c, fs = [FUse c] ∧ copy_of b = Some c.

Definition thread_ok (th : thread) : Prop :=
  match t_box th, t_todo th with
  | Writer _, [] | Reader _ true, [] | Reader None false, [] => True
  | Writer true, [FWlockCas (KUpdate _)] | Writer true, [FWlockWait (KUpdate _)] | Writer true, [FSwap _]
  | Writer true, [FWunlock; FReleaseCopy _] | Writer true, [FReleaseCopy _] | Writer true, [FFreeCopy _]
  | Writer true, [FRlockWait SGrab] | Writer true, [FRlockInc SGrab] | Writer true, [FRlockCheck SGrab]
  | Writer true, [FRlockBack SGrab] | Writer true, [FGrab] => True
  | Writer true, [FRunlock; FGranted r] | Writer true, [FGranted r] => 0 < r
  | Writer false, [FAssertCopy] | Writer false, [FWlockCas KRelease] | Writer false, [FWlockWait KRelease]
  | Writer false, [FReleaseObj] | Writer false, [FReleaseCopy _; FClearCopy] | Writer false, [FFreeCopy _; FClearCopy]
  | Writer false, [FClearCopy] | Writer false, [FDropWriter] | Writer false, [FWunlock] | Writer false, [FFreeObj false] => True
  | Reader _ true, [FRlockWait SCopy] | Reader _ true, [FRlockInc SCopy] | Reader _ true, [FRlockCheck SCopy]
  | Reader _ true, [FRlockBack SCopy] | Reader _ true, [FLoadCopy] | Reader _ true, [FIncCopy _]
  | Reader _ true, [FRunlock; FCompare _] | Reader _ true, [FCompare _] => True
  | Reader _ true, FReleaseCopy _ :: fs | Reader _ true, FFreeCopy _ :: fs => rest_of_read (t_box th) fs
  | Reader _ true, [FUse c] => copy_of (t_box th) = Some c
  | Reader _ false, [FRlockWait SDrop; FReleaseLast] | Reader _ false, [FRlockInc SDrop; FReleaseLast]
  | Reader _ false, [FRlockCheck SDrop; FReleaseLast] | Reader _ false, [FRlockBack SDrop; FReleaseLast]
  | Reader _ false, [FDropReader; FReleaseLast] | Reader _ false, [FRunlock; FReleaseLast]
  | Reader _ false, [FAssertNone; FReleaseLast] | Reader _ false, [FFreeObj true; FReleaseLast]
  | Reader _ false, [FReleaseLast] | Reader None false, [FReleaseCopy _] | Reader None false, [FFreeCopy _] => True
  | _, _ => False
  end.

(** ** The invariant *)

Definition count (o : option stm_copy) : Z := match o with Some cp => cp_reference cp | None => 0 end.

(** The reference of the object to its copy; it is already given up when only the
    pointer is left to be cleared. *)
Definition held (m : memory) (ts : list thread) (c : Z) : Z :=
  match m_obj m with
  | Some o => if decide (ob_copy o = Some c) then 1 - tsum clears ts else 0
  | None => 0
  end.

Record obj_inv (o : stm_object) (tokens : Z) (ts : list thread) : Prop := {
  i_ref : ob_reference o = tokens + tsum refs ts;
  i_free : tsum frees ts = if ob_reference o =? 0 then 1 else 0;
  i_read : read (ob_lock o) = tsum reads ts;
  i_write : write (ob_lock o) = tsum writes ts;
  i_one : tsum writes ts ≤ 1;
  i_excl : tsum sections ts = 0 ∨ tsum crits ts = 0;
  i_live : tsum lives ts = if decide (ob_copy o = None) then 0 else 1;
}.

Record inv (s : system) : Prop := {
  i_threads : Forall thread_ok (s_threads s);
  i_tokens : 0 ≤ m_tokens (s_mem s);
  i_obj : match m_obj (s_mem s) with
          | Some o => obj_inv o (m_tokens (s_mem s)) (s_threads s)
          | None => m_tokens (s_mem s) = 0 ∧ tsum refs (s_threads s) = 0 ∧ tsum frees (s_threads s) = 0 ∧
                    tsum writes (s_threads s) = 0
          end;
  i_inc : ∀ t b c fs, s_threads s !! t = Some (Thread b (FIncCopy c :: fs)) →
    ∃ o, m_obj (s_mem s) = Some o ∧ ob_copy o = Some c;
  i_copy : ∀ c, held (s_mem s) (s_threads s) c + tsum (copies c) (s_threads s) = count (m_copies (s_mem s) !! c);
  i_freec : ∀ c, tsum (freecs c) (s_threads s) =
    match m_copies (s_mem s) !! c with Some cp => if cp_reference cp =? 0 then 1 else 0 | None => 0 end;
}.

Lemma stm_new_inv c msg : inv (stm_new c msg).
Proof.
  split; cbn.
  - by repeat constructor.
  - done.
  - split; cbn; try done. by left.
  - by intros [|t] b c' fs.
  - intros c'. unfold held. cbn. destruct (decide (Some c = Some c')) as [[= <-]|Hne].
    + by rewrite lookup_singleton_eq.
    + rewrite lookup_singleton_ne by congruence. done.
  - intros c'. destruct (decide (c = c')) as [->|Hne].
    + by rewrite lookup_singleton_eq.
    + by rewrite lookup_singleton_ne.
Qed.

(** ** What one thread tells about the sums *)

Lemma tsum_elem_le w w' ts t th :
  Forall (λ th, w th ≤ w' th) ts → ts !! t = Some th → w' th - w th ≤ tsum w' ts - tsum w ts.
Proof.
  intros H. revert t. induction H as [|u ts Hu H IH]; intros [|t] E; [done|done| |]; cbn.
  - injection E as ->. pose proof (tsum_le w w' ts H). lia.
  - specialize (IH t E). lia.
Qed.

Lemma fsum_le (p p' : frame → bool) fs : (∀ f, p f = true → p' f = true) → fsum p fs ≤ fsum p' fs.
Proof.
  intros H. induction fs as [|f fs IH]; cbn; [lia|]. specialize (H f).
  destruct (p f), (p' f); try lia. all: by specialize (H eq_refl).
Qed.

Lemma weight_le (b b' : box → bool) (p p' : frame → bool) th :
  (∀ x, b x = true → b' x = true) → (∀ f, p f = true → p' f = true) → weight b p th ≤ weight b' p' th.
Proof.
  intros Hb Hp. unfold weight. pose proof (fsum_le p p' (t_todo th) Hp). specialize (Hb (t_box th)).
  destruct (b (t_box th)), (b' (t_box th)); try lia. all: by specialize (Hb eq_refl).
Qed.

(** The shapes of [thread_ok], one goal for each. *)
Ltac shapes H :=
  unfold thread_ok in H; cbn [t_box t_todo] in H;
  repeat (match type of H with context [match ?x with _ => _ end] => destruct x end; try (exfalso; exact H));
  try (match type of H with rest_of_read _ _ => destruct H as [->|(? & -> & ?)] end).

Ltac weigh :=
  unfold refs, frees, sections, reads, crits, writes, lives, clears, weight in *; cbn in *.

(** The sums over all threads become variables. *)
Ltac name_sums :=
  repeat match goal with
  | |- context [tsum ?w ?ts] => let x := fresh "n" in set (x := tsum w ts) in *; clearbody x
  | H : context [tsum ?w ?ts] |- _ => let x := fresh "n" in set (x := tsum w ts) in *; clearbody x
  end.

(** The action of a thread with the shape [Hok], one goal for each outcome. *)
Ltac cases_of Hok Hx :=
  shapes Hok; unfold exec in Hx; cbn in Hx;
  repeat match type of Hx with
  | mbind _ _ = Some _ => apply bind_Some in Hx as (? & ? & Hx); cbn in Hx
  | context [match ?x with _ => _ end] => destruct x eqn:?; cbn in Hx
  end;
  try discriminate Hx; injection Hx as <- <- <- <-;
  repeat match goal with H : c_assert ?b = Some _ |- _ => destruct b eqn:?; [clear H|discriminate H] end;
  cbn [app m_obj m_tokens m_copies set_obj set_copies].

Lemma writes_le th : thread_ok th → writes th ≤ refs th + crits th.
Proof. destruct th as [b fs]. intros H. shapes H; weigh; lia. Qed.

Record facts (ts : list thread) (th : thread) : Prop := {
  f_refs : 0 ≤ refs th ≤ tsum refs ts;
  f_frees : 0 ≤ frees th ≤ tsum frees ts;
  f_sections : 0 ≤ sections th ≤ tsum sections ts;
  f_crits : 0 ≤ crits th ≤ tsum crits ts;
  f_lives : 0 ≤ lives th ≤ tsum lives ts;
  f_clears : 0 ≤ clears th ≤ tsum clears ts;
  f_reads : 0 ≤ reads th - sections th ≤ tsum reads ts - tsum sections ts;
  f_writes : 0 ≤ writes th - crits th ≤ tsum writes ts - tsum crits ts;
  f_crits_clears : 0 ≤ crits th - clears th ≤ tsum crits ts - tsum clears ts;
  f_refs_lives : 0 ≤ refs th - lives th ≤ tsum refs ts - tsum lives ts;
  f_refs_crits : 0 ≤ refs th + crits th - writes th ≤ tsum refs ts + tsum crits ts - tsum writes ts;
}.

Lemma tsum_add w w' ts : tsum (λ th, w th + w' th) ts = tsum w ts + tsum w' ts.
Proof. induction ts as [|u ts IH]; cbn; lia. Qed.

Lemma thread_facts ts t th : Forall thread_ok ts → ts !! t = Some th → facts ts th.
Proof.
  intros Hok Hth.
  assert (Hn : ∀ b p, 0 ≤ weight b p th ≤ tsum (weight b p) ts).
  { intros b p. split; [apply weight_nonneg|]. apply (tsum_elem _ _ t); [apply weight_nonneg|done]. }
  assert (Hle : ∀ b p b' p', (∀ x, b x = true → b' x = true) → (∀ f, p f = true → p' f = true) →
    0 ≤ weight b' p' th - weight b p th ≤ tsum (weight b' p') ts - tsum (weight b p) ts).
  { intros b p b' p' Hb Hp. pose proof (weight_le b b' p p' th Hb Hp). split; [lia|].
    apply (tsum_elem_le _ _ _ t); [|done].
    apply Forall_forall. intros x _. by apply weight_le. }
  split; try apply Hn; try (apply Hle; [by intros [[]|? []]|by intros []; try by (repeat case_match)]).
  pose proof (writes_le th (Forall_lookup_1 _ _ _ _ Hok Hth)). split; [lia|]. rewrite <- tsum_add.
  apply (tsum_elem_le writes (λ th, refs th + crits th) ts t); [|done].
  apply (Forall_impl _ _ _ Hok). apply writes_le.
Qed.
