(* ===== verification/StmStep.v ===== *)
(** Every action of [Stm] keeps the invariant of [StmInv], and no action touches freed
    memory except one: the unlock of a reader that has dropped its reference. *)
From S2P Require Import Prelude Stm StmInv.
Local Open Scope Z_scope.

Definition object_ok (m : memory) (ts : list thread) : Prop :=
  match m_obj m with
  | Some o => obj_inv o (m_tokens m) ts
  | None => m_tokens m = 0 ∧ tsum refs ts = 0 ∧ tsum frees ts = 0 ∧ tsum writes ts = 0
  end.

(** Most actions change no count. *)
Lemma object_same m ts t th th' m' :
  object_ok m ts → ts !! t = Some th →
  Forall (λ w, w th' = w th) [refs; frees; sections; reads; crits; writes; lives] →
  m_obj m' = m_obj m → m_tokens m' = m_tokens m → object_ok m' (<[t := th']> ts).
Proof.
  intros Ho Hth Hw Eo Et. unfold object_ok in *. rewrite Eo, Et.
  assert (He : Forall (λ w, tsum w (<[t := th']> ts) = tsum w ts) [refs; frees; sections; reads; crits; writes; lives]).
  { apply (Forall_impl _ _ _ Hw). intros w E. rewrite (tsum_insert _ _ _ _ _ Hth), E. lia. }
  decompose_Forall_hyps. destruct (m_obj m); [destruct Ho; split|]; by congruence.
Qed.

Section Run.
Context (s : system) (t : nat) (b0 : box) (f : frame) (rest : list frame).
Context (Hinv : inv s) (Hth : s_threads s !! t = Some (Thread b0 (f :: rest))).

Local Notation m := (s_mem s).
Local Notation ts := (s_threads s).

Lemma run_ok : thread_ok (Thread b0 (f :: rest)).
Proof. exact (Forall_lookup_1 _ _ _ _ (i_threads _ Hinv) Hth). Qed.

Lemma run_facts : facts ts (Thread b0 (f :: rest)).
Proof. exact (thread_facts _ _ _ (i_threads _ Hinv) Hth). Qed.

(** *** References to copies *)

Lemma clears_le_1 : 0 ≤ tsum clears ts ≤ 1.
Proof.
  destruct Hinv as [_ _ Hobj _ _ _]. destruct run_facts. destruct (m_obj m) as [o|].
  - destruct Hobj. lia.
  - destruct Hobj as (_ & _ & _ & ?). lia.
Qed.

Lemma held_range c : 0 ≤ held m ts c ≤ 1.
Proof.
  unfold held. pose proof clears_le_1. destruct (m_obj m) as [o|]; [|lia]. destruct (decide _); lia.
Qed.

Lemma copy_lives c : 1 ≤ copies c (Thread b0 (f :: rest)) → ∃ cp, m_copies m !! c = Some cp ∧ 1 ≤ cp_reference cp.
Proof.
  intros H. pose proof (i_copy _ Hinv c) as E. pose proof (held_range c).
  assert (copies c (Thread b0 (f :: rest)) ≤ tsum (copies c) ts).
  { apply (tsum_elem _ _ t); [|done]. intros th. apply weight_nonneg. }
  destruct (m_copies m !! c) as [cp|]; cbn in E; [|lia]. exists cp. split; [done|lia].
Qed.

Lemma copy_freed c : f = FFreeCopy c → ∃ cp, m_copies m !! c = Some cp ∧ cp_reference cp = 0.
Proof.
  intros ->. pose proof (i_freec _ Hinv c) as E.
  assert (1 ≤ tsum (freecs c) ts).
  { etrans; [|apply (tsum_elem (freecs c) _ t); [intros th; apply weight_nonneg|done]].
    unfold freecs, weight. cbn. rewrite bool_decide_true by done. pose proof (fsum_nonneg (is_freec c) rest). lia. }
  destruct (m_copies m !! c) as [cp|]; [|lia]. exists cp. split; [done|].
  destruct (Z.eqb_spec (cp_reference cp) 0); [done|lia].
Qed.

Lemma release_lives c : f = FReleaseCopy (Some c) → ∃ cp, m_copies m !! c = Some cp ∧ 1 ≤ cp_reference cp.
Proof.
  intros E. apply copy_lives. rewrite E. unfold copies, weight. cbn. rewrite bool_decide_true by done.
  pose proof (fsum_nonneg (is_copy c) rest). destruct (copy_box _ _); lia.
Qed.

Lemma object_lives : f ≠ FRunlock ∨ alive b0 = true → target_of f ≠ TCopy → ∃ o, m_obj m = Some o.
Proof.
  intros Hf Ht. pose proof run_ok as Hok. pose proof run_facts as F. pose proof (i_obj _ Hinv) as Ho.
  destruct (m_obj m) as [o|]; [by exists o|].
  destruct F, Ho as (_ & ? & ? & ?). shapes Hok; try done; weigh; try lia; by destruct Hf.
Qed.

Lemma crit_clears : 1 ≤ crits (Thread b0 (f :: rest)) → tsum clears ts = clears (Thread b0 (f :: rest)).
Proof.
  intros H. destruct run_facts. pose proof (i_obj _ Hinv) as Ho. destruct (m_obj m); [destruct Ho; lia|].
  destruct Ho as (_ & _ & _ & ?). lia.
Qed.

Lemma freed_object o : 1 ≤ frees (Thread b0 (f :: rest)) → m_obj m = Some o → ob_copy o = None.
Proof.
  intros H E. destruct run_facts. pose proof (i_obj _ Hinv) as Ho. rewrite E in Ho. destruct Ho.
  pose proof (i_tokens _ Hinv). destruct (Z.eqb_spec (ob_reference o) 0); [|lia].
  destruct (decide (ob_copy o = None)); [done|lia].
Qed.

(** A thread that has loaded the pointer keeps the writer out and the object alive. *)
Lemma inc_excludes t' b1 c fs1 : ts !! t' = Some (Thread b1 (FIncCopy c :: fs1)) →
  tsum crits ts = 0 ∧ 1 ≤ tsum refs ts ∧ 1 ≤ tsum sections ts.
Proof.
  intros Ht'. pose proof (thread_facts _ _ _ (i_threads _ Hinv) Ht') as F.
  pose proof (Forall_lookup_1 _ _ _ _ (i_threads _ Hinv) Ht') as Hok.
  destruct F. pose proof (i_obj _ Hinv) as Ho. shapes Hok;
    (destruct (m_obj m); [destruct Ho|destruct Ho as (? & ? & ? & ?)]; weigh; lia).
Qed.

Lemma inc_lives c : f = FIncCopy c → ∃ cp, m_copies m !! c = Some cp ∧ 1 ≤ cp_reference cp.
Proof.
  intros E. pose proof Hth as Ht. rewrite E in Ht. destruct (i_inc _ Hinv _ _ _ _ Ht) as (o & Eo & Ec).
  destruct (inc_excludes _ _ _ _ Ht) as (Hz & _ & _). pose proof (i_copy _ Hinv c) as Hc. destruct run_facts.
  unfold held in Hc. rewrite Eo, Ec in Hc. rewrite decide_True in Hc by done.
  assert (0 ≤ tsum (copies c) ts) by (apply tsum_nonneg; intros th; apply weight_nonneg).
  destruct (m_copies m !! c) as [cp|]; cbn in Hc; [|lia]. exists cp. split; [done|lia].
Qed.

Context (fs : list frame) (b : box) (m' : memory) (es : list event).
Context (Hx : exec t f b0 m = Some (fs, b, m', es)).

Local Notation th' := (Thread b (fs ++ rest)).
Local Notation ts' := (<[t := th']> ts).

Ltac outcomes := pose proof run_ok as Hok; pose proof Hx as Hx'; clear Hx; cases_of Hok Hx'.

Ltac known_object := repeat match goal with E : m_obj m = _ |- _ => rewrite E in *; clear E end.

Lemma run_threads : Forall thread_ok ts'.
Proof.
  apply Forall_insert; [apply (i_threads _ Hinv)|]. pose proof run_facts as F. pose proof (i_obj _ Hinv) as Ho.
  outcomes; try done; try (by left); try (by right; eexists).
  known_object. destruct F, Ho. weigh. unfold thread_ok. cbn. pose proof (i_tokens _ Hinv). lia.
Qed.

Lemma run_object : object_ok m' ts'.
Proof.
  pose proof run_facts as F. pose proof (i_obj _ Hinv) as Ho. pose proof (i_tokens _ Hinv) as Htk.
  outcomes.
  all: try (by apply (object_same _ _ _ _ _ _ Ho Hth); [repeat constructor| |]).
  all: unfold object_ok; known_object; cbn in *; destruct F; try destruct (m_obj m); destruct Ho; try split;
    rewrite ?(tsum_insert _ _ _ _ _ Hth); name_sums; weigh; try lia.
  all: repeat match goal with
    | |- context [?x =? ?y] => destruct (Z.eqb_spec x y)
    | H : context [?x =? ?y] |- _ => destruct (Z.eqb_spec x y)
    | |- context [decide (?x = None)] => destruct (decide (x = None))
    | H : context [decide (?x = None)] |- _ => destruct (decide (x = None))
    | |- _ ∧ _ => split
    end; try done; try lia.
Qed.

Lemma run_inc t' b1 c fs1 : ts' !! t' = Some (Thread b1 (FIncCopy c :: fs1)) →
  ∃ o, m_obj m' = Some o ∧ ob_copy o = Some c.
Proof.
  intros Ht'. destruct (decide (t' = t)) as [->|Hne].
  - rewrite list_lookup_insert_eq in Ht' by (by eapply lookup_lt_Some). injection Ht' as -> E.
    outcomes; try discriminate E; injection E as -> <-; by eexists.
  - rewrite list_lookup_insert_ne in Ht' by done. destruct (i_inc _ Hinv _ _ _ _ Ht') as (o & Eo & Ec).
    destruct (inc_excludes _ _ _ _ Ht') as (Hc & Hr & Hs).
    pose proof (i_obj _ Hinv) as Ho. rewrite Eo in Ho. destruct Ho. destruct run_facts. pose proof (i_tokens _ Hinv).
    outcomes; first [done | by exists o | simplify_eq; by eexists | exfalso; weigh; try lia].
    all: destruct (Z.eqb_spec (ob_reference o) 0); lia.
Qed.

(** The reference of the object, from the pointer and the number of [FClearCopy]. *)
Definition hold (o : option stm_object) (k c : Z) : Z :=
  match o with
  | Some o => if decide (ob_copy o = Some c) then 1 - k else 0
  | None => 0
  end.

Lemma run_copies c : held m' ts' c + tsum (copies c) ts' = count (m_copies m' !! c).
Proof.
  pose proof (i_copy _ Hinv c) as E. pose proof crit_clears as Hk. pose proof freed_object as Hf.
  pose proof copy_freed as Hc.
  change (held m' ts' c) with (hold (m_obj m') (tsum clears ts') c).
  change (held m ts c) with (hold (m_obj m) (tsum clears ts) c) in E.
  rewrite !(tsum_insert _ _ _ _ _ Hth).
  set (C := tsum (copies c) ts) in *. set (K := tsum clears ts) in *. clearbody C K. outcomes.
  all: unfold copies, clears, crits, frees, copy_box, weight in *; cbn in *; known_object.
  all: try (destruct (Hc _ eq_refl) as (? & ? & ?); simplify_eq).
  all: rewrite ?lookup_insert, ?lookup_delete; repeat case_decide; simplify_eq; repeat case_bool_decide; simplify_eq.
  all: repeat match goal with H : m_copies m !! ?z = _, E : _ = count (m_copies m !! ?z) |- _ => rewrite H in E; rewrite ?H end.
  all: try match goal with |- context [hold (m_obj m) ?k _] => replace k with K by lia end; cbn in *; try lia.
  all: try (rewrite (Hf _ ltac:(lia) eq_refl) in *).
  all: repeat case_decide; simplify_eq; try lia.
Qed.

Definition dead (o : option stm_copy) : Z :=
  match o with Some cp => if cp_reference cp =? 0 then 1 else 0 | None => 0 end.

Lemma run_freec c : tsum (freecs c) ts' = dead (m_copies m' !! c).
Proof.
  pose proof (i_freec _ Hinv c) as E. pose proof release_lives as Hl. pose proof copy_freed as Hc.
  fold (dead (m_copies m !! c)) in E. rewrite (tsum_insert _ _ _ _ _ Hth).
  set (C := tsum (freecs c) ts) in *. clearbody C. outcomes.
  all: unfold freecs, weight in *; cbn in *; try lia.
  all: try (destruct (Hl _ eq_refl) as (? & ? & ?); simplify_eq).
  all: try (destruct (Hc _ eq_refl) as (? & ? & ?); simplify_eq).
  all: rewrite ?lookup_insert, ?lookup_delete; repeat case_decide; simplify_eq; repeat case_bool_decide; simplify_eq; try lia.
  all: repeat match goal with H : m_copies m !! _ = _ |- _ => rewrite ?H; clear H end; unfold dead; cbn.
  all: repeat match goal with |- context [?x =? ?y] => destruct (Z.eqb_spec x y) end; try done; lia.
Qed.

Lemma run_tokens : 0 ≤ m_tokens m'.
Proof. pose proof (i_tokens _ Hinv). outcomes; cbn; lia. Qed.

Lemma run_inv : inv (System m' ts').
Proof.
  split; [exact run_threads|exact run_tokens|exact run_object|exact run_inc|exact run_copies|exact run_freec].
Qed.

End Run.

(** ** The other steps *)

Lemma threads_serve_inv s t b0 r fs b m' :
  inv s → s_threads s !! t = Some (Thread b0 []) → serve r b0 (s_mem s) = Some (fs, b, m') →
  inv (System m' (<[t := Thread b fs]> (s_threads s))).
Proof.
  intros Hinv Hth Hs. pose proof (thread_facts _ _ _ (i_threads _ Hinv) Hth) as F. destruct Hinv as [H1 H2 H3 H4 H5 H6].
  assert (Hi : ∀ t' b1 c fs1, <[t := Thread b fs]> (s_threads s) !! t' = Some (Thread b1 (FIncCopy c :: fs1)) →
    ∃ o, m_obj (s_mem s) = Some o ∧ ob_copy o = Some c).
  { intros t' b1 c fs1. destruct (decide (t' = t)) as [->|Hne].
    - rewrite list_lookup_insert_eq by (by eapply lookup_lt_Some). intros [= <- ->].
      destruct r, b0 as [[]|[] []]; cbn in Hs; bind_inv.
    - rewrite list_lookup_insert_ne by done. apply H4. }
  destruct r, b0 as [[]|[] []]; cbn in Hs; bind_inv; split; cbn; try exact H2; try exact Hi.
  all: try (by apply Forall_insert).
  all: try (destruct F; destruct (m_obj (s_mem s)); destruct H3; try split;
    rewrite ?(tsum_insert _ _ _ _ _ Hth); name_sums; weigh; lia).
  all: intros c'; specialize (H5 c'); specialize (H6 c').
  all: change (held ?m ?ts c') with (hold (m_obj m) (tsum clears ts) c') in *; rewrite ?(tsum_insert _ _ _ _ _ Hth); name_sums.
  all: unfold copies, freecs, clears, copy_box, weight; cbn.
  all: try match goal with H : hold ?o ?n ?z + _ = _ |- context [hold ?o ?k ?z] => replace k with n by lia end.
  all: rewrite ?lookup_insert; repeat case_bool_decide; repeat case_decide; simplify_eq; try done; cbn in *; try lia.
  - match goal with H : m_copies _ !! _ = None |- _ => rewrite H in H5 end. cbn in *. lia.
  - match goal with H : m_copies _ !! _ = None |- _ => by rewrite H end.
Qed.

Lemma new_reader_inv s m' : inv s → 0 < m_tokens (s_mem s) →
  m' = Memory (m_obj (s_mem s)) (m_copies (s_mem s)) (m_tokens (s_mem s) - 1) →
  inv (System m' (s_threads s ++ [Thread (Reader None true) []])).
Proof.
  intros [H1 H2 H3 H4 H5 H6] Hk ->. split; cbn.
  - apply Forall_app. split; [done|]. by constructor.
  - lia.
  - destruct (m_obj (s_mem s)); destruct H3; try split; rewrite ?tsum_app; cbn [tsum]; name_sums; weigh; lia.
  - intros t b c fs Ht. apply lookup_app_Some in Ht as [Ht|[_ Ht]]; [by apply H4 in Ht|].
    apply list_lookup_singleton_Some in Ht as [_ [=]].
  - intros c. rewrite <- H5. change (held ?m ?ts c) with (hold (m_obj m) (tsum clears ts) c).
    rewrite !tsum_app. cbn [tsum]. name_sums. unfold clears, copies, weight, copy_box. cbn.
    rewrite !Z.add_0_r. done.
  - intros c. rewrite <- H6, tsum_app. unfold freecs, weight. cbn. lia.
Qed.

Lemma stm_step_inv s a s' es : inv s → step s a = Some (s', es) → inv s'.
Proof.
  intros Hinv Hs. destruct a as [t|t r|]; cbn in Hs.
  - destruct (s_threads s !! t) as [[b0 [|f rest]]|] eqn:Hth; cbn in Hs; [done| |done].
    destruct (exec t f b0 (s_mem s)) as [[[[fs b] m'] es']|] eqn:Hx; cbn in Hs; [|done].
    injection Hs as <- <-. by eapply run_inv.
  - destruct (s_threads s !! t) as [[b0 [|f rest]]|] eqn:Hth; cbn in Hs; [|done|done].
    destruct (serve r b0 (s_mem s)) as [[[fs b] m']|] eqn:Hx; cbn in Hs; [|done].
    injection Hs as <- <-. by eapply threads_serve_inv.
  - bind_inv. apply new_reader_inv; [done|lia|done].
Qed.

Lemma stm_runs_inv s es s' : inv s → runs s es s' → inv s'.
Proof. intros H Hr. induction Hr; [done|]. eapply stm_step_inv; [by apply IHHr|done]. Qed.

(** ** Progress *)

Lemma exec_safe s t b0 f rest : inv s → s_threads s !! t = Some (Thread b0 (f :: rest)) →
  is_Some (exec t f b0 (s_mem s)) ∨ (f = FRunlock ∧ alive b0 = false ∧ m_obj (s_mem s) = None).
Proof.
  intros Hinv Hth. pose proof (run_ok _ _ _ _ _ Hinv Hth) as Hok.
  pose proof (object_lives _ _ _ _ _ Hinv Hth) as Ho. pose proof (freed_object _ _ _ _ _ Hinv Hth) as Hf.
  pose proof (copy_lives _ _ _ _ _ Hinv Hth) as Hl. pose proof (copy_freed _ _ _ _ _ Hinv Hth) as Hc.
  pose proof (release_lives _ _ _ _ _ Hinv Hth) as Hr. pose proof (inc_lives _ _ _ _ _ Hinv Hth) as Hq.
  pose proof (thread_facts _ _ _ (i_threads _ Hinv) Hth) as F.
  assert (Hn : (f = FRunlock ∧ alive b0 = false) ∨ (f ≠ FRunlock ∨ alive b0 = true)).
  { destruct f; try (by right; left). destruct (alive b0); auto. }
  destruct Hn as [[-> Eb]|Hn].
  { destruct (m_obj (s_mem s)) as [o|] eqn:Eo; [left|by right]. unfold exec. cbn. rewrite Eo. by eexists. }
  left. specialize (Ho Hn). clear Hn. pose proof (i_inc _ Hinv t b0) as Hi. pose proof (i_obj _ Hinv) as Hob.
  unfold exec. destruct (target_of f) eqn:Et.
  1,2: destruct Ho as [o Eo]; [done|]; rewrite Eo in *; cbn.
  - shapes Hok; try discriminate Et; try (by eexists); cbn; by rewrite (Hf o), bool_decide_true.
  - shapes Hok; try discriminate Et; cbn; try (by eexists); try (destruct (_ =? 0); by eexists).
    + destruct (Hl c) as (cp & -> & _); [by unfold copies, weight; cbn; rewrite bool_decide_true|]. by eexists.
    + destruct F, Hob. weigh. destruct (decide (ob_copy o = None)); [lia|]. rewrite bool_decide_true by done. by eexists.
  - clear Ho. shapes Hok; try discriminate Et; cbn.
    all: try (destruct (Hc _ eq_refl) as (? & -> & _); by eexists).
    all: try (destruct (Hr _ eq_refl) as (? & -> & _); by eexists).
    all: try (destruct copy as [c|]; [destruct (Hr _ eq_refl) as (? & -> & _)|]; by eexists).
    all: try (destruct (decide _); eexists; reflexivity); try (eexists; reflexivity).
    all: try (destruct (Hq _ eq_refl) as (cp & -> & ?); cbn; rewrite (proj2 (Z.ltb_lt _ _)) by lia; by eexists).
    all: try (rewrite (proj2 (Z.ltb_lt _ _)) by done; by eexists).
    all: destruct (Hl c) as (cp & -> & _); [|by eexists]; unfold copies, copy_box, weight; cbn in *;
      rewrite bool_decide_true by done; lia.
Qed.
