(* ===== verification/StmSafe.v ===== *)
(** What the shared objects of [Stm] guarantee: no access to freed memory but one, and
    nothing is left when all boxes are collected. *)
From S2P Require Import Prelude Stm StmInv StmStep.
Local Open Scope Z_scope.

(** Boxes that were collected, with nothing left to do. *)
Definition all_done (s : system) : bool :=
  forallb (λ th, negb (alive (t_box th)) && match t_todo th with [] => true | _ => false end) (s_threads s) &&
  (m_tokens (s_mem s) =? 0).

Lemma done_weight ts b p :
  forallb (λ th, negb (alive (t_box th)) && match t_todo th with [] => true | _ => false end) ts = true →
  Forall thread_ok ts → (∀ x, b x = true → alive x = true ∨ copy_of x ≠ None) → tsum (weight b p) ts = 0.
Proof.
  intros Hd Hok Hb. induction Hok as [|th ts Hth _ IH]; [done|]. cbn in Hd. apply andb_true_iff in Hd as [Hd Hts].
  cbn. rewrite (IH Hts). destruct th as [x [|f fs]]; cbn in *; [|by rewrite andb_false_r in Hd].
  unfold weight. cbn. specialize (Hb x). destruct (b x); [|lia]. destruct (Hb eq_refl) as [Ha|Hc].
  - by rewrite Ha in Hd.
  - destruct x as [[]|[] []]; done.
Qed.

Lemma all_done_gone s : inv s → all_done s = true → m_obj (s_mem s) = None ∧ m_copies (s_mem s) = ∅.
Proof.
  intros Hinv Hd. apply andb_true_iff in Hd as [Hd Htk%Z.eqb_eq]. destruct Hinv as [H1 _ H3 _ H5 H6].
  assert (Hw : ∀ b p, (∀ x, b x = true → alive x = true ∨ copy_of x ≠ None) → tsum (weight b p) (s_threads s) = 0).
  { intros b p. by apply done_weight. }
  assert (m_obj (s_mem s) = None) as Hn.
  { destruct (m_obj (s_mem s)) as [o|]; [|done]. destruct H3.
    unfold refs, frees in *. rewrite Hw in i_ref by auto. rewrite Hw in i_free by done.
    rewrite Htk in i_ref. rewrite i_ref in i_free. done. }
  split; [done|]. apply map_empty. intros c. specialize (H5 c). specialize (H6 c). unfold held in H5. rewrite Hn in H5.
  unfold copies, freecs in *. rewrite Hw in H6 by done.
  rewrite Hw in H5 by (intros x Hx%bool_decide_eq_true; right; by rewrite Hx).
  destruct (m_copies (s_mem s) !! c) as [cp|]; [|done]. cbn in H5. rewrite <- H5 in H6. done.
Qed.

(** C27: however the threads that share an stm object interleave, the one that
    updates or deletes it and any number that read it, copy it or drop it, no assertion
    fails and no memory is used after it was freed, with one exception: a reader that
    has dropped its reference may still have to unlock an object that the last reader
    has freed in between ([release_race] reaches it). When all boxes are collected, the
    object and every copy of the message have been freed. *)
Theorem stm_safe c msg es s :
  runs (stm_new c msg) es s →
  (∀ t th f rest, s_threads s !! t = Some th → t_todo th = f :: rest →
     is_Some (step s (ARun t)) ∨ (f = FRunlock ∧ alive (t_box th) = false ∧ m_obj (s_mem s) = None)) ∧
  (all_done s = true → m_obj (s_mem s) = None ∧ m_copies (s_mem s) = ∅).
Proof.
  intros Hr. pose proof (stm_runs_inv _ _ _ (stm_new_inv c msg) Hr) as Hinv. split; [|by apply all_done_gone].
  intros t [b0 td] f rest Hth [= ->]. destruct (exec_safe _ _ _ _ _ Hinv Hth) as [[[[[fs b] m'] es'] Hx]|H]; [left|by right].
  cbn. rewrite Hth. cbn. rewrite Hx. by eexists.
Qed.

(** ** Concrete runs *)

Lemma runs_cons s a s' es es' s'' : step s a = Some (s', es) → runs s' es' s'' → runs s (es ++ es') s''.
Proof.
  intros Hs Hr. induction Hr as [s1|s1 es1 s2 a2 es2 s3 Hr IH H2].
  - rewrite app_nil_r. change es with ([] ++ es). eapply runs_step; [constructor|exact Hs].
  - rewrite app_assoc. by eapply runs_step; [apply IH|].
Qed.

Lemma run_actions_runs s l s' es : run_actions s l = Some (s', es) → runs s es s'.
Proof.
  revert s es. induction l as [|a l IH]; intros s es E; cbn in E; [injection E as <- <-; constructor|].
  destruct (step s a) as [[s1 es1]|] eqn:Hs; cbn in E; [|done].
  destruct (run_actions s1 l) as [[s2 es2]|] eqn:Hl; cbn in E; [|done]. injection E as <- <-.
  by eapply runs_cons; [|apply IH].
Qed.

(** [n] actions of thread [t]. *)
Definition acts (t n : nat) : list action := replicate n (ARun t).

(** A writer, a reader that reads twice with an update in between, and their end. *)
Definition demo_actions : list action :=
  ACall 0 CCopy :: acts 0 6 ++ ANewReader :: ACall 1 CRead :: acts 1 9 ++
  ACall 0 (CUpdate 2 [7; 8]) :: acts 0 5 ++ ACall 1 CRead :: acts 1 10 ++
  ACall 0 CDelete :: acts 0 8 ++ ACall 1 CDeleteReader :: acts 1 9.

(** Two readers of a dead object: the first has dropped its reference and still has to
    unlock when the second, the last one, frees the object. *)
Definition race_actions : list action :=
  ACall 0 CCopy :: acts 0 6 ++ ACall 0 CCopy :: acts 0 6 ++ [ANewReader; ANewReader] ++
  ACall 0 CDelete :: acts 0 9 ++
  ACall 1 CDeleteReader :: acts 1 4 ++ ACall 2 CDeleteReader :: acts 2 6.

Definition demo_end : option (system * list event) := run_actions (stm_new 1 [5]) demo_actions.

Lemma demo_end_runs : match demo_end with Some (s, es) => runs (stm_new 1 [5]) es s | None => False end.
Proof.
  destruct demo_end as [[s es]|] eqn:E; [by apply run_actions_runs in E|]. vm_compute in E. discriminate E.
Qed.

Lemma release_race :
  ∃ s es th, run_actions (stm_new 1 [5]) race_actions = Some (s, es) ∧
    s_threads s !! 1%nat = Some th ∧ t_todo th = [FRunlock; FReleaseLast] ∧
    m_obj (s_mem s) = None ∧ step s (ARun 1) = None.
Proof. do 3 eexists. split; [vm_compute; reflexivity|]. repeat split; vm_compute; reflexivity. Qed.

Lemma stm_safe_witness :
  ∃ s es, runs (stm_new 1 [5]) es s ∧ all_done s = true ∧ m_obj (s_mem s) = None ∧ m_copies (s_mem s) = ∅.
Proof.
  pose proof demo_end_runs as H. destruct demo_end as [[s es]|] eqn:E; [|destruct H].
  exists s, es. split; [exact H|].
  assert (Hd : all_done s = true) by (vm_compute in E; injection E as <- <-; reflexivity).
  split; [exact Hd|]. exact (proj2 (stm_safe 1 [5] es s H) Hd).
Defined.
