(* ===== verification/StmViews.v ===== *)
(** What the readers of [Stm] see: the messages of the writer are versions of the
    object, and every read takes the version that is current at one moment, newer than
    the one of the read before. *)
From S2P Require Import Prelude Stm StmInv StmStep StmSafe.
Local Open Scope Z_scope.

(** ** The specification *)

(** The versions that were published, the current one, and for every reader the
    version that it loaded and the one that it has. *)
Record views := Views {
  v_versions : list (list Z); v_current : option nat; v_loaded : gmap nat nat; v_last : gmap nat nat;
}.

(** No version (the object is dead) is the last thing that a reader sees. *)
Definition newer (old new : option nat) : bool :=
  match old, new with
  | Some i, Some j => (i <? j)%nat
  | None, None => false
  | _, _ => true
  end.

Definition view_step (v : views) (e : event) : option views :=
  match e with
  | EPublish msg => Some (Views (v_versions v ++ [msg]) (Some (length (v_versions v))) (v_loaded v) (v_last v))
  | EClear => Some (Views (v_versions v) None (v_loaded v) (v_last v))
  | ELoad t => Some (Views (v_versions v) (v_current v) (partial_alter (λ _, v_current v) t (v_loaded v)) (v_last v))
  | ESame t => assert! bool_decide (v_loaded v !! t = v_last v !! t); Some v
  | ENew t answer =>
    assert! newer (v_last v !! t) (v_loaded v !! t);
    assert! bool_decide (answer = bool_decide (is_Some (v_loaded v !! t)));
    Some (Views (v_versions v) (v_current v) (v_loaded v) (partial_alter (λ _, v_loaded v !! t) t (v_last v)))
  | EUse t msg => i ← v_last v !! t; assert! bool_decide (v_versions v !! i = Some msg); Some v
  end.

Fixpoint view_run (v : views) (es : list event) : option views :=
  match es with
  | [] => Some v
  | e :: es => v ← view_step v e; view_run v es
  end.

Definition view_new (msg : list Z) : views := Views [msg] (Some 0%nat) ∅ ∅.

Lemma view_run_app v es es' : view_run v (es ++ es') = (v ← view_run v es; view_run v es').
Proof. revert v. induction es as [|e es IH]; intros v; [done|]. cbn. destruct (view_step v e); cbn; [apply IH|done]. Qed.

(** ** Versions only grow *)

Record views_ok (v : views) : Prop := {
  v_cur : ∀ i, v_current v = Some i → S i = length (v_versions v);
  v_last_lt : ∀ t i, v_last v !! t = Some i → (i < length (v_versions v))%nat;
  v_loaded_lt : ∀ t i, v_loaded v !! t = Some i → (i < length (v_versions v))%nat;
  v_order : ∀ t i j, v_last v !! t = Some i → v_loaded v !! t = Some j → (i ≤ j)%nat;
}.

Lemma view_new_ok msg : views_ok (view_new msg).
Proof. split; cbn; try done. by intros i [= <-]. Qed.

Lemma view_step_ok v e v' : views_ok v → view_step v e = Some v' → views_ok v'.
Proof.
  intros [H1 H2 H3 H4] Hs. destruct e as [msg| |t|t|t answer|t msg]; cbn in Hs; bind_inv; try done.
  - split; cbn; [intros i [= <-]|intros t i E|intros t i E|exact H4]; rewrite length_app; cbn; [lia| |].
    + specialize (H2 t i E). lia.
    + specialize (H3 t i E). lia.
  - split; cbn; [done|done| |].
    + intros t' i. destruct (decide (t = t')) as [->|Hne].
      * rewrite lookup_partial_alter_eq. intros E. specialize (H1 i E). lia.
      * rewrite lookup_partial_alter_ne by done. apply H3.
    + intros t' i j Ei. destruct (decide (t = t')) as [->|Hne].
      * rewrite lookup_partial_alter_eq. intros E. specialize (H1 j E). specialize (H2 _ _ Ei). lia.
      * rewrite lookup_partial_alter_ne by done. by apply H4.
  - split; cbn; [done| |done|].
    + intros t' i. destruct (decide (t = t')) as [->|Hne].
      * rewrite lookup_partial_alter_eq. apply H3.
      * rewrite lookup_partial_alter_ne by done. apply H2.
    + intros t' i j. destruct (decide (t = t')) as [->|Hne].
      * rewrite lookup_partial_alter_eq. intros -> [= ->]. done.
      * rewrite lookup_partial_alter_ne by done. apply H4.
Qed.

Lemma loaded_newer v t : views_ok v → v_loaded v !! t ≠ v_last v !! t → newer (v_last v !! t) (v_loaded v !! t) = true.
Proof.
  intros [_ _ _ H] Hne. specialize (H t). destruct (v_last v !! t) as [i|], (v_loaded v !! t) as [j|]; cbn; try done.
  specialize (H i j eq_refl eq_refl). apply Nat.ltb_lt. assert (i ≠ j) by congruence. lia.
Qed.

(** ** Addresses and versions *)

(** The pointer [p] is to the version [w]. *)
Definition shows (ver : gmap Z nat) (p : option Z) (w : option nat) : Prop :=
  match p with
  | Some a => ∃ i, ver !! a = Some i ∧ w = Some i
  | None => w = None
  end.

(** The pointer that [stm_copy] loads or returns, and the copy that an update is about
    to publish. *)
Definition loaded_of (fs : list frame) : option (option Z) :=
  match fs with
  | FIncCopy c :: _ => Some (Some c)
  | FRunlock :: FCompare r :: _ | FCompare r :: _ => Some r
  | _ => None
  end.

Definition pending_of (fs : list frame) : option Z :=
  match fs with
  | FWlockCas (KUpdate c) :: _ | FWlockWait (KUpdate c) :: _ | FSwap c :: _ => Some c
  | _ => None
  end.

Record thread_view (ver : gmap Z nat) (v : views) (t : nat) (th : thread) : Prop := {
  tv_last : match t_box th with
    | Reader lc true => shows ver lc (v_last v !! t)
    | Reader _ false => True
    | Writer _ => t = 0%nat
    end;
  tv_loaded : ∀ r, loaded_of (t_todo th) = Some r → shows ver r (v_loaded v !! t);
  tv_pending : ∀ c, pending_of (t_todo th) = Some c → ver !! c = None;
}.

Record rel (ver : gmap Z nat) (s : system) (v : views) : Prop := {
  r_inj : ∀ a b i, ver !! a = Some i → ver !! b = Some i → a = b;
  r_msg : ∀ a i, ver !! a = Some i → ∃ cp, m_copies (s_mem s) !! a = Some cp ∧ v_versions v !! i = Some (cp_msg cp);
  r_cur : ∀ o, m_obj (s_mem s) = Some o → tsum clears (s_threads s) = 0 → shows ver (ob_copy o) (v_current v);
  r_threads : ∀ t th, s_threads s !! t = Some th → thread_view ver v t th;
  r_new : ∀ t, (length (s_threads s) ≤ t)%nat → v_last v !! t = None;
}.

Lemma shows_inj ver p q w : (∀ a b i, ver !! a = Some i → ver !! b = Some i → a = b) → shows ver p w → shows ver q w → p = q.
Proof.
  intros H. destruct p as [a|], q as [b|]; cbn; try done.
  - intros (i & Ha & ->) (j & Hb & [= <-]). f_equal. by eapply H.
  - by intros (i & _ & ->) [=].
  - by intros -> (i & _ & [=]).
Qed.

Lemma shows_fun ver p w w' : shows ver p w → shows ver p w' → w = w'.
Proof. destruct p as [a|]; cbn; [|by intros -> ->]. intros (i & Ha & ->) (j & Hb & ->). congruence. Qed.

Lemma stm_new_rel c msg : rel {[ c := 0%nat ]} (stm_new c msg) (view_new msg).
Proof.
  split; cbn.
  - intros a b i [<- <-]%lookup_singleton_Some [<- _]%lookup_singleton_Some. done.
  - intros a i [<- <-]%lookup_singleton_Some. eexists. by rewrite lookup_singleton_eq.
  - intros o [= <-] _. cbn. exists 0%nat. by rewrite lookup_singleton_eq.
  - intros [|t] th Hth; [|done]. injection Hth as <-. split; cbn; done.
  - done.
Qed.

(** ** Every action *)

Lemma thread_view_ext ver v v' t th :
  v_last v' !! t = v_last v !! t → v_loaded v' !! t = v_loaded v !! t → thread_view ver v t th → thread_view ver v' t th.
Proof. intros E1 E2 [H1 H2 H3]. split; [by rewrite E1|by rewrite E2|done]. Qed.

Lemma rel_step ver ver' s v v' t th th' m' :
  rel ver s v → s_threads s !! t = Some th →
  (∀ a b i, ver' !! a = Some i → ver' !! b = Some i → a = b) →
  (∀ a i, ver' !! a = Some i → ∃ cp, m_copies m' !! a = Some cp ∧ v_versions v' !! i = Some (cp_msg cp)) →
  (∀ o, m_obj m' = Some o → tsum clears (s_threads s) + clears th' - clears th = 0 → shows ver' (ob_copy o) (v_current v')) →
  thread_view ver' v' t th' →
  (∀ t' th1, t' ≠ t → s_threads s !! t' = Some th1 → thread_view ver v t' th1 → thread_view ver' v' t' th1) →
  (∀ t', t' ≠ t → v_last v' !! t' = v_last v !! t') →
  rel ver' (System m' (<[t := th']> (s_threads s))) v'.
Proof.
  intros [_ _ _ Ht Hn] Hth Hinj Hmsg Hcur Hv Hother Hlast. split; cbn; [done|done| | |].
  - intros o Eo. rewrite (tsum_insert _ _ _ _ _ Hth). by apply Hcur.
  - intros t' th1. destruct (decide (t' = t)) as [->|Hne].
    + rewrite list_lookup_insert_eq by (by eapply lookup_lt_Some). by intros [= <-].
    + rewrite list_lookup_insert_ne by done. intros E. apply Hother; auto.
  - intros t' Hlen. rewrite length_insert in Hlen. rewrite Hlast, Hn; [done|done|].
    apply lookup_lt_Some in Hth. lia.
Qed.

(** The messages of the copies stay. *)
Definition keeps (ver : gmap Z nat) (m m' : memory) : Prop :=
  ∀ a cp, m_copies m !! a = Some cp → is_Some (ver !! a) → ∃ cp', m_copies m' !! a = Some cp' ∧ cp_msg cp' = cp_msg cp.

Lemma keeps_same ver m m' : m_copies m' = m_copies m → keeps ver m m'.
Proof. intros E a cp Ha _. rewrite E. by exists cp. Qed.

Lemma keeps_insert ver m m' c cp r :
  m_copies m !! c = Some cp → m_copies m' = <[c := StmCopy r (cp_msg cp)]> (m_copies m) → keeps ver m m'.
Proof.
  intros Hc E a cp' Ha _. rewrite E. destruct (decide (c = a)) as [->|Hne].
  - rewrite lookup_insert_eq. eexists. split; [done|]. cbn. congruence.
  - rewrite lookup_insert_ne by done. by exists cp'.
Qed.

Definition same_pointer (m m' : memory) : Prop :=
  ∀ o', m_obj m' = Some o' → ∃ o, m_obj m = Some o ∧ ob_copy o' = ob_copy o.

Lemma rel_quiet ver s v t th th' m' :
  rel ver s v → s_threads s !! t = Some th → thread_view ver v t th' → keeps ver (s_mem s) m' →
  same_pointer (s_mem s) m' → clears th ≤ clears th' →
  rel ver (System m' (<[t := th']> (s_threads s))) v.
Proof.
  intros Hr Hth Hv Hk Hp Hc. pose proof Hr as [Hinj Hmsg Hcur _ _]. eapply rel_step; eauto.
  - intros a i Ha. destruct (Hmsg a i Ha) as (cp & Hcp & Hi).
    destruct (Hk a cp Hcp) as (cp' & Hcp' & E); [by eexists|]. exists cp'. by rewrite E.
  - intros o Eo Hz. destruct (Hp o Eo) as (o0 & Eo0 & ->). apply Hcur; [done|].
    pose proof (tsum_nonneg clears (s_threads s) (λ th, weight_nonneg _ _ th)). lia.
Qed.

Lemma shows_insert ver c n p w : ver !! c = None → shows ver p w → shows (<[c := n]> ver) p w.
Proof.
  intros Hc. destruct p as [a|]; cbn; [|done]. intros (i & Ha & ->). exists i. split; [|done].
  rewrite lookup_insert_ne by congruence. done.
Qed.

Lemma shows_delete ver c p w : p ≠ Some c → shows ver p w → shows (delete c ver) p w.
Proof.
  intros Hc. destruct p as [a|]; cbn; [|done]. intros (i & Ha & ->). exists i. split; [|done].
  rewrite lookup_delete_ne by congruence. done.
Qed.

Lemma pending_writer th c : thread_ok th → pending_of (t_todo th) = Some c → ∃ a, t_box th = Writer a.
Proof. destruct th as [b fs]. intros H. shapes H; cbn; intros E; try discriminate E; by eexists. Qed.

(** [stm_update] publishes a version. *)
Lemma run_publish ver s v t rest o c cp :
  inv s → rel ver s v → s_threads s !! t = Some (Thread (Writer true) (FSwap c :: rest)) →
  m_obj (s_mem s) = Some o → m_copies (s_mem s) !! c = Some cp →
  rel (<[c := length (v_versions v)]> ver)
    (System (set_obj (set_copy (Some c) o) (s_mem s)) (<[t := Thread (Writer true) (FWunlock :: FReleaseCopy (ob_copy o) :: rest)]> (s_threads s)))
    (Views (v_versions v ++ [cp_msg cp]) (Some (length (v_versions v))) (v_loaded v) (v_last v)).
Proof.
  intros Hinv Hr Hth Ho Hcp. destruct (r_threads _ _ _ Hr _ _ Hth) as [Hz _ Hp]. cbn in Hz, Hp.
  specialize (Hp c eq_refl). destruct Hr as [Hinj Hmsg Hcur Ht Hn] eqn:Er. clear Er.
  assert (Hlt : ∀ a i, ver !! a = Some i → (i < length (v_versions v))%nat).
  { intros a i Ha. destruct (Hmsg a i Ha) as (? & _ & ?%lookup_lt_Some). done. }
  eapply rel_step; [exact Hr|exact Hth| | | | | |done].
  - intros a b i. rewrite !lookup_insert. repeat case_decide; subst; [done| | |apply Hinj].
    + intros [= <-] Hb%Hlt. lia.
    + intros Ha%Hlt [= <-]. lia.
  - intros a i. cbn. rewrite lookup_insert. case_decide as Hd.
    + subst a. intros [= <-]. exists cp. by rewrite Hcp, list_lookup_middle.
    + intros Ha. destruct (Hmsg a i Ha) as (cp' & Ha' & Hi). exists cp'. split; [done|]. by apply lookup_app_l_Some.
  - intros o' [= <-] _. cbn. eexists. by rewrite lookup_insert_eq.
  - split; cbn; [done| |done]. intros r E. discriminate E.
  - intros t' th1 Hne Hth1 [H1 H2 H3]. split; cbn.
    + destruct (t_box th1) as [|? []]; [done|by apply shows_insert|done].
    + intros r E. apply shows_insert; auto.
    + intros c' E. destruct (pending_writer th1 c' (Forall_lookup_1 _ _ _ _ (i_threads _ Hinv) Hth1) E) as [a Ea].
      rewrite Ea in H1. congruence.
Qed.

(** Nobody has a pointer to a copy that is freed. *)
Lemma loaded_counted c fs :
  loaded_of fs = Some (Some c) → (∃ gs, fs = FIncCopy c :: gs) ∨ 1 ≤ fsum (is_copy c) fs.
Proof.
  intros E. destruct fs as [|f fs]; [discriminate E|]. destruct f; try discriminate E; cbn in E.
  - destruct fs as [|f fs]; [discriminate E|]. destruct f; try discriminate E. cbn in E. simplify_eq. right.
    cbn. rewrite bool_decide_true by done. pose proof (fsum_nonneg (is_copy c) fs). lia.
  - simplify_eq. left. by eexists.
  - simplify_eq. right. cbn. rewrite bool_decide_true by done. pose proof (fsum_nonneg (is_copy c) fs). lia.
Qed.

Lemma freed_nowhere s t b c rest :
  inv s → s_threads s !! t = Some (Thread b (FFreeCopy c :: rest)) →
  (∀ o, m_obj (s_mem s) = Some o → tsum clears (s_threads s) = 0 → ob_copy o ≠ Some c) ∧
  (∀ t' th, s_threads s !! t' = Some th → copy_of (t_box th) ≠ Some c ∧ loaded_of (t_todo th) ≠ Some (Some c)).
Proof.
  intros Hinv Hth. destruct (copy_freed _ _ _ _ _ Hinv Hth c eq_refl) as (cp & Hcp & Hz).
  pose proof (i_copy _ Hinv c) as E. rewrite Hcp in E. cbn in E. rewrite Hz in E.
  pose proof (held_range _ _ _ _ _ Hinv Hth c) as Hh. unfold held in *.
  assert (Hnn : 0 ≤ tsum (copies c) (s_threads s)) by (apply tsum_nonneg; intros th; apply weight_nonneg).
  assert (Ho : ∀ o, m_obj (s_mem s) = Some o → tsum clears (s_threads s) = 0 → ob_copy o ≠ Some c).
  { intros o Eo Hc Ec. rewrite Eo, Ec, decide_True in E by done. lia. }
  split; [exact Ho|]. intros t' [x fs] Ht'. cbn.
  pose proof (tsum_elem (copies c) _ _ _ (λ th, weight_nonneg _ _ th) Ht') as Hle.
  pose proof (fsum_nonneg (is_copy c) fs) as Hf. unfold copies, weight, copy_box in Hle. cbn in Hle.
  fold (copy_box c) in Hle. change (tsum _ _) with (tsum (copies c) (s_threads s)) in Hle. split.
  - intros Ec. rewrite Ec, bool_decide_true in Hle by done. lia.
  - intros [[gs ->]|H]%loaded_counted.
    + destruct (i_inc _ Hinv _ _ _ _ Ht') as (o & Eo & Ec). destruct (inc_excludes _ Hinv _ _ _ _ Ht') as (Hc & _).
      pose proof (thread_facts _ _ _ (i_threads _ Hinv) Ht') as []. apply (Ho o Eo); [lia|done].
    + destruct (bool_decide _); lia.
Qed.
Lemma run_free ver s v t b c rest :
  inv s → rel ver s v → s_threads s !! t = Some (Thread b (FFreeCopy c :: rest)) →
  loaded_of rest = None → pending_of rest = None →
  rel (delete c ver) (System (set_copies (delete c (m_copies (s_mem s))) (s_mem s)) (<[t := Thread b rest]> (s_threads s))) v.
Proof.
  intros Hinv Hr Hth Hl Hp. destruct (freed_nowhere _ _ _ _ _ Hinv Hth) as [Ho Hn]. pose proof Hr as [Hinj Hmsg Hcur Ht _].
  assert (Hlast : ∀ t' th, copy_of (t_box th) ≠ Some c → thread_view ver v t' th →
    match t_box th with
    | Reader lc true => shows (delete c ver) lc (v_last v !! t')
    | Reader _ false => True
    | Writer _ => t' = 0%nat
    end).
  { intros t' th H1 [H3 _ _]. destruct (t_box th) as [|? []]; [done|by apply shows_delete|done]. }
  eapply rel_step; [exact Hr|exact Hth| | | | | |done].
  - intros a b' i [_ Ha]%lookup_delete_Some [_ Hb]%lookup_delete_Some. by eapply Hinj.
  - intros a i [Hne Ha]%lookup_delete_Some. destruct (Hmsg a i Ha) as (cp & Hcp & Hi). exists cp. cbn.
    by rewrite lookup_delete_ne by done.
  - intros o Eo Hz. apply shows_delete; [apply Ho|apply Hcur]; try done.
    all: change (clears (Thread b (FFreeCopy c :: rest))) with (clears (Thread b rest)) in Hz; lia.
  - destruct (Hn _ _ Hth) as [H1 _]. pose proof (Hlast _ _ H1 (Ht _ _ Hth)) as H. split; cbn; [exact H| |]; congruence.
  - intros t' th1 _ Hth1 Hv1. destruct (Hn _ _ Hth1) as [H1 H2]. split; [by apply Hlast| |].
    + intros r E. apply shows_delete; [congruence|by apply Hv1].
    + intros c' E. rewrite lookup_delete_None. right. by apply Hv1.
Qed.

Lemma run_clear ver s v t rest o :
  rel ver s v → s_threads s !! t = Some (Thread (Writer false) (FClearCopy :: rest)) →
  m_obj (s_mem s) = Some o →
  rel ver (System (set_obj (set_copy None o) (s_mem s)) (<[t := Thread (Writer false) (FDropWriter :: rest)]> (s_threads s)))
    (Views (v_versions v) None (v_loaded v) (v_last v)).
Proof.
  intros Hr Hth Ho. pose proof Hr as [Hinj Hmsg _ Ht _]. destruct (Ht _ _ Hth) as [H1 _ _].
  eapply rel_step; [exact Hr|exact Hth|exact Hinj|exact Hmsg| | | |done].
  - by intros o' [= <-] _.
  - by split.
  - intros t' th1 _ _. by apply thread_view_ext.
Qed.

(** An action of a reader that changes its own row of the views. *)
Lemma run_own ver s v v' t b0 b f rest todo :
  rel ver s v → s_threads s !! t = Some (Thread b0 (f :: rest)) →
  v_versions v' = v_versions v → v_current v' = v_current v →
  (∀ t', t' ≠ t → v_last v' !! t' = v_last v !! t' ∧ v_loaded v' !! t' = v_loaded v !! t') →
  thread_view ver v' t (Thread b todo) → clears (Thread b todo) = clears (Thread b0 (f :: rest)) →
  rel ver (System (s_mem s) (<[t := Thread b todo]> (s_threads s))) v'.
Proof.
  intros Hr Hth Ev Ec Eo Hv Hc. pose proof Hr as [Hinj Hmsg Hcur _ _].
  eapply rel_step; [exact Hr|exact Hth|exact Hinj| | |exact Hv| |].
  - intros a i. rewrite Ev. apply Hmsg.
  - intros o E Hz. rewrite Ec. apply Hcur; [done|lia].
  - intros t' th1 Hne _. apply thread_view_ext; by apply Eo.
  - intros t' Hne. by apply Eo.
Qed.

Lemma run_load ver s v t b0 rest o todo :
  inv s → rel ver s v → s_threads s !! t = Some (Thread b0 (FLoadCopy :: rest)) → (∀ a, b0 ≠ Writer a) →
  m_obj (s_mem s) = Some o → loaded_of todo = Some (ob_copy o) → pending_of todo = None →
  clears (Thread b0 todo) = clears (Thread b0 (FLoadCopy :: rest)) →
  rel ver (System (s_mem s) (<[t := Thread b0 todo]> (s_threads s)))
    (Views (v_versions v) (v_current v) (partial_alter (λ _, v_current v) t (v_loaded v)) (v_last v)).
Proof.
  intros Hinv Hr Hth Hb Ho Hl Hp Hc. destruct (r_threads _ _ _ Hr _ _ Hth) as [H1 _ _].
  eapply run_own; [exact Hr|exact Hth|done|done| | |exact Hc].
  - intros t' Hne. cbn [v_last v_loaded]. by rewrite lookup_partial_alter_ne by done.
  - split; cbn [v_last v_loaded t_box t_todo].
    + done.
    + intros r E. rewrite Hl in E. injection E as <-. rewrite lookup_partial_alter_eq. apply (r_cur _ _ _ Hr); [done|].
      pose proof (i_obj _ Hinv) as Hob. rewrite Ho in Hob. destruct Hob.
      destruct (thread_facts _ _ _ (i_threads _ Hinv) Hth).
      assert (1 ≤ sections (Thread b0 (FLoadCopy :: rest))) as Hs.
      { unfold sections, weight. cbn. pose proof (fsum_nonneg in_section rest). lia. }
      lia.
    + by rewrite Hp.
Qed.

Lemma run_compare ver s v t lc ret rest :
  rel ver s v → views_ok v → s_threads s !! t = Some (Thread (Reader lc true) (FCompare ret :: rest)) →
  loaded_of rest = None → pending_of rest = None →
  (ret = lc → view_run v [ESame t] = Some v) ∧
  (ret ≠ lc → let v' := Views (v_versions v) (v_current v) (v_loaded v) (partial_alter (λ _, v_loaded v !! t) t (v_last v)) in
    view_run v [ENew t (bool_decide (is_Some ret))] = Some v' ∧ shows ver ret (v_last v' !! t)).
Proof.
  intros Hr Hok Hth Hl Hp. pose proof Hr as [Hinj _ _ Ht _]. destruct (Ht _ _ Hth) as [H1 H2 _]. cbn in H1, H2.
  specialize (H2 ret eq_refl). split.
  - intros ->. cbn. by rewrite (shows_fun _ _ _ _ H2 H1), bool_decide_true.
  - intros Hne. cbn. rewrite loaded_newer; [|done|intros E; apply Hne; rewrite E in H2; by eapply shows_inj].
    assert (bool_decide (is_Some ret) = bool_decide (is_Some (v_loaded v !! t))) as <-.
    { apply bool_decide_ext. clear -H2. destruct ret, (v_loaded v !! t); cbn in H2; naive_solver. }
    rewrite bool_decide_true by done. split; [done|]. cbn [v_last]. by rewrite lookup_partial_alter_eq.
Qed.

Lemma run_use ver s v t c rest cp :
  rel ver s v → s_threads s !! t = Some (Thread (Reader (Some c) true) (FUse c :: rest)) → m_copies (s_mem s) !! c = Some cp →
  view_run v [EUse t (cp_msg cp)] = Some v.
Proof.
  intros Hr Hth Hcp. pose proof Hr as [_ Hmsg _ Ht _]. destruct (Ht _ _ Hth) as [H1 _ _]. cbn in *.
  destruct H1 as (i & Hi & ->). destruct (Hmsg c i Hi) as (cp' & Hcp' & E). cbn.
  rewrite E, bool_decide_true by congruence. done.
Qed.

Ltac quiet_rel Hv :=
  eapply rel_quiet; [eassumption|eassumption| | | |];
  [ destruct Hv; split; cbn in *; first [done | by intros ? [=] | by intros ? [= <-]; eauto | auto]
  | first [by apply keeps_same | by eapply keeps_insert; [eassumption|]]
  | first [by intros o'; exists o' | by intros o' [=<-]; eexists]
  | by unfold clears, weight; cbn ].

Ltac quiet Hv := eexists _, _; split; [done|]; quiet_rel Hv.

Lemma run_views ver s v t b0 f rest fs b m' es :
  inv s → rel ver s v → views_ok v → s_threads s !! t = Some (Thread b0 (f :: rest)) →
  exec t f b0 (s_mem s) = Some (fs, b, m', es) →
  ∃ ver' v', view_run v es = Some v' ∧ rel ver' (System m' (<[t := Thread b (fs ++ rest)]> (s_threads s))) v'.
Proof.
  intros Hinv Hr Hok Hth Hx. pose proof (run_ok _ _ _ _ _ Hinv Hth) as Hs.
  pose proof (r_threads _ _ _ Hr _ _ Hth) as Hv.
  cases_of Hs Hx.
  all: try (by quiet Hv).
  all: try (by eexists _, _; split; [done|]; eapply run_publish).
  all: try (by eexists _, _; split; [done|]; apply (run_free _ _ _ _ _ _ _ Hinv Hr Hth)).
  all: try (by eexists _, _; split; [done|]; apply (run_clear _ _ _ _ _ _ Hr Hth)).
  all: try (by eexists _, _; split; [done|]; eapply run_load; eauto; cbn; congruence).
  all: try match goal with |- context [EUse] => idtac; cbn in Hs; simplify_eq;
    eexists _, _; split; [by eapply run_use|]; by quiet_rel Hv end.
  all: destruct (run_compare _ _ _ _ _ _ _ Hr Hok Hth eq_refl eq_refl) as [H1 H2].
  all: try (by eexists _, _; split; [by apply H1|]; quiet_rel Hv).
  all: destruct H2 as [E Hsh]; [done|]; eexists _, _; split; [exact E|];
    eapply run_own; [eassumption|eassumption|done|done| | |done].
  all: first [by split | intros t' Hne; cbn [v_last v_loaded]; by rewrite lookup_partial_alter_ne].
Qed.

(** ** The other steps *)

Lemma serve_views ver s v t b0 r fs b m' :
  rel ver s v → s_threads s !! t = Some (Thread b0 []) → serve r b0 (s_mem s) = Some (fs, b, m') →
  rel ver (System m' (<[t := Thread b fs]> (s_threads s))) v.
Proof.
  intros Hr Hth Hs. pose proof (r_threads _ _ _ Hr _ _ Hth) as [Hl _ _].
  destruct r as [c msg| | | |], b0 as [[]|lc []]; cbn in Hs; bind_inv.
  all: eapply rel_quiet; [exact Hr|exact Hth| | |by intros o'; exists o'|done].
  all: try by apply keeps_same.
  all: try by split.
  - split; cbn; [done|done|]. intros c' [= <-]. destruct (ver !! c) as [i|] eqn:Hc; [|done].
    destruct (r_msg _ _ _ Hr _ _ Hc) as (cp & Hcp & _). by apply bool_decide_eq_true in Heqb0; congruence.
  - intros a cp Ha _. cbn. exists cp. rewrite lookup_insert_ne; [done|].
    intros ->. apply bool_decide_eq_true in Heqb0. congruence.
Qed.

Lemma new_reader_views ver s v tk :
  rel ver s v → rel ver (System (Memory (m_obj (s_mem s)) (m_copies (s_mem s)) tk) (s_threads s ++ [Thread (Reader None true) []])) v.
Proof.
  intros [H1 H2 H3 H4 H5]. split; cbn; [done|done| | |].
  - intros o Eo. rewrite tsum_app. cbn [tsum]. intros Hz. apply H3; [done|].
    change (clears (Thread (Reader None true) [])) with 0 in Hz. lia.
  - intros t th Ht. apply lookup_app_Some in Ht as [Ht|[Hlen Ht]]; [by apply H4|].
    apply list_lookup_singleton_Some in Ht as [_ <-]. split; cbn; [by apply H5|done|done].
  - intros t. rewrite length_app. intros Hlen. apply H5. lia.
Qed.

Lemma step_views ver s v a s' es :
  inv s → rel ver s v → views_ok v → step s a = Some (s', es) →
  ∃ ver' v', view_run v es = Some v' ∧ rel ver' s' v'.
Proof.
  intros Hinv Hr Hok Hs. destruct a as [t|t r|]; cbn in Hs.
  - destruct (s_threads s !! t) as [[b0 [|f rest]]|] eqn:Hth; cbn in Hs; [done| |done].
    destruct (exec t f b0 (s_mem s)) as [[[[fs b] m'] es']|] eqn:Hx; cbn in Hs; [|done].
    injection Hs as <- <-. by eapply run_views.
  - destruct (s_threads s !! t) as [[b0 [|f rest]]|] eqn:Hth; cbn in Hs; [|done|done].
    destruct (serve r b0 (s_mem s)) as [[[fs b] m']|] eqn:Hx; cbn in Hs; [|done].
    injection Hs as <- <-. exists ver, v. split; [done|]. by eapply serve_views.
  - bind_inv. exists ver, v. split; [done|]. by apply new_reader_views.
Qed.

Lemma view_run_ok v es v' : views_ok v → view_run v es = Some v' → views_ok v'.
Proof.
  revert v. induction es as [|e es IH]; intros v Hok E; cbn in E; [by injection E as <-|].
  destruct (view_step v e) as [v1|] eqn:E1; cbn in E; [|done]. eapply IH; [|exact E]. by eapply view_step_ok.
Qed.

(** C28: every run of the threads that share an stm object is a run of the
    specification [view_step], in which updates append versions to a list: each read
    takes the version that is current at one moment of the read, or none when the object is
    dead; it answers false exactly when that is the version that the reader has or there
    is none; otherwise the version is a newer one, the answer is true, and the message that
    the reader is given is the whole message of that version. A freed copy whose address is used again is never taken for the old
    one. *)
Theorem stm_views c msg es s :
  runs (stm_new c msg) es s → ∃ v, view_run (view_new msg) es = Some v.
Proof.
  intros Hr. enough (inv s ∧ ∃ ver v, view_run (view_new msg) es = Some v ∧ rel ver s v) as (_ & ver & v & E & _).
  { by exists v. }
  remember (stm_new c msg) as s0 eqn:E0. induction Hr as [s0|s0 es s a es' s' Hr IH Hs]; subst s0.
  - split; [apply stm_new_inv|]. exists {[ c := 0%nat ]}, (view_new msg). split; [done|apply stm_new_rel].
  - destruct (IH eq_refl) as (Hinv & ver & v & E & Hrel). split; [by eapply stm_step_inv|].
    pose proof (view_run_ok _ _ _ (view_new_ok msg) E) as Hok.
    destruct (step_views _ _ _ _ _ _ Hinv Hrel Hok Hs) as (ver' & v' & E' & Hrel').
    exists ver', v'. split; [|done]. by rewrite view_run_app, E.
Qed.

Lemma stm_views_witness :
  ∃ s es v, runs (stm_new 1 [5]) es s ∧ In (EUse 1 [7; 8]) es ∧ view_run (view_new [5]) es = Some v.
Proof.
  pose proof demo_end_runs as H. destruct demo_end as [[s es]|] eqn:E; [|destruct H].
  destruct (stm_views 1 [5] es s H) as [v Hv]. exists s, es, v. split; [exact H|]. split; [|exact Hv].
  vm_compute in E. injection E as <- <-. cbn. tauto.
Defined.
