(* ===== verification/SprotoType.v ===== *)
(** * Sproto schemas: lualib-src/sproto/sproto.c, from a bundle to types

    A bundle is itself a sproto message, written by sprotoparser.lua: the types with
    their fields, and the protocols.  Pointers into it are offsets; a read outside of it
    is [Abort].  Loading fails with [Err] where the C function returns NULL.  The memory
    pool of the strings and arrays is left out. *)
From S2P Require Import Prelude Bytes CString Seri.
Local Open Scope Z_scope.

Definition SIZEOF_LENGTH : Z := 4.
Definition SIZEOF_HEADER : Z := 2.
Definition SIZEOF_FIELD : Z := 2.
Definition SIZEOF_INT64 : Z := 8.
Definition SIZEOF_INT32 : Z := 4.

Definition SPROTO_TINTEGER : Z := 0.
Definition SPROTO_TBOOLEAN : Z := 1.
Definition SPROTO_TSTRING : Z := 2.
Definition SPROTO_TDOUBLE : Z := 3.
Definition SPROTO_TSTRUCT : Z := 4.
Definition SPROTO_TARRAY : Z := 128.

(** ** Data *)

(** [f_st] is the index of the type of a struct. *)
Record field := Field {
  f_tag : Z; f_type : Z; f_name : list Z; f_st : option Z; f_key : Z; f_map : Z; f_extra : Z }.

Record sproto_type := SType { t_name : list Z; t_n : Z; t_base : Z; t_maxn : Z; t_f : list field }.

(** [p_p]: the types of the request and of the response. *)
Record protocol := Protocol { p_name : list Z; p_tag : Z; p_confirm : Z; p_request : option Z; p_response : option Z }.

Record sproto := Sproto { s_type : list sproto_type; s_proto : list protocol }.

(** ** Reading a bundle *)

Definition fail {A} : res A := Err EStream.

(** [n] bytes at [p]. *)
Definition load (buf : list Z) (p n : Z) : res (list Z) :=
  if (0 <=? p) && (0 <=? n) && (p + n <=? Z.of_nat (length buf))
  then Ok (take (Z.to_nat n) (drop (Z.to_nat p) buf)) else Abort.

Definition toword (buf : list Z) (p : Z) : res Z := bs ← load buf p 2; Ok (le_val bs).
Definition todword (buf : list Z) (p : Z) : res Z := bs ← load buf p 4; Ok (le_val bs).

(** The loop of [count_array]; the lengths are [uint32_t]. *)
Fixpoint count_loop (fuel : nat) (buf : list Z) (p length n : Z) : res Z :=
  match fuel with
  | O => Abort
  | S fuel =>
      if length =? 0 then Ok n
      else if length <? SIZEOF_LENGTH then fail
      else
        nsz ← todword buf p;
        let nsz := wrap 32 (nsz + SIZEOF_LENGTH) in
        if length <? nsz then fail
        else count_loop fuel buf (p + nsz) (length - nsz) (n + 1)
  end.

Definition count_array (buf : list Z) (p : Z) : res Z :=
  length ← todword buf p;
  count_loop (S (List.length buf)) buf (p + SIZEOF_LENGTH) length 0.

(** The loop of [struct_field] over the [k] fields from [field] on. *)
Fixpoint field_loop (k : nat) (buf : list Z) (field p sz : Z) : res unit :=
  match k with
  | O => Ok tt
  | S k =>
      value ← toword buf field;
      if negb (value =? 0) then field_loop k buf (field + SIZEOF_FIELD) p sz
      else if sz <? SIZEOF_LENGTH then fail
      else
        dsz ← todword buf p;
        let step := wrap 32 (SIZEOF_LENGTH + dsz) in
        if sz <? step then fail
        else field_loop k buf (field + SIZEOF_FIELD) (p + step) (sz - step)
  end.

Definition struct_field (buf : list Z) (p sz : Z) : res Z :=
  if sz <? SIZEOF_LENGTH then fail
  else
    fn ← toword buf p;
    let header := SIZEOF_HEADER + SIZEOF_FIELD * fn in
    if sz <? header then fail
    else
      _ ← field_loop (Z.to_nat fn) buf (p + SIZEOF_HEADER) (p + header) (sz - header);
      Ok fn.

Definition import_string (buf : list Z) (p : Z) : res (list Z) :=
  sz ← todword buf p;
  bs ← load buf (p + SIZEOF_LENGTH) sz;
  Ok (c_str bs).

(** [calc_pow]; [n] is halved until it is zero.  An overflow of an [int] is undefined. *)
Fixpoint calc_pow (fuel : nat) (base n : Z) : res Z :=
  match fuel with
  | O => Abort
  | S fuel =>
      if n =? 0 then Ok 1
      else
        base' ← of_option (c_int (base * base));
        r ← calc_pow fuel base' (n / 2);
        if Z.land n 1 =? 1 then of_option (c_int (r * base)) else Ok r
  end.

(** The variables of [import_field]. *)
Record importing := Importing { im_tag : Z; im_f : field; im_name : option (list Z); im_array : Z }.

Definition set_type (t : Z) (f : field) : field :=
  Field (f_tag f) t (f_name f) (f_st f) (f_key f) (f_map f) (f_extra f).
Definition set_st (st : Z) (f : field) : field :=
  Field (f_tag f) SPROTO_TSTRUCT (f_name f) (Some st) (f_key f) (f_map f) (f_extra f).
Definition set_extra (e : Z) (f : field) : field :=
  Field (f_tag f) (f_type f) (f_name f) (f_st f) (f_key f) (f_map f) e.
Definition set_tag (t : Z) (f : field) : field :=
  Field t (f_type f) (f_name f) (f_st f) (f_key f) (f_map f) (f_extra f).
Definition set_key (k : Z) (f : field) : field :=
  Field (f_tag f) (f_type f) (f_name f) (f_st f) k (f_map f) (f_extra f).
Definition set_map (m : Z) (f : field) : field :=
  Field (f_tag f) (f_type f) (f_name f) (f_st f) (f_key f) m (f_extra f).
Definition set_name (n : list Z) (f : field) : field :=
  Field (f_tag f) (f_type f) n (f_st f) (f_key f) (f_map f) (f_extra f).

(** The [switch] of [import_field]. *)
Definition import_value (type_n tag value array : Z) (f : field) : res (field * Z) :=
  if tag =? 1 then
    if SPROTO_TSTRUCT <=? value then fail else Ok (set_type value f, array)
  else if tag =? 2 then
    if f_type f =? SPROTO_TINTEGER then
      e ← calc_pow 32 10 value; Ok (set_extra e f, array)
    else if f_type f =? SPROTO_TSTRING then Ok (set_extra value f, array)
    else if type_n <=? value then fail
    else if 0 <=? f_type f then fail
    else Ok (set_st value f, array)
  else if tag =? 3 then Ok (set_tag value f, array)
  else if tag =? 4 then Ok (f, if value =? 0 then array else SPROTO_TARRAY)
  else if tag =? 5 then Ok (set_key value f, array)
  else if tag =? 6 then Ok (if value =? 0 then f else set_map 1 f, array)
  else fail.

(** [data] is the offset behind the field table, of the name. *)
Definition import_step (buf : list Z) (type_n data value : Z) (im : importing) : res importing :=
  let tag := im_tag im + 1 in
  if Z.land value 1 =? 1 then Ok (Importing (tag + value / 2) (im_f im) (im_name im) (im_array im))
  else if tag =? 0 then
    if negb (value =? 0) then fail
    else name ← import_string buf data; Ok (Importing tag (im_f im) (Some name) (im_array im))
  else if value =? 0 then fail
  else
    '(f, array) ← import_value type_n tag (value / 2 - 1) (im_array im) (im_f im);
    Ok (Importing tag f (im_name im) array).

Fixpoint import_loop (k : nat) (buf : list Z) (type_n data p : Z) (im : importing) : res importing :=
  match k with
  | O => Ok im
  | S k =>
      value ← toword buf p;
      im ← import_step buf type_n data value im;
      import_loop k buf type_n data (p + SIZEOF_FIELD) im
  end.

Definition import_field (buf : list Z) (type_n p : Z) : res (field * Z) :=
  sz ← todword buf p;
  let stream := p + SIZEOF_LENGTH in
  fn ← struct_field buf stream sz;
  let stream' := stream + SIZEOF_HEADER in
  im ← import_loop (Z.to_nat fn) buf type_n (stream' + fn * SIZEOF_FIELD) stream'
         (Importing (-1) (Field (-1) (-1) [] None (-1) (-1) 0) None 0);
  let f := im_f im in
  match im_name im with
  | None => fail
  | Some name =>
      if (f_tag f <? 0) || (f_type f <? 0) then fail
      else Ok (set_name name (set_type (Z.lor (f_type f) (im_array im)) f), stream + sz)
  end.

(** The loop of [import_type] over the fields. *)
Fixpoint import_fields (k : nat) (buf : list Z) (type_n p maxn last : Z) : res (list field * Z) :=
  match k with
  | O => Ok ([], maxn)
  | S k =>
      '(f, p) ← import_field buf type_n p;
      let tag := f_tag f in
      if tag <=? last then fail
      else
        '(fs, maxn) ← import_fields k buf type_n p (if last + 1 <? tag then maxn + 1 else maxn) tag;
        Ok (f :: fs, maxn)
  end.

(** Names and fields must be encoded to 0. *)
Fixpoint all_zero (k : nat) (buf : list Z) (p : Z) : res unit :=
  match k with
  | O => Ok tt
  | S k => v ← toword buf p; if negb (v =? 0) then fail else all_zero k buf (p + SIZEOF_FIELD)
  end.

Definition import_type (buf : list Z) (type_n p : Z) : res (sproto_type * Z) :=
  sz ← todword buf p;
  let stream := p + SIZEOF_LENGTH in
  let result := stream + sz in
  fn ← struct_field buf stream sz;
  if (fn <=? 0) || (2 <? fn) then fail
  else
    _ ← all_zero (Z.to_nat fn) buf (stream + SIZEOF_HEADER);
    let stream := stream + SIZEOF_HEADER + fn * SIZEOF_FIELD in
    name ← import_string buf stream;
    if fn =? 1 then Ok (SType name 0 0 0 [], result)
    else
      len ← todword buf stream;
      let stream := stream + len + SIZEOF_LENGTH in
      n ← count_array buf stream;
      '(fs, maxn) ← import_fields (Z.to_nat n) buf type_n (stream + SIZEOF_LENGTH) n (-1);
      first ← of_option (head fs);
      final ← of_option (last fs);
      let base := f_tag first in
      let base := if negb (f_tag final - base + 1 =? n) then -1 else base in
      Ok (SType name n base maxn fs, result).

(** The [switch] of [import_protocol], on the number of the field in the table. *)
Definition import_protocol_value (buf : list Z) (type_n data i value : Z) (p : protocol) (named : bool) : res (protocol * bool) :=
  if i =? 0 then
    if negb (value =? -1) then fail
    else name ← import_string buf data;
         Ok (Protocol name (p_tag p) (p_confirm p) (p_request p) (p_response p), true)
  else if i =? 1 then
    if value <? 0 then fail else Ok (Protocol (p_name p) value (p_confirm p) (p_request p) (p_response p), named)
  else if i =? 2 then
    if (value <? 0) || (type_n <=? value) then fail
    else Ok (Protocol (p_name p) (p_tag p) (p_confirm p) (Some value) (p_response p), named)
  else if i =? 3 then
    if (value <? 0) || (type_n <=? value) then fail
    else Ok (Protocol (p_name p) (p_tag p) (p_confirm p) (p_request p) (Some value), named)
  else if i =? 4 then Ok (Protocol (p_name p) (p_tag p) value (p_request p) (p_response p), named)
  else fail.

Fixpoint import_protocol_loop (k : nat) (buf : list Z) (type_n data i q : Z) (p : protocol) (named : bool)
    : res (protocol * bool) :=
  match k with
  | O => Ok (p, named)
  | S k =>
      value ← toword buf q;
      '(p, named) ← (if Z.land value 1 =? 1 then Ok (p, named)
                     else import_protocol_value buf type_n data i (value / 2 - 1) p named);
      import_protocol_loop k buf type_n data (i + 1) (q + SIZEOF_FIELD) p named
  end.

Definition import_protocol (buf : list Z) (type_n q : Z) : res (protocol * Z) :=
  sz ← todword buf q;
  let stream := q + SIZEOF_LENGTH in
  fn ← struct_field buf stream sz;
  let stream' := stream + SIZEOF_HEADER in
  '(p, named) ← import_protocol_loop (Z.to_nat fn) buf type_n (stream' + SIZEOF_FIELD * fn) 0 stream'
                  (Protocol [] (-1) 0 None None) false;
  if negb named || (p_tag p <? 0) then fail else Ok (p, stream + sz).

(** [k] elements, one behind the other. *)
Fixpoint import_all {A} (import : Z → res (A * Z)) (k : nat) (p : Z) : res (list A) :=
  match k with
  | O => Ok []
  | S k => '(x, p) ← import p; l ← import_all import k p; Ok (x :: l)
  end.

(** One field of the bundle: the number of elements, the offset of the first, and the
    content that follows. *)
Definition bundle_part (buf : list Z) (i content : Z) : res (Z * Z * Z) :=
  value ← toword buf (SIZEOF_HEADER + i * SIZEOF_FIELD);
  if negb (value =? 0) then fail
  else
    n ← count_array buf content;
    len ← todword buf content;
    Ok (n, content + SIZEOF_LENGTH, content + len + SIZEOF_LENGTH).

Definition create_from_bundle (buf : list Z) : res sproto :=
  fn ← struct_field buf 0 (Z.of_nat (length buf));
  if 2 <? fn then fail
  else
    let content := SIZEOF_HEADER + fn * SIZEOF_FIELD in
    '(type_n, typedata, content) ← (if 0 <? fn then bundle_part buf 0 content else Ok (0, 0, content));
    '(protocol_n, protocoldata, _) ← (if 1 <? fn then bundle_part buf 1 content else Ok (0, 0, content));
    types ← import_all (import_type buf type_n) (Z.to_nat type_n) typedata;
    protos ← import_all (import_protocol buf type_n) (Z.to_nat protocol_n) protocoldata;
    Ok (Sproto types protos).

(** ** Queries *)

Definition same_name (a b : list Z) : bool := bool_decide (c_str a = c_str b).

Definition sproto_prototag (sp : sproto) (name : list Z) : Z :=
  match List.find (λ p, same_name name (p_name p)) (s_proto sp) with Some p => p_tag p | None => -1 end.

(** The bisections of [query_proto] and [findtag], over the tags of an array. *)
Fixpoint bisect {A} (fuel : nat) (tag_of : A → Z) (l : list A) (tag beg end_ : Z) : option A :=
  match fuel with
  | O => None
  | S fuel =>
      if beg <? end_ then
        let mid := (beg + end_) / 2 in
        x ← aget l mid;
        let t := tag_of x in
        if t =? tag then Some x
        else if t <? tag then bisect fuel tag_of l tag (mid + 1) end_
        else bisect fuel tag_of l tag beg mid
      else None
  end.

Definition query_proto (sp : sproto) (tag : Z) : option protocol :=
  bisect (S (length (s_proto sp))) p_tag (s_proto sp) tag 0 (Z.of_nat (length (s_proto sp))).

(** [what] is 0 for the request and 1 for the response. *)
Definition sproto_protoquery (sp : sproto) (proto what : Z) : option Z :=
  if (what <? 0) || (1 <? what) then None
  else p ← query_proto sp proto; if what =? 0 then p_request p else p_response p.

Definition sproto_protoresponse (sp : sproto) (proto : Z) : bool :=
  match query_proto sp proto with
  | Some p => bool_decide (is_Some (p_response p)) || negb (p_confirm p =? 0)
  | None => false
  end.

Definition sproto_protoname (sp : sproto) (proto : Z) : option (list Z) :=
  p ← query_proto sp proto; Some (p_name p).

Definition find_type (sp : sproto) (name : list Z) : option sproto_type :=
  List.find (λ t, same_name name (t_name t)) (s_type sp).

Definition findtag (st : sproto_type) (tag : Z) : option field :=
  if 0 <=? t_base st then
    let i := tag - t_base st in
    if (i <? 0) || (t_n st <=? i) then None else aget (t_f st) i
  else bisect (S (length (t_f st))) f_tag (t_f st) tag 0 (t_n st).
