(* ===== verification/SprotoSchema.v ===== *)
(** Well-formed sproto schemas: what [create_from_bundle] guarantees of the types that
    it loads, and the lookup of fields by their tags. *)
From S2P Require Import Prelude Bytes CString Seri SprotoType.
Local Open Scope Z_scope.

(** ** Well-formed types *)

Definition type_code (t : Z) : Prop := 0 ≤ t ≤ SPROTO_TSTRUCT.

(** The type of a field, an array or not; a struct has the index of its type. *)
Definition field_ok (type_n : Z) (f : field) : Prop :=
  0 ≤ f_tag f < 0x8000 ∧
  ∃ t, type_code t ∧ (f_type f = t ∨ f_type f = t + SPROTO_TARRAY) ∧
       (t = SPROTO_TSTRUCT → ∃ i, f_st f = Some i ∧ 0 ≤ i < type_n).

(** The places in the table of a message that the skipped tags need. *)
Fixpoint gaps (last : Z) (fs : list field) : Z :=
  match fs with
  | [] => 0
  | f :: fs => (if last + 1 <? f_tag f then 1 else 0) + gaps (f_tag f) fs
  end.

Fixpoint ascending (last : Z) (fs : list field) : Prop :=
  match fs with
  | [] => True
  | f :: fs => last < f_tag f ∧ ascending (f_tag f) fs
  end.

Record type_ok (type_n : Z) (st : sproto_type) : Prop := {
  k_n : t_n st = Z.of_nat (length (t_f st));
  k_ascending : ascending (-1) (t_f st);
  k_fields : Forall (field_ok type_n) (t_f st);
  k_maxn : t_maxn st = Z.of_nat (length (t_f st)) + gaps (-1) (t_f st);
  k_base : t_base st = -1 ∨
    0 ≤ t_base st ∧ ∀ (i : nat) f, t_f st !! i = Some f → f_tag f = t_base st + Z.of_nat i;
}.

Definition schema_ok (sp : sproto) : Prop :=
  Forall (type_ok (Z.of_nat (length (s_type sp)))) (s_type sp).

(** ** Lookup by tag *)

Lemma ascending_first last fs i f : ascending last fs → fs !! i = Some f → last < f_tag f.
Proof.
  revert last i. induction fs as [|h fs IH]; intros last i H Hi; [done|]. destruct H as [H1 H2].
  destruct i as [|i]; cbn in Hi; [by injection Hi as <-|]. specialize (IH _ _ H2 Hi). lia.
Qed.

Lemma ascending_lookup last fs i j f g :
  ascending last fs → (i < j)%nat → fs !! i = Some f → fs !! j = Some g → f_tag f < f_tag g.
Proof.
  revert last i j. induction fs as [|h fs IH]; intros last i j H Hij Hi Hj; [done|]. destruct H as [H1 H2].
  destruct j as [|j]; [lia|]. cbn in Hj. destruct i as [|i]; cbn in Hi; [|by apply (IH _ i j H2); [lia|..]].
  injection Hi as <-. by eapply ascending_first.
Qed.

(** The field that has the tag. *)
Definition has_tag (st : sproto_type) (tag : Z) (f : field) : Prop := ∃ i : nat, t_f st !! i = Some f ∧ f_tag f = tag.

Lemma bisect_found fs tag : ascending (-1) fs →
  ∀ fuel (b e : nat), (b ≤ e ≤ length fs)%nat → (e - b < fuel)%nat →
  (∀ i f, fs !! i = Some f → f_tag f = tag → (b ≤ i < e)%nat) →
  match bisect fuel f_tag fs tag (Z.of_nat b) (Z.of_nat e) with
  | Some f => ∃ i : nat, fs !! i = Some f ∧ f_tag f = tag
  | None => ∀ i f, fs !! i = Some f → f_tag f ≠ tag
  end.
Proof.
  intros Ha fuel. induction fuel as [|fuel IH]; intros b e Hbe Hf Hin; [lia|]. cbn [bisect].
  destruct (Z.ltb_spec (Z.of_nat b) (Z.of_nat e)) as [Hlt|Hge].
  2: { intros i f Hi E. specialize (Hin i f Hi E). lia. }
  set (mid := ((b + e) / 2)%nat). assert ((Z.of_nat b + Z.of_nat e) / 2 = Z.of_nat mid) as ->.
  { unfold mid. rewrite Nat2Z.inj_div, Nat2Z.inj_add. done. }
  assert (b ≤ mid < e)%nat as Hm.
  { unfold mid. pose proof (Nat.div_mod (b + e) 2). pose proof (Nat.mod_upper_bound (b + e) 2). lia. }
  clearbody mid. rewrite aget_nat. destruct (lookup_lt_is_Some_2 fs mid ltac:(lia)) as [x Hx]. rewrite Hx. cbn [mbind option_bind].
  destruct (Z.eqb_spec (f_tag x) tag) as [E|E]; [by exists mid|].
  destruct (Z.ltb_spec (f_tag x) tag) as [Hl|Hl].
  - replace (Z.of_nat mid + 1) with (Z.of_nat (S mid)) by lia. apply IH; [lia|lia|].
    intros i f Hi Ef. specialize (Hin i f Hi Ef) as Hie. destruct (decide (i ≤ mid)%nat) as [Hle|]; [|lia].
    destruct (decide (i = mid)) as [->|]; [congruence|].
    pose proof (ascending_lookup _ _ i mid f x Ha ltac:(lia) Hi Hx). lia.
  - apply IH; [lia|lia|]. intros i f Hi Ef. specialize (Hin i f Hi Ef) as Hie.
    destruct (decide (mid ≤ i)%nat) as [Hle|]; [|lia].
    destruct (decide (i = mid)) as [->|]; [congruence|].
    pose proof (ascending_lookup _ _ mid i x f Ha ltac:(lia) Hx Hi). lia.
Qed.

Lemma findtag_spec n st tag : type_ok n st →
  match findtag st tag with
  | Some f => has_tag st tag f
  | None => ∀ f, ¬ has_tag st tag f
  end.
Proof.
  intros [Hn Ha _ _ Hb]. unfold findtag, has_tag. destruct (Z.leb_spec 0 (t_base st)) as [Hp|Hp].
  - destruct Hb as [Hb|[_ Hb]]; [lia|]. destruct (Z.ltb_spec (tag - t_base st) 0), (Z.leb_spec (t_n st) (tag - t_base st)); cbn [orb].
    1-3: intros f (i & Hi & E); pose proof (Hb i f Hi); apply lookup_lt_Some in Hi; lia.
    destruct (aget (t_f st) (tag - t_base st)) as [f|] eqn:Ef.
    + pose proof (aget_Some_range _ _ _ Ef). replace (tag - t_base st) with (Z.of_nat (Z.to_nat (tag - t_base st))) in Ef by lia.
      rewrite aget_nat in Ef. exists (Z.to_nat (tag - t_base st)). split; [done|]. rewrite (Hb _ _ Ef). lia.
    + intros f (i & Hi & E). pose proof (Hb i f Hi). destruct (aget_is_Some (t_f st) (tag - t_base st)); [lia|congruence].
  - rewrite Hn. pose proof (bisect_found (t_f st) tag Ha (S (length (t_f st))) 0 (length (t_f st))) as H.
    change (Z.of_nat 0) with 0 in H. specialize (H ltac:(lia) ltac:(lia)).
    assert (∀ i f, t_f st !! i = Some f → f_tag f = tag → (0 ≤ i < length (t_f st))%nat) as Hin.
    { intros i f Hi _. apply lookup_lt_Some in Hi. lia. }
    specialize (H Hin). destruct (bisect _ _ _ _ _ _) as [f|]; [done|]. intros f (i & Hi & E). by apply (H i f Hi).
Qed.

Lemma findtag_has n st tag f : type_ok n st → has_tag st tag f → findtag st tag = Some f.
Proof.
  intros Hok Hf. pose proof (findtag_spec n st tag Hok) as H. destruct (findtag st tag) as [g|]; [|by destruct (H f)].
  destruct H as (i & Hi & Ei), Hf as (j & Hj & Ej). f_equal. pose proof (k_ascending _ _ Hok) as Ha.
  destruct (decide (i = j)) as [->|Hne]; [congruence|].
  destruct (decide (i < j)%nat).
  - pose proof (ascending_lookup _ _ i j g f Ha ltac:(lia) Hi Hj). lia.
  - pose proof (ascending_lookup _ _ j i f g Ha ltac:(lia) Hj Hi). lia.
Qed.

(** ** What the loader builds *)

Lemma toword_range buf p v : Forall byte_ok buf → toword buf p = Ok v → 0 ≤ v < 65536.
Proof.
  intros Hb. unfold toword, load. destruct (_ && _ && _) eqn:E; [|done]. cbn. intros [= <-].
  pose proof (le_val_range (take (Z.to_nat 2) (drop (Z.to_nat p) buf)) ltac:(by apply Forall_take, Forall_drop)) as H.
  rewrite length_take, length_drop in H.
  assert (8 * Z.of_nat (Z.to_nat 2 `min` (length buf - Z.to_nat p)) = 16) as E' by lia. rewrite E' in H.
  change (2 ^ 16) with 65536 in H. lia.
Qed.

(** [import_field] in the middle: a tag and a type that were not there yet are -1. *)
Definition type_ready (type_n : Z) (f : field) : Prop :=
  f_type f = -1 ∨ type_code (f_type f) ∧ (f_type f = SPROTO_TSTRUCT → ∃ i, f_st f = Some i ∧ 0 ≤ i < type_n).

Definition im_ok (type_n : Z) (im : importing) : Prop :=
  -1 ≤ f_tag (im_f im) < 0x8000 ∧ type_ready type_n (im_f im) ∧ (im_array im = 0 ∨ im_array im = SPROTO_TARRAY).

Lemma res_bind_Ok {A B} (m : res A) (f : A → res B) b : m ≫= f = Ok b → ∃ a, m = Ok a ∧ f a = Ok b.
Proof. destruct m; cbn; [eauto|done..]. Qed.

Ltac res_inv :=
  repeat match goal with
  | H : _ ≫= _ = Ok _ |- _ => apply res_bind_Ok in H as (? & ? & H)
  | H : (let '(_, _) := ?x in _) = Ok _ |- _ => destruct x
  | H : (if ?b then _ else _) = Ok _ |- _ => destruct b eqn:?
  | H : fail = Ok _ |- _ => discriminate H
  | H : Ok _ = Ok _ |- _ => injection H; clear H; intros; subst
  | H : Err _ = Ok _ |- _ => discriminate H
  | H : Abort = Ok _ |- _ => discriminate H
  end.

Lemma import_step_ok buf n data value im im' :
  0 ≤ value < 65536 → im_ok n im → import_step buf n data value im = Ok im' → im_ok n im'.
Proof.
  intros Hv (Ht & Hr & Ha) H. unfold import_step in H. res_inv; cbn; try done.
  unfold import_value in *. assert (1 ≤ value / 2 < 32768) as Hh.
  { rewrite (land_low value 1 1) in * by done. pose proof (Z.div_mod value 2). pose proof (Z.mod_pos_bound value 2).
    change (2 ^ 1) with 2 in *. lia. }
  revert Hh. generalize dependent (value / 2). intros v. intros.
  res_inv; unfold im_ok, type_ready, type_code, SPROTO_TSTRUCT, SPROTO_TARRAY in *; cbn in *; try destruct (v - 1 =? 0);
    cbn; unfold SPROTO_TSTRUCT; split_and!; try done; try lia; try (by destruct (v - 1 =? 0); auto).
  all: right; split; [done|]; intros _; exists (v - 1); split; [done|]; lia.
Qed.

Lemma import_loop_ok buf n data k p im im' :
  Forall byte_ok buf → im_ok n im → import_loop k buf n data p im = Ok im' → im_ok n im'.
Proof.
  intros Hb. revert p im. induction k as [|k IH]; intros p im Him H; cbn in H; res_inv; [done|].
  eapply IH; [|done]. eapply import_step_ok; [by eapply toword_range|done..].
Qed.

Lemma import_field_ok buf n p f p' :
  Forall byte_ok buf → import_field buf n p = Ok (f, p') → field_ok n f.
Proof.
  intros Hb H. unfold import_field in H. res_inv.
  assert (im_ok n x1) as (Ht & Hr & Ha).
  { eapply (import_loop_ok buf n); [done| |done]. repeat split; cbn; try lia; by left. }
  destruct (im_name _); [|done]. res_inv. unfold field_ok. cbn. split; [lia|].
  destruct Hr as [Hr|(Hc & Hr)]; [lia|]. exists (f_type (im_f x1)). split; [done|]. split; [|done].
  unfold type_code, SPROTO_TSTRUCT in Hc. destruct Ha as [->| ->]; [left; apply Z.lor_0_r|right].
  replace SPROTO_TARRAY with (1 * 2 ^ 7) by done. rewrite lor_add by lia. done.
Qed.

Lemma import_fields_ok buf n k p maxn last fs maxn' :
  Forall byte_ok buf → import_fields k buf n p maxn last = Ok (fs, maxn') →
  length fs = k ∧ ascending last fs ∧ Forall (field_ok n) fs ∧ maxn' = maxn + gaps last fs.
Proof.
  intros Hb. revert p maxn last fs maxn'. induction k as [|k IH]; intros p maxn last fs maxn' H; cbn in H; res_inv; cbn.
  { split_and!; [done..|lia]. }
  match goal with H : import_fields _ _ _ _ _ _ = Ok _ |- _ => apply IH in H as (-> & Ha & Hf & ->) end.
  match goal with H : import_field _ _ _ = Ok _ |- _ => apply import_field_ok in H; [|done] end.
  split_and!; [done|lia|done|by constructor|]. destruct (_ <? _); lia.
Qed.

(** Tags that ascend by one in sum ascend by one each. *)
Lemma ascending_dense prev h fs final : ascending prev (h :: fs) → last (h :: fs) = Some final →
  f_tag h + Z.of_nat (length fs) ≤ f_tag final ∧
  (f_tag final = f_tag h + Z.of_nat (length fs) → ∀ (i : nat) f, (h :: fs) !! i = Some f → f_tag f = f_tag h + Z.of_nat i).
Proof.
  revert prev h. induction fs as [|g fs IH]; intros prev h [Ht Ha] Hl.
  { cbn in Hl. injection Hl as <-. split; [cbn; lia|]. intros _ [|i] f Hi; cbn in Hi; [injection Hi as <-; lia|done]. }
  change (last (h :: g :: fs)) with (last (g :: fs)) in Hl. destruct (IH _ _ Ha Hl) as [H1 H2]. destruct Ha as [Hg _].
  cbn [length]. split; [lia|]. intros E [|i] f Hi; cbn in Hi; [injection Hi as <-; lia|].
  rewrite (H2 ltac:(lia) i f Hi). lia.
Qed.

Lemma count_loop_ge fuel buf p len n r : count_loop fuel buf p len n = Ok r → n ≤ r.
Proof.
  revert p len n. induction fuel as [|fuel IH]; intros p len n H; cbn in H; res_inv; [lia|]. apply IH in H. lia.
Qed.

Lemma count_array_nonneg buf p n : count_array buf p = Ok n → 0 ≤ n.
Proof. intros H. unfold count_array in H. res_inv. by eapply count_loop_ge. Qed.

Lemma of_option_Ok {A} (m : option A) a : of_option m = Ok a → m = Some a.
Proof. destruct m; cbn; [by intros [= ->]|done]. Qed.

Lemma import_type_ok buf n p st p' : Forall byte_ok buf → import_type buf n p = Ok (st, p') → type_ok n st.
Proof.
  intros Hb H. unfold import_type in H. res_inv.
  { split; cbn; [done..|]. right. split; [lia|]. intros i f Hi. by rewrite lookup_nil in Hi. }
  match goal with H : import_fields _ _ _ _ _ _ = Ok _ |- _ => apply import_fields_ok in H as (Hl & Ha & Hf & ->); [|done] end.
  repeat match goal with H : of_option _ = Ok _ |- _ => apply of_option_Ok in H end.
  match goal with H : count_array _ _ = Ok _ |- _ => apply count_array_nonneg in H end.
  split; cbn; [lia|done|done|lia|].
  match goal with H : head ?l = Some _ |- _ => destruct l as [|h fs]; [done|]; injection H as -> end.
  edestruct ascending_dense as [D1 D2]; [done..|]. cbn [length] in Hl. pose proof (proj1 Ha).
  match goal with |- context [?a =? ?b] => destruct (Z.eqb_spec a b) as [E|E]; cbn; [right|by left] end.
  split; [lia|]. apply D2. lia.
Qed.

Lemma import_all_ok {A} (import : Z → res (A * Z)) (P : A → Prop) k p l :
  (∀ p a p', import p = Ok (a, p') → P a) → import_all import k p = Ok l → length l = k ∧ Forall P l.
Proof.
  intros Hi. revert p l. induction k as [|k IH]; intros p l H; cbn in H; res_inv; [done|].
  match goal with H : import_all _ _ _ = Ok _ |- _ => apply IH in H as (<- & Hl) end.
  split; [done|]. constructor; [by eapply Hi|done].
Qed.

Lemma bundle_part_nonneg buf i c n d c' : bundle_part buf i c = Ok (n, d, c') → 0 ≤ n.
Proof. intros H. unfold bundle_part in H. res_inv. by eapply count_array_nonneg. Qed.

Lemma create_schema_ok buf sp : Forall byte_ok buf → create_from_bundle buf = Ok sp → schema_ok sp.
Proof.
  intros Hb H. unfold create_from_bundle in H. res_inv.
  all: match goal with H : import_all (import_type _ ?n) _ _ = Ok _ |- _ =>
    apply (import_all_ok _ (type_ok n)) in H as [Hl Hf]; [|intros ???; by apply import_type_ok] end.
  all: unfold schema_ok; cbn [s_type]; rewrite Hl, Z2Nat.id; [done|].
  all: first [lia | by eapply bundle_part_nonneg].
Qed.

(** The first field with a tag, by a linear search. *)
Definition field_of (st : sproto_type) (tag : Z) : option field := List.find (λ f, f_tag f =? tag) (t_f st).

Lemma findtag_linear n st tag : type_ok n st → findtag st tag = field_of st tag.
Proof.
  intros Hok. pose proof (findtag_spec n st tag Hok) as H. unfold field_of. destruct (List.find _ _) as [f|] eqn:E.
  - apply List.find_some in E as [Hf Ht]. apply list_elem_of_In, list_elem_of_lookup in Hf as [i Hi].
    eapply findtag_has; [done|]. exists i. split; [done|lia].
  - destruct (findtag st tag) as [g|]; [|done]. destruct H as (i & Hi & Ht).
    pose proof (List.find_none _ _ E g) as Hg. cbn in Hg. rewrite Ht, Z.eqb_refl in Hg. discriminate Hg.
    apply list_elem_of_In. by eapply list_elem_of_lookup_2.
Qed.

Lemma bytes_ok l : forallb (λ b, (0 <=? b) && (b <? 256)) l = true → Forall byte_ok l.
Proof.
  intros H. apply Forall_forall. intros b Hb. rewrite forallb_forall in H. specialize (H b (proj1 (list_elem_of_In _ _) Hb)).
  unfold byte_ok. lia.
Qed.

(** A schema with two types and a protocol, as the parser writes it: A with the fields
    id and s, M with b, an array of A, an array of integers, a double and another M. *)
Definition example_bundle : list Z :=
   [2; 0; 0; 0; 0; 0; 177; 0; 0; 0; 54; 0; 0; 0; 2; 0; 0; 0; 0; 0; 1; 0; 0; 0; 65; 39; 0; 0; 0; 16; 0; 
   0; 0; 4; 0; 0; 0; 2; 0; 1; 0; 2; 0; 2; 0; 0; 0; 105; 100; 15; 0; 0; 0; 4; 0; 0; 0; 6; 0; 1; 0; 4; 
   0; 1; 0; 0; 0; 115; 115; 0; 0; 0; 2; 0; 0; 0; 0; 0; 1; 0; 0; 0; 77; 100; 0; 0; 0; 15; 0; 0; 0; 4; 
   0; 0; 0; 4; 0; 1; 0; 2; 0; 1; 0; 0; 0; 98; 18; 0; 0; 0; 5; 0; 0; 0; 1; 0; 2; 0; 8; 0; 4; 0; 2; 0; 
   0; 0; 97; 115; 17; 0; 0; 0; 5; 0; 0; 0; 2; 0; 1; 0; 10; 0; 4; 0; 1; 0; 0; 0; 110; 15; 0; 0; 0; 4; 
   0; 0; 0; 8; 0; 1; 0; 12; 0; 1; 0; 0; 0; 120; 15; 0; 0; 0; 4; 0; 0; 0; 1; 0; 4; 0; 20; 0; 1; 0; 0; 
   0; 109; 19; 0; 0; 0; 15; 0; 0; 0; 4; 0; 0; 0; 4; 0; 4; 0; 2; 0; 1; 0; 0; 0; 112].

Definition example_schema : sproto :=
  Eval vm_compute in match create_from_bundle example_bundle with Ok sp => sp | _ => Sproto [] [] end.

Lemma example_loads : create_from_bundle example_bundle = Ok example_schema.
Proof. vm_compute. reflexivity. Qed.

(** C32: every schema that can be loaded has the invariants that the
    encoder and the decoder rely on - the tags of a type ascend, its types are known and
    the indices of structs in range, and the table of a message has room for all records -
    and looking up a tag, by its offset or by bisection, finds the field that a linear
    search finds. *)
Theorem sproto_loads_schema (buf : list Z) (sp : sproto) :
  Forall byte_ok buf → create_from_bundle buf = Ok sp →
  schema_ok sp ∧ ∀ st tag, st ∈ s_type sp → findtag st tag = field_of st tag.
Proof.
  intros Hb H. pose proof (create_schema_ok buf sp Hb H) as Hok. split; [done|]. intros st tag Hst.
  eapply findtag_linear. by eapply Forall_forall in Hok.
Qed.

Lemma sproto_loads_schema_witness : create_from_bundle example_bundle = Ok example_schema ∧ schema_ok example_schema.
Proof.
  split; [exact example_loads|]. exact (proj1 (sproto_loads_schema example_bundle example_schema (bytes_ok example_bundle eq_refl) example_loads)).
Defined.
