(* ===== verification/SprotoEncode.v ===== *)
(** * Encoding sproto messages: sproto.c ([sproto_encode]) and lsproto.c ([lencode])

    [sproto_encode] walks over the fields of a type and asks a callback for each value;
    the callback of lsproto.c takes it from a Lua table, and calls [sproto_encode] again
    for a table in it.  The buffer is the room that is left, as a size, and the bytes
    written so far, in two parts: the table of the fields, which may not grow over its
    place before the data, and the data. *)
From S2P Require Import Prelude Bytes Buffer Seri SprotoType.
Local Open Scope Z_scope.

Definition SPROTO_CB_ERROR : Z := -1.
Definition SPROTO_CB_NIL : Z := -2.
Definition SPROTO_CB_NOARRAY : Z := -3.

(** [struct sproto_arg] without [ud] and [value]; [a_kv] is [ktagname] and [vtagname]. *)
Record sproto_arg := SArg {
  a_tagname : list Z; a_tagid : Z; a_type : Z; a_subtype : option Z; a_length : Z; a_index : Z;
  a_mainindex : Z; a_extra : Z; a_kv : option (list Z * list Z) }.

Definition with_length (n : Z) (a : sproto_arg) : sproto_arg :=
  SArg (a_tagname a) (a_tagid a) (a_type a) (a_subtype a) n (a_index a) (a_mainindex a) (a_extra a) (a_kv a).
Definition with_index (i : Z) (a : sproto_arg) : sproto_arg :=
  SArg (a_tagname a) (a_tagid a) (a_type a) (a_subtype a) (a_length a) i (a_mainindex a) (a_extra a) (a_kv a).

(** The arguments of a field of type [type]. *)
Definition field_arg (f : field) (type : Z) (kv : option (list Z * list Z)) : sproto_arg :=
  SArg (f_name f) (f_tag f) type (f_st f) 0 0 (f_key f) (f_extra f) kv.

Definition is_array (f : field) : bool := negb (Z.land (f_type f) SPROTO_TARRAY =? 0).
Definition elem_type (f : field) : Z := Z.land (f_type f) (Z.lnot SPROTO_TARRAY).

(** The names of the two fields of a struct that stands for an entry of a map. *)
Definition map_names (sp : sproto) (f : field) : res (option (list Z * list Z)) :=
  if 0 <? f_map f then
    i ← of_option (f_st f);
    st ← of_option (aget (s_type sp) i);
    k ← of_option (aget (t_f st) 0);
    v ← of_option (aget (t_f st) 1);
    Ok (Some (f_name k, f_name v))
  else Ok None.

(** ** sproto_encode *)

Section encode.
Context {U : Type} (sp : sproto).
(** What the callback returns, and the bytes that it writes to [args->value]. *)
Context (cb : sproto_arg → U → res (Z * list Z * U)).

Definition fill_size (sz : Z) : list Z := le_bytes 4 sz.

(** [size] is compared with a [size_t]. *)
Definition encode_integer (v size : Z) : option (list Z) :=
  if wrap 64 size <? SIZEOF_LENGTH + 4 then None else Some (fill_size 4 ++ le_bytes 4 v).
Definition encode_uint64 (v size : Z) : option (list Z) :=
  if wrap 64 size <? SIZEOF_LENGTH + 8 then None else Some (fill_size 8 ++ le_bytes 8 v).

(** The functions below return -1, or NULL, as [None]. *)
Definition encode_object (args : sproto_arg) (size : Z) (ud : U) : res (option (list Z * U)) :=
  if size <? SIZEOF_LENGTH then Ok None
  else
    '(sz, bs, ud) ← cb (with_length (size - SIZEOF_LENGTH) args) ud;
    if sz <? 0 then if sz =? SPROTO_CB_NIL then Ok (Some ([], ud)) else Ok None
    else if size - SIZEOF_LENGTH <? sz then Abort
    else Ok (Some (fill_size sz ++ bs, ud)).

Definition uint32_to_uint64 (negative : bool) : list Z := replicate 4 (if negative then 255 else 0).

(** The loop of [encode_integer_array] that spreads the first [k] integers, from the
    last to the first. *)
Fixpoint rearrange (k : nat) (buf : list Z) : res (list Z) :=
  match k with
  | O => Ok buf
  | S i =>
      let i' := Z.of_nat i in
      bs ← load buf (i' * SIZEOF_INT32) SIZEOF_INT32;
      buf ← of_option (write_at buf (i' * SIZEOF_INT64) bs);
      b ← of_option (aget buf (i' * SIZEOF_INT64 + 3));
      buf ← of_option (write_at buf (i' * SIZEOF_INT64 + 4) (uint32_to_uint64 (negb (Z.land b 128 =? 0))));
      rearrange i buf
  end.

(** A round of [encode_integer_array] with an integer of [sz] bytes [bs]; [buf] holds
    the [index - 1] integers so far.  [None]: there is no room. *)
Definition put_integer (sz : Z) (bs : list Z) (size index intlen : Z) (buf : list Z)
    : res (option (Z * Z * list Z)) :=
  if size <? SIZEOF_INT64 then Ok None
  else if sz =? SIZEOF_INT32 then
    let v := le_val (take 4 bs) in
    let out := le_bytes 4 v ++ (if intlen =? SIZEOF_INT64 then uint32_to_uint64 (negb (Z.land v 0x80000000 =? 0)) else []) in
    Ok (Some (size - intlen, intlen, buf ++ out))
  else if negb (sz =? SIZEOF_INT64) then Ok None
  else
    r ← (if intlen =? SIZEOF_INT32 then
           let size := size - (index - 1) * SIZEOF_INT32 in
           if size <? SIZEOF_INT64 then Ok None
           else
             buf ← rearrange (Z.to_nat (index - 1)) (buf ++ replicate (Z.to_nat ((index - 1) * SIZEOF_INT32)) 0);
             Ok (Some (size, buf))
         else Ok (Some (size, buf)));
    match r with
    | None => Ok None
    | Some (size, buf) => Ok (Some (size - SIZEOF_INT64, SIZEOF_INT64, buf ++ le_bytes 8 (le_val bs)))
    end.

(** [Some None] is [noarray]. *)
Fixpoint integer_loop (fuel : nat) (args : sproto_arg) (size index intlen : Z) (buf : list Z) (ud : U)
    : res (option (option (list Z) * U)) :=
  match fuel with
  | O => Abort
  | S fuel =>
      '(sz, bs, ud) ← cb (with_index index (with_length 8 args)) ud;
      if sz <=? 0 then
        if sz =? SPROTO_CB_NIL then
          Ok (Some (Some (if bool_decide (buf = []) then [] else intlen :: buf), ud))
        else if sz =? SPROTO_CB_NOARRAY then Ok (Some (None, ud))
        else Ok None
      else
        r ← put_integer sz bs size index intlen buf;
        match r with
        | None => Ok None
        | Some (size, intlen, buf) => integer_loop fuel args size (index + 1) intlen buf ud
        end
  end.

Definition encode_integer_array (args : sproto_arg) (size : Z) (ud : U) : res (option (option (list Z) * U)) :=
  if size <? 1 then Ok None
  else integer_loop (S (Z.to_nat size)) args (size - 1) 1 SIZEOF_INT32 [] ud.

Fixpoint object_loop (fuel : nat) (args : sproto_arg) (size index : Z) (buf : list Z) (ud : U)
    : res (option (option (list Z) * U)) :=
  match fuel with
  | O => Abort
  | S fuel =>
      if size <? SIZEOF_LENGTH then Ok None
      else
        let size := size - SIZEOF_LENGTH in
        '(sz, bs, ud) ← cb (with_index index (with_length size args)) ud;
        if sz <? 0 then
          if sz =? SPROTO_CB_NIL then Ok (Some (Some buf, ud))
          else if sz =? SPROTO_CB_NOARRAY then Ok (Some (None, ud))
          else Ok None
        else object_loop fuel args (size - sz) (index + 1) (buf ++ fill_size sz ++ bs) ud
  end.

Definition encode_array_object (args : sproto_arg) (size : Z) (ud : U) : res (option (option (list Z) * U)) :=
  object_loop (S (Z.to_nat size)) args size 1 [] ud.

(** The loop of [encode_array] over booleans. *)
Fixpoint boolean_loop (fuel : nat) (args : sproto_arg) (size index : Z) (buf : list Z) (ud : U)
    : res (option (option (list Z) * U)) :=
  match fuel with
  | O => Abort
  | S fuel =>
      '(sz, bs, ud) ← cb (with_index index (with_length 4 args)) ud;
      if sz <? 0 then
        if sz =? SPROTO_CB_NIL then Ok (Some (Some buf, ud))
        else if sz =? SPROTO_CB_NOARRAY then Ok (Some (None, ud))
        else Ok None
      else if size <? 1 then Ok None
      else boolean_loop fuel args (size - 1) (index + 1) (buf ++ [if le_val bs =? 0 then 0 else 1]) ud
  end.

Definition encode_array (args : sproto_arg) (size : Z) (ud : U) : res (option (list Z * U)) :=
  if size <? SIZEOF_LENGTH then Ok None
  else
    let size := size - SIZEOF_LENGTH in
    r ← (if (a_type args =? SPROTO_TDOUBLE) || (a_type args =? SPROTO_TINTEGER) then encode_integer_array args size ud
         else if a_type args =? SPROTO_TBOOLEAN then boolean_loop (S (S (Z.to_nat size))) args size 1 [] ud
         else encode_array_object args size ud);
    Ok (match r with
        | None => None
        | Some (None, ud) => Some ([], ud)
        | Some (Some buf, ud) => Some (fill_size (Z.of_nat (length buf)) ++ buf, ud)
        end).

(** A number: the value for the table of the fields, when it is small, or data. *)
Inductive encoded := EValue (v : Z) | EData (bs : list Z) | ENone | EReturn.

Definition encode_scalar (args : sproto_arg) (size : Z) (ud : U) : res (option (encoded * U)) :=
  '(sz, bs, ud) ← cb (with_length 8 args) ud;
  if sz <? 0 then
    if sz =? SPROTO_CB_NIL then Ok (Some (ENone, ud))
    else if sz =? SPROTO_CB_NOARRAY then Ok (Some (EReturn, ud))
    else Ok None
  else if sz =? SIZEOF_INT32 then
    let u32 := le_val (take 4 bs) in
    if u32 <? 0x7fff then Ok (Some (EValue ((u32 + 1) * 2), ud))
    else Ok (bs ← encode_integer u32 size; Some (EData bs, ud))
  else if sz =? SIZEOF_INT64 then Ok (bs ← encode_uint64 (le_val bs) size; Some (EData bs, ud))
  else Ok None.

(** The body of the loop of [sproto_encode] up to the test of [sz]. *)
Definition encode_field (f : field) (size : Z) (ud : U) : res (option (encoded * U)) :=
  if is_array f then
    kv ← map_names sp f;
    r ← encode_array (field_arg f (elem_type f) kv) size ud;
    Ok ('(bs, ud) ← r; Some (EData bs, ud))
  else
    let args := field_arg f (f_type f) None in
    if (f_type f =? SPROTO_TDOUBLE) || (f_type f =? SPROTO_TINTEGER) || (f_type f =? SPROTO_TBOOLEAN)
    then encode_scalar args size ud
    else if (f_type f =? SPROTO_TSTRUCT) || (f_type f =? SPROTO_TSTRING) then
      r ← encode_object args size ud;
      Ok ('(bs, ud) ← r; Some (EData bs, ud))
    else Ok None.

(** The variables of [sproto_encode]; [es_records] is the table of the fields. *)
Record enc_state := EncState {
  es_index : Z; es_lasttag : Z; es_records : list Z; es_data : list Z; es_size : Z }.

(** [maxn] records have a place before the data. *)
Definition put_record (maxn record : Z) (es : enc_state) : res enc_state :=
  if maxn <=? es_index es then Abort
  else Ok (EncState (es_index es + 1) (es_lasttag es) (es_records es ++ le_bytes 2 record) (es_data es) (es_size es)).

Definition set_lasttag (tag : Z) (es : enc_state) : enc_state :=
  EncState (es_index es) tag (es_records es) (es_data es) (es_size es).

Definition put_data (bs : list Z) (es : enc_state) : enc_state :=
  EncState (es_index es) (es_lasttag es) (es_records es) (es_data es ++ bs) (es_size es - Z.of_nat (length bs)).

(** A field that is present, with [value] in the table. *)
Definition put_field (maxn tag value : Z) (es : enc_state) : res (option enc_state) :=
  let gap := tag - es_lasttag es - 1 in
  r ← (if 0 <? gap then
         let skip := (gap - 1) * 2 + 1 in
         if 0xffff <? skip then Ok None
         else es ← put_record maxn skip es; Ok (Some es)
       else Ok (Some es));
  match r with
  | None => Ok None
  | Some es => es ← put_record maxn value es; Ok (Some (set_lasttag tag es))
  end.

(** From the test of [sz] on: nothing for an absent field. *)
Definition add_field (maxn tag : Z) (e : encoded) (es : enc_state) : res (option enc_state) :=
  match e with
  | EReturn | ENone | EData [] => Ok (Some es)
  | EValue v => put_field maxn tag v es
  | EData bs => put_field maxn tag 0 (put_data bs es)
  end.

(** The loop of [sproto_encode]: [inr] when it returns 0. *)
Fixpoint encode_loop (maxn : Z) (fields : list field) (es : enc_state) (ud : U) : res (option ((enc_state + unit) * U)) :=
  match fields with
  | [] => Ok (Some (inl es, ud))
  | f :: fields =>
      r ← encode_field f (es_size es) ud;
      match r with
      | None => Ok None
      | Some (EReturn, ud) => Ok (Some (inr tt, ud))
      | Some (e, ud) =>
          r ← add_field maxn (f_tag f) e es;
          match r with None => Ok None | Some es => encode_loop maxn fields es ud end
      end
  end.

(** The bytes of the message and the last state of the callback, or [None] for -1. *)
Definition sproto_encode_ud (st : sproto_type) (size : Z) (ud : U) : res (option (list Z * U)) :=
  let header_sz := SIZEOF_HEADER + t_maxn st * SIZEOF_FIELD in
  if size <? header_sz then Ok None
  else
    r ← encode_loop (t_maxn st) (t_f st) (EncState 0 (-1) [] [] (size - header_sz)) ud;
    Ok (match r with
        | None => None
        | Some (inr _, ud) => Some ([], ud)
        | Some (inl es, ud) => Some (le_bytes 2 (es_index es) ++ es_records es ++ es_data es, ud)
        end).

Definition sproto_encode (st : sproto_type) (size : Z) (ud : U) : res (option (list Z)) :=
  r ← sproto_encode_ud st size ud; Ok (option_map fst r).
End encode.

(** ** The callback of lsproto.c *)

(** What the Lua VM does for it: indexing something that is not a plain table,
    [lua_tointegerx], [lua_tonumber] (as 64 bits), the conversions of decimals, float
    keys of tables. *)
Record lua_api := LuaApi {
  l_index : lval → lval → res lval;
  l_tointeger : lval → option Z;
  l_tonumber : lval → Z;
  l_todecimal : lval → Z → Z;
  l_fromdecimal : Z → Z → Z;
  l_float_key : Z → option Z;
  l_is_nan : Z → bool;
}.

Fixpoint tab_get (pairs : list (lval * lval)) (k : lval) : lval :=
  match pairs with
  | [] => VNil
  | (k', v) :: pairs => if raw_eq k' k then v else tab_get pairs k
  end.

Section lua.
Context (L : lua_api) (sp : sproto).

Definition lua_index (o k : lval) : res lval :=
  match o with VTab pairs => Ok (tab_get pairs k) | _ => l_index L o k end.

(** [struct encode_ud]: the array that is being encoded, and the entries of it that
    are still to come.  An array is known by its tag here, by the address of its name
    there. *)
Record encode_ud := EncodeUd { eu_array_tag : option Z; eu_array : lval; eu_iter : list (lval * lval); eu_end : iter_end }.

Definition ud_init : encode_ud := EncodeUd None VNil [] IterDone.

(** A new array: [None] when there is none. *)
Definition open_array (tbl : lval) (args : sproto_arg) (ud : encode_ud) : res (option encode_ud) :=
  if bool_decide (eu_array_tag ud = Some (a_tagid args)) then Ok (Some ud)
  else
    v ← lua_index tbl (VStr (a_tagname args));
    match v with
    | VNil => Ok None
    | VMeta pairs e => Ok (Some (EncodeUd (Some (a_tagid args)) v pairs e))
    | VTab pairs => Ok (Some (EncodeUd (Some (a_tagid args)) v pairs IterDone))
    | _ => Err EType
    end.

(** [next_list] and the entry of a map. *)
Definition next_entry (args : sproto_arg) (ud : encode_ud) : res (Z * lval * encode_ud) :=
  match eu_iter ud with
  | [] => match eu_end ud with IterDone => Ok (SPROTO_CB_NIL, VNil, ud) | IterError => Err EMeta end
  | (k, v) :: rest =>
      let ud := EncodeUd (eu_array_tag ud) (eu_array ud) rest (eu_end ud) in
      match a_kv args with
      | Some (kname, vname) => Ok (0, VTab (tab_set (tab_set [] (VStr vname) v) (VStr kname) k), ud)
      | None => Ok (0, v, ud)
      end
  end.

Definition get_encodefield (tbl : lval) (args : sproto_arg) (ud : encode_ud) : res (Z * lval * encode_ud) :=
  if 0 <? a_index args then
    r ← open_array tbl args ud;
    match r with
    | None => Ok (SPROTO_CB_NOARRAY, VNil, EncodeUd (Some (a_tagid args)) VNil [] IterDone)
    | Some ud =>
        if 0 <=? a_mainindex args then next_entry args ud
        else v ← lua_index (eu_array ud) (VInt (a_index args)); Ok (0, v, ud)
    end
  else v ← lua_index tbl (VStr (a_tagname args)); Ok (0, v, ud).

(** [sub] is the call of [sproto_encode] for a struct. *)
Definition encode_one (sub : sproto_type → Z → lval → res (option (list Z))) (args : sproto_arg) (v : lval)
    : res (Z * list Z) :=
  if a_type args =? SPROTO_TINTEGER then
    z ← (if negb (a_extra args =? 0) then Ok (l_todecimal L v (a_extra args))
         else match l_tointeger L v with Some z => Ok z | None => Err EType end);
    let vh := Z.shiftr z 31 in
    if (vh =? 0) || (vh =? -1) then Ok (4, le_bytes 4 z) else Ok (8, le_bytes 8 z)
  else if a_type args =? SPROTO_TDOUBLE then Ok (8, le_bytes 8 (l_tonumber L v))
  else if a_type args =? SPROTO_TBOOLEAN then
    match v with VBool b => Ok (4, le_bytes 4 (if b then 1 else 0)) | _ => Err EType end
  else if a_type args =? SPROTO_TSTRING then
    match v with
    | VStr s => if a_length args <? Z.of_nat (length s) then Ok (SPROTO_CB_ERROR, []) else Ok (Z.of_nat (length s), s)
    | _ => Err EType
    end
  else if a_type args =? SPROTO_TSTRUCT then
    i ← of_option (a_subtype args);
    st ← of_option (aget (s_type sp) i);
    r ← sub st (a_length args) v;
    match r with None => Ok (SPROTO_CB_ERROR, []) | Some bs => Ok (Z.of_nat (length bs), bs) end
  else Err EType.

Definition ENCODE_DEEPLEVEL : nat := 64.

(** [encode] at depth [ENCODE_DEEPLEVEL - room], for the table [tbl]. *)
Fixpoint encode (room : nat) (tbl : lval) (args : sproto_arg) (ud : encode_ud) : res (Z * list Z * encode_ud) :=
  match room with
  | O => Err EDepth
  | S room =>
      '(code, v, ud) ← get_encodefield tbl args ud;
      if code <? 0 then Ok (code, [], ud)
      else if is_nil v then Ok (SPROTO_CB_NIL, [], ud)
      else
        '(sz, bs) ← encode_one (λ st size tbl, sproto_encode sp (encode room tbl) st size ud_init) args v;
        Ok (sz, bs, ud)
  end.

Definition ENCODE_BUFFERSIZE : Z := 2050.
Definition ENCODE_MAXSIZE : Z := 0x1000000.

(** The [do] loop of [expand_buffer]. *)
Fixpoint expand_size (fuel : nat) (osz nsz : Z) : Z :=
  match fuel with
  | O => osz
  | S fuel => let osz := osz * 2 in if osz <? nsz then expand_size fuel osz nsz else osz
  end.

Definition expand_buffer (osz nsz : Z) : res Z :=
  let osz := expand_size 32 osz nsz in
  if ENCODE_MAXSIZE <? osz then Err ETooBig else Ok osz.

(** The loop of [lencode]: the message and the size of the buffer that is kept. *)
Fixpoint lencode_loop (fuel : nat) (st : sproto_type) (tbl : lval) (sz : Z) : res (list Z * Z) :=
  match fuel with
  | O => Abort
  | S fuel =>
      r ← sproto_encode sp (encode ENCODE_DEEPLEVEL tbl) st sz ud_init;
      match r with
      | Some bs => Ok (bs, sz)
      | None => _ ← expand_buffer sz (sz * 2); lencode_loop fuel st tbl (sz * 2)
      end
  end.

(** [st] is [None] for the response of a protocol without one. *)
Definition lencode (st : option sproto_type) (tbl : lval) (sz : Z) : res (list Z * Z) :=
  match st with
  | None => if is_nil tbl then Ok ([], sz) else Err EType
  | Some st => lencode_loop 32 st tbl sz
  end.
End lua.
