(* ===== verification/SprotoDecode.v ===== *)
(** * Decoding sproto messages: sproto.c ([sproto_decode]) and lsproto.c ([ldecode])

    The message is the bytes [buf]; pointers into it are offsets, and a read outside of
    it is [Abort].  The callback of lsproto.c fills a Lua table. *)
From S2P Require Import Prelude Bytes Seri SprotoType SprotoEncode.
Local Open Scope Z_scope.

(** [args->value] when a message is decoded: an integer of 64 bits, or memory. *)
Inductive dvalue := DNum (u64 : Z) | DMem (p : Z).

(** ** sproto_decode *)

Section decode.
Context {U : Type} (sp : sproto) (buf : list Z).
Context (cb : sproto_arg → dvalue → U → res (Z * U)).

Definition expand64 (v : Z) : Z :=
  if negb (Z.land v 0x80000000 =? 0) then Z.lor v (Z.shiftl 0xffffffff 32) else v.

(** The functions below return -1 as [None]. *)

(** [hsz] is [uint32_t], and compared with [sz] as such. *)
Fixpoint decode_object_loop (fuel : nat) (args : sproto_arg) (p sz index : Z) (ud : U) : res (option U) :=
  match fuel with
  | O => Abort
  | S fuel =>
      if sz <=? 0 then Ok (Some ud)
      else if sz <? SIZEOF_LENGTH then Ok None
      else
        hsz ← todword buf p;
        let p := p + SIZEOF_LENGTH in
        let sz := sz - SIZEOF_LENGTH in
        if wrap 32 sz <? hsz then Ok None
        else
          '(r, ud) ← cb (with_index index (with_length (swrap 32 hsz) args)) (DMem p) ud;
          if negb (r =? 0) then Ok None
          else decode_object_loop fuel args (p + hsz) (sz - hsz) (index + 1) ud
  end.

Definition decode_array_object (args : sproto_arg) (p sz : Z) (ud : U) : res (option U) :=
  decode_object_loop (S (length buf)) args p sz 1 ud.

Definition decode_empty_array (args : sproto_arg) (ud : U) : res (option U) :=
  '(r, ud) ← cb (with_index (-1) (with_length 0 args)) (DNum 0) ud;
  Ok (if negb (r =? 0) then None else Some ud).

(** [k] numbers, read one by one; what the callback returns is not looked at. *)
Fixpoint decode_numbers (k : nat) (read : Z → res Z) (args : sproto_arg) (i : Z) (ud : U) : res U :=
  match k with
  | O => Ok ud
  | S k =>
      value ← read i;
      '(_, ud) ← cb (with_index (i + 1) (with_length 8 args)) (DNum value) ud;
      decode_numbers k read args (i + 1) ud
  end.

Definition read_int32 (p i : Z) : res Z := v ← todword buf (p + i * SIZEOF_INT32); Ok (expand64 v).
Definition read_int64 (p i : Z) : res Z :=
  low ← todword buf (p + i * SIZEOF_INT64);
  hi ← todword buf (p + i * SIZEOF_INT64 + SIZEOF_INT32);
  Ok (Z.lor low (Z.shiftl hi 32)).
Definition read_byte (p i : Z) : res Z := bs ← load buf (p + i) 1; Ok (le_val bs).

(** [sz] is [uint32_t]. *)
Definition decode_array (args : sproto_arg) (p : Z) (ud : U) : res (option U) :=
  sz ← todword buf p;
  if sz =? 0 then decode_empty_array args ud
  else
    let p := p + SIZEOF_LENGTH in
    if (a_type args =? SPROTO_TDOUBLE) || (a_type args =? SPROTO_TINTEGER) then
      let sz := sz - 1 in
      if sz =? 0 then decode_empty_array args ud
      else
        len ← read_byte p 0;
        let p := p + 1 in
        if len =? SIZEOF_INT32 then
          if negb (sz mod SIZEOF_INT32 =? 0) then Ok None
          else ud ← decode_numbers (Z.to_nat (sz / SIZEOF_INT32)) (read_int32 p) args 0 ud; Ok (Some ud)
        else if len =? SIZEOF_INT64 then
          if negb (sz mod SIZEOF_INT64 =? 0) then Ok None
          else ud ← decode_numbers (Z.to_nat (sz / SIZEOF_INT64)) (read_int64 p) args 0 ud; Ok (Some ud)
        else Ok None
    else if a_type args =? SPROTO_TBOOLEAN then
      ud ← decode_numbers (Z.to_nat sz) (read_byte p) args 0 ud; Ok (Some ud)
    else if (a_type args =? SPROTO_TSTRING) || (a_type args =? SPROTO_TSTRUCT) then
      decode_array_object args p (swrap 32 sz) ud
    else Ok None.

Definition call (args : sproto_arg) (n : Z) (v : dvalue) (ud : U) : res (Z * U) := cb (with_length n args) v ud.

(** A field whose data is at [p]. *)
Definition decode_data (f : field) (p : Z) (ud : U) : res (option U) :=
  if is_array f then
    kv ← map_names sp f;
    decode_array (field_arg f (elem_type f) kv) p ud
  else
    let args := field_arg f (f_type f) None in
    if (f_type f =? SPROTO_TDOUBLE) || (f_type f =? SPROTO_TINTEGER) then
      sz ← todword buf p;
      if sz =? SIZEOF_INT32 then
        v ← todword buf (p + SIZEOF_LENGTH);
        '(_, ud) ← call args 8 (DNum (expand64 v)) ud; Ok (Some ud)
      else if negb (sz =? SIZEOF_INT64) then Ok None
      else
        v ← read_int64 (p + SIZEOF_LENGTH) 0;
        '(_, ud) ← call args 8 (DNum v) ud; Ok (Some ud)
    else if (f_type f =? SPROTO_TSTRING) || (f_type f =? SPROTO_TSTRUCT) then
      sz ← todword buf p;
      '(r, ud) ← call args (swrap 32 sz) (DMem (p + SIZEOF_LENGTH)) ud;
      Ok (if negb (r =? 0) then None else Some ud)
    else Ok None.

(** A field whose value is in the table. *)
Definition decode_value (f : field) (value : Z) (ud : U) : res (option U) :=
  if negb (f_type f =? SPROTO_TINTEGER) && negb (f_type f =? SPROTO_TBOOLEAN) then Ok None
  else '(_, ud) ← call (field_arg f (f_type f) None) 8 (DNum value) ud; Ok (Some ud).

(** The size of the data at [datastream] with its length, added and compared as
    [uint32_t]. *)
Definition data_size (datastream size : Z) : res (option Z) :=
  if size <? SIZEOF_LENGTH then Ok None
  else
    sz ← todword buf datastream;
    let step := wrap 32 (sz + SIZEOF_LENGTH) in
    Ok (if wrap 32 size <? step then None else Some step).

(** The loop of [sproto_decode] over the [k] records from [stream] on: the size that is
    left. *)
Fixpoint decode_loop (k : nat) (st : sproto_type) (stream datastream size tag : Z) (ud : U) : res (option (Z * U)) :=
  match k with
  | O => Ok (Some (size, ud))
  | S k =>
      value ← toword buf stream;
      let stream := stream + SIZEOF_FIELD in
      let tag := tag + 1 in
      if Z.land value 1 =? 1 then decode_loop k st stream datastream size (tag + value / 2) ud
      else
        let value := value / 2 - 1 in
        step ← (if value <? 0 then data_size datastream size else Ok (Some 0));
        match step with
        | None => Ok None
        | Some step =>
            r ← match findtag st tag with
                | None => Ok (Some ud)
                | Some f => if value <? 0 then decode_data f datastream ud else decode_value f value ud
                end;
            match r with
            | None => Ok None
            | Some ud => decode_loop k st stream (datastream + step) (size - step) tag ud
            end
        end
  end.

(** The message of [size] bytes at [p]: how many of them were used, or [None] for -1. *)
Definition sproto_decode (st : sproto_type) (p size : Z) (ud : U) : res (option (Z * U)) :=
  if size <? SIZEOF_HEADER then Ok None
  else
    fn ← toword buf p;
    let stream := p + SIZEOF_HEADER in
    let left := size - SIZEOF_HEADER in
    if left <? fn * SIZEOF_FIELD then Ok None
    else
      r ← decode_loop (Z.to_nat fn) st stream (stream + fn * SIZEOF_FIELD) (left - fn * SIZEOF_FIELD) (-1) ud;
      Ok ('(left, ud) ← r; Some (size - left, ud)).
End decode.

(** ** The callback of lsproto.c *)

Section lua.
Context (L : lua_api) (sp : sproto) (buf : list Z).

(** [struct decode_ud].  The array that is being filled is the one in the result under
    the name of its field; [du_map_entry] is the table in which all entries of maps are
    decoded, once there is one; [du_key] is the value of the main index. *)
Record decode_ud := DecodeUd {
  du_array_tag : option Z; du_result : list (lval * lval); du_key : lval; du_map_entry : list (lval * lval) }.

Definition set_result (r : list (lval * lval)) (ud : decode_ud) : decode_ud :=
  DecodeUd (du_array_tag ud) r (du_key ud) (du_map_entry ud).
Definition set_array_tag (t : Z) (ud : decode_ud) : decode_ud :=
  DecodeUd (Some t) (du_result ud) (du_key ud) (du_map_entry ud).
Definition set_key (k : lval) (ud : decode_ud) : decode_ud :=
  DecodeUd (du_array_tag ud) (du_result ud) k (du_map_entry ud).
Definition set_map_entry (m : list (lval * lval)) (ud : decode_ud) : decode_ud :=
  DecodeUd (du_array_tag ud) (du_result ud) (du_key ud) m.

Definition array_pairs (args : sproto_arg) (ud : decode_ud) : list (lval * lval) :=
  match tab_get (du_result ud) (VStr (a_tagname args)) with VTab ps => ps | _ => [] end.

Definition set_array (args : sproto_arg) (ps : list (lval * lval)) (ud : decode_ud) : decode_ud :=
  set_result (tab_set (du_result ud) (VStr (a_tagname args)) (VTab ps)) ud.

(** [lua_settable] on the array. *)
Definition array_insert (args : sproto_arg) (k v : lval) (ud : decode_ud) : res decode_ud :=
  ps ← rawset (l_float_key L) (l_is_nan L) (array_pairs args ud) k v;
  Ok (set_array args ps ud).

(** The end of [decode]: the value goes to the array, or to the result. *)
Definition store (mainindex_tag : Z) (args : sproto_arg) (v : lval) (ud : decode_ud) : res (Z * decode_ud) :=
  if 0 <? a_index args then
    Ok (0, set_array args (tab_set (array_pairs args ud) (VInt (a_index args)) v) ud)
  else
    let ud := if mainindex_tag =? a_tagid args then set_key v ud else ud in
    Ok (0, set_result (tab_set (du_result ud) (VStr (a_tagname args)) v) ud).

(** The values other than structs. *)
Definition decode_plain (args : sproto_arg) (value : dvalue) : res lval :=
  match value with
  | DNum u =>
      if a_type args =? SPROTO_TINTEGER then
        let v := swrap 64 u in
        Ok (if negb (a_extra args =? 0) then VReal (l_fromdecimal L v (a_extra args)) else VInt v)
      else if a_type args =? SPROTO_TDOUBLE then Ok (VReal u)
      else if a_type args =? SPROTO_TBOOLEAN then Ok (VBool (negb (swrap 32 u =? 0)))
      else Err EType
  | DMem p =>
      if a_type args =? SPROTO_TSTRING then
        if a_length args <? 0 then Err ETooBig
        else bs ← load buf p (a_length args); Ok (VStr bs)
      else Err EType
  end.

(** A struct that goes into a table by its main index, [Ok] of the code that is returned. *)
Definition insert_struct (args : sproto_arg) (sub : decode_ud) (ud : decode_ud) : res (Z * decode_ud) :=
  match a_kv args with
  | Some (kname, vname) =>
      let k := tab_get (du_result sub) (VStr kname) in
      let v := tab_get (du_result sub) (VStr vname) in
      if is_nil k || is_nil v then Err EKey
      else ud ← array_insert args k v (set_map_entry (du_result sub) ud); Ok (0, ud)
  | None =>
      if is_nil (du_key sub) then Err EKey
      else ud ← array_insert args (du_key sub) (VTab (du_result sub)) ud; Ok (0, ud)
  end.

(** A new array: [true] when there is nothing more to do. *)
Definition new_array (args : sproto_arg) (ud : decode_ud) : bool * decode_ud :=
  if (a_index args =? 0) || bool_decide (du_array_tag ud = Some (a_tagid args)) then (false, ud)
  else (a_index args <? 0, set_array args [] (set_array_tag (a_tagid args) ud)).

(** [decode] at depth [ENCODE_DEEPLEVEL - room].  The parser of the schemas gives a main
    index to every map and to arrays only; a map without one would store one table
    several times, and a struct that is no array would be set in whatever array was there
    before: both are left out. *)
Fixpoint decode (room : nat) (mainindex_tag : Z) (args : sproto_arg) (value : dvalue) (ud : decode_ud)
    : res (Z * decode_ud) :=
  match room with
  | O => Err EDepth
  | S room =>
      let (finished, ud) := new_array args ud in
      if finished then Ok (0, ud)
      else if negb (a_type args =? SPROTO_TSTRUCT) then
        v ← decode_plain args value; store mainindex_tag args v ud
      else
        match value with
        | DNum _ => Abort
        | DMem p =>
            i ← of_option (a_subtype args);
            st ← of_option (aget (s_type sp) i);
            let keyed := 0 <=? a_mainindex args in
            let result := match a_kv args with Some _ => du_map_entry ud | None => [] end in
            let tag := if keyed then a_mainindex args else -1 in
            r ← sproto_decode sp buf (decode room tag) st p (a_length args) (DecodeUd None result VNil []);
            match r with
            | None => Ok (SPROTO_CB_ERROR, ud)
            | Some (r, sub) =>
                if negb (r =? a_length args) then Ok (r, ud)
                else if keyed then if a_index args =? 0 then Abort else insert_struct args sub ud
                else
                  match a_kv args with
                  | Some _ => Abort
                  | None => store mainindex_tag args (VTab (du_result sub)) ud
                  end
            end
        end
  end.

(** [ldecode] of [sz] bytes into the table [tbl]: the table and the size. *)
Definition ldecode (st : option sproto_type) (sz : Z) (tbl : list (lval * lval)) : res (option (list (lval * lval) * Z)) :=
  match st with
  | None => Ok None
  | Some st =>
      r ← sproto_decode sp buf (decode ENCODE_DEEPLEVEL (-1)) st 0 (swrap 32 sz) (DecodeUd None tbl VNil []);
      match r with
      | None => Err EStream
      | Some (r, ud) => Ok (Some (du_result ud, r))
      end
  end.
End lua.
