(* ===== verification/SprotoSpec.v ===== *)
(** The sproto format: messages as trees, the bytes of a message, and what it means that
    a Lua table holds a message of a type. *)
From S2P Require Import Prelude Bytes Buffer Seri SprotoType SprotoEncode.
Local Open Scope Z_scope.

(** ** Messages *)

(** A struct lists the fields that are present. *)
Inductive mval :=
  | MInt (z : Z)
  | MReal (u64 : Z)
  | MBool (b : bool)
  | MStr (s : list Z)
  | MStruct (st : sproto_type) (l : list (field * mval))
  | MArray (ms : list mval).

(** ** The format *)

Definition int32 (z : Z) : bool := (- 2 ^ 31 <=? z) && (z <? 2 ^ 31).

(** Integers and doubles as numbers of 64 bits, and whether 32 bits are enough. *)
Definition bits (m : mval) : Z := match m with MInt z => z | MReal u => u | _ => 0 end.
Definition short (m : mval) : bool := match m with MInt z => int32 z | _ => false end.
Definition width (ms : list mval) : nat := if forallb short ms then 4 else 8.
Definition ints (w : nat) (ms : list mval) : list Z := concat (map (λ m, le_bytes w (bits m)) ms).

(** A value small enough for the table of the fields. *)
Definition inline (m : mval) : option Z :=
  match m with
  | MInt z => if (0 <=? z) && (z <? 0x7fff) then Some z else None
  | MBool b => Some (if b then 1 else 0)
  | _ => None
  end.

Definition sized (bs : list Z) : list Z := le_bytes 4 (Z.of_nat (length bs)) ++ bs.

(** A field on the wire: its tag, its value or its data. *)
Record wfield := WField { w_tag : Z; w_inline : option Z; w_data : list Z }.

Fixpoint records (last : Z) (es : list wfield) : list Z :=
  match es with
  | [] => []
  | e :: es =>
      (if last + 1 <? w_tag e then [(w_tag e - last - 2) * 2 + 1] else []) ++
      match w_inline e with Some v => (v + 1) * 2 | None => 0 end :: records (w_tag e) es
  end.

Definition payload (e : wfield) : list Z := match w_inline e with Some _ => [] | None => sized (w_data e) end.

Definition words (ws : list Z) : list Z := concat (map (le_bytes 2) ws).

Definition message (es : list wfield) : list Z :=
  le_bytes 2 (Z.of_nat (length (records (-1) es))) ++ words (records (-1) es) ++ concat (map payload es).

(** The data of a value without its length. *)
Fixpoint body (m : mval) : list Z :=
  match m with
  | MInt _ | MReal _ => le_bytes (width [m]) (bits m)
  | MBool b => [if b then 1 else 0]
  | MStr s => s
  | MStruct _ l => message (map (λ '(f, m), WField (f_tag f) (inline m) (body m)) l)
  | MArray ms =>
      match ms with
      | MInt _ :: _ | MReal _ :: _ => Z.of_nat (width ms) :: ints (width ms) ms
      | MBool _ :: _ => concat (map body ms)
      | _ => concat (map (λ m, sized (body m)) ms)
      end
  end.

Definition wire_field (x : field * mval) : wfield := WField (f_tag x.1) (inline x.2) (body x.2).

(** The room in the buffer that is enough to encode a value. *)
Fixpoint need (m : mval) : Z :=
  match m with
  | MInt _ | MReal _ => 8
  | MBool _ => 1
  | MStr s => Z.of_nat (length s)
  | MStruct st l => SIZEOF_HEADER + SIZEOF_FIELD * t_maxn st + foldr Z.add 8 (map (λ '(f, m), 4 + need m) l)
  | MArray ms => 5 + foldr Z.add 0 (map (λ m, 4 + need m) ms)
  end.

(** ** The table of a message *)

Fixpoint keyed (i : Z) (vs : list lval) : list (lval * lval) :=
  match vs with [] => [] | v :: vs => (VInt i, v) :: keyed (i + 1) vs end.

Fixpoint lua_of (m : mval) : lval :=
  match m with
  | MInt z => VInt z
  | MReal u => VReal u
  | MBool b => VBool b
  | MStr s => VStr s
  | MStruct _ l => VTab (map (λ '(f, m), (VStr (f_name f), lua_of m)) l)
  | MArray ms => VTab (keyed 1 (map lua_of ms))
  end.

(** ** Tables that hold messages *)

Section rep.
Context (sp : sproto).

Section fields.
(** Structs of the nesting below. *)
Context (sub : sproto_type → lval → list (field * mval) → Prop).

(** A value, or an element of an array, of the field. *)
Inductive elem_rep (f : field) : lval → mval → Prop :=
  | er_int z : elem_type f = SPROTO_TINTEGER → f_extra f = 0 → - 2 ^ 63 ≤ z < 2 ^ 63 → elem_rep f (VInt z) (MInt z)
  | er_real u : elem_type f = SPROTO_TDOUBLE → 0 ≤ u < 2 ^ 64 → elem_rep f (VReal u) (MReal u)
  | er_bool b : elem_type f = SPROTO_TBOOLEAN → elem_rep f (VBool b) (MBool b)
  | er_str s : elem_type f = SPROTO_TSTRING → Forall byte_ok s → elem_rep f (VStr s) (MStr s)
  | er_struct i st t l : elem_type f = SPROTO_TSTRUCT → f_st f = Some i → aget (s_type sp) i = Some st →
      sub st t l → elem_rep f t (MStruct st l).

(** The elements of an array from index [i] up to the first nil. *)
Inductive list_rep (f : field) (pairs : list (lval * lval)) : Z → list mval → Prop :=
  | lr_nil i : tab_get pairs (VInt i) = VNil → list_rep f pairs i []
  | lr_cons i m ms : elem_rep f (tab_get pairs (VInt i)) m → list_rep f pairs (i + 1) ms → list_rep f pairs i (m :: ms).

(** No main index. *)
Inductive field_rep (f : field) : lval → mval → Prop :=
  | fr_plain v m : is_array f = false → f_key f < 0 → elem_rep f v m → field_rep f v m
  | fr_array pairs ms : is_array f = true → f_key f < 0 → f_map f ≤ 0 → list_rep f pairs 1 ms →
      field_rep f (VTab pairs) (MArray ms).

Inductive fields_rep (pairs : list (lval * lval)) : list field → list (field * mval) → Prop :=
  | fsr_nil : fields_rep pairs [] []
  | fsr_none f fs l : tab_get pairs (VStr (f_name f)) = VNil → fields_rep pairs fs l → fields_rep pairs (f :: fs) l
  | fsr_some f fs m l : field_rep f (tab_get pairs (VStr (f_name f))) m → fields_rep pairs fs l →
      fields_rep pairs (f :: fs) ((f, m) :: l).
End fields.

(** [t] is a table with the fields [l] of the type [st], nested at most [d] deep. *)
Fixpoint rep (d : nat) (st : sproto_type) (t : lval) (l : list (field * mval)) : Prop :=
  match d with
  | O => False
  | S d => st ∈ s_type sp ∧ ∃ pairs, t = VTab pairs ∧ fields_rep (rep d) pairs (t_f st) l
  end.
End rep.

(** Maps are arrays of structs with two fields. *)
Definition maps_ok (sp : sproto) : Prop :=
  Forall (λ st, Forall (λ f, ∃ kv, map_names sp f = Ok kv) (t_f st)) (s_type sp).

(** Maps have a main index, and what has one is an array. *)
Definition keys_ok (sp : sproto) : Prop :=
  Forall (λ st, Forall (λ f, (0 < f_map f → 0 ≤ f_key f) ∧ (0 ≤ f_key f → is_array f = true)) (t_f st)) (s_type sp).

(** No two fields of a type have one name. *)
Definition names_ok (sp : sproto) : Prop := Forall (λ st, NoDup (map f_name (t_f st))) (s_type sp).
