(* ===== verification/SprotoWire.v ===== *)
(** Lemmas on the bytes of the sproto format: integers of 32 and 64 bits, reads and
    writes in the middle of a buffer. *)
From S2P Require Import Prelude Bytes Buffer Seri SprotoType SprotoEncode SprotoSpec.
Local Open Scope Z_scope.

(** ** Integers *)

Lemma le_bytes_app n m z : le_bytes (n + m) z = le_bytes n z ++ le_bytes m (z / 2 ^ (8 * Z.of_nat n)).
Proof.
  revert z. induction n as [|n IH]; intros z; [cbn; by rewrite Z.div_1_r|].
  cbn [Nat.add le_bytes app]. f_equal. rewrite IH. do 2 f_equal.
  rewrite Z.shiftr_div_pow2, Z.div_div by lia. f_equal.
  replace (8 * Z.of_nat (S n)) with (8 + 8 * Z.of_nat n) by lia. by rewrite Z.pow_add_r by lia.
Qed.

Lemma le_bytes_wrap n z : le_bytes n (wrap (8 * Z.of_nat n) z) = le_bytes n z.
Proof.
  rewrite <- le_val_bytes. pose proof (le_bytes_val (le_bytes n z) (le_bytes_ok n z)) as H. by rewrite length_le_bytes in H.
Qed.

Lemma int32_spec z : int32 z = true ↔ - 2 ^ 31 ≤ z < 2 ^ 31.
Proof. unfold int32. lia. Qed.

Lemma int32_shift z : (Z.shiftr z 31 =? 0) || (Z.shiftr z 31 =? -1) = int32 z.
Proof.
  rewrite Z.shiftr_div_pow2 by lia. unfold int32. pose proof (Z.div_mod z (2 ^ 31)). pose proof (Z.mod_pos_bound z (2 ^ 31)). lia.
Qed.

(** Sign extension. *)
Lemma le_bytes_int32 z : int32 z = true → le_bytes 8 z = le_bytes 4 z ++ uint32_to_uint64 (z <? 0).
Proof.
  intros H%int32_spec. rewrite (le_bytes_app 4 4). f_equal. change (8 * Z.of_nat 4) with 32.
  destruct (Z.ltb_spec z 0).
  - assert (z / 2 ^ 32 = -1) as -> by (symmetry; apply (Z.div_unique _ _ _ (z + 2 ^ 32)); lia). done.
  - rewrite Z.div_small by lia. done.
Qed.

Lemma sign_bit z k : 0 ≤ k → - 2 ^ k ≤ z < 2 ^ k → Z.testbit z k = (z <? 0).
Proof.
  intros Hk H. destruct (Z.ltb_spec z 0).
  - rewrite Z.testbit_true by lia. assert (z / 2 ^ k = -1) as -> by (symmetry; apply (Z.div_unique _ _ _ (z + 2 ^ k)); lia). done.
  - rewrite Z.testbit_false by lia. by rewrite Z.div_small by lia.
Qed.

Lemma land_bit z k : 0 ≤ k → negb (Z.land z (2 ^ k) =? 0) = Z.testbit z k.
Proof.
  intros Hk. destruct (Z.testbit z k) eqn:E.
  - apply negb_true_iff, Z.eqb_neq. intros H0. apply (f_equal (λ x, Z.testbit x k)) in H0.
    rewrite Z.land_spec, E, Z.pow2_bits_true, Z.bits_0 in H0 by lia. done.
  - apply negb_false_iff, Z.eqb_eq. apply Z.bits_inj'. intros n Hn. rewrite Z.land_spec, Z.pow2_bits_eqb, Z.bits_0 by lia.
    destruct (Z.eqb_spec k n) as [->|]; [by rewrite E|apply andb_false_r].
Qed.

Lemma sign_word z : int32 z = true → negb (Z.land (wrap 32 z) 0x80000000 =? 0) = (z <? 0).
Proof.
  intros H%int32_spec. change 0x80000000 with (2 ^ 31). rewrite land_bit by lia. unfold wrap.
  rewrite Z.mod_pow2_bits_low by lia. apply sign_bit; lia.
Qed.

Lemma sign_byte z : int32 z = true → aget (le_bytes 4 z) 3 = Some (z / 2 ^ 24 mod 256) ∧
  negb (Z.land (z / 2 ^ 24 mod 256) 128 =? 0) = (z <? 0).
Proof.
  intros H%int32_spec. split.
  - unfold aget. cbn. f_equal. unfold wrap. rewrite !Z.shiftr_div_pow2 by lia. f_equal. rewrite !Z.div_div by lia. done.
  - change 128 with (2 ^ 7). rewrite land_bit by lia. change 256 with (2 ^ 8). rewrite Z.mod_pow2_bits_low by lia.
    rewrite Z.div_pow2_bits by lia. apply sign_bit; lia.
Qed.

(** ** Reading and writing in the middle *)

Lemma load_app a b c : load (a ++ b ++ c) (Z.of_nat (length a)) (Z.of_nat (length b)) = Ok b.
Proof.
  unfold load. rewrite !length_app.
  assert ((0 <=? Z.of_nat (length a)) && (0 <=? Z.of_nat (length b)) &&
    (Z.of_nat (length a) + Z.of_nat (length b) <=? Z.of_nat (length a + (length b + length c))) = true) as -> by lia.
  f_equal. rewrite !Nat2Z.id. by rewrite drop_app_length, take_app_length.
Qed.

Lemma write_at_app a b b' c : length b' = length b → write_at (a ++ b ++ c) (Z.of_nat (length a)) b' = Some (a ++ b' ++ c).
Proof.
  intros Hl. unfold write_at. rewrite !length_app.
  assert ((0 <=? Z.of_nat (length a)) && (Z.of_nat (length a) + Z.of_nat (length b') <=?
    Z.of_nat (length a + (length b + length c))) = true) as -> by lia.
  f_equal. rewrite Nat2Z.id, take_app_length. do 2 f_equal. rewrite Hl.
  rewrite app_assoc, <- length_app. by rewrite drop_app_length.
Qed.

Lemma aget_app_mid {A} (a b c : list A) i : 0 ≤ i < Z.of_nat (length b) → aget (a ++ b ++ c) (Z.of_nat (length a) + i) = aget b i.
Proof.
  intros Hi. unfold aget. destruct (Z.leb_spec 0 (Z.of_nat (length a) + i)), (Z.leb_spec 0 i); try lia.
  rewrite lookup_app_r by lia. rewrite lookup_app_l by lia. f_equal. lia.
Qed.

(** ** Arrays of integers *)

Lemma length_ints w ms : length (ints w ms) = (w * length ms)%nat.
Proof. induction ms as [|m ms IH]; cbn; [lia|]. unfold ints in IH. rewrite length_app, length_le_bytes, IH. lia. Qed.

Lemma ints_app w a b : ints w (a ++ b) = ints w a ++ ints w b.
Proof. unfold ints. by rewrite map_app, concat_app. Qed.

Lemma ints_one w m : ints w [m] = le_bytes w (bits m).
Proof. unfold ints. cbn. apply app_nil_r. Qed.

Lemma width_app a b : width (a ++ b) = if forallb short a then width b else 8%nat.
Proof. unfold width. rewrite forallb_app. by destruct (forallb short a). Qed.

Lemma width_cases ms : width ms = 4%nat ∨ width ms = 8%nat.
Proof. unfold width. destruct (forallb short ms); auto. Qed.

Lemma short_bits m : short m = true → int32 (bits m) = true.
Proof. by destruct m. Qed.

(** The part that is still to be spread, junk, the part that has been. *)
Lemma rearrange_spec xs ys j : Forall (λ m, short m = true) xs → length j = length (ints 4 xs) →
  rearrange (length xs) (ints 4 xs ++ j ++ ints 8 ys) = Ok (ints 8 (xs ++ ys)).
Proof.
  revert ys j. induction xs as [|m xs IH] using rev_ind; intros ys j Hs Hj; [by destruct j|].
  apply Forall_app in Hs as [Hs [Hm _]%Forall_cons]. rewrite ints_app, ints_one.
  rewrite length_ints, length_app in Hj. rewrite length_app. cbn [length] in *. rewrite Nat.add_comm. cbn [rearrange Nat.add].
  apply short_bits in Hm. set (z := bits m) in *. unfold SIZEOF_INT32, SIZEOF_INT64.
  set (i := length xs) in *.
  replace (Z.of_nat i * 4) with (Z.of_nat (length (ints 4 xs))) by (rewrite length_ints; lia).
  rewrite <- app_assoc. change 4 with (Z.of_nat (length (le_bytes 4 z))) at 2. rewrite load_app. cbn [mbind res_bind].
  (* the 8 bytes that are written *)
  set (all := ints 4 xs ++ le_bytes 4 z ++ j ++ ints 8 ys).
  assert (∃ j' o1 o2, all = (ints 4 xs ++ j') ++ o1 ++ o2 ++ ints 8 ys ∧ length j' = length (ints 4 xs) ∧ length o1 = 4%nat ∧ length o2 = 4%nat)
    as (j' & o1 & o2 & -> & Hj' & Ho1 & Ho2).
  { set (r := le_bytes 4 z ++ j). assert (length r = (4 * i + 8)%nat) as Hr by (unfold r; rewrite length_app, length_le_bytes; lia).
    exists (take (4 * i) r), (take 4 (drop (4 * i) r)), (drop 4 (drop (4 * i) r)).
    split_and!; [|rewrite length_take, length_ints; lia|rewrite length_take, length_drop; lia|rewrite !length_drop; lia].
    unfold all. rewrite <- app_assoc. f_equal. rewrite (app_assoc (le_bytes 4 z) j). fold r. rewrite !app_assoc. f_equal.
    rewrite <- app_assoc, take_drop, take_drop. done. }
  assert (length (ints 4 xs ++ j') = (8 * i)%nat) as HA by (rewrite length_app, Hj', length_ints; lia).
  replace (Z.of_nat i * 8) with (Z.of_nat (length (ints 4 xs ++ j'))) by lia. rewrite write_at_app by by rewrite Ho1. cbn [of_option mbind res_bind].
  destruct (sign_byte z Hm) as [Hb Hn].
  rewrite aget_app_mid by (rewrite length_le_bytes; lia). rewrite Hb. cbn [of_option mbind res_bind]. rewrite Hn.
  rewrite (app_assoc _ (le_bytes 4 z)).
  replace (Z.of_nat (length (ints 4 xs ++ j')) + 4) with (Z.of_nat (length ((ints 4 xs ++ j') ++ le_bytes 4 z)))
    by (rewrite (length_app _ (le_bytes 4 z)), length_le_bytes; lia).
  rewrite write_at_app by (by rewrite Ho2; destruct (z <? 0)). cbn [of_option mbind res_bind].
  rewrite <- !app_assoc. rewrite (app_assoc (le_bytes 4 z)), <- le_bytes_int32 by done.
  replace (le_bytes 8 z ++ ints 8 ys) with (ints 8 (m :: ys)) by (change (m :: ys) with ([m] ++ ys); by rewrite ints_app, ints_one).
  by rewrite IH.
Qed.
