(* ===== verification/SprotoWrite.v ===== *)
(** The loops of [sproto_encode] write the format of [SprotoSpec]: arrays, for any
    callback that answers with the elements one after the other. *)
From S2P Require Import Prelude Bytes Buffer Seri SprotoType SprotoEncode SprotoSpec SprotoWire.
Local Open Scope Z_scope.

(** The bytes that the callback gives for a value. *)
Definition value_bytes (m : mval) : list Z :=
  match m with MBool b => le_bytes 4 (if b then 1 else 0) | _ => body m end.

(** The room that the callback always has. *)
Definition min_room (m : mval) : Z := match m with MInt _ | MReal _ => 8 | MBool _ => 4 | _ => 0 end.

(** The callback answers with the value, or has no room for it. *)
Definition answer {U} (room : Z) (m : mval) (ud : U) (r : res (Z * list Z * U)) : Prop :=
  Z.of_nat (length (value_bytes m)) ≤ room ∧ r = Ok (Z.of_nat (length (value_bytes m)), value_bytes m, ud) ∨
  room < need m ∧ r = Ok (SPROTO_CB_ERROR, [], ud).

(** A result that [fits] into the room, and is there when there is [enough] room. *)
Definition outcome {A} (r : res (option A)) (x : A) (fits enough : Prop) : Prop :=
  fits ∧ r = Ok (Some x) ∨ ¬ enough ∧ r = Ok None.

Lemma outcome_weaken {A} (r : res (option A)) x (F P F' P' : Prop) :
  outcome r x F P → (F → F') → (P' → P) → outcome r x F' P'.
Proof. intros [[HF ->]|[HP ->]] H H'; [left; auto|right; split; [tauto|done]]. Qed.

Definition is_number (m : mval) : Prop := match m with MInt _ | MReal _ => True | _ => False end.
Definition is_bool (m : mval) : Prop := match m with MBool _ => True | _ => False end.
Definition is_object (m : mval) : Prop := match m with MStr _ | MStruct _ _ => True | _ => False end.

(** The room contains the data. *)
Definition enough_need (m : mval) : Prop := Z.of_nat (length (body m)) ≤ need m.

Lemma need_nonneg_list ms : Forall enough_need ms → 0 ≤ foldr Z.add 0 (map (λ m, 4 + need m) ms).
Proof. induction 1 as [|m ms Hm _ IH]; cbn; [lia|]. unfold enough_need in Hm. lia. Qed.

Section loops.
Context {U : Type} (cb : sproto_arg → U → res (Z * list Z * U)) (args : sproto_arg).
(** The states of the callback in which the array can be read, and the state after the
    first read. *)
Context (ready : U → Prop) (after : U).
Hypothesis after_ready : ready after.

Definition feeds (ms : list mval) : Prop := ∀ ud i n, ready ud →
  match ms !! i with
  | Some m => min_room m ≤ n < 2 ^ 31 → answer n m after (cb (with_index (Z.of_nat i + 1) (with_length n args)) ud)
  | None => i = length ms → cb (with_index (Z.of_nat i + 1) (with_length n args)) ud = Ok (SPROTO_CB_NIL, [], after)
  end.

Lemma feeds_at ms i n ud m : feeds ms → ready ud → ms !! i = Some m → min_room m ≤ n < 2 ^ 31 →
  answer n m after (cb (with_index (Z.of_nat i + 1) (with_length n args)) ud).
Proof. intros Hf Hr Hi. specialize (Hf ud i n Hr). by rewrite Hi in Hf. Qed.

Lemma feeds_end ms n ud : feeds ms → ready ud →
  cb (with_index (Z.of_nat (length ms) + 1) (with_length n args)) ud = Ok (SPROTO_CB_NIL, [], after).
Proof. intros Hf Hr. specialize (Hf ud (length ms) n Hr). rewrite lookup_ge_None_2 in Hf by lia. by apply Hf. Qed.

(** ** Integers *)

Lemma put_integer_spec xs m size : is_number m →
  let buf := ints (width xs) xs in
  let all := xs ++ [m] in
  let left := size + Z.of_nat (length buf) in
  outcome (put_integer (Z.of_nat (length (body m))) (body m) size (Z.of_nat (length xs) + 1) (Z.of_nat (width xs)) buf)
    (left - Z.of_nat (length (ints (width all) all)), Z.of_nat (width all), ints (width all) all)
    (0 ≤ left - Z.of_nat (length (ints (width all) all)) < size)
    (8 * (Z.of_nat (length xs) + 1) ≤ left).
Proof.
  intros Hm buf all left. assert (body m = le_bytes (width [m]) (bits m)) as -> by by destruct m.
  rewrite length_le_bytes. unfold put_integer, SIZEOF_INT64, SIZEOF_INT32.
  assert (Z.of_nat (length buf) ≤ 8 * Z.of_nat (length xs)) as Hlen.
  { unfold buf. rewrite length_ints. destruct (width_cases xs) as [->| ->]; lia. }
  unfold all, left. rewrite width_app, ints_app, ints_one, length_app, length_le_bytes, !length_ints.
  destruct (Z.ltb_spec size 8); [right; split; [lia|done]|].
  destruct (short m) eqn:Es.
  - assert (width [m] = 4%nat) as Hw by (unfold width; cbn; by rewrite Es). rewrite Hw in *. left.
    change (Z.of_nat 4 =? 4) with true. cbn iota.
    rewrite take_ge by by rewrite length_le_bytes. rewrite le_val_bytes. change (8 * Z.of_nat 4) with 32.
    rewrite sign_word by by apply short_bits. rewrite (le_bytes_wrap 4).
    destruct (forallb short xs) eqn:Ex.
    + assert (width xs = 4%nat) as Hx by (unfold width; by rewrite Ex). unfold buf. rewrite Hx in *.
      change (Z.of_nat 4 =? 8) with false. rewrite app_nil_r. split; [rewrite length_ints; lia|]. do 4 f_equal. rewrite ?length_ints. lia.
    + assert (width xs = 8%nat) as Hx by (unfold width; by rewrite Ex). unfold buf. rewrite Hx in *.
      change (Z.of_nat 8 =? 8) with true. cbn iota. split; [rewrite length_ints; lia|]. rewrite <- le_bytes_int32 by by apply short_bits. do 4 f_equal. rewrite ?length_ints. lia.
  - assert (width [m] = 8%nat) as Hw by (unfold width; cbn; by rewrite Es). rewrite Hw in *.
    change (Z.of_nat 8 =? 4) with false. change (negb (Z.of_nat 8 =? 8)) with false. cbn iota.
    rewrite le_val_bytes, le_bytes_wrap. assert ((if forallb short xs then 8 else 8)%nat = 8%nat) as -> by by destruct (forallb _ _).
    destruct (forallb short xs) eqn:Ex.
    + assert (width xs = 4%nat) as Hx by (unfold width; by rewrite Ex). unfold buf. rewrite Hx in *.
      change (Z.of_nat 4 =? 4) with true. cbn iota. replace (Z.of_nat (length xs) + 1 - 1) with (Z.of_nat (length xs)) by lia.
      destruct (Z.ltb_spec (size - Z.of_nat (length xs) * 4) 8); [right; split; [rewrite length_ints; lia|done]|left].
      split; [rewrite length_ints; lia|].
      rewrite Nat2Z.id. pose proof (rearrange_spec xs [] (replicate (Z.to_nat (Z.of_nat (length xs) * 4)) 0)) as HR.
      cbn [ints map concat] in HR. change (ints 8 []) with (@nil Z) in HR. rewrite !app_nil_r in HR. rewrite HR.
      * cbn [mbind res_bind]. do 4 f_equal. rewrite ?length_ints. lia.
      * apply Forall_forall. intros x Hx'. rewrite forallb_forall in Ex. apply Ex. by apply list_elem_of_In.
      * rewrite length_replicate, length_ints. lia.
    + assert (width xs = 8%nat) as Hx by (unfold width; by rewrite Ex). unfold buf. rewrite Hx in *.
      change (Z.of_nat 8 =? 4) with false. cbn [mbind res_bind]. left. split; [rewrite length_ints; lia|]. do 4 f_equal. rewrite ?length_ints. lia.
Qed.

Definition numbers (ms : list mval) : list Z :=
  match ms with [] => [] | _ => Z.of_nat (width ms) :: ints (width ms) ms end.

Lemma integer_loop_spec ms : ∀ xs fuel size ud,
  Forall is_number (xs ++ ms) → feeds (xs ++ ms) → ready ud → 0 ≤ size → (Z.to_nat size < fuel)%nat →
  outcome (integer_loop cb fuel args size (Z.of_nat (length xs) + 1) (Z.of_nat (width xs)) (ints (width xs) xs) ud)
    (Some (numbers (xs ++ ms)), after)
    (Z.of_nat (length (numbers (xs ++ ms))) ≤ 1 + size + Z.of_nat (length (ints (width xs) xs)))
    (8 * Z.of_nat (length (xs ++ ms)) ≤ size + Z.of_nat (length (ints (width xs) xs))).
Proof.
  induction ms as [|m ms IH]; intros xs fuel size ud Hn Hf Hr Hs Hfuel; (destruct fuel as [|fuel]; [lia|]); cbn [integer_loop].
  { rewrite app_nil_r in *. rewrite (feeds_end xs) by done. cbn. left. unfold numbers.
    destruct xs as [|x xs]; [split; [cbn; lia|done]|]. split; [cbn [length]; lia|]. do 4 f_equal. rewrite bool_decide_eq_false_2; [done|]. intros E%(f_equal length).
    rewrite length_ints in E. cbn [length] in E. destruct (width_cases (x :: xs)) as [Hw|Hw]; rewrite Hw in E; lia. }
  assert ((xs ++ m :: ms) !! length xs = Some m) as Hm by (by rewrite list_lookup_middle).
  assert (is_number m) as Hnum by (apply Forall_app in Hn as [_ [? _]%Forall_cons]; done).
  pose proof (feeds_at _ (length xs) 8 ud m Hf Hr Hm ltac:(destruct m; (done || (cbn; lia)))) as Ha.
  assert (value_bytes m = body m) as Ev by by destruct m.
  destruct Ha as [[_ ->]|[Ha _]]; [|destruct m; cbn in *; try done; lia]. cbn [mbind res_bind]. rewrite Ev.
  assert (Z.of_nat (length (body m)) <=? 0 = false) as ->.
  { assert (body m = le_bytes (width [m]) (bits m)) as -> by by destruct m. rewrite length_le_bytes.
    destruct (width_cases [m]) as [->| ->]; done. }
  pose proof (put_integer_spec xs m size Hnum) as Hp. cbv zeta in Hp.
  rewrite cons_middle, app_assoc in Hn, Hf |- *.
  assert (Z.of_nat (length ((xs ++ [m]) ++ ms)) = Z.of_nat (length xs) + 1 + Z.of_nat (length ms)) as El by (rewrite !length_app; cbn; lia).
  destruct Hp as [[Hroom Hp]|[Hp ->]]; [|right; split; [lia|done]].
  rewrite Hp. cbn [mbind res_bind].
  replace (Z.of_nat (length xs) + 1 + 1) with (Z.of_nat (length (xs ++ [m])) + 1) by (rewrite length_app; cbn; lia).
  eapply outcome_weaken; [apply IH; [done..|lia|lia]|lia|lia].
Qed.

Lemma encode_integer_array_spec ms size ud :
  Forall is_number ms → feeds ms → ready ud →
  outcome (encode_integer_array cb args size ud) (Some (numbers ms), after) (Z.of_nat (length (numbers ms)) ≤ size) (1 + 8 * Z.of_nat (length ms) ≤ size).
Proof.
  intros Hn Hf Hr. unfold encode_integer_array. destruct (Z.ltb_spec size 1); [right; split; [lia|done]|].
  eapply outcome_weaken; [apply (integer_loop_spec ms []); [done..|lia|lia]|cbn; lia|cbn; lia].
Qed.

(** ** Booleans and objects *)

Lemma boolean_loop_spec ms : ∀ xs fuel size ud buf,
  Forall is_bool (xs ++ ms) → feeds (xs ++ ms) → ready ud → 0 ≤ size → (Z.to_nat size < fuel)%nat →
  outcome (boolean_loop cb fuel args size (Z.of_nat (length xs) + 1) buf ud)
    (Some (buf ++ concat (map body ms)), after) (Z.of_nat (length ms) ≤ size) (Z.of_nat (length ms) ≤ size).
Proof.
  induction ms as [|m ms IH]; intros xs fuel size ud buf Hn Hf Hr Hs Hfuel; (destruct fuel as [|fuel]; [lia|]); cbn [boolean_loop].
  { rewrite app_nil_r in *. rewrite (feeds_end xs) by done. cbn. left. split; [lia|]. by rewrite ?app_nil_r. }
  assert ((xs ++ m :: ms) !! length xs = Some m) as Hm by (by rewrite list_lookup_middle).
  assert (is_bool m) as Hb by (apply Forall_app in Hn as [_ [? _]%Forall_cons]; done).
  pose proof (feeds_at _ (length xs) 4 ud m Hf Hr Hm ltac:(destruct m; (done || (cbn; lia)))) as Ha.
  destruct m as [| |b| | |]; try done. destruct Ha as [[_ ->]|[Ha _]]; [|cbn in Ha; lia]. cbn [mbind res_bind value_bytes].
  change (Z.of_nat (length (le_bytes 4 (if b then 1 else 0))) <? 0) with false. cbn iota.
  destruct (Z.ltb_spec size 1); [right; split; [cbn; lia|done]|].
  rewrite cons_middle, app_assoc in Hn, Hf.
  replace (Z.of_nat (length xs) + 1 + 1) with (Z.of_nat (length (xs ++ [MBool b])) + 1) by (rewrite length_app; cbn; lia).
  replace (buf ++ concat (map body (MBool b :: ms))) with ((buf ++ [if le_val (le_bytes 4 (if b then 1 else 0)) =? 0 then 0 else 1]) ++ concat (map body ms))
    by (rewrite <- app_assoc; by destruct b).
  eapply outcome_weaken; [apply IH; [done..|lia|lia]|cbn; lia|cbn; lia].
Qed.

Lemma object_loop_spec ms : ∀ xs fuel size ud buf,
  Forall is_object (xs ++ ms) → Forall enough_need ms → feeds (xs ++ ms) → ready ud → 0 ≤ size < 2 ^ 31 → (Z.to_nat size < fuel)%nat →
  outcome (object_loop cb fuel args size (Z.of_nat (length xs) + 1) buf ud)
    (Some (buf ++ concat (map (λ m, sized (body m)) ms)), after)
    (Z.of_nat (length (concat (map (λ m, sized (body m)) ms))) ≤ size) (4 + foldr Z.add 0 (map (λ m, 4 + need m) ms) ≤ size).
Proof.
  induction ms as [|m ms IH]; intros xs fuel size ud buf Hn Hd Hf Hr Hs Hfuel; (destruct fuel as [|fuel]; [lia|]); cbn [object_loop];
    unfold SIZEOF_LENGTH; (destruct (Z.ltb_spec size 4); [right; split; [|done]|]).
  - cbn. lia.
  - rewrite app_nil_r in *. rewrite (feeds_end xs) by done. cbn. left. split; [lia|]. by rewrite ?app_nil_r.
  - cbn. apply Forall_cons in Hd as [Hm Hd]. pose proof (need_nonneg_list ms Hd). unfold enough_need in Hm. lia.
  - assert ((xs ++ m :: ms) !! length xs = Some m) as Hm by (by rewrite list_lookup_middle).
    assert (is_object m) as Ho by (apply Forall_app in Hn as [_ [? _]%Forall_cons]; done).
    pose proof (feeds_at _ (length xs) (size - 4) ud m Hf Hr Hm ltac:(destruct m; cbn in *; (done || lia))) as Ha.
    assert (value_bytes m = body m) as Ev by by destruct m. apply Forall_cons in Hd as [Hd0 Hd]. unfold enough_need in Hd0.
    pose proof (need_nonneg_list ms Hd) as Hnn. unfold answer in Ha. rewrite Ev in Ha.
    destruct Ha as [[Hfit ->]|[Ha ->]]; cbn [mbind res_bind]; [|right; split; [cbn; lia|done]].
    destruct (Z.ltb_spec (Z.of_nat (length (body m))) 0); [lia|].
    rewrite cons_middle, app_assoc in Hn, Hf.
    replace (Z.of_nat (length xs) + 1 + 1) with (Z.of_nat (length (xs ++ [m])) + 1) by (rewrite length_app; cbn; lia).
    change (fill_size (Z.of_nat (length (body m))) ++ body m) with (sized (body m)). cbn [map concat foldr].
    rewrite (app_assoc buf (sized _)), (length_app (sized _)). unfold sized at 4. rewrite (length_app (le_bytes _ _)), length_le_bytes.
    eapply outcome_weaken; [apply IH; [done..|lia|lia]|lia|lia].
Qed.

Lemma encode_array_object_spec ms size ud : 0 ≤ size < 2 ^ 31 → Forall is_object ms → Forall enough_need ms → feeds ms → ready ud →
  outcome (encode_array_object cb args size ud) (Some (concat (map (λ m, sized (body m)) ms)), after)
    (Z.of_nat (length (concat (map (λ m, sized (body m)) ms))) ≤ size) (4 + foldr Z.add 0 (map (λ m, 4 + need m) ms) ≤ size).
Proof. intros. apply (object_loop_spec ms [] _ size ud []); try done. lia. Qed.

(** ** All arrays *)

(** The elements are of the type of the field. *)
Definition elements (type : Z) (ms : list mval) : Prop :=
  Forall (λ m, if (type =? SPROTO_TDOUBLE) || (type =? SPROTO_TINTEGER) then is_number m
               else if type =? SPROTO_TBOOLEAN then is_bool m else is_object m) ms.

Lemma encode_array_spec ms size ud : size < 2 ^ 31 → elements (a_type args) ms → Forall enough_need ms → feeds ms → ready ud →
  outcome (encode_array cb args size ud) (sized (body (MArray ms)), after)
    (Z.of_nat (length (sized (body (MArray ms)))) ≤ size) (4 + need (MArray ms) ≤ size).
Proof.
  intros Hsz He Hd Hf Hr. pose proof (need_nonneg_list ms Hd) as Hnn. unfold encode_array, elements, SIZEOF_LENGTH in *.
  destruct (Z.ltb_spec size 4); [right; split; [cbn; lia|done]|].
  assert (∀ r (F P : Prop), outcome r (Some (body (MArray ms)), after) F P → (F → Z.of_nat (length (body (MArray ms))) ≤ size - 4) →
    (4 + need (MArray ms) ≤ size → P) →
    outcome (r ← r; Ok (match r with
      | None => None | Some (None, ud) => Some ([], ud)
      | Some (Some buf, ud) => Some (fill_size (Z.of_nat (length buf)) ++ buf, ud) end))
    (sized (body (MArray ms)), after) (Z.of_nat (length (sized (body (MArray ms)))) ≤ size) (4 + need (MArray ms) ≤ size)) as Hwrap.
  { intros r F P [[HF ->]|[HP ->]] H1 H2; cbn [mbind res_bind]; [left|right; split; [tauto|done]].
    split; [|done]. unfold sized. rewrite length_app, length_le_bytes. specialize (H1 HF). lia. }
  assert (8 * Z.of_nat (length ms) ≤ foldr Z.add 0 (map (λ m, 4 + need m) ms) ∨ ¬ Forall is_number ms) as Hints.
  { clear. destruct (decide (Forall (λ m, need m = 8) ms)) as [H|H]; [left|right]; [induction H; cbn; lia|].
    intros Hn. apply H. eapply Forall_impl; [done|]. by intros []. }
  destruct ((a_type args =? SPROTO_TDOUBLE) || (a_type args =? SPROTO_TINTEGER)); [|destruct (a_type args =? SPROTO_TBOOLEAN)].
  - assert (body (MArray ms) = numbers ms) as E by (destruct ms as [|m ms]; [done|]; apply Forall_cons in He as [He _]; by destruct m).
    eapply Hwrap; [rewrite E; by apply encode_integer_array_spec|by rewrite E|]. destruct Hints as [Hi|]; [|done]. cbn [need]. lia.
  - assert (body (MArray ms) = concat (map body ms)) as E by (destruct ms as [|m ms]; [done|]; apply Forall_cons in He as [He _]; by destruct m).
    assert (length (concat (map body ms)) = length ms) as El.
    { clear -He. induction He as [|m ms Hm _ IH]; [done|]. destruct m; try done. cbn. by rewrite IH. }
    eapply Hwrap; [rewrite E; apply (boolean_loop_spec ms [] _ (size - 4) ud []); try done; lia|rewrite E; lia|].
    cbn [need]. assert (Z.of_nat (length ms) ≤ foldr Z.add 0 (map (λ m, 4 + need m) ms)); [|lia].
    clear -Hd. induction Hd as [|m ms Hm _ IH]; cbn; [lia|]. unfold enough_need in Hm. lia.
  - assert (body (MArray ms) = concat (map (λ m, sized (body m)) ms)) as E
      by (destruct ms as [|m ms]; [done|]; apply Forall_cons in He as [He _]; by destruct m).
    eapply Hwrap; [rewrite E; apply encode_array_object_spec; try done; lia|by rewrite E|]. cbn [need]. lia.
Qed.
End loops.
