(* ===== verification/SprotoEncodes.v ===== *)
(** [lencode] writes the format of [SprotoSpec]: the callback of lsproto.c reads the
    tables, and the buffer grows until the message fits. *)
From S2P Require Import Prelude Bytes Buffer Seri SprotoType SprotoSchema SprotoEncode SprotoSpec SprotoWire SprotoWrite.
Local Open Scope Z_scope.

(** ** Records in the table of a message *)

Lemma body_struct st l : body (MStruct st l) = message (map wire_field l).
Proof. cbn [body]. f_equal. apply map_ext. by intros []. Qed.

(** The room for the fields: an absent array asks for 8 bytes. *)
Definition need_rest (l : list (field * mval)) : Z := foldr Z.add 8 (map (λ x, 4 + need x.2) l).

Lemma need_struct st l : need (MStruct st l) = SIZEOF_HEADER + SIZEOF_FIELD * t_maxn st + need_rest l.
Proof. cbn [need]. do 2 f_equal. unfold need_rest. f_equal. apply map_ext. by intros []. Qed.

Lemma gaps_nonneg last fs : 0 ≤ gaps last fs.
Proof. revert last. induction fs as [|f fs IH]; intros last; cbn; [lia|]. specialize (IH (f_tag f)). destruct (_ <? _); lia. Qed.

Lemma gaps_skip last f fs : last < f_tag f → gaps last fs ≤ 1 + gaps (f_tag f) fs.
Proof.
  destruct fs as [|g fs]; cbn; [lia|]. intros. destruct (last + 1 <? f_tag g) eqn:?, (f_tag f + 1 <? f_tag g) eqn:?; lia.
Qed.

Lemma gaps_drop last f fs : last < f_tag f → gaps last fs ≤ 1 + gaps last (f :: fs).
Proof. intros H. pose proof (gaps_skip last f fs H). cbn. destruct (_ <? _); lia. Qed.

Lemma ascending_weaken a b fs : a ≤ b → ascending b fs → ascending a fs.
Proof. destruct fs; cbn; [done|]. intros ? []. split; [lia|done]. Qed.

Lemma length_words ws : Z.of_nat (length (words ws)) = 2 * Z.of_nat (length ws).
Proof. induction ws as [|w ws IH]; [done|]. unfold words in *. cbn [map concat length]. rewrite length_app, length_le_bytes. lia. Qed.

Lemma words_app a b : words (a ++ b) = words a ++ words b.
Proof. unfold words. by rewrite map_app, concat_app. Qed.

Lemma words_one w : words [w] = le_bytes 2 w.
Proof. unfold words. apply app_nil_r. Qed.

Lemma length_sized bs : length (sized bs) = (4 + length bs)%nat.
Proof. unfold sized. by rewrite length_app, length_le_bytes. Qed.

(** The type of a struct. *)
Lemma struct_index sp f : field_ok (Z.of_nat (length (s_type sp))) f → elem_type f = SPROTO_TSTRUCT →
  ∃ i st, f_st f = Some i ∧ aget (s_type sp) i = Some st.
Proof.
  intros (_ & t & Htc & E & Hs) Ht. assert (t = SPROTO_TSTRUCT) as Et.
  { unfold type_code, elem_type, SPROTO_TSTRUCT, SPROTO_TARRAY in *. assert (t = 0 ∨ t = 1 ∨ t = 2 ∨ t = 3 ∨ t = 4) as [->|[->|[->|[->| ->]]]] by lia; [..|done];
      destruct E as [E|E]; rewrite E in Ht; discriminate Ht. }
  destruct (Hs Et) as (i & Hi & Hr). destruct (aget_is_Some (s_type sp) i Hr) as [st Hst]. by exists i, st.
Qed.

Section table.
Context (sp : sproto) (sub : sproto_type → lval → list (field * mval) → Prop).

(** The fields that are present need no more records than all. *)
Lemma records_bound pairs last fs l : ascending last fs → fields_rep sp sub pairs fs l →
  Z.of_nat (length (records last (map wire_field l))) ≤ Z.of_nat (length fs) + gaps last fs.
Proof.
  intros Ha H. revert last Ha. induction H as [|f fs l _ _ IH|f fs m l _ _ IH]; intros last Ha; [done|..]; destruct Ha as [Ht Ha].
  - specialize (IH last (ascending_weaken last (f_tag f) fs ltac:(lia) Ha)). pose proof (gaps_drop last f fs Ht). cbn [length]. lia.
  - specialize (IH _ Ha). cbn [map records wire_field w_tag fst gaps length]. rewrite length_app. cbn [length].
    destruct (last + 1 <? f_tag f); cbn [length]; lia.
Qed.

Lemma elements_of f ms pairs i : type_code (elem_type f) → list_rep sp sub f pairs i ms → elements (elem_type f) ms.
Proof.
  intros Ht. induction 1 as [|i m ms Hm _ IH]; [constructor|]. constructor; [|done].
  inversion Hm as [z E|u E|b E|s E|k st t l E]; rewrite E; done.
Qed.
End table.

(** ** The callback *)

Definition good_sub (sp : sproto) (R : sproto_type → lval → list (field * mval) → Prop)
    (sub : sproto_type → Z → lval → res (option (list Z))) : Prop :=
  ∀ st t l, R st t l → is_nil t = false ∧ enough_need (MStruct st l) ∧
    ∀ n, n < 2 ^ 31 → outcome (sub st n t) (body (MStruct st l)) (Z.of_nat (length (body (MStruct st l))) ≤ n) (need (MStruct st l) ≤ n).

Section lua.
Context (L : lua_api) (sp : sproto).
Hypothesis tointeger_int : ∀ z, l_tointeger L (VInt z) = Some z.
Hypothesis tonumber_real : ∀ u, l_tonumber L (VReal u) = u.
Context (R : sproto_type → lval → list (field * mval) → Prop) (sub : sproto_type → Z → lval → res (option (list Z))).
Hypothesis Hsub : good_sub sp R sub.

Lemma elem_need f v m : elem_rep sp R f v m → enough_need m.
Proof.
  unfold enough_need. inversion 1 as [z E|u E|b E|s E|k st t l E Hk Hst HR]; subst; cbn [body need]; try rewrite length_le_bytes.
  - destruct (width_cases [MInt z]) as [->| ->]; lia.
  - destruct (width_cases [MReal u]) as [->| ->]; lia.
  - done.
  - lia.
  - apply (Hsub _ _ _ HR).
Qed.

Lemma encode_one_spec {U} f v m args n (ud : U) : elem_rep sp R f v m →
  a_type args = elem_type f → a_subtype args = f_st f → a_extra args = f_extra f → a_length args = n → min_room m ≤ n < 2 ^ 31 →
  answer n m ud ('(sz, bs) ← encode_one L sp sub args v; Ok (sz, bs, ud)).
Proof.
  intros Hm Ht Hs He Hl Hn. unfold encode_one. rewrite Ht, Hs, He, Hl.
  inversion Hm as [z E Ex Hz|u E Hu|b E|s E Hb|k st t l E Hk Hst HR]; subst m; rewrite E.
  - rewrite Ex. change (SPROTO_TINTEGER =? SPROTO_TINTEGER) with true. change (negb (0 =? 0)) with false. subst v. cbn iota. rewrite tointeger_int. cbn [mbind res_bind]. rewrite int32_shift.
    left. unfold value_bytes. cbn [body]. unfold width. cbn [forallb short bits]. rewrite andb_true_r.
    destruct (int32 z); cbn [mbind res_bind min_room] in *; rewrite length_le_bytes; (split; [cbn; lia|done]).
  - subst v. left. cbn in *. rewrite tonumber_real. split; [cbn; lia|done].
  - subst v. left. cbn in *. split; [cbn; lia|done].
  - subst v. cbn in *. destruct (Z.ltb_spec n (Z.of_nat (length s))); [by right|left]. split; [cbn; lia|done].
  - rewrite Hk. cbn [of_option mbind res_bind]. change (SPROTO_TSTRUCT =? SPROTO_TINTEGER) with false.
    change (SPROTO_TSTRUCT =? SPROTO_TDOUBLE) with false. change (SPROTO_TSTRUCT =? SPROTO_TBOOLEAN) with false.
    change (SPROTO_TSTRUCT =? SPROTO_TSTRING) with false. rewrite Z.eqb_refl, Hst. cbn [of_option mbind res_bind].
    destruct (Hsub _ _ _ HR) as (_ & _ & Ho). destruct (Ho n ltac:(lia)) as [[Hf ->]|[Hne ->]]; cbn [mbind res_bind]; [by left|right].
    split; [lia|done].
Qed.

Lemma elem_not_nil f v m : elem_rep sp R f v m → is_nil v = false.
Proof. inversion 1 as [| | | |k st t l E Hk Hst HR]; try done. apply (Hsub _ _ _ HR). Qed.
End lua.

Section list_rep.
Context (sp : sproto) (R : sproto_type → lval → list (field * mval) → Prop) (f : field) (pairs : list (lval * lval)).

Lemma list_rep_at i ms k m : list_rep sp R f pairs i ms → ms !! k = Some m →
  elem_rep sp R f (tab_get pairs (VInt (i + Z.of_nat k))) m.
Proof.
  intros H. revert k. induction H as [|i m' ms Hm _ IH]; intros [|k] Hk; try done; cbn in Hk.
  - injection Hk as <-. by replace (i + Z.of_nat 0) with i by lia.
  - replace (i + Z.of_nat (S k)) with (i + 1 + Z.of_nat k) by lia. by apply IH.
Qed.

Lemma list_rep_end i ms : list_rep sp R f pairs i ms → tab_get pairs (VInt (i + Z.of_nat (length ms))) = VNil.
Proof.
  induction 1 as [i H|i m ms _ _ IH]; cbn [length]; [by replace (i + Z.of_nat 0) with i by lia|].
  by replace (i + Z.of_nat (S (length ms))) with (i + 1 + Z.of_nat (length ms)) by lia.
Qed.
End list_rep.

(** ** The fields of a table *)

Section fields.
Context (L : lua_api) (sp : sproto).
Hypothesis tointeger_int : ∀ z, l_tointeger L (VInt z) = Some z.
Hypothesis tonumber_real : ∀ u, l_tonumber L (VReal u) = u.
Context (R : sproto_type → lval → list (field * mval) → Prop) (room : nat).
Definition sub_encode (st : sproto_type) (size : Z) (tbl : lval) : res (option (list Z)) :=
  sproto_encode sp (encode L sp room tbl) st size ud_init.
Hypothesis Hsub : good_sub sp R sub_encode.
Context (pairs : list (lval * lval)).
Let cb := encode L sp (S room) (VTab pairs).

Lemma encode_S args ud : cb args ud =
  ('(code, v, ud) ← get_encodefield L (VTab pairs) args ud;
   if code <? 0 then Ok (code, [], ud)
   else if is_nil v then Ok (SPROTO_CB_NIL, [], ud)
   else '(sz, bs) ← encode_one L sp sub_encode args v; Ok (sz, bs, ud)).
Proof. done. Qed.

Lemma encode_plain f type n kv ud : ¬ 0 < a_index (with_length n (field_arg f type kv)) →
  cb (with_length n (field_arg f type kv)) ud =
  let v := tab_get pairs (VStr (f_name f)) in
  if is_nil v then Ok (SPROTO_CB_NIL, [], ud)
  else '(sz, bs) ← encode_one L sp sub_encode (with_length n (field_arg f type kv)) v; Ok (sz, bs, ud).
Proof. done. Qed.

(** The states in which the array of a field has not been opened. *)
Definition before (tag : Z) (ud : encode_ud) : Prop := ∀ t, eu_array_tag ud = Some t → t < tag.

Definition array_ud (f : field) (ps : list (lval * lval)) : encode_ud := EncodeUd (Some (f_tag f)) (VTab ps) ps IterDone.

Lemma open_array_new f args ps ud : a_tagname args = f_name f → a_tagid args = f_tag f →
  tab_get pairs (VStr (f_name f)) = VTab ps → before (f_tag f) ud →
  open_array L (VTab pairs) args ud = Ok (Some (array_ud f ps)).
Proof.
  intros Hn Ht Hg Hb. unfold open_array. rewrite bool_decide_eq_false_2.
  - cbn [lua_index]. rewrite Hn, Hg. cbn. by rewrite Ht.
  - rewrite Ht. intros E. specialize (Hb _ E). lia.
Qed.

Lemma encode_feeds f type ps ms : type = elem_type f → f_key f < 0 → tab_get pairs (VStr (f_name f)) = VTab ps →
  list_rep sp R f ps 1 ms →
  feeds cb (field_arg f type None) (λ ud, open_array L (VTab pairs) (field_arg f type None) ud = Ok (Some (array_ud f ps))) (array_ud f ps) ms.
Proof.
  intros Ht Hk Hg Hl ud i n Hr.
  assert (∀ n, cb (with_index (Z.of_nat i + 1) (with_length n (field_arg f type None))) ud =
    let v := tab_get ps (VInt (1 + Z.of_nat i)) in
    if is_nil v then Ok (SPROTO_CB_NIL, [], array_ud f ps)
    else '(sz, bs) ← encode_one L sp sub_encode (with_index (Z.of_nat i + 1) (with_length n (field_arg f type None))) v;
         Ok (sz, bs, array_ud f ps)) as Hcb.
  { intros n'. rewrite encode_S. unfold get_encodefield. cbn [a_index with_index with_length field_arg a_mainindex].
    assert (0 <? Z.of_nat i + 1 = true) as -> by lia. change (open_array L (VTab pairs) _ ud) with (open_array L (VTab pairs) (field_arg f type None) ud).
    rewrite Hr. cbn [mbind res_bind]. assert (0 <=? f_key f = false) as -> by lia. cbn.
    by replace (Z.of_nat i + 1) with (1 + Z.of_nat i) by lia. }
  destruct (ms !! i) as [m|] eqn:Hm.
  - intros Hn. pose proof (list_rep_at _ _ _ _ _ _ _ _ Hl Hm) as He. rewrite Hcb. cbv zeta. rewrite (elem_not_nil sp R _ Hsub _ _ _ He).
    by apply (encode_one_spec L sp tointeger_int tonumber_real R _ Hsub f).
  - intros ->. rewrite Hcb. cbv zeta. by rewrite (list_rep_end _ _ _ _ _ _ Hl).
Qed.

(** What [sproto_encode] does with a value. *)
Definition field_out (m : mval) : encoded :=
  match inline m with Some v => EValue ((v + 1) * 2) | None => EData (sized (body m)) end.

Lemma type_plain f : field_ok (Z.of_nat (length (s_type sp))) f → is_array f = false → elem_type f = f_type f ∧ type_code (f_type f).
Proof.
  intros (_ & t & Ht & E & _) Ha. unfold is_array, elem_type, SPROTO_TARRAY in *. unfold type_code, SPROTO_TSTRUCT in *.
  assert (t = 0 ∨ t = 1 ∨ t = 2 ∨ t = 3 ∨ t = 4) as [->|[->|[->|[->| ->]]]] by lia;
    destruct E as [E|E]; rewrite E in *; try (vm_compute in Ha; discriminate Ha); (split; [done|lia]).
Qed.

Lemma type_array f : field_ok (Z.of_nat (length (s_type sp))) f → type_code (elem_type f).
Proof.
  intros (_ & t & Ht & E & _). unfold elem_type, SPROTO_TARRAY in *. unfold type_code, SPROTO_TSTRUCT in *.
  assert (t = 0 ∨ t = 1 ∨ t = 2 ∨ t = 3 ∨ t = 4) as [->|[->|[->|[->| ->]]]] by lia;
    destruct E as [E|E]; rewrite E; (split; [done|vm_compute; done]).
Qed.

Lemma encode_scalar_spec f size ud m : is_number m ∨ is_bool m → 0 ≤ size < 2 ^ 31 →
  (∀ n, min_room m ≤ n < 2 ^ 31 → answer n m ud (cb (with_length n (field_arg f (f_type f) None)) ud)) →
  outcome (encode_scalar cb (field_arg f (f_type f) None) size ud) (field_out m, ud)
    (Z.of_nat (length (payload (wire_field (f, m)))) ≤ size) (4 + need m ≤ size).
Proof.
  intros Hm Hs Ha. unfold encode_scalar. assert (need m ≤ 8) as Hn by (destruct m, Hm; cbn; lia || done).
  assert (cb (with_length 8 (field_arg f (f_type f) None)) ud = Ok (Z.of_nat (length (value_bytes m)), value_bytes m, ud)) as Hcb.
  { destruct (Ha 8) as [[_ ->]|[? _]]; [destruct m, Hm; done || (cbn; lia)|done|lia]. }
  rewrite Hcb. cbn [mbind res_bind]. unfold encode_integer, encode_uint64, SIZEOF_LENGTH. rewrite (wrap_small 64) by lia.
  unfold field_out, payload. cbn [wire_field w_inline w_data snd].
  destruct m as [z|u|b| | |]; try (by destruct Hm); cbn [value_bytes body inline bits].
  - unfold width. cbn [forallb short]. rewrite andb_true_r. destruct (int32 z) eqn:Ez; rewrite length_le_bytes.
    + change (Z.of_nat 4 <? 0) with false. change (Z.of_nat 4 =? SIZEOF_INT32) with true. cbn iota.
      rewrite take_ge by by rewrite length_le_bytes. rewrite le_val_bytes. change (8 * Z.of_nat 4) with 32. rewrite (le_bytes_wrap 4).
      apply int32_spec in Ez. destruct (Z.ltb_spec (wrap 32 z) 0x7fff) as [Hw|Hw].
      * assert (wrap 32 z = z) as E by (unfold wrap in *; destruct (Z.ltb_spec z 0);
          [rewrite <- (Z.mod_add z 1), Z.mod_small in Hw by lia; lia|by rewrite Z.mod_small by lia]).
        rewrite E in *. assert (0 <= z) by (rewrite <- E; apply wrap_range; lia).
        assert ((0 <=? z) && (z <? 0x7fff) = true) as -> by lia. left. split; [cbn; lia|done].
      * assert ((0 <=? z) && (z <? 0x7fff) = false) as ->.
        { apply not_true_iff_false. intros H. rewrite wrap_small in Hw by lia. lia. }
        destruct (Z.ltb_spec size (4 + 4)); [right; split; [cbn; lia|done]|left]. split; [|done].
        unfold sized. rewrite length_app, !length_le_bytes. lia.
    + change (Z.of_nat 8 <? 0) with false. change (Z.of_nat 8 =? SIZEOF_INT32) with false.
      change (Z.of_nat 8 =? SIZEOF_INT64) with true. cbn iota. rewrite le_val_bytes, le_bytes_wrap.
      assert ((0 <=? z) && (z <? 0x7fff) = false) as ->.
      { apply not_true_iff_false. intros H. assert (int32 z = true); [apply int32_spec; lia|congruence]. }
      destruct (Z.ltb_spec size (4 + 8)); [right; split; [cbn; lia|done]|left]. split; [|done].
      unfold sized. rewrite length_app, !length_le_bytes. lia.
  - unfold width. cbn [forallb short andb]. rewrite length_le_bytes.
    change (Z.of_nat 8 <? 0) with false. change (Z.of_nat 8 =? SIZEOF_INT32) with false.
    change (Z.of_nat 8 =? SIZEOF_INT64) with true. cbn iota. rewrite le_val_bytes, le_bytes_wrap.
    destruct (Z.ltb_spec size (4 + 8)); [right; split; [cbn; lia|done]|left]. split; [|done].
    unfold sized. rewrite length_app, !length_le_bytes. lia.
  - left. split; [cbn; lia|]. by destruct b.
Qed.

Lemma encode_object_spec f size ud m : size < 2 ^ 31 → is_object m → enough_need m →
  (∀ n, min_room m ≤ n < 2 ^ 31 → answer n m ud (cb (with_length n (field_arg f (f_type f) None)) ud)) →
  outcome (encode_object cb (field_arg f (f_type f) None) size ud) (sized (body m), ud)
    (Z.of_nat (length (sized (body m))) ≤ size) (4 + need m ≤ size).
Proof.
  intros Hsz Hm Hn0 Ha. assert (value_bytes m = body m) as Ev by by destruct m. assert (min_room m = 0) as Hr by by destruct m.
  unfold encode_object, SIZEOF_LENGTH. destruct (Z.ltb_spec size 4).
  - right. split; [unfold enough_need in Hn0; lia|done].
  - destruct (Ha (size - 4) ltac:(lia)) as [[Hf ->]|[Hn ->]]; cbn [mbind res_bind]; [left|right; split; [lia|done]].
    rewrite Ev in *. destruct (Z.ltb_spec (Z.of_nat (length (body m))) 0); [lia|].
    destruct (Z.ltb_spec (size - 4) (Z.of_nat (length (body m)))); [lia|]. split; [|done].
    unfold sized. rewrite length_app, length_le_bytes. lia.
Qed.

(** A field that is in the table. *)
Lemma encode_field_some f size ud m : field_ok (Z.of_nat (length (s_type sp))) f → 0 ≤ size < 2 ^ 31 → before (f_tag f) ud →
  field_rep sp R f (tab_get pairs (VStr (f_name f))) m → ∃ ud', before (f_tag f + 1) ud' ∧
  outcome (encode_field sp cb f size ud) (field_out m, ud') (Z.of_nat (length (payload (wire_field (f, m)))) ≤ size) (4 + need m ≤ size).
Proof.
  intros Hok Hs Hud Hm. unfold encode_field. remember (tab_get pairs (VStr (f_name f))) as v eqn:Ev.
  destruct Hm as [v m Ha _ He|ps ms Ha Hk Hmap Hl]; rewrite Ha.
  - exists ud. split; [intros t Ht; specialize (Hud t Ht); lia|]. destruct (type_plain f Hok Ha) as [Et Ht].
    assert (∀ n, min_room m ≤ n < 2 ^ 31 → answer n m ud (cb (with_length n (field_arg f (f_type f) None)) ud)) as Hcb.
    { intros n Hn. rewrite encode_plain by done. cbv zeta. rewrite <- Ev, (elem_not_nil sp R _ Hsub _ _ _ He).
      by apply (encode_one_spec L sp tointeger_int tonumber_real R _ Hsub f). }
    pose proof (elem_need sp R _ Hsub _ _ _ He) as Hn. pose proof (λ H, encode_scalar_spec f size ud m H Hs Hcb) as Hscalar.
    pose proof (λ H, encode_object_spec f size ud m (proj2 Hs) H Hn Hcb) as Hobject.
    inversion He as [z E Ex Hz E1 E2|u E Hu E1 E2|b E E1 E2|s E Hb E1 E2|k st t l E Hk Hst HR E1 E2]; subst m; rewrite Et in E; rewrite E in *.
    1-3: apply Hscalar; (by left) || (by right).
    all: destruct (Hobject I) as [[Hf ->]|[Hf ->]]; [by left|by right].
  - exists (array_ud f ps). split; [intros t [= <-]; lia|].
    assert (map_names sp f = Ok None) as -> by (unfold map_names; by assert (0 <? f_map f = false) as -> by lia). cbn [mbind res_bind].
    assert (Forall enough_need ms) as Hn.
    { apply Forall_forall. intros m Hm. apply list_elem_of_lookup in Hm as [i Hi].
      eapply (elem_need sp R _ Hsub). by eapply list_rep_at. }
    assert (elements (elem_type f) ms) as Hel by (by eapply elements_of; [apply type_array|]).
    destruct (encode_array_spec cb (field_arg f (elem_type f) None) (λ ud, open_array L (VTab pairs) (field_arg f (elem_type f) None) ud = Ok (Some (array_ud f ps)))
      (array_ud f ps)) with (ms := ms) (size := size) (ud := ud) as [[Hf ->]|[Hf ->]]; try done; [|lia| | |by left|by right].
    + unfold open_array. cbn. by rewrite bool_decide_eq_true_2.
    + by apply (encode_feeds f (elem_type f) ps ms).
    + by apply open_array_new.
Qed.

(** A field that is not. *)
Lemma encode_field_none f size ud : field_ok (Z.of_nat (length (s_type sp))) f → 0 ≤ size → before (f_tag f) ud →
  tab_get pairs (VStr (f_name f)) = VNil → (∃ kv, map_names sp f = Ok kv) → ∃ ud' out, before (f_tag f + 1) ud' ∧
  (out = ENone ∨ out = EData []) ∧ outcome (encode_field sp cb f size ud) (out, ud') True (8 ≤ size).
Proof.
  intros Hok Hs Hud Hn [kv Hmap]. unfold encode_field. destruct (is_array f) eqn:Ha.
  - exists (EncodeUd (Some (f_tag f)) VNil [] IterDone), (EData []). split; [intros t [= <-]; lia|]. split; [by right|].
    rewrite Hmap. cbn [mbind res_bind].
    assert (∀ i n, 0 < i → cb (with_index i (with_length n (field_arg f (elem_type f) kv))) ud =
      Ok (SPROTO_CB_NOARRAY, [], EncodeUd (Some (f_tag f)) VNil [] IterDone)) as Hcb.
    { intros i n Hi. rewrite encode_S. unfold get_encodefield, open_array. cbn. assert (0 <? i = true) as -> by lia.
      rewrite bool_decide_eq_false_2 by (intros E; specialize (Hud _ E); lia). cbn. rewrite Hn. done. }
    unfold encode_array, SIZEOF_LENGTH. destruct (Z.ltb_spec size 4); [right; split; [lia|done]|].
    destruct (_ || _); [|destruct (_ =? SPROTO_TBOOLEAN)].
    + unfold encode_integer_array. destruct (Z.ltb_spec (size - 4) 1); [right; split; [lia|done]|]. cbn [integer_loop].
      rewrite Hcb by lia. by left.
    + cbn [boolean_loop]. rewrite Hcb by lia. by left.
    + unfold encode_array_object. cbn [object_loop]. unfold SIZEOF_LENGTH. destruct (Z.ltb_spec (size - 4) 4); [right; split; [lia|done]|].
      rewrite Hcb by lia. by left.
  - destruct (type_plain f Hok Ha) as [Et Ht].
    assert (∀ n, cb (with_length n (field_arg f (f_type f) None)) ud = Ok (SPROTO_CB_NIL, [], ud)) as Hcb.
    { intros n. rewrite encode_plain by done. cbv zeta. by rewrite Hn. }
    exists ud. destruct ((_ || _) || _) eqn:Eq.
    + exists ENone. split; [intros t Hud'; specialize (Hud t Hud'); lia|]. split; [by left|]. unfold encode_scalar. rewrite Hcb. by left.
    + exists (EData []). split; [intros t Hud'; specialize (Hud t Hud'); lia|]. split; [by right|].
      assert ((f_type f =? SPROTO_TSTRUCT) || (f_type f =? SPROTO_TSTRING) = true) as ->
        by (unfold type_code, SPROTO_TDOUBLE, SPROTO_TINTEGER, SPROTO_TBOOLEAN, SPROTO_TSTRUCT, SPROTO_TSTRING in *; lia).
      unfold encode_object, SIZEOF_LENGTH. destruct (Z.ltb_spec size 4); [right; split; [lia|done]|].
      rewrite Hcb. by left.
Qed.

(** ** The loop over the fields *)

Lemma payload_cases f m (p := payload (wire_field (f, m))) :
  (field_out m = EData p ∧ p ≠ [] ∧ inline m = None) ∨ ∃ v, inline m = Some v ∧ p = [] ∧ field_out m = EValue ((v + 1) * 2).
Proof. unfold p, payload, field_out. cbn. destruct (inline m) as [v|]; [right; by exists v|by left]. Qed.

Lemma put_field_spec maxn tag value es : es_lasttag es < tag < 0x8000 → -1 ≤ es_lasttag es →
  let gap := if es_lasttag es + 1 <? tag then [(tag - es_lasttag es - 2) * 2 + 1] else [] in
  es_index es + Z.of_nat (length gap) + 1 ≤ maxn →
  put_field maxn tag value es = Ok (Some (EncState (es_index es + Z.of_nat (length gap) + 1) tag
    (es_records es ++ words (gap ++ [value])) (es_data es) (es_size es))).
Proof.
  intros Ht Hl gap Hm. unfold put_field, gap in *. destruct (Z.ltb_spec (es_lasttag es + 1) tag).
  - assert (0 <? tag - es_lasttag es - 1 = true) as -> by lia.
    replace ((tag - es_lasttag es - 1 - 1) * 2 + 1) with ((tag - es_lasttag es - 2) * 2 + 1) by lia.
    assert (0xffff <? (tag - es_lasttag es - 2) * 2 + 1 = false) as -> by lia. unfold put_record. cbn [length] in Hm.
    assert (maxn <=? es_index es = false) as -> by lia. cbn [mbind res_bind es_index].
    assert (maxn <=? es_index es + 1 = false) as -> by lia. cbn [mbind res_bind]. rewrite words_app, !words_one, app_assoc. done.
  - assert (0 <? tag - es_lasttag es - 1 = false) as -> by lia. cbn [mbind res_bind length] in *. unfold put_record.
    assert (maxn <=? es_index es = false) as -> by lia. cbn [mbind res_bind app]. rewrite words_one. unfold set_lasttag.
    cbn [es_index es_records es_data es_size]. do 3 f_equal. lia.
Qed.

Lemma array_need type ms : elements type ms → Forall enough_need ms → enough_need (MArray ms).
Proof.
  intros He Hd. pose proof (need_nonneg_list ms Hd) as Hnn. unfold enough_need. cbn [need]. destruct ms as [|m ms]; [cbn; lia|].
  unfold elements in He. destruct (_ || _); [|destruct (_ =? SPROTO_TBOOLEAN)].
  - assert (body (MArray (m :: ms)) = numbers (m :: ms)) as -> by (apply Forall_cons in He as [He _]; by destruct m).
    unfold numbers. change (Z.of_nat (length (Z.of_nat (width (m :: ms)) :: ints (width (m :: ms)) (m :: ms)))) with
      (Z.of_nat (S (length (ints (width (m :: ms)) (m :: ms))))). rewrite length_ints.
    assert (8 * Z.of_nat (length (m :: ms)) ≤ foldr Z.add 0 (map (λ m, 4 + need m) (m :: ms))).
    { clear -He. induction He as [|x l Hx _ IH]; cbn; [lia|]. destruct x; try done; cbn; lia. }
    destruct (width_cases (m :: ms)) as [->| ->]; lia.
  - assert (body (MArray (m :: ms)) = concat (map body (m :: ms))) as -> by (apply Forall_cons in He as [He _]; by destruct m).
    clear He Hnn. induction Hd as [|x l Hx _ IH]; [cbn; lia|]. unfold enough_need in Hx. cbn [map concat foldr] in *. rewrite length_app. lia.
  - assert (body (MArray (m :: ms)) = concat (map (λ m, sized (body m)) (m :: ms))) as -> by (apply Forall_cons in He as [He _]; by destruct m).
    clear He Hnn. induction Hd as [|x l Hx _ IH]; [cbn; lia|]. unfold enough_need in Hx. cbn [map concat foldr] in *.
    unfold sized at 1. rewrite !length_app, length_le_bytes. lia.
Qed.

Lemma field_need f v m : field_ok (Z.of_nat (length (s_type sp))) f → field_rep sp R f v m → enough_need m.
Proof.
  intros Hok [v' m' _ _ He|ps ms _ _ _ Hl]; [by eapply (elem_need sp R _ Hsub)|].
  eapply array_need; [eapply elements_of; [by apply type_array|done]|].
  apply Forall_forall. intros x Hx. apply list_elem_of_lookup in Hx as [i Hi]. eapply (elem_need sp R _ Hsub). by eapply list_rep_at.
Qed.

Lemma fields_need fs l : Forall (field_ok (Z.of_nat (length (s_type sp)))) fs → fields_rep sp R pairs fs l →
  Forall (λ x, enough_need x.2) l.
Proof.
  intros Hok H. induction H as [|f fs l _ _ IH|f fs m l Hm _ IH]; [done|..]; apply Forall_cons in Hok as [Hf Hok]; [auto|].
  constructor; [by eapply field_need|auto].
Qed.

Lemma need_rest_payload l : Forall (λ x, enough_need x.2) l →
  Z.of_nat (length (concat (map payload (map wire_field l)))) + 8 ≤ need_rest l.
Proof.
  unfold need_rest, enough_need. induction 1 as [|[f m] l Hm _ IH]; [cbn; lia|]. cbn [map concat foldr snd] in *. rewrite length_app.
  unfold payload at 1. cbn [wire_field w_inline w_data snd].
  destruct (inline m); [cbn [length]; lia|]. rewrite length_sized. lia.
Qed.

Lemma fields_loop_write maxn fs l : fields_rep sp R pairs fs l → ∀ es ud last,
  Forall (field_ok (Z.of_nat (length (s_type sp)))) fs → Forall (λ f, ∃ kv, map_names sp f = Ok kv) fs →
  -1 ≤ es_lasttag es ≤ last → ascending last fs → before (last + 1) ud →
  es_index es + Z.of_nat (length fs) + gaps (es_lasttag es) fs ≤ maxn → 0 ≤ es_size es < 2 ^ 31 →
  ∃ ud' last', let ws := records (es_lasttag es) (map wire_field l) in
    let ps := concat (map payload (map wire_field l)) in
    outcome (encode_loop sp cb maxn fs es ud)
      (inl (EncState (es_index es + Z.of_nat (length ws)) last' (es_records es ++ words ws) (es_data es ++ ps)
        (es_size es - Z.of_nat (length ps))), ud')
      (Z.of_nat (length ps) ≤ es_size es) (need_rest l ≤ es_size es).
Proof.
  induction 1 as [|f fs l Hn H IH|f fs m l Hm H IH]; intros es ud lst Hok Hmap Hl Ha Hud Hi Hs.
  - exists ud, (es_lasttag es). left. cbn. split; [lia|]. destruct es as [i t r d s]. cbn. rewrite !app_nil_r, Z.add_0_r, Z.sub_0_r. done.
  - apply Forall_cons in Hok as [Hf Hok], Hmap as [Hkv Hmap]. destruct Ha as [Hlt Ha]. cbn [length] in Hi.
    destruct (encode_field_none f (es_size es) ud Hf ltac:(lia)) as (ud' & out & Hud' & Hout & Ho); [intros t Ht; specialize (Hud t Ht); lia|done..|].
    destruct (IH es ud' (f_tag f)) as (ud'' & last' & IH'); [done|done|lia|done|done| |done|].
    { pose proof (gaps_drop (es_lasttag es) f fs ltac:(lia)). lia. }
    exists ud'', last'. cbv zeta in *. cbn [encode_loop]. destruct Ho as [[_ ->]|[Ho ->]]; cbn [mbind res_bind].
    + by destruct Hout as [-> | ->].
    + right. split; [|done]. pose proof (need_rest_payload l (fields_need fs l Hok H)). lia.
  - apply Forall_cons in Hok as [Hf Hok], Hmap as [Hkv Hmap]. destruct Ha as [Hlt Ha]. cbn [length] in Hi.
    pose proof (need_rest_payload l (fields_need fs l Hok H)) as Hrest. pose proof (field_need _ _ _ Hf Hm) as Hneed.
    destruct (encode_field_some f (es_size es) ud m Hf Hs) as (ud' & Hud' & Ho); [intros t Ht; specialize (Hud t Ht); lia|done|].
    set (p := payload (wire_field (f, m))) in *.
    set (gap := if es_lasttag es + 1 <? f_tag f then [(f_tag f - es_lasttag es - 2) * 2 + 1] else []).
    set (value := match inline m with Some v => (v + 1) * 2 | None => 0 end).
    assert (Z.of_nat (length gap) = if es_lasttag es + 1 <? f_tag f then 1 else 0) as Hgap by (unfold gap; by destruct (_ <? _)).
    cbn [gaps] in Hi. rewrite <- Hgap in Hi.
    set (es' := EncState (es_index es + Z.of_nat (length gap) + 1) (f_tag f) (es_records es ++ words (gap ++ [value]))
      (es_data es ++ p) (es_size es - Z.of_nat (length p))).
    assert (need_rest ((f, m) :: l) = 4 + need m + need_rest l) as En by done. cbv zeta. cbn [encode_loop].
    destruct Ho as [[Hfit ->]|[Ho ->]]; cbn [mbind res_bind].
    2: { exists ud', 0. right. split; [lia|done]. }
    destruct (IH es' ud' (f_tag f)) as (ud'' & last' & IH'); try done; [cbn; destruct Hf; lia|cbn; lia|cbn; lia|].
    exists ud'', last'. cbv zeta in IH'.
    assert (∀ es0, es_data es0 = es_data es ++ p → es_size es0 = es_size es - Z.of_nat (length p) → es_index es0 = es_index es →
      es_records es0 = es_records es → es_lasttag es0 = es_lasttag es → put_field maxn (f_tag f) value es0 = Ok (Some es')) as Hput.
    { intros [i0 t0 r0 d0 s0]. cbn [es_data es_size es_index es_records es_lasttag]. intros -> -> -> -> ->. destruct Hf.
      rewrite put_field_spec; cbn [es_data es_size es_index es_records es_lasttag]; fold gap; [done|lia|lia|].
      pose proof (gaps_nonneg (f_tag f) fs). lia. }
    assert (records (es_lasttag es) (map wire_field ((f, m) :: l)) = (gap ++ [value]) ++ records (f_tag f) (map wire_field l)) as Er
      by (rewrite <- app_assoc; done).
    assert (concat (map payload (map wire_field ((f, m) :: l))) = p ++ concat (map payload (map wire_field l))) as Ep by done.
    rewrite Er, Ep. rewrite (words_app (gap ++ [value])), !length_app, !app_assoc. cbn [length].
    assert (add_field maxn (f_tag f) (field_out m) es = Ok (Some es')) as Hadd.
    { destruct (payload_cases f m) as [(-> & Hp & Hv)|(v & Hv & Hp & ->)]; fold p in Hp |- *; unfold add_field; unfold value in *; rewrite Hv in Hput.
      - destruct p as [|b bs] eqn:E; [done|]. by apply Hput.
      - apply Hput; rewrite ?Hp; [by rewrite app_nil_r|cbn; lia|done..]. }
    assert (field_out m ≠ EReturn) as Hret by (unfold field_out; by destruct (inline m)).
    assert (Z.of_nat (length p) ≤ 4 + need m) as Hp4.
    { unfold p, payload, enough_need in *. cbn [wire_field w_inline w_data snd]. destruct (inline m); [cbn [length]; lia|]. rewrite length_sized. lia. }
    unfold es' in IH'. cbn [es_index es_lasttag es_records es_data es_size] in IH'.
    replace (es_index es + Z.of_nat (length gap + 1 + length (records (f_tag f) (map wire_field l)))) with
      (es_index es + Z.of_nat (length gap) + 1 + Z.of_nat (length (records (f_tag f) (map wire_field l)))) by lia.
    replace (es_size es - Z.of_nat (length p + length (concat (map payload (map wire_field l))))) with
      (es_size es - Z.of_nat (length p) - Z.of_nat (length (concat (map payload (map wire_field l))))) by lia.
    destruct (field_out m); try done; rewrite Hadd; cbn [mbind res_bind]; (eapply outcome_weaken; [exact IH'|lia|lia]).
Qed.

Lemma length_message l : Z.of_nat (length (message (map wire_field l))) =
  2 + 2 * Z.of_nat (length (records (-1) (map wire_field l))) + Z.of_nat (length (concat (map payload (map wire_field l)))).
Proof. unfold message. rewrite !length_app, length_le_bytes, !Nat2Z.inj_add, length_words. lia. Qed.

Lemma struct_need st l : type_ok (Z.of_nat (length (s_type sp))) st → fields_rep sp R pairs (t_f st) l →
  enough_need (MStruct st l).
Proof.
  intros [_ Ha Hf Hm _] H. unfold enough_need. rewrite body_struct, need_struct, length_message.
  pose proof (need_rest_payload l (fields_need _ _ Hf H)). pose proof (records_bound _ _ _ _ _ _ Ha H). unfold SIZEOF_HEADER, SIZEOF_FIELD. lia.
Qed.

Lemma sproto_encode_spec st l size : type_ok (Z.of_nat (length (s_type sp))) st →
  Forall (λ f, ∃ kv, map_names sp f = Ok kv) (t_f st) → fields_rep sp R pairs (t_f st) l → size < 2 ^ 31 →
  outcome (sproto_encode sp cb st size ud_init) (body (MStruct st l))
    (Z.of_nat (length (body (MStruct st l))) ≤ size) (need (MStruct st l) ≤ size).
Proof.
  intros Hok Hmap H Hs. pose proof Hok as [_ Ha Hf Hm _]. pose proof (need_rest_payload l (fields_need _ _ Hf H)).
  pose proof (records_bound _ _ _ _ _ _ Ha H). rewrite body_struct, need_struct, length_message.
  unfold sproto_encode, sproto_encode_ud, SIZEOF_HEADER, SIZEOF_FIELD. destruct (Z.ltb_spec size (2 + t_maxn st * 2)); [right; split; [lia|done]|].
  destruct (fields_loop_write (t_maxn st) (t_f st) l H (EncState 0 (-1) [] [] (size - (2 + t_maxn st * 2))) ud_init (-1) Hf Hmap) as (ud & t & Ho);
    [cbn; lia|done|by intros t|cbn; lia|cbn; lia|].
  cbv zeta in Ho. cbn [es_index es_lasttag es_records es_data es_size app] in Ho.
  destruct Ho as [[Hfit ->]|[Hno ->]]; cbn [mbind res_bind]; [left|right; split; [lia|done]].
  split; [lia|]. done.
Qed.
End fields.

(** ** Whole messages *)

Section messages.
Context (L : lua_api) (sp : sproto).
Hypothesis tointeger_int : ∀ z, l_tointeger L (VInt z) = Some z.
Hypothesis tonumber_real : ∀ u, l_tonumber L (VReal u) = u.
Hypothesis Hschema : schema_ok sp.
Hypothesis Hmaps : maps_ok sp.

Lemma encode_good d room : (d ≤ room)%nat → good_sub sp (rep sp d) (sub_encode L sp room).
Proof.
  revert room. induction d as [|d IH]; intros room Hd st t l H; [done|]. destruct H as (Hst & pairs & -> & H).
  destruct room as [|room]; [lia|]. specialize (IH room ltac:(lia)).
  pose proof (proj1 (Forall_forall _ _) Hschema _ Hst) as Hok. pose proof (proj1 (Forall_forall _ _) Hmaps _ Hst) as Hmap.
  split; [done|]. split.
  - by eapply (struct_need L sp _ room IH pairs).
  - intros n Hn. by apply (sproto_encode_spec L sp tointeger_int tonumber_real _ room IH pairs).
Qed.

Lemma expand_twice sz : 0 < sz → sz * 2 ≤ ENCODE_MAXSIZE → expand_buffer sz (sz * 2) = Ok (sz * 2).
Proof.
  intros H1 H2. unfold expand_buffer. change 32%nat with (S 31). cbn [expand_size].
  assert (sz * 2 <? sz * 2 = false) as -> by lia. by assert (ENCODE_MAXSIZE <? sz * 2 = false) as -> by lia.
Qed.

Lemma lencode_spec st tbl l sz : rep sp ENCODE_DEEPLEVEL st tbl l → 0 < sz <= ENCODE_MAXSIZE → need (MStruct st l) ≤ 2 ^ 23 →
  ∃ sz', lencode L sp (Some st) tbl sz = Ok (body (MStruct st l), sz') ∧ sz ≤ sz' ≤ ENCODE_MAXSIZE.
Proof.
  intros Hr Hsz Hn. unfold lencode. pose proof (encode_good ENCODE_DEEPLEVEL ENCODE_DEEPLEVEL ltac:(lia) st tbl l Hr) as (_ & _ & Ho).
  unfold sub_encode in Ho. assert (ENCODE_MAXSIZE < sz * 2 ^ Z.of_nat 32) as Hf by (unfold ENCODE_MAXSIZE in *; lia).
  revert sz Hsz Hf. generalize 32%nat. intros fuel. induction fuel as [|fuel IH]; intros sz Hsz Hf; [lia|]. cbn [lencode_loop].
  destruct (Ho sz) as [[Hfit ->]|[Hno ->]]; [unfold ENCODE_MAXSIZE in *; lia| |]; cbn [mbind res_bind]; [exists sz; split; [done|lia]|].
  rewrite expand_twice by (unfold ENCODE_MAXSIZE in *; lia). cbn [mbind res_bind].
  destruct (IH (sz * 2)) as (sz' & -> & Hsz'); [unfold ENCODE_MAXSIZE in *; lia| |].
  - rewrite Nat2Z.inj_succ, Z.pow_succ_r in Hf by lia. lia.
  - exists sz'. split; [done|]. lia.
Qed.
End messages.
