(* ===== verification/SprotoRead.v ===== *)
(** [sproto_decode] reads the format of [SprotoSpec] at any place of a buffer, and the
    callback of lsproto.c builds the table of the message. *)
From S2P Require Import Prelude Bytes Buffer Seri SprotoType SprotoSchema SprotoEncode SprotoDecode SprotoSpec SprotoWire SprotoWrite SprotoEncodes.
Local Open Scope Z_scope.

(** ** Bytes at a place *)

Definition bytes_at (buf : list Z) (p : Z) (bs : list Z) : Prop := ∃ a c, buf = a ++ bs ++ c ∧ p = Z.of_nat (length a).

Lemma bytes_at_app buf p a b : bytes_at buf p (a ++ b) → bytes_at buf p a ∧ bytes_at buf (p + Z.of_nat (length a)) b.
Proof.
  intros (x & c & -> & ->). split.
  - exists x, (b ++ c). by rewrite <- app_assoc.
  - exists (x ++ a), c. rewrite length_app, <- !app_assoc. split; [done|lia].
Qed.

Lemma bytes_at_whole bs : bytes_at bs 0 bs.
Proof. exists [], []. by rewrite app_nil_r. Qed.

Lemma bytes_at_load buf p bs : bytes_at buf p bs → load buf p (Z.of_nat (length bs)) = Ok bs.
Proof. intros (a & c & -> & ->). apply load_app. Qed.

Lemma bytes_at_length buf p bs : bytes_at buf p bs → 0 ≤ p ∧ p + Z.of_nat (length bs) ≤ Z.of_nat (length buf).
Proof. intros (a & c & -> & ->). rewrite !length_app. lia. Qed.

Lemma read_word buf p w : bytes_at buf p (le_bytes 2 w) → 0 ≤ w < 65536 → toword buf p = Ok w.
Proof.
  intros H%bytes_at_load Hw. rewrite length_le_bytes in H. change (Z.of_nat 2) with 2 in H. unfold toword. rewrite H. cbn [mbind res_bind].
  rewrite le_val_bytes. change (8 * Z.of_nat 2) with 16. by rewrite wrap_small.
Qed.

Lemma read_dword buf p w : bytes_at buf p (le_bytes 4 w) → todword buf p = Ok (wrap 32 w).
Proof.
  intros H%bytes_at_load. rewrite length_le_bytes in H. change (Z.of_nat 4) with 4 in H. unfold todword. rewrite H. cbn [mbind res_bind].
  by rewrite le_val_bytes.
Qed.

Lemma read_sized buf p bs : bytes_at buf p (sized bs) → Z.of_nat (length bs) < 2 ^ 32 →
  todword buf p = Ok (Z.of_nat (length bs)) ∧ bytes_at buf (p + 4) bs.
Proof.
  intros [H1 H2]%bytes_at_app Hl. rewrite length_le_bytes in H2. split; [|done]. rewrite (read_dword _ _ _ H1). by rewrite wrap_small by lia.
Qed.

Lemma expand64_spec z : int32 z = true → expand64 (wrap 32 z) = wrap 64 z.
Proof.
  intros H. unfold expand64. rewrite sign_word by done. apply int32_spec in H. destruct (Z.ltb_spec z 0).
  - rewrite Z.shiftl_mul_pow2 by lia. rewrite lor_add by (lia || (apply wrap_range; lia)). unfold wrap.
    rewrite <- (Z.mod_add z 1 (2 ^ 32)), <- (Z.mod_add z 1 (2 ^ 64)) by lia. rewrite !Z.mod_small by lia. lia.
  - unfold wrap. rewrite !Z.mod_small by lia. done.
Qed.

Lemma read_int64_spec buf p i z : bytes_at buf (p + i * SIZEOF_INT64) (le_bytes 8 z) → read_int64 buf p i = Ok (wrap 64 z).
Proof.
  rewrite (le_bytes_app 4 4). intros [H1 H2]%bytes_at_app. rewrite length_le_bytes in H2. unfold read_int64.
  rewrite (read_dword _ _ _ H1). change (Z.of_nat 4) with SIZEOF_INT32 in H2. rewrite (read_dword _ _ _ H2). cbn [mbind res_bind]. f_equal.
  rewrite Z.shiftl_mul_pow2 by lia. rewrite lor_add by (lia || (apply wrap_range; lia)). unfold wrap. change (8 * Z.of_nat 4) with 32.
  change (2 ^ 64) with (2 ^ 32 * 2 ^ 32). rewrite Z.rem_mul_r by lia. change (8 * SIZEOF_INT32) with 32. lia.
Qed.

(** ** Tables *)

Lemma tab_get_app a k v b : Forall (λ x, raw_eq x.1 k = false) a → raw_eq k k = true → tab_get (a ++ (k, v) :: b) k = v.
Proof. intros H Hk. induction H as [|[k' v'] a Hx _ IH]; cbn in *; [by rewrite Hk|by rewrite Hx]. Qed.

Lemma tab_get_none a k : Forall (λ x, raw_eq x.1 k = false) a → tab_get a k = VNil.
Proof. induction 1 as [|[k' v'] a Hx _ IH]; cbn in *; [done|by rewrite Hx]. Qed.

Lemma tab_set_last a k v v' : Forall (λ x, raw_eq x.1 k = false) a → raw_eq k k = true → is_nil v' = false →
  tab_set (a ++ [(k, v)]) k v' = a ++ [(k, v')].
Proof. intros H Hk Hv. induction H as [|[k' x] a Hx _ IH]; cbn in *; [by rewrite Hk, Hv|by rewrite Hx, IH]. Qed.

Lemma tab_set_fresh a k v : Forall (λ x, raw_eq x.1 k = false) a → is_nil v = false → tab_set a k v = a ++ [(k, v)].
Proof. intros H Hv. induction H as [|[k' x] a Hx _ IH]; cbn in *; [by rewrite Hv|by rewrite Hx, IH]. Qed.

Lemma raw_eq_str s : raw_eq (VStr s) (VStr s) = true.
Proof. cbn. by apply bool_decide_eq_true_2. Qed.

Lemma keyed_app i a v : keyed i (a ++ [v]) = keyed i a ++ [(VInt (i + Z.of_nat (length a)), v)].
Proof.
  revert i. induction a as [|x a IH]; intros i; cbn; [by replace (i + Z.of_nat 0) with i by lia|].
  rewrite IH. by replace (i + 1 + Z.of_nat (length a)) with (i + Z.of_nat (S (length a))) by lia.
Qed.

Lemma keyed_below i k vs : i + Z.of_nat (length vs) ≤ k → Forall (λ x, raw_eq x.1 (VInt k) = false) (keyed i vs).
Proof. revert i. induction vs as [|v vs IH]; intros i H; cbn in *; constructor; [cbn; lia|apply IH; lia]. Qed.

Lemma lua_not_nil m : is_nil (lua_of m) = false.
Proof. by destruct m. Qed.

Definition entry_of (x : field * mval) : lval * lval := (VStr (f_name x.1), lua_of x.2).

Lemma lua_struct st l : lua_of (MStruct st l) = VTab (map entry_of l).
Proof. cbn. f_equal. apply map_ext. by intros []. Qed.

(** ** The callback *)

Section read.
Context (L : lua_api) (sp : sproto) (buf : list Z).
Hypothesis Hbuf : Z.of_nat (length buf) < 2 ^ 31.
Context (R : sproto_type → lval → list (field * mval) → Prop) (room : nat).
(** The structs of the nesting below are read. *)
Hypothesis Hread : ∀ st t l p, R st t l → bytes_at buf p (body (MStruct st l)) →
  ∃ ud, sproto_decode sp buf (decode L sp buf room (-1)) st p (Z.of_nat (length (body (MStruct st l)))) (DecodeUd None [] VNil [])
    = Ok (Some (Z.of_nat (length (body (MStruct st l))), ud)) ∧ du_result ud = map entry_of l.
Let cb := decode L sp buf (S room) (-1).

(** What [sproto_decode] hands to the callback for a value. *)
Definition passes (args : sproto_arg) (value : dvalue) (m : mval) : Prop :=
  match m with
  | MInt z | MReal z => value = DNum (wrap 64 z)
  | MBool b => value = DNum (if b then 1 else 0)
  | _ => ∃ p, value = DMem p ∧ bytes_at buf p (body m) ∧ a_length args = Z.of_nat (length (body m))
  end.

Record args_of (f : field) (args : sproto_arg) : Prop := {
  ao_name : a_tagname args = f_name f; ao_tag : a_tagid args = f_tag f; ao_type : a_type args = elem_type f;
  ao_sub : a_subtype args = f_st f; ao_extra : a_extra args = f_extra f; ao_key : a_mainindex args < 0;
  ao_kv : a_kv args = None }.

Lemma decode_item f v m args value ud ud' : elem_rep sp R f v m → args_of f args → passes args value m →
  new_array args ud = (false, ud') → cb args value ud = store (-1) args (lua_of m) ud'.
Proof.
  intros He [_ _ Ht Hsub Hex Hk Hkv] Hp Hnew. unfold cb. cbn [decode]. rewrite Hnew, Ht.
  inversion He as [z E Ex Hz|u E Hu|b E|s E Hb|k st t l E Hk' Hst HR]; subst m; rewrite E; cbn [passes] in Hp.
  - change (negb (SPROTO_TINTEGER =? SPROTO_TSTRUCT)) with true. cbn iota. unfold decode_plain. rewrite Hp, Ht, E, Hex, Ex.
    change (SPROTO_TINTEGER =? SPROTO_TINTEGER) with true. change (negb (0 =? 0)) with false. cbn [mbind res_bind].
    rewrite swrap_wrap, swrap_small by (change (64 - 1) with 63; lia). done.
  - change (negb (SPROTO_TDOUBLE =? SPROTO_TSTRUCT)) with true. cbn iota. unfold decode_plain. rewrite Hp, Ht, E.
    change (SPROTO_TDOUBLE =? SPROTO_TINTEGER) with false. change (SPROTO_TDOUBLE =? SPROTO_TDOUBLE) with true. cbn [mbind res_bind].
    rewrite wrap_small by lia. done.
  - change (negb (SPROTO_TBOOLEAN =? SPROTO_TSTRUCT)) with true. cbn iota. unfold decode_plain. rewrite Hp, Ht, E. by destruct b.
  - destruct Hp as (p & -> & Hat & Hl). change (negb (SPROTO_TSTRING =? SPROTO_TSTRUCT)) with true. cbn iota. unfold decode_plain.
    rewrite Ht, E, Hl. change (SPROTO_TSTRING =? SPROTO_TSTRING) with true. cbn iota. cbn [body] in *.
    destruct (Z.ltb_spec (Z.of_nat (length s)) 0); [lia|]. rewrite (bytes_at_load _ _ _ Hat). done.
  - destruct Hp as (p & -> & Hat & Hl). change (negb (SPROTO_TSTRUCT =? SPROTO_TSTRUCT)) with false. cbn iota.
    rewrite Hsub, Hk'. cbn [of_option mbind res_bind]. rewrite Hst. cbn [of_option mbind res_bind].
    assert (0 <=? a_mainindex args = false) as -> by lia. rewrite Hkv, Hl.
    destruct (Hread _ _ _ _ HR Hat) as (sub & -> & Hres). cbn [mbind res_bind]. rewrite Z.eqb_refl. change (negb true) with false. cbn iota.
    by rewrite Hres, <- (lua_struct st).
Qed.

(** ** The result *)

(** A name that the table does not have yet. *)
Definition fresh (name : list Z) (base : list (lval * lval)) : Prop := Forall (λ x, raw_eq x.1 (VStr name) = false) base.

(** The arrays so far have smaller tags. *)
Definition dbefore (tag : Z) (ud : decode_ud) : Prop := ∀ t, du_array_tag ud = Some t → t < tag.

Lemma store_field f m args ud base : args_of f args → 0 ≤ f_tag f → a_index args = 0 → fresh (f_name f) base → du_result ud = base →
  ∃ ud', store (-1) args (lua_of m) ud = Ok (0, ud') ∧ du_result ud' = base ++ [entry_of (f, m)] ∧ du_array_tag ud' = du_array_tag ud.
Proof.
  intros [Hn Ht _ _ _ _ _] Htag Hi Hf Hb. unfold store. rewrite Hi, Hn, Ht. assert (-1 =? f_tag f = false) as -> by lia. cbn.
  eexists. split; [done|]. rewrite Hb, tab_set_fresh by (done || apply lua_not_nil). done.
Qed.

(** The array of the field with the values [vs] so far, [base] before it. *)
Definition opened (f : field) (base : list (lval * lval)) (vs : list lval) (ud : decode_ud) : Prop :=
  du_array_tag ud = Some (f_tag f) ∧ du_result ud = base ++ [(VStr (f_name f), VTab (keyed 1 vs))].

(** Before the first value there is none. *)
Definition filling (f : field) (base : list (lval * lval)) (vs : list lval) (ud : decode_ud) : Prop :=
  match vs with [] => dbefore (f_tag f) ud ∧ du_result ud = base | _ => opened f base vs ud end.

Lemma new_array_item f args base vs ud : args_of f args → 0 < a_index args → fresh (f_name f) base → filling f base vs ud →
  ∃ ud', new_array args ud = (false, ud') ∧ opened f base vs ud'.
Proof.
  intros [Hn Ht _ _ _ _ _] Hi Hf H. unfold new_array. assert (a_index args =? 0 = false) as -> by lia. cbn [orb]. rewrite Ht.
  destruct vs as [|v vs]; cbn [filling] in H.
  - destruct H as [Hb Hres]. rewrite bool_decide_eq_false_2 by (intros E; specialize (Hb _ E); lia).
    assert (a_index args <? 0 = false) as -> by lia. eexists. split; [done|]. split; [done|]. unfold set_array. cbn.
    by rewrite Hn, Hres, tab_set_fresh.
  - rewrite bool_decide_eq_true_2 by apply H. by exists ud.
Qed.

Lemma store_item f args base vs ud m : args_of f args → a_index args = Z.of_nat (length vs) + 1 → fresh (f_name f) base →
  opened f base vs ud → ∃ ud', store (-1) args (lua_of m) ud = Ok (0, ud') ∧ opened f base (vs ++ [lua_of m]) ud'.
Proof.
  intros [Hn Ht _ _ _ _ _] Hi Hf [Htag Hres]. unfold store, set_array, array_pairs. rewrite Hi, Hn, Hres.
  assert (0 <? Z.of_nat (length vs) + 1 = true) as -> by lia. rewrite tab_get_app by (done || apply raw_eq_str).
  rewrite (tab_set_fresh (keyed 1 vs)) by (apply lua_not_nil || (apply keyed_below; lia)).
  rewrite tab_set_last by (done || apply raw_eq_str). eexists. split; [done|]. split; [done|]. cbn. rewrite keyed_app.
  by replace (1 + Z.of_nat (length vs)) with (Z.of_nat (length vs) + 1) by lia.
Qed.

Lemma decode_element f v m args value base vs ud : elem_rep sp R f v m → args_of f args → passes args value m →
  a_index args = Z.of_nat (length vs) + 1 → fresh (f_name f) base → filling f base vs ud →
  ∃ ud', cb args value ud = Ok (0, ud') ∧ filling f base (vs ++ [lua_of m]) ud'.
Proof.
  intros He Ha Hp Hi Hf H. destruct (new_array_item f args base vs ud Ha ltac:(lia) Hf H) as (ud1 & Hnew & Ho).
  rewrite (decode_item f v m args value ud ud1) by done. destruct (store_item f args base vs ud1 m Ha Hi Hf Ho) as (ud2 & -> & Ho2).
  exists ud2. split; [done|]. by destruct vs.
Qed.

(** ** Arrays *)

Lemma args_of_with f args i n : args_of f args → args_of f (with_index i (with_length n args)).
Proof. by intros []. Qed.

Definition reps (f : field) (ms : list mval) : Prop := Forall (λ m, ∃ v, elem_rep sp R f v m) ms.

Lemma decode_numbers_spec f base args read ms : args_of f args → fresh (f_name f) base → reps f ms → ∀ vs ud,
  filling f base vs ud →
  (∀ j m, ms !! j = Some m → ∃ w, read (Z.of_nat (length vs) + Z.of_nat j) = Ok w ∧ ∀ args, passes args (DNum w) m) →
  ∃ ud', decode_numbers cb (length ms) read args (Z.of_nat (length vs)) ud = Ok ud' ∧ filling f base (vs ++ map lua_of ms) ud'.
Proof.
  intros Ha Hf. induction 1 as [|m ms [v Hv] Hms IH]; intros vs ud H Hread'; cbn [length decode_numbers map].
  { rewrite app_nil_r. by exists ud. }
  destruct (Hread' 0%nat m eq_refl) as (w & Hw & Hp). rewrite Z.add_0_r in Hw. rewrite Hw. cbn [mbind res_bind].
  destruct (decode_element f v m (with_index (Z.of_nat (length vs) + 1) (with_length 8 args)) (DNum w) base vs ud) as (ud1 & -> & H1);
    [done|by apply args_of_with|done..|]. cbn [mbind res_bind].
  destruct (IH (vs ++ [lua_of m]) ud1 H1) as (ud2 & E & H2).
  { intros j x Hj. destruct (Hread' (S j) x Hj) as (w' & Hw' & Hp'). exists w'. split; [|done]. rewrite <- Hw'. f_equal.
    rewrite length_app. cbn [length]. lia. }
  rewrite length_app in E. cbn [length] in E. replace (Z.of_nat (length vs) + 1) with (Z.of_nat (length vs + 1)) by lia.
  exists ud2. split; [done|]. by rewrite <- app_assoc in H2.
Qed.

Lemma bytes_at_ints w ms p j m : bytes_at buf p (ints w ms) → ms !! j = Some m →
  bytes_at buf (p + Z.of_nat j * Z.of_nat w) (le_bytes w (bits m)).
Proof.
  intros H Hj. rewrite <- (take_drop_middle _ _ _ Hj) in H. rewrite ints_app in H. apply bytes_at_app in H as [_ H].
  rewrite length_ints, length_take in H. apply lookup_lt_Some in Hj. change (m :: drop (S j) ms) with ([m] ++ drop (S j) ms) in H.
  rewrite ints_app, ints_one in H. apply bytes_at_app in H as [H _].
  by replace (p + Z.of_nat j * Z.of_nat w) with (p + Z.of_nat (w * (j `min` length ms))) by lia.
Qed.

Lemma decode_objects_spec f base args ms : args_of f args → fresh (f_name f) base → reps f ms → Forall is_object ms → ∀ vs ud p fuel,
  filling f base vs ud → bytes_at buf p (concat (map (λ m, sized (body m)) ms)) →
  (length (concat (map (λ m, sized (body m)) ms)) < fuel)%nat →
  ∃ ud', decode_object_loop buf cb fuel args p (Z.of_nat (length (concat (map (λ m, sized (body m)) ms)))) (Z.of_nat (length vs) + 1) ud
    = Ok (Some ud') ∧ filling f base (vs ++ map lua_of ms) ud'.
Proof.
  intros Ha Hf. induction 1 as [|m ms [v Hv] Hms IH]; intros Ho vs ud p fuel H Hat Hfuel; (destruct fuel as [|fuel]; [cbn in *; lia|]);
    cbn [decode_object_loop].
  { cbn. rewrite app_nil_r. by exists ud. }
  apply Forall_cons in Ho as [Hom Ho]. cbn [map concat] in *. pose proof (bytes_at_length _ _ _ Hat) as Hlen.
  rewrite length_app, length_sized in Hlen, Hfuel |- *. apply bytes_at_app in Hat as [Hat1 Hat2].
  destruct (read_sized _ _ _ Hat1 ltac:(lia)) as [Hw Hbody]. rewrite length_sized in Hat2. unfold SIZEOF_LENGTH.
  match goal with |- context [Z.of_nat (4 + length (body m) + ?n)] => set (rest := n) in * end.
  destruct (Z.leb_spec (Z.of_nat (4 + length (body m) + rest)) 0); [lia|].
  destruct (Z.ltb_spec (Z.of_nat (4 + length (body m) + rest)) 4); [lia|]. rewrite Hw. cbn [mbind res_bind].
  rewrite wrap_small by lia. destruct (Z.ltb_spec (Z.of_nat (4 + length (body m) + rest) - 4) (Z.of_nat (length (body m)))); [lia|].
  rewrite swrap_small by (change (32 - 1) with 31; lia).
  destruct (decode_element f v m (with_index (Z.of_nat (length vs) + 1) (with_length (Z.of_nat (length (body m))) args)) (DMem (p + 4)) base vs ud)
    as (ud1 & -> & Hf1); [done|by apply args_of_with|destruct m; try done; by exists (p + 4)|done..|].
  cbn [mbind res_bind]. change (negb (0 =? 0)) with false. cbn iota.
  destruct (IH Ho (vs ++ [lua_of m]) ud1 (p + 4 + Z.of_nat (length (body m))) fuel Hf1) as (ud2 & E & Hf2); [|lia|].
  { by replace (p + 4 + Z.of_nat (length (body m))) with (p + Z.of_nat (4 + length (body m))) by lia. }
  fold rest in E. rewrite length_app in E. cbn [length] in E. exists ud2. rewrite <- app_assoc in Hf2. split; [|done].
  rewrite <- E. f_equal; lia.
Qed.

Lemma decode_empty_spec f base args ud : args_of f args → fresh (f_name f) base → filling f base [] ud →
  ∃ ud', decode_empty_array cb args ud = Ok (Some ud') ∧ opened f base [] ud'.
Proof.
  intros [Hn Ht _ _ _ _ _] Hf [Hb Hres]. unfold decode_empty_array, cb. cbn [decode]. unfold new_array.
  cbn [a_index a_tagid with_index with_length]. change (-1 =? 0) with false. cbn [orb]. rewrite Ht.
  rewrite bool_decide_eq_false_2 by (intros E; specialize (Hb _ E); lia). change (-1 <? 0) with true. cbn [mbind res_bind].
  change (negb (0 =? 0)) with false. cbn iota. eexists. split; [done|]. split; [done|]. unfold set_array. cbn. by rewrite Hn, Hres, tab_set_fresh.
Qed.

Lemma filling_opened f base ms ud : ms ≠ [] → filling f base (map lua_of ms) ud → opened f base (map lua_of ms) ud.
Proof. by destruct ms. Qed.

Lemma decode_ints_spec f base args p w ms ud : args_of f args → fresh (f_name f) base → reps f ms → Forall is_number ms →
  w = width ms → bytes_at buf p (ints w ms) → filling f base [] ud →
  ∃ ud', decode_numbers cb (length ms) (if Nat.eqb w 4 then read_int32 buf p else read_int64 buf p) args 0 ud = Ok ud' ∧
    filling f base (map lua_of ms) ud'.
Proof.
  intros Ha Hf Hr Hn Hw Hat H. destruct (decode_numbers_spec f base args (if Nat.eqb w 4 then read_int32 buf p else read_int64 buf p) ms Ha Hf Hr [] ud H)
    as (ud' & E & H'); [|by exists ud'].
  intros j m Hj. pose proof (bytes_at_ints _ _ _ _ _ Hat Hj) as Hb. cbn [length]. rewrite Z.add_0_l.
  assert (is_number m) as Hm by (by eapply Forall_lookup_1 in Hj).
  exists (wrap 64 (bits m)). split; [|by destruct m].
  destruct (width_cases ms) as [Hc|Hc]; rewrite Hc in *; subst w; cbn [Nat.eqb].
  - change (Z.of_nat 4) with SIZEOF_INT32 in Hb. unfold read_int32. rewrite (read_dword _ _ _ Hb). cbn [mbind res_bind]. f_equal. apply expand64_spec, short_bits.
    unfold width in Hc. destruct (forallb short ms) eqn:E; [|done]. rewrite forallb_forall in E. apply E, list_elem_of_In.
    by eapply list_elem_of_lookup_2.
  - change (Z.of_nat 8) with SIZEOF_INT64 in Hb. by apply read_int64_spec.
Qed.

(** The bytes of an array of booleans. *)
Lemma bool_bytes l : Forall is_bool l → length (concat (map body l)) = length l ∧
  ∀ j x, l !! j = Some x → ∃ b, x = MBool b ∧ concat (map body l) !! j = Some (if b then 1 else 0).
Proof.
  induction 1 as [|x l Hx _ [IH1 IH2]]; [split; [done|by intros []]|]. destruct x as [| |b| | |]; try done. split; [cbn; by rewrite IH1|].
  intros [|j] x Hj; cbn in Hj; [injection Hj as <-; by exists b|by apply IH2].
Qed.

Lemma decode_bools_spec f base args p ms ud : args_of f args → fresh (f_name f) base → reps f ms → Forall is_bool ms →
  bytes_at buf p (concat (map body ms)) → filling f base [] ud →
  ∃ ud', decode_numbers cb (length ms) (read_byte buf p) args 0 ud = Ok ud' ∧ filling f base (map lua_of ms) ud'.
Proof.
  intros Ha Hf Hr He Hb H. destruct (bool_bytes ms He) as [_ Hat'].
  destruct (decode_numbers_spec f base args (read_byte buf p) ms Ha Hf Hr [] ud H) as (ud' & E & H'); [|by exists ud'].
  intros j x Hj. destruct (Hat' j x Hj) as (b & -> & Hb'). exists (if b then 1 else 0). split; [|by intros ?]. cbn [length]. rewrite Z.add_0_l.
  rewrite <- (take_drop_middle _ _ _ Hb') in Hb. apply bytes_at_app in Hb as [_ Hb]. rewrite length_take in Hb.
  apply lookup_lt_Some in Hb'. rewrite Nat.min_l in Hb by lia. change ((if b then 1 else 0) :: ?x) with ([if b then 1 else 0] ++ x) in Hb.
  apply bytes_at_app in Hb as [Hb _]. apply bytes_at_load in Hb. unfold read_byte. cbn [length] in Hb.
  change (Z.of_nat 1) with 1 in Hb. rewrite Hb. cbn [mbind res_bind]. by destruct b.
Qed.

(** An array of numbers behind the byte of their width. *)
Lemma decode_array_numbers f base args p ms ud : args_of f args → fresh (f_name f) base → reps f ms → ms ≠ [] → Forall is_number ms →
  (elem_type f =? SPROTO_TDOUBLE) || (elem_type f =? SPROTO_TINTEGER) = true → filling f base [] ud →
  bytes_at buf p (sized (Z.of_nat (width ms) :: ints (width ms) ms)) →
  ∃ ud', decode_array buf cb args p ud = Ok (Some ud') ∧ filling f base (map lua_of ms) ud'.
Proof.
  intros Ha Hf Hr Hne He E1 H Hat. pose proof (bytes_at_length _ _ _ Hat) as Hlen. rewrite length_sized in Hlen.
  destruct (read_sized _ _ _ Hat ltac:(lia)) as [Hw Hb]. unfold decode_array. rewrite Hw, (ao_type _ _ Ha), E1. cbn [mbind res_bind].
  cbn [length] in *. rewrite length_ints in *. assert (length ms ≠ 0%nat) by (by destruct ms).
  change (Z.of_nat (width ms) :: ints (width ms) ms) with ([Z.of_nat (width ms)] ++ ints (width ms) ms) in Hb.
  apply bytes_at_app in Hb as [Hb1 Hb2]. cbn [length] in Hb2. change (Z.of_nat 1) with 1 in Hb2.
  destruct (decode_ints_spec f base args (p + 4 + 1) (width ms) ms ud Ha Hf Hr He eq_refl Hb2 H) as (ud' & E & H'). exists ud'. split; [|done].
  destruct (Z.eqb_spec (Z.of_nat (S (width ms * length ms))) 0); [lia|].
  destruct (Z.eqb_spec (Z.of_nat (S (width ms * length ms)) - 1) 0) as [Ez|Ez]; [destruct (width_cases ms) as [Ew|Ew]; rewrite Ew in Ez; lia|].
  apply bytes_at_load in Hb1. cbn [length] in Hb1. change (Z.of_nat 1) with 1 in Hb1.
  unfold read_byte, SIZEOF_LENGTH. rewrite Z.add_0_r, Hb1. cbn [mbind res_bind].
  destruct (width_cases ms) as [Ew|Ew]; rewrite Ew in *; cbn [Nat.eqb] in E.
  - change (le_val [Z.of_nat 4]) with 4. change (4 =? SIZEOF_INT32) with true. cbn iota.
    replace (Z.of_nat (S (4 * length ms)) - 1) with (Z.of_nat (length ms) * 4) by lia. unfold SIZEOF_INT32 at 1 2.
    rewrite Z.mod_mul, Z.div_mul, Nat2Z.id by lia. change (negb (0 =? 0)) with false. cbn iota. by rewrite E.
  - change (le_val [Z.of_nat 8]) with 8. change (8 =? SIZEOF_INT32) with false. change (8 =? SIZEOF_INT64) with true. cbn iota.
    replace (Z.of_nat (S (8 * length ms)) - 1) with (Z.of_nat (length ms) * 8) by lia. unfold SIZEOF_INT64 at 1 2.
    rewrite Z.mod_mul, Z.div_mul, Nat2Z.id by lia. change (negb (0 =? 0)) with false. cbn iota. by rewrite E.
Qed.

Lemma decode_array_spec f base args p ms ud : args_of f args → type_code (elem_type f) → fresh (f_name f) base → reps f ms →
  elements (elem_type f) ms → filling f base [] ud → bytes_at buf p (sized (body (MArray ms))) →
  ∃ ud', decode_array buf cb args p ud = Ok (Some ud') ∧ opened f base (map lua_of ms) ud'.
Proof.
  intros Ha Htc Hf Hr He H Hat. pose proof (bytes_at_length _ _ _ Hat) as Hlen. rewrite length_sized in Hlen.
  destruct (read_sized _ _ _ Hat ltac:(lia)) as [Hw Hb].
  destruct ms as [|m ms]; [unfold decode_array; rewrite Hw; by apply decode_empty_spec|].
  set (all := m :: ms) in *. assert (all ≠ []) as Hne by done. unfold elements in He.
  destruct ((elem_type f =? SPROTO_TDOUBLE) || (elem_type f =? SPROTO_TINTEGER)) eqn:E1; [|destruct (elem_type f =? SPROTO_TBOOLEAN) eqn:E2].
  - assert (body (MArray all) = Z.of_nat (width all) :: ints (width all) all) as Eb by (apply Forall_cons in He as [He _]; by destruct m).
    rewrite Eb in Hat. destruct (decode_array_numbers f base args p all ud) as (ud' & E & H'); [done..|].
    exists ud'. split; [done|]. by apply filling_opened.
  - assert (body (MArray all) = concat (map body all)) as Eb by (apply Forall_cons in He as [He _]; by destruct m).
    unfold decode_array. rewrite Hw, Eb in *. cbn [mbind res_bind]. rewrite (ao_type _ _ Ha), E1, E2. rewrite (proj1 (bool_bytes all He)) in *.
    destruct (Z.eqb_spec (Z.of_nat (length all)) 0); [done|]. rewrite Nat2Z.id. unfold SIZEOF_LENGTH.
    destruct (decode_bools_spec f base args (p + 4) all ud Ha Hf Hr He Hb H) as (ud' & -> & H'). cbn [mbind res_bind].
    exists ud'. split; [done|]. by apply filling_opened.
  - assert (body (MArray all) = concat (map (λ m, sized (body m)) all)) as Eb by (apply Forall_cons in He as [He _]; by destruct m).
    unfold decode_array. rewrite Hw, Eb in *. cbn [mbind res_bind]. rewrite (ao_type _ _ Ha), E1, E2.
    destruct (Z.eqb_spec (Z.of_nat (length (concat (map (λ m, sized (body m)) all)))) 0) as [E0|E0].
    { cbn [all map concat] in E0. rewrite length_app, length_sized in E0. lia. }
    assert ((elem_type f =? SPROTO_TSTRING) || (elem_type f =? SPROTO_TSTRUCT) = true) as ->
      by (unfold type_code, SPROTO_TDOUBLE, SPROTO_TINTEGER, SPROTO_TBOOLEAN, SPROTO_TSTRUCT, SPROTO_TSTRING in *; lia).
    unfold decode_array_object. rewrite swrap_small by (change (32 - 1) with 31; lia). unfold SIZEOF_LENGTH.
    destruct (decode_objects_spec f base args all Ha Hf Hr He [] ud (p + 4) (S (length buf)) H Hb) as (ud' & E & H'); [lia|].
    cbn [length] in E. change (Z.of_nat 0 + 1) with 1 in E. exists ud'. split; [done|]. by apply filling_opened.
Qed.

(** ** Fields *)

Definition added (f : field) (m : mval) (base : list (lval * lval)) (r : res (option decode_ud)) : Prop :=
  ∃ ud', r = Ok (Some ud') ∧ du_result ud' = base ++ [entry_of (f, m)] ∧ dbefore (f_tag f + 1) ud'.

Lemma args_of_plain f n : is_array f = false → elem_type f = f_type f → f_key f < 0 →
  args_of f (with_length n (field_arg f (f_type f) None)).
Proof. by split. Qed.

Lemma decode_plain_field f v m n value base ud : 0 ≤ f_tag f → is_array f = false → elem_type f = f_type f → f_key f < 0 →
  elem_rep sp R f v m → passes (with_length n (field_arg f (f_type f) None)) value m → fresh (f_name f) base →
  dbefore (f_tag f) ud → du_result ud = base →
  ∃ ud', call cb (field_arg f (f_type f) None) n value ud = Ok (0, ud') ∧ du_result ud' = base ++ [entry_of (f, m)] ∧
    dbefore (f_tag f + 1) ud'.
Proof.
  intros Ht Ha Et Hk He Hp Hf Hb Hres. unfold call. pose proof (args_of_plain f n Ha Et Hk) as Hargs.
  rewrite (decode_item f v m _ value ud ud) by done.
  destruct (store_field f m _ ud base Hargs Ht eq_refl Hf Hres) as (ud' & E & Hr & Htag).
  exists ud'. split; [done|]. split; [done|]. intros t Ht'. rewrite Htag in Ht'. specialize (Hb t Ht'). lia.
Qed.

Lemma decode_value_spec f v m x base ud : field_ok (Z.of_nat (length (s_type sp))) f → field_rep sp R f v m → inline m = Some x →
  fresh (f_name f) base → dbefore (f_tag f) ud → du_result ud = base → added f m base (decode_value cb f x ud).
Proof.
  intros Hok Hr Hx Hf Hb Hres. destruct Hr as [v m Ha Hk He|ps ms _ _ _ _]; [|done]. destruct (type_plain sp f Hok Ha) as [Et _].
  assert (passes (with_length 8 (field_arg f (f_type f) None)) (DNum x) m ∧ (f_type f = SPROTO_TINTEGER ∨ f_type f = SPROTO_TBOOLEAN)) as [Hp Hty].
  { inversion He as [z E|u E|b E|s E|k st t l E]; subst; cbn in Hx; try done; rewrite Et in E; rewrite E.
    - destruct ((0 <=? z) && (z <? 0x7fff)) eqn:Ez; [|done]. injection Hx as <-. split; [|by left]. cbn. by rewrite wrap_small by lia.
    - injection Hx as <-. split; [done|by right]. }
  destruct (decode_plain_field f v m 8 (DNum x) base ud) as (ud' & E & Hr & Hb'); [destruct Hok; lia|done..|].
  exists ud'. split; [|done]. unfold decode_value. rewrite E. destruct Hty as [-> | ->]; done.
Qed.

Lemma decode_data_spec f v m p base ud : field_ok (Z.of_nat (length (s_type sp))) f → field_rep sp R f v m → inline m = None →
  bytes_at buf p (sized (body m)) → fresh (f_name f) base → dbefore (f_tag f) ud → du_result ud = base →
  added f m base (decode_data sp buf cb f p ud).
Proof.
  intros Hok Hr Hx Hat Hf Hb Hres. unfold decode_data. pose proof (bytes_at_length _ _ _ Hat) as Hlen. rewrite length_sized in Hlen.
  destruct (read_sized _ _ _ Hat ltac:(lia)) as [Hw Hbody].
  destruct Hr as [v m Ha Hk He|ps ms Ha Hk Hmap Hl]; rewrite Ha.
  - destruct (type_plain sp f Hok Ha) as [Et Htc]. assert (0 ≤ f_tag f) by (destruct Hok; lia).
    assert (∀ n value, passes (with_length n (field_arg f (f_type f) None)) value m →
      ∃ ud', call cb (field_arg f (f_type f) None) n value ud = Ok (0, ud') ∧ du_result ud' = base ++ [entry_of (f, m)] ∧ dbefore (f_tag f + 1) ud')
      as Hcall by (intros n value Hp; by apply (decode_plain_field f v)).
    rewrite Hw. inversion He as [z E Ex Hz|u E Hu|b E|s E|k st t l E]; subst m; try done; rewrite Et in E; rewrite E in *; cbn [mbind res_bind].
    + change ((SPROTO_TINTEGER =? SPROTO_TDOUBLE) || (SPROTO_TINTEGER =? SPROTO_TINTEGER)) with true. cbn iota. cbn [body bits] in *.
      destruct (Hcall 8 (DNum (wrap 64 z)) eq_refl) as (ud' & E' & H'). exists ud'. split; [|done]. rewrite length_le_bytes.
      unfold width in *. cbn [forallb short] in *. rewrite andb_true_r in *. destruct (int32 z) eqn:Ez.
      * change (Z.of_nat 4 =? SIZEOF_INT32) with true. cbn iota. unfold SIZEOF_LENGTH. rewrite (read_dword _ _ _ Hbody). cbn [mbind res_bind].
        rewrite expand64_spec by done. rewrite E'. done.
      * change (Z.of_nat 8 =? SIZEOF_INT32) with false. change (negb (Z.of_nat 8 =? SIZEOF_INT64)) with false. cbn iota.
        rewrite (read_int64_spec _ _ 0 z) by (by replace (p + SIZEOF_LENGTH + 0 * SIZEOF_INT64) with (p + 4) by (unfold SIZEOF_LENGTH; lia)).
        cbn [mbind res_bind]. rewrite E'. done.
    + change ((SPROTO_TDOUBLE =? SPROTO_TDOUBLE) || (SPROTO_TDOUBLE =? SPROTO_TINTEGER)) with true. cbn iota. cbn [body bits] in *.
      destruct (Hcall 8 (DNum (wrap 64 u)) eq_refl) as (ud' & E' & H'). exists ud'. split; [|done]. rewrite length_le_bytes.
      change (width [MReal u]) with 8%nat in *. change (Z.of_nat 8 =? SIZEOF_INT32) with false. change (negb (Z.of_nat 8 =? SIZEOF_INT64)) with false. cbn iota.
      rewrite (read_int64_spec _ _ 0 u) by (by replace (p + SIZEOF_LENGTH + 0 * SIZEOF_INT64) with (p + 4) by (unfold SIZEOF_LENGTH; lia)).
      cbn [mbind res_bind]. rewrite E'. done.
    + change ((SPROTO_TSTRING =? SPROTO_TDOUBLE) || (SPROTO_TSTRING =? SPROTO_TINTEGER)) with false.
      change ((SPROTO_TSTRING =? SPROTO_TSTRING) || (SPROTO_TSTRING =? SPROTO_TSTRUCT)) with true. cbn iota. cbn [body] in *. rewrite swrap_small by (change (32 - 1) with 31; lia).
      destruct (Hcall (Z.of_nat (length s)) (DMem (p + SIZEOF_LENGTH))) as (ud' & E' & H'); [by eexists|]. exists ud'. split; [|done].
      by rewrite E'.
    + change ((SPROTO_TSTRUCT =? SPROTO_TDOUBLE) || (SPROTO_TSTRUCT =? SPROTO_TINTEGER)) with false.
      change ((SPROTO_TSTRUCT =? SPROTO_TSTRING) || (SPROTO_TSTRUCT =? SPROTO_TSTRUCT)) with true. cbn iota. rewrite swrap_small by (change (32 - 1) with 31; lia).
      destruct (Hcall (Z.of_nat (length (body (MStruct st l)))) (DMem (p + SIZEOF_LENGTH))) as (ud' & E' & H'); [by eexists|]. exists ud'. split; [|done].
      by rewrite E'.
  - assert (map_names sp f = Ok None) as -> by (unfold map_names; by assert (0 <? f_map f = false) as -> by lia). cbn [mbind res_bind].
    destruct (decode_array_spec f base (field_arg f (elem_type f) None) p ms ud) as (ud' & -> & Htag & Hres'); [done|by apply (type_array sp)|done| | |done|done|].
    + apply Forall_forall. intros m Hm. apply list_elem_of_lookup in Hm as [i Hi]. eexists. by eapply list_rep_at.
    + by eapply elements_of; [apply (type_array sp)|].
    + exists ud'. split; [done|]. split; [by rewrite Hres'|]. intros t Ht. rewrite Htag in Ht. injection Ht as <-. lia.
Qed.

(** ** The table of a message *)

Lemma bytes_at_word p w ws : bytes_at buf p (words (w :: ws)) → 0 ≤ w < 65536 → toword buf p = Ok w ∧ bytes_at buf (p + SIZEOF_FIELD) (words ws).
Proof.
  intros H Hw. change (w :: ws) with ([w] ++ ws) in H. rewrite words_app, words_one in H. apply bytes_at_app in H as [H1 H2].
  split; [by apply read_word|]. rewrite length_le_bytes in H2. done.
Qed.

Lemma odd_word w : 0 ≤ w → Z.land (w * 2 + 1) 1 =? 1 = true ∧ (w * 2 + 1) / 2 = w.
Proof.
  intros Hw. rewrite (land_low _ 1 1) by done. change (2 ^ 1) with 2. split.
  - rewrite Z.add_comm, Z.mod_add by lia. done.
  - rewrite Z.div_add_l by lia. change (1 / 2) with 0. lia.
Qed.

Lemma even_word w : Z.land (w * 2) 1 =? 1 = false ∧ w * 2 / 2 = w.
Proof. rewrite (land_low _ 1 1) by done. change (2 ^ 1) with 2. rewrite Z.mod_mul, Z.div_mul by lia. done. Qed.

(** The step over the tags that are absent. *)
Lemma decode_gap st k stream ds size last tag ws ud : -1 ≤ last < tag → tag < 0x8000 →
  bytes_at buf stream (words ((if last + 1 <? tag then [(tag - last - 2) * 2 + 1] else []) ++ ws)) → (length ws = k)%nat →
  ∃ stream', bytes_at buf stream' (words ws) ∧
    decode_loop sp buf cb (length (if last + 1 <? tag then [(tag - last - 2) * 2 + 1] else []) + k) st stream ds size last ud =
    decode_loop sp buf cb k st stream' ds size (tag - 1) ud.
Proof.
  intros Hl Ht H Hk. destruct (Z.ltb_spec (last + 1) tag).
  - cbn [app] in H. apply bytes_at_word in H as [Hw Hat]; [|lia]. exists (stream + SIZEOF_FIELD). split; [done|].
    cbn [length Nat.add decode_loop]. rewrite Hw. cbn [mbind res_bind]. destruct (odd_word (tag - last - 2) ltac:(lia)) as [-> ->].
    by replace (last + 1 + (tag - last - 2)) with (tag - 1) by lia.
  - exists stream. split; [done|]. cbn [length Nat.add]. by replace (tag - 1) with last by lia.
Qed.

(** The step of a field. *)
Lemma decode_record st k stream ds size ud f v m base ws : field_ok (Z.of_nat (length (s_type sp))) f → field_rep sp R f v m →
  findtag st (f_tag f) = Some f → fresh (f_name f) base → dbefore (f_tag f) ud → du_result ud = base →
  bytes_at buf stream (words (match inline m with Some x => (x + 1) * 2 | None => 0 end :: ws)) →
  bytes_at buf ds (payload (wire_field (f, m))) → Z.of_nat (length (payload (wire_field (f, m)))) ≤ size < 2 ^ 31 →
  ∃ ud', du_result ud' = base ++ [entry_of (f, m)] ∧ dbefore (f_tag f + 1) ud' ∧
    decode_loop sp buf cb (S k) st stream ds size (f_tag f - 1) ud =
    decode_loop sp buf cb k st (stream + SIZEOF_FIELD) (ds + Z.of_nat (length (payload (wire_field (f, m)))))
      (size - Z.of_nat (length (payload (wire_field (f, m))))) (f_tag f) ud'.
Proof.
  intros Hok Hr Hft Hf Hb Hres Hw Hat Hs. unfold payload in *. cbn [wire_field w_inline w_data fst snd] in *. cbn [decode_loop].
  replace (f_tag f - 1 + 1) with (f_tag f) by lia. destruct (inline m) as [x|] eqn:Hx.
  - assert (0 ≤ x < 0x7fff) as Hxr.
    { destruct m as [z|u|b|s|st' l|ms]; cbn in Hx; try done; [|injection Hx as <-; destruct b; lia].
      destruct ((0 <=? z) && (z <? 0x7fff)) eqn:Ez; [|done]. injection Hx as <-. lia. }
    apply bytes_at_word in Hw as [Hw _]; [|lia]. rewrite Hw. cbn [mbind res_bind]. destruct (even_word (x + 1)) as [-> ->].
    replace (x + 1 - 1) with x by lia. assert (x <? 0 = false) as -> by lia. cbn [mbind res_bind]. rewrite Hft.
    destruct (decode_value_spec f v m x base ud Hok Hr Hx Hf Hb Hres) as (ud' & -> & Hres' & Hb'). exists ud'. done.
  - apply bytes_at_word in Hw as [Hw _]; [|lia]. rewrite Hw. cbn [mbind res_bind]. change (Z.land 0 1 =? 1) with false. cbn iota.
    change (0 / 2 - 1) with (-1). change (-1 <? 0) with true. cbn iota. rewrite length_sized in Hs |- *. unfold data_size, SIZEOF_LENGTH.
    destruct (Z.ltb_spec size 4); [lia|]. destruct (read_sized _ _ _ Hat ltac:(lia)) as [-> _]. cbn [mbind res_bind]. rewrite !wrap_small by lia.
    destruct (Z.ltb_spec size (Z.of_nat (length (body m)) + 4)); [lia|]. cbn [mbind res_bind]. rewrite Hft.
    destruct (decode_data_spec f v m ds base ud Hok Hr Hx Hat Hf Hb Hres) as (ud' & -> & Hres' & Hb'). exists ud'. cbn [mbind res_bind].
    by replace (Z.of_nat (length (body m)) + 4) with (Z.of_nat (4 + length (body m))) by lia.
Qed.

Lemma fields_loop_read pairs st fs l : type_ok (Z.of_nat (length (s_type sp))) st → fields_rep sp R pairs fs l →
  ∀ stream ds size last lst ud base, Forall (λ f, f ∈ t_f st) fs → -1 ≤ last ≤ lst → ascending lst fs → dbefore (lst + 1) ud →
  du_result ud = base → Forall (λ f, fresh (f_name f) base) fs → NoDup (map f_name fs) →
  let ws := records last (map wire_field l) in
  let ps := concat (map payload (map wire_field l)) in
  bytes_at buf stream (words ws) → bytes_at buf ds ps → Z.of_nat (length ps) ≤ size < 2 ^ 31 →
  ∃ ud', decode_loop sp buf cb (length ws) st stream ds size last ud = Ok (Some (size - Z.of_nat (length ps), ud')) ∧
    du_result ud' = base ++ map entry_of l.
Proof.
  intros Hst. induction 1 as [|f fs l Hn Hrep IH|f fs m l Hm Hrep IH]; intros stream ds size last lst ud base Hin Hl Ha Hb Hres Hf Hnd ws ps Hws Hps Hs.
  - exists ud. cbn. rewrite app_nil_r, Z.sub_0_r. done.
  - apply Forall_cons in Hin as [_ Hin], Hf as [_ Hf]. apply NoDup_cons in Hnd as [_ Hnd]. destruct Ha as [Hlt Ha].
    apply (IH stream ds size last (f_tag f)); try done; [lia|]. intros t Ht. specialize (Hb t Ht). lia.
  - apply Forall_cons in Hin as [Hi Hin], Hf as [Hfresh Hf]. apply NoDup_cons in Hnd as [Hname Hnd]. destruct Ha as [Hlt Ha].
    pose proof (proj1 (Forall_forall _ _) (k_fields _ _ Hst) f Hi) as Hok.
    assert (findtag st (f_tag f) = Some f) as Hft.
    { eapply findtag_has; [done|]. apply list_elem_of_lookup in Hi as [i Hi]. by exists i. }
    unfold ws in *. clear ws. cbn [map records wire_field w_tag w_inline fst snd] in Hws |- *.
    unfold ps in *. clear ps. cbn [map concat] in Hps, Hs |- *. rewrite length_app in Hs. apply bytes_at_app in Hps as [Hp1 Hp2].
    rewrite length_app. cbn [length].
    destruct (decode_gap st (S (length (records (f_tag f) (map wire_field l)))) stream ds size last (f_tag f)
      (match inline m with Some x => (x + 1) * 2 | None => 0 end :: records (f_tag f) (map wire_field l)) ud) as (s' & Hs' & ->);
      [lia|destruct Hok; lia|done|done|].
    destruct (decode_record st (length (records (f_tag f) (map wire_field l))) s' ds size ud f (tab_get pairs (VStr (f_name f))) m base (records (f_tag f) (map wire_field l)))
      as (ud1 & Hres1 & Hb1 & ->); [done..| |done|done|done|lia|].
    { intros t Ht. specialize (Hb t Ht). lia. }
    assert (bytes_at buf (s' + SIZEOF_FIELD) (words (records (f_tag f) (map wire_field l)))) as Hs2.
    { match type of Hs' with bytes_at _ _ (words (?w :: ?ws)) => change (w :: ws) with ([w] ++ ws) in Hs' end.
      rewrite words_app, words_one in Hs'. apply bytes_at_app in Hs' as [_ Hs']. by rewrite length_le_bytes in Hs'. }
    destruct (IH (s' + SIZEOF_FIELD) (ds + Z.of_nat (length (payload (wire_field (f, m))))) (size - Z.of_nat (length (payload (wire_field (f, m)))))
      (f_tag f) (f_tag f) ud1 (base ++ [entry_of (f, m)])) as (ud2 & E & Hres2); try done; [destruct Hok; lia| |lia|].
    { apply Forall_forall. intros g Hg. apply Forall_app. split; [by eapply Forall_forall in Hf|]. constructor; [|done]. cbn.
      apply bool_decide_eq_false_2. intros E. apply Hname. rewrite E. by apply list_elem_of_fmap_2. }
    exists ud2. rewrite E, Hres2, <- app_assoc, length_app. split; [|done]. do 3 f_equal. lia.
Qed.

(** The number of records is a [uint16_t]. *)
Lemma records_count pairs fs l last lst : Forall (field_ok (Z.of_nat (length (s_type sp)))) fs → fields_rep sp R pairs fs l →
  last ≤ lst < 0x8000 → ascending lst fs → Z.of_nat (length (records last (map wire_field l))) ≤ 0x7fff - last.
Proof.
  intros Hf H. revert last lst. induction H as [|f fs l Hn Hrep IH|f fs m l Hm Hrep IH]; intros last lst Hl Ha; [cbn; lia|..];
    apply Forall_cons in Hf as [[Hf _] Hfs]; destruct Ha as [Hlt Ha].
  - apply (IH Hfs last (f_tag f)); [lia|done].
  - specialize (IH Hfs (f_tag f) (f_tag f) ltac:(lia) Ha). cbn [map records wire_field w_tag w_inline fst snd]. rewrite length_app. cbn [length].
    destruct (Z.ltb_spec (last + 1) (f_tag f)); cbn [length]; lia.
Qed.

Lemma sproto_decode_spec st pairs l p : type_ok (Z.of_nat (length (s_type sp))) st → NoDup (map f_name (t_f st)) →
  fields_rep sp R pairs (t_f st) l → bytes_at buf p (body (MStruct st l)) →
  ∃ ud, sproto_decode sp buf cb st p (Z.of_nat (length (body (MStruct st l)))) (DecodeUd None [] VNil [])
    = Ok (Some (Z.of_nat (length (body (MStruct st l))), ud)) ∧ du_result ud = map entry_of l.
Proof.
  intros Hst Hnd Hrep. rewrite body_struct. intros Hat. pose proof (bytes_at_length _ _ _ Hat) as Hlen. rewrite length_message in *.
  unfold message in Hat. apply bytes_at_app in Hat as [Hn Hat]. rewrite length_le_bytes in Hat. apply bytes_at_app in Hat as [Hws Hps].
  rewrite length_words in Hps. pose proof (records_count _ _ _ (-1) (-1) (k_fields _ _ Hst) Hrep ltac:(lia) (k_ascending _ _ Hst)) as Hc.
  destruct (fields_loop_read pairs st (t_f st) l Hst Hrep (p + Z.of_nat 2) (p + Z.of_nat 2 + 2 * Z.of_nat (length (records (-1) (map wire_field l))))
    (Z.of_nat (length (concat (map payload (map wire_field l))))) (-1) (-1) (DecodeUd None [] VNil []) []) as (ud & E & Hres);
    [by apply Forall_forall|lia|apply (k_ascending _ _ Hst)|by intros t|done|by apply Forall_forall; intros; constructor|done|done|done|lia|].
  unfold sproto_decode, SIZEOF_HEADER, SIZEOF_FIELD. set (n := Z.of_nat (length (records (-1) (map wire_field l)))) in *.
  destruct (Z.ltb_spec (2 + 2 * n + Z.of_nat (length (concat (map payload (map wire_field l))))) 2); [lia|].
  rewrite (read_word _ _ _ Hn) by lia. cbn [mbind res_bind].
  match goal with |- context [?a <? n * 2] => destruct (Z.ltb_spec a (n * 2)); [lia|] end.
  assert (Z.to_nat n = length (records (-1) (map wire_field l))) as -> by apply Nat2Z.id. exists ud. split; [|done]. change (Z.of_nat 2) with 2 in *.
  replace (p + 2 + n * 2) with (p + 2 + 2 * n) by lia.
  replace (2 + 2 * n + Z.of_nat (length (concat (map payload (map wire_field l)))) - 2 - n * 2) with
    (Z.of_nat (length (concat (map payload (map wire_field l))))) by lia.
  rewrite E. cbn [mbind res_bind option_bind]. do 3 f_equal. lia.
Qed.
End read.

(** ** Whole messages *)

Section messages.
Context (L : lua_api) (sp : sproto).
Hypothesis Hschema : schema_ok sp.
Hypothesis Hnames : names_ok sp.

Lemma decode_good buf d room : Z.of_nat (length buf) < 2 ^ 31 → (d ≤ room)%nat →
  ∀ st t l p, rep sp d st t l → bytes_at buf p (body (MStruct st l)) →
  ∃ ud, sproto_decode sp buf (decode L sp buf room (-1)) st p (Z.of_nat (length (body (MStruct st l)))) (DecodeUd None [] VNil [])
    = Ok (Some (Z.of_nat (length (body (MStruct st l))), ud)) ∧ du_result ud = map entry_of l.
Proof.
  intros Hbuf. revert room. induction d as [|d IH]; intros room Hd st t l p H Hat; [done|]. destruct H as (Hst & pairs & -> & H).
  destruct room as [|room]; [lia|].
  apply (sproto_decode_spec L sp buf Hbuf (rep sp d) room) with (pairs := pairs); try done.
  - intros. eapply IH; [lia|done..].
  - by eapply Forall_forall in Hschema.
  - by eapply Forall_forall in Hnames.
Qed.

Lemma ldecode_spec st t l : rep sp ENCODE_DEEPLEVEL st t l → Z.of_nat (length (body (MStruct st l))) < 2 ^ 31 →
  ldecode L sp (body (MStruct st l)) (Some st) (Z.of_nat (length (body (MStruct st l)))) [] =
    Ok (Some (map entry_of l, Z.of_nat (length (body (MStruct st l))))).
Proof.
  intros H Hl. unfold ldecode. rewrite swrap_small by (change (32 - 1) with 31; lia).
  destruct (decode_good (body (MStruct st l)) ENCODE_DEEPLEVEL ENCODE_DEEPLEVEL Hl ltac:(lia) st t l 0 H (bytes_at_whole _)) as (ud & -> & Hres).
  cbn [mbind res_bind]. by rewrite Hres.
Qed.
End messages.
