(* ===== verification/SprotoRound.v ===== *)
(** Tables through [lencode] and [ldecode]. *)
From S2P Require Import Prelude Bytes Buffer Seri SprotoType SprotoSchema SprotoEncode SprotoDecode SprotoSpec SprotoWire SprotoWrite SprotoEncodes SprotoRead.
Local Open Scope Z_scope.

(** ** The table that is decoded holds the message *)

Section rep.
Context (sp : sproto) (R : sproto_type → lval → list (field * mval) → Prop).
Hypothesis Hsub : ∀ st t l, R st t l → R st (lua_of (MStruct st l)) l.

Lemma elem_rep_lua f v m : elem_rep sp R f v m → elem_rep sp R f (lua_of m) m.
Proof. intros []; try by constructor. econstructor; [done..|]. by eapply Hsub. Qed.

Lemma tab_get_keyed i vs k : i + Z.of_nat k < i + Z.of_nat (length vs) → tab_get (keyed i vs) (VInt (i + Z.of_nat k)) = nth k vs VNil.
Proof.
  revert i k. induction vs as [|v vs IH]; intros i k H; [cbn in H; lia|]. cbn [keyed tab_get raw_eq length] in *. destruct k as [|k].
  - assert (i =? i + Z.of_nat 0 = true) as -> by lia. done.
  - assert (i =? i + Z.of_nat (S k) = false) as -> by lia. replace (i + Z.of_nat (S k)) with (i + 1 + Z.of_nat k) by lia.
    rewrite IH by lia. done.
Qed.

Lemma list_rep_lua f ms all i : Forall (λ m, ∃ v, elem_rep sp R f v m) ms → (∃ xs, all = xs ++ ms ∧ i = 1 + Z.of_nat (length xs)) →
  list_rep sp R f (keyed 1 (map lua_of all)) i ms.
Proof.
  intros H. revert i. induction H as [|m ms [v Hv] _ IH]; intros i (xs & -> & ->).
  - constructor. rewrite app_nil_r. apply tab_get_none, keyed_below. rewrite length_map. lia.
  - constructor.
    + rewrite tab_get_keyed by (rewrite length_map, length_app; cbn; lia).
      rewrite map_app. rewrite app_nth2; rewrite length_map; [|lia]. rewrite Nat.sub_diag. cbn. by eapply elem_rep_lua.
    + apply IH. exists (xs ++ [m]). rewrite <- app_assoc. split; [done|]. rewrite length_app. cbn. lia.
Qed.

Lemma list_rep_elems f pairs i ms : list_rep sp R f pairs i ms → Forall (λ m, ∃ v, elem_rep sp R f v m) ms.
Proof. induction 1; constructor; eauto. Qed.

Lemma field_rep_lua f v m : field_rep sp R f v m → field_rep sp R f (lua_of m) m.
Proof.
  intros [v' m' Ha Hk He|ps ms Ha Hk Hmap Hl]; [constructor; [done..|]; by eapply elem_rep_lua|]. constructor; [done..|].
  apply list_rep_lua; [by eapply list_rep_elems|]. by exists [].
Qed.

Lemma fields_rep_lua pairs fs l : fields_rep sp R pairs fs l → NoDup (map f_name fs) → ∀ pre,
  Forall (λ f, Forall (λ x, raw_eq x.1 (VStr (f_name f)) = false) pre) fs →
  fields_rep sp R (pre ++ map entry_of l) fs l.
Proof.
  intros H. induction H as [|f fs l Hn Hrep IH|f fs m l Hm Hrep IH]; intros Hnd pre Hpre; [constructor|..];
    apply NoDup_cons in Hnd as [Hf Hnd]; apply Forall_cons in Hpre as [Hfpre Hpre].
  - apply fsr_none; [|by apply IH]. apply tab_get_none. apply Forall_app. split; [done|].
    assert (∀ x, x ∈ l → x.1 ∈ fs) as Hsubl.
    { clear -Hrep. induction Hrep as [|f fs l _ _ IH|f fs m l _ _ IH]; intros x Hx; [by apply not_elem_of_nil in Hx|..].
      - right. by apply IH.
      - apply elem_of_cons in Hx as [->|Hx]; [left|right; by apply IH]. }
    apply Forall_forall. intros x Hx. apply list_elem_of_fmap in Hx as (y & -> & Hy). cbn. apply bool_decide_eq_false_2. intros E. apply Hf.
    rewrite <- E. apply list_elem_of_fmap_2. by apply Hsubl.
  - cbn [map]. apply fsr_some.
    + unfold entry_of at 1. cbn [fst snd]. rewrite tab_get_app by (done || apply raw_eq_str). by eapply field_rep_lua.
    + change (entry_of (f, m) :: map entry_of l) with ([entry_of (f, m)] ++ map entry_of l). rewrite app_assoc. apply IH; [done|].
      apply Forall_forall. intros g Hg. apply Forall_app. split; [by eapply Forall_forall in Hpre|]. constructor; [|done]. cbn.
      apply bool_decide_eq_false_2. intros E. apply Hf. rewrite E. by apply list_elem_of_fmap_2.
Qed.
End rep.

Lemma rep_lua sp d st t l : names_ok sp → rep sp d st t l → rep sp d st (VTab (map entry_of l)) l.
Proof.
  intros Hn. revert st t l. induction d as [|d IH]; intros st t l H; [done|]. destruct H as (Hst & pairs & -> & H). split; [done|].
  eexists. split; [done|]. apply (fields_rep_lua sp (rep sp d)) with (pairs := pairs) (pre := []); [|done| |].
  - intros st' t' l' H'. rewrite lua_struct. by eapply IH.
  - by eapply Forall_forall in Hn.
  - apply Forall_forall. by intros; constructor.
Qed.

(** ** An example *)

Section example.
Let sp := example_schema.
Let type_a : sproto_type := nth 0 (s_type sp) (SType [] 0 0 0 []).
Let type_m : sproto_type := nth 1 (s_type sp) (SType [] 0 0 0 []).
Let fld (st : sproto_type) (i : nat) : field := nth i (t_f st) (Field 0 0 [] None 0 0 0).

(** An array of one A, two integers of which one needs 64 bits, a double, and an entry
    that the type does not have. *)
Definition example_table : lval :=
  VTab [(VStr [110], VTab [(VInt 2, VInt (2 ^ 40)); (VInt 1, VInt (-5))]); (VStr [122], VInt 1);
        (VStr [97; 115], VTab [(VInt 1, VTab [(VStr [105; 100], VInt 7)])]); (VStr [120], VReal 4611686018427387904); (VStr [98], VBool true)].

Definition example_message : list (field * mval) :=
  [(fld type_m 0, MBool true); (fld type_m 1, MArray [MStruct type_a [(fld type_a 0, MInt 7)]]);
   (fld type_m 2, MArray [MInt (-5); MInt (2 ^ 40)]); (fld type_m 3, MReal 4611686018427387904)].

Definition example_type : sproto_type := type_m.
End example.

Definition example_api : lua_api :=
  LuaApi (λ _ _, Err EType) (λ v, match v with VInt z => Some z | _ => None end) (λ v, match v with VReal u => u | _ => 0 end)
    (λ _ _, 0) (λ _ _, 0) (λ _, None) (λ _, false).

Ltac rep_elem := first
  [ apply er_int; [reflexivity|reflexivity|lia]
  | apply er_real; [reflexivity|lia]
  | apply er_bool; reflexivity
  | eapply er_struct; [reflexivity|reflexivity|reflexivity|] ].
Ltac rep_list := repeat first [ apply lr_nil; reflexivity | apply lr_cons; [rep_elem|] ].
Ltac rep_field := first [ apply fr_plain; [reflexivity|reflexivity|rep_elem] | apply fr_array; [reflexivity|reflexivity|easy|rep_list] ].
Ltac rep_fields := repeat first [ apply fsr_nil | apply fsr_none; [reflexivity|] | apply fsr_some; [rep_field|] ].

Lemma example_rep : rep example_schema ENCODE_DEEPLEVEL example_type example_table example_message.
Proof.
  split; [by repeat constructor|]. eexists. split; [reflexivity|]. rep_fields.
  split; [by repeat constructor|]. eexists. split; [reflexivity|]. rep_fields.
Qed.

(** ** The round trip *)

(** C29: encoding a table that holds a message of a type of the schema
    (with other entries or not, in any order, nested up to 64 levels) gives the bytes of
    the sproto format, whatever the size of the buffer that was there, and decoding them
    consumes them all and gives a table that holds the same message, as long as the
    message takes less than half of the largest buffer.  The fields of the message are
    those of [rep]: arrays have no main index and integers no decimals. *)
Theorem sproto_roundtrip (L : lua_api) (sp : sproto) (st : sproto_type) (t : lval) (l : list (field * mval)) (sz : Z) :
  (∀ z, l_tointeger L (VInt z) = Some z) → (∀ u, l_tonumber L (VReal u) = u) →
  schema_ok sp → maps_ok sp → names_ok sp → rep sp ENCODE_DEEPLEVEL st t l →
  0 < sz <= ENCODE_MAXSIZE → need (MStruct st l) ≤ ENCODE_MAXSIZE / 2 →
  let bytes := message (map wire_field l) in
  (∃ sz', lencode L sp (Some st) t sz = Ok (bytes, sz') ∧ sz ≤ sz' ≤ ENCODE_MAXSIZE) ∧
  ∃ pairs, ldecode L sp bytes (Some st) (Z.of_nat (length bytes)) [] = Ok (Some (pairs, Z.of_nat (length bytes))) ∧
    rep sp ENCODE_DEEPLEVEL st (VTab pairs) l.
Proof.
  intros H1 H2 Hs Hm Hn Hr Hsz Hneed bytes. unfold bytes. rewrite <- (body_struct st).
  change (ENCODE_MAXSIZE / 2) with (2 ^ 23) in Hneed. split; [by apply lencode_spec|].
  destruct (encode_good L sp H1 H2 Hs Hm ENCODE_DEEPLEVEL ENCODE_DEEPLEVEL ltac:(lia) st t l Hr) as (_ & Hb & _). unfold enough_need in Hb.
  exists (map entry_of l). split; [|by eapply rep_lua]. apply (ldecode_spec L sp Hs Hn st t l Hr). lia.
Qed.

Lemma sproto_roundtrip_witness :
  let bytes := message (map wire_field example_message) in
  length bytes = 57%nat ∧
  (∃ sz', lencode example_api example_schema (Some example_type) example_table ENCODE_BUFFERSIZE = Ok (bytes, sz') ∧
    ENCODE_BUFFERSIZE ≤ sz' ≤ ENCODE_MAXSIZE) ∧
  ∃ pairs, ldecode example_api example_schema bytes (Some example_type) (Z.of_nat (length bytes)) [] = Ok (Some (pairs, Z.of_nat (length bytes))) ∧
    rep example_schema ENCODE_DEEPLEVEL example_type (VTab pairs) example_message.
Proof.
  split; [vm_compute; reflexivity|].
  apply (sproto_roundtrip example_api example_schema example_type example_table example_message ENCODE_BUFFERSIZE).
  - done.
  - done.
  - exact (create_schema_ok example_bundle example_schema (bytes_ok example_bundle eq_refl) example_loads).
  - repeat (constructor; [repeat (constructor; [eexists; reflexivity|]); constructor|]). constructor.
  - repeat (constructor; [apply (bool_decide_unpack _); vm_compute; exact I|]). constructor.
  - exact example_rep.
  - unfold ENCODE_BUFFERSIZE, ENCODE_MAXSIZE. lia.
  - vm_compute. discriminate.
Defined.
