(* ===== verification/SprotoFits.v ===== *)
(** Encoding any table: [sproto_encode] writes nothing outside of its buffer and ends,
    and [lencode] gives a message or an error for any Lua value. *)
From S2P Require Import Prelude Bytes Buffer Seri SprotoType SprotoSchema SprotoEncode SprotoSpec SprotoWire SprotoWrite SprotoEncodes SprotoRound.
Local Open Scope Z_scope.

(** ** Results that are not [Abort] *)

Definition runs {A} (P : A → Prop) (r : res A) : Prop :=
  match r with Ok a => P a | Err _ => True | Abort => False end.

Lemma runs_bind {A B} (P : A → Prop) (Q : B → Prop) (r : res A) (k : A → res B) :
  runs P r → (∀ a, P a → runs Q (k a)) → runs Q (r ≫= k).
Proof. destruct r; cbn; auto. Qed.

Lemma runs_weaken {A} (P Q : A → Prop) (r : res A) : runs P r → (∀ a, P a → Q a) → runs Q r.
Proof. destruct r; cbn; auto. Qed.

(** A result, when there is one, satisfies [P]. *)
Definition some_then {A} (P : A → Prop) (o : option A) : Prop := match o with Some a => P a | None => True end.

(** ** sproto_encode over a callback that keeps to its room *)

Section fits.
Context {U : Type} (sp : sproto) (cb : sproto_arg → U → res (Z * list Z * U)).

(** What the callback gives: a code, or as many bytes as it says, in its room. *)
Definition in_room (n : Z) (x : Z * list Z * U) : Prop := x.1.1 < 0 ∨ x.1.1 = Z.of_nat (length x.1.2) ∧ x.1.1 ≤ n.

Definition type_room (type : Z) : Z := if (type =? SPROTO_TDOUBLE) || (type =? SPROTO_TINTEGER) then 8 else if type =? SPROTO_TBOOLEAN then 4 else 0.

Definition fits (args : sproto_arg) : Prop := ∀ i n ud, type_room (a_type args) ≤ n < 2 ^ 31 → runs (in_room n) (cb (with_index i (with_length n args)) ud).

Context (args : sproto_arg) (Hfits : fits args).

(** Bytes that fit into [size], when there is a result. *)
Definition bytes_in (size : Z) : option (list Z * U) → Prop := some_then (λ x, Z.of_nat (length x.1) ≤ size).
Definition array_in (size : Z) : option (option (list Z) * U) → Prop :=
  some_then (λ x, some_then (λ bs, Z.of_nat (length bs) ≤ size) x.1).

Lemma write_runs buf p bs : 0 ≤ p → p + Z.of_nat (length bs) ≤ Z.of_nat (length buf) →
  runs (λ buf', length buf' = length buf) (of_option (write_at buf p bs)).
Proof. intros H1 H2. destruct (write_at_spec buf p bs H1 H2) as (buf' & -> & Hl & _). exact Hl. Qed.

Lemma load_runs buf p n : 0 ≤ p → 0 ≤ n → p + n ≤ Z.of_nat (length buf) → runs (λ bs, Z.of_nat (length bs) = n) (load buf p n).
Proof.
  intros H1 H2 H3. unfold load. assert ((0 <=? p) && (0 <=? n) && (p + n <=? Z.of_nat (length buf)) = true) as -> by lia.
  cbn. rewrite length_take, length_drop. lia.
Qed.

Lemma rearrange_runs k : ∀ buf, 8 * Z.of_nat k ≤ Z.of_nat (length buf) → runs (λ buf', length buf' = length buf) (rearrange k buf).
Proof.
  induction k as [|k IH]; intros buf H; [done|]. cbn [rearrange]. unfold SIZEOF_INT32, SIZEOF_INT64.
  eapply runs_bind; [apply load_runs; lia|]. intros bs Hbs. cbv beta in Hbs. eapply runs_bind; [apply write_runs; lia|]. intros b1 H1. cbv beta in *.
  destruct (aget_is_Some b1 (Z.of_nat k * 8 + 3)) as [x ->]; [lia|]. cbn [of_option mbind res_bind].
  assert (length (uint32_to_uint64 (negb (Z.land x 128 =? 0))) = 4%nat) as Hu by (by destruct (negb _)).
  eapply runs_bind; [apply write_runs; lia|]. intros b2 H2. cbv beta in *.
  eapply runs_weaken; [apply IH; lia|]. cbv beta. intros. lia.
Qed.

Definition is_width (w : Z) : Prop := w = SIZEOF_INT32 ∨ w = SIZEOF_INT64.

Lemma put_integer_runs sz bs size index intlen buf : 1 ≤ index → is_width intlen → Z.of_nat (length buf) = (index - 1) * intlen →
  runs (some_then (λ x, let '(size', w, buf') := x in is_width w ∧ Z.of_nat (length buf') = index * w ∧
    size' + Z.of_nat (length buf') = size + Z.of_nat (length buf) ∧ 0 ≤ size' < size)) (put_integer sz bs size index intlen buf).
Proof.
  intros Hi Hw Hl. unfold put_integer, is_width, SIZEOF_INT32, SIZEOF_INT64 in *. destruct (Z.ltb_spec size 8); [done|].
  destruct (sz =? 4).
  - cbn. rewrite !length_app. assert (∀ b, length (uint32_to_uint64 b) = 4%nat) as Hu by (by intros []).
    destruct (Z.eqb_spec intlen 8); rewrite ?Hu; cbn [length le_bytes]; lia.
  - destruct (negb (sz =? 8)); [done|].
    eapply (runs_bind (some_then (λ x : Z * list Z, Z.of_nat (length x.2) = (index - 1) * 8 ∧ 8 ≤ x.1 ≤ size ∧
      x.1 + Z.of_nat (length x.2) = size + Z.of_nat (length buf)))).
    + destruct (Z.eqb_spec intlen 4); [|cbn; lia]. destruct (Z.ltb_spec (size - (index - 1) * 4) 8); [done|].
      eapply runs_bind; [apply rearrange_runs; rewrite length_app, length_replicate; lia|]. intros b Hb. cbv beta in Hb.
      rewrite length_app, length_replicate in Hb. cbn. lia.
    + intros [[size' b]|]; [|done]. cbn. rewrite length_app. cbn [length le_bytes]. lia.
Qed.

Lemma integer_runs fuel : ∀ size index intlen buf ud, 8 ≤ 2 ^ 31 → type_room (a_type args) ≤ 8 → 1 ≤ index → is_width intlen →
  Z.of_nat (length buf) = (index - 1) * intlen → 0 ≤ size < Z.of_nat fuel →
  runs (array_in (1 + size + Z.of_nat (length buf))) (integer_loop cb fuel args size index intlen buf ud).
Proof.
  induction fuel as [|fuel IH]; intros size index intlen buf ud H8 Ht Hi Hw Hl Hs; [lia|]. cbn [integer_loop].
  eapply runs_bind; [apply Hfits; lia|]. intros [[sz bs] ud'] _. cbv beta iota.
  destruct (sz <=? 0).
  - destruct (sz =? SPROTO_CB_NIL); [|by destruct (sz =? SPROTO_CB_NOARRAY)]. cbn. destruct (bool_decide (buf = [])); cbn [length]; lia.
  - eapply runs_bind; [by apply put_integer_runs|]. intros [[[size' w] buf']|]; [|done]. cbn. intros (Hw' & Hl' & Hsum & Hs').
    eapply runs_weaken; [apply IH; [done|done|lia|done|lia|lia]|]. intros o Ho. unfold array_in in *.
    destruct o as [[[bs'|] ud'']|]; [|done..]. cbn in *. lia.
Qed.

Lemma boolean_runs fuel : ∀ size index buf ud, type_room (a_type args) ≤ 4 → 0 ≤ size < Z.of_nat fuel →
  runs (array_in (size + Z.of_nat (length buf))) (boolean_loop cb fuel args size index buf ud).
Proof.
  induction fuel as [|fuel IH]; intros size index buf ud Ht Hs; [lia|]. cbn [boolean_loop].
  eapply runs_bind; [apply Hfits; lia|]. intros [[sz bs] ud'] _. cbv beta iota.
  destruct (sz <? 0); [destruct (sz =? SPROTO_CB_NIL); [cbn; lia|by destruct (sz =? SPROTO_CB_NOARRAY)]|].
  destruct (Z.ltb_spec size 1); [done|]. eapply runs_weaken; [apply IH; lia|]. intros [[[bs'|] ud'']|]; [|done..]. cbn. rewrite length_app. cbn. lia.
Qed.

Lemma object_runs fuel : ∀ size index buf ud, type_room (a_type args) = 0 → 0 ≤ size < Z.of_nat fuel → size < 2 ^ 31 →
  runs (array_in (size + Z.of_nat (length buf))) (object_loop cb fuel args size index buf ud).
Proof.
  induction fuel as [|fuel IH]; intros size index buf ud Ht Hs Hsz; [lia|]. cbn [object_loop]. unfold SIZEOF_LENGTH.
  destruct (Z.ltb_spec size 4); [done|].
  eapply runs_bind; [apply Hfits; lia|]. intros [[sz bs] ud'] Hin. cbv beta iota. unfold in_room in Hin. cbn [fst snd] in Hin.
  destruct (Z.ltb_spec sz 0); [destruct (sz =? SPROTO_CB_NIL); [cbn; lia|by destruct (sz =? SPROTO_CB_NOARRAY)]|].
  eapply runs_weaken; [apply IH; lia|]. intros [[[bs'|] ud'']|]; [|done..]. cbn. rewrite length_app. cbn [length fill_size le_bytes app]. lia.
Qed.
End fits.

Section message.
Context {U : Type} (sp : sproto) (cb : sproto_arg → U → res (Z * list Z * U)).
Hypothesis Hmaps : maps_ok sp.

Lemma encode_array_runs args size ud : fits cb args → size < 2 ^ 31 → runs (bytes_in size) (encode_array cb args size ud).
Proof.
  intros Hf Hs. unfold encode_array, SIZEOF_LENGTH. destruct (Z.ltb_spec size 4); [done|].
  eapply (runs_bind (array_in (size - 4))).
  - destruct ((a_type args =? SPROTO_TDOUBLE) || (a_type args =? SPROTO_TINTEGER)) eqn:E1; [|destruct (a_type args =? SPROTO_TBOOLEAN) eqn:E2].
    + unfold encode_integer_array. destruct (Z.ltb_spec (size - 4) 1); [done|].
      eapply runs_weaken; [apply integer_runs; [done|done|unfold type_room; rewrite E1; lia|lia|by left|done|lia]|].
      intros [[[bs|] ud']|]; [|done..]. cbn. lia.
    + eapply runs_weaken; [apply boolean_runs; [done|unfold type_room; rewrite E1, E2; lia|lia]|].
      intros [[[bs|] ud']|]; [|done..]. cbn. lia.
    + unfold encode_array_object. eapply runs_weaken; [apply object_runs; [done|unfold type_room; by rewrite E1, E2|lia|lia]|].
      intros [[[bs|] ud']|]; [|done..]. cbn. lia.
  - intros [[[bs|] ud']|]; cbn; [|lia|done]. intros. rewrite ?length_app. cbn [length fill_size le_bytes app]. lia.
Qed.

Lemma encode_object_runs args size ud : (∀ n ud, 0 ≤ n < 2 ^ 31 → runs (in_room n) (cb (with_length n args) ud)) → 0 ≤ size < 2 ^ 31 →
  runs (bytes_in size) (encode_object cb args size ud).
Proof.
  intros Hf Hs. unfold encode_object, SIZEOF_LENGTH. destruct (Z.ltb_spec size 4); [done|].
  eapply runs_bind; [apply Hf; lia|]. intros [[sz bs] ud'] Hin. unfold in_room in Hin. cbn [fst snd] in Hin.
  destruct (Z.ltb_spec sz 0); [destruct (sz =? SPROTO_CB_NIL); [cbn; lia|done]|]. destruct (Z.ltb_spec (size - 4) sz); [lia|].
  cbn. cbn [length fill_size le_bytes app]. lia.
Qed.

(** A field is a value for the table, or data that fits. *)
Definition field_in (size : Z) : option (encoded * U) → Prop :=
  some_then (λ x, match x.1 with EData bs => Z.of_nat (length bs) ≤ size | _ => True end).

Lemma encode_scalar_runs args size ud : (∀ n ud, 8 ≤ n < 2 ^ 31 → runs (in_room n) (cb (with_length n args) ud)) → 0 ≤ size < 2 ^ 31 →
  runs (field_in size) (encode_scalar cb args size ud).
Proof.
  intros Hf Hs. unfold encode_scalar. eapply runs_bind; [apply Hf; lia|]. intros [[sz bs] ud'] _.
  destruct (sz <? 0); [destruct (sz =? SPROTO_CB_NIL); [done|by destruct (sz =? SPROTO_CB_NOARRAY)]|].
  unfold encode_integer, encode_uint64, SIZEOF_LENGTH. rewrite (wrap_small 64) by lia.
  destruct (sz =? SIZEOF_INT32).
  - destruct (_ <? 0x7fff); [done|]. destruct (Z.ltb_spec size (4 + 4)); [done|]. cbn. lia.
  - destruct (sz =? SIZEOF_INT64); [|done]. destruct (Z.ltb_spec size (4 + 8)); [done|]. cbn. lia.
Qed.

(** The callback keeps to its room for every field of a type. *)
Definition callback_fits (fs : list field) : Prop := ∀ f i n type kv ud, f ∈ fs → type = elem_type f →
  type_room type ≤ n < 2 ^ 31 → runs (in_room n) (cb (with_index i (with_length n (field_arg f type kv))) ud).

Lemma encode_field_runs fs f size ud : callback_fits fs → f ∈ fs → field_ok (Z.of_nat (length (s_type sp))) f →
  (∃ kv, map_names sp f = Ok kv) → 0 ≤ size < 2 ^ 31 → runs (field_in size) (encode_field sp cb f size ud).
Proof.
  intros Hcb Hf Hok [kv Hkv] Hs. unfold encode_field. destruct (is_array f) eqn:Ha.
  - rewrite Hkv. cbn [mbind res_bind]. eapply runs_bind; [apply encode_array_runs; [|lia]|].
    + intros i n ud' Hn. by apply Hcb.
    + intros [[bs ud']|]; [|done]. cbn. done.
  - destruct (type_plain sp f Hok Ha) as [Et Htc].
    assert (∀ n ud, type_room (f_type f) ≤ n < 2 ^ 31 → runs (in_room n) (cb (with_length n (field_arg f (f_type f) None)) ud)) as Hcall.
    { intros n ud' Hn. apply (Hcb f 0 n (f_type f) None ud'); done. }
    destruct ((f_type f =? SPROTO_TDOUBLE) || (f_type f =? SPROTO_TINTEGER) || (f_type f =? SPROTO_TBOOLEAN)) eqn:E1.
    + apply encode_scalar_runs; [|done]. intros n ud' Hn. apply Hcall. unfold type_room.
      destruct ((f_type f =? SPROTO_TDOUBLE) || (f_type f =? SPROTO_TINTEGER)); [lia|]. destruct (f_type f =? SPROTO_TBOOLEAN); lia.
    + destruct ((f_type f =? SPROTO_TSTRUCT) || (f_type f =? SPROTO_TSTRING)); [|done].
      apply orb_false_iff in E1 as [E1 E2]. eapply runs_bind; [apply encode_object_runs; [|done]|].
      * intros n ud' Hn. apply Hcall. unfold type_room. rewrite E1, E2. lia.
      * intros [[bs ud']|]; [|done]. cbn. done.
Qed.

Lemma put_record_in maxn w es : es_index es < maxn →
  put_record maxn w es = Ok (EncState (es_index es + 1) (es_lasttag es) (es_records es ++ le_bytes 2 w) (es_data es) (es_size es)).
Proof. intros H. unfold put_record. by assert (maxn <=? es_index es = false) as -> by lia. Qed.

(** The table of the fields and the data with the room that is left. *)
Definition state_ok (total maxn : Z) (fs : list field) (es : enc_state) : Prop :=
  Z.of_nat (length (es_records es)) = 2 * es_index es ∧ Z.of_nat (length (es_data es)) + es_size es = total ∧
  0 ≤ es_size es ∧ 0 ≤ es_index es ∧ es_index es + Z.of_nat (length fs) + gaps (es_lasttag es) fs ≤ maxn.

Lemma put_field_runs total maxn f fs value es : es_lasttag es < f_tag f → state_ok total maxn (f :: fs) es →
  runs (some_then (λ es', state_ok total maxn fs es' ∧ es_lasttag es' = f_tag f)) (put_field maxn (f_tag f) value es).
Proof.
  intros Ht (Hr & Hd & Hs & Hi & Hm). cbn [length gaps] in Hm. pose proof (gaps_nonneg (f_tag f) fs).
  unfold put_field. destruct (Z.ltb_spec 0 (f_tag f - es_lasttag es - 1)).
  - assert (es_lasttag es + 1 <? f_tag f = true) as Eg by lia. rewrite Eg in Hm. destruct (0xffff <? _); [done|]. rewrite put_record_in by lia. cbn [mbind res_bind].
    rewrite put_record_in by (cbn; lia). unfold set_lasttag, state_ok. cbn. rewrite !length_app. cbn. lia.
  - assert (es_lasttag es + 1 <? f_tag f = false) as Eg by lia. rewrite Eg in Hm. cbn [mbind res_bind]. rewrite put_record_in by lia.
    unfold set_lasttag, state_ok. cbn. rewrite !length_app. cbn. lia.
Qed.

Lemma encode_loop_runs all total maxn fs : ∀ es ud lst, callback_fits all → Forall (λ f, f ∈ all) fs →
  Forall (field_ok (Z.of_nat (length (s_type sp)))) fs → Forall (λ f, ∃ kv, map_names sp f = Ok kv) fs →
  es_lasttag es ≤ lst → ascending lst fs → total < 2 ^ 31 → state_ok total maxn fs es →
  runs (some_then (λ x, match x.1 with inl es' => state_ok total maxn [] es' | inr _ => True end)) (encode_loop sp cb maxn fs es ud).
Proof.
  induction fs as [|f fs IH]; intros es ud lst Hcb Hin Hok Hmap Hl Ha Ht Hst; cbn [encode_loop].
  { destruct Hst as (?&?&?&?&?). cbn in *. done. }
  apply Forall_cons in Hin as [Hf Hin], Hok as [Hfok Hok], Hmap as [Hfm Hmap]. destruct Ha as [Hlt Ha].
  pose proof Hst as (Hr & Hd & Hs & Hi & Hm).
  eapply runs_bind; [apply (encode_field_runs all); [done|done|done|done|lia]|]. intros [[e ud']|]; [|done]. intros He. cbn in He.
  assert (runs (some_then (λ es', state_ok total maxn fs es' ∧ es_lasttag es' ≤ f_tag f)) (add_field maxn (f_tag f) e es)) as Hadd.
  { assert (state_ok total maxn fs es ∧ es_lasttag es ≤ f_tag f) as Hskip.
    { split; [|lia]. unfold state_ok. pose proof (gaps_drop (es_lasttag es) f fs ltac:(lia)). cbn [length] in Hm. lia. }
    destruct e as [v|[|b bs]| |]; cbn [add_field]; try exact Hskip.
    - eapply runs_weaken; [apply (put_field_runs total maxn f fs); [lia|done]|]. intros [es'|]; [|done]. cbn. intros [? ->]. split; [done|lia].
    - eapply runs_weaken; [apply (put_field_runs total maxn f fs); [cbn; lia|]|].
      + unfold state_ok. cbn [put_data es_records es_data es_size es_index es_lasttag]. rewrite length_app. cbn [length] in *. lia.
      + intros [es'|]; [|done]. cbn. intros [? ->]. split; [done|lia]. }
  assert (runs (some_then (λ x, match x.1 with inl es' => state_ok total maxn [] es' | inr _ => True end))
    (r ← add_field maxn (f_tag f) e es; match r with None => Ok None | Some es => encode_loop sp cb maxn fs es ud' end)) as Hnext.
  { eapply runs_bind; [exact Hadd|]. intros [es'|]; [|done]. cbn. intros [Hst' Hl']. by eapply IH. }
  by destruct e.
Qed.

Lemma sproto_encode_runs st size ud : st ∈ s_type sp → type_ok (Z.of_nat (length (s_type sp))) st → callback_fits (t_f st) → size < 2 ^ 31 →
  runs (some_then (λ bs, Z.of_nat (length bs) ≤ size)) (sproto_encode sp cb st size ud).
Proof.
  intros Hst [_ Ha Hf Hm _] Hcb Hs. unfold sproto_encode, sproto_encode_ud, SIZEOF_HEADER, SIZEOF_FIELD. destruct (Z.ltb_spec size (2 + t_maxn st * 2)); [done|].
  pose proof (gaps_nonneg (-1) (t_f st)).
  eapply (runs_bind (some_then (λ x, Z.of_nat (length x.1) ≤ size))); [|by intros [[bs u]|]].
  eapply runs_bind; [apply (encode_loop_runs (t_f st) (size - (2 + t_maxn st * 2)) (t_maxn st)) with (lst := -1); [done|by apply Forall_forall|done| |done|done|lia|]|].
  - by eapply Forall_forall in Hmaps.
  - unfold state_ok. cbn. lia.
  - intros [[[es|u] ud']|]; [|cbn; lia|done]. intros (Hr & Hd & Hsz & Hi & Hmx). cbn in *. rewrite !length_app. lia.
Qed.
End message.

(** ** The callback of lsproto.c *)

Lemma struct_type sp f st : schema_ok sp → st ∈ s_type sp → f ∈ t_f st → elem_type f = SPROTO_TSTRUCT →
  ∃ i st', f_st f = Some i ∧ aget (s_type sp) i = Some st' ∧ st' ∈ s_type sp.
Proof.
  intros Hschema Hst Hf Ht. pose proof (proj1 (Forall_forall _ _) (k_fields _ _ (proj1 (Forall_forall _ _) Hschema _ Hst)) _ Hf) as Hok.
  destruct (struct_index sp f Hok Ht) as (i & st' & Hi & Hst'). exists i, st'. split; [done|]. split; [done|].
  unfold aget in Hst'. destruct (0 <=? i); [|done]. by eapply list_elem_of_lookup_2.
Qed.

Section lua.
Context (L : lua_api) (sp : sproto).
Hypothesis Hindex : ∀ o k, l_index L o k ≠ Abort.
Hypothesis Hschema : schema_ok sp.
Hypothesis Hmaps : maps_ok sp.

Lemma index_runs o k : runs (λ _, True) (lua_index L o k).
Proof. pose proof (Hindex o k). unfold lua_index. destruct o; try done; by destruct (l_index _ _ _). Qed.

Lemma get_runs tbl args ud : runs (λ _, True) (get_encodefield L tbl args ud).
Proof.
  unfold get_encodefield. destruct (0 <? a_index args).
  - eapply (runs_bind (λ _, True)).
    + unfold open_array. destruct (bool_decide _); [done|]. eapply runs_bind; [apply index_runs|]. by intros [] _.
    + intros [ud'|] _; [|done]. destruct (0 <=? a_mainindex args).
      * unfold next_entry. destruct (eu_iter ud') as [|[k v] rest]; [by destruct (eu_end ud')|]. by destruct (a_kv args) as [[]|].
      * eapply runs_bind; [apply index_runs|done].
  - eapply runs_bind; [apply index_runs|done].
Qed.

Lemma encode_one_runs sub st f i n type kv v {U} (ud : U) : st ∈ s_type sp → f ∈ t_f st → type = elem_type f → type_room type ≤ n < 2 ^ 31 →
  (∀ st size tbl, st ∈ s_type sp → size < 2 ^ 31 → runs (some_then (λ bs, Z.of_nat (length bs) ≤ size)) (sub st size tbl)) →
  runs (in_room n) ('(sz, bs) ← encode_one L sp sub (with_index i (with_length n (field_arg f type kv))) v; Ok (sz, bs, ud)).
Proof.
  intros Hst Hf -> Hn Hsub. eapply (runs_bind (λ x, x.1 < 0 ∨ x.1 = Z.of_nat (length x.2) ∧ x.1 ≤ n)); [|intros [sz bs] H; exact H].
  assert (elem_type f = SPROTO_TINTEGER ∨ elem_type f = SPROTO_TDOUBLE → 8 ≤ n) as Hn8 by (intros [E|E]; rewrite E in Hn; apply Hn).
  assert (elem_type f = SPROTO_TBOOLEAN → 4 ≤ n) as Hn4 by (intros E; rewrite E in Hn; apply Hn).
  unfold encode_one. cbn [a_type a_extra a_length a_subtype with_index with_length field_arg].
  destruct (Z.eqb_spec (elem_type f) SPROTO_TINTEGER) as [E|E].
  { specialize (Hn8 (or_introl E)).
    eapply (runs_bind (λ _, True)); [destruct (negb _); [done|by destruct (l_tointeger L v)]|]. intros z _. cbv zeta.
    destruct ((_ =? 0) || _); cbn; lia. }
  destruct (Z.eqb_spec (elem_type f) SPROTO_TDOUBLE) as [E'|E']; [specialize (Hn8 (or_intror E')); cbn; lia|].
  destruct (Z.eqb_spec (elem_type f) SPROTO_TBOOLEAN) as [E2|E2]; [specialize (Hn4 E2); destruct v; cbn; try done; lia|].
  destruct (elem_type f =? SPROTO_TSTRING).
  { destruct v; try done. destruct (Z.ltb_spec n (Z.of_nat (length s))); [by left|]. right. cbn. lia. }
  destruct (Z.eqb_spec (elem_type f) SPROTO_TSTRUCT) as [Et|]; [|done].
  destruct (struct_type sp f st Hschema Hst Hf Et) as (k & st' & -> & Hg & Hst'). cbn [of_option mbind res_bind]. rewrite Hg. cbn [of_option mbind res_bind].
  eapply runs_bind; [apply Hsub; [done|lia]|]. intros [bs|]; [|by left]. intros Hbs. right. cbn in *. lia.
Qed.

Lemma encode_runs room tbl st : st ∈ s_type sp → callback_fits (encode L sp room tbl) (t_f st).
Proof.
  revert tbl st. induction room as [|room IH]; intros tbl st Hst f i n type kv ud Hf Ht Hn; [done|]. cbn [encode].
  eapply runs_bind; [apply get_runs|]. intros [[code v] ud'] _. destruct (Z.ltb_spec code 0); [by left|].
  destruct (is_nil v); [by left|]. eapply encode_one_runs; [done..|]. intros st' size tbl' Hst' Hsize.
  apply sproto_encode_runs; [done|done| |by apply IH|done]. by eapply Forall_forall in Hschema.
Qed.

Lemma lencode_runs st tbl sz : st ∈ s_type sp → 0 < sz ≤ ENCODE_MAXSIZE →
  runs (λ x, Z.of_nat (length x.1) ≤ x.2 ≤ ENCODE_MAXSIZE) (lencode L sp (Some st) tbl sz).
Proof.
  intros Hst Hsz. unfold lencode. assert (ENCODE_MAXSIZE < sz * 2 ^ Z.of_nat 32) as Hf by (unfold ENCODE_MAXSIZE in *; lia).
  revert sz Hsz Hf. generalize 32%nat. intros fuel. induction fuel as [|fuel IH]; intros sz Hsz Hf; [lia|]. cbn [lencode_loop].
  eapply runs_bind; [apply sproto_encode_runs; [done|done|by eapply Forall_forall in Hschema|by apply encode_runs|unfold ENCODE_MAXSIZE in *; lia]|].
  intros [bs|]; [cbn; lia|]. intros _. unfold expand_buffer. change 32%nat with (S 31). cbn [expand_size].
  assert (sz * 2 <? sz * 2 = false) as -> by lia. destruct (Z.ltb_spec ENCODE_MAXSIZE (sz * 2)); [done|]. cbn [mbind res_bind].
  apply IH; [lia|]. rewrite Nat2Z.inj_succ, Z.pow_succ_r in Hf by lia. lia.
Qed.
End lua.

(** C30: encoding any Lua value as a type of a schema, with any buffer,
    never writes outside of the buffer, of the table of the fields or of a struct in the
    message, and ends with a message that fits into the buffer that is kept, of at most
    16 MB, or with an error. Each map field of the schema is of a struct with at least two
    fields, which the loader does not check: the code reads both without looking how many
    there are (map_of_one_field). The buffer given has between 1 byte and 16 MB. *)
Theorem sproto_encode_fits (L : lua_api) (sp : sproto) (st : sproto_type) (tbl : lval) (sz : Z) :
  (∀ o k, l_index L o k ≠ Abort) → schema_ok sp → maps_ok sp → st ∈ s_type sp → 0 < sz ≤ ENCODE_MAXSIZE →
  match lencode L sp (Some st) tbl sz with
  | Ok (bytes, sz') => Z.of_nat (length bytes) ≤ sz' ≤ ENCODE_MAXSIZE
  | Err _ => True
  | Abort => False
  end.
Proof.
  intros Hi Hs Hm Hst Hsz. pose proof (lencode_runs L sp Hi Hs Hm st tbl sz Hst Hsz) as H. by destruct (lencode _ _ _ _ _) as [[]| |].
Qed.

Lemma sproto_encode_fits_witness :
  match lencode example_api example_schema (Some example_type) example_table 20 with
  | Ok (bytes, sz') => Z.of_nat (length bytes) ≤ sz' ≤ ENCODE_MAXSIZE
  | Err _ => True
  | Abort => False
  end.
Proof.
  apply (sproto_encode_fits example_api example_schema example_type example_table 20).
  - done.
  - exact (create_schema_ok example_bundle example_schema (bytes_ok example_bundle eq_refl) example_loads).
  - repeat (constructor; [repeat (constructor; [eexists; reflexivity|]); constructor|]). constructor.
  - by repeat constructor.
  - unfold ENCODE_MAXSIZE. lia.
Defined.

(** ** What the loader does not check *)

(** A with the only field x, and M with the field m: a map of A. *)
Definition map_bundle : list Z :=
  [
   1; 0; 0; 0; 82; 0; 0; 0; 34; 0; 0; 0; 2; 0; 0; 0; 0; 0; 1; 0; 0; 0; 65; 19; 0; 0; 0; 15;
   0; 0; 0; 4; 0; 0; 0; 2; 0; 1; 0; 2; 0; 1; 0; 0; 0; 120; 40; 0; 0; 0; 2; 0; 0; 0; 0; 0; 1;
   0; 0; 0; 77; 25; 0; 0; 0; 21; 0; 0; 0; 7; 0; 0; 0; 1; 0; 2; 0; 2; 0; 4; 0; 2; 0; 4; 0; 1;
   0; 0; 0; 109].

(** The schema loads, but to encode an M, even an empty table, reads the second field of A. *)
Lemma map_of_one_field :
  match create_from_bundle map_bundle with
  | Ok sp => match s_type sp !! 1%nat with
             | Some st => lencode example_api sp (Some st) (VTab []) ENCODE_BUFFERSIZE = Abort
             | None => False
             end
  | _ => False
  end.
Proof. vm_compute. done. Qed.
