(* ===== verification/SprotoSafe.v ===== *)
(** Decoding any bytes: [ldecode] reads nothing outside of the message, as long as no
    word of 32 bits in it is so large that adding 4 to it wraps; such a word is read as
    a length far beyond the message. *)
From S2P Require Import Prelude Bytes Buffer Seri SprotoType SprotoSchema SprotoEncode SprotoDecode SprotoSpec SprotoWire SprotoWrite SprotoEncodes SprotoRead SprotoRound SprotoFits.
Local Open Scope Z_scope.

(** ** Messages without huge words *)

Definition no_huge_words (buf : list Z) : bool :=
  forallb (λ i, match todword buf (Z.of_nat i) with Ok w => w <? 2 ^ 32 - SIZEOF_LENGTH | _ => true end) (seq 0 (length buf)).

Section safe.
Context (L : lua_api) (sp : sproto) (buf : list Z).
Hypothesis Hschema : schema_ok sp.
Hypothesis Hmaps : maps_ok sp.
Hypothesis Hkeys : keys_ok sp.
Hypothesis Hbytes : Forall byte_ok buf.
Hypothesis Hbuf : Z.of_nat (length buf) < 2 ^ 31.
Hypothesis Hwords : no_huge_words buf = true.

(** [n] bytes at [p] are in the message. *)
Definition inside (p n : Z) : Prop := 0 ≤ p ∧ 0 ≤ n ∧ p + n ≤ Z.of_nat (length buf).

Lemma load_inside p n : inside p n → runs (λ bs, Forall byte_ok bs ∧ Z.of_nat (length bs) = n) (load buf p n).
Proof.
  intros (H1 & H2 & H3). unfold load. assert ((0 <=? p) && (0 <=? n) && (p + n <=? Z.of_nat (length buf)) = true) as -> by lia.
  cbn. split; [by apply Forall_take, Forall_drop|]. rewrite length_take, length_drop. lia.
Qed.

Lemma toword_inside p : inside p 2 → runs (λ w, 0 ≤ w < 65536) (toword buf p).
Proof.
  intros H. eapply runs_bind; [by apply load_inside|]. intros bs [Hb Hl]. cbn. pose proof (le_val_range bs Hb) as Hr.
  rewrite Hl in Hr. exact Hr.
Qed.

Lemma todword_inside p : inside p 4 → runs (λ w, 0 ≤ w < 2 ^ 32 - 4) (todword buf p).
Proof.
  intros H. assert (runs (λ w, 0 ≤ w) (todword buf p)) as H0.
  { eapply runs_bind; [by apply load_inside|]. intros bs [Hb Hl]. cbn. apply (le_val_range bs Hb). }
  unfold no_huge_words in Hwords. rewrite forallb_forall in Hwords. destruct H as (H1 & H2 & H3).
  specialize (Hwords (Z.to_nat p)). rewrite Z2Nat.id in Hwords by done. destruct (todword buf p) as [w|e|]; [|done..]. cbn in *.
  unfold SIZEOF_LENGTH in Hwords. rewrite in_seq in Hwords. specialize (Hwords ltac:(lia)). lia.
Qed.

(** ** The decoder over a safe callback *)

Section decoder.
Context (cb : sproto_arg → dvalue → decode_ud → res (Z * decode_ud)).

(** The arguments that the decoder makes from a field. *)
Record asks (f : field) (args : sproto_arg) : Prop := {
  as_name : a_tagname args = f_name f; as_tag : a_tagid args = f_tag f; as_type : a_type args = elem_type f;
  as_sub : a_subtype args = f_st f; as_key : a_mainindex args = f_key f;
  as_kv : a_kv args ≠ None → 0 ≤ f_key f }.

(** A value that is no element of an array. *)
Definition alone (f : field) (args : sproto_arg) : Prop := a_index args = 0 → f_key f < 0.

Definition value_ok (f : field) (args : sproto_arg) (v : dvalue) : Prop :=
  match v with DNum _ => elem_type f ≠ SPROTO_TSTRUCT | DMem p => inside p (a_length args) end.

(** The fields of the type are decoded in the order of their tags; [cb] returns for each
    value, and remembers no array of a later field. *)
Definition safe_callback (st : sproto_type) : Prop := ∀ f args v ud, f ∈ t_f st → asks f args → dbefore (f_tag f + 1) ud →
  (0 ≤ a_index args ∧ alone f args ∧ value_ok f args v ∨ a_index args < 0 ∧ dbefore (f_tag f) ud) →
  runs (λ x, dbefore (f_tag f + 1) x.2) (cb args v ud).

Context (st : sproto_type) (Hst : st ∈ s_type sp) (Hcb : safe_callback st).

Lemma asks_with f args i n : asks f args → asks f (with_index i (with_length n args)).
Proof. by intros []. Qed.

Lemma numbers_safe f args k : f ∈ t_f st → asks f args → elem_type f ≠ SPROTO_TSTRUCT → ∀ read i ud, 0 ≤ i →
  (∀ j, i ≤ j < i + Z.of_nat k → runs (λ _, True) (read j)) → dbefore (f_tag f + 1) ud →
  runs (dbefore (f_tag f + 1)) (decode_numbers cb k read args i ud).
Proof.
  intros Hf Ha Ht read. induction k as [|k IH]; intros i ud Hi Hr Hb; cbn [decode_numbers]; [done|].
  eapply runs_bind; [apply (Hr i); lia|]. intros w _.
  eapply runs_bind; [apply (Hcb f (with_index (i + 1) (with_length 8 args)) (DNum w) ud); [done|by apply asks_with|done|left; unfold alone; cbn; split_and!; [lia|lia|done]]|].
  intros [r ud'] Hb'. apply IH; [lia| |done]. intros j Hj. apply Hr. lia.
Qed.

Lemma objects_safe f args fuel : f ∈ t_f st → asks f args → ∀ p sz i ud, 0 < i → sz < Z.of_nat fuel →
  inside p sz → dbefore (f_tag f + 1) ud →
  runs (some_then (dbefore (f_tag f + 1))) (decode_object_loop buf cb fuel args p sz i ud).
Proof.
  intros Hf Ha. unfold inside. induction fuel as [|fuel IH]; intros p sz i ud Hi Hfuel Hin Hb; cbn [decode_object_loop]; [lia|].
  destruct (Z.leb_spec sz 0); [done|]. unfold SIZEOF_LENGTH. destruct (Z.ltb_spec sz 4); [done|].
  eapply runs_bind; [apply todword_inside; unfold inside; lia|]. intros hsz Hh. cbv beta in Hh. rewrite wrap_small by lia.
  destruct (Z.ltb_spec (sz - 4) hsz); [done|]. rewrite swrap_small by (change (32 - 1) with 31; lia).
  eapply runs_bind; [apply (Hcb f (with_index i (with_length hsz args)) (DMem (p + 4)) ud); [done|by apply asks_with|done|left; unfold alone; cbn; unfold inside; lia]|].
  intros [r ud'] Hb'. destruct (negb (r =? 0)); [done|]. apply IH; [lia|lia|lia|done].
Qed.

Lemma empty_safe f args ud : f ∈ t_f st → asks f args → dbefore (f_tag f) ud →
  runs (some_then (dbefore (f_tag f + 1))) (decode_empty_array cb args ud).
Proof.
  intros Hf Ha Hb. unfold decode_empty_array.
  eapply runs_bind; [apply (Hcb f (with_index (-1) (with_length 0 args)) (DNum 0) ud); [done|by apply asks_with| |right; done]|].
  - intros t Ht. specialize (Hb t Ht). lia.
  - intros [r ud'] Hb'. by destruct (negb (r =? 0)).
Qed.

(** The data of [sz] bytes behind its length. *)
Definition sized_at (p sz : Z) : Prop := inside p (4 + sz) ∧ todword buf p = Ok sz ∧ 0 ≤ sz.

Lemma array_safe f args p sz ud : f ∈ t_f st → asks f args → sized_at p sz → dbefore (f_tag f) ud →
  runs (some_then (dbefore (f_tag f + 1))) (decode_array buf cb args p ud).
Proof.
  intros Hf Ha (Hin & Hsz & H0) Hb. unfold decode_array. rewrite Hsz. cbn [mbind res_bind]. unfold inside in Hin.
  assert (dbefore (f_tag f + 1) ud) as Hb' by (intros t Ht; specialize (Hb t Ht); lia).
  destruct (Z.eqb_spec sz 0); [by eapply empty_safe|]. rewrite (as_type _ _ Ha). unfold SIZEOF_LENGTH.
  destruct ((elem_type f =? SPROTO_TDOUBLE) || (elem_type f =? SPROTO_TINTEGER)) eqn:E1; [|destruct (elem_type f =? SPROTO_TBOOLEAN) eqn:E2].
  - assert (elem_type f ≠ SPROTO_TSTRUCT) as Ht by (unfold SPROTO_TDOUBLE, SPROTO_TINTEGER, SPROTO_TSTRUCT in *; lia).
    destruct (Z.eqb_spec (sz - 1) 0); [by eapply empty_safe|]. unfold read_byte.
    eapply (runs_bind (λ _, True)); [eapply runs_bind; [apply load_inside; unfold inside; lia|by intros]|]. intros len _.
    assert (∀ k n read, 0 < n → (sz - 1) / n = k → (∀ j, 0 ≤ j < k → runs (λ _, True) (read j)) →
      runs (some_then (dbefore (f_tag f + 1))) (ud ← decode_numbers cb (Z.to_nat k) read args 0 ud; Ok (Some ud))) as Hnum.
    { intros k n' read Hn Hk Hr. eapply runs_bind; [|intros ud' H'; exact H']. eapply numbers_safe; try done. intros j Hj. apply Hr. lia. }
    unfold SIZEOF_INT32, SIZEOF_INT64. destruct (len =? 4); [|destruct (len =? 8)]; [| |done].
    + destruct (negb _); [done|]. apply (Hnum _ 4); [lia|done|]. intros j Hj. unfold read_int32, SIZEOF_INT32.
      eapply runs_bind; [apply todword_inside; unfold inside; pose proof (Z.mul_div_le (sz - 1) 4); lia|by intros].
    + destruct (negb _); [done|]. apply (Hnum _ 8); [lia|done|]. intros j Hj. unfold read_int64, SIZEOF_INT64, SIZEOF_INT32.
      pose proof (Z.mul_div_le (sz - 1) 8).
      eapply runs_bind; [apply todword_inside; unfold inside; lia|]. intros low _.
      eapply runs_bind; [apply todword_inside; unfold inside; lia|by intros].
  - assert (elem_type f ≠ SPROTO_TSTRUCT) as Ht by (unfold SPROTO_TBOOLEAN, SPROTO_TSTRUCT in *; lia).
    eapply runs_bind; [|intros ud' H'; exact H']. eapply numbers_safe; try done. intros j Hj. unfold read_byte.
    eapply runs_bind; [apply load_inside; unfold inside; lia|by intros].
  - destruct ((elem_type f =? SPROTO_TSTRING) || (elem_type f =? SPROTO_TSTRUCT)); [|done]. unfold decode_array_object. rewrite swrap_small by (change (32 - 1) with 31; lia).
    eapply objects_safe; try done; [lia|unfold inside; lia].
Qed.

Lemma map_names_kv f : f ∈ t_f st → runs (λ kv, kv ≠ None → 0 ≤ f_key f) (map_names sp f).
Proof.
  intros Hf. pose proof (proj1 (Forall_forall _ _) (proj1 (Forall_forall _ _) Hmaps _ Hst) _ Hf) as [kv Hkv]. rewrite Hkv. cbn.
  pose proof (proj1 (Forall_forall _ _) (proj1 (Forall_forall _ _) Hkeys _ Hst) _ Hf) as [Hk _].
  intros Hne. apply Hk. unfold map_names in Hkv. destruct (Z.ltb_spec 0 (f_map f)); [done|]. injection Hkv as <-. done.
Qed.

Lemma plain_asks f n : f ∈ t_f st → is_array f = false → asks f (with_length n (field_arg f (f_type f) None)).
Proof.
  intros Hf Ha. split; try done. cbn. pose proof (proj1 (Forall_forall _ _) Hschema _ Hst) as [_ _ Hfs _ _].
  symmetry. by apply (type_plain sp f (proj1 (Forall_forall _ _) Hfs _ Hf) Ha).
Qed.

Lemma plain_key f : f ∈ t_f st → is_array f = false → f_key f < 0.
Proof.
  intros Hf Ha. pose proof (proj1 (Forall_forall _ _) (proj1 (Forall_forall _ _) Hkeys _ Hst) _ Hf) as [_ Hk].
  destruct (Z.leb_spec 0 (f_key f)) as [H|]; [|done]. rewrite (Hk H) in Ha. done.
Qed.

Lemma data_safe f p sz ud : f ∈ t_f st → sized_at p sz → dbefore (f_tag f) ud →
  runs (some_then (dbefore (f_tag f + 1))) (decode_data sp buf cb f p ud).
Proof.
  intros Hf Hat Hb. unfold decode_data. assert (dbefore (f_tag f + 1) ud) as Hb' by (intros t Ht; specialize (Hb t Ht); lia).
  destruct (is_array f) eqn:Ha.
  - eapply runs_bind; [by apply map_names_kv|]. intros kv Hkv. by eapply array_safe.
  - destruct Hat as (Hin & Hsz & H0). unfold inside in Hin. rewrite Hsz. pose proof (plain_asks f) as Hask. unfold call.
    assert (elem_type f = f_type f) as Et by exact (eq_sym (as_type _ _ (Hask 0 Hf Ha))).
    assert (∀ n v, value_ok f (with_length n (field_arg f (f_type f) None)) v →
      runs (λ x, dbefore (f_tag f + 1) x.2) (cb (with_length n (field_arg f (f_type f) None)) v ud)) as Hcall.
    { intros n v Hv. apply (Hcb f); [done|by apply Hask|done|left; split; [done|split; [by intros _; apply plain_key|done]]]. }
    destruct ((f_type f =? SPROTO_TDOUBLE) || (f_type f =? SPROTO_TINTEGER)) eqn:E1.
    + assert (elem_type f ≠ SPROTO_TSTRUCT) as Ht by (unfold SPROTO_TDOUBLE, SPROTO_TINTEGER, SPROTO_TSTRUCT in *; lia).
      cbn [mbind res_bind]. unfold SIZEOF_INT32, SIZEOF_INT64, SIZEOF_LENGTH. destruct (Z.eqb_spec sz 4); [|destruct (Z.eqb_spec sz 8)]; [| |done].
      * eapply runs_bind; [apply todword_inside; unfold inside; lia|]. intros v _.
        eapply runs_bind; [by apply Hcall|]. intros [r ud'] H'. exact H'.
      * cbn [negb]. eapply (runs_bind (λ _, True)).
        { unfold read_int64, SIZEOF_INT64, SIZEOF_INT32. eapply runs_bind; [apply todword_inside; unfold inside; lia|]. intros low _.
          eapply runs_bind; [apply todword_inside; unfold inside; lia|by intros]. }
        intros v _. eapply runs_bind; [by apply Hcall|]. intros [r ud'] H'. exact H'.
    + destruct ((f_type f =? SPROTO_TSTRING) || (f_type f =? SPROTO_TSTRUCT)); [|done]. cbn [mbind res_bind]. rewrite swrap_small by (change (32 - 1) with 31; lia). unfold SIZEOF_LENGTH.
      eapply runs_bind; [apply Hcall; cbn; unfold inside; lia|]. intros [r ud'] H'. by destruct (negb (r =? 0)).
Qed.

Lemma value_safe f value ud : f ∈ t_f st → dbefore (f_tag f) ud → runs (some_then (dbefore (f_tag f + 1))) (decode_value cb f value ud).
Proof.
  intros Hf Hb. unfold decode_value, call. destruct (negb _ && negb _) eqn:E; [done|].
  assert (is_array f = false) as Ha.
  { unfold is_array, SPROTO_TINTEGER, SPROTO_TBOOLEAN in *. assert (f_type f = 0 ∨ f_type f = 1) as [-> | ->] by lia; done. }
  pose proof (plain_asks f 8 Hf Ha) as Hask.
  eapply runs_bind; [apply (Hcb f); [done|done| |left; split; [done|split; [by intros _; apply plain_key|]]]|].
  - intros t Ht. specialize (Hb t Ht). lia.
  - cbn. pose proof (as_type _ _ Hask) as Et. cbn in Et. rewrite <- Et. unfold SPROTO_TINTEGER, SPROTO_TBOOLEAN, SPROTO_TSTRUCT in *. lia.
  - intros [r ud'] H'. exact H'.
Qed.

(** The records of a message, with the fields in the order of their tags. *)
Lemma loop_safe k : ∀ stream ds size tag ud, inside stream (2 * Z.of_nat k) → 0 ≤ size → inside ds size → dbefore (tag + 1) ud →
  runs (λ _, True) (decode_loop sp buf cb k st stream ds size tag ud).
Proof.
  induction k as [|k IH]; intros stream ds size tag ud Hs Hsize Hds Hb; cbn [decode_loop]; [done|]. unfold inside in Hs, Hds.
  eapply runs_bind; [apply toword_inside; unfold inside; lia|]. intros value Hv. cbv beta in Hv. unfold SIZEOF_FIELD.
  destruct (Z.land value 1 =? 1).
  { apply IH; [unfold inside; lia|done|done|]. intros t Ht. specialize (Hb t Ht). pose proof (Z.div_pos value 2). lia. }
  eapply (runs_bind (some_then (λ step, 0 ≤ step ≤ size ∧ (value / 2 - 1 < 0 → sized_at ds (step - 4))))).
  { destruct (Z.ltb_spec (value / 2 - 1) 0); [|cbn; split; [lia|lia]]. unfold data_size, SIZEOF_LENGTH.
    destruct (Z.ltb_spec size 4); [done|]. pose proof (todword_inside ds ltac:(unfold inside; lia)) as Hw.
    unfold sized_at. destruct (todword buf ds) as [sz|e|]; [|done..]. cbn in Hw. cbn [mbind res_bind]. rewrite !wrap_small by lia. cbn [runs].
    destruct (Z.ltb_spec size (sz + 4)); [done|]. cbn. replace (sz + 4 - 4) with sz by lia. unfold inside. split; [lia|]. intros _. split; [lia|]. split; [done|lia]. }
  intros [step|]; [|done]. cbn [some_then]. intros [Hstep Hdata].
  pose proof (findtag_spec _ st (tag + 1) (proj1 (Forall_forall _ _) Hschema _ Hst)) as Hft.
  eapply (runs_bind (some_then (dbefore (tag + 1 + 1)))).
  { destruct (findtag st (tag + 1)) as [f|]; [|cbn; intros t Ht; specialize (Hb t Ht); lia]. destruct Hft as (i & Hi & Ht).
    apply list_elem_of_lookup_2 in Hi. rewrite <- Ht in *.
    destruct (Z.ltb_spec (value / 2 - 1) 0); [eapply data_safe; [done|by apply Hdata|done]|by apply value_safe]. }
  intros [ud'|]; [|done]. intros H'. apply IH; [unfold inside; lia|lia|unfold inside; lia|done].
Qed.

Lemma decode_safe p size ud : inside p size → dbefore 0 ud → runs (λ _, True) (sproto_decode sp buf cb st p size ud).
Proof.
  intros Hin Hb. unfold inside in Hin. unfold sproto_decode, SIZEOF_HEADER, SIZEOF_FIELD. destruct (Z.ltb_spec size 2); [done|].
  eapply runs_bind; [apply toword_inside; unfold inside; lia|]. intros fn Hfn. cbv beta in Hfn.
  destruct (Z.ltb_spec (size - 2) (fn * 2)); [done|].
  eapply (runs_bind (λ _, True)); [apply loop_safe; [unfold inside; lia|lia|unfold inside; lia|done]|]. by intros.
Qed.
End decoder.

(** ** The callback of lsproto.c *)

Lemma rawset_runs fk nan pairs k v : runs (λ _, True) (rawset fk nan pairs k v).
Proof. destruct k; cbn; try done. by destruct (nan bits). Qed.

Lemma store_tag mi args v ud : runs (λ x, du_array_tag x.2 = du_array_tag ud) (store mi args v ud).
Proof. unfold store. destruct (0 <? _); [done|]. by destruct (mi =? _). Qed.

Lemma insert_tag args sub ud : runs (λ x, du_array_tag x.2 = du_array_tag ud) (insert_struct L args sub ud).
Proof.
  unfold insert_struct, array_insert. destruct (a_kv args) as [[kn vn]|].
  - destruct (_ || _); [done|].
    eapply (runs_bind (λ u, du_array_tag u = du_array_tag ud)); [eapply runs_bind; [apply rawset_runs|done]|done].
  - destruct (is_nil _); [done|].
    eapply (runs_bind (λ u, du_array_tag u = du_array_tag ud)); [eapply runs_bind; [apply rawset_runs|done]|done].
Qed.

Lemma new_array_tag f args ud : asks f args → 0 ≤ a_index args → dbefore (f_tag f + 1) ud →
  ∃ ud', new_array args ud = (false, ud') ∧ dbefore (f_tag f + 1) ud'.
Proof.
  intros Ha Hi Hb. unfold new_array. rewrite (as_tag _ _ Ha). destruct (_ || _); [by exists ud|].
  assert (a_index args <? 0 = false) as -> by lia. eexists. split; [done|]. intros t [= <-]. lia.
Qed.

Lemma plain_runs f args v : asks f args → value_ok f args v → runs (λ _, True) (decode_plain L buf args v).
Proof.
  intros Ha Hv. unfold decode_plain. destruct v as [u|p]; repeat (destruct (_ =? _); [done|]); [done|].
  destruct (_ =? _); [|done]. cbn in Hv. destruct (_ <? _); [done|]. eapply runs_bind; [by apply load_inside|]. by intros.
Qed.

Lemma callback_safe room mi st : st ∈ s_type sp → safe_callback (decode L sp buf room mi) st.
Proof.
  revert mi st. induction room as [|room IH]; intros mi st Hst f args v ud Hf Ha Hb Hv; [done|]. cbn [decode].
  destruct Hv as [(Hi & Hal & Hv)|(Hi & Hb')].
  2: { unfold new_array. rewrite (as_tag _ _ Ha). assert (a_index args =? 0 = false) as -> by lia. cbn [orb].
    rewrite bool_decide_eq_false_2 by (intros E; specialize (Hb' _ E); lia). assert (a_index args <? 0 = true) as -> by lia.
    cbn. intros t [= <-]. lia. }
  destruct (new_array_tag f args ud Ha Hi Hb) as (ud1 & -> & Hb1). rewrite (as_type _ _ Ha).
  assert (∀ x : Z * decode_ud, du_array_tag x.2 = du_array_tag ud1 → dbefore (f_tag f + 1) x.2) as Htag
    by (intros x E t Ht; apply Hb1; by rewrite <- E).
  destruct (Z.eqb_spec (elem_type f) SPROTO_TSTRUCT) as [Et|Et]; cbn [negb].
  2: { eapply runs_bind; [by eapply plain_runs|]. intros x _. eapply runs_weaken; [apply store_tag|exact Htag]. }
  destruct v as [u|p]; [done|]. destruct (struct_type sp f st Hschema Hst Hf Et) as (i & st' & Hs & Hg & Hst').
  rewrite (as_sub _ _ Ha), Hs. cbn [of_option mbind res_bind]. rewrite Hg. cbn [of_option mbind res_bind]. cbv zeta.
  eapply runs_bind; [apply decode_safe; [done|by apply IH|done|by intros t]|]. intros [[r sub]|] _; [|exact Hb1].
  destruct (negb _); [exact Hb1|]. destruct (Z.leb_spec 0 (a_mainindex args)).
  { destruct (Z.eqb_spec (a_index args) 0) as [E0|E0]; [specialize (Hal E0); rewrite (as_key _ _ Ha) in *; lia|].
    eapply runs_weaken; [apply insert_tag|exact Htag]. }
  destruct (a_kv args) eqn:Ekv; [|eapply runs_weaken; [apply store_tag|exact Htag]].
  exfalso. pose proof (as_kv _ _ Ha) as Hk. rewrite Ekv in Hk. specialize (Hk ltac:(done)). rewrite <- (as_key _ _ Ha) in Hk. lia.
Qed.
End safe.

(** C31: decoding a message of any bytes into any table, with a schema
    in which maps are keyed structs, ends in a table or an error and never reads outside
    of the message, if no four bytes in it are a number so close to 2^32 that the length
    check wraps. *)
Theorem sproto_decode_safe (L : lua_api) (sp : sproto) (st : sproto_type) (buf : list Z) (tbl : list (lval * lval)) :
  schema_ok sp →
  maps_ok sp → keys_ok sp →
  st ∈ s_type sp → Forall byte_ok buf → Z.of_nat (length buf) < 2 ^ 31 → no_huge_words buf = true →
  ldecode L sp buf (Some st) (Z.of_nat (length buf)) tbl ≠ Abort.
Proof.
  intros Hs Hm Hk Hst Hb Hl Hw. cbn [ldecode]. rewrite swrap_small by (change (32 - 1) with 31; lia).
  pose proof (decode_safe sp buf Hs Hm Hk Hb Hl Hw (decode L sp buf ENCODE_DEEPLEVEL (-1)) st Hst
    (callback_safe L sp buf Hs Hm Hk Hb Hl Hw ENCODE_DEEPLEVEL (-1) st Hst) 0 (Z.of_nat (length buf)) (DecodeUd None tbl VNil [])) as H.
  destruct (sproto_decode _ _ _ _ _ _ _) as [[[r ud]|]|e|]; cbn; try done.
  intros _. apply H; [unfold inside; lia|by intros t].
Qed.

Lemma sproto_decode_safe_witness :
  no_huge_words [1; 0; 0; 0; 255; 255; 255; 7; 1] = true ∧
  ldecode example_api example_schema [1; 0; 0; 0; 255; 255; 255; 7; 1] (Some example_type) 9 [] ≠ Abort.
Proof.
  split; [vm_compute; reflexivity|].
  apply (sproto_decode_safe example_api example_schema example_type [1; 0; 0; 0; 255; 255; 255; 7; 1] []).
  - exact (create_schema_ok example_bundle example_schema (bytes_ok example_bundle eq_refl) example_loads).
  - repeat (constructor; [repeat (constructor; [eexists; reflexivity|]); constructor|]). constructor.
  - repeat (constructor; [repeat (constructor; [cbn; lia|]); constructor|]). constructor.
  - by repeat constructor.
  - by apply bytes_ok.
  - cbn. lia.
  - vm_compute. reflexivity.
Defined.

(** ** The length that wraps *)

(** An array of integers that says it has 2^32 - 3 bytes. *)
Definition huge_array : list Z := [2; 0; 7; 0; 0; 0; 0xfd; 0xff; 0xff; 0xff; 4].

Lemma decode_numbers_abort {U} (cb : sproto_arg → dvalue → U → res (Z * U)) k read args i ud :
  0 < k → read i = Abort → decode_numbers cb (Z.to_nat k) read args i ud = Abort.
Proof. intros Hk Hr. destruct (Z.to_nat k) as [|n] eqn:E; [lia|]. cbn [decode_numbers]. by rewrite Hr. Qed.

(** The check of the length passes, and the first number is read behind the message. *)
Theorem sproto_decode_overreads : ldecode example_api example_schema huge_array (Some example_type) 11 [] = Abort.
Proof.
  unfold ldecode, sproto_decode. change (swrap 32 11) with 11. change (11 <? SIZEOF_HEADER) with false. cbn iota.
  change (toword huge_array 0) with (Ok 2). cbn [mbind res_bind].
  change (11 - SIZEOF_HEADER <? 2 * SIZEOF_FIELD) with false. cbn iota. change (Z.to_nat 2) with 2%nat. cbn [decode_loop].
  change (toword huge_array (0 + SIZEOF_HEADER)) with (Ok 7). cbn [mbind res_bind]. change (Z.land 7 1 =? 1) with true. cbn iota.
  change (toword huge_array (0 + SIZEOF_HEADER + SIZEOF_FIELD)) with (Ok 0). cbn [mbind res_bind]. change (Z.land 0 1 =? 1) with false. cbn iota.
  change (0 / 2 - 1 <? 0) with true. cbn iota.
  change (data_size huge_array (0 + SIZEOF_HEADER + 2 * SIZEOF_FIELD) (11 - SIZEOF_HEADER - 2 * SIZEOF_FIELD)) with (Ok (Some 1)).
  cbn [mbind res_bind]. change (findtag example_type (-1 + 1 + 7 / 2 + 1)) with (Some (Field 4 128 [110] None (-1) (-1) 0)). cbn iota.
  unfold decode_data. change (is_array (Field 4 128 [110] None (-1) (-1) 0)) with true. cbn iota.
  change (map_names example_schema (Field 4 128 [110] None (-1) (-1) 0)) with (@Ok (option (list Z * list Z)) None). cbn [mbind res_bind].
  unfold decode_array. change (todword huge_array (0 + SIZEOF_HEADER + 2 * SIZEOF_FIELD)) with (Ok 0xfffffffd). cbn [mbind res_bind].
  change (0xfffffffd =? 0) with false. change (elem_type (Field 4 128 [110] None (-1) (-1) 0)) with 0. cbn [field_arg a_type].
  change ((0 =? SPROTO_TDOUBLE) || (0 =? SPROTO_TINTEGER)) with true. cbn iota. change (0xfffffffd - 1 =? 0) with false. cbn iota.
  change (read_byte huge_array (0 + SIZEOF_HEADER + 2 * SIZEOF_FIELD + SIZEOF_LENGTH) 0) with (Ok 4). cbn [mbind res_bind].
  change (4 =? SIZEOF_INT32) with true. cbn iota. change (negb ((0xfffffffd - 1) mod SIZEOF_INT32 =? 0)) with false. cbn iota.
  rewrite decode_numbers_abort; [done|vm_compute; reflexivity|vm_compute; reflexivity].
Qed.
