(* ===== verification/SprotoDefault.v ===== *)
(** The rest of lsproto.c: protocols by name or tag, schemas shared between Lua states,
    and the table of default values of a type, which is built by encoding with a
    callback that writes nothing. *)
From Stdlib Require Import String.
From S2P Require Import Prelude Bytes Buffer CString Seri SprotoType SprotoSchema SprotoEncode SprotoSpec SprotoWire SprotoWrite SprotoEncodes SprotoRead.
Local Open Scope Z_scope.

(** ** Protocols *)

(** What [lprotocol] is asked for. *)
Inductive proto_key := ByTag (tag : Z) | ByName (name : list Z).

(** The response: a type, nil on purpose, or none. *)
Inductive response := RType (i : Z) | RNil | RNone.

(** The name or the tag that was not given, the request and the response. *)
Definition lprotocol (sp : sproto) (key : proto_key) : option (lval * option Z * response) :=
  '(v, tag) ← (match key with
               | ByTag n => let tag := swrap 32 n in name ← sproto_protoname sp tag; Some (VStr name, tag)
               | ByName name => let tag := sproto_prototag sp name in if tag <? 0 then None else Some (VInt tag, tag)
               end);
  Some (v, sproto_protoquery sp tag 0,
        match sproto_protoquery sp tag 1 with
        | Some i => RType i
        | None => if sproto_protoresponse sp tag then RNil else RNone
        end).

(** ** Schemas for all Lua states *)

Definition MAX_GLOBALSPROTO : Z := 16.

(** [G_sproto]. *)
Definition lsaveproto {A} (G : list (option A)) (sp : option A) (index : Z) : res (list (option A)) :=
  if (index <? 0) || (MAX_GLOBALSPROTO <=? index) then Err EKey else of_option (aset G index sp).

Definition lloadproto {A} (G : list (option A)) (index : Z) : res A :=
  if (index <? 0) || (MAX_GLOBALSPROTO <=? index) then Err EKey
  else sp ← of_option (aget G index); match sp with Some sp => Ok sp | None => Err ENull end.

(** ** Default values *)

Definition type_key : lval := VStr (str "__type"%string).
Definition array_key : lval := VStr (str "__array"%string).

Definition push_default (sp : sproto) (args : sproto_arg) (table : bool) : res lval :=
  let type := a_type args in
  if type =? SPROTO_TINTEGER then Ok (if negb (a_extra args =? 0) then VReal 0 else VInt 0)
  else if type =? SPROTO_TDOUBLE then Ok (VReal 0)
  else if type =? SPROTO_TBOOLEAN then Ok (VBool false)
  else if type =? SPROTO_TSTRING then Ok (VStr [])
  else if type =? SPROTO_TSTRUCT then
    i ← of_option (a_subtype args);
    st ← of_option (aget (s_type sp) i);
    Ok (if table then VStr (t_name st) else VTab [(type_key, VStr (t_name st))])
  else Err EType.

Definition encode_default (sp : sproto) (args : sproto_arg) (tbl : list (lval * lval))
    : res (Z * list Z * list (lval * lval)) :=
  if 0 <? a_index args then
    v ← push_default sp args true;
    Ok (SPROTO_CB_NOARRAY, [], tab_set tbl (VStr (a_tagname args)) (VTab [(array_key, v)]))
  else
    v ← push_default sp args false;
    Ok (SPROTO_CB_NIL, [], tab_set tbl (VStr (a_tagname args)) v).

(** A try with a buffer that is too small leaves entries in the table; the next one sets
    them again. *)
Fixpoint ldefault_loop (fuel : nat) (sp : sproto) (st : sproto_type) (sz : Z) : res (list (lval * lval)) :=
  match fuel with
  | O => Abort
  | S fuel =>
      r ← sproto_encode_ud sp (encode_default sp) st sz [];
      match r with Some (_, tbl) => Ok tbl | None => ldefault_loop fuel sp st (sz * 2) end
  end.

Definition DUMMY_SIZE : Z := 64.

Definition ldefault (sp : sproto) (st : sproto_type) : res (list (lval * lval)) := ldefault_loop 16 sp st DUMMY_SIZE.

(** ** The defaults of a type *)

(** The default of a field, or of the elements of an array. *)
Definition default_value (sp : sproto) (f : field) (table : bool) : lval :=
  let t := elem_type f in
  if t =? SPROTO_TINTEGER then if negb (f_extra f =? 0) then VReal 0 else VInt 0
  else if t =? SPROTO_TDOUBLE then VReal 0
  else if t =? SPROTO_TBOOLEAN then VBool false
  else if t =? SPROTO_TSTRING then VStr []
  else
    let name := match f_st f ≫= aget (s_type sp) with Some st => t_name st | None => [] end in
    if table then VStr name else VTab [(type_key, VStr name)].

Definition default_of (sp : sproto) (f : field) : lval * lval :=
  (VStr (f_name f), if is_array f then VTab [(array_key, default_value sp f true)] else default_value sp f false).

Section default.
Context (sp : sproto).

Lemma push_default_spec f args table : field_ok (Z.of_nat (length (s_type sp))) f → a_type args = elem_type f → a_subtype args = f_st f →
  a_extra args = f_extra f → push_default sp args table = Ok (default_value sp f table).
Proof.
  intros Hok Ht Hs He. unfold push_default, default_value. rewrite Ht, He. pose proof (type_array sp f Hok) as Htc.
  destruct (Z.eqb_spec (elem_type f) SPROTO_TINTEGER); [done|]. destruct (Z.eqb_spec (elem_type f) SPROTO_TDOUBLE); [done|].
  destruct (Z.eqb_spec (elem_type f) SPROTO_TBOOLEAN); [done|]. destruct (Z.eqb_spec (elem_type f) SPROTO_TSTRING); [done|].
  assert (elem_type f = SPROTO_TSTRUCT) as E
    by (unfold type_code, SPROTO_TDOUBLE, SPROTO_TINTEGER, SPROTO_TBOOLEAN, SPROTO_TSTRUCT, SPROTO_TSTRING in *; lia).
  rewrite E, Z.eqb_refl, Hs. destruct (struct_index sp f Hok E) as (i & st' & -> & Hst). cbn [of_option mbind res_bind option_bind]. by rewrite Hst.
Qed.

(** Entries for the fields [fs] behind those that are there. *)
Definition add_defaults (fs : list field) (tbl : list (lval * lval)) : list (lval * lval) :=
  fold_left (λ tbl f, tab_set tbl (default_of sp f).1 (default_of sp f).2) fs tbl.

Lemma encode_field_default f size tbl : field_ok (Z.of_nat (length (s_type sp))) f → (∃ kv, map_names sp f = Ok kv) → 0 ≤ size →
  ∃ out, (out = ENone ∨ out = EData []) ∧
    outcome (encode_field sp (encode_default sp) f size tbl) (out, add_defaults [f] tbl) True (8 ≤ size).
Proof.
  intros Hok [kv Hkv] Hs. unfold encode_field, add_defaults, default_of. cbn [fold_left fst snd]. destruct (is_array f) eqn:Ha.
  - exists (EData []). split; [by right|]. rewrite Hkv. cbn [mbind res_bind].
    assert (∀ i n, 0 < i → encode_default sp (with_index i (with_length n (field_arg f (elem_type f) kv))) tbl =
      Ok (SPROTO_CB_NOARRAY, [], tab_set tbl (VStr (f_name f)) (VTab [(array_key, default_value sp f true)]))) as Hcb.
    { intros i n Hi. unfold encode_default. cbn [a_index with_index]. assert (0 <? i = true) as -> by lia.
      by rewrite (push_default_spec f). }
    unfold encode_array, SIZEOF_LENGTH. destruct (Z.ltb_spec size 4); [right; split; [lia|done]|].
    destruct ((_ =? SPROTO_TDOUBLE) || _); [|destruct (_ =? SPROTO_TBOOLEAN)].
    + unfold encode_integer_array. destruct (Z.ltb_spec (size - 4) 1); [right; split; [lia|done]|]. cbn [integer_loop].
      rewrite Hcb by lia. by left.
    + cbn [boolean_loop]. rewrite Hcb by lia. by left.
    + unfold encode_array_object. cbn [object_loop]. unfold SIZEOF_LENGTH. destruct (Z.ltb_spec (size - 4) 4); [right; split; [lia|done]|].
      rewrite Hcb by lia. by left.
  - destruct (type_plain sp f Hok Ha) as [Et Ht].
    assert (∀ n, encode_default sp (with_length n (field_arg f (f_type f) None)) tbl =
      Ok (SPROTO_CB_NIL, [], tab_set tbl (VStr (f_name f)) (default_value sp f false))) as Hcb.
    { intros n. unfold encode_default. cbn [a_index with_length field_arg]. change (0 <? 0) with false. cbn iota.
      by rewrite (push_default_spec f). }
    destruct ((f_type f =? SPROTO_TDOUBLE) || (f_type f =? SPROTO_TINTEGER) || (f_type f =? SPROTO_TBOOLEAN)) eqn:Eq.
    + exists ENone. split; [by left|]. unfold encode_scalar. rewrite Hcb. by left.
    + exists (EData []). split; [by right|].
      assert ((f_type f =? SPROTO_TSTRUCT) || (f_type f =? SPROTO_TSTRING) = true) as ->
        by (unfold type_code, SPROTO_TDOUBLE, SPROTO_TINTEGER, SPROTO_TBOOLEAN, SPROTO_TSTRUCT, SPROTO_TSTRING in *; lia).
      unfold encode_object, SIZEOF_LENGTH. destruct (Z.ltb_spec size 4); [right; split; [lia|done]|].
      rewrite Hcb. by left.
Qed.

Lemma encode_loop_default maxn fs : Forall (field_ok (Z.of_nat (length (s_type sp)))) fs → Forall (λ f, ∃ kv, map_names sp f = Ok kv) fs →
  ∀ es tbl, 0 ≤ es_size es →
  outcome (encode_loop sp (encode_default sp) maxn fs es tbl) (inl es, add_defaults fs tbl) True (8 ≤ es_size es).
Proof.
  intros Hok Hmap es tbl Hs. revert tbl. induction fs as [|f fs IH]; intros tbl; [by left|]. apply Forall_cons in Hok as [Hf Hok], Hmap as [Hm Hmap].
  cbn [encode_loop]. destruct (encode_field_default f (es_size es) tbl Hf Hm Hs) as (out & Hout & [[_ ->]|[Hn ->]]); [|by right].
  cbn [mbind res_bind]. destruct Hout as [-> | ->]; apply (IH Hok Hmap (add_defaults [f] tbl)).
Qed.

Lemma add_defaults_fresh fs : NoDup (map f_name fs) → ∀ tbl, Forall (λ f, Forall (λ x, raw_eq x.1 (VStr (f_name f)) = false) tbl) fs →
  add_defaults fs tbl = tbl ++ map (default_of sp) fs.
Proof.
  intros Hnd. induction fs as [|f fs IH]; intros tbl H; [by rewrite app_nil_r|]. apply NoDup_cons in Hnd as [Hf Hnd]. apply Forall_cons in H as [H1 H2].
  unfold add_defaults in *. cbn [fold_left map]. assert (is_nil (default_of sp f).2 = false) as Hnil.
  { unfold default_of, default_value. cbn [snd]. destruct (is_array f); [done|]. repeat (destruct (_ =? _); try (by destruct (negb _)); try done). }
  rewrite tab_set_fresh by done. rewrite IH; [by rewrite <- app_assoc|done|]. apply Forall_forall. intros g Hg. apply Forall_app.
  split; [by eapply Forall_forall in H2|]. constructor; [|done]. cbn. apply bool_decide_eq_false_2. intros E. apply Hf. rewrite E. by apply list_elem_of_fmap_2.
Qed.
End default.

Lemma maxn_bound sp fs last : Forall (field_ok (Z.of_nat (length (s_type sp)))) fs → last < 0x8000 → ascending last fs →
  Z.of_nat (length fs) + gaps last fs ≤ 0x7fff - last.
Proof.
  intros Hf. revert last. induction Hf as [|f fs [Ht _] _ IH]; intros last Hl Ha; [cbn; lia|]. destruct Ha as [Hlt Ha].
  specialize (IH (f_tag f) ltac:(lia) Ha). cbn [length gaps]. destruct (Z.ltb_spec (last + 1) (f_tag f)); lia.
Qed.

(** The table of defaults has one entry for each field, whatever the size of the type. *)
Theorem ldefault_spec (sp : sproto) (st : sproto_type) : schema_ok sp → maps_ok sp → names_ok sp → st ∈ s_type sp →
  ldefault sp st = Ok (map (default_of sp) (t_f st)).
Proof.
  intros Hs Hm Hn Hst. pose proof (proj1 (Forall_forall _ _) Hs _ Hst) as [_ Ha Hf Hx _].
  pose proof (maxn_bound sp (t_f st) (-1) Hf ltac:(lia) Ha) as Hmax. pose proof (gaps_nonneg (-1) (t_f st)).
  pose proof (proj1 (Forall_forall _ _) Hm _ Hst) as Hmap. pose proof (proj1 (Forall_forall _ _) Hn _ Hst) as Hnd.
  assert (∀ sz, outcome (sproto_encode_ud sp (encode_default sp) st sz []) ([0; 0], map (default_of sp) (t_f st)) True
    (2 + 2 * t_maxn st + 8 ≤ sz)) as Ho.
  { intros sz. unfold sproto_encode_ud, SIZEOF_HEADER, SIZEOF_FIELD. destruct (Z.ltb_spec sz (2 + t_maxn st * 2)); [right; split; [lia|done]|].
    destruct (encode_loop_default sp (t_maxn st) (t_f st) Hf Hmap (EncState 0 (-1) [] [] (sz - (2 + t_maxn st * 2))) []) as [[_ ->]|[Hno ->]];
      [cbn; lia| |right; split; [cbn in *; lia|done]].
    left. split; [done|]. cbn [mbind res_bind]. rewrite (add_defaults_fresh sp) by (done || (by apply Forall_forall; intros; constructor)). done. }
  unfold ldefault. assert (65546 ≤ DUMMY_SIZE * 2 ^ Z.of_nat 15) as Hfuel by (unfold DUMMY_SIZE; lia).
  assert (0 < DUMMY_SIZE) as H0 by done. change 16%nat with (S 15). revert Hfuel H0. generalize DUMMY_SIZE. generalize 15%nat. intros k.
  induction k as [|k IH]; intros sz Hfuel H0; cbn [ldefault_loop].
  - destruct (Ho sz) as [[_ ->]|[Hno _]]; [done|]. rewrite Z.mul_1_r in Hfuel. lia.
  - destruct (Ho sz) as [[_ ->]|[Hno ->]]; [done|]. cbn [mbind res_bind]. apply IH; [|lia]. rewrite Nat2Z.inj_succ, Z.pow_succ_r in Hfuel by lia. lia.
Qed.
