(* ===== verification/SocketBuffer.v ===== *)
(** The buffers of the Lua socket library (src/framework/skynet/lualib-src/lua-socket.c).

    A socket has a [socket_buffer]: a linked list of the blocks that the socket server
    gave, of which the first has been read up to [sb_offset].  The nodes of all the
    buffers of a service come from one pool, which grows by chunks.  [pl_mem] is the
    memory of the chunks, one behind the other, and a pointer to a node is an index.  The
    operations are actions on a buffer and the pool; what they emit are the blocks that
    [skynet_free] gets.  Errors in the types of the Lua arguments and the warning about
    the size of the pool are left out. *)
From S2P Require Import Prelude Bytes Effect Links Databuffer.
Local Open Scope Z_scope.

Definition LARGE_PAGE_NODE : Z := 12.

(** [msg], [sz] and [next], like a node of the gate. *)
Notation buffer_node := message (only parsing).

Record socket_buffer := SocketBuffer {
  sb_size : Z; sb_offset : Z; sb_head : option Z; sb_tail : option Z;
}.

(** The pool table: the number of nodes of each chunk, and the first free node, which is
    the element 1. *)
Record pool := Pool { pl_chunks : list Z; pl_free : option Z; pl_mem : list buffer_node }.

Notation B := (eff (socket_buffer * pool) (list Z)).

Definition pool_zero : pool := Pool [] None [].

Definition set_sb (sb : socket_buffer) : B () := '(_, pl) ← state; put (sb, pl).
Definition sb_set_size (size : Z) (sb : socket_buffer) : socket_buffer :=
  SocketBuffer size (sb_offset sb) (sb_head sb) (sb_tail sb).
Definition sb_set_offset (offset : Z) (sb : socket_buffer) : socket_buffer :=
  SocketBuffer (sb_size sb) offset (sb_head sb) (sb_tail sb).

(** ** The pool *)

(** A chunk of [sz] nodes at [base]. *)
Definition lnewpool (base sz : Z) : list buffer_node :=
  map (λ i, Message None 0 (if i =? sz - 1 then None else Some (base + i + 1))) (seqZ 0 sz).

(** The size of a chunk, when the table has [tsz] elements. *)
Definition chunk_size (tsz : Z) : Z :=
  Z.shiftl 8 (if tsz <=? LARGE_PAGE_NODE - 3 then tsz else LARGE_PAGE_NODE - 3).

(** [k] nodes of a chunk from [p] on. *)
Fixpoint lfreepool (k : nat) (p : Z) : eff (list buffer_node) (list Z) () :=
  match k with
  | O => mret tt
  | S k =>
    mem ← state;
    node ← lift (aget mem p);
    emits (option_list (m_buffer node)) ;;
    mem ← lift (aset mem p (Message None (m_size node) (m_next node)));
    put mem ;;
    lfreepool k (p + 1)
  end.

(** The end of the Lua state, which collects all the chunks. *)
Fixpoint free_chunks (chunks : list Z) (p : Z) : eff (list buffer_node) (list Z) () :=
  match chunks with
  | [] => mret tt
  | n :: chunks => lfreepool (Z.to_nat n) p ;; free_chunks chunks (p + n)
  end.

Definition take_node (pl : pool) : option (Z * pool) :=
  let '(p, chunks, mem) :=
    match pl_free pl with
    | Some p => (p, pl_chunks pl, pl_mem pl)
    | None =>
      let base := Z.of_nat (length (pl_mem pl)) in
      let size := chunk_size (1 + Z.of_nat (length (pl_chunks pl))) in
      (base, pl_chunks pl ++ [size], pl_mem pl ++ lnewpool base size)
    end in
  m ← aget mem p;
  Some (p, Pool chunks (m_next m) mem).

(** ** Pushing and returning blocks *)

Definition lnewbuffer : socket_buffer := SocketBuffer 0 0 None None.

(** The new size of the buffer. *)
Definition lpushbuffer (msg : list Z) (sz : Z) : B Z :=
  '(sb, pl) ← state;
  '(p, pl) ← lift (take_node pl);
  mem ← lift (aset (pl_mem pl) p (Message (Some msg) sz None));
  '(head, mem) ← match sb_head sb with
                 | None => lift (c_assert (bool_decide (sb_tail sb = None))) ;; mret (Some p, mem)
                 | Some _ =>
                   t ← lift (sb_tail sb);
                   m ← lift (aget mem t);
                   mem ← lift (aset mem t (Message (m_buffer m) (m_size m) (Some p)));
                   mret (sb_head sb, mem)
                 end;
  size ← lift (c_int (sb_size sb + sz));
  put (SocketBuffer size (sb_offset sb) head (Some p), Pool (pl_chunks pl) (pl_free pl) mem) ;;
  mret size.

Definition return_free_node : B () :=
  '(sb, pl) ← state;
  p ← lift (sb_head sb);
  m ← lift (aget (pl_mem pl) p);
  emits (option_list (m_buffer m)) ;;
  mem ← lift (aset (pl_mem pl) p (Message None 0 (pl_free pl)));
  put (SocketBuffer (sb_size sb) 0 (m_next m) (match m_next m with None => None | Some _ => sb_tail sb end),
       Pool (pl_chunks pl) (Some p) mem).

(** ** Reading *)

(** The loop of [pop_lstring]: the string that it builds. *)
Fixpoint pop_loop (fuel : nat) (sz skip : Z) : B (list Z) :=
  match fuel with
  | O => lift None
  | S fuel =>
    '(sb, pl) ← state;
    p ← lift (sb_head sb);
    current ← lift (aget (pl_mem pl) p);
    msg ← lift (m_buffer current);
    bytes ← lift (c_int (m_size current - sb_offset sb));
    if sz <=? bytes then
      data ← (if skip <? sz then lift (block_read msg (sb_offset sb) (sz - skip)) else mret []);
      set_sb (sb_set_offset (sb_offset sb + sz) sb) ;;
      (if bytes =? sz then return_free_node else mret tt) ;;
      mret data
    else
      let real_sz := sz - skip in
      data ← (if 0 <? real_sz
              then lift (block_read msg (sb_offset sb) (if real_sz <? bytes then real_sz else bytes)) else mret []);
      return_free_node ;;
      if sz - bytes =? 0 then mret data
      else rest ← pop_loop fuel (sz - bytes) skip; mret (data ++ rest)
  end.

(** [sz] bytes, of which the last [skip] are left out of the string. *)
Definition pop_lstring (sz skip : Z) : B (list Z) :=
  '(sb, pl) ← state;
  p ← lift (sb_head sb);
  current ← lift (aget (pl_mem pl) p);
  msg ← lift (m_buffer current);
  bytes ← lift (c_int (m_size current - sb_offset sb));
  if sz <? bytes then
    data ← lift (block_read msg (sb_offset sb) (sz - skip));
    set_sb (sb_set_offset (sb_offset sb + sz) sb) ;;
    mret data
  else if sz =? bytes then
    data ← lift (block_read msg (sb_offset sb) (sz - skip));
    return_free_node ;;
    mret data
  else pop_loop (S (length (pl_mem pl))) sz skip.

Definition shrink (sz : Z) : B Z :=
  '(sb, _) ← state;
  size ← lift (c_int (sb_size sb - sz));
  set_sb (sb_set_size size sb) ;;
  mret size.

(** The string, or nil, and the size of the buffer after it. *)
Definition lpopbuffer (sz : Z) : B (option (list Z) * Z) :=
  '(sb, _) ← state;
  if (sb_size sb <? sz) || (sz =? 0) then mret (None, sb_size sb)
  else
    data ← pop_lstring sz 0;
    size ← shrink sz;
    mret (Some data, size).

Fixpoint clear_nodes (fuel : nat) : B () :=
  '(sb, _) ← state;
  match sb_head sb with
  | None => mret tt
  | Some _ =>
    match fuel with
    | O => lift None
    | S fuel => return_free_node ;; clear_nodes fuel
    end
  end.

Definition lclearbuffer : B () :=
  '(_, pl) ← state;
  clear_nodes (length (pl_mem pl)) ;;
  '(sb, _) ← state;
  set_sb (sb_set_size 0 sb).

Fixpoint readall_loop (fuel : nat) : B (list Z) :=
  '(sb, pl) ← state;
  match sb_head sb with
  | None => mret []
  | Some p =>
    match fuel with
    | O => lift None
    | S fuel =>
      current ← lift (aget (pl_mem pl) p);
      msg ← lift (m_buffer current);
      data ← lift (block_read msg (sb_offset sb) (m_size current - sb_offset sb));
      return_free_node ;;
      rest ← readall_loop fuel;
      mret (data ++ rest)
    end
  end.

Definition lreadall : B (list Z) :=
  '(_, pl) ← state;
  data ← readall_loop (length (pl_mem pl));
  '(sb, _) ← state;
  set_sb (sb_set_size 0 sb) ;;
  mret data.

(** ** Lines *)

(** Whether [sep] is at [from] in the block of [node], and goes on in those behind it. *)
Fixpoint check_sep (fuel : nat) (mem : list buffer_node) (node from : Z) (sep : list Z) : option bool :=
  match fuel with
  | O => None
  | S fuel =>
    m ← aget mem node;
    msg ← m_buffer m;
    sz ← c_int (m_size m - from);
    let seplen := Z.of_nat (length sep) in
    if seplen <=? sz then data ← block_read msg from seplen; Some (bool_decide (data = sep))
    else if sz <? 0 then None
    else
      data ← (if 0 <? sz then block_read msg from sz else Some []);
      if bool_decide (data = take (Z.to_nat sz) sep) then
        next ← m_next m;
        check_sep fuel mem next 0 (drop (Z.to_nat sz) sep)
      else Some false
  end.

(** The loop of [lreadline] over the [k] positions from [i] on; [bytes] are left in the
    block of [current] from [from] on. *)
Fixpoint find_sep (k : nat) (mem : list buffer_node) (current from bytes i : Z) (sep : list Z) : option (option Z) :=
  match k with
  | O => Some None
  | S k =>
    found ← check_sep (S (length mem)) mem current from sep;
    if (found : bool) then Some (Some i)
    else if bytes - 1 =? 0 then
      m ← aget mem current;
      match m_next m with
      | None => Some None
      | Some next => m ← aget mem next; find_sep k mem next 0 (m_size m) (i + 1) sep
      end
    else find_sep k mem current (from + 1) (bytes - 1) (i + 1) sep
  end.

(** What [lreadline] returns: nothing, true, or the line. *)
Inductive line := NoLine | IsLine | Line (s : list Z).

Definition lreadline (check : bool) (sep : list Z) : B line :=
  '(sb, pl) ← state;
  let seplen := Z.of_nat (length sep) in
  match sb_head sb with
  | None => mret NoLine
  | Some p =>
    current ← lift (aget (pl_mem pl) p);
    bytes ← lift (c_int (m_size current - sb_offset sb));
    found ← lift (find_sep (Z.to_nat (sb_size sb - seplen + 1)) (pl_mem pl) p (sb_offset sb) bytes 0 sep);
    match found with
    | None => mret NoLine
    | Some i =>
      if check then mret IsLine
      else
        data ← pop_lstring (i + seplen) seplen;
        shrink (i + seplen) ;;
        mret (Line data)
    end
  end.

(** The length in front of a package; [inl]: the error "Invalid read". *)
Definition lheader (s : list Z) : unit + Z :=
  if (4 <? Z.of_nat (length s)) || (Z.of_nat (length s) <? 1) then inl tt
  else inr (foldl (λ sz b, wrap 64 (Z.lor (wrap 64 (Z.shiftl sz 8)) b)) 0 s).

(** ** The pool is sound *)

Definition mp_of (pl : pool) : messagepool := MessagePool [] (pl_free pl) (pl_mem pl).

(** The nodes [U] are in use, all others are free and hold no block. *)
Record pool_inv (pl : pool) (U : list Z) : Prop := {
  pv_ok : pool_ok (mp_of pl) U;
  pv_clean : ∀ p m, aget (pl_mem pl) p = Some m → p ∉ U → m_buffer m = None;
  pv_chunks : Z.of_nat (length (pl_mem pl)) = foldr Z.add 0 (pl_chunks pl);
  pv_sizes : Forall (λ n, 0 ≤ n) (pl_chunks pl);
}.

(** The nodes of [R] are as before. *)
Definition same_cells (pl pl' : pool) (R : list Z) : Prop :=
  ∀ p, p ∈ R → aget (pl_mem pl') p = aget (pl_mem pl) p.

Lemma same_cells_trans pl1 pl2 pl3 R : same_cells pl1 pl2 R → same_cells pl2 pl3 R → same_cells pl1 pl3 R.
Proof. intros H1 H2 p Hp. by rewrite H2, H1. Qed.

Lemma pool_inv_zero : pool_inv pool_zero [].
Proof. split; [by exists []|by intros p m ?%aget_Some_range; cbn in *; lia|done|constructor]. Qed.

Lemma pool_inv_perm pl U U' : U ≡ₚ U' → pool_inv pl U → pool_inv pl U'.
Proof.
  intros HU [H1 H2 H3 H4]. split; [by eapply pool_ok_perm| |done|done].
  intros p m E Hp. apply (H2 p m E). by rewrite HU.
Qed.

Lemma pool_inv_nodup pl U : pool_inv pl U → NoDup U ∧ ∀ p, p ∈ U → 0 ≤ p < Z.of_nat (length (pl_mem pl)).
Proof. intros [H _ _ _]. apply (pool_nodup _ _ H). Qed.

Lemma pool_inv_short pl L R : pool_inv pl (L ++ R) → (length L ≤ length (pl_mem pl))%nat.
Proof. intros [H _ _ _]. apply (pool_short _ _ _ H). Qed.

Lemma pool_inv_cell pl U p : pool_inv pl U → p ∈ U → ∃ m, aget (pl_mem pl) p = Some m.
Proof. intros [H _ _ _]. by apply (used_cell _ _ _ H). Qed.

(** A node in use changes. *)
Lemma pool_inv_aset pl U p m mem :
  pool_inv pl U → p ∈ U → aset (pl_mem pl) p m = Some mem →
  pool_inv (Pool (pl_chunks pl) (pl_free pl) mem) U.
Proof.
  intros [H1 H2 H3 H4] Hp E. split; [by apply (pool_ok_aset _ _ _ _ _ H1 Hp E)| | |done].
  - intros x m' E' Hx. cbn [pl_mem] in E'. rewrite (aset_other _ _ _ _ _ E) in E' by congruence. by eapply H2.
  - cbn [pl_mem pl_chunks]. by rewrite (length_aset _ _ _ _ E).
Qed.

(** The node [p] is returned. *)
Lemma pool_inv_return pl p U mem :
  pool_inv pl (p :: U) → aset (pl_mem pl) p (Message None 0 (pl_free pl)) = Some mem →
  pool_inv (Pool (pl_chunks pl) (Some p) mem) U.
Proof.
  intros [(F & HF & HP) H2 H3 H4] E. split; [| | |done].
  - exists (p :: F). cbn [mp_of mp_mem mp_freelist pl_mem pl_free] in *. rewrite (length_aset _ _ _ _ E). split.
    + apply (path_cons _ _ (pl_free pl)); [unfold mlink; by rewrite (aget_aset_eq _ _ _ _ E)|].
      eapply path_ext; [|done]. intros x Hx. unfold mlink. rewrite (aset_other _ _ _ _ _ E); [done|].
      intros ->. pose proof (NoDup_seqZ 0 (Z.of_nat (length (pl_mem pl)))) as HN. rewrite <- HP in HN.
      apply NoDup_app in HN as (_ & HN & _). apply (HN p Hx). by left.
    + rewrite <- HP. cbn [app]. by rewrite Permutation_middle.
  - intros x m E' Hx. cbn [pl_mem] in E'. destruct (decide (x = p)) as [->|Hne].
    + rewrite (aget_aset_eq _ _ _ _ E) in E'. by injection E' as <-.
    + rewrite (aset_other _ _ _ _ _ E) in E' by done. apply (H2 x m E'). by intros [->|?]%elem_of_cons.
  - cbn [pl_mem pl_chunks]. by rewrite (length_aset _ _ _ _ E).
Qed.

Lemma lnewpool_cell (mem : list buffer_node) sz i :
  0 ≤ i < sz →
  aget (mem ++ lnewpool (Z.of_nat (length mem)) sz) (Z.of_nat (length mem) + i) =
  Some (Message None 0 (if i =? sz - 1 then None else Some (Z.of_nat (length mem) + i + 1))).
Proof.
  intros Hi. unfold lnewpool.
  replace (Z.of_nat (length mem) + i) with (Z.of_nat (length mem + Z.to_nat i)) by lia.
  rewrite aget_nat, lookup_app_r by lia. replace (length mem + Z.to_nat i - length mem)%nat with (Z.to_nat i) by lia.
  match goal with |- context [map ?f ?l] => change (map f l) with (f <$> l) end.
  rewrite list_lookup_fmap, lookup_seqZ_lt by lia. cbn [fmap option_fmap option_map].
  replace (0 + Z.of_nat (Z.to_nat i)) with i by lia. destruct (i =? sz - 1); [done|]. do 3 f_equal. lia.
Qed.

Lemma length_lnewpool base sz : 0 ≤ sz → Z.of_nat (length (lnewpool base sz)) = sz.
Proof. intros. unfold lnewpool. rewrite length_map, length_seqZ. lia. Qed.

Lemma lnewpool_path (mem : list buffer_node) sz (n : nat) :
  Z.of_nat (S n) ≤ sz →
  path (mlink (mem ++ lnewpool (Z.of_nat (length mem)) sz))
    (Some (Z.of_nat (length mem) + sz - Z.of_nat (S n)))
    (seqZ (Z.of_nat (length mem) + sz - Z.of_nat (S n)) (Z.of_nat (S n))) None.
Proof.
  induction n as [|n IH]; intros Hn; rewrite seqZ_cons by lia.
  - apply (path_cons _ _ None); [|done]. unfold mlink.
    replace (Z.of_nat (length mem) + sz - Z.of_nat 1) with (Z.of_nat (length mem) + (sz - 1)) by lia.
    rewrite lnewpool_cell by lia. by rewrite Z.eqb_refl.
  - apply (path_cons _ _ (Some (Z.of_nat (length mem) + sz - Z.of_nat (S n)))).
    + unfold mlink. replace (Z.of_nat (length mem) + sz - Z.of_nat (S (S n))) with
        (Z.of_nat (length mem) + (sz - Z.of_nat (S (S n)))) by lia.
      rewrite lnewpool_cell by lia. rewrite (proj2 (Z.eqb_neq _ _)) by lia. cbn. do 2 f_equal. lia.
    + replace (Z.succ (Z.of_nat (length mem) + sz - Z.of_nat (S (S n)))) with
        (Z.of_nat (length mem) + sz - Z.of_nat (S n)) by lia.
      replace (Z.pred (Z.of_nat (S (S n)))) with (Z.of_nat (S n)) by lia. apply IH. lia.
Qed.

Lemma chunk_size_bounds tsz : 1 ≤ tsz → 16 ≤ chunk_size tsz.
Proof.
  intros. unfold chunk_size. rewrite Z.shiftl_mul_pow2 by (destruct (tsz <=? _); unfold LARGE_PAGE_NODE; lia).
  assert (2 ^ 1 ≤ 2 ^ (if tsz <=? LARGE_PAGE_NODE - 3 then tsz else LARGE_PAGE_NODE - 3)); [|lia].
  apply Z.pow_le_mono_r; [lia|]. destruct (tsz <=? _); unfold LARGE_PAGE_NODE; lia.
Qed.

Lemma foldr_add_snoc l n : foldr Z.add 0 (l ++ [n]) = foldr Z.add 0 l + n.
Proof. induction l as [|x l IH]; cbn [app foldr]; [lia|]. rewrite IH. lia. Qed.

Lemma take_node_spec pl U :
  pool_inv pl U → ∃ p pl', take_node pl = Some (p, pl') ∧ pool_inv pl' (p :: U) ∧ same_cells pl pl' U.
Proof.
  intros [(F & HF & HP) H2 H3 H4]. cbn [mp_of mp_mem mp_freelist] in HF, HP. unfold take_node.
  destruct (pl_free pl) as [p|] eqn:Efree.
  - apply path_some in HF as (F' & q & -> & Hq & HF). unfold mlink in Hq.
    destruct (aget (pl_mem pl) p) as [m|] eqn:Em; [|done]. cbn in Hq. injection Hq as Hq. cbn [mbind option_bind].
    eexists _, _. split; [done|]. split; [|done]. split; [| |done|done].
    + exists F'. cbn [mp_of mp_mem mp_freelist pl_free pl_mem]. rewrite Hq. split; [done|].
      rewrite <- HP. cbn [app]. by rewrite <- Permutation_middle.
    + intros x mx Ex Hx. apply (H2 x mx Ex). set_solver.
  - apply path_none in HF as ->. cbn [app] in HP. set (mem := pl_mem pl) in *.
    set (n := chunk_size _). assert (16 ≤ n) as Hn by (apply chunk_size_bounds; lia).
    pose proof (lnewpool_cell mem n 0 ltac:(lia)) as E0. rewrite Z.add_0_r in E0. rewrite E0.
    cbn [mbind option_bind m_next]. rewrite (proj2 (Z.eqb_neq 0 (n - 1))) by lia.
    eexists _, _. split; [done|]. split; [split|].
    + exists (seqZ (Z.of_nat (length mem) + 1) (n - 1)). cbn [mp_of mp_mem mp_freelist pl_free pl_mem]. split.
      * pose proof (lnewpool_path mem n (Z.to_nat (n - 2)) ltac:(lia)) as Hp.
        by replace (Z.of_nat (S (Z.to_nat (n - 2)))) with (n - 1) in Hp by lia;
          replace (Z.of_nat (length mem) + n - (n - 1)) with (Z.of_nat (length mem) + 1) in Hp by lia.
      * rewrite length_app, Nat2Z.inj_add, length_lnewpool, (seqZ_app 0 (Z.of_nat (length mem)) n) by lia.
        rewrite (seqZ_cons (0 + _)), HP, Z.add_0_l by lia.
        rewrite <- Permutation_middle, <- Permutation_middle. constructor. by rewrite Permutation_app_comm.
    + intros x mx Ex Hx. cbn [pl_mem] in Ex. destruct (decide (x < Z.of_nat (length mem))) as [Hlt|Hge].
      * assert (x ∈ U) as Hin; [|set_solver]. rewrite HP. apply elem_of_seqZ.
        pose proof (aget_Some_range _ _ _ Ex). lia.
      * pose proof (aget_Some_range _ _ _ Ex) as Hr. rewrite length_app, Nat2Z.inj_add, length_lnewpool in Hr by lia.
        pose proof (lnewpool_cell mem n (x - Z.of_nat (length mem)) ltac:(lia)) as E2.
        replace (Z.of_nat (length mem) + (x - Z.of_nat (length mem))) with x in E2 by lia.
        rewrite E2 in Ex. by injection Ex as <-.
    + cbn [pl_mem pl_chunks]. by rewrite length_app, Nat2Z.inj_add, length_lnewpool, foldr_add_snoc, H3 by lia.
    + cbn [pl_chunks]. apply Forall_app. split; [done|]. constructor; [lia|constructor].
    + intros x Hx. assert (is_Some (aget mem x)) as [m Em].
      { apply aget_is_Some. rewrite HP in Hx. apply elem_of_seqZ in Hx. lia. }
      fold mem. rewrite Em. by apply aget_app_l.
Qed.

(** ** A buffer is a string *)

(** The buffer before its size is looked at.  All blocks hold bytes that were not read. *)
Record chain_of (sb : socket_buffer) (pl : pool) (L : list Z) (Ds : list (list Z)) (bytes : list Z) : Prop := {
  ch_chain : chain_ok (pl_mem pl) (sb_head sb) (sb_tail sb) L Ds;
  ch_full : Forall (λ d, d ≠ []) Ds;
  ch_offset : 0 ≤ sb_offset sb < Z.of_nat (length (default [0] (head Ds)));
  ch_bytes : bytes = drop (Z.to_nat (sb_offset sb)) (concat Ds);
}.

Definition sized_of (sb : socket_buffer) (pl : pool) (L : list Z) (Ds : list (list Z)) (bytes : list Z) : Prop :=
  chain_of sb pl L Ds bytes ∧ sb_size sb = Z.of_nat (length bytes) ∧ sb_size sb ≤ INT_MAX.

(** What an operation on one buffer does: the blocks [Ds] and the new ones are kept or
    freed, and the nodes [R] of other buffers stay as they are. *)
Definition result_of {A} (rep : socket_buffer → pool → list Z → list (list Z) → list Z → Prop) (R : list Z)
    (pl : pool) (Ds : list (list Z)) (bytes' : list Z) (x : A)
    (r : option (A * (socket_buffer * pool) * list (list Z))) : Prop :=
  ∃ sb' pl' freed L' Ds', r = Some (x, (sb', pl'), freed) ∧ rep sb' pl' L' Ds' bytes' ∧
    freed ++ Ds' = Ds ∧ pool_inv pl' (L' ++ R) ∧ same_cells pl pl' R.

Lemma chain_of_same sb pl pl' L Ds bytes :
  same_cells pl pl' L → chain_of sb pl L Ds bytes → chain_of sb pl' L Ds bytes.
Proof. intros Hs []. split; try done. by eapply chain_ok_ext. Qed.

Lemma sized_of_new pl : sized_of lnewbuffer pl [] [] [].
Proof. split; [|done]. split; [|constructor|cbn; lia|done]. split; [done|done|constructor]. Qed.

Lemma return_free_node_spec sb pl p L d Ds R :
  chain_ok (pl_mem pl) (sb_head sb) (sb_tail sb) (p :: L) (d :: Ds) → Forall (λ d, d ≠ []) Ds →
  pool_inv pl ((p :: L) ++ R) →
  ∃ sb' pl', return_free_node (sb, pl) = Some (tt, (sb', pl'), [d]) ∧
    chain_of sb' pl' L Ds (concat Ds) ∧ sb_size sb' = sb_size sb ∧
    pool_inv pl' (L ++ R) ∧ same_cells pl pl' R.
Proof.
  intros [(Eh & q & Hq & Hp) Ht Hc] Hne Hpool. inversion Hc as [|? ? ? ? (m & Em & Hm & _) Hc']; subst.
  pose proof (pool_inv_nodup _ _ Hpool) as [Hd _]. cbn [app] in Hd. apply NoDup_cons in Hd as [Hpn Hd].
  unfold mlink in Hq. rewrite Em in Hq. cbn in Hq. injection Hq as Hq.
  destruct (aset (pl_mem pl) p (Message None 0 (pl_free pl))) as [mem|] eqn:Ea.
  2:{ rewrite aset_Some in Ea; [done|]. by eapply aget_Some_range. }
  assert (∀ x, x ∈ L ++ R → aget mem x = aget (pl_mem pl) x) as Hsame.
  { intros x Hx. eapply aset_other; [done|]. by intros ->. }
  eexists _, _. split; [|split; [|split; [|split]]].
  - unfold return_free_node. rewrite (exec_nil (_ ≫= _)), exec_state, Eh, exec_lift, Em, exec_lift, Hm.
    cbn [option_list]. rewrite exec_emits, Ea, exec_lift. done.
  - split; cbn [sb_head sb_tail sb_offset pl_mem].
    + eapply chain_ok_ext; [intros x Hx; apply Hsame, elem_of_app; by left|]. split; [by rewrite Hq| |done].
      rewrite Hq. destruct q as [q|].
      * apply path_some in Hp as (L' & e & -> & _). by rewrite Ht.
      * by apply path_none in Hp as ->.
    + done.
    + destruct Ds as [|d' Ds]; [cbn; lia|]. apply Forall_cons in Hne as [Hne _]. destruct d'; [done|cbn; lia].
    + done.
  - done.
  - by apply (pool_inv_return _ _ _ _ Hpool).
  - intros x Hx. apply Hsame, elem_of_app. by right.
Qed.

Lemma chain_of_nil sb pl Ds bytes : chain_of sb pl [] Ds bytes → sb_head sb = None ∧ Ds = [] ∧ bytes = [].
Proof.
  intros [Hc _ _ ->]. apply chain_nil_inv in Hc as (? & _ & ->). cbn [concat]. by rewrite drop_nil.
Qed.

(** The first block of a buffer. *)
Lemma chain_of_cons sb pl p L Ds bytes :
  chain_of sb pl (p :: L) Ds bytes →
  ∃ d Ds' m, Ds = d :: Ds' ∧ sb_head sb = Some p ∧ aget (pl_mem pl) p = Some m ∧ m_buffer m = Some d ∧
    m_size m = Z.of_nat (length d) ∧ m_size m ≤ INT_MAX ∧ 0 ≤ sb_offset sb < Z.of_nat (length d) ∧
    Forall (λ d, d ≠ []) Ds' ∧ bytes = drop (Z.to_nat (sb_offset sb)) d ++ concat Ds'.
Proof.
  intros [[(Eh & _) _ Hc] Hf Ho ->]. inversion Hc as [|? d ? Ds' (m & Em & Hm & Hs & Hmax) _]; subst.
  cbn in Ho. apply Forall_cons in Hf as [_ Hf]. exists d, Ds', m. repeat (split; [done|]).
  cbn [concat]. by rewrite drop_app_le by lia.
Qed.

(** ** Reading takes bytes from the front *)

Definition with_size (n : Z) sb pl L Ds bytes : Prop := chain_of sb pl L Ds bytes ∧ sb_size sb = n.

Lemma read_piece d off n pre {A} (f : list Z → B A) h :
  0 ≤ off → off + n ≤ Z.of_nat (length d) →
  exec pre ((if 0 <? n then lift (block_read d off n) else mret []) ≫= f) h =
  exec pre (f (take (Z.to_nat n) (drop (Z.to_nat off) d))) h.
Proof.
  intros. destruct (Z.ltb_spec 0 n).
  - by rewrite block_read_spec, exec_lift by lia.
  - rewrite exec_ret_bind. by replace (Z.to_nat n) with 0%nat by lia.
Qed.

(** Reading inside of the first block. *)
Lemma chain_of_advance sb pl p L d Ds bytes n :
  chain_of sb pl (p :: L) (d :: Ds) bytes → 0 ≤ n → sb_offset sb + n < Z.of_nat (length d) →
  chain_of (sb_set_offset (sb_offset sb + n) sb) pl (p :: L) (d :: Ds) (drop (Z.to_nat n) bytes).
Proof.
  intros [Hc Hf Ho ->] Hn Hlt. split; [done|done|cbn in *; lia|].
  cbn [sb_set_offset sb_offset]. rewrite drop_drop. f_equal. cbn in Ho. lia.
Qed.

(** Reading the first block to its end. *)
Lemma chain_of_finish sb pl p L d Ds off R :
  chain_ok (pl_mem pl) (sb_head sb) (sb_tail sb) (p :: L) (d :: Ds) → Forall (λ d, d ≠ []) Ds →
  pool_inv pl ((p :: L) ++ R) →
  ∃ sb' pl', return_free_node (sb_set_offset off sb, pl) = Some (tt, (sb', pl'), [d]) ∧
    chain_of sb' pl' L Ds (concat Ds) ∧ sb_size sb' = sb_size sb ∧
    pool_inv pl' (L ++ R) ∧ same_cells pl pl' R.
Proof. intros Hc Hf Hp. apply (return_free_node_spec (sb_set_offset off sb) pl p L d Ds R Hc Hf Hp). Qed.

Lemma drop_rest (d rest : list Z) off n :
  0 ≤ off ≤ Z.of_nat (length d) → Z.of_nat (length d) - off ≤ n →
  drop (Z.to_nat n) (drop (Z.to_nat off) d ++ rest) = drop (Z.to_nat (n - (Z.of_nat (length d) - off))) rest.
Proof.
  intros. rewrite drop_app_ge, length_drop by (rewrite length_drop; lia). f_equal. lia.
Qed.

Lemma pop_loop_spec fuel sz skip sb pl L Ds bytes R :
  chain_of sb pl L Ds bytes → pool_inv pl (L ++ R) → (length L < fuel)%nat →
  0 ≤ skip → 0 < sz ≤ Z.of_nat (length bytes) →
  result_of (with_size (sb_size sb)) R pl Ds (drop (Z.to_nat sz) bytes) (take (Z.to_nat (sz - skip)) bytes)
    (pop_loop fuel sz skip (sb, pl)).
Proof.
  revert sz sb pl L Ds bytes. induction fuel as [|fuel IH]; intros sz sb pl L Ds bytes Hch Hpool Hf Hskip Hsz; [lia|].
  destruct L as [|p L]; [apply chain_of_nil in Hch as (_ & _ & ->); cbn in Hsz; lia|].
  destruct (chain_of_cons _ _ _ _ _ _ Hch) as (d & Ds' & m & -> & Eh & Em & Hm & Hs & Hmax & Ho & Hfull & Hb).
  pose proof (length_drop d (Z.to_nat (sb_offset sb))) as Hld. pose proof Hch as [Hco _ _ _].
  cbn [pop_loop]. rewrite (exec_nil (_ ≫= _)), exec_state, Eh, exec_lift, Em, exec_lift, Hm, exec_lift, Hs.
  rewrite c_int_Some by (unfold INT_MIN, INT_MAX in *; lia). rewrite exec_lift.
  remember (sb_offset sb) as off eqn:Eoff. remember (Z.of_nat (length d) - off) as n eqn:En.
  rewrite Hb, length_app in Hsz. destruct (Z.leb_spec sz n) as [Hle|Hgt].
  - replace (skip <? sz) with (0 <? sz - skip) by lia. rewrite read_piece by lia. unfold set_sb at 1.
    rewrite exec_assoc, exec_state, exec_put.
    assert (take (Z.to_nat (sz - skip)) bytes = take (Z.to_nat (sz - skip)) (drop (Z.to_nat off) d)) as Ht.
    { rewrite Hb, take_app_le by (rewrite Hld; lia). done. }
    destruct (Z.eqb_spec n sz) as [He|Hne].
    + destruct (chain_of_finish sb pl p L d Ds' (off + sz) R Hco Hfull Hpool) as (sb' & pl' & E & Hc' & Hz & Hp' & Hs').
      rewrite (exec_bind _ _ _ _ _ _ _ E), exec_mret, Ht. eexists sb', pl', [d], L, Ds'.
      split; [done|]. split; [|done]. split; [|done]. rewrite Hb, drop_rest, <- En by lia.
      by replace (sz - n) with 0 by lia.
    + rewrite exec_ret_bind, exec_mret, Ht. eexists _, pl, [], (p :: L), (d :: Ds').
      split; [done|]. split; [|done]. split; [|done]. rewrite Eoff. apply chain_of_advance; [done|lia|rewrite <- Eoff; lia].
  - replace (if sz - skip <? n then sz - skip else n) with (Z.min (sz - skip) n)
      by (destruct (Z.ltb_spec (sz - skip) n); lia).
    replace (0 <? sz - skip) with (0 <? Z.min (sz - skip) n) by lia. rewrite read_piece by lia.
    destruct (return_free_node_spec sb pl p L d Ds' R Hco Hfull Hpool) as (sb' & pl' & E & Hc' & Hz & Hp' & Hs').
    rewrite (exec_bind _ _ _ _ _ _ _ E), (proj2 (Z.eqb_neq (sz - n) 0)) by lia.
    destruct (IH (sz - n) sb' pl' L Ds' (concat Ds')) as (sb2 & pl2 & freed & L2 & Ds2 & E2 & Hr & Hfr & Hp2 & Hs2);
      [done|done|cbn in Hf; lia|done|lia|].
    rewrite (exec_bind _ _ _ _ _ _ _ E2), exec_mret. eexists sb2, pl2, (d :: freed), L2, Ds2.
    split; [|split; [|split; [by rewrite <- Hfr|split; [done|by eapply same_cells_trans]]]].
    + f_equal. f_equal. f_equal. rewrite Hb, take_app, Hld. f_equal.
      * destruct (Z.le_gt_cases (sz - skip) n); [by rewrite Z.min_l by lia|].
        rewrite Z.min_r, !take_ge by (rewrite ?Hld; lia). done.
      * f_equal. lia.
    + rewrite Hb, drop_rest, <- En by lia. by rewrite <- Hz.
Qed.

Lemma pop_lstring_spec sz skip sb pl L Ds bytes R :
  chain_of sb pl L Ds bytes → L ≠ [] → pool_inv pl (L ++ R) →
  0 ≤ skip ≤ sz → sz ≤ Z.of_nat (length bytes) →
  result_of (with_size (sb_size sb)) R pl Ds (drop (Z.to_nat sz) bytes) (take (Z.to_nat (sz - skip)) bytes)
    (pop_lstring sz skip (sb, pl)).
Proof.
  intros Hch HL Hpool Hskip Hsz. destruct L as [|p L]; [done|].
  destruct (chain_of_cons _ _ _ _ _ _ Hch) as (d & Ds' & m & -> & Eh & Em & Hm & Hs & Hmax & Ho & Hfull & Hb).
  pose proof (length_drop d (Z.to_nat (sb_offset sb))) as Hld. pose proof Hch as [Hco _ _ _].
  unfold pop_lstring. rewrite (exec_nil (_ ≫= _)), exec_state, Eh, exec_lift, Em, exec_lift, Hm, exec_lift, Hs.
  rewrite c_int_Some by (unfold INT_MIN, INT_MAX in *; lia). rewrite exec_lift.
  assert (sz ≤ Z.of_nat (length d) - sb_offset sb →
    take (Z.to_nat (sz - skip)) bytes = take (Z.to_nat (sz - skip)) (drop (Z.to_nat (sb_offset sb)) d)) as Ht.
  { intros. by rewrite Hb, take_app_le by (rewrite Hld; lia). }
  destruct (Z.ltb_spec sz (Z.of_nat (length d) - sb_offset sb)); [|destruct (Z.eqb_spec sz (Z.of_nat (length d) - sb_offset sb))].
  - rewrite block_read_spec, exec_lift by lia. unfold set_sb. rewrite exec_assoc, exec_state, exec_put, exec_mret, Ht by lia.
    eexists _, pl, [], (p :: L), (d :: Ds'). split; [done|]. split; [|done]. split; [|done].
    apply chain_of_advance; [done|lia..].
  - rewrite block_read_spec, exec_lift by lia.
    destruct (return_free_node_spec sb pl p L d Ds' R Hco Hfull Hpool) as (sb' & pl' & E & Hc' & Hz & Hp' & Hs').
    rewrite (exec_bind _ _ _ _ _ _ _ E), exec_mret, Ht by lia. eexists sb', pl', [d], L, Ds'.
    split; [done|]. split; [|done]. split; [|done]. rewrite Hb, drop_rest by lia.
    by replace (sz - _) with 0 by lia.
  - pose proof (pool_inv_short _ _ _ Hpool). unfold exec.
    destruct (pop_loop_spec (S (length (pl_mem pl))) sz skip sb pl (p :: L) (d :: Ds') bytes R)
      as (sb' & pl' & freed & L' & Ds2 & -> & Hr); [done|done|lia|lia|lia|].
    by eexists sb', pl', freed, L', Ds2.
Qed.

(** ** The operations on a buffer *)

Lemma chain_of_resize n sb pl L Ds bytes : chain_of sb pl L Ds bytes → chain_of (sb_set_size n sb) pl L Ds bytes.
Proof. intros []. by split. Qed.

Lemma shrink_spec sz sb pl pre {A} (f : Z → B A) :
  INT_MIN ≤ sb_size sb - sz ≤ INT_MAX →
  exec pre (shrink sz ≫= f) (sb, pl) = exec pre (f (sb_size sb - sz)) (sb_set_size (sb_size sb - sz) sb, pl).
Proof.
  intros. unfold shrink. rewrite exec_assoc, exec_state, exec_assoc, c_int_Some, exec_lift by done.
  unfold set_sb. by rewrite exec_assoc, exec_assoc, exec_state, exec_put, exec_ret_bind.
Qed.

(** What [lpopbuffer] gives for the bytes of the buffer. *)
Definition pop_result (sz : Z) (bytes : list Z) : option (list Z) * list Z :=
  if (Z.of_nat (length bytes) <? sz) || (sz =? 0) then (None, bytes)
  else (Some (take (Z.to_nat sz) bytes), drop (Z.to_nat sz) bytes).

Lemma lpopbuffer_spec sz sb pl L Ds bytes R :
  sized_of sb pl L Ds bytes → pool_inv pl (L ++ R) → 0 ≤ sz →
  result_of sized_of R pl Ds (pop_result sz bytes).2
    ((pop_result sz bytes).1, Z.of_nat (length (pop_result sz bytes).2)) (lpopbuffer sz (sb, pl)).
Proof.
  intros (Hch & Hz & Hmax) Hpool Hsz. unfold lpopbuffer, pop_result. rewrite (exec_nil (_ ≫= _)), exec_state, Hz.
  destruct (Z.ltb_spec (Z.of_nat (length bytes)) sz); [|destruct (Z.eqb_spec sz 0)]; cbn [orb fst snd].
  1,2: rewrite exec_mret; by eexists sb, pl, [], L, Ds.
  destruct (pop_lstring_spec sz 0 sb pl L Ds bytes R) as (sb' & pl' & freed & L' & Ds' & E & (Hc' & Hz') & Hfr & Hp' & Hs');
    [done|intros ->; apply chain_of_nil in Hch as (_ & _ & ->); cbn in *; lia|done|lia|lia|].
  rewrite Z.sub_0_r in E. rewrite (exec_bind _ _ _ _ _ _ _ E), shrink_spec by (unfold INT_MIN in *; lia).
  rewrite exec_mret. eexists _, pl', freed, L', Ds'.
  assert (sb_size sb' - sz = Z.of_nat (length (drop (Z.to_nat sz) bytes))) as Hl by (rewrite length_drop; lia).
  split; [by rewrite Hl|]. split; [|done]. split; [by apply chain_of_resize|]. cbn [sb_set_size sb_size]. lia.
Qed.

Lemma clear_nodes_spec fuel sb pl L Ds bytes R :
  chain_of sb pl L Ds bytes → pool_inv pl (L ++ R) → (length L ≤ fuel)%nat →
  result_of chain_of R pl Ds [] tt (clear_nodes fuel (sb, pl)).
Proof.
  revert sb pl L Ds bytes. induction fuel as [|fuel IH]; intros sb pl L Ds bytes Hch Hpool Hf; cbn [clear_nodes];
    rewrite (exec_nil (_ ≫= _)), exec_state; destruct L as [|p L]; try (cbn in Hf; lia).
  1,2: destruct (chain_of_nil _ _ _ _ Hch) as (Eh & -> & ->); rewrite Eh, exec_mret; by eexists sb, pl, [], [], [].
  destruct (chain_of_cons _ _ _ _ _ _ Hch) as (d & Ds' & m & -> & Eh & _ & _ & _ & _ & _ & Hfull & _). rewrite Eh.
  pose proof Hch as [Hco _ _ _].
  destruct (return_free_node_spec sb pl p L d Ds' R Hco Hfull Hpool) as (sb' & pl' & E & Hc' & _ & Hp' & Hs').
  rewrite (exec_bind _ _ _ _ _ _ _ E).
  destruct (IH sb' pl' L Ds' _ Hc' Hp' ltac:(cbn in Hf; lia)) as (sb2 & pl2 & freed & L2 & Ds2 & E2 & Hr & Hfr & Hp2 & Hs2).
  unfold exec. rewrite E2. eexists sb2, pl2, (d :: freed), L2, Ds2. split; [done|]. split; [done|].
  split; [by rewrite <- Hfr|]. split; [done|]. by eapply same_cells_trans.
Qed.

Lemma chain_of_empty sb pl L Ds : chain_of sb pl L Ds [] → L = [].
Proof.
  intros H. destruct L as [|p L]; [done|].
  destruct (chain_of_cons _ _ _ _ _ _ H) as (d & Ds' & m & _ & _ & _ & _ & _ & _ & Ho & _ & Hb).
  symmetry in Hb. apply app_eq_nil in Hb as [Hb _]. apply (f_equal length) in Hb. rewrite length_drop in Hb. cbn in Hb. lia.
Qed.

Lemma resized_empty sb pl L Ds : chain_of sb pl L Ds [] → sized_of (sb_set_size 0 sb) pl L Ds [].
Proof. intros H. split; [by apply chain_of_resize|done]. Qed.

Lemma lclearbuffer_spec sb pl L Ds bytes R :
  chain_of sb pl L Ds bytes → pool_inv pl (L ++ R) →
  result_of sized_of R pl Ds [] tt (lclearbuffer (sb, pl)).
Proof.
  intros Hch Hpool. unfold lclearbuffer. rewrite (exec_nil (_ ≫= _)), exec_state.
  destruct (clear_nodes_spec (length (pl_mem pl)) sb pl L Ds bytes R Hch Hpool (pool_inv_short _ _ _ Hpool))
    as (sb' & pl' & freed & L' & Ds' & E & Hc & Hr).
  rewrite (exec_bind _ _ _ _ _ _ _ E), exec_state. unfold set_sb. rewrite exec_state.
  eexists _, pl', freed, L', Ds'. split; [by unfold exec, put; rewrite app_nil_r|]. split; [by apply resized_empty|done].
Qed.

Lemma readall_loop_spec fuel sb pl L Ds bytes R :
  chain_of sb pl L Ds bytes → pool_inv pl (L ++ R) → (length L ≤ fuel)%nat →
  result_of chain_of R pl Ds [] bytes (readall_loop fuel (sb, pl)).
Proof.
  revert sb pl L Ds bytes. induction fuel as [|fuel IH]; intros sb pl L Ds bytes Hch Hpool Hf; cbn [readall_loop];
    rewrite (exec_nil (_ ≫= _)), exec_state; destruct L as [|p L]; try (cbn in Hf; lia).
  1,2: destruct (chain_of_nil _ _ _ _ Hch) as (Eh & -> & ->); rewrite Eh, exec_mret; by eexists sb, pl, [], [], [].
  destruct (chain_of_cons _ _ _ _ _ _ Hch) as (d & Ds' & m & -> & Eh & Em & Hm & Hs & Hmax & Ho & Hfull & Hb). rewrite Eh.
  pose proof Hch as [Hco _ _ _].
  rewrite Em, exec_lift, Hm, exec_lift, Hs, block_read_spec, exec_lift by lia.
  destruct (return_free_node_spec sb pl p L d Ds' R Hco Hfull Hpool) as (sb' & pl' & E & Hc' & _ & Hp' & Hs').
  rewrite (exec_bind _ _ _ _ _ _ _ E).
  destruct (IH sb' pl' L Ds' _ Hc' Hp' ltac:(cbn in Hf; lia)) as (sb2 & pl2 & freed & L2 & Ds2 & E2 & Hr & Hfr & Hp2 & Hs2).
  rewrite (exec_bind _ _ _ _ _ _ _ E2), exec_mret. eexists sb2, pl2, (d :: freed), L2, Ds2. split.
  - by rewrite Hb, (take_ge (drop _ d)) by (rewrite length_drop; lia).
  - split; [done|]. split; [by rewrite <- Hfr|]. split; [done|]. by eapply same_cells_trans.
Qed.

Lemma lreadall_spec sb pl L Ds bytes R :
  chain_of sb pl L Ds bytes → pool_inv pl (L ++ R) →
  result_of sized_of R pl Ds [] bytes (lreadall (sb, pl)).
Proof.
  intros Hch Hpool. unfold lreadall. rewrite (exec_nil (_ ≫= _)), exec_state.
  destruct (readall_loop_spec (length (pl_mem pl)) sb pl L Ds bytes R Hch Hpool (pool_inv_short _ _ _ Hpool))
    as (sb' & pl' & freed & L' & Ds' & E & Hc & Hr).
  rewrite (exec_bind _ _ _ _ _ _ _ E), exec_state. unfold set_sb. rewrite exec_assoc, exec_state, exec_put, exec_mret.
  eexists _, pl', freed, L', Ds'. split; [done|]. split; [by apply resized_empty|done].
Qed.

Lemma lpushbuffer_spec data sb pl L Ds bytes R :
  sized_of sb pl L Ds bytes → pool_inv pl (L ++ R) → data ≠ [] →
  Z.of_nat (length bytes) + Z.of_nat (length data) ≤ INT_MAX →
  ∃ sb' pl' p, lpushbuffer data (Z.of_nat (length data)) (sb, pl) =
      Some (Z.of_nat (length (bytes ++ data)), (sb', pl'), []) ∧
    sized_of sb' pl' (L ++ [p]) (Ds ++ [data]) (bytes ++ data) ∧
    pool_inv pl' ((L ++ [p]) ++ R) ∧ same_cells pl pl' R.
Proof.
  intros ([Hc Hf Ho Hb] & Hs & _) Hpool Hne Hmax. destruct (take_node_spec pl _ Hpool) as (p & pl1 & Et & Hp1 & Hsn1).
  pose proof (pool_inv_nodup _ _ Hp1) as [Hd _]. apply NoDup_cons in Hd as [Hpn Hd].
  destruct (pool_inv_cell pl1 _ p Hp1) as [m0 Em0]; [by left|].
  destruct (aset (pl_mem pl1) p (Message (Some data) (Z.of_nat (length data)) None)) as [mem|] eqn:Ea.
  2:{ rewrite aset_Some in Ea; [done|]. by eapply aget_Some_range. }
  pose proof (pool_inv_aset _ _ _ _ _ Hp1 ltac:(by left) Ea) as Hp2.
  assert (∀ x, x ∈ L ++ R → aget mem x = aget (pl_mem pl) x) as Hsame.
  { intros x Hx. rewrite <- Hsn1 by done. eapply aset_other; [done|]. by intros ->. }
  assert (p :: L ++ R ≡ₚ (L ++ [p]) ++ R) as HU by (rewrite <- app_assoc; apply Permutation_middle).
  assert (sb_offset sb = 0 ∨ Ds ≠ []) as Hoff by (destruct Ds; [left; cbn in Ho; lia|by right]).
  assert (Z.of_nat (length (bytes ++ data)) = sb_size sb + Z.of_nat (length data)) as Hl by (rewrite length_app; lia).
  unfold lpushbuffer. rewrite (exec_nil (_ ≫= _)), exec_state, Et, exec_lift, Ea, exec_lift, Hl.
  rewrite (c_int_Some (_ + _)) by (unfold INT_MIN; lia).
  assert (bytes ++ data = drop (Z.to_nat (sb_offset sb)) (concat (Ds ++ [data]))) as Hbd.
  { rewrite concat_app, Hb. cbn [concat]. rewrite app_nil_r. destruct Ds as [|d Ds'].
    - destruct Hoff as [->|?]; done.
    - cbn in Ho. rewrite drop_app_le; [done|]. cbn [concat]. rewrite length_app. lia. }
  assert (0 ≤ sb_offset sb < Z.of_nat (length (default [0] (head (Ds ++ [data]))))) as Hoff'.
  { destruct Ds; [|done]. cbn in Ho |- *. destruct data; [done|cbn; lia]. }
  assert (Forall (λ d, d ≠ []) (Ds ++ [data])) as Hf' by (apply Forall_app; by repeat constructor).
  destruct (decide (L = [])) as [->|HL].
  - apply chain_nil_inv in Hc as (Eh & Etl & ->). rewrite Eh, Etl, bool_decide_eq_true_2 by done.
    change (c_assert true) with (Some tt). rewrite exec_assoc, exec_lift, exec_ret_bind, exec_lift, exec_put, exec_mret.
    eexists _, _, p. split; [done|]. split; [split|split; [by eapply pool_inv_perm|]].
    + split; cbn [sb_head sb_tail sb_offset pl_mem app]; [|done..]. split; [|done|].
      * apply (path_cons _ _ None); [|done]. unfold mlink. by rewrite (aget_aset_eq _ _ _ _ Ea).
      * constructor; [|constructor]. eexists. rewrite (aget_aset_eq _ _ _ _ Ea).
        split; [done|]. split; [done|]. split; [done|]. cbn [m_size]. lia.
    + cbn [sb_size]. lia.
    + intros x Hx. by apply Hsame.
  - destruct (exists_last HL) as (L0 & t & ->). destruct Hc as [Hpath Htl Hcells].
    rewrite last_snoc in Htl. destruct (sb_head sb) as [hd|] eqn:Eh.
    2:{ apply path_none in Hpath. by destruct L0. }
    assert (t ∈ (L0 ++ [t]) ++ R) as Htin by (apply elem_of_app; left; apply elem_of_app; right; by left).
    rewrite Htl. destruct (pool_inv_cell pl _ t Hpool Htin) as [m Em]. pose proof Em as Em'.
    rewrite <- Hsame in Em' by done. rewrite exec_assoc, exec_lift, exec_assoc, Em', exec_lift.
    destruct (aset mem t (Message (m_buffer m) (m_size m) (Some p))) as [mem2|] eqn:Ea2.
    2:{ rewrite aset_Some in Ea2; [done|]. by eapply aget_Some_range. }
    rewrite exec_assoc, exec_lift, exec_ret_bind, exec_lift, exec_put, exec_mret. eexists _, _, p. split; [done|].
    assert (t ≠ p) as Htp by (intros ->; done).
    pose proof Hd as Hd'. apply NoDup_app in Hd' as (HdL & HdR & _).
    split; [split|split].
    + split; cbn [sb_head sb_tail sb_offset pl_mem]; [|done..].
      eapply (chain_append (pl_mem pl) mem2 _ (sb_tail sb)); try done.
      * split; [done|by rewrite Htl, last_snoc|done].
      * intros Hin. apply Hpn, elem_of_app. by left.
      * lia.
      * by apply (aget_aset_eq _ _ _ _ Ea2).
      * rewrite (aset_other _ _ _ _ _ Ea2) by done. by apply (aget_aset_eq _ _ _ _ Ea).
      * intros x Hx. rewrite (aset_other _ _ _ _ _ Ea2).
        -- apply Hsame, elem_of_app. left. apply elem_of_app. by left.
        -- intros ->. apply NoDup_app in HdL as (_ & HdL & _). apply (HdL t Hx). by left.
    + cbn [sb_size]. lia.
    + eapply pool_inv_perm; [exact HU|]. eapply (pool_inv_aset _ _ t _ mem2 Hp2); [by right|done].
    + intros x Hx. cbn [pl_mem]. rewrite (aset_other _ _ _ _ _ Ea2).
      * apply Hsame, elem_of_app. by right.
      * intros ->. apply (HdR t); [apply elem_of_app; right; by left|done].
Qed.

(** ** Lines *)

(** The first position of [sep]. *)
Definition starts (sep bytes : list Z) : bool := bool_decide (take (length sep) bytes = sep).
Fixpoint find_sub (sep bytes : list Z) : option nat :=
  if starts sep bytes then Some O
  else match bytes with [] => None | _ :: bytes => S <$> find_sub sep bytes end.

Lemma find_sub_first sep bytes n :
  find_sub sep bytes = Some n →
  (n + length sep ≤ length bytes)%nat ∧ bytes = take n bytes ++ sep ++ drop (n + length sep) bytes ∧
  ∀ j, (j < n)%nat → starts sep (drop j bytes) = false.
Proof.
  revert n. induction bytes as [|b bytes IH]; intros n; cbn [find_sub]; destruct (starts sep _) eqn:Es; try done.
  1,2: intros [= <-]; apply bool_decide_eq_true in Es; split; [|split; [|lia]];
    [apply (f_equal length) in Es; rewrite length_take in Es; lia|].
  1,2: cbn [take app Nat.add]; by rewrite <- Es at 1; rewrite take_drop.
  destruct (find_sub sep bytes) as [k|]; [|done]. intros [= <-]. destruct (IH k eq_refl) as (Hl & He & Hj).
  split; [cbn; lia|]. split.
  - cbn [take app Nat.add drop]. by rewrite <- He.
  - intros [|j] Hlt; [done|]. apply Hj. lia.
Qed.

Lemma starts_short sep bytes : (length bytes < length sep)%nat → starts sep bytes = false.
Proof.
  intros. apply bool_decide_eq_false. intros E. apply (f_equal length) in E. rewrite length_take in E. lia.
Qed.

Lemma find_sub_short sep bytes : (length bytes < length sep)%nat → find_sub sep bytes = None.
Proof.
  induction bytes as [|b bytes IH]; intros H; cbn [find_sub]; rewrite starts_short by done; [done|].
  cbn in H. by rewrite IH by lia.
Qed.

(** The blocks from a node on. *)
Definition blocks (mem : list buffer_node) (p : Z) (L : list Z) (Ds : list (list Z)) : Prop :=
  path (mlink mem) (Some p) (p :: L) None ∧ Forall2 (holds mem) (p :: L) Ds.

Lemma blocks_inv mem p L Ds : blocks mem p L Ds → ∃ d Ds' m, Ds = d :: Ds' ∧ aget mem p = Some m ∧
  m_buffer m = Some d ∧ m_size m = Z.of_nat (length d) ∧ m_size m ≤ INT_MAX ∧
  match L with [] => m_next m = None ∧ Ds' = [] | q :: L' => m_next m = Some q ∧ blocks mem q L' Ds' end.
Proof.
  intros [(_ & q & Hq & Hp) Hc]. inversion Hc as [|? d ? Ds' (m & Em & Hm & Hs & Hmax) Hc']; subst.
  exists d, Ds', m. repeat (split; [done|]). unfold mlink in Hq. rewrite Em in Hq. cbn in Hq. injection Hq as Hq.
  destruct L as [|x L].
  - cbn in Hp. split; [congruence|]. by inversion Hc'.
  - pose proof Hp as (-> & _). split; [done|]. by split.
Qed.

Lemma check_sep_spec fuel mem p L d Ds from sep :
  blocks mem p L (d :: Ds) → (length L < fuel)%nat → 0 ≤ from ≤ Z.of_nat (length d) →
  (length sep ≤ length (drop (Z.to_nat from) d ++ concat Ds))%nat →
  check_sep fuel mem p from sep = Some (starts sep (drop (Z.to_nat from) d ++ concat Ds)).
Proof.
  revert p L d Ds from sep. induction fuel as [|fuel IH]; intros p L d Ds from sep Hb Hf Hr Hl; [lia|].
  apply blocks_inv in Hb as (d' & Ds' & m & [= <- <-] & Em & Hm & Hs & Hmax & Hn).
  pose proof (length_drop d (Z.to_nat from)) as Hld. rewrite length_app in Hl.
  cbn [check_sep]. rewrite Em. cbn [mbind option_bind]. rewrite Hm. cbn [mbind option_bind].
  rewrite Hs, c_int_Some by (unfold INT_MIN, INT_MAX in *; lia). cbn [mbind option_bind].
  set (n := Z.of_nat (length d) - from) in *. unfold starts.
  destruct (Z.leb_spec (Z.of_nat (length sep)) n) as [Hle|Hgt].
  - rewrite block_read_spec by lia. cbn [mbind option_bind]. rewrite Nat2Z.id, take_app_le by lia. done.
  - rewrite (proj2 (Z.ltb_ge n 0)) by lia.
    replace (if 0 <? n then block_read d from n else Some []) with (Some (drop (Z.to_nat from) d)).
    2:{ destruct (Z.ltb_spec 0 n).
        - by rewrite block_read_spec, take_ge by lia.
        - rewrite drop_ge by lia. done. }
    cbn [mbind option_bind]. replace (Z.to_nat n) with (length (drop (Z.to_nat from) d)) by lia.
    set (a := drop (Z.to_nat from) d) in *. rewrite take_app_ge by lia.
    case_bool_decide as Ha.
    + destruct L as [|q L]; destruct Hn as [-> Hn]; cbn [mbind option_bind].
      { subst Ds. cbn in Hl. lia. }
      pose proof (blocks_inv _ _ _ _ Hn) as (d2 & Ds2 & _ & -> & _).
      rewrite (IH q L d2 Ds2); [|done|cbn in Hf; lia|lia|change (drop _ d2 ++ concat Ds2) with (concat (d2 :: Ds2)); rewrite length_drop; lia].
      change (drop (Z.to_nat 0) d2 ++ concat Ds2) with (concat (d2 :: Ds2)).
      f_equal. unfold starts. rewrite length_drop. apply bool_decide_ext.
      rewrite <- (take_drop (length a) sep) at 4. rewrite <- Ha. split; [by intros ->|]. by intros ?%app_inv_head.
    + f_equal. symmetry. apply bool_decide_eq_false. intros E. apply Ha. rewrite <- E, take_app_le by lia.
      by rewrite take_ge by lia.
Qed.

Lemma find_sep_spec k mem p L d Ds from i sep :
  blocks mem p L (d :: Ds) → Forall (λ d, d ≠ []) Ds → (length L ≤ length mem)%nat →
  0 ≤ from < Z.of_nat (length d) →
  k = (S (length (drop (Z.to_nat from) d ++ concat Ds)) - length sep)%nat →
  find_sep k mem p from (Z.of_nat (length d) - from) i sep =
  Some ((λ n, i + Z.of_nat n) <$> find_sub sep (drop (Z.to_nat from) d ++ concat Ds)).
Proof.
  revert p L d Ds from i. induction k as [|k IH]; intros p L d Ds from i Hb Hf Hlen Hr Hk; cbn [find_sep].
  { by rewrite find_sub_short by lia. }
  rewrite (check_sep_spec _ mem p L d Ds) by (done || lia). cbn [mbind option_bind].
  destruct (drop (Z.to_nat from) d) as [|b rest] eqn:Ed.
  { apply (f_equal length) in Ed. rewrite length_drop in Ed. cbn in Ed. lia. }
  cbn [app find_sub]. destruct (starts sep (b :: rest ++ concat Ds)) eqn:Es.
  { cbn. do 2 f_equal. lia. }
  assert (drop (Z.to_nat (from + 1)) d = rest) as Er.
  { replace (Z.to_nat (from + 1)) with (Z.to_nat from + 1)%nat by lia. rewrite <- drop_drop, Ed. done. }
  pose proof (f_equal length Er) as Hlr. rewrite length_drop in Hlr. cbn [app length] in Hk.
  destruct (Z.eqb_spec (Z.of_nat (length d) - from - 1) 0) as [E0|E0].
  - assert (rest = []) as -> by (apply nil_length_inv; lia). cbn [app] in *.
    apply blocks_inv in Hb as (d' & Ds' & m & [= <- <-] & Em & _ & _ & _ & Hn). rewrite Em. cbn [mbind option_bind].
    destruct L as [|q L]; destruct Hn as [-> Hn].
    { subst Ds. cbn [concat find_sub]. destruct (starts sep []) eqn:E1; [|done].
      apply bool_decide_eq_true in E1. rewrite take_nil in E1. subst sep. done. }
    pose proof (blocks_inv _ _ _ _ Hn) as (d2 & Ds2 & m2 & -> & Em2 & _ & Hs2 & _). rewrite Em2. cbn [mbind option_bind].
    rewrite Hs2. apply Forall_cons in Hf as [Hne Hf]. assert (0 < Z.of_nat (length d2)) by (destruct d2; [done|cbn; lia]).
    pose proof (IH q L d2 Ds2 0 (i + 1) Hn Hf ltac:(cbn in Hlen; lia) ltac:(lia)
      ltac:(change (drop _ d2 ++ concat Ds2) with (concat (d2 :: Ds2)); lia)) as E.
    rewrite Z.sub_0_r in E. rewrite E.
    change (drop (Z.to_nat 0) d2 ++ concat Ds2) with (concat (d2 :: Ds2)). destruct (find_sub _ _); [|done].
    cbn. do 2 f_equal. lia.
  - replace (Z.of_nat (length d) - from - 1) with (Z.of_nat (length d) - (from + 1)) by lia.
    rewrite (IH p L d Ds (from + 1) (i + 1)); [|done|done|done|lia|rewrite Er; lia].
    rewrite Er. destruct (find_sub _ _); [|done]. cbn. do 2 f_equal. lia.
Qed.

(** What [lreadline] gives: the line and what is left. *)
Definition line_result (check : bool) (sep bytes : list Z) : line * list Z :=
  match bytes, find_sub sep bytes with
  | _ :: _, Some n => if check then (IsLine, bytes) else (Line (take n bytes), drop (n + length sep) bytes)
  | _, _ => (NoLine, bytes)
  end.

Lemma lreadline_spec check sep sb pl L Ds bytes R :
  sized_of sb pl L Ds bytes → pool_inv pl (L ++ R) →
  result_of sized_of R pl Ds (line_result check sep bytes).2 (line_result check sep bytes).1
    (lreadline check sep (sb, pl)).
Proof.
  intros (Hch & Hz & Hmax) Hpool. unfold lreadline. rewrite (exec_nil (_ ≫= _)), exec_state.
  destruct L as [|p L].
  { destruct (chain_of_nil _ _ _ _ Hch) as (-> & -> & ->). rewrite exec_mret. by eexists sb, pl, [], [], []. }
  destruct (chain_of_cons _ _ _ _ _ _ Hch) as (d & Ds' & m & -> & Eh & Em & Hm & Hs & Hm' & Ho & Hfull & Hb).
  pose proof Hch as [[Hpath _ Hcells] _ _ _]. pose proof (pool_inv_short _ _ _ Hpool) as Hlen. rewrite Eh in Hpath.
  rewrite Eh, Em, exec_lift, Hs, c_int_Some by (unfold INT_MIN, INT_MAX in *; lia). rewrite exec_lift, Hz.
  rewrite (find_sep_spec _ _ p L d Ds') by (done || (cbn in Hlen; lia) || (rewrite <- Hb; lia)).
  rewrite <- Hb, exec_lift. unfold line_result.
  destruct bytes as [|b bytes].
  { apply (f_equal length) in Hb. rewrite length_app, length_drop in Hb. cbn in Hb. lia. }
  destruct (find_sub sep (b :: bytes)) as [n|] eqn:Ef; cbn [fmap option_fmap option_map].
  2:{ rewrite exec_mret. by eexists sb, pl, [], _, _. }
  destruct check; [rewrite exec_mret; by eexists sb, pl, [], _, _|].
  apply find_sub_first in Ef as (Hfl & _).
  rewrite Z.add_0_l.
  destruct (pop_lstring_spec (Z.of_nat n + Z.of_nat (length sep)) (Z.of_nat (length sep)) sb pl (p :: L) (d :: Ds') (b :: bytes) R)
    as (sb' & pl' & freed & L' & Ds2 & E & (Hc' & Hz') & Hr); [done|done|done|lia|lia|].
  rewrite (exec_bind _ _ _ _ _ _ _ E), shrink_spec by (unfold INT_MIN in *; lia). rewrite exec_mret.
  replace (Z.of_nat n + Z.of_nat (length sep) - Z.of_nat (length sep)) with (Z.of_nat n) by lia. rewrite Nat2Z.id.
  replace (Z.to_nat (Z.of_nat n + Z.of_nat (length sep))) with (n + length sep)%nat in Hc' by lia.
  eexists _, pl', freed, L', Ds2. split; [done|]. split; [|done]. split; [by apply chain_of_resize|].
  cbn [sb_set_size sb_size fst snd]. rewrite length_drop. lia.
Qed.

(** The header is a big endian number. *)
Lemma lheader_spec s : Forall byte_ok s →
  lheader s = if (4 <? Z.of_nat (length s)) || (Z.of_nat (length s) <? 1) then inl tt else inr (be_val s).
Proof.
  intros Hs. unfold lheader. destruct (Z.ltb_spec 4 (Z.of_nat (length s))) as [|H4]; [done|]. cbn [orb].
  destruct (Z.of_nat (length s) <? 1); [done|]. f_equal.
  assert (∀ n, (n ≤ length s)%nat → foldl (λ sz b, wrap 64 (Z.lor (wrap 64 (Z.shiftl sz 8)) b)) 0 (take n s) = be_val (take n s)) as H.
  2:{ specialize (H (length s) (le_n _)). by rewrite take_ge in H. }
  intros n. induction n as [|n IH]; intros Hn; [done|]. destruct (lookup_lt_is_Some_2 s n) as [b Hb]; [lia|].
  rewrite (take_S_r _ _ _ Hb), foldl_app, IH by lia. cbn [foldl]. unfold be_val. rewrite rev_unit.
  assert (byte_ok b) as Hok by (rewrite Forall_lookup in Hs; by apply (Hs n)). rewrite le_val_cons by done.
  pose proof (le_val_range (rev (take n s))) as Hv. rewrite length_rev, length_take in Hv.
  assert (Forall byte_ok (rev (take n s))) as Hf by (apply Forall_rev; by apply Forall_take).
  specialize (Hv Hf). assert (2 ^ (8 * Z.of_nat (n `min` length s)) ≤ 2 ^ 24) by (apply Z.pow_le_mono_r; lia).
  unfold byte_ok in Hok. rewrite (wrap_small 64 (Z.shiftl _ _)) by (rewrite Z.shiftl_mul_pow2 by lia; lia).
  rewrite lor_shiftl, wrap_small by lia. lia.
Qed.
