(* ===== verification/SocketTrace.v ===== *)
(** All the socket buffers of a Lua service, on their common pool: any calls give what
    strings of bytes give, and every block of data is freed once. *)
From S2P Require Import Prelude Bytes Effect Links Databuffer SocketBuffer.
Local Open Scope Z_scope.

(** ** Calls of the library *)

Inductive call :=
  | CNew
  | CPush (data : list Z)
  | CPop (sz : Z)
  | CClear
  | CReadAll
  | CReadLine (check : bool) (sep : list Z).

Inductive result :=
  | RNew
  | RSize (n : Z)
  | RPop (s : option (list Z)) (n : Z)
  | RClear
  | RAll (s : list Z)
  | RLine (l : line).

(** The buffers by socket, and the pool. *)
Definition buffers : Type := gmap Z socket_buffer * pool.

Definition run_on {A} (m : B A) (wrap : A → result) (id : Z) (σ : buffers) : option (result * buffers * list (list Z)) :=
  sb ← σ.1 !! id;
  '(x, (sb, pl), freed) ← m (sb, σ.2);
  Some (wrap x, (<[id := sb]> σ.1, pl), freed).

Definition run_call (id : Z) (c : call) (σ : buffers) : option (result * buffers * list (list Z)) :=
  match c with
  | CNew => Some (RNew, (<[id := lnewbuffer]> σ.1, σ.2), [])
  | CPush data => run_on (lpushbuffer data (Z.of_nat (length data))) RSize id σ
  | CPop sz => run_on (lpopbuffer sz) (λ '(s, n), RPop s n) id σ
  | CClear => run_on lclearbuffer (λ _, RClear) id σ
  | CReadAll => run_on lreadall RAll id σ
  | CReadLine check sep => run_on (lreadline check sep) RLine id σ
  end.

Fixpoint run_calls (cs : list (Z * call)) (σ : buffers) : option (list result * buffers * list (list Z)) :=
  match cs with
  | [] => Some ([], σ, [])
  | (id, c) :: cs =>
    '(r, σ, freed) ← run_call id c σ;
    '(rs, σ, freed') ← run_calls cs σ;
    Some (r :: rs, σ, freed ++ freed')
  end.

(** ** The specification: a string per socket *)

(** [None] is a call that the library must not get: on a socket without a buffer, with
    an empty block, with more than 2 GB in a buffer, of a negative size. *)
Definition spec_call (id : Z) (c : call) (m : gmap Z (list Z)) : option (result * gmap Z (list Z)) :=
  match c, m !! id with
  | CNew, None => Some (RNew, <[id := []]> m)
  | CPush data, Some bytes =>
    let bytes' := bytes ++ data in
    if (0 <? Z.of_nat (length data)) && (Z.of_nat (length bytes') <=? INT_MAX)
    then Some (RSize (Z.of_nat (length bytes')), <[id := bytes']> m) else None
  | CPop sz, Some bytes =>
    if 0 <=? sz then
      let r := pop_result sz bytes in Some (RPop r.1 (Z.of_nat (length r.2)), <[id := r.2]> m)
    else None
  | CClear, Some bytes => Some (RClear, <[id := []]> m)
  | CReadAll, Some bytes => Some (RAll bytes, <[id := []]> m)
  | CReadLine check sep, Some bytes =>
    let r := line_result check sep bytes in Some (RLine r.1, <[id := r.2]> m)
  | _, _ => None
  end.

Fixpoint spec_calls (cs : list (Z * call)) (m : gmap Z (list Z)) : option (list result * gmap Z (list Z)) :=
  match cs with
  | [] => Some ([], m)
  | (id, c) :: cs =>
    '(r, m) ← spec_call id c m;
    '(rs, m) ← spec_calls cs m;
    Some (r :: rs, m)
  end.

Definition blocks_of (c : call) : list (list Z) := match c with CPush data => [data] | _ => [] end.
Definition pushed (cs : list (Z * call)) : list (list Z) := concat (map (λ x, blocks_of x.2) cs).

(** ** The invariant *)

(** The nodes and the blocks of each socket. *)
Notation parts := (gmap Z (list Z * list (list Z))).
Definition nodes (ps : parts) : list Z := concat (map (λ x, x.2.1) (map_to_list ps)).
Definition held (ps : parts) : list (list Z) := concat (map (λ x, x.2.2) (map_to_list ps)).

Definition socket_inv (pl : pool) (sb : option socket_buffer) (bytes : option (list Z))
    (part : option (list Z * list (list Z))) : Prop :=
  match sb, bytes, part with
  | Some sb, Some bytes, Some (L, Ds) => sized_of sb pl L Ds bytes
  | None, None, None => True
  | _, _, _ => False
  end.

Record inv (σ : buffers) (m : gmap Z (list Z)) (ps : parts) : Prop := {
  iv_sockets : ∀ id, socket_inv σ.2 (σ.1 !! id) (m !! id) (ps !! id);
  iv_pool : pool_inv σ.2 (nodes ps);
}.

Lemma parts_focus {A} (f : list Z * list (list Z) → list A) (ps : parts) id part :
  ps !! id = Some part →
  concat (map (λ x, f x.2) (map_to_list ps)) ≡ₚ f part ++ concat (map (λ x, f x.2) (map_to_list (delete id ps))).
Proof. intros E. rewrite <- (map_to_list_delete ps id part E). done. Qed.

Lemma parts_update {A} (f : list Z * list (list Z) → list A) (ps : parts) id part :
  concat (map (λ x, f x.2) (map_to_list (<[id := part]> ps))) ≡ₚ
  f part ++ concat (map (λ x, f x.2) (map_to_list (delete id ps))).
Proof. rewrite (parts_focus f _ id part) by (by rewrite lookup_insert_eq). by rewrite delete_insert_eq. Qed.

Lemma nodes_in (ps : parts) id j L Ds x : id ≠ j → ps !! j = Some (L, Ds) → x ∈ L → x ∈ nodes (delete id ps).
Proof.
  intros Hne E Hx. unfold nodes. rewrite (parts_focus fst (delete id ps) j (L, Ds)) by (by rewrite lookup_delete_ne).
  apply elem_of_app. by left.
Qed.

Lemma sized_of_same sb pl pl' L Ds bytes :
  same_cells pl pl' L → sized_of sb pl L Ds bytes → sized_of sb pl' L Ds bytes.
Proof. intros Hs (H & ?). split; [by eapply chain_of_same|done]. Qed.

(** One buffer changes. *)
Lemma inv_update σ m ps id sb pl L Ds bytes :
  inv σ m ps → sized_of sb pl L Ds bytes → pool_inv pl (L ++ nodes (delete id ps)) →
  same_cells σ.2 pl (nodes (delete id ps)) →
  inv (<[id := sb]> σ.1, pl) (<[id := bytes]> m) (<[id := (L, Ds)]> ps).
Proof.
  intros [H1 H2] Hs Hp Hsame. split; cbn [fst snd].
  - intros j. destruct (decide (id = j)) as [->|Hne]; [by rewrite !lookup_insert_eq|].
    rewrite !lookup_insert_ne by done. specialize (H1 j). unfold socket_inv in *.
    destruct (σ.1 !! j), (m !! j), (ps !! j) as [[L' Ds']|] eqn:Ep; try done.
    eapply sized_of_same; [|done]. intros x Hx. apply Hsame. by eapply nodes_in.
  - eapply pool_inv_perm; [|done]. symmetry. apply (parts_update fst).
Qed.

Lemma inv_socket σ m ps id bytes :
  inv σ m ps → m !! id = Some bytes →
  ∃ sb L Ds, σ.1 !! id = Some sb ∧ ps !! id = Some (L, Ds) ∧ sized_of sb σ.2 L Ds bytes ∧
    pool_inv σ.2 (L ++ nodes (delete id ps)).
Proof.
  intros [H1 H2] E. specialize (H1 id). rewrite E in H1. unfold socket_inv in H1.
  destruct (σ.1 !! id) as [sb|], (ps !! id) as [[L Ds]|] eqn:Ep; try done.
  exists sb, L, Ds. repeat (split; [done|]). eapply pool_inv_perm; [|done]. apply (parts_focus fst _ _ _ Ep).
Qed.

(** What a call does to the blocks. *)
Definition call_does (σ : buffers) (m' : gmap Z (list Z)) (ps : parts) (r : result) (new : list (list Z))
    (out : option (result * buffers * list (list Z))) : Prop :=
  ∃ σ' freed ps', out = Some (r, σ', freed) ∧ inv σ' m' ps' ∧ freed ++ held ps' ≡ₚ held ps ++ new.

Lemma run_on_does {A} (op : B A) wrap σ m ps id bytes bytes' x :
  inv σ m ps → m !! id = Some bytes →
  (∀ sb L Ds R, sized_of sb σ.2 L Ds bytes → pool_inv σ.2 (L ++ R) →
    result_of sized_of R σ.2 Ds bytes' x (op (sb, σ.2))) →
  call_does σ (<[id := bytes']> m) ps (wrap x) [] (run_on op wrap id σ).
Proof.
  intros Hinv Hm Hop. destruct (inv_socket _ _ _ _ _ Hinv Hm) as (sb & L & Ds & Esb & Ep & Hs & Hp).
  destruct (Hop sb L Ds _ Hs Hp) as (sb' & pl' & freed & L' & Ds' & E & Hs' & Hfr & Hp' & Hsame).
  unfold run_on. rewrite Esb. cbn [mbind option_bind]. rewrite E.
  eexists _, freed, (<[id := (L', Ds')]> ps). split; [done|]. split; [by apply inv_update|].
  unfold held. rewrite (parts_update snd), (parts_focus snd ps id _ Ep), <- Hfr, app_nil_r. cbn [snd]. by rewrite app_assoc.
Qed.

Lemma run_call_does id c σ m m' ps r :
  inv σ m ps → spec_call id c m = Some (r, m') → call_does σ m' ps r (blocks_of c) (run_call id c σ).
Proof.
  intros Hinv. unfold spec_call, run_call. destruct c as [|data|sz| | |check sep]; destruct (m !! id) as [bytes|] eqn:Em; try done.
  - intros [= <- <-]. pose proof (iv_sockets _ _ _ Hinv id) as Hid. rewrite Em in Hid. unfold socket_inv in Hid.
    destruct (σ.1 !! id) eqn:Es, (ps !! id) as [[? ?]|] eqn:Ep; try done.
    assert (delete id ps = ps) as Ed by (by apply delete_id).
    eexists _, [], (<[id := ([], [])]> ps). split; [done|]. split.
    + apply inv_update; [done|apply sized_of_new| |done]. rewrite Ed. apply (iv_pool _ _ _ Hinv).
    + unfold held. by rewrite (parts_update snd), Ed, app_nil_r.
  - destruct (Z.ltb_spec 0 (Z.of_nat (length data))) as [Hne|]; [|done].
    destruct (Z.leb_spec (Z.of_nat (length (bytes ++ data))) INT_MAX) as [Hmax|]; [|done]. intros [= <- <-].
    destruct (inv_socket _ _ _ _ _ Hinv Em) as (sb & L & Ds & Esb & Ep & Hs & Hp).
    destruct (lpushbuffer_spec data sb σ.2 L Ds bytes _ Hs Hp) as (sb' & pl' & p & E & Hs' & Hp' & Hsame).
    { by destruct data. } { rewrite length_app in Hmax. lia. }
    unfold run_on. rewrite Esb. cbn [mbind option_bind]. rewrite E. cbn [mbind option_bind blocks_of].
    eexists _, [], (<[id := (L ++ [p], Ds ++ [data])]> ps). split; [done|]. split; [by apply inv_update|].
    unfold held. rewrite (parts_update snd), (parts_focus snd ps id _ Ep). cbn [snd app].
    rewrite <- !app_assoc. apply Permutation_app_head, Permutation_app_comm.
  - destruct (Z.leb_spec 0 sz); [|done]. intros [= <- <-].
    apply (run_on_does _ (λ '(s, n), RPop s n) σ m ps id bytes _ (_, _) Hinv Em). intros. by apply lpopbuffer_spec with L.
  - intros [= <- <-]. apply (run_on_does _ (λ _, RClear) σ m ps id bytes [] tt Hinv Em).
    intros sb L Ds R (Hc & _) Hp. by eapply lclearbuffer_spec.
  - intros [= <- <-]. apply (run_on_does _ RAll σ m ps id bytes [] bytes Hinv Em).
    intros sb L Ds R (Hc & _) Hp. by eapply lreadall_spec.
  - intros [= <- <-]. apply (run_on_does _ RLine σ m ps id bytes _ _ Hinv Em). intros. by apply lreadline_spec with L.
Qed.

Lemma run_calls_does cs σ m m' ps rs :
  inv σ m ps → spec_calls cs m = Some (rs, m') →
  ∃ σ' freed ps', run_calls cs σ = Some (rs, σ', freed) ∧ inv σ' m' ps' ∧ freed ++ held ps' ≡ₚ held ps ++ pushed cs.
Proof.
  revert σ m ps rs. induction cs as [|[id c] cs IH]; intros σ m ps rs Hinv; cbn [spec_calls run_calls].
  - intros [= <- <-]. exists σ, [], ps. split; [done|]. split; [done|]. by rewrite app_nil_r.
  - destruct (spec_call id c m) as [[r m1]|] eqn:E; [|done]. cbn [mbind option_bind].
    destruct (spec_calls cs m1) as [[rs1 m2]|] eqn:E2; [|done]. intros [= <- <-].
    destruct (run_call_does _ _ _ _ _ _ _ Hinv E) as (σ1 & freed & ps1 & -> & Hinv1 & Hp).
    destruct (IH _ _ _ _ Hinv1 E2) as (σ2 & freed2 & ps2 & E3 & Hinv2 & Hp2). cbn [mbind option_bind]. rewrite E3.
    eexists σ2, _, ps2. split; [done|]. split; [done|]. cbn [pushed map concat snd].
    by rewrite <- app_assoc, Hp2, app_assoc, Hp, <- app_assoc.
Qed.

(** ** The end of the Lua state *)

Definition block_at (mem : list buffer_node) (p : Z) : list (list Z) :=
  match aget mem p with Some m => option_list (m_buffer m) | None => [] end.

Lemma lfreepool_spec k p mem :
  0 ≤ p → p + Z.of_nat k ≤ Z.of_nat (length mem) →
  ∃ mem', lfreepool k p mem = Some (tt, mem', concat (map (block_at mem) (seqZ p (Z.of_nat k)))) ∧
    length mem' = length mem ∧ ∀ x, p + Z.of_nat k ≤ x → aget mem' x = aget mem x.
Proof.
  revert p mem. induction k as [|k IH]; intros p mem Hp Hl; cbn [lfreepool]; [by exists mem|].
  destruct (aget_is_Some mem p) as [m Em]; [lia|].
  destruct (aset mem p (Message None (m_size m) (m_next m))) as [mem1|] eqn:Ea.
  2:{ rewrite aset_Some in Ea; [done|lia]. }
  pose proof (length_aset _ _ _ _ Ea) as Hl1.
  rewrite (exec_nil (_ ≫= _)), exec_state, Em, exec_lift, exec_emits, Ea, exec_lift, exec_put.
  destruct (IH (p + 1) mem1) as (mem2 & E2 & Hl2 & Hs2); [lia|lia|]. unfold exec. rewrite E2.
  exists mem2. split; [|split; [lia|]].
  - rewrite (seqZ_cons p) by lia. cbn [map concat app]. unfold block_at at 2. rewrite Em.
    replace (Z.pred (Z.of_nat (S k))) with (Z.of_nat k) by lia. change (Z.succ p) with (p + 1). do 4 f_equal.
    apply map_ext_in. intros x Hx%list_elem_of_In%elem_of_seqZ. unfold block_at.
    by rewrite (aset_other _ _ _ _ _ Ea) by lia.
  - intros x Hx. rewrite Hs2 by lia. by rewrite (aset_other _ _ _ _ _ Ea) by lia.
Qed.

Lemma free_chunks_spec chunks p mem :
  0 ≤ p → Forall (λ n, 0 ≤ n) chunks → p + foldr Z.add 0 chunks ≤ Z.of_nat (length mem) →
  ∃ mem', free_chunks chunks p mem = Some (tt, mem', concat (map (block_at mem) (seqZ p (foldr Z.add 0 chunks)))).
Proof.
  revert p mem. induction chunks as [|n chunks IH]; intros p mem Hp Hc Hl; cbn [free_chunks foldr]; [by exists mem|].
  apply Forall_cons in Hc as [Hn Hc]. cbn [foldr] in Hl.
  assert (0 ≤ foldr Z.add 0 chunks) as Hs by (clear -Hc; induction Hc; cbn; lia).
  destruct (lfreepool_spec (Z.to_nat n) p mem) as (mem1 & E1 & Hl1 & Hs1); [lia|lia|]. rewrite Z2Nat.id in * by lia.
  rewrite (exec_nil (_ ≫= _)), (exec_bind _ _ _ _ _ _ _ E1).
  destruct (IH (p + n) mem1) as (mem2 & E2); [lia|done|lia|]. unfold exec. rewrite E2. exists mem2.
  rewrite seqZ_app, map_app, concat_app by lia. cbn [app]. do 4 f_equal.
  apply map_ext_in. intros x Hx%list_elem_of_In%elem_of_seqZ. unfold block_at. by rewrite Hs1 by lia.
Qed.

Lemma blocks_held pl L Ds : Forall2 (holds (pl_mem pl)) L Ds → concat (map (block_at (pl_mem pl)) L) = Ds.
Proof.
  induction 1 as [|p d L Ds (m & Em & Hm & _) _ IH]; [done|]. cbn [map concat]. rewrite IH. unfold block_at. by rewrite Em, Hm.
Qed.

Lemma concat_map_nil {A C} (f : A → list C) l : (∀ x, x ∈ l → f x = []) → concat (map f l) = [].
Proof.
  induction l as [|x l IH]; intros H; [done|]. cbn [map concat]. rewrite H by left. apply IH. intros y Hy. apply H. by right.
Qed.

Lemma concat_map_perm {A C} (f : A → list C) l l' : l ≡ₚ l' → concat (map f l) ≡ₚ concat (map f l').
Proof.
  induction 1 as [|x l l' _ IH|x y l|l1 l2 l3 _ IH1 _ IH2]; cbn [map concat]; [done|by rewrite IH| |by rewrite IH1].
  rewrite !app_assoc. apply Permutation_app_tail, Permutation_app_comm.
Qed.

(** The blocks in the memory of the pool are those of the buffers. *)
Lemma pool_holds σ m ps :
  inv σ m ps → concat (map (block_at (pl_mem σ.2)) (seqZ 0 (Z.of_nat (length (pl_mem σ.2))))) ≡ₚ held ps.
Proof.
  intros [H1 [(F & _ & HP) H2 _ _]]. cbn [mp_of mp_mem] in HP.
  rewrite <- (concat_map_perm (block_at (pl_mem σ.2)) _ _ HP), map_app, concat_app.
  pose proof (NoDup_seqZ 0 (Z.of_nat (length (pl_mem σ.2)))) as Hd. rewrite <- HP in Hd. apply NoDup_app in Hd as (_ & Hd & _).
  rewrite concat_map_nil.
  2:{ intros p Hp. unfold block_at. destruct (aget _ p) as [mp|] eqn:E; [|done]. by rewrite (H2 p mp E (Hd p Hp)). }
  cbn [app]. unfold nodes, held. assert (∀ j part, (j, part) ∈ map_to_list ps → concat (map (block_at (pl_mem σ.2)) part.1) = part.2) as H.
  { intros j [L Ds] Ej%elem_of_map_to_list. specialize (H1 j). rewrite Ej in H1. unfold socket_inv in H1.
    destruct (σ.1 !! j), (m !! j); try done. destruct H1 as ([[_ _ Hc] _ _ _] & _). by apply blocks_held. }
  clear -H. induction (map_to_list ps) as [|[j part] l IH]; [done|]. cbn [map concat snd]. rewrite map_app, concat_app, (H j) by left.
  rewrite IH; [done|]. intros. apply (H j0). by right.
Qed.

(** C33: any calls of the socket library on the buffers of any number
    of sockets, which share one pool of nodes, give the results of strings of bytes to
    which blocks are appended and from which bytes or lines are taken, however the lines
    are cut into blocks; they never read outside a block or through a free node, and
    every block that was given to the library is freed exactly once, by a call or at the
    end of the Lua state. The calls are those that [spec_calls] has a result for: on a
    buffer that was made before, with blocks that are not empty, at most INT_MAX bytes in
    a buffer, and sizes to take that are not negative (a negative one dereferences the
    head of an empty buffer: pop_negative_size). *)
Theorem socket_buffers_refine (cs : list (Z * call)) (rs : list result) (m : gmap Z (list Z)) :
  spec_calls cs ∅ = Some (rs, m) →
  ∃ σ freed mem rest, run_calls cs (∅, pool_zero) = Some (rs, σ, freed) ∧
    free_chunks (pl_chunks σ.2) 0 (pl_mem σ.2) = Some (tt, mem, rest) ∧ freed ++ rest ≡ₚ pushed cs.
Proof.
  intros E. assert (inv (∅, pool_zero) ∅ ∅) as H0 by (split; [done|apply pool_inv_zero]).
  destruct (run_calls_does _ _ _ _ _ _ H0 E) as (σ & freed & ps & -> & Hinv & Hp).
  pose proof (iv_pool _ _ _ Hinv) as [_ _ Hch Hsz].
  destruct (free_chunks_spec (pl_chunks σ.2) 0 (pl_mem σ.2)) as [mem Ef]; [done|done|lia|].
  eexists σ, freed, mem, _. split; [done|]. split; [done|]. rewrite <- Hch, (pool_holds _ _ _ Hinv). by rewrite Hp.
Qed.

(** Two lines in three blocks, and half of a third. *)
Lemma socket_buffers_refine_witness :
  let cs := [(7, CNew); (7, CPush [1; 2]); (7, CReadLine false [10]); (7, CPush [3; 10; 4]); (8, CNew); (8, CPush [5]);
             (7, CPush [10; 6]); (7, CReadLine false [10]); (7, CReadLine true [10]); (7, CReadLine false [10]); (7, CPop 2)] in
  let rs := [RNew; RSize 2; RLine NoLine; RSize 5; RNew; RSize 1; RSize 7; RLine (Line [1; 2; 3]); RLine IsLine;
             RLine (Line [4]); RPop None 1] in
  ∃ m, spec_calls cs ∅ = Some (rs, m) ∧
  ∃ σ freed mem rest, run_calls cs (∅, pool_zero) = Some (rs, σ, freed) ∧
    free_chunks (pl_chunks σ.2) 0 (pl_mem σ.2) = Some (tt, mem, rest) ∧ freed ++ rest ≡ₚ pushed cs.
Proof.
  intros cs rs. exists (<[7 := [6]]> (<[8 := [5]]> ∅)).
  assert (spec_calls cs ∅ = Some (rs, <[7 := [6]]> (<[8 := [5]]> ∅))) as E by (vm_compute; reflexivity).
  split; [exact E|]. exact (socket_buffers_refine cs rs _ E).
Defined.

(** A negative size passes the test of [lpopbuffer], and the first node is read, which an
    empty buffer does not have. *)
Lemma pop_negative_size : run_calls [(7, CNew); (7, CPop (-1))] (∅, pool_zero) = None.
Proof. vm_compute. done. Qed.
