(* ===== verification/Multicast.v ===== *)
(** Multicast channels: src/framework/skynet/lualib-src/lua-multicast.c, the service
    service/multicastd.lua of a node, and lualib/skynet/multicast.lua in the services that
    use it.

    A message to a channel is packed once; the subscribers in the same node get a pointer
    to the package, which counts its references.  The memory holds packages and the cells
    with a pointer to one ([struct mc_package **]) in which a package travels before it
    is bound to a number of subscribers; [None] is an access to freed memory.  All
    services run at once: an event is what one of them does before others may act on the
    same data.  Errors of Lua end a handler and have no effect; the addresses of the
    services in other nodes are taken to be known. *)
From S2P Require Import Prelude.
Local Open Scope Z_scope.

(** ** Packages *)

Record mc_package := McPackage { reference : Z; data : list Z }.

(** New memory is at [h_next]. *)
Record heap := Heap { h_packs : gmap Z mc_package; h_cells : gmap Z Z; h_next : Z }.

Definition pack (bytes : list Z) (h : heap) : Z * heap :=
  (h_next h + 1, Heap (<[h_next h := McPackage 0 bytes]> (h_packs h)) (<[h_next h + 1 := h_next h]> (h_cells h)) (h_next h + 2)).

(** [size] is [size_t], and must have 32 bits; [None] is the Lua error. *)
Definition mc_packlocal (bytes : list Z) (h : heap) : option (Z * heap) :=
  if Z.of_nat (length bytes) =? wrap 32 (Z.of_nat (length bytes)) then Some (pack bytes h) else None.

(** The copy of the message has the same bytes. *)
Definition mc_packremote (bytes : list Z) (h : heap) : option (Z * heap) := mc_packlocal bytes h.

Definition mc_unpacklocal (cell : Z) (h : heap) : option (Z * list Z) :=
  p ← h_cells h !! cell; pk ← h_packs h !! p; Some (p, data pk).

(** [inl]: "Can't bind a multicast package more than once". *)
Definition mc_bindrefer (cell ref : Z) (h : heap) : option (unit + Z * heap) :=
  p ← h_cells h !! cell;
  pk ← h_packs h !! p;
  if negb (reference pk =? 0) then Some (inl tt)
  else Some (inr (p, Heap (<[p := McPackage (swrap 32 ref) (data pk)]> (h_packs h)) (delete cell (h_cells h)) (h_next h))).

(** Whether the reference was valid, and the data that is freed. *)
Definition mc_closelocal (p : Z) (h : heap) : option (bool * heap * list (list Z)) :=
  pk ← h_packs h !! p;
  let ref := reference pk - 1 in
  if ref <=? 0 then Some (0 <=? ref, Heap (delete p (h_packs h)) (h_cells h) (h_next h), [data pk])
  else Some (true, Heap (<[p := McPackage ref (data pk)]> (h_packs h)) (h_cells h) (h_next h), []).

(** The data, which now belongs to the caller. *)
Definition mc_remote (cell : Z) (h : heap) : option (list Z * heap) :=
  p ← h_cells h !! cell;
  pk ← h_packs h !! p;
  Some (data pk, Heap (delete p (h_packs h)) (delete cell (h_cells h)) (h_next h)).

Definition mc_nextid (id : Z) : Z := Z.land (wrap 32 (wrap 32 id + 256)) 0x7fffffff.

(** ** The service *)

(** The tables of multicastd.lua: the subscribers of a channel, their number, the other
    nodes that have subscribers, and the next channel. *)
Record daemon := Daemon {
  channel : gmap Z (gset Z); channel_n : gmap Z Z; channel_remote : gmap Z (gset Z); channel_id : Z;
}.

Inductive message :=
  | Multicast (c source p : Z)
  (** The response to SUB. *)
  | Subscribed (c : Z).

(** What the service is asked for; [PUBLISH] is a message from another node. *)
Inductive command :=
  | NEW
  | DEL (c : Z) | DELR (c : Z)
  | PUB (source c cell : Z) | PUBLISH (source c : Z) (bytes : list Z)
  | SUB (source c : Z) | USUB (source c : Z)
  | SUBR (node c : Z) | USUBR (node c : Z).

Inductive effect :=
  (** A command for the service of another node. *)
  | ESend (node : Z) (name : command)
  (** A message for another node: a copy, or the data itself. *)
  | ERemote (node c source : Z) (bytes : list Z)
  | EGive (node c source : Z) (bytes : list Z)
  | ENew (c : Z)
  (** The response to SUBR. *)
  | EAnswer (node c : Z) (missing : bool)
  | EPack (bytes : list Z) | EFree (bytes : list Z)
  (** A publication, with the subscribers that it is for. *)
  | EPublish (c source : Z) (bytes : list Z) (group : gset Z)
  (** A service takes a message: for its handler, or not. *)
  | EGot (k c source : Z) (bytes : list Z) | EDrop (k c source : Z) (bytes : list Z).

(** [w_sending] is what the loop of [publish] still has to send; [w_waiting] are the
    calls of SUBR without an answer; [w_active] are the messages that services are
    working on; [w_dispatch] is the table [dispatch] of each service. *)
Record world := World {
  w_heap : heap; w_daemon : daemon; w_inbox : list command; w_sending : list (Z * message);
  w_waiting : list (Z * Z); w_queue : list (Z * message); w_active : list (Z * Z); w_dispatch : gset (Z * Z);
}.

Section node.
Context (harbor_id : Z).

Fixpoint free_id (fuel : nat) (d : daemon) (id : Z) : option Z :=
  match fuel with
  | O => None
  | S fuel => match channel d !! id with Some _ => free_id fuel d (mc_nextid id) | None => Some id end
  end.

Definition command_NEW (d : daemon) : option (Z * daemon) :=
  id ← free_id (S (size (channel d))) d (channel_id d);
  Some (id, Daemon (<[id := ∅]> (channel d)) (<[id := 0]> (channel_n d)) (channel_remote d) (mc_nextid id)).

Definition command_DELR (c : Z) (d : daemon) : daemon :=
  Daemon (delete c (channel d)) (delete c (channel_n d)) (channel_remote d) (channel_id d).

Definition command_DEL (c : Z) (d : daemon) : daemon * list effect :=
  let node := c mod 256 in
  if negb (node =? harbor_id) then (d, [ESend node (DEL c)])
  else
    (Daemon (delete c (channel d)) (delete c (channel_n d)) (delete c (channel_remote d)) (channel_id d),
     match channel_remote d !! c with
     | Some remote => map (λ node, ESend node (DELR c)) (elements remote)
     | None => []
     end).

(** The heap, the messages to send, and the effects. *)
Definition publish (c source cell : Z) (d : daemon) (h : heap) : option (heap * list (Z * message) * list effect) :=
  '(_, bytes) ← mc_unpacklocal cell h;
  let remote := match channel_remote d !! c with
                | Some remote => map (λ node, ERemote node c source bytes) (elements remote)
                | None => []
                end in
  let group := default ∅ (channel d !! c) in
  let published := remote ++ [EPublish c source bytes group] in
  if bool_decide (group = ∅) then
    r ← mc_bindrefer cell 1 h;
    match r with
    | inl _ => Some (h, [], published)
    | inr (p, h) =>
      '(_, h, freed) ← mc_closelocal p h;
      Some (h, [], published ++ map EFree freed)
    end
  else
    match channel_n d !! c with
    | None => Some (h, [], published)
    | Some n =>
      r ← mc_bindrefer cell n h;
      match r with
      | inl _ => Some (h, [], published)
      | inr (p, h) => Some (h, map (λ k, (k, Multicast c source p)) (elements group), published)
      end
    end.

Definition command_PUB (source c cell : Z) (d : daemon) (h : heap) : option (heap * list (Z * message) * list effect) :=
  let node := c mod 256 in
  if negb (node =? harbor_id) then
    '(bytes, h) ← mc_remote cell h;
    Some (h, [], [EGive node c source bytes])
  else publish c source cell d h.

(** The end of [command.SUB]. *)
Definition subscribe (source c : Z) (d : daemon) : daemon :=
  match channel d !! c with
  | Some group =>
    if decide (source ∈ group) then d
    else Daemon (<[c := {[source]} ∪ group]> (channel d)) (alter (λ n, n + 1) c (channel_n d)) (channel_remote d) (channel_id d)
  | None => d
  end.

(** [true]: the service calls SUBR and goes on with [answer]. *)
Definition command_SUB (source c : Z) (d : daemon) : bool * daemon :=
  if negb (c mod 256 =? harbor_id) && bool_decide (channel d !! c = None) then (true, d)
  else (false, subscribe source c d).

(** [missing]: the owner of the channel has none. *)
Definition answer (missing : bool) (source c : Z) (d : daemon) : daemon :=
  if missing then d
  else
    subscribe source c
      (match channel d !! c with
       | Some _ => d
       | None => Daemon (<[c := ∅]> (channel d)) (<[c := 0]> (channel_n d)) (channel_remote d) (channel_id d)
       end).

Definition command_SUBR (node c : Z) (d : daemon) : daemon * list effect :=
  match channel d !! c with
  | None => (d, [EAnswer node c true])
  | Some _ =>
    if negb (node =? harbor_id) && (c mod 256 =? harbor_id) then
      (Daemon (channel d) (channel_n d)
         (<[c := {[node]} ∪ default ∅ (channel_remote d !! c)]> (channel_remote d)) (channel_id d),
       [EAnswer node c false])
    else (d, [])
  end.

Definition command_USUBR (node c : Z) (d : daemon) : daemon :=
  match channel_remote d !! c with
  | Some group =>
    if node =? harbor_id then d
    else Daemon (channel d) (channel_n d) (<[c := group ∖ {[node]}]> (channel_remote d)) (channel_id d)
  | None => d
  end.

Definition command_USUB (source c : Z) (d : daemon) : daemon * list effect :=
  match channel d !! c, channel_n d !! c with
  | Some group, Some n =>
    if decide (source ∈ group) then
      let group := group ∖ {[source]} in
      let n := n - 1 in
      if (n =? 0) && negb (c mod 256 =? harbor_id) then
        (Daemon (delete c (channel d)) (delete c (channel_n d)) (channel_remote d) (channel_id d),
         [ESend (c mod 256) (USUBR harbor_id c)])
      else (Daemon (<[c := group]> (channel d)) (<[c := n]> (channel_n d)) (channel_remote d) (channel_id d), [])
    else (d, [])
  | _, _ => (d, [])
  end.

(** ** Events *)

Definition set_daemon (d : daemon) (w : world) : world :=
  World (w_heap w) d (w_inbox w) (w_sending w) (w_waiting w) (w_queue w) (w_active w) (w_dispatch w).
Definition set_heap (h : heap) (w : world) : world :=
  World h (w_daemon w) (w_inbox w) (w_sending w) (w_waiting w) (w_queue w) (w_active w) (w_dispatch w).
Definition set_inbox (l : list command) (w : world) : world :=
  World (w_heap w) (w_daemon w) l (w_sending w) (w_waiting w) (w_queue w) (w_active w) (w_dispatch w).
Definition set_sending (l : list (Z * message)) (w : world) : world :=
  World (w_heap w) (w_daemon w) (w_inbox w) l (w_waiting w) (w_queue w) (w_active w) (w_dispatch w).
Definition set_waiting (l : list (Z * Z)) (w : world) : world :=
  World (w_heap w) (w_daemon w) (w_inbox w) (w_sending w) l (w_queue w) (w_active w) (w_dispatch w).
Definition set_queue (l : list (Z * message)) (w : world) : world :=
  World (w_heap w) (w_daemon w) (w_inbox w) (w_sending w) (w_waiting w) l (w_active w) (w_dispatch w).
Definition set_active (l : list (Z * Z)) (w : world) : world :=
  World (w_heap w) (w_daemon w) (w_inbox w) (w_sending w) (w_waiting w) (w_queue w) l (w_dispatch w).
Definition set_dispatch (s : gset (Z * Z)) (w : world) : world :=
  World (w_heap w) (w_daemon w) (w_inbox w) (w_sending w) (w_waiting w) (w_queue w) (w_active w) s.

(** A message to a service. *)
Definition send (k : Z) (msg : message) (w : world) : world := set_queue (w_queue w ++ [(k, msg)]) w.

(** The service runs the handler of a command. *)
Definition run_command (cmd : command) (w : world) : option (world * list effect) :=
  let d := w_daemon w in
  match cmd with
  | NEW => '(id, d) ← command_NEW d; Some (set_daemon d w, [ENew id])
  | DEL c => let (d, es) := command_DEL c d in Some (set_daemon d w, es)
  | DELR c => Some (set_daemon (command_DELR c d) w, [])
  | PUB source c cell =>
    '(h, msgs, es) ← command_PUB source c cell d (w_heap w);
    Some (set_sending msgs (set_heap h w), es)
  | PUBLISH source c bytes =>
    match mc_packremote bytes (w_heap w) with
    | None => Some (w, [])
    | Some (cell, h) =>
      '(h, msgs, es) ← publish c source cell d h;
      Some (set_sending msgs (set_heap h w), EPack bytes :: es)
    end
  | SUB source c =>
    let (call, d) := command_SUB source c d in
    if call then Some (set_waiting (w_waiting w ++ [(source, c)]) w, [ESend (c mod 256) (SUBR harbor_id c)])
    else Some (send source (Subscribed c) (set_daemon d w), [])
  | USUB source c => let (d, es) := command_USUB source c d in Some (set_daemon d w, es)
  | SUBR node c => let (d, es) := command_SUBR node c d in Some (set_daemon d w, es)
  | USUBR node c => Some (set_daemon (command_USUBR node c d) w, [])
  end.

(** The first message for [k], and the others. *)
Fixpoint take_first (k : Z) (l : list (Z * message)) : option (message * list (Z * message)) :=
  match l with
  | [] => None
  | (k', msg) :: l => if k' =? k then Some (msg, l) else '(m, l) ← take_first k l; Some (m, (k', msg) :: l)
  end.

Inductive event :=
  (** The functions of multicast.lua in the service [k]. *)
  | VNew | VDelete (c : Z) | VPublish (k c : Z) (bytes : list Z) | VSubscribe (k c : Z) | VUnsubscribe (k c : Z)
  (** Messages from other nodes. *)
  | VRemote (cmd : command)
  (** The service sends the next message of a publication, or takes its [j]th command:
      looking up the address of another node suspends a handler, so that others may come
      first. *)
  | VDaemon (j : nat)
  (** The [j]th call of SUBR has its answer. *)
  | VAnswer (j : nat) (missing : bool)
  (** The service [k] takes its next message; a handler is done. *)
  | VReceive (k : Z) | VClose (j : nat).

Definition put_command (cmd : command) (w : world) : world := set_inbox (w_inbox w ++ [cmd]) w.

(** [dispatch_subscribe] up to the call of the handler. *)
Definition receive (k : Z) (msg : message) (w : world) : option (world * list effect) :=
  match msg with
  | Subscribed c => Some (set_dispatch ({[(k, c)]} ∪ w_dispatch w) w, [])
  | Multicast c source p =>
    pk ← h_packs (w_heap w) !! p;
    Some (set_active (w_active w ++ [(k, p)]) w,
          [if decide ((k, c) ∈ w_dispatch w) then EGot k c source (data pk) else EDrop k c source (data pk)])
  end.

Definition run_event (e : event) (w : world) : option (world * list effect) :=
  match e with
  | VNew => Some (put_command NEW w, [])
  | VDelete c => Some (put_command (DEL c) w, [])
  | VPublish k c bytes =>
    match mc_packlocal bytes (w_heap w) with
    | None => Some (w, [])
    | Some (cell, h) => Some (put_command (PUB k c cell) (set_heap h w), [EPack bytes])
    end
  | VSubscribe k c => Some (if decide ((k, c) ∈ w_dispatch w) then w else put_command (SUB k c) w, [])
  | VUnsubscribe k c =>
    Some (if decide ((k, c) ∈ w_dispatch w)
          then put_command (USUB k c) (set_dispatch (w_dispatch w ∖ {[(k, c)]}) w) else w, [])
  | VRemote cmd => Some (put_command cmd w, [])
  | VDaemon j =>
    match w_sending w with
    | (k, msg) :: rest => Some (send k msg (set_sending rest w), [])
    | [] => match w_inbox w !! j with None => Some (w, []) | Some cmd => run_command cmd (set_inbox (delete j (w_inbox w)) w) end
    end
  | VAnswer j missing =>
    match w_waiting w !! j with
    | None => Some (w, [])
    | Some (source, c) =>
      Some (send source (Subscribed c)
              (set_daemon (answer missing source c (w_daemon w)) (set_waiting (delete j (w_waiting w)) w)), [])
    end
  | VReceive k =>
    match take_first k (w_queue w) with
    | None => Some (w, [])
    | Some (msg, queue) => receive k msg (set_queue queue w)
    end
  | VClose j =>
    match w_active w !! j with
    | None => Some (w, [])
    | Some (_, p) =>
      '(_, h, freed) ← mc_closelocal p (w_heap w);
      Some (set_heap h (set_active (delete j (w_active w)) w), map EFree freed)
    end
  end.

Fixpoint run_events (es : list event) (w : world) : option (world * list effect) :=
  match es with
  | [] => Some (w, [])
  | e :: es => '(w, out) ← run_event e w; '(w, out') ← run_events es w; Some (w, out ++ out')
  end.

Definition world_init : world := World (Heap ∅ ∅ 1) (Daemon ∅ ∅ ∅ harbor_id) [] [] [] [] [] ∅.
End node.
