(* ===== verification/MulticastSafe.v ===== *)
(** Packages are freed when their last subscriber is done, and every subscriber gets what
    was published while it was subscribed. *)
From S2P Require Import Prelude Multicast.
Local Open Scope Z_scope.

(** ** References *)

Notation count p P := (count_occ Z.eq_dec P p).

(** The cells [cs] hold packages that were not bound, and [P] are the references. *)
Record heap_inv (h : heap) (cs P : list Z) : Prop := {
  hv_nodup : NoDup cs;
  hv_cells : ∀ cell, is_Some (h_cells h !! cell) ↔ cell ∈ cs;
  hv_inj : ∀ c1 c2 p, h_cells h !! c1 = Some p → h_cells h !! c2 = Some p → c1 = c2;
  hv_boxed : ∀ cell p, h_cells h !! cell = Some p → is_Some (h_packs h !! p);
  hv_refs : ∀ p pk, h_packs h !! p = Some pk →
    reference pk = Z.of_nat (count p P) ∧ (count p P = 0%nat ↔ ∃ cell, h_cells h !! cell = Some p);
  hv_live : ∀ p, p ∈ P → is_Some (h_packs h !! p);
  hv_fresh : (∀ p, is_Some (h_packs h !! p) → p < h_next h) ∧ ∀ cell, is_Some (h_cells h !! cell) → cell < h_next h;
}.

(** The data of all packages. *)
Definition stored (h : heap) : list (list Z) := map (λ x, data x.2) (map_to_list (h_packs h)).

(** The packages [P] have the same data. *)
Definition same_data (h h' : heap) (P : list Z) : Prop :=
  ∀ p, p ∈ P → data <$> h_packs h' !! p = data <$> h_packs h !! p.

Lemma count_perm p P P' : P ≡ₚ P' → count p P = count p P'.
Proof. intros H. by apply Permutation_count_occ. Qed.

Lemma heap_inv_perm h cs cs' P P' : cs ≡ₚ cs' → P ≡ₚ P' → heap_inv h cs P → heap_inv h cs' P'.
Proof.
  intros Hc HP [H1 H2 H3 H4 H5 H6 H7]. split; try done.
  - by rewrite <- Hc.
  - intros cell. by rewrite H2, Hc.
  - intros p pk E. by rewrite <- (count_perm p _ _ HP); apply H5.
  - intros p Hp. apply H6. by rewrite HP.
Qed.

Lemma count_in p P : p ∈ P ↔ (0 < count p P)%nat.
Proof. rewrite list_elem_of_In. by rewrite (count_occ_In Z.eq_dec). Qed.

Lemma count_replicate q p n : count q (replicate n p) = if decide (q = p) then n else 0%nat.
Proof.
  induction n as [|n IH]; cbn [replicate]; [by destruct (decide _)|]. destruct (decide (q = p)) as [->|Hne].
  - by rewrite count_occ_cons_eq, IH.
  - by rewrite count_occ_cons_neq, IH by congruence.
Qed.

Lemma heap_inv_init : heap_inv (Heap ∅ ∅ 1) [] [].
Proof.
  split; cbn; [apply NoDup_nil_2|intros cell|intros c1 c2 p ?|intros cell p ?|intros p pk ?|intros p|].
  - split; [by intros [? ?]|by intros ?%not_elem_of_nil].
  - done.
  - done.
  - done.
  - by intros ?%not_elem_of_nil.
  - split; by intros ? [? ?].
Qed.

Lemma stored_insert p pk packs h :
  packs !! p = None → h_packs h = <[p := pk]> packs → stored h ≡ₚ data pk :: map (λ x, data x.2) (map_to_list packs).
Proof. intros E Eh. unfold stored. by rewrite Eh, map_to_list_insert. Qed.

Lemma stored_delete h p pk packs :
  h_packs h !! p = Some pk → packs = delete p (h_packs h) → stored h ≡ₚ data pk :: map (λ x, data x.2) (map_to_list packs).
Proof. intros E ->. unfold stored. by rewrite <- (map_to_list_delete _ _ _ E). Qed.

Lemma stored_update h p pk n :
  h_packs h !! p = Some pk →
  map (λ x, data x.2) (map_to_list (<[p := McPackage n (data pk)]> (h_packs h))) ≡ₚ stored h.
Proof.
  intros E. rewrite (stored_delete h p pk _ E eq_refl).
  rewrite <- insert_delete_eq, map_to_list_insert by (by rewrite lookup_delete_eq). done.
Qed.

(** ** The functions of lua-multicast.c *)

Lemma packlocal_spec bytes h cs P cell h' :
  heap_inv h cs P → mc_packlocal bytes h = Some (cell, h') →
  heap_inv h' (cell :: cs) P ∧ stored h' ≡ₚ bytes :: stored h ∧ same_data h h' P.
Proof.
  intros [H1 H2 H3 H4 H5 H6 [H7 H8]]. unfold mc_packlocal, pack. destruct (_ =? _); [|done]. intros [= <- <-].
  assert (h_packs h !! h_next h = None) as Ep by (apply eq_None_not_Some; intros ?%H7; lia).
  assert (h_cells h !! (h_next h + 1) = None) as Ec by (apply eq_None_not_Some; intros ?%H8; lia).
  assert (∀ cell, h_cells h !! cell = Some (h_next h) → False) as Hn by (intros cell [? E]%H4; congruence).
  split; [split; cbn|split].
  - constructor; [|done]. rewrite <- H2, Ec. by intros [? ?].
  - intros cell. rewrite lookup_insert_is_Some', elem_of_cons, H2. naive_solver.
  - intros c1 c2 p. rewrite !lookup_insert_Some. naive_solver.
  - intros cell p. rewrite lookup_insert_Some, lookup_insert_is_Some'. naive_solver.
  - intros p pk. rewrite lookup_insert_Some. intros [(<- & <-)|(Hne & E)].
    + assert (count (h_next h) P = 0%nat) as E0.
      { destruct (count _ P) eqn:E; [done|]. destruct (H6 (h_next h)) as [? ?]; [apply count_in; lia|congruence]. }
      cbn. rewrite E0. split; [done|]. split; [|done]. intros _. exists (h_next h + 1). by rewrite lookup_insert_eq.
    + destruct (H5 p pk E) as [Hr Hb]. split; [done|]. rewrite Hb. split; intros [cell Ecell]; exists cell.
      * rewrite lookup_insert_ne; [done|]. intros <-. congruence.
      * rewrite lookup_insert_Some in Ecell. naive_solver.
  - intros p [pk E]%H6. rewrite lookup_insert_is_Some'. right. by exists pk.
  - split; intros ?; rewrite lookup_insert_is_Some'; intros [<-|Hs]; try lia; [apply H7 in Hs|apply H8 in Hs]; lia.
  - by rewrite (stored_insert (h_next h) (McPackage 0 bytes) (h_packs h)).
  - intros p [pk E]%H6. cbn. rewrite lookup_insert_ne; [done|]. intros <-. congruence.
Qed.

Lemma unpack_spec cell h cs P : heap_inv h cs P → cell ∈ cs →
  ∃ p pk, h_cells h !! cell = Some p ∧ h_packs h !! p = Some pk ∧ reference pk = 0 ∧ p ∉ P ∧
    mc_unpacklocal cell h = Some (p, data pk).
Proof.
  intros [_ H2 _ H4 H5 _ _] [p Ep]%H2. destruct (H4 _ _ Ep) as [pk Epk]. exists p, pk.
  destruct (H5 p pk Epk) as [Hr Hb]. assert (count p P = 0%nat) as E0 by (apply Hb; by exists cell).
  split; [done|]. split; [done|]. split; [lia|]. split; [rewrite count_in; lia|].
  unfold mc_unpacklocal. rewrite Ep. cbn [mbind option_bind]. by rewrite Epk.
Qed.

Lemma cells_delete h cell cs :
  NoDup (cell :: cs) → (∀ c, is_Some (h_cells h !! c) ↔ c ∈ cell :: cs) →
  ∀ c, is_Some (delete cell (h_cells h) !! c) ↔ c ∈ cs.
Proof.
  intros [Hn _]%NoDup_cons H c. rewrite lookup_delete_is_Some, H, elem_of_cons. naive_solver.
Qed.

Lemma bind_spec cell n h cs P : heap_inv h (cell :: cs) P → 0 < n < 2 ^ 31 →
  ∃ p h', mc_bindrefer cell n h = Some (inr (p, h')) ∧ heap_inv h' cs (replicate (Z.to_nat n) p ++ P) ∧
    stored h' ≡ₚ stored h ∧ same_data h h' P ∧
    data <$> h_packs h' !! p = snd <$> mc_unpacklocal cell h ∧ is_Some (h_packs h' !! p).
Proof.
  intros Hinv Hn. destruct (unpack_spec cell h _ P Hinv) as (p & pk & Ec & Ep & Hr & HP & Eu); [left|].
  destruct Hinv as [H1 H2 H3 H4 H5 H6 [H7 H8]].
  unfold mc_bindrefer. rewrite Eu, Ec. cbn [mbind option_bind]. rewrite Ep. cbn [mbind option_bind].
  rewrite Hr, swrap_small by lia. cbn [negb Z.eqb]. eexists p, _. split; [done|].
  assert (∀ q, count q (replicate (Z.to_nat n) p ++ P) = (if decide (q = p) then Z.to_nat n + count q P else count q P)%nat) as Hc.
  { intros q. rewrite count_occ_app, count_replicate. by destruct (decide (q = p)). }
  split; [split; cbn|split; [by apply stored_update|split; [|split]]].
  - by apply NoDup_cons in H1 as [_ ?].
  - by apply cells_delete.
  - intros c1 c2 q [_ ?]%lookup_delete_Some [_ ?]%lookup_delete_Some. by eapply H3.
  - intros c q [_ E]%lookup_delete_Some. apply lookup_insert_is_Some'. right. by eapply H4.
  - intros q qk. rewrite lookup_insert_Some, Hc. intros [(<- & <-)|(Hne & E)].
    + rewrite decide_True by done. assert (count p P = 0%nat) as -> by (rewrite count_in in HP; lia). cbn.
      split; [lia|]. split; [lia|]. intros [c [Hcc E]%lookup_delete_Some]. destruct Hcc. by eapply H3.
    + rewrite decide_False by done. destruct (H5 q qk E) as [Hq Hb]. split; [done|]. rewrite Hb.
      split; intros [c E']; exists c; [|by apply lookup_delete_Some in E' as [_ ?]].
      apply lookup_delete_Some. split; [|done]. intros <-. congruence.
  - intros q [Hq|Hq]%elem_of_app; apply lookup_insert_is_Some'; [left; by apply elem_of_replicate in Hq as [-> _]|right; by apply H6].
  - split; [intros q [<-|Hq]%lookup_insert_is_Some'; [apply H7; by exists pk|by apply H7]|].
    intros c [_ Hs]%lookup_delete_is_Some. by apply H8.
  - intros q Hq. cbn. rewrite lookup_insert_ne; [done|]. by intros ->.
  - cbn. by rewrite lookup_insert_eq.
  - cbn. rewrite lookup_insert_eq. by eexists.
Qed.

Lemma closelocal_spec p h cs P : heap_inv h cs (p :: P) →
  ∃ h' freed, mc_closelocal p h = Some (true, h', freed) ∧ heap_inv h' cs P ∧ freed ++ stored h' ≡ₚ stored h ∧
    same_data h h' P.
Proof.
  intros [H1 H2 H3 H4 H5 H6 [H7 H8]]. destruct (H6 p) as [pk Ep]; [left|]. destruct (H5 p pk Ep) as [Hr Hb].
  rewrite count_occ_cons_eq in Hr, Hb by done. unfold mc_closelocal. rewrite Ep. cbn [mbind option_bind].
  assert (∀ c, h_cells h !! c ≠ Some p) as Hnc by (intros c E; assert (∃ c, h_cells h !! c = Some p) as [=]%Hb by eauto).
  assert (∀ q qk, q ≠ p → h_packs h !! q = Some qk →
    reference qk = Z.of_nat (count q P) ∧ (count q P = 0%nat ↔ ∃ c, h_cells h !! c = Some q)) as Hq.
  { intros q qk Hne E. specialize (H5 q qk E). rewrite count_occ_cons_neq in H5 by congruence. done. }
  destruct (Z.leb_spec (reference pk - 1) 0) as [Hle|Hgt].
  - assert (count p P = 0%nat) as E0 by lia. rewrite Z.leb_refl || rewrite (proj2 (Z.leb_le 0 (reference pk - 1))) by lia.
    eexists _, _. split; [done|]. split; [split; cbn; try done|split].
    + intros c q E. destruct (decide (q = p)) as [->|Hne]; [by apply Hnc in E|].
      rewrite lookup_delete_ne by done. by eapply H4.
    + intros q qk [Hne E]%lookup_delete_Some. by apply Hq.
    + intros q Hin. assert (q ≠ p) by (intros ->; apply count_in in Hin; lia). rewrite lookup_delete_ne by done. apply H6. by right.
    + split; [|done]. intros q [_ Hs]%lookup_delete_is_Some. by apply H7.
    + cbn [app]. symmetry. by apply (stored_delete h p pk).
    + intros q Hin. assert (q ≠ p) by (intros ->; apply count_in in Hin; lia). cbn. by rewrite lookup_delete_ne.
  - eexists _, []. split; [done|]. split; [split; cbn; try done|split].
    + intros c q E. apply lookup_insert_is_Some'. right. by eapply H4.
    + intros q qk. rewrite lookup_insert_Some. intros [(<- & <-)|(Hne & E)]; [|by apply Hq].
      cbn. split; [lia|]. split; [lia|]. intros [c E]. by apply Hnc in E.
    + intros q Hin. apply lookup_insert_is_Some'. right. apply H6. by right.
    + split; [|done]. intros q [<-|Hs]%lookup_insert_is_Some'; apply H7; [by exists pk|done].
    + cbn [app]. by apply stored_update.
    + intros q _. cbn. destruct (decide (q = p)) as [->|Hne]; [by rewrite lookup_insert_eq, Ep|by rewrite lookup_insert_ne].
Qed.

Lemma remote_spec cell h cs P : heap_inv h (cell :: cs) P →
  ∃ bytes h', mc_remote cell h = Some (bytes, h') ∧ heap_inv h' cs P ∧ bytes :: stored h' ≡ₚ stored h ∧ same_data h h' P.
Proof.
  intros Hinv. destruct (unpack_spec cell h _ P Hinv) as (p & pk & Ec & Ep & Hr & HP & _); [left|].
  destruct Hinv as [H1 H2 H3 H4 H5 H6 [H7 H8]].
  unfold mc_remote. rewrite Ec. cbn [mbind option_bind]. rewrite Ep. cbn [mbind option_bind].
  eexists _, _. split; [done|]. split; [split; cbn|split].
  - by apply NoDup_cons in H1 as [_ ?].
  - by apply cells_delete.
  - intros c1 c2 q [_ ?]%lookup_delete_Some [_ ?]%lookup_delete_Some. by eapply H3.
  - intros c q [Hne E]%lookup_delete_Some. rewrite lookup_delete_ne; [by eapply H4|]. intros <-. apply Hne. by eapply H3.
  - intros q qk [Hne E]%lookup_delete_Some. destruct (H5 q qk E) as [Hq Hb]. split; [done|]. rewrite Hb.
    split; intros [c E']; exists c; [|by apply lookup_delete_Some in E' as [_ ?]].
    apply lookup_delete_Some. split; [|done]. intros <-. congruence.
  - intros q Hin. rewrite lookup_delete_ne; [by apply H6|]. by intros ->.
  - split; [intros q [_ Hs]%lookup_delete_is_Some; by apply H7|]. intros c [_ Hs]%lookup_delete_is_Some. by apply H8.
  - symmetry. by apply (stored_delete h p pk).
  - intros q Hin. cbn. rewrite lookup_delete_ne; [done|]. by intros ->.
Qed.

(** ** What is in a list of effects or messages *)

Lemma omap_none {A C} (f : A → option C) l : (∀ x, x ∈ l → f x = None) → omap f l = [].
Proof.
  induction l as [|x l IH]; intros H; [done|]. cbn. rewrite H by left. apply IH. intros y Hy. apply H. by right.
Qed.

Definition cell_of (cmd : command) : option Z := match cmd with PUB _ _ cell => Some cell | _ => None end.
Definition ref_of (x : Z * message) : option Z := match x.2 with Multicast _ _ p => Some p | Subscribed _ => None end.
Notation refs l := (omap ref_of l).

(** The messages that the service [k] has taken, and those that were published while it
    was subscribed: channel, source and data. *)
Definition taken1 (k : Z) (e : effect) : option (Z * Z * list Z) :=
  match e with
  | EGot k' c source bytes | EDrop k' c source bytes => if k' =? k then Some (c, source, bytes) else None
  | _ => None
  end.
Definition published1 (k : Z) (e : effect) : option (Z * Z * list Z) :=
  match e with EPublish c source bytes group => if decide (k ∈ group) then Some (c, source, bytes) else None | _ => None end.
Definition waiting1 (k : Z) (h : heap) (x : Z * message) : option (Z * Z * list Z) :=
  match x with
  | (k', Multicast c source p) => if k' =? k then bytes ← data <$> h_packs h !! p; Some (c, source, bytes) else None
  | (_, Subscribed _) => None
  end.
Definition packed1 (e : effect) : option (list Z) := match e with EPack bytes => Some bytes | _ => None end.
Definition freed1 (e : effect) : option (list Z) :=
  match e with EFree bytes | EGive _ _ _ bytes => Some bytes | _ => None end.

Notation taken k es := (omap (taken1 k) es).
Notation published k es := (omap (published1 k) es).
Notation waiting k h l := (omap (waiting1 k h) l).
Notation packed es := (omap packed1 es).
Notation freed es := (omap freed1 es).

(** Effects that only concern other nodes. *)
Definition outward (e : effect) : Prop :=
  match e with ESend _ _ | ERemote _ _ _ _ | ENew _ | EAnswer _ _ _ => True | _ => False end.

Lemma outward_nothing es : Forall outward es →
  (∀ k, taken k es = [] ∧ published k es = []) ∧ packed es = [] ∧ freed es = [].
Proof.
  intros H. rewrite Forall_forall in H.
  repeat split; intros; apply omap_none; intros [] Hx%H; done.
Qed.

Lemma waiting_same k h h' l : same_data h h' (refs l) → waiting k h' l = waiting k h l.
Proof.
  induction l as [|[k' [c source p|c]] l IH]; intros Hs; [done| |by apply IH]. cbn in *.
  rewrite (Hs p) by left. destruct (k' =? k); [|apply IH; intros q Hq; apply Hs; by right].
  destruct (data <$> h_packs h !! p); cbn; [f_equal|]; apply IH; intros q Hq; apply Hs; by right.
Qed.

Lemma omap_elements {C} (k : Z) (x : C) (g : gset Z) :
  omap (λ k', if k' =? k then Some x else None) (elements g) = if decide (k ∈ g) then [x] else [].
Proof.
  assert (∀ l, NoDup l → omap (λ k', if k' =? k then Some x else None) l = if decide (k ∈ l) then [x] else []) as H.
  { intros l. induction 1 as [|k' l Hn _ IH]; [by rewrite decide_False by apply not_elem_of_nil|]. cbn.
    destruct (Z.eqb_spec k' k) as [->|Hne].
    - rewrite decide_True by left. by rewrite IH, decide_False.
    - rewrite IH. destruct (decide (k ∈ l)); [by rewrite decide_True by (by right)|].
      rewrite decide_False; [done|]. by intros [?|?]%elem_of_cons. }
  rewrite H by apply NoDup_elements. destruct (decide (k ∈ g)) as [Hk|Hk].
  - by rewrite decide_True by (by apply elem_of_elements).
  - rewrite decide_False; [done|]. by rewrite elem_of_elements.
Qed.

(** ** The tables *)

Section node.
Context (harbor_id : Z) (Hharbor : 0 ≤ harbor_id < 256).

(** A service of this node. *)
Definition local (k : Z) : Prop := harbor_id * 2 ^ 24 ≤ k < harbor_id * 2 ^ 24 + 2 ^ 24.

Definition id_ok (c : Z) : Prop := 0 ≤ c < 2 ^ 31 ∧ c mod 256 = harbor_id.

(** At most [n] channels. *)
Record daemon_inv (n : nat) (d : daemon) : Prop := {
  di_n : ∀ c, channel_n d !! c = (λ g : gset Z, Z.of_nat (size g)) <$> channel d !! c;
  di_local : ∀ c g k, channel d !! c = Some g → k ∈ g → local k;
  di_id : id_ok (channel_id d);
  di_size : (size (channel d) ≤ n)%nat;
}.

Lemma size_in_range (g : gset Z) a n : 0 ≤ n → (∀ k, k ∈ g → a ≤ k < a + n) → Z.of_nat (size g) ≤ n.
Proof.
  intros Hn H. assert (g ⊆ list_to_set (seqZ a n)) as Hsub by (intros k Hk%H; apply elem_of_list_to_set, elem_of_seqZ; lia).
  apply subseteq_size in Hsub. rewrite size_list_to_set, length_seqZ in Hsub by apply NoDup_seqZ. lia.
Qed.

Lemma group_size n d c g : daemon_inv n d → channel d !! c = Some g → Z.of_nat (size g) ≤ 2 ^ 24.
Proof. intros H E. eapply size_in_range; [lia|]. intros k Hk. exact (di_local _ _ H c g k E Hk). Qed.

Lemma nextid_add id : 0 ≤ id < 2 ^ 31 → mc_nextid id = (id + 256) mod 2 ^ 31.
Proof.
  intros. unfold mc_nextid. rewrite (wrap_small 32 id), wrap_small by lia. change 0x7fffffff with (2 ^ 31 - 1).
  apply land_mask. lia.
Qed.

Lemma nextid_ok id : id_ok id → id_ok (mc_nextid id).
Proof.
  intros [H1 H2]. rewrite nextid_add by done. split; [lia|].
  change (2 ^ 31) with (256 * 2 ^ 23). rewrite Z.rem_mul_r by lia.
  rewrite Z.mul_comm, Z.mod_add by lia. rewrite Zmod_mod, <- H2.
  replace (id + 256) with (id + 1 * 256) by lia. by rewrite Z.mod_add.
Qed.

Lemma free_id_spec fuel d id : id_ok id →
  (∀ r, free_id fuel d id = Some r → id_ok r ∧ channel d !! r = None) ∧
  (free_id fuel d id = None → ∀ i, 0 ≤ i < Z.of_nat fuel → is_Some (channel d !! ((id + 256 * i) mod 2 ^ 31))).
Proof.
  revert id. induction fuel as [|fuel IH]; intros id Hid; cbn [free_id]; [split; [done|intros; lia]|].
  destruct (channel d !! id) as [g|] eqn:E.
  - destruct (IH (mc_nextid id) (nextid_ok _ Hid)) as [IH1 IH2]. split; [done|]. intros Hf i Hi. destruct Hid as [Hid _].
    destruct (decide (i = 0)) as [->|Hne].
    + rewrite Z.mul_0_r, Z.add_0_r, Z.mod_small by done. by exists g.
    + specialize (IH2 Hf (i - 1) ltac:(lia)). rewrite nextid_add in IH2 by done.
      rewrite Zplus_mod_idemp_l in IH2. by replace (id + 256 + 256 * (i - 1)) with (id + 256 * i) in IH2 by lia.
  - split; [|done]. by intros r [= <-].
Qed.

Lemma NEW_spec n d : daemon_inv n d → Z.of_nat n < 2 ^ 23 →
  ∃ id d', command_NEW d = Some (id, d') ∧ channel d !! id = None ∧ id mod 256 = harbor_id ∧ daemon_inv (S n) d'.
Proof.
  intros [H1 H2 H3 H4] Hn. unfold command_NEW.
  destruct (free_id_spec (S (size (channel d))) d (channel_id d) H3) as [Hs Hnone].
  destruct (free_id _ _ _) as [id|] eqn:E.
  - destruct (Hs id eq_refl) as [Hid Hfree]. cbn [mbind option_bind]. eexists id, _. split; [done|]. split; [done|].
    split; [apply Hid|]. split; cbn.
    + intros c. destruct (decide (c = id)) as [->|Hne]; [by rewrite !lookup_insert_eq|by rewrite !lookup_insert_ne].
    + intros c g k. rewrite lookup_insert_Some. intros [(<- & <-)|(_ & Ec)]; [by intros ?%not_elem_of_empty|by eapply H2].
    + by apply nextid_ok.
    + rewrite map_size_insert_None by done. lia.
  - exfalso. specialize (Hnone eq_refl). set (m := S (size (channel d))) in *.
    set (ids := map (λ i, (channel_id d + 256 * i) mod 2 ^ 31) (seqZ 0 (Z.of_nat m))).
    assert (NoDup ids) as Hd.
    { unfold ids. apply NoDup_fmap_2_strong; [|apply NoDup_seqZ].
      intros i j Hi%elem_of_seqZ Hj%elem_of_seqZ E2. unfold m in *.
      assert ((channel_id d + 256 * i - (channel_id d + 256 * j)) mod 2 ^ 31 = 0) as E3
        by (rewrite Zminus_mod, E2, Z.sub_diag; done).
      apply Z.mod_divide in E3 as [q E3]; [|lia]. lia. }
    assert (list_to_set ids ⊆@{gset Z} dom (channel d)) as Hsub.
    { intros x [i [-> Hi%elem_of_seqZ]]%elem_of_list_to_set%list_elem_of_fmap. apply elem_of_dom, Hnone. lia. }
    apply subseteq_size in Hsub. rewrite size_list_to_set, size_dom in Hsub by done.
    unfold ids in Hsub. rewrite length_map, length_seqZ in Hsub. lia.
Qed.

Lemma daemon_inv_weaken n n' d : (n ≤ n')%nat → daemon_inv n d → daemon_inv n' d.
Proof. intros ? []. split; try done. lia. Qed.

(** Channels are deleted. *)
Lemma daemon_delete n d c remote :
  daemon_inv n d → daemon_inv n (Daemon (delete c (channel d)) (delete c (channel_n d)) remote (channel_id d)).
Proof.
  intros [H1 H2 H3 H4]. split; cbn; [| |done|].
  - intros c'. destruct (decide (c' = c)) as [->|Hne]; [by rewrite !lookup_delete_eq|by rewrite !lookup_delete_ne].
  - intros c' g k [_ E]%lookup_delete_Some. by eapply H2.
  - rewrite map_size_delete. destruct (channel d !! c); unfold id; lia.
Qed.

(** The group of a channel is replaced. *)
Lemma daemon_set_group n d c g0 g remote :
  daemon_inv n d → channel d !! c = Some g0 → (∀ k, k ∈ g → local k) →
  daemon_inv n (Daemon (<[c := g]> (channel d)) (<[c := Z.of_nat (size g)]> (channel_n d)) remote (channel_id d)).
Proof.
  intros [H1 H2 H3 H4] E Hg. split; cbn; [| |done|].
  - intros c'. destruct (decide (c' = c)) as [->|Hne]; [by rewrite !lookup_insert_eq|by rewrite !lookup_insert_ne].
  - intros c' g' k. rewrite lookup_insert_Some. intros [(<- & <-)|(_ & E')]; [apply Hg|by eapply H2].
  - by rewrite map_size_insert_Some.
Qed.

Lemma daemon_remote n d remote : daemon_inv n d → daemon_inv n (Daemon (channel d) (channel_n d) remote (channel_id d)).
Proof. by intros []. Qed.

Lemma subscribe_inv n d source c : daemon_inv n d → local source → daemon_inv n (subscribe source c d).
Proof.
  intros H Hl. unfold subscribe. destruct (channel d !! c) as [g|] eqn:E; [|done]. destruct (decide (source ∈ g)); [done|].
  assert (alter (λ n, n + 1) c (channel_n d) = <[c := Z.of_nat (size ({[source]} ∪ g))]> (channel_n d)) as ->.
  { apply map_eq. intros c'. destruct (decide (c' = c)) as [->|Hne].
    - rewrite lookup_alter_eq, lookup_insert_eq, (di_n _ _ H), E. cbn. f_equal.
      rewrite size_union, size_singleton by set_solver. lia.
    - by rewrite lookup_alter_ne, lookup_insert_ne. }
  apply (daemon_set_group n d c g); [done|done|]. intros k [->%elem_of_singleton|Hk]%elem_of_union; [done|by eapply di_local].
Qed.

Lemma answer_inv n d missing source c : daemon_inv n d → local source → daemon_inv (S n) (answer missing source c d).
Proof.
  intros H Hl. unfold answer. destruct missing; [by eapply daemon_inv_weaken; [|done]; lia|]. apply subscribe_inv; [|done].
  destruct (channel d !! c) eqn:E; [by eapply daemon_inv_weaken; [|done]; lia|]. destruct H as [H1 H2 H3 H4]. split; cbn.
  - intros c'. destruct (decide (c' = c)) as [->|Hne]; [by rewrite !lookup_insert_eq|by rewrite !lookup_insert_ne].
  - intros c' g k. rewrite lookup_insert_Some. intros [(<- & <-)|(_ & E')]; [by intros ?%not_elem_of_empty|by eapply H2].
  - done.
  - rewrite map_size_insert_None by done. lia.
Qed.

Lemma USUB_inv n d source c : daemon_inv n d →
  daemon_inv n (command_USUB harbor_id source c d).1 ∧ Forall outward (command_USUB harbor_id source c d).2.
Proof.
  intros H. unfold command_USUB. destruct (channel d !! c) as [g|] eqn:E; [|done].
  rewrite (di_n _ _ H), E. cbn [fmap option_fmap option_map]. destruct (decide (source ∈ g)) as [Hin|]; [|done].
  assert (Z.of_nat (size g) - 1 = Z.of_nat (size (g ∖ {[source]}))) as ->.
  { rewrite size_difference, size_singleton by set_solver.
    assert (0 < size g)%nat; [|lia]. apply Nat.neq_0_lt_0. intros Hs%size_empty_inv. set_solver. }
  destruct (_ && _); cbn [fst snd].
  - split; [by apply daemon_delete|repeat constructor].
  - split; [|constructor]. apply (daemon_set_group n d c g); [done|done|]. intros k Hk. eapply di_local; [done..|set_solver].
Qed.

(** ** Publishing *)

Lemma refs_multicast c source p (l : list Z) : refs (map (λ k, (k, Multicast c source p)) l) = replicate (length l) p.
Proof. induction l as [|k l IH]; [done|]. cbn. by rewrite IH. Qed.

Lemma waiting_multicast k h c source p bytes (g : gset Z) :
  data <$> h_packs h !! p = Some bytes →
  waiting k h (map (λ k, (k, Multicast c source p)) (elements g)) = if decide (k ∈ g) then [(c, source, bytes)] else [].
Proof.
  intros E. rewrite <- (omap_elements k (c, source, bytes) g). induction (elements g) as [|k' l IH]; [done|]. cbn.
  rewrite E. cbn. destruct (k' =? k); cbn; by rewrite IH.
Qed.

(** The effects of a publication to the group [g]. *)
Lemma publish_effects es c source bytes (g : gset Z) fr :
  Forall outward es →
  let out := es ++ [EPublish c source bytes g] ++ map EFree fr in
  (∀ k, taken k out = [] ∧ published k out = if decide (k ∈ g) then [(c, source, bytes)] else []) ∧
  packed out = [] ∧ freed out = fr.
Proof.
  intros (H1 & H2 & H3)%outward_nothing out. unfold out.
  assert (∀ k, taken k (map EFree fr) = [] ∧ published k (map EFree fr) = []) as Hf.
  { intros k. split; apply omap_none; by intros x [y [-> _]]%list_elem_of_fmap. }
  split; [intros k; split|split].
  - rewrite !omap_app. destruct (H1 k) as [-> _], (Hf k) as [-> _]. done.
  - rewrite !omap_app. destruct (H1 k) as [_ ->], (Hf k) as [_ ->]. cbn. by destruct (decide _).
  - rewrite !omap_app, H2. cbn. apply omap_none. by intros x [y [-> _]]%list_elem_of_fmap.
  - rewrite !omap_app, H3. cbn. induction fr as [|x fr IH]; [done|]. cbn. by rewrite IH.
Qed.

Definition publish_ok (cs P : list Z) (h : heap) (r : option (heap * list (Z * message) * list effect)) : Prop :=
  ∃ h' msgs es, r = Some (h', msgs, es) ∧ heap_inv h' cs (refs msgs ++ P) ∧
    (∀ k, taken k es = [] ∧ waiting k h' msgs = published k es) ∧ packed es = [] ∧
    freed es ++ stored h' ≡ₚ stored h ∧ same_data h h' P.

Lemma same_data_trans h1 h2 h3 P P' : (∀ p, p ∈ P → p ∈ P') → same_data h1 h2 P → same_data h2 h3 P' → same_data h1 h3 P.
Proof. intros H H1 H2 p Hp. rewrite H2 by auto. by apply H1. Qed.

Lemma publish_spec n c source cell d h cs P :
  daemon_inv n d → heap_inv h (cell :: cs) P → publish_ok cs P h (publish c source cell d h).
Proof.
  intros Hd Hh. destruct (unpack_spec cell h _ P Hh) as (p & pk & _ & _ & _ & _ & Eu); [left|].
  unfold publish. rewrite Eu. cbn [mbind option_bind].
  set (remote := match channel_remote d !! c with Some _ => _ | None => _ end).
  assert (Forall outward remote) as Hr.
  { unfold remote. destruct (channel_remote d !! c); [|constructor]. apply Forall_forall. by intros x [y [-> _]]%list_elem_of_fmap. }
  set (g := default ∅ (channel d !! c)). case_bool_decide as Hg.
  - destruct (bind_spec cell 1 h cs P Hh) as (q & h1 & -> & Hh1 & Hst1 & Hsd1 & _); [lia|]. cbn [mbind option_bind].
    destruct (closelocal_spec q h1 cs P) as (h2 & fr & -> & Hh2 & Hst2 & Hsd2); [exact Hh1|]. cbn [mbind option_bind].
    destruct (publish_effects remote c source (data pk) g fr Hr) as (H1 & H2 & H3). rewrite <- !app_assoc.
    eexists h2, [], _. split; [done|]. split; [done|]. split; [|split; [done|split]].
    + intros k. destruct (H1 k) as [-> ->]. rewrite Hg, decide_False by set_solver. done.
    + by rewrite H3, Hst2.
    + by eapply same_data_trans.
  - assert (channel d !! c = Some g) as Ec by (unfold g in *; by destruct (channel d !! c)).
    rewrite (di_n _ _ Hd), Ec. cbn [fmap option_fmap option_map mbind option_bind].
    pose proof (group_size _ _ _ _ Hd Ec) as Hsz.
    assert (0 < size g)%nat by (apply Nat.neq_0_lt_0; intros Hs%size_empty_inv; by apply Hg, leibniz_equiv).
    destruct (bind_spec cell (Z.of_nat (size g)) h cs P Hh) as (q & h1 & -> & Hh1 & Hst1 & Hsd1 & Hdata & _); [lia|].
    cbn [mbind option_bind]. rewrite Eu in Hdata. cbn in Hdata.
    destruct (publish_effects remote c source (data pk) g [] Hr) as (H1 & H2 & H3). rewrite app_nil_r in *.
    eexists h1, _, _. split; [done|]. split; [by rewrite refs_multicast, <- (Nat2Z.id (length _))|].
    split; [|split; [done|split; [by rewrite H3|done]]].
    intros k. destruct (H1 k) as [-> ->]. split; [done|]. by apply waiting_multicast.
Qed.

Lemma PUB_spec n c source cell d h cs P :
  daemon_inv n d → heap_inv h (cell :: cs) P → publish_ok cs P h (command_PUB harbor_id source c cell d h).
Proof.
  intros Hd Hh. unfold command_PUB. destruct (negb _); [|by apply publish_spec with n].
  destruct (remote_spec cell h cs P Hh) as (bytes & h' & -> & Hh' & Hst & Hsd). cbn [mbind option_bind].
  eexists h', [], _. split; [done|]. split; [done|]. split; [by intros|]. split; [done|]. split; [done|done].
Qed.

(** ** The invariant of a node *)

(** The commands of other nodes, and of services of this node. *)
Definition command_ok (cmd : command) : Prop :=
  match cmd with SUB source _ => local source | _ => True end.
Definition event_ok (e : event) : Prop :=
  match e with
  | VSubscribe k _ => local k
  | VRemote cmd => match cmd with DEL _ | DELR _ | PUBLISH _ _ _ | SUBR _ _ | USUBR _ _ => True | _ => False end
  | _ => True
  end.

Definition references (w : world) : list Z := refs (w_queue w) ++ refs (w_sending w) ++ map snd (w_active w).

Record world_inv (n : nat) (w : world) : Prop := {
  wv_heap : heap_inv (w_heap w) (omap cell_of (w_inbox w)) (references w);
  wv_daemon : daemon_inv n (w_daemon w);
  wv_inbox : Forall command_ok (w_inbox w);
  wv_waiting : Forall (λ x, local x.1) (w_waiting w);
}.

Definition undelivered (k : Z) (w : world) : list (Z * Z * list Z) := waiting k (w_heap w) (w_queue w ++ w_sending w).

Definition step_ok (n : nat) (w : world) (r : option (world * list effect)) : Prop :=
  ∃ w' out, r = Some (w', out) ∧ world_inv n w' ∧
    (∀ k, taken k out ++ undelivered k w' = undelivered k w ++ published k out) ∧
    freed out ++ stored (w_heap w') ≡ₚ stored (w_heap w) ++ packed out.

Lemma world_inv_weaken n n' w : (n ≤ n')%nat → world_inv n w → world_inv n' w.
Proof. intros H []. split; try done. by eapply daemon_inv_weaken. Qed.

(** A step that leaves the heap and the messages alone. *)
Lemma quiet_step n w w' out :
  world_inv n w' → w_heap w' = w_heap w → (∀ k, undelivered k w' = undelivered k w) → Forall outward out →
  step_ok n w (Some (w', out)).
Proof.
  intros Hinv Hh Hu (H1 & H2 & H3)%outward_nothing. exists w', out. split; [done|]. split; [done|]. split.
  - intros k. destruct (H1 k) as [-> ->]. by rewrite Hu, app_nil_r.
  - by rewrite H2, H3, Hh, app_nil_r.
Qed.

Lemma undelivered_send k k' c w : undelivered k (send k' (Subscribed c) w) = undelivered k w.
Proof. unfold undelivered, send. cbn. rewrite !omap_app. cbn. by rewrite app_nil_r. Qed.

Lemma send_inv n k c w : world_inv n w → world_inv n (send k (Subscribed c) w).
Proof.
  intros [H1 H2 H3 H4]. split; try done.
  unfold send, references in *. cbn. rewrite omap_app. cbn. by rewrite app_nil_r.
Qed.

Lemma set_daemon_inv n n' d w : world_inv n w → daemon_inv n' d → world_inv n' (set_daemon d w).
Proof. by intros [] ?. Qed.

Lemma put_command_inv n cmd w : world_inv n w → command_ok cmd → cell_of cmd = None → world_inv n (put_command cmd w).
Proof.
  intros [] Hc Hn. split; try done; cbn.
  - rewrite omap_app. cbn. by rewrite Hn, app_nil_r.
  - apply Forall_app. by repeat constructor.
Qed.

(** A publication, of a package that was in the cell of a command or was just made. *)
Lemma step_publish n w0 w h cs cmds r pre :
  world_inv n w0 → w_sending w0 = [] → set_inbox cmds w0 = w →
  omap cell_of cmds = cs → Forall command_ok cmds →
  publish_ok cs (references w0) h r → same_data (w_heap w0) h (references w0) →
  (∀ k, taken k pre = [] ∧ published k pre = []) → freed pre = [] → stored h ≡ₚ stored (w_heap w0) ++ packed pre →
  step_ok n w0 ('(h, msgs, es) ← r; Some (set_sending msgs (set_heap h w), pre ++ es)).
Proof.
  intros [H1 H2 H3 H4] Hs <- Hcs Hcmds (h' & msgs & es & -> & Hh & Hk & Hp & Hst & Hsd) Hsd0 Hpre Hfp Hst0.
  cbn [mbind option_bind]. eexists _, _. split; [done|].
  assert (references w0 = refs (w_queue w0) ++ map snd (w_active w0)) as Er by (unfold references; by rewrite Hs).
  split; [|split].
  - split; try done; cbn.
    rewrite Hcs. eapply heap_inv_perm; [done| |exact Hh]. unfold references. rewrite Hs. cbn. by rewrite Permutation_app_swap_app.
  - intros k. unfold undelivered. cbn. rewrite !omap_app, Hs. cbn. rewrite app_nil_r.
    destruct (Hpre k) as [-> ->], (Hk k) as [-> Hw]. cbn. rewrite Hw. f_equal.
    apply waiting_same. intros p Hp'. rewrite Hsd, Hsd0; [done|..]; rewrite Er; apply elem_of_app; by left.
  - cbn. rewrite !omap_app, Hfp, Hp, app_nil_r. cbn. by rewrite Hst, Hst0.
Qed.

Lemma omap_perm {A C} (f : A → option C) l l' : l ≡ₚ l' → omap f l ≡ₚ omap f l'.
Proof.
  induction 1 as [|x l l' _ IH|x y l|l1 l2 l3 _ IH1 _ IH2]; cbn; [done|by destruct (f x); cbn; rewrite IH| |by rewrite IH1].
  destruct (f x), (f y); [apply perm_swap|done..].
Qed.

(** The service takes a command. *)
Lemma step_command n j cmd w :
  world_inv n w → Z.of_nat n < 2 ^ 23 → w_sending w = [] → w_inbox w !! j = Some cmd →
  step_ok (S n) w (run_command harbor_id cmd (set_inbox (delete j (w_inbox w)) w)).
Proof.
  intros Hinv Hn Hs E. pose proof Hinv as [H1 H2 H3 H4]. set (cmds := delete j (w_inbox w)).
  assert (w_inbox w ≡ₚ cmd :: cmds) as Hp by (by apply delete_Permutation).
  assert (command_ok cmd ∧ Forall command_ok cmds) as [Hc Hcs] by (rewrite Hp in H3; by apply Forall_cons in H3).
  assert (omap cell_of (w_inbox w) ≡ₚ omap cell_of (cmd :: cmds)) as Hcells by (by apply omap_perm).
  assert (cell_of cmd = None → world_inv n (set_inbox cmds w)) as Hw1.
  { intros Hnone. split; try done. cbn. eapply heap_inv_perm; [|done|exact H1]. rewrite Hcells. cbn. by rewrite Hnone. }
  pose proof (daemon_inv_weaken n (S n) _ ltac:(lia) H2) as H2'.
  pose proof (world_inv_weaken n (S n) _ ltac:(lia) Hinv) as Hinv'.
  assert (∀ d es, cell_of cmd = None → daemon_inv (S n) d → Forall outward es →
    step_ok (S n) w (Some (set_daemon d (set_inbox cmds w), es))) as Hquiet.
  { intros d es Hnone Hd Hes. apply quiet_step; [|done|done|done]. eapply set_daemon_inv; [by apply Hw1|done]. }
  destruct cmd as [|c|c|source c cell|source c bytes|source c|source c|node c|node c]; cbn [run_command set_inbox w_daemon].
  - destruct (NEW_spec n _ H2 Hn) as (id & d & -> & _ & _ & Hd). cbn [mbind option_bind].
    apply Hquiet; [done|done|repeat constructor].
  - unfold command_DEL. destruct (negb _); [apply Hquiet; [done|done|repeat constructor]|].
    apply Hquiet; [done|by apply daemon_delete|]. destruct (channel_remote _ !! c); [|constructor].
    apply Forall_forall. by intros x [y [-> _]]%list_elem_of_fmap.
  - apply Hquiet; [done|by apply daemon_delete|constructor].
  - eapply (step_publish (S n) w _ (w_heap w) _ cmds _ []); try done.
    + eapply PUB_spec; [exact H2|]. by eapply heap_inv_perm; [exact Hcells|done|].
    + cbn. by rewrite app_nil_r.
  - unfold mc_packremote. cbn [w_heap set_inbox]. destruct (mc_packlocal bytes (w_heap w)) as [[cell h]|] eqn:Ep.
    2:{ apply quiet_step; [|done..|constructor]. eapply world_inv_weaken; [|by apply Hw1]. lia. }
    destruct (packlocal_spec bytes (w_heap w) _ (references w) cell h H1 Ep) as (Hh & Hst & Hsd).
    eapply (step_publish (S n) w _ h _ cmds _ [EPack bytes]); try done.
    + eapply publish_spec; [exact H2|]. eapply heap_inv_perm; [|done|exact Hh]. by rewrite Hcells.
    + cbn. rewrite Hst. apply (Permutation_app_comm [bytes]).
  - destruct (command_SUB _ source c (w_daemon w)) as [call d] eqn:Es. unfold command_SUB in Es.
    destruct (negb _ && _); injection Es as <- <-.
    + apply quiet_step; [|done..|repeat constructor]. eapply world_inv_weaken; [|split]; [|apply (Hw1 eq_refl)..|]; [lia|].
      cbn. apply Forall_app. split; [done|]. by apply Forall_singleton.
    + apply quiet_step; [|done|intros; by rewrite undelivered_send|constructor]. apply send_inv.
      eapply set_daemon_inv; [by apply Hw1|]. by apply subscribe_inv.
  - pose proof (USUB_inv (S n) _ source c H2') as [Hd He]. destruct (command_USUB _ _ _ _) as [d es]. by apply Hquiet.
  - unfold command_SUBR. destruct (channel _ !! c); [|apply Hquiet; [done|done|repeat constructor]].
    destruct (_ && _); [apply Hquiet; [done|by apply daemon_remote|repeat constructor]|by apply Hquiet].
  - unfold command_USUBR. destruct (channel_remote _ !! c); [|by apply Hquiet].
    destruct (node =? harbor_id); apply Hquiet; try done. by apply daemon_remote.
Qed.

(** ** All events *)

Lemma take_first_spec k l msg rest : take_first k l = Some (msg, rest) →
  ∃ l1 l2, l = l1 ++ (k, msg) :: l2 ∧ rest = l1 ++ l2 ∧ ∀ h, waiting k h l1 = [].
Proof.
  revert msg rest. induction l as [|[k' m] l IH]; intros msg rest; cbn [take_first]; [done|].
  destruct (Z.eqb_spec k' k) as [->|Hne].
  - intros [= <- <-]. by exists [], l.
  - destruct (take_first k l) as [[m' r]|]; [|done]. intros [= <- <-].
    destruct (IH m' r eq_refl) as (l1 & l2 & -> & -> & Hw). exists ((k', m) :: l1), l2. split; [done|]. split; [done|].
    intros h. cbn. rewrite Hw. destruct m; [|done]. by rewrite (proj2 (Z.eqb_neq k' k)).
Qed.

Lemma step_receive n k w : world_inv n w → step_ok n w (run_event harbor_id (VReceive k) w).
Proof.
  intros Hinv. cbn [run_event]. destruct (take_first k (w_queue w)) as [[msg rest]|] eqn:E; [|by apply quiet_step].
  apply take_first_spec in E as (l1 & l2 & Eq & -> & Hw). destruct Hinv as [H1 H2 H3 H4].
  unfold receive. destruct msg as [c source p|c].
  - assert (references w ≡ₚ p :: refs (l1 ++ l2) ++ refs (w_sending w) ++ map snd (w_active w)) as Hr.
    { unfold references. rewrite Eq, !omap_app. cbn. rewrite <- app_assoc. cbn.
      by rewrite <- Permutation_middle, <- app_assoc. }
    destruct (hv_live _ _ _ H1 p) as [pk Epk]; [rewrite Hr; by left|]. cbn [w_heap set_queue]. rewrite Epk.
    cbn [mbind option_bind w_dispatch w_active set_queue]. eexists _, _. split; [done|]. split; [|split].
    + split; try done. cbn. eapply heap_inv_perm; [done| |exact H1]. rewrite Hr. unfold references. cbn.
      rewrite map_app. cbn. rewrite (Permutation_app_comm (map snd (w_active w)) [p]). cbn.
      by rewrite <- !Permutation_middle.
    + intros k'. unfold undelivered. cbn. rewrite Eq, !omap_app. cbn. rewrite Epk.
      assert (∀ b : bool, published k' [if b then EGot k c source (data pk) else EDrop k c source (data pk)] = []) as Hp by (by intros []).
      destruct (decide ((k, c) ∈ w_dispatch w)) as [Hd|Hd]; cbn; destruct (Z.eqb_spec k k') as [<-|Hne]; cbn;
        rewrite ?Hw, <- ?app_assoc, ?app_nil_r; done.
    + destruct (decide _); cbn; by rewrite app_nil_r.
  - apply quiet_step; [|done| |constructor].
    + split; try done. cbn. eapply heap_inv_perm; [done| |exact H1]. unfold references. cbn. by rewrite Eq, !omap_app.
    + intros k'. unfold undelivered. cbn. by rewrite Eq, !omap_app.
Qed.

Lemma closing_step n j w : world_inv n w → step_ok n w (run_event harbor_id (VClose j) w).
Proof.
  intros Hinv. cbn [run_event]. destruct (w_active w !! j) as [[k p]|] eqn:E; [|by apply quiet_step].
  destruct Hinv as [H1 H2 H3 H4]. apply delete_Permutation in E. set (active := delete j (w_active w)) in *.
  assert (references w ≡ₚ p :: refs (w_queue w) ++ refs (w_sending w) ++ map snd active) as Hr.
  { unfold references. rewrite E. cbn. by rewrite <- !Permutation_middle. }
  destruct (closelocal_spec p (w_heap w) _ _ (heap_inv_perm _ _ _ _ _ (reflexivity _) Hr H1)) as (h' & fr & Ec & Hh & Hst & Hsd).
  rewrite Ec. cbn [mbind option_bind]. eexists _, _. split; [done|]. split; [by split|].
  destruct (publish_effects [] 0 0 [] ∅ fr) as (Hk & Hp & Hf); [constructor|].
  assert (∀ k', taken k' (map EFree fr) = [] ∧ published k' (map EFree fr) = []) as Hnone.
  { intros k'. split; apply omap_none; by intros x [y [-> _]]%list_elem_of_fmap. }
  split.
  - intros k'. destruct (Hnone k') as [-> ->]. rewrite app_nil_r. apply waiting_same. intros q Hq. apply Hsd.
    rewrite omap_app in Hq. cbn. rewrite app_assoc. apply elem_of_app. by left.
  - cbn in Hp, Hf. rewrite Hp, Hf, app_nil_r. done.
Qed.

Lemma step_event n e w :
  world_inv n w → event_ok e → Z.of_nat n < 2 ^ 23 → step_ok (S n) w (run_event harbor_id e w).
Proof.
  intros Hinv He Hn. pose proof (world_inv_weaken n (S n) _ ltac:(lia) Hinv) as Hinv'.
  destruct e as [|c|k c bytes|k c|k c|cmd|j|j missing|k|j]; [| | | | | | | |by apply step_receive|by apply closing_step]; cbn [run_event].
  - apply quiet_step; [by apply put_command_inv|done..].
  - apply quiet_step; [by apply put_command_inv|done..].
  - destruct (mc_packlocal bytes (w_heap w)) as [[cell h]|] eqn:Ep; [|by apply quiet_step].
    destruct Hinv' as [H1 H2 H3 H4]. destruct (packlocal_spec _ _ _ _ _ _ H1 Ep) as (Hh & Hst & Hsd).
    eexists _, _. split; [done|]. split; [|split].
    + split; try done; cbn.
      * eapply heap_inv_perm; [|done|exact Hh]. rewrite omap_app. cbn. apply Permutation_cons_append.
      * apply Forall_app. split; [done|]. by apply Forall_singleton.
    + intros k'. cbn. rewrite app_nil_r. apply waiting_same. intros q Hq. apply Hsd. unfold references.
      rewrite app_assoc, <- omap_app. apply elem_of_app. by left.
    + cbn. rewrite Hst. apply (Permutation_app_comm [bytes]).
  - destruct (decide _); (apply quiet_step; [|done..]); [done|by apply put_command_inv].
  - destruct (decide _); (apply quiet_step; [|done..]); [|done]. apply put_command_inv; [by destruct Hinv'|done..].
  - apply quiet_step; [|done..]. apply put_command_inv; [done|by destruct cmd|by destruct cmd].
  - destruct (w_sending w) as [|[k msg] rest] eqn:Es.
    + destruct (w_inbox w !! j) as [cmd|] eqn:Ei; [by apply step_command|by apply quiet_step].
    + destruct Hinv' as [H1 H2 H3 H4]. apply quiet_step; [|done| |constructor].
      * split; try done. unfold references in *. cbn in *. rewrite Es in H1. cbn in H1. rewrite omap_app. cbn.
        by destruct (ref_of (k, msg)); rewrite ?app_nil_r, <- ?app_assoc in *.
      * intros k'. unfold undelivered. cbn. by rewrite Es, <- app_assoc.
  - destruct (w_waiting w !! j) as [[source c]|] eqn:Ew; [|by apply quiet_step].
    destruct Hinv as [H1 H2 H3 H4]. apply delete_Permutation in Ew. rewrite Ew in H4. apply Forall_cons in H4 as [Hl H4].
    apply quiet_step; [|done|intros; by rewrite undelivered_send|constructor]. apply send_inv.
    split; try done. by apply answer_inv.
Qed.

Lemma run_events_ok es n w :
  world_inv n w → Forall event_ok es → Z.of_nat n + Z.of_nat (length es) < 2 ^ 23 →
  ∃ w' out m, run_events harbor_id es w = Some (w', out) ∧ world_inv m w' ∧
    (∀ k, taken k out ++ undelivered k w' = undelivered k w ++ published k out) ∧
    freed out ++ stored (w_heap w') ≡ₚ stored (w_heap w) ++ packed out.
Proof.
  revert n w. induction es as [|e es IH]; intros n w Hinv Hes Hn; cbn [run_events].
  - exists w, [], n. split; [done|]. split; [done|]. split; [intros k|]; cbn; by rewrite app_nil_r.
  - apply Forall_cons in Hes as [He Hes]. cbn [length] in Hn.
    destruct (step_event n e w Hinv He ltac:(lia)) as (w1 & out1 & -> & Hinv1 & Hk1 & Hst1). cbn [mbind option_bind].
    destruct (IH (S n) w1 Hinv1 Hes ltac:(lia)) as (w2 & out2 & m & -> & Hinv2 & Hk2 & Hst2). cbn [mbind option_bind].
    exists w2, (out1 ++ out2), m. split; [done|]. split; [done|]. split.
    + intros k. by rewrite !omap_app, <- app_assoc, Hk2, app_assoc, Hk1, <- app_assoc.
    + by rewrite !omap_app, <- app_assoc, Hst2, app_assoc, Hst1, <- app_assoc.
Qed.

Lemma world_init_inv : world_inv 0 (world_init harbor_id).
Proof.
  split; [apply heap_inv_init| |constructor|constructor]. split; cbn; [done| | |done].
  - intros c g k. by rewrite lookup_empty.
  - split; [lia|]. by rewrite Z.mod_small.
Qed.

(** Nothing is on its way and no handler runs. *)
Definition idle (w : world) : Prop :=
  omap cell_of (w_inbox w) = [] ∧ refs (w_queue w) = [] ∧ w_sending w = [] ∧ w_active w = [].

Lemma idle_empty n w : world_inv n w → idle w → stored (w_heap w) = [].
Proof.
  intros [H1 _ _ _] (Hi & Hq & Hs & Ha). unfold references in H1. rewrite Hi, Hq, Hs, Ha in H1. destruct H1 as [_ H2 _ _ H5 _ _].
  assert (h_packs (w_heap w) = ∅) as E; [|unfold stored; by rewrite E, map_to_list_empty].
  apply map_empty. intros p. destruct (h_packs (w_heap w) !! p) as [pk|] eqn:E; [|done]. exfalso.
  destruct (H5 p pk E) as [_ Hb]. destruct Hb as [Hb _]. destruct (Hb eq_refl) as [cell Hcell].
  assert (cell ∈ ([] : list Z)) as []%not_elem_of_nil. apply H2. by exists p.
Qed.
End node.

(** C34: whatever the services of a node do, in any interleaving of
    their handlers with those of the multicast service and with messages from other nodes,
    no step uses a freed package or binds one twice; each service takes, in order, exactly
    what was published to its channels while the multicast service had it as a subscriber
    (what it has not taken yet waits for it); and the data of every package is freed or
    given to another node once, after its last subscriber is done, so that nothing is left
    when no message is on its way. It is assumed that a service does not exit while it is
    subscribed or has messages, and that the unpack function of a channel raises no error
    (it is called before the pcall of [dispatch_subscribe]): either would leave the
    reference, and the package, for ever. There are fewer than 2^23 events, and from other
    nodes come only the commands DEL, DELR, PUBLISH, SUBR and USUBR. *)
Theorem multicast_delivers (harbor_id : Z) (es : list event) :
  0 ≤ harbor_id < 256 → Forall (event_ok harbor_id) es → Z.of_nat (length es) < 2 ^ 23 →
  ∃ w out, run_events harbor_id es (world_init harbor_id) = Some (w, out) ∧
    (∀ k, taken k out ++ undelivered k w = published k out) ∧
    freed out ++ stored (w_heap w) ≡ₚ packed out ∧
    (idle w → stored (w_heap w) = []).
Proof.
  intros Hh Hes Hn.
  destruct (run_events_ok harbor_id Hh es 0 _ (world_init_inv harbor_id Hh) Hes Hn) as (w & out & m & E & Hinv & Hk & Hst).
  exists w, out. split; [done|]. split; [done|]. split; [done|]. by apply (idle_empty harbor_id m).
Qed.

(** A channel with one subscriber, which is subscribed for the first of two messages. *)
Definition multicast_run : list event :=
  [VNew; VDaemon 0; VSubscribe 16777221 1; VDaemon 0; VReceive 16777221; VPublish 16777222 1 [7; 8]; VDaemon 0; VDaemon 0;
   VUnsubscribe 16777221 1; VReceive 16777221; VDaemon 0; VClose 0; VPublish 16777222 1 [9]; VDaemon 0].

Example multicast_run_effects :
  option_map snd (run_events 1 multicast_run (world_init 1)) =
  Some [ENew 1; EPack [7; 8]; EPublish 1 16777222 [7; 8] {[16777221]}; EDrop 16777221 1 16777222 [7; 8];
        EFree [7; 8]; EPack [9]; EPublish 1 16777222 [9] ∅; EFree [9]].
Proof. vm_compute. reflexivity. Qed.

Lemma multicast_delivers_witness :
  Forall (event_ok 1) multicast_run ∧
  ∃ w out, run_events 1 multicast_run (world_init 1) = Some (w, out) ∧
    (∀ k, taken k out ++ undelivered k w = published k out) ∧
    freed out ++ stored (w_heap w) ≡ₚ packed out ∧
    (idle w → stored (w_heap w) = []).
Proof.
  assert (Forall (event_ok 1) multicast_run) as H.
  { unfold multicast_run. rewrite !Forall_cons. unfold event_ok, local. repeat split; try lia. constructor. }
  split; [exact H|]. apply (multicast_delivers 1 multicast_run); [lia|exact H|cbn; lia].
Defined.
