(* ===== verification/Commands.v ===== *)
(** * What services call: skynet_send, skynet_sendname and skynet_command
    (src/framework/skynet/skynet-src/skynet_server.c)

    A call is made by a context and is one step here; it uses the registry of handles and
    names ([Handle]), and its effects are the messages it sends, the memory that it frees,
    the timeouts it asks for and the references that it drops.  [None] is a failed
    assertion, undefined behaviour, or LAUNCH, which is in [Server].  Strings and copies
    have no terminating zero here, and what is written to logs is left out. *)
From Stdlib Require Import String.
From S2P Require Import Prelude Bytes Effect CString Harbor Handle.
Local Open Scope Z_scope.

Definition PTYPE_CLIENT : Z := 3.
Definition PTYPE_SYSTEM : Z := 4.
Definition PTYPE_HARBOR : Z := 5.
Definition PTYPE_TAG_DONTCOPY : Z := 0x10000.
Definition PTYPE_TAG_ALLOCSESSION : Z := 0x20000.
Definition MESSAGE_TYPE_MASK : Z := 2 ^ 56 - 1.
Definition MESSAGE_TYPE_SHIFT : Z := 56.

(** The fields of [struct skynet_context] that a call reads or writes, with the length
    of the queue. *)
Record context := Context {
  cx_handle : Z; cx_session_id : Z; cx_message_count : Z; cx_endless : bool; cx_mqlen : Z;
  cx_logfile : bool; cx_profile : bool;
  (** The processor times of the profiler, as [%lf] prints them. *)
  cx_cpu : cstring; cx_time : cstring;
}.

(** [HARBOR] and [REMOTE] of skynet_harbor.c, [G_NODE.monitor_exit], the variables of
    skynet_env.c, [starttime] of the timer, and the files that [fopen] can append to. *)
Record node := Node {
  nd_handles : handle_storage; nd_contexts : gmap positive context; nd_HARBOR : Z; nd_REMOTE : bool;
  nd_monitor_exit : Z; nd_env : gmap cstring cstring; nd_starttime : Z; nd_fopen : cstring → bool;
}.

(** A block of memory: the caller's own, or a copy that was made for a message. *)
Inductive block := Own (bytes : list Z) | Copy (bytes : list Z).

Inductive destination := ToName (name : list Z) | ToHandle (handle : Z).

Inductive effect :=
  | EAlloc (b : block)
  | EFree (b : block)
  (** A message in the queue of a context. *)
  | EPush (ctx : positive) (source session : Z) (data : option block) (sz : Z)
  (** A [remote_message] for the harbor service. *)
  | EHarbor (dest : destination) (data : option block) (sz type source session : Z)
  | ETimeout (handle ti session : Z)
  (** The registry drops its reference. *)
  | ERelease (ctx : positive)
  | ESignal (ctx : positive) (sig : Z)
  | EOpen (ctx : positive) (file : cstring)
  | EClose (ctx : positive).

Notation C := (eff node effect).

Definition hof (n : node) (c : positive) : Z := match nd_contexts n !! c with Some cx => cx_handle cx | None => 0 end.

Definition set_handles (hs : handle_storage) (n : node) : node :=
  Node hs (nd_contexts n) (nd_HARBOR n) (nd_REMOTE n) (nd_monitor_exit n) (nd_env n) (nd_starttime n) (nd_fopen n).
Definition set_context (c : positive) (cx : context) (n : node) : node :=
  Node (nd_handles n) (<[c := cx]> (nd_contexts n)) (nd_HARBOR n) (nd_REMOTE n) (nd_monitor_exit n) (nd_env n) (nd_starttime n) (nd_fopen n).
Definition set_monitor (h : Z) (n : node) : node :=
  Node (nd_handles n) (nd_contexts n) (nd_HARBOR n) (nd_REMOTE n) h (nd_env n) (nd_starttime n) (nd_fopen n).
Definition set_env (env : gmap cstring cstring) (n : node) : node :=
  Node (nd_handles n) (nd_contexts n) (nd_HARBOR n) (nd_REMOTE n) (nd_monitor_exit n) env (nd_starttime n) (nd_fopen n).
Definition set_session (s : Z) (cx : context) : context :=
  Context (cx_handle cx) s (cx_message_count cx) (cx_endless cx) (cx_mqlen cx)
    (cx_logfile cx) (cx_profile cx) (cx_cpu cx) (cx_time cx).
Definition set_endless (b : bool) (cx : context) : context :=
  Context (cx_handle cx) (cx_session_id cx) (cx_message_count cx) b (cx_mqlen cx)
    (cx_logfile cx) (cx_profile cx) (cx_cpu cx) (cx_time cx).
Definition set_logfile (b : bool) (cx : context) : context :=
  Context (cx_handle cx) (cx_session_id cx) (cx_message_count cx) (cx_endless cx) (cx_mqlen cx)
    b (cx_profile cx) (cx_cpu cx) (cx_time cx).

(** A function of the registry. *)
Definition handles {A} (f : (positive → Z) → handle_storage → option (A * handle_storage)) : C A :=
  n ← state;
  '(x, hs) ← lift (f (hof n) (nd_handles n));
  put (set_handles hs n) ;;
  mret x.

Definition context_of (c : positive) : C context := n ← state; lift (nd_contexts n !! c).

Definition findname (name : cstring) : C Z := n ← state; lift (skynet_handle_findname name (nd_handles n)).
Definition grab (handle : Z) : C (option positive) := n ← state; lift (skynet_handle_grab (hof n) handle (nd_handles n)).

(** ** Sending *)

Definition skynet_context_newsession (c : positive) : C Z :=
  cx ← context_of c;
  session ← lift (c_int (cx_session_id cx + 1));
  let session := if session <=? 0 then 1 else session in
  n ← state;
  put (set_context c (set_session session cx) n) ;;
  mret session.

Definition free (data : option block) : C () := emits (map EFree (option_list data)).

Definition bytes_of (b : block) : list Z := match b with Own bs | Copy bs => bs end.

(** The data that is sent: [sz] bytes of it are copied, unless it is given away. *)
Definition copy_data (type : Z) (data : option block) (sz : Z) : C (option block) :=
  match data with
  | Some b =>
    if Z.land type PTYPE_TAG_DONTCOPY =? 0 then
      bytes ← lift (if sz <=? Z.of_nat (List.length (bytes_of b)) then Some (take (Z.to_nat sz) (bytes_of b)) else None);
      emit (EAlloc (Copy bytes)) ;;
      mret (Some (Copy bytes))
    else mret (Some b)
  | None => mret None
  end.

(** The session, the data and the size with the type. *)
Definition _filter_args (c : positive) (type session : Z) (data : option block) (sz : Z) : C (Z * option block * Z) :=
  session ← (if Z.land type PTYPE_TAG_ALLOCSESSION =? 0 then mret session
             else lift (c_assert (session =? 0)) ;; skynet_context_newsession c);
  data ← copy_data type data sz;
  mret (session, data, Z.lor sz (Z.shiftl (Z.land type 255) MESSAGE_TYPE_SHIFT)).

(** [skynet_harbor_send], with the type and the size of the message taken apart. *)
Definition harbor_send (dest : destination) (data : option block) (sz source session : Z) : C () :=
  n ← state;
  let type := Z.shiftr sz MESSAGE_TYPE_SHIFT in
  lift (c_assert (negb (type =? PTYPE_SYSTEM) && negb (type =? PTYPE_HARBOR) && nd_REMOTE n)) ;;
  emit (EHarbor dest data (Z.land sz MESSAGE_TYPE_MASK) type source session).

(** -1 when there is no such context. *)
Definition skynet_context_push (handle source session : Z) (data : option block) (sz : Z) : C Z :=
  r ← grab handle;
  match r with
  | None => mret (-1)
  | Some ctx => emit (EPush ctx source session data sz) ;; mret 0
  end.

Definition too_large (sz : Z) : bool := negb (Z.land sz MESSAGE_TYPE_MASK =? sz).

(** The message is too large. *)
Definition reject (type : Z) (data : option block) (r : Z) : C Z :=
  (if Z.land type PTYPE_TAG_DONTCOPY =? 0 then mret tt else free data) ;; mret r.

Definition skynet_send (c : positive) (source dest type session : Z) (data : option block) (sz : Z) : C Z :=
  if too_large sz then reject type data (-2)
  else
    '(session, data, sz) ← _filter_args c type session data sz;
    cx ← context_of c;
    let source := if source =? 0 then cx_handle cx else source in
    if dest =? 0 then
      match data with
      | Some _ => free data ;; mret (-1)
      | None => mret session
      end
    else
      n ← state;
      remote ← lift (skynet_harbor_message_isremote (nd_HARBOR n) dest);
      if (remote : bool) then harbor_send (ToHandle dest) data sz source session ;; mret session
      else
        r ← skynet_context_push dest source session data sz;
        if r =? 0 then mret session else free data ;; mret (-1).

Definition copy_name (addr : cstring) : list Z :=
  take (Z.to_nat GLOBALNAME_LENGTH) (addr ++ replicate (Z.to_nat GLOBALNAME_LENGTH) 0).

Definition colon : Z := 58.
Definition dot : Z := 46.

Definition skynet_sendname (c : positive) (source : Z) (addr : cstring) (type session : Z) (data : option block) (sz : Z) : C Z :=
  cx ← context_of c;
  let source := if source =? 0 then cx_handle cx else source in
  match addr with
  | ch :: name =>
    if ch =? colon then
      des ← lift (strtoul (name ++ [0]));
      skynet_send c source des type session data sz
    else if ch =? dot then
      des ← findname name;
      if des =? 0 then reject type data (-1) else skynet_send c source des type session data sz
    else
      if too_large sz then reject type data (-2)
      else
        '(session, data, sz) ← _filter_args c type session data sz;
        harbor_send (ToName (copy_name addr)) data sz source session ;;
        mret session
  | [] =>
    if too_large sz then reject type data (-2)
    else
      '(session, data, sz) ← _filter_args c type session data sz;
      harbor_send (ToName (copy_name addr)) data sz source session ;;
      mret session
  end.

Definition skynet_queryname (name : cstring) : C Z :=
  match name with
  | ch :: name => if ch =? colon then lift (strtoul (name ++ [0])) else if ch =? dot then findname name else mret 0
  | [] => mret 0
  end.

(** ** Commands *)

(** [":%x"] *)
Definition handle_text (h : Z) : cstring := colon :: hexadecimal h.

Definition tohandle (param : cstring) : C Z := skynet_queryname param.

Definition handle_exit (c : positive) (handle : Z) : C () :=
  cx ← context_of c;
  let handle := if handle =? 0 then cx_handle cx else handle in
  n ← state;
  (if nd_monitor_exit n =? 0 then mret tt
   else skynet_send c handle (nd_monitor_exit n) PTYPE_CLIENT 0 None 0 ;; mret tt) ;;
  r ← handles (λ hof, skynet_handle_retire hof handle);
  emits (map ERelease (option_list r)).

Definition cmd_timeout (c : positive) (param : cstring) : C (option cstring) :=
  ti ← lift (strtol (param ++ [0]));
  session ← skynet_context_newsession c;
  cx ← context_of c;
  emit (ETimeout (cx_handle cx) ti session) ;;
  mret (Some (decimal_int session)).

Definition cmd_reg (c : positive) (param : cstring) : C (option cstring) :=
  cx ← context_of c;
  match param with
  | [] => mret (Some (handle_text (cx_handle cx)))
  | ch :: name =>
    if ch =? dot then handles (λ _, skynet_handle_namehandle (cx_handle cx) name) else mret None
  end.

Definition cmd_query (param : cstring) : C (option cstring) :=
  match param with
  | ch :: name =>
    if ch =? dot then
      handle ← findname name;
      mret (if handle =? 0 then None else Some (handle_text handle))
    else mret None
  | [] => mret None
  end.

(** [sscanf(param, "%s %s", name, handle)]; what is not scanned stays uninitialised. *)
Fixpoint scan_word (s : cstring) : cstring * cstring :=
  match s with
  | c :: s' => if is_space c then ([], s) else let (w, rest) := scan_word s' in (c :: w, rest)
  | [] => ([], [])
  end.

Definition cmd_name (param : cstring) : C (option cstring) :=
  let (name, rest) := scan_word (skip_space param) in
  let (handle, _) := scan_word (skip_space rest) in
  match handle with
  | [] => lift None
  | ch :: handle =>
    if negb (ch =? colon) then mret None
    else
      handle_id ← lift (strtoul (handle ++ [0]));
      if handle_id =? 0 then mret None
      else
        match name with
        | ch :: name => if ch =? dot then handles (λ _, skynet_handle_namehandle handle_id name) else mret None
        | [] => mret None
        end
  end.

Definition cmd_exit (c : positive) : C (option cstring) := handle_exit c 0 ;; mret None.

Definition cmd_kill (c : positive) (param : cstring) : C (option cstring) :=
  handle ← tohandle param;
  (if handle =? 0 then mret tt else handle_exit c handle) ;;
  mret None.

Definition cmd_getenv (param : cstring) : C (option cstring) := n ← state; mret (nd_env n !! param).

(** A key may be set once. *)
Definition cmd_setenv (param : cstring) : C (option cstring) :=
  let key := take (find_char 32 param) param in
  match drop (find_char 32 param) param with
  | [] => mret None
  | _ :: value =>
    n ← state;
    lift (c_assert (bool_decide (nd_env n !! key = None))) ;;
    put (set_env (<[key := value]> (nd_env n)) n) ;;
    mret None
  end.

Definition cmd_abort : C (option cstring) :=
  released ← handles (λ hof hs, skynet_handle_retireall hof 2 hs []);
  emits (map ERelease released) ;;
  mret None.

Definition cmd_monitor (param : cstring) : C (option cstring) :=
  n ← state;
  match param with
  | [] => mret (if nd_monitor_exit n =? 0 then None else Some (handle_text (nd_monitor_exit n)))
  | _ =>
    handle ← tohandle param;
    n ← state;
    put (set_monitor handle n) ;;
    mret None
  end.

Definition same (a : cstring) (b : string) : bool := bool_decide (a = str b).

Definition cmd_stat (c : positive) (param : cstring) : C (option cstring) :=
  cx ← context_of c;
  if same param "mqlen" then mret (Some (decimal_int (cx_mqlen cx)))
  else if same param "endless" then
    if cx_endless cx then
      n ← state;
      put (set_context c (set_endless false cx) n) ;;
      mret (Some (str "1"))
    else mret (Some (str "0"))
  else if same param "cpu" then mret (Some (cx_cpu cx))
  else if same param "time" then mret (Some (if cx_profile cx then cx_time cx else str "0"))
  else if same param "message" then mret (Some (decimal_int (cx_message_count cx)))
  else mret (Some []).

(** [strtol] with base 0. *)
Definition strtol_any (s : list Z) : option Z :=
  let t := skip_space s in
  let t := match t with ch :: t' => if (ch =? 45) || (ch =? 43) then t' else t | [] => t end in
  let base := match t with
              | 48 :: x :: _ => if (x =? 120) || (x =? 88) then 16 else 8
              | _ => 10
              end in
  '(neg, n) ← strto base s;
  Some (swrap 32 (if neg : bool then Z.max (- 2 ^ 63) (- n) else Z.min (2 ^ 63 - 1) n)).

Definition cmd_signal (param : cstring) : C (option cstring) :=
  handle ← tohandle param;
  if handle =? 0 then mret None
  else
    r ← grab handle;
    match r with
    | None => mret None
    | Some ctx =>
      sig ← match drop (find_char 32 param) param with
            | [] => mret 0
            | rest => lift (strtol_any (rest ++ [0]))
            end;
      emit (ESignal ctx sig) ;;
      mret None
    end.

(** ["%08x"] *)
Definition hex08 (h : Z) : cstring := replicate (8 - List.length (hexadecimal h)) 48 ++ hexadecimal h.

(** Whether there is a file. *)
Definition skynet_log_open (ctx : positive) (handle : Z) : C bool :=
  n ← state;
  match nd_env n !! str "logpath" with
  | None => mret false
  | Some logpath =>
    let file := logpath ++ str "/" ++ hex08 handle ++ str ".log" in
    if nd_fopen n file then emit (EOpen ctx file) ;; mret true else mret false
  end.

Definition cmd_logon (param : cstring) : C (option cstring) :=
  handle ← tohandle param;
  if handle =? 0 then mret None
  else
    r ← grab handle;
    match r with
    | None => mret None
    | Some ctx =>
      cx ← context_of ctx;
      (if cx_logfile cx then mret tt
       else
         f ← skynet_log_open ctx handle;
         n ← state;
         if (f : bool) then put (set_context ctx (set_logfile true cx) n) else mret tt) ;;
      mret None
    end.

Definition cmd_logoff (param : cstring) : C (option cstring) :=
  handle ← tohandle param;
  if handle =? 0 then mret None
  else
    r ← grab handle;
    match r with
    | None => mret None
    | Some ctx =>
      cx ← context_of ctx;
      n ← state;
      (if cx_logfile cx then put (set_context ctx (set_logfile false cx) n) ;; emit (EClose ctx) else mret tt) ;;
      mret None
    end.

Definition cmd_starttime : C (option cstring) := n ← state; mret (Some (decimal 10 (nd_starttime n))).

(** [cmd_funcs]; LAUNCH is [Server.context_new]. *)
Definition skynet_command (c : positive) (cmd : cstring) (param : cstring) : C (option cstring) :=
  if same cmd "TIMEOUT" then cmd_timeout c param
  else if same cmd "REG" then cmd_reg c param
  else if same cmd "QUERY" then cmd_query param
  else if same cmd "NAME" then cmd_name param
  else if same cmd "EXIT" then cmd_exit c
  else if same cmd "KILL" then cmd_kill c param
  else if same cmd "LAUNCH" then lift None
  else if same cmd "GETENV" then cmd_getenv param
  else if same cmd "SETENV" then cmd_setenv param
  else if same cmd "STARTTIME" then cmd_starttime
  else if same cmd "ABORT" then cmd_abort
  else if same cmd "MONITOR" then cmd_monitor param
  else if same cmd "STAT" then cmd_stat c param
  else if same cmd "LOGON" then cmd_logon param
  else if same cmd "LOGOFF" then cmd_logoff param
  else if same cmd "SIGNAL" then cmd_signal param
  else mret None.
