(* ===== verification/CommandsSpec.v ===== *)
(** What a service can rely on: a message is delivered once or its sender is told, no
    block of memory is lost or freed twice, and a name leads to the service that
    registered it until that is killed. *)
From Stdlib Require Import String.
From S2P Require Import Prelude Bytes Effect CString Harbor Handle Commands.
Local Open Scope Z_scope.

(** ** Effects *)

Definition alloc1 (e : effect) : option block := match e with EAlloc b => Some b | _ => None end.
Definition free1 (e : effect) : option block := match e with EFree b => Some b | _ => None end.
Definition handed1 (e : effect) : option block := match e with EPush _ _ _ d _ | EHarbor _ d _ _ _ _ => d | _ => None end.
Definition sent1 (e : effect) : option effect := match e with EPush _ _ _ _ _ | EHarbor _ _ _ _ _ _ => Some e | _ => None end.
Notation allocs es := (omap alloc1 es).
Notation frees es := (omap free1 es).
Notation handed es := (omap handed1 es).
Notation sent es := (omap sent1 es).

(** The block that the caller gives away. *)
Definition given (type : Z) (data : option block) : list block :=
  if Z.land type PTYPE_TAG_DONTCOPY =? 0 then [] else option_list data.

(** A message for [tgt]: in the queue of the context that the registry has for the handle,
    or for the harbor service. *)
Definition addressed (n : node) (tgt : destination) (e : effect) : Prop :=
  match e with
  | EPush ctx _ _ _ _ =>
      ∃ h, tgt = ToHandle h ∧ skynet_handle_grab (hof n) h (nd_handles n) = Some (Some ctx)
  | EHarbor dest _ _ _ _ _ => dest = tgt
  | _ => False
  end.

(** Every block given or allocated is freed or handed to the receiver, once; there is one
    message, for [tgt], or a negative result and none.  Only to the handle 0 without data
    there is neither (a session is asked for). *)
Definition accounted (n : node) (tgt : destination) (type : Z) (data : option block) (r : Z) (es : list effect) : Prop :=
  given type data ++ allocs es ≡ₚ frees es ++ handed es ∧
  (r < 0 → sent es = []) ∧
  (0 ≤ r → (∃ e, sent es = [e] ∧ addressed n tgt e) ∨ sent es = [] ∧ data = None ∧ tgt = ToHandle 0).

(** ** The node stays the same but for sessions *)

Record same_node (n n' : node) : Prop := {
  sn_handles : nd_handles n' = nd_handles n;
  sn_harbor : nd_HARBOR n' = nd_HARBOR n;
  sn_remote : nd_REMOTE n' = nd_REMOTE n;
  sn_hof : ∀ c, hof n' c = hof n c;
  sn_contexts : ∀ c, is_Some (nd_contexts n !! c) → is_Some (nd_contexts n' !! c);
}.

Lemma same_node_refl n : same_node n n.
Proof. by split. Qed.

Lemma hof_lookup n c cx : nd_contexts n !! c = Some cx → hof n c = cx_handle cx.
Proof. intros E. unfold hof. by rewrite E. Qed.

Lemma same_node_session n c cx s : nd_contexts n !! c = Some cx → same_node n (set_context c (set_session s cx) n).
Proof.
  intros E. split; try done; cbn.
  - intros c'. unfold hof. cbn. destruct (decide (c' = c)) as [->|Hne]; [by rewrite lookup_insert_eq, E|by rewrite lookup_insert_ne].
  - intros c' ?. rewrite lookup_insert_is_Some'. by right.
Qed.

Lemma exec_context_of {A} pre c cx (f : context → C A) n :
  nd_contexts n !! c = Some cx → exec pre (context_of c ≫= f) n = exec pre (f cx) n.
Proof. intros E. unfold context_of. by rewrite exec_assoc, exec_state, E, exec_lift. Qed.

Lemma newsession_spec n c cx :
  nd_contexts n !! c = Some cx → 0 ≤ cx_session_id cx < INT_MAX →
  skynet_context_newsession c n = Some (cx_session_id cx + 1, set_context c (set_session (cx_session_id cx + 1) cx) n, []).
Proof.
  intros E Hs. unfold skynet_context_newsession. rewrite (exec_nil (_ ≫= _)), (exec_context_of _ _ _ _ _ E).
  rewrite c_int_Some, exec_lift by (unfold INT_MIN; lia). rewrite (proj2 (Z.leb_gt _ _)) by lia.
  by rewrite exec_state, exec_put, exec_mret.
Qed.

(** ** The arguments of a message *)

Definition session_ok (type session : Z) (cx : context) : Prop :=
  if Z.land type PTYPE_TAG_ALLOCSESSION =? 0 then 0 ≤ session else session = 0 ∧ 0 ≤ cx_session_id cx < INT_MAX.

Definition data_ok (data : option block) (sz : Z) : Prop :=
  0 ≤ sz ∧ match data with Some b => sz = Z.of_nat (List.length (bytes_of b)) ∧ ∃ bs, b = Own bs | None => True end.

(** What travels with a message whose type is [type]. *)
Definition typed_size (type sz : Z) : Z := Z.lor sz (Z.shiftl (Z.land type 255) MESSAGE_TYPE_SHIFT).

Lemma copy_data_spec n type data sz :
  data_ok data sz →
  ∃ data' es, copy_data type data sz n = Some (data', n, es) ∧
    option_list data' = given type data ++ allocs es ∧ frees es = [] ∧ handed es = [] ∧ sent es = [] ∧
    (data' = None → data = None).
Proof.
  intros [_ Hd]. unfold copy_data, given. destruct data as [b|].
  2:{ exists None, []. split; [done|]. by destruct (_ =? _). }
  destruct Hd as (-> & bs & ->). destruct (Z.land type PTYPE_TAG_DONTCOPY =? 0).
  - rewrite Z.leb_refl, Nat2Z.id, take_ge by done. rewrite (exec_nil (_ ≫= _)), exec_lift, exec_emit, exec_mret.
    by eexists _, _.
  - by exists (Some (Own bs)), [].
Qed.

Lemma filter_args_spec n c cx type session data sz :
  nd_contexts n !! c = Some cx → session_ok type session cx → data_ok data sz →
  ∃ session' data' n' es,
    _filter_args c type session data sz n = Some ((session', data', typed_size type sz), n', es) ∧
    0 ≤ session' ∧ same_node n n' ∧
    option_list data' = given type data ++ allocs es ∧ frees es = [] ∧ handed es = [] ∧ sent es = [] ∧
    (data' = None → data = None).
Proof.
  intros E Hs Hd. unfold _filter_args, session_ok in *. rewrite (exec_nil (_ ≫= _)).
  destruct (Z.land type PTYPE_TAG_ALLOCSESSION =? 0).
  - rewrite exec_ret_bind. destruct (copy_data_spec n type data sz Hd) as (d & es & Ec & H).
    rewrite (exec_bind _ _ _ _ _ _ _ Ec), exec_mret. exists session, d, n, es. split; [done|]. split; [done|].
    split; [apply same_node_refl|done].
  - destruct Hs as [-> Hs]. change (c_assert (0 =? 0)) with (Some tt). rewrite exec_assoc, exec_lift.
    rewrite (exec_bind _ _ _ _ _ _ _ (newsession_spec n c cx E Hs)).
    destruct (copy_data_spec (set_context c (set_session (cx_session_id cx + 1) cx) n) type data sz Hd) as (d & es & Ec & H).
    rewrite (exec_bind _ _ _ _ _ _ _ Ec), exec_mret. eexists _, d, _, es. split; [done|]. split; [lia|].
    split; [by apply same_node_session|done].
Qed.

Lemma too_large_false sz : 0 ≤ sz → too_large sz = false → sz < 2 ^ 56.
Proof.
  unfold too_large, MESSAGE_TYPE_MASK. intros H0 H. apply negb_false_iff, Z.eqb_eq in H.
  rewrite land_mask in H by lia. rewrite <- H. apply Z.mod_pos_bound. lia.
Qed.

Lemma typed_size_type type sz : 0 ≤ sz < 2 ^ 56 → Z.shiftr (typed_size type sz) MESSAGE_TYPE_SHIFT = Z.land type 255.
Proof.
  intros H. unfold typed_size, MESSAGE_TYPE_SHIFT. rewrite Z.lor_comm, lor_shiftl, Z.shiftr_div_pow2 by lia.
  rewrite Z.div_add_l, Z.div_small; lia.
Qed.

(** ** Sending *)

Lemma free_spec data n : free data n = Some (tt, n, map EFree (option_list data)).
Proof. done. Qed.

Lemma frees_of l : frees (map EFree l) = l ∧ allocs (map EFree l) = [] ∧ handed (map EFree l) = [] ∧ sent (map EFree l) = [].
Proof. induction l as [|b l (IH & ? & ? & ?)]; [done|]. cbn. by rewrite IH. Qed.

Lemma reject_spec type data r n : r < 0 → ∃ es, reject type data r n = Some (r, n, es) ∧ ∀ n0 tgt, accounted n0 tgt type data r es.
Proof.
  intros Hr. unfold reject, accounted, given. rewrite (exec_nil (_ ≫= _)). destruct (_ =? 0).
  - rewrite exec_ret_bind, exec_mret. eexists. split; [done|]. intros n0 tgt. split; [done|]. split; [done|lia].
  - rewrite (exec_bind _ _ _ _ _ _ _ (free_spec data n)), exec_mret. eexists. split; [done|]. intros n0 tgt. cbn [app].
    destruct (frees_of (option_list data)) as (-> & -> & -> & ->). split; [done|]. split; [done|lia].
Qed.

Lemma isremote_total HARBOR h : HARBOR ≠ 2 ^ 32 - 1 → ∃ b, skynet_harbor_message_isremote HARBOR h = Some b.
Proof.
  intros H. unfold skynet_harbor_message_isremote. rewrite c_assert_true by lia. by eexists.
Qed.

(** What a call needs: a registered caller, the network, and a type for users. *)
Record call_ok (n : node) (c : positive) (cx : context) (type session : Z) (data : option block) (sz : Z) : Prop := {
  ok_context : nd_contexts n !! c = Some cx;
  ok_wf : hs_wf (hof n) (nd_handles n);
  ok_harbor : nd_HARBOR n ≠ 2 ^ 32 - 1;
  ok_remote : nd_REMOTE n = true;
  ok_type : Z.land type 255 ≠ PTYPE_SYSTEM ∧ Z.land type 255 ≠ PTYPE_HARBOR;
  ok_session : session_ok type session cx;
  ok_data : data_ok data sz;
}.

Lemma harbor_send_spec n dest data type sz source session :
  0 ≤ sz < 2 ^ 56 → nd_REMOTE n = true → Z.land type 255 ≠ PTYPE_SYSTEM ∧ Z.land type 255 ≠ PTYPE_HARBOR →
  ∃ e, harbor_send dest data (typed_size type sz) source session n = Some (tt, n, [e]) ∧ handed1 e = data ∧
    sent1 e = Some e ∧ alloc1 e = None ∧ free1 e = None ∧ ∀ n0, addressed n0 dest e.
Proof.
  intros Hsz Hr [H1 H2]. unfold harbor_send. rewrite (exec_nil (_ ≫= _)), exec_state, typed_size_type by done.
  rewrite (proj2 (Z.eqb_neq _ _) H1), (proj2 (Z.eqb_neq _ _) H2), Hr. change (c_assert _) with (Some tt).
  rewrite exec_lift. by eexists.
Qed.

Lemma grab_same n n' h : same_node n n' → skynet_handle_grab (hof n') h (nd_handles n') = skynet_handle_grab (hof n) h (nd_handles n).
Proof.
  intros []. unfold skynet_handle_grab. rewrite sn_handles0. destruct (aget _ _) as [[ctx|]|]; [|done..].
  cbn. by rewrite sn_hof0.
Qed.

Lemma context_push_spec n h source session data sz :
  hs_wf (hof n) (nd_handles n) →
  ∃ r es, skynet_context_push h source session data sz n = Some (r, n, es) ∧
    ((r = 0 ∧ ∃ ctx, es = [EPush ctx source session data sz] ∧ addressed n (ToHandle h) (EPush ctx source session data sz)) ∨
     r = -1 ∧ es = []).
Proof.
  intros W. destruct (grab_spec _ _ h 1%positive W) as [_ [g Eg]]. unfold skynet_context_push, grab.
  rewrite (exec_nil (_ ≫= _)), exec_assoc, exec_state, Eg, exec_lift. destruct g as [ctx|].
  - rewrite exec_emit, exec_mret. eexists _, _. split; [done|]. left. split; [done|]. exists ctx. split; [done|].
    by exists h.
  - rewrite exec_mret. eexists _, _. split; [done|]. by right.
Qed.

(** After the arguments were filtered: the block [data'] goes to one receiver or is freed. *)
Lemma accounted_app n tgt type data data' r es es' :
  option_list data' = given type data ++ allocs es → frees es = [] → handed es = [] → sent es = [] →
  allocs es' = [] → frees es' ++ handed es' ≡ₚ option_list data' →
  (r < 0 → sent es' = []) →
  (0 ≤ r → (∃ e, sent es' = [e] ∧ addressed n tgt e) ∨ sent es' = [] ∧ data = None ∧ tgt = ToHandle 0) →
  accounted n tgt type data r (es ++ es').
Proof.
  intros H1 H2 H3 H4 H5 H6 H7 H8. unfold accounted. rewrite !omap_app, H2, H3, H4, H5, app_nil_r. cbn [app].
  split; [by rewrite H6, H1|]. by split.
Qed.

Lemma send_accounted n c cx source dest type session data sz :
  call_ok n c cx type session data sz →
  ∃ r n' es, skynet_send c source dest type session data sz n = Some (r, n', es) ∧ same_node n n' ∧
    accounted n (ToHandle dest) type data r es.
Proof.
  intros [Hc W Hh Hr Ht Hs Hd]. unfold skynet_send. destruct (too_large sz) eqn:El.
  { destruct (reject_spec type data (-2) n) as (es & E & Ha); [lia|]. exists (-2), n, es. split; [done|].
    split; [apply same_node_refl|done]. }
  pose proof (too_large_false sz (proj1 Hd) El) as Hsz. pose proof (proj1 Hd) as Hsz0.
  destruct (filter_args_spec n c cx type session data sz Hc Hs Hd) as (session' & data' & n1 & es & E & Hs' & Hn & Ho & Hf & Hha & Hse & Hno).
  rewrite (exec_nil (_ ≫= _)), (exec_bind _ _ _ _ _ _ _ E). cbn [app].
  destruct (sn_contexts _ _ Hn c) as [cx1 Ec1]; [by eexists|]. rewrite (exec_context_of _ _ _ _ _ Ec1).
  destruct (Z.eqb_spec dest 0) as [->|Hdest].
  { destruct data' as [b|].
    - rewrite (exec_bind _ _ _ _ _ _ _ (free_spec _ n1)), exec_mret. eexists _, n1, _. split; [done|]. split; [done|].
      eapply accounted_app; try done.
    - rewrite exec_mret. eexists _, n1, _. split; [done|]. split; [done|]. rewrite <- (app_nil_r es).
      eapply accounted_app; try done. intros _. right. split; [done|]. split; [by apply Hno|done]. }
  rewrite exec_state. destruct (isremote_total (nd_HARBOR n1) dest) as [remote Er]; [by rewrite (sn_harbor _ _ Hn)|].
  rewrite Er, exec_lift. destruct remote.
  - destruct (harbor_send_spec n1 (ToHandle dest) data' type sz (if source =? 0 then cx_handle cx1 else source) session')
      as (e & E1 & H1 & H2 & H3 & H4 & H5); [lia|by rewrite (sn_remote _ _ Hn)|done|].
    rewrite (exec_bind _ _ _ _ _ _ _ E1), exec_mret. eexists _, n1, _. split; [done|]. split; [done|].
    eapply accounted_app; try done; cbn; rewrite ?H1, ?H2, ?H3, ?H4; [done|by destruct data'|lia|left; by exists e].
  - destruct (context_push_spec n1 dest (if source =? 0 then cx_handle cx1 else source) session' data' (typed_size type sz)) as (r & es1 & E1 & H1).
    { rewrite (sn_handles _ _ Hn). destruct W as [w1 w2 w3 w4 w5]. split; try done. intros i ctx Hi. rewrite (sn_hof _ _ Hn). by apply w5. }
    rewrite (exec_bind _ _ _ _ _ _ _ E1). destruct H1 as [(-> & ctx & -> & h & [= <-] & Hgr)|[-> ->]];
      [change (0 =? 0) with true|change (-1 =? 0) with false]; cbn beta iota.
    + rewrite exec_mret. eexists _, n1, _. split; [done|]. split; [done|].
      eapply accounted_app; try done; cbn; [lia|left]. eexists. split; [done|]. exists dest. split; [done|].
      by rewrite <- (grab_same n n1 dest Hn).
    + rewrite (exec_bind _ _ _ _ _ _ _ (free_spec _ n1)), exec_mret. eexists _, n1, _. split; [done|]. split; [done|].
      rewrite app_nil_r. destruct (frees_of (option_list data')) as (F1 & F2 & F3 & F4).
      eapply accounted_app; try done. by rewrite F1, F3, app_nil_r.
Qed.


(** ** Addresses in text *)

Lemma to_number_total base s acc : is_Some (to_number base (s ++ [0]) acc).
Proof.
  revert acc. induction s as [|x s IH]; intros acc; cbn [app to_number]; [|by destruct (digit_value base x)].
  assert (digit_value base 0 = None) as ->; [|done].
  unfold digit_value. cbn. by rewrite Z.ltb_irrefl.
Qed.

Lemma skip_space_ends s : ∃ s', skip_space (s ++ [0]) = s' ++ [0].
Proof.
  induction s as [|x s IH]; [by exists []|]. cbn [app skip_space]. destruct (is_space x); [done|]. by exists (x :: s).
Qed.

Lemma strtoul_total s : is_Some (strtoul (s ++ [0])).
Proof.
  unfold strtoul. assert (is_Some (strto 16 (s ++ [0]))) as [[neg m] ->]; [|by eexists].
  unfold strto. destruct (skip_space_ends s) as [t ->].
  assert (∃ neg u, (match t ++ [0] with
                    | x :: s' => if x =? 45 then (true, s') else if x =? 43 then (false, s') else (false, t ++ [0])
                    | [] => (false, t ++ [0])
                    end) = (neg : bool, u ++ [0])) as (neg & u & ->).
  { destruct t as [|x t]; [by exists false, []|]. cbn [app]. destruct (x =? 45); [by exists true, t|].
    destruct (x =? 43); [by exists false, t|by exists false, (x :: t)]. }
  assert (∃ v, (match u ++ [0] with
                | z :: x :: s' => if (16 =? 16) && (z =? 48) && ((x =? 120) || (x =? 88)) then s' else u ++ [0]
                | _ => u ++ [0]
                end) = v ++ [0]) as (v & ->).
  { destruct u as [|z [|x u]]; cbn [app].
    - by exists [].
    - rewrite andb_false_r. by exists [z].
    - destruct (_ && _); [by exists u|by exists (z :: x :: u)]. }
  destruct (to_number_total 16 v 0) as [m ->]. by eexists.
Qed.

(** Where an address in text leads. *)
Definition resolve (n : node) (addr : cstring) : destination :=
  match addr with
  | ch :: name =>
      if ch =? colon then ToHandle (default 0 (strtoul (name ++ [0])))
      else if ch =? dot then ToHandle (default 0 (skynet_handle_findname name (nd_handles n)))
      else ToName (copy_name addr)
  | [] => ToName (copy_name addr)
  end.

(** C35: a call of [skynet_send] or [skynet_sendname], to any handle or
    address in text and with any data, returns, and it delivers exactly one message, to the
    queue of the context with that handle or to the harbor service with that handle or
    name, or has a negative result and delivers none; only with the handle 0 and no data it
    delivers none and gives the session. The block that the caller gives away and the copy
    that was made are handed to the receiver or freed, exactly once, on every path. The
    caller is a context of the node, the network has been started, the type is neither that
    of the system nor that of the harbor, the size is that of the data, and the session is
    not negative, or 0 when one is to be allocated and there are some left. *)
Theorem messages_accounted n c cx type session data sz :
  call_ok n c cx type session data sz → (∃ l, names_repr (nd_handles n) l) →
  (∀ source dest, ∃ r n' es,
     skynet_send c source dest type session data sz n = Some (r, n', es) ∧
     accounted n (ToHandle dest) type data r es) ∧
  (∀ source addr, ∃ r n' es,
     skynet_sendname c source addr type session data sz n = Some (r, n', es) ∧
     accounted n (resolve n addr) type data r es).
Proof.
  intros Hok [l Hl]. split.
  { intros source dest. destruct (send_accounted n c cx source dest type session data sz Hok) as (r & n' & es & E & _ & Ha).
    by exists r, n', es. }
  intros source addr. pose proof Hok as [Hc W Hh Hr Ht Hs Hd]. unfold skynet_sendname.
  rewrite (exec_nil (_ ≫= _)), (exec_context_of _ _ _ _ _ Hc). set (source' := if source =? 0 then cx_handle cx else source).
  assert (∃ r n' es, exec [] (if too_large sz then reject type data (-2)
    else '(session, data, sz) ← _filter_args c type session data sz;
         harbor_send (ToName (copy_name addr)) data sz source' session ;; mret session) n = Some (r, n', es) ∧
    accounted n (ToName (copy_name addr)) type data r es) as Hglobal.
  { destruct (too_large sz) eqn:El.
    { destruct (reject_spec type data (-2) n) as (es & E & Ha); [lia|]. rewrite <- exec_nil. exists (-2), n, es. by split. }
    pose proof (too_large_false sz (proj1 Hd) El) as Hsz. pose proof (proj1 Hd) as Hsz0.
    destruct (filter_args_spec n c cx type session data sz Hc Hs Hd) as (session' & data' & n1 & es & E & Hs' & Hn & Ho & Hf & Hha & Hse & Hno).
    rewrite (exec_bind _ _ _ _ _ _ _ E). cbn [app].
    destruct (harbor_send_spec n1 (ToName (copy_name addr)) data' type sz source' session')
      as (e & E1 & H1 & H2 & H3 & H4 & H5); [lia|by rewrite (sn_remote _ _ Hn)|done|].
    rewrite (exec_bind _ _ _ _ _ _ _ E1), exec_mret. eexists _, n1, _. split; [done|].
    eapply accounted_app; try done; cbn; rewrite ?H1, ?H2, ?H3, ?H4; [done|by destruct data'|lia|left; by exists e]. }
  unfold resolve. destruct addr as [|ch name]; [exact Hglobal|]. destruct (ch =? colon).
  - destruct (strtoul_total name) as [des ->]. rewrite exec_lift. cbn [default from_option].
    destruct (send_accounted n c cx source' des type session data sz Hok) as (r & n' & es & E & _ & Ha).
    exists r, n', es. by rewrite <- exec_nil.
  - destruct (ch =? dot); [|exact Hglobal]. destruct (findname_spec _ _ name Hl) as (h & Ef & _).
    unfold findname. rewrite exec_assoc, exec_state, Ef, exec_lift. cbn [default from_option]. destruct (h =? 0).
    + destruct (reject_spec type data (-1) n) as (es & E & Ha); [lia|]. rewrite <- exec_nil. exists (-1), n, es. by split.
    + destruct (send_accounted n c cx source' h type session data sz Hok) as (r & n' & es & E & _ & Ha).
      exists r, n', es. by rewrite <- exec_nil.
Qed.

(** ** Names *)

Lemma local_address b k : 0 ≤ b < 256 → 0 ≤ k < 2 ^ 24 →
  Z.land (b * 2 ^ 24 + k) (wrap 32 (Z.lnot HANDLE_MASK)) = b * 2 ^ 24.
Proof.
  intros Hb Hk. change (wrap 32 (Z.lnot HANDLE_MASK)) with (255 * 2 ^ 24).
  rewrite Z.add_comm, <- lor_add, Z.land_lor_distr_l, land_disjoint by lia. rewrite Z.lor_0_l.
  rewrite <- !Z.shiftl_mul_pow2, <- Z.shiftl_land by lia. f_equal.
  change 255 with (2 ^ 8 - 1). rewrite land_mask, Z.mod_small by lia. done.
Qed.

(** A service of this node. *)
Record service_of (n : node) (c : positive) (cx : context) : Prop := {
  so_context : nd_contexts n !! c = Some cx;
  so_wf : hs_wf (hof n) (nd_handles n);
  so_registered : registered (nd_handles n) c;
  so_harbor : nd_HARBOR n = hs_harbor (nd_handles n);
}.

Lemma service_handle n c cx : service_of n c cx →
  0 < cx_handle cx < 2 ^ 32 ∧ skynet_harbor_message_isremote (nd_HARBOR n) (cx_handle cx) = Some false ∧
  skynet_handle_grab (hof n) (cx_handle cx) (nd_handles n) = Some (Some c).
Proof.
  intros [Hc W Hreg Hh]. pose proof (hof_lookup n c cx Hc) as Eh. pose proof (hw_harbor _ _ W) as (b & Hb & Ehb).
  destruct Hreg as [i Hi]. destruct (hw_slot _ _ W _ _ Hi) as [Hr _]. rewrite Eh in Hr. unfold HANDLE_MASK in Hr.
  split; [lia|]. split.
  - unfold skynet_harbor_message_isremote. rewrite Hh, Ehb, c_assert_true by lia.
    replace (cx_handle cx) with (b * 2 ^ 24 + (cx_handle cx - b * 2 ^ 24)) by lia.
    rewrite local_address by lia. by rewrite Z.eqb_refl.
  - apply (grab_spec _ _ _ c W). split; [by exists i|done].
Qed.

(** A message without tags. *)
Definition plain (type : Z) (bytes : list Z) : Prop :=
  Z.land type PTYPE_TAG_DONTCOPY = 0 ∧ Z.land type PTYPE_TAG_ALLOCSESSION = 0 ∧ Z.of_nat (List.length bytes) < 2 ^ 56.

Lemma plain_args n c type session bytes : plain type bytes →
  too_large (Z.of_nat (List.length bytes)) = false ∧
  _filter_args c type session (Some (Own bytes)) (Z.of_nat (List.length bytes)) n =
    Some ((session, Some (Copy bytes), typed_size type (Z.of_nat (List.length bytes))), n, [EAlloc (Copy bytes)]).
Proof.
  intros (H1 & H2 & H3). split.
  - unfold too_large, MESSAGE_TYPE_MASK. rewrite land_mask, Z.mod_small, Z.eqb_refl by lia. done.
  - unfold _filter_args, copy_data. rewrite H1, H2. change (0 =? 0) with true. cbn beta iota. rewrite (exec_nil (_ ≫= _)), exec_ret_bind.
    cbn [bytes_of]. rewrite Z.leb_refl, Nat2Z.id, take_ge by done.
    by rewrite exec_assoc, exec_lift, exec_assoc, exec_emit, exec_ret_bind, exec_mret.
Qed.

Definition source_of (source : Z) (dx : context) : Z := if source =? 0 then cx_handle dx else source.

(** What a plain message to the handle [h] does, when [h] is not remote. *)
Lemma send_plain n d dx source h type session bytes g :
  nd_contexts n !! d = Some dx → plain type bytes → h ≠ 0 →
  skynet_harbor_message_isremote (nd_HARBOR n) h = Some false →
  skynet_handle_grab (hof n) h (nd_handles n) = Some g →
  skynet_send d source h type session (Some (Own bytes)) (Z.of_nat (List.length bytes)) n =
  Some (match g with
        | Some c => (session, n, [EAlloc (Copy bytes);
                       EPush c (source_of source dx) session (Some (Copy bytes)) (typed_size type (Z.of_nat (List.length bytes)))])
        | None => (-1, n, [EAlloc (Copy bytes); EFree (Copy bytes)])
        end).
Proof.
  intros Hd Hp Hh Hr Hg. destruct (plain_args n d type session bytes Hp) as [Hl Ef]. unfold skynet_send. rewrite Hl.
  rewrite (exec_nil (_ ≫= _)), (exec_bind _ _ _ _ _ _ _ Ef). cbn [app].
  rewrite (exec_context_of _ _ _ _ _ Hd), (proj2 (Z.eqb_neq _ _) Hh), exec_state, Hr, exec_lift.
  unfold skynet_context_push, grab. rewrite exec_assoc, exec_assoc, exec_state, Hg, exec_lift.
  destruct g as [c|].
  - rewrite exec_assoc, exec_emit, exec_ret_bind. change (0 =? 0) with true. cbn beta iota. by rewrite exec_mret.
  - rewrite exec_ret_bind. change (-1 =? 0) with false. cbn beta iota.
    by rewrite (exec_bind _ _ _ _ _ _ _ (free_spec _ n)), exec_mret.
Qed.

Lemma sendname_dot n d dx source name h type session data sz :
  nd_contexts n !! d = Some dx → cx_handle dx ≠ 0 → skynet_handle_findname name (nd_handles n) = Some h → h ≠ 0 →
  skynet_sendname d source (dot :: name) type session data sz n =
  skynet_send d (source_of source dx) h type session data sz n.
Proof.
  intros Hd Hn Hf Hh. unfold skynet_sendname, findname. rewrite (exec_nil (_ ≫= _)), (exec_context_of _ _ _ _ _ Hd).
  change (dot =? colon) with false. rewrite Z.eqb_refl. cbn beta iota zeta.
  rewrite exec_assoc, exec_state, Hf, exec_lift, (proj2 (Z.eqb_neq _ _) Hh). by rewrite <- exec_nil.
Qed.

Lemma sendname_text n d dx source h type session data sz :
  nd_contexts n !! d = Some dx → 0 ≤ h < 2 ^ 32 →
  skynet_sendname d source (handle_text h) type session data sz n =
  skynet_send d (source_of source dx) h type session data sz n.
Proof.
  intros Hd Hh. unfold skynet_sendname, handle_text. rewrite (exec_nil (_ ≫= _)), (exec_context_of _ _ _ _ _ Hd).
  rewrite Z.eqb_refl, (strtoul_hex h []), exec_lift by done. by rewrite <- exec_nil.
Qed.

Lemma reg_spec n l c cx name :
  service_of n c cx → names_repr (nd_handles n) l → hs_name_cap (nd_handles n) ≤ 2 ^ 29 →
  (∀ e, e ∈ l → hn_name e ≠ name) →
  ∃ hs l', cmd_reg c (dot :: name) n = Some (Some name, set_handles hs n, []) ∧
    names_repr hs l' ∧ mkName name (cx_handle cx) ∈ l' ∧ service_of (set_handles hs n) c cx.
Proof.
  intros [Hc W Hreg Hh] Hl Hcap Hno.
  destruct (namehandle_spec _ _ (cx_handle cx) name Hl Hcap) as [[(e & He & En) _]|(_ & p & hs & E & Hl' & Hsl & Hsz)]; [by destruct (Hno e)|].
  destruct (namehandle_inv _ _ _ _ _ E) as (E1 & E2 & E3 & E4).
  exists hs, (take p l ++ mkName name (cx_handle cx) :: drop p l). split; [|split; [done|split]].
  - unfold cmd_reg, handles. rewrite (exec_nil (_ ≫= _)), (exec_context_of _ _ _ _ _ Hc). rewrite Z.eqb_refl.
    by rewrite exec_state, E, exec_lift, exec_put, exec_mret.
  - apply elem_of_app. right. by left.
  - split; try done; cbn.
    + by eapply hs_wf_names.
    + unfold registered in *. by rewrite Hsl.
    + by rewrite E3.
Qed.

Lemma query_spec n name h : skynet_handle_findname name (nd_handles n) = Some h →
  cmd_query (dot :: name) n = Some (if h =? 0 then None else Some (handle_text h), n, []).
Proof.
  intros Hf. unfold cmd_query, findname. rewrite Z.eqb_refl.
  by rewrite (exec_nil (_ ≫= _)), exec_assoc, exec_state, Hf, exec_lift, exec_mret.
Qed.

Lemma kill_spec n l c cx d dx name :
  service_of n c cx → nd_contexts n !! d = Some dx → nd_monitor_exit n = 0 →
  names_repr (nd_handles n) l → mkName name (cx_handle cx) ∈ l →
  ∃ hs, cmd_kill d (dot :: name) n = Some (None, set_handles hs n, [ERelease c]) ∧
    skynet_handle_findname name hs = Some 0 ∧ skynet_handle_grab (hof n) (cx_handle cx) hs = Some None.
Proof.
  intros Hs Hd Hm Hl Hin. destruct (service_handle n c cx Hs) as (Hr & _ & _). pose proof Hs as [Hc W Hreg Hh].
  destruct (retire_forgets _ _ _ c W Hl Hreg) as (hs & E & Hg & _ & Hf).
  pose proof (hof_lookup n c cx Hc) as Eh. rewrite Eh in *. exists hs. split; [|split; [|done]].
  - destruct (findname_spec _ _ name Hl) as (h & Efn & H1 & _). rewrite (H1 _ Hin eq_refl) in Efn. cbn [hn_handle] in Efn.
    unfold cmd_kill, tohandle, skynet_queryname, findname. change (dot =? colon) with false. rewrite Z.eqb_refl. cbn beta iota.
    rewrite (exec_nil (_ ≫= _)), exec_assoc, exec_state, Efn, exec_lift, (proj2 (Z.eqb_neq _ _)) by lia.
    unfold handle_exit. rewrite exec_assoc, (exec_context_of _ _ _ _ _ Hd), (proj2 (Z.eqb_neq _ _)) by lia.
    rewrite exec_assoc, exec_state, Hm. change (0 =? 0) with true. cbn beta iota. rewrite exec_assoc, exec_ret_bind.
    unfold handles. rewrite exec_assoc, exec_assoc, exec_state, exec_assoc, E, exec_lift, exec_assoc, exec_put, exec_ret_bind.
    by rewrite exec_emits, exec_mret.
  - specialize (Hf _ Hin). cbn in Hf. by rewrite Z.eqb_refl in Hf.
Qed.

(** C36: when a service registers a free name, every other service finds its
    address under the name, and a message to the name or to the address in text goes to
    its queue with the right sender; when another service kills it by the name, the
    registry drops exactly its reference, the name is unknown again, and a message to the
    old address is refused and its copy freed. *)
Theorem names_resolve n l c cx d dx name :
  service_of n c cx → service_of n d dx → names_repr (nd_handles n) l → hs_name_cap (nd_handles n) ≤ 2 ^ 29 →
  (∀ e, e ∈ l → hn_name e ≠ name) → nd_monitor_exit n = 0 →
  ∃ n1 n2,
    skynet_command c (str "REG") (dot :: name) n = Some (Some name, n1, []) ∧
    skynet_command d (str "QUERY") (dot :: name) n1 = Some (Some (handle_text (cx_handle cx)), n1, []) ∧
    (∀ addr source type session bytes, addr = dot :: name ∨ addr = handle_text (cx_handle cx) → plain type bytes →
       skynet_sendname d source addr type session (Some (Own bytes)) (Z.of_nat (List.length bytes)) n1 =
       Some (session, n1, [EAlloc (Copy bytes);
         EPush c (source_of source dx) session (Some (Copy bytes)) (typed_size type (Z.of_nat (List.length bytes)))])) ∧
    skynet_command d (str "KILL") (dot :: name) n1 = Some (None, n2, [ERelease c]) ∧
    skynet_command d (str "QUERY") (dot :: name) n2 = Some (None, n2, []) ∧
    (∀ source type session bytes, plain type bytes →
       skynet_sendname d source (handle_text (cx_handle cx)) type session (Some (Own bytes)) (Z.of_nat (List.length bytes)) n2 =
       Some (-1, n2, [EAlloc (Copy bytes); EFree (Copy bytes)])).
Proof.
  intros Hc Hd Hl Hcap Hno Hm. destruct (reg_spec n l c cx name Hc Hl Hcap Hno) as (hs & l' & Ereg & Hl' & Hin & Hc1).
  set (n1 := set_handles hs n) in *. pose proof (service_handle n1 c cx Hc1) as (Hr & Hrem & Hg).
  pose proof (service_handle n d dx Hd) as (Hrd & _ & _). pose proof (so_context _ _ _ Hd) as Hdx.
  destruct (findname_spec _ _ name Hl') as (h & Ef & H1 & _). rewrite (H1 _ Hin eq_refl) in Ef. cbn [hn_handle] in Ef.
  destruct (kill_spec n1 l' c cx d dx name Hc1 Hdx Hm Hl' Hin) as (hs2 & Ekill & Ef2 & Hg2).
  assert (∀ s, source_of (source_of s dx) dx = source_of s dx) as Hss.
  { intros s. unfold source_of. destruct (Z.eqb_spec s 0) as [->|Hn0]; [by destruct (cx_handle dx =? 0)|].
    by rewrite (proj2 (Z.eqb_neq _ _) Hn0). }
  exists n1, (set_handles hs2 n1). split; [exact Ereg|]. split; [|split; [|split; [exact Ekill|split]]].
  - change (skynet_command d (str "QUERY") (dot :: name)) with (cmd_query (dot :: name)).
    rewrite (query_spec n1 name _ Ef), (proj2 (Z.eqb_neq _ _)) by lia. done.
  - intros addr source type session bytes Ha Hp.
    assert (skynet_sendname d source addr type session (Some (Own bytes)) (Z.of_nat (List.length bytes)) n1 =
      skynet_send d (source_of source dx) (cx_handle cx) type session (Some (Own bytes)) (Z.of_nat (List.length bytes)) n1) as ->.
    { destruct Ha as [->| ->]; [eapply sendname_dot; [done|lia|done|lia]|apply sendname_text; [done|lia]]. }
    rewrite (send_plain n1 d dx _ _ type session bytes (Some c)) by (done || lia). by rewrite Hss.
  - change (skynet_command d (str "QUERY") (dot :: name)) with (cmd_query (dot :: name)).
    by rewrite (query_spec (set_handles hs2 n1) name 0 Ef2).
  - intros source type session bytes Hp. rewrite (sendname_text (set_handles hs2 n1) d dx) by (done || lia).
    by rewrite (send_plain (set_handles hs2 n1) d dx _ _ type session bytes None) by (done || lia).
Qed.

(** ** Two services of the node 5 *)

Definition demo_context (h : Z) : context := Context h 0 0 false 0 false false [] [].
Definition demo_node : node :=
  Node (set_slots 3 4 [None; Some 1%positive; Some 2%positive; None] (skynet_handle_init 5))
    {[1%positive := demo_context 83886081; 2%positive := demo_context 83886082]}
    83886080 true 0 ∅ 0 (λ _, false).

Lemma demo_node_ok : hs_wf (hof demo_node) (nd_handles demo_node) ∧ names_repr (nd_handles demo_node) [].
Proof.
  split.
  - split; cbn; [by exists 2|done|by exists 5|by vm_compute|].
    intros i ctx Hi. assert (i = 1 ∧ ctx = 1%positive ∨ i = 2 ∧ ctx = 2%positive) as [[-> ->]|[-> ->]]; [|by vm_compute..].
    unfold aget in Hi. destruct (Z.leb_spec 0 i); [|done].
    destruct (Z.to_nat i) as [|[|[|[|k]]]] eqn:Ek; cbn in Hi; simplify_eq; [left|right]; split; lia || done.
  - apply (names_repr_slots (skynet_handle_init 5)); done.
Qed.

Lemma demo_service c h :
  nd_contexts demo_node !! c = Some (demo_context h) → registered (nd_handles demo_node) c →
  service_of demo_node c (demo_context h).
Proof. intros. split; try done. apply demo_node_ok. Qed.

(** A copy is made and a session allocated for five bytes of the type 10. *)
Lemma messages_accounted_witness :
  let data := Some (Own [104; 101; 108; 108; 111]) in
  (∀ source dest, ∃ r n' es,
     skynet_send 1 source dest (10 + PTYPE_TAG_ALLOCSESSION) 0 data 5 demo_node = Some (r, n', es) ∧
     accounted demo_node (ToHandle dest) (10 + PTYPE_TAG_ALLOCSESSION) data r es) ∧
  (∀ source addr, ∃ r n' es,
     skynet_sendname 1 source addr (10 + PTYPE_TAG_ALLOCSESSION) 0 data 5 demo_node = Some (r, n', es) ∧
     accounted demo_node (resolve demo_node addr) (10 + PTYPE_TAG_ALLOCSESSION) data r es).
Proof.
  cbv zeta. apply (messages_accounted demo_node 1 (demo_context 83886081)).
  - split; try done; [apply demo_node_ok|]. split; [lia|]. split; [done|by eexists].
  - exists []. apply demo_node_ok.
Defined.

(** The service 1 registers as "db"; the service 2 uses the name. *)
Lemma names_resolve_witness :
  ∃ n1 n2,
    skynet_command 1 (str "REG") (dot :: str "db") demo_node = Some (Some (str "db"), n1, []) ∧
    skynet_command 2 (str "QUERY") (dot :: str "db") n1 = Some (Some (handle_text 83886081), n1, []) ∧
    (∀ addr source type session bytes, addr = dot :: str "db" ∨ addr = handle_text 83886081 → plain type bytes →
       skynet_sendname 2 source addr type session (Some (Own bytes)) (Z.of_nat (List.length bytes)) n1 =
       Some (session, n1, [EAlloc (Copy bytes);
         EPush 1 (source_of source (demo_context 83886082)) session (Some (Copy bytes)) (typed_size type (Z.of_nat (List.length bytes)))])) ∧
    skynet_command 2 (str "KILL") (dot :: str "db") n1 = Some (None, n2, [ERelease 1]) ∧
    skynet_command 2 (str "QUERY") (dot :: str "db") n2 = Some (None, n2, []) ∧
    (∀ source type session bytes, plain type bytes →
       skynet_sendname 2 source (handle_text 83886081) type session (Some (Own bytes)) (Z.of_nat (List.length bytes)) n2 =
       Some (-1, n2, [EAlloc (Copy bytes); EFree (Copy bytes)])).
Proof.
  apply (names_resolve demo_node [] 1 (demo_context 83886081) 2 (demo_context 83886082) (str "db")).
  - apply demo_service; [done|by exists 1].
  - apply demo_service; [done|by exists 2].
  - apply demo_node_ok.
  - by vm_compute.
  - intros e He. by apply elem_of_nil in He.
  - done.
Defined.
