(* ===== verification/Word32.v ===== *)
(** * 32-bit words

    [uint32_t] arithmetic: a word is a [Z] below 2^32; shifts left and sums wrap. *)
From S2P Require Import Prelude Bytes.
Local Open Scope Z_scope.

Declare Scope word_scope.
Delimit Scope word_scope with W.

Definition shl (x n : Z) : Z := wrap 32 (Z.shiftl x n).
Definition add32 (x y : Z) : Z := wrap 32 (x + y).
Definition not32 (x : Z) : Z := Z.lxor x 0xFFFFFFFF.

Infix "<<" := shl (at level 30, no associativity) : word_scope.
Infix ">>" := Z.shiftr (at level 30, no associativity) : word_scope.
Infix "&" := Z.land (at level 40, left associativity) : word_scope.
Infix "^^" := Z.lxor (at level 41, left associativity) : word_scope.
Infix "||" := Z.lor : word_scope.
Infix "+%" := add32 (at level 50, left associativity) : word_scope.
Notation "~~ x" := (not32 x) (at level 30, right associativity) : word_scope.

Definition w32 (x : Z) : Prop := 0 ≤ x < 2 ^ 32.

Lemma w32_bits x : 0 ≤ x → (∀ i, 32 ≤ i → Z.testbit x i = false) → w32 x.
Proof.
  intros H0 Hb. split; [done|]. destruct (Z.eq_dec x 0) as [->|Hx]; [done|].
  apply Z.log2_lt_pow2; [lia|]. destruct (Z.lt_ge_cases (Z.log2 x) 32) as [|Hl]; [done|].
  pose proof (Z.bit_log2 x ltac:(lia)) as Hl2. by rewrite Hb in Hl2 by done.
Qed.

Lemma w32_high x i : w32 x → 32 ≤ i → Z.testbit x i = false.
Proof. intros Hx Hi. rewrite <- (Z.mod_small x (2 ^ 32)) by exact Hx. apply Z.mod_pow2_bits_high. lia. Qed.

Lemma w32_wrap x : w32 (wrap 32 x).
Proof. apply wrap_range. lia. Qed.

Lemma shl_wrap x n : shl x n = wrap 32 (Z.shiftl x n).
Proof. done. Qed.

Lemma add32_comm x y : add32 x y = add32 y x.
Proof. unfold add32. by rewrite Z.add_comm. Qed.

(** Wrapping once is enough. *)
Lemma wrap_add_l w x y : wrap w (wrap w x + y) = wrap w (x + y).
Proof. unfold wrap. by rewrite Zplus_mod_idemp_l. Qed.

Lemma wrap_add_r w x y : wrap w (x + wrap w y) = wrap w (x + y).
Proof. unfold wrap. by rewrite Zplus_mod_idemp_r. Qed.

Lemma w32_shl x n : w32 (shl x n).
Proof. apply w32_wrap. Qed.

Lemma w32_shr x n : w32 x → 0 ≤ n → w32 (Z.shiftr x n).
Proof.
  intros Hx Hn. apply w32_bits; [by apply Z.shiftr_nonneg, Hx|]. intros i Hi.
  rewrite Z.shiftr_spec by lia. apply w32_high; [done|lia].
Qed.

Lemma w32_lxor x y : w32 x → w32 y → w32 (Z.lxor x y).
Proof.
  intros Hx Hy. apply w32_bits; [apply Z.lxor_nonneg; split; intros; [apply Hy|apply Hx]|].
  intros i Hi. by rewrite Z.lxor_spec, !w32_high.
Qed.

Lemma w32_lor x y : w32 x → w32 y → w32 (Z.lor x y).
Proof.
  intros Hx Hy. apply w32_bits; [apply Z.lor_nonneg; split; [apply Hx|apply Hy]|].
  intros i Hi. by rewrite Z.lor_spec, !w32_high.
Qed.

Lemma w32_land x y : w32 x → 0 ≤ y → w32 (Z.land x y).
Proof.
  intros Hx Hy. apply w32_bits; [apply Z.land_nonneg; by left; apply Hx|].
  intros i Hi. by rewrite Z.land_spec, w32_high.
Qed.

#[export] Hint Resolve w32_wrap w32_shl w32_shr w32_lxor w32_lor w32_land : w32.

(** Two words are equal when their bits are. *)
Lemma w32_ext x y : w32 x → w32 y → (∀ i, 0 ≤ i < 32 → Z.testbit x i = Z.testbit y i) → x = y.
Proof.
  intros Hx Hy H. apply Z.bits_inj'. intros i Hi.
  destruct (Z.lt_ge_cases i 32); [by apply H|]. by rewrite !w32_high.
Qed.

Lemma shl_bit x n i : 0 ≤ i < 32 → Z.testbit (shl x n) i = Z.testbit x (i - n).
Proof.
  intros Hi. unfold shl, wrap. rewrite Z.mod_pow2_bits_low by lia. apply Z.shiftl_spec. lia.
Qed.

Lemma shl_byte b n : byte_ok b → 0 ≤ n ≤ 24 → shl b n = b * 2 ^ n.
Proof.
  unfold byte_ok. intros Hb Hn. rewrite shl_wrap. rewrite Z.shiftl_mul_pow2 by lia. apply wrap_small.
  split; [nia|]. apply Z.lt_le_trans with (2 ^ 8 * 2 ^ n).
  - apply Z.mul_lt_mono_pos_r; [lia|exact (proj2 Hb)].
  - rewrite <- Z.pow_add_r by lia. apply Z.pow_le_mono_r; lia.
Qed.

(** ** Rotations *)

Definition rotl (x n : Z) : Z := Z.lor (shl x n) (Z.shiftr x (32 - n)).

Lemma w32_rotl x n : w32 x → n ≤ 32 → w32 (rotl x n).
Proof. intros. apply w32_lor; [apply w32_shl|]. apply w32_shr; [done|lia]. Qed.

Lemma rotl_bit x n i :
  w32 x → 0 ≤ n ≤ 32 → 0 ≤ i < 32 →
  Z.testbit (rotl x n) i = Z.testbit x (if i <? n then i + 32 - n else i - n).
Proof.
  intros Hx Hn Hi. unfold rotl. rewrite Z.lor_spec, shl_bit, Z.shiftr_spec by lia.
  destruct (Z.ltb_spec i n).
  - rewrite Z.testbit_neg_r by lia. cbn [orb]. f_equal. lia.
  - rewrite (w32_high x (i + (32 - n))) by (done || lia). apply orb_false_r.
Qed.

Lemma rotl_inverse x n : w32 x → 0 ≤ n ≤ 32 → rotl (rotl x n) (32 - n) = x.
Proof.
  intros Hx Hn. apply w32_ext; [apply w32_rotl; [by apply w32_rotl; [|lia]|lia]|done|]. intros i Hi.
  rewrite rotl_bit by (try apply w32_rotl; done || lia).
  destruct (Z.ltb_spec i (32 - n)); rewrite rotl_bit by (done || lia).
  - destruct (Z.ltb_spec (i + 32 - (32 - n)) n); [lia|]. f_equal. lia.
  - destruct (Z.ltb_spec (i - (32 - n)) n); [|lia]. f_equal. lia.
Qed.

Lemma land_word x : w32 x → Z.land x 0xFFFFFFFF = x.
Proof. intros Hx. rewrite (land_low x 32) by done. by apply Z.mod_small. Qed.
#[export] Hint Resolve w32_rotl : w32.
#[global] Arguments shl : simpl never.
#[global] Arguments add32 : simpl never.
#[global] Arguments not32 : simpl never.
#[global] Arguments Z.lxor : simpl never.
#[global] Opaque shl.
