(* ===== verification/Codec.v ===== *)
(** * Text codecs: lualib-src/lua-crypt.c, hexadecimal, base64 and xor

    Lua strings are lists of bytes, of less than 2^31 bytes.  The functions write
    to a buffer, [tmp] on the stack or a userdata; the result is [inl tt] for a
    Lua error. *)
From Stdlib Require Import Ascii String.
From S2P Require Import Prelude Bytes Buffer.
Local Open Scope Z_scope.

Definition chars (s : string) : list Z := map (λ a, Z.of_N (N_of_ascii a)) (list_ascii_of_string s).

Definition SMALL_CHUNK : Z := 256.

(** [tmp], or a userdata of [size] bytes when [big]. *)
Definition alloc_buffer (big : bool) (size : Z) : list Z :=
  replicate (Z.to_nat (if big then size else SMALL_CHUNK)) 0.

(** ** Hexadecimal *)

Definition hex : list Z := chars "0123456789abcdef".

Fixpoint tohex_loop (text : list Z) (i : Z) (buffer : list Z) : option (list Z) :=
  match text with
  | [] => Some buffer
  | t :: text =>
      hi ← aget hex (Z.shiftr t 4);
      buffer ← aset buffer (i * 2) hi;
      low ← aget hex (Z.land t 15);
      buffer ← aset buffer (i * 2 + 1) low;
      tohex_loop text (i + 1) buffer
  end.

Definition ltohex (text : list Z) : option (list Z) :=
  let sz := Z.of_nat (length text) in
  buffer ← tohex_loop text 0 (alloc_buffer (SMALL_CHUNK / 2 <? sz) (sz * 2));
  Some (take (Z.to_nat (sz * 2)) buffer).

(** The macro [HEX]: [tmp] is a signed char and the result goes to a [uint8_t]. *)
Definition HEX (c : Z) : Z :=
  let tmp := swrap 8 c in
  if (48 <=? tmp) && (tmp <=? 57) then wrap 8 (tmp - 48) else wrap 8 (tmp - 97 + 10).

Fixpoint fromhex_loop (text : list Z) (i : Z) (buffer : list Z) : option (unit + list Z) :=
  match text with
  | c1 :: c2 :: text =>
      let hi := HEX c1 in
      let low := HEX c2 in
      if (16 <? hi) || (16 <? low) then Some (inl tt)
      else
        buffer ← aset buffer (i / 2) (wrap 8 (Z.lor (Z.shiftl hi 4) low));
        fromhex_loop text (i + 2) buffer
  | _ => Some (inr buffer)
  end.

Definition lfromhex (text : list Z) : option (unit + list Z) :=
  let sz := Z.of_nat (length text) in
  if Z.land sz 1 =? 1 then Some (inl tt)
  else
    r ← fromhex_loop text 0 (alloc_buffer (SMALL_CHUNK * 2 <? sz) (sz / 2));
    Some (match r with inl e => inl e | inr buffer => inr (take (Z.to_nat (sz / 2)) buffer) end).

(** ** Base64 *)

Definition encoding : list Z := chars "ABCDEFGHIJKLMNOPQRSTUVWXYZabcdefghijklmnopqrstuvwxyz0123456789+/".

Definition EQ : Z := 61.

(** The loop over whole groups and the switch on the bytes left. *)
Fixpoint b64encode_loop (text : list Z) (j : Z) (buffer : list Z) : option (list Z) :=
  match text with
  | a :: b :: c :: text =>
      let v := Z.lor (Z.lor (Z.shiftl a 16) (Z.shiftl b 8)) c in
      e0 ← aget encoding (Z.shiftr v 18);
      e1 ← aget encoding (Z.land (Z.shiftr v 12) 63);
      e2 ← aget encoding (Z.land (Z.shiftr v 6) 63);
      e3 ← aget encoding (Z.land v 63);
      buffer ← write_at buffer j [e0; e1; e2; e3];
      b64encode_loop text (j + 4) buffer
  | [a] =>
      e0 ← aget encoding (Z.shiftr a 2);
      e1 ← aget encoding (Z.shiftl (Z.land a 3) 4);
      write_at buffer j [e0; e1; EQ; EQ]
  | [a; b] =>
      let v := Z.lor (Z.shiftl a 8) b in
      e0 ← aget encoding (Z.shiftr v 10);
      e1 ← aget encoding (Z.land (Z.shiftr v 4) 63);
      e2 ← aget encoding (Z.shiftl (Z.land v 15) 2);
      write_at buffer j [e0; e1; e2; EQ]
  | [] => Some buffer
  end.

(** The sizes of the two buffers are converted to [int]. *)
Definition lb64encode (text : list Z) : option (list Z) :=
  let encode_sz := swrap 32 ((Z.of_nat (length text) + 2) / 3 * 4) in
  buffer ← b64encode_loop text 0 (alloc_buffer (SMALL_CHUNK <? encode_sz) encode_sz);
  Some (take (Z.to_nat encode_sz) buffer).

Definition decoding : list Z :=
  [62;-1;-1;-1;63;52;53;54;55;56;57;58;59;60;61;-1;-1;-1;-2;-1;-1;-1;0;1;2;3;4;5;6;7;8;9;10;11;12;13;14;15;16;17;18;19;20;21;22;23;24;25;-1;-1;-1;-1;-1;-1;26;27;28;29;30;31;32;33;34;35;36;37;38;39;40;41;42;43;44;45;46;47;48;49;50;51].

Definition b64index (c : Z) : option Z :=
  if c <? 43 then Some (-1)
  else
    let c := c - 43 in
    if Z.of_nat (length decoding) <=? c then Some (-1) else aget decoding c.

(** The four codes of a group, [c] being those read: characters that are not in
    the alphabet are skipped, and the end of the text counts as ['=']. *)
Fixpoint b64group (text : list Z) (c : list Z) : option (list Z * list Z) :=
  if (length c =? 4)%nat then Some (c, text)
  else
    match text with
    | [] => Some (c ++ replicate (4 - length c) (-2), [])
    | t :: text =>
        x ← b64index t;
        if x =? -1 then b64group text c else b64group text (c ++ [x])
    end.

(** The switch on the number of codes that are padding. *)
Definition b64quad (c : list Z) : unit + list Z :=
  match c with
  | [c0; c1; c2; c3] =>
      match length (filter (λ x, x = -2) c) with
      | 0%nat =>
          let v := Z.lor (Z.lor (Z.lor (Z.shiftl c0 18) (Z.shiftl c1 12)) (Z.shiftl c2 6)) c3 in
          inr [wrap 8 (Z.shiftr v 16); Z.land (Z.shiftr v 8) 255; Z.land v 255]
      | 1%nat =>
          if negb (c3 =? -2) || negb (Z.land c2 3 =? 0) then inl tt
          else
            let v := Z.lor (Z.lor (Z.shiftl c0 10) (Z.shiftl c1 4)) (Z.shiftr c2 2) in
            inr [wrap 8 (Z.shiftr v 8); Z.land v 255]
      | 2%nat =>
          if negb (c3 =? -2) || negb (c2 =? -2) || negb (Z.land c1 15 =? 0) then inl tt
          else inr [wrap 8 (Z.lor (Z.shiftl c0 2) (Z.shiftr c1 4))]
      | _ => inl tt
      end
  | _ => inl tt
  end.

(** Every round reads a character. *)
Fixpoint b64decode_loop (fuel : nat) (text : list Z) (output : Z) (buffer : list Z)
    : option (unit + Z * list Z) :=
  match fuel with
  | O => None
  | S fuel =>
      match text with
      | [] => Some (inr (output, buffer))
      | _ =>
          '(c, text) ← b64group text [];
          match b64quad c with
          | inl e => Some (inl e)
          | inr bytes =>
              buffer ← write_at buffer output bytes;
              b64decode_loop fuel text (output + Z.of_nat (length bytes)) buffer
          end
      end
  end.

Definition lb64decode (text : list Z) : option (unit + list Z) :=
  let decode_sz := swrap 32 ((Z.of_nat (length text) + 3) / 4 * 3) in
  r ← b64decode_loop (S (length text)) text 0 (alloc_buffer (SMALL_CHUNK <? decode_sz) decode_sz);
  Some (match r with inl e => inl e | inr (output, buffer) => inr (take (Z.to_nat output) buffer) end).

(** ** lxor_str *)

Fixpoint xor_loop (s1 : list Z) (i : Z) (s2 : list Z) : option (list Z) :=
  match s1 with
  | [] => Some []
  | c :: s1 =>
      k ← aget s2 (i mod Z.of_nat (length s2));
      rest ← xor_loop s1 (i + 1) s2;
      Some (Z.lxor c k :: rest)
  end.

Definition lxor_str (s1 s2 : list Z) : option (unit + list Z) :=
  if Z.of_nat (length s2) =? 0 then Some (inl tt)
  else r ← xor_loop s1 0 s2; Some (inr r).

Example b64_hello : lb64encode (chars "Hello") = Some (chars "SGVsbG8=").
Proof. vm_compute. reflexivity. Qed.
Example b64_back : lb64decode (chars "SGVs bG8") = Some (inr (chars "Hello")).
Proof. vm_compute. reflexivity. Qed.
Example hex_back : lfromhex (chars "00ff") = Some (inr [0; 255]).
Proof. vm_compute. reflexivity. Qed.

(** ** Hexadecimal: round trip *)

Definition hex_byte (t : Z) : list Z :=
  match aget hex (Z.shiftr t 4), aget hex (Z.land t 15) with Some h, Some l => [h; l] | _, _ => [] end.

Definition hex_ok (t : Z) : bool :=
  match aget hex (Z.shiftr t 4), aget hex (Z.land t 15) with
  | Some h, Some l =>
      negb ((16 <? HEX h) || (16 <? HEX l)) && (wrap 8 (Z.lor (Z.shiftl (HEX h) 4) (HEX l)) =? t)
  | _, _ => false
  end.

Lemma hex_byte_spec t : byte_ok t → ∃ h l, aget hex (Z.shiftr t 4) = Some h ∧ aget hex (Z.land t 15) = Some l ∧
  hex_byte t = [h; l] ∧ (16 <? HEX h) || (16 <? HEX l) = false ∧ wrap 8 (Z.lor (Z.shiftl (HEX h) 4) (HEX l)) = t.
Proof.
  intros Ht. pose proof (byte_forall hex_ok ltac:(vm_compute; reflexivity) t Ht) as H. unfold hex_ok, hex_byte in *.
  destruct (aget hex (Z.shiftr t 4)) as [h|]; [|done]. destruct (aget hex (Z.land t 15)) as [l|]; [|done].
  apply andb_true_iff in H as [H1 H2]. exists h, l. repeat split; [by apply negb_true_iff|lia].
Qed.

Lemma tohex_loop_spec text out buffer :
  Forall byte_ok text → take (length out) buffer = out →
  (length out + 2 * length text ≤ length buffer)%nat → (length out mod 2 = 0)%nat →
  ∃ buffer', tohex_loop text (Z.of_nat (length out / 2)) buffer = Some buffer' ∧
    take (length out + 2 * length text) buffer' = out ++ concat (map hex_byte text).
Proof.
  intros Ht. revert out buffer. induction Ht as [|t text Ht Htext IH]; intros out buffer Ho Hl Hm; cbn [tohex_loop map concat].
  { exists buffer. cbn [length]. rewrite Nat.mul_0_r, Nat.add_0_r, app_nil_r. done. }
  pose proof (Nat.div_mod (length out) 2 ltac:(lia)) as Hd.
  destruct (hex_byte_spec t Ht) as (h & l & -> & -> & -> & _). cbn [mbind option_bind]. cbn [length] in Hl.
  replace (Z.of_nat (length out / 2) * 2) with (Z.of_nat (length out)) by lia.
  destruct (aset_append buffer out h Ho) as (b1 & -> & Hl1 & H1); [lia|]. cbn [mbind option_bind].
  destruct (aset_append b1 (out ++ [h]) l H1) as (b2 & E2 & Hl2 & H2); [rewrite length_app; cbn; lia|].
  rewrite length_app, Nat2Z.inj_add in E2. cbn [length] in E2. change (Z.of_nat 1) with 1 in E2. rewrite E2. cbn [mbind option_bind].
  rewrite <- app_assoc in H2. cbn [app] in H2.
  assert (length (out ++ [h; l]) = length out + 1 * 2)%nat as E3 by (rewrite length_app; done).
  destruct (IH (out ++ [h; l]) b2) as (b3 & E & H3); [done|lia|rewrite E3, Nat.Div0.mod_add; done|].
  exists b3. rewrite E3, Nat.div_add, Nat2Z.inj_add in E by lia. split; [done|].
  rewrite <- app_assoc in H3. rewrite <- H3. f_equal. cbn [length]. lia.
Qed.

Lemma length_hex text : Forall byte_ok text → length (concat (map hex_byte text)) = (2 * length text)%nat.
Proof.
  induction 1 as [|t text Ht Htext IH]; [done|]. cbn [map concat]. rewrite length_app, IH.
  destruct (hex_byte_spec t Ht) as (h & l & _ & _ & -> & _). cbn [length]. lia.
Qed.

Lemma ltohex_spec text : Forall byte_ok text → ltohex text = Some (concat (map hex_byte text)).
Proof.
  intros Ht. unfold ltohex.
  destruct (tohex_loop_spec text [] (alloc_buffer (SMALL_CHUNK / 2 <? Z.of_nat (length text)) (Z.of_nat (length text) * 2)))
    as (b & E & H); [done|done| |done|].
  { unfold alloc_buffer, SMALL_CHUNK. rewrite length_replicate. change (256 / 2) with 128. cbn [length].
    destruct (Z.ltb_spec 128 (Z.of_nat (length text))); lia. }
  change (Z.of_nat (length (@nil Z) / 2)) with 0 in E. rewrite E. cbn [mbind option_bind].
  cbn [length app] in H. rewrite <- H. do 2 f_equal. lia.
Qed.

Lemma fromhex_loop_spec text out buffer :
  Forall byte_ok text → take (length out) buffer = out → (length out + length text ≤ length buffer)%nat →
  ∃ buffer', fromhex_loop (concat (map hex_byte text)) (Z.of_nat (2 * length out)) buffer = Some (inr buffer') ∧
    take (length out + length text) buffer' = out ++ text.
Proof.
  intros Ht. revert out buffer. induction Ht as [|t text Ht Htext IH]; intros out buffer Ho Hl; cbn [map concat fromhex_loop].
  { exists buffer. cbn [length]. rewrite Nat.add_0_r, app_nil_r. done. }
  destruct (hex_byte_spec t Ht) as (h & l & _ & _ & -> & E1 & E2). cbn [app fromhex_loop length] in *. rewrite E1, E2.
  replace (Z.of_nat (2 * length out) / 2) with (Z.of_nat (length out))
    by (rewrite Nat2Z.inj_mul, Z.mul_comm, Z.div_mul by lia; done).
  destruct (aset_append buffer out t Ho) as (b1 & -> & Hl1 & H1); [lia|]. cbn [mbind option_bind].
  destruct (IH (out ++ [t]) b1) as (b2 & E & H2); [done|rewrite length_app; cbn; lia|].
  exists b2. rewrite length_app in E, H2. cbn [length] in E, H2.
  replace (Z.of_nat (2 * length out) + 2) with (Z.of_nat (2 * (length out + 1))) by lia. split; [done|].
  rewrite <- app_assoc in H2. cbn [app] in H2. rewrite <- H2. f_equal. lia.
Qed.

(** Hexadecimal encoding and decoding of any byte string succeed,
    stay in their buffers (on the stack or on the heap), and are inverse. *)
Lemma hex_roundtrip text :
  Forall byte_ok text → ∃ h, ltohex text = Some h ∧ length h = (2 * length text)%nat ∧ lfromhex h = Some (inr text).
Proof.
  intros Ht. rewrite ltohex_spec by done. eexists. split; [done|]. split; [by apply length_hex|].
  unfold lfromhex. rewrite length_hex by done.
  assert (Z.land (Z.of_nat (2 * length text)) 1 = 0) as ->.
  { change 1 with (2 ^ 1 - 1). rewrite land_mask by lia. change (2 ^ 1) with 2. rewrite Nat2Z.inj_mul, Z.mul_comm. apply Z_mod_mult. }
  change (0 =? 1) with false. cbn match.
  replace (Z.of_nat (2 * length text) / 2) with (Z.of_nat (length text))
    by (rewrite Nat2Z.inj_mul, Z.mul_comm, Z.div_mul by lia; done).
  destruct (fromhex_loop_spec text [] (alloc_buffer (SMALL_CHUNK * 2 <? Z.of_nat (2 * length text)) (Z.of_nat (length text))))
    as (b & E & H); [done|done| |].
  { unfold alloc_buffer, SMALL_CHUNK. rewrite length_replicate. change (256 * 2) with 512. cbn [length].
    destruct (Z.ltb_spec 512 (Z.of_nat (2 * length text))); lia. }
  change (Z.of_nat (2 * length (@nil Z))) with 0 in E. rewrite E. cbn [mbind option_bind length] in *.
  rewrite Nat2Z.id. rewrite Nat.add_0_l in H. by rewrite H.
Qed.

(** The guard of [lfromhex] lets 16 through: a text that is not hexadecimal,
    as "gg" or "W_", is decoded instead of rejected. *)
Theorem hexdecode_accepts_g :
  lfromhex (chars "gg") = Some (inr [16]) ∧ lfromhex (chars "W_") = Some (inr [8]).
Proof. vm_compute. done. Qed.

(** ** Base64: round trip *)

Definition code (n : Z) : Z := match aget encoding n with Some e => e | None => 0 end.

Definition code_ok (n : Z) : bool :=
  match aget encoding n, b64index (code n) with Some e, Some m => (e =? code n) && (m =? n) | _, _ => false end.

Lemma code_spec n : 0 ≤ n < 64 → aget encoding n = Some (code n) ∧ b64index (code n) = Some n.
Proof.
  intros Hn.
  assert (forallb code_ok (map Z.of_nat (seq 0 64)) = true) as H by (vm_compute; reflexivity).
  rewrite forallb_forall in H. specialize (H n). unfold code_ok in H.
  assert (In n (map Z.of_nat (seq 0 64))) as Hin by (apply in_map_iff; exists (Z.to_nat n); split; [lia|apply in_seq; lia]).
  specialize (H Hin). destruct (aget encoding n) as [e|]; [|done]. destruct (b64index (code n)) as [m|]; [|done].
  apply andb_true_iff in H as [H1 H2]. split; f_equal; lia.
Qed.

(** The six-bit codes of a text, and the number of ['='] that follow. *)
Fixpoint enc6 (text : list Z) : list Z :=
  match text with
  | a :: b :: c :: text =>
      a / 4 :: (a mod 4) * 16 + b / 16 :: (b mod 16) * 4 + c / 64 :: c mod 64 :: enc6 text
  | [a; b] => [a / 4; (a mod 4) * 16 + b / 16; (b mod 16) * 4]
  | [a] => [a / 4; (a mod 4) * 16]
  | [] => []
  end.

Fixpoint npad (text : list Z) : nat :=
  match text with
  | _ :: _ :: _ :: text => npad text
  | [_; _] => 1
  | [_] => 2
  | [] => 0
  end.

Lemma list3_ind (P : list Z → Prop) :
  P [] → (∀ a, P [a]) → (∀ a b, P [a; b]) → (∀ a b c l, P l → P (a :: b :: c :: l)) → ∀ l, P l.
Proof.
  intros H0 H1 H2 H3. fix IH 1. intros [|a [|b [|c l]]]; [apply H0|apply H1|apply H2|]. apply H3, IH.
Qed.

Lemma group_codes a b c :
  byte_ok a → byte_ok b → byte_ok c →
  let v := Z.lor (Z.lor (Z.shiftl a 16) (Z.shiftl b 8)) c in
  Z.shiftr v 18 = a / 4 ∧ Z.land (Z.shiftr v 12) 63 = (a mod 4) * 16 + b / 16 ∧
  Z.land (Z.shiftr v 6) 63 = (b mod 16) * 4 + c / 64 ∧ Z.land v 63 = c mod 64.
Proof.
  intros Ha Hb Hc v. unfold byte_ok in Ha, Hb, Hc.
  assert (v = a * 65536 + b * 256 + c) as ->.
  { unfold v. rewrite (Z.shiftl_mul_pow2 b) by lia. rewrite (lor_shiftl a) by (change (2 ^ 16) with 65536; change (2 ^ 8) with 256; lia).
    replace (a * 2 ^ 16 + b * 2 ^ 8) with ((a * 256 + b) * 2 ^ 8) by (change (2 ^ 16) with 65536; change (2 ^ 8) with 256; lia).
    rewrite <- Z.shiftl_mul_pow2, lor_shiftl by (done || lia). change (2 ^ 8) with 256. lia. }
  rewrite !Z.shiftr_div_pow2 by lia. rewrite !(land_low _ 6 63) by done.
  change (2 ^ 18) with 262144. change (2 ^ 12) with 4096. change (2 ^ 6) with 64.
  repeat split; Z.div_mod_to_equations; lia.
Qed.

Lemma quad3 a b c :
  byte_ok a → byte_ok b → byte_ok c →
  b64quad [a / 4; (a mod 4) * 16 + b / 16; (b mod 16) * 4 + c / 64; c mod 64] = inr [a; b; c].
Proof.
  unfold byte_ok. intros Ha Hb Hc. unfold b64quad.
  set (n0 := a / 4). set (n1 := (a mod 4) * 16 + b / 16). set (n2 := (b mod 16) * 4 + c / 64). set (n3 := c mod 64).
  assert (0 ≤ n0 < 64 ∧ 0 ≤ n1 < 64 ∧ 0 ≤ n2 < 64 ∧ 0 ≤ n3 < 64) as (H0 & H1 & H2 & H3).
  { unfold n0, n1, n2, n3. repeat split; Z.div_mod_to_equations; lia. }
  rewrite !filter_cons, !decide_False by lia. cbn [filter list_filter length].
  rewrite (lor_fields n0 n1 18 12), (lor_fields _ n2 12 6), lor_shiftl by (cbn; lia).
  change (2 ^ (18 - 12)) with 64. change (2 ^ (12 - 6)) with 64. change (2 ^ 6) with 64.
  assert (((n0 * 64 + n1) * 64 + n2) * 64 + n3 = a * 65536 + b * 256 + c) as ->.
  { unfold n0, n1, n2, n3. Z.div_mod_to_equations; lia. }
  unfold wrap. rewrite !(land_low _ 8 255) by done. rewrite !Z.shiftr_div_pow2 by lia.
  change (2 ^ 16) with 65536. change (2 ^ 8) with 256. apply f_equal. repeat (apply (f_equal2 cons); [Z.div_mod_to_equations; lia|]). done.
Qed.

Lemma quad2 a b :
  byte_ok a → byte_ok b → b64quad [a / 4; (a mod 4) * 16 + b / 16; (b mod 16) * 4; -2] = inr [a; b].
Proof.
  unfold byte_ok. intros Ha Hb. unfold b64quad.
  set (n0 := a / 4). set (n1 := (a mod 4) * 16 + b / 16). set (n2 := (b mod 16) * 4).
  assert (0 ≤ n0 < 64 ∧ 0 ≤ n1 < 64 ∧ 0 ≤ n2 < 64 ∧ n2 mod 4 = 0) as (H0 & H1 & H2 & H3).
  { unfold n0, n1, n2. repeat split; Z.div_mod_to_equations; lia. }
  rewrite !filter_cons, !(decide_False (P := _ = -2)) by lia. rewrite decide_True by done. cbn [filter list_filter length].
  change (-2 =? -2) with true. rewrite (land_low n2 2 3) by done.
  change (2 ^ 2) with 4. rewrite H3. change (0 =? 0) with true. cbn [negb orb].
  rewrite (Z.shiftr_div_pow2 n2 2), (lor_fields n0 n1 10 4) by (done || lia). change (2 ^ 2) with 4.
  rewrite lor_shiftl by (change (2 ^ 4) with 16; Z.div_mod_to_equations; lia).
  change (2 ^ (10 - 4)) with 64. change (2 ^ 4) with 16.
  assert ((n0 * 64 + n1) * 16 + n2 / 4 = a * 256 + b) as ->.
  { unfold n0, n1, n2. Z.div_mod_to_equations; lia. }
  unfold wrap. rewrite !(land_low _ 8 255) by done. rewrite !Z.shiftr_div_pow2 by lia.
  change (2 ^ 8) with 256. apply f_equal. repeat (apply (f_equal2 cons); [Z.div_mod_to_equations; lia|]). done.
Qed.

Lemma quad1 a : byte_ok a → b64quad [a / 4; (a mod 4) * 16; -2; -2] = inr [a].
Proof.
  intros Ha.
  pose proof (byte_forall (λ a, match b64quad [a / 4; (a mod 4) * 16; -2; -2] with inr [x] => x =? a | _ => false end)
    ltac:(vm_compute; reflexivity) a Ha) as H.
  cbn beta in H. destruct (b64quad _) as [|[|x [|]]]; try done. do 2 f_equal. lia.
Qed.

(** A group of codes, and one that the end of the text or ['='] completes. *)
Lemma b64group_code n rest c :
  0 ≤ n < 64 → (length c < 4)%nat → b64group (code n :: rest) c = b64group rest (c ++ [n]).
Proof.
  intros Hn Hc. cbn [b64group]. destruct (Nat.eqb_spec (length c) 4); [lia|].
  destruct (code_spec n Hn) as [_ ->]. cbn [mbind option_bind]. by rewrite (proj2 (Z.eqb_neq n (-1))) by lia.
Qed.

Lemma group4 n0 n1 n2 n3 rest :
  0 ≤ n0 < 64 → 0 ≤ n1 < 64 → 0 ≤ n2 < 64 → 0 ≤ n3 < 64 →
  b64group (code n0 :: code n1 :: code n2 :: code n3 :: rest) [] = Some ([n0; n1; n2; n3], rest).
Proof. intros. rewrite !b64group_code by (done || cbn; lia). by destruct rest. Qed.

Lemma group3 n0 n1 n2 q :
  0 ≤ n0 < 64 → 0 ≤ n1 < 64 → 0 ≤ n2 < 64 → (q ≤ 1)%nat →
  b64group (code n0 :: code n1 :: code n2 :: replicate q EQ) [] = Some ([n0; n1; n2; -2], []).
Proof.
  intros ? ? ? Hq. rewrite !b64group_code by (done || cbn; lia). destruct q as [|[|q]]; [done|done|lia].
Qed.

Lemma group2 n0 n1 q :
  0 ≤ n0 < 64 → 0 ≤ n1 < 64 → (q ≤ 2)%nat →
  b64group (code n0 :: code n1 :: replicate q EQ) [] = Some ([n0; n1; -2; -2], []).
Proof.
  intros ? ? Hq. rewrite !b64group_code by (done || cbn; lia). destruct q as [|[|[|q]]]; [done|done|done|lia].
Qed.

(** The codes are six bits wide. *)
Lemma codes_range a b c :
  byte_ok a → byte_ok b → byte_ok c →
  (0 ≤ a / 4 < 64) ∧ (0 ≤ (a mod 4) * 16 + b / 16 < 64) ∧ (0 ≤ (b mod 16) * 4 + c / 64 < 64) ∧ (0 ≤ c mod 64 < 64) ∧
  (0 ≤ (a mod 4) * 16 < 64) ∧ (0 ≤ (b mod 16) * 4 < 64).
Proof. unfold byte_ok. intros. repeat split; Z.div_mod_to_equations; lia. Qed.

Definition groups (text : list Z) : nat := (length text + 2) / 3.

Lemma groups_cons a b c text : groups (a :: b :: c :: text) = S (groups text).
Proof.
  unfold groups. cbn [length]. replace (S (S (S (length text))) + 2)%nat with (length text + 2 + 1 * 3)%nat by lia.
  rewrite Nat.div_add by lia. lia.
Qed.

Lemma length_enc6 text : (length (enc6 text) + npad text = 4 * groups text)%nat.
Proof.
  induction text as [|a|a b|a b c text IH] using list3_ind; [done..|]. rewrite groups_cons. cbn [enc6 npad length]. lia.
Qed.

Lemma length_npad text : (length text + npad text = 3 * groups text)%nat.
Proof.
  induction text as [|a|a b|a b c text IH] using list3_ind; [done..|]. rewrite groups_cons. cbn [npad length]. lia.
Qed.

Lemma npad_le text : (npad text ≤ 2)%nat.
Proof. induction text as [|a|a b|a b c text IH] using list3_ind; cbn [npad]; lia. Qed.

Lemma encode_loop_spec text out buffer :
  Forall byte_ok text → take (length out) buffer = out → (length out + 4 * groups text ≤ length buffer)%nat →
  ∃ buffer', b64encode_loop text (Z.of_nat (length out)) buffer = Some buffer' ∧
    take (length out + 4 * groups text) buffer' = out ++ map code (enc6 text) ++ replicate (npad text) EQ.
Proof.
  intros Ht. revert out buffer Ht. induction text as [|a|a b|a b c text IH] using list3_ind; intros out buffer Ht Ho Hl.
  - exists buffer. cbn. rewrite Nat.add_0_r, app_nil_r. done.
  - apply Forall_cons in Ht as [Ha _]. destruct (codes_range a 0 0 Ha) as (H0 & _ & _ & _ & H4 & _); [done..|].
    cbn [b64encode_loop]. rewrite Z.shiftr_div_pow2 by lia. change (2 ^ 2) with 4.
    rewrite (land_low a 2 3), Z.shiftl_mul_pow2 by done. change (2 ^ 2) with 4. change (2 ^ 4) with 16.
    rewrite (proj1 (code_spec _ H0)), (proj1 (code_spec _ H4)). cbn [mbind option_bind].
    destruct (write_append buffer out [code (a / 4); code (a mod 4 * 16); EQ; EQ] Ho Hl) as (b1 & -> & Hl1 & H1).
    exists b1. split; [done|]. rewrite length_app in H1. exact H1.
  - apply Forall_cons in Ht as [Ha [Hb _]%Forall_cons]. destruct (codes_range a b 0 Ha Hb) as (H0 & H2 & _ & _ & _ & H4); [done..|].
    cbn [b64encode_loop]. rewrite lor_shiftl by done. change (2 ^ 8) with 256.
    rewrite !Z.shiftr_div_pow2 by lia. rewrite (land_low _ 6 63), (land_low _ 4 15), Z.shiftl_mul_pow2 by done.
    change (2 ^ 10) with 1024. change (2 ^ 6) with 64. change (2 ^ 4) with 16. change (2 ^ 2) with 4.
    unfold byte_ok in *.
    assert ((a * 256 + b) / 1024 = a / 4) as -> by (Z.div_mod_to_equations; lia).
    assert ((a * 256 + b) / 16 mod 64 = a mod 4 * 16 + b / 16) as -> by (Z.div_mod_to_equations; lia).
    assert ((a * 256 + b) mod 16 = b mod 16) as -> by (Z.div_mod_to_equations; lia).
    rewrite (proj1 (code_spec _ H0)), (proj1 (code_spec _ H2)), (proj1 (code_spec _ H4)). cbn [mbind option_bind].
    destruct (write_append buffer out [code (a / 4); code (a mod 4 * 16 + b / 16); code (b mod 16 * 4); EQ] Ho Hl) as (b1 & -> & Hl1 & H1).
    exists b1. split; [done|]. rewrite length_app in H1. exact H1.
  - rewrite groups_cons in *. apply Forall_cons in Ht as [Ha [Hb [Hc Ht]%Forall_cons]%Forall_cons].
    destruct (codes_range a b c Ha Hb Hc) as (H0 & H2 & H3 & H4 & _ & _). cbn [b64encode_loop].
    destruct (group_codes a b c Ha Hb Hc) as (-> & -> & -> & ->).
    rewrite (proj1 (code_spec _ H0)), (proj1 (code_spec _ H2)), (proj1 (code_spec _ H3)), (proj1 (code_spec _ H4)). cbn [mbind option_bind].
    match goal with |- context [write_at _ _ ?l] => set (quad := l) end.
    destruct (write_append buffer out quad Ho) as (b1 & -> & Hl1 & H1); [cbn; lia|]. cbn [mbind option_bind].
    destruct (IH (out ++ quad) b1 Ht H1) as (b2 & E & H5); [rewrite length_app; change (length quad) with 4%nat; lia|].
    exists b2. rewrite length_app in E, H5. change (length quad) with 4%nat in E, H5. rewrite Nat2Z.inj_add in E.
    split; [exact E|]. replace (length out + 4 * S (groups text))%nat with (length out + 4 + 4 * groups text)%nat by lia.
    rewrite H5. unfold quad. cbn [enc6 npad map]. rewrite <- app_assoc. done.
Qed.

Lemma decode_loop_spec fuel text out buffer q :
  Forall byte_ok text → take (length out) buffer = out → (length out + length text ≤ length buffer)%nat →
  (q ≤ npad text)%nat → (length text < fuel)%nat →
  ∃ buffer', b64decode_loop fuel (map code (enc6 text) ++ replicate q EQ) (Z.of_nat (length out)) buffer =
      Some (inr (Z.of_nat (length (out ++ text)), buffer')) ∧ take (length (out ++ text)) buffer' = out ++ text.
Proof.
  intros Ht. revert fuel out buffer Ht.
  induction text as [|a|a b|a b c text IH] using list3_ind; intros fuel out buffer Ht Ho Hl Hq Hf.
  - exists buffer. rewrite app_nil_r. cbn [npad] in Hq. destruct q; [|lia]. by destruct fuel as [|fuel]; [cbn in Hf; lia|].
  - apply Forall_cons in Ht as [Ha _]. destruct (codes_range a 0 0 Ha) as (H0 & _ & _ & _ & H4 & _); [done..|].
    destruct fuel as [|fuel]; [lia|]. cbn [enc6 map app b64decode_loop]. rewrite group2 by done. cbn [mbind option_bind].
    rewrite quad1 by done. destruct (write_append buffer out [a] Ho Hl) as (b1 & -> & Hl1 & H1). cbn [mbind option_bind].
    exists b1. destruct fuel as [|fuel]; [cbn in Hf; lia|]. rewrite length_app, Nat2Z.inj_add in *. done.
  - apply Forall_cons in Ht as [Ha [Hb _]%Forall_cons]. destruct (codes_range a b 0 Ha Hb) as (H0 & H2 & _ & _ & _ & H4); [done..|].
    destruct fuel as [|fuel]; [lia|]. cbn [enc6 map app b64decode_loop]. rewrite group3 by done. cbn [mbind option_bind].
    rewrite quad2 by done. destruct (write_append buffer out [a; b] Ho Hl) as (b1 & -> & Hl1 & H1). cbn [mbind option_bind].
    exists b1. destruct fuel as [|fuel]; [cbn in Hf; lia|]. rewrite length_app, Nat2Z.inj_add in *. done.
  - apply Forall_cons in Ht as [Ha [Hb [Hc Ht]%Forall_cons]%Forall_cons].
    destruct (codes_range a b c Ha Hb Hc) as (H0 & H2 & H3 & H4 & _ & _). cbn [length npad] in *.
    destruct fuel as [|fuel]; [lia|]. cbn [enc6 map app b64decode_loop]. rewrite group4 by done. cbn [mbind option_bind].
    rewrite quad3 by done. destruct (write_append buffer out [a; b; c] Ho) as (b1 & -> & Hl1 & H1); [cbn; lia|]. cbn [mbind option_bind].
    destruct (IH fuel (out ++ [a; b; c]) b1 Ht H1) as (b2 & E & H5); [rewrite length_app; cbn; lia|done|lia|].
    exists b2. rewrite <- app_assoc in E, H5. cbn [app] in E, H5. split; [|done].
    rewrite <- E. f_equal. rewrite length_app, Nat2Z.inj_add. done.
Qed.

(** C37: encoding a byte string of at most 1610612733 bytes succeeds within its buffer,
    with 4 characters for every 3 bytes; decoding gives the string back, with the ['=']
    that the encoding ends with or with any number of them left out. For a longer one the
    size of the encoding is more than an int can hold: base64_overflows. *)
Theorem base64_roundtrip text :
  Forall byte_ok text → Z.of_nat (length text) ≤ 1610612733 →
  ∃ body p, lb64encode text = Some (body ++ replicate p EQ) ∧ length (body ++ replicate p EQ) = (4 * groups text)%nat ∧
    (p ≤ 2)%nat ∧ ∀ q, (q ≤ p)%nat → lb64decode (body ++ replicate q EQ) = Some (inr text).
Proof.
  intros Ht Hmax. exists (map code (enc6 text)), (npad text).
  pose proof (length_enc6 text) as Hlen. pose proof (npad_le text) as Hp.
  assert ((Z.of_nat (length text) + 2) / 3 = Z.of_nat (groups text)) as Hg.
  { unfold groups. rewrite Nat2Z.inj_div. f_equal. lia. }
  pose proof (length_npad text) as Hg3.
  split; [|split; [rewrite length_app, length_map, length_replicate; lia|split; [done|]]].
  - unfold lb64encode. rewrite Hg, swrap_small by lia.
    destruct (encode_loop_spec text [] (alloc_buffer (SMALL_CHUNK <? Z.of_nat (groups text) * 4) (Z.of_nat (groups text) * 4)) Ht) as (b & E & H); [done| |].
    { unfold alloc_buffer, SMALL_CHUNK. rewrite length_replicate. cbn [length].
      destruct (Z.ltb_spec 256 (Z.of_nat (groups text) * 4)); lia. }
    change (Z.of_nat (length (@nil Z))) with 0 in E. rewrite E. cbn [mbind option_bind length app] in *. rewrite <- H.
    do 2 f_equal. lia.
  - intros q Hq. unfold lb64decode. rewrite length_app, length_map, length_replicate.
    rewrite swrap_small by (Z.div_mod_to_equations; lia).
    set (size := (Z.of_nat (length (enc6 text) + q) + 3) / 4 * 3).
    destruct (decode_loop_spec (S (length (enc6 text) + q)) text [] (alloc_buffer (SMALL_CHUNK <? size) size) q Ht) as (b & E & H);
      [done| |done| |].
    { unfold alloc_buffer, SMALL_CHUNK. rewrite length_replicate. cbn [length].
      assert (Z.of_nat (length text) ≤ size) by (unfold size; Z.div_mod_to_equations; lia).
      destruct (Z.ltb_spec 256 size); lia. }
    { lia. }
    change (Z.of_nat (length (@nil Z))) with 0 in E. rewrite E. cbn [mbind option_bind app] in *. by rewrite Nat2Z.id, H.
Qed.

Lemma base64_roundtrip_witness :
  Forall byte_ok [0; 255; 7; 8] ∧ ∃ body p, lb64encode [0; 255; 7; 8] = Some (body ++ replicate p EQ) ∧
    length (body ++ replicate p EQ) = (4 * groups [0; 255; 7; 8]%Z)%nat ∧ (p ≤ 2)%nat ∧
    ∀ q, (q ≤ p)%nat → lb64decode (body ++ replicate q EQ) = Some (inr [0; 255; 7; 8]).
Proof.
  assert (Forall byte_ok [0; 255; 7; 8]) as H by (repeat constructor; unfold byte_ok; lia).
  split; [exact H|]. apply (base64_roundtrip [0; 255; 7; 8] H). cbn. lia.
Defined.

(** What is written ends within the buffer. *)
Lemma encode_loop_room text j buffer buffer' :
  Forall byte_ok text → 0 ≤ j → b64encode_loop text j buffer = Some buffer' →
  text = [] ∨ j + 4 * Z.of_nat (groups text) ≤ Z.of_nat (length buffer).
Proof.
  assert (∀ b p l b', write_at b p l = Some b' → 0 ≤ p → p + Z.of_nat (length l) ≤ Z.of_nat (length b) ∧ length b' = length b) as Hw.
  { intros b p l b' E Hp. destruct (Z.le_gt_cases (p + Z.of_nat (length l)) (Z.of_nat (length b))) as [H|H].
    - destruct (write_at_spec b p l Hp H) as (b2 & E2 & Hl & _). by simplify_eq.
    - unfold write_at in E. rewrite (proj2 (Z.leb_gt (p + _) _) H), andb_false_r in E. done. }
  revert j buffer. induction text as [|a|a b|a b c text IH] using list3_ind; intros j buffer Ht Hj E; [by left|right..].
  - cbn [b64encode_loop] in E. bind_inv. edestruct Hw as [Hr _]; [done..|]. exact Hr.
  - cbn [b64encode_loop] in E. bind_inv. edestruct Hw as [Hr _]; [done..|]. exact Hr.
  - rewrite groups_cons. cbn [b64encode_loop] in E. bind_inv.
    edestruct Hw as [Hr1 Hr2]; [done|done|]. cbn [length] in Hr1.
    do 3 apply Forall_cons in Ht as [_ Ht].
    match goal with H : b64encode_loop text _ _ = Some _ |- _ => apply IH in H as [->|Hr]; [| |done|lia] end.
    + change (groups []) with 0%nat. lia.
    + rewrite Hr2 in Hr. lia.
Qed.

(** A larger string writes outside of the buffer: the size is negative, so that the 256
    bytes on the stack are used. *)
Lemma base64_overflows text :
  Forall byte_ok text → 1610612733 < Z.of_nat (length text) < 2 ^ 31 → lb64encode text = None.
Proof.
  intros Ht Hl. unfold lb64encode. assert ((Z.of_nat (length text) + 2) / 3 = Z.of_nat (groups text)) as ->.
  { unfold groups. rewrite Nat2Z.inj_div. f_equal. lia. }
  pose proof (length_npad text) as Hn. pose proof (npad_le text).
  assert (swrap 32 (Z.of_nat (groups text) * 4) < 0) as Hneg.
  { unfold swrap. change (2 ^ (32 - 1)) with 2147483648. change (2 ^ 32) with 4294967296.
    rewrite mod_once by lia. destruct (Z.ltb_spec (Z.of_nat (groups text) * 4 + 2147483648) 4294967296); lia. }
  unfold alloc_buffer, SMALL_CHUNK. rewrite (proj2 (Z.ltb_ge _ _)) by lia.
  destruct (b64encode_loop text 0 _) as [b|] eqn:E; [|done]. exfalso.
  apply encode_loop_room in E as [->|E]; [cbn in Hl; lia| |done|lia].
  rewrite length_replicate in E. lia.
Qed.

(** ** Base64: any input *)

Lemma b64index_total t : byte_ok t → ∃ x, b64index t = Some x.
Proof.
  intros Ht.
  pose proof (byte_forall (λ t, match b64index t with Some _ => true | None => false end) ltac:(vm_compute; reflexivity) t Ht) as H.
  cbn beta in H. destruct (b64index t) as [x|]; [by exists x|done].
Qed.

(** A group takes four characters at least, or all that are left. *)
Lemma b64group_total text c :
  Forall byte_ok text → (length c ≤ 4)%nat →
  ∃ c' rest, b64group text c = Some (c', rest) ∧ Forall byte_ok rest ∧
    (rest = [] ∨ length rest + (4 - length c) ≤ length text)%nat.
Proof.
  intros Ht. revert c. induction Ht as [|t text Ht Htext IH]; intros c Hc; cbn [b64group].
  { destruct (length c =? 4)%nat; eexists _, _; (split; [done|]; split; [constructor|by left]). }
  destruct (Nat.eqb_spec (length c) 4) as [->|Hne].
  { eexists _, _. split; [done|]. split; [by constructor|]. right. lia. }
  destruct (b64index_total t Ht) as [x ->]. cbn [mbind option_bind length].
  destruct (x =? -1).
  - destruct (IH c Hc) as (c' & rest & E & Hr & H). exists c', rest. split; [done|]. split; [done|]. destruct H; [by left|right; lia].
  - destruct (IH (c ++ [x])) as (c' & rest & E & Hr & H); [rewrite length_app; cbn; lia|].
    exists c', rest. split; [done|]. split; [done|]. rewrite length_app in H. cbn [length] in H. destruct H; [by left|right; lia].
Qed.

Lemma b64quad_length c bytes : b64quad c = inr bytes → (length bytes ≤ 3)%nat.
Proof.
  unfold b64quad. intros H. repeat case_match; simplify_eq; cbn [length]; lia.
Qed.

Lemma decode_loop_total fuel text output buffer :
  Forall byte_ok text → 0 ≤ output → (length text < fuel)%nat →
  output + (Z.of_nat (length text) + 3) / 4 * 3 ≤ Z.of_nat (length buffer) →
  ∃ r, b64decode_loop fuel text output buffer = Some r ∧
    match r with inl _ => True | inr (n, buffer') => n ≤ Z.of_nat (length buffer') end.
Proof.
  revert text output buffer. induction fuel as [|fuel IH]; intros text output buffer Ht H0 Hf Hl; [lia|].
  cbn [b64decode_loop]. destruct text as [|t text].
  { eexists. split; [done|]. change ((Z.of_nat (length (@nil Z)) + 3) / 4 * 3) with 0 in Hl. cbv beta iota. lia. }
  destruct (b64group_total (t :: text) [] Ht) as (c & rest & -> & Hr & Hlen); [cbn; lia|]. cbn [mbind option_bind length] in *.
  destruct (b64quad c) as [e|bytes] eqn:Eq; [by eexists|]. apply b64quad_length in Eq.
  assert ((Z.of_nat (length rest) + 3) / 4 * 3 + 3 ≤ (Z.of_nat (S (length text)) + 3) / 4 * 3 ∧ (length rest < S (length text))%nat) as [Hd Hd'].
  { destruct Hlen as [->|Hlen]; cbn [length]; split; try lia; Z.div_mod_to_equations; lia. }
  assert (0 ≤ (Z.of_nat (length rest) + 3) / 4) by (apply Z.div_pos; lia).
  destruct (write_at_spec buffer output bytes) as (b1 & -> & Hl1 & _); [done|lia|]. cbn [mbind option_bind].
  apply IH; [done|lia|lia|lia].
Qed.

(** Decoding never writes outside the buffer it allocates and
    never loops, whatever the text of less than 2^31 bytes: characters that are not in the alphabet, too
    few or too many ['='] and a text cut anywhere give a result or a Lua error. *)
Theorem base64_decode_safe text :
  Forall byte_ok text → Z.of_nat (length text) < 2 ^ 31 → ∃ r, lb64decode text = Some r.
Proof.
  intros Ht Hmax. unfold lb64decode. rewrite swrap_small by (Z.div_mod_to_equations; lia). set (size := (Z.of_nat (length text) + 3) / 4 * 3).
  destruct (decode_loop_total (S (length text)) text 0 (alloc_buffer (SMALL_CHUNK <? size) size) Ht) as (r & -> & _);
    [done|lia| |by eexists].
  unfold alloc_buffer, SMALL_CHUNK. rewrite length_replicate. fold size. destruct (Z.ltb_spec 256 size); lia.
Qed.

Lemma base64_decode_safe_witness : ∃ r, lb64decode [61; 81; 10; 255] = Some r.
Proof. apply (base64_decode_safe [61; 81; 10; 255]); [repeat constructor; unfold byte_ok; lia|cbn; lia]. Defined.

(** ** lxor_str *)

Lemma xor_loop_spec s1 i s2 :
  s2 ≠ [] → ∃ r, xor_loop s1 i s2 = Some r ∧ xor_loop r i s2 = Some s1 ∧ length r = length s1.
Proof.
  intros Hs. revert i. induction s1 as [|c s1 IH]; intros i; [by exists []|]. cbn [xor_loop].
  destruct (aget_is_Some s2 (i mod Z.of_nat (length s2))) as [k Hk].
  { apply Z.mod_pos_bound. destruct s2; [done|cbn; lia]. }
  rewrite Hk. cbn [mbind option_bind]. destruct (IH (i + 1)) as (r & -> & E & Hl). cbn [mbind option_bind].
  eexists. split; [done|]. cbn [xor_loop length]. rewrite Hk. cbn [mbind option_bind]. rewrite E. cbn [mbind option_bind].
  split; [|by f_equal]. do 2 f_equal. by rewrite Z.lxor_assoc, Z.lxor_nilpotent, Z.lxor_0_r.
Qed.

(** [xor_str] with a key of any length but 0 keeps the length and is
    its own inverse; with the empty key it is a Lua error, and no key index is out of range. *)
Lemma xor_str_involutive s key :
  match key with
  | [] => lxor_str s key = Some (inl tt)
  | _ => ∃ r, lxor_str s key = Some (inr r) ∧ length r = length s ∧ lxor_str r key = Some (inr s)
  end.
Proof.
  destruct key as [|k key]; [done|]. destruct (xor_loop_spec s 0 (k :: key)) as (r & E1 & E2 & Hl); [done|].
  exists r. unfold lxor_str. rewrite E1, E2. done.
Qed.
