(* ===== verification/Des.v ===== *)
(** * DES: lualib-src/lua-crypt.c, [desencode] and [desdecode]

    The S-box tables, the key schedule, the block function and the two Lua
    functions with their padding modes.  [inl tt] is a Lua error and [None] an
    access outside an array. *)
From S2P Require Import Prelude Bytes Buffer Word32.
Local Open Scope Z_scope.

Definition SB1 : list Z :=
  [0x01010400; 0x00000000; 0x00010000; 0x01010404;
   0x01010004; 0x00010404; 0x00000004; 0x00010000;
   0x00000400; 0x01010400; 0x01010404; 0x00000400;
   0x01000404; 0x01010004; 0x01000000; 0x00000004;
   0x00000404; 0x01000400; 0x01000400; 0x00010400;
   0x00010400; 0x01010000; 0x01010000; 0x01000404;
   0x00010004; 0x01000004; 0x01000004; 0x00010004;
   0x00000000; 0x00000404; 0x00010404; 0x01000000;
   0x00010000; 0x01010404; 0x00000004; 0x01010000;
   0x01010400; 0x01000000; 0x01000000; 0x00000400;
   0x01010004; 0x00010000; 0x00010400; 0x01000004;
   0x00000400; 0x00000004; 0x01000404; 0x00010404;
   0x01010404; 0x00010004; 0x01010000; 0x01000404;
   0x01000004; 0x00000404; 0x00010404; 0x01010400;
   0x00000404; 0x01000400; 0x01000400; 0x00000000;
   0x00010004; 0x00010400; 0x00000000; 0x01010004].

Definition SB2 : list Z :=
  [0x80108020; 0x80008000; 0x00008000; 0x00108020;
   0x00100000; 0x00000020; 0x80100020; 0x80008020;
   0x80000020; 0x80108020; 0x80108000; 0x80000000;
   0x80008000; 0x00100000; 0x00000020; 0x80100020;
   0x00108000; 0x00100020; 0x80008020; 0x00000000;
   0x80000000; 0x00008000; 0x00108020; 0x80100000;
   0x00100020; 0x80000020; 0x00000000; 0x00108000;
   0x00008020; 0x80108000; 0x80100000; 0x00008020;
   0x00000000; 0x00108020; 0x80100020; 0x00100000;
   0x80008020; 0x80100000; 0x80108000; 0x00008000;
   0x80100000; 0x80008000; 0x00000020; 0x80108020;
   0x00108020; 0x00000020; 0x00008000; 0x80000000;
   0x00008020; 0x80108000; 0x00100000; 0x80000020;
   0x00100020; 0x80008020; 0x80000020; 0x00100020;
   0x00108000; 0x00000000; 0x80008000; 0x00008020;
   0x80000000; 0x80100020; 0x80108020; 0x00108000].

Definition SB3 : list Z :=
  [0x00000208; 0x08020200; 0x00000000; 0x08020008;
   0x08000200; 0x00000000; 0x00020208; 0x08000200;
   0x00020008; 0x08000008; 0x08000008; 0x00020000;
   0x08020208; 0x00020008; 0x08020000; 0x00000208;
   0x08000000; 0x00000008; 0x08020200; 0x00000200;
   0x00020200; 0x08020000; 0x08020008; 0x00020208;
   0x08000208; 0x00020200; 0x00020000; 0x08000208;
   0x00000008; 0x08020208; 0x00000200; 0x08000000;
   0x08020200; 0x08000000; 0x00020008; 0x00000208;
   0x00020000; 0x08020200; 0x08000200; 0x00000000;
   0x00000200; 0x00020008; 0x08020208; 0x08000200;
   0x08000008; 0x00000200; 0x00000000; 0x08020008;
   0x08000208; 0x00020000; 0x08000000; 0x08020208;
   0x00000008; 0x00020208; 0x00020200; 0x08000008;
   0x08020000; 0x08000208; 0x00000208; 0x08020000;
   0x00020208; 0x00000008; 0x08020008; 0x00020200].

Definition SB4 : list Z :=
  [0x00802001; 0x00002081; 0x00002081; 0x00000080;
   0x00802080; 0x00800081; 0x00800001; 0x00002001;
   0x00000000; 0x00802000; 0x00802000; 0x00802081;
   0x00000081; 0x00000000; 0x00800080; 0x00800001;
   0x00000001; 0x00002000; 0x00800000; 0x00802001;
   0x00000080; 0x00800000; 0x00002001; 0x00002080;
   0x00800081; 0x00000001; 0x00002080; 0x00800080;
   0x00002000; 0x00802080; 0x00802081; 0x00000081;
   0x00800080; 0x00800001; 0x00802000; 0x00802081;
   0x00000081; 0x00000000; 0x00000000; 0x00802000;
   0x00002080; 0x00800080; 0x00800081; 0x00000001;
   0x00802001; 0x00002081; 0x00002081; 0x00000080;
   0x00802081; 0x00000081; 0x00000001; 0x00002000;
   0x00800001; 0x00002001; 0x00802080; 0x00800081;
   0x00002001; 0x00002080; 0x00800000; 0x00802001;
   0x00000080; 0x00800000; 0x00002000; 0x00802080].

Definition SB5 : list Z :=
  [0x00000100; 0x02080100; 0x02080000; 0x42000100;
   0x00080000; 0x00000100; 0x40000000; 0x02080000;
   0x40080100; 0x00080000; 0x02000100; 0x40080100;
   0x42000100; 0x42080000; 0x00080100; 0x40000000;
   0x02000000; 0x40080000; 0x40080000; 0x00000000;
   0x40000100; 0x42080100; 0x42080100; 0x02000100;
   0x42080000; 0x40000100; 0x00000000; 0x42000000;
   0x02080100; 0x02000000; 0x42000000; 0x00080100;
   0x00080000; 0x42000100; 0x00000100; 0x02000000;
   0x40000000; 0x02080000; 0x42000100; 0x40080100;
   0x02000100; 0x40000000; 0x42080000; 0x02080100;
   0x40080100; 0x00000100; 0x02000000; 0x42080000;
   0x42080100; 0x00080100; 0x42000000; 0x42080100;
   0x02080000; 0x00000000; 0x40080000; 0x42000000;
   0x00080100; 0x02000100; 0x40000100; 0x00080000;
   0x00000000; 0x40080000; 0x02080100; 0x40000100].

Definition SB6 : list Z :=
  [0x20000010; 0x20400000; 0x00004000; 0x20404010;
   0x20400000; 0x00000010; 0x20404010; 0x00400000;
   0x20004000; 0x00404010; 0x00400000; 0x20000010;
   0x00400010; 0x20004000; 0x20000000; 0x00004010;
   0x00000000; 0x00400010; 0x20004010; 0x00004000;
   0x00404000; 0x20004010; 0x00000010; 0x20400010;
   0x20400010; 0x00000000; 0x00404010; 0x20404000;
   0x00004010; 0x00404000; 0x20404000; 0x20000000;
   0x20004000; 0x00000010; 0x20400010; 0x00404000;
   0x20404010; 0x00400000; 0x00004010; 0x20000010;
   0x00400000; 0x20004000; 0x20000000; 0x00004010;
   0x20000010; 0x20404010; 0x00404000; 0x20400000;
   0x00404010; 0x20404000; 0x00000000; 0x20400010;
   0x00000010; 0x00004000; 0x20400000; 0x00404010;
   0x00004000; 0x00400010; 0x20004010; 0x00000000;
   0x20404000; 0x20000000; 0x00400010; 0x20004010].

Definition SB7 : list Z :=
  [0x00200000; 0x04200002; 0x04000802; 0x00000000;
   0x00000800; 0x04000802; 0x00200802; 0x04200800;
   0x04200802; 0x00200000; 0x00000000; 0x04000002;
   0x00000002; 0x04000000; 0x04200002; 0x00000802;
   0x04000800; 0x00200802; 0x00200002; 0x04000800;
   0x04000002; 0x04200000; 0x04200800; 0x00200002;
   0x04200000; 0x00000800; 0x00000802; 0x04200802;
   0x00200800; 0x00000002; 0x04000000; 0x00200800;
   0x04000000; 0x00200800; 0x00200000; 0x04000802;
   0x04000802; 0x04200002; 0x04200002; 0x00000002;
   0x00200002; 0x04000000; 0x04000800; 0x00200000;
   0x04200800; 0x00000802; 0x00200802; 0x04200800;
   0x00000802; 0x04000002; 0x04200802; 0x04200000;
   0x00200800; 0x00000000; 0x00000002; 0x04200802;
   0x00000000; 0x00200802; 0x04200000; 0x00000800;
   0x04000002; 0x04000800; 0x00000800; 0x00200002].

Definition SB8 : list Z :=
  [0x10001040; 0x00001000; 0x00040000; 0x10041040;
   0x10000000; 0x10001040; 0x00000040; 0x10000000;
   0x00040040; 0x10040000; 0x10041040; 0x00041000;
   0x10041000; 0x00041040; 0x00001000; 0x00000040;
   0x10040000; 0x10000040; 0x10001000; 0x00001040;
   0x00041000; 0x00040040; 0x10040040; 0x10041000;
   0x00001040; 0x00000000; 0x00000000; 0x10040040;
   0x10000040; 0x10001000; 0x00041040; 0x00040000;
   0x00041040; 0x00040000; 0x10041000; 0x00001000;
   0x00000040; 0x10040040; 0x00001000; 0x00041040;
   0x10001000; 0x00000040; 0x10000040; 0x10040000;
   0x10040040; 0x10000000; 0x00040000; 0x10001040;
   0x00000000; 0x10041040; 0x00040040; 0x10000040;
   0x10040000; 0x10001000; 0x10001040; 0x00000000;
   0x10041040; 0x00041000; 0x00041000; 0x00001040;
   0x00001040; 0x00040040; 0x10000000; 0x10041000].

Definition LHs : list Z :=
  [0x00000000; 0x00000001; 0x00000100; 0x00000101;
   0x00010000; 0x00010001; 0x00010100; 0x00010101;
   0x01000000; 0x01000001; 0x01000100; 0x01000101;
   0x01010000; 0x01010001; 0x01010100; 0x01010101].

Definition RHs : list Z :=
  [0x00000000; 0x01000000; 0x00010000; 0x01010000;
   0x00000100; 0x01000100; 0x00010100; 0x01010100;
   0x00000001; 0x01000001; 0x00010001; 0x01010001;
   0x00000101; 0x01000101; 0x00010101; 0x01010101].

(** ** Words and permutations *)

(** The index of a table is masked, to be below its length. *)
Definition tab (t : list Z) (i : Z) : Z := nth (Z.to_nat i) t 0.

Definition GET_UINT32 (b : list Z) (i : Z) : option Z :=
  b0 ← aget b i; b1 ← aget b (i + 1); b2 ← aget b (i + 2); b3 ← aget b (i + 3);
  Some (b0 << 24 || b1 << 16 || b2 << 8 || b3)%W.

Definition PUT_UINT32 (n : Z) : list Z :=
  [wrap 8 (n >> 24); wrap 8 (n >> 16); wrap 8 (n >> 8); wrap 8 n]%W.

(** A line of [DES_IP]: [T = ((X >> n) ^ Y) & m; Y ^= T; X ^= T << n]. *)
Definition swap_bits (n m : Z) (p : Z * Z) : Z * Z :=
  let '(X, Y) := p in
  let T := (((X >> n) ^^ Y) & m)%W in
  (X ^^ (T << n), Y ^^ T)%W.

Definition flip (p : Z * Z) : Z * Z := (p.2, p.1).

Definition DES_IP (p : Z * Z) : Z * Z :=
  let p := swap_bits 4 0x0F0F0F0F p in
  let p := swap_bits 16 0x0000FFFF p in
  let p := flip (swap_bits 2 0x33333333 (flip p)) in
  let p := flip (swap_bits 8 0x00FF00FF (flip p)) in
  let p := (p.1, (p.2 << 1 || p.2 >> 31) & 0xFFFFFFFF)%W in
  let p := swap_bits 0 0xAAAAAAAA p in
  ((p.1 << 1 || p.1 >> 31) & 0xFFFFFFFF, p.2)%W.

Definition DES_FP (p : Z * Z) : Z * Z :=
  let p := ((p.1 << 31 || p.1 >> 1) & 0xFFFFFFFF, p.2)%W in
  let p := swap_bits 0 0xAAAAAAAA p in
  let p := (p.1, (p.2 << 31 || p.2 >> 1) & 0xFFFFFFFF)%W in
  let p := flip (swap_bits 8 0x00FF00FF (flip p)) in
  let p := flip (swap_bits 2 0x33333333 (flip p)) in
  let p := swap_bits 16 0x0000FFFF p in
  swap_bits 4 0x0F0F0F0F p.

(** The new [Y]; [k1] and [k2] are the words that [SK] points to. *)
Definition DES_ROUND (k1 k2 X Y : Z) : Z :=
  let T := (k1 ^^ X)%W in
  let Y := (Y ^^ (tab SB8 (T & 0x3F) ^^ tab SB6 ((T >> 8) & 0x3F) ^^
                  tab SB4 ((T >> 16) & 0x3F) ^^ tab SB2 ((T >> 24) & 0x3F)))%W in
  let T := (k2 ^^ (X << 28 || X >> 4))%W in
  (Y ^^ (tab SB7 (T & 0x3F) ^^ tab SB5 ((T >> 8) & 0x3F) ^^
         tab SB3 ((T >> 16) & 0x3F) ^^ tab SB1 ((T >> 24) & 0x3F)))%W.

(** ** Key schedule *)

(** Permuted choice 1. *)
Definition permuted_choice_1 (X Y : Z) : Z * Z :=
  let '(Y, X) := swap_bits 4 0x0F0F0F0F (Y, X) in
  let '(Y, X) := swap_bits 0 0x10101010 (Y, X) in
  let X := (tab LHs (X & 0xF) << 3 || tab LHs ((X >> 8) & 0xF) << 2
         || tab LHs ((X >> 16) & 0xF) << 1 || tab LHs ((X >> 24) & 0xF)
         || tab LHs ((X >> 5) & 0xF) << 7 || tab LHs ((X >> 13) & 0xF) << 6
         || tab LHs ((X >> 21) & 0xF) << 5 || tab LHs ((X >> 29) & 0xF) << 4)%W in
  let Y := (tab RHs ((Y >> 1) & 0xF) << 3 || tab RHs ((Y >> 9) & 0xF) << 2
         || tab RHs ((Y >> 17) & 0xF) << 1 || tab RHs ((Y >> 25) & 0xF)
         || tab RHs ((Y >> 4) & 0xF) << 7 || tab RHs ((Y >> 12) & 0xF) << 6
         || tab RHs ((Y >> 20) & 0xF) << 5 || tab RHs ((Y >> 28) & 0xF) << 4)%W in
  (X & 0x0FFFFFFF, Y & 0x0FFFFFFF)%W.

Definition rotate_half (i X : Z) : Z :=
  if (i <? 2) || (i =? 8) || (i =? 15)
  then ((X << 1 || X >> 27) & 0x0FFFFFFF)%W
  else ((X << 2 || X >> 26) & 0x0FFFFFFF)%W.

(** The two words of a subkey. *)
Definition subkey (X Y : Z) : list Z :=
  [ (X << 4 & 0x24000000 || X << 28 & 0x10000000
  || X << 14 & 0x08000000 || X << 18 & 0x02080000
  || X << 6 & 0x01000000 || X << 9 & 0x00200000
  || X >> 1 & 0x00100000 || X << 10 & 0x00040000
  || X << 2 & 0x00020000 || X >> 10 & 0x00010000
  || Y >> 13 & 0x00002000 || Y >> 4 & 0x00001000
  || Y << 6 & 0x00000800 || Y >> 1 & 0x00000400
  || Y >> 14 & 0x00000200 || Y & 0x00000100
  || Y >> 5 & 0x00000020 || Y >> 10 & 0x00000010
  || Y >> 3 & 0x00000008 || Y >> 18 & 0x00000004
  || Y >> 26 & 0x00000002 || Y >> 24 & 0x00000001)%W;
    (X << 15 & 0x20000000 || X << 17 & 0x10000000
  || X << 10 & 0x08000000 || X << 22 & 0x04000000
  || X >> 2 & 0x02000000 || X << 1 & 0x01000000
  || X << 16 & 0x00200000 || X << 11 & 0x00100000
  || X << 3 & 0x00080000 || X >> 6 & 0x00040000
  || X << 15 & 0x00020000 || X >> 4 & 0x00010000
  || Y >> 2 & 0x00002000 || Y << 8 & 0x00001000
  || Y >> 14 & 0x00000808 || Y >> 9 & 0x00000400
  || Y & 0x00000200 || Y << 7 & 0x00000100
  || Y >> 7 & 0x00000020 || Y >> 3 & 0x00000011
  || Y << 2 & 0x00000004 || Y >> 21 & 0x00000002)%W].

Fixpoint des_ks_loop (n : nat) (i X Y : Z) : list Z :=
  match n with
  | O => []
  | S n => let X := rotate_half i X in let Y := rotate_half i Y in subkey X Y ++ des_ks_loop n (i + 1) X Y
  end.

Definition des_main_ks (key : list Z) : option (list Z) :=
  X ← GET_UINT32 key 0; Y ← GET_UINT32 key 4;
  let '(X, Y) := permuted_choice_1 X Y in
  Some (des_ks_loop 16 0 X Y).

(** ** The block function *)

(** [DES_ROUND(Y, X); DES_ROUND(X, Y)] until the subkeys are used up. *)
Fixpoint des_rounds (SK : list Z) (X Y : Z) : Z * Z :=
  match SK with
  | k1 :: k2 :: k3 :: k4 :: SK =>
      let X := DES_ROUND k1 k2 Y X in
      let Y := DES_ROUND k3 k4 X Y in
      des_rounds SK X Y
  | _ => (X, Y)
  end.

Definition des_crypt (SK input : list Z) : option (list Z) :=
  X ← GET_UINT32 input 0; Y ← GET_UINT32 input 4;
  let '(X, Y) := DES_IP (X, Y) in
  let '(X, Y) := des_rounds SK X Y in
  let '(Y, X) := DES_FP (Y, X) in
  Some (PUT_UINT32 Y ++ PUT_UINT32 X).

(** ** Padding *)

Definition padding_add_iso7816_4 (buf : list Z) (offset : Z) : option (list Z) :=
  buf ← aset buf offset 128; write_at buf (offset + 1) (replicate (Z.to_nat (7 - offset)) 0).

Definition padding_add_pkcs7 (buf : list Z) (offset : Z) : option (list Z) :=
  write_at buf offset (replicate (Z.to_nat (8 - offset)) (wrap 8 (8 - offset))).

(** [n] rounds are left; [last] is an index of [buf]. *)
Fixpoint iso7816_4_loop (n : nat) (buf : list Z) (last padding : Z) : option Z :=
  match n with
  | O => Some 0
  | S n =>
      b ← aget buf last;
      if b =? 0 then iso7816_4_loop n buf (last - 1) (padding + 1)
      else if b =? 128 then Some padding
      else Some 0
  end.

Definition padding_remove_iso7816_4 (buf : list Z) (last : Z) : option Z := iso7816_4_loop 8 buf last 1.

Fixpoint pkcs7_loop (n : nat) (buf : list Z) (last padding : Z) : option Z :=
  match n with
  | O => Some padding
  | S n =>
      let last := last - 1 in
      b ← aget buf last;
      if negb (b =? padding) then Some 0 else pkcs7_loop n buf last padding
  end.

Definition padding_remove_pkcs7 (buf : list Z) (last : Z) : option Z :=
  padding ← aget buf last; pkcs7_loop (Z.to_nat (padding - 1)) buf last padding.

Definition PADDING_MODE_ISO7816_4 : Z := 0.
Definition PADDING_MODE_PKCS7 : Z := 1.
Definition PADDING_MODE_COUNT : Z := 2.

Definition check_padding_mode (mode : Z) : bool := negb ((mode <? 0) || (PADDING_MODE_COUNT <=? mode)).

(** [src] is the text from the first byte of the tail on. *)
Definition add_padding (src : list Z) (offset mode : Z) : option (unit + list Z) :=
  if negb (check_padding_mode mode) then Some (inl tt)
  else if 8 <=? offset then Some (inl tt)
  else
    buf ← write_at (replicate 8 0) 0 (take (Z.to_nat offset) src);
    buf ← (if mode =? PADDING_MODE_ISO7816_4 then padding_add_iso7816_4 buf offset else padding_add_pkcs7 buf offset);
    Some (inr buf).

Definition remove_padding (buf : list Z) (last mode : Z) : option (unit + Z) :=
  if negb (check_padding_mode mode) then Some (inl tt)
  else
    n ← (if mode =? PADDING_MODE_ISO7816_4 then padding_remove_iso7816_4 buf last else padding_remove_pkcs7 buf last);
    Some (inr n).

(** ** desencode and desdecode *)

Definition des_key (key : list Z) : option (unit + list Z) :=
  if negb (Z.of_nat (length key) =? 8) then Some (inl tt) else SK ← des_main_ks key; Some (inr SK).

Definition SMALL_CHUNK : Z := 256.

Definition chunk_buffer (size : Z) : list Z := replicate (Z.to_nat (if SMALL_CHUNK <? size then size else SMALL_CHUNK)) 0.

(** The loop over blocks, while [i < limit]; [text] is what follows [text + i].
    It returns the text and the index it stops at. *)
Fixpoint crypt_loop (fuel : nat) (SK text : list Z) (i limit : Z) (buffer : list Z)
    : option (list Z * Z * list Z) :=
  match fuel with
  | O => None
  | S fuel =>
      if i <? limit then
        out ← des_crypt SK (take 8 text);
        buffer ← write_at buffer i out;
        crypt_loop fuel SK (drop 8 text) (i + 8) limit buffer
      else Some (text, i, buffer)
  end.

(** [(int)textsz] and the [int] offset of the tail are the sizes themselves: the texts
    are below 2^31 bytes. *)
Definition ldesencode (key text : list Z) (padding_mode : Z) : option (unit + list Z) :=
  k ← des_key key;
  match k with
  | inl e => Some (inl e)
  | inr SK =>
      let textsz := Z.of_nat (length text) in
      let chunksz := Z.land (textsz + 8) (-8) in
      '(rest, i, buffer) ← crypt_loop (S (length text)) SK text 0 (textsz - 7) (chunk_buffer chunksz);
      tail ← add_padding rest (textsz - i) padding_mode;
      match tail with
      | inl e => Some (inl e)
      | inr tail =>
          out ← des_crypt SK tail;
          buffer ← write_at buffer i out;
          Some (inr (take (Z.to_nat chunksz) buffer))
      end
  end.

(** The subkeys in the opposite order. *)
Definition reverse_ks (ESK : list Z) : option (list Z) :=
  l ← mapM (λ i, a ← aget ESK (30 - i); b ← aget ESK (31 - i); Some [a; b])
    [0; 2; 4; 6; 8; 10; 12; 14; 16; 18; 20; 22; 24; 26; 28; 30];
  Some (concat l).

Definition ldesdecode (key text : list Z) (padding_mode : Z) : option (unit + list Z) :=
  k ← des_key key;
  match k with
  | inl e => Some (inl e)
  | inr ESK =>
      SK ← reverse_ks ESK;
      let textsz := Z.of_nat (length text) in
      if negb (Z.land textsz 7 =? 0) || (textsz =? 0) then Some (inl tt)
      else
        '(_, _, buffer) ← crypt_loop (S (length text)) SK text 0 textsz (chunk_buffer textsz);
        p ← remove_padding buffer (textsz - 1) padding_mode;
        match p with
        | inl e => Some (inl e)
        | inr padding =>
            if (padding <=? 0) || (8 <? padding) then Some (inl tt)
            else Some (inr (take (Z.to_nat (textsz - padding)) buffer))
        end
  end.

(** The example of FIPS 46: key 133457799BBCDFF1, block 0123456789ABCDEF. *)
Example des_test :
  (SK ← des_main_ks [0x13; 0x34; 0x57; 0x79; 0x9B; 0xBC; 0xDF; 0xF1];
   des_crypt SK [0x01; 0x23; 0x45; 0x67; 0x89; 0xAB; 0xCD; 0xEF]) =
  Some [0x85; 0xE8; 0x13; 0x54; 0x0F; 0x0A; 0xB4; 0x05].
Proof. vm_compute. reflexivity. Qed.

(** ** The permutations are inverse *)

Definition pair32 (p : Z * Z) : Prop := w32 p.1 ∧ w32 p.2.

Lemma swap_bits_32 n m p : 0 ≤ n → 0 ≤ m → pair32 p → pair32 (swap_bits n m p).
Proof. intros Hn Hm [HX HY]. destruct p as [X Y]. split; cbn [swap_bits fst snd]; auto with w32. Qed.

Lemma flip_32 p : pair32 p → pair32 (flip p).
Proof. by intros [? ?]. Qed.

Lemma swap_bits_invol n m p :
  0 ≤ n ≤ 32 → 0 ≤ m < 2 ^ (32 - n) → pair32 p → swap_bits n m (swap_bits n m p) = p.
Proof.
  intros Hn Hm [HX HY]. destruct p as [X Y]. cbn [fst snd] in *. unfold swap_bits.
  set (T := Z.land (Z.lxor (Z.shiftr X n) Y) m).
  assert (∀ i, 32 - n ≤ i → Z.testbit m i = false) as Hmi.
  { intros i Hi. rewrite <- (Z.mod_small m (2 ^ (32 - n))) by done. apply Z.mod_pow2_bits_high. lia. }
  assert (w32 T) as HT by (unfold T; apply w32_land; [apply w32_lxor; [apply w32_shr; [done|lia]|done]|lia]).
  assert (Z.land (Z.lxor (Z.shiftr (Z.lxor X (shl T n)) n) (Z.lxor Y T)) m = T) as ->.
  { apply Z.bits_inj'. intros i Hi. unfold T at 3. rewrite !Z.land_spec, !Z.lxor_spec, !Z.shiftr_spec, Z.lxor_spec by lia.
    destruct (Z.lt_ge_cases i (32 - n)).
    - rewrite shl_bit by lia. replace (i + n - n) with i by lia.
      destruct (Z.testbit X (i + n)), (Z.testbit T i), (Z.testbit Y i), (Z.testbit m i); done.
    - rewrite Hmi by lia. by rewrite !andb_false_r. }
  by rewrite !Z.lxor_assoc, !Z.lxor_nilpotent, !Z.lxor_0_r.
Qed.

Lemma flip_swap_invol n m p :
  0 ≤ n ≤ 32 → 0 ≤ m < 2 ^ (32 - n) → pair32 p → flip (swap_bits n m (flip (flip (swap_bits n m (flip p))))) = p.
Proof.
  intros Hn Hm Hp. replace (flip (flip (swap_bits n m (flip p)))) with (swap_bits n m (flip p)) by (by destruct (swap_bits n m (flip p))).
  rewrite swap_bits_invol by (done || by apply flip_32). by destruct p.
Qed.

(** The rotations of the macros. *)
Lemma rot1 X : w32 X → Z.land (Z.lor (shl X 1) (Z.shiftr X 31)) 0xFFFFFFFF = rotl X 1.
Proof. intros HX. apply land_word. by apply (w32_rotl X 1). Qed.

Lemma rot31 X : w32 X → Z.land (Z.lor (shl X 31) (Z.shiftr X 1)) 0xFFFFFFFF = rotl X 31.
Proof. intros HX. apply land_word. by apply (w32_rotl X 31). Qed.

(** The steps of [DES_IP] and [DES_FP] as permutations of a pair. *)
Definition rot_fst (n : Z) (p : Z * Z) : Z * Z := (rotl p.1 n, p.2).
Definition rot_snd (n : Z) (p : Z * Z) : Z * Z := (p.1, rotl p.2 n).
Definition flip_swap (n m : Z) (p : Z * Z) : Z * Z := flip (swap_bits n m (flip p)).

Lemma flip_swap_32 n m p : 0 ≤ n → 0 ≤ m → pair32 p → pair32 (flip_swap n m p).
Proof. intros. by apply flip_32, swap_bits_32, flip_32. Qed.

Lemma rot_fst_32 n p : 0 ≤ n ≤ 32 → pair32 p → pair32 (rot_fst n p).
Proof. intros Hn [? ?]. split; [|done]. apply w32_rotl; [done|lia]. Qed.

Lemma rot_snd_32 n p : 0 ≤ n ≤ 32 → pair32 p → pair32 (rot_snd n p).
Proof. intros Hn [? ?]. split; [done|]. apply w32_rotl; [done|lia]. Qed.

Create HintDb des.
#[local] Hint Resolve swap_bits_32 flip_swap_32 rot_fst_32 rot_snd_32 : des.
#[local] Hint Extern 1 (_ ≤ _) => lia : des.
#[local] Hint Extern 1 (_ ∧ _) => lia : des.

Lemma DES_IP_steps p :
  pair32 p → DES_IP p = rot_fst 1 (swap_bits 0 0xAAAAAAAA (rot_snd 1 (flip_swap 8 0x00FF00FF (flip_swap 2 0x33333333
    (swap_bits 16 0xFFFF (swap_bits 4 0x0F0F0F0F p)))))).
Proof.
  intros Hp. unfold DES_IP. fold (flip_swap 2 0x33333333 (swap_bits 16 0xFFFF (swap_bits 4 0x0F0F0F0F p))).
  set (q := swap_bits 16 0xFFFF (swap_bits 4 0x0F0F0F0F p)). assert (pair32 q) as Hq by (unfold q; eauto 6 with des).
  fold (flip_swap 8 0x00FF00FF (flip_swap 2 0x33333333 q)).
  set (r := flip_swap 8 0x00FF00FF (flip_swap 2 0x33333333 q)). assert (pair32 r) as Hr by (unfold r; eauto 6 with des).
  rewrite (rot1 r.2) by apply Hr. fold (rot_snd 1 r).
  set (s := swap_bits 0 0xAAAAAAAA (rot_snd 1 r)). assert (pair32 s) as Hs by (unfold s; eauto 6 with des).
  by rewrite rot1 by apply Hs.
Qed.

Lemma DES_FP_steps p :
  pair32 p → DES_FP p = swap_bits 4 0x0F0F0F0F (swap_bits 16 0xFFFF (flip_swap 2 0x33333333 (flip_swap 8 0x00FF00FF
    (rot_snd 31 (swap_bits 0 0xAAAAAAAA (rot_fst 31 p)))))).
Proof.
  intros Hp. unfold DES_FP. rewrite rot31 by apply Hp. fold (rot_fst 31 p).
  set (q := swap_bits 0 0xAAAAAAAA (rot_fst 31 p)). assert (pair32 q) as Hq by (unfold q; eauto 6 with des).
  rewrite rot31 by apply Hq. done.
Qed.

Lemma rot_fst_inv n p : 0 ≤ n ≤ 32 → pair32 p → rot_fst (32 - n) (rot_fst n p) = p.
Proof. intros Hn [? ?]. destruct p. unfold rot_fst. cbn in *. by rewrite rotl_inverse. Qed.

Lemma rot_snd_inv n p : 0 ≤ n ≤ 32 → pair32 p → rot_snd (32 - n) (rot_snd n p) = p.
Proof. intros Hn [? ?]. destruct p. unfold rot_snd. cbn in *. by rewrite rotl_inverse. Qed.

Lemma flip_swap_inv n m p :
  0 ≤ n ≤ 32 → 0 ≤ m < 2 ^ (32 - n) → pair32 p → flip_swap n m (flip_swap n m p) = p.
Proof. apply flip_swap_invol. Qed.

Lemma DES_IP_32 p : pair32 p → pair32 (DES_IP p).
Proof. intros Hp. rewrite DES_IP_steps by done. eauto 12 with des. Qed.

Lemma DES_FP_32 p : pair32 p → pair32 (DES_FP p).
Proof. intros Hp. rewrite DES_FP_steps by done. eauto 12 with des. Qed.

Lemma DES_FP_IP p : pair32 p → DES_FP (DES_IP p) = p.
Proof.
  intros Hp. rewrite DES_FP_steps by (by apply DES_IP_32). rewrite DES_IP_steps by done.
  rewrite (rot_fst_inv 1) by eauto 12 with des. rewrite (swap_bits_invol 0) by eauto 12 with des.
  rewrite (rot_snd_inv 1) by eauto 12 with des. rewrite (flip_swap_inv 8) by eauto 12 with des.
  rewrite (flip_swap_inv 2) by eauto 12 with des. rewrite (swap_bits_invol 16) by eauto 12 with des.
  by rewrite (swap_bits_invol 4) by eauto 12 with des.
Qed.

Lemma DES_IP_FP p : pair32 p → DES_IP (DES_FP p) = p.
Proof.
  intros Hp. rewrite DES_IP_steps by (by apply DES_FP_32). rewrite DES_FP_steps by done.
  rewrite (swap_bits_invol 4) by eauto 12 with des. rewrite (swap_bits_invol 16) by eauto 12 with des.
  rewrite (flip_swap_inv 2) by eauto 12 with des. rewrite (flip_swap_inv 8) by eauto 12 with des.
  rewrite (rot_snd_inv 31) by eauto 12 with des. rewrite (swap_bits_invol 0) by eauto 12 with des.
  by rewrite (rot_fst_inv 31) by eauto 12 with des.
Qed.

(** ** The rounds are a Feistel network *)

Definition round_f (k : Z * Z) (X : Z) : Z := DES_ROUND k.1 k.2 X 0.

Lemma DES_ROUND_xor k1 k2 X Y : DES_ROUND k1 k2 X Y = Z.lxor Y (round_f (k1, k2) X).
Proof. unfold round_f, DES_ROUND. cbn [fst snd]. by rewrite Z.lxor_0_l, Z.lxor_assoc. Qed.

Lemma tab_32 t i : forallb (λ x, (0 <=? x) && (x <? 2 ^ 32)) t = true → w32 (tab t i).
Proof.
  intros Ht. rewrite forallb_forall in Ht. unfold tab.
  destruct (nth_in_or_default (Z.to_nat i) t 0) as [Hin| ->]; [|done].
  apply Ht in Hin. unfold w32. lia.
Qed.

Lemma round_f_32 k X : w32 (round_f k X).
Proof.
  unfold round_f, DES_ROUND. repeat apply w32_lxor; try done; apply tab_32; vm_compute; reflexivity.
Qed.

(** One round, the halves swapped. *)
Definition feistel_step (p : Z * Z) (k : Z * Z) : Z * Z := (p.2, Z.lxor p.1 (round_f k p.2)).
Definition feistel (ks : list (Z * Z)) (p : Z * Z) : Z * Z := foldl feistel_step p ks.

Lemma feistel_step_32 p k : pair32 p → pair32 (feistel_step p k).
Proof. intros [H1 H2]. split; cbn; [done|]. apply w32_lxor; [done|apply round_f_32]. Qed.

Lemma feistel_32 ks p : pair32 p → pair32 (feistel ks p).
Proof. revert p. induction ks as [|k ks IH]; intros p Hp; [done|]. by apply IH, feistel_step_32. Qed.

(** Running the rounds in the opposite order on the swapped halves goes back. *)
Lemma feistel_inverse ks p : feistel (reverse ks) (flip (feistel ks p)) = flip p.
Proof.
  revert p. induction ks as [|k ks IH]; intros p; [done|].
  rewrite reverse_cons. unfold feistel in *. rewrite foldl_app. cbn [foldl]. rewrite IH.
  unfold feistel_step, flip. cbn [fst snd]. rewrite Z.lxor_assoc, Z.lxor_nilpotent, Z.lxor_0_r. by destruct p.
Qed.

Fixpoint key_pairs (SK : list Z) : list (Z * Z) :=
  match SK with a :: b :: SK => (a, b) :: key_pairs SK | _ => [] end.

Lemma des_rounds_feistel n SK X Y :
  length SK = (4 * n)%nat → des_rounds SK X Y = feistel (key_pairs SK) (X, Y).
Proof.
  revert SK X Y. induction n as [|n IH]; intros SK X Y Hl.
  { destruct SK; [done|cbn in Hl; lia]. }
  destruct SK as [|k1 [|k2 [|k3 [|k4 SK]]]]; try (cbn in Hl; lia). cbn [des_rounds key_pairs].
  rewrite IH by (cbn in Hl; lia). rewrite !DES_ROUND_xor. done.
Qed.

(** ** The block function *)

(** Words are big endian. *)
Lemma PUT_UINT32_be n : PUT_UINT32 n = be_bytes 4 n.
Proof. unfold PUT_UINT32, be_bytes. cbn [le_bytes]. rewrite !Z.shiftr_shiftr by lia. done. Qed.

Lemma word_be b0 b1 b2 b3 :
  byte_ok b0 → byte_ok b1 → byte_ok b2 → byte_ok b3 →
  (b0 << 24 || b1 << 16 || b2 << 8 || b3)%W = be_val [b0; b1; b2; b3].
Proof.
  intros H0 H1 H2 H3. unfold be_val. cbn [rev app]. rewrite !le_val_cons by done. cbn [le_val].
  rewrite !shl_byte, <- !Z.shiftl_mul_pow2 by (done || lia). unfold byte_ok in *.
  rewrite (lor_fields b0 b1 24 16) by (cbn; lia). change (2 ^ (24 - 16)) with 256.
  rewrite (lor_fields _ b2 16 8) by (cbn; lia). change (2 ^ (16 - 8)) with 256.
  rewrite lor_shiftl by (cbn; lia). change (2 ^ 8) with 256. lia.
Qed.

Lemma GET_UINT32_be pre w rest :
  Forall byte_ok w → length w = 4%nat → GET_UINT32 (pre ++ w ++ rest) (Z.of_nat (length pre)) = Some (be_val w).
Proof.
  intros Hw Hl. destruct w as [|b0 [|b1 [|b2 [|b3 [|]]]]]; try done.
  rewrite !Forall_cons in Hw. destruct Hw as (H0 & H1 & H2 & H3 & _).
  unfold GET_UINT32.
  assert (∀ n b, [b0; b1; b2; b3] !! n = Some b → aget (pre ++ [b0; b1; b2; b3] ++ rest) (Z.of_nat (length pre) + Z.of_nat n) = Some b) as Hget.
  { intros n b Hn. rewrite <- Nat2Z.inj_add, aget_nat. rewrite lookup_app_r by lia.
    replace (length pre + n - length pre)%nat with n by lia. rewrite lookup_app_l; [done|]. by apply lookup_lt_Some in Hn. }
  pose proof (Hget 0%nat b0 eq_refl) as E0. rewrite Z.add_0_r in E0. pose proof (Hget 1%nat b1 eq_refl) as E1.
  pose proof (Hget 2%nat b2 eq_refl) as E2. pose proof (Hget 3%nat b3 eq_refl) as E3.
  change (Z.of_nat 1) with 1 in E1. change (Z.of_nat 2) with 2 in E2. change (Z.of_nat 3) with 3 in E3.
  rewrite E0, E1, E2, E3. cbn [mbind option_bind].
  by rewrite word_be.
Qed.

Lemma be_val_32 w : Forall byte_ok w → length w = 4%nat → w32 (be_val w).
Proof.
  intros Hw Hl. unfold be_val. pose proof (le_val_range (rev w)) as H. rewrite length_rev, Hl in H.
  apply H. by apply Forall_rev.
Qed.

Lemma put_be_val w : Forall byte_ok w → length w = 4%nat → PUT_UINT32 (be_val w) = w.
Proof.
  intros Hw Hl. rewrite PUT_UINT32_be. unfold be_bytes, be_val. rewrite <- Hl, <- (length_rev w).
  rewrite le_bytes_val by (by apply Forall_rev). apply rev_involutive.
Qed.

Lemma put_word_ok n : Forall byte_ok (PUT_UINT32 n) ∧ length (PUT_UINT32 n) = 4%nat.
Proof.
  rewrite PUT_UINT32_be. split; [|apply length_be_bytes]. unfold be_bytes. apply Forall_rev, le_bytes_ok.
Qed.

Lemma be_val_put n : w32 n → be_val (PUT_UINT32 n) = n.
Proof. intros Hn. rewrite PUT_UINT32_be, be_val_bytes. by apply wrap_small. Qed.

(** The block function on the two words of a block. *)
Definition crypt_words (ks : list (Z * Z)) (p : Z * Z) : Z * Z := DES_FP (flip (feistel ks (DES_IP p))).

Definition block_words (b : list Z) : Z * Z := (be_val (take 4 b), be_val (drop 4 b)).
Definition words_block (p : Z * Z) : list Z := PUT_UINT32 p.1 ++ PUT_UINT32 p.2.

Definition block_ok (b : list Z) : Prop := Forall byte_ok b ∧ length b = 8%nat.

Lemma block_words_32 b : block_ok b → pair32 (block_words b).
Proof.
  intros [Hb Hl]. split; apply be_val_32; cbn; try (by apply Forall_take); try (by apply Forall_drop);
    rewrite ?length_take, ?length_drop; lia.
Qed.

Lemma words_block_ok p : block_ok (words_block p).
Proof.
  destruct (put_word_ok p.1) as [H1 H2], (put_word_ok p.2) as [H3 H4]. split.
  - by apply Forall_app.
  - unfold words_block. rewrite length_app. lia.
Qed.

Lemma words_of_block b : block_ok b → words_block (block_words b) = b.
Proof.
  intros [Hb Hl]. unfold words_block, block_words. cbn [fst snd].
  rewrite !put_be_val by (rewrite ?length_take, ?length_drop; try (by apply Forall_take); try (by apply Forall_drop); lia).
  apply take_drop.
Qed.

Lemma block_of_words p : pair32 p → block_words (words_block p) = p.
Proof.
  intros [H1 H2]. unfold words_block, block_words. destruct (put_word_ok p.1) as [_ H3].
  rewrite take_app_length', drop_app_length' by done. rewrite !be_val_put by done. by destruct p.
Qed.

Lemma des_crypt_spec n SK b :
  length SK = (4 * n)%nat → block_ok b → des_crypt SK b = Some (words_block (crypt_words (key_pairs SK) (block_words b))).
Proof.
  intros HSK Hb. pose proof Hb as [Hby Hl]. unfold des_crypt.
  pose proof (GET_UINT32_be [] (take 4 b) (drop 4 b) ltac:(by apply Forall_take) ltac:(rewrite length_take; lia)) as E0.
  pose proof (GET_UINT32_be (take 4 b) (drop 4 b) [] ltac:(by apply Forall_drop) ltac:(rewrite length_drop; lia)) as E1.
  cbn [app length] in E0. rewrite app_nil_r, length_take, Hl in E1. change (Z.of_nat (4 `min` 8)) with 4 in E1.
  change (Z.of_nat 0) with 0 in E0. rewrite take_drop in E0, E1. rewrite E0, E1. cbn [mbind option_bind].
  unfold crypt_words, block_words. destruct (DES_IP _) as [X Y]. rewrite (des_rounds_feistel n) by done.
  unfold flip. destruct (feistel _ _) as [X' Y']. cbn [fst snd]. destruct (DES_FP _). done.
Qed.

(** Encryption and decryption of a block. *)
Lemma crypt_words_inverse ks p : pair32 p → crypt_words (reverse ks) (crypt_words ks p) = p.
Proof.
  intros Hp. unfold crypt_words. pose proof (DES_IP_32 p Hp) as H1. pose proof (feistel_32 ks _ H1) as H2.
  rewrite DES_IP_FP by (by apply flip_32). rewrite feistel_inverse.
  replace (flip (flip (DES_IP p))) with (DES_IP p) by (by destruct (DES_IP p)). by apply DES_FP_IP.
Qed.

Lemma crypt_words_32 ks p : pair32 p → pair32 (crypt_words ks p).
Proof. intros Hp. by apply DES_FP_32, flip_32, feistel_32, DES_IP_32. Qed.

(** ** The key schedule *)

Lemma des_ks_loop_length n i X Y : length (des_ks_loop n i X Y) = (2 * n)%nat.
Proof. revert i X Y. induction n as [|n IH]; intros i X Y; [done|]. cbn [des_ks_loop]. rewrite length_app, IH. cbn. lia. Qed.

Lemma des_main_ks_total key : block_ok key → ∃ SK, des_main_ks key = Some SK ∧ length SK = 32%nat.
Proof.
  intros [Hby Hl]. unfold des_main_ks.
  pose proof (GET_UINT32_be [] (take 4 key) (drop 4 key) ltac:(by apply Forall_take) ltac:(rewrite length_take; lia)) as E0.
  pose proof (GET_UINT32_be (take 4 key) (drop 4 key) [] ltac:(by apply Forall_drop) ltac:(rewrite length_drop; lia)) as E1.
  cbn [app length] in E0. rewrite app_nil_r, length_take, Hl in E1. change (Z.of_nat (4 `min` 8)) with 4 in E1.
  change (Z.of_nat 0) with 0 in E0. rewrite take_drop in E0, E1. rewrite E0, E1. cbn [mbind option_bind].
  destruct (permuted_choice_1 _ _) as [X Y]. eexists. split; [done|]. apply des_ks_loop_length.
Qed.

Lemma reverse_ks_spec ESK :
  length ESK = 32%nat → ∃ SK, reverse_ks ESK = Some SK ∧ length SK = 32%nat ∧ key_pairs SK = reverse (key_pairs ESK).
Proof.
  intros Hl. do 32 (destruct ESK as [|? ESK]; [done|]). destruct ESK; [|done].
  eexists. split; [reflexivity|]. split; reflexivity.
Qed.

(** ** Strings of blocks *)

Fixpoint crypt_blocks (f : list Z → list Z) (n : nat) (text : list Z) : list Z :=
  match n with O => [] | S n => f (take 8 text) ++ crypt_blocks f n (drop 8 text) end.

Definition crypt_block (ks : list (Z * Z)) (b : list Z) : list Z := words_block (crypt_words ks (block_words b)).

Lemma take_block text : Forall byte_ok text → (8 ≤ length text)%nat → block_ok (take 8 text).
Proof. intros Ht Hl. split; [by apply Forall_take|]. rewrite length_take. lia. Qed.

Lemma crypt_loop_spec n fuel SK text out limit buffer :
  length SK = 32%nat → Forall byte_ok text → (8 * n ≤ length text)%nat → (n < fuel)%nat →
  take (length out) buffer = out → (length out + 8 * n ≤ length buffer)%nat →
  limit ≤ Z.of_nat (length out + 8 * n) → Z.of_nat (length out + 8 * n) < limit + 8 →
  ∃ buffer', crypt_loop fuel SK text (Z.of_nat (length out)) limit buffer =
      Some (drop (8 * n) text, Z.of_nat (length out + 8 * n), buffer') ∧ length buffer' = length buffer ∧
    take (length out + 8 * n) buffer' = out ++ crypt_blocks (crypt_block (key_pairs SK)) n text.
Proof.
  intros HSK. revert fuel text out buffer. induction n as [|n IH]; intros fuel text out buffer Ht Hl Hf Ho Hb H1 H2;
    (destruct fuel as [|fuel]; [lia|]); cbn [crypt_loop crypt_blocks].
  - destruct (Z.ltb_spec (Z.of_nat (length out)) limit); [lia|]. exists buffer.
    rewrite Nat.mul_0_r, Nat.add_0_r, app_nil_r, drop_0. done.
  - destruct (Z.ltb_spec (Z.of_nat (length out)) limit); [|lia].
    rewrite (des_crypt_spec 8) by (done || apply take_block; done || lia). cbn [mbind option_bind].
    fold (crypt_block (key_pairs SK) (take 8 text)). set (c := crypt_block (key_pairs SK) (take 8 text)).
    assert (length c = 8%nat) as Hc by apply words_block_ok.
    destruct (write_append buffer out c Ho) as (b1 & -> & Hl1 & E1); [lia|]. cbn [mbind option_bind].
    destruct (IH fuel (drop 8 text) (out ++ c) b1) as (b2 & E & Hl2 & E2);
      [by apply Forall_drop|rewrite length_drop; lia|lia|done|rewrite length_app; lia..|].
    exists b2. rewrite length_app, Hc in E, E2. replace (Z.of_nat (length out + 8)) with (Z.of_nat (length out) + 8) in E by lia.
    rewrite E. rewrite drop_drop. split; [do 3 f_equal; f_equal; lia|]. split; [lia|].
    rewrite <- app_assoc in E2. rewrite <- E2. f_equal. lia.
Qed.

Lemma crypt_blocks_ok ks n text :
  Forall byte_ok (crypt_blocks (crypt_block ks) n text) ∧ length (crypt_blocks (crypt_block ks) n text) = (8 * n)%nat.
Proof.
  revert text. induction n as [|n IH]; intros text; [done|]. cbn [crypt_blocks].
  destruct (words_block_ok (crypt_words ks (block_words (take 8 text)))) as [H1 H2]. destruct (IH (drop 8 text)) as [H3 H4].
  split; [by apply Forall_app|]. unfold crypt_block at 1. rewrite length_app. lia.
Qed.

Lemma crypt_blocks_inverse ks n text :
  Forall byte_ok text → length text = (8 * n)%nat →
  crypt_blocks (crypt_block (reverse ks)) n (crypt_blocks (crypt_block ks) n text) = text.
Proof.
  revert text. induction n as [|n IH]; intros text Ht Hl; [by destruct text|]. cbn [crypt_blocks].
  pose proof (take_block text Ht ltac:(lia)) as Hb.
  destruct (words_block_ok (crypt_words ks (block_words (take 8 text)))) as [H1 H2]. fold (crypt_block ks (take 8 text)) in H2.
  rewrite take_app_length', drop_app_length' by done. rewrite IH by (try (by apply Forall_drop); rewrite length_drop; lia).
  unfold crypt_block. rewrite block_of_words by (by apply crypt_words_32, block_words_32).
  rewrite crypt_words_inverse by (by apply block_words_32). rewrite words_of_block by done. apply take_drop.
Qed.

Lemma crypt_blocks_app f n text rest :
  length text = (8 * n)%nat → length rest = 8%nat →
  crypt_blocks f (S n) (text ++ rest) = crypt_blocks f n text ++ f rest.
Proof.
  revert text. induction n as [|n IH]; intros text Hl Hr.
  - destruct text; [|cbn in Hl; lia]. cbn. rewrite take_ge by lia. by rewrite app_nil_r.
  - cbn [crypt_blocks]. rewrite take_app_le, drop_app_le by lia. rewrite <- app_assoc. f_equal.
    rewrite <- IH by (rewrite ?length_drop; lia). done.
Qed.

Lemma crypt_blocks_prefix f n text rest :
  (8 * n ≤ length text)%nat → crypt_blocks f n (text ++ rest) = crypt_blocks f n text.
Proof.
  revert text. induction n as [|n IH]; intros text Hl; [done|]. cbn [crypt_blocks].
  rewrite take_app_le, drop_app_le by lia. rewrite IH by (rewrite length_drop; lia). done.
Qed.

(** ** Padding *)

Definition padding (mode : Z) (offset : nat) : list Z :=
  if mode =? PADDING_MODE_ISO7816_4 then 128 :: replicate (7 - offset) 0
  else replicate (8 - offset) (Z.of_nat (8 - offset)).

Definition mode_ok (mode : Z) : Prop := mode = PADDING_MODE_ISO7816_4 ∨ mode = PADDING_MODE_PKCS7.

Lemma padding_ok mode offset :
  (offset < 8)%nat → length (padding mode offset) = (8 - offset)%nat ∧ Forall byte_ok (padding mode offset).
Proof.
  intros Ho. unfold padding. destruct (mode =? _).
  - cbn [length]. rewrite length_replicate. split; [lia|]. constructor; [done|]. by apply Forall_replicate.
  - rewrite length_replicate. split; [done|]. apply Forall_replicate. unfold byte_ok. lia.
Qed.

Lemma add_padding_spec src mode :
  (length src < 8)%nat → mode_ok mode → add_padding src (Z.of_nat (length src)) mode = Some (inr (src ++ padding mode (length src))).
Proof.
  intros Hl Hm. unfold add_padding.
  assert (check_padding_mode mode = true) as -> by (by destruct Hm as [-> | ->]). cbn [negb].
  destruct (Z.leb_spec 8 (Z.of_nat (length src))); [lia|]. rewrite Nat2Z.id, take_ge by lia.
  destruct (write_append (replicate 8 0) [] src) as (b1 & E & Hl1 & H1); [done|rewrite length_replicate; cbn; lia|].
  change (Z.of_nat (length (@nil Z))) with 0 in E. rewrite E. cbn [mbind option_bind]. rewrite length_replicate in Hl1. cbn [app] in H1.
  unfold padding. destruct (mode =? _).
  - unfold padding_add_iso7816_4.
    destruct (aset_append b1 src 128 H1) as (b2 & -> & Hl2 & H2); [lia|]. cbn [mbind option_bind].
    destruct (write_append b2 (src ++ [128]) (replicate (7 - length src) 0) H2) as (b3 & E3 & Hl3 & H3).
    { rewrite length_app, length_replicate. cbn. lia. }
    replace (Z.of_nat (length src) + 1) with (Z.of_nat (length (src ++ [128]))) by (rewrite length_app; cbn; lia).
    replace (Z.to_nat (7 - Z.of_nat (length src))) with (7 - length src)%nat by lia. rewrite E3. cbn [mbind option_bind].
    rewrite take_ge in H3 by (rewrite !length_app, length_replicate; cbn; lia). by rewrite H3, <- app_assoc.
  - unfold padding_add_pkcs7. rewrite wrap_small by (change (2 ^ 8) with 256; lia).
    replace (8 - Z.of_nat (length src)) with (Z.of_nat (8 - length src)) by lia. rewrite Nat2Z.id.
    destruct (write_append b1 src (replicate (8 - length src) (Z.of_nat (8 - length src))) H1) as (b3 & -> & Hl3 & H3).
    { rewrite length_replicate. lia. }
    cbn [mbind option_bind]. rewrite take_ge in H3 by (rewrite length_app, length_replicate; lia). by rewrite H3.
Qed.

Lemma aget_middle (pre : list Z) x rest i : i = Z.of_nat (length pre) → aget (pre ++ x :: rest) i = Some x.
Proof. intros ->. rewrite aget_nat. by apply list_lookup_middle. Qed.

Lemma replicate_S_middle (z : nat) (x : Z) rest : replicate (S z) x ++ rest = replicate z x ++ x :: rest.
Proof. rewrite replicate_S_end, <- app_assoc. done. Qed.

Lemma iso_loop_spec z n text rest p :
  (z < n)%nat → iso7816_4_loop n (text ++ 128 :: replicate z 0 ++ rest) (Z.of_nat (length text + z)) p = Some (p + Z.of_nat z).
Proof.
  revert n rest p. induction z as [|z IH]; intros n rest p Hn; (destruct n as [|n]; [lia|]); cbn [iso7816_4_loop].
  - rewrite aget_middle by lia. cbn [mbind option_bind]. change (128 =? 0) with false. change (128 =? 128) with true.
    cbn match. f_equal. lia.
  - rewrite replicate_S_middle.
    rewrite app_comm_cons, app_assoc, aget_middle by (rewrite length_app; cbn; rewrite length_replicate; lia).
    cbn [mbind option_bind]. change (0 =? 0) with true. cbn match.
    replace (Z.of_nat (length text + S z) - 1) with (Z.of_nat (length text + z)) by lia.
    rewrite <- app_assoc, <- app_comm_cons, IH by lia. f_equal. lia.
Qed.

Lemma pkcs7_loop_spec k text rest c :
  pkcs7_loop k (text ++ replicate k c ++ rest) (Z.of_nat (length text + k)) c = Some c.
Proof.
  revert rest. induction k as [|k IH]; intros rest; [done|]. cbn [pkcs7_loop].
  rewrite replicate_S_middle.
  rewrite app_assoc, aget_middle by (rewrite length_app, length_replicate; lia). cbn [mbind option_bind].
  rewrite Z.eqb_refl. cbn [negb]. replace (Z.of_nat (length text + S k) - 1) with (Z.of_nat (length text + k)) by lia.
  rewrite <- app_assoc. apply IH.
Qed.

Lemma remove_padding_spec text offset rest mode :
  mode_ok mode → (offset < 8)%nat →
  remove_padding (text ++ padding mode offset ++ rest) (Z.of_nat (length text + (8 - offset)) - 1) mode =
    Some (inr (Z.of_nat (8 - offset))).
Proof.
  intros Hm Ho. unfold remove_padding, padding.
  assert (check_padding_mode mode = true) as -> by (by destruct Hm as [-> | ->]). cbn [negb].
  destruct (mode =? _).
  - unfold padding_remove_iso7816_4. replace (Z.of_nat (length text + (8 - offset)) - 1) with (Z.of_nat (length text + (7 - offset))) by lia.
    cbn [app]. rewrite iso_loop_spec by lia. cbn [mbind option_bind]. do 2 f_equal. lia.
  - unfold padding_remove_pkcs7. replace (8 - offset)%nat with (S (7 - offset)) by lia. rewrite replicate_S_middle.
    set (c := Z.of_nat (S (7 - offset))).
    rewrite app_assoc, aget_middle by (rewrite length_app, length_replicate; lia). cbn [mbind option_bind].
    rewrite <- app_assoc. replace (Z.of_nat (length text + S (7 - offset)) - 1) with (Z.of_nat (length text + (7 - offset))) by lia.
    replace (Z.to_nat (c - 1)) with (7 - offset)%nat by lia. by rewrite pkcs7_loop_spec.
Qed.

(** ** The Lua functions *)

Lemma chunk_size n : Z.land (Z.of_nat n + 8) (-8) = Z.of_nat (8 * S (n / 8)).
Proof.
  change (-8) with (Z.lnot (Z.ones 3)). rewrite <- Z.ldiff_land, Z.ldiff_ones_r by lia.
  rewrite Z.shiftr_div_pow2, Z.shiftl_mul_pow2 by lia. change (2 ^ 3) with 8.
  replace (Z.of_nat n + 8) with (Z.of_nat n + 1 * 8) by lia. rewrite Z.div_add by lia.
  pose proof (Nat2Z.inj_div n 8) as E. change (Z.of_nat 8) with 8 in E. lia.
Qed.

Lemma length_chunk_buffer size : size ≤ Z.of_nat (length (chunk_buffer size)).
Proof. unfold chunk_buffer, SMALL_CHUNK. rewrite length_replicate. destruct (Z.ltb_spec 256 size); lia. Qed.

Lemma des_key_spec key : block_ok key → ∃ SK, des_key key = Some (inr SK) ∧ length SK = 32%nat.
Proof.
  intros Hk. destruct (des_main_ks_total key Hk) as (SK & E & Hl). exists SK. unfold des_key.
  destruct Hk as [_ ->]. change (Z.of_nat 8 =? 8) with true. cbn [negb]. by rewrite E.
Qed.

(** The text and its padding, encrypted block by block. *)
Lemma ldesencode_spec key SK text mode :
  des_key key = Some (inr SK) → length SK = 32%nat → Forall byte_ok text → mode_ok mode →
  ldesencode key text mode = Some (inr (crypt_blocks (crypt_block (key_pairs SK)) (S (length text / 8))
    (text ++ padding mode (length text mod 8)))).
Proof.
  intros Hkey HSK Ht Hm. unfold ldesencode. rewrite Hkey. cbn [mbind option_bind]. rewrite chunk_size.
  pose proof (Nat.div_mod (length text) 8 ltac:(lia)) as Hd. pose proof (Nat.mod_upper_bound (length text) 8 ltac:(lia)) as Hr.
  set (n := (length text / 8)%nat) in *. set (r := (length text mod 8)%nat) in *.
  set (buffer := chunk_buffer _). assert (8 * S n ≤ length buffer)%nat as Hb.
  { pose proof (length_chunk_buffer (Z.of_nat (8 * S n))). unfold buffer. lia. }
  destruct (crypt_loop_spec n (S (length text)) SK text [] (Z.of_nat (length text) - 7) buffer)
    as (b1 & E & Hl1 & H1); try done; try (cbn [length]; lia).
  change (Z.of_nat (length (@nil Z))) with 0 in E. cbn [length app] in *. rewrite Nat.add_0_l in *. rewrite E. cbn [mbind option_bind].
  set (rest := drop (8 * n) text) in *. assert (length rest = r) as Hrest by (unfold rest; rewrite length_drop; lia).
  replace (Z.of_nat (length text) - Z.of_nat (8 * n)) with (Z.of_nat (length rest)) by lia.
  rewrite add_padding_spec by (done || lia). cbn [mbind option_bind]. rewrite Hrest.
  destruct (padding_ok mode r Hr) as [Hp1 Hp2].
  assert (block_ok (rest ++ padding mode r)) as Hblk.
  { split; [apply Forall_app; split; [by apply Forall_drop|done]|]. rewrite length_app. lia. }
  rewrite (des_crypt_spec 8) by done. cbn [mbind option_bind]. fold (crypt_block (key_pairs SK) (rest ++ padding mode r)).
  set (c := crypt_block (key_pairs SK) (rest ++ padding mode r)).
  set (out := crypt_blocks (crypt_block (key_pairs SK)) n text) in *.
  assert (length c = 8%nat) as Hc by apply words_block_ok. assert (length out = (8 * n)%nat) as Ho by apply crypt_blocks_ok.
  rewrite <- Ho in *.
  destruct (write_append b1 out c H1) as (b2 & -> & Hl2 & H2); [lia|]. cbn [mbind option_bind]. do 2 f_equal.
  rewrite length_app, Hc in H2. rewrite Nat2Z.id. replace (8 * S n)%nat with (length out + 8)%nat by lia. rewrite H2.
  rewrite <- (take_drop (8 * n) text). fold rest. rewrite <- app_assoc, crypt_blocks_app by (rewrite ?length_take, ?length_app; lia).
  unfold out. rewrite <- (take_drop (8 * n) text) at 1. rewrite crypt_blocks_prefix by (rewrite length_take; lia). done.
Qed.

Lemma land7 n : Z.land (Z.of_nat (8 * n)) 7 = 0.
Proof.
  rewrite (land_low _ 3 7) by done. change (2 ^ 3) with 8. rewrite Nat2Z.inj_mul, Z.mul_comm. apply Z_mod_mult.
Qed.

Lemma ldesdecode_spec key SK text mode :
  des_key key = Some (inr SK) → length SK = 32%nat → Forall byte_ok text → mode_ok mode →
  ldesdecode key (crypt_blocks (crypt_block (key_pairs SK)) (S (length text / 8))
    (text ++ padding mode (length text mod 8))) mode = Some (inr text).
Proof.
  intros Hkey HSK Ht Hm. unfold ldesdecode. rewrite Hkey. cbn [mbind option_bind].
  destruct (reverse_ks_spec SK HSK) as (DK & -> & HDK & Hrev). cbn [mbind option_bind].
  pose proof (Nat.div_mod (length text) 8 ltac:(lia)) as Hd. pose proof (Nat.mod_upper_bound (length text) 8 ltac:(lia)) as Hr.
  set (n := (length text / 8)%nat) in *. set (r := (length text mod 8)%nat) in *.
  destruct (padding_ok mode r Hr) as [Hp1 Hp2].
  set (plain := text ++ padding mode r). assert (length plain = (8 * S n)%nat) as Hplain by (unfold plain; rewrite length_app; lia).
  assert (Forall byte_ok plain) as Hpok by (by apply Forall_app).
  destruct (crypt_blocks_ok (key_pairs SK) (S n) plain) as [Hc1 Hc2].
  set (c := crypt_blocks (crypt_block (key_pairs SK)) (S n) plain) in *. rewrite Hc2, land7. change (0 =? 0) with true. cbn [negb orb].
  destruct (Z.eqb_spec (Z.of_nat (8 * S n)) 0); [lia|].
  set (buffer := chunk_buffer _). assert (8 * S n ≤ length buffer)%nat as Hb.
  { pose proof (length_chunk_buffer (Z.of_nat (8 * S n))). unfold buffer. lia. }
  destruct (crypt_loop_spec (S n) (S (8 * S n)) DK c [] (Z.of_nat (8 * S n)) buffer)
    as (b1 & E & Hl1 & H1); try done; try (cbn [length]; lia).
  change (Z.of_nat (length (@nil Z))) with 0 in E. rewrite E. cbn [mbind option_bind length app] in *. rewrite Nat.add_0_l in *.
  rewrite Hrev in H1. unfold c in H1. rewrite crypt_blocks_inverse in H1 by done.
  rewrite <- (take_drop (8 * S n) b1) at 1. rewrite H1. unfold plain at 1. rewrite <- app_assoc.
  replace (8 * S n)%nat with (length text + (8 - r))%nat at 2 by lia. rewrite remove_padding_spec by done. cbn [mbind option_bind].
  destruct (Z.leb_spec (Z.of_nat (8 - r)) 0); [lia|]. destruct (Z.ltb_spec 8 (Z.of_nat (8 - r))); [lia|]. cbn [orb]. do 2 f_equal.
  replace (Z.to_nat (Z.of_nat (8 * S n) - Z.of_nat (8 - r))) with (length text `min` (8 * S n))%nat by lia.
  rewrite <- take_take, H1. unfold plain. apply take_app_length.
Qed.

(** C38: with any 8-byte key and in both padding modes, encrypting any byte
    string succeeds and gives a multiple of 8 bytes, at least one more than the text;
    decrypting it with the same key and mode gives the text back. *)
Theorem des_roundtrip key text mode :
  Forall byte_ok key → length key = 8%nat → Forall byte_ok text → mode_ok mode →
  ∃ c, ldesencode key text mode = Some (inr c) ∧ length c = (8 * S (length text / 8))%nat ∧
    ldesdecode key c mode = Some (inr text).
Proof.
  intros Hk Hl Ht Hm. destruct (des_key_spec key) as (SK & E & HSK); [by split|].
  eexists. split; [by apply ldesencode_spec|]. split; [apply crypt_blocks_ok|]. by apply ldesdecode_spec.
Qed.

Lemma des_roundtrip_witness :
  Forall byte_ok [1; 2; 3; 4; 5; 6; 7; 8] ∧ mode_ok 1 ∧
  ∃ c, ldesencode [1; 2; 3; 4; 5; 6; 7; 8] [104; 105] 1 = Some (inr c) ∧ length c = 8%nat ∧
    ldesdecode [1; 2; 3; 4; 5; 6; 7; 8] c 1 = Some (inr [104; 105]).
Proof.
  assert (Forall byte_ok [1; 2; 3; 4; 5; 6; 7; 8]) as H by (repeat constructor; unfold byte_ok; lia).
  assert (mode_ok 1) as Hm by (by right). split; [exact H|]. split; [exact Hm|].
  apply (des_roundtrip [1; 2; 3; 4; 5; 6; 7; 8] [104; 105] 1 H eq_refl); [|exact Hm].
  repeat constructor; unfold byte_ok; lia.
Defined.

(** a key that has not 8 bytes, a text that is empty or not whole blocks, and
    an unknown padding mode are Lua errors, without any access outside the arrays. *)
Lemma desdecode_rejects key text mode :
  Forall byte_ok key → Forall byte_ok text →
  length key ≠ 8%nat ∨ text = [] ∨ (length text mod 8 ≠ 0)%nat ∨ mode < 0 ∨ 2 ≤ mode →
  ldesdecode key text mode = Some (inl tt) ∧
  (length key ≠ 8%nat ∨ mode < 0 ∨ 2 ≤ mode → ldesencode key text mode = Some (inl tt)).
Proof.
  intros Hk Ht H. destruct (decide (length key = 8%nat)) as [Hl|Hl].
  2: { unfold ldesdecode, ldesencode, des_key. destruct (Z.eqb_spec (Z.of_nat (length key)) 8); [lia|]. done. }
  destruct (des_key_spec key) as (SK & E & HSK); [by split|].
  destruct (reverse_ks_spec SK HSK) as (DK & ER & HDK & _).
  pose proof (Nat.div_mod (length text) 8 ltac:(lia)) as Hd. pose proof (Nat.mod_upper_bound (length text) 8 ltac:(lia)) as Hr.
  assert (mode < 0 ∨ 2 ≤ mode → check_padding_mode mode = false) as Hmode.
  { unfold check_padding_mode, PADDING_MODE_COUNT. intros. destruct (Z.ltb_spec mode 0), (Z.leb_spec 2 mode); done || lia. }
  split.
  - unfold ldesdecode. rewrite E. cbn [mbind option_bind]. rewrite ER. cbn [mbind option_bind].
    destruct (negb _ || _) eqn:Echk; [done|]. apply orb_false_iff in Echk as [E1 E2]. apply negb_false_iff in E1.
    assert (length text mod 8 = 0)%nat as H8.
    { apply Z.eqb_eq in E1. rewrite (land_low _ 3 7) in E1 by done. change (2 ^ 3) with 8 in E1.
      pose proof (Nat2Z.inj_mod (length text) 8) as Em. change (Z.of_nat 8) with 8 in Em. lia. }
    assert (text ≠ []) as Hne by (intros ->; done).
    set (n := (length text / 8)%nat) in *.
    destruct (crypt_loop_spec n (S (length text)) DK text [] (Z.of_nat (length text)) (chunk_buffer (Z.of_nat (length text))))
      as (b1 & El & _); try done; try (cbn [length]; lia).
    { pose proof (length_chunk_buffer (Z.of_nat (length text))). cbn [length]. lia. }
    change (Z.of_nat (length (@nil Z))) with 0 in El. rewrite El. cbn [mbind option_bind].
    unfold remove_padding. rewrite Hmode; [done|]. destruct H as [?|[?|[?|?]]]; done || lia.
  - intros [?|Hm]; [lia|]. unfold ldesencode. rewrite E. cbn [mbind option_bind]. rewrite chunk_size.
    set (n := (length text / 8)%nat) in *.
    destruct (crypt_loop_spec n (S (length text)) SK text [] (Z.of_nat (length text) - 7) (chunk_buffer (Z.of_nat (8 * S n))))
      as (b1 & El & _); try done; try (cbn [length]; lia).
    { pose proof (length_chunk_buffer (Z.of_nat (8 * S n))). cbn [length]. lia. }
    change (Z.of_nat (length (@nil Z))) with 0 in El. rewrite El. cbn [mbind option_bind].
    unfold add_padding. by rewrite Hmode.
Qed.

(** The blocks whose bytes are all the same value above 8 make [padding_remove_pkcs7]
    read before the buffer; such a text is what a wrong key or a forged message can decrypt to. *)
Theorem pkcs7_reads_before_buffer :
  padding_remove_pkcs7 [9; 9; 9; 9; 9; 9; 9; 9] 7 = None ∧
  (SK ← des_main_ks [1; 2; 3; 4; 5; 6; 7; 8]; c ← des_crypt SK [9; 9; 9; 9; 9; 9; 9; 9];
   Some (ldesdecode [1; 2; 3; 4; 5; 6; 7; 8] c 1)) = Some None.
Proof. split; vm_compute; reflexivity. Qed.
