(* ===== verification/Md5.v ===== *)
(** * Hashes of lua-crypt.c: [hashkey], [hmac64], [hmac64_md5] and [hmac_hash]

    The MD5 compression function of lualib-src/lua-crypt.c and the keyed hashes
    made of it, with MD5 (RFC 1321) as the reference that a comment of the source
    compares [hmac64_md5] with.  [inl tt] is a Lua error. *)
From Stdlib Require Import String.
From S2P Require Import Prelude Bytes Word32 Codec.
Local Open Scope Z_scope.

(** ** hashkey *)

Fixpoint Hash_loop (str : list Z) (djb_hash js_hash : Z) : Z * Z :=
  match str with
  | [] => (djb_hash, js_hash)
  | c :: str =>
      Hash_loop str (djb_hash +% ((djb_hash << 5) +% c))%W
                (js_hash ^^ (((js_hash << 5) +% c) +% (js_hash >> 2)))%W
  end.

Definition Hash (str : list Z) : list Z :=
  let '(djb_hash, js_hash) := Hash_loop str 5381 1315423911 in
  [djb_hash & 0xff; (djb_hash >> 8) & 0xff; (djb_hash >> 16) & 0xff; (djb_hash >> 24) & 0xff;
   js_hash & 0xff; (js_hash >> 8) & 0xff; (js_hash >> 16) & 0xff; (js_hash >> 24) & 0xff]%W.

Definition lhashkey (key : list Z) : list Z := Hash key.

(** ** The MD5 compression function *)

Definition k : list Z :=
  [0xd76aa478; 0xe8c7b756; 0x242070db; 0xc1bdceee;
   0xf57c0faf; 0x4787c62a; 0xa8304613; 0xfd469501;
   0x698098d8; 0x8b44f7af; 0xffff5bb1; 0x895cd7be;
   0x6b901122; 0xfd987193; 0xa679438e; 0x49b40821;
   0xf61e2562; 0xc040b340; 0x265e5a51; 0xe9b6c7aa;
   0xd62f105d; 0x02441453; 0xd8a1e681; 0xe7d3fbc8;
   0x21e1cde6; 0xc33707d6; 0xf4d50d87; 0x455a14ed;
   0xa9e3e905; 0xfcefa3f8; 0x676f02d9; 0x8d2a4c8a;
   0xfffa3942; 0x8771f681; 0x6d9d6122; 0xfde5380c;
   0xa4beea44; 0x4bdecfa9; 0xf6bb4b60; 0xbebfbc70;
   0x289b7ec6; 0xeaa127fa; 0xd4ef3085; 0x04881d05;
   0xd9d4d039; 0xe6db99e5; 0x1fa27cf8; 0xc4ac5665;
   0xf4292244; 0x432aff97; 0xab9423a7; 0xfc93a039;
   0x655b59c3; 0x8f0ccc92; 0xffeff47d; 0x85845dd1;
   0x6fa87e4f; 0xfe2ce6e0; 0xa3014314; 0x4e0811a1;
   0xf7537e82; 0xbd3af235; 0x2ad7d2bb; 0xeb86d391].

Definition r : list Z :=
  [7; 12; 17; 22; 7; 12; 17; 22; 7; 12; 17; 22; 7; 12; 17; 22;
   5; 9; 14; 20; 5; 9; 14; 20; 5; 9; 14; 20; 5; 9; 14; 20;
   4; 11; 16; 23; 4; 11; 16; 23; 4; 11; 16; 23; 4; 11; 16; 23;
   6; 10; 15; 21; 6; 10; 15; 21; 6; 10; 15; 21; 6; 10; 15; 21].

Definition LEFTROTATE (x c : Z) : Z := (x << c || x >> (32 - c))%W.

(** The loop from round [i] on, [n] rounds being left. *)
Fixpoint md5_loop (n : nat) (i : Z) (w : list Z) (a b c d : Z) : option (Z * Z * Z * Z) :=
  match n with
  | O => Some (a, b, c, d)
  | S n =>
      let '(f, g) :=
        if i <? 16 then ((b & c || (~~ b) & d), i)%W
        else if i <? 32 then ((d & b || (~~ d) & c)%W, (5 * i + 1) mod 16)
        else if i <? 48 then ((b ^^ c ^^ d)%W, (3 * i + 5) mod 16)
        else ((c ^^ (b || ~~ d))%W, (7 * i) mod 16) in
      ki ← aget k i; wg ← aget w g; ri ← aget r i;
      md5_loop n (i + 1) w d (b +% LEFTROTATE (a +% f +% ki +% wg) ri)%W b c
  end.

Definition digest_md5 (w : list Z) : option (Z * Z * Z * Z) :=
  md5_loop 64 0 w 0x67452301 0xefcdab89 0x98badcfe 0x10325476.

(** [x] and [y] are pairs of words. *)
Definition hmac (x y : Z * Z) : option (Z * Z) :=
  let q := [x.2; x.1; y.2; y.1] in
  '(r0, r1, r2, r3) ← digest_md5 (q ++ q ++ q ++ q);
  Some (r2 ^^ r3, r0 ^^ r1)%W.

Definition hmac_md5 (x y : Z * Z) : option (Z * Z) :=
  let q := [x.1; x.2; y.1; y.2] in
  '(r0, r1, r2, r3) ← digest_md5 (q ++ q ++ q ++ [0x80; 0; 384; 0]);
  Some ((r0 +% 0x67452301) ^^ (r2 +% 0x98badcfe), (r1 +% 0xefcdab89) ^^ (r3 +% 0x10325476))%W.

(** ** Arguments and results *)

(** The two words of an 8-byte string. *)
Definition words64 (x : list Z) : option (Z * Z) :=
  x0 ← aget x 0; x1 ← aget x 1; x2 ← aget x 2; x3 ← aget x 3;
  x4 ← aget x 4; x5 ← aget x 5; x6 ← aget x 6; x7 ← aget x 7;
  Some (x0 || x1 << 8 || x2 << 16 || x3 << 24, x4 || x5 << 8 || x6 << 16 || x7 << 24)%W.

Definition read64 (x y : list Z) : option (unit + (Z * Z) * (Z * Z)) :=
  if negb (Z.of_nat (length x) =? 8) then Some (inl tt)
  else if negb (Z.of_nat (length y) =? 8) then Some (inl tt)
  else xx ← words64 x; yy ← words64 y; Some (inr (xx, yy)).

Definition pushqword (result : Z * Z) : list Z :=
  [result.1 & 0xff; (result.1 >> 8) & 0xff; (result.1 >> 16) & 0xff; (result.1 >> 24) & 0xff;
   result.2 & 0xff; (result.2 >> 8) & 0xff; (result.2 >> 16) & 0xff; (result.2 >> 24) & 0xff]%W.

Definition lhmac64 (x y : list Z) : option (unit + list Z) :=
  e ← read64 x y;
  match e with
  | inl e => Some (inl e)
  | inr (x, y) => result ← hmac x y; Some (inr (pushqword result))
  end.

Definition lhmac64_md5 (x y : list Z) : option (unit + list Z) :=
  e ← read64 x y;
  match e with
  | inl e => Some (inl e)
  | inr (x, y) => result ← hmac_md5 x y; Some (inr (pushqword result))
  end.

Definition lhmac_hash (x text : list Z) : option (unit + list Z) :=
  if negb (Z.of_nat (length x) =? 8) then Some (inl tt)
  else
    key ← words64 x;
    htext ← words64 (Hash text);
    result ← hmac htext key; Some (inr (pushqword result)).

(** ** MD5 (RFC 1321) *)

Definition state : Type := Z * Z * Z * Z.

(** Round [j / 16] and step [j mod 16]: the auxiliary function and the word used. *)
Definition md5_aux (j : nat) (b c d : Z) : Z :=
  match (j / 16)%nat with
  | 0%nat => (b & c || (~~ b) & d)%W
  | 1%nat => (b & d || c & (~~ d))%W
  | 2%nat => (b ^^ c ^^ d)%W
  | _ => (c ^^ (b || ~~ d))%W
  end.

Definition md5_word (j : nat) : nat :=
  match (j / 16)%nat with
  | 0%nat => j mod 16
  | 1%nat => (1 + 5 * j) mod 16
  | 2%nat => (5 + 3 * j) mod 16
  | _ => (7 * j) mod 16
  end.

Definition md5_shift (j : nat) : Z :=
  nth (j mod 4) (nth (j / 16) [[7; 12; 17; 22]; [5; 9; 14; 20]; [4; 11; 16; 23]; [6; 10; 15; 21]] []) 0.

Definition md5_step (w : list Z) (s : state) (j : nat) : state :=
  let '(a, b, c, d) := s in
  (d, b +% rotl (a +% md5_aux j b c d +% nth j k 0 +% nth (md5_word j) w 0) (md5_shift j), b, c)%W.

Definition md5_rounds (h : state) (w : list Z) : state := foldl (md5_step w) h (seq 0 64).

Definition md5_compress (h : state) (w : list Z) : state :=
  let '(a, b, c, d) := md5_rounds h w in
  let '(a0, b0, c0, d0) := h in (a0 +% a, b0 +% b, c0 +% c, d0 +% d)%W.

Fixpoint le_words (n : nat) (m : list Z) : list Z :=
  match n with O => [] | S n => le_val (take 4 m) :: le_words n (drop 4 m) end.

Fixpoint md5_blocks (n : nat) (h : state) (m : list Z) : state :=
  match n with O => h | S n => md5_blocks n (md5_compress h (le_words 16 (take 64 m))) (drop 64 m) end.

Definition md5_pad (m : list Z) : list Z :=
  m ++ 0x80 :: replicate ((119 - length m mod 64) mod 64) 0 ++ le_bytes 8 (8 * Z.of_nat (length m)).

Definition md5 (m : list Z) : list Z :=
  let p := md5_pad m in
  let '(a, b, c, d) := md5_blocks (length p / 64) (0x67452301, 0xefcdab89, 0x98badcfe, 0x10325476) p in
  le_bytes 4 a ++ le_bytes 4 b ++ le_bytes 4 c ++ le_bytes 4 d.

(** The test suite of the RFC. *)
Example md5_abc : ltohex (md5 (chars "abc")) = Some (chars "900150983cd24fb0d6963f7d28e17f72").
Proof. vm_compute. reflexivity. Qed.
Example md5_long : ltohex (md5 (chars "12345678901234567890123456789012345678901234567890123456789012345678901234567890")) =
  Some (chars "57edf4a22be3c955ac49da2e2107b67a").
Proof. vm_compute. reflexivity. Qed.

(** ** The compression function is that of MD5 *)

Lemma md5_tables (j : nat) : (j < 64)%nat → aget k (Z.of_nat j) = Some (nth j k 0) ∧ aget r (Z.of_nat j) = Some (md5_shift j).
Proof.
  intros Hj. rewrite !aget_nat.
  assert (∀ j, In j (seq 0 64) → k !! j = Some (nth j k 0) ∧ r !! j = Some (md5_shift j)) as H; [|apply H, in_seq; lia].
  apply List.Forall_forall. cbn [seq]. repeat (constructor; [split; vm_compute; reflexivity|]). constructor.
Qed.

Lemma md5_select (j : nat) b c d :
  (j < 64)%nat →
  (if Z.of_nat j <? 16 then ((b & c || (~~ b) & d), Z.of_nat j)%W
   else if Z.of_nat j <? 32 then ((d & b || (~~ d) & c)%W, (5 * Z.of_nat j + 1) mod 16)
   else if Z.of_nat j <? 48 then ((b ^^ c ^^ d)%W, (3 * Z.of_nat j + 5) mod 16)
   else ((c ^^ (b || ~~ d))%W, (7 * Z.of_nat j) mod 16)) = (md5_aux j b c d, Z.of_nat (md5_word j)).
Proof.
  intros Hj. unfold md5_aux, md5_word.
  destruct (Z.ltb_spec (Z.of_nat j) 16); [|destruct (Z.ltb_spec (Z.of_nat j) 32); [|destruct (Z.ltb_spec (Z.of_nat j) 48)]].
  - rewrite Nat.div_small, Nat.mod_small by lia. done.
  - replace (j / 16)%nat with 1%nat by (apply Nat.div_unique with (j - 16)%nat; lia).
    rewrite Nat2Z.inj_mod, (Z.land_comm d b), (Z.land_comm _ c). do 2 f_equal; lia.
  - replace (j / 16)%nat with 2%nat by (apply Nat.div_unique with (j - 32)%nat; lia).
    rewrite Nat2Z.inj_mod. do 2 f_equal; lia.
  - replace (j / 16)%nat with 3%nat by (apply Nat.div_unique with (j - 48)%nat; lia).
    rewrite Nat2Z.inj_mod. do 2 f_equal; lia.
Qed.

Lemma md5_word_lt j : (md5_word j < 16)%nat.
Proof. unfold md5_word. repeat case_match; apply Nat.mod_upper_bound; lia. Qed.

Lemma md5_loop_spec n j w a b c d :
  length w = 16%nat → (j + n = 64)%nat →
  md5_loop n (Z.of_nat j) w a b c d = Some (foldl (md5_step w) (a, b, c, d) (seq j n)).
Proof.
  intros Hw. revert j a b c d. induction n as [|n IH]; intros j a b c d Hj; [done|]. cbn [md5_loop seq foldl].
  rewrite md5_select by lia. destruct (md5_tables j ltac:(lia)) as [-> ->]. cbn [mbind option_bind].
  pose proof (md5_word_lt j). rewrite aget_nat. destruct (lookup_lt_is_Some_2 w (md5_word j)) as [x Hx]; [lia|].
  rewrite Hx. cbn [mbind option_bind]. replace (Z.of_nat j + 1) with (Z.of_nat (S j)) by lia. rewrite IH by lia.
  assert (md5_step w (a, b, c, d) j =
    (d, b +% LEFTROTATE (a +% md5_aux j b c d +% nth j k 0 +% x) (md5_shift j), b, c)%W) as ->; [|reflexivity].
  unfold md5_step, LEFTROTATE, rotl. rewrite <- (nth_lookup_Some w (md5_word j) 0 x Hx). reflexivity.
Qed.

Lemma digest_md5_spec w :
  length w = 16%nat →
  digest_md5 w = Some (md5_rounds (0x67452301, 0xefcdab89, 0x98badcfe, 0x10325476) w).
Proof.
  intros Hw.
  pose proof (md5_loop_spec 64 0 w 0x67452301 0xefcdab89 0x98badcfe 0x10325476 Hw eq_refl) as H.
  change (Z.of_nat 0) with 0 in H. exact H.
Qed.

#[local] Opaque md5_rounds digest_md5.

(** ** Words and bytes *)

Lemma words64_spec x :
  Forall byte_ok x → length x = 8%nat → words64 x = Some (le_val (take 4 x), le_val (drop 4 x)).
Proof.
  intros Hx Hl. destruct x as [|x0 [|x1 [|x2 [|x3 [|x4 [|x5 [|x6 [|x7 [|]]]]]]]]]; try done.
  rewrite !Forall_cons in Hx. destruct Hx as (H0 & H1 & H2 & H3 & H4 & H5 & H6 & H7 & _).
  assert (E : ∀ a b c d, byte_ok a → byte_ok b → byte_ok c → byte_ok d → (a || b << 8 || c << 16 || d << 24)%W = le_val [a; b; c; d]).
  { intros a b c d Ha Hb Hc Hd. rewrite !shl_byte by (done || lia). unfold byte_ok in *.
    rewrite (lor_add a b 8), (lor_add _ c 16), (lor_add _ d 24) by (lia || change (2 ^ 8) with 256; change (2 ^ 16) with 65536; change (2 ^ 24) with 16777216; lia).
    rewrite !le_val_cons by done. change (le_val []) with 0.
    change (2 ^ 8) with 256. change (2 ^ 16) with 65536. change (2 ^ 24) with 16777216. lia. }
  transitivity (Some (x0 || x1 << 8 || x2 << 16 || x3 << 24, x4 || x5 << 8 || x6 << 16 || x7 << 24)%W); [reflexivity|].
  cbn [take drop]. by rewrite !E.
Qed.

Lemma pushqword_spec p : pushqword p = le_bytes 4 p.1 ++ le_bytes 4 p.2.
Proof.
  unfold pushqword. rewrite !(land_low _ 8 0xff) by done. cbn [le_bytes app]. rewrite !Z.shiftr_shiftr by lia. done.
Qed.

Lemma read64_spec x y :
  Forall byte_ok x → Forall byte_ok y →
  read64 x y = Some (if decide (length x = 8 ∧ length y = 8)%nat
    then inr ((le_val (take 4 x), le_val (drop 4 x)), (le_val (take 4 y), le_val (drop 4 y))) else inl tt).
Proof.
  intros Hx Hy. unfold read64. destruct (decide _) as [[Hlx Hly]|Hne].
  - rewrite Hlx, Hly. change (Z.of_nat 8 =? 8) with true. cbn [negb]. by rewrite !words64_spec.
  - destruct (Z.eqb_spec (Z.of_nat (length x)) 8); [|done]. destruct (Z.eqb_spec (Z.of_nat (length y)) 8); [lia|done].
Qed.

(** Steps a bind without computing what follows. *)
Lemma bind_Some_l {A B} (f : A → option B) x : (Some x ≫= f) = f x.
Proof. done. Qed.

(** ** hmac64_md5 *)

(** One block of the padded message: the 16 words of [q ++ q ++ q] and the padding. *)
Definition triple (x y : list Z) : list Z := (x ++ y) ++ (x ++ y) ++ (x ++ y).

Lemma triple_words x y :
  length x = 8%nat → length y = 8%nat →
  let q := [le_val (take 4 x); le_val (drop 4 x); le_val (take 4 y); le_val (drop 4 y)] in
  length (md5_pad (triple x y)) = 64%nat ∧ le_words 16 (take 64 (md5_pad (triple x y))) = q ++ q ++ q ++ [0x80; 0; 384; 0].
Proof.
  intros Hx Hy. destruct x as [|x0 [|x1 [|x2 [|x3 [|x4 [|x5 [|x6 [|x7 [|]]]]]]]]]; try done.
  destruct y as [|y0 [|y1 [|y2 [|y3 [|y4 [|y5 [|y6 [|y7 [|]]]]]]]]]; try done.
Qed.

Definition xor_halves (m : list Z) : list Z := zip_with Z.lxor (take 8 m) (drop 8 m).

Definition digest_bytes (s : state) : list Z :=
  let '(a, b, c, d) := s in le_bytes 4 a ++ le_bytes 4 b ++ le_bytes 4 c ++ le_bytes 4 d.

Lemma md5_one_block m w :
  length (md5_pad m) = 64%nat → le_words 16 (take 64 (md5_pad m)) = w →
  md5 m = digest_bytes (md5_compress (0x67452301, 0xefcdab89, 0x98badcfe, 0x10325476) w).
Proof. intros Hl Hw. unfold md5. rewrite Hl. change (64 / 64)%nat with 1%nat. cbn [md5_blocks]. by rewrite Hw. Qed.

Lemma xor_digest a b c d :
  xor_halves (digest_bytes (a, b, c, d)) = pushqword (a ^^ c, b ^^ d)%W.
Proof.
  rewrite pushqword_spec. unfold xor_halves, digest_bytes. cbn [fst snd].
  rewrite app_assoc, take_app_length', drop_app_length' by (rewrite length_app, !length_le_bytes; done).
  rewrite zip_with_app by (by rewrite !length_le_bytes). by rewrite !le_bytes_lxor.
Qed.

Lemma hmac_md5_spec x1 x2 y1 y2 :
  ∃ p, hmac_md5 (x1, x2) (y1, y2) = Some p ∧
    pushqword p = xor_halves (digest_bytes (md5_compress (0x67452301, 0xefcdab89, 0x98badcfe, 0x10325476)
      ([x1; x2; y1; y2] ++ [x1; x2; y1; y2] ++ [x1; x2; y1; y2] ++ [0x80; 0; 384; 0]))).
Proof.
  unfold hmac_md5, md5_compress. cbn [fst snd]. rewrite digest_md5_spec by done. cbn [mbind option_bind].
  destruct (md5_rounds _ _) as [[[a b] c] d]. eexists. split; [done|]. rewrite xor_digest.
  by rewrite (add32_comm a), (add32_comm b), (add32_comm c), (add32_comm d).
Qed.

(** [hmac64_md5] is what the comment above it says: the two
    halves of the MD5 digest (RFC 1321, padding included) of the 16 bytes of the two
    arguments repeated 3 times, xored together; arguments that have not 8 bytes are
    Lua errors. *)
Theorem hmac64_md5_is_md5 x y :
  Forall byte_ok x → Forall byte_ok y →
  lhmac64_md5 x y =
    if decide (length x = 8 ∧ length y = 8)%nat then Some (inr (xor_halves (md5 (triple x y)))) else Some (inl tt).
Proof.
  intros Hx Hy. unfold lhmac64_md5. rewrite read64_spec, bind_Some_l by done.
  destruct (decide _) as [[Hlx Hly]|Hne]; [|done]. cbn beta iota.
  destruct (triple_words x y Hlx Hly) as [Hlen Hw]. rewrite (md5_one_block _ _ Hlen Hw).
  edestruct hmac_md5_spec as (p & -> & E). rewrite bind_Some_l. by rewrite E.
Qed.

Lemma hmac64_md5_is_md5_witness :
  lhmac64_md5 [1; 2; 3; 4; 5; 6; 7; 8] [8; 7; 6; 5; 4; 3; 2; 1] =
    Some (inr (xor_halves (md5 (triple [1; 2; 3; 4; 5; 6; 7; 8] [8; 7; 6; 5; 4; 3; 2; 1])))).
Proof.
  apply (hmac64_md5_is_md5 [1; 2; 3; 4; 5; 6; 7; 8] [8; 7; 6; 5; 4; 3; 2; 1]); repeat constructor; unfold byte_ok; lia.
Defined.

(** ** Types *)

Lemma Hash_ok s : Forall byte_ok (Hash s) ∧ length (Hash s) = 8%nat.
Proof.
  unfold Hash. destruct (Hash_loop s _ _) as [d j]. split; [|done].
  rewrite !(land_low _ 8 0xff) by done. change (2 ^ 8) with 256. repeat constructor; apply Z.mod_pos_bound; lia.
Qed.

Lemma hmac_total x y : ∃ p, hmac x y = Some p.
Proof.
  unfold hmac. rewrite digest_md5_spec by done. cbn [mbind option_bind].
  destruct (md5_rounds _ _) as [[[a b] c] d]. by eexists.
Qed.

(** [hashkey] gives 8 bytes for any string, and [hmac64] and [hmac_hash] give
    8 bytes when their keys have 8 bytes: what one of them returns, the others accept
    as a key; no table or argument is read out of range. *)
Theorem hmac_types x y text :
  Forall byte_ok x → length x = 8%nat → Forall byte_ok y → length y = 8%nat →
  (Forall byte_ok (lhashkey text) ∧ length (lhashkey text) = 8%nat) ∧
  (∃ h, lhmac64 x y = Some (inr h) ∧ Forall byte_ok h ∧ length h = 8%nat) ∧
  (∃ h, lhmac_hash x text = Some (inr h) ∧ Forall byte_ok h ∧ length h = 8%nat) ∧
  lhmac_hash x text = lhmac64 (lhashkey text) x.
Proof.
  intros Hx Hlx Hy Hly. destruct (Hash_ok text) as [Hh1 Hh2].
  assert (Hq : ∀ p, Forall byte_ok (pushqword p) ∧ length (pushqword p) = 8%nat).
  { intros p. rewrite pushqword_spec. split; [apply Forall_app; split; apply le_bytes_ok|]. by rewrite length_app, !length_le_bytes. }
  split; [done|]. unfold lhmac64, lhmac_hash, lhashkey. rewrite !read64_spec, !bind_Some_l by done.
  rewrite !decide_True by done. rewrite Hlx. change (Z.of_nat 8 =? 8) with true. cbn [negb].
  rewrite !words64_spec, !bind_Some_l by done. cbn beta iota.
  destruct (hmac_total (le_val (take 4 x), le_val (drop 4 x)) (le_val (take 4 y), le_val (drop 4 y))) as [p1 ->].
  destruct (hmac_total (le_val (take 4 (Hash text)), le_val (drop 4 (Hash text))) (le_val (take 4 x), le_val (drop 4 x))) as [p2 ->].
  rewrite !bind_Some_l. split; [|split; [|done]]; eexists; (split; [done|]); apply Hq.
Qed.

Lemma hmac_types_witness : ∃ h, lhmac64 [1; 2; 3; 4; 5; 6; 7; 8] [8; 7; 6; 5; 4; 3; 2; 1] = Some (inr h) ∧ length h = 8%nat.
Proof.
  destruct (hmac_types [1; 2; 3; 4; 5; 6; 7; 8] [8; 7; 6; 5; 4; 3; 2; 1] []) as (_ & (h & E & _ & H) & _);
    [repeat constructor; unfold byte_ok; lia|done|repeat constructor; unfold byte_ok; lia|done|].
  exists h. split; [exact E|exact H].
Defined.
