(* ===== verification/Dh.v ===== *)
(** * Diffie-Hellman exchange: lualib-src/lua-crypt.c, [dhexchange], [dhsecret] and [randomkey]

    Arithmetic modulo the prime 2^64 - 59 on [uint64_t], where sums and doublings
    would overflow.  [inl tt] is a Lua error; running out of fuel is a C loop or
    recursion that does not end. *)
From S2P Require Import Prelude Bytes Word32 Md5.
Local Open Scope Z_scope.

Definition P : Z := 0xffffffffffffffc5.
Definition G : Z := 5.

Definition u64 (z : Z) : Z := wrap 64 z.

Fixpoint mul_mod_p_loop (fuel : nat) (a b m : Z) : option Z :=
  match fuel with
  | O => None
  | S fuel =>
      if b =? 0 then Some m
      else
        let m :=
          if Z.land b 1 =? 0 then m
          else let t := u64 (P - a) in if t <=? m then u64 (m - t) else u64 (m + a) in
        let a := if u64 (P - a) <=? a then u64 (u64 (a * 2) - P) else u64 (a * 2) in
        mul_mod_p_loop fuel a (Z.shiftr b 1) m
  end.

Definition mul_mod_p (a b : Z) : option Z := mul_mod_p_loop 65 a b 0.

Fixpoint pow_mod_p_rec (fuel : nat) (a b : Z) : option Z :=
  match fuel with
  | O => None
  | S fuel =>
      if b =? 1 then Some a
      else
        t ← pow_mod_p_rec fuel a (Z.shiftr b 1);
        t ← mul_mod_p t t;
        if b mod 2 =? 0 then Some t else mul_mod_p t a
  end.

Definition pow_mod_p (a b : Z) : option Z := pow_mod_p_rec 65 a b.

Definition powmodp (a b : Z) : option Z :=
  let a := if P <? a then a mod P else a in pow_mod_p a b.

Definition push64 (r : Z) : list Z :=
  [Z.land r 0xff; Z.land (Z.shiftr r 8) 0xff; Z.land (Z.shiftr r 16) 0xff; Z.land (Z.shiftr r 24) 0xff;
   Z.land (Z.shiftr r 32) 0xff; Z.land (Z.shiftr r 40) 0xff; Z.land (Z.shiftr r 48) 0xff; Z.land (Z.shiftr r 56) 0xff].

(** [(uint64_t)x[0] | (uint64_t)x[1] << 32]. *)
Definition join64 (x : Z * Z) : Z := Z.lor x.1 (u64 (Z.shiftl x.2 32)).

Definition ldhsecret (x y : list Z) : option (unit + list Z) :=
  e ← read64 x y;
  match e with
  | inl e => Some (inl e)
  | inr (x, y) =>
      let xx := join64 x in
      let yy := join64 y in
      if (xx =? 0) || (yy =? 0) then Some (inl tt)
      else r ← powmodp xx yy; Some (inr (push64 r))
  end.

Definition ldhexchange (x : list Z) : option (unit + list Z) :=
  if negb (Z.of_nat (length x) =? 8) then Some (inl tt)
  else
    xx ← words64 x;
    let x64 := join64 xx in
    if x64 =? 0 then Some (inl tt)
    else r ← powmodp G x64; Some (inr (push64 r)).

(** The eight values that [random] returns, in order; [char]s are signed, which
    only matters for their bits here. *)
Definition lrandomkey (rnd : list Z) : list Z :=
  let tmp := map (λ z, Z.land z 0xff) rnd in
  let x := foldl Z.lxor 0 tmp in
  if x =? 0 then match tmp with t :: tmp => Z.lor t 1 :: tmp | [] => [] end else tmp.

(** ** Multiplication and power *)

Lemma u64_small z : 0 ≤ z < 2 ^ 64 → u64 z = z.
Proof. apply wrap_small. Qed.

Lemma P_value : P = 2 ^ 64 - 59.
Proof. reflexivity. Qed.

(** The sum and the double that do not overflow. *)
Lemma add_mod_p m a :
  0 ≤ m < P → 0 ≤ a < P → (if u64 (P - a) <=? m then u64 (m - u64 (P - a)) else u64 (m + a)) = (m + a) mod P.
Proof.
  intros Hm Ha. pose proof P_value. rewrite (u64_small (P - a)) by lia. rewrite mod_once by lia.
  destruct (Z.leb_spec (P - a) m), (Z.ltb_spec (m + a) P); try lia; rewrite u64_small; lia.
Qed.

Lemma double_mod_p a :
  0 ≤ a < P → (if u64 (P - a) <=? a then u64 (u64 (a * 2) - P) else u64 (a * 2)) = (a * 2) mod P.
Proof.
  intros Ha. pose proof P_value. rewrite (u64_small (P - a)) by lia. rewrite mod_once by lia.
  destruct (Z.leb_spec (P - a) a), (Z.ltb_spec (a * 2) P); try lia; [|rewrite u64_small; lia].
  unfold u64, wrap. rewrite Zminus_mod_idemp_l. apply Z.mod_small. lia.
Qed.

Lemma mul_loop_spec (n : nat) a b m :
  0 ≤ a < P → 0 ≤ m < P → 0 ≤ b < 2 ^ Z.of_nat n →
  mul_mod_p_loop (S n) a b m = Some ((m + a * b) mod P).
Proof.
  revert a b m. induction n as [|n IH]; intros a b m Ha Hm Hb.
  { assert (b = 0) as -> by (cbn in Hb; lia). cbn [mul_mod_p_loop]. change (0 =? 0) with true. cbn match.
    rewrite Z.mul_0_r, Z.add_0_r, Z.mod_small by done. done. }
  rewrite Nat2Z.inj_succ, Z.pow_succ_r in Hb by lia. remember (S n) as k. cbn [mul_mod_p_loop].
  destruct (Z.eqb_spec b 0) as [->|Hb0]; [rewrite Z.mul_0_r, Z.add_0_r, Z.mod_small by done; done|].
  pose proof P_value as HP. cbv zeta. rewrite add_mod_p, double_mod_p by done.
  rewrite (land_low b 1 1), Z.shiftr_div_pow2 by done. change (2 ^ 1) with 2.
  pose proof (Z.div_mod b 2 ltac:(lia)) as Hd. pose proof (Z.mod_pos_bound b 2 ltac:(lia)) as Hr.
  subst k. rewrite IH; [|apply Z.mod_pos_bound; lia| |].
  - f_equal. destruct (Z.eqb_spec (b mod 2) 0) as [E|E].
    + rewrite <- Z.add_mod_idemp_r, Z.mul_mod_idemp_l, Z.add_mod_idemp_r by lia. f_equal. nia.
    + rewrite Z.add_mod_idemp_l, <- Z.add_mod_idemp_r, Z.mul_mod_idemp_l, Z.add_mod_idemp_r by lia. f_equal. nia.
  - destruct (_ =? 0); [done|]. apply Z.mod_pos_bound. lia.
  - split; [apply Z.div_pos; lia|]. apply Z.div_lt_upper_bound; lia.
Qed.

Lemma mul_mod_p_spec a b : 0 ≤ a < P → 0 ≤ b < 2 ^ 64 → mul_mod_p a b = Some ((a * b) mod P).
Proof.
  intros Ha Hb. unfold mul_mod_p. rewrite (mul_loop_spec 64); [|done|rewrite P_value; lia|done]. by rewrite Z.add_0_l.
Qed.

#[local] Opaque mul_mod_p.

Lemma pow_mod_p_spec (n : nat) a b :
  0 ≤ a < P → 1 ≤ b < 2 ^ Z.of_nat n → pow_mod_p_rec n a b = Some ((a ^ b) mod P).
Proof.
  intros Ha. revert b. induction n as [|n IH]; intros b Hb; [cbn in Hb; lia|]. pose proof P_value as HP.
  rewrite Nat2Z.inj_succ, Z.pow_succ_r in Hb by lia. cbn [pow_mod_p_rec].
  destruct (Z.eqb_spec b 1) as [->|Hb1]; [by rewrite Z.pow_1_r, Z.mod_small|].
  rewrite Z.shiftr_div_pow2 by lia. change (2 ^ 1) with 2.
  pose proof (Z.div_mod b 2 ltac:(lia)) as Hd. pose proof (Z.mod_pos_bound b 2 ltac:(lia)) as Hr.
  rewrite IH, bind_Some_l by lia.
  pose proof (Z.mod_pos_bound (a ^ (b / 2)) P ltac:(lia)) as Ht.
  rewrite mul_mod_p_spec, bind_Some_l by lia.
  rewrite Z.mul_mod_idemp_l, Z.mul_mod_idemp_r, <- Z.pow_add_r by lia.
  destruct (Z.eqb_spec (b mod 2) 0) as [E|E].
  - do 3 f_equal. lia.
  - pose proof (Z.mod_pos_bound (a ^ (b / 2 + b / 2)) P ltac:(lia)).
    rewrite mul_mod_p_spec by lia. rewrite Z.mul_mod_idemp_l by lia. f_equal. f_equal.
    rewrite <- (Z.pow_1_r a) at 2. rewrite <- Z.pow_add_r by lia. f_equal. lia.
Qed.

Lemma powmodp_spec a b : 0 ≤ a < 2 ^ 64 → a ≠ P → 1 ≤ b < 2 ^ 64 → powmodp a b = Some ((a ^ b) mod P).
Proof.
  intros Ha Hne Hb. pose proof P_value as HP. unfold powmodp, pow_mod_p. cbv zeta. destruct (Z.ltb_spec P a) as [Hlt|Hge].
  - pose proof (Z.mod_pos_bound a P ltac:(lia)). rewrite pow_mod_p_spec by (cbn; lia). by rewrite Z.mod_pow_l.
  - apply pow_mod_p_spec; cbn; lia.
Qed.
#[local] Opaque pow_mod_p powmodp.

(** ** Strings *)

Lemma push64_spec r : push64 r = le_bytes 8 r.
Proof.
  unfold push64. rewrite !(land_low _ 8 0xff) by done. cbn [le_bytes]. rewrite !Z.shiftr_shiftr by lia. done.
Qed.

Lemma le_val_app l l' : Forall byte_ok l → le_val (l ++ l') = le_val l + 2 ^ (8 * Z.of_nat (length l)) * le_val l'.
Proof.
  induction 1 as [|b l Hb Hl IH]; [cbn; lia|]. cbn [app length]. rewrite !le_val_cons, IH by done.
  replace (8 * Z.of_nat (S (length l))) with (8 + 8 * Z.of_nat (length l)) by lia.
  rewrite Z.pow_add_r by lia. change (2 ^ 8) with 256. lia.
Qed.

Lemma join64_spec x : Forall byte_ok x → length x = 8%nat → join64 (le_val (take 4 x), le_val (drop 4 x)) = le_val x.
Proof.
  intros Hx Hl. unfold join64. cbn [fst snd].
  pose proof (le_val_range (take 4 x) ltac:(by apply Forall_take)) as H1. rewrite length_take, Hl in H1.
  pose proof (le_val_range (drop 4 x) ltac:(by apply Forall_drop)) as H2. rewrite length_drop, Hl in H2.
  change (2 ^ (8 * Z.of_nat (4 `min` 8))) with (2 ^ 32) in H1. change (2 ^ (8 * Z.of_nat (8 - 4))) with (2 ^ 32) in H2.
  rewrite Z.shiftl_mul_pow2 by lia. rewrite u64_small by (change (2 ^ 64) with (2 ^ 32 * 2 ^ 32); nia).
  rewrite lor_add by lia. rewrite <- (take_drop 4 x) at 3. rewrite le_val_app by (by apply Forall_take).
  rewrite length_take, Hl. change (2 ^ (8 * Z.of_nat (4 `min` 8))) with (2 ^ 32). lia.
Qed.

Lemma le_val_64 x : Forall byte_ok x → length x = 8%nat → 0 ≤ le_val x < 2 ^ 64.
Proof. intros Hx Hl. pose proof (le_val_range x Hx) as H. by rewrite Hl in H. Qed.

Lemma ldhsecret_spec x y :
  Forall byte_ok x → length x = 8%nat → Forall byte_ok y → length y = 8%nat →
  le_val x ≠ 0 → le_val x ≠ P → le_val y ≠ 0 →
  ldhsecret x y = Some (inr (le_bytes 8 ((le_val x ^ le_val y) mod P))).
Proof.
  intros Hx Hlx Hy Hly Hx0 HxP Hy0. unfold ldhsecret. rewrite read64_spec, bind_Some_l by done. rewrite decide_True by done. cbn beta iota.
  rewrite !join64_spec by done. pose proof (le_val_64 x Hx Hlx). pose proof (le_val_64 y Hy Hly).
  destruct (Z.eqb_spec (le_val x) 0); [done|]. destruct (Z.eqb_spec (le_val y) 0); [done|]. cbn [orb].
  rewrite powmodp_spec, bind_Some_l by (done || lia). by rewrite push64_spec.
Qed.

Lemma ldhexchange_spec x :
  Forall byte_ok x → length x = 8%nat → le_val x ≠ 0 →
  ldhexchange x = Some (inr (le_bytes 8 ((G ^ le_val x) mod P))).
Proof.
  intros Hx Hlx Hx0. unfold ldhexchange. rewrite Hlx. change (Z.of_nat 8 =? 8) with true. cbn [negb].
  rewrite words64_spec, bind_Some_l by done. cbv zeta. rewrite join64_spec by done. pose proof (le_val_64 x Hx Hlx).
  destruct (Z.eqb_spec (le_val x) 0); [done|]. rewrite powmodp_spec, bind_Some_l by (done || lia). by rewrite push64_spec.
Qed.

(** A power of the generator is not 0 modulo [P]. *)
Lemma G_pow_nonzero (n : nat) : (G ^ Z.of_nat n) mod P ≠ 0.
Proof.
  assert (P ≠ 0) as HP by done. intros H%Z.mod_divide; [|done]. revert H. induction n as [|n IH]; intros H.
  - cbn in H. apply Z.divide_1_r_nonneg in H; done.
  - rewrite Nat2Z.inj_succ, Z.pow_succ_r in H by lia. apply Z.gauss in H; [by apply IH|]. vm_compute. reflexivity.
Qed.

(** C39: two parties that send each other [dhexchange] of their keys compute the same
    [dhsecret], for all keys of 8 bytes that are not 0; the exchanged values are
    never 0, so no step of the exchange is an error. *)
Theorem dh_agreement a b :
  Forall byte_ok a → length a = 8%nat → Forall byte_ok b → length b = 8%nat → le_val a ≠ 0 → le_val b ≠ 0 →
  ∃ A B s, ldhexchange a = Some (inr A) ∧ ldhexchange b = Some (inr B) ∧
    ldhsecret B a = Some (inr s) ∧ ldhsecret A b = Some (inr s).
Proof.
  intros Ha Hla Hb Hlb Ha0 Hb0. pose proof P_value as HP.
  pose proof (le_val_64 a Ha Hla) as Hra. pose proof (le_val_64 b Hb Hlb) as Hrb.
  set (A := (G ^ le_val a) mod P). set (B := (G ^ le_val b) mod P).
  assert (∀ z, 0 ≤ z → 0 < (G ^ z) mod P < P) as Hpow.
  { intros z Hz. pose proof (Z.mod_pos_bound (G ^ z) P ltac:(lia)). pose proof (G_pow_nonzero (Z.to_nat z)) as H0.
    rewrite Z2Nat.id in H0 by done. lia. }
  pose proof (Hpow (le_val a) ltac:(lia)) as HA. pose proof (Hpow (le_val b) ltac:(lia)) as HB. fold A in HA. fold B in HB.
  assert (∀ z, 0 < z < P → le_val (le_bytes 8 z) = z) as Hval.
  { intros z Hz. rewrite le_val_bytes. apply (wrap_small 64). lia. }
  exists (le_bytes 8 A), (le_bytes 8 B), (le_bytes 8 ((G ^ (le_val a * le_val b)) mod P)).
  split; [by apply ldhexchange_spec|]. split; [by apply ldhexchange_spec|].
  split; (rewrite ldhsecret_spec; [|try done; try apply le_bytes_ok; rewrite ?Hval by done; lia..]); rewrite Hval by done; do 3 f_equal.
  - unfold B. rewrite Z.mod_pow_l, <- Z.pow_mul_r by lia. by rewrite (Z.mul_comm (le_val b)).
  - unfold A. by rewrite Z.mod_pow_l, <- Z.pow_mul_r by lia.
Qed.

Lemma dh_agreement_witness :
  ∃ A B s, ldhexchange [1; 2; 3; 4; 5; 6; 7; 255] = Some (inr A) ∧ ldhexchange [9; 0; 0; 0; 0; 0; 0; 0] = Some (inr B) ∧
    ldhsecret B [1; 2; 3; 4; 5; 6; 7; 255] = Some (inr s) ∧ ldhsecret A [9; 0; 0; 0; 0; 0; 0; 0] = Some (inr s).
Proof.
  apply (dh_agreement [1; 2; 3; 4; 5; 6; 7; 255] [9; 0; 0; 0; 0; 0; 0; 0]);
    try reflexivity; try (vm_compute; discriminate); repeat constructor; unfold byte_ok; lia.
Defined.

(** [powmodp] is exponentiation modulo [P] on 64-bit integers, without
    overflow in its sums and doublings and with at most 64 nested calls, for every
    exponent but 0 (which its callers refuse) and every base but [P] itself. *)
Theorem powmodp_is_power a b :
  0 ≤ a < 2 ^ 64 → a ≠ P → 1 ≤ b < 2 ^ 64 → powmodp a b = Some ((a ^ b) mod P).
Proof. apply powmodp_spec. Qed.

Lemma powmodp_is_power_witness : powmodp (2 ^ 64 - 1) 3 = Some (58 ^ 3).
Proof. rewrite (powmodp_is_power (2 ^ 64 - 1) 3); [reflexivity|lia|discriminate|lia]. Defined.

(** The reduction [if (a > P)] leaves the base [P]: the result should be 0. *)
Theorem powmodp_of_P : powmodp P 1 = Some P.
Proof. vm_compute. reflexivity. Qed.

(** Whatever [random] returns, [randomkey] has 8 bytes that are not all 0. *)
Lemma randomkey_nonzero rnd :
  length rnd = 8%nat →
  Forall byte_ok (lrandomkey rnd) ∧ length (lrandomkey rnd) = 8%nat ∧ le_val (lrandomkey rnd) ≠ 0.
Proof.
  intros Hl. unfold lrandomkey. set (tmp := map _ rnd).
  assert (Forall byte_ok tmp ∧ length tmp = 8%nat) as [Ht Hlt].
  { unfold tmp. rewrite length_map. split; [|done]. apply List.Forall_map, List.Forall_forall. intros z _.
    rewrite (land_low z 8 0xff) by done. apply Z.mod_pos_bound. done. }
  assert (Hz : ∀ l acc, le_val l = 0 → Forall byte_ok l → foldl Z.lxor acc l = acc).
  { intros l acc H0 Hb. revert acc. induction Hb as [|b l Hb Hbl IH]; intros acc; [done|]. rewrite le_val_cons in H0 by done.
    pose proof (le_val_range l Hbl). unfold byte_ok in Hb. cbn [foldl]. replace b with 0 by lia. rewrite Z.lxor_0_r. apply IH. lia. }
  destruct (Z.eqb_spec (foldl Z.lxor 0 tmp) 0) as [E|E].
  - destruct tmp as [|t tmp]; [done|]. apply Forall_cons in Ht as [Ht1 Ht2].
    assert (byte_ok (Z.lor t 1) ∧ Z.lor t 1 ≠ 0) as [H1 H2].
    { pose proof (byte_forall (λ t, (0 <? Z.lor t 1) && (Z.lor t 1 <? 256)) ltac:(vm_compute; reflexivity) t Ht1) as H.
      cbn beta in H. unfold byte_ok. lia. }
    split; [by constructor|]. split; [done|]. rewrite le_val_cons by done. pose proof (le_val_range tmp Ht2). unfold byte_ok in H1. lia.
  - split; [done|]. split; [done|]. intros H0. apply E. by apply Hz.
Qed.
