(* ===== verification/Sha1.v ===== *)
(** * SHA-1 and HMAC-SHA1: lualib-src/lsha1.c

    The incremental hash with its context, as the code computes it on a
    little-endian machine, and the standards it implements: SHA-1 (FIPS 180) and
    HMAC (RFC 2104). *)
From Stdlib Require Import String.
From S2P Require Import Prelude Bytes Buffer Word32 Codec.
Local Open Scope Z_scope.

(** ** The compression function *)

Definition state : Type := Z * Z * Z * Z * Z.

Definition rol (value bits : Z) : Z := (value << bits || value >> (32 - bits))%W.

(** The words of [block], of which there are 16; the index is masked. *)
Definition bl (block : list Z) (i : Z) : Z := nth (Z.to_nat (Z.land i 15)) block 0.

Definition blk0 (block : list Z) (i : Z) : Z * list Z :=
  let l := bl block i in
  let x := ((rol l 24 & 0xFF00FF00) || (rol l 8 & 0x00FF00FF))%W in
  (x, <[Z.to_nat i := x]> block).

Definition blk (block : list Z) (i : Z) : Z * list Z :=
  let x := rol (bl block (i + 13) ^^ bl block (i + 8) ^^ bl block (i + 2) ^^ bl block i)%W 1 in
  (x, <[Z.to_nat (Z.land i 15) := x]> block).

(** [R0] to [R4]: the function of the round and its constant. *)
Definition round_f (i w x y : Z) : Z :=
  if i <? 20 then ((w & (x ^^ y)) ^^ y)%W
  else if i <? 40 then (w ^^ x ^^ y)%W
  else if i <? 60 then (((w || x) & y) || (w & x))%W
  else (w ^^ x ^^ y)%W.

Definition round_k (i : Z) : Z :=
  if i <? 20 then 0x5A827999 else if i <? 40 then 0x6ED9EBA1 else if i <? 60 then 0x8F1BBCDC else 0xCA62C1D6.

(** The calls of [R0] to [R4] from the [i]-th on, [n] being left.  Each names the
    variables one place further: here they move instead. *)
Fixpoint rounds (n : nat) (i : Z) (block : list Z) (s : state) : state :=
  match n with
  | O => s
  | S n =>
      let '(v, w, x, y, z) := s in
      let '(b, block) := if i <? 16 then blk0 block i else blk block i in
      rounds n (i + 1) block ((z +% (round_f i w x y +% b +% round_k i +% rol v 5))%W, v, rol w 30, x, y)
  end.

(** The word [i] of the union: the bytes are in memory order. *)
Fixpoint memory_words (n : nat) (m : list Z) : list Z :=
  match n with O => [] | S n => le_val (take 4 m) :: memory_words n (drop 4 m) end.

(** [buffer] is the memory from the pointer on, of which 64 bytes are read. *)
Definition SHA1_Transform (st : state) (buffer : list Z) : option state :=
  if Z.of_nat (length buffer) <? 64 then None
  else
    let '(a, b, c, d, e) := rounds 80 0 (memory_words 16 (take 64 buffer)) st in
    let '(s0, s1, s2, s3, s4) := st in
    Some (s0 +% a, s1 +% b, s2 +% c, s3 +% d, s4 +% e)%W.

(** ** The context *)

Record SHA1_CTX := mkCtx { ctx_state : state; ctx_count : Z * Z; ctx_buffer : list Z }.

(** The buffer is not initialised: [junk] is what it holds. *)
Definition sat_SHA1_Init (junk : list Z) : SHA1_CTX :=
  mkCtx (0x67452301, 0xEFCDAB89, 0x98BADCFE, 0x10325476, 0xC3D2E1F0) (0, 0) junk.

(** The bit count; [len] is a [size_t], the counters are [uint32_t]. *)
Definition count_add (count : Z * Z) (len : Z) : Z * Z :=
  let bits := wrap 64 (Z.shiftl len 3) in
  let c0 := wrap 32 (count.1 + bits) in
  let c1 := if c0 <? bits then (count.2 +% 1)%W else count.2 in
  (c0, (c1 +% Z.shiftr len 29)%W).

(** [data] is what follows [data + i]. *)
Fixpoint transform_loop (fuel : nat) (st : state) (data : list Z) : option (state * list Z) :=
  match fuel with
  | O => None
  | S fuel =>
      if 63 <? Z.of_nat (length data) then st ← SHA1_Transform st data; transform_loop fuel st (drop 64 data)
      else Some (st, data)
  end.

Definition sat_SHA1_Update (ctx : SHA1_CTX) (data : list Z) : option SHA1_CTX :=
  let len := Z.of_nat (length data) in
  let j := Z.land (Z.shiftr (ctx_count ctx).1 3) 63 in
  let count := count_add (ctx_count ctx) len in
  if 63 <? j + len then
    let i := 64 - j in
    buffer ← write_at (ctx_buffer ctx) j (take (Z.to_nat i) data);
    st ← SHA1_Transform (ctx_state ctx) buffer;
    '(st, data) ← transform_loop (S (length data)) st (drop (Z.to_nat i) data);
    buffer ← write_at buffer 0 data;
    Some (mkCtx st count buffer)
  else
    buffer ← write_at (ctx_buffer ctx) j data;
    Some (mkCtx (ctx_state ctx) count buffer).

(** The loop that pads with zeros. *)
Fixpoint pad_loop (fuel : nat) (ctx : SHA1_CTX) : option SHA1_CTX :=
  match fuel with
  | O => None
  | S fuel =>
      if Z.land (ctx_count ctx).1 504 =? 448 then Some ctx
      else ctx ← sat_SHA1_Update ctx [0]; pad_loop fuel ctx
  end.

Definition final_byte (w i : Z) : Z := Z.land (Z.shiftr w ((3 - Z.land i 3) * 8)) 255.

Definition state_list (s : state) : list Z := let '(a, b, c, d, e) := s in [a; b; c; d; e].

Definition sat_SHA1_Final (ctx : SHA1_CTX) : option (list Z) :=
  let finalcount := map (λ i, final_byte (if 4 <=? i then (ctx_count ctx).1 else (ctx_count ctx).2) i)
    [0; 1; 2; 3; 4; 5; 6; 7] in
  ctx ← sat_SHA1_Update ctx [128];
  ctx ← pad_loop 65 ctx;
  ctx ← sat_SHA1_Update ctx finalcount;
  Some (map (λ i, final_byte (nth (Z.to_nat (Z.shiftr i 2)) (state_list (ctx_state ctx)) 0) i)
    (map Z.of_nat (seq 0 20))).

(** Uninitialised memory. *)
Definition junk64 : list Z := replicate 64 0.

Definition lsha1 (buffer : list Z) : option (list Z) :=
  ctx ← sat_SHA1_Update (sat_SHA1_Init junk64) buffer; sat_SHA1_Final ctx.

(** ** lhmac_sha1 *)

Definition BLOCKSIZE : Z := 64.

(** [xor_] into each word of the key. *)
Fixpoint xor_key (n : nat) (key : list Z) (xor_ : Z) : list Z :=
  match n with
  | O => key
  | S n => le_bytes 4 (Z.lxor (le_val (take 4 key)) xor_) ++ xor_key n (drop 4 key) xor_
  end.

Definition lhmac_sha1 (key text : list Z) : option (list Z) :=
  let rkey := replicate (Z.to_nat BLOCKSIZE) 0 in
  rkey ← (if BLOCKSIZE <? Z.of_nat (length key) then
            ctx ← sat_SHA1_Update (sat_SHA1_Init junk64) key;
            digest ← sat_SHA1_Final ctx; write_at rkey 0 digest
          else write_at rkey 0 key);
  let rkey := xor_key 16 rkey 0x5c5c5c5c in
  ctx1 ← sat_SHA1_Update (sat_SHA1_Init junk64) rkey;
  let rkey := xor_key 16 rkey (Z.lxor 0x5c5c5c5c 0x36363636) in
  ctx2 ← sat_SHA1_Update (sat_SHA1_Init junk64) rkey;
  ctx2 ← sat_SHA1_Update ctx2 text;
  digest2 ← sat_SHA1_Final ctx2;
  ctx1 ← sat_SHA1_Update ctx1 digest2;
  sat_SHA1_Final ctx1.

(** The test vectors of the source, and a test case of RFC 2202. *)
Example sha1_abc : lsha1 (chars "abc") ≫= ltohex = Some (chars "a9993e364706816aba3e25717850c26c9cd0d89d").
Proof. vm_compute. reflexivity. Qed.
Example sha1_56 : lsha1 (chars "abcdbcdecdefdefgefghfghighijhijkijkljklmklmnlmnomnopnopq") ≫= ltohex =
  Some (chars "84983e441c3bd26ebaae4aa1f95129e5e54670f1").
Proof. vm_compute. reflexivity. Qed.
Example hmac_jefe : lhmac_sha1 (chars "Jefe") (chars "what do ya want for nothing?") ≫= ltohex =
  Some (chars "effcdf6ae5eb2fa2d27416d5f184df9c259a7c79").
Proof. vm_compute. reflexivity. Qed.

(** ** SHA-1 (FIPS 180) and HMAC (RFC 2104) *)

Definition sha1_f (t : nat) (x y z : Z) : Z :=
  if (t <? 20)%nat then ((x & y) ^^ (Z.lnot x & z))%W
  else if (t <? 40)%nat then (x ^^ y ^^ z)%W
  else if (t <? 60)%nat then ((x & y) ^^ (x & z) ^^ (y & z))%W
  else (x ^^ y ^^ z)%W.

Definition sha1_k (t : nat) : Z :=
  if (t <? 20)%nat then 0x5A827999 else if (t <? 40)%nat then 0x6ED9EBA1
  else if (t <? 60)%nat then 0x8F1BBCDC else 0xCA62C1D6.

(** The message schedule: [n] words more, from the last 16. *)
Fixpoint sha1_expand (n : nat) (w : list Z) : list Z :=
  match n with
  | O => []
  | S n =>
      let x := rotl (nth 13 w 0 ^^ nth 8 w 0 ^^ nth 2 w 0 ^^ nth 0 w 0)%W 1 in
      x :: sha1_expand n (tail w ++ [x])
  end.

Definition sha1_step (s : state) (tw : nat * Z) : state :=
  let '(a, b, c, d, e) := s in
  ((rotl a 5 +% sha1_f tw.1 b c d +% e +% sha1_k tw.1 +% tw.2)%W, a, rotl b 30, c, d).

Definition sha1_compress (h : state) (w : list Z) : state :=
  let '(a, b, c, d, e) := foldl sha1_step h (zip (seq 0 80) (w ++ sha1_expand 64 w)) in
  let '(h0, h1, h2, h3, h4) := h in (h0 +% a, h1 +% b, h2 +% c, h3 +% d, h4 +% e)%W.

Fixpoint be_words (n : nat) (m : list Z) : list Z :=
  match n with O => [] | S n => be_val (take 4 m) :: be_words n (drop 4 m) end.

Fixpoint sha1_blocks (n : nat) (h : state) (m : list Z) : state :=
  match n with O => h | S n => sha1_blocks n (sha1_compress h (be_words 16 (take 64 m))) (drop 64 m) end.

Definition sha1_init : state := (0x67452301, 0xEFCDAB89, 0x98BADCFE, 0x10325476, 0xC3D2E1F0).

Definition sha1_zeros (len : nat) : nat := (119 - len mod 64) mod 64.

Definition sha1_pad (m : list Z) : list Z :=
  m ++ 128 :: replicate (sha1_zeros (length m)) 0 ++ be_bytes 8 (8 * Z.of_nat (length m)).

Definition sha1 (m : list Z) : list Z :=
  let p := sha1_pad m in
  concat (map (be_bytes 4) (state_list (sha1_blocks (length p / 64) sha1_init p))).

Definition hmac_key (key : list Z) : list Z :=
  let k := if (64 <? length key)%nat then sha1 key else key in k ++ replicate (64 - length k) 0.

Definition hmac_sha1 (key text : list Z) : list Z :=
  sha1 (map (Z.lxor 0x5c) (hmac_key key) ++ sha1 (map (Z.lxor 0x36) (hmac_key key) ++ text)).

(** ** The rounds *)

(** The bits of a little-endian value. *)
Lemma le_val_bit l i :
  Forall byte_ok l → 0 ≤ i → Z.testbit (le_val l) i = Z.testbit (nth (Z.to_nat (i / 8)) l 0) (i mod 8).
Proof.
  intros Hl. revert i. induction Hl as [|x l Hx Hl IH]; intros i Hi.
  { rewrite Z.bits_0. destruct (Z.to_nat (i / 8)); by rewrite Z.bits_0. }
  cbn [le_val]. rewrite Z.lor_spec. pose proof (Z.mod_pos_bound i 8 ltac:(lia)) as Hr.
  destruct (Z.lt_ge_cases i 8) as [H8|H8].
  - rewrite Z.shiftl_spec_low by lia. rewrite Z.div_small, Z.mod_small by lia. apply orb_false_r.
  - rewrite Z.shiftl_spec, IH by lia. rewrite <- (Z.mod_small x (2 ^ 8)) at 1 by exact Hx.
    rewrite Z.mod_pow2_bits_high by lia. replace (i - 8) with (i + (-1) * 8) by lia.
    rewrite Z.div_add, Z_mod_plus_full by lia.
    replace (Z.to_nat (i / 8)) with (S (Z.to_nat (i / 8 + -1))); [done|].
    assert (8 / 8 ≤ i / 8) by (apply Z.div_le_mono; lia). change (8 / 8) with 1 in *. lia.
Qed.

Lemma le_val_32 m : Forall byte_ok m → length m = 4%nat → w32 (le_val m).
Proof. intros Hm Hl. pose proof (le_val_range m Hm) as H. by rewrite Hl in H. Qed.

Lemma rol_rotl x n : rol x n = rotl x n.
Proof. done. Qed.

(** Computes the bits of constants. *)
Ltac eval_masks :=
  repeat match goal with
  | |- context [Z.testbit (Zpos ?p) ?i] =>
      let t := eval vm_compute in (Z.testbit (Zpos p) i) in change (Z.testbit (Zpos p) i) with t
  end.

(** [blk0] turns the word in memory into the big-endian one. *)
Lemma swap_word m :
  Forall byte_ok m → length m = 4%nat →
  ((rol (le_val m) 24 & 0xFF00FF00) || (rol (le_val m) 8 & 0x00FF00FF))%W = be_val m.
Proof.
  intros Hm Hl. pose proof (le_val_32 m Hm Hl) as Hw. rewrite !rol_rotl.
  assert (Forall byte_ok (rev m)) as Hm' by (by apply Forall_rev). unfold be_val.
  pose proof (le_val_32 (rev m) Hm' ltac:(by rewrite length_rev)) as Hw'.
  apply w32_ext; [apply w32_lor; apply w32_land; try done; by apply w32_rotl|done|]. intros i Hi.
  rewrite Z.lor_spec, !Z.land_spec, !rotl_bit by (done || lia).
  destruct m as [|b0 [|b1 [|b2 [|b3 [|]]]]]; try done. cbn [rev app] in *.
  rewrite !le_val_bit by (done || lia || (destruct (_ <? _) eqn:E; lia)).
  assert (In i (map Z.of_nat (seq 0 32))) as Hin by (apply in_map_iff; exists (Z.to_nat i); split; [lia|apply in_seq; lia]).
  clear -Hin. revert Hin. cbn [seq map In].
  intros H. repeat (destruct H as [<-|H]; [eval_masks; lazy -[Z.testbit]; by repeat destruct (Z.testbit _ _)|]). done.
Qed.

Lemma round_f_spec (t : nat) w x y : round_f (Z.of_nat t) w x y = sha1_f t w x y.
Proof.
  unfold round_f, sha1_f.
  destruct (Z.ltb_spec (Z.of_nat t) 20) as [H1|H1], (Nat.ltb_spec t 20) as [H2|H2]; try (exfalso; lia).
  { apply Z.bits_inj'. intros i Hi. rewrite !Z.lxor_spec, !Z.land_spec, Z.lxor_spec, Z.lnot_spec by done.
    by destruct (Z.testbit w i), (Z.testbit x i), (Z.testbit y i). }
  destruct (Z.ltb_spec (Z.of_nat t) 40) as [H3|H3], (Nat.ltb_spec t 40) as [H4|H4]; try (exfalso; lia); [done|].
  destruct (Z.ltb_spec (Z.of_nat t) 60) as [H5|H5], (Nat.ltb_spec t 60) as [H6|H6]; try (exfalso; lia); [|done].
  apply Z.bits_inj'. intros i Hi. rewrite !Z.lxor_spec, !Z.lor_spec, !Z.land_spec, Z.lor_spec.
  by destruct (Z.testbit w i), (Z.testbit x i), (Z.testbit y i).
Qed.

Lemma round_k_spec (t : nat) : round_k (Z.of_nat t) = sha1_k t.
Proof.
  unfold round_k, sha1_k.
  destruct (Z.ltb_spec (Z.of_nat t) 20), (Nat.ltb_spec t 20); try (exfalso; lia); [done|].
  destruct (Z.ltb_spec (Z.of_nat t) 40), (Nat.ltb_spec t 40); try (exfalso; lia); [done|].
  destruct (Z.ltb_spec (Z.of_nat t) 60), (Nat.ltb_spec t 60); try (exfalso; lia); done.
Qed.

Lemma round_sum z f b k v : (z +% (f +% b +% k +% v) = v +% f +% z +% k +% b)%W.
Proof.
  unfold add32. rewrite (wrap_add_l 32 (f + b) k), (wrap_add_l 32 (f + b + k) v), wrap_add_r.
  rewrite (wrap_add_l 32 (v + f) z), (wrap_add_l 32 (v + f + z) k), (wrap_add_l 32 (v + f + z + k) b). f_equal. lia.
Qed.

(** One round, once the word is known. *)
Lemma rounds_step n (t : nat) block v w x y z b block' :
  (if Z.of_nat t <? 16 then blk0 block (Z.of_nat t) else blk block (Z.of_nat t)) = (b, block') →
  rounds (S n) (Z.of_nat t) block (v, w, x, y, z) = rounds n (Z.of_nat (S t)) block' (sha1_step (v, w, x, y, z) (t, b)).
Proof.
  intros E. cbn [rounds]. rewrite E. replace (Z.of_nat t + 1) with (Z.of_nat (S t)) by lia. f_equal.
  unfold sha1_step. cbn [fst snd]. by rewrite round_f_spec, round_k_spec, round_sum.
Qed.

Lemma land15 (i : nat) : Z.to_nat (Z.land (Z.of_nat i) 15) = (i mod 16)%nat.
Proof.
  rewrite (land_low _ 4 15) by done. change (2 ^ 4) with (Z.of_nat 16). by rewrite <- Nat2Z.inj_mod, Nat2Z.id.
Qed.

Lemma bl_mod block (i : nat) : bl block (Z.of_nat i) = nth (i mod 16) block 0.
Proof. unfold bl. by rewrite land15. Qed.

(** The words from the 16th on: the block holds the last 16, at the index modulo 16. *)
Lemma rounds_expand n t block win s :
  (16 ≤ t)%nat → length block = 16%nat → length win = 16%nat →
  (∀ j, (j < 16)%nat → nth ((t + j) mod 16) block 0 = nth j win 0) →
  rounds n (Z.of_nat t) block s = foldl sha1_step s (zip (seq t n) (sha1_expand n win)).
Proof.
  revert t block win s. induction n as [|n IH]; intros t block win s Ht Hb Hw Hwin; [done|].
  destruct s as [[[[v w] x] y] z]. cbn [sha1_expand seq zip_with foldl].
  set (next := rotl (nth 13 win 0 ^^ nth 8 win 0 ^^ nth 2 win 0 ^^ nth 0 win 0)%W 1).
  assert (blk block (Z.of_nat t) = (next, <[(t mod 16)%nat := next]> block)) as Eblk.
  { assert (Hbl : ∀ j : nat, (j < 16)%nat → bl block (Z.of_nat t + Z.of_nat j) = nth j win 0).
    { intros j Hj. rewrite <- Nat2Z.inj_add, bl_mod. by apply Hwin. }
    pose proof (Hbl 0%nat ltac:(lia)) as B0. rewrite Z.add_0_r in B0. unfold blk. rewrite land15, B0.
    change (Z.of_nat t + 13) with (Z.of_nat t + Z.of_nat 13). change (Z.of_nat t + 8) with (Z.of_nat t + Z.of_nat 8).
    change (Z.of_nat t + 2) with (Z.of_nat t + Z.of_nat 2). rewrite !Hbl by lia. done. }
  rewrite (rounds_step n t block v w x y z next (<[(t mod 16)%nat := next]> block)).
  2: { destruct (Z.ltb_spec (Z.of_nat t) 16); [lia|done]. }
  apply IH; [lia|by rewrite length_insert|destruct win; [done|]; cbn [tail]; rewrite length_app; cbn in *; lia|].
  intros j Hj. pose proof (Nat.mod_upper_bound t 16 ltac:(lia)) as Hm.
  assert (nth j (tail win ++ [next]) 0 = if decide (j = 15%nat) then next else nth (S j) win 0) as ->.
  { destruct win as [|x0 win]; [done|]. cbn [tail nth]. cbn in Hw. destruct (decide (j = 15%nat)) as [->|Hne].
    - rewrite app_nth2 by lia. by replace (15 - length win)%nat with 0%nat by lia.
    - by rewrite app_nth1 by lia. }
  rewrite !nth_lookup. destruct (decide (j = 15%nat)) as [->|Hne].
  - replace ((S t + 15) mod 16)%nat with (t mod 16)%nat by (replace (S t + 15)%nat with (t + 1 * 16)%nat by lia; by rewrite Nat.Div0.mod_add).
    by rewrite list_lookup_insert_eq by lia.
  - rewrite list_lookup_insert_ne; [|].
    + rewrite <- !nth_lookup. rewrite <- Hwin by lia. f_equal. f_equal. lia.
    + intros E. pose proof (Nat.div_mod t 16 ltac:(lia)). pose proof (Nat.div_mod (S t + j) 16 ltac:(lia)).
      assert ((S t + j) / 16 = t / 16 ∨ (S t + j) / 16 ≠ t / 16)%nat as [?|?] by lia; lia.
Qed.

(** The first 16 words, swapped in place. *)
Lemma rounds_load n t block raw ws s m :
  (t + n = 16)%nat → length block = 16%nat → length raw = 16%nat → length ws = 16%nat →
  (∀ j, (j < t)%nat → nth j block 0 = nth j ws 0) → (∀ j, (t ≤ j)%nat → nth j block 0 = nth j raw 0) →
  (∀ j, (j < 16)%nat → ((rol (nth j raw 0) 24 & 0xFF00FF00) || (rol (nth j raw 0) 8 & 0x00FF00FF))%W = nth j ws 0) →
  rounds (n + m) (Z.of_nat t) block s = rounds m 16 ws (foldl sha1_step s (zip (seq t n) (drop t ws))).
Proof.
  revert t block s. induction n as [|n IH]; intros t block s Ht Hb Hraw Hws H1 H2 Hswap.
  { assert (t = 16%nat) as -> by lia. cbn [Nat.add seq zip_with foldl].
    assert (block = ws) as ->; [|done].
    apply nth_ext with 0 0; [lia|]. intros j Hj. apply H1. lia. }
  destruct s as [[[[v w] x] y] z]. cbn [Nat.add seq].
  assert (blk0 block (Z.of_nat t) = (nth t ws 0, <[t := nth t ws 0]> block)) as Eblk.
  { unfold blk0. rewrite bl_mod, Nat.mod_small, Nat2Z.id, H2, Hswap by lia. done. }
  rewrite (rounds_step (n + m) t block v w x y z (nth t ws 0) (<[t := nth t ws 0]> block)).
  2: { destruct (Z.ltb_spec (Z.of_nat t) 16); [done|lia]. }
  destruct (lookup_lt_is_Some_2 ws t) as [wt Hwt]; [lia|]. rewrite (drop_S ws wt t Hwt). cbn [zip_with foldl].
  rewrite (nth_lookup_Some ws t 0 wt Hwt).
  apply IH; [lia|by rewrite length_insert|done|done| |intros j Hj; rewrite nth_lookup, list_lookup_insert_ne, <- nth_lookup by lia; apply H2; lia|done].
  intros j Hj. rewrite nth_lookup. destruct (decide (j = t)) as [->|Hne].
  - rewrite list_lookup_insert_eq by lia. cbn. symmetry. by apply nth_lookup_Some.
  - rewrite list_lookup_insert_ne, <- nth_lookup by lia. apply H1. lia.
Qed.

Lemma length_memory_words n m : length (memory_words n m) = n.
Proof. revert m. induction n as [|n IH]; intros m; [done|]. cbn [memory_words length]. by rewrite IH. Qed.

Lemma length_be_words n m : length (be_words n m) = n.
Proof. revert m. induction n as [|n IH]; intros m; [done|]. cbn [be_words length]. by rewrite IH. Qed.

Lemma words_swapped n m j :
  Forall byte_ok m → length m = (4 * n)%nat → (j < n)%nat →
  ((rol (nth j (memory_words n m) 0) 24 & 0xFF00FF00) || (rol (nth j (memory_words n m) 0) 8 & 0x00FF00FF))%W =
  nth j (be_words n m) 0.
Proof.
  revert m j. induction n as [|n IH]; intros m j Hm Hl Hj; [lia|]. cbn [memory_words be_words].
  destruct j as [|j]; cbn [nth].
  - apply swap_word; [by apply Forall_take|rewrite length_take; lia].
  - apply IH; [by apply Forall_drop|rewrite length_drop; lia|lia].
Qed.

(** The state after the 80 rounds is the one of the standard. *)
Lemma rounds_spec m s :
  Forall byte_ok m → length m = 64%nat →
  rounds 80 0 (memory_words 16 m) s =
  foldl sha1_step s (zip (seq 0 80) (be_words 16 m ++ sha1_expand 64 (be_words 16 m))).
Proof.
  intros Hm Hl. pose proof (length_be_words 16 m) as Hlw.
  pose proof (rounds_load 16 0 (memory_words 16 m) (memory_words 16 m) (be_words 16 m) s 64) as H.
  rewrite drop_0 in H. change (16 + 64)%nat with 80%nat in H. change (Z.of_nat 0) with 0 in H.
  rewrite H; clear H; try done; try (intros; lia); try (intros j Hj; by apply words_swapped).
  pose proof (rounds_expand 64 16 (be_words 16 m) (be_words 16 m) (foldl sha1_step s (zip (seq 0 16) (be_words 16 m)))) as H.
  change (Z.of_nat 16) with 16 in H. rewrite H; clear H; [|lia|done|done|].
  2: { intros j Hj. replace (16 + j)%nat with (j + 1 * 16)%nat by lia. by rewrite Nat.Div0.mod_add, Nat.mod_small. }
  change 80%nat with (16 + 64)%nat. rewrite seq_app, zip_with_app by (by rewrite length_seq). by rewrite foldl_app.
Qed.

Lemma SHA1_Transform_spec st buffer :
  Forall byte_ok buffer → (64 ≤ length buffer)%nat →
  SHA1_Transform st buffer = Some (sha1_compress st (be_words 16 (take 64 buffer))).
Proof.
  intros Hb Hl. unfold SHA1_Transform, sha1_compress. destruct (Z.ltb_spec (Z.of_nat (length buffer)) 64); [lia|].
  rewrite rounds_spec; [|by apply Forall_take|rewrite length_take; lia].
  destruct (foldl _ _ _) as [[[[a b] c] d] e]. by destruct st as [[[[s0 s1] s2] s3] s4].
Qed.
#[local] Opaque SHA1_Transform sha1_compress.

(** ** Feeding data *)

Lemma sha1_blocks_add n k h m : sha1_blocks (n + k) h m = sha1_blocks k (sha1_blocks n h m) (drop (64 * n) m).
Proof.
  revert h m. induction n as [|n IH]; intros h m; [by rewrite drop_0|]. cbn [Nat.add sha1_blocks]. rewrite IH, drop_drop.
  do 2 f_equal. lia.
Qed.

Lemma sha1_blocks_app n h m rest : (64 * n ≤ length m)%nat → sha1_blocks n h (m ++ rest) = sha1_blocks n h m.
Proof.
  revert h m. induction n as [|n IH]; intros h m Hl; [done|]. cbn [sha1_blocks].
  rewrite take_app_le, drop_app_le by lia. apply IH. rewrite length_drop. lia.
Qed.

Lemma transform_loop_spec fuel st data :
  Forall byte_ok data → (length data < fuel)%nat →
  transform_loop fuel st data =
    Some (sha1_blocks (length data / 64) st data, drop (64 * (length data / 64)) data).
Proof.
  revert st data. induction fuel as [|fuel IH]; intros st data Hd Hf; [lia|]. cbn [transform_loop].
  destruct (Z.ltb_spec 63 (Z.of_nat (length data))) as [H|H].
  - rewrite SHA1_Transform_spec by (done || lia). cbn [mbind option_bind].
    rewrite IH by (try (by apply Forall_drop); rewrite length_drop; lia). rewrite length_drop.
    assert (length data / 64 = S ((length data - 64) / 64))%nat as ->.
    { replace (length data) with (length data - 64 + 1 * 64)%nat at 1 by lia. rewrite Nat.div_add by lia. lia. }
    cbn [sha1_blocks]. rewrite drop_drop. do 3 f_equal. lia.
  - rewrite Nat.div_small by lia. by rewrite drop_0.
Qed.

(** The context after the bytes of [m]. *)
Record fed (m : list Z) (ctx : SHA1_CTX) : Prop := {
  fed_bytes : Forall byte_ok m;
  fed_state : ctx_state ctx = sha1_blocks (length m / 64) sha1_init m;
  fed_count : (ctx_count ctx).1 + 2 ^ 32 * (ctx_count ctx).2 = 8 * Z.of_nat (length m);
  fed_range : 0 ≤ (ctx_count ctx).1 < 2 ^ 32;
  fed_buffer : length (ctx_buffer ctx) = 64%nat ∧ Forall byte_ok (ctx_buffer ctx);
  fed_tail : take (length m mod 64) (ctx_buffer ctx) = drop (64 * (length m / 64)) m }.

Lemma fed_init junk : length junk = 64%nat → Forall byte_ok junk → fed [] (sat_SHA1_Init junk).
Proof. intros Hl Hj. constructor; done. Qed.

(** The length counted in bits, with the carry. *)
Lemma count_add_spec c0 c1 len :
  0 ≤ c0 < 2 ^ 32 → 0 ≤ c1 → 0 ≤ len < 2 ^ 29 → c0 + 2 ^ 32 * c1 + 8 * len < 2 ^ 64 →
  let c := count_add (c0, c1) len in
  c.1 + 2 ^ 32 * c.2 = c0 + 2 ^ 32 * c1 + 8 * len ∧ 0 ≤ c.1 < 2 ^ 32.
Proof.
  intros H0 H1 Hl Hmax. change (2 ^ 64) with (2 ^ 32 * 2 ^ 32) in Hmax. cbv zeta. unfold count_add. cbn [fst snd].
  rewrite Z.shiftl_mul_pow2, Z.shiftr_div_pow2 by lia. change (2 ^ 3) with 8.
  rewrite (wrap_small 64) by (change (2 ^ 64) with (2 ^ 32 * 2 ^ 32); lia). rewrite (Z.div_small len) by lia.
  unfold add32, wrap. rewrite (mod_once (c0 + len * 8)) by (change (2 ^ 32) with (8 * 2 ^ 29) in *; lia).
  destruct (Z.ltb_spec (c0 + len * 8) (2 ^ 32)) as [Hc|Hc].
  - destruct (Z.ltb_spec (c0 + len * 8) (len * 8)); [lia|]. rewrite Z.add_0_r, Z.mod_small by nia. lia.
  - destruct (Z.ltb_spec (c0 + len * 8 - 2 ^ 32) (len * 8)); [|lia]. rewrite Z.add_0_r, Z.mod_mod by lia.
    rewrite Z.mod_small by nia. lia.
Qed.

(** The position in the buffer. *)
Lemma count_position c0 c1 n :
  c0 + 2 ^ 32 * c1 = 8 * Z.of_nat n → Z.land (Z.shiftr c0 3) 63 = Z.of_nat (n mod 64).
Proof.
  intros H. rewrite (land_low _ 6 63), Z.shiftr_div_pow2 by done. rewrite Nat2Z.inj_mod.
  change (2 ^ 3) with 8. change (2 ^ 6) with 64. change (Z.of_nat 64) with 64.
  assert (c0 = 8 * (Z.of_nat n + 64 * (- (2 ^ 23 * c1)))) as ->.
  { change (2 ^ 32) with (8 * 64 * 2 ^ 23) in H. lia. }
  rewrite Z.mul_comm, Z.div_mul by lia. rewrite Z.mul_comm with (n := 64). by rewrite Z_mod_plus_full.
Qed.

Lemma div_mod_64 n : (n = 64 * (n / 64) + n mod 64 ∧ n mod 64 < 64)%nat.
Proof. pose proof (Nat.div_mod n 64 ltac:(lia)). pose proof (Nat.mod_upper_bound n 64 ltac:(lia)). lia. Qed.

Lemma div_mod_unique n q j : (n = 64 * q + j → j < 64 → n / 64 = q ∧ n mod 64 = j)%nat.
Proof.
  intros -> Hj. split; [symmetry; by apply Nat.div_unique with j|symmetry; by apply Nat.mod_unique with q].
Qed.

Lemma write_at_bytes buf pos bytes buf' :
  Forall byte_ok buf → Forall byte_ok bytes → write_at buf pos bytes = Some buf' → Forall byte_ok buf'.
Proof.
  intros Hb Hy. unfold write_at. destruct (_ && _); [|done]. intros [= <-].
  apply Forall_app. split; [by apply Forall_take|]. apply Forall_app. split; [done|by apply Forall_drop].
Qed.

Lemma update_spec m ctx data :
  fed m ctx → Forall byte_ok data → Z.of_nat (length data) < 2 ^ 29 → Z.of_nat (length m + length data) < 2 ^ 61 →
  ∃ ctx', sat_SHA1_Update ctx data = Some ctx' ∧ fed (m ++ data) ctx'.
Proof.
  intros [Hm Hst Hc Hr [Hbl Hbb] Htl] Hd Hlen Hmax. destruct ctx as [st [c0 c1] buf]. cbn [ctx_state ctx_count ctx_buffer fst snd] in *.
  set (q := (length m / 64)%nat) in *. set (j := (length m mod 64)%nat) in *.
  pose proof (div_mod_64 (length m)) as [Hdiv Hj]. fold q j in Hdiv, Hj.
  change (2 ^ 61) with (2 ^ 29 * 2 ^ 32) in Hmax. change (2 ^ 32) with (8 * 2 ^ 29) in Hmax.
  destruct (count_add_spec c0 c1 (Z.of_nat (length data)) Hr) as [Hc' Hr'];
    [change (2 ^ 32) with (8 * 2 ^ 29) in *; lia|lia|change (2 ^ 64) with (8 * (2 ^ 29 * (8 * 2 ^ 29))); lia|].
  assert (Hcount : (count_add (c0, c1) (Z.of_nat (length data))).1 + 2 ^ 32 * (count_add (c0, c1) (Z.of_nat (length data))).2 =
    8 * Z.of_nat (length (m ++ data))) by (rewrite length_app; lia).
  assert (Forall byte_ok (m ++ data)) as Hmd by (by apply Forall_app).
  set (tl := drop (64 * q) m) in *. assert (length tl = j) as Htll by (unfold tl; rewrite length_drop; lia).
  rewrite <- Htll in Htl.
  unfold sat_SHA1_Update. cbn [ctx_state ctx_count ctx_buffer fst snd]. rewrite (count_position c0 c1 (length m) Hc). fold j. rewrite <- Htll.
  destruct (Z.ltb_spec 63 (Z.of_nat (length tl) + Z.of_nat (length data))) as [Hbig|Hsmall].
  - set (i := Z.to_nat (64 - Z.of_nat (length tl))). assert (i = 64 - length tl)%nat as Hi by lia.
    destruct (write_append buf tl (take i data) Htl) as (b1 & E1 & Hl1 & Ht1); [rewrite length_take; lia|].
    rewrite E1. cbn [mbind option_bind]. pose proof (write_at_bytes _ _ _ _ Hbb (Forall_take _ i _ Hd) E1) as Hb1.
    assert (b1 = tl ++ take i data) as Hb1e.
    { rewrite <- Ht1, take_ge; [done|]. rewrite length_app, length_take. lia. }
    rewrite SHA1_Transform_spec by (done || lia). cbn [mbind option_bind].
    rewrite transform_loop_spec by (try (by apply Forall_drop); rewrite length_drop; lia). cbn [mbind option_bind].
    set (rest := drop i data). assert (length rest = length data - i)%nat as Hrest by (unfold rest; by rewrite length_drop).
    pose proof (div_mod_64 (length rest)) as [Hdr Hjr]. set (qr := (length rest / 64)%nat) in *.
    destruct (write_append b1 [] (drop (64 * qr) rest)) as (b2 & E2 & Hl2 & Ht2); [done|rewrite length_drop; cbn [length]; lia|].
    change (Z.of_nat (length (@nil Z))) with 0 in E2. rewrite E2. cbn [mbind option_bind].
    assert (Forall byte_ok rest) as Hro by (by apply Forall_drop).
    pose proof (write_at_bytes _ _ _ _ Hb1 (Forall_drop _ (64 * qr) _ Hro) E2) as Hb2.
    destruct (div_mod_unique (length (m ++ data)) (q + S qr) (length rest mod 64)) as [Hq' Hj'];
      [rewrite length_app; lia|done|].
    assert (Hsplit : drop (64 * q) (m ++ data) = b1 ++ rest).
    { rewrite drop_app_le by lia. fold tl. rewrite Hb1e, <- app_assoc. unfold rest. by rewrite take_drop. }
    eexists. split; [done|]. constructor; cbn [ctx_state ctx_count ctx_buffer]; try done.
    + rewrite Hq', sha1_blocks_add, sha1_blocks_app, <- Hst by lia. rewrite Hsplit. cbn [sha1_blocks].
      rewrite take_app_le, drop_app_ge by lia. by rewrite Hl1, Hbl, Nat.sub_diag, drop_0.
    + split; [lia|done].
    + rewrite Hj', Hq'. replace (64 * (q + S qr))%nat with (64 * q + (64 + 64 * qr))%nat by lia.
      rewrite <- drop_drop, Hsplit, drop_app_ge by lia. rewrite Hl1, Hbl. replace (64 + 64 * qr - 64)%nat with (64 * qr)%nat by lia.
      cbn [app] in Ht2. transitivity (take (length (drop (64 * qr) rest)) b2); [|exact Ht2]. f_equal. rewrite length_drop. lia.
  - destruct (write_append buf tl data Htl) as (b1 & E1 & Hl1 & Ht1); [lia|]. rewrite E1. cbn [mbind option_bind].
    pose proof (write_at_bytes _ _ _ _ Hbb Hd E1) as Hb1.
    destruct (div_mod_unique (length (m ++ data)) q (length tl + length data)) as [Hq' Hj'];
      [rewrite length_app; lia|lia|].
    eexists. split; [done|]. constructor; cbn [ctx_state ctx_count ctx_buffer]; try done.
    + by rewrite Hq', sha1_blocks_app by lia.
    + split; [lia|done].
    + rewrite Hj', Hq', drop_app_le by lia. fold tl. by rewrite <- length_app, Ht1.
Qed.

(** Zeros until 8 bytes are left in the block. *)
Lemma pad_loop_spec fuel m ctx n :
  fed m ctx → Z.of_nat (length m + n) < 2 ^ 60 → ((length m + n) mod 64 = 56)%nat → (n < 64)%nat → (n < fuel)%nat →
  ∃ ctx', pad_loop fuel ctx = Some ctx' ∧ fed (m ++ replicate n 0) ctx'.
Proof.
  revert m ctx n. induction fuel as [|fuel IH]; intros m ctx n Hfed Hmax Hn Hn64 Hf; [lia|]. cbn [pad_loop].
  assert (Z.land (ctx_count ctx).1 504 = 8 * Z.of_nat (length m mod 64)) as ->.
  { rewrite <- (count_position _ _ _ (fed_count _ _ Hfed)).
    rewrite (land_low _ 6 63), Z.shiftr_div_pow2 by done. change (2 ^ 3) with 8. change (2 ^ 6) with 64.
    assert ((ctx_count ctx).1 = 8 * ((ctx_count ctx).1 / 8)) as E.
    { apply Z.div_exact; [lia|]. pose proof (fed_count _ _ Hfed) as Hc.
      replace (ctx_count ctx).1 with (0 + (Z.of_nat (length m) - 2 ^ 29 * (ctx_count ctx).2) * 8) by (change (2 ^ 32) with (8 * 2 ^ 29) in Hc; lia).
      by rewrite Z_mod_plus_full. }
    rewrite E at 1. set (x := (ctx_count ctx).1 / 8). change 504 with (Z.shiftl 63 3). change 8 with (2 ^ 3) at 1.
    rewrite (Z.mul_comm (2 ^ 3)), <- Z.shiftl_mul_pow2, <- Z.shiftl_land by lia.
    rewrite (land_low _ 6 63), Z.shiftl_mul_pow2 by done. change (2 ^ 6) with 64. change (2 ^ 3) with 8. lia. }
  pose proof (div_mod_64 (length m)) as [Hd Hj].
  destruct n as [|n].
  - rewrite Nat.add_0_r in Hn. rewrite Hn. change (8 * Z.of_nat 56 =? 448) with true. cbn match.
    exists ctx. cbn [replicate]. by rewrite app_nil_r.
  - destruct (Z.eqb_spec (8 * Z.of_nat (length m mod 64)) 448) as [E|E].
    { exfalso. assert (length m mod 64 = 56)%nat as E' by lia.
      rewrite <- Nat.Div0.add_mod_idemp_l, E' in Hn. destruct (Nat.lt_ge_cases (56 + S n) 64).
      - rewrite Nat.mod_small in Hn by lia. lia.
      - replace (56 + S n)%nat with (56 + S n - 64 + 1 * 64)%nat in Hn by lia. rewrite Nat.Div0.mod_add, Nat.mod_small in Hn by lia. lia. }
    destruct (update_spec m ctx [0] Hfed) as (ctx1 & -> & Hfed1); [repeat constructor; unfold byte_ok; lia|done| |].
    { cbn [length]. change (2 ^ 61) with (2 * 2 ^ 60). change (2 ^ 60) with (8 * 2 ^ 57) in *. lia. }
    cbn [mbind option_bind].
    destruct (IH (m ++ [0]) ctx1 n) as (ctx2 & E2 & Hfed2); [done| | |lia|lia|].
    { rewrite length_app. cbn [length]. lia. }
    { rewrite length_app. cbn [length]. by replace (length m + 1 + n)%nat with (length m + S n)%nat by lia. }
    exists ctx2. split; [done|]. by rewrite <- app_assoc in Hfed2.
Qed.

(** The bytes of a word, the high one first. *)
Lemma be_bytes_4 w : be_bytes 4 w = [final_byte w 0; final_byte w 1; final_byte w 2; final_byte w 3].
Proof.
  unfold final_byte, be_bytes. rewrite !(land_low _ 8 255) by done. cbn [le_bytes rev app]. rewrite !Z.shiftr_shiftr by lia.
  change ((3 - Z.land 0 3) * 8) with 24. change ((3 - Z.land 1 3) * 8) with 16. change ((3 - Z.land 2 3) * 8) with 8.
  change ((3 - Z.land 3 3) * 8) with 0. by rewrite Z.shiftr_0_r.
Qed.

Lemma final_byte_mod w i : final_byte w i = final_byte w (Z.land i 3).
Proof. unfold final_byte. by rewrite <- Z.land_assoc. Qed.

Lemma be_bytes_8 c0 c1 : 0 ≤ c0 < 2 ^ 32 → be_bytes 8 (c0 + 2 ^ 32 * c1) = be_bytes 4 c1 ++ be_bytes 4 c0.
Proof.
  intros H0. unfold be_bytes. rewrite <- rev_app_distr. f_equal.
  assert (Hsplit : ∀ n k z, le_bytes (n + k) z = le_bytes n z ++ le_bytes k (Z.shiftr z (8 * Z.of_nat n))).
  { intros n k. induction n as [|n IH]; intros z; [cbn [Nat.add le_bytes app]; by rewrite Z.mul_0_r, Z.shiftr_0_r|].
    cbn [Nat.add le_bytes app]. rewrite IH, Z.shiftr_shiftr by lia. do 4 f_equal. lia. }
  rewrite (Hsplit 4%nat 4%nat). change (8 * Z.of_nat 4) with 32. f_equal.
  - pose proof (le_bytes_val (le_bytes 4 c0) (le_bytes_ok _ _)) as E1. rewrite length_le_bytes, le_val_bytes in E1.
    pose proof (le_bytes_val (le_bytes 4 (c0 + 2 ^ 32 * c1)) (le_bytes_ok _ _)) as E2. rewrite length_le_bytes, le_val_bytes in E2.
    rewrite <- E1, <- E2. f_equal. unfold wrap. change (8 * Z.of_nat 4) with 32. by rewrite Z.mul_comm, Z_mod_plus_full.
  - rewrite Z.shiftr_div_pow2 by lia. rewrite Z.mul_comm, Z.div_add, Z.div_small by lia. done.
Qed.

Lemma finalcount_spec c0 c1 :
  0 ≤ c0 < 2 ^ 32 →
  map (λ i, final_byte (if 4 <=? i then c0 else c1) i) [0; 1; 2; 3; 4; 5; 6; 7] = be_bytes 8 (c0 + 2 ^ 32 * c1).
Proof.
  intros H0. rewrite be_bytes_8, !be_bytes_4 by done. cbn [map app].
  rewrite (final_byte_mod _ 4), (final_byte_mod _ 5), (final_byte_mod _ 6), (final_byte_mod _ 7). done.
Qed.

Lemma digest_spec s :
  map (λ i, final_byte (nth (Z.to_nat (Z.shiftr i 2)) (state_list s) 0) i) (map Z.of_nat (seq 0 20)) =
  concat (map (be_bytes 4) (state_list s)).
Proof.
  destruct s as [[[[a b] c] d] e]. cbn [state_list map concat app]. rewrite !be_bytes_4. cbn [seq map app].
  repeat (apply (f_equal2 cons); [rewrite final_byte_mod; reflexivity|]). reflexivity.
Qed.

Lemma sha1_zeros_spec len : ((len + 1 + sha1_zeros len) mod 64 = 56 ∧ sha1_zeros len < 64)%nat.
Proof.
  unfold sha1_zeros. pose proof (div_mod_64 len) as [Hd Hj]. set (q := (len / 64)%nat) in *. set (j := (len mod 64)%nat) in *.
  pose proof (Nat.mod_upper_bound (119 - j) 64 ltac:(lia)). split; [|done].
  destruct (Nat.lt_ge_cases (119 - j) 64).
  - rewrite (Nat.mod_small (119 - j)) by done. replace (len + 1 + (119 - j))%nat with (56 + (q + 1) * 64)%nat by lia.
    by rewrite Nat.Div0.mod_add.
  - replace (119 - j)%nat with (55 - j + 1 * 64)%nat by lia. rewrite Nat.Div0.mod_add, (Nat.mod_small (55 - j)) by lia.
    replace (len + 1 + (55 - j))%nat with (56 + q * 64)%nat by lia. by rewrite Nat.Div0.mod_add.
Qed.

Lemma final_spec m ctx : fed m ctx → Z.of_nat (length m) < 2 ^ 59 → sat_SHA1_Final ctx = Some (sha1 m).
Proof.
  intros Hfed Hmax. change (2 ^ 59) with (2 ^ 56 * 8) in Hmax.
  unfold sat_SHA1_Final. rewrite finalcount_spec by apply Hfed. rewrite (fed_count _ _ Hfed).
  destruct (sha1_zeros_spec (length m)) as [Hz1 Hz2].
  destruct (update_spec m ctx [128] Hfed) as (ctx1 & -> & Hfed1);
    [repeat constructor; unfold byte_ok; lia|done|cbn [length]; change (2 ^ 61) with (2 ^ 56 * 32); lia|].
  cbn [mbind option_bind].
  destruct (pad_loop_spec 65 (m ++ [128]) ctx1 (sha1_zeros (length m)) Hfed1) as (ctx2 & -> & Hfed2);
    [rewrite length_app; cbn [length]; change (2 ^ 60) with (2 ^ 56 * 16); lia|by rewrite length_app|done|lia|].
  cbn [mbind option_bind].
  destruct (update_spec ((m ++ [128]) ++ replicate (sha1_zeros (length m)) 0) ctx2 (be_bytes 8 (8 * Z.of_nat (length m))) Hfed2)
    as (ctx3 & -> & Hfed3).
  { unfold be_bytes. apply Forall_rev, le_bytes_ok. }
  { by rewrite length_be_bytes. }
  { rewrite !length_app, length_replicate, length_be_bytes. cbn [length]. change (2 ^ 61) with (2 ^ 56 * 32). lia. }
  cbn [mbind option_bind]. rewrite digest_spec. unfold sha1. rewrite (fed_state _ _ Hfed3).
  assert (((m ++ [128]) ++ replicate (sha1_zeros (length m)) 0) ++ be_bytes 8 (8 * Z.of_nat (length m)) = sha1_pad m) as ->; [|done].
  unfold sha1_pad. by rewrite <- !app_assoc.
Qed.

(** ** The Lua functions *)

Lemma fed_junk : fed [] (sat_SHA1_Init junk64).
Proof. apply fed_init; [done|]. apply Forall_replicate. done. Qed.

Lemma sha1_of m : Forall byte_ok m → Z.of_nat (length m) < 2 ^ 29 →
  (ctx ← sat_SHA1_Update (sat_SHA1_Init junk64) m; sat_SHA1_Final ctx) = Some (sha1 m).
Proof.
  intros Hm Hl. assert (2 ^ 59 = 2 ^ 29 * 2 ^ 30) as E59 by done. assert (2 ^ 61 = 2 ^ 29 * 2 ^ 32) as E61 by done.
  destruct (update_spec [] _ m fed_junk Hm Hl) as (ctx & -> & Hfed); [cbn [length]; lia|]. cbn [mbind option_bind].
  apply final_spec; [done|]. cbn [app]. lia.
Qed.

Lemma length_sha1 m : length (sha1 m) = 20%nat ∧ Forall byte_ok (sha1 m).
Proof.
  unfold sha1. destruct (sha1_blocks _ _ _) as [[[[a b] c] d] e]. cbn [state_list map concat].
  rewrite !length_app, !length_be_bytes. split; [done|]. unfold be_bytes.
  repeat (apply Forall_app; split; [apply Forall_rev, le_bytes_ok|]). constructor.
Qed.

(** C40: [sha1] is the SHA-1 of FIPS 180, computed on blocks that are expanded in
    place in a context fed in pieces, for every string of less than 2^29 bytes. *)
Theorem lsha1_is_sha1 m : Forall byte_ok m → Z.of_nat (length m) < 2 ^ 29 → lsha1 m = Some (sha1 m).
Proof. apply sha1_of. Qed.

Lemma lsha1_is_sha1_witness : lsha1 (replicate 70 97) = Some (sha1 (replicate 70 97)).
Proof. apply (lsha1_is_sha1 (replicate 70 97)); [apply Forall_replicate; unfold byte_ok; lia|reflexivity]. Defined.

(** The carry into the upper half of the count compares the 32-bit sum with a
    64-bit size: after 2^29 bytes it is one too many. *)
Theorem count_carry_wrong : count_add (0, 0) (2 ^ 29) = (0, 2).
Proof. vm_compute. reflexivity. Qed.

(** *** HMAC *)

Lemma lxor_word m x b :
  Forall byte_ok m → length m = 4%nat → byte_ok b → x = le_val [b; b; b; b] →
  le_bytes 4 (Z.lxor (le_val m) x) = map (Z.lxor b) m.
Proof.
  intros Hm Hl Hb ->. destruct m as [|b0 [|b1 [|b2 [|b3 [|]]]]]; try done.
  rewrite <- (le_bytes_lxor 4). assert (Forall byte_ok [b; b; b; b]) as Hbs by (by rewrite !Forall_cons).
  pose proof (le_bytes_val _ Hm) as E1. pose proof (le_bytes_val _ Hbs) as E2. cbn [length] in E1, E2. rewrite E1, E2.
  cbn [zip_with map]. by rewrite (Z.lxor_comm b0), (Z.lxor_comm b1), (Z.lxor_comm b2), (Z.lxor_comm b3).
Qed.

Lemma xor_key_spec n m x b :
  Forall byte_ok m → length m = (4 * n)%nat → byte_ok b → x = le_val [b; b; b; b] → xor_key n m x = map (Z.lxor b) m.
Proof.
  intros Hm Hl Hb Hx. revert m Hm Hl. induction n as [|n IH]; intros m Hm Hl; [by destruct m|]. cbn [xor_key].
  rewrite (lxor_word _ _ b); [|by apply Forall_take|rewrite length_take; lia|done|done].
  rewrite IH by (try (by apply Forall_drop); rewrite length_drop; lia). by rewrite <- map_app, take_drop.
Qed.

Lemma map_lxor_ok b m : byte_ok b → Forall byte_ok m → Forall byte_ok (map (Z.lxor b) m).
Proof.
  intros Hb Hm. apply List.Forall_map. eapply Forall_impl; [exact Hm|]. intros x Hx. cbn beta. 
  unfold byte_ok in *. split; [apply Z.lxor_nonneg; lia|].
  destruct (Z.eq_dec (Z.lxor b x) 0) as [->|Hne]; [lia|]. change 256 with (2 ^ 8). apply Z.log2_lt_pow2.
  { assert (0 ≤ Z.lxor b x) by (apply Z.lxor_nonneg; lia). lia. }
  eapply Z.le_lt_trans; [apply Z.log2_lxor; lia|]. apply Z.max_lub_lt; [destruct (Z.eq_dec b 0) as [->|]|destruct (Z.eq_dec x 0) as [->|]];
    try done; apply Z.log2_lt_pow2; change (2 ^ 8) with 256; lia.
Qed.

Lemma hmac_key_ok key : Forall byte_ok key → Forall byte_ok (hmac_key key) ∧ length (hmac_key key) = 64%nat.
Proof.
  intros Hk. unfold hmac_key. destruct (Nat.ltb_spec 64 (length key)).
  - destruct (length_sha1 key) as [Hl Hb]. split; [apply Forall_app; split; [done|]; by apply Forall_replicate|].
    rewrite length_app, length_replicate. lia.
  - split; [apply Forall_app; split; [done|]; by apply Forall_replicate|]. rewrite length_app, length_replicate. lia.
Qed.

(** [hmac_sha1] is the HMAC of RFC 2104 over SHA-1: keys longer than a block
    are hashed, the others padded with zeros, and the inner and outer hashes are of
    the key xored with 0x36 and 0x5c; no access is outside the key block or a buffer. *)
Theorem lhmac_sha1_is_hmac key text :
  Forall byte_ok key → Forall byte_ok text →
  Z.of_nat (length key) < 2 ^ 29 → Z.of_nat (length text) < 2 ^ 29 →
  lhmac_sha1 key text = Some (hmac_sha1 key text).
Proof.
  intros Hk Ht Hlk Hlt. unfold lhmac_sha1.
  assert (2 ^ 59 = 2 ^ 29 * 2 ^ 30) as E59 by done. assert (2 ^ 61 = 2 ^ 29 * 2 ^ 32) as E61 by done. assert (20 < 2 ^ 29 ∧ 64 < 2 ^ 29) as [E29 E29'] by done.
  destruct (hmac_key_ok key Hk) as [Hko Hkl].
  assert ((if BLOCKSIZE <? Z.of_nat (length key) then
      ctx ← sat_SHA1_Update (sat_SHA1_Init junk64) key; digest ← sat_SHA1_Final ctx; write_at (replicate (Z.to_nat BLOCKSIZE) 0) 0 digest
    else write_at (replicate (Z.to_nat BLOCKSIZE) 0) 0 key) = Some (hmac_key key)) as ->.
  { assert (Hput : ∀ k : list Z, (length k ≤ 64)%nat → write_at (replicate (Z.to_nat BLOCKSIZE) 0) 0 k = Some (k ++ replicate (64 - length k) 0)).
    { intros k Hl. unfold write_at. rewrite length_replicate. change (Z.to_nat BLOCKSIZE) with 64%nat.
      change (0 <=? 0) with true. destruct (Z.leb_spec (0 + Z.of_nat (length k)) (Z.of_nat 64)); [|lia]. cbn [andb].
      change (Z.to_nat 0) with 0%nat. rewrite take_0. cbn [app Nat.add]. by rewrite drop_replicate. }
    unfold hmac_key, BLOCKSIZE in *. destruct (Z.ltb_spec 64 (Z.of_nat (length key))), (Nat.ltb_spec 64 (length key)); try (exfalso; lia).
    - pose proof (sha1_of key Hk Hlk) as E. destruct (sat_SHA1_Update _ key) as [ctx|]; [|done]. cbn [mbind option_bind] in *.
      rewrite E. cbn [mbind option_bind]. apply Hput. destruct (length_sha1 key). lia.
    - apply Hput. lia. }
  cbn [mbind option_bind]. assert (byte_ok 0x5c ∧ byte_ok 0x36) as [H5c H36] by (unfold byte_ok; lia).
  rewrite (xor_key_spec 16 (hmac_key key) 0x5c5c5c5c 0x5c); [|done|done|done|vm_compute; reflexivity].
  pose proof (map_lxor_ok 0x5c _ H5c Hko) as Ho. pose proof (map_lxor_ok 0x36 _ H36 Hko) as Hi.
  rewrite (xor_key_spec 16 _ (Z.lxor 0x5c5c5c5c 0x36363636) (Z.lxor 0x5c 0x36)); [|exact Ho|by rewrite length_map|vm_compute; done|vm_compute; reflexivity].
  assert (map (Z.lxor (Z.lxor 0x5c 0x36)) (map (Z.lxor 0x5c) (hmac_key key)) = map (Z.lxor 0x36) (hmac_key key)) as ->.
  { rewrite map_map. apply map_ext. intros a. rewrite (Z.lxor_comm 0x5c 0x36), Z.lxor_assoc.
    by rewrite <- (Z.lxor_assoc 0x5c 0x5c), Z.lxor_nilpotent, Z.lxor_0_l. }
  destruct (update_spec [] _ _ fed_junk Ho) as (ctx1 & -> & Hf1); [rewrite length_map; lia|rewrite length_map; cbn [length]; lia|]. cbn [mbind option_bind].
  destruct (update_spec [] _ _ fed_junk Hi) as (ctx2 & -> & Hf2); [rewrite length_map; lia|rewrite length_map; cbn [length]; lia|]. cbn [mbind option_bind].
  destruct (update_spec _ _ text Hf2 Ht) as (ctx3 & -> & Hf3); [lia|cbn [app]; rewrite length_map; lia|]. cbn [mbind option_bind].
  rewrite (final_spec _ _ Hf3) by (cbn [app]; rewrite length_app, length_map; lia). cbn [mbind option_bind app].
  set (d := sha1 _). destruct (length_sha1 (map (Z.lxor 0x36) (hmac_key key) ++ text)) as [Hdl Hdo]. fold d in Hdl, Hdo.
  destruct (update_spec _ _ d Hf1 Hdo) as (ctx4 & -> & Hf4); [lia|cbn [app]; rewrite length_map; lia|]. cbn [mbind option_bind].
  rewrite (final_spec _ _ Hf4) by (cbn [app]; rewrite length_app, length_map; lia). done.
Qed.

Lemma lhmac_sha1_is_hmac_witness : lhmac_sha1 (replicate 80 170) [84; 101] = Some (hmac_sha1 (replicate 80 170) [84; 101]).
Proof.
  apply (lhmac_sha1_is_hmac (replicate 80 170) [84; 101]); try reflexivity;
    [apply Forall_replicate; unfold byte_ok; lia|repeat constructor; unfold byte_ok; lia].
Defined.
